(* ===== verification/_CoqProject ===== *)
-Q . S2P
Prelude.v
RustStr.v
External.v
Concrete.v
RustChar.v
Classification.v
Policy.v
Approval.v
ApprovalService.v
ApprovalProps.v
PendingSql.v
PendingSqlLaws.v
PendingRace.v
Events.v
UriRedact.v
Redaction.v
AuditService.v
AuditProps.v
Governance.v
Authorization.v
AuthorizationProps.v
Runtime.v
RuntimeConfig.v
RuntimeRuns.v
RuntimeSafety.v
RuntimeResolve.v
Middleware.v
MiddlewareProps.v
DependencyOrder.v
DependencyOrderProps.v
ConnTree.v
ConnTreeProps.v
TreeManager.v
NodeId.v
NodeIdProps.v
Tasks.v
TasksProps.v
Shutdown.v
TransactionControl.v
SqlLexer.v
SqlLexerProps.v
SqlDialect.v
VisualQuery.v
VisualQueryProps.v
TableBrowser.v
SemanticFilter.v
CrudRequests.v
StatementBuilder.v
SqlSafety.v
SqlDialectProps.v
FilterParser.v
FilterParserProps.v
FilterRoundtrip.v
FilterResolve.v
SqlSafetyProps.v
SqlCode.v
LexedDialect.v
SemanticFilterProps.v
StatementBuilderProps.v
CreateTableProps.v
LanguageService.v
DelimitedScan.v
DelimitedScanProps.v
PagedReader.v
PagedReaderProps.v
DelimitedWriter.v
DelimitedRender.v
DelimitedWriterProps.v
DelimitedPlan.v
DelimitedEdits.v
RustOrd.v
SchemaDrift.v
SchemaDriftProps.v
DriftCheck.v
QueryTables.v
DriftCheckProps.v
Transfer.v
TransferProps.v
DdlApply.v
DdlApplyProps.v
