(* ===== verification/Prelude.v ===== *)
(** * DBFlux: a verification library

    DBFlux is a desktop database client (a Rust workspace under src/crates).
    Besides its user interface and drivers it has an MCP server, through which
    AI agents call tools on a person's database connections.  This library
    models the parts of the program that decide and keep state, and proves what
    makes them correct:

    - governance, from the policy engine to the middleware of the MCP server:
      what an agent may do, which calls wait for a person, and what is audited;
    - the reading of queries: the lexers, the class of a script and transaction
      control;
    - the writing of queries: filters as a person or an agent gives them, the
      visual query, and the SQL built from them and from the changes of a row;
    - schema changes: comparing schemas, the drift of cached tables, and applying
      selected differences;
    - transfers: loading tables from one database into another;
    - delimited files: scanning, reading in pages and saving edits;
    - the model behind the interface: the identifiers of the schema tree, the
      load order of tables, the tree of connections, the background tasks and
      the shutdown.

    ** Governance: parts and files

    A tool call enters at [authorize_and_execute] (dbflux_mcp_server,
    governance.rs).  The middleware reads the profile of the connection, asks
    the runtime (dbflux_mcp, runtime.rs) to authorize the call, and only then
    runs the tool's handler.  The runtime builds a policy engine (dbflux_policy)
    from its configuration and calls [authorize_request_with_approval]
    (dbflux_mcp, server/authorization.rs) with itself as the approval gate; the
    gate uses the approval service (dbflux_approval) over a store in memory or
    in SQLite (dbflux_storage, pending_executions.rs).  Authorization, approvals,
    rejections and executions are recorded by the audit service (dbflux_audit),
    which validates, redacts and caps events before they are stored.

    - Prelude: results, the state-and-error monad, machine integers, sorting,
      shared automation (this file).
    - RustStr: Rust string slices as UTF-8 bytes, with [trim] and friends.
    - External: what the program takes from outside the repository (identifiers,
      JSON, regular expressions, hashing, clock, random source, database
      failures, hash-map order) as type classes with their documented laws.
    - Concrete: an instance of every such class, used by the witnesses.
    - RustChar: texts as lists of characters, for the lexers; the character
      classes of Unicode as a class with its laws on ASCII.
    - Classification: dbflux_policy classification.rs and schema_alter.rs.
    - Policy: dbflux_policy engine.rs, assignments.rs and trusted_clients.rs.
    - Approval: dbflux_approval store.rs; the trait as class
      [PendingExecutionStore], what it promises as class [PendingStoreLaws], the
      in-memory store.
    - ApprovalService, ApprovalProps: dbflux_approval service.rs, its runs and
      what holds in all of them.
    - PendingSql, PendingSqlLaws, PendingRace: dbflux_storage
      pending_executions.rs; its rows and statements, the proof that it keeps
      the laws of the interface, and the interleavings of several processes.
    - Events: dbflux_core observability (types.rs, context.rs, actions.rs,
      source.rs).
    - UriRedact: dbflux_core core/error_formatter.rs, the URL part.
    - Redaction: dbflux_audit redaction.rs.
    - AuditService, AuditProps: dbflux_audit lib.rs ([record] and what it calls),
      purge.rs, store/sqlite.rs and dbflux_storage repositories/audit.rs (the
      write path).
    - Governance: dbflux_mcp governance_service.rs, tool_catalog.rs,
      built_ins.rs, server/router.rs, server/request_context.rs,
      server/bootstrap.rs.
    - Authorization, AuthorizationProps: dbflux_mcp server/authorization.rs.
    - Runtime, RuntimeConfig, RuntimeRuns, RuntimeSafety, RuntimeResolve:
      dbflux_mcp runtime.rs and handlers/approval.rs.
    - Middleware, MiddlewareProps: dbflux_mcp_server governance.rs and the parts
      of state.rs it reads.

    ** Queries: parts and files

    The class of a script, which governance takes as given, comes from
    dbflux_core query/safety.rs: a script is lexed by the rules of four dialects
    and gets the strictest class.  query/language_service.rs picks the
    classifier for a query language and warns of dangerous statements; the query
    tool (dbflux_mcp, handlers/query.rs) passes the class to the policy engine.

    - SqlLexer, SqlLexerProps: the lexical rules and the tokenizer of
      query/safety.rs.
    - SqlSafety, SqlSafetyProps: its classification of statements and scripts.
    - LanguageService: query/language_service.rs and
      handlers/query.rs.
    - TransactionControl: sql/transaction_control.rs and
      query/tx_vocab.rs.

    ** Written queries: parts and files

    A filter reaches the program in two forms.  A person types one in the filter
    box of a table (query/relational_filter): it is parsed and its paths through
    foreign keys are resolved to joins of a visual query.  An agent sends a JSON
    object (query/semantic.rs): it is parsed to a semantic filter, which is
    rendered as SQL or converted to the tree of a visual query.  The statement
    builder (sql/query_builder.rs) puts filters, row identities and values
    together over a dialect.  What it writes is read back with the lexer of
    SqlLexer.

    - SqlDialect, SqlDialectProps: dbflux_core sql/dialect.rs and
      query/keyset.rs; the trait as class [SqlDialect], values, the default
      dialect.
    - SqlCode, LexedDialect: sequences of tokens with the gaps between them, and
      what a dialect promises of its names, literals and upserts as class
      [LexedDialect]; the default dialect keeps it.  Dialects of drivers that do
      not quote names, or escape by backslash, are outside the class.
    - VisualQuery, VisualQueryProps: query/visual_query.rs, and how the grid
      finds the key of a row.
    - TableBrowser: query/table_browser.rs.
    - FilterParser, FilterParserProps, FilterRoundtrip:
      query/relational_filter/parser.rs.  The parsing of floating-point numbers is
      the class [FloatParse], and the texts of those that read back [FloatText].
    - FilterResolve: query/relational_filter/resolver.rs and
      mod.rs, and which key a segment of a path names, in its own words.
    - SemanticFilter, SemanticFilterProps: query/semantic.rs, its filters.
    - CrudRequests: data/crud.rs.
    - StatementBuilder, StatementBuilderProps, CreateTableProps:
      sql/query_builder.rs, and [delete_records] of dbflux_mcp_server
      tools/destructive.rs, for document stores and for SQL connections.

    ** Schema changes: parts and files

    Two descriptions of a table are compared (dbflux_core schema/); before a query
    runs, the tables it names are fetched and compared with the cached ones; and
    the differences a person selects are applied to a database
    (dbflux_ui_document schema_diff/), by statements of the driver's generator or
    by one request to the driver's planner.

    - RustOrd: the order of Rust's standard types, and sorting by it.
    - SchemaDrift, SchemaDriftProps: schema/schema_drift.rs; the
      differences of tables and schemas, and the request made of selected ones.
    - DriftCheck, DriftCheckProps: schema/fingerprint.rs and
      schema/drift_check.rs, and what code/execution.rs writes back to the cache.
    - QueryTables: schema/query_parser.rs.
    - DdlApply, DdlApplyProps: schema_diff/diff_source.rs and schema_diff/apply.rs.
      [DdlDriver] is what they use of a driver, [TransactionLaws],
      [AutocommitLaws] and, for the tables a driver alters by a plan of its own,
      [PlanLaws] its contract.

    ** Transfers: parts and files

    A migration (dbflux_transfer) resolves the load order of its tables and runs a
    pipeline per table: a source reads the table in pages, a column map projects
    the rows, a sink prepares the target table and inserts the rows, inside a
    transaction where the target has them.  A token set by another thread cancels it between pages.

    - Transfer, TransferProps: column_map.rs, pipeline.rs, table_source.rs,
      table_sink.rs and migration.rs.  The traits of the pipeline are the classes
      [RowSource], [ColumnMap] and [RowSink]; [TransferDriver] is what they use of
      a connection, [SourceLaws], [TargetLaws] and [IntegrityLaws] its contract.

    ** Delimited files: parts and files

    A delimited file (dbflux_delimited) is read in pages: one state machine finds
    the records in windows of the source, and an index keeps where pages start.
    A set of edits that names records by their byte ranges is saved by copying
    the rest of the file by range and rendering the edited records.

    - DelimitedScan, DelimitedScanProps: the dialect, the state machine of
      reader.rs, and the records of a text as its only division.
    - PagedReader, PagedReaderProps: [PagedReader] of reader.rs over the trait
      [ByteSource] of dbflux_byte_source.
    - DelimitedWriter: writer.rs.
    - DelimitedRender: rendered fields and records, and texts put together from
      records.
    - DelimitedWriterProps, DelimitedPlan, DelimitedEdits: runs of the writer, the
      text it writes while it walks over the plan, the plan of an edit set, the
      saved file, and the errors.

    ** The model behind the interface: parts and files

    - NodeId, NodeIdProps: dbflux_core schema/node_id.
    - DependencyOrder, DependencyOrderProps: schema/dependency_order.rs.
    - ConnTree, ConnTreeProps: connection/tree.rs; its operations,
      the forest they keep, and the order of siblings.
    - TreeManager: connection/tree_manager.rs over a store.
    - Tasks, TasksProps: core/task.rs, with the slot of a replaceable task.
    - Shutdown: core/shutdown.rs, with its atomic steps interleaved.

    ** How the code is modelled

    A struct is a [Record], an enum an [Inductive] with the same constructors, a
    trait a [Class].  A method on [&mut self] that returns a [Result] is a
    function [SM S E A] from the state to the new state and the result; an early
    return with [?] keeps the effects made before it.  The environment is part
    of the state ([World]): the sequence of clock readings, of random
    identifiers and of database calls with the error of each call that fails,
    and how many of each were used.  So a theorem over all worlds covers every
    clock and every pattern of database failures.  A [HashMap] is a [gmap], or an
    association list where its order shows; code that iterates one goes through
    [HashOrder], an arbitrary permutation of the entries, and the theorems hold
    for each.  Strings are their UTF-8 bytes, or lists of characters where the
    code walks characters.  Integers have their width, with wrap-around written
    out.  A call that can stop the thread (a slice outside a text, an index out
    of range) is an [option].  A SQLite table is a list of rows of text and
    integers, and each statement filters or rewrites it.  Tokens that tasks
    share are cells of a store.  Locks and [async] scheduling inside one process
    are sequential steps; the statements of several processes on the shared file
    are interleaved in PendingRace, the atomic operations of several threads in
    Shutdown.

    ** What is proved

    - Policy decisions: evaluation equals a declarative decision on the union of
      the assigned policies, grants are additive, unknown roles are the only
      error, neither hash order nor other actors matter; the built-in policies
      never let a mutation run unasked.
    - Approvals: over any store that keeps the laws, in every run an approval is
      consumed at most once and only for the call it was given for, after a
      request and an approval and before expiry; what approve and reject do on
      every branch; an approved call does go through, once.  The in-memory and
      the SQLite store keep the laws, and SQLite answers as the in-memory store
      does.  Racing processes never take the same approval, as long as approvals
      are given to entries that are still pending when the statement runs; one
      theorem shows what happens otherwise.
    - Audit: validation is a table of required fields, recording appends one row
      or none, stored details are bounded, hide sensitive keys and fingerprint
      query text, URL passwords are replaced, purging in batches of less than
      2^63 rows ends and removes exactly the old rows.
    - Authorization: a call is allowed only past every check, every refusal names
      its cause, the gate is consulted only when a policy asks for approval,
      every answer leaves one audit row, and a call is answered when nothing
      outside fails.
    - Runtime: a run of the runtime refines a run of the approval service; an
      approval lets one call through, and only after a person approved that very
      call; decisions do not depend on hash order; a rejection is audited before
      it takes effect, an approval after (and can take effect unaudited).
    - Middleware: a handler runs only for a call that passed governance, never a
      mutation on a read-only connection, and an executed call leaves two audit
      rows linked by its correlation id.
    - Queries: lexing ends and reads plain code back; a script that runs without
      asking holds at most one statement in every dialect, and it reads;
      classification returns but for one kind of MongoDB script; a leading
      comment hides nothing from the warnings; SQL counts as transaction control
      exactly when it plainly reads as one statement of a known form, by a reading
      of texts that does not use the lexer of the code.
    - Written SQL: quoted names and literals are one token whatever they hold, a
      [DROP TABLE] drops one table, the keyset predicate is the lexicographic
      order of the key, and each of its parameters is bound to the value of its
      column.  In a dialect that keeps [LexedDialect] a built statement, an upsert
      included, lexes to its keywords, names and literals in order, so it is one
      statement of its kind whatever the values hold; so is a [CREATE TABLE],
      whatever the column types hold, since a type
      that could end its line is refused.  The delete tool refuses an empty filter
      for every category of database; a document store gets the filter as it came,
      and any other connection a statement with a condition that names a column.
    - Filters: parsing answers for every text and reads a printed filter back,
      finite floating-point numbers included; a resolved filter keeps its tree,
      each predicate names the alias of the table its path leads to, and a path
      that leads nowhere is refused with its segment; aliases are distinct unless
      a table is named like a numbered one.
      The JSON form reads back, every JSON filter gets an answer, and a converted
      filter holds of the same rows under the same three-valued logic.
    - Visual queries and requests: nodes get the numbers of a counter, an
      editable row is addressed by the key of its own table when the columns have
      distinct names, requests survive their serialized form.
    - Schema changes: adding, removing and altering what [diff_schema] lists leads
      from the one schema to the other, and nothing is listed exactly when the two
      agree.  Selected column changes that were reported are accepted, the request
      does what they do and expects the values that were compared.  A drift the
      fingerprint covers is reported in full, and once its outcome is written back
      the same check reports nothing.  The counts of a run are the statements the
      database holds, for tables altered by statements and by the driver's plan, a
      selection is never applied in part, and a refused policy changes nothing.
      The tables of printed clauses are read back.
    - Transfers: each column reads the source column of its name or of the last
      override.  A migration returns, and the status of each table accounts for the
      rows the target holds: all of the source, projected, when no token was set;
      none when the table failed on a target with transactions, and the first rows
      on one without, as the SQLite driver.  No transaction is left open, and the
      checks of references are restored or the failure is reported.  Every table is
      loaded after those it references.  One example shows a token set between its two
      readings: the table ends early and is reported as completed.
    - Delimited files: a page holds the records of the content, whatever was read
      or forgotten before, whichever window and whichever calls of the source
      failed, and after a change from the start of a record on the reader has the
      pages of the new content.  Rendered records read back as their fields.  A
      saved file has exactly the records that the edits leave, with their fields,
      without edits it is the source, and an error found before writing leaves
      the sink empty.  Encodings are a parameter ([EncodingLib]); that a field
      decodes to what was encoded is a hypothesis ([decodes_back]).
    - Identifiers: an id parses back exactly when its names hold no separator.
    - Load order: the order lists every table, a parent comes before its
      children, and a full order exists exactly when the references are acyclic.
    - Connections: every call keeps the tree a forest and saves what it changed;
      removing a node takes its subtree; a moved node stands where it was put.
    - Tasks and shutdown: task records stay consistent, outcomes are final,
      details stay within their limit, a slot keeps only its newest task, and one
      call of many initiates the shutdown.

    ** Bounds and fuel

    Loops that are not structural carry fuel or a number of rounds, and a theorem
    shows that what is given is enough for a result.  The envelope loop of
    [build_truncated_envelope] and the purge loop: [truncated_details_fit],
    [purge_removes_exactly_the_old_rows].  The cursor loops of the URL redaction
    are bounded by the length of the text, which every round shortens.  [scan]
    and [lex_loop] have a round per character ([tokenize_ends], [lex_ends]), so
    has [strip_comments].  The drain of the load order and the depth of Tarjan's
    search are bounded by the number of tables
    ([load_order_lists_every_table], [tarjan_lists_all]).  The filter scanner has
    a round per byte and its parser a round per token ([filter_parse_answers]);
    [parse_filter] has as many as the document has nodes, and stops only on
    strings that hold strings without end ([filter_json_is_read]);
    [type_name_loop] has a round per character, and a type that needed more would
    be refused.  [climbs_to] follows at
    most as many parents as a forest has nodes ([would_create_cycle_decides]),
    and [remove_node] takes a node per round.  The reader's loops fetch a byte per
    round at least ([pages_are_those_of_the_content] has no case for rounds used
    up), the writer's copy a byte or take a record
    ([refusals_leave_the_sink_empty]).  The scanner of table names has a round per
    character and its parser one per token ([tokenize_rounds], [parse_rounds]).
    A transfer needs a round more than its table has rows
    ([migration_accounts_for_its_tables], and for every behaviour of the target
    [referential_integrity_is_restored]), tables have fewer than 2^32 rows there,
    since the offset of a source is a u32.  Counts of rows (u64) do not wrap.
    Clock and lifetime below 2^62 ms
    keep expiry sums in range ([request_expires_after_ttl]).

    ** What is not modelled

    The tools themselves (a handler is a parameter of the middleware), drivers,
    user interface, networking and file formats other than delimited text are
    not modelled; nor are dialect detection and column profiles of delimited
    files, the code generators and planners of the drivers, the aggregate
    requests and the statements the visual query becomes, and the read side of
    the audit log (queries, aggregation, export), the log bridge, panic reports,
    the settings storage, the diagnostics and code actions of the editor (which
    use a third-party parser), and the snapshots of tasks that the interface
    lists. The regex, JSON, SHA-256, UUID and SQLite implementations, the text
    of floating-point numbers and dates ([ValueLib], [ValueTexts]), the parsing
    and range of floating-point numbers ([FloatParse], [FloatText],
    [FloatRange]) and the character classes of Unicode ([CharLib], [CharLaws])
    are parameters with their documented laws.

    Left for an extension: IPC framing (dbflux_ipc), the value cache and dotenv
    files (values/), import conflicts (dbflux_portability), the join conditions
    and time macros (query/), and the import and export of files, which use the
    same pipeline (dbflux_transfer). *)

From stdpp Require Export base gmap strings list fin_maps sets numbers relations.
From Stdlib Require Export ZArith Ascii.

#[export] Set Warnings "-clear-no-such-hyp,-register-all".

#[global] Open Scope Z_scope.

(** ** Results: Rust's [Result<T, E>] *)

Inductive result (T E : Type) : Type :=
| Ok (x : T)
| Err (e : E).
Arguments Ok {T E} _.
Arguments Err {T E} _.

Definition is_ok {T E} (r : result T E) : bool :=
  match r with Ok _ => true | Err _ => false end.

(** [Result::map_err]. *)
Definition map_err {T E F} (f : E -> F) (r : result T E) : result T F :=
  match r with Ok x => Ok x | Err e => Err (f e) end.

(** [Result::map]. *)
Definition map_ok {T U E} (f : T -> U) (r : result T E) : result U E :=
  match r with Ok x => Ok (f x) | Err e => Err e end.

(** [Option::ok_or]. *)
Definition ok_or {T E} (o : option T) (e : E) : result T E :=
  match o with Some x => Ok x | None => Err e end.

(** [iter().map(f).collect::<Result<Vec<_>, _>>()]: the first error wins. *)
Fixpoint try_map {A B E} (f : A -> result B E) (l : list A) : result (list B) E :=
  match l with
  | [] => Ok []
  | x :: l' =>
      match f x with
      | Err e => Err e
      | Ok y =>
          match try_map f l' with
          | Err e => Err e
          | Ok ys => Ok (y :: ys)
          end
      end
  end.

(** ** Stateful fallible code

    A Rust method on [&mut self] that returns a [Result] is a function from
    the state to the new state and the result.  An error does not undo the
    effects that came before it: the state at the point of the early return
    is kept. *)

Definition SM (S E A : Type) : Type := S -> S * result A E.

Definition sm_ret {S E A} (x : A) : SM S E A := fun s => (s, Ok x).
Definition sm_err {S E A} (e : E) : SM S E A := fun s => (s, Err e).
Definition sm_bind {S E A B} (f : A -> SM S E B) (m : SM S E A) : SM S E B :=
  fun s => match m s with
           | (s', Ok x) => f x s'
           | (s', Err e) => (s', Err e)
           end.
Definition sm_get {S E} : SM S E S := fun s => (s, Ok s).
Definition sm_modify {S E} (f : S -> S) : SM S E unit := fun s => (f s, Ok tt).
Definition sm_state {S E A} (f : S -> S * A) : SM S E A :=
  fun s => let '(s', x) := f s in (s', Ok x).
Definition sm_lift {S E A} (r : result A E) : SM S E A := fun s => (s, r).

(** [.map_err(f)] on the result of a stateful call. *)
Definition sm_map_err {S E F A} (f : E -> F) (m : SM S E A) : SM S F A :=
  fun s => let '(s', r) := m s in (s', map_err f r).

(** Run a computation on a component of the state. *)
Definition sm_zoom {S T E A} (get : S -> T) (put : T -> S -> S) (m : SM T E A)
  : SM S E A :=
  fun s => let '(t, r) := m (get s) in (put t s, r).

#[export] Instance sm_mret {S E} : MRet (SM S E) := fun A x => sm_ret x.
#[export] Instance sm_mbind {S E} : MBind (SM S E) := fun A B f m => sm_bind f m.

(** Unfold the monad down to matches on results. *)
Ltac sm_unfold :=
  unfold mret, sm_mret, sm_ret, mbind, sm_mbind, sm_bind, sm_get, sm_modify,
    sm_state, sm_zoom, sm_lift, sm_map_err, sm_err, map_err.
Ltac sm_unfold_in H :=
  unfold mret, sm_mret, sm_ret, mbind, sm_mbind, sm_bind, sm_get, sm_modify,
    sm_state, sm_zoom, sm_lift, sm_map_err, sm_err, map_err in H.

Declare Scope rust_scope.
Delimit Scope rust_scope with rust.
#[global] Open Scope rust_scope.

(** [let x = r?; k] on plain results. *)
Notation "'let?' x ':=' r 'in' k" :=
  (match r with Ok x => k | Err e => Err e end)
  (at level 10, x name, r at level 100, k at level 200)
  : rust_scope.

(** ** Machine integers *)

Definition i64_min : Z := - 2 ^ 63.
Definition i64_max : Z := 2 ^ 63 - 1.
Definition in_i64 (z : Z) : Prop := i64_min <= z <= i64_max.

(** Two's-complement wrap-around to 64 bits: what [i64] addition computes in
    a release build, where overflow checks are off. *)
Definition i64_wrap (z : Z) : Z := (z + 2 ^ 63) mod 2 ^ 64 - 2 ^ 63.
Definition i64_add (a b : Z) : Z := i64_wrap (a + b).

(** The same for [i32]. *)
Definition i32_wrap (z : Z) : Z := (z + 2 ^ 31) mod 2 ^ 32 - 2 ^ 31.
Definition in_i32 (z : Z) : Prop := - 2 ^ 31 <= z < 2 ^ 31.

(** ** Sorting

    [v.sort_by(|l, r| key(l).cmp(&key(r)))]: a stable sort by the bytes of the
    key. *)

Fixpoint insert_by_key {A} (key : A -> string) (x : A) (l : list A) : list A :=
  match l with
  | [] => [x]
  | y :: l' => if String.leb (key x) (key y) then x :: l else y :: insert_by_key key x l'
  end.

Definition sort_by_key {A} (key : A -> string) (l : list A) : list A :=
  foldr (insert_by_key key) [] l.

(** A stable sort by any total preorder, given as a test. *)
Fixpoint insert_with {A} (le : A -> A -> bool) (x : A) (l : list A) : list A :=
  match l with
  | [] => [x]
  | y :: l' => if le x y then x :: l else y :: insert_with le x l'
  end.

Definition sort_with {A} (le : A -> A -> bool) (l : list A) : list A :=
  foldr (insert_with le) [] l.

(** ** Automation

    [dbflux] collects the facts that close the common side conditions: what a
    clock reading or a database call does to the environment, sublists left by
    filters, and the steps of the monad on known results. *)

Create HintDb dbflux.
Create Rewrite HintDb dbflux.

(** ** Facts on the monad *)

Lemma sm_bind_inv {S E A B} (m : SM S E A) (f : A -> SM S E B) s s2 r :
  (m ≫= f) s = (s2, r) ->
  (exists x s1, m s = (s1, Ok x) /\ f x s1 = (s2, r)) \/
  (exists e, m s = (s2, Err e) /\ r = Err e).
Proof.
  unfold mbind, sm_mbind, sm_bind. destruct (m s) as [s1 [x|e]]; intros Heq; [left|right].
  - eauto.
  - simplify_eq. eauto.
Qed.

Lemma sm_bind_ok {S E A B} (m : SM S E A) (f : A -> SM S E B) s s1 x :
  m s = (s1, Ok x) -> (m ≫= f) s = f x s1.
Proof. unfold mbind, sm_mbind, sm_bind. by intros ->. Qed.

Lemma sm_bind_err {S E A B} (m : SM S E A) (f : A -> SM S E B) s s1 e :
  m s = (s1, Err e) -> (m ≫= f) s = (s1, Err e).
Proof. unfold mbind, sm_mbind, sm_bind. by intros ->. Qed.

(** Split a run of [x ← m; k] into the run of [m] and that of [k x]. *)
Tactic Notation "sm_inv" hyp(H) "as" simple_intropattern(x) simple_intropattern(s)
    simple_intropattern(H1) simple_intropattern(e) simple_intropattern(H2) :=
  apply sm_bind_inv in H as [(x & s & H1 & H)|(e & H1 & H2)].

Lemma sm_lift_Ok_bind {S E A B} (x : A) (f : A -> SM S E B) s :
  (sm_lift (Ok x) ≫= f) s = f x s.
Proof. reflexivity. Qed.

Lemma sm_lift_Err_bind {S E A B} (e : E) (f : A -> SM S E B) s :
  (sm_lift (Err e) ≫= f) s = (s, Err e).
Proof. reflexivity. Qed.

(** Run the lifted results at the head of a computation. *)
#[export] Hint Rewrite @sm_lift_Ok_bind @sm_lift_Err_bind : dbflux.
Ltac sm_step H := autorewrite with dbflux in H.

Lemma sm_map_err_inv {S E F A} (f : E -> F) (m : SM S E A) s s' r :
  sm_map_err f m s = (s', r) -> exists r0, m s = (s', r0) /\ r = map_err f r0.
Proof.
  unfold sm_map_err. destruct (m s) as [s1 r0]. intros [= <- <-]. eauto.
Qed.

Lemma sm_zoom_inv {S T E A} (get : S -> T) (put : T -> S -> S) (m : SM T E A) s s' r :
  sm_zoom get put m s = (s', r) -> exists t, m (get s) = (t, r) /\ s' = put t s.
Proof.
  unfold sm_zoom. destruct (m (get s)) as [t r0]. intros [= <- <-]. eauto.
Qed.

(** ** Facts on lists *)

Lemma filter_elem {A} (p : A -> bool) (l : list A) x :
  x ∈ List.filter p l <-> x ∈ l /\ p x = true.
Proof. by rewrite !list_elem_of_In, List.filter_In. Qed.

Lemma elem_of_snoc {A} (l : list A) x y : x ∈ l ++ [y] <-> x ∈ l \/ x = y.
Proof. by rewrite elem_of_app, list_elem_of_singleton. Qed.

Lemma filter_sublist {A} (p : A -> bool) (l : list A) : List.filter p l `sublist_of` l.
Proof.
  induction l as [|x l IH]; simpl; [done|]. destruct (p x); by constructor.
Qed.

#[export] Hint Resolve filter_sublist : dbflux.

Lemma insert_elem {A} (l : list A) i x y : y ∈ <[i := x]> l -> y = x \/ y ∈ l.
Proof.
  intros [j Hj]%list_elem_of_lookup.
  destruct (decide (i = j)) as [->|Hne].
  - assert (j < length l)%nat.
    { rewrite <- (length_insert l j x). by eapply lookup_lt_Some. }
    rewrite list_lookup_insert_eq in Hj by done. naive_solver.
  - rewrite list_lookup_insert_ne in Hj by done. right.
    apply list_elem_of_lookup. eauto.
Qed.

Lemma insert_with_perm {A} le (x : A) l : insert_with le x l ≡ₚ x :: l.
Proof.
  induction l as [|y l IH]; simpl; [done|]. destruct (le x y); [done|].
  rewrite IH. constructor.
Qed.

Lemma sort_with_perm {A} le (l : list A) : sort_with le l ≡ₚ l.
Proof.
  induction l as [|x l IH]; simpl; [done|]. by rewrite insert_with_perm, IH.
Qed.

Lemma try_map_Ok {A B E} (f : A -> result B E) l l' :
  try_map f l = Ok l' <-> Forall2 (fun x y => f x = Ok y) l l'.
Proof.
  split.
  - revert l'. induction l as [|x l IH]; intros l'; simpl; [intros [= <-]; constructor|].
    destruct (f x) as [y|] eqn:Hx; [|done]. destruct (try_map f l) as [ys|]; [|done].
    intros [= <-]. constructor; auto.
  - induction 1 as [|x y l l' Hx _ IH]; simpl; [done|]. by rewrite Hx, IH.
Qed.

(** ** Facts on integers *)

Lemma i64_wrap_id z : in_i64 z -> i64_wrap z = z.
Proof.
  unfold in_i64, i64_min, i64_max, i64_wrap. intros. rewrite Z.mod_small; lia.
Qed.

Lemma i32_wrap_id z : in_i32 z -> i32_wrap z = z.
Proof. unfold in_i32, i32_wrap. intros. rewrite Z.mod_small; lia. Qed.

Lemma i64_wrap_range z : in_i64 (i64_wrap z).
Proof.
  unfold in_i64, i64_min, i64_max, i64_wrap.
  pose proof (Z.mod_pos_bound (z + 2 ^ 63) (2 ^ 64) eq_refl). lia.
Qed.
#[export] Hint Resolve i64_wrap_range : dbflux.
