(* ===== verification/RustStr.v ===== *)
(** * Rust string slices

    A Rust [&str] or [String] is modelled by a Rocq [string] that holds its
    UTF-8 bytes.  This file models what the sources use of [str]: [trim],
    [trim_end], [chars().take(n)], [starts_with], [to_ascii_lowercase], and the
    facts the components need about them. *)

From S2P Require Import Prelude.

(** ** Bytes and characters *)

Definition bytes_of (s : string) : list ascii := String.list_ascii_of_string s.
Definition of_bytes (l : list ascii) : string := String.string_of_list_ascii l.

(** UTF-8 encoding of one scalar value. *)
Definition utf8_encode (c : N) : list ascii :=
  (if c <? 128 then [ascii_of_N c]
   else if c <? 2048 then
     [ascii_of_N (192 + c / 64); ascii_of_N (128 + c mod 64)]
   else if c <? 65536 then
     [ascii_of_N (224 + c / 4096); ascii_of_N (128 + (c / 64) mod 64);
      ascii_of_N (128 + c mod 64)]
   else
     [ascii_of_N (240 + c / 262144); ascii_of_N (128 + (c / 4096) mod 64);
      ascii_of_N (128 + (c / 64) mod 64); ascii_of_N (128 + c mod 64)])%N.

(** The characters with the Unicode property White_Space, which is what
    [char::is_whitespace] tests. *)
Definition white_space : list N :=
  [9; 10; 11; 12; 13; 32; 133; 160; 5760;
   8192; 8193; 8194; 8195; 8196; 8197; 8198; 8199; 8200; 8201; 8202;
   8232; 8233; 8239; 8287; 12288]%N.

Definition ws_encodings : list (list ascii) :=
  Eval vm_compute in map utf8_encode white_space.

(** A continuation byte is [10xxxxxx]; every other byte starts a character. *)
Definition is_continuation (b : ascii) : bool :=
  (let n := N_of_ascii b in (128 <=? n) && (n <? 192))%N.

Definition char_count (l : list ascii) : nat :=
  length (List.filter (fun b => negb (is_continuation b)) l).

(** [chars().take(n).collect()]. *)
Fixpoint take_chars (n : nat) (l : list ascii) : list ascii :=
  match l with
  | [] => []
  | b :: l' =>
      if is_continuation b then b :: take_chars n l'
      else match n with
           | O => []
           | S n' => b :: take_chars n' l'
           end
  end.

(** A double quote, for texts that hold one. *)
Definition dquote : string := String "034"%char EmptyString.

(** [s.len()]: the number of bytes. *)
Definition str_len (s : string) : nat := String.length s.

(** [take_while]. *)
Fixpoint take_while {A} (p : A -> bool) (l : list A) : list A :=
  match l with [] => [] | x :: l' => if p x then x :: take_while p l' else [] end.

(** ** Trimming *)

(** Drop one encoding of the table from the front of [l], if one is there. *)
Fixpoint strip_any (tbl : list (list ascii)) (l : list ascii) : option (list ascii) :=
  match tbl with
  | [] => None
  | w :: tbl' =>
      if bool_decide (take (length w) l = w) then Some (drop (length w) l)
      else strip_any tbl' l
  end.

Fixpoint trim_fuel (tbl : list (list ascii)) (fuel : nat) (l : list ascii) : list ascii :=
  match fuel with
  | O => l
  | S fuel' =>
      match strip_any tbl l with
      | Some l' => trim_fuel tbl fuel' l'
      | None => l
      end
  end.

(** Each round drops at least one byte, so [length l] rounds are enough. *)
Definition trim_by (tbl : list (list ascii)) (l : list ascii) : list ascii :=
  trim_fuel tbl (length l) l.

Definition trim_start_bytes (l : list ascii) : list ascii := trim_by ws_encodings l.
Definition trim_end_bytes (l : list ascii) : list ascii :=
  reverse (trim_by (map reverse ws_encodings) (reverse l)).
Definition trim_bytes (l : list ascii) : list ascii :=
  trim_end_bytes (trim_start_bytes l).

(** [str::trim]. *)
Definition trim (s : string) : string := of_bytes (trim_bytes (bytes_of s)).

(** [s.trim().is_empty()]. *)
Definition is_blank (s : string) : bool :=
  match trim_bytes (bytes_of s) with [] => true | _ => false end.

(** [str::starts_with]. *)
Definition starts_with (s p : string) : bool := String.prefix p s.

(** [str::to_ascii_lowercase]. *)
Definition ascii_lower (b : ascii) : ascii :=
  (let n := N_of_ascii b in
   if (65 <=? n) && (n <=? 90) then ascii_of_N (n + 32) else b)%N.
Definition to_ascii_lowercase (s : string) : string :=
  of_bytes (map ascii_lower (bytes_of s)).

(** ** Facts *)

Lemma bytes_of_bytes l : bytes_of (of_bytes l) = l.
Proof. apply String.list_ascii_of_string_of_list_ascii. Qed.

Lemma of_bytes_of s : of_bytes (bytes_of s) = s.
Proof. apply String.string_of_list_ascii_of_string. Qed.

(** A table of encodings has no empty entry. *)
Definition table_ok (tbl : list (list ascii)) : Prop := Forall (fun w => w <> []) tbl.

Lemma ws_encodings_ok : table_ok ws_encodings.
Proof. unfold ws_encodings, table_ok. repeat constructor; discriminate. Qed.

Lemma ws_encodings_rev_ok : table_ok (map reverse ws_encodings).
Proof. unfold ws_encodings, table_ok. repeat constructor; discriminate. Qed.

#[export] Hint Resolve ws_encodings_ok ws_encodings_rev_ok : core.

Lemma strip_any_Some tbl l l' :
  table_ok tbl -> strip_any tbl l = Some l' ->
  exists w, w ∈ tbl /\ w <> [] /\ l = w ++ l'.
Proof.
  intros Hok. induction Hok as [|w tbl Hw Hok IH]; simpl; [done|].
  case_bool_decide as Ht; intros Hs.
  - simplify_eq. exists w. split; [left|]. split; [done|].
    rewrite <- (take_drop (length w) l) at 1. by rewrite Ht.
  - destruct (IH Hs) as (w' & ? & ? & ?). exists w'. split; [by right|done].
Qed.

(** A prefix of a table entry in front of [l] is found, whatever follows. *)
Lemma strip_any_prefix tbl w l :
  w ∈ tbl -> is_Some (strip_any tbl (w ++ l)).
Proof.
  induction 1 as [w tbl|w w' tbl _ IH]; simpl.
  - rewrite take_app_length. by rewrite bool_decide_true.
  - case_bool_decide; eauto.
Qed.

Lemma strip_any_mono tbl l l2 :
  table_ok tbl -> is_Some (strip_any tbl l) -> is_Some (strip_any tbl (l ++ l2)).
Proof.
  intros Hok [l' Hl]. apply strip_any_Some in Hl as (w & Hin & _ & ->); [|done].
  rewrite <- (assoc_L (++)). by apply strip_any_prefix.
Qed.

Lemma strip_any_shorter tbl l l' :
  table_ok tbl -> strip_any tbl l = Some l' -> (length l' < length l)%nat.
Proof.
  intros Hok Hl. apply strip_any_Some in Hl as (w & _ & Hw & ->); [|done].
  rewrite length_app. destruct w; [done|]. simpl. lia.
Qed.

Lemma trim_fuel_stuck tbl n l :
  table_ok tbl -> (length l <= n)%nat -> strip_any tbl (trim_fuel tbl n l) = None.
Proof.
  intros Hok. revert l. induction n as [|n IH]; intros l Hn; simpl.
  - destruct l; simpl in Hn; [|lia].
    destruct (strip_any tbl []) eqn:E; [|done].
    apply strip_any_shorter in E; [simpl in E; lia|done].
  - destruct (strip_any tbl l) eqn:E; [|done].
    apply IH. apply strip_any_shorter in E; [lia|done].
Qed.

Lemma trim_by_stuck tbl l : table_ok tbl -> strip_any tbl (trim_by tbl l) = None.
Proof. intros. by apply trim_fuel_stuck. Qed.

Lemma trim_fuel_id tbl n l : strip_any tbl l = None -> trim_fuel tbl n l = l.
Proof. destruct n; simpl; [done|]. by intros ->. Qed.

Lemma trim_by_idemp tbl l : table_ok tbl -> trim_by tbl (trim_by tbl l) = trim_by tbl l.
Proof. intros. apply trim_fuel_id. by apply trim_by_stuck. Qed.

Lemma trim_fuel_suffix tbl n l :
  table_ok tbl -> exists p, l = p ++ trim_fuel tbl n l.
Proof.
  intros Hok. revert l. induction n as [|n IH]; intros l; simpl; [by exists []|].
  destruct (strip_any tbl l) eqn:E; [|by exists []].
  apply strip_any_Some in E as (w & _ & _ & ->); [|done].
  destruct (IH l0) as [p Hp]. exists (w ++ p). rewrite <- (assoc_L (++)). by f_equal.
Qed.

Lemma trim_end_prefix l : exists q, l = trim_end_bytes l ++ q.
Proof.
  unfold trim_end_bytes, trim_by.
  destruct (trim_fuel_suffix (map reverse ws_encodings) (length (reverse l)) (reverse l))
    as [p Hp]; [done|].
  exists (reverse p). rewrite <- reverse_app, <- Hp. by rewrite reverse_involutive.
Qed.

Lemma trim_end_idemp l : trim_end_bytes (trim_end_bytes l) = trim_end_bytes l.
Proof. unfold trim_end_bytes. rewrite reverse_involutive. by rewrite trim_by_idemp. Qed.

Lemma reverse_is_nil {A} (l : list A) : reverse l = [] -> l = [].
Proof. intros H. by rewrite <- (reverse_involutive l), H. Qed.

(** Trimming to nothing from the end means the text starts with white space. *)
Lemma trim_fuel_rev_nil tbl n l :
  table_ok tbl -> l <> [] -> trim_fuel (map reverse tbl) n (reverse l) = [] ->
  is_Some (strip_any tbl l).
Proof.
  intros Hok. assert (table_ok (map reverse tbl)) as Hok'.
  { apply Forall_map. eapply Forall_impl; [exact Hok|]. simpl. intros w Hw Hr.
    apply Hw. by apply reverse_is_nil. }
  revert l. induction n as [|n IH]; intros l Hne; simpl.
  { intros Hr. destruct Hne. by apply reverse_is_nil. }
  destruct (strip_any (map reverse tbl) (reverse l)) as [r|] eqn:E.
  2:{ intros Hr. destruct Hne. by apply reverse_is_nil. }
  apply strip_any_Some in E as (w' & Hin & _ & Hl); [|done].
  apply list_elem_of_fmap in Hin as (w & -> & Hin).
  assert (l = reverse r ++ w) as ->.
  { apply (f_equal reverse) in Hl.
    by rewrite reverse_involutive, reverse_app, reverse_involutive in Hl. }
  destruct (decide (r = [])) as [->|Hr]; intros Hn.
  - rewrite reverse_nil, app_nil_l, <- (app_nil_r w). by apply strip_any_prefix.
  - apply strip_any_mono; [done|]. apply (IH (reverse r)).
    + intros H. apply Hr. by apply reverse_is_nil.
    + by rewrite reverse_involutive.
Qed.

Lemma trim_end_nil l :
  l <> [] -> trim_end_bytes l = [] -> is_Some (strip_any ws_encodings l).
Proof.
  intros Hne Ht. unfold trim_end_bytes, trim_by in Ht.
  eapply (trim_fuel_rev_nil _ (length (reverse l))); [done|done|].
  by apply reverse_is_nil.
Qed.

Lemma take_chars_prefix n l : exists q, l = take_chars n l ++ q.
Proof.
  revert n. induction l as [|b l IH]; intros n; simpl; [by exists []|].
  destruct (is_continuation b).
  - destruct (IH n) as [q Hq]. exists q. simpl. by f_equal.
  - destruct n; [by exists (b :: l)|]. destruct (IH n) as [q Hq]. exists q.
    simpl. by f_equal.
Qed.

Lemma take_chars_count n l : (char_count (take_chars n l) <= n)%nat.
Proof.
  revert n. induction l as [|b l IH]; intros n; unfold char_count; simpl; [lia|].
  destruct (is_continuation b) eqn:E; simpl.
  - rewrite E. simpl. apply IH.
  - destruct n; simpl; [lia|]. rewrite E. simpl. specialize (IH n).
    unfold char_count in IH. lia.
Qed.

Lemma take_chars_all n l : (char_count l <= n)%nat -> take_chars n l = l.
Proof.
  revert n. induction l as [|b l IH]; intros n; unfold char_count; simpl; [done|].
  destruct (is_continuation b); simpl.
  - intros H. f_equal. by apply IH.
  - destruct n; [lia|]. intros H. f_equal. apply IH. unfold char_count. lia.
Qed.

Lemma char_count_app l1 l2 : char_count (l1 ++ l2) = (char_count l1 + char_count l2)%nat.
Proof. unfold char_count. by rewrite List.filter_app, length_app. Qed.

Lemma trim_bytes_start_stuck l : strip_any ws_encodings (trim_bytes l) = None.
Proof.
  unfold trim_bytes, trim_start_bytes.
  pose proof (trim_by_stuck ws_encodings l ws_encodings_ok) as Hs.
  destruct (trim_end_prefix (trim_by ws_encodings l)) as [q Hq].
  destruct (strip_any ws_encodings (trim_end_bytes _)) eqn:E; [|done].
  assert (is_Some (strip_any ws_encodings (trim_by ws_encodings l))) as [? Hc].
  { rewrite Hq. apply strip_any_mono; [done|]. eauto. }
  congruence.
Qed.

Lemma trim_start_stuck_id l : strip_any ws_encodings l = None -> trim_start_bytes l = l.
Proof. intros Hs. unfold trim_start_bytes, trim_by. by apply trim_fuel_id. Qed.

Lemma trim_idemp s : trim (trim s) = trim s.
Proof.
  unfold trim. rewrite bytes_of_bytes. f_equal.
  rewrite (eq_refl : trim_bytes (trim_bytes (bytes_of s)) =
    trim_end_bytes (trim_start_bytes (trim_bytes (bytes_of s)))).
  rewrite trim_start_stuck_id by apply trim_bytes_start_stuck. apply trim_end_idemp.
Qed.

Lemma trim_empty s : trim s = EmptyString <-> is_blank s = true.
Proof. unfold trim, is_blank. by destruct (trim_bytes (bytes_of s)). Qed.

(** A text whose first character is not white space is not blank. *)
Lemma is_blank_stuck s :
  s <> EmptyString -> strip_any ws_encodings (bytes_of s) = None -> is_blank s = false.
Proof.
  intros Hne Hs. unfold is_blank, trim_bytes. rewrite trim_start_stuck_id by done.
  destruct (trim_end_bytes (bytes_of s)) eqn:Ht; [|done]. apply trim_end_nil in Ht as [x Hx].
  - by rewrite Hs in Hx.
  - by destruct s.
Qed.
