(* ===== verification/External.v ===== *)
(** * What the program takes from outside the repository

    The [uuid], [serde_json], [sha2]/[hex], [regex] and [rusqlite] crates, the
    system clock and the random source are not part of the sources.  They
    appear here as type classes: one class with the operations the code calls,
    one class with the documented laws the theorems use.  Each class of laws
    has an instance, so no theorem rests on an unsatisfiable hypothesis.

    The iteration order of [std::collections::HashMap] and [HashSet] is
    unspecified, so it is a parameter too ([HashOrder]): an arbitrary
    permutation of the entries. *)

From S2P Require Import Prelude RustStr.

(** ** The [uuid] crate *)

Class UuidLib := {
  Uuid : Type;
  uuid_eq_dec :: EqDecision Uuid;
  uuid_parse : string -> result Uuid string;
  uuid_to_string : Uuid -> string;
}.

(** The hyphenated text of an identifier parses back to it. *)
Class UuidLaws `{UuidLib} :=
  uuid_roundtrip u : uuid_parse (uuid_to_string u) = Ok u.

#[export] Instance uuid_to_string_inj `{UuidLaws} : Inj (=) (=) uuid_to_string.
Proof.
  intros u v Heq. pose proof (uuid_roundtrip u) as Hu. rewrite Heq, uuid_roundtrip in Hu.
  by injection Hu.
Qed.

(** ** The environment: clock, random source, database engine

    [clock n] is the [n]-th reading of the system clock in milliseconds since
    the Unix epoch (negative before it), [uuids n] the [n]-th random
    identifier, and [db_fault n] the error of the [n]-th database call, if it
    fails.  The counters say how many of each were used. *)
Record World `{UuidLib} := mkWorld {
  clock : nat -> Z;
  ticks : nat;
  uuids : nat -> Uuid;
  issued : nat;
  db_fault : nat -> option string;
  db_calls : nat;
}.

(** One more clock reading, one more database call. *)
Definition tick `{UuidLib} (w : World) : World :=
  mkWorld _ (clock w) (S (ticks w)) (uuids w) (issued w) (db_fault w) (db_calls w).
Definition bump_db `{UuidLib} (w : World) : World :=
  mkWorld _ (clock w) (ticks w) (uuids w) (issued w) (db_fault w) (S (db_calls w)).

Definition read_clock `{UuidLib} {E} : SM World E Z :=
  fun w => (tick w, Ok (clock w (ticks w))).

(** [Uuid::new_v4]. *)
Definition uuid_new_v4 `{UuidLib} {E} : SM World E Uuid :=
  fun w => (mkWorld _ (clock w) (ticks w) (uuids w) (S (issued w))
              (db_fault w) (db_calls w),
            Ok (uuids w (issued w))).

(** One call of the database engine: it fails with the engine's message or
    goes through. *)
Definition db_call `{UuidLib} : SM World string unit :=
  fun w => (bump_db w,
            match db_fault w (db_calls w) with
            | Some e => Err e
            | None => Ok tt
            end).

(** Random identifiers do not repeat (version 4 identifiers carry 122 random
    bits). *)
Definition uuids_fresh `{UuidLib} (w : World) : Prop :=
  forall i j, uuids w i = uuids w j -> i = j.

(** [SystemTime::now().duration_since(UNIX_EPOCH).unwrap_or_default()
    .as_millis() as i64]. *)
Definition now_epoch_ms `{UuidLib} {E} : SM World E Z :=
  t ← read_clock; mret (i64_wrap (Z.max 0 t)).

(** ** [HashMap] and [HashSet] iteration *)

Class HashOrder := {
  hash_entries : forall A : Type, gmap string A -> list (string * A);
  hash_entries_perm (A : Type) (m : gmap string A) :
    hash_entries A m ≡ₚ map_to_list m;
  set_entries : gset string -> list string;
  set_entries_perm (X : gset string) : set_entries X ≡ₚ elements X;
}.
Arguments hash_entries {_ _} _.

(** [HashMap::values]. *)
Definition hash_values `{HashOrder} {A} (m : gmap string A) : list A :=
  map snd (hash_entries m).

(** [collect()] of key-value pairs into a [HashMap]: a later pair replaces an
    earlier one with the same key. *)
Definition hash_collect {A} (l : list (string * A)) : gmap string A :=
  foldl (fun m kv => <[kv.1 := kv.2]> m) ∅ l.

#[export] Program Instance sorted_order : HashOrder := {
  hash_entries A m := map_to_list m;
  set_entries X := elements X;
}.
Next Obligation. done. Qed.
Next Obligation. done. Qed.

(** ** The [serde_json] crate *)

Class JsonNumber := {
  jnum : Type;
  jnum_of_nat : nat -> jnum;
}.

(** [serde_json::Value]; the entries of an object in iteration order. *)
Inductive Value `{JsonNumber} : Type :=
| VNull
| VBool (b : bool)
| VNumber (n : jnum)
| VString (s : string)
| VArray (l : list Value)
| VObject (m : list (string * Value)).

Class SerdeJson `{JsonNumber} := {
  value_eqb : Value -> Value -> bool;
  json_to_string : Value -> string;
  json_from_str : string -> result Value string;
  (** The message when a value does not have the shape of the type asked for. *)
  json_shape_error : Value -> string;
}.

(** An object whose values are strings and integers. *)
Definition flat_value `{JsonNumber} (v : Value) : bool :=
  match v with VString _ => true | VNumber _ => true | _ => false end.
Definition flat_object `{JsonNumber} (m : list (string * Value)) : Prop :=
  NoDup m.*1 /\ Forall (fun kv => flat_value kv.2 = true) m.

(** A value that its own text parses back to.  Not every value is: the parser
    is built without [float_roundtrip] and has a nesting limit. *)
Definition json_stable `{SerdeJson} (v : Value) : Prop :=
  json_from_str (json_to_string v) = Ok v.

(** Keys are distinct in every object of the value, as in a parsed document. *)
Fixpoint json_wf `{JsonNumber} (v : Value) : bool :=
  match v with
  | VObject m => bool_decide (NoDup m.*1) && forallb (fun kv => json_wf kv.2) m
  | VArray l => forallb json_wf l
  | _ => true
  end.

(** The envelope of truncated details, and its text when nothing fits. *)
Definition truncated_envelope `{JsonNumber} (partial : string) : Value :=
  VObject [("__truncated", VBool true); ("partial", VString partial)].
Definition MINIMAL_ENVELOPE : string :=
  "{" +:+ dquote +:+ "__truncated" +:+ dquote +:+ ":true," +:+ dquote +:+ "partial" +:+
  dquote +:+ ":" +:+ dquote +:+ dquote +:+ "}".

(** Equality of values is an equivalence; strings and flat objects are stable;
    parsed objects have distinct keys; the compact text of an object is what it
    is documented to be (used for one object only). *)
Class SerdeJsonLaws `{SerdeJson} := {
  value_eqb_equiv : Equivalence (fun a b => value_eqb a b = true);
  json_string_stable s : json_stable (VString s);
  json_flat_roundtrip m :
    flat_object m -> json_stable (VObject m);
  json_parse_wf s v : json_from_str s = Ok v -> json_wf v = true;
  json_envelope_text :
    json_to_string (truncated_envelope EmptyString) = MINIMAL_ENVELOPE;
}.

(** [serde_json::Map::get] and [insert]: the entries keep their order, a new
    value replaces the old one in place, a new key goes to the end. *)
Fixpoint map_get {A} (k : string) (m : list (string * A)) : option A :=
  match m with
  | [] => None
  | (k', v) :: m' => if bool_decide (k = k') then Some v else map_get k m'
  end.
Fixpoint map_insert {A} (k : string) (v : A) (m : list (string * A)) : list (string * A) :=
  match m with
  | [] => [(k, v)]
  | (k', v') :: m' =>
      if bool_decide (k = k') then (k, v) :: m' else (k', v') :: map_insert k v m'
  end.

(** ** The [regex] crate *)

Class RegexLib := {
  Regex : Type;
  regex_new : string -> option Regex;
  regex_find_count : Regex -> string -> nat;
  regex_replace_all : Regex -> string -> string -> string;
}.

(** ** Unicode lower case and hashes

    [str::to_lowercase] follows the Unicode tables of the standard library;
    [sha256_hex] is [hex::encode(Sha256::digest(..))]. *)
Class TextLib := {
  str_to_lowercase : string -> string;
  sha256_hex : string -> string;
}.

Class TextLaws `{TextLib} := sha256_hex_len s : str_len (sha256_hex s) = 64%nat.

(** ** Facts *)

(** Induction over values, with hypotheses for the values inside. *)
Lemma value_nested_ind `{JsonNumber} (P : Value -> Prop) :
  P VNull -> (forall b, P (VBool b)) -> (forall n, P (VNumber n)) ->
  (forall s, P (VString s)) -> (forall l, Forall P l -> P (VArray l)) ->
  (forall m, Forall (fun kv => P kv.2) m -> P (VObject m)) -> forall v, P v.
Proof.
  intros Hn Hb Hnum Hs Ha Ho. fix IH 1.
  intros [|b|n|s|l|m]; [exact Hn|apply Hb|apply Hnum|apply Hs|apply Ha|apply Ho].
  - induction l; constructor; auto.
  - induction m as [|[k v] m]; constructor; auto.
Qed.

Lemma map_insert_elem {A} k (v : A) m x : x ∈ map_insert k v m -> x = (k, v) \/ x ∈ m.
Proof.
  induction m as [|[k' v'] m IH]; simpl.
  - intros Hx%list_elem_of_singleton. by left.
  - case_bool_decide.
    + intros [->|Hx]%elem_of_cons; [by left|right; by right].
    + intros [->|Hx]%elem_of_cons; [right; left|]. destruct (IH Hx); [by left|right; by right].
Qed.

Lemma map_insert_new {A} k (v : A) m : k ∉ m.*1 -> map_insert k v m = m ++ [(k, v)].
Proof.
  induction m as [|[k' v'] m IH]; simpl; [done|]. intros [Hne Hk]%not_elem_of_cons.
  rewrite bool_decide_false by done. by rewrite IH.
Qed.

Lemma hash_values_elem `{HashOrder} {A} (m : gmap string A) (x : A) :
  x ∈ hash_values m <-> exists k, m !! k = Some x.
Proof.
  unfold hash_values. rewrite list_elem_of_fmap. split.
  - intros ([k y] & -> & Hin). exists k. apply elem_of_map_to_list.
    by rewrite <- hash_entries_perm.
  - intros [k Hk]. exists (k, x). split; [done|].
    rewrite hash_entries_perm. by apply elem_of_map_to_list.
Qed.

Lemma set_entries_elem `{HashOrder} (X : gset string) x :
  x ∈ set_entries X <-> x ∈ X.
Proof. by rewrite set_entries_perm, elem_of_elements. Qed.

Lemma hash_collect_app {A} (l1 l2 : list (string * A)) :
  hash_collect (l1 ++ l2) =
  foldl (fun m kv => <[kv.1 := kv.2]> m) (hash_collect l1) l2.
Proof. apply foldl_app. Qed.

(** A key is bound by [hash_collect] to the last pair that has it. *)
Lemma hash_collect_snoc {A} (l : list (string * A)) k v :
  hash_collect (l ++ [(k, v)]) = <[k := v]> (hash_collect l).
Proof. by rewrite hash_collect_app. Qed.

Lemma hash_collect_Some {A} (l : list (string * A)) k v :
  hash_collect l !! k = Some v -> (k, v) ∈ l.
Proof.
  induction l as [|[k' v'] l IH] using rev_ind; [done|].
  rewrite hash_collect_snoc, lookup_insert.
  case_decide as Hk; intros; simplify_eq/=; apply elem_of_app; [right; left|].
  left. auto.
Qed.

Lemma hash_collect_is_Some {A} (l : list (string * A)) k :
  is_Some (hash_collect l !! k) <-> k ∈ l.*1.
Proof.
  induction l as [|[k' v'] l IH] using rev_ind.
  { split; [intros [? [=]]|]. set_solver. }
  rewrite hash_collect_snoc, fmap_app, lookup_insert, elem_of_app, <- IH. simpl.
  case_decide as Hk; [set_solver|].
  rewrite list_elem_of_singleton. naive_solver.
Qed.

(** With distinct keys, [hash_collect] keeps every pair. *)
Lemma hash_collect_NoDup {A} (l : list (string * A)) k v :
  NoDup l.*1 -> hash_collect l !! k = Some v <-> (k, v) ∈ l.
Proof.
  intros Hnd. split; [apply hash_collect_Some|]. intros Hin.
  assert (is_Some (hash_collect l !! k)) as [v' Hv'].
  { apply hash_collect_is_Some. apply list_elem_of_fmap. by exists (k, v). }
  rewrite Hv'. apply hash_collect_Some in Hv'.
  apply list_elem_of_lookup in Hin as [i Hi].
  apply list_elem_of_lookup in Hv' as [j Hj].
  assert (i = j) as ->.
  { eapply (NoDup_lookup l.*1 i j k); [done|..]; rewrite list_lookup_fmap;
      [rewrite Hi|rewrite Hj]; done. }
  naive_solver.
Qed.
