(* ===== verification/Concrete.v ===== *)
(** * Instances of the external classes

    A concrete instance of every class of External.v, with its laws proved.
    The witnesses of the theorems run the model on these instances; they also
    show that the laws assumed of the external crates can hold together. *)

From S2P Require Import Prelude RustStr External.

(** ** Identifiers: their own text *)

Definition text_uuid : UuidLib := {|
  Uuid := string;
  uuid_parse s := Ok s;
  uuid_to_string u := u;
|}.

Lemma text_uuid_laws : @UuidLaws text_uuid.
Proof. intros u. reflexivity. Qed.

(** ** JSON numbers: naturals *)

Definition nat_number : JsonNumber := {| jnum := nat; jnum_of_nat n := n |}.

#[local] Existing Instance nat_number.

(** ** JSON equality *)

Section ValueEq.

Fixpoint value_beq (a b : Value) : bool :=
  match a, b with
  | VNull, VNull => true
  | VBool x, VBool y => Bool.eqb x y
  | VNumber x, VNumber y => Nat.eqb x y
  | VString x, VString y => String.eqb x y
  | VArray l1, VArray l2 =>
      (fix go l1 l2 := match l1, l2 with
       | [], [] => true
       | x :: l1, y :: l2 => value_beq x y && go l1 l2
       | _, _ => false
       end) l1 l2
  | VObject m1, VObject m2 =>
      (fix go m1 m2 := match m1, m2 with
       | [], [] => true
       | (k1, x) :: m1, (k2, y) :: m2 => String.eqb k1 k2 && value_beq x y && go m1 m2
       | _, _ => false
       end) m1 m2
  | _, _ => false
  end.

Lemma value_beq_eq a b : value_beq a b = true <-> a = b.
Proof.
  revert b. induction a as [|x|x|x|l Hl|m Hm] using value_nested_ind;
    intros [| y | y | y | l' | m']; simpl; try (split; congruence).
  - rewrite Bool.eqb_true_iff. split; congruence.
  - rewrite Nat.eqb_eq. split; congruence.
  - rewrite String.eqb_eq. split; congruence.
  - transitivity (l = l'); [|split; congruence].
    revert l'. induction Hl as [|x l Hx Hl IH]; intros [|y l']; try (split; congruence).
    rewrite andb_true_iff, Hx, IH. naive_solver.
  - transitivity (m = m'); [|split; congruence].
    revert m'. induction Hm as [|[k x] m Hx Hm IH]; intros [|[k' y] m'];
      try (split; congruence).
    rewrite !andb_true_iff, IH, String.eqb_eq. simpl in Hx. rewrite Hx. naive_solver.
Qed.

End ValueEq.

(** ** A text form for strings and flat objects *)

Fixpoint pos_bits (p : positive) : string :=
  match p with
  | xH => EmptyString
  | xO p => String "0" (pos_bits p)
  | xI p => String "1" (pos_bits p)
  end.

Fixpoint bits_pos (s : string) : option positive :=
  match s with
  | EmptyString => Some xH
  | String "0" s => xO <$> bits_pos s
  | String "1" s => xI <$> bits_pos s
  | _ => None
  end.

Lemma bits_pos_bits p : bits_pos (pos_bits p) = Some p.
Proof. induction p as [p IH|p IH|]; simpl; [by rewrite IH..|done]. Qed.

Definition flatten_entry (kv : string * Value) : option (string * (string + nat)) :=
  match kv.2 with
  | VString s => Some (kv.1, inl s)
  | VNumber n => Some (kv.1, inr n)
  | _ => None
  end.
Definition unflatten_entry (x : string * (string + nat)) : string * Value :=
  match x.2 with inl s => (x.1, VString s) | inr n => (x.1, VNumber n) end.

(** What the text form covers: a string or a flat object. *)
Definition simple : Type := string + list (string * (string + nat)).

Definition simple_text (x : simple) : string := pos_bits (encode x).
Definition text_simple (s : string) : option simple := bits_pos s ≫= decode.

Lemma simple_roundtrip x : text_simple (simple_text x) = Some x.
Proof.
  unfold text_simple, simple_text. rewrite bits_pos_bits. simpl. apply decode_encode.
Qed.

Definition bit_string (v : Value) : string :=
  match v with
  | VString s => simple_text (inl s)
  | VObject m =>
      match mapM flatten_entry m with
      | Some l => simple_text (inr l)
      | None => if value_beq v (truncated_envelope EmptyString) then MINIMAL_ENVELOPE else "-"
      end
  | _ => "-"
  end.

Definition bit_value (s : string) : option Value :=
  match text_simple s with
  | Some (inl s) => Some (VString s)
  | Some (inr l) => Some (VObject (map unflatten_entry l))
  | None => None
  end.

Definition bit_parse (s : string) : result Value string :=
  match bit_value s with
  | Some v => if json_wf v then Ok v else Err "duplicate key"
  | None => Err "syntax error"
  end.

Definition bit_json : SerdeJson := {|
  value_eqb := value_beq;
  json_to_string := bit_string;
  json_from_str := bit_parse;
  json_shape_error _ := "invalid type";
|}.

Lemma flatten_roundtrip m :
  Forall (fun kv => flat_value kv.2 = true) m ->
  exists l, mapM flatten_entry m = Some l /\ map unflatten_entry l = m.
Proof.
  induction 1 as [|[k v] m Hv Hm (l & Hl & Hu)]; simpl; [by exists []|].
  rewrite Hl. destruct v; simpl in *; try done; 
    (eexists; split; [reflexivity|]); simpl; by rewrite Hu.
Qed.

Lemma flat_object_wf m : flat_object m -> json_wf (VObject m) = true.
Proof.
  intros [Hnd Hm]. simpl. rewrite bool_decide_true by done. simpl. apply forallb_forall.
  intros kv Hkv%list_elem_of_In. rewrite Forall_forall in Hm. specialize (Hm kv Hkv).
  by destruct kv.2.
Qed.

Lemma bit_json_laws : @SerdeJsonLaws nat_number bit_json.
Proof.
  split.
  - split.
    + intros v. by apply value_beq_eq.
    + intros v1 v2 ->%value_beq_eq. by apply value_beq_eq.
    + intros v1 v2 v3 ->%value_beq_eq ->%value_beq_eq. by apply value_beq_eq.
  - intros s. unfold json_stable, json_from_str, json_to_string, bit_json, bit_parse,
      bit_value, bit_string.
    by rewrite simple_roundtrip.
  - intros m Hm. destruct (flatten_roundtrip m (proj2 Hm)) as (l & Hl & Hu).
    unfold json_stable, json_from_str, json_to_string, bit_json, bit_parse, bit_value, bit_string.
    rewrite Hl, simple_roundtrip, Hu. by rewrite flat_object_wf.
  - intros s v. simpl. unfold bit_parse. destruct (bit_value s) as [v'|]; [|done].
    destruct (json_wf v') eqn:Hwf; [|done]. by intros [= <-].
  - done.
Qed.

#[export] Existing Instances text_uuid text_uuid_laws nat_number bit_json bit_json_laws.

(** ** A world: the clock ticks every second, identifiers count up, no faults *)

Definition nat_text (n : nat) : string := pos_bits (Pos.of_succ_nat (S n)).

#[export] Instance nat_text_inj : Inj (=) (=) nat_text.
Proof.
  intros i j H. apply (f_equal bits_pos) in H. unfold nat_text in H.
  rewrite !bits_pos_bits in H. injection H as H. lia.
Qed.

Definition plain_world : World :=
  mkWorld text_uuid (fun n => 1000 * Z.of_nat n) 0 nat_text 0 (fun _ => None) 0.

Lemma plain_world_fresh : uuids_fresh plain_world.
Proof. intros i j H. by apply (inj nat_text). Qed.

(** ** Regular expressions that never compile, and ASCII text functions *)

#[export] Instance no_regex : RegexLib := {
  Regex := Empty_set;
  regex_new _ := None;
  regex_find_count re _ := match re with end;
  regex_replace_all re _ _ := match re with end;
}.

Fixpoint zeros (n : nat) : string :=
  match n with O => EmptyString | S n' => String "0"%char (zeros n') end.

#[export] Instance ascii_text : TextLib := {
  str_to_lowercase := to_ascii_lowercase;
  sha256_hex _ := zeros 64;
}.

#[export] Instance ascii_text_laws : TextLaws.
Proof. intros s. reflexivity. Qed.

(** ** A second iteration order *)

#[export] Program Instance reversed_order : HashOrder | 100 := {
  hash_entries A m := reverse (map_to_list m);
  set_entries X := reverse (elements X);
}.
Next Obligation. intros. apply reverse_Permutation. Qed.
Next Obligation. intros. apply reverse_Permutation. Qed.
