(* ===== verification/RustChar.v ===== *)
(** * Rust characters

    A [char] is a Unicode scalar value.  Code that works on the characters of a
    text is modelled on the list of its scalar values.  White space, control
    characters and the ASCII classes are written out; [char::is_alphabetic],
    [char::is_numeric] and [str::to_lowercase] follow the Unicode tables of the
    standard library and are a class with their values on ASCII as its laws. *)

From S2P Require Import Prelude RustStr.

Definition char : Type := N.

(** The scalar value of an ASCII character, and the characters of an ASCII text. *)
Definition ch (a : ascii) : char := N_of_ascii a.
#[global] Arguments ch : simpl never.
Definition text (s : string) : list char := map ch (bytes_of s).
(** The string of the characters: their UTF-8 bytes. *)
Definition str_of (l : list char) : string := of_bytes (flat_map utf8_encode l).

Definition is_whitespace (c : char) : bool := bool_decide (c ∈ white_space).
Definition is_control (c : char) : bool := ((c <? 32) || (127 <=? c) && (c <=? 159))%N.
Definition is_digit (c : char) : bool := ((48 <=? c) && (c <=? 57))%N.
Definition is_upper (c : char) : bool := ((65 <=? c) && (c <=? 90))%N.
Definition is_lower (c : char) : bool := ((97 <=? c) && (c <=? 122))%N.
Definition is_letter (c : char) : bool := is_upper c || is_lower c.

(** [char::to_ascii_uppercase] and [char::eq_ignore_ascii_case]. *)
Definition to_ascii_uppercase (c : char) : char := if is_lower c then (c - 32)%N else c.
Definition char_eq_ignore_case (a b : char) : bool :=
  (to_ascii_uppercase a =? to_ascii_uppercase b)%N.

Definition to_ascii_lowercase (c : char) : char := if is_upper c then (c + 32)%N else c.

Class CharLib := {
  is_alphabetic : char -> bool;
  is_numeric : char -> bool;
  (** [str::to_lowercase]. *)
  lower_case : list char -> list char;
}.

Class CharLaws `{CharLib} := {
  alphabetic_ascii c : (c < 128)%N -> is_alphabetic c = is_letter c;
  numeric_ascii c : (c < 128)%N -> is_numeric c = is_digit c;
  (** No white space is a letter or a digit. *)
  whitespace_alphanumeric c : is_whitespace c = true -> is_alphabetic c || is_numeric c = false;
  lower_case_ascii l : Forall (fun c => c < 128)%N l -> lower_case l = map to_ascii_lowercase l;
}.

(** [char::is_alphanumeric]. *)
Definition is_alphanumeric `{CharLib} (c : char) : bool := is_alphabetic c || is_numeric c.

(** The ASCII rows of the tables, as an instance. *)
#[export] Instance ascii_chars : CharLib := {
  is_alphabetic := is_letter;
  is_numeric := is_digit;
  lower_case := map to_ascii_lowercase;
}.

#[export] Instance ascii_chars_laws : CharLaws.
Proof.
  split; [done|done| |done]. intros c Hc. apply bool_decide_eq_true in Hc. revert c Hc.
  apply Forall_forall. vm_compute. by repeat constructor.
Qed.

(** ** Texts *)

Fixpoint drop_while {A} (p : A -> bool) (l : list A) : list A :=
  match l with
  | [] => []
  | x :: l' => if p x then drop_while p l' else l
  end.

(** [str::trim_start], [trim_end] and [trim]. *)
Definition trim_left (l : list char) : list char := drop_while is_whitespace l.
Definition trim_right (l : list char) : list char := rev (drop_while is_whitespace (rev l)).
Definition trim_text (l : list char) : list char := trim_right (trim_left l).

(** [str::starts_with]. *)
Fixpoint has_prefix (p l : list char) : bool :=
  match p, l with
  | [], _ => true
  | c :: p', d :: l' => (c =? d)%N && has_prefix p' l'
  | _ :: _, [] => false
  end.

(** [str::find] and the text around the match: what is before it, and what
    follows the text found. *)
Fixpoint find_text (needle l : list char) : option (list char * list char) :=
  if has_prefix needle l then Some ([], drop (length needle) l)
  else match l with
       | [] => None
       | c :: l' => '(before, after) ← find_text needle l'; Some (c :: before, after)
       end.

(** [str::contains]. *)
Definition contains_text (needle l : list char) : bool := bool_decide (is_Some (find_text needle l)).

(** [str::split] at the characters with property [p]. *)
Fixpoint split_chars (p : char -> bool) (l : list char) : list (list char) :=
  match l with
  | [] => [[]]
  | c :: l' =>
      if p c then [] :: split_chars p l'
      else match split_chars p l' with
           | [] => [[c]]
           | w :: ws => (c :: w) :: ws
           end
  end.

(** [str::split_whitespace]. *)
Definition split_whitespace (l : list char) : list (list char) :=
  List.filter (fun w => negb (bool_decide (w = []))) (split_chars is_whitespace l).

(** The decimal text of a number, [to_string] of an unsigned integer. *)
Fixpoint digits (rounds : nat) (n : N) (acc : list char) : list char :=
  match rounds with
  | O => acc
  | S rounds' =>
      let acc' := (48 + n mod 10)%N :: acc in
      if (n <? 10)%N then acc' else digits rounds' (n / 10)%N acc'
  end.
Definition decimal (n : N) : list char := digits (S (N.size_nat n)) n [].

(** [\[T\]::join]. *)
Fixpoint join_text (sep : list char) (l : list (list char)) : list char :=
  match l with
  | [] => []
  | [x] => x
  | x :: l' => x ++ sep ++ join_text sep l'
  end.

Lemma drop_while_app {A} (p : A -> bool) l : exists q, l = q ++ drop_while p l.
Proof.
  induction l as [|x l [q IH]]; simpl; [by exists []|]. destruct (p x); [|by exists []].
  exists (x :: q). simpl. by rewrite <- IH.
Qed.

Lemma find_text_app needle l before after :
  find_text needle l = Some (before, after) -> exists m, l = before ++ m ++ after /\ length m = length needle.
Proof.
  revert before. induction l as [|c l IH]; intros before; simpl.
  - destruct (has_prefix needle []) eqn:Hp; [|done]. intros [= <- <-].
    destruct needle; [|done]. by exists [].
  - destruct (has_prefix needle (c :: l)) eqn:Hp.
    + intros [= <- <-]. exists (take (length needle) (c :: l)). simpl.
      split; [by rewrite take_drop|]. apply length_take_le.
      clear IH. revert Hp. generalize (c :: l). induction needle as [|d n IHn]; intros k; [simpl; lia|].
      destruct k as [|e k]; [done|]. simpl. intros [_ Hk]%andb_true_iff. apply IHn in Hk. lia.
    + intros ([b a] & Hf & [= <- <-])%bind_Some. destruct (IH b Hf) as (m & -> & ?).
      by exists m.
Qed.

(** Reading a character class off an ASCII character, one at a time. *)
Lemma ascii_ind (P : char -> Prop) :
  Forall P (map ch (map ascii_of_nat (seq 0 128))) -> forall c, (c < 128)%N -> P c.
Proof.
  intros HP c Hc. rewrite Forall_forall in HP. apply HP.
  apply list_elem_of_fmap. exists (ascii_of_N c). split.
  - unfold ch. by rewrite N_ascii_embedding by lia.
  - apply list_elem_of_fmap. exists (N.to_nat c). split.
    + unfold ascii_of_nat. by rewrite N2Nat.id.
    + apply elem_of_seq. lia.
Qed.

(** ** Numbers *)

(** The value of a run of digits. *)
Definition digits_value (l : list N) : Z :=
  foldl (fun a d => a * 10 + Z.of_N (d - 48)) 0 l.

Lemma digits_value_snoc l d : digits_value (l ++ [d]) = digits_value l * 10 + Z.of_N (d - 48).
Proof. unfold digits_value. by rewrite foldl_app. Qed.

Lemma digit_is_digit n : is_digit (48 + n mod 10)%N = true.
Proof.
  unfold is_digit. pose proof (N.mod_lt n 10 ltac:(done)) as Hm. revert Hm.
  generalize (n mod 10)%N. intros m Hm. rewrite andb_true_iff, !N.leb_le. lia.
Qed.

Lemma digits_spec r n acc :
  (n < 10 ^ N.of_nat r)%N -> (0 < r)%nat ->
  exists ds, digits r n acc = ds ++ acc /\ forallb is_digit ds = true /\ ds <> [] /\
    digits_value ds = Z.of_N n.
Proof.
  revert n acc. induction r as [|r IH]; intros n acc Hn Hr; [lia|]. simpl.
  assert (Hd : Z.of_N (48 + n mod 10 - 48) = Z.of_N (n mod 10)) by (f_equal; rewrite N.add_comm; apply N.add_sub).
  destruct (N.ltb_spec n 10) as [Hlt|Hge].
  - exists [(48 + n mod 10)%N]. split; [done|]. split; [simpl; by rewrite digit_is_digit|].
    split; [done|]. unfold digits_value. simpl foldl. rewrite Hd, N.mod_small by done. lia.
  - destruct (IH (n / 10)%N ((48 + n mod 10)%N :: acc)) as (ds & Heq & Hds & Hne & Hv).
    + apply N.Div0.div_lt_upper_bound. rewrite Nat2N.inj_succ, N.pow_succ_r in Hn by lia. lia.
    + destruct r; [|lia]. simpl in Hn. lia.
    + exists (ds ++ [(48 + n mod 10)%N]). rewrite Heq, <- app_assoc. split; [done|].
      split; [rewrite forallb_app; simpl; by rewrite Hds, digit_is_digit|].
      split; [by destruct ds|]. rewrite digits_value_snoc, Hv, Hd.
      rewrite N2Z.inj_div, N2Z.inj_mod. pose proof (Z.div_mod (Z.of_N n) 10). lia.
Qed.

Lemma size_bound n : (n < 10 ^ N.of_nat (S (N.size_nat n)))%N.
Proof.
  assert (Hp : forall p, (Npos p < 2 ^ N.of_nat (Pos.size_nat p))%N).
  { induction p as [p IH|p IH|]; [..|done]; change (Pos.size_nat _) with (S (Pos.size_nat p));
      rewrite Nat2N.inj_succ, N.pow_succ_r by lia; lia. }
  assert (Hsz : (n < 2 ^ N.of_nat (S (N.size_nat n)))%N).
  { destruct n as [|p]; [done|]. simpl N.size_nat. rewrite Nat2N.inj_succ, N.pow_succ_r by lia.
    specialize (Hp p). lia. }
  eapply N.lt_le_trans; [exact Hsz|]. apply N.pow_le_mono_l. lia.
Qed.

Lemma decimal_spec n :
  exists d ds, decimal n = d :: ds /\ is_digit d = true /\ forallb is_digit ds = true /\
    digits_value (d :: ds) = Z.of_N n.
Proof.
  unfold decimal. destruct (digits_spec (S (N.size_nat n)) n []) as (ds & Heq & Hds & Hne & Hv);
    [apply size_bound|lia|].
  rewrite Heq, app_nil_r. destruct ds as [|d ds]; [done|]. simpl in Hds.
  apply andb_true_iff in Hds as [Hd Hds]. by exists d, ds.
Qed.

Lemma decimal_inj a b : decimal a = decimal b -> a = b.
Proof.
  intros Heq. destruct (decimal_spec a) as (d & ds & Ha & _ & _ & Hva).
  destruct (decimal_spec b) as (e & es & Hb & _ & _ & Hvb).
  rewrite Heq, Hb in Ha. injection Ha as -> ->. lia.
Qed.

Lemma decimal_digits n : forallb is_digit (decimal n) = true.
Proof. destruct (decimal_spec n) as (d & ds & -> & Hd & Hds & _). simpl. by rewrite Hd. Qed.
