(* ===== verification/Classification.v ===== *)
(** * Execution classes (crates/dbflux_policy: classification.rs, schema_alter.rs)

    The escalation ladder every governance decision is taken on, the [max]
    that composes the classes of a compound operation, and the risk class of
    each schema change. *)

From S2P Require Import Prelude.

Inductive ExecutionClassification : Type :=
| Metadata
| Read
| Write
| Destructive
| Admin
| AdminSafe
| AdminDestructive.

#[export] Instance classification_eq_dec : EqDecision ExecutionClassification.
Proof. solve_decision. Defined.

Definition classification_rank (c : ExecutionClassification) : Z :=
  match c with
  | Metadata => 0
  | Read => 1
  | Write => 2
  | Destructive => 3
  | AdminSafe => 4
  | Admin => 5
  | AdminDestructive => 6
  end.

(** [ExecutionClassification::max]. *)
Definition classification_max (self other : ExecutionClassification)
  : ExecutionClassification :=
  if bool_decide (classification_rank self >= classification_rank other)
  then self else other.

(** The derived [Debug] text, as [format!("{:?}")] prints it. *)
Definition classification_debug (c : ExecutionClassification) : string :=
  match c with
  | Metadata => "Metadata"
  | Read => "Read"
  | Write => "Write"
  | Destructive => "Destructive"
  | Admin => "Admin"
  | AdminSafe => "AdminSafe"
  | AdminDestructive => "AdminDestructive"
  end.

Inductive SchemaAlterKind : Type :=
| AddColumn (safe : bool)
| DropColumn
| RenameColumn
| AlterColumn
| AddConstraint
| DropConstraint
| AddIndex
| DropIndex
| AddTable
| DropTable.

Definition classify_schema_alter (kind : SchemaAlterKind) : ExecutionClassification :=
  match kind with
  | AddColumn true => AdminSafe
  | AddColumn false => Admin
  | DropColumn => AdminDestructive
  | RenameColumn => AdminSafe
  | AlterColumn => Admin
  | AddConstraint => Admin
  | DropConstraint => AdminDestructive
  | AddIndex => AdminSafe
  | DropIndex => Admin
  | AddTable => AdminSafe
  | DropTable => AdminDestructive
  end.

(** The classes a read-only connection lets through. *)
Definition mutates (c : ExecutionClassification) : bool :=
  match c with Metadata | Read => false | _ => true end.

(** ** The ladder *)

Definition class_le (a b : ExecutionClassification) : Prop :=
  classification_rank a <= classification_rank b.

Lemma mutates_false c : mutates c = false <-> class_le c Read.
Proof. unfold class_le. destruct c; simpl; (split; [|done || lia]); done || lia. Qed.

Lemma mutates_true c : mutates c = true <-> ~ class_le c Read.
Proof. rewrite <- mutates_false. by destruct (mutates c). Qed.

#[export] Instance class_le_dec a b : Decision (class_le a b).
Proof. unfold class_le. apply _. Defined.

#[export] Instance classification_rank_inj : Inj (=) (=) classification_rank.
Proof. intros [] []; simpl; congruence. Qed.

#[export] Instance class_le_total_order : TotalOrder class_le.
Proof.
  unfold class_le. repeat split.
  - by intros ?.
  - intros ???. lia.
  - intros a b ??. apply (inj classification_rank). lia.
  - intros a b. unfold strict.
    destruct (Z.lt_trichotomy (classification_rank a) (classification_rank b))
      as [?|[Heq|?]]; [left; lia| |right; right; lia].
    right. left. by apply (inj classification_rank).
Qed.

(** Composing the classes of a batch from the lowest one. *)
Definition classification_max_list (l : list ExecutionClassification)
  : ExecutionClassification := foldl classification_max Metadata l.

Lemma classification_max_spec a b :
  class_le a (classification_max a b) /\ class_le b (classification_max a b) /\
  (classification_max a b = a \/ classification_max a b = b).
Proof. unfold classification_max, class_le. case_bool_decide; auto with lia. Qed.

Lemma classification_max_lub a b c :
  class_le a c -> class_le b c -> class_le (classification_max a b) c.
Proof. unfold classification_max. by case_bool_decide. Qed.

#[export] Instance classification_max_assoc : Assoc (=) classification_max.
Proof. by intros [] [] []. Qed.
#[export] Instance classification_max_comm : Comm (=) classification_max.
Proof. by intros [] []. Qed.

Lemma classification_max_list_ge l : forall a c,
  c ∈ l \/ class_le c a -> class_le c (foldl classification_max a l).
Proof.
  induction l as [|b l IH]; intros a c; simpl.
  - intros [H|H]; [by apply not_elem_of_nil in H|done].
  - intros Hc. apply IH. destruct (classification_max_spec a b) as (Ha & Hb & _).
    destruct Hc as [[->|Hc]%elem_of_cons|Hc]; [by right|by left|].
    right. by trans a.
Qed.

Lemma classification_max_list_lub l : forall a c,
  class_le a c -> Forall (fun x => class_le x c) l ->
  class_le (foldl classification_max a l) c.
Proof.
  induction l as [|b l IH]; intros a c Ha Hl; simpl; [done|].
  inversion Hl; subst. apply IH; [|done]. by apply classification_max_lub.
Qed.

Lemma classification_max_list_le l c :
  class_le (classification_max_list l) c <-> Forall (fun x => class_le x c) l.
Proof.
  split.
  - intros Hc. apply Forall_forall. intros x Hx. trans (classification_max_list l); [|done].
    apply classification_max_list_ge. by left.
  - apply classification_max_list_lub. by destruct c.
Qed.

(** The class of a compound operation is the least one that is at least as
    strict as each of its parts, in whatever order they are composed: the fold of
    [max] over the parts is their least upper bound on the ladder. *)
Theorem classification_max_is_least_upper_bound l l' c :
  (class_le (classification_max_list l) c <-> Forall (fun x => class_le x c) l) /\
  (l ≡ₚ l' -> classification_max_list l = classification_max_list l').
Proof.
  split; [apply classification_max_list_le|]. intros Hp.
  apply (anti_symm class_le); apply classification_max_list_le; [rewrite Hp|rewrite <- Hp];
    by apply classification_max_list_le.
Qed.

Lemma classification_max_is_least_upper_bound_witness :
  (class_le (classification_max_list [Read; Admin]) Admin <->
   Forall (fun x => class_le x Admin) [Read; Admin]) /\
  ([Read; Admin] ≡ₚ [Admin; Read] ->
   classification_max_list [Read; Admin] = classification_max_list [Admin; Read]).
Proof. exact (classification_max_is_least_upper_bound [Read; Admin] [Admin; Read] Admin). Defined.
