(* ===== verification/Policy.v ===== *)
(** * Policy evaluation (crates/dbflux_policy: assignments.rs, engine.rs,
    trusted_clients.rs)

    The policy engine decides what an actor may do on a connection from the
    union of the policies assigned to it, directly or through roles; the
    trusted-client registry decides which clients may ask at all. *)

From S2P Require Import Prelude External Classification.

(** ** Assignments *)

Record ConnectionPolicyAssignment := mkAssignment {
  pa_actor_id : string;
  pa_scope_connection_id : string;
  pa_role_ids : list string;
  pa_policy_ids : list string;
}.

Definition applies_to (a : ConnectionPolicyAssignment) (actor_id connection_id : string)
  : bool :=
  bool_decide (pa_actor_id a = actor_id) &&
  bool_decide (pa_scope_connection_id a = connection_id).

(** ** The engine *)

Record PolicyEvaluationRequest := mkPolicyRequest {
  pr_actor_id : string;
  pr_connection_id : string;
  pr_tool_id : string;
  pr_classification : ExecutionClassification;
}.

Inductive PolicyDecisionReason : Type :=
| NoAssignment
| NoPolicy
| ToolDenied
| ClassificationDenied.

Inductive PolicyDecision : Type :=
| Allow
| RequireApproval
| Deny (reason : PolicyDecisionReason).

#[export] Instance reason_eq_dec : EqDecision PolicyDecisionReason.
Proof. solve_decision. Defined.
#[export] Instance decision_eq_dec : EqDecision PolicyDecision.
Proof. solve_decision. Defined.

Record PolicyRole := mkRole {
  role_id : string;
  role_policy_ids : list string;
}.

Inductive ClassDecision : Type :=
| ClassAllow
| ClassAsk
| ClassDeny.

#[export] Instance class_decision_eq_dec : EqDecision ClassDecision.
Proof. solve_decision. Defined.

Record ToolPolicy := mkPolicy {
  policy_id : string;
  allowed_tools : list string;
  allowed_classes : list ExecutionClassification;
  approval_classes : list ExecutionClassification;
}.

Definition class_decision (p : ToolPolicy) (c : ExecutionClassification) : ClassDecision :=
  if bool_decide (c ∈ approval_classes p) then ClassAsk
  else if bool_decide (c ∈ allowed_classes p) then ClassAllow
  else ClassDeny.

Inductive PolicyEngineError : Type :=
| MissingRole (id : string).

Record PolicyEngine := mkEngine {
  eng_assignments : list ConnectionPolicyAssignment;
  eng_roles : gmap string PolicyRole;
  eng_policies : gmap string ToolPolicy;
}.

(** [PolicyEngine::new]. *)
Definition engine_new (assignments : list ConnectionPolicyAssignment)
    (roles : list PolicyRole) (policies : list ToolPolicy) : PolicyEngine :=
  mkEngine assignments
    (hash_collect (map (fun r => (role_id r, r)) roles))
    (hash_collect (map (fun p => (policy_id p, p)) policies)).

(** The inner loop of [evaluate]: the policies of the roles of one assignment. *)
Fixpoint extend_with_roles (roles : gmap string PolicyRole) (role_ids : list string)
    (ids : gset string) : result (gset string) PolicyEngineError :=
  match role_ids with
  | [] => Ok ids
  | rid :: rest =>
      match roles !! rid with
      | None => Err (MissingRole rid)
      | Some role =>
          extend_with_roles roles rest (ids ∪ list_to_set (role_policy_ids role))
      end
  end.

(** The outer loop: every assignment that applies to the request. *)
Fixpoint collect_policy_ids (roles : gmap string PolicyRole)
    (assignments : list ConnectionPolicyAssignment)
    (actor_id connection_id : string) (ids : gset string)
  : result (gset string) PolicyEngineError :=
  match assignments with
  | [] => Ok ids
  | a :: rest =>
      if applies_to a actor_id connection_id then
        let? ids' := extend_with_roles roles (pa_role_ids a)
                       (ids ∪ list_to_set (pa_policy_ids a)) in
        collect_policy_ids roles rest actor_id connection_id ids'
      else collect_policy_ids roles rest actor_id connection_id ids
  end.

(** The scan over the collected policy ids, in the order the set yields them.
    [None] stands for the early [return Ok(Allow)]; otherwise the two flags
    [(has_tool_match, requires_approval)] at the end of the loop. *)
Fixpoint scan_policies (policies : gmap string ToolPolicy) (tool_id : string)
    (c : ExecutionClassification) (ids : list string)
    (has_tool_match requires_approval : bool) : option (bool * bool) :=
  match ids with
  | [] => Some (has_tool_match, requires_approval)
  | pid :: rest =>
      match policies !! pid with
      | None => scan_policies policies tool_id c rest has_tool_match requires_approval
      | Some p =>
          if negb (bool_decide (tool_id ∈ allowed_tools p)) then
            scan_policies policies tool_id c rest has_tool_match requires_approval
          else
            match class_decision p c with
            | ClassAllow => None
            | ClassAsk => scan_policies policies tool_id c rest true true
            | ClassDeny => scan_policies policies tool_id c rest true requires_approval
            end
      end
  end.

(** [PolicyEngine::evaluate]. *)
Definition evaluate `{HashOrder} (e : PolicyEngine) (req : PolicyEvaluationRequest)
  : result PolicyDecision PolicyEngineError :=
  let? ids := collect_policy_ids (eng_roles e) (eng_assignments e)
                (pr_actor_id req) (pr_connection_id req) ∅ in
  if bool_decide (ids = ∅) then Ok (Deny NoAssignment)
  else
    match scan_policies (eng_policies e) (pr_tool_id req) (pr_classification req)
            (set_entries ids) false false with
    | None => Ok Allow
    | Some (has_tool_match, requires_approval) =>
        if requires_approval then Ok RequireApproval
        else if has_tool_match then Ok (Deny ClassificationDenied)
        else if bool_decide (eng_policies e = ∅) then Ok (Deny NoPolicy)
        else Ok (Deny ToolDenied)
    end.

(** ** Trusted clients *)

Definition UNTRUSTED_CLIENT_AUDIT_REASON : string := "untrusted client".

Record TrustedClient := mkClient {
  tc_id : string;
  tc_name : string;
  tc_issuer : option string;
  tc_active : bool;
}.

Record ClientIdentity := mkIdentity {
  ci_client_id : string;
  ci_issuer : option string;
}.

Definition client_matches (c : TrustedClient) (i : ClientIdentity) : bool :=
  if negb (bool_decide (tc_id c = ci_client_id i)) then false
  else
    match tc_issuer c, ci_issuer i with
    | None, _ => true
    | Some expected, Some actual => bool_decide (expected = actual)
    | Some _, None => false
    end.

Inductive TrustedClientMatch : Type :=
| Trusted (c : TrustedClient)
| Untrusted (reason : string).

(** [TrustedClientRegistry]: its only field is the list of clients. *)
Definition TrustedClientRegistry : Type := list TrustedClient.

Definition replace_clients (r : TrustedClientRegistry) (clients : list TrustedClient)
  : TrustedClientRegistry := clients.

(** [iter().find(p)]. *)
Definition registry_evaluate (r : TrustedClientRegistry) (i : ClientIdentity)
  : TrustedClientMatch :=
  match List.find (fun c => client_matches c i) r with
  | None => Untrusted UNTRUSTED_CLIENT_AUDIT_REASON
  | Some c => if tc_active c then Trusted c else Untrusted UNTRUSTED_CLIENT_AUDIT_REASON
  end.

(** ** Specification of a decision

    [assigned e req pid]: the policy [pid] reaches the actor of [req] on its
    connection.  [applicable e req p]: [p] is such a policy, it exists, and it
    lists the tool. *)

Definition assigned (e : PolicyEngine) (req : PolicyEvaluationRequest) (pid : string)
  : Prop :=
  exists a, a ∈ eng_assignments e /\
    applies_to a (pr_actor_id req) (pr_connection_id req) = true /\
    (pid ∈ pa_policy_ids a \/
     exists rid role, rid ∈ pa_role_ids a /\ eng_roles e !! rid = Some role /\
       pid ∈ role_policy_ids role).

Definition applicable (e : PolicyEngine) (req : PolicyEvaluationRequest) (p : ToolPolicy)
  : Prop :=
  exists pid, assigned e req pid /\ eng_policies e !! pid = Some p /\
    pr_tool_id req ∈ allowed_tools p.

(** A role an assignment of the request names but the engine does not know. *)
Definition missing_role (e : PolicyEngine) (req : PolicyEvaluationRequest) (rid : string)
  : Prop :=
  exists a, a ∈ eng_assignments e /\
    applies_to a (pr_actor_id req) (pr_connection_id req) = true /\
    rid ∈ pa_role_ids a /\ eng_roles e !! rid = None.

(** What one policy says of the request's class: a class listed for approval is
    asked for even when it is also allowed. *)
Inductive decides (p : ToolPolicy) (req : PolicyEvaluationRequest) : ClassDecision -> Prop :=
| decides_ask :
    pr_classification req ∈ approval_classes p -> decides p req ClassAsk
| decides_allow :
    pr_classification req ∉ approval_classes p -> pr_classification req ∈ allowed_classes p ->
    decides p req ClassAllow
| decides_deny :
    pr_classification req ∉ approval_classes p -> pr_classification req ∉ allowed_classes p ->
    decides p req ClassDeny.

Inductive decision_spec (e : PolicyEngine) (req : PolicyEvaluationRequest)
  : PolicyDecision -> Prop :=
| spec_allow p :
    applicable e req p -> decides p req ClassAllow -> decision_spec e req Allow
| spec_ask p :
    applicable e req p -> decides p req ClassAsk ->
    (forall q, applicable e req q -> ~ decides q req ClassAllow) ->
    decision_spec e req RequireApproval
| spec_class_denied p :
    applicable e req p -> (forall q, applicable e req q -> decides q req ClassDeny) ->
    decision_spec e req (Deny ClassificationDenied)
| spec_no_assignment :
    (forall pid, ~ assigned e req pid) -> decision_spec e req (Deny NoAssignment)
| spec_no_policy pid :
    assigned e req pid -> eng_policies e = ∅ -> decision_spec e req (Deny NoPolicy)
| spec_tool_denied pid :
    assigned e req pid -> eng_policies e <> ∅ -> (forall q, ~ applicable e req q) ->
    decision_spec e req (Deny ToolDenied).

(** How permissive a decision is: Deny below Ask below Allow. *)
Definition permissiveness (d : PolicyDecision) : Z :=
  match d with Deny _ => 0 | RequireApproval => 1 | Allow => 2 end.

(** ** The collecting loops *)

Lemma extend_with_roles_Ok roles rids ids ids' :
  extend_with_roles roles rids ids = Ok ids' ->
  (forall rid, rid ∈ rids -> is_Some (roles !! rid)) /\
  (forall pid, pid ∈ ids' <-> pid ∈ ids \/
     exists rid role, rid ∈ rids /\ roles !! rid = Some role /\
       pid ∈ role_policy_ids role).
Proof.
  revert ids. induction rids as [|rid rids IH]; intros ids; simpl.
  { intros [= ->]. split; [set_solver|]. set_solver. }
  destruct (roles !! rid) as [role|] eqn:Hr; [|done].
  intros [Hall Hids]%IH. split.
  - intros r [->|Hin]%elem_of_cons; eauto.
  - intros pid. rewrite Hids, elem_of_union, elem_of_list_to_set.
    setoid_rewrite elem_of_cons. naive_solver.
Qed.

Lemma extend_with_roles_Err roles rids ids err :
  extend_with_roles roles rids ids = Err err ->
  exists rid, err = MissingRole rid /\ rid ∈ rids /\ roles !! rid = None.
Proof.
  revert ids. induction rids as [|rid rids IH]; intros ids; simpl; [done|].
  destruct (roles !! rid) eqn:Hr.
  - intros (r & -> & ? & ?)%IH. exists r. set_solver.
  - intros [= <-]. exists rid. set_solver.
Qed.

Lemma collect_Ok roles asg actor conn ids ids' :
  collect_policy_ids roles asg actor conn ids = Ok ids' ->
  (forall a rid, a ∈ asg -> applies_to a actor conn = true -> rid ∈ pa_role_ids a ->
     is_Some (roles !! rid)) /\
  (forall pid, pid ∈ ids' <-> pid ∈ ids \/
     exists a, a ∈ asg /\ applies_to a actor conn = true /\
       (pid ∈ pa_policy_ids a \/
        exists rid role, rid ∈ pa_role_ids a /\ roles !! rid = Some role /\
          pid ∈ role_policy_ids role)).
Proof.
  revert ids. induction asg as [|a asg IH]; intros ids; simpl.
  { intros [= ->]. split; [set_solver|]. set_solver. }
  destruct (applies_to a actor conn) eqn:Ha.
  - destruct (extend_with_roles roles (pa_role_ids a) _) as [ids1|] eqn:He; [|done].
    apply extend_with_roles_Ok in He as [Hr Hids1]. intros [Hall Hids]%IH. split.
    + intros b rid [->|Hb]%elem_of_cons; eauto.
    + intros pid. rewrite Hids, Hids1, elem_of_union, elem_of_list_to_set.
      setoid_rewrite elem_of_cons. naive_solver.
  - intros [Hall Hids]%IH. split.
    + intros b rid [->|Hb]%elem_of_cons; [congruence|eauto].
    + intros pid. rewrite Hids. setoid_rewrite elem_of_cons. naive_solver congruence.
Qed.

Lemma collect_Err roles asg actor conn ids err :
  collect_policy_ids roles asg actor conn ids = Err err ->
  exists a rid, err = MissingRole rid /\ a ∈ asg /\ applies_to a actor conn = true /\
    rid ∈ pa_role_ids a /\ roles !! rid = None.
Proof.
  revert ids. induction asg as [|a asg IH]; intros ids; simpl; [done|].
  destruct (applies_to a actor conn) eqn:Ha.
  - destruct (extend_with_roles roles (pa_role_ids a) _) as [ids1|err'] eqn:He.
    + intros (b & rid & -> & ? & ?)%IH. exists b, rid. set_solver.
    + intros [= ->]. apply extend_with_roles_Err in He as (rid & -> & ? & ?).
      exists a, rid. set_solver.
  - intros (b & rid & -> & ? & ?)%IH. exists b, rid. set_solver.
Qed.

Lemma collect_assigned e req ids :
  collect_policy_ids (eng_roles e) (eng_assignments e) (pr_actor_id req)
    (pr_connection_id req) ∅ = Ok ids ->
  (forall pid, pid ∈ ids <-> assigned e req pid) /\ (forall r, ~ missing_role e req r).
Proof.
  intros [Hall Hids]%collect_Ok. split.
  - intros pid. rewrite Hids. unfold assigned. set_solver.
  - intros r (a & Ha & Hap & Hr & Hn). destruct (Hall a r Ha Hap Hr). congruence.
Qed.

Lemma collect_missing e req err :
  collect_policy_ids (eng_roles e) (eng_assignments e) (pr_actor_id req)
    (pr_connection_id req) ∅ = Err err ->
  exists rid, err = MissingRole rid /\ missing_role e req rid.
Proof.
  intros (a & rid & -> & H)%collect_Err. exists rid. split; [done|]. by exists a.
Qed.

(** ** The scanning loop *)

(** The policies of [ids] that list the tool. *)
Definition listed (policies : gmap string ToolPolicy) (tool : string) (ids : list string)
    (p : ToolPolicy) : Prop :=
  exists pid, pid ∈ ids /\ policies !! pid = Some p /\ tool ∈ allowed_tools p.

Lemma listed_cons policies tool pid ids p :
  listed policies tool (pid :: ids) p <->
  (policies !! pid = Some p /\ tool ∈ allowed_tools p) \/ listed policies tool ids p.
Proof. unfold listed. setoid_rewrite elem_of_cons. naive_solver. Qed.

Lemma scan_None policies tool c ids h r :
  scan_policies policies tool c ids h r = None <->
  exists p, listed policies tool ids p /\ class_decision p c = ClassAllow.
Proof.
  revert h r. induction ids as [|pid ids IH]; intros h r; simpl.
  { split; [done|]. intros (p & (pid & H & _) & _). by apply not_elem_of_nil in H. }
  setoid_rewrite listed_cons.
  destruct (policies !! pid) as [p|] eqn:Hp; [|rewrite IH; naive_solver].
  case_bool_decide as Ht; simpl; [|rewrite IH; naive_solver].
  destruct (class_decision p c) eqn:Hc; [|rewrite IH; naive_solver congruence..].
  split; [|done]. intros _. exists p. naive_solver.
Qed.

Lemma scan_Some policies tool c ids h r h' r' :
  scan_policies policies tool c ids h r = Some (h', r') ->
  (h' = true <-> h = true \/ exists p, listed policies tool ids p) /\
  (r' = true <-> r = true \/
     exists p, listed policies tool ids p /\ class_decision p c = ClassAsk).
Proof.
  revert h r. induction ids as [|pid ids IH]; intros h r; simpl.
  { intros [= -> ->]. unfold listed.
    split; (split; [tauto|]); intros [?|Hl]; try done;
      [destruct Hl as (p & ? & Hin & _)|destruct Hl as (p & (? & Hin & _) & _)];
      by apply not_elem_of_nil in Hin. }
  setoid_rewrite listed_cons.
  destruct (policies !! pid) as [p|] eqn:Hp.
  2:{ intros [Hh Hr]%IH. rewrite Hh, Hr. naive_solver. }
  case_bool_decide as Ht; simpl.
  2:{ intros [Hh Hr]%IH. rewrite Hh, Hr. naive_solver. }
  destruct (class_decision p c) eqn:Hc; [done|..];
    intros [Hh Hr]%IH; rewrite Hh, Hr; naive_solver congruence.
Qed.

Lemma listed_applicable `{HashOrder} e req ids p :
  (forall pid, pid ∈ ids <-> assigned e req pid) ->
  listed (eng_policies e) (pr_tool_id req) (set_entries ids) p <-> applicable e req p.
Proof.
  intros Hids. unfold listed, applicable. setoid_rewrite set_entries_elem.
  by setoid_rewrite Hids.
Qed.

Lemma decides_class p req d :
  decides p req d <-> class_decision p (pr_classification req) = d.
Proof.
  unfold class_decision. split.
  - destruct 1; repeat case_bool_decide; done.
  - intros <-. repeat case_bool_decide; by constructor.
Qed.

(** The six outcomes in terms of four facts, which exclude each other. *)
Lemma decision_spec_facts e req d :
  decision_spec e req d ->
  let granted c := exists p, applicable e req p /\ decides p req c in
  let listed_tool := exists p, applicable e req p in
  let any := exists pid, assigned e req pid in
  match d with
  | Allow => granted ClassAllow
  | RequireApproval => ~ granted ClassAllow /\ granted ClassAsk
  | Deny ClassificationDenied =>
      ~ granted ClassAllow /\ ~ granted ClassAsk /\ listed_tool
  | Deny NoAssignment => ~ any
  | Deny NoPolicy => any /\ ~ listed_tool /\ eng_policies e = ∅
  | Deny ToolDenied => any /\ ~ listed_tool /\ eng_policies e <> ∅
  end.
Proof.
  intros H. destruct H; simpl.
  - eauto.
  - split; [|eauto]. intros (q & Hq & ?). by eapply H1.
  - split; [|split; [|eauto]]; intros (q & Hq & Hd); specialize (H0 q Hq);
    apply decides_class in Hd; apply decides_class in H0; congruence.
  - intros [pid Hp]. by eapply H.
  - split; [eauto|]. split; [|done]. intros (p & pid' & _ & Hl & _).
    rewrite H0 in Hl. by apply lookup_empty_Some in Hl.
  - split; [eauto|]. split; [|done]. intros [q Hq]. by eapply H1.
Qed.

Lemma decision_spec_det e req d1 d2 :
  decision_spec e req d1 -> decision_spec e req d2 -> d1 = d2.
Proof.
  intros H1%decision_spec_facts H2%decision_spec_facts. simpl in *.
  assert (forall c, (exists p, applicable e req p /\ decides p req c) ->
    exists p, applicable e req p) as Hgl by naive_solver.
  assert ((exists p, applicable e req p) -> exists pid, assigned e req pid) as Hla.
  { intros (p & pid & H & _). by exists pid. }
  pose proof (Hgl ClassAllow). pose proof (Hgl ClassAsk).
  destruct d1 as [| |[]], d2 as [| |[]]; try done; exfalso; tauto.
Qed.

(** ** Evaluation against the specification *)

Lemma evaluate_sound `{HashOrder} e req d :
  evaluate e req = Ok d ->
  (forall r, ~ missing_role e req r) /\ decision_spec e req d.
Proof.
  unfold evaluate.
  destruct (collect_policy_ids _ _ _ _ _) as [ids|err] eqn:Hc; [|done].
  apply collect_assigned in Hc as [Hids Hmr]. intros Hd. split; [done|].
  case_bool_decide as Hempty.
  { simplify_eq. constructor. intros pid Hp%Hids. set_solver. }
  apply set_choose_L in Hempty as [pid0 Hp0%Hids].
  pose proof (fun p => listed_applicable e req ids p Hids) as Hla.
  destruct (scan_policies _ _ _ _ _ _) as [[h r]|] eqn:Hs.
  - assert (forall q, applicable e req q ->
      class_decision q (pr_classification req) <> ClassAllow) as Hno.
    { intros q Hq Hqa.
      assert (scan_policies (eng_policies e) (pr_tool_id req) (pr_classification req)
                (set_entries ids) false false = None); [|congruence].
      apply scan_None. exists q. by rewrite Hla. }
    apply scan_Some in Hs as [Hh Hr]. setoid_rewrite Hla in Hh. setoid_rewrite Hla in Hr.
    destruct r; simplify_eq.
    { destruct Hr as [[?|(p & Hp & Hk)] _]; [done|done|]. eapply spec_ask; eauto.
      - by apply decides_class.
      - intros q Hq ?%decides_class. by eapply Hno. }
    assert (forall q, applicable e req q -> decides q req ClassDeny) as Hdeny.
    { intros q Hq. apply decides_class. specialize (Hno q Hq).
      destruct (class_decision q _) eqn:Hk; [done| |done].
      assert (false = true) by (apply Hr; eauto). done. }
    destruct h; simplify_eq.
    { destruct Hh as [[?|(p & Hp)] _]; [done|done|]. by eapply spec_class_denied. }
    case_bool_decide; simplify_eq; [by eapply spec_no_policy|].
    eapply spec_tool_denied; eauto. intros q Hq.
    assert (false = true) by (apply Hh; eauto). done.
  - simplify_eq. apply scan_None in Hs as (p & Hp & Hk). apply Hla in Hp.
    eapply spec_allow; [done|]. by apply decides_class.
Qed.

Lemma evaluate_error `{HashOrder} e req err :
  evaluate e req = Err err -> exists r, err = MissingRole r /\ missing_role e req r.
Proof.
  unfold evaluate.
  destruct (collect_policy_ids _ _ _ _ _) as [ids|err'] eqn:Hc.
  - case_bool_decide; [done|]. destruct (scan_policies _ _ _ _ _ _) as [[[] []]|];
      try done. by case_bool_decide.
  - intros [= ->]. by apply collect_missing.
Qed.

Lemma assigned_mono e1 e2 req pid :
  eng_assignments e1 ⊆ eng_assignments e2 -> eng_roles e1 ⊆ eng_roles e2 ->
  assigned e1 req pid -> assigned e2 req pid.
Proof.
  intros Ha Hr (a & Hin & Hap & Hp). exists a. split; [by apply Ha|]. split; [done|].
  destruct Hp as [?|(rid & role & ? & Hl & ?)]; [by left|]. right. exists rid, role.
  split; [done|]. split; [|done]. by eapply lookup_weaken.
Qed.

Lemma applicable_mono e1 e2 req p :
  eng_assignments e1 ⊆ eng_assignments e2 -> eng_roles e1 ⊆ eng_roles e2 ->
  eng_policies e1 ⊆ eng_policies e2 -> applicable e1 req p -> applicable e2 req p.
Proof.
  intros Ha Hr Hp (pid & Has & Hl & Ht). exists pid.
  split; [by eapply assigned_mono|]. split; [|done]. by eapply lookup_weaken.
Qed.

Lemma collect_filter roles asg actor conn ids :
  collect_policy_ids roles (List.filter (fun a => applies_to a actor conn) asg)
    actor conn ids = collect_policy_ids roles asg actor conn ids.
Proof.
  revert ids. induction asg as [|a asg IH]; intros ids; simpl; [done|].
  destruct (applies_to a actor conn) eqn:Ha; simpl; [|done].
  rewrite Ha. by destruct (extend_with_roles _ _ _).
Qed.

(** C4: evaluation is exactly the specified decision: it returns [d] iff every
    role the request's assignments name is known and [d] is the decision the
    union of the assigned policies gives (Allow over Ask over Deny, with the
    deny reason). *)
Theorem evaluate_refines_spec `{HashOrder} e req d :
  evaluate e req = Ok d <->
  (forall r, ~ missing_role e req r) /\ decision_spec e req d.
Proof.
  split; [apply evaluate_sound|]. intros [Hm Hd].
  destruct (evaluate e req) as [d'|err] eqn:He.
  - f_equal. apply evaluate_sound in He as [_ Hd']. by eapply decision_spec_det.
  - apply evaluate_error in He as (r & _ & Hr). by destruct (Hm r).
Qed.

(** Evaluation fails only with the name of a role that an assignment of
    this actor on this connection refers to and that does not exist, and it
    always fails when there is one. *)
Theorem evaluate_error_is_missing_role `{HashOrder} e req :
  match evaluate e req with
  | Err (MissingRole r) => missing_role e req r
  | Ok _ => forall r, ~ missing_role e req r
  end.
Proof.
  destruct (evaluate e req) as [d|[r]] eqn:He.
  - by apply evaluate_sound in He as [? _].
  - by apply evaluate_error in He as (r' & [= ->] & ?).
Qed.

(** Policies are additive grants: giving an actor more assignments, roles
    or policies never makes a decision stricter. *)
Theorem evaluate_additive `{HashOrder} e1 e2 req d1 d2
    (Ha : eng_assignments e1 ⊆ eng_assignments e2)
    (Hr : eng_roles e1 ⊆ eng_roles e2)
    (Hp : eng_policies e1 ⊆ eng_policies e2)
    (H1 : evaluate e1 req = Ok d1) (H2 : evaluate e2 req = Ok d2) :
  permissiveness d1 <= permissiveness d2.
Proof.
  apply evaluate_sound in H1 as [_ H1], H2 as [_ H2].
  apply decision_spec_facts in H1, H2. simpl in *.
  assert (forall c, (exists p, applicable e1 req p /\ decides p req c) ->
    (exists p, applicable e2 req p /\ decides p req c) /\
    (exists p, applicable e2 req p) /\ (exists pid, assigned e2 req pid)) as Hm.
  { intros c (p & Hap & Hd). apply (applicable_mono e1 e2) in Hap; [|done..].
    split; [by exists p|]. split; [by exists p|]. destruct Hap as (pid & ? & _).
    by exists pid. }
  pose proof (Hm ClassAllow). pose proof (Hm ClassAsk).
  destruct d1 as [| |[]], d2 as [| |[]]; simpl; try lia; exfalso; tauto.
Qed.

(** A decision for an actor on a connection depends only on the
    assignments of that actor on that connection: all others can be dropped. *)
Theorem evaluate_isolated `{HashOrder} asg roles policies req :
  evaluate (mkEngine asg roles policies) req =
  evaluate (mkEngine
    (List.filter (fun a => applies_to a (pr_actor_id req) (pr_connection_id req)) asg)
    roles policies) req.
Proof. unfold evaluate. simpl. by rewrite collect_filter. Qed.

Lemma evaluate_any_order (O1 O2 : HashOrder) e req :
  @evaluate O1 e req = @evaluate O2 e req.
Proof.
  unfold evaluate. destruct (collect_policy_ids _ _ _ _ _) as [ids|err] eqn:Hc; [|done].
  assert (forall d1 d2, @evaluate O1 e req = Ok d1 -> @evaluate O2 e req = Ok d2 ->
    d1 = d2) as Hdet.
  { intros d1 d2 [_ H1]%evaluate_sound [_ H2]%evaluate_sound.
    by eapply decision_spec_det. }
  unfold evaluate in Hdet. rewrite Hc in Hdet. case_bool_decide; [done|].
  destruct (scan_policies _ _ _ (@set_entries O1 _) _ _) as [[[] []]|],
    (scan_policies _ _ _ (@set_entries O2 _) _ _) as [[[] []]|];
    repeat case_bool_decide; try done; f_equal; by apply Hdet.
Qed.

(** The decision does not depend on the order in which the hash set of
    policy ids is visited, although the loop returns early. *)
Theorem evaluate_order_independent (O1 O2 : HashOrder) e req :
  @evaluate O1 e req = @evaluate O2 e req.
Proof. apply evaluate_any_order. Qed.

(** A client is trusted iff the first registered client that matches its
    id (and its issuer, when the registration names one) is active; every
    other identity is refused with the audit reason. *)
Theorem registry_first_match r i :
  match registry_evaluate r i with
  | Trusted c => exists l1 l2, r = l1 ++ c :: l2 /\ client_matches c i = true /\
      tc_active c = true /\ Forall (fun c' => client_matches c' i = false) l1
  | Untrusted reason => reason = UNTRUSTED_CLIENT_AUDIT_REASON /\
      forall l1 c l2, r = l1 ++ c :: l2 -> client_matches c i = true ->
        tc_active c = true -> Exists (fun c' => client_matches c' i = true) l1
  end.
Proof.
  unfold registry_evaluate. induction r as [|c r IH]; simpl.
  { split; [done|]. by intros []. }
  destruct (client_matches c i) eqn:Hm.
  - destruct (tc_active c) eqn:Ha.
    + exists [], r. auto.
    + split; [done|]. intros [|c' l1] d l2 [= -> ->] Hd Hda; [congruence|]. by left.
  - destruct (List.find _ r) as [c'|]; [destruct (tc_active c')|].
    + destruct IH as (l1 & l2 & -> & ? & ? & ?). exists (c :: l1), l2.
      split; [done|]. auto.
    + destruct IH as [? IH]. split; [done|].
      intros [|c1 l1] d l2 [= -> ->] Hd Hda; [congruence|]. right. eauto.
    + destruct IH as [? IH]. split; [done|].
      intros [|c1 l1] d l2 [= -> ->] Hd Hda; [congruence|]. right. eauto.
Qed.

(** *** A concrete engine *)

Module PolicyExample.

Definition reader : ToolPolicy :=
  mkPolicy "read" ["select_data"] [Metadata; Read] [].
Definition writer : ToolPolicy :=
  mkPolicy "write" ["select_data"; "update_records"] [Read] [Write].
Definition role : PolicyRole := mkRole "editor" ["write"].
Definition alice : ConnectionPolicyAssignment :=
  mkAssignment "alice" "db" [] ["read"].
Definition alice2 : ConnectionPolicyAssignment :=
  mkAssignment "alice" "db" ["editor"] [].
Definition small : PolicyEngine := engine_new [alice] [role] [reader; writer].
Definition large : PolicyEngine := engine_new [alice; alice2] [role] [reader; writer].
Definition update : PolicyEvaluationRequest :=
  mkPolicyRequest "alice" "db" "update_records" Write.

End PolicyExample.

(** The hypotheses of [evaluate_additive] hold for an engine to which an
    assignment was added, where the decision goes from Deny to Ask. *)
Lemma evaluate_additive_witness :
  permissiveness (Deny ToolDenied) <= permissiveness RequireApproval.
Proof.
  apply (evaluate_additive PolicyExample.small PolicyExample.large PolicyExample.update).
  - intros a. simpl. set_solver.
  - simpl. reflexivity.
  - simpl. reflexivity.
  - vm_compute. reflexivity.
  - vm_compute. reflexivity.
Defined.
