(* ===== verification/Approval.v ===== *)
(** * The approval queue (crates/dbflux_approval: store.rs, service.rs)

    A call that a policy sends to approval waits in a queue of pending
    executions until a person approves or rejects it; an approval authorizes
    one identical call and is then consumed.  The store is an interface
    ([PendingExecutionStore], the Rust trait) with two implementations: the
    in-memory one below and the SQLite one of PendingSql.v.  Everything proved
    of [ApprovalService] is proved from the laws of the interface
    ([PendingStoreLaws]). *)

From S2P Require Import Prelude RustStr External Classification.

(** ** Data *)

Section Data.
Context `{UuidLib, SerdeJson}.

Record ExecutionPlan := mkPlan {
  plan_connection_id : string;
  plan_actor_id : string;
  plan_tool_id : string;
  plan_classification : ExecutionClassification;
  plan_payload : Value;
}.

Inductive PendingStatus : Type :=
| Pending
| Approved
| Rejected
| Consumed.

#[export] Instance status_eq_dec : EqDecision PendingStatus.
Proof. solve_decision. Defined.

Record PendingExecution := mkPending {
  pe_id : Uuid;
  pe_status : PendingStatus;
  pe_plan : ExecutionPlan;
  pe_created_at : Z;
  pe_expires_at : option Z;
  pe_rejection_reason : option string;
}.

Inductive PendingStoreError : Type :=
| Backend (msg : string)
| Serialization (msg : string).

(** [approval_matches_plan]: the classification is not compared. *)
Definition approval_matches_plan (approved plan : ExecutionPlan) : bool :=
  bool_decide (plan_actor_id approved = plan_actor_id plan) &&
  bool_decide (plan_connection_id approved = plan_connection_id plan) &&
  bool_decide (plan_tool_id approved = plan_tool_id plan) &&
  value_eqb (plan_payload approved) (plan_payload plan).

(** [entry.expires_at.is_none_or(|exp| exp > now)]. *)
Definition unexpired (now : Z) (e : PendingExecution) : bool :=
  match pe_expires_at e with None => true | Some exp => bool_decide (exp > now) end.

Definition with_status (st : PendingStatus) (e : PendingExecution) : PendingExecution :=
  mkPending (pe_id e) st (pe_plan e) (pe_created_at e) (pe_expires_at e)
    (pe_rejection_reason e).

Definition with_rejection (reason : option string) (e : PendingExecution)
  : PendingExecution :=
  mkPending (pe_id e) Rejected (pe_plan e) (pe_created_at e) (pe_expires_at e) reason.

End Data.

(** ** The store interface (trait [PendingExecutionStore]) *)

Class PendingExecutionStore `{UuidLib, SerdeJson} (St : Type) := {
  create_pending : ExecutionPlan -> option Z ->
    SM (World * St) PendingStoreError PendingExecution;
  get_pending : Uuid -> SM (World * St) PendingStoreError (option PendingExecution);
  get_execution : Uuid -> SM (World * St) PendingStoreError (option PendingExecution);
  update_status : Uuid -> PendingStatus ->
    SM (World * St) PendingStoreError (option PendingExecution);
  record_rejection : Uuid -> option string ->
    SM (World * St) PendingStoreError (option PendingExecution);
  list_pending : SM (World * St) PendingStoreError (list PendingExecution);
  consume_approved : ExecutionPlan ->
    SM (World * St) PendingStoreError (option PendingExecution);
  purge_terminal_and_expired : Z -> SM (World * St) PendingStoreError nat;
}.

(** ** The queue as the interface promises it

    What each operation means for the list of entries, independent of how a
    store keeps them. *)

Section Queue.
Context `{UuidLib, SerdeJson}.

Definition has_id (id : Uuid) (e : PendingExecution) : bool := bool_decide (pe_id e = id).

Definition is_live_pending (now : Z) (e : PendingExecution) : bool :=
  bool_decide (pe_status e = Pending) && unexpired now e.

Definition authorizes (now : Z) (plan : ExecutionPlan) (e : PendingExecution) : bool :=
  bool_decide (pe_status e = Approved) && unexpired now e &&
  approval_matches_plan (pe_plan e) plan.

(** What survives a purge: not rejected, not consumed, not expired. *)
Definition survives_purge (now : Z) (e : PendingExecution) : bool :=
  let is_finished :=
    match pe_status e with Rejected | Consumed => true | _ => false end in
  let is_expired :=
    match pe_expires_at e with None => false | Some exp => bool_decide (exp <= now) end in
  negb is_finished && negb is_expired.

(** Update the first entry that has the property. *)
Fixpoint update_first (p : PendingExecution -> bool)
    (f : PendingExecution -> PendingExecution) (q : list PendingExecution)
  : option (PendingExecution * list PendingExecution) :=
  match q with
  | [] => None
  | e :: q' =>
      if p e then Some (f e, f e :: q')
      else match update_first p f q' with
           | Some (e', q'') => Some (e', e :: q'')
           | None => None
           end
  end.

(** [min_by_key]: the first entry with the least key. *)
Fixpoint min_by_created (acc : nat * PendingExecution) (l : list (nat * PendingExecution))
  : nat * PendingExecution :=
  match l with
  | [] => acc
  | x :: l' =>
      if bool_decide (pe_created_at x.2 < pe_created_at acc.2)
      then min_by_created x l' else min_by_created acc l'
  end.

(** The oldest entry that authorizes the plan, with its position. *)
Definition oldest_authorizing (now : Z) (plan : ExecutionPlan)
    (q : list PendingExecution) : option (nat * PendingExecution) :=
  match List.filter (fun ie => authorizes now plan ie.2) (imap pair q) with
  | [] => None
  | x :: l => Some (min_by_created x l)
  end.

Definition fresh_pending (id : Uuid) (plan : ExecutionPlan) (now : Z)
    (expires_at : option Z) : PendingExecution :=
  mkPending id Pending plan now expires_at None.

End Queue.

(** ** The in-memory store *)

Definition InMemoryPendingExecutionStore `{UuidLib, SerdeJson} : Type :=
  list PendingExecution.

Section InMemory.
Context `{UuidLib, SerdeJson}.

Let St : Type := list PendingExecution.
Let M (A : Type) : Type := SM (World * St) PendingStoreError A.

Definition on_world {A S} (m : SM World PendingStoreError A)
  : SM (World * S) PendingStoreError A :=
  sm_zoom fst (fun w s => (w, s.2)) m.

Definition mem_create_pending (plan : ExecutionPlan) (expires_at : option Z)
  : M PendingExecution :=
  id ← on_world uuid_new_v4;
  now ← on_world now_epoch_ms;
  let pending := fresh_pending id plan now expires_at in
  _ ← sm_modify (fun s : World * St => (s.1, s.2 ++ [pending]));
  mret pending.

Definition mem_get_pending (id : Uuid) : M (option PendingExecution) :=
  now ← on_world now_epoch_ms;
  s ← sm_get;
  mret (List.find (fun e => has_id id e && bool_decide (pe_status e = Pending) &&
                            unexpired now e) (snd s)).

Definition mem_get_execution (id : Uuid) : M (option PendingExecution) :=
  s ← sm_get;
  mret (List.find (has_id id) (snd s)).

Definition mem_update (id : Uuid) (f : PendingExecution -> PendingExecution)
  : M (option PendingExecution) :=
  fun s => match update_first (has_id id) f (snd s) with
           | Some (e, q) => ((fst s, q), Ok (Some e))
           | None => (s, Ok None)
           end.

Definition mem_update_status (id : Uuid) (st : PendingStatus) : M (option PendingExecution) :=
  mem_update id (with_status st).

Definition mem_record_rejection (id : Uuid) (reason : option string)
  : M (option PendingExecution) :=
  mem_update id (with_rejection reason).

Definition mem_list_pending : M (list PendingExecution) :=
  now ← on_world now_epoch_ms;
  s ← sm_get;
  mret (List.filter (is_live_pending now) (snd s)).

Definition mem_consume_approved (plan : ExecutionPlan) : M (option PendingExecution) :=
  now ← on_world now_epoch_ms;
  s ← sm_get;
  match oldest_authorizing now plan (snd s) with
  | Some (i, e) =>
      let e' := with_status Consumed e in
      _ ← sm_modify (fun s : World * St => (s.1, <[i := e']> s.2));
      mret (Some e')
  | None => mret None
  end.

Definition mem_purge (now_ms : Z) : M nat :=
  fun s => let kept := List.filter (survives_purge now_ms) (snd s) in
           ((fst s, kept), Ok (length (snd s) - length kept)%nat).

#[export] Instance mem_store : PendingExecutionStore InMemoryPendingExecutionStore := {
  create_pending := mem_create_pending;
  get_pending := mem_get_pending;
  get_execution := mem_get_execution;
  update_status := mem_update_status;
  record_rejection := mem_record_rejection;
  list_pending := mem_list_pending;
  consume_approved := mem_consume_approved;
  purge_terminal_and_expired := mem_purge;
}.

End InMemory.

(** ** The laws of the interface *)

Section Laws.
Context `{UuidLib, SerdeJson}.

(** The [n]-th clock reading as [now_epoch_ms] returns it. *)
Definition reading (w : World) (n : nat) : Z := i64_wrap (Z.max 0 (clock w n)).

(** [now] was read from the clock between the two states. *)
Definition read_during (w w' : World) (now : Z) : Prop :=
  exists n, (ticks w <= n < ticks w')%nat /\ now = reading w n.

(** Time passes and identifiers are used up; the sources stay the same. *)
Definition world_le (w w' : World) : Prop :=
  clock w' = clock w /\ uuids w' = uuids w /\ db_fault w' = db_fault w /\
  (ticks w <= ticks w')%nat /\ (issued w <= issued w')%nat /\
  (db_calls w <= db_calls w')%nat.

#[export] Instance world_le_preorder : PreOrder world_le.
Proof.
  split; [by intros w|]. unfold world_le. intros w1 w2 w3. intuition (congruence || lia).
Qed.

Lemma world_le_tick w : world_le w (tick w).
Proof. repeat split; simpl; lia. Qed.

Lemma world_le_bump w : world_le w (bump_db w).
Proof. repeat split; simpl; lia. Qed.

Lemma read_during_tick w : read_during w (tick w) (reading w (ticks w)).
Proof. exists (ticks w). simpl. split; [lia|done]. Qed.

Definition ids_distinct (q : list PendingExecution) : Prop := NoDup (pe_id <$> q).

(** One entry with property [p] was replaced by [f] of it. *)
Definition replaced (p : PendingExecution -> Prop)
    (f : PendingExecution -> PendingExecution) (q q' : list PendingExecution)
    (e' : PendingExecution) : Prop :=
  exists i e, q !! i = Some e /\ p e /\ e' = f e /\ q' = <[i := e']> q.

End Laws.

#[export] Hint Resolve world_le_tick world_le_bump read_during_tick : dbflux.

(** [entries] is the queue a store holds, [store_ok] its internal invariant and
    [plan_storable] says which plans it gives back unchanged. *)
Class PendingStoreLaws `{PendingExecutionStore St} := {
  entries : St -> list PendingExecution;
  store_ok : St -> Prop;
  plan_storable : ExecutionPlan -> Prop;
  law_create w s w' s' plan exp r :
    create_pending plan exp (w, s) = ((w', s'), r) -> store_ok s -> plan_storable plan ->
    store_ok s' /\ world_le w w' /\
    match r with
    | Ok e => exists now, read_during w w' now /\ (issued w < issued w')%nat /\
        e = fresh_pending (uuids w (issued w)) plan now exp /\
        entries s' = entries s ++ [e]
    | Err _ => entries s' = entries s
    end;
  law_get_pending w s w' s' id r :
    get_pending id (w, s) = ((w', s'), r) -> store_ok s ->
    store_ok s' /\ world_le w w' /\ entries s' = entries s /\
    match r with
    | Ok (Some e) => e ∈ entries s /\ pe_id e = id /\
        exists now, read_during w w' now /\ is_live_pending now e = true
    | Ok None => exists now, read_during w w' now /\
        forall e, e ∈ entries s -> pe_id e = id -> is_live_pending now e = false
    | Err _ => True
    end;
  law_get_execution w s w' s' id r :
    get_execution id (w, s) = ((w', s'), r) -> store_ok s ->
    store_ok s' /\ world_le w w' /\ entries s' = entries s /\
    match r with
    | Ok (Some e) => e ∈ entries s /\ pe_id e = id
    | Ok None => forall e, e ∈ entries s -> pe_id e <> id
    | Err _ => True
    end;
  law_update_status w s w' s' id st r :
    update_status id st (w, s) = ((w', s'), r) -> store_ok s ->
    ids_distinct (entries s) ->
    store_ok s' /\ world_le w w' /\
    let upd := replaced (fun e => pe_id e = id) (with_status st) (entries s) (entries s') in
    match r with
    | Ok (Some e') => upd e'
    | Ok None => entries s' = entries s /\ forall e, e ∈ entries s -> pe_id e <> id
    | Err _ => entries s' = entries s \/ exists e', upd e'
    end;
  law_record_rejection w s w' s' id reason r :
    record_rejection id reason (w, s) = ((w', s'), r) -> store_ok s ->
    ids_distinct (entries s) ->
    store_ok s' /\ world_le w w' /\
    let upd := replaced (fun e => pe_id e = id) (with_rejection reason)
                 (entries s) (entries s') in
    match r with
    | Ok (Some e') => upd e'
    | Ok None => entries s' = entries s /\ forall e, e ∈ entries s -> pe_id e <> id
    | Err _ => entries s' = entries s \/ exists e', upd e'
    end;
  law_list_pending w s w' s' r :
    list_pending (w, s) = ((w', s'), r) -> store_ok s ->
    store_ok s' /\ world_le w w' /\ entries s' = entries s /\
    match r with
    | Ok l => exists now, read_during w w' now /\
        l ≡ₚ List.filter (is_live_pending now) (entries s)
    | Err _ => True
    end;
  law_consume w s w' s' plan r :
    consume_approved plan (w, s) = ((w', s'), r) -> store_ok s ->
    ids_distinct (entries s) ->
    store_ok s' /\ world_le w w' /\
    match r with
    | Ok (Some e') => exists now, read_during w w' now /\
        replaced (fun e => authorizes now plan e = true /\
                    forall e2, e2 ∈ entries s -> authorizes now plan e2 = true ->
                      pe_created_at e <= pe_created_at e2)
          (with_status Consumed) (entries s) (entries s') e'
    | Ok None => entries s' = entries s /\ exists now, read_during w w' now /\
        forall e, e ∈ entries s -> authorizes now plan e = false
    | Err _ => entries s' = entries s
    end;
  law_purge w s w' s' now r :
    purge_terminal_and_expired now (w, s) = ((w', s'), r) -> store_ok s ->
    store_ok s' /\ world_le w w' /\
    match r with
    | Ok n => entries s' = List.filter (survives_purge now) (entries s) /\
        n = (length (entries s) - length (entries s'))%nat
    | Err _ => entries s' = entries s
    end;
}.

(** ** The in-memory store keeps the laws *)

Section InMemoryLaws.
Context `{UuidLib, SerdeJson}.

Lemma update_first_Some p f q e' q' :
  update_first p f q = Some (e', q') -> replaced (fun e => p e = true) f q q' e'.
Proof.
  revert q'. induction q as [|e q IH]; intros q'; simpl; [done|].
  destruct (p e) eqn:Hp.
  - intros [= <- <-]. by exists 0%nat, e.
  - destruct (update_first p f q) as [[e1 q1]|]; [|done]. intros [= <- <-].
    destruct (IH _ eq_refl) as (i & e0 & Hi & ? & ? & ->). by exists (S i), e0.
Qed.

Lemma update_first_None p f q :
  update_first p f q = None -> forall e, e ∈ q -> p e = false.
Proof.
  induction q as [|e q IH]; simpl; [set_solver|].
  destruct (p e) eqn:Hp; [done|]. destruct (update_first p f q) as [[]|]; [done|].
  intros _ e' [->|Hin]%elem_of_cons; auto.
Qed.

Lemma min_by_created_spec acc l :
  let m := min_by_created acc l in
  (m = acc \/ m ∈ l) /\ pe_created_at m.2 <= pe_created_at acc.2 /\
  forall x, x ∈ l -> pe_created_at m.2 <= pe_created_at x.2.
Proof.
  revert acc. induction l as [|x l IH]; intros acc; simpl.
  { split; [by left|]. split; [done|]. intros x Hx. by apply elem_of_nil in Hx. }
  case_bool_decide.
  - destruct (IH x) as ([Hm|Hm] & Ha & Hb); (split; [set_solver|]); (split; [lia|]);
      intros y [->|Hy]%elem_of_cons; auto.
  - destruct (IH acc) as ([Hm|Hm] & Ha & Hb); (split; [set_solver|]); (split; [lia|]);
      intros y [->|Hy]%elem_of_cons; auto; lia.
Qed.

Lemma imap_pair_elem {A} (q : list A) i e : (i, e) ∈ imap pair q <-> q !! i = Some e.
Proof.
  rewrite elem_of_lookup_imap. split; [|eauto]. by intros (j & x & [= -> ->] & ?).
Qed.

Lemma oldest_authorizing_Some now plan q i e :
  oldest_authorizing now plan q = Some (i, e) ->
  q !! i = Some e /\ authorizes now plan e = true /\
  forall e2, e2 ∈ q -> authorizes now plan e2 = true -> pe_created_at e <= pe_created_at e2.
Proof.
  unfold oldest_authorizing.
  destruct (List.filter _ _) as [|x l] eqn:Hf; [done|]. intros [= Hm].
  assert (forall j e2, (j, e2) ∈ x :: l <->
    q !! j = Some e2 /\ authorizes now plan e2 = true) as Hx.
  { intros j e2. rewrite <- Hf, list_elem_of_In, List.filter_In, <- list_elem_of_In.
    by rewrite imap_pair_elem. }
  destruct (min_by_created_spec x l) as (Hin & Hle & Hall). rewrite Hm in Hin, Hle, Hall.
  assert ((i, e) ∈ x :: l) as [Hi Ha]%Hx by set_solver.
  split; [done|]. split; [done|]. intros e2 Hin2 Ha2.
  apply list_elem_of_lookup in Hin2 as [j Hj].
  assert ((j, e2) ∈ x :: l) as [<-|Hl]%elem_of_cons by (by apply Hx); [done|].
  by apply (Hall (j, e2)).
Qed.

Lemma oldest_authorizing_None now plan q :
  oldest_authorizing now plan q = None -> forall e, e ∈ q -> authorizes now plan e = false.
Proof.
  unfold oldest_authorizing.
  destruct (List.filter _ _) as [|x l] eqn:Hf; [|done]. intros _ e Hin.
  apply list_elem_of_lookup in Hin as [i Hi].
  destruct (authorizes now plan e) eqn:Ha; [|done].
  assert ((i, e) ∈ []) as []%elem_of_nil. rewrite <- Hf, list_elem_of_In.
  apply List.filter_In. rewrite <- list_elem_of_In, imap_pair_elem. done.
Qed.

Lemma find_Some_elem {A} (p : A -> bool) (l : list A) x :
  List.find p l = Some x -> x ∈ l /\ p x = true.
Proof. rewrite list_elem_of_In. apply List.find_some. Qed.

Lemma find_None_elem {A} (p : A -> bool) (l : list A) x :
  List.find p l = None -> x ∈ l -> p x = false.
Proof. rewrite list_elem_of_In. intros Hf Hin. by apply (List.find_none p l Hf). Qed.

Lemma mem_consume_eq plan (w : World) (s : list PendingExecution) :
  mem_consume_approved plan (w, s) =
  let w' := tick w in
  match oldest_authorizing (reading w (ticks w)) plan s with
  | Some (i, e) =>
      ((w', <[i := with_status Consumed e]> s), Ok (Some (with_status Consumed e)))
  | None => ((w', s), Ok None)
  end.
Proof.
  unfold mem_consume_approved, on_world, now_epoch_ms, read_clock, reading. sm_unfold.
  simpl. by destruct (oldest_authorizing _ _ _) as [[]|].
Qed.

#[local] Hint Resolve world_le_tick read_during_tick : core.
#[local] Hint Extern 1 (world_le ?w ?w) => reflexivity : core.

#[export] Program Instance mem_store_laws
  : PendingStoreLaws (St := InMemoryPendingExecutionStore) := {
  entries s := s;
  store_ok _ := True;
  plan_storable _ := True;
}.
Next Obligation.
  intros w s w' s' plan exp r [= <- <- <-] _ _. split; [done|]. split.
  - repeat split; simpl; lia.
  - exists (reading w (ticks w)). split; [exists (ticks w); simpl; split; [lia|done]|].
    simpl. split; [lia|done].
Qed.
Next Obligation.
  intros w s w' s' id r [= <- <- <-] _. split; [done|]. split; [done|].
  split; [done|]. destruct (List.find _ s) as [e|] eqn:Hf.
  - apply find_Some_elem in Hf as [Hin Hp]. unfold has_id in Hp.
    rewrite !andb_true_iff, !bool_decide_eq_true in Hp. destruct Hp as [[Hid Hst] Hu].
    split; [done|]. split; [done|]. eexists. split; [done|].
    unfold is_live_pending. rewrite Hst, bool_decide_true; done.
  - eexists. split; [done|]. intros e Hin Hid.
    eapply find_None_elem in Hf; [|done]. unfold has_id in Hf.
    rewrite bool_decide_true in Hf; done.
Qed.
Next Obligation.
  intros w s w' s' id r [= <- <- <-] _. split; [done|]. split; [done|].
  split; [done|]. destruct (List.find _ s) as [e|] eqn:Hf.
  - apply find_Some_elem in Hf as [Hin Hp]. by apply bool_decide_eq_true in Hp.
  - intros e Hin. eapply find_None_elem in Hf; [|done].
    by apply bool_decide_eq_false in Hf.
Qed.
Next Obligation.
  intros w s w' s' id st r Hs _ _. simpl in Hs. unfold mem_update_status, mem_update in Hs.
  simpl in Hs. destruct (update_first _ _ _) as [[e q]|] eqn:Hu; simplify_eq;
    (split; [done|]; split; [done|]).
  - apply update_first_Some in Hu as (i & e0 & ? & Hp & ? & ?).
    apply bool_decide_eq_true in Hp. by exists i, e0.
  - split; [done|]. intros e Hin. eapply update_first_None in Hu; [|done].
    by apply bool_decide_eq_false in Hu.
Qed.
Next Obligation.
  intros w s w' s' id reason r Hs _ _. simpl in Hs.
  unfold mem_record_rejection, mem_update in Hs.
  simpl in Hs. destruct (update_first _ _ _) as [[e q]|] eqn:Hu; simplify_eq;
    (split; [done|]; split; [done|]).
  - apply update_first_Some in Hu as (i & e0 & ? & Hp & ? & ?).
    apply bool_decide_eq_true in Hp. by exists i, e0.
  - split; [done|]. intros e Hin. eapply update_first_None in Hu; [|done].
    by apply bool_decide_eq_false in Hu.
Qed.
Next Obligation.
  intros w s w' s' r [= <- <- <-] _. split; [done|]. split; [done|]. split; [done|].
  eexists. split; done.
Qed.
Next Obligation.
  intros w s w' s' plan r Hs _ _. simpl in Hs. rewrite mem_consume_eq in Hs. simpl in Hs.
  destruct (oldest_authorizing _ plan s) as [[i e]|] eqn:Ho;
    simplify_eq; (split; [done|]; split; [done|]).
  - apply oldest_authorizing_Some in Ho as (Hi & Ha & Hmin).
    eexists. split; [done|]. by exists i, e.
  - split; [done|]. eexists. split; [done|]. by apply oldest_authorizing_None.
Qed.
Next Obligation.
  intros w s w' s' now r [= <- <- <-] _. done.
Qed.

End InMemoryLaws.
