(* ===== verification/ApprovalService.v ===== *)
(** * The approval service (crates/dbflux_approval: service.rs)

    [ApprovalService] over any store that keeps the laws of
    [PendingStoreLaws]: its operations, runs of operations in any order, and
    what holds in every run - an approval is used at most once, only for the
    call it was given for, and a rejected call never runs. *)

From S2P Require Import Prelude RustStr External Classification Approval.

Definition DEFAULT_APPROVAL_TTL_MS : Z := 86400000.
Definition MAX_REJECTION_REASON_CHARS : nat := 500.

(** [normalize_rejection_reason]. *)
Definition normalize_rejection_reason (reason : option string) : option string :=
  match reason with
  | None => None
  | Some r =>
      match trim_bytes (bytes_of r) with
      | [] => None
      | trimmed =>
          Some (of_bytes (trim_end_bytes
                  (take_chars MAX_REJECTION_REASON_CHARS trimmed)))
      end
  end.

Record ApprovalService (St : Type) := mkService {
  as_store : St;
  as_ttl_ms : Z;
}.
Arguments mkService {St} _ _.
Arguments as_store {St} _.
Arguments as_ttl_ms {St} _.

Section Service.
Context `{UuidLib, SerdeJson}.

Inductive ApprovalDecision : Type := Approve | Reject.

Record ApprovedExecution := mkApproved {
  ae_pending : PendingExecution;
  ae_replay_plan : ExecutionPlan;
}.

Record RejectedExecution := mkRejected { re_pending : PendingExecution }.

Inductive ApprovalError : Type :=
| PendingNotFound (id : Uuid)
| InvalidTransition (id : Uuid)
| StoreError (e : PendingStoreError).

Context `{!PendingExecutionStore St}.

Definition service_new (store : St) : ApprovalService St :=
  mkService store DEFAULT_APPROVAL_TTL_MS.
Definition service_with_ttl (store : St) (ttl_ms : Z) : ApprovalService St :=
  mkService store ttl_ms.

Definition SvcM (A : Type) : Type := SM (World * ApprovalService St) ApprovalError A.

Definition on_store {A} (m : SM (World * St) PendingStoreError A) : SvcM A :=
  sm_map_err StoreError
    (sm_zoom (fun s => (s.1, as_store s.2))
             (fun t s => (t.1, mkService t.2 (as_ttl_ms s.2))) m).

Definition set_ttl_ms (ttl_ms : Z) : SvcM unit :=
  sm_modify (fun s => (s.1, mkService (as_store s.2) ttl_ms)).

Definition request_execution (plan : ExecutionPlan) : SvcM PendingExecution :=
  now_ms ← on_store (on_world now_epoch_ms);
  s ← sm_get;
  on_store (create_pending plan (Some (i64_add now_ms (as_ttl_ms (snd s))))).

Definition svc_list_pending : SvcM (list PendingExecution) := on_store list_pending.

Definition svc_get_execution (id : Uuid) : SvcM (option PendingExecution) :=
  on_store (get_execution id).

Definition svc_consume_approved (plan : ExecutionPlan) : SvcM (option PendingExecution) :=
  on_store (consume_approved plan).

Definition svc_purge (now_ms : Z) : SvcM nat :=
  on_store (purge_terminal_and_expired now_ms).

Definition approve (pending_id : Uuid) : SvcM ApprovedExecution :=
  found ← on_store (get_pending pending_id);
  pending ← sm_lift (ok_or found (PendingNotFound pending_id));
  if negb (bool_decide (pe_status pending = Pending)) then
    sm_err (InvalidTransition pending_id)
  else
    let replay_plan := pe_plan pending in
    updated ← on_store (update_status pending_id Approved);
    updated ← sm_lift (ok_or updated (PendingNotFound pending_id));
    mret (mkApproved updated replay_plan).

Definition reject (pending_id : Uuid) (reason : option string) : SvcM RejectedExecution :=
  found ← on_store (get_pending pending_id);
  pending ← sm_lift (ok_or found (PendingNotFound pending_id));
  if negb (bool_decide (pe_status pending = Pending)) then
    sm_err (InvalidTransition pending_id)
  else
    let reason := normalize_rejection_reason reason in
    updated ← on_store (record_rejection pending_id reason);
    updated ← sm_lift (ok_or updated (PendingNotFound pending_id));
    mret (mkRejected updated).

(** ** Runs of operations *)

Inductive ServiceOp : Type :=
| OpRequest (plan : ExecutionPlan)
| OpList
| OpGet (id : Uuid)
| OpConsume (plan : ExecutionPlan)
| OpPurge (now_ms : Z)
| OpApprove (id : Uuid)
| OpReject (id : Uuid) (reason : option string)
| OpSetTtl (ttl_ms : Z).

Inductive Reply : Type :=
| RepRequested (r : result PendingExecution ApprovalError)
| RepListed (r : result (list PendingExecution) ApprovalError)
| RepFound (r : result (option PendingExecution) ApprovalError)
| RepConsumed (r : result (option PendingExecution) ApprovalError)
| RepPurged (r : result nat ApprovalError)
| RepApproved (r : result ApprovedExecution ApprovalError)
| RepRejected (r : result RejectedExecution ApprovalError)
| RepTtl (r : result unit ApprovalError).

Definition reply_with {A} (c : result A ApprovalError -> Reply)
    (x : (World * ApprovalService St) * result A ApprovalError)
  : (World * ApprovalService St) * Reply := (x.1, c x.2).

Definition service_step (op : ServiceOp) (s : World * ApprovalService St)
  : (World * ApprovalService St) * Reply :=
  match op with
  | OpRequest plan => reply_with RepRequested (request_execution plan s)
  | OpList => reply_with RepListed (svc_list_pending s)
  | OpGet id => reply_with RepFound (svc_get_execution id s)
  | OpConsume plan => reply_with RepConsumed (svc_consume_approved plan s)
  | OpPurge now_ms => reply_with RepPurged (svc_purge now_ms s)
  | OpApprove id => reply_with RepApproved (approve id s)
  | OpReject id reason => reply_with RepRejected (reject id reason s)
  | OpSetTtl ttl => reply_with RepTtl (set_ttl_ms ttl s)
  end.

Definition trace : Type := list (ServiceOp * Reply).

Inductive runs (s0 : World * ApprovalService St) : trace -> World * ApprovalService St -> Prop :=
| runs_nil : runs s0 [] s0
| runs_snoc tr s op rep s' :
    runs s0 tr s -> service_step op s = (s', rep) -> runs s0 (tr ++ [(op, rep)]) s'
(** Between two operations the rest of the program uses the clock, identifiers
    and the database. *)
| runs_env tr w svc w' :
    runs s0 tr (w, svc) -> world_le w w' -> runs s0 tr (w', svc).

(** The ids of the approvals that were consumed, in order. *)
Definition consumed_id (x : ServiceOp * Reply) : option Uuid :=
  match x.2 with RepConsumed (Ok (Some e)) => Some (pe_id e) | _ => None end.
Definition consumed_ids (tr : trace) : list Uuid := omap consumed_id tr.

(** The ids of the rejections that were recorded. *)
Definition rejected_id (x : ServiceOp * Reply) : option Uuid :=
  match x.2 with RepRejected (Ok r) => Some (pe_id (re_pending r)) | _ => None end.
Definition rejected_ids (tr : trace) : list Uuid := omap rejected_id tr.

Definition requested (tr : trace) (plan : ExecutionPlan) : Prop :=
  exists rep, (OpRequest plan, rep) ∈ tr.
Definition approve_called (tr : trace) (id : Uuid) : Prop :=
  exists rep, (OpApprove id, rep) ∈ tr.

End Service.

(** ** One operation at a time *)

Section OneStep.
Context `{UuidLib, SerdeJson}.
Context `{!PendingExecutionStore St, !PendingStoreLaws}.

Implicit Types svc : ApprovalService St.

Definition queue (s : World * ApprovalService St) : list PendingExecution :=
  entries (as_store s.2).

Lemma on_store_inv {A} (m : SM (World * St) PendingStoreError A) w svc s' r :
  on_store m (w, svc) = (s', r) ->
  exists w' st' r0, m (w, as_store svc) = ((w', st'), r0) /\
    s' = (w', mkService st' (as_ttl_ms svc)) /\ r = map_err StoreError r0.
Proof.
  unfold on_store. intros (r0 & Hm & ->)%sm_map_err_inv.
  apply sm_zoom_inv in Hm as ([w' st'] & Hm & ->). simpl in Hm. eauto 10.
Qed.

Lemma on_store_now w svc s' r :
  on_store (on_world now_epoch_ms) (w, svc) = (s', r) ->
  s' = (tick w, svc)
  /\ r = Ok (reading w (ticks w)).
Proof. destruct svc. by intros [= <- <-]. Qed.

Lemma replaced_ids p f q q' e' :
  (forall e, pe_id (f e) = pe_id e) -> replaced p f q q' e' ->
  pe_id <$> q' = pe_id <$> q.
Proof.
  intros Hf (i & e & Hi & _ & -> & ->). rewrite list_fmap_insert, Hf.
  apply list_insert_id. by rewrite list_lookup_fmap, Hi.
Qed.

Lemma replaced_elem p f q q' e' e :
  replaced p f q q' e' -> e ∈ q' -> e = e' \/ e ∈ q.
Proof. intros (i & e0 & _ & _ & _ & ->). apply insert_elem. Qed.

(** With distinct ids, an entry is determined by its id. *)
Lemma ids_distinct_eq q e1 e2 :
  ids_distinct q -> e1 ∈ q -> e2 ∈ q -> pe_id e1 = pe_id e2 -> e1 = e2.
Proof.
  intros Hd [i Hi]%list_elem_of_lookup [j Hj]%list_elem_of_lookup He.
  assert (i = j) as ->.
  { eapply (NoDup_lookup (pe_id <$> q) i j (pe_id e1)); [done|..];
      rewrite list_lookup_fmap; [by rewrite Hi|by rewrite Hj, He]. }
  naive_solver.
Qed.

(** Only the replaced entry changes: the others are the old ones, with other ids. *)
Lemma replaced_elem_id p f q q' e' e :
  (forall e, pe_id (f e) = pe_id e) -> ids_distinct q -> replaced p f q q' e' ->
  e ∈ q' -> e = e' \/ e ∈ q /\ pe_id e <> pe_id e'.
Proof.
  intros Hf Hd Hr Hin.
  assert (e' ∈ q') as Hin'.
  { destruct Hr as (i & e0 & Hi & _ & -> & ->). apply list_elem_of_lookup. exists i.
    apply list_lookup_insert_eq. by eapply lookup_lt_Some. }
  destruct (decide (pe_id e = pe_id e')) as [Heq|Hne]; [left|right].
  - eapply (ids_distinct_eq q'); [|done..].
    unfold ids_distinct. by erewrite replaced_ids.
  - split; [|done]. by destruct (replaced_elem _ _ _ _ _ _ Hr Hin) as [->|].
Qed.

(** [approve] and [reject] have the same shape: look the entry up, check that it
    is pending, replace it. *)
Definition resolve {A} (id : Uuid) (upd : SM (World * St) PendingStoreError (option PendingExecution))
    (k : PendingExecution -> PendingExecution -> A) : SvcM A :=
  found ← on_store (get_pending id);
  pending ← sm_lift (ok_or found (PendingNotFound id));
  if negb (bool_decide (pe_status pending = Pending)) then sm_err (InvalidTransition id)
  else
    updated ← on_store upd;
    updated ← sm_lift (ok_or updated (PendingNotFound id));
    mret (k pending updated).

(** [upd] replaces the entry with id [id] by [f] of it. *)
Definition updates (id : Uuid) (f : PendingExecution -> PendingExecution)
    (upd : SM (World * St) PendingStoreError (option PendingExecution)) : Prop :=
  forall w s w' s' r, upd (w, s) = ((w', s'), r) -> store_ok s ->
    ids_distinct (entries s) -> store_ok s' /\ world_le w w' /\
    let rep := replaced (fun e => pe_id e = id) f (entries s) (entries s') in
    match r with
    | Ok (Some e') => rep e'
    | Ok None => entries s' = entries s /\ forall e, e ∈ entries s -> pe_id e <> id
    | Err _ => entries s' = entries s \/ exists e', rep e'
    end.

(** A live pending entry with id [id] was replaced by [f] of it during the call. *)
Definition resolved_to (id : Uuid) (f : PendingExecution -> PendingExecution)
    (w w' : World) (q q' : list PendingExecution) (e0 e' : PendingExecution) : Prop :=
  e0 ∈ q /\ e' = f e0 /\ exists now, read_during w w' now /\
    replaced (fun e => pe_id e = id /\ is_live_pending now e = true) f q q' e'.

Definition resolve_post {A} (id : Uuid) (f : PendingExecution -> PendingExecution)
    (k : PendingExecution -> PendingExecution -> A)
    (w w' : World) (q q' : list PendingExecution) (r : result A ApprovalError) : Prop :=
  match r with
  | Ok a => exists e0 e', a = k e0 e' /\ resolved_to id f w w' q q' e0 e'
  | Err (PendingNotFound id') => id' = id /\ q' = q /\
      exists now, read_during w w' now /\
        forall e, e ∈ q -> pe_id e = id -> is_live_pending now e = false
  | Err (InvalidTransition _) => False
  | Err (StoreError _) => q' = q \/ exists e0 e', resolved_to id f w w' q q' e0 e'
  end.

Lemma replaced_resolved id f w w1 w2 q q2 e0 e' now :
  ids_distinct q -> e0 ∈ q -> pe_id e0 = id -> is_live_pending now e0 = true ->
  read_during w w1 now -> world_le w1 w2 ->
  replaced (fun e => pe_id e = id) f q q2 e' -> resolved_to id f w w2 q q2 e0 e'.
Proof.
  intros Hd Hin Hid Hlive (n & Hn & ->) Hw2 (i & e1 & Hi & Hid1 & -> & ->).
  assert (e1 = e0) as ->.
  { eapply ids_distinct_eq; [done| |done|congruence]. apply list_elem_of_lookup. eauto. }
  split; [done|]. split; [done|]. exists (reading w n). split.
  - exists n. split; [|done]. destruct Hw2 as (_ & _ & _ & ? & _). lia.
  - by exists i, e0.
Qed.

Lemma resolve_spec {A} id upd f (k : _ -> _ -> A) w svc w' svc' r :
  resolve id upd k (w, svc) = ((w', svc'), r) -> updates id f upd ->
  store_ok (as_store svc) -> ids_distinct (queue (w, svc)) ->
  store_ok (as_store svc') /\ world_le w w' /\ as_ttl_ms svc' = as_ttl_ms svc /\
  resolve_post id f k w w' (queue (w, svc)) (queue (w', svc')) r.
Proof.
  unfold resolve, queue. intros Hrun Hupd Hok Hd. simpl in *.
  sm_inv Hrun as found s1 Hg e ->.
  2:{ apply on_store_inv in Hg as (w1 & st1 & r0 & Hg & [= -> ->] & Hr).
      destruct r0; simplify_eq/=.
      apply law_get_pending in Hg as (? & ? & ? & _); [|done]. simpl. auto. }
  apply on_store_inv in Hg as (w1 & st1 & r0 & Hg & -> & Hr).
  destruct r0 as [o|]; simplify_eq/=.
  apply law_get_pending in Hg as (Hok1 & Hw1 & Hq1 & Ho); [|done].
  destruct o as [e0|]; simpl in Hrun.
  2:{ rewrite sm_lift_Err_bind in Hrun. simplify_eq. simpl. rewrite Hq1. by split_and!. }
  destruct Ho as (Hin & Hid & now & Hnow & Hlive).
  assert (pe_status e0 = Pending) as Hst.
  { unfold is_live_pending in Hlive. apply andb_true_iff in Hlive as [Hs _].
    by apply bool_decide_eq_true in Hs. }
  rewrite sm_lift_Ok_bind, bool_decide_true in Hrun by done. simpl in Hrun.
  rewrite <- Hq1 in Hd. pose proof (fun w2 q2 e' => replaced_resolved id f w w1 w2
    (entries st1) q2 e0 e' now Hd) as Hprom. rewrite Hq1 in Hprom.
  sm_inv Hrun as upd_r s2 Hu e Hr.
  - apply on_store_inv in Hu as (w2 & st2 & r0 & Hu & -> & Hr).
    destruct r0 as [o|]; simplify_eq/=.
    destruct (Hupd _ _ _ _ _ Hu Hok1 Hd) as (Hok2 & Hw2 & Hrep). clear Hu. rename Hrep into Hu. rewrite Hq1 in Hu.
    destruct o as [e'|]; simpl in Hrun.
    + rewrite sm_lift_Ok_bind in Hrun. revert Hrun. intros [= <- <- <-].
      split; [done|]. split; [by trans w1|]. split; [done|].
      exists e0, e'. auto.
    + destruct Hu as [_ Hno]. by destruct (Hno e0 Hin).
  - apply on_store_inv in Hu as (w2 & st2 & r0 & Hu & [= -> ->] & Hr').
    destruct r0; simplify_eq/=.
    destruct (Hupd _ _ _ _ _ Hu Hok1 Hd) as (Hok2 & Hw2 & Hrep). clear Hu. rename Hrep into Hu. rewrite Hq1 in Hu.
    split; [done|]. split; [by trans w1|]. split; [done|]. simpl.
    destruct Hu as [Hu|[e' Hu]]; [by left|right; eauto].
Qed.

Lemma approve_resolve id :
  approve id = resolve id (update_status id Approved)
                 (fun pending updated => mkApproved updated (pe_plan pending)).
Proof. reflexivity. Qed.

Lemma reject_resolve id reason :
  reject id reason =
  resolve id (record_rejection id (normalize_rejection_reason reason))
    (fun _ updated => mkRejected updated).
Proof. reflexivity. Qed.

Lemma update_status_updates id st : updates id (with_status st) (update_status id st).
Proof. intros w s w' s' r. apply law_update_status. Qed.

Lemma record_rejection_updates id reason :
  updates id (with_rejection reason) (record_rejection id reason).
Proof. intros w s w' s' r. apply law_record_rejection. Qed.

End OneStep.

(** ** Every run *)

Section Runs.
Context `{UuidLib, SerdeJson}.
Context `{!PendingExecutionStore St, !PendingStoreLaws}.

Implicit Types s : World * ApprovalService St.

(** How one operation can change the queue. *)
Inductive qchange (op : ServiceOp) (rep : Reply) (w w' : World)
    (q q' : list PendingExecution) : Prop :=
| ch_keep :
    q' `sublist_of` q -> consumed_id (op, rep) = None -> rejected_id (op, rep) = None ->
    qchange op rep w w' q q'
| ch_new plan now exp :
    op = OpRequest plan -> (issued w < issued w')%nat ->
    q' = q ++ [fresh_pending (uuids w (issued w)) plan now exp] ->
    consumed_id (op, rep) = None -> rejected_id (op, rep) = None ->
    qchange op rep w w' q q'
| ch_approve id e' :
    op = OpApprove id ->
    replaced (fun e => pe_id e = id /\ pe_status e = Pending) (with_status Approved)
      q q' e' ->
    consumed_id (op, rep) = None -> rejected_id (op, rep) = None ->
    qchange op rep w w' q q'
| ch_reject id reason reason' e' :
    op = OpReject id reason ->
    replaced (fun e => pe_id e = id /\ pe_status e = Pending) (with_rejection reason')
      q q' e' ->
    consumed_id (op, rep) = None ->
    (forall i, rejected_id (op, rep) = Some i -> i = id) ->
    qchange op rep w w' q q'
| ch_consume plan now e' :
    op = OpConsume plan -> rep = RepConsumed (Ok (Some e')) ->
    replaced (fun e => authorizes now plan e = true) (with_status Consumed) q q' e' ->
    qchange op rep w w' q q'.

Lemma live_pending_status now e : is_live_pending now e = true -> pe_status e = Pending.
Proof. unfold is_live_pending. rewrite andb_true_iff, bool_decide_eq_true. tauto. Qed.

Lemma replaced_impl (p1 p2 : PendingExecution -> Prop) f q q' e' :
  (forall e, p1 e -> p2 e) -> replaced p1 f q q' e' -> replaced p2 f q q' e'.
Proof. intros Himp (i & e & ? & ? & ? & ?). exists i, e. auto. Qed.

(** A request is for a plan the store gives back unchanged. *)
Definition op_storable (op : ServiceOp) : Prop :=
  match op with OpRequest plan => plan_storable plan | _ => True end.

(** What one operation guarantees. *)
Definition step_ok (op : ServiceOp) (rep : Reply) s s' : Prop :=
  store_ok (as_store s'.2) /\ world_le s.1 s'.1 /\
  qchange op rep s.1 s'.1 (queue s) (queue s').

Definition step_safe (op : ServiceOp) : Prop :=
  forall s s' rep, service_step op s = (s', rep) -> op_storable op ->
    store_ok (as_store s.2) -> ids_distinct (queue s) -> step_ok op rep s s'.

(** Open the run of a service call that is one call of the store. *)
Ltac open_store_call r0 Hc :=
  intros [w svc] [w' svc'] rep Hs Hst Hok Hd; unfold service_step, reply_with in Hs;
  match type of Hs with
  | (?x.1, _) = _ => destruct x as [s1 r] eqn:Hc
  end; simplify_eq/=;
  apply on_store_inv in Hc as (w2 & st2 & r0 & Hc & [= -> ->] & ->).

Lemma list_safe : step_safe OpList.
Proof.
  open_store_call r0 Hc.
  apply law_list_pending in Hc as (? & ? & Hq & _); [|done]. split_and!; [done..|].
  apply ch_keep; [|done..]. unfold queue. simpl. by rewrite Hq.
Qed.

Lemma get_safe id : step_safe (OpGet id).
Proof.
  open_store_call r0 Hc.
  apply law_get_execution in Hc as (? & ? & Hq & _); [|done]. split_and!; [done..|].
  apply ch_keep; [|done..]. unfold queue. simpl. by rewrite Hq.
Qed.

Lemma consume_safe plan : step_safe (OpConsume plan).
Proof.
  open_store_call r0 Hc.
  apply law_consume in Hc as (? & ? & Hq); [|done|done]. split_and!; [done..|].
  destruct r0 as [[e'|]|]; simpl.
  - destruct Hq as (now & _ & Hrep). eapply (ch_consume _ _ _ _ _ _ plan now); [done..|].
    eapply replaced_impl; [|exact Hrep]. by intros e [? _].
  - apply ch_keep; [|done..]. destruct Hq as [Hq _]. unfold queue. simpl. by rewrite Hq.
  - apply ch_keep; [|done..]. unfold queue. simpl. by rewrite Hq.
Qed.

Lemma purge_safe now_ms : step_safe (OpPurge now_ms).
Proof.
  open_store_call r0 Hc.
  apply law_purge in Hc as (? & ? & Hq); [|done]. split_and!; [done..|].
  apply ch_keep; [|done..]. unfold queue. simpl.
  destruct r0; [destruct Hq as [-> _]; auto with dbflux|by rewrite Hq].
Qed.

Lemma request_safe plan : step_safe (OpRequest plan).
Proof.
  intros [w svc] [w' svc'] rep Hs Hst Hok Hd. unfold service_step, reply_with in Hs.
  destruct (request_execution plan (w, svc)) as [s1 r] eqn:Hr. simplify_eq/=.
  unfold request_execution in Hr. sm_inv Hr as now s1 Hn e ->.
  2:{ by apply on_store_now in Hn as [_ ?]. }
  apply on_store_now in Hn as [-> [= ->]].
  sm_inv Hr as s2 s3 Hg e ->; [|done]. revert Hg. intros [= <- <-].
  apply on_store_inv in Hr as (w2 & st2 & r0 & Hc & [= -> ->] & ->).
  apply law_create in Hc as (? & Hw & Hc); [|done|done]. split_and!; [done| |].
  { etrans; [|exact Hw]. repeat split; simpl; lia. }
  destruct r0 as [e|e]; simpl.
  - destruct Hc as (now & _ & Hi & -> & Hq). by eapply ch_new.
  - apply ch_keep; [|done..]. unfold queue. simpl. by rewrite Hc.
Qed.

Lemma approve_safe id : step_safe (OpApprove id).
Proof.
  intros [w svc] [w' svc'] rep Hs Hst Hok Hd. unfold service_step, reply_with in Hs.
  destruct (approve id (w, svc)) as [s1 r] eqn:Hr. simplify_eq/=.
  rewrite approve_resolve in Hr.
  apply (resolve_spec _ _ (with_status Approved)) in Hr as (? & ? & ? & Hp);
    [|apply update_status_updates|done|done]. split_and!; [done..|].
  assert (forall e0 e', resolved_to id (with_status Approved) w w' (queue (w, svc))
    (queue (w', svc')) e0 e' -> qchange (OpApprove id) (RepApproved r) w w'
    (queue (w, svc)) (queue (w', svc'))) as Hch.
  { intros e0 e' (_ & _ & now & _ & Hrep). eapply ch_approve; [done| |done|done].
    eapply replaced_impl; [|exact Hrep]. intros e [? ?%live_pending_status]. done. }
  destruct r as [a|[id'|id'|e]]; simpl in Hp.
  - destruct Hp as (e0 & e' & -> & Hres). by eapply Hch.
  - apply ch_keep; [|done..]. destruct Hp as (_ & -> & _). done.
  - done.
  - destruct Hp as [Hq|(e0 & e' & Hres)]; [|by eapply Hch].
    apply ch_keep; [by rewrite Hq|done..].
Qed.

Lemma reject_safe id reason : step_safe (OpReject id reason).
Proof.
  intros [w svc] [w' svc'] rep Hs Hst Hok Hd. unfold service_step, reply_with in Hs.
  destruct (reject id reason (w, svc)) as [s1 r] eqn:Hr. simplify_eq/=.
  rewrite reject_resolve in Hr.
  apply (resolve_spec _ _ (with_rejection (normalize_rejection_reason reason)))
    in Hr as (? & ? & ? & Hp); [|apply record_rejection_updates|done|done].
  split_and!; [done..|].
  destruct r as [a|[id'|id'|e]]; simpl in Hp.
  - destruct Hp as (e0 & e' & -> & (_ & He' & now & _ & Hrep)).
    eapply ch_reject; [done| |done|].
    + eapply replaced_impl; [|exact Hrep]. intros e [? ?%live_pending_status]. done.
    + intros i [= <-]. by destruct Hrep as (? & e1 & _ & [<- _] & -> & _).
  - apply ch_keep; [|done..]. destruct Hp as (_ & -> & _). done.
  - done.
  - destruct Hp as [Hq|(e0 & e' & (_ & He' & now & _ & Hrep))].
    { apply ch_keep; [by rewrite Hq|done..]. }
    eapply ch_reject; [done| |done|done].
    eapply replaced_impl; [|exact Hrep]. intros e1 [? ?%live_pending_status]. done.
Qed.

Lemma set_ttl_safe ttl : step_safe (OpSetTtl ttl).
Proof.
  intros [w svc] [w' svc'] rep [= <- <- <-] _ Hok Hd.
  split_and!; [done|reflexivity|]. by apply ch_keep.
Qed.

Lemma service_step_safe op : step_safe op.
Proof.
  destruct op; eauto using request_safe, list_safe, get_safe, consume_safe, purge_safe,
    approve_safe, reject_safe, set_ttl_safe.
Qed.

(** ** The invariant of runs *)

Definition id_issued (w : World) (id : Uuid) : Prop :=
  exists k, (k < issued w)%nat /\ id = uuids w k.

Record run_inv (tr : trace) s : Prop := mkRunInv {
  inv_ok : store_ok (as_store s.2);
  inv_fresh : uuids_fresh s.1;
  inv_ids : ids_distinct (queue s);
  inv_issued : forall e, e ∈ queue s -> id_issued s.1 (pe_id e);
  inv_requested : forall e, e ∈ queue s -> requested tr (pe_plan e);
  inv_approved : forall e, e ∈ queue s -> pe_status e = Approved \/ pe_status e = Consumed ->
    approve_called tr (pe_id e);
  inv_once : NoDup (consumed_ids tr);
  inv_consumed : forall id, id ∈ consumed_ids tr -> id_issued s.1 id /\
    forall e, e ∈ queue s -> pe_id e = id -> pe_status e = Consumed;
  inv_rejected : forall id, id ∈ rejected_ids tr -> id_issued s.1 id /\
    (id ∉ consumed_ids tr) /\
    forall e, e ∈ queue s -> pe_id e = id -> pe_status e = Rejected;
}.

(** *** Growing the trace *)

Lemma consumed_ids_snoc (tr : trace) x :
  consumed_ids (tr ++ [x]) = consumed_ids tr ++ option_list (consumed_id x).
Proof. unfold consumed_ids. rewrite omap_app. simpl. by destruct (consumed_id x). Qed.

Lemma rejected_ids_snoc (tr : trace) x :
  rejected_ids (tr ++ [x]) = rejected_ids tr ++ option_list (rejected_id x).
Proof. unfold rejected_ids. rewrite omap_app. simpl. by destruct (rejected_id x). Qed.

Lemma requested_app tr tr' plan : requested tr plan -> requested (tr ++ tr') plan.
Proof. intros [rep Hin]. exists rep. apply elem_of_app. by left. Qed.

Lemma approve_called_app tr tr' id : approve_called tr id -> approve_called (tr ++ tr') id.
Proof. intros [rep Hin]. exists rep. apply elem_of_app. by left. Qed.

Lemma id_issued_mono w w' id : world_le w w' -> id_issued w id -> id_issued w' id.
Proof.
  intros (_ & Hu & _ & _ & Hi & _) (k & Hk & ->). exists k. split; [lia|]. by rewrite Hu.
Qed.

Lemma uuids_fresh_mono w w' : world_le w w' -> uuids_fresh w -> uuids_fresh w'.
Proof. intros (_ & Hu & _) Hf i j. rewrite Hu. apply Hf. Qed.

#[local] Hint Resolve requested_app approve_called_app id_issued_mono uuids_fresh_mono
  : core.

(** *** Preservation, one kind of change at a time *)

Lemma run_inv_keep tr s s' x :
  run_inv tr s -> store_ok (as_store s'.2) -> world_le s.1 s'.1 ->
  queue s' `sublist_of` queue s -> consumed_id x = None -> rejected_id x = None ->
  run_inv (tr ++ [x]) s'.
Proof.
  intros [] Hok Hw Hsub Hc Hr.
  assert (forall e, e ∈ queue s' -> e ∈ queue s) as Hin.
  { intros e He. by eapply elem_of_sublist. }
  constructor; rewrite ?consumed_ids_snoc, ?rejected_ids_snoc, ?Hc, ?Hr, ?app_nil_r;
    simpl; rewrite ?app_nil_r; eauto.
  - eapply sublist_NoDup; [exact inv_ids0|]. by apply fmap_sublist.
  - intros id [? ?]%inv_consumed0. eauto.
  - intros id (? & ? & ?)%inv_rejected0. split_and!; eauto.
Qed.

Lemma run_inv_new tr s s' x plan now exp :
  run_inv tr s -> store_ok (as_store s'.2) -> world_le s.1 s'.1 ->
  (issued s.1 < issued s'.1)%nat ->
  queue s' = queue s ++ [fresh_pending (uuids s.1 (issued s.1)) plan now exp] ->
  x.1 = OpRequest plan -> consumed_id x = None -> rejected_id x = None ->
  run_inv (tr ++ [x]) s'.
Proof.
  intros [] Hok Hw Hi Hq Hx Hc Hr.
  assert (id_issued s'.1 (uuids s.1 (issued s.1))) as Hnew.
  { exists (issued s.1). split; [done|]. by destruct Hw as (_ & -> & _). }
  assert (~ id_issued s.1 (uuids s.1 (issued s.1))) as Hold.
  { intros (k & Hk & Heq%inv_fresh0). lia. }
  constructor; rewrite ?consumed_ids_snoc, ?rejected_ids_snoc, ?Hc, ?Hr;
    simpl; rewrite ?app_nil_r, ?Hq; eauto.
  - unfold ids_distinct. rewrite fmap_app. apply NoDup_app. split_and!; [done| |].
    + intros id (e & -> & He)%list_elem_of_fmap Heq%list_elem_of_singleton.
      apply Hold. simpl in Heq. rewrite <- Heq. eauto.
    + apply NoDup_singleton.
  - intros e [He| ->]%elem_of_snoc; [eauto|done].
  - intros e [He| ->]%elem_of_snoc; [eauto|].
    exists x.2. apply elem_of_snoc. right. simpl. rewrite <- Hx. by destruct x.
  - intros e [He| ->]%elem_of_snoc; [eauto|].
    intros [?|?]; done.
  - intros id [Hid Hst]%inv_consumed0. split; [eauto|].
    intros e [He| ->]%elem_of_snoc Heq; [eauto|].
    destruct Hold. simpl in Heq. by subst id.
  - intros id (Hid & ? & Hst)%inv_rejected0. split_and!; [eauto|done|].
    intros e [He| ->]%elem_of_snoc Heq; [eauto|].
    destruct Hold. simpl in Heq. by subst id.
Qed.

(** What a replacement must say about the entry before and after. *)
Definition legal_move (tr : trace) (x : ServiceOp * Reply) (e0 e' : PendingExecution) : Prop :=
  pe_id e' = pe_id e0 /\ pe_plan e' = pe_plan e0 /\
  (pe_status e0 = Pending \/ pe_status e0 = Approved) /\
  (pe_status e' = Approved \/ pe_status e' = Consumed ->
     approve_called (tr ++ [x]) (pe_id e')) /\
  (forall id, consumed_id x = Some id -> id = pe_id e' /\ pe_status e' = Consumed) /\
  (forall id, rejected_id x = Some id -> id = pe_id e' /\ pe_status e' = Rejected).

Lemma run_inv_replaced tr s s' x f e' :
  run_inv tr s -> store_ok (as_store s'.2) -> world_le s.1 s'.1 ->
  (forall e, pe_id (f e) = pe_id e) ->
  replaced (fun e0 => legal_move tr x e0 (f e0)) f (queue s) (queue s') e' ->
  run_inv (tr ++ [x]) s'.
Proof.
  intros Hinv Hok Hw Hf Hrep. pose proof Hinv as [].
  pose proof (fun e => replaced_elem_id _ _ _ _ _ e Hf inv_ids0 Hrep) as Hel.
  pose proof (replaced_ids _ _ _ _ _ Hf Hrep) as Hids.
  destruct Hrep as (i & e0 & Hi & (Hid & Hpl & Hst & Hap & Hco & Hre) & -> & Hq').
  assert (e0 ∈ queue s) as Hin0 by (apply list_elem_of_lookup; eauto).
  assert (pe_id e0 ∉ consumed_ids tr) as Hnc.
  { intros [_ Hc]%inv_consumed0. specialize (Hc e0 Hin0 eq_refl).
    destruct Hst; congruence. }
  assert (pe_id e0 ∉ rejected_ids tr) as Hnr.
  { intros (_ & _ & Hc)%inv_rejected0. specialize (Hc e0 Hin0 eq_refl).
    destruct Hst; congruence. }
  rewrite Hid in Hel, Hco, Hre, Hap.
  constructor; rewrite ?consumed_ids_snoc, ?rejected_ids_snoc; eauto.
  - unfold ids_distinct. by rewrite Hids.
  - intros e [->|[He _]]%Hel; [rewrite Hid|]; eauto.
  - intros e [->|[He _]]%Hel; [rewrite Hpl|]; eauto.
  - intros e [->|[He _]]%Hel; [rewrite Hid; auto|eauto].
  - destruct (consumed_id x) as [id|]; simpl; [|by rewrite app_nil_r].
    apply NoDup_app. split_and!; [done| |apply NoDup_singleton].
    intros id' Hid' Hx%list_elem_of_singleton. subst id'.
    destruct (Hco id eq_refl) as [-> _]. done.
  - intros id [Hin|Hin]%elem_of_app.
    + destruct (inv_consumed0 id Hin) as [? Hall]. split; [eauto|].
      intros e [->|[He _]]%Hel Heq; [|eauto]. rewrite Hid in Heq. by subst.
    + destruct (consumed_id x) as [id'|] eqn:Hx; simpl in Hin; [|by apply elem_of_nil in Hin].
      apply list_elem_of_singleton in Hin as ->. destruct (Hco id' eq_refl) as [-> ?].
      split; [eauto|]. intros e [->|[He Hne]]%Hel Heq; [done|congruence].
  - intros id [Hin|Hin]%elem_of_app.
    + destruct (inv_rejected0 id Hin) as (? & Hnin & Hall). split_and!; [eauto| |].
      * intros [?|Hc]%elem_of_app; [done|].
        destruct (consumed_id x) as [id'|] eqn:Hx; simpl in Hc; [|by apply elem_of_nil in Hc].
        apply list_elem_of_singleton in Hc as ->. destruct (Hco id' eq_refl) as [-> _]. done.
      * intros e [->|[He _]]%Hel Heq; [|eauto]. rewrite Hid in Heq. by subst.
    + destruct (rejected_id x) as [id'|] eqn:Hx; simpl in Hin; [|by apply elem_of_nil in Hin].
      apply list_elem_of_singleton in Hin as ->. destruct (Hre id' eq_refl) as [-> Hrej].
      split_and!; [eauto| |].
      * intros [?|Hc]%elem_of_app; [done|].
        destruct (consumed_id x) as [id'|] eqn:Hy; simpl in Hc; [|by apply elem_of_nil in Hc].
        destruct (Hco id' eq_refl) as [_ Hcons]. congruence.
      * intros e [->|[He Hne]]%Hel Heq; [done|congruence].
Qed.

Lemma run_inv_step tr s op rep s' :
  run_inv tr s -> service_step op s = (s', rep) -> op_storable op ->
  run_inv (tr ++ [(op, rep)]) s'.
Proof.
  intros Hinv Hs Hop0. pose proof (inv_ok _ _ Hinv) as Hok. pose proof (inv_ids _ _ Hinv) as Hd.
  destruct (service_step_safe op s s' rep Hs Hop0 Hok Hd) as (Hok' & Hw & Hch).
  assert (forall id, op = OpApprove id -> approve_called (tr ++ [(op, rep)]) id) as Hcall.
  { intros id ->. exists rep. apply elem_of_app. right. by left. }
  destruct Hch as [?|plan now exp Hop ??|id e' Hop Hrep Hc Hr
    |id reason reason' e' Hop Hrep Hc Hr|plan now e' Hop Hre Hrep].
  - by eapply run_inv_keep.
  - by eapply run_inv_new.
  - apply (run_inv_replaced tr s s' _ (with_status Approved) e'); [done..|].
    eapply replaced_impl; [|exact Hrep]. intros e [He Hst]. split_and!; auto.
    + intros _. simpl. rewrite He. by apply Hcall.
    + intros id' Hid'. rewrite Hc in Hid'. done.
    + intros id' Hid'. rewrite Hr in Hid'. done.
  - apply (run_inv_replaced tr s s' _ (with_rejection reason') e'); [done..|].
    eapply replaced_impl; [|exact Hrep]. intros e [He Hst]. split_and!; auto.
    + by intros [?|?].
    + intros id' Hid'. rewrite Hc in Hid'. done.
    + intros id' Hid'%Hr. split; [by rewrite Hid', <- He|done].
  - apply (run_inv_replaced tr s s' _ (with_status Consumed) e'); [done..|].
    assert (forall e, e ∈ queue s -> authorizes now plan e = true -> pe_status e = Approved)
      as Hap.
    { intros e _ Ha. unfold authorizes in Ha.
      rewrite !andb_true_iff, bool_decide_eq_true in Ha. tauto. }
    destruct Hrep as (i & e & Hi & Ha & -> & Hq). exists i, e.
    assert (e ∈ queue s) as Hin by (apply list_elem_of_lookup; eauto).
    split_and!; [done| |done|done]. split_and!; auto.
    + intros _. simpl. apply approve_called_app, (inv_approved _ _ Hinv); auto.
    + intros id' Hid'. rewrite Hre in Hid'. by injection Hid' as <-.
    + intros id' Hid'. rewrite Hre in Hid'. done.
Qed.

Lemma run_inv_env tr w w' svc : run_inv tr (w, svc) -> world_le w w' -> run_inv tr (w', svc).
Proof.
  intros [] Hw. constructor; simpl in *; try done.
  - by eapply uuids_fresh_mono.
  - intros e He. eapply id_issued_mono; eauto.
  - intros id Hid. edestruct inv_consumed0; [done|]. split; [by eapply id_issued_mono|done].
  - intros id Hid. edestruct inv_rejected0; [done|]. split; [by eapply id_issued_mono|done].
Qed.

Definition fresh_start s : Prop :=
  store_ok (as_store s.2) /\ uuids_fresh s.1 /\ queue s = [].

(** Every request of the run is for a plan the store gives back unchanged. *)
Definition storable_trace (tr : trace) : Prop := Forall (fun x => op_storable x.1) tr.

Lemma runs_inv s0 tr s :
  fresh_start s0 -> runs s0 tr s -> storable_trace tr -> run_inv tr s.
Proof.
  intros (Hok & Hf & Hq). induction 1 as [|tr s op rep s' _ IH Hs|tr w svc w' _ IH Hw]; intros Hst.
  - constructor; rewrite ?Hq; unfold ids_distinct; simpl;
      try done; try apply NoDup_nil_2; set_solver.
  - apply Forall_app in Hst as [Hst [Hop _]%Forall_cons].
    by eapply run_inv_step; [apply IH| |].
  - eapply run_inv_env; [by apply IH|done].
Qed.

End Runs.
