(* ===== verification/ApprovalProps.v ===== *)
(** * What the approval queue guarantees

    The theorems on [ApprovalService]: what every run of operations satisfies,
    what each decision does on every branch, the normal form of rejection
    reasons, and that a request that is approved in time can be used. *)

From S2P Require Import Prelude RustStr External Concrete Classification Approval ApprovalService.

(** ** Rejection reasons *)

(** A prefix of a text that does not start with white space does not either. *)
Lemma prefix_start_stuck l p q :
  l = p ++ q -> strip_any ws_encodings l = None -> strip_any ws_encodings p = None.
Proof.
  intros -> Hs. destruct (strip_any ws_encodings p) eqn:E; [|done].
  assert (is_Some (strip_any ws_encodings (p ++ q))) as [? Hc] by
    (apply strip_any_mono; eauto). congruence.
Qed.

Lemma take_chars_nonempty n l :
  l <> [] -> (0 < n)%nat -> take_chars n l <> [].
Proof. destruct l as [|b l]; [done|]. simpl. destruct (is_continuation b); [done|].
  destruct n; [lia|done]. Qed.

(** The text that is kept: not white space at either end, not empty, not long. *)
Lemma normalize_spec reason s :
  normalize_rejection_reason reason = Some s ->
  bytes_of s <> [] /\ strip_any ws_encodings (bytes_of s) = None /\
  trim_end_bytes (bytes_of s) = bytes_of s /\
  (char_count (bytes_of s) <= MAX_REJECTION_REASON_CHARS)%nat.
Proof.
  destruct reason as [r|]; [|done]. unfold normalize_rejection_reason.
  pose proof (trim_bytes_start_stuck (bytes_of r)) as Hs.
  destruct (trim_bytes (bytes_of r)) as [|b l] eqn:Ht; [done|].
  set (t := take_chars MAX_REJECTION_REASON_CHARS (b :: l)). intros Heq. apply (inj Some) in Heq as <-.
  rewrite bytes_of_bytes.
  destruct (take_chars_prefix MAX_REJECTION_REASON_CHARS (b :: l)) as [q Hq].
  assert (strip_any ws_encodings t = None) as Hst by (by eapply prefix_start_stuck).
  assert (t <> []) as Hne.
  { apply take_chars_nonempty; [done|]. unfold MAX_REJECTION_REASON_CHARS. lia. }
  destruct (trim_end_prefix t) as [q' Hq']. split_and!.
  - intros Hn. apply (trim_end_nil t Hne) in Hn as [x Hx]. by rewrite Hst in Hx.
  - by eapply prefix_start_stuck.
  - apply trim_end_idemp.
  - pose proof (take_chars_count MAX_REJECTION_REASON_CHARS (b :: l)) as Hc.
    fold t in Hc. apply (f_equal char_count) in Hq'.
    rewrite char_count_app in Hq'. lia.
Qed.

Lemma normalize_fixed s :
  bytes_of s <> [] -> strip_any ws_encodings (bytes_of s) = None ->
  trim_end_bytes (bytes_of s) = bytes_of s ->
  (char_count (bytes_of s) <= MAX_REJECTION_REASON_CHARS)%nat ->
  normalize_rejection_reason (Some s) = Some s.
Proof.
  intros Hne Hs Hte Hc. unfold normalize_rejection_reason, trim_bytes.
  rewrite trim_start_stuck_id, Hte by done.
  destruct (bytes_of s) as [|b l] eqn:Hb; [done|].
  by rewrite take_chars_all, Hte, <- Hb, of_bytes_of by done.
Qed.

Lemma normalize_idemp reason :
  normalize_rejection_reason (normalize_rejection_reason reason) =
    normalize_rejection_reason reason.
Proof.
  destruct (normalize_rejection_reason reason) as [s|] eqn:Hn; [|done].
  apply normalize_spec in Hn as (Hne & Hs & Hte & Hc). by apply normalize_fixed.
Qed.

(** Normalizing a rejection reason twice changes nothing more (the runtime
    normalizes it for the audit log and the service again for the store, so both
    hold the same text); a kept reason is not blank and has at most 500
    characters. *)
Theorem normalize_rejection_reason_normal_form reason :
  normalize_rejection_reason (normalize_rejection_reason reason) =
    normalize_rejection_reason reason /\
  forall s, normalize_rejection_reason reason = Some s ->
    is_blank s = false /\ (char_count (bytes_of s) <= 500)%nat.
Proof.
  split; [apply normalize_idemp|]. intros s Hn.
  apply normalize_spec in Hn as (Hne & Hs & Hte & Hc). split; [|done].
  unfold is_blank, trim_bytes. rewrite trim_start_stuck_id, Hte by done.
  by destruct (bytes_of s).
Qed.

(** ** Every run of the service *)

Section RunTheorems.
Context `{UuidLib, SerdeJson}.
Context `{!PendingExecutionStore St, !PendingStoreLaws}.

Implicit Types s : World * ApprovalService St.

(** In every run of operations on a queue that starts empty - requests,
    approvals, rejections, consumptions and purges in any order, with or
    without store failures - no approval is consumed twice. *)
Theorem approval_consumed_at_most_once s0 tr s :
  fresh_start s0 -> runs s0 tr s -> storable_trace tr -> NoDup (consumed_ids tr).
Proof. intros Hs Hr Ht. exact (inv_once _ _ (runs_inv _ _ _ Hs Hr Ht)). Qed.

Lemma runs_last s0 tr x s :
  runs s0 (tr ++ [x]) s ->
  exists s1 s2, runs s0 tr s1 /\ service_step x.1 s1 = (s2, x.2) /\ world_le s2.1 s.1.
Proof.
  remember (tr ++ [x]) as tr' eqn:Htr. intros Hr.
  induction Hr as [|tr' s1 op rep s' Hr _ Hs|tr' w svc w' _ IH Hw]; [by destruct tr| |].
  - apply app_inj_2 in Htr as [<- [= <-]]; [|done]. by exists s1, s'.
  - destruct (IH Htr) as (s1 & s2 & Hr & Hs & Hw2). exists s1, s2. split_and!; [done..|].
    simpl in *. by trans w.
Qed.

Lemma consume_step_inv plan s s' e :
  service_step (OpConsume plan) s = (s', RepConsumed (Ok (Some e))) ->
  store_ok (as_store s.2) -> ids_distinct (queue s) ->
  exists now, read_during s.1 s'.1 now /\
    replaced (fun e => authorizes now plan e = true) (with_status Consumed)
      (queue s) (queue s') e.
Proof.
  intros Hs Hok Hd. destruct s as [w svc]. unfold service_step, reply_with in Hs.
  destruct (svc_consume_approved plan (w, svc)) as [s1 r] eqn:Hc. simplify_eq/=.
  apply on_store_inv in Hc as (w2 & st2 & r0 & Hc & -> & Hr).
  destruct r0 as [[e'|]|]; simplify_eq/=.
  apply law_consume in Hc as (_ & _ & now & Hn & Hrep); [|done..].
  exists now. split; [done|]. eapply replaced_impl; [|exact Hrep]. by intros ? [? _].
Qed.

(** Two plans are the same call: same actor, connection, tool and arguments;
    the class is not part of it. *)
Definition same_call (a b : ExecutionPlan) : Prop :=
  plan_actor_id a = plan_actor_id b /\ plan_connection_id a = plan_connection_id b /\
  plan_tool_id a = plan_tool_id b /\ value_eqb (plan_payload a) (plan_payload b) = true.

Lemma matches_same_call a b : approval_matches_plan a b = true -> same_call a b.
Proof.
  unfold approval_matches_plan. rewrite !andb_true_iff, !bool_decide_eq_true.
  unfold same_call. tauto.
Qed.

Lemma read_during_le w w1 w2 now :
  read_during w w1 now -> world_le w1 w2 -> read_during w w2 now.
Proof. intros (n & Hn & ->) (_ & _ & _ & Ht & _). exists n. split; [lia|done]. Qed.

(** [e] is an approval of the call [plan] that has not expired at [now]. *)
Record good_for (now : Z) (plan : ExecutionPlan) (e : PendingExecution) : Prop := mkGoodFor {
  good_approved : pe_status e = Approved;
  good_same_call : same_call (pe_plan e) plan;
  good_unexpired : forall exp, pe_expires_at e = Some exp -> now < exp;
}.

Lemma authorizes_good_for now plan e : authorizes now plan e = true -> good_for now plan e.
Proof.
  unfold authorizes. rewrite !andb_true_iff, bool_decide_eq_true.
  intros [[Hst Hu] Hm%matches_same_call]. constructor; auto.
  intros exp Hexp. unfold unexpired in Hu. rewrite Hexp in Hu.
  apply bool_decide_eq_true in Hu. lia.
Qed.

(** [now] is a reading of the clock taken after [w]. *)
Definition read_after (w : World) (now : Z) : Prop :=
  exists n, (ticks w <= n)%nat /\ now = reading w n.

Lemma read_during_after w w' now : read_during w w' now -> read_after w now.
Proof. intros (n & Hn & ->). exists n. split; [lia|done]. Qed.

Lemma read_after_le w w' now : world_le w w' -> read_after w' now -> read_after w now.
Proof.
  intros (Hc & _ & _ & Ht & _) (n & Hn & ->). exists n. unfold reading. rewrite Hc.
  split; [lia|done].
Qed.

(** What licenses the consumption of [e] by a call of [plan] after the
    operations [tr]: the call [e] holds was requested, it is the same call as
    [plan], someone asked to approve it, it was never rejected or consumed
    before, and it had not expired at the clock reading [now]. *)
Record licensed (tr : trace) (plan : ExecutionPlan) (now : Z) (e : PendingExecution)
  : Prop := mkLicensed {
  lic_requested : requested tr (pe_plan e);
  lic_matches : same_call (pe_plan e) plan;
  lic_approved : approve_called tr (pe_id e);
  lic_not_rejected : pe_id e ∉ rejected_ids tr;
  lic_not_consumed : pe_id e ∉ consumed_ids tr;
  lic_unexpired : forall exp, pe_expires_at e = Some exp -> now < exp;
}.

Lemma consume_licensed s0 tr plan e s :
  fresh_start s0 ->
  runs s0 (tr ++ [(OpConsume plan, RepConsumed (Ok (Some e)))]) s -> storable_trace tr ->
  exists s1 now, runs s0 tr s1 /\ read_during s1.1 s.1 now /\ licensed tr plan now e.
Proof.
  intros Hf (s1 & s2 & Hr & Hs & Hw)%runs_last Ht.
  apply (runs_inv _ _ _ Hf) in Hr as Hinv; [|done].
  apply consume_step_inv in Hs as (now & Hnow & i & e0 & Hi & Ha & -> & _);
    [|apply Hinv|apply Hinv].
  exists s1, now. split; [done|]. split; [by eapply read_during_le|]. assert (e0 ∈ queue s1) as Hin by (apply list_elem_of_lookup; eauto).
  apply authorizes_good_for in Ha as [Hst Hm Hu]. constructor; simpl; auto.
  - by apply Hinv.
  - apply Hinv; auto.
  - intros Hrej. apply (inv_rejected _ _ Hinv) in Hrej as (_ & _ & Hrej).
    specialize (Hrej _ Hin eq_refl). congruence.
  - intros Hc. apply (inv_consumed _ _ Hinv) in Hc as (_ & Hc).
    specialize (Hc _ Hin eq_refl). congruence.
Qed.

(** C7: a call goes through on the strength of an approval only if that exact
    call - same actor, connection, tool and arguments - was requested and its
    approval asked for earlier in the run, was neither rejected nor consumed
    before, and has not expired when it is consumed. *)
Theorem consumed_call_was_licensed s0 tr plan e s :
  fresh_start s0 ->
  runs s0 (tr ++ [(OpConsume plan, RepConsumed (Ok (Some e)))]) s -> storable_trace tr ->
  exists s1 now, runs s0 tr s1 /\ read_during s1.1 s.1 now /\ licensed tr plan now e.
Proof. apply consume_licensed. Qed.

(** ** Each decision on every branch *)

Section Decisions.
Context (w : World) (svc : ApprovalService St).
Context (Hok : store_ok (as_store svc)) (Hd : ids_distinct (queue (w, svc))).

(** [approve] turns the live pending entry with that id into an approved
    one and returns the plan to replay; it answers [PendingNotFound] and changes
    nothing when there is no such entry or it has expired; it never answers
    [InvalidTransition]; a store failure leaves the queue as it was or with that
    one approval. *)
Theorem approve_all_branches id w' svc' r :
  approve id (w, svc) = ((w', svc'), r) ->
  store_ok (as_store svc') /\ as_ttl_ms svc' = as_ttl_ms svc /\
  resolve_post id (with_status Approved)
    (fun pending updated => mkApproved updated (pe_plan pending))
    w w' (queue (w, svc)) (queue (w', svc')) r.
Proof.
  rewrite approve_resolve. intros Hr.
  apply (resolve_spec _ _ (with_status Approved)) in Hr as (? & _ & ? & ?); auto.
  apply update_status_updates.
Qed.

(** [reject] turns the live pending entry with that id into a rejected one
    that carries the normalized reason, with the same errors as [approve]. *)
Theorem reject_all_branches id reason w' svc' r :
  reject id reason (w, svc) = ((w', svc'), r) ->
  store_ok (as_store svc') /\ as_ttl_ms svc' = as_ttl_ms svc /\
  resolve_post id (with_rejection (normalize_rejection_reason reason))
    (fun _ updated => mkRejected updated)
    w w' (queue (w, svc)) (queue (w', svc')) r.
Proof.
  rewrite reject_resolve. intros Hr.
  apply (resolve_spec _ _ (with_rejection (normalize_rejection_reason reason)))
    in Hr as (? & _ & ? & ?); auto. apply record_rejection_updates.
Qed.

End Decisions.

(** A request is queued as pending with the plan it was made with and
    expires the service's time to live after a clock reading taken during the
    call; the sum does not wrap for any lifetime below 2^62 ms and any clock up
    to 2^62 ms. *)
Theorem request_expires_after_ttl plan w svc w' svc' e :
  request_execution plan (w, svc) = ((w', svc'), Ok e) ->
  store_ok (as_store svc) -> plan_storable plan ->
  0 <= as_ttl_ms svc < 2 ^ 62 -> clock w (ticks w) <= 2 ^ 62 ->
  queue (w', svc') = queue (w, svc) ++ [e] /\
  pe_plan e = plan /\ pe_status e = Pending /\ pe_rejection_reason e = None /\
  pe_expires_at e = Some (Z.max 0 (clock w (ticks w)) + as_ttl_ms svc).
Proof.
  intros Hr Hok Hpl Httl Hclk. unfold request_execution in Hr.
  sm_inv Hr as now s1 Hn err ?; [|done].
  apply on_store_now in Hn as [-> [= ->]].
  sm_inv Hr as s2 s3 Hg err ?; [|done]. revert Hg. intros [= <- <-].
  apply on_store_inv in Hr as (w2 & st2 & r0 & Hc & [= -> ->] & Hr).
  destruct r0; simplify_eq/=. apply law_create in Hc as (_ & _ & now & _ & _ & -> & Hq);
    [|done|done]. split_and!; try done. simpl. f_equal. unfold reading, i64_add.
  rewrite (i64_wrap_id (Z.max 0 _)), i64_wrap_id; unfold in_i64, i64_min, i64_max; lia.
Qed.

End RunTheorems.

(** ** An approved call can be used, once *)

Section Liveness.
Context `{UuidLib, SerdeJsonLaws}.

Lemma find_last {A} (p : A -> bool) q e :
  (forall x, x ∈ q -> p x = false) -> p e = true -> List.find p (q ++ [e]) = Some e.
Proof.
  intros Hq He. induction q as [|x q IH]; simpl; [by rewrite He|].
  rewrite Hq by left. apply IH. intros y Hy. apply Hq. by right.
Qed.

Lemma update_first_last p f q e :
  (forall x, x ∈ q -> p x = false) -> p e = true ->
  update_first p f (q ++ [e]) = Some (f e, q ++ [f e]).
Proof.
  intros Hq He. induction q as [|x q IH]; simpl; [by rewrite He|].
  rewrite Hq, IH by left || (intros y Hy; apply Hq; by right). done.
Qed.

Lemma oldest_authorizing_last now plan q e :
  (forall x, x ∈ q -> authorizes now plan x = false) -> authorizes now plan e = true ->
  oldest_authorizing now plan (q ++ [e]) = Some (length q, e).
Proof.
  intros Hq He. unfold oldest_authorizing. rewrite imap_app, List.filter_app.
  assert (List.filter (fun ie => authorizes now plan ie.2) (imap pair q) = []) as ->.
  { destruct (List.filter _ _) as [|[i x] l] eqn:Hf; [done|].
    assert ((i, x) ∈ List.filter (fun ie => authorizes now plan ie.2) (imap pair q))
      as [Hin Ha]%filter_elem by (rewrite Hf; left).
    apply imap_pair_elem, list_elem_of_lookup_2, Hq in Hin. simpl in Ha. congruence. }
  simpl. rewrite He. simpl. by rewrite Nat.add_0_r.
Qed.

Lemma not_has_id (q : list PendingExecution) id x : id ∉ pe_id <$> q -> x ∈ q -> has_id id x = false.
Proof.
  intros Hid Hx. apply bool_decide_eq_false. intros <-. apply Hid.
  apply list_elem_of_fmap. eauto.
Qed.

Lemma has_own_id e : has_id (pe_id e) e = true.
Proof. by apply bool_decide_eq_true. Qed.

Lemma mem_approve_last w q ttl e :
  pe_id e ∉ pe_id <$> q -> is_live_pending (reading w (ticks w)) e = true ->
  approve (pe_id e) (w, mkService (q ++ [e] : InMemoryPendingExecutionStore) ttl) =
  ((tick w, mkService (q ++ [with_status Approved e] : InMemoryPendingExecutionStore) ttl),
   Ok (mkApproved (with_status Approved e) (pe_plan e))).
Proof.
  intros Hid Hlive. unfold is_live_pending in Hlive. apply andb_true_iff in Hlive as [Hp Hu].
  unfold approve, on_store, get_pending, update_status, mem_store, mem_get_pending,
    mem_update_status, mem_update, on_world, now_epoch_ms, read_clock. sm_unfold. simpl.
  fold (reading w (ticks w)). rewrite find_last.
  - simpl. rewrite Hp. simpl. rewrite update_first_last; [done|..].
    + intros x. by apply not_has_id.
    + apply has_own_id.
  - intros x Hx. by rewrite (not_has_id _ _ _ Hid Hx).
  - by rewrite has_own_id, Hp, Hu.
Qed.

Lemma mem_consume_svc w q ttl plan :
  svc_consume_approved plan (w, mkService (q : InMemoryPendingExecutionStore) ttl) =
  match oldest_authorizing (reading w (ticks w)) plan q with
  | Some (i, e) =>
      ((tick w, mkService (<[i := with_status Consumed e]> q) ttl),
       Ok (Some (with_status Consumed e)))
  | None => ((tick w, mkService q ttl), Ok None)
  end.
Proof.
  unfold svc_consume_approved, on_store, consume_approved, mem_store, mem_consume_approved,
    on_world, now_epoch_ms, read_clock, reading. sm_unfold. simpl.
  by destruct (oldest_authorizing _ _ _) as [[]|].
Qed.

Lemma mem_consume_last w q ttl plan e :
  (forall x, x ∈ q -> authorizes (reading w (ticks w)) plan x = false) ->
  authorizes (reading w (ticks w)) plan e = true ->
  svc_consume_approved plan (w, mkService (q ++ [e] : InMemoryPendingExecutionStore) ttl) =
  ((tick w, mkService (q ++ [with_status Consumed e] : InMemoryPendingExecutionStore) ttl),
   Ok (Some (with_status Consumed e))).
Proof.
  intros Hq He. rewrite mem_consume_svc, oldest_authorizing_last by done.
  pose proof (insert_app_r_alt q [e] (length q) (with_status Consumed e) ltac:(lia)) as Hins.
  rewrite Nat.sub_diag in Hins. simpl in Hins. unfold InMemoryPendingExecutionStore.
  by rewrite Hins.
Qed.

Lemma plan_matches_itself plan : approval_matches_plan plan plan = true.
Proof.
  unfold approval_matches_plan. rewrite !bool_decide_true by done. simpl.
  destruct value_eqb_equiv as [Hr _ _]. apply Hr.
Qed.

Lemma other_call_not_authorized now plan e :
  approval_matches_plan (pe_plan e) plan = false -> authorizes now plan e = false.
Proof. intros Hm. unfold authorizes. by rewrite Hm, andb_false_r. Qed.

Lemma live_before exp now e :
  pe_expires_at e = Some exp -> now < exp -> unexpired now e = true.
Proof. intros He Hlt. unfold unexpired. rewrite He. apply bool_decide_eq_true. lia. Qed.

Definition mem_service : Type := ApprovalService InMemoryPendingExecutionStore.

Definition expiry (w : World) (svc : mem_service) : Z :=
  Z.max 0 (clock w (ticks w)) + as_ttl_ms svc.

(** The entry a request queues, with its status. *)
Definition new_entry (w : World) (svc : mem_service) (plan : ExecutionPlan)
    (st : PendingStatus) : PendingExecution :=
  mkPending (uuids w (issued w)) st plan (reading w (S (ticks w)))
    (Some (expiry w svc)) None.

Lemma mem_request w (svc : mem_service) plan :
  in_i64 (Z.max 0 (clock w (ticks w))) -> in_i64 (expiry w svc) ->
  request_execution plan (w, svc) =
  ((mkWorld _ (clock w) (S (S (ticks w))) (uuids w) (S (issued w)) (db_fault w) (db_calls w),
    mkService (as_store svc ++ [new_entry w svc plan Pending]) (as_ttl_ms svc)),
   Ok (new_entry w svc plan Pending)).
Proof.
  intros Hc He. unfold request_execution, on_store, create_pending, mem_store,
    mem_create_pending, on_world, now_epoch_ms, read_clock, uuid_new_v4. sm_unfold. simpl.
  unfold fresh_pending, new_entry, i64_add. rewrite (i64_wrap_id (Z.max 0 (clock w (ticks w))))
    by done. fold (expiry w svc). by rewrite (i64_wrap_id (expiry w svc)).
Qed.

(** On the in-memory store, a call that is requested and approved goes
    through exactly once while it has not expired: the request, the approval and
    the first consumption succeed, the consumption uses that very entry, and
    the same call then finds no approval any more. *)
Theorem approved_call_goes_through_once w (svc : mem_service) plan :
  (forall e, e ∈ as_store svc -> approval_matches_plan (pe_plan e) plan = false) ->
  uuids w (issued w) ∉ pe_id <$> as_store svc ->
  (forall n, (n <= 4)%nat -> 0 <= clock w (ticks w + n) < expiry w svc) ->
  expiry w svc <= i64_max ->
  exists s1 s2 s3 s4,
    let e := new_entry w svc plan in
    request_execution plan (w, svc) = (s1, Ok (e Pending)) /\
    approve (uuids w (issued w)) s1 = (s2, Ok (mkApproved (e Approved) plan)) /\
    svc_consume_approved plan s2 = (s3, Ok (Some (e Consumed))) /\
    svc_consume_approved plan s3 = (s4, Ok None).
Proof.
  intros Hother Hid Hclk Hexp.
  assert (forall n, (n <= 4)%nat -> reading w (ticks w + n) = clock w (ticks w + n)) as Hrd.
  { intros n Hn. pose proof (Hclk n Hn). unfold reading.
    rewrite i64_wrap_id; unfold in_i64, i64_min; lia. }
  assert (forall n st, (n <= 4)%nat ->
    unexpired (reading w (ticks w + n)) (new_entry w svc plan st) = true) as Hlive.
  { intros n st Hn. eapply live_before; [done|]. rewrite Hrd by done. by apply Hclk. }
  pose proof (Hclk 0%nat ltac:(lia)) as H00. rewrite Nat.add_0_r in H00.
  eexists _, _, _, _. split_and!.
  - apply mem_request; unfold in_i64, i64_min; lia.
  - rewrite (mem_approve_last _ _ _ (new_entry w svc plan Pending)); [done..|].
    unfold is_live_pending. simpl. change (reading _ _) with (reading w (S (S (ticks w)))).
    pose proof (Hlive 2%nat Pending ltac:(lia)) as Hl.
    rewrite Nat.add_comm in Hl. exact Hl.
  - rewrite (mem_consume_last _ _ _ _ (new_entry w svc plan Approved)).
    + done.
    + intros x Hx. by apply other_call_not_authorized, Hother.
    + unfold authorizes. simpl. rewrite plan_matches_itself, andb_true_r.
      pose proof (Hlive 3%nat Approved ltac:(lia)) as Hl.
      rewrite Nat.add_comm in Hl. exact Hl.
  - rewrite mem_consume_svc. simpl.
    destruct (oldest_authorizing _ _ _) as [[i e]|] eqn:Ho; [|done].
    apply oldest_authorizing_Some in Ho as (Hi & Ha & _).
    apply list_elem_of_lookup_2 in Hi. apply elem_of_snoc in Hi as [Hi| ->]; [|done].
    by rewrite other_call_not_authorized in Ha by auto.
Qed.

End Liveness.

(** ** A run *)

Section Executable.
Context `{UuidLib, SerdeJson, !PendingExecutionStore St}.

(** Run a list of operations, keeping the trace. *)
Fixpoint run_ops (ops : list ServiceOp) (tr : trace) (s : World * ApprovalService St)
  : trace * (World * ApprovalService St) :=
  match ops with
  | [] => (tr, s)
  | op :: ops' =>
      let '(s', rep) := service_step op s in run_ops ops' (tr ++ [(op, rep)]) s'
  end.

Lemma run_ops_runs s0 ops tr s :
  runs s0 tr s -> runs s0 (run_ops ops tr s).1 (run_ops ops tr s).2.
Proof.
  revert tr s. induction ops as [|op ops IH]; intros tr s Hr; simpl; [done|].
  destruct (service_step op s) as [s' rep] eqn:Hs. apply IH. by econstructor.
Qed.

End Executable.

Definition drop_users : ExecutionPlan :=
  mkPlan "main" "alice" "drop_table" Destructive (VObject [("table", VString "users")]).

Definition empty_queue : World * mem_service := (plain_world, service_new []).

Lemma empty_queue_fresh : fresh_start empty_queue.
Proof. split; [done|]. split; [apply plain_world_fresh|done]. Qed.

(** Request, approve, consume, try again, request again and reject. *)
Definition sample_ops : list ServiceOp :=
  [OpRequest drop_users; OpApprove (nat_text 0); OpConsume drop_users;
   OpConsume drop_users; OpRequest drop_users; OpReject (nat_text 1) (Some " no ")].

Definition sample_trace : trace :=
  Eval vm_compute in (run_ops sample_ops [] empty_queue).1.

Lemma sample_runs : exists s, runs empty_queue sample_trace s.
Proof.
  exists (run_ops sample_ops [] empty_queue).2.
  replace sample_trace with (run_ops sample_ops [] empty_queue).1 by (vm_compute; reflexivity).
  apply run_ops_runs. constructor.
Qed.

Lemma memory_trace_storable (tr : trace) :
  storable_trace (St := InMemoryPendingExecutionStore) tr.
Proof. apply Forall_forall. by intros [[] ?] _. Qed.

Lemma approval_consumed_at_most_once_witness :
  length (consumed_ids sample_trace) = 1%nat /\ NoDup (consumed_ids sample_trace).
Proof.
  split; [vm_compute; reflexivity|]. destruct sample_runs as [s Hs].
  exact (approval_consumed_at_most_once empty_queue sample_trace s empty_queue_fresh Hs
           (memory_trace_storable _)).
Defined.

Definition sample_consumed : PendingExecution :=
  Eval vm_compute in
  mkPending (nat_text 0) Consumed drop_users 1000 (Some 86400000) None.

Lemma consumed_call_was_licensed_witness :
  exists s1 now, runs empty_queue (take 2 sample_trace) s1 /\
    read_during s1.1 (run_ops (take 3 sample_ops) [] empty_queue).2.1 now /\
    licensed (take 2 sample_trace) drop_users now sample_consumed.
Proof.
  eapply (consumed_call_was_licensed empty_queue (take 2 sample_trace) drop_users
            sample_consumed).
  - exact empty_queue_fresh.
  - replace (take 2 sample_trace ++ _)
      with (run_ops (take 3 sample_ops) [] empty_queue).1 by (vm_compute; reflexivity).
    apply run_ops_runs. constructor.
  - apply memory_trace_storable.
Defined.

(** The queue after one request. *)
Definition one_request : World * mem_service :=
  (run_ops (take 1 sample_ops) [] empty_queue).2.

Lemma one_request_ok : store_ok (as_store one_request.2).
Proof. done. Qed.

Lemma one_request_distinct : ids_distinct (queue one_request).
Proof. vm_compute. apply NoDup_singleton. Qed.

Lemma approve_all_branches_witness :
  exists w' svc' a, approve (nat_text 0) one_request = ((w', svc'), Ok a) /\
    resolve_post (nat_text 0) (with_status Approved)
      (fun pending updated => mkApproved updated (pe_plan pending))
      one_request.1 w' (queue one_request) (queue (w', svc')) (Ok a).
Proof.
  eexists _, _, _. split; [vm_compute; reflexivity|].
  apply (approve_all_branches one_request.1 one_request.2 one_request_ok one_request_distinct).
  vm_compute. reflexivity.
Defined.

Lemma reject_all_branches_witness :
  exists w' svc' a, reject (nat_text 0) (Some " no ") one_request = ((w', svc'), Ok a) /\
    resolve_post (nat_text 0)
      (with_rejection (normalize_rejection_reason (Some " no ")))
      (fun _ updated => mkRejected updated)
      one_request.1 w' (queue one_request) (queue (w', svc')) (Ok a).
Proof.
  eexists _, _, _. split; [vm_compute; reflexivity|].
  apply (reject_all_branches one_request.1 one_request.2 one_request_ok one_request_distinct).
  vm_compute. reflexivity.
Defined.

Lemma request_expires_after_ttl_witness :
  exists w' svc' e, request_execution drop_users empty_queue = ((w', svc'), Ok e) /\
    pe_expires_at e = Some 86400000.
Proof.
  eexists _, _, _. split; [vm_compute; reflexivity|].
  eapply (request_expires_after_ttl drop_users empty_queue.1 empty_queue.2);
    [vm_compute; reflexivity|done|done|vm_compute; done|vm_compute; done].
Defined.

Lemma approved_call_goes_through_once_witness :
  exists s1 s2 s3 s4,
    let e := new_entry plain_world (service_new []) drop_users in
    request_execution drop_users empty_queue = (s1, Ok (e Pending)) /\
    approve (nat_text 0) s1 = (s2, Ok (mkApproved (e Approved) drop_users)) /\
    svc_consume_approved drop_users s2 = (s3, Ok (Some (e Consumed))) /\
    svc_consume_approved drop_users s3 = (s4, Ok None).
Proof.
  apply (approved_call_goes_through_once plain_world (service_new []) drop_users).
  - intros e He. by apply elem_of_nil in He.
  - apply not_elem_of_nil.
  - intros n Hn. unfold expiry, plain_world, service_new, DEFAULT_APPROVAL_TTL_MS. simpl. lia.
  - vm_compute. done.
Defined.
