(* ===== verification/PendingSql.v ===== *)
(** * The SQLite store of pending executions (crates/dbflux_storage:
    pending_executions.rs)

    The table [app_pending_executions] as a list of rows of text and integers,
    the statements of [SqlitePendingExecutionStore] on it, and the proof that
    the store keeps the laws of [PendingStoreLaws], so that everything proved of
    [ApprovalService] holds with it.  Every lock of the connection, every
    statement and every fetched row can fail with an engine error. *)

From stdpp Require Import sorting.
From S2P Require Import Prelude RustStr External Concrete Classification Approval ApprovalService ApprovalProps.

(** ** Rows *)

(** [RawRow]: one row of the table, columns in the order of the statements. *)
Record RawRow := mkRow {
  r_id : string;
  r_tool_id : string;
  r_connection_id : string;
  r_actor_id : string;
  r_classification : string;
  r_payload_json : string;
  r_status : string;
  r_created_at : Z;
  r_expires_at : option Z;
  r_rejection_reason : option string;
}.

Definition Table : Type := list RawRow.

(** The order in which a scan of the table visits the rows is the engine's. *)
Class SqliteScan := {
  scan : list RawRow -> list RawRow;
  scan_perm l : scan l ≡ₚ l;
}.

Definition status_to_str (c : PendingStatus) : string :=
  match c with
  | Pending => "pending"
  | Approved => "approved"
  | Rejected => "rejected"
  | Consumed => "consumed"
  end.

Definition status_from_str (s : string) : result PendingStatus PendingStoreError :=
  if bool_decide (s = "pending") then Ok Pending
  else if bool_decide (s = "approved") then Ok Approved
  else if bool_decide (s = "rejected") then Ok Rejected
  else if bool_decide (s = "consumed") then Ok Consumed
  else Err (Serialization ("unknown pending status: " +:+ s)).

(** The [serde] form of a class: its name in snake case. *)
Definition classification_snake (c : ExecutionClassification) : string :=
  match c with
  | Metadata => "metadata"
  | Read => "read"
  | Write => "write"
  | Destructive => "destructive"
  | Admin => "admin"
  | AdminSafe => "admin_safe"
  | AdminDestructive => "admin_destructive"
  end.

Definition all_classifications : list ExecutionClassification :=
  [Metadata; Read; Write; Destructive; Admin; AdminSafe; AdminDestructive].

Section Store.
Context `{UuidLib, SerdeJson, SqliteScan}.

Definition classification_to_json (c : ExecutionClassification) : string :=
  json_to_string (VString (classification_snake c)).

(** A unit variant is read from a string or from [{name: null}]. *)
Definition classification_from_json (text : string) : result ExecutionClassification string :=
  let? v := json_from_str text in
  let variant name :=
    ok_or (List.find (fun c => bool_decide (classification_snake c = name))
             all_classifications) (json_shape_error v) in
  match v with
  | VString name => variant name
  | VObject [(name, VNull)] => variant name
  | _ => Err (json_shape_error v)
  end.

Definition row_to_execution (raw : RawRow) : result PendingExecution PendingStoreError :=
  let? id := map_err (fun e => Serialization ("invalid uuid in store: " +:+ e))
               (uuid_parse (r_id raw)) in
  let? classification :=
    map_err (fun e => Serialization ("classification parse error: " +:+ e))
      (classification_from_json (r_classification raw)) in
  let? payload := map_err (fun e => Serialization ("payload parse error: " +:+ e))
                    (json_from_str (r_payload_json raw)) in
  let? status := status_from_str (r_status raw) in
  Ok (mkPending id status
        (mkPlan (r_connection_id raw) (r_actor_id raw) (r_tool_id raw) classification payload)
        (r_created_at raw) (r_expires_at raw) (r_rejection_reason raw)).

(** ** The statements *)

Let M (A : Type) : Type := SM (World * Table) PendingStoreError A.

(** A call of the engine that may fail: [lock], [prepare], [execute], a step. *)
Definition sql_call : M unit := on_world (sm_map_err Backend db_call).

Definition set_row_status (st : string) (r : RawRow) : RawRow :=
  mkRow (r_id r) (r_tool_id r) (r_connection_id r) (r_actor_id r) (r_classification r)
    (r_payload_json r) st (r_created_at r) (r_expires_at r) (r_rejection_reason r).
Definition set_row_rejected (reason : option string) (r : RawRow) : RawRow :=
  mkRow (r_id r) (r_tool_id r) (r_connection_id r) (r_actor_id r) (r_classification r)
    (r_payload_json r) "rejected" (r_created_at r) (r_expires_at r) reason.

(** [WHERE] clauses. *)
Definition where_id (id : string) (r : RawRow) : bool := bool_decide (r_id r = id).
Definition where_status (st : string) (r : RawRow) : bool := bool_decide (r_status r = st).
Definition where_unexpired (now : Z) (r : RawRow) : bool :=
  match r_expires_at r with None => true | Some exp => bool_decide (exp > now) end.

(** [INSERT]: the primary key must be new. *)
Definition sql_insert (row : RawRow) : M unit :=
  _ ← sql_call;
  s ← sm_get;
  if existsb (where_id (r_id row)) (snd s) then
    sm_err (Backend "UNIQUE constraint failed: app_pending_executions.id")
  else sm_modify (fun s : World * Table => (s.1, s.2 ++ [row])).

(** [UPDATE ... WHERE p]: the number of rows changed. *)
Definition sql_update (p : RawRow -> bool) (f : RawRow -> RawRow) : M nat :=
  _ ← sql_call;
  sm_state (fun s : World * Table =>
    ((s.1, map (fun r => if p r then f r else r) s.2), length (List.filter p s.2))).

(** [DELETE ... WHERE p]: the number of rows deleted. *)
Definition sql_delete (p : RawRow -> bool) : M nat :=
  _ ← sql_call;
  sm_state (fun s : World * Table =>
    ((s.1, List.filter (fun r => negb (p r)) s.2), length (List.filter p s.2))).

(** [query_row]: the first row of the result, or no row. *)
Definition sql_query_row (p : RawRow -> bool) : M (option RawRow) :=
  _ ← sql_call;
  s ← sm_get;
  mret (head (scan (List.filter p (snd s)))).

(** Step through a result, turning each row into an execution. *)
Fixpoint fetch_all (rows : list RawRow) : M (list PendingExecution) :=
  match rows with
  | [] => mret []
  | raw :: rows' =>
      _ ← sql_call;
      e ← sm_lift (row_to_execution raw);
      es ← fetch_all rows';
      mret (e :: es)
  end.

(** [ORDER BY created_at]. *)
Definition created_le (r1 r2 : RawRow) : Prop := r_created_at r1 <= r_created_at r2.
#[export] Instance created_le_dec : RelDecision created_le.
Proof. intros r1 r2. unfold created_le. apply _. Defined.
Definition order_by_created (rows : list RawRow) : list RawRow := merge_sort created_le rows.

(** ** The operations of the store *)

Definition row_of (id : Uuid) (plan : ExecutionPlan) (created_at : Z) (expires_at : option Z)
  : RawRow :=
  mkRow (uuid_to_string id) (plan_tool_id plan) (plan_connection_id plan)
    (plan_actor_id plan) (classification_to_json (plan_classification plan))
    (json_to_string (plan_payload plan)) "pending" created_at expires_at None.

Definition sql_create_pending (plan : ExecutionPlan) (expires_at : option Z)
  : M PendingExecution :=
  id ← on_world uuid_new_v4;
  created_at ← on_world now_epoch_ms;
  _ ← sql_call;
  _ ← sql_insert (row_of id plan created_at expires_at);
  mret (mkPending id Pending plan created_at expires_at None).

(** [Ok(row) => Ok(Some(row_to_execution(row)?))], no row is [Ok(None)]. *)
Definition optional_execution (o : option RawRow)
  : result (option PendingExecution) PendingStoreError :=
  match o with
  | None => Ok None
  | Some raw => map_ok Some (row_to_execution raw)
  end.

Definition sql_get_pending (id : Uuid) : M (option PendingExecution) :=
  now ← on_world now_epoch_ms;
  _ ← sql_call;
  o ← sql_query_row (fun r => where_id (uuid_to_string id) r && where_status "pending" r &&
                              where_unexpired now r);
  sm_lift (optional_execution o).

Definition sql_get_execution (id : Uuid) : M (option PendingExecution) :=
  _ ← sql_call;
  o ← sql_query_row (where_id (uuid_to_string id));
  sm_lift (optional_execution o).

Definition sql_update_status (id : Uuid) (status : PendingStatus) : M (option PendingExecution) :=
  _ ← sql_call;
  rows_changed ← sql_update (where_id (uuid_to_string id))
                   (set_row_status (status_to_str status));
  if bool_decide (rows_changed = 0%nat) then mret None
  else
    o ← sql_query_row (where_id (uuid_to_string id));
    raw ← sm_lift (ok_or o (Backend "Query returned no rows"));
    sm_lift (map_ok Some (row_to_execution raw)).

Definition sql_record_rejection (id : Uuid) (reason : option string)
  : M (option PendingExecution) :=
  _ ← sql_call;
  rows_changed ← sql_update (where_id (uuid_to_string id)) (set_row_rejected reason);
  if bool_decide (rows_changed = 0%nat) then mret None
  else sql_get_execution id.

Definition sql_list_pending : M (list PendingExecution) :=
  now ← on_world now_epoch_ms;
  _ ← sql_call;
  _ ← sql_call;
  _ ← sql_call;
  s ← sm_get;
  fetch_all (scan (List.filter (fun r => where_status "pending" r && where_unexpired now r)
                     (snd s))).

(** The guarded [UPDATE] of [consume_approved]. *)
Definition sql_take (id : Uuid) : M nat :=
  sql_update (fun r => where_id (uuid_to_string id) r && where_status "approved" r)
    (set_row_status "consumed").

(** Try the candidates in order until one is taken. *)
Fixpoint take_first (plan : ExecutionPlan) (candidates : list PendingExecution)
  : M (option PendingExecution) :=
  match candidates with
  | [] => mret None
  | candidate :: rest =>
      if negb (approval_matches_plan (pe_plan candidate) plan) then take_first plan rest
      else
        rows_changed ← sql_take (pe_id candidate);
        if bool_decide (rows_changed = 1%nat)
        then mret (Some (with_status Consumed candidate))
        else take_first plan rest
  end.

Definition where_candidate (now : Z) (plan : ExecutionPlan) (r : RawRow) : bool :=
  where_status "approved" r &&
  bool_decide (r_actor_id r = plan_actor_id plan) &&
  bool_decide (r_connection_id r = plan_connection_id plan) &&
  bool_decide (r_tool_id r = plan_tool_id plan) &&
  where_unexpired now r.

Definition sql_consume_approved (plan : ExecutionPlan) : M (option PendingExecution) :=
  now ← on_world now_epoch_ms;
  _ ← sql_call;
  _ ← sql_call;
  _ ← sql_call;
  s ← sm_get;
  candidates ← fetch_all (order_by_created
                 (scan (List.filter (where_candidate now plan) (snd s))));
  take_first plan candidates.

Definition where_purged (now_ms : Z) (r : RawRow) : bool :=
  where_status "rejected" r || where_status "consumed" r ||
  match r_expires_at r with None => false | Some exp => bool_decide (exp <= now_ms) end.

Definition sql_purge (now_ms : Z) : M nat :=
  _ ← sql_call;
  sql_delete (where_purged now_ms).

#[export] Instance sqlite_store : PendingExecutionStore Table := {
  create_pending := sql_create_pending;
  get_pending := sql_get_pending;
  get_execution := sql_get_execution;
  update_status := sql_update_status;
  record_rejection := sql_record_rejection;
  list_pending := sql_list_pending;
  consume_approved := sql_consume_approved;
  purge_terminal_and_expired := sql_purge;
}.

End Store.

(** A scan in row order. *)
#[export] Program Instance rowid_scan : SqliteScan := { scan l := l }.
Next Obligation. done. Qed.
