(* ===== verification/PendingSqlLaws.v ===== *)
(** * The SQLite store keeps the laws of the interface

    Rows are related to the executions they store ([row_is]); each statement on
    rows is related to what it means for the queue; the operations then satisfy
    [PendingStoreLaws]. *)

From stdpp Require Import sorting.
From S2P Require Import Prelude RustStr External Concrete Classification Approval ApprovalService ApprovalProps PendingSql.

Section Rows.
Context `{UuidLaws, SerdeJsonLaws}.

(** The row [r] stores the execution [e]. *)
Definition row_is (r : RawRow) (e : PendingExecution) : Prop :=
  row_to_execution r = Ok e /\ r_id r = uuid_to_string (pe_id e).

Definition row_entry (r : RawRow) : option PendingExecution :=
  match row_to_execution r with Ok e => Some e | Err _ => None end.

(** The queue the table holds. *)
Definition rows_entries (t : list RawRow) : list PendingExecution := omap row_entry t.

Definition rows_ok (t : list RawRow) : Prop := Forall (fun r => exists e, row_is r e) t.

Lemma status_from_to st : status_from_str (status_to_str st) = Ok st.
Proof. by destruct st. Qed.

Lemma status_from_str_inv s st : status_from_str s = Ok st -> s = status_to_str st.
Proof. unfold status_from_str. repeat case_bool_decide; intros; by simplify_eq/=. Qed.

#[export] Instance status_to_str_inj : Inj (=) (=) status_to_str.
Proof. by intros [] []. Qed.

Lemma classification_json_roundtrip c :
  classification_from_json (classification_to_json c) = Ok c.
Proof.
  unfold classification_from_json, classification_to_json.
  rewrite json_string_stable. by destruct c.
Qed.

Lemma row_is_entry r e : row_is r e -> row_entry r = Some e.
Proof. intros [Hr _]. unfold row_entry. by rewrite Hr. Qed.

(** What a row and its execution share. *)
Lemma row_is_fields r e :
  row_is r e ->
  r_id r = uuid_to_string (pe_id e) /\ r_status r = status_to_str (pe_status e) /\
  r_actor_id r = plan_actor_id (pe_plan e) /\
  r_connection_id r = plan_connection_id (pe_plan e) /\
  r_tool_id r = plan_tool_id (pe_plan e) /\
  r_created_at r = pe_created_at e /\ r_expires_at r = pe_expires_at e.
Proof.
  intros [Hr Hid]. unfold row_to_execution in Hr.
  destruct (uuid_parse _); simplify_eq/=. destruct (classification_from_json _); simplify_eq/=.
  destruct (json_from_str _); simplify_eq/=.
  destruct (status_from_str _) eqn:Hst; simplify_eq/=. apply status_from_str_inv in Hst.
  by split_and!.
Qed.

Lemma set_row_status_is st r e :
  row_is r e -> row_is (set_row_status (status_to_str st) r) (with_status st e).
Proof.
  intros [Hr Hid]. split; [|done]. unfold row_to_execution in *. simpl.
  destruct (uuid_parse _); simplify_eq/=. destruct (classification_from_json _); simplify_eq/=.
  destruct (json_from_str _); simplify_eq/=. rewrite status_from_to.
  destruct (status_from_str _); simplify_eq/=. done.
Qed.

Lemma set_row_rejected_is reason r e :
  row_is r e -> row_is (set_row_rejected reason r) (with_rejection reason e).
Proof.
  intros [Hr Hid]. split; [|done]. unfold row_to_execution in *. simpl.
  destruct (uuid_parse _); simplify_eq/=. destruct (classification_from_json _); simplify_eq/=.
  destruct (json_from_str _); simplify_eq/=.
  destruct (status_from_str _); simplify_eq/=. done.
Qed.

Lemma row_of_is id plan now exp :
  json_stable (plan_payload plan) -> row_is (row_of id plan now exp) (fresh_pending id plan now exp).
Proof.
  intros Hst. split; [|done]. unfold row_to_execution, row_of, fresh_pending. simpl.
  rewrite uuid_roundtrip, classification_json_roundtrip. simpl. rewrite Hst. simpl.
  by destruct plan.
Qed.

(** *** Tables *)

Lemma rows_entries_Forall2 t : rows_ok t -> Forall2 row_is t (rows_entries t).
Proof.
  induction 1 as [|r t [e He] _ IH]; simpl; [constructor|].
  rewrite (row_is_entry _ _ He). by constructor.
Qed.

Lemma Forall2_rows_entries t q : Forall2 row_is t q -> rows_ok t /\ rows_entries t = q.
Proof.
  induction 1 as [|r e t q Hr _ [Hok IH]]; [split; [constructor|done]|]. split; [constructor; eauto|].
  simpl. by rewrite (row_is_entry _ _ Hr), IH.
Qed.

Lemma rows_entries_elem t e : rows_ok t -> e ∈ rows_entries t <-> exists r, r ∈ t /\ row_is r e.
Proof.
  intros Hok. unfold rows_entries. rewrite list_elem_of_omap. split.
  - intros (r & Hin & He). exists r. split; [done|].
    unfold rows_ok in Hok. rewrite Forall_forall in Hok. destruct (Hok r Hin) as [e' He'].
    pose proof (row_is_entry _ _ He'). congruence.
  - intros (r & Hin & He). exists r. split; [done|]. by apply row_is_entry.
Qed.

Lemma rows_entries_perm t1 t2 : t1 ≡ₚ t2 -> rows_entries t1 ≡ₚ rows_entries t2.
Proof. intros Hp. unfold rows_entries. by rewrite Hp. Qed.

Lemma rows_ok_perm t1 t2 : t1 ≡ₚ t2 -> rows_ok t2 -> rows_ok t1.
Proof. intros Hp. unfold rows_ok. by rewrite Hp. Qed.

(** A [WHERE] clause on rows that means the test [p'] of executions. *)
Definition where_is (p : RawRow -> bool) (p' : PendingExecution -> bool) : Prop :=
  forall r e, row_is r e -> p r = p' e.

Lemma filter_rows p p' t :
  where_is p p' -> rows_ok t ->
  Forall2 row_is (List.filter p t) (List.filter p' (rows_entries t)).
Proof.
  intros Hp Hok. induction Hok as [|r t [e He] _ IH]; simpl; [constructor|].
  rewrite (row_is_entry _ _ He). simpl. rewrite (Hp _ _ He).
  destruct (p' e); [by constructor|done].
Qed.

Lemma update_rows p p' f f' t :
  where_is p p' -> (forall r e, row_is r e -> row_is (f r) (f' e)) -> rows_ok t ->
  Forall2 row_is (map (fun r => if p r then f r else r) t)
    (map (fun e => if p' e then f' e else e) (rows_entries t)).
Proof.
  intros Hp Hf Hok. induction Hok as [|r t [e He] _ IH]; simpl; [constructor|].
  rewrite (row_is_entry _ _ He). simpl. rewrite (Hp _ _ He).
  constructor; [|done]. destruct (p' e); auto.
Qed.

Lemma where_id_is id : where_is (where_id (uuid_to_string id)) (has_id id).
Proof.
  intros r e (Hid & _)%row_is_fields. unfold where_id, has_id. rewrite Hid.
  apply bool_decide_ext. split; [apply (inj uuid_to_string)|by intros ->].
Qed.

Lemma where_status_is st :
  where_is (where_status (status_to_str st)) (fun e => bool_decide (pe_status e = st)).
Proof.
  intros r e (_ & Hs & _)%row_is_fields. unfold where_status. rewrite Hs.
  apply bool_decide_ext. split; [apply (inj status_to_str)|by intros ->].
Qed.

Lemma where_unexpired_is now : where_is (where_unexpired now) (unexpired now).
Proof.
  intros r e (_ & _ & _ & _ & _ & _ & He)%row_is_fields.
  unfold where_unexpired, unexpired. by rewrite He.
Qed.

Lemma where_and p1 p2 p1' p2' :
  where_is p1 p1' -> where_is p2 p2' ->
  where_is (fun r => p1 r && p2 r) (fun e => p1' e && p2' e).
Proof. intros H1' H2' r e He. by rewrite (H1' _ _ He), (H2' _ _ He). Qed.

End Rows.

(** ** Statements *)

Section Statements.
Context `{UuidLaws, SerdeJsonLaws, SqliteScan}.

Implicit Types (w : World) (t : Table).

(** Only database calls happened. *)
Definition db_only w w' : Prop :=
  clock w' = clock w /\ uuids w' = uuids w /\ db_fault w' = db_fault w /\
  ticks w' = ticks w /\ issued w' = issued w /\ (db_calls w <= db_calls w')%nat.

Ltac world_solve :=
  unfold db_only, world_le in *; destruct_and?; simpl in *;
  split_and?; simpl; (congruence || lia).

Lemma db_only_trans w1 w2 w3 : db_only w1 w2 -> db_only w2 w3 -> db_only w1 w3.
Proof. intros. world_solve. Qed.

Lemma db_only_bump w w' : db_only (bump_db w) w' -> db_only w w'.
Proof. intros. world_solve. Qed.

Lemma db_only_le w w' : db_only w w' -> world_le w w'.
Proof. intros. world_solve. Qed.

Lemma read_then_db w w' :
  db_only (tick w) w' -> world_le w w' /\ read_during w w' (reading w (ticks w)).
Proof.
  intros Hdb. split; [world_solve|]. exists (ticks w). split; [|done]. world_solve.
Qed.

(** What a call may do: only database calls, and [Q] of the table and result. *)
Definition sql_post {A} (m : SM (World * Table) PendingStoreError A) t
    (Q : Table -> result A PendingStoreError -> Prop) : Prop :=
  forall w w' t' r, m (w, t) = ((w', t'), r) -> db_only w w' /\ Q t' r.

Lemma sql_call_bind {A} (k : unit -> SM (World * Table) PendingStoreError A) t Q :
  (forall m, Q t (Err m)) -> sql_post (k tt) t Q -> sql_post (sql_call ≫= k) t Q.
Proof.
  intros He Hk w w' t' r. unfold sql_call, on_world, db_call. sm_unfold. simpl.
  destruct (db_fault w (db_calls w)) as [e|]; intros Hrun; simplify_eq/=.
  - split; [world_solve|done].
  - apply Hk in Hrun as [Hdb HQ]. split; [by apply db_only_bump|done].
Qed.

Lemma sql_bind {A B} (m : SM (World * Table) PendingStoreError A)
    (k : A -> SM (World * Table) PendingStoreError B) t
    (P : Table -> result A PendingStoreError -> Prop) Q :
  sql_post m t P ->
  (forall t1 e, P t1 (Err e) -> Q t1 (Err e)) ->
  (forall t1 x, P t1 (Ok x) -> sql_post (k x) t1 Q) -> sql_post (m ≫= k) t Q.
Proof.
  intros Hm He Hk w w' t' r Hrun. sm_inv Hrun as x [w1 t1] Hm1 e ->.
  - apply Hm in Hm1 as [Hdb1 HP]. apply (Hk _ _ HP) in Hrun as [Hdb2 HQ].
    split; [by eapply db_only_trans|done].
  - apply Hm in Hm1 as [Hdb HP]. auto.
Qed.

Lemma sql_pure {A} (r : result A PendingStoreError) t (Q : _ -> _ -> Prop) :
  Q t r -> sql_post (sm_lift r) t Q.
Proof. intros HQ w w' t' r' [= <- <- <-]. split; [world_solve|done]. Qed.

Lemma sql_weaken {A} (m : SM (World * Table) PendingStoreError A) t (P Q : _ -> _ -> Prop) :
  sql_post m t P -> (forall t' r, P t' r -> Q t' r) -> sql_post m t Q.
Proof. intros Hm HPQ w w' t' r Hr. apply Hm in Hr as [? ?]. auto. Qed.

Lemma sql_get_bind {A} (k : World * Table -> SM (World * Table) PendingStoreError A) t Q :
  (forall w, sql_post (k (w, t)) t Q) -> sql_post (sm_get ≫= k) t Q.
Proof. intros Hk w w' t' r Hr. exact (Hk w w w' t' r Hr). Qed.

Lemma sql_query_row_post p t :
  sql_post (sql_query_row p) t (fun t' r => t' = t /\
    match r with Ok o => o = head (scan (List.filter p t)) | Err _ => True end).
Proof.
  unfold sql_query_row. apply sql_call_bind; [done|]. apply sql_get_bind. intros w.
  by apply (sql_pure (Ok _)).
Qed.

Lemma sql_update_post p f t :
  sql_post (sql_update p f) t (fun t' r =>
    match r with
    | Ok n => t' = map (fun r => if p r then f r else r) t /\ n = length (List.filter p t)
    | Err _ => t' = t
    end).
Proof.
  unfold sql_update. apply sql_call_bind; [done|].
  intros w w' t' r [= <- <- <-]. split; [world_solve|done].
Qed.

Lemma fetch_all_post rows t :
  rows_ok rows -> sql_post (fetch_all rows) t (fun t' r => t' = t /\
    match r with Ok es => es = rows_entries rows | Err _ => True end).
Proof.
  induction 1 as [|r rows [e He] Hok IH]; [by apply (sql_pure (Ok _))|].
  simpl fetch_all. apply sql_call_bind; [done|]. destruct He as [Hr Hid]. rewrite Hr.
  eapply sql_bind; [apply (sql_pure (Ok e) t (fun t' r => t' = t /\ r = Ok e)); done| |].
  { by intros t1 err [_ ?]. }
  intros t1 x [-> [= ->]]. eapply sql_bind; [exact IH| |].
  - by intros t1 err [-> _].
  - intros t1 es [-> ->]. apply (sql_pure (Ok _)). split; [done|].
    unfold rows_entries. simpl. unfold row_entry at 2. by rewrite Hr.
Qed.

(** *** Meaning for the queue *)

Lemma query_entries p p' t :
  where_is p p' -> rows_ok t ->
  match optional_execution (head (scan (List.filter p t))) with
  | Ok (Some e) => e ∈ rows_entries t /\ p' e = true
  | Ok None => forall e, e ∈ rows_entries t -> p' e = false
  | Err _ => False
  end.
Proof.
  intros Hp Hok. pose proof (filter_rows p p' t Hp Hok) as Hf.
  pose proof (scan_perm (List.filter p t)) as Hperm.
  destruct (scan (List.filter p t)) as [|r l]; simpl.
  - apply Permutation_nil_l in Hperm. rewrite <- Hperm in Hf.
    apply Forall2_nil_inv_l in Hf. intros e Hin. destruct (p' e) eqn:Hpe; [|done].
    assert (e ∈ List.filter p' (rows_entries t)) as Hc by (by apply filter_elem).
    rewrite Hf in Hc. by apply elem_of_nil in Hc.
  - assert (r ∈ t /\ p r = true) as [Hin Hpr].
    { apply filter_elem. rewrite <- Hperm. left. }
    unfold rows_ok in Hok. rewrite Forall_forall in Hok.
    destruct (Hok r Hin) as [e He]. destruct He as [Hr Hid] eqn:HE. rewrite Hr. simpl.
    split; [apply rows_entries_elem; [by apply Forall_forall|eauto]|].
    by rewrite <- (Hp _ _ He).
Qed.

(** An update that can only touch one id, on a queue with distinct ids. *)
Lemma map_if_unique (p' : PendingExecution -> bool) f' id q :
  ids_distinct q -> (forall e, p' e = true -> pe_id e = id) ->
  let q' := map (fun e => if p' e then f' e else e) q in
  (List.filter p' q = [] /\ q' = q) \/
  (length (List.filter p' q) = 1%nat /\ exists e', replaced (fun e => p' e = true) f' q q' e').
Proof.
  intros Hd Hid. simpl. induction q as [|e q IH]; simpl; [by left|].
  apply NoDup_cons in Hd as [Hnin Hd]. destruct (IH Hd) as [[Hf Hm]|[Hf (e' & Hr)]];
    destruct (p' e) eqn:Hpe.
  - right. rewrite Hf, Hm. split; [done|]. exists (f' e), 0%nat, e. done.
  - left. by rewrite Hf, Hm.
  - destruct Hr as (i & e0 & Hi & He0 & _). exfalso. apply Hnin.
    rewrite (Hid _ Hpe), <- (Hid _ He0). apply list_elem_of_fmap. exists e0.
    split; [done|]. by eapply list_elem_of_lookup_2.
  - right. split; [done|]. destruct Hr as (i & e0 & Hi & He0 & -> & Hq).
    exists (f' e0), (S i), e0. split_and!; [done..|]. simpl. by rewrite Hq.
Qed.

Lemma update_entries p p' f f' id t :
  where_is p p' -> (forall r e, row_is r e -> row_is (f r) (f' e)) ->
  (forall e, p' e = true -> pe_id e = id) -> rows_ok t -> ids_distinct (rows_entries t) ->
  let t' := map (fun r => if p r then f r else r) t in
  rows_ok t' /\
  ((length (List.filter p t) = 0%nat /\ rows_entries t' = rows_entries t /\
      forall e, e ∈ rows_entries t -> p' e = false) \/
   (length (List.filter p t) = 1%nat /\ exists e',
      replaced (fun e => p' e = true) f' (rows_entries t) (rows_entries t') e')).
Proof.
  intros Hp Hf Hid Hok Hd. simpl.
  pose proof (update_rows p p' f f' t Hp Hf Hok) as [Hok' ->]%Forall2_rows_entries.
  pose proof (Forall2_length _ _ _ (filter_rows p p' t Hp Hok)) as ->. split; [done|].
  destruct (map_if_unique p' f' id _ Hd Hid) as [[Hn Hm]|Hone]; [left|by right].
  rewrite Hn, Hm. split_and!; [done..|]. intros e Hin. destruct (p' e) eqn:Hpe; [|done].
  assert (e ∈ List.filter p' (rows_entries t)) as Hc by (by apply filter_elem).
  rewrite Hn in Hc. by apply elem_of_nil in Hc.
Qed.

(** *** Operations *)

Lemma replaced_in p f q q' e' : replaced p f q q' e' -> e' ∈ q'.
Proof.
  intros (i & e & Hi & _ & -> & ->). apply list_elem_of_lookup. exists i.
  apply list_lookup_insert_eq. by eapply lookup_lt_Some.
Qed.

Lemma sql_get_execution_post id t :
  rows_ok t -> sql_post (sql_get_execution id) t (fun t' r => t' = t /\
    match r with
    | Ok (Some e) => e ∈ rows_entries t /\ pe_id e = id
    | Ok None => forall e, e ∈ rows_entries t -> pe_id e <> id
    | Err _ => True
    end).
Proof.
  intros Hok. unfold sql_get_execution. apply sql_call_bind; [done|].
  eapply sql_bind; [apply sql_query_row_post|by intros t1 e [-> _]|].
  intros t1 o [-> ->]. apply sql_pure. split; [done|].
  pose proof (query_entries _ _ t (where_id_is id) Hok) as Hq.
  destruct (optional_execution _) as [[e|]|]; [..|done].
  - destruct Hq as [? Hid%bool_decide_eq_true]. done.
  - intros e Hin. by apply Hq, bool_decide_eq_false in Hin.
Qed.

(** An update by id, and reading the row back. *)
Definition update_post id f t t' (r : result (option PendingExecution) PendingStoreError)
  : Prop :=
  rows_ok t' /\
  let upd := replaced (fun e => pe_id e = id) f (rows_entries t) (rows_entries t') in
  match r with
  | Ok (Some e') => upd e'
  | Ok None => rows_entries t' = rows_entries t /\
      forall e, e ∈ rows_entries t -> pe_id e <> id
  | Err _ => rows_entries t' = rows_entries t \/ exists e', upd e'
  end.

Lemma update_by_id id f f' t n :
  (forall r e, row_is r e -> row_is (f r) (f' e)) -> rows_ok t ->
  ids_distinct (rows_entries t) -> n = length (List.filter (where_id (uuid_to_string id)) t) ->
  let t' := map (fun r => if where_id (uuid_to_string id) r then f r else r) t in
  (n = 0%nat /\ update_post id f' t t' (Ok None)) \/
  (n = 1%nat /\ exists e', update_post id f' t t' (Ok (Some e'))).
Proof.
  intros Hf Hok Hd ->. destruct (update_entries (where_id (uuid_to_string id)) (has_id id)
    f f' id t (where_id_is id) Hf) as [Hok' [(Hn & Heq & Hno)|(Hn & e' & Hr)]].
  { intros e. by apply bool_decide_eq_true. }
  { done. }
  { done. }
  - left. split; [done|]. split; [done|]. split; [done|].
    intros e Hin. by apply Hno, bool_decide_eq_false in Hin.
  - right. split; [done|]. exists e'. split; [done|].
    eapply replaced_impl; [|exact Hr]. intros e. by apply bool_decide_eq_true.
Qed.

(** Reading the updated row gives the updated entry. *)
Lemma reread_updated id f t t' e' e :
  (forall e, pe_id (f e) = pe_id e) -> ids_distinct (rows_entries t) ->
  update_post id f t t' (Ok (Some e')) -> e ∈ rows_entries t' -> pe_id e = id -> e = e'.
Proof.
  intros Hf Hd [_ Hr] Hin Hid. eapply ids_distinct_eq; [|exact Hin|by eapply replaced_in|].
  - unfold ids_distinct. by erewrite replaced_ids.
  - destruct Hr as (i & e0 & _ & He0 & -> & _). by rewrite Hf, He0.
Qed.

(** The common part of [update_status] and [record_rejection]. *)
Lemma update_reread_post id f f' (k : SM (World * Table) PendingStoreError _) t :
  (forall r e, row_is r e -> row_is (f r) (f' e)) -> (forall e, pe_id (f' e) = pe_id e) ->
  rows_ok t -> ids_distinct (rows_entries t) ->
  (forall t', rows_ok t' -> sql_post k t' (fun t2 r => t2 = t' /\
    match r with
    | Ok (Some e) => e ∈ rows_entries t' /\ pe_id e = id
    | Ok None => forall e, e ∈ rows_entries t' -> pe_id e <> id
    | Err _ => True
    end)) ->
  sql_post (rows_changed ← sql_update (where_id (uuid_to_string id)) f;
            if bool_decide (rows_changed = 0%nat) then mret None else k)
    t (update_post id f' t).
Proof.
  intros Hf Hfid Hok Hd Hk. eapply sql_bind; [apply sql_update_post| |].
  { intros t1 e ->. split; [done|by left]. }
  intros t1 n [-> Hn].
  destruct (update_by_id id f f' t n Hf Hok Hd Hn) as [(-> & Hnone)|(-> & e' & Hone)].
  { by apply (sql_pure (Ok None)). }
  rewrite bool_decide_false by done. eapply sql_weaken; [apply Hk, Hone|].
  intros t2 r [-> Hr]. destruct r as [[e|]|]; split; try apply Hone.
  - destruct Hr as [Hin Hid]. pose proof (reread_updated _ _ _ _ _ _ Hfid Hd Hone Hin Hid) as ->.
    apply Hone.
  - destruct Hone as [_ Hrep]. destruct (Hr e'); [by eapply replaced_in|].
    destruct Hrep as (i & e0 & _ & He0 & -> & _). by rewrite Hfid.
  - right. destruct Hone as [_ ?]. eauto.
Qed.

Lemma sql_update_status_post id st t :
  rows_ok t -> ids_distinct (rows_entries t) ->
  sql_post (sql_update_status id st) t (update_post id (with_status st) t).
Proof.
  intros Hok Hd. unfold sql_update_status.
  apply sql_call_bind; [intros m; split; [done|by left]|].
  apply update_reread_post; [apply set_row_status_is|done..|].
  intros t' Hok'. eapply sql_bind; [apply sql_query_row_post|by intros t1 e [-> _]|].
  intros t1 o [-> ->]. pose proof (query_entries _ _ t' (where_id_is id) Hok') as Hq.
  destruct (head _) as [raw|]; simpl in *.
  - apply (sql_pure (map_ok Some (row_to_execution raw))). split; [done|].
    destruct (row_to_execution raw) as [e|]; [|done]. simpl in *.
    destruct Hq as [? Hid%bool_decide_eq_true]. done.
  - by apply (sql_pure (Err _)).
Qed.

Lemma sql_record_rejection_post id reason t :
  rows_ok t -> ids_distinct (rows_entries t) ->
  sql_post (sql_record_rejection id reason) t (update_post id (with_rejection reason) t).
Proof.
  intros Hok Hd. unfold sql_record_rejection.
  apply sql_call_bind; [intros m; split; [done|by left]|].
  apply update_reread_post; [apply set_row_rejected_is|done..|].
  intros t' Hok'. by apply sql_get_execution_post.
Qed.

Definition matches_plan (plan : ExecutionPlan) (e : PendingExecution) : bool :=
  approval_matches_plan (pe_plan e) plan.

(** The guarded update takes an approved entry of the table. *)
Lemma sql_take_post e t :
  rows_ok t -> ids_distinct (rows_entries t) -> e ∈ rows_entries t -> pe_status e = Approved ->
  sql_post (sql_take (pe_id e)) t (fun t' r =>
    match r with
    | Ok n => n = 1%nat /\ rows_ok t' /\ replaced (eq e) (with_status Consumed)
        (rows_entries t) (rows_entries t') (with_status Consumed e)
    | Err _ => t' = t
    end).
Proof.
  intros Hok Hd Hin Hst. eapply sql_weaken; [apply sql_update_post|].
  intros t' [n|m]; [|done]. intros [-> ->].
  pose proof (where_and _ _ _ _ (where_id_is (pe_id e)) (where_status_is Approved)) as Hp.
  destruct (update_entries _ _ (set_row_status "consumed") (with_status Consumed) (pe_id e)
    t Hp) as [Hok' [(_ & _ & Hno)|(Hn & e' & Hr)]]; [apply (set_row_status_is Consumed)|
    |done|done|..].
  { intros e0 [Hid _]%andb_true_iff. by apply bool_decide_eq_true in Hid. }
  - specialize (Hno _ Hin). simpl in Hno. unfold has_id in Hno.
    by rewrite Hst, !bool_decide_true in Hno.
  - split; [done|]. split; [done|]. destruct Hr as (i & e0 & Hi & Hp0 & -> & Hq).
    apply andb_true_iff in Hp0 as [Hid%bool_decide_eq_true _].
    assert (e0 = e) as ->.
    { eapply ids_distinct_eq; [exact Hd|by eapply list_elem_of_lookup_2|done..]. }
    by exists i, e.
Qed.

Lemma take_first_post plan cands t :
  rows_ok t -> ids_distinct (rows_entries t) ->
  Forall (fun e => e ∈ rows_entries t /\ pe_status e = Approved) cands ->
  sql_post (take_first plan cands) t (fun t' r => rows_ok t' /\
    match r with
    | Ok (Some e') => exists e, List.find (matches_plan plan) cands = Some e /\
        replaced (eq e) (with_status Consumed) (rows_entries t) (rows_entries t') e'
    | Ok None => t' = t /\ forall e, e ∈ cands -> matches_plan plan e = false
    | Err _ => t' = t
    end).
Proof.
  intros Hok Hd. induction 1 as [|c cands [Hin Hst] _ IH]; simpl.
  { apply (sql_pure (Ok None)). split_and!; [done..|]. intros e He. by apply elem_of_nil in He. }
  unfold matches_plan at 1. destruct (approval_matches_plan (pe_plan c) plan) eqn:Hm; simpl.
  - eapply sql_bind; [by apply sql_take_post|by intros t1 e ->|].
    intros t1 n (-> & Hok1 & Hr). rewrite bool_decide_true by done.
    apply (sql_pure (Ok (Some _))). split; [done|]. eauto.
  - eapply sql_weaken; [exact IH|]. intros t' r [Hok' Hr]. split; [done|].
    destruct r as [[e'|]|]; [done| |done]. destruct Hr as [-> Hno].
    split; [done|]. intros e [->|He]%elem_of_cons; auto.
Qed.

Lemma where_candidate_is now plan :
  where_is (where_candidate now plan) (fun e =>
    bool_decide (pe_status e = Approved) && unexpired now e &&
    (bool_decide (plan_actor_id (pe_plan e) = plan_actor_id plan) &&
     bool_decide (plan_connection_id (pe_plan e) = plan_connection_id plan) &&
     bool_decide (plan_tool_id (pe_plan e) = plan_tool_id plan))).
Proof.
  intros r e He. unfold where_candidate.
  change "approved" with (status_to_str Approved).
  rewrite (where_status_is Approved _ _ He), (where_unexpired_is now _ _ He).
  apply row_is_fields in He as (_ & _ & -> & -> & -> & _).
  repeat case_bool_decide; simpl; by destruct (unexpired now e).
Qed.

#[local] Instance created_le_total : Total created_le.
Proof. intros r1 r2. unfold created_le. lia. Qed.
#[local] Instance created_le_trans : Transitive created_le.
Proof. intros r1 r2 r3. unfold created_le. lia. Qed.

(** The first match of candidates in creation order is the oldest. *)
Lemma find_sorted_oldest (p : PendingExecution -> bool) rows e :
  rows_ok rows -> StronglySorted created_le rows ->
  List.find p (rows_entries rows) = Some e ->
  forall e2, e2 ∈ rows_entries rows -> p e2 = true -> pe_created_at e <= pe_created_at e2.
Proof.
  intros Hok. induction Hok as [|r rows [e0 He] Hok IH]; simpl; [done|]. intros Hs.
  apply StronglySorted_cons in Hs as [Hall Hs].
  unfold rows_entries. simpl. rewrite (row_is_entry _ _ He). fold (rows_entries rows). simpl.
  destruct (p e0) eqn:Hp0.
  - intros [= <-] e2 [->|Hin]%elem_of_cons _; [done|].
    apply rows_entries_elem in Hin as (r2 & Hin & He2); [|done].
    rewrite Forall_forall in Hall. specialize (Hall r2 Hin). unfold created_le in Hall.
    apply row_is_fields in He as (_ & _ & _ & _ & _ & Hc & _).
    apply row_is_fields in He2 as (_ & _ & _ & _ & _ & Hc2 & _). lia.
  - intros Hf e2 [->|Hin]%elem_of_cons Hp2; [congruence|]. by apply IH.
Qed.

(** The candidate rows, in order. *)
Definition candidate_rows now plan t : list RawRow :=
  order_by_created (scan (List.filter (where_candidate now plan) t)).

Lemma candidate_rows_perm now plan t :
  candidate_rows now plan t ≡ₚ List.filter (where_candidate now plan) t.
Proof. unfold candidate_rows, order_by_created. by rewrite merge_sort_Permutation, scan_perm. Qed.

Lemma candidate_rows_sorted now plan t : StronglySorted created_le (candidate_rows now plan t).
Proof. apply (StronglySorted_merge_sort created_le). Qed.

Lemma filter_rows_ok p t : rows_ok t -> rows_ok (List.filter p t).
Proof.
  unfold rows_ok. rewrite !Forall_forall. intros Hok r [Hin _]%filter_elem. auto.
Qed.

Lemma candidate_rows_ok now plan t : rows_ok t -> rows_ok (candidate_rows now plan t).
Proof.
  intros Hok. eapply rows_ok_perm; [apply candidate_rows_perm|]. by apply filter_rows_ok.
Qed.

(** The candidates that match are the entries that authorize the plan. *)
Lemma candidates_authorize now plan t e :
  rows_ok t ->
  e ∈ rows_entries (candidate_rows now plan t) /\ matches_plan plan e = true <->
  e ∈ rows_entries t /\ authorizes now plan e = true.
Proof.
  intros Hok. rewrite (rows_entries_perm _ _ (candidate_rows_perm now plan t)).
  pose proof (filter_rows _ _ t (where_candidate_is now plan) Hok)
    as [_ ->]%Forall2_rows_entries.
  rewrite filter_elem. unfold authorizes, matches_plan, approval_matches_plan.
  rewrite !andb_true_iff. tauto.
Qed.

Lemma candidates_approved now plan t :
  rows_ok t ->
  Forall (fun e => e ∈ rows_entries t /\ pe_status e = Approved)
    (rows_entries (candidate_rows now plan t)).
Proof.
  intros Hok. apply Forall_forall. intros e.
  rewrite (rows_entries_perm _ _ (candidate_rows_perm now plan t)).
  pose proof (filter_rows _ _ t (where_candidate_is now plan) Hok)
    as [_ ->]%Forall2_rows_entries.
  rewrite filter_elem, !andb_true_iff, bool_decide_eq_true. tauto.
Qed.

(** What [consume_approved] does once the clock is read. *)
Definition consume_post now plan t t' (r : result (option PendingExecution) PendingStoreError)
  : Prop :=
  rows_ok t' /\
  match r with
  | Ok (Some e') =>
      replaced (fun e => authorizes now plan e = true /\
                  forall e2, e2 ∈ rows_entries t -> authorizes now plan e2 = true ->
                    pe_created_at e <= pe_created_at e2)
        (with_status Consumed) (rows_entries t) (rows_entries t') e'
  | Ok None => rows_entries t' = rows_entries t /\
      forall e, e ∈ rows_entries t -> authorizes now plan e = false
  | Err _ => rows_entries t' = rows_entries t
  end.

Lemma take_first_consume now plan t :
  rows_ok t -> ids_distinct (rows_entries t) ->
  sql_post (take_first plan (rows_entries (candidate_rows now plan t))) t
    (consume_post now plan t).
Proof.
  intros Hok Hd. pose proof (candidate_rows_ok now plan t Hok) as Hcok.
  eapply sql_weaken; [apply take_first_post; auto using candidates_approved|].
  intros t' r [Hok' Hr]. split; [done|]. destruct r as [[e'|]|]; [| |by rewrite Hr].
  - destruct Hr as (e & Hf & Hrep). eapply replaced_impl; [|exact Hrep]. intros ? <-.
    pose proof (find_Some_elem _ _ _ Hf) as [Hin Hm].
    split; [by apply (candidates_authorize now plan t e Hok)|]. intros e2 Hin2 Ha2.
    assert (e2 ∈ rows_entries (candidate_rows now plan t) /\ matches_plan plan e2 = true)
      as [Hc2 Hm2] by (by apply candidates_authorize).
    by eapply (find_sorted_oldest _ _ _ Hcok (candidate_rows_sorted now plan t) Hf).
  - destruct Hr as [-> Hno]. split; [done|]. intros e Hin.
    destruct (authorizes now plan e) eqn:Ha; [|done].
    assert (e ∈ rows_entries (candidate_rows now plan t) /\ matches_plan plan e = true)
      as [Hc Hm] by (by apply candidates_authorize).
    rewrite (Hno e Hc) in Hm. done.
Qed.

Lemma sql_purge_post now t :
  rows_ok t -> sql_post (sql_purge now) t (fun t' r => rows_ok t' /\
    match r with
    | Ok n => rows_entries t' = List.filter (survives_purge now) (rows_entries t) /\
        n = (length (rows_entries t) - length (rows_entries t'))%nat
    | Err _ => rows_entries t' = rows_entries t
    end).
Proof.
  intros Hok. unfold sql_purge, sql_delete. do 2 (apply sql_call_bind; [done|]).
  set (p := where_purged now). set (p' := fun e => negb (survives_purge now e)).
  assert (where_is p p') as Hp.
  { intros r e He. unfold p, where_purged, p', survives_purge.
    change "rejected" with (status_to_str Rejected).
    change "consumed" with (status_to_str Consumed).
    rewrite (where_status_is Rejected _ _ He), (where_status_is Consumed _ _ He).
    apply row_is_fields in He as (_ & _ & _ & _ & _ & _ & ->).
    destruct (pe_status e), (pe_expires_at e); by repeat case_bool_decide. }
  intros w w' t' r [= <- <- <-]. split; [world_solve|].
  assert (where_is (fun r => negb (p r)) (survives_purge now)) as Hp2.
  { intros r e He. rewrite (Hp _ _ He). unfold p'. apply negb_involutive. }
  pose proof (filter_rows _ _ t Hp2 Hok) as [Hok' He]%Forall2_rows_entries.
  split; [done|]. split; [exact He|]. rewrite He.
  rewrite (Forall2_length _ _ _ (filter_rows _ _ t Hp Hok)). unfold p'.
  pose proof (List.filter_length (survives_purge now) (rows_entries t)). lia.
Qed.

(** ** The laws *)

(** Reading the clock first, then only database calls. *)
Lemma now_then_sql {A} (k : Z -> SM (World * Table) PendingStoreError A) w t w' t' r Q :
  (forall now, sql_post (k now) t (Q now)) ->
  (now ← on_world now_epoch_ms; k now) (w, t) = ((w', t'), r) ->
  exists now, world_le w w' /\ read_during w w' now /\ Q now t' r.
Proof.
  intros Hk Hrun. apply (Hk (reading w (ticks w)) (tick w)) in Hrun as [Hdb HQ].
  apply read_then_db in Hdb as [??]. eauto.
Qed.

Lemma sql_insert_post row t :
  sql_post (sql_insert row) t (fun t' r =>
    match r with Ok _ => t' = t ++ [row] | Err _ => t' = t end).
Proof.
  unfold sql_insert. apply sql_call_bind; [done|]. apply sql_get_bind. intros w. simpl.
  destruct (existsb _ _); [by apply (sql_pure (Err _))|].
  intros w1 w' t' r [= <- <- <-]. split; [world_solve|done].
Qed.

Lemma rows_snoc t row e :
  rows_ok t -> row_is row e ->
  rows_ok (t ++ [row]) /\ rows_entries (t ++ [row]) = rows_entries t ++ [e].
Proof.
  intros Hok Hr. apply Forall2_rows_entries, Forall2_app; [by apply rows_entries_Forall2|].
  by constructor.
Qed.

Lemma sql_consume_run w t w' t' plan r :
  sql_consume_approved plan (w, t) = ((w', t'), r) -> rows_ok t ->
  ids_distinct (rows_entries t) ->
  exists now, world_le w w' /\ read_during w w' now /\ consume_post now plan t t' r.
Proof.
  intros Hrun Hok Hd. unfold sql_consume_approved in Hrun.
  eapply (now_then_sql _ _ _ _ _ _ (fun now => consume_post now plan t)) in Hrun;
    [exact Hrun|]. clear Hrun r. intros now.
  do 3 (apply sql_call_bind; [done|]). apply sql_get_bind. intros w0.
  eapply sql_bind; [by apply fetch_all_post, (candidate_rows_ok now plan t)| |].
  - by intros t1 m [-> _].
  - intros t1 es [-> ->]. by apply take_first_consume.
Qed.

#[export] Program Instance sqlite_store_laws : PendingStoreLaws (St := Table) := {
  entries t := rows_entries t;
  store_ok t := rows_ok t;
  plan_storable plan := json_stable (plan_payload plan);
}.
Next Obligation.
  intros w t w' t' plan exp r Hrun Hok Hst. simpl in Hrun. unfold sql_create_pending in Hrun.
  change (sql_create_pending plan exp (w, t)) with
    ((fun id => now ← on_world now_epoch_ms;
        _ ← sql_call; _ ← sql_insert (row_of id plan now exp);
        mret (mkPending id Pending plan now exp None)) (uuids w (issued w))
       (mkWorld _ (clock w) (ticks w) (uuids w) (S (issued w)) (db_fault w) (db_calls w), t))
    in Hrun.
  apply (now_then_sql _ _ _ _ _ _ (fun now t' r =>
    match r with
    | Ok e => e = fresh_pending (uuids w (issued w)) plan now exp /\
        t' = t ++ [row_of (uuids w (issued w)) plan now exp]
    | Err _ => t' = t
    end)) in Hrun as (now & Hw & Hrd & Hr).
  - assert (world_le w w' /\ (issued w < issued w')%nat /\ read_during w w' now)
      as (Hw' & Hi & Hrd').
    { split_and!; [world_solve|world_solve|exact Hrd]. }
    destruct r as [e|m]; [|by subst t'; split_and!].
    destruct Hr as [-> ->].
    destruct (rows_snoc t _ _ Hok (row_of_is (uuids w (issued w)) plan now exp Hst)) as [Hok' Heq].
    split_and!; [done..|]. exists now. split_and!; done.
  - intros now0. apply sql_call_bind; [done|].
    eapply sql_bind; [apply sql_insert_post|by intros t1 m ->|].
    intros t1 [] ->. by apply (sql_pure (Ok _)).
Qed.
Next Obligation.
  intros w t w' t' id r Hrun Hok.
  eapply (now_then_sql _ _ _ _ _ _ (fun now t' r => t' = t /\
    match r with
    | Ok (Some e) => e ∈ rows_entries t /\ pe_id e = id /\ is_live_pending now e = true
    | Ok None => forall e, e ∈ rows_entries t -> pe_id e = id -> is_live_pending now e = false
    | Err _ => True
    end)) in Hrun as (now & Hw & Hrd & -> & Hr).
  - split_and!; [done..|]. destruct r as [[e|]|]; [|eauto|done].
    destruct Hr as (? & ? & ?). eauto.
  - clear Hrun r. intros now. apply sql_call_bind; [done|].
    eapply sql_bind; [apply sql_query_row_post|by intros t1 m [-> _]|].
    intros t1 o [-> ->]. apply sql_pure. split; [done|].
    pose proof (query_entries _ _ t (where_and _ _ _ _ (where_and _ _ _ _ (where_id_is id)
      (where_status_is Pending)) (where_unexpired_is now)) Hok) as Hq.
    unfold is_live_pending.
    change (optional_execution _) with (optional_execution (head (scan (List.filter
      (fun r => where_id (uuid_to_string id) r && where_status (status_to_str Pending) r &&
                where_unexpired now r) t)))).
    destruct (optional_execution _) as [[e|]|]; [..|done].
    + destruct Hq as [Hin Hp]. rewrite !andb_true_iff in Hp. destruct Hp as [[Hid Hs] Hu].
      rewrite Hs, Hu. apply bool_decide_eq_true in Hid. done.
    + intros e Hin Hid. specialize (Hq e Hin). simpl in Hq. unfold has_id in Hq.
      by rewrite bool_decide_true in Hq.
Qed.
Next Obligation.
  intros w t w' t' id r Hrun Hok.
  apply (sql_get_execution_post id t Hok) in Hrun as [Hdb [-> Hr]].
  split_and!; [done|by apply db_only_le|done|done].
Qed.
Next Obligation.
  intros w t w' t' id st r Hrun Hok Hd.
  apply (sql_update_status_post id st t Hok Hd) in Hrun as [Hdb [Hok' Hr]].
  split_and!; [done|by apply db_only_le|done].
Qed.
Next Obligation.
  intros w t w' t' id reason r Hrun Hok Hd.
  apply (sql_record_rejection_post id reason t Hok Hd) in Hrun as [Hdb [Hok' Hr]].
  split_and!; [done|by apply db_only_le|done].
Qed.
Next Obligation.
  intros w t w' t' r Hrun Hok.
  eapply (now_then_sql _ _ _ _ _ _ (fun now t' r => t' = t /\
    match r with
    | Ok l => l ≡ₚ List.filter (is_live_pending now) (rows_entries t)
    | Err _ => True
    end)) in Hrun as (now & Hw & Hrd & -> & Hr).
  - split_and!; [done..|]. destruct r; eauto.
  - clear Hrun r. intros now. do 3 (apply sql_call_bind; [done|]). apply sql_get_bind. intros w0.
    pose proof (filter_rows _ _ t (where_and _ _ _ _ (where_status_is Pending)
      (where_unexpired_is now)) Hok) as [Hfok Hfe]%Forall2_rows_entries.
    eapply sql_weaken; [apply fetch_all_post|].
    + eapply rows_ok_perm; [apply scan_perm|exact Hfok].
    + intros t1 r [-> Hr]. split; [done|]. destruct r as [l|]; [|done]. rewrite Hr.
      rewrite (rows_entries_perm _ _ (scan_perm _)). exact (Permutation_refl' Hfe).
Qed.
Next Obligation.
  intros w t w' t' plan r Hrun Hok Hd.
  apply sql_consume_run in Hrun as (now & Hw & Hrd & Hok' & Hr); [|done..].
  split_and!; [done..|]. destruct r as [[e'|]|]; [eauto| |done].
  destruct Hr as [? ?]. eauto.
Qed.
Next Obligation.
  intros w t w' t' now r Hrun Hok.
  apply (sql_purge_post now t Hok) in Hrun as [Hdb [Hok' Hr]].
  split_and!; [done|by apply db_only_le|done].
Qed.

End Statements.

(** ** Without engine failures the store answers *)

Section Total.
Context `{UuidLaws, SerdeJsonLaws, SqliteScan}.

Definition no_faults (w : World) : Prop := forall n, db_fault w n = None.

(** Without faults, [m] on [t] succeeds. *)
Definition sql_total {A} (m : SM (World * Table) PendingStoreError A) (t : Table) : Prop :=
  forall w, no_faults w -> exists w' t' x, m (w, t) = ((w', t'), Ok x).

Lemma sql_call_total {A} (k : unit -> SM (World * Table) PendingStoreError A) t :
  sql_total (k tt) t -> sql_total (sql_call ≫= k) t.
Proof.
  intros Hk w Hw. destruct (Hk (bump_db w)) as (w' & t' & x & Hx); [done|].
  exists w', t', x. rewrite <- Hx. unfold sql_call, on_world, db_call. sm_unfold. simpl.
  by rewrite Hw.
Qed.

Lemma sql_bind_total {A B} (m : SM (World * Table) PendingStoreError A)
    (k : A -> SM (World * Table) PendingStoreError B) t P :
  sql_total m t -> sql_post m t P -> (forall t1 x, P t1 (Ok x) -> sql_total (k x) t1) ->
  sql_total (m ≫= k) t.
Proof.
  intros Hm HP Hk w Hw. destruct (Hm w Hw) as (w1 & t1 & x & Hx).
  destruct (HP _ _ _ _ Hx) as [(_ & _ & Hf & _) HPx].
  destruct (Hk t1 x HPx w1) as (w' & t' & y & Hy); [intros n; by rewrite Hf|].
  exists w', t', y. unfold mbind, sm_mbind, sm_bind. by rewrite Hx.
Qed.

Lemma sql_ret_total {A} (x : A) t :
  sql_total (mret x : SM (World * Table) PendingStoreError A) t.
Proof. intros w _. by exists w, t, x. Qed.

Lemma sql_get_total {A} (k : World * Table -> SM (World * Table) PendingStoreError A) t :
  (forall w, sql_total (k (w, t)) t) -> sql_total (sm_get ≫= k) t.
Proof. intros Hk w Hw. exact (Hk w w Hw). Qed.

Lemma fetch_all_total rows t : rows_ok rows -> sql_total (fetch_all rows) t.
Proof.
  induction 1 as [|r rows [e [Hr Hid]] Hok IH]; [apply sql_ret_total|].
  simpl fetch_all. apply sql_call_total. rewrite Hr.
  intros w Hw. destruct (IH w Hw) as (w' & t' & es & Hes).
  exists w', t', (e :: es). sm_unfold. unfold sql_post in *. by rewrite Hes.
Qed.

Lemma sql_update_total p f t : sql_total (sql_update p f) t.
Proof. apply sql_call_total. intros w _. by eexists _, _, _. Qed.

Lemma take_first_total plan cands t : sql_total (take_first plan cands) t.
Proof.
  revert t. induction cands as [|c cands IH]; intros t; simpl; [apply sql_ret_total|].
  destruct (negb _); [apply IH|].
  eapply sql_bind_total; [apply sql_update_total|apply sql_update_post|].
  intros t1 n _. case_bool_decide; [apply sql_ret_total|apply IH].
Qed.

(** On SQLite, when the engine does not fail, looking for an approval
    answers: it takes the oldest unexpired approval of the identical call and
    marks that row and no other as consumed, or finds that there is none and
    changes nothing - what the in-memory store does on the queue the table
    holds. *)
Theorem sqlite_consume_answers w t plan :
  no_faults w -> rows_ok t -> ids_distinct (rows_entries t) ->
  exists w' t' o now, sql_consume_approved plan (w, t) = ((w', t'), Ok o) /\
    read_during w w' now /\ consume_post now plan t t' (Ok o).
Proof.
  intros Hw Hok Hd. set (now := reading w (ticks w)).
  set (body := candidates ← fetch_all (candidate_rows now plan t); take_first plan candidates).
  assert (sql_total (sql_call ≫= fun _ => sql_call ≫= fun _ => sql_call ≫= fun _ => body) t)
    as Htot.
  { do 3 apply sql_call_total. eapply sql_bind_total; [|by apply fetch_all_post, candidate_rows_ok|].
    - by apply fetch_all_total, candidate_rows_ok.
    - intros t1 x _. apply take_first_total. }
  destruct (Htot (tick w) Hw) as (w' & t' & o & Hrun).
  assert (sql_consume_approved plan (w, t) = ((w', t'), Ok o)) as Hc.
  { rewrite <- Hrun. unfold sql_consume_approved, body, sql_call, on_world, db_call, candidate_rows.
    sm_unfold. simpl. by rewrite !Hw. }
  apply sql_consume_run in Hc as Hp; [|done..]. destruct Hp as (now' & _ & ? & ?).
  by exists w', t', o, now'.
Qed.

Lemma sql_get_execution_total id t : rows_ok t -> sql_total (sql_get_execution id) t.
Proof.
  intros Hok. apply sql_call_total.
  eapply sql_bind_total; [|apply sql_query_row_post|].
  - apply sql_call_total, sql_get_total. intros w. apply sql_ret_total.
  - intros t1 o [-> ->]. pose proof (query_entries _ _ t (where_id_is id) Hok) as Hq.
    destruct (optional_execution _) as [o|]; [|done]. apply (sql_ret_total o).
Qed.

Lemma new_id_not_there id t :
  rows_ok t -> id ∉ pe_id <$> rows_entries t ->
  existsb (where_id (uuid_to_string id)) t = false.
Proof.
  intros Hok Hid. apply not_true_iff_false. rewrite existsb_exists.
  intros (r & Hin%list_elem_of_In & Hp). apply Hid. unfold rows_ok in Hok.
  rewrite Forall_forall in Hok. destruct (Hok r Hin) as [e He].
  rewrite (where_id_is id r e He) in Hp. apply bool_decide_eq_true in Hp as <-.
  apply list_elem_of_fmap. exists e. split; [done|].
  apply rows_entries_elem; [by apply Forall_forall|eauto].
Qed.

(** On SQLite, when the engine does not fail, a request that is stored is
    read back unchanged: the row's text columns parse to the id, class,
    arguments and status that were written. *)
Theorem sqlite_request_reads_back w t plan exp :
  no_faults w -> rows_ok t -> json_stable (plan_payload plan) ->
  uuids w (issued w) ∉ pe_id <$> rows_entries t ->
  exists w1 t1 e w2, sql_create_pending plan exp (w, t) = ((w1, t1), Ok e) /\
    pe_plan e = plan /\ pe_expires_at e = exp /\ pe_status e = Pending /\
    sql_get_execution (pe_id e) (w1, t1) = ((w2, t1), Ok (Some e)).
Proof.
  intros Hw Hok Hst Hid. set (id := uuids w (issued w)). set (now := reading w (ticks w)).
  assert (exists w1, db_fault w1 = db_fault w /\ sql_create_pending plan exp (w, t) =
    ((w1, t ++ [row_of id plan now exp]), Ok (fresh_pending id plan now exp))) as (w1 & Hw1 & Hc).
  { eexists. split; [|unfold sql_create_pending, sql_insert, sql_call, on_world, db_call;
      sm_unfold; simpl; rewrite !Hw; simpl; by rewrite new_id_not_there]. done. }
  destruct (rows_snoc t _ _ Hok (row_of_is id plan now exp Hst)) as [Hok1 Heq].
  destruct (sql_get_execution_total id _ Hok1 w1) as (w2 & t2 & o & Hg).
  { intros n. by rewrite Hw1. }
  destruct (sql_get_execution_post id _ Hok1 _ _ _ _ Hg) as (_ & -> & Ho).
  rewrite Heq in Ho. exists w1, (t ++ [row_of id plan now exp]), (fresh_pending id plan now exp), w2.
  split_and!; [done..|]. simpl. destruct o as [e|].
  - destruct Ho as [[Hin| ->]%elem_of_snoc He]; [|done]. destruct Hid.
    apply list_elem_of_fmap. by exists e.
  - destruct (Ho (fresh_pending id plan now exp)); [|done]. apply elem_of_snoc. by right.
Qed.

End Total.

(** *** On a table with one approved row *)

Lemma drop_users_stable : json_stable (plan_payload drop_users).
Proof. vm_compute. reflexivity. Qed.

Lemma plain_world_no_faults : no_faults plain_world.
Proof. done. Qed.

Definition one_approved : Table :=
  [set_row_status "approved" (row_of "a" drop_users 1 (Some 9000000))].

Lemma one_approved_ok : rows_ok one_approved /\ ids_distinct (rows_entries one_approved).
Proof.
  split; [|vm_compute; apply NoDup_singleton].
  constructor; [|constructor]. eexists.
  apply (set_row_status_is Approved), row_of_is, drop_users_stable.
Qed.

Lemma sqlite_consume_answers_witness :
  exists w' t' o now,
    sql_consume_approved drop_users (plain_world, one_approved) = ((w', t'), Ok o) /\
    read_during plain_world w' now /\ consume_post now drop_users one_approved t' (Ok o).
Proof.
  exact (sqlite_consume_answers plain_world one_approved drop_users plain_world_no_faults
           (proj1 one_approved_ok) (proj2 one_approved_ok)).
Defined.

Lemma sqlite_request_reads_back_witness :
  exists w1 t1 e w2,
    sql_create_pending drop_users (Some 9) (plain_world, one_approved) = ((w1, t1), Ok e) /\
    pe_plan e = drop_users /\ pe_expires_at e = Some 9 /\ pe_status e = Pending /\
    sql_get_execution (pe_id e) (w1, t1) = ((w2, t1), Ok (Some e)).
Proof.
  apply (sqlite_request_reads_back plain_world one_approved drop_users (Some 9)
           plain_world_no_faults (proj1 one_approved_ok) drop_users_stable).
  replace (pe_id <$> rows_entries one_approved) with (["a"] : list Uuid)
    by (vm_compute; reflexivity).
  rewrite list_elem_of_singleton. discriminate.
Defined.
