(* ===== verification/PendingRace.v ===== *)
(** * Several processes on one table

    The MCP server and the application share the SQLite file.  Each statement is
    atomic, but another process may run between the read and the guarded
    [UPDATE] of [consume_approved].  This file interleaves any number of
    consumers with requests, approvals, rejections and purges by other
    processes, one statement at a time. *)

From S2P Require Import Prelude RustStr External Concrete Classification Approval ApprovalService ApprovalProps PendingSql PendingSqlLaws.

Section Race.
Context `{UuidLib, SerdeJson, SqliteScan}.

(** Where a call of [consume_approved] stands. *)
Inductive Consumer : Type :=
| Ready (plan : ExecutionPlan)
| Trying (plan : ExecutionPlan) (candidates : list PendingExecution)
| Done (taken : option PendingExecution).

Definition take_row (id : Uuid) (r : RawRow) : bool :=
  where_id (uuid_to_string id) r && where_status "approved" r.

(** The table after the guarded [UPDATE] for [id]. *)
Definition taken_table (id : Uuid) (t : Table) : Table :=
  map (fun r => if take_row id r then set_row_status "consumed" r else r) t.

(** One statement of one consumer. *)
Inductive consumer_step : Table -> Consumer -> Table -> Consumer -> Prop :=
| cs_read t plan now :
    consumer_step t (Ready plan) t (Trying plan (rows_entries (candidate_rows now plan t)))
| cs_skip t plan c rest :
    approval_matches_plan (pe_plan c) plan = false ->
    consumer_step t (Trying plan (c :: rest)) t (Trying plan rest)
| cs_take t plan c rest :
    approval_matches_plan (pe_plan c) plan = true ->
    length (List.filter (take_row (pe_id c)) t) = 1%nat ->
    consumer_step t (Trying plan (c :: rest)) (taken_table (pe_id c) t)
      (Done (Some (with_status Consumed c)))
| cs_lost t plan c rest :
    approval_matches_plan (pe_plan c) plan = true ->
    length (List.filter (take_row (pe_id c)) t) <> 1%nat ->
    consumer_step t (Trying plan (c :: rest)) (taken_table (pe_id c) t) (Trying plan rest)
| cs_none t plan : consumer_step t (Trying plan []) t (Done None).

(** What other processes do: queue a request under a new id, approve or reject
    an entry that is pending when the statement runs, purge.  The [UPDATE] of
    [update_status] has no guard of its own: the service checks the status in an
    earlier statement, and [stale_approval_can_be_consumed_again] shows what
    happens when the entry has moved on in between. *)
Inductive env_step (used : list string) : Table -> Table -> Prop :=
| env_request t row :
    r_id row ∉ used -> r_id row ∉ r_id <$> t -> env_step used t (t ++ [row])
| env_resolve t id st :
    st = "approved" \/ st = "rejected" ->
    env_step used t (map (fun r => if where_id id r && where_status "pending" r
                                   then set_row_status st r else r) t)
| env_purge t now : env_step used t (List.filter (fun r => negb (where_purged now r)) t).

(** The ids that were taken, one per successful consumer. *)
Definition taken_id (c : Consumer) : option string :=
  match c with Done (Some e) => Some (uuid_to_string (pe_id e)) | _ => None end.
Definition taken_ids (cs : list Consumer) : list string := omap taken_id cs.

Inductive race_step : Table * list Consumer -> Table * list Consumer -> Prop :=
| race_consumer t cs i c t' c' :
    cs !! i = Some c -> consumer_step t c t' c' -> race_step (t, cs) (t', <[i := c']> cs)
| race_env t cs t' : env_step (taken_ids cs) t t' -> race_step (t, cs) (t', cs).

(** ** A consumer that is not interrupted does what the store does *)

Lemma solo_take plan cands t w w' t' o :
  take_first plan cands (w, t) = ((w', t'), Ok o) ->
  rtc (fun a b => consumer_step a.1 a.2 b.1 b.2) (t, Trying plan cands) (t', Done o).
Proof.
  revert w t. induction cands as [|c cands IH]; intros w t; simpl.
  { intros [= <- <- <-]. apply rtc_once. constructor. }
  destruct (approval_matches_plan (pe_plan c) plan) eqn:Hm; simpl.
  2:{ intros Hrun. apply rtc_l with (t, Trying plan cands); [by apply cs_skip|]. by eapply IH. }
  unfold sql_take, sql_update, sql_call, on_world, db_call. sm_unfold. simpl.
  destruct (db_fault w (db_calls w)); [done|]. simpl. fold (take_row (pe_id c)).
  fold (taken_table (pe_id c) t). case_bool_decide as Hn.
  - intros [= <- <- <-]. apply rtc_once. by apply cs_take.
  - intros Hrun. apply rtc_l with (taken_table (pe_id c) t, Trying plan cands);
      [by apply cs_lost|]. by eapply IH.
Qed.

(** ** No approval is taken twice *)

(** Ids are a key of the table, a taken id has no row that can still be taken
    or approved, and no two consumers took the same id. *)
Definition race_inv (s : Table * list Consumer) : Prop :=
  NoDup (r_id <$> s.1) /\ NoDup (taken_ids s.2) /\
  forall r, r ∈ s.1 -> r_id r ∈ taken_ids s.2 ->
    r_status r = "consumed" \/ r_status r = "rejected".

Lemma taken_ids_keep cs i c c' :
  cs !! i = Some c -> taken_id c = None -> taken_id c' = None ->
  taken_ids (<[i := c']> cs) = taken_ids cs.
Proof.
  revert i. induction cs as [|x cs IH]; intros [|i]; simpl; try done.
  - intros [= ->] Hc Hc'. by rewrite Hc, Hc'.
  - intros Hi Hc Hc'. unfold taken_ids in *. simpl. by rewrite IH.
Qed.

Lemma taken_ids_grow cs i c c' id :
  cs !! i = Some c -> taken_id c = None -> taken_id c' = Some id ->
  taken_ids (<[i := c']> cs) ≡ₚ id :: taken_ids cs.
Proof.
  revert i. induction cs as [|x cs IH]; intros [|i]; simpl; try done.
  - intros [= ->] Hc Hc'. unfold taken_ids. simpl. by rewrite Hc, Hc'.
  - intros Hi Hc Hc'. specialize (IH i Hi Hc Hc'). unfold taken_ids in *. simpl.
    destruct (taken_id x); rewrite IH; [apply perm_swap|done].
Qed.

Lemma map_row_elem (p : RawRow -> bool) f t r :
  r ∈ map (fun r => if p r then f r else r) t ->
  exists r0, r0 ∈ t /\ ((p r0 = true /\ r = f r0) \/ (p r0 = false /\ r = r0)).
Proof.
  intros (r0 & -> & Hin)%list_elem_of_fmap. exists r0. split; [done|].
  destruct (p r0); auto.
Qed.

(** A guarded update keeps the rows of taken ids as they are. *)
Lemma taken_table_rows id t r :
  r ∈ taken_table id t -> exists r0, r0 ∈ t /\ r_id r = r_id r0 /\
    (r_status r = "consumed" \/
     (r = r0 /\ (r_id r = uuid_to_string id -> r_status r <> "approved"))).
Proof.
  intros (r0 & Hin & [[Hp ->]|[Hp ->]])%map_row_elem; exists r0; [by auto|].
  split_and!; [done..|]. right. split; [done|]. intros Hid Hs. unfold take_row in Hp.
  unfold where_id, where_status in Hp. by rewrite Hid, Hs, !bool_decide_true in Hp.
Qed.

Lemma map_row_ids (p : RawRow -> bool) f t :
  (forall r, r_id (f r) = r_id r) ->
  r_id <$> map (fun r => if p r then f r else r) t = r_id <$> t.
Proof.
  intros Hf. induction t as [|r t IH]; [done|]. cbn [map].
  rewrite !fmap_cons, IH. f_equal. by destruct (p r).
Qed.

Lemma key_unique t r1 r2 :
  NoDup (r_id <$> t) -> r1 ∈ t -> r2 ∈ t -> r_id r1 = r_id r2 -> r1 = r2.
Proof.
  intros Hd [i Hi]%list_elem_of_lookup [j Hj]%list_elem_of_lookup He.
  assert (i = j) as ->.
  { eapply (NoDup_lookup (r_id <$> t) i j (r_id r1)); [done|..];
      rewrite list_lookup_fmap; [by rewrite Hi|by rewrite Hj, He]. }
  naive_solver.
Qed.

Lemma taken_row_was_approved id t :
  length (List.filter (take_row id) t) = 1%nat ->
  exists r, r ∈ t /\ r_id r = uuid_to_string id /\ r_status r = "approved".
Proof.
  destruct (List.filter (take_row id) t) as [|r l] eqn:Hf; [done|]. intros _. exists r.
  assert (r ∈ t /\ take_row id r = true) as [Hr Hp].
  { apply filter_elem. rewrite Hf. left. }
  apply andb_true_iff in Hp as [Hid%bool_decide_eq_true Hs%bool_decide_eq_true]. done.
Qed.

Lemma consumer_step_inv t c t' c' cs i :
  cs !! i = Some c -> consumer_step t c t' c' -> race_inv (t, cs) ->
  race_inv (t', <[i := c']> cs).
Proof.
  intros Hi Hstep (Hkey & Hnd & Hrows). unfold race_inv. simpl in *.
  assert (forall id r, r ∈ taken_table id t -> r_id r ∈ taken_ids cs ->
    r_status r = "consumed" \/ r_status r = "rejected") as Hkeep.
  { intros id r (r0 & Hin & Hid & [Hs|[-> _]])%taken_table_rows Ht; auto. }
  assert (forall id, NoDup (r_id <$> taken_table id t)) as Hkey'.
  { intros id. unfold taken_table. by rewrite map_row_ids. }
  destruct Hstep as [t plan now|t plan c rest Hm|t plan c rest Hm Hone|t plan c rest Hm Hone|];
    try (rewrite (taken_ids_keep _ _ _ _ Hi) by done; eauto; done).
  pose proof (taken_ids_grow cs i _ (Done (Some (with_status Consumed c)))
    (uuid_to_string (pe_id c)) Hi eq_refl eq_refl) as Hg. rewrite Hg.
  destruct (taken_row_was_approved _ _ Hone) as (r1 & Hr1 & Hid1 & Hs1). split_and!; [done|..].
  - apply NoDup_cons. split; [|done]. intros Hin.
    rewrite <- Hid1 in Hin. destruct (Hrows r1 Hr1 Hin); congruence.
  - intros r Hr Hid. rewrite Hg in Hid. apply taken_table_rows in Hr as (r0 & Hin & Hid0 & [Hs|[-> Hna]]); [by left|].
    apply elem_of_cons in Hid as [Hid|Hid]; [|by apply Hrows].
    exfalso. apply (Hna Hid). rewrite <- Hs1. f_equal.
    eapply (key_unique t); [done..|congruence].
Qed.


Lemma env_step_inv t t' cs :
  env_step (taken_ids cs) t t' -> race_inv (t, cs) -> race_inv (t', cs).
Proof.
  intros Hstep (Hkey & Hnd & Hrows). unfold race_inv. simpl in *.
  destruct Hstep as [t row Hnew Hfree|t id st Hst|t now].
  - rewrite fmap_app. split_and!; [|done|].
    + apply NoDup_app. split_and!; [done| |by apply NoDup_singleton].
      intros x Hx Hin. apply list_elem_of_singleton in Hin as ->. done.
    + intros r [Hr| ->]%elem_of_snoc Hid; [auto|done].
  - rewrite map_row_ids by done. split_and!; [done..|].
    intros r (r0 & Hin & [[Hp ->]|[_ ->]])%map_row_elem Hid; [|auto].
    apply andb_true_iff in Hp as [_ Hp%bool_decide_eq_true].
    destruct (Hrows r0 Hin Hid); congruence.
  - split_and!; [|done|].
    + eapply sublist_NoDup; [exact Hkey|]. apply fmap_sublist. auto with dbflux.
    + intros r [Hr _]%filter_elem. auto.
Qed.

Lemma race_inv_steps s s' : rtc race_step s s' -> race_inv s -> race_inv s'.
Proof.
  induction 1 as [|s1 s2 s3 Hstep _ IH]; [done|]. intros Hinv. apply IH.
  destruct Hstep; [by eapply consumer_step_inv|by eapply env_step_inv].
Qed.

Definition all_ready (cs : list Consumer) : Prop :=
  Forall (fun c => exists plan, c = Ready plan) cs.

Lemma all_ready_none cs : all_ready cs -> taken_ids cs = [].
Proof. induction 1 as [|c cs [plan ->] _ IH]; [done|exact IH]. Qed.

(** C8: however the statements of any number of processes interleave - consumers
    racing for approvals, others requesting, purging, and approving or rejecting
    entries that are still pending when their statement runs - no approval is
    taken by two consumers, thanks to the status guard of the [UPDATE]. *)
Theorem racing_consumers_take_distinct_approvals t cs t' cs' :
  NoDup (r_id <$> t) -> all_ready cs -> rtc race_step (t, cs) (t', cs') ->
  NoDup (taken_ids cs').
Proof.
  intros Hkey Hready Hrun. apply race_inv_steps in Hrun as (_ & Hnd & _); [done|].
  unfold race_inv. simpl. rewrite (all_ready_none cs Hready).
  split_and!; [done|apply NoDup_nil_2|]. intros r _ Hc. by apply elem_of_nil in Hc.
Qed.

End Race.

(** ** A race *)

Definition approved_row : RawRow := set_row_status "approved" (row_of "a" drop_users 1 (Some 9)).

Definition race_candidates : list PendingExecution :=
  Eval vm_compute in rows_entries (candidate_rows 2 drop_users [approved_row]).

(** Two consumers read the same approval; the second finds it taken. *)
Lemma sample_race :
  rtc race_step ([approved_row], [Ready drop_users; Ready drop_users])
    ([set_row_status "consumed" approved_row],
     [Done (with_status Consumed <$> head race_candidates); Done None]).
Proof.
  eapply rtc_l; [eapply (race_consumer _ _ 0); [done|apply (cs_read _ _ 2)]|].
  eapply rtc_l; [eapply (race_consumer _ _ 1); [done|apply (cs_read _ _ 2)]|].
  replace (rows_entries _) with race_candidates by (vm_compute; reflexivity).
  eapply rtc_l; [eapply (race_consumer _ _ 0); [done|apply cs_take; vm_compute; reflexivity]|].
  eapply rtc_l; [eapply (race_consumer _ _ 1); [done|apply cs_lost; vm_compute; done]|].
  eapply rtc_l; [eapply (race_consumer _ _ 1); [done|apply cs_none]|].
  vm_compute. apply rtc_refl.
Qed.

Lemma racing_consumers_take_distinct_approvals_witness :
  NoDup (taken_ids [Done (with_status Consumed <$> head race_candidates); Done None]).
Proof.
  eapply (racing_consumers_take_distinct_approvals [approved_row]
            [Ready drop_users; Ready drop_users]).
  - apply NoDup_singleton.
  - repeat constructor; eauto.
  - exact sample_race.
Defined.

(** ** An approval that is not guarded

    [ApprovalService::approve] checks that the entry is pending and then runs
    [UPDATE ... SET status = 'approved' WHERE id = ?] without a guard on the
    status.  If two processes approve the same entry and it is consumed between
    the check and the update of the slower one, the update makes it approved
    again. *)

Section Stale.
Context `{UuidLib, SerdeJson, SqliteScan}.

(** The statements of two approvals of [id] and two calls of [plan], in an order
    in which the slower approval checks first and updates last. *)
Definition two_approvals (id : Uuid) (plan : ExecutionPlan)
  : SM (World * Table) PendingStoreError (list (option PendingExecution)) :=
  slow_check ← get_pending id;
  fast_check ← get_pending id;
  _ ← update_status id Approved;
  first_call ← consume_approved plan;
  _ ← update_status id Approved;
  second_call ← consume_approved plan;
  mret [slow_check; fast_check; first_call; second_call].

End Stale.

(** When two processes approve the same entry and the call it is for goes
    through between the check and the update of the slower one, the same
    approval can be consumed a second time: both checks see the pending entry,
    and both calls consume it. *)
Theorem stale_approval_can_be_consumed_again :
  let pending := fresh_pending "a" drop_users 1 (Some 9000000) in
  let consumed := with_status Consumed pending in
  (two_approvals "a" drop_users (plain_world, [row_of "a" drop_users 1 (Some 9000000)])).2 =
  Ok [Some pending; Some pending; Some consumed; Some consumed].
Proof. vm_compute. reflexivity. Qed.
