(* ===== verification/Events.v ===== *)
(** * Audit events (crates/dbflux_core: observability/types.rs, context.rs,
    actions.rs, source.rs)

    The event record every component emits, its enumerations with their stored
    text forms, the builder methods, the origin of an event and the context that
    stamps correlation and connection fields on it. *)

From S2P Require Import Prelude RustStr External.

(** ** Enumerations and their stored text *)

(** [match s { "a" => Some(A), ... }]: the first entry with that text. *)
Fixpoint str_match {A} (table : list (string * A)) (s : string) : option A :=
  match table with
  | [] => None
  | (k, x) :: table' => if bool_decide (s = k) then Some x else str_match table' s
  end.

Module EventSeverity.

Inductive t : Type :=
| Trace
| Debug
| Info
| Warn
| Error
| Fatal.

#[global] Instance eq_dec : EqDecision t.
Proof. solve_decision. Defined.

Definition as_str (x : t) : string :=
  match x with
  | Trace => "trace"
  | Debug => "debug"
  | Info => "info"
  | Warn => "warn"
  | Error => "error"
  | Fatal => "fatal"
  end.

Definition from_str_repr (s : string) : option t :=
  str_match [
    ("trace", Trace);
    ("debug", Debug);
    ("info", Info);
    ("warn", Warn);
    ("error", Error);
    ("fatal", Fatal)] s.

End EventSeverity.

Module EventCategory.

Inductive t : Type :=
| Config
| Connection
| Query
| Hook
| Script
| System
| Mcp
| Governance
| ObjectStorage
| SecretStore.

#[global] Instance eq_dec : EqDecision t.
Proof. solve_decision. Defined.

Definition as_str (x : t) : string :=
  match x with
  | Config => "config"
  | Connection => "connection"
  | Query => "query"
  | Hook => "hook"
  | Script => "script"
  | System => "system"
  | Mcp => "mcp"
  | Governance => "governance"
  | ObjectStorage => "object_storage"
  | SecretStore => "secret_store"
  end.

Definition from_str_repr (s : string) : option t :=
  str_match [
    ("config", Config);
    ("connection", Connection);
    ("query", Query);
    ("hook", Hook);
    ("script", Script);
    ("system", System);
    ("mcp", Mcp);
    ("governance", Governance);
    ("object_storage", ObjectStorage);
    ("secret_store", SecretStore)] s.

End EventCategory.

Module EventOutcome.

Inductive t : Type :=
| Success
| Failure
| Cancelled
| Pending.

#[global] Instance eq_dec : EqDecision t.
Proof. solve_decision. Defined.

Definition as_str (x : t) : string :=
  match x with
  | Success => "success"
  | Failure => "failure"
  | Cancelled => "cancelled"
  | Pending => "pending"
  end.

Definition from_str_repr (s : string) : option t :=
  str_match [
    ("success", Success);
    ("failure", Failure);
    ("cancelled", Cancelled);
    ("pending", Pending)] s.

End EventOutcome.

Module EventActorType.

Inductive t : Type :=
| User
| System
| App
| McpClient
| Hook
| Script
| ExternalDriver
| ExternalAuthProvider.

#[global] Instance eq_dec : EqDecision t.
Proof. solve_decision. Defined.

Definition as_str (x : t) : string :=
  match x with
  | User => "user"
  | System => "system"
  | App => "app"
  | McpClient => "mcp_client"
  | Hook => "hook"
  | Script => "script"
  | ExternalDriver => "external_driver"
  | ExternalAuthProvider => "external_auth_provider"
  end.

Definition from_str_repr (s : string) : option t :=
  str_match [
    ("user", User);
    ("system", System);
    ("app", App);
    ("mcp_client", McpClient);
    ("hook", Hook);
    ("script", Script);
    ("external_driver", ExternalDriver);
    ("external_auth_provider", ExternalAuthProvider)] s.

End EventActorType.

Module EventSourceId.

Inductive t : Type :=
| Local
| Mcp
| Hook
| Script
| System
| ExternalDriver
| ExternalAuthProvider.

#[global] Instance eq_dec : EqDecision t.
Proof. solve_decision. Defined.

Definition as_str (x : t) : string :=
  match x with
  | Local => "local"
  | Mcp => "mcp"
  | Hook => "hook"
  | Script => "script"
  | System => "system"
  | ExternalDriver => "external_driver"
  | ExternalAuthProvider => "external_auth_provider"
  end.

Definition from_str_repr (s : string) : option t :=
  str_match [
    ("local", Local);
    ("mcp", Mcp);
    ("hook", Hook);
    ("script", Script);
    ("system", System);
    ("external_driver", ExternalDriver);
    ("external_auth_provider", ExternalAuthProvider)] s.

End EventSourceId.

Module AuditQuerySource.

Inductive t : Type :=
| Internal
| CloudWatch
| Loki.

#[global] Instance eq_dec : EqDecision t.
Proof. solve_decision. Defined.

Definition as_str (x : t) : string :=
  match x with
  | Internal => "internal"
  | CloudWatch => "cloudwatch"
  | Loki => "loki"
  end.

Definition from_str_repr (s : string) : option t :=
  str_match [
    ("internal", Internal);
    ("cloudwatch", CloudWatch);
    ("loki", Loki)] s.

Definition is_available (x : t) : bool := match x with Internal => true | _ => false end.

End AuditQuerySource.

(** ** The event record *)

Record EventRecord := mkEvent {
  ev_id : option Z;
  ev_ts_ms : Z;
  ev_level : EventSeverity.t;
  ev_category : EventCategory.t;
  ev_action : string;
  ev_outcome : EventOutcome.t;
  ev_actor_type : EventActorType.t;
  ev_actor_id : option string;
  ev_source_id : EventSourceId.t;
  ev_connection_id : option string;
  ev_database_name : option string;
  ev_driver_id : option string;
  ev_object_type : option string;
  ev_object_id : option string;
  ev_summary : string;
  ev_details_json : option string;
  ev_error_code : option string;
  ev_error_message : option string;
  ev_duration_ms : option Z;
  ev_session_id : option string;
  ev_correlation_id : option string;
}.

(** [EventRecord::new]. *)
Definition event_new (ts_ms : Z) (level : EventSeverity.t) (category : EventCategory.t)
    (outcome : EventOutcome.t) : EventRecord :=
  mkEvent None ts_ms level category EmptyString outcome EventActorType.System None
    EventSourceId.System None None None None None EmptyString None None None None None None.

Definition with_action (action : string) (e : EventRecord) : EventRecord :=
  mkEvent (ev_id e) (ev_ts_ms e) (ev_level e) (ev_category e) (action) (ev_outcome e)
    (ev_actor_type e) (ev_actor_id e) (ev_source_id e) (ev_connection_id e)
    (ev_database_name e) (ev_driver_id e) (ev_object_type e) (ev_object_id e)
    (ev_summary e) (ev_details_json e) (ev_error_code e) (ev_error_message e)
    (ev_duration_ms e) (ev_session_id e) (ev_correlation_id e).

Definition with_summary (summary : string) (e : EventRecord) : EventRecord :=
  mkEvent (ev_id e) (ev_ts_ms e) (ev_level e) (ev_category e) (ev_action e) (ev_outcome e)
    (ev_actor_type e) (ev_actor_id e) (ev_source_id e) (ev_connection_id e)
    (ev_database_name e) (ev_driver_id e) (ev_object_type e) (ev_object_id e) (summary)
    (ev_details_json e) (ev_error_code e) (ev_error_message e) (ev_duration_ms e)
    (ev_session_id e) (ev_correlation_id e).

Definition with_actor_id (actor_id : string) (e : EventRecord) : EventRecord :=
  mkEvent (ev_id e) (ev_ts_ms e) (ev_level e) (ev_category e) (ev_action e) (ev_outcome e)
    (ev_actor_type e) (Some actor_id) (ev_source_id e) (ev_connection_id e)
    (ev_database_name e) (ev_driver_id e) (ev_object_type e) (ev_object_id e)
    (ev_summary e) (ev_details_json e) (ev_error_code e) (ev_error_message e)
    (ev_duration_ms e) (ev_session_id e) (ev_correlation_id e).

Definition with_connection_context (connection_id database_name driver_id : string) (e : EventRecord) : EventRecord :=
  mkEvent (ev_id e) (ev_ts_ms e) (ev_level e) (ev_category e) (ev_action e) (ev_outcome e)
    (ev_actor_type e) (ev_actor_id e) (ev_source_id e) (Some connection_id)
    (Some database_name) (Some driver_id) (ev_object_type e) (ev_object_id e)
    (ev_summary e) (ev_details_json e) (ev_error_code e) (ev_error_message e)
    (ev_duration_ms e) (ev_session_id e) (ev_correlation_id e).

Definition with_object_ref (object_type object_id : string) (e : EventRecord) : EventRecord :=
  mkEvent (ev_id e) (ev_ts_ms e) (ev_level e) (ev_category e) (ev_action e) (ev_outcome e)
    (ev_actor_type e) (ev_actor_id e) (ev_source_id e) (ev_connection_id e)
    (ev_database_name e) (ev_driver_id e) (Some object_type) (Some object_id)
    (ev_summary e) (ev_details_json e) (ev_error_code e) (ev_error_message e)
    (ev_duration_ms e) (ev_session_id e) (ev_correlation_id e).

Definition with_details_json (details : string) (e : EventRecord) : EventRecord :=
  mkEvent (ev_id e) (ev_ts_ms e) (ev_level e) (ev_category e) (ev_action e) (ev_outcome e)
    (ev_actor_type e) (ev_actor_id e) (ev_source_id e) (ev_connection_id e)
    (ev_database_name e) (ev_driver_id e) (ev_object_type e) (ev_object_id e)
    (ev_summary e) (Some details) (ev_error_code e) (ev_error_message e)
    (ev_duration_ms e) (ev_session_id e) (ev_correlation_id e).

Definition with_error (code message : string) (e : EventRecord) : EventRecord :=
  mkEvent (ev_id e) (ev_ts_ms e) (ev_level e) (ev_category e) (ev_action e) (ev_outcome e)
    (ev_actor_type e) (ev_actor_id e) (ev_source_id e) (ev_connection_id e)
    (ev_database_name e) (ev_driver_id e) (ev_object_type e) (ev_object_id e)
    (ev_summary e) (ev_details_json e) (Some code) (Some message) (ev_duration_ms e)
    (ev_session_id e) (ev_correlation_id e).

Definition with_duration_ms (duration_ms : Z) (e : EventRecord) : EventRecord :=
  mkEvent (ev_id e) (ev_ts_ms e) (ev_level e) (ev_category e) (ev_action e) (ev_outcome e)
    (ev_actor_type e) (ev_actor_id e) (ev_source_id e) (ev_connection_id e)
    (ev_database_name e) (ev_driver_id e) (ev_object_type e) (ev_object_id e)
    (ev_summary e) (ev_details_json e) (ev_error_code e) (ev_error_message e)
    (Some duration_ms) (ev_session_id e) (ev_correlation_id e).

Definition with_session_id (session_id : string) (e : EventRecord) : EventRecord :=
  mkEvent (ev_id e) (ev_ts_ms e) (ev_level e) (ev_category e) (ev_action e) (ev_outcome e)
    (ev_actor_type e) (ev_actor_id e) (ev_source_id e) (ev_connection_id e)
    (ev_database_name e) (ev_driver_id e) (ev_object_type e) (ev_object_id e)
    (ev_summary e) (ev_details_json e) (ev_error_code e) (ev_error_message e)
    (ev_duration_ms e) (Some session_id) (ev_correlation_id e).

Definition with_correlation_id (correlation_id : string) (e : EventRecord) : EventRecord :=
  mkEvent (ev_id e) (ev_ts_ms e) (ev_level e) (ev_category e) (ev_action e) (ev_outcome e)
    (ev_actor_type e) (ev_actor_id e) (ev_source_id e) (ev_connection_id e)
    (ev_database_name e) (ev_driver_id e) (ev_object_type e) (ev_object_id e)
    (ev_summary e) (ev_details_json e) (ev_error_code e) (ev_error_message e)
    (ev_duration_ms e) (ev_session_id e) (Some correlation_id).

(** [AuditAction]: a named constant. *)
Definition AuditAction : Type := string.

Definition MCP_AUTHORIZE : AuditAction := "mcp_authorize".
Definition MCP_APPROVE_EXECUTION : AuditAction := "mcp_approve_execution".
Definition MCP_REJECT_EXECUTION : AuditAction := "mcp_reject_execution".
Definition MCP_TOOL_EXECUTE : AuditAction := "mcp_tool_execute".
Definition MCP_TOOL_EXECUTE_FAILED : AuditAction := "mcp_tool_execute_failed".
Definition QUERY_EXECUTE : AuditAction := "query_execute".
Definition QUERY_EXECUTE_FAILED : AuditAction := "query_execute_failed".
Definition SCRIPT_EXECUTE : AuditAction := "script_execute".
Definition SCRIPT_EXECUTE_FAILED : AuditAction := "script_execute_failed".
Definition SYSTEM_PANIC : AuditAction := "system_panic".

Definition with_typed_action (action : AuditAction) (e : EventRecord) : EventRecord :=
  mkEvent (ev_id e) (ev_ts_ms e) (ev_level e) (ev_category e) (action) (ev_outcome e)
    (ev_actor_type e) (ev_actor_id e) (ev_source_id e) (ev_connection_id e)
    (ev_database_name e) (ev_driver_id e) (ev_object_type e) (ev_object_id e)
    (ev_summary e) (ev_details_json e) (ev_error_code e) (ev_error_message e)
    (ev_duration_ms e) (ev_session_id e) (ev_correlation_id e).

(** ** Origin and context *)

Record EventOrigin := mkOrigin {
  or_actor_type : EventActorType.t;
  or_source_id : EventSourceId.t;
}.

Definition origin_mcp : EventOrigin := mkOrigin EventActorType.McpClient EventSourceId.Mcp.
Definition origin_local : EventOrigin := mkOrigin EventActorType.User EventSourceId.Local.
Definition origin_hook : EventOrigin := mkOrigin EventActorType.Hook EventSourceId.Hook.
Definition origin_script : EventOrigin := mkOrigin EventActorType.Script EventSourceId.Script.
Definition origin_system : EventOrigin := mkOrigin EventActorType.System EventSourceId.System.
Definition origin_app : EventOrigin := mkOrigin EventActorType.App EventSourceId.System.

Definition with_origin (origin : EventOrigin) (e : EventRecord) : EventRecord :=
  mkEvent (ev_id e) (ev_ts_ms e) (ev_level e) (ev_category e) (ev_action e) (ev_outcome e)
    (or_actor_type origin) (ev_actor_id e) (or_source_id origin) (ev_connection_id e)
    (ev_database_name e) (ev_driver_id e) (ev_object_type e) (ev_object_id e)
    (ev_summary e) (ev_details_json e) (ev_error_code e) (ev_error_message e)
    (ev_duration_ms e) (ev_session_id e) (ev_correlation_id e).

Record AuditContext := mkContext {
  cx_origin : EventOrigin;
  cx_session_id : option string;
  cx_correlation_id : option string;
  cx_connection_id : option string;
  cx_database_name : option string;
  cx_driver_id : option string;
  cx_object_type : option string;
  cx_object_id : option string;
}.

(** [AuditContext::new]: the default origin is the system. *)
Definition context_new : AuditContext :=
  mkContext origin_system None None None None None None None.

Definition ctx_with_origin (origin : EventOrigin) (c : AuditContext) : AuditContext :=
  mkContext (origin) (cx_session_id c) (cx_correlation_id c) (cx_connection_id c)
    (cx_database_name c) (cx_driver_id c) (cx_object_type c) (cx_object_id c).

Definition ctx_with_session_id (session_id : string) (c : AuditContext) : AuditContext :=
  mkContext (cx_origin c) (Some session_id) (cx_correlation_id c) (cx_connection_id c)
    (cx_database_name c) (cx_driver_id c) (cx_object_type c) (cx_object_id c).

Definition ctx_with_correlation_id (correlation_id : string) (c : AuditContext) : AuditContext :=
  mkContext (cx_origin c) (cx_session_id c) (Some correlation_id) (cx_connection_id c)
    (cx_database_name c) (cx_driver_id c) (cx_object_type c) (cx_object_id c).

Definition ctx_with_connection (connection_id database_name driver_id : string) (c : AuditContext) : AuditContext :=
  mkContext (cx_origin c) (cx_session_id c) (cx_correlation_id c) (Some connection_id)
    (Some database_name) (Some driver_id) (cx_object_type c) (cx_object_id c).

Definition ctx_with_connection_id (connection_id : string) (c : AuditContext) : AuditContext :=
  mkContext (cx_origin c) (cx_session_id c) (cx_correlation_id c) (Some connection_id)
    (cx_database_name c) (cx_driver_id c) (cx_object_type c) (cx_object_id c).

Definition ctx_with_object (object_type object_id : string) (c : AuditContext) : AuditContext :=
  mkContext (cx_origin c) (cx_session_id c) (cx_correlation_id c) (cx_connection_id c)
    (cx_database_name c) (cx_driver_id c) (Some object_type) (Some object_id).

(** [if let Some(x) = new { field = Some(x) }]. *)
Definition or_keep {A} (new old : option A) : option A :=
  match new with Some x => Some x | None => old end.

(** [AuditContext::apply_to]. *)
Definition apply_to (c : AuditContext) (e : EventRecord) : EventRecord :=
  mkEvent (ev_id e) (ev_ts_ms e) (ev_level e) (ev_category e) (ev_action e) (ev_outcome e)
    (or_actor_type (cx_origin c)) (ev_actor_id e) (or_source_id (cx_origin c))
    (or_keep (cx_connection_id c) (ev_connection_id e))
    (or_keep (cx_database_name c) (ev_database_name e))
    (or_keep (cx_driver_id c) (ev_driver_id e))
    (or_keep (cx_object_type c) (ev_object_type e))
    (or_keep (cx_object_id c) (ev_object_id e)) (ev_summary e) (ev_details_json e)
    (ev_error_code e) (ev_error_message e) (ev_duration_ms e)
    (or_keep (cx_session_id c) (ev_session_id e))
    (or_keep (cx_correlation_id c) (ev_correlation_id e)).

(** [new_correlation_id]. *)
Definition new_correlation_id `{UuidLib} {E} : SM World E string :=
  id ← uuid_new_v4; mret (uuid_to_string id).

(** ** Errors of the event sink *)

Inductive EventSinkError : Type :=
| MissingRequiredField (field : string)
| SinkSerialization (msg : string)
| SinkStorage (msg : string)
| SinkInternal (msg : string).

Definition sink_error_display (e : EventSinkError) : string :=
  match e with
  | MissingRequiredField field => "missing required field: " +:+ field
  | SinkSerialization msg => "serialization error: " +:+ msg
  | SinkStorage msg => "storage error: " +:+ msg
  | SinkInternal msg => "internal error: " +:+ msg
  end.

(** ** Retention *)

Record EventRetentionPolicy := mkRetention {
  retention_days : Z;
  purge_on_startup : bool;
  purge_interval_secs : Z;
}.

Definition default_retention : EventRetentionPolicy := mkRetention 90 false 21600.

Definition retention_validate (p : EventRetentionPolicy) : result unit string :=
  if bool_decide (retention_days p = 0) then Err "retention_days must be at least 1"
  else if bool_decide (retention_days p > 3650) then
    Err "retention_days must not exceed 3650 (10 years)"
  else if bool_decide (purge_interval_secs p < 300) &&
          negb (bool_decide (purge_interval_secs p = 0)) then
    Err "purge_interval_secs must be at least 300 (5 minutes)"
  else Ok tt.

(** ** Facts *)

Lemma str_match_Some {A} (table : list (string * A)) s x :
  str_match table s = Some x -> (s, x) ∈ table.
Proof.
  induction table as [|[k y] table IH]; simpl; [done|].
  case_bool_decide; intros; simplify_eq; [left|right; auto].
Qed.

(** Every stored enumeration of an event is read back as it was written,
    and only the texts that are written are accepted. *)
Theorem event_enums_roundtrip :
  (forall x s, EventSeverity.from_str_repr s = Some x <-> s = EventSeverity.as_str x) /\
  (forall x s, EventCategory.from_str_repr s = Some x <-> s = EventCategory.as_str x) /\
  (forall x s, EventOutcome.from_str_repr s = Some x <-> s = EventOutcome.as_str x) /\
  (forall x s, EventActorType.from_str_repr s = Some x <-> s = EventActorType.as_str x) /\
  (forall x s, EventSourceId.from_str_repr s = Some x <-> s = EventSourceId.as_str x) /\
  (forall x s, AuditQuerySource.from_str_repr s = Some x <-> s = AuditQuerySource.as_str x).
Proof.
  split_and!; intros x s; (split; [|intros ->; by destruct x]);
    intros Hm%str_match_Some; destruct x;
    repeat (apply elem_of_cons in Hm as [Heq|Hm]; [by simplify_eq|]);
    by apply elem_of_nil in Hm.
Qed.
