(* ===== verification/Redaction.v ===== *)
(** * Redaction of audit events (crates/dbflux_audit: redaction.rs)

    Values under sensitive keys are replaced wherever they stand in the JSON
    details of an event; string values are searched for URL credentials and for
    the credential patterns. *)

From S2P Require Import Prelude RustStr External Concrete UriRedact.

Definition SENSITIVE_JSON_KEYS : list string :=
  ["password"; "passwd"; "secret"; "token"; "api_key"; "apikey"; "api_key_id"; "access_key";
   "access_key_id"; "secret_key"; "session_token"; "credentials"; "private_key"; "ssh_key";
   "authorization"; "auth_token"; "bearer"; "refresh_token"; "client_secret";
   "connection_string"; "connection_uri"; "database_url"; "url"; "uri"; "passphrase"].

Definition SENSITIVE_PATTERNS : list (string * string) :=
  [("aws_access_key", "(?i)AKIA[0-9A-Z]{16}");
   ("aws_secret_key", "(?i)[0-9a-f]{40}");
   ("api_key_hex", "(?i)['" +:+ dquote +:+ "][0-9a-f]{32,}['" +:+ dquote +:+ "]");
   ("jwt_token", "(?i)eyJ[0-9A-Za-z_-]+\.eyJ[0-9A-Za-z_-]+\.[0-9A-Za-z_-]+");
   ("base64_secret", "(?i)[A-Za-z0-9+/]{40,}={0,2}");
   ("hex_secret", "(?i)[0-9a-f]{32,}")].

Definition REDACTED : string := "[REDACTED]".

Record RedactionResult := mkRedaction {
  redacted : string;
  redaction_count : nat;
}.

Section Redaction.
Context `{SerdeJson, RegexLib, TextLib}.

Definition count_regex_matches (input pattern : string) : nat :=
  match regex_new pattern with Some re => regex_find_count re input | None => O end.

Definition regex_replace (input pattern replacement : string) : string :=
  match regex_new pattern with
  | Some re => regex_replace_all re input replacement
  | None => input
  end.

(** The loop over the patterns. *)
Fixpoint redact_patterns (patterns : list (string * string)) (result : string) (count : nat)
  : string * nat :=
  match patterns with
  | [] => (result, count)
  | (_, pattern) :: rest =>
      let matches := count_regex_matches result pattern in
      if bool_decide (0 < matches)%nat then
        redact_patterns rest (regex_replace result pattern REDACTED) (count + matches)
      else redact_patterns rest result count
  end.

Definition redact_sensitive_text (input : string) : string * nat :=
  let '(result, count) := redact_uri_credentials input REDACTED in
  redact_patterns SENSITIVE_PATTERNS result count.

(** [redact_string_values]: the text, the redactions in it, and the count that
    the callee already increased. *)
Definition redact_string_values (input : string) (count : nat) : string * nat * nat :=
  let '(result, n) := redact_sensitive_text input in (result, n, count + n)%nat.

Definition is_sensitive_key (key : string) : bool :=
  bool_decide (key ∈ SENSITIVE_JSON_KEYS) ||
  bool_decide (str_to_lowercase key ∈ SENSITIVE_JSON_KEYS).

Section Loops.
Context (redact_sensitive : bool) (recurse : Value -> nat -> Value * nat).

(** The loop over the entries of an object. *)
Fixpoint redact_entries (m new_map : list (string * Value)) (count : nat)
  : list (string * Value) * nat :=
  match m with
  | [] => (new_map, count)
  | (key, val) :: m' =>
      if is_sensitive_key key then
        redact_entries m' (map_insert key (VString REDACTED) new_map) (S count)
      else
        match val with
        | VString str_val =>
            if redact_sensitive then
              let '(redacted_str, n, count) := redact_string_values str_val count in
              redact_entries m' (map_insert key (VString redacted_str) new_map) (count + n)%nat
            else redact_entries m' (map_insert key val new_map) count
        | _ =>
            let '(val', count) := recurse val count in
            redact_entries m' (map_insert key val' new_map) count
        end
  end.

(** The map over the elements of an array. *)
Fixpoint redact_elements (arr : list Value) (count : nat) : list Value * nat :=
  match arr with
  | [] => ([], count)
  | v :: arr' =>
      let '(v', count) := recurse v count in
      let '(l, count) := redact_elements arr' count in
      (v' :: l, count)
  end.

End Loops.

Fixpoint redact_json_value (redact_sensitive : bool) (value : Value) (count : nat)
  : Value * nat :=
  match value with
  | VObject m =>
      let '(new_map, count) :=
        redact_entries redact_sensitive (redact_json_value redact_sensitive) m [] count in
      (VObject new_map, count)
  | VArray arr =>
      let '(l, count) := redact_elements (redact_json_value redact_sensitive) arr count in
      (VArray l, count)
  | _ => (value, count)
  end.

Definition redact_json (input : string) (redact_sensitive : bool) : RedactionResult :=
  if bool_decide (input = EmptyString) then mkRedaction input O
  else
    match json_from_str input with
    | Ok value =>
        let '(v, count) := redact_json_value redact_sensitive value O in
        mkRedaction (json_to_string v) count
    | Err _ =>
        if redact_sensitive then
          let '(result, n) := redact_sensitive_text input in mkRedaction result n
        else mkRedaction input O
    end.

Definition redact_error_message (input : string) (redact_sensitive : bool) : RedactionResult :=
  if bool_decide (input = EmptyString) then mkRedaction input O
  else if negb redact_sensitive then mkRedaction input O
  else let '(result, n) := redact_sensitive_text input in mkRedaction result n.

(** ** Sensitive keys are hidden *)

Definition is_redacted (v : Value) : bool :=
  match v with VString s => bool_decide (s = REDACTED) | _ => false end.

(** Every value under a sensitive key, at any depth, is the placeholder. *)
Fixpoint hides_sensitive_keys (v : Value) : bool :=
  match v with
  | VObject m =>
      forallb (fun kv => (negb (is_sensitive_key kv.1) || is_redacted kv.2) &&
                         hides_sensitive_keys kv.2) m
  | VArray l => forallb hides_sensitive_keys l
  | _ => true
  end.

Definition entry_hidden (kv : string * Value) : bool :=
  (negb (is_sensitive_key kv.1) || is_redacted kv.2) && hides_sensitive_keys kv.2.

Lemma hidden_insert k v m :
  entry_hidden (k, v) = true -> forallb entry_hidden m = true ->
  forallb entry_hidden (map_insert k v m) = true.
Proof.
  rewrite !forallb_forall. intros Hkv Hm x Hx%list_elem_of_In.
  apply map_insert_elem in Hx as [->|Hx%list_elem_of_In]; auto.
Qed.

Lemma redact_entries_hidden rs rec m new_map count :
  Forall (fun kv => forall c, hides_sensitive_keys (rec kv.2 c).1 = true) m ->
  forallb entry_hidden new_map = true ->
  forallb entry_hidden (redact_entries rs rec m new_map count).1 = true.
Proof.
  intros Hrec. revert new_map count.
  induction Hrec as [|[k v] m Hv _ IH]; intros new_map count Hnew; simpl; [done|].
  destruct (is_sensitive_key k) eqn:Hk.
  { apply IH, hidden_insert; [|done]. unfold entry_hidden. simpl.
    by rewrite Hk. }
  assert (forall x, hides_sensitive_keys x = true -> entry_hidden (k, x) = true) as Hx.
  { intros x Hx. unfold entry_hidden. simpl. by rewrite Hk, Hx. }
  simpl in Hv. destruct v as [| | |s| |]; try (
    specialize (Hv count); destruct (rec _ count) as [v' c]; apply IH, hidden_insert; auto).
  destruct rs; [|apply IH, hidden_insert; auto].
  destruct (redact_string_values s count) as [[r n] c]. apply IH, hidden_insert; auto.
Qed.

Lemma redact_elements_hidden rec arr count :
  Forall (fun v => forall c, hides_sensitive_keys (rec v c).1 = true) arr ->
  forallb hides_sensitive_keys (redact_elements rec arr count).1 = true.
Proof.
  intros Hrec. revert count. induction Hrec as [|v arr Hv _ IH]; intros count; simpl; [done|].
  specialize (Hv count). destruct (rec v count) as [v' c]. specialize (IH c).
  destruct (redact_elements rec arr c) as [l c']. simpl in *. by rewrite Hv, IH.
Qed.

Lemma redact_json_value_hidden rs v count :
  hides_sensitive_keys (redact_json_value rs v count).1 = true.
Proof.
  revert count. induction v as [| | | |l Hl|m Hm] using value_nested_ind; intros count; try done.
  - simpl. pose proof (redact_elements_hidden (redact_json_value rs) l count Hl) as Hh.
    by destruct (redact_elements _ _ _).
  - simpl. pose proof (redact_entries_hidden rs (redact_json_value rs) m [] count Hm eq_refl)
      as Hh. by destruct (redact_entries _ _ _ _ _).
Qed.

(** Whatever the pattern setting, redaction leaves no value under a
    sensitive key anywhere in the document: at every depth, in objects and in
    arrays, such a value is the placeholder. *)
Theorem redaction_hides_sensitive_keys rs v count :
  hides_sensitive_keys (redact_json_value rs v count).1 = true.
Proof. apply redact_json_value_hidden. Qed.

(** ** Nothing is changed without being counted *)

Lemma redact_patterns_count ps result count r c :
  redact_patterns ps result count = (r, c) ->
  (count <= c)%nat /\ (c = count -> r = result).
Proof.
  revert result count. induction ps as [|[nm p] ps IH]; intros result count; simpl.
  { by intros [= <- <-]. }
  case_bool_decide; intros Hr; apply IH in Hr as [Hle Heq]; [|done].
  split; [lia|]. intros ->. lia.
Qed.

Lemma redact_sensitive_text_zero s r : redact_sensitive_text s = (r, O) -> r = s.
Proof.
  unfold redact_sensitive_text. destruct (redact_uri_credentials s REDACTED) as [u n] eqn:Hu.
  intros Hp. apply redact_patterns_count in Hp as [Hle Heq]. assert (n = O) as -> by lia.
  rewrite (Heq eq_refl). by apply redact_uri_zero in Hu.
Qed.

(** [count] only grows, and stays only when the value stays. *)
Definition counts_changes (f : Value -> nat -> Value * nat) (v : Value) : Prop :=
  forall c, (c <= (f v c).2)%nat /\ ((f v c).2 = c -> (f v c).1 = v).

Lemma redact_entries_counts rs rec m new_map c :
  Forall (fun kv => counts_changes rec kv.2) m -> NoDup (new_map.*1 ++ m.*1) ->
  let '(out, c') := redact_entries rs rec m new_map c in
  (c <= c')%nat /\ (c' = c -> out = new_map ++ m).
Proof.
  intros Hrec. revert new_map c.
  induction Hrec as [|[k v] m Hv _ IH]; intros new_map c Hnd; simpl.
  { by rewrite app_nil_r. }
  assert (k ∉ new_map.*1) as Hk.
  { intros Hin. apply NoDup_app in Hnd as (_ & Hd & _). apply (Hd k Hin). left. }
  assert (forall x n, let '(out, c') := redact_entries rs rec m (map_insert k x new_map) n in
    (n <= c')%nat /\ (c' = n -> out = new_map ++ (k, x) :: m)) as Hstep.
  { intros x n. rewrite map_insert_new by done.
    assert (NoDup ((new_map ++ [(k, x)]).*1 ++ m.*1)) as Hnd'.
    { rewrite fmap_app. simpl. by rewrite <- (assoc_L (++)). }
    specialize (IH (new_map ++ [(k, x)]) n Hnd').
    destruct (redact_entries _ _ _ _ _). by rewrite <- (assoc_L (++)) in IH. }
  simpl in Hv. destruct (is_sensitive_key k).
  { specialize (Hstep (VString REDACTED) (S c)). destruct (redact_entries _ _ _ _ _).
    split; [lia|]. intros ->. lia. }
  destruct v as [| | |s| |]; try (
    specialize (Hv c); destruct (rec _ c) as [v' c1]; specialize (Hstep v' c1);
    destruct (redact_entries _ _ _ _ _); simpl in *; split; [lia|];
    intros ->; destruct Hv as [? Hv]; rewrite <- Hv by lia; apply Hstep; lia).
  destruct rs; [|apply Hstep]. unfold redact_string_values.
  destruct (redact_sensitive_text s) as [r n] eqn:Hs. specialize (Hstep (VString r) (c + n + n)%nat).
  destruct (redact_entries _ _ _ _ _). split; [lia|]. intros ->. assert (n = O) as -> by lia.
  apply redact_sensitive_text_zero in Hs as ->. apply Hstep. lia.
Qed.

Lemma redact_elements_counts rec arr c :
  Forall (counts_changes rec) arr ->
  let '(out, c') := redact_elements rec arr c in (c <= c')%nat /\ (c' = c -> out = arr).
Proof.
  intros Hrec. revert c. induction Hrec as [|v arr Hv _ IH]; intros c; simpl; [done|].
  specialize (Hv c). destruct (rec v c) as [v' c1]. specialize (IH c1).
  destruct (redact_elements rec arr c1) as [l c2]. simpl in *. split; [lia|].
  intros ->. f_equal; [apply Hv; lia|apply IH; lia].
Qed.

Lemma redact_json_value_counts rs v :
  json_wf v = true -> counts_changes (redact_json_value rs) v.
Proof.
  induction v as [| | | |l Hl|m Hm] using value_nested_ind; intros Hwf c; try (simpl; lia || done).
  - cbn [json_wf] in Hwf. rewrite forallb_forall in Hwf.
    pose proof (redact_elements_counts (redact_json_value rs) l c) as Hc. simpl.
    destruct (redact_elements _ _ _). simpl. destruct Hc as [? Hc].
    { apply Forall_forall. intros v Hv. rewrite Forall_forall in Hl. apply Hl; [done|].
      by apply Hwf, list_elem_of_In. }
    split; [done|]. intros ->. by rewrite Hc.
  - cbn [json_wf] in Hwf. apply andb_true_iff in Hwf as [Hnd%bool_decide_eq_true Hwf].
    rewrite forallb_forall in Hwf.
    pose proof (redact_entries_counts rs (redact_json_value rs) m [] c) as Hc. simpl.
    destruct (redact_entries _ _ _ _ _). simpl. destruct Hc as [? Hc]; [|done|].
    { apply Forall_forall. intros kv Hv. rewrite Forall_forall in Hm. apply Hm; [done|].
      by apply Hwf, list_elem_of_In. }
    split; [done|]. intros ->. by rewrite Hc.
Qed.

Lemma redact_error_message_zero s rs :
  redaction_count (redact_error_message s rs) = O -> redacted (redact_error_message s rs) = s.
Proof.
  unfold redact_error_message. case_bool_decide; [done|]. destruct rs; [|done]. simpl.
  destruct (redact_sensitive_text s) as [r n] eqn:Hs. simpl.
  intros ->. by apply redact_sensitive_text_zero in Hs.
Qed.

(** A count of zero means that nothing was redacted, in documents and in
    plain text; so an event is left as it is exactly when there was nothing to
    redact, which is what the audit service relies on. *)
Theorem redaction_count_zero_is_unchanged :
  (forall rs v, json_wf v = true -> (redact_json_value rs v O).2 = O ->
     (redact_json_value rs v O).1 = v) /\
  (forall s rs, redaction_count (redact_error_message s rs) = O ->
     redacted (redact_error_message s rs) = s).
Proof.
  split.
  - intros rs v Hwf. by apply redact_json_value_counts.
  - apply redact_error_message_zero.
Qed.

(** ** Two deviations *)

(** A redaction inside a string value is counted twice: once by
    [redact_string_values] and once more by its caller. *)
Theorem string_redactions_are_counted_twice key s count :
  is_sensitive_key key = false ->
  redact_json_value true (VObject [(key, VString s)]) count =
  (VObject [(key, VString (redact_sensitive_text s).1)],
   count + 2 * (redact_sensitive_text s).2)%nat.
Proof.
  intros Hk. simpl. rewrite Hk. unfold redact_string_values.
  destruct (redact_sensitive_text s) as [r n]. simpl. f_equal. lia.
Qed.

(** Strings that are elements of an array are not searched for credentials
    at all, although strings that are values of an object are. *)
Theorem array_strings_are_not_redacted rs (l : list string) count :
  redact_json_value rs (VArray (map VString l)) count = (VArray (map VString l), count).
Proof.
  simpl. assert (redact_elements (redact_json_value rs) (map VString l) count =
    (map VString l, count)) as ->; [|done].
  induction l as [|s l IH]; simpl; [done|]. by rewrite IH.
Qed.

End Redaction.

(** ** On concrete documents *)

Lemma redaction_count_zero_is_unchanged_witness :
  let v := VObject [("table", VString "users")] in
  json_wf v = true /\ (redact_json_value true v O).2 = O /\ (redact_json_value true v O).1 = v.
Proof.
  cbv zeta. split; [vm_compute; reflexivity|]. split; [vm_compute; reflexivity|].
  apply (proj1 redaction_count_zero_is_unchanged); vm_compute; reflexivity.
Defined.

Lemma string_redactions_are_counted_twice_witness :
  redact_json_value true (VObject [("text", VString "postgres://u:pw@host/db")]) O =
  (VObject [("text", VString (redact_sensitive_text "postgres://u:pw@host/db").1)],
   O + 2 * (redact_sensitive_text "postgres://u:pw@host/db").2)%nat.
Proof. apply (string_redactions_are_counted_twice "text"). vm_compute. reflexivity. Defined.
