(* ===== verification/AuditService.v ===== *)
(** * The audit service (crates/dbflux_audit: lib.rs, purge.rs, store/sqlite.rs;
    crates/dbflux_storage: repositories/audit.rs)

    [AuditService::record] normalizes the details of an event, checks the fields
    its category requires, replaces query text by a fingerprint, redacts, caps
    the size of the details and appends one row to the audit table.  Purging
    deletes old rows in batches. *)

From S2P Require Import Prelude RustStr External Events UriRedact Redaction.

(** ** Errors *)

Inductive AuditError : Type :=
| ASqlite (msg : string)
| ASerialization (msg : string)
| AIo (msg : string)
| AConfigDirUnavailable
| AEventSink (e : EventSinkError)
| ANotFound (msg : string)
| AValidation (msg : string).

(** The [Display] text of an error. *)
Definition audit_error_display (e : AuditError) : string :=
  match e with
  | ASqlite msg => "audit database error: " +:+ msg
  | ASerialization msg => "audit serialization error: " +:+ msg
  | AIo msg => "audit io error: " +:+ msg
  | AConfigDirUnavailable => "home config directory not found"
  | AEventSink e => "event sink error: " +:+ sink_error_display e
  | ANotFound msg => "entity not found: " +:+ msg
  | AValidation msg => "invalid parameter: " +:+ msg
  end.

(** [impl From<AuditError> for EventSinkError]. *)
Definition audit_error_to_sink (e : AuditError) : EventSinkError :=
  match e with
  | ASqlite _ => SinkStorage (audit_error_display e)
  | ASerialization _ => SinkSerialization (audit_error_display e)
  | AIo _ => SinkStorage (audit_error_display e)
  | AConfigDirUnavailable => SinkInternal (audit_error_display e)
  | AEventSink e => e
  | ANotFound _ => SinkStorage (audit_error_display e)
  | AValidation _ => SinkInternal (audit_error_display e)
  end.

(** ** The audit table *)

(** One row: the columns of [AppendAuditEventExtended]. *)
Record AppendAuditEventExtended := mkAppend {
  aa_actor_id : string;
  aa_tool_id : string;
  aa_decision : string;
  aa_reason : option string;
  aa_profile_id : option string;
  aa_classification : option string;
  aa_duration_ms : option Z;
  aa_created_at_epoch_ms : Z;
  aa_level : option string;
  aa_category : option string;
  aa_action : option string;
  aa_outcome : option string;
  aa_actor_type : option string;
  aa_source_id : option string;
  aa_summary : option string;
  aa_connection_id : option string;
  aa_database_name : option string;
  aa_driver_id : option string;
  aa_object_type : option string;
  aa_object_id : option string;
  aa_details_json : option string;
  aa_error_code : option string;
  aa_error_message : option string;
  aa_session_id : option string;
  aa_correlation_id : option string;
}.

(** The rows with their ids, and the last id given out (the key is
    [AUTOINCREMENT], so an id is never used again). *)
Record AuditTable := mkAuditTable {
  at_rows : list (Z * AppendAuditEventExtended);
  at_last_id : Z;
}.

Definition nonempty (s : option string) : option string :=
  match s with Some x => if bool_decide (x = EmptyString) then None else Some x | None => None end.

(** [AuditEventDto::project_legacy_tool_id]. *)
Definition project_legacy_tool_id (action tool_id : option string) : string :=
  match nonempty action with
  | Some a =>
      if bool_decide (a = "mcp_approve_execution") then "approve_execution"
      else if bool_decide (a = "mcp_reject_execution") then "reject_execution"
      else a
  | None => default EmptyString tool_id
  end.

(** [AuditEventDto::project_legacy_decision]. *)
Definition project_legacy_decision (action outcome decision : option string) : string :=
  let text_is o s := bool_decide (o = Some s) in
  let a := nonempty action in
  let o := nonempty outcome in
  if text_is a "mcp_approve_execution" && text_is o "success" then "allow"
  else if text_is a "mcp_reject_execution" && text_is o "failure" then "deny"
  else if text_is o "cancelled" then "failure"
  else if text_is o "pending" then "failure"
  else match o with Some o => o | None => default EmptyString decision end.

(** The row [SqliteAuditStore::record] writes for an event. *)
Definition extended_event (e : EventRecord) : AppendAuditEventExtended :=
  mkAppend (default "system" (ev_actor_id e))
    (project_legacy_tool_id (Some (ev_action e)) None)
    (project_legacy_decision (Some (ev_action e)) (Some (EventOutcome.as_str (ev_outcome e))) None)
    (if bool_decide (ev_action e = "mcp_reject_execution") then ev_error_message e else None)
    None None (ev_duration_ms e) (ev_ts_ms e)
    (Some (EventSeverity.as_str (ev_level e))) (Some (EventCategory.as_str (ev_category e)))
    (Some (ev_action e)) (Some (EventOutcome.as_str (ev_outcome e)))
    (Some (EventActorType.as_str (ev_actor_type e)))
    (Some (EventSourceId.as_str (ev_source_id e))) (Some (ev_summary e))
    (ev_connection_id e) (ev_database_name e) (ev_driver_id e) (ev_object_type e)
    (ev_object_id e) (ev_details_json e) (ev_error_code e) (ev_error_message e)
    (ev_session_id e) (ev_correlation_id e).

Definition set_event_id (id : Z) (e : EventRecord) : EventRecord :=
  mkEvent (Some id) (ev_ts_ms e) (ev_level e) (ev_category e) (ev_action e) (ev_outcome e)
     (ev_actor_type e) (ev_actor_id e) (ev_source_id e) (ev_connection_id e)
     (ev_database_name e) (ev_driver_id e) (ev_object_type e) (ev_object_id e)
     (ev_summary e) (ev_details_json e) (ev_error_code e) (ev_error_message e)
     (ev_duration_ms e) (ev_session_id e) (ev_correlation_id e).

Definition set_details (details : option string) (e : EventRecord) : EventRecord :=
  mkEvent (ev_id e) (ev_ts_ms e) (ev_level e) (ev_category e) (ev_action e) (ev_outcome e)
     (ev_actor_type e) (ev_actor_id e) (ev_source_id e) (ev_connection_id e)
     (ev_database_name e) (ev_driver_id e) (ev_object_type e) (ev_object_id e)
     (ev_summary e) (details) (ev_error_code e) (ev_error_message e) (ev_duration_ms e)
     (ev_session_id e) (ev_correlation_id e).

Definition set_error_message (msg : option string) (e : EventRecord) : EventRecord :=
  mkEvent (ev_id e) (ev_ts_ms e) (ev_level e) (ev_category e) (ev_action e) (ev_outcome e)
     (ev_actor_type e) (ev_actor_id e) (ev_source_id e) (ev_connection_id e)
     (ev_database_name e) (ev_driver_id e) (ev_object_type e) (ev_object_id e)
     (ev_summary e) (ev_details_json e) (ev_error_code e) (msg) (ev_duration_ms e)
     (ev_session_id e) (ev_correlation_id e).

Section Store.
Context `{UuidLib}.

(** [lock] or a statement of the engine. *)
Definition audit_call : SM (World * AuditTable) AuditError unit :=
  sm_map_err ASqlite (sm_zoom fst (fun w s => (w, s.2)) db_call).

(** [AuditRepository::append_extended]: the new row's id. *)
Definition append_extended (row : AppendAuditEventExtended)
  : SM (World * AuditTable) AuditError Z :=
  _ ← audit_call;
  _ ← audit_call;
  sm_state (fun s : World * AuditTable =>
    let id := at_last_id s.2 + 1 in
    ((s.1, mkAuditTable (at_rows s.2 ++ [(id, row)]) id), id)).

(** [SqliteAuditStore::record]. *)
Definition store_record (event : EventRecord) : SM (World * AuditTable) AuditError EventRecord :=
  id ← append_extended (extended_event event);
  mret (set_event_id id event).

(** [DELETE ... LIMIT]: delete the first [limit] rows that satisfy [p], and how
    many were deleted.  SQLite takes a negative limit for none at all. *)
Fixpoint delete_limit {A} (p : A -> bool) (limit : Z) (l : list A) : list A * nat :=
  match l with
  | [] => ([], O)
  | x :: l' =>
      if bool_decide (limit = 0) then (l, O)
      else if p x then let '(kept, n) := delete_limit p (limit - 1) l' in (kept, S n)
      else let '(kept, n) := delete_limit p limit l' in (x :: kept, n)
  end.

Definition older_than (cutoff_ms : Z) (r : Z * AppendAuditEventExtended) : bool :=
  bool_decide (aa_created_at_epoch_ms r.2 < cutoff_ms).

(** [delete_older_than]; the [usize] limit is bound as an [i64]. *)
Definition delete_older_than (cutoff_ms : Z) (limit : N) : SM (World * AuditTable) AuditError Z :=
  _ ← audit_call;
  _ ← audit_call;
  sm_state (fun s : World * AuditTable =>
    let '(kept, n) := delete_limit (older_than cutoff_ms) (i64_wrap (Z.of_N limit)) (at_rows s.2) in
    ((s.1, mkAuditTable kept (at_last_id s.2)), Z.of_nat n)).

End Store.

(** ** The service *)

Record AuditService := mkAuditService {
  as_table : AuditTable;
  redact_sensitive : bool;
  enabled : bool;
  capture_query_text : bool;
  max_detail_bytes : nat;
  bridge_min_level : option Z;
  bridge_drop_counter : option Z;
  external_audit_dropped : Z;
}.

Definition DEFAULT_MAX_DETAIL_BYTES : nat := Z.to_nat 65536.
Definition UNKNOWN_ACTOR_ID : string := "unknown".
Definition LOCAL_ACTOR_ID : string := "local".

Definition audit_service_new (store : AuditTable) : AuditService :=
  mkAuditService store true true false DEFAULT_MAX_DETAIL_BYTES None None 0.

Definition severity_to_level_code (level : EventSeverity.t) : Z :=
  match level with
  | EventSeverity.Trace => 0
  | EventSeverity.Debug => 1
  | EventSeverity.Info => 2
  | EventSeverity.Warn => 3
  | EventSeverity.Error | EventSeverity.Fatal => 4
  end.

(** *** Validation *)

Definition has_required_text (value : option string) : bool :=
  match value with Some text => negb (is_blank text) | None => false end.

Definition query_action_requires_duration (action : string) : bool :=
  bool_decide (action = "query_execute") || bool_decide (action = "query_execute_failed").

Definition missing (field : string) : AuditError := AEventSink (MissingRequiredField field).

(** [if !ok { return Err(MissingRequiredField(field)) }]. *)
Definition require (ok : bool) (field : string) : result unit AuditError :=
  if ok then Ok tt else Err (missing field).

Definition validate_event (event : EventRecord) : result unit AuditError :=
  let? _u := require (has_required_text (Some (ev_action event))) "action" in
  let? _u := require (has_required_text (Some (ev_summary event))) "summary" in
  match ev_category event with
  | EventCategory.Query =>
      let is_external :=
        match ev_actor_type event with
        | EventActorType.ExternalDriver | EventActorType.ExternalAuthProvider => true
        | _ => false
        end in
      let? _u := require (is_external || has_required_text (ev_connection_id event))
                   "connection_id" in
      let? _u := require (is_external || has_required_text (ev_driver_id event)) "driver_id" in
      require (negb (query_action_requires_duration (ev_action event)) ||
               match ev_duration_ms event with Some _ => true | None => false end) "duration_ms"
  | EventCategory.Connection =>
      let is_external_auth :=
        match ev_actor_type event with
        | EventActorType.ExternalAuthProvider => true
        | _ => false
        end in
      require (is_external_auth || has_required_text (ev_connection_id event)) "connection_id"
  | EventCategory.Hook =>
      let? _u := require (has_required_text (ev_object_type event)) "object_type" in
      let? _u := require (has_required_text (ev_object_id event)) "object_id" in
      require (has_required_text (ev_connection_id event)) "connection_id"
  | EventCategory.Script =>
      let? _u := require (has_required_text (ev_object_type event)) "object_type" in
      require (has_required_text (ev_object_id event)) "object_id"
  | EventCategory.Mcp =>
      let? _u := require (has_required_text (ev_actor_id event)) "actor_id" in
      require (has_required_text (ev_object_id event)) "object_id"
  | EventCategory.Config =>
      let? _u := require (has_required_text (ev_object_type event)) "object_type" in
      require (has_required_text (ev_object_id event)) "object_id"
  | EventCategory.ObjectStorage | EventCategory.SecretStore =>
      let? _u := require (has_required_text (ev_connection_id event)) "connection_id" in
      let? _u := require (has_required_text (ev_object_type event)) "object_type" in
      require (has_required_text (ev_object_id event)) "object_id"
  | EventCategory.Governance | EventCategory.System => Ok tt
  end.

Section Record_.
Context `{UuidLib, SerdeJson, RegexLib, TextLib}.

(** *** Details *)

Definition normalize_details_json (event : EventRecord) : result EventRecord AuditError :=
  match ev_details_json event with
  | None => Ok event
  | Some details =>
      let? value := map_err (fun err => AEventSink (SinkSerialization
                      ("details_json must be valid JSON: " +:+ err))) (json_from_str details) in
      match value with
      | VObject _ => Ok (set_details (Some (json_to_string value)) event)
      | _ => Err (AEventSink (SinkSerialization "details_json must be a JSON object"))
      end
  end.

Definition sha256_fingerprint (text : string) : string :=
  sha256_hex (str_to_lowercase (trim text)).

(** The two entries that replace the query text. *)
Definition fingerprint_query (query : string) (m : list (string * Value))
  : list (string * Value) :=
  let fingerprint := sha256_fingerprint query in
  map_insert "query_length" (VNumber (jnum_of_nat (str_len query)))
    (map_insert "query" (VString ("[FINGERPRINT:" +:+ String.substring 0 16 fingerprint +:+ "]"))
       m).

(** [apply_query_fingerprint_static]. *)
Definition apply_query_fingerprint (event : EventRecord) : EventRecord :=
  match ev_details_json event with
  | Some details =>
      match json_from_str details with
      | Ok (VObject m) =>
          match map_get "query" m with
          | Some (VString query) =>
              set_details (Some (json_to_string (VObject (fingerprint_query query m)))) event
          | _ => event
          end
      | _ => event
      end
  | None => event
  end.

Definition apply_redaction (event : EventRecord) : EventRecord :=
  let event :=
    match ev_details_json event with
    | Some details =>
        let result := redact_json details true in
        if bool_decide (0 < redaction_count result)%nat
        then set_details (Some (redacted result)) event else event
    | None => event
    end in
  match ev_error_message event with
  | Some error_msg =>
      let result := redact_error_message error_msg true in
      if bool_decide (0 < redaction_count result)%nat
      then set_error_message (Some (redacted result)) event else event
  | None => event
  end.

(** The indices at which a character starts. *)
Fixpoint char_starts (i : nat) (l : list ascii) : list nat :=
  match l with
  | [] => []
  | b :: l' => if is_continuation b then char_starts (S i) l' else i :: char_starts (S i) l'
  end.

(** The slice of one round: up to the last character that starts below the budget. *)
Definition slice_below (budget : nat) (l : list ascii) : list ascii :=
  take (default O (last (take_while (fun i => Nat.ltb i budget) (char_starts O l)))) l.

(** The loop of [build_truncated_envelope]; [None] stands for running out of
    rounds. *)
Fixpoint envelope_loop (fuel max_bytes budget : nat) (candidate : list ascii) : option string :=
  match fuel with
  | O => None
  | S fuel' =>
      let serialized :=
        json_to_string (truncated_envelope (of_bytes (slice_below budget candidate))) in
      if bool_decide (str_len serialized <= max_bytes)%nat then Some serialized
      else if bool_decide (budget = O) then Some MINIMAL_ENVELOPE
      else envelope_loop fuel' max_bytes
             (budget - ((str_len serialized - max_bytes) + 1))%nat candidate
  end.

(** [build_truncated_envelope]; every round lowers the budget, so one round
    more than the budget is enough. *)
Definition build_truncated_envelope (details : string) (max_bytes : nat)
  : result (option string) AuditError :=
  if bool_decide (max_bytes < str_len MINIMAL_ENVELOPE)%nat then Ok None
  else Ok (envelope_loop (S max_bytes) max_bytes max_bytes (bytes_of details)).

Definition enforce_max_detail_bytes (max : nat) (event : EventRecord)
  : result EventRecord AuditError :=
  match ev_details_json event with
  | None => Ok event
  | Some details =>
      if bool_decide (str_len details <= max)%nat then Ok event
      else
        let? envelope := build_truncated_envelope details max in
        Ok (set_details envelope event)
  end.

(** The actor of an event without one. *)
Definition default_actor (e : EventRecord) : EventRecord :=
  match ev_actor_id e with
  | Some _ => e
  | None =>
      let is_local_user :=
        bool_decide (ev_actor_type e = EventActorType.User) &&
        bool_decide (ev_source_id e = EventSourceId.Local) in
      with_actor_id (if is_local_user then LOCAL_ACTOR_ID else UNKNOWN_ACTOR_ID) e
  end.

Definition preprocess_event_for_storage (svc : AuditService) (event : EventRecord)
  : result EventRecord AuditError :=
  let event := default_actor event in
  let event := if negb (capture_query_text svc) then apply_query_fingerprint event else event in
  let event := if redact_sensitive svc then apply_redaction event else event in
  enforce_max_detail_bytes (max_detail_bytes svc) event.

#[local] Abbreviation AudM := (SM (World * AuditService) AuditError).

Definition set_table (t : AuditTable) (svc : AuditService) : AuditService :=
  mkAuditService t (redact_sensitive svc) (enabled svc) (capture_query_text svc)
    (max_detail_bytes svc) (bridge_min_level svc) (bridge_drop_counter svc)
    (external_audit_dropped svc).

Definition on_audit_store {A} (m : SM (World * AuditTable) AuditError A) : AudM A :=
  sm_zoom (fun s => (s.1, as_table s.2)) (fun t s => (t.1, set_table t.2 s.2)) m.

(** [AuditService::record]. *)
Definition record (event : EventRecord) : AudM EventRecord :=
  s ← sm_get;
  if negb (enabled (snd s)) then mret event
  else
    event ← sm_lift (normalize_details_json event);
    _ ← sm_lift (validate_event event);
    event ← sm_lift (preprocess_event_for_storage (snd s) event);
    on_audit_store (store_record event).

(** ** Purging *)

Definition calculate_cutoff_ms_at (now_ms retention_days : Z) : Z :=
  i64_wrap (Z.max 0 (Z.max 0 now_ms - 1000 * (60 * 60 * 24 * retention_days))).

Record PurgeStats := mkPurgeStats {
  deleted_count : Z;
  batches : nat;
}.

(** The loop of [purge_old_events]: it goes on while a batch was full, the
    [usize] batch size read as an [i64].  [None] stands for running out of rounds. *)
Fixpoint purge_loop (fuel : nat) (cutoff_ms : Z) (batch_size : N) (total : Z) (n : nat)
  : AudM (option PurgeStats) :=
  match fuel with
  | O => mret None
  | S fuel' =>
      deleted ← on_audit_store (delete_older_than cutoff_ms batch_size);
      let total := total + deleted in
      if bool_decide (deleted >= i64_wrap (Z.of_N batch_size))
      then purge_loop fuel' cutoff_ms batch_size total (S n)
      else mret (Some (mkPurgeStats total (S n)))
  end.

(** [purge_old_events]; a full batch of a positive size removes at least one row,
    so the number of rows bounds the rounds. *)
Definition purge_old_events (retention_days : Z) (batch_size : N)
  : AudM (option PurgeStats) :=
  now ← sm_zoom fst (fun w s => (w, s.2)) read_clock;
  s ← sm_get;
  purge_loop (S (length (at_rows (as_table (snd s))))) (calculate_cutoff_ms_at now retention_days)
    (N.max batch_size 1) 0 O.

End Record_.
