(* ===== verification/AuditProps.v ===== *)
(** * What the audit service guarantees

    One row per recorded event or none, the required fields of each category,
    the size bound of stored details, that query text and sensitive values do
    not reach the table, and that purging ends and removes exactly the old rows. *)

From S2P Require Import Prelude RustStr External Concrete Events UriRedact Redaction AuditService.

(** ** Required fields *)

(** The fields an event of each category must have, with whether it has them,
    in the order in which they are checked. *)
Definition required_fields (e : EventRecord) : list (string * bool) :=
  let text field value := (field, has_required_text value) in
  let external := bool_decide (ev_actor_type e = EventActorType.ExternalDriver) ||
                  bool_decide (ev_actor_type e = EventActorType.ExternalAuthProvider) in
  let external_auth := bool_decide (ev_actor_type e = EventActorType.ExternalAuthProvider) in
  let connection := text "connection_id" (ev_connection_id e) in
  let object_type := text "object_type" (ev_object_type e) in
  let object_id := text "object_id" (ev_object_id e) in
  [text "action" (Some (ev_action e)); text "summary" (Some (ev_summary e))] ++
  match ev_category e with
  | EventCategory.Query =>
      (if external then [] else [connection; text "driver_id" (ev_driver_id e)]) ++
      (if query_action_requires_duration (ev_action e)
       then [("duration_ms", match ev_duration_ms e with Some _ => true | None => false end)]
       else [])
  | EventCategory.Connection => if external_auth then [] else [connection]
  | EventCategory.Hook => [object_type; object_id; connection]
  | EventCategory.Script => [object_type; object_id]
  | EventCategory.Mcp => [text "actor_id" (ev_actor_id e); object_id]
  | EventCategory.Config => [object_type; object_id]
  | EventCategory.ObjectStorage | EventCategory.SecretStore =>
      [connection; object_type; object_id]
  | EventCategory.Governance | EventCategory.System => []
  end.

(** The first field of the list that is not there. *)
Definition first_missing (l : list (string * bool)) : result unit AuditError :=
  match List.find (fun fb => negb fb.2) l with
  | Some (field, _) => Err (missing field)
  | None => Ok tt
  end.

(** Validation is exactly the table of required fields: it accepts an event
    that has them all and otherwise names the first one that is missing. *)
Theorem validation_is_the_required_field_table e :
  validate_event e = first_missing (required_fields e).
Proof.
  unfold validate_event, required_fields, first_missing, require. simpl.
  destruct (negb (is_blank (ev_action e))); [|done]. simpl.
  destruct (negb (is_blank (ev_summary e))); [|done]. simpl.
  destruct (ev_category e); simpl; try done;
    repeat (match goal with |- context [has_required_text ?x] =>
              destruct (has_required_text x) end; simpl; try done);
    destruct (ev_actor_type e); simpl; try done;
    destruct (query_action_requires_duration _); simpl; try done;
    by destruct (ev_duration_ms e).
Qed.

(** ** The size of details *)

Section Details.
Context `{UuidLib, SerdeJsonLaws, RegexLib, TextLib}.

Lemma slice_below_zero l : slice_below 0 l = [].
Proof. unfold slice_below. by destruct (char_starts 0 l). Qed.

Lemma envelope_loop_fits fuel max budget l :
  (str_len MINIMAL_ENVELOPE <= max)%nat -> (budget < fuel)%nat ->
  exists n s, envelope_loop fuel max budget l = Some s /\ (str_len s <= max)%nat /\
    s = json_to_string (truncated_envelope (of_bytes (take n l))).
Proof.
  intros Hmax. revert budget. induction fuel as [|fuel IH]; intros budget Hb; [lia|].
  cbn [envelope_loop]. case_bool_decide as Hfit.
  { eexists _, _. split; [done|]. split; [done|]. unfold slice_below. reflexivity. }
  case_bool_decide as Hz.
  { destruct Hfit. rewrite Hz, slice_below_zero. unfold of_bytes. simpl.
    by rewrite json_envelope_text. }
  apply IH. lia.
Qed.

(** Cutting details down always ends with something that fits: below 33
    bytes nothing is kept, otherwise the result is an envelope of at most the
    allowed size around a prefix of the details. *)
Theorem truncated_details_fit details max :
  exists kept, build_truncated_envelope details max = Ok kept /\
    match kept with
    | None => (max < 33)%nat
    | Some s => (str_len s <= max)%nat /\ exists n,
        s = json_to_string (truncated_envelope (of_bytes (take n (bytes_of details))))
    end.
Proof.
  unfold build_truncated_envelope. change (str_len MINIMAL_ENVELOPE) with 33%nat.
  case_bool_decide as Hmax; [by exists None|].
  destruct (envelope_loop_fits (S max) max max (bytes_of details)) as (n & s & -> & Hs & He);
    [change (str_len MINIMAL_ENVELOPE) with 33%nat; lia|lia|]. exists (Some s). eauto.
Qed.

Lemma enforce_max_fits max e e' :
  enforce_max_detail_bytes max e = Ok e' ->
  (forall d, ev_details_json e' = Some d -> (str_len d <= max)%nat) /\
  (e' = e \/ exists d, e' = set_details d e).
Proof.
  unfold enforce_max_detail_bytes. destruct (ev_details_json e) as [d0|] eqn:Hd.
  2:{ intros [= <-]. split; [|by left]. intros d. by rewrite Hd. }
  case_bool_decide as Hle.
  { intros [= <-]. split; [|by left]. intros d. rewrite Hd. by intros [= <-]. }
  unfold build_truncated_envelope. case_bool_decide as Hmin.
  { intros [= <-]. split; [by intros d [=]|eauto]. }
  destruct (envelope_loop_fits (S max) max max (bytes_of d0)) as (n & s & -> & Hs & _); [lia..|].
  intros [= <-]. split; [|eauto]. by intros d [= <-].
Qed.

(** ** Secrets and query text *)

(** C36: with redaction on, the details that leave [apply_redaction] hide every
    value under a sensitive key: they are the text of a document that hides
    them, or they are the original text and that document hid them already. *)
Theorem stored_details_hide_sensitive_keys e d v :
  ev_details_json e = Some d -> d <> EmptyString -> json_from_str d = Ok v ->
  exists v', hides_sensitive_keys v' = true /\
    (ev_details_json (apply_redaction e) = Some (json_to_string v') \/
     ev_details_json (apply_redaction e) = Some d /\ v' = v).
Proof.
  intros Hd Hne Hv. pose proof (json_parse_wf _ _ Hv) as Hwf.
  pose proof (redact_json_value_hidden true v O) as Hh.
  pose proof (redact_json_value_counts true v Hwf O) as [_ Hz].
  assert (forall x, ev_details_json (match ev_error_message x with
    | Some m => if bool_decide (0 < redaction_count (redact_error_message m true))%nat
        then set_error_message (Some (redacted (redact_error_message m true))) x else x
    | None => x end) = ev_details_json x) as Herr.
  { intros x. destruct (ev_error_message x); [|done]. by case_bool_decide. }
  unfold apply_redaction. rewrite Hd. unfold redact_json. rewrite (bool_decide_false (d = EmptyString)), Hv by done.
  destruct (redact_json_value true v 0) as [v' n]. simpl in *. exists v'. split; [done|].
  rewrite Herr. case_bool_decide as Hn; [by left|right].
  split; [done|]. apply Hz. lia.
Qed.

Lemma map_get_insert_eq {A} k (x : A) m : map_get k (map_insert k x m) = Some x.
Proof.
  induction m as [|[k' y] m IH]; simpl.
  - by rewrite bool_decide_true.
  - case_bool_decide as Hk; simpl; [by rewrite bool_decide_true|].
    by rewrite bool_decide_false.
Qed.

Lemma map_get_insert_ne {A} k k' (x : A) m :
  k <> k' -> map_get k (map_insert k' x m) = map_get k m.
Proof.
  intros Hne. induction m as [|[k2 y] m IH]; simpl.
  - by rewrite bool_decide_false.
  - case_bool_decide as Hk; simpl.
    + subst. by rewrite !bool_decide_false.
    + by rewrite IH.
Qed.

(** Unless query text is captured, the details that are stored hold a
    fingerprint and the length in place of the query, and every other entry as it
    was. *)
Theorem query_text_is_fingerprinted e d m q :
  ev_details_json e = Some d -> json_from_str d = Ok (VObject m) ->
  map_get "query" m = Some (VString q) ->
  exists m', ev_details_json (apply_query_fingerprint e) = Some (json_to_string (VObject m')) /\
    map_get "query" m' = Some (VString
      ("[FINGERPRINT:" +:+ String.substring 0 16 (sha256_fingerprint q) +:+ "]")) /\
    map_get "query_length" m' = Some (VNumber (jnum_of_nat (str_len q))) /\
    forall k, k <> "query" -> k <> "query_length" -> map_get k m' = map_get k m.
Proof.
  intros Hd Hv Hq. exists (fingerprint_query q m). unfold apply_query_fingerprint.
  rewrite Hd, Hv, Hq. split; [done|]. unfold fingerprint_query. split_and!.
  - rewrite map_get_insert_ne by done. apply map_get_insert_eq.
  - apply map_get_insert_eq.
  - intros k H1' H2'. by rewrite !map_get_insert_ne.
Qed.

End Details.

(** ** One row per event *)

Section Rows.
Context `{UuidLib, SerdeJsonLaws, RegexLib, TextLib}.

Implicit Types (w : World) (svc : AuditService).

Definition rows (svc : AuditService) : list (Z * AppendAuditEventExtended) :=
  at_rows (as_table svc).

Lemma set_table_id svc : set_table (as_table svc) svc = svc.
Proof. by destruct svc. Qed.

Lemma audit_call_bind {A} (k : unit -> SM (World * AuditTable) AuditError A) w t s' r :
  (audit_call ≫= k) (w, t) = (s', r) ->
  k tt (bump_db w, t) = (s', r) \/ (s' = (bump_db w, t) /\ exists m, r = Err (ASqlite m)).
Proof.
  unfold audit_call, db_call. sm_unfold. simpl.
  destruct (db_fault w (db_calls w)); simpl; [|by left].
  intros [= <- <-]. right. eauto.
Qed.

Lemma store_record_inv e w t s' r :
  store_record e (w, t) = (s', r) ->
  match r with
  | Ok e' => e' = set_event_id (at_last_id t + 1) e /\
      s'.2 = mkAuditTable (at_rows t ++ [(at_last_id t + 1, extended_event e)]) (at_last_id t + 1)
  | Err _ => s'.2 = t
  end.
Proof.
  unfold store_record. intros Hr. sm_inv Hr as id s1 Ha err ->.
  - unfold append_extended in Ha.
    apply audit_call_bind in Ha as [Ha|[_ [? [=]]]].
    apply audit_call_bind in Ha as [Ha|[_ [? [=]]]].
    revert Ha. intros [= <- <-]. revert Hr. by intros [= <- <-].
  - unfold append_extended in Ha.
    apply audit_call_bind in Ha as [Ha|[-> _]]; [|done].
    by apply audit_call_bind in Ha as [[=]|[-> _]].
Qed.

(** What [record] stores for an event: nothing, or one row. *)
Definition stored_as svc (event : EventRecord) (svc' : AuditService) (stored : EventRecord) : Prop :=
  exists e1 e2 id, normalize_details_json event = Ok e1 /\ validate_event e1 = Ok tt /\
    preprocess_event_for_storage svc e1 = Ok e2 /\ id = at_last_id (as_table svc) + 1 /\
    stored = set_event_id id e2 /\
    svc' = set_table (mkAuditTable (rows svc ++ [(id, extended_event e2)]) id) svc.

Lemma record_cases event w svc w' svc' r :
  record event (w, svc) = ((w', svc'), r) ->
  match r with
  | Ok stored => if enabled svc then stored_as svc event svc' stored
                 else stored = event /\ svc' = svc
  | Err _ => enabled svc = true /\ svc' = svc
  end.
Proof.
  unfold record. intros Hr. sm_inv Hr as s s1 Hg err ?; [|done]. revert Hg. intros [= <- <-].
  cbn [snd] in Hr. destruct (enabled svc) eqn:Hen; cbn [negb] in Hr.
  2:{ revert Hr. by intros [= <- <- <-]. }
  destruct (normalize_details_json event) as [e1|err] eqn:Hn.
  2:{ revert Hr. by intros [= <- <- <-]. }
  sm_step Hr. destruct (validate_event e1) as [[]|err] eqn:Hv.
  2:{ revert Hr. by intros [= <- <- <-]. }
  sm_step Hr.
  destruct (preprocess_event_for_storage svc e1) as [e2|err] eqn:Hp.
  2:{ revert Hr. by intros [= <- <- <-]. }
  sm_step Hr. apply sm_zoom_inv in Hr as (t & Hs & Heq). simpl in *.
  apply store_record_inv in Hs. destruct t as [w1 t]. simplify_eq/=.
  destruct r as [stored|err].
  - destruct Hs as [-> ->]. by exists e1, e2, (at_last_id (as_table svc) + 1).
  - subst. rewrite set_table_id. done.
Qed.

(** Recording an event appends one row or changes nothing.  A disabled
    service returns the event as it is and stores nothing; an enabled one
    answers success exactly when the event - normalized, valid, fingerprinted,
    redacted and capped - was appended under the next id. *)
Theorem record_appends_one_row_or_none event w svc w' svc' r :
  record event (w, svc) = ((w', svc'), r) ->
  match r with
  | Ok stored => if enabled svc then stored_as svc event svc' stored
                 else stored = event /\ svc' = svc
  | Err _ => enabled svc = true /\ svc' = svc
  end.
Proof. apply record_cases. Qed.

Lemma default_actor_details e : ev_details_json (default_actor e) = ev_details_json e.
Proof. unfold default_actor. by destruct (ev_actor_id e). Qed.

(** C37: no row is written with details larger than the configured maximum. *)
Theorem stored_details_are_bounded event w svc w' svc' stored :
  record event (w, svc) = ((w', svc'), Ok stored) -> enabled svc = true ->
  exists id row, rows svc' = rows svc ++ [(id, row)] /\
    forall d, aa_details_json row = Some d -> (str_len d <= max_detail_bytes svc)%nat.
Proof.
  intros Hr Hen. apply record_cases in Hr. rewrite Hen in Hr.
  destruct Hr as (e1 & e2 & id & _ & _ & Hp & _ & _ & ->). exists id, (extended_event e2).
  split; [done|]. apply enforce_max_fits in Hp as [Hd _]. exact Hd.
Qed.

(** What an event keeps on its way to the table: everything but the details and
    the error message (the actor too, when it has one). *)
Definition bare (e : EventRecord) : EventRecord := set_error_message None (set_details None e).

Lemma apply_redaction_bare e : bare (apply_redaction e) = bare e.
Proof.
  unfold apply_redaction. destruct (ev_details_json e); [case_bool_decide|]; simpl;
    (destruct (ev_error_message e); [case_bool_decide|]); done.
Qed.

Lemma apply_query_fingerprint_bare e : bare (apply_query_fingerprint e) = bare e.
Proof.
  unfold apply_query_fingerprint. destruct (ev_details_json e); [|done].
  destruct (json_from_str _) as [[| | | | |m]|]; try done.
  by destruct (map_get "query" m) as [[]|].
Qed.

Lemma normalize_bare e e1 : normalize_details_json e = Ok e1 -> bare e1 = bare e.
Proof.
  unfold normalize_details_json. destruct (ev_details_json e); [|by intros [= <-]].
  destruct (json_from_str _) as [[| | | | |m]|]; simpl; try done. by intros [= <-].
Qed.

Lemma preprocess_bare svc e1 e2 a :
  preprocess_event_for_storage svc e1 = Ok e2 -> ev_actor_id e1 = Some a -> bare e2 = bare e1.
Proof.
  unfold preprocess_event_for_storage, default_actor. intros Hp Ha. rewrite Ha in Hp.
  apply enforce_max_fits in Hp as [_ He2].
  transitivity (bare (if redact_sensitive svc
    then apply_redaction (if negb (capture_query_text svc) then apply_query_fingerprint e1 else e1)
    else if negb (capture_query_text svc) then apply_query_fingerprint e1 else e1)).
  { by destruct He2 as [->|[d ->]]. }
  destruct (redact_sensitive svc); rewrite ?apply_redaction_bare;
    (destruct (negb _); [apply apply_query_fingerprint_bare|done]).
Qed.

(** The error text that is stored for an error. *)
Definition audited_text svc (msg : string) : string :=
  if redact_sensitive svc then redacted (redact_error_message msg true) else msg.

Lemma apply_redaction_error e :
  ev_error_message (apply_redaction e) =
  (fun msg => redacted (redact_error_message msg true)) <$> ev_error_message e.
Proof.
  unfold apply_redaction.
  assert (forall x, ev_error_message (match ev_error_message x with
    | Some m => if bool_decide (0 < redaction_count (redact_error_message m true))%nat
        then set_error_message (Some (redacted (redact_error_message m true))) x else x
    | None => x end) =
    (fun msg => redacted (redact_error_message msg true)) <$> ev_error_message x) as Herr.
  { intros x. destruct (ev_error_message x) as [m|] eqn:Hm; [|done].
    case_bool_decide as Hn; [done|]. rewrite Hm. simpl. f_equal. symmetry.
    apply redact_error_message_zero. lia. }
  rewrite Herr. f_equal. destruct (ev_details_json e); [by case_bool_decide|done].
Qed.

Lemma apply_query_fingerprint_error e :
  ev_error_message (apply_query_fingerprint e) = ev_error_message e.
Proof.
  unfold apply_query_fingerprint. destruct (ev_details_json e); [|done].
  destruct (json_from_str _) as [[| | | | |m]|]; try done.
  by destruct (map_get "query" m) as [[]|].
Qed.

Lemma normalize_error e e1 :
  normalize_details_json e = Ok e1 -> ev_error_message e1 = ev_error_message e.
Proof.
  unfold normalize_details_json. destruct (ev_details_json e); [|by intros [= <-]].
  destruct (json_from_str _) as [[| | | | |m]|]; simpl; try done. by intros [= <-].
Qed.

Lemma preprocess_error svc e1 e2 :
  preprocess_event_for_storage svc e1 = Ok e2 ->
  ev_error_message e2 = audited_text svc <$> ev_error_message e1.
Proof.
  unfold preprocess_event_for_storage. intros [_ He2]%enforce_max_fits.
  assert (ev_error_message (default_actor e1) = ev_error_message e1) as <-.
  { unfold default_actor. by destruct (ev_actor_id e1). }
  revert He2. generalize (default_actor e1). intros e3 He2.
  transitivity (ev_error_message (if redact_sensitive svc
    then apply_redaction (if negb (capture_query_text svc) then apply_query_fingerprint e3 else e3)
    else if negb (capture_query_text svc) then apply_query_fingerprint e3 else e3)).
  { by destruct He2 as [->|[d ->]]. }
  unfold audited_text. destruct (redact_sensitive svc); rewrite ?apply_redaction_error;
    destruct (negb _); rewrite ?apply_query_fingerprint_error; by destruct (ev_error_message e3).
Qed.

(** What is stored of an event with an actor agrees with the event. *)
Lemma stored_as_bare svc e svc' stored a :
  stored_as svc e svc' stored -> ev_actor_id e = Some a ->
  exists id e2, rows svc' = rows svc ++ [(id, extended_event e2)] /\ bare e2 = bare e /\
    ev_error_message e2 = audited_text svc <$> ev_error_message e.
Proof.
  intros (e1 & e2 & id & Hn & _ & Hp & _ & _ & ->) Ha. exists id, e2. split; [done|]. split.
  - apply normalize_bare in Hn. rewrite <- Hn. eapply preprocess_bare; [done|].
    rewrite <- Ha. by apply (f_equal ev_actor_id) in Hn.
  - rewrite (preprocess_error _ _ _ Hp). by rewrite (normalize_error _ _ Hn).
Qed.

(** The columns of a row that agree with the event it stores. *)
Lemma extended_bare e2 e :
  bare e2 = bare e -> let row := extended_event e2 in
  aa_action row = Some (ev_action e) /\ aa_created_at_epoch_ms row = ev_ts_ms e /\
  aa_actor_id row = default "system" (ev_actor_id e) /\ aa_object_id row = ev_object_id e /\
  aa_connection_id row = ev_connection_id e /\ aa_correlation_id row = ev_correlation_id e /\
  aa_error_code row = ev_error_code e /\
  aa_outcome row = Some (EventOutcome.as_str (ev_outcome e)).
Proof.
  destruct e, e2. unfold bare, set_error_message, set_details. simpl. intros Hb.
  by injection Hb as -> -> -> -> -> -> -> -> -> -> -> -> -> -> -> -> -> ->.
Qed.

Lemma enforce_max_total max e : exists e', enforce_max_detail_bytes max e = Ok e'.
Proof.
  unfold enforce_max_detail_bytes, build_truncated_envelope.
  destruct (ev_details_json e); [|eauto]. case_bool_decide; [eauto|]. case_bool_decide; eauto.
Qed.

(** An event that is valid and whose details are an object is stored when the
    engine does not fail. *)
Lemma record_succeeds e m w svc :
  ev_details_json e = Some (json_to_string (VObject m)) -> json_stable (VObject m) ->
  validate_event e = Ok tt -> (forall k, db_fault w k = None) ->
  exists s' stored, record e (w, svc) = (s', Ok stored).
Proof.
  intros Hd Hj Hv Hw. unfold record. sm_unfold. simpl.
  destruct (enabled svc); simpl; [|eauto].
  unfold normalize_details_json. rewrite Hd, Hj. simpl.
  assert (set_details (Some (json_to_string (VObject m))) e = e) as ->.
  { destruct e. unfold set_details. simpl in *. by rewrite Hd. }
  rewrite Hv. assert (exists e2, preprocess_event_for_storage svc e = Ok e2) as [e2 ->]
    by apply enforce_max_total.
  unfold on_audit_store, store_record, append_extended, audit_call, db_call. sm_unfold. simpl.
  rewrite !Hw. simpl. eauto.
Qed.

(** ** Purging *)

Lemma delete_limit_spec {A} (p : A -> bool) limit l kept n :
  delete_limit p limit l = (kept, n) ->
  (0 <= limit -> Z.of_nat n <= limit) /\ length l = (length kept + n)%nat /\
  length (List.filter p l) = (length (List.filter p kept) + n)%nat /\
  List.filter (fun x => negb (p x)) kept = List.filter (fun x => negb (p x)) l /\
  (limit < 0 \/ Z.of_nat n < limit -> List.filter p kept = []).
Proof.
  revert limit kept n. induction l as [|x l IH]; intros limit kept n; simpl.
  { intros [= <- <-]. split_and!; try done; simpl; lia. }
  case_bool_decide as Hl.
  { intros [= <- <-]. split_and!; try done; simpl; lia. }
  destruct (p x) eqn:Hp.
  - destruct (delete_limit p _ l) as [k m] eqn:Hd. intros [= <- <-].
    destruct (IH _ _ _ Hd) as (? & ? & ? & ? & Hall). simpl. split_and!; try lia; [done|].
    intros. apply Hall. lia.
  - destruct (delete_limit p limit l) as [k m] eqn:Hd. intros [= <- <-].
    destruct (IH _ _ _ Hd) as (? & ? & ? & Hf & Hall). simpl. rewrite Hp. simpl.
    split_and!; try lia; [by rewrite Hf|done].
Qed.

(** Older than the cutoff, by the time the row was created. *)
Definition is_old (cutoff : Z) (r : Z * AppendAuditEventExtended) : bool :=
  aa_created_at_epoch_ms r.2 <? cutoff.
Definition kept_rows (cutoff : Z) svc : list (Z * AppendAuditEventExtended) :=
  List.filter (fun r => negb (is_old cutoff r)) (rows svc).
Definition old_rows (cutoff : Z) svc : list (Z * AppendAuditEventExtended) :=
  List.filter (is_old cutoff) (rows svc).

Lemma older_than_is_old cutoff r : older_than cutoff r = is_old cutoff r.
Proof. unfold older_than, is_old. case_bool_decide; symmetry; lia. Qed.

Lemma filter_none_keeps {A} (p : A -> bool) l :
  List.filter p l = [] -> List.filter (fun x => negb (p x)) l = l.
Proof.
  induction l as [|x l IH]; simpl; [done|]. destruct (p x); [done|].
  simpl. intros H'. by rewrite IH.
Qed.

Lemma delete_limit_ext {A} (p q : A -> bool) limit l :
  (forall x, p x = q x) -> delete_limit p limit l = delete_limit q limit l.
Proof.
  intros Hpq. revert limit. induction l as [|x l IH]; intros limit; simpl; [done|].
  by rewrite Hpq, !IH.
Qed.

(** One batch on an engine that does not fail. *)
Lemma delete_batch cutoff limit w svc :
  (forall k, db_fault w k = None) ->
  exists kept m,
    delete_limit (is_old cutoff) (i64_wrap (Z.of_N limit)) (rows svc) = (kept, m) /\
    on_audit_store (delete_older_than cutoff limit) (w, svc) =
      ((bump_db (bump_db w), set_table (mkAuditTable kept (at_last_id (as_table svc))) svc),
       Ok (Z.of_nat m)).
Proof.
  intros Hw. destruct (delete_limit (is_old cutoff) _ (rows svc)) as [kept m] eqn:Hd.
  exists kept, m. split; [done|]. unfold on_audit_store, delete_older_than, audit_call, db_call.
  sm_unfold. simpl. rewrite !Hw. simpl. unfold rows in Hd.
  by rewrite (delete_limit_ext _ _ _ _ (older_than_is_old cutoff)), Hd.
Qed.

Lemma purge_loop_spec fuel cutoff bs total n w svc :
  (forall k, db_fault w k = None) -> 0 < i64_wrap (Z.of_N bs) -> (length (rows svc) < fuel)%nat ->
  exists w' svc' b, purge_loop fuel cutoff bs total n (w, svc) =
    ((w', svc'), Ok (Some (mkPurgeStats
      (total + Z.of_nat (length (old_rows cutoff svc))) b))) /\
    rows svc' = kept_rows cutoff svc.
Proof.
  intros Hw Hbs. revert w Hw svc total n.
  induction fuel as [|fuel IH]; intros w Hw svc total n Hf; [lia|]. cbn [purge_loop].
  destruct (delete_batch cutoff bs w svc Hw) as (kept & m & Hd & Hrun).
  rewrite (sm_bind_ok _ _ _ _ _ Hrun).
  destruct (delete_limit_spec _ _ _ _ _ Hd) as (Hm & Hlen & Hold & Hkeep & Hall).
  set (svc1 := set_table _ svc). unfold old_rows, kept_rows. case_bool_decide as Hfull.
  - destruct (IH (bump_db (bump_db w)) Hw svc1 (total + Z.of_nat m) (S n)) as
      (w' & svc' & b & Hl & Hrows); [unfold rows in *; simpl; lia|].
    exists w', svc', b. rewrite Hold, Nat2Z.inj_add, (Z.add_comm (Z.of_nat _)), Z.add_assoc.
    split; [exact Hl|]. rewrite Hrows. exact Hkeep.
  - eexists _, _, _. rewrite Hold, Hall by lia. split; [done|].
    simpl. rewrite <- Hkeep. symmetry. apply filter_none_keeps, Hall. lia.
Qed.

(** C38: for every batch size below 2^63, purging ends, and when the engine does
    not fail it removes exactly the rows created before the retention period,
    counted back from the time of the purge, keeps all others in order, and
    reports how many it removed.  (The clock gives an [i64] of milliseconds; a
    batch size that does not fit an [i64] turns negative, see
    [oversized_batches_never_end].) *)
Theorem purge_removes_exactly_the_old_rows days batch_size w svc :
  (forall k, db_fault w k = None) -> in_i64 (clock w (ticks w)) -> 0 <= days ->
  (batch_size < 2 ^ 63)%N ->
  exists w' svc' b,
    let cutoff := Z.max 0 (clock w (ticks w) - 24 * 60 * 60 * 1000 * days) in
    purge_old_events days batch_size (w, svc) =
      ((w', svc'), Ok (Some (mkPurgeStats (Z.of_nat (length (old_rows cutoff svc))) b))) /\
    rows svc' = kept_rows cutoff svc.
Proof.
  intros Hw Hc Hd Hbs. set (cutoff := Z.max 0 _).
  assert (calculate_cutoff_ms_at (clock w (ticks w)) days = cutoff) as Hcut.
  { unfold calculate_cutoff_ms_at. rewrite i64_wrap_id; [unfold cutoff; lia|].
    unfold in_i64, i64_min, i64_max in *. lia. }
  destruct (purge_loop_spec (S (length (rows svc))) cutoff (N.max batch_size 1) 0 0 (tick w) svc)
    as (w' & svc' & b & Hrun & Hrows); [done| |lia|].
  { rewrite i64_wrap_id; [lia|]. unfold in_i64, i64_min, i64_max. lia. }
  exists w', svc', b. split; [|done]. rewrite <- Hcut in Hrun at 1. exact Hrun.
Qed.

(** A batch size from 2^63 on reads as a negative number: every batch counts as
    full, so no number of rounds is enough. *)
Lemma oversized_batches_never_end fuel cutoff bs total n w svc :
  (forall k, db_fault w k = None) -> (2 ^ 63 <= bs < 2 ^ 64)%N ->
  exists st, purge_loop fuel cutoff bs total n (w, svc) = (st, Ok None).
Proof.
  intros Hw Hbs. revert w Hw svc total n.
  induction fuel as [|fuel IH]; intros w Hw svc total n; [by eexists|]. cbn [purge_loop].
  destruct (delete_batch cutoff bs w svc Hw) as (kept & m & _ & Hrun).
  rewrite (sm_bind_ok _ _ _ _ _ Hrun). rewrite bool_decide_true; [by apply IH|].
  unfold i64_wrap. replace ((Z.of_N bs + 2 ^ 63) mod 2 ^ 64) with (Z.of_N bs - 2 ^ 63); [lia|].
  apply (Z.mod_unique_pos _ _ 1); lia.
Qed.

End Rows.

(** ** On concrete events *)

Definition sample_event (details : list (string * Value)) : EventRecord :=
  with_details_json (json_to_string (VObject details))
    (with_summary "s" (with_action "a" (event_new 5 EventSeverity.Info EventCategory.System
       EventOutcome.Success))).

Definition empty_audit : AuditService := audit_service_new (mkAuditTable [] 0).

Lemma stored_details_hide_sensitive_keys_witness :
  exists v', hides_sensitive_keys v' = true /\
    (ev_details_json (apply_redaction (sample_event [("token", VString "x")])) =
       Some (json_to_string v') \/
     ev_details_json (apply_redaction (sample_event [("token", VString "x")])) =
       Some (json_to_string (VObject [("token", VString "x")])) /\
     v' = VObject [("token", VString "x")]).
Proof.
  apply (stored_details_hide_sensitive_keys (sample_event [("token", VString "x")])
           (json_to_string (VObject [("token", VString "x")]))
           (VObject [("token", VString "x")])); [done|vm_compute; done|vm_compute; done].
Defined.

Lemma query_text_is_fingerprinted_witness :
  exists m',
    ev_details_json (apply_query_fingerprint (sample_event [("query", VString "q")])) =
      Some (json_to_string (VObject m')) /\
    map_get "query" m' = Some (VString
      ("[FINGERPRINT:" +:+ String.substring 0 16 (sha256_fingerprint "q") +:+ "]")) /\
    map_get "query_length" m' = Some (VNumber (jnum_of_nat (str_len "q"))) /\
    forall k, k <> "query" -> k <> "query_length" ->
      map_get k m' = map_get k [("query", VString "q")].
Proof.
  apply (query_text_is_fingerprinted (sample_event [("query", VString "q")])
           (json_to_string (VObject [("query", VString "q")])) [("query", VString "q")] "q");
    [done|vm_compute; done|done].
Defined.

Lemma sample_record :
  exists w' svc' stored,
    record (sample_event [("k", VString "v")]) (plain_world, empty_audit) = ((w', svc'), Ok stored).
Proof.
  destruct (record (sample_event [("k", VString "v")]) (plain_world, empty_audit))
    as [[w' svc'] r] eqn:Hr.
  assert (is_ok (record (sample_event [("k", VString "v")]) (plain_world, empty_audit)).2 = true)
    as Hok by (vm_compute; reflexivity).
  rewrite Hr in Hok. destruct r as [stored|]; [|done]. by exists w', svc', stored.
Qed.

Lemma record_appends_one_row_or_none_witness :
  exists svc' stored, stored_as empty_audit (sample_event [("k", VString "v")]) svc' stored.
Proof.
  destruct sample_record as (w' & svc' & stored & Hr). exists svc', stored.
  exact (record_appends_one_row_or_none _ _ _ _ _ _ Hr).
Defined.

Lemma truncated_details_fit_witness :
  exists s, build_truncated_envelope (of_bytes (replicate 200 "x"%char)) 120 = Ok (Some s) /\
    (str_len s <= 120)%nat.
Proof.
  destruct (truncated_details_fit (of_bytes (replicate 200 "x"%char)) 120)
    as ([s|] & Hr & Hs); [exists s; split; [exact Hr|exact (proj1 Hs)]|lia].
Defined.

Lemma stored_details_are_bounded_witness :
  exists svc' id row, rows svc' = [(id, row)] /\
    forall d, aa_details_json row = Some d -> (str_len d <= max_detail_bytes empty_audit)%nat.
Proof.
  destruct sample_record as (w' & svc' & stored & Hr). exists svc'.
  exact (stored_details_are_bounded _ _ _ _ _ _ Hr eq_refl).
Defined.

(** Two rows, one of 1970 and one of a hundred days later. *)
Definition two_rows : list (Z * AppendAuditEventExtended) :=
  [(1, extended_event (sample_event []));
   (2, extended_event (event_new 8640000000 EventSeverity.Info EventCategory.System
         EventOutcome.Success))].
Definition aged_audit : AuditService := audit_service_new (mkAuditTable two_rows 2).
Definition day_100 : World :=
  mkWorld text_uuid (fun _ => 8640000000) 0 nat_text 0 (fun _ => None) 0.

Lemma purge_removes_exactly_the_old_rows_witness :
  exists w' svc' b,
    purge_old_events 30 500 (day_100, aged_audit) =
      ((w', svc'), Ok (Some (mkPurgeStats 1 b))) /\
    rows svc' = tail two_rows.
Proof. by apply (purge_removes_exactly_the_old_rows 30 500 day_100 aged_audit). Defined.
