(* ===== verification/Governance.v ===== *)
(** * Governance data of the MCP layer (crates/dbflux_mcp: governance_service.rs,
    tool_catalog.rs, built_ins.rs, server/router.rs, server/request_context.rs,
    server/bootstrap.rs)

    The data exchanged with the user interface and the settings, its conversion
    to the policy engine's types, the built-in policies and roles, the catalog of
    tools with its router, and the identity of a request. *)

From S2P Require Import Prelude RustStr External Classification Policy Approval Events.

(** ** Data *)

Record TrustedClientDto := mkClientDto {
  cd_id : string;
  cd_name : string;
  cd_issuer : option string;
  cd_active : bool;
}.

Record PolicyRoleDto := mkRoleDto {
  rd_id : string;
  rd_policy_ids : list string;
}.

Definition role_to_dto (r : PolicyRole) : PolicyRoleDto :=
  mkRoleDto (role_id r) (role_policy_ids r).
Definition role_of_dto (d : PolicyRoleDto) : PolicyRole := mkRole (rd_id d) (rd_policy_ids d).

Record ToolPolicyDto := mkPolicyDto {
  pd_id : string;
  pd_allowed_tools : list string;
  pd_allowed_classes : list string;
  pd_approval_classes : list string;
}.

Definition execution_class_id (c : ExecutionClassification) : string :=
  match c with
  | Metadata => "metadata"
  | Read => "read"
  | Write => "write"
  | Destructive => "destructive"
  | Admin => "admin"
  | AdminSafe => "admin_safe"
  | AdminDestructive => "admin_destructive"
  end.

Definition parse_execution_class_id (id : string) : result ExecutionClassification string :=
  ok_or (str_match [
    ("read", Read);
    ("write", Write);
    ("destructive", Destructive);
    ("admin", Admin);
    ("metadata", Metadata);
    ("admin_safe", AdminSafe);
    ("admin_destructive", AdminDestructive)] id) ("invalid classification: " +:+ id).

(** [From<ToolPolicy> for ToolPolicyDto]. *)
Definition policy_to_dto (p : ToolPolicy) : ToolPolicyDto :=
  mkPolicyDto (policy_id p) (allowed_tools p) (map execution_class_id (allowed_classes p))
    (map execution_class_id (approval_classes p)).

(** [TryFrom<ToolPolicyDto> for ToolPolicy]. *)
Definition policy_of_dto (d : ToolPolicyDto) : result ToolPolicy string :=
  let? allowed := try_map parse_execution_class_id (pd_allowed_classes d) in
  let? approval := try_map parse_execution_class_id (pd_approval_classes d) in
  Ok (mkPolicy (pd_id d) (pd_allowed_tools d) allowed approval).

Record ConnectionPolicyAssignmentDto := mkAssignmentDto {
  ad_connection_id : string;
  ad_assignments : list ConnectionPolicyAssignment;
}.

Record PendingExecutionSummary := mkSummary {
  ps_id : string;
  ps_actor_id : string;
  ps_connection_id : string;
  ps_tool_id : string;
  ps_classification : ExecutionClassification;
  ps_status : string;
  ps_created_at_epoch_ms : Z;
}.

Record PendingExecutionDetail `{SerdeJson} := mkDetail {
  pdt_summary : PendingExecutionSummary;
  pdt_plan : Value;
}.

Record ApprovalOutcome := mkApprovalOutcome {
  ao_id : string;
  ao_status : string;
  ao_actor_id : string;
  ao_timestamp_ms : Z;
}.

Inductive GovernanceError : Type :=
| GNotFound (resource : string)
| GValidation (msg : string)
| GOperation (msg : string).

Definition governance_error_display (e : GovernanceError) : string :=
  match e with
  | GNotFound resource => "resource not found: " +:+ resource
  | GValidation msg => "validation error: " +:+ msg
  | GOperation msg => "operation failed: " +:+ msg
  end.

(** ** Tools *)

Definition DEFERRED_TOOL_IDS : list string := ["estimate_query_cost"; "get_execution_status"].

Definition CANONICAL_V1_TOOLS : list string :=
  ["list_connections"; "connect"; "disconnect"; "get_connection_info";
   "list_databases"; "list_schemas"; "list_tables"; "list_collections"; "describe_object";
   "select_data"; "count_records"; "aggregate_data"; "explain_query"; "preview_mutation";
   "insert_record"; "update_records"; "upsert_record";
   "delete_records"; "truncate_table"; "drop_table"; "drop_database";
   "create_table"; "alter_table"; "create_index"; "drop_index"; "create_type";
   "list_scripts"; "get_script"; "create_script"; "update_script"; "delete_script";
   "execute_script";
   "request_execution"; "list_pending_executions"; "get_pending_execution";
   "approve_execution"; "reject_execution";
   "query_audit_logs"; "get_audit_entry"; "export_audit_logs"].

Inductive ToolCatalogError : Type :=
| DeferredInV1 (tool : string)
| UnknownTool (tool : string).

Definition is_canonical_v1_tool (tool_id : string) : bool :=
  existsb (fun candidate => bool_decide (candidate = tool_id)) CANONICAL_V1_TOOLS.

Definition is_deferred_v1_tool (tool_id : string) : bool :=
  existsb (fun candidate => bool_decide (candidate = tool_id)) DEFERRED_TOOL_IDS.

Definition validate_v1_tool (tool_id : string) : result unit ToolCatalogError :=
  if is_canonical_v1_tool tool_id then Ok tt
  else if is_deferred_v1_tool tool_id then Err (DeferredInV1 tool_id)
  else Err (UnknownTool tool_id).

(** ** The router *)

Inductive RouteTarget : Type :=
| RouteDiscovery
| RouteSchema
| RouteQuery
| RouteScripts
| RouteApproval
| RouteAudit.

(** The arms of the [match] in [route_tool]. *)
Definition route_arms : list (string * RouteTarget) :=
  [("list_connections", RouteDiscovery); ("get_connection", RouteDiscovery);
   ("get_connection_metadata", RouteDiscovery);
   ("list_databases", RouteSchema); ("list_schemas", RouteSchema); ("list_tables", RouteSchema);
   ("list_collections", RouteSchema); ("describe_object", RouteSchema);
   ("select_data", RouteQuery); ("explain_query", RouteQuery); ("preview_mutation", RouteQuery);
   ("list_scripts", RouteScripts); ("get_script", RouteScripts); ("create_script", RouteScripts);
   ("update_script", RouteScripts); ("delete_script", RouteScripts); ("run_script", RouteScripts);
   ("request_execution", RouteApproval); ("list_pending_executions", RouteApproval);
   ("get_pending_execution", RouteApproval); ("approve_execution", RouteApproval);
   ("reject_execution", RouteApproval);
   ("query_audit_logs", RouteAudit); ("get_audit_entry", RouteAudit);
   ("export_audit_logs", RouteAudit)].

Definition route_tool (tool_id : string) : result RouteTarget ToolCatalogError :=
  let? _u := validate_v1_tool tool_id in
  ok_or (str_match route_arms tool_id) (UnknownTool tool_id).

(** ** Built-in policies and roles *)

Definition BUILTIN_ID_PREFIX : string := "builtin/".
Definition is_builtin (id : string) : bool := starts_with id BUILTIN_ID_PREFIX.

Definition MUTATING_CLASS_IDS : list string :=
  ["write"; "destructive"; "admin_safe"; "admin"; "admin_destructive"].

Definition builtin_policies : list ToolPolicyDto :=
  [mkPolicyDto "builtin/read-only"
     ["list_connections"; "connect"; "disconnect"; "get_connection_info"; "list_databases";
      "list_schemas"; "list_tables"; "list_collections"; "describe_object"; "select_data";
      "count_records"; "aggregate_data"; "explain_query"; "preview_mutation"; "list_scripts";
      "get_script"; "execute_script"; "query_audit_logs"; "get_audit_entry"]
     ["metadata"; "read"] [];
   mkPolicyDto "builtin/write"
     ["list_connections"; "connect"; "disconnect"; "get_connection_info"; "list_databases";
      "list_schemas"; "list_tables"; "list_collections"; "describe_object"; "select_data";
      "count_records"; "aggregate_data"; "insert_record"; "update_records"; "upsert_record";
      "explain_query"; "preview_mutation"; "list_scripts"; "get_script"; "create_script";
      "update_script"; "execute_script"; "query_audit_logs"; "get_audit_entry"]
     ["metadata"; "read"] ["write"];
   mkPolicyDto "builtin/admin"
     ["list_connections"; "connect"; "disconnect"; "get_connection_info"; "list_databases";
      "list_schemas"; "list_tables"; "list_collections"; "describe_object"; "select_data";
      "count_records"; "aggregate_data"; "insert_record"; "update_records"; "upsert_record";
      "delete_records"; "truncate_table"; "create_table"; "alter_table"; "create_index";
      "drop_index"; "create_type"; "drop_table"; "drop_database"; "explain_query";
      "preview_mutation"; "list_scripts"; "get_script"; "create_script"; "update_script";
      "delete_script"; "execute_script"; "request_execution"; "list_pending_executions";
      "get_pending_execution"; "query_audit_logs"; "get_audit_entry"; "export_audit_logs"]
     ["metadata"; "read"] MUTATING_CLASS_IDS].

Definition builtin_display_name (id : string) : option string :=
  str_match [
    ("builtin/read-only", "Read Only");
    ("builtin/write", "Write");
    ("builtin/admin", "Admin")] id.

Definition builtin_roles : list PolicyRoleDto :=
  [mkRoleDto "builtin/read-only" ["builtin/read-only"];
   mkRoleDto "builtin/write" ["builtin/write"];
   mkRoleDto "builtin/admin" ["builtin/admin"]].

(** ** Request identity *)

Record RequestIdentity := mkRequestIdentity {
  ri_client_id : string;
  ri_issuer : option string;
}.

Record RequestContext := mkRequestContext {
  rc_identity : RequestIdentity;
  rc_tool_id : string;
  rc_connection_id : string;
}.

Inductive RequestContextError : Type := MissingClientId.

Section Identity.
Context `{SerdeJson}.

(** [payload.get(key).and_then(Value::as_str).map(str::trim)
    .filter(|value| !value.is_empty())]. *)
Definition payload_text (payload : Value) (key : string) : option string :=
  match payload with
  | VObject m =>
      match map_get key m with
      | Some (VString s) =>
          if bool_decide (trim s = EmptyString) then None else Some (trim s)
      | _ => None
      end
  | _ => None
  end.

Definition resolve_request_identity (payload : Value)
  : result RequestIdentity RequestContextError :=
  let? client_id := ok_or (payload_text payload "client_id") MissingClientId in
  Ok (mkRequestIdentity client_id (payload_text payload "issuer")).

End Identity.

(** ** Transports *)

Inductive TransportKind : Type := Stdio | UnixSocket | Tcp.

Record BootstrapConfig := mkBootstrap { enabled_transports : list TransportKind }.

Inductive BootstrapError : Type := NoTransportEnabled | TcpOnlyNotSupported.

Definition validate_v1_transport_profile (config : BootstrapConfig)
  : result unit BootstrapError :=
  match enabled_transports config with
  | [] => Err NoTransportEnabled
  | transports =>
      let has_stdio := existsb (fun t => match t with Stdio => true | _ => false end) transports in
      let has_unix_socket :=
        existsb (fun t => match t with UnixSocket => true | _ => false end) transports in
      let has_tcp := existsb (fun t => match t with Tcp => true | _ => false end) transports in
      if has_tcp && negb has_stdio && negb has_unix_socket then Err TcpOnlyNotSupported
      else Ok tt
  end.

(** ** Conversions *)

Lemma parse_class_Ok id c : parse_execution_class_id id = Ok c <-> id = execution_class_id c.
Proof.
  split; [|intros ->; by destruct c]. unfold parse_execution_class_id.
  destruct (str_match _ id) as [c'|] eqn:Hm; [|done]. intros [= <-].
  apply str_match_Some in Hm. destruct c';
    repeat (apply elem_of_cons in Hm as [Heq|Hm]; [by simplify_eq|]); by apply elem_of_nil in Hm.
Qed.

Lemma parse_classes_Ok ids cs :
  try_map parse_execution_class_id ids = Ok cs <-> ids = map execution_class_id cs.
Proof.
  rewrite try_map_Ok. split.
  - induction 1 as [|x y l l' Hx _ IH]; simpl; [done|]. apply parse_class_Ok in Hx. by subst.
  - intros ->. induction cs as [|c cs IH]; simpl; constructor; [by apply parse_class_Ok|done].
Qed.

Lemma policy_of_dto_Ok d p : policy_of_dto d = Ok p <-> d = policy_to_dto p.
Proof.
  split.
  - unfold policy_of_dto. destruct (try_map _ (pd_allowed_classes d)) as [al|] eqn:Ha; [|done].
    destruct (try_map _ (pd_approval_classes d)) as [ap|] eqn:Hp; [|done]. intros [= <-].
    apply parse_classes_Ok in Ha, Hp. destruct d. simpl in *. unfold policy_to_dto. simpl. congruence.
  - intros ->. destruct p as [i t al ap]. unfold policy_of_dto, policy_to_dto. simpl.
    rewrite (proj2 (parse_classes_Ok _ al) eq_refl).
    by rewrite (proj2 (parse_classes_Ok _ ap) eq_refl).
Qed.

(** The stored form of a policy is canonical: a stored policy loads as [p]
    exactly when it is the stored form of [p], so saving and loading is the
    identity both ways and a policy with an unknown class never loads. *)
Theorem policy_dto_roundtrip d p : policy_of_dto d = Ok p <-> d = policy_to_dto p.
Proof. apply policy_of_dto_Ok. Qed.

(** ** The catalog *)

Lemma existsb_name (name : string) l :
  existsb (fun candidate => bool_decide (candidate = name)) l = bool_decide (name ∈ l).
Proof.
  apply Bool.eq_iff_eq_true. rewrite existsb_exists, bool_decide_eq_true, list_elem_of_In.
  split; [intros (x & ? & ?%bool_decide_eq_true); by subst|].
  intros. exists name. split; [done|]. by apply bool_decide_eq_true.
Qed.

(** Routing a tool either gives its target, and then the tool is in the
    catalog, or names the tool in an error: deferred tools as deferred, every
    other one as unknown. *)
Theorem route_tool_cases tool :
  match route_tool tool with
  | Ok target => tool ∈ CANONICAL_V1_TOOLS /\ (tool, target) ∈ route_arms
  | Err (DeferredInV1 t) => t = tool /\ tool ∈ DEFERRED_TOOL_IDS
  | Err (UnknownTool t) => t = tool /\ (tool ∉ DEFERRED_TOOL_IDS) /\
      (tool ∉ CANONICAL_V1_TOOLS \/ tool ∉ (route_arms.*1))
  end.
Proof.
  unfold route_tool, validate_v1_tool, is_canonical_v1_tool, is_deferred_v1_tool.
  rewrite !existsb_name. case_bool_decide as Hc; [|case_bool_decide; auto].
  assert (tool ∉ DEFERRED_TOOL_IDS) as Hd.
  { intros Ht. revert Hc. apply (bool_decide_eq_false_1 (_ ∈ _)).
    by repeat (apply elem_of_cons in Ht as [->|Ht]; [vm_compute; reflexivity|]);
      apply elem_of_nil in Ht. }
  destruct (str_match route_arms tool) as [target|] eqn:Hm; simpl.
  - split; [done|]. by apply str_match_Some.
  - split_and!; [done..|]. right. intros Ht.
    revert Hm. change (str_match route_arms tool <> None). clear Hc Hd.
    by repeat (apply elem_of_cons in Ht as [->|Ht]; [vm_compute; discriminate|]);
      apply elem_of_nil in Ht.
Qed.

(** Eighteen tools of the catalog have no route: the router reports them as
    unknown although the catalog accepts them. *)
Theorem canonical_tools_without_route :
  List.filter (fun tool => negb (is_ok (route_tool tool))) CANONICAL_V1_TOOLS =
  ["connect"; "disconnect"; "get_connection_info"; "count_records"; "aggregate_data";
   "insert_record"; "update_records"; "upsert_record"; "delete_records"; "truncate_table";
   "drop_table"; "drop_database"; "create_table"; "alter_table"; "create_index"; "drop_index";
   "create_type"; "execute_script"].
Proof. vm_compute. reflexivity. Qed.

(** ** Built-in policies *)

(** The engine the runtime builds when only the built-ins are loaded. *)
Definition builtin_engine (assignments : list ConnectionPolicyAssignment) : PolicyEngine :=
  engine_new assignments (map role_of_dto builtin_roles)
    (omap (fun d => match policy_of_dto d with Ok p => Some p | Err _ => None end)
       builtin_policies).

(** What every built-in policy keeps to. *)
Definition builtin_shape (p : ToolPolicy) : bool :=
  bool_decide (allowed_classes p = [Metadata; Read]) && forallb mutates (approval_classes p) &&
  forallb (fun t => bool_decide (t ∈ CANONICAL_V1_TOOLS) &&
                    negb (bool_decide (t ∈ ["approve_execution"; "reject_execution"])))
    (allowed_tools p).

Lemma builtin_policy_shape asg pid p :
  eng_policies (builtin_engine asg) !! pid = Some p -> builtin_shape p = true.
Proof.
  unfold builtin_engine, engine_new. simpl. intros Hp%hash_collect_Some.
  repeat (apply elem_of_cons in Hp as [[= -> ->]|Hp]; [vm_compute; reflexivity|]).
  by apply elem_of_nil in Hp.
Qed.

Lemma builtin_shape_decision p req :
  builtin_shape p = true ->
  (decides p req ClassAllow -> class_le (pr_classification req) Read) /\
  (decides p req ClassAsk -> ~ class_le (pr_classification req) Read) /\
  (pr_tool_id req ∈ allowed_tools p ->
     pr_tool_id req ∈ CANONICAL_V1_TOOLS /\
     pr_tool_id req ∉ ["approve_execution"; "reject_execution"]).
Proof.
  unfold builtin_shape. intros [[Hal%bool_decide_eq_true Hap]%andb_true_iff Ht]%andb_true_iff.
  rewrite forallb_forall in Hap. rewrite forallb_forall in Ht.
  rewrite !decides_class. unfold class_decision. rewrite Hal. split_and!.
  - case_bool_decide; [done|]. case_bool_decide as Hin; [|done]. intros _.
    apply mutates_false. by destruct (pr_classification req); (vm_compute; reflexivity) ||
      (exfalso; revert Hin; apply (bool_decide_eq_false_1 (_ ∈ _)); vm_compute).
  - case_bool_decide as Hin; [|by case_bool_decide]. intros _. by apply mutates_true, Hap, list_elem_of_In.
  - intros [Hc%bool_decide_eq_true Hn%negb_true_iff%bool_decide_eq_false]%list_elem_of_In%Ht%andb_true_iff.
    done.
Qed.

Lemma builtin_applicable_shape asg req p :
  applicable (builtin_engine asg) req p ->
  builtin_shape p = true /\ pr_tool_id req ∈ allowed_tools p.
Proof. intros (pid & _ & Hp & Ht). split; [by eapply builtin_policy_shape|done]. Qed.

(** What the built-in policies allow without asking is at most a read. *)
Lemma builtin_allow_reads `{HashOrder} asg req :
  evaluate (builtin_engine asg) req = Ok Allow -> class_le (pr_classification req) Read.
Proof.
  intros [_ Hd]%evaluate_sound. inversion Hd as [p Hp Hk| | | | |]; subst.
  apply builtin_applicable_shape in Hp as [Hp _]. by apply (builtin_shape_decision p req Hp).
Qed.

(** Under the built-in policies and roles alone, whatever the assignments,
    only metadata and read calls run without asking, only mutating calls are
    sent to approval, and a tool outside the catalog or one that resolves
    approvals is denied. *)
Theorem builtins_never_allow_a_mutation `{HashOrder} asg req d :
  evaluate (builtin_engine asg) req = Ok d ->
  (d = Allow -> class_le (pr_classification req) Read) /\
  (d = RequireApproval -> ~ class_le (pr_classification req) Read) /\
  (pr_tool_id req ∉ CANONICAL_V1_TOOLS \/
   pr_tool_id req ∈ ["approve_execution"; "reject_execution"] -> exists reason, d = Deny reason).
Proof.
  intros [_ Hd]%evaluate_sound.
  pose proof (builtin_applicable_shape asg req) as Hs.
  destruct Hd as [p Hp Hk|p Hp Hk _|p Hp _|H'|pid Hp|pid Hp H'];
    [apply Hs in Hp as [Hp Ht]..|split_and!; try done; eauto|split_and!; try done; eauto
    |split_and!; try done; eauto];
    destruct (builtin_shape_decision p req Hp) as (H1 & H2 & H3);
    split_and!; try done; try naive_solver.
Qed.

Lemma builtins_never_allow_a_mutation_witness :
  (Allow = Allow -> class_le Read Read) /\ (Allow = RequireApproval -> ~ class_le Read Read) /\
  ("select_data" ∉ CANONICAL_V1_TOOLS \/ "select_data" ∈ ["approve_execution"; "reject_execution"] ->
   exists reason, Allow = Deny reason).
Proof.
  apply (builtins_never_allow_a_mutation
           [mkAssignment "agent" "db" ["builtin/write"] []]
           (mkPolicyRequest "agent" "db" "select_data" Read)).
  vm_compute. reflexivity.
Defined.

(** ** Identity and transports *)

(** A resolved identity has a client id that is not blank and has no
    surrounding white space, and the same holds of its issuer when there is one;
    resolution fails exactly when the payload has no text that is not blank
    under [client_id]. *)
Theorem resolved_identity_is_normalized `{SerdeJson} payload :
  match resolve_request_identity payload with
  | Ok i => (exists m s, payload = VObject m /\ map_get "client_id" m = Some (VString s) /\
               ri_client_id i = trim s) /\
      forall x, x = ri_client_id i \/ Some x = ri_issuer i -> is_blank x = false /\ trim x = x
  | Err _ => forall m s, payload = VObject m -> map_get "client_id" m = Some (VString s) ->
      is_blank s = true
  end.
Proof.
  assert (forall key x, payload_text payload key = Some x ->
    (exists m s, payload = VObject m /\ map_get key m = Some (VString s) /\ x = trim s) /\
    is_blank x = false /\ trim x = x) as Htext.
  { intros key x. unfold payload_text. destruct payload as [| | | | |m]; try done.
    destruct (map_get key m) as [[| | |s| |]|] eqn:Hm; try done.
    case_bool_decide as Hb; [done|]. intros [= <-]. split; [eauto 10|].
    split; [|apply trim_idemp]. apply not_true_is_false. rewrite <- trim_empty.
    by rewrite trim_idemp. }
  unfold resolve_request_identity.
  destruct (payload_text payload "client_id") as [c|] eqn:Hc; simpl.
  - apply Htext in Hc as [? Hc]. split; [done|]. intros x [->|Hx]; [done|].
    by apply (Htext "issuer").
  - intros m s -> Hm. unfold payload_text in Hc. rewrite Hm in Hc.
    case_bool_decide as Hb; [|done]. by apply trim_empty.
Qed.

(** A launch is accepted exactly when a transport is enabled and at least
    one enabled transport is local (standard streams or a Unix socket). *)
Theorem transport_profile_needs_a_local_transport config :
  validate_v1_transport_profile config = Ok tt <->
  Stdio ∈ enabled_transports config \/ UnixSocket ∈ enabled_transports config.
Proof.
  unfold validate_v1_transport_profile. destruct (enabled_transports config) as [|t l].
  { split; [done|]. by intros [[]%elem_of_nil|[]%elem_of_nil]. }
  assert (forall k, k ∈ t :: l <-> existsb (fun x => match k, x with
    | Stdio, Stdio | UnixSocket, UnixSocket | Tcp, Tcp => true | _, _ => false end) (t :: l) = true)
    as He.
  { intros k. rewrite existsb_exists, list_elem_of_In. split.
    - intros. exists k. by destruct k.
    - by intros ([] & ? & ?); destruct k. }
  rewrite !He. cbn zeta.
  destruct (existsb (fun t => match t with Stdio => true | _ => false end) (t :: l)) eqn:Hs.
  { rewrite !andb_false_r. simpl. tauto. }
  destruct (existsb (fun t => match t with UnixSocket => true | _ => false end) (t :: l)) eqn:Hu.
  { rewrite !andb_false_r. simpl. tauto. }
  destruct t; simpl in *; try done. split; [done|]. by intros [?|?].
Qed.
