(* ===== verification/Authorization.v ===== *)
(** * Authorization of MCP calls (crates/dbflux_mcp: server/authorization.rs)

    [authorize_request_with_approval] decides one call: fixed refusals first,
    then the trusted clients, then the policy engine, and for a call that needs
    approval the approval gate.  Every answer is recorded as one audit event.

    The gate is an interface (the Rust trait [ApprovalGate]); what is proved
    here holds for every gate.  Runtime.v has the one the server uses. *)

From S2P Require Import Prelude RustStr External Classification Policy Approval Events UriRedact Redaction AuditService AuditProps Governance.

(** ** Data *)

Record AuthorizationRequest := mkAuthRequest {
  ar_identity : RequestIdentity;
  ar_connection_id : string;
  ar_tool_id : string;
  ar_classification : ExecutionClassification;
  ar_mcp_enabled_for_connection : bool;
  ar_read_only_connection : bool;
  ar_correlation_id : option string;
}.

Definition APPROVAL_REQUIRED_CODE : string := "approval_required".
Definition SELF_APPROVAL_FORBIDDEN_CODE : string := "self_approval_forbidden".
Definition HUMAN_ONLY_APPROVAL_TOOLS : list string := ["approve_execution"; "reject_execution"].
Definition SELF_APPROVAL_FORBIDDEN_REASON : string :=
  "MCP clients cannot approve or reject pending executions; a person resolves them in DBFlux (Pending Approvals)".
Definition APPROVAL_REQUIRED_REASON : string := "classification requires approval by policy".
Definition READ_ONLY_CONNECTION_CODE : string := "connection_read_only".
Definition READ_ONLY_CONNECTION_REASON : string :=
  "the connection profile is set to read-only in DBFlux; only metadata and read operations are allowed".

Record AuthorizationOutcome := mkOutcome {
  allowed : bool;
  deny_code : option string;
  deny_reason : option string;
  correlation_id : option string;
  actor_id : string;
  pending_execution_id : option string;
  approved_execution_id : option string;
}.

Inductive AuthorizationError : Type :=
| AuthPolicy (e : PolicyEngineError)
| AuthAuditRecord (e : AuditError)
| AuthApproval (msg : string).

Definition policy_error_display (e : PolicyEngineError) : string :=
  match e with MissingRole id => "role not found: " +:+ id end.

Definition authorization_error_display (e : AuthorizationError) : string :=
  match e with
  | AuthPolicy e => "policy evaluation failed: " +:+ policy_error_display e
  | AuthAuditRecord e => "audit record failed: " +:+ audit_error_display e
  | AuthApproval msg => "approval flow failed: " +:+ msg
  end.

Inductive ApprovalResolution : Type :=
| Granted (pending_id : string)
| Queued (pending_id : string)
| Exempt.

Definition format_policy_deny_reason (reason : PolicyDecisionReason) : string :=
  match reason with
  | NoAssignment => "no matching connection-scoped assignment"
  | NoPolicy => "no matching policy"
  | ToolDenied => "tool denied by policy"
  | ClassificationDenied => "classification denied by policy"
  end.

(** ** Events *)

Definition build_authorization_event (ts_ms : Z) (level : EventSeverity.t)
    (actor_id connection_id tool_id : string) (classification : ExecutionClassification)
    (outcome : EventOutcome.t) (correlation_id : string) (origin : EventOrigin) : EventRecord :=
  apply_to
    (ctx_with_connection_id connection_id
      (ctx_with_correlation_id correlation_id (ctx_with_origin origin context_new)))
    (with_object_ref "tool" tool_id
      (with_actor_id actor_id
        (with_summary ("MCP authorization " +:+ EventOutcome.as_str outcome +:+ ": tool=" +:+
            tool_id +:+ " classification=" +:+ classification_debug classification)
          (with_typed_action MCP_AUTHORIZE (event_new ts_ms level EventCategory.Mcp outcome))))).

(** The trait [ApprovalGate], for a gate with state [G]. *)
Definition ApprovalGate `{UuidLib} (G : Type) : Type :=
  AuthorizationRequest -> SM (World * G) AuthorizationError ApprovalResolution.

Section Authorize.
Context `{UuidLib, SerdeJson, RegexLib, TextLib, HashOrder}.
Context {G : Type}.

(** The environment, the audit service (shared by reference) and the gate. *)
#[local] Abbreviation AuthM := (SM (World * (AuditService * G)) AuthorizationError).

Definition auth_record (event : EventRecord) : AuthM unit :=
  _ ← sm_map_err AuthAuditRecord
    (sm_zoom (fun s => (s.1, s.2.1)) (fun t s => (t.1, (t.2, s.2.2))) (record event));
  mret tt.

Definition on_gate {A} (m : SM (World * G) AuthorizationError A) : AuthM A :=
  sm_zoom (fun s => (s.1, s.2.2)) (fun t s => (t.1, (s.2.1, t.2))) m.

Definition auth_world {A} (m : SM World AuthorizationError A) : AuthM A :=
  sm_zoom fst (fun w s => (w, s.2)) m.

(** The event of [request] with the given outcome. *)
Definition request_event (request : AuthorizationRequest) (created_at_epoch_ms : Z)
    (correlation_id : string) (outcome : EventOutcome.t) : EventRecord :=
  build_authorization_event created_at_epoch_ms EventSeverity.Info
    (ri_client_id (ar_identity request)) (ar_connection_id request) (ar_tool_id request)
    (ar_classification request) outcome correlation_id origin_mcp.

Definition classification_entry (request : AuthorizationRequest) : string * Value :=
  ("classification", VString (classification_debug (ar_classification request))).

(** The refusal block, which the source repeats for every reason. *)
Definition record_denial (request : AuthorizationRequest) (created_at_epoch_ms : Z)
    (cid code reason : string) : AuthM AuthorizationOutcome :=
  let event :=
    with_details_json (json_to_string (VObject [classification_entry request]))
      (with_error code reason
        (request_event request created_at_epoch_ms cid EventOutcome.Failure)) in
  _ ← auth_record event;
  mret (mkOutcome false (Some code) (Some reason) (Some cid)
          (ri_client_id (ar_identity request)) None None).

(** The block of [PolicyDecision::Allow]. *)
Definition record_allowed (request : AuthorizationRequest) (created_at_epoch_ms : Z)
    (cid : string) : AuthM AuthorizationOutcome :=
  let event :=
    with_details_json (json_to_string (VObject [classification_entry request]))
      (request_event request created_at_epoch_ms cid EventOutcome.Success) in
  _ ← auth_record event;
  mret (mkOutcome true None None (Some cid) (ri_client_id (ar_identity request)) None None).

(** The [match resolution] of [resolve_approval]: the outcome of the event, the
    entries of its details after the class, and the answer. *)
Definition resolution_outcome (request : AuthorizationRequest) (cid : string)
    (resolution : option ApprovalResolution)
  : EventOutcome.t * list (string * Value) * AuthorizationOutcome :=
  let actor := ri_client_id (ar_identity request) in
  match resolution with
  | Some (Granted pending_id) =>
      (EventOutcome.Success,
       [("decision", VString "approved"); ("pending_execution_id", VString pending_id)],
       mkOutcome true None None (Some cid) actor None (Some pending_id))
  | Some (Queued pending_id) =>
      (EventOutcome.Pending,
       [("decision", VString "approval_required"); ("pending_execution_id", VString pending_id)],
       mkOutcome false (Some APPROVAL_REQUIRED_CODE)
         (Some (APPROVAL_REQUIRED_REASON +:+ "; queued as pending execution " +:+ pending_id))
         (Some cid) actor (Some pending_id) None)
  | Some Exempt =>
      (EventOutcome.Success, [("decision", VString "approval_queue_tool")],
       mkOutcome true None None (Some cid) actor None None)
  | None =>
      (EventOutcome.Pending, [("decision", VString "approval_required")],
       mkOutcome false (Some APPROVAL_REQUIRED_CODE) (Some APPROVAL_REQUIRED_REASON)
         (Some cid) actor None None)
  end.

Definition resolve_approval (request : AuthorizationRequest) (approval_gate : option (ApprovalGate G))
    (created_at_epoch_ms : Z) (cid : string) : AuthM AuthorizationOutcome :=
  resolution ← match approval_gate with
               | Some resolve => r ← on_gate (resolve request); mret (Some r)
               | None => mret None
               end;
  let '(outcome_kind, details, outcome) := resolution_outcome request cid resolution in
  let event :=
    with_details_json (json_to_string (VObject (classification_entry request :: details)))
      (request_event request created_at_epoch_ms cid outcome_kind) in
  let event :=
    match deny_code outcome, deny_reason outcome with
    | Some code, Some reason => with_error code reason event
    | _, _ => event
    end in
  _ ← auth_record event;
  mret outcome.

Definition authorize_request_with_approval (trusted_clients : TrustedClientRegistry)
    (policy_engine : PolicyEngine) (request : AuthorizationRequest)
    (approval_gate : option (ApprovalGate G)) (created_at_epoch_ms : Z)
  : AuthM AuthorizationOutcome :=
  cid ← match ar_correlation_id request with
        | Some c => mret c
        | None => auth_world new_correlation_id
        end;
  if bool_decide (ar_tool_id request ∈ HUMAN_ONLY_APPROVAL_TOOLS) then
    record_denial request created_at_epoch_ms cid SELF_APPROVAL_FORBIDDEN_CODE
      SELF_APPROVAL_FORBIDDEN_REASON
  else if negb (ar_mcp_enabled_for_connection request) then
    record_denial request created_at_epoch_ms cid "connection_not_mcp_enabled"
      "connection not MCP-enabled"
  else if ar_read_only_connection request && mutates (ar_classification request) then
    record_denial request created_at_epoch_ms cid READ_ONLY_CONNECTION_CODE
      READ_ONLY_CONNECTION_REASON
  else
    let identity := mkIdentity (ri_client_id (ar_identity request))
                      (ri_issuer (ar_identity request)) in
    match registry_evaluate trusted_clients identity with
    | Untrusted reason =>
        record_denial request created_at_epoch_ms cid "untrusted_client" reason
    | Trusted _ =>
        decision ← sm_lift (map_err AuthPolicy (evaluate policy_engine
                     (mkPolicyRequest (ri_client_id (ar_identity request))
                        (ar_connection_id request) (ar_tool_id request)
                        (ar_classification request))));
        match decision with
        | Allow => record_allowed request created_at_epoch_ms cid
        | RequireApproval => resolve_approval request approval_gate created_at_epoch_ms cid
        | Deny reason =>
            record_denial request created_at_epoch_ms cid "policy_denied"
              (format_policy_deny_reason reason)
        end
    end.

Definition authorize_request (trusted_clients : TrustedClientRegistry)
    (policy_engine : PolicyEngine) (request : AuthorizationRequest) (created_at_epoch_ms : Z)
  : AuthM AuthorizationOutcome :=
  authorize_request_with_approval trusted_clients policy_engine request None created_at_epoch_ms.

End Authorize.
