(* ===== verification/AuthorizationProps.v ===== *)
(** * What authorization guarantees

    Complete mediation (a call is allowed only past every check), the cause of
    every refusal, that refused calls never reach the approval queue, and that
    every answer is in the audit table exactly once. *)

From S2P Require Import Prelude RustStr External Concrete Classification Policy Approval Events UriRedact Redaction AuditService AuditProps Governance Authorization.

(** ** The checks in one place *)

Definition identity_of (request : AuthorizationRequest) : ClientIdentity :=
  mkIdentity (ri_client_id (ar_identity request)) (ri_issuer (ar_identity request)).

Definition policy_request (request : AuthorizationRequest) : PolicyEvaluationRequest :=
  mkPolicyRequest (ri_client_id (ar_identity request)) (ar_connection_id request)
    (ar_tool_id request) (ar_classification request).

(** A call that passes the fixed checks and comes from a trusted client. *)
Definition cleared (tc : TrustedClientRegistry) (request : AuthorizationRequest) : Prop :=
  (ar_tool_id request ∉ HUMAN_ONLY_APPROVAL_TOOLS) /\
  ar_mcp_enabled_for_connection request = true /\
  (ar_read_only_connection request = true -> class_le (ar_classification request) Read) /\
  exists c, registry_evaluate tc (identity_of request) = Trusted c.

(** Why a call is refused, by the code of the refusal. *)
Inductive refusal `{HashOrder} (tc : TrustedClientRegistry) (eng : PolicyEngine)
    (request : AuthorizationRequest) : string -> string -> Prop :=
| refused_self_approval :
    ar_tool_id request ∈ HUMAN_ONLY_APPROVAL_TOOLS ->
    refusal tc eng request SELF_APPROVAL_FORBIDDEN_CODE SELF_APPROVAL_FORBIDDEN_REASON
| refused_mcp_disabled :
    ar_mcp_enabled_for_connection request = false ->
    refusal tc eng request "connection_not_mcp_enabled" "connection not MCP-enabled"
| refused_read_only :
    ar_read_only_connection request = true -> ~ class_le (ar_classification request) Read ->
    refusal tc eng request READ_ONLY_CONNECTION_CODE READ_ONLY_CONNECTION_REASON
| refused_untrusted reason :
    registry_evaluate tc (identity_of request) = Untrusted reason ->
    refusal tc eng request "untrusted_client" reason
| refused_by_policy reason :
    cleared tc request -> evaluate eng (policy_request request) = Ok (Deny reason) ->
    refusal tc eng request "policy_denied" (format_policy_deny_reason reason).

(** What the checks before the approval gate come to. *)
Inductive ruling : Type :=
| RDeny (code reason : string)
| RAllow
| RAsk.

Definition rule `{HashOrder} (tc : TrustedClientRegistry) (eng : PolicyEngine)
    (request : AuthorizationRequest) : result ruling PolicyEngineError :=
  if bool_decide (ar_tool_id request ∈ HUMAN_ONLY_APPROVAL_TOOLS) then
    Ok (RDeny SELF_APPROVAL_FORBIDDEN_CODE SELF_APPROVAL_FORBIDDEN_REASON)
  else if negb (ar_mcp_enabled_for_connection request) then
    Ok (RDeny "connection_not_mcp_enabled" "connection not MCP-enabled")
  else if ar_read_only_connection request && mutates (ar_classification request) then
    Ok (RDeny READ_ONLY_CONNECTION_CODE READ_ONLY_CONNECTION_REASON)
  else
    match registry_evaluate tc (identity_of request) with
    | Untrusted reason => Ok (RDeny "untrusted_client" reason)
    | Trusted _ =>
        let? d := evaluate eng (policy_request request) in
        Ok match d with
           | Allow => RAllow
           | RequireApproval => RAsk
           | Deny reason => RDeny "policy_denied" (format_policy_deny_reason reason)
           end
    end.

Lemma rule_spec `{HashOrder} tc eng request :
  match rule tc eng request with
  | Ok (RDeny code reason) => refusal tc eng request code reason
  | Ok RAllow => cleared tc request /\ evaluate eng (policy_request request) = Ok Allow
  | Ok RAsk => cleared tc request /\ evaluate eng (policy_request request) = Ok RequireApproval
  | Err e => cleared tc request /\ evaluate eng (policy_request request) = Err e
  end.
Proof.
  unfold rule. case_bool_decide; [by apply refused_self_approval|].
  destruct (ar_mcp_enabled_for_connection request) eqn:Hm; simpl; [|by apply refused_mcp_disabled].
  destruct (ar_read_only_connection request && mutates _) eqn:Hr.
  { apply andb_true_iff in Hr as [? ?%mutates_true]. by apply refused_read_only. }
  destruct (registry_evaluate _ _) as [c|reason] eqn:Ht; [|by apply refused_untrusted].
  assert (cleared tc request) as Hc.
  { split_and!; [done..| |by eauto]. intros Hro. rewrite Hro in Hr. by apply mutates_false. }
  destruct (evaluate _ _) as [[| |reason]|e] eqn:He; try done. by apply refused_by_policy.
Qed.

(** ** One run *)

Section Run.
Context `{UuidLib, SerdeJson, RegexLib, TextLib, HashOrder}.
Context {G : Type}.
Implicit Types (w : World) (svc : AuditService) (g : G) (gate : option (ApprovalGate G)).

(** The correlation id of a call and the environment after it was chosen. *)
Definition cid_run (request : AuthorizationRequest) w : World * string :=
  match ar_correlation_id request with
  | Some c => (w, c)
  | None => let '(w', r) := uuid_new_v4 (E := AuthorizationError) w in
            (w', match r with Ok u => uuid_to_string u | Err _ => EmptyString end)
  end.

(** The gate answered [resolution], or there is no gate. *)
Definition gate_run gate (request : AuthorizationRequest) (s s' : World * G)
    (resolution : option ApprovalResolution) : Prop :=
  match gate with
  | None => s' = s /\ resolution = None
  | Some resolve => exists r, resolve request s = (s', Ok r) /\ resolution = Some r
  end.

(** The decision on a call: from which state of the gate, with which kind of
    event, which details and which answer. *)
Inductive decided tc eng (request : AuthorizationRequest) gate (cid : string) (s : World * G)
  : World * G -> EventOutcome.t -> list (string * Value) -> AuthorizationOutcome -> Prop :=
| decided_deny code reason :
    rule tc eng request = Ok (RDeny code reason) ->
    decided tc eng request gate cid s s EventOutcome.Failure []
      (mkOutcome false (Some code) (Some reason) (Some cid)
         (ri_client_id (ar_identity request)) None None)
| decided_allow :
    rule tc eng request = Ok RAllow ->
    decided tc eng request gate cid s s EventOutcome.Success []
      (mkOutcome true None None (Some cid) (ri_client_id (ar_identity request)) None None)
| decided_ask s' resolution kind details o :
    rule tc eng request = Ok RAsk -> gate_run gate request s s' resolution ->
    resolution_outcome request cid resolution = (kind, details, o) ->
    decided tc eng request gate cid s s' kind details o.

(** The event of a decision. *)
Definition decision_event (request : AuthorizationRequest) (ts : Z) (cid : string)
    (kind : EventOutcome.t) (details : list (string * Value)) (o : AuthorizationOutcome)
  : EventRecord :=
  let event := with_details_json (json_to_string (VObject (classification_entry request :: details)))
                 (request_event request ts cid kind) in
  match deny_code o, deny_reason o with
  | Some code, Some reason => with_error code reason event
  | _, _ => event
  end.

Definition answer (event : EventRecord) (o : AuthorizationOutcome)
  : SM (World * (AuditService * G)) AuthorizationError AuthorizationOutcome :=
  _ ← auth_record event; mret o.

Lemma answer_inv event o w svc g s' r :
  answer event o (w, (svc, g)) = (s', r) ->
  exists w' svc' r0, record event (w, svc) = ((w', svc'), r0) /\ s' = (w', (svc', g)) /\
    r = match r0 with Ok _ => Ok o | Err e => Err (AuthAuditRecord e) end.
Proof.
  unfold answer, auth_record. sm_unfold. simpl.
  destruct (record event (w, svc)) as [[w' svc'] r0]. exists w', svc', r0.
  destruct r0; simpl in *; by simplify_eq.
Qed.

Lemma authorize_by_rule tc eng request gate ts w svc g s' r :
  authorize_request_with_approval tc eng request gate ts (w, (svc, g)) = (s', r) ->
  let '(w1, cid) := cid_run request w in
  match rule tc eng request with
  | Err e => s' = (w1, (svc, g)) /\ r = Err (AuthPolicy e)
  | Ok (RDeny code reason) => record_denial request ts cid code reason (w1, (svc, g)) = (s', r)
  | Ok RAllow => record_allowed request ts cid (w1, (svc, g)) = (s', r)
  | Ok RAsk => resolve_approval request gate ts cid (w1, (svc, g)) = (s', r)
  end.
Proof.
  unfold authorize_request_with_approval. intros Hr.
  sm_inv Hr as cid s1 Hcid err Herr.
  2:{ revert Hcid. by destruct (ar_correlation_id request); intros [=]. }
  assert (s1 = ((cid_run request w).1, (svc, g)) /\ cid = (cid_run request w).2) as [-> ->].
  { revert Hcid. unfold cid_run. by destruct (ar_correlation_id request); intros [= <- <-]. }
  destruct (cid_run request w) as [w1 cid]. simpl in Hr. unfold rule.
  case_bool_decide; [exact Hr|]. destruct (negb _); [exact Hr|].
  destruct (ar_read_only_connection request && _); [exact Hr|].
  change (registry_evaluate tc _) with (registry_evaluate tc (identity_of request)) in Hr.
  destruct (registry_evaluate tc _); [|exact Hr].
  change (evaluate eng _) with (evaluate eng (policy_request request)) in Hr.
  destruct (evaluate eng _) as [[| |reason]|e]; [exact Hr..|].
  revert Hr. by intros [= <- <-].
Qed.

(** Every run ends in a failed policy evaluation, a failed gate, or the answer
    of a decision. *)
Lemma authorize_inv tc eng request gate ts w svc g s' r :
  authorize_request_with_approval tc eng request gate ts (w, (svc, g)) = (s', r) ->
  let '(w1, cid) := cid_run request w in
  (exists e, rule tc eng request = Err e /\ s' = (w1, (svc, g)) /\ r = Err (AuthPolicy e)) \/
  (exists resolve w2 g2 e, rule tc eng request = Ok RAsk /\ gate = Some resolve /\
     resolve request (w1, g) = ((w2, g2), Err e) /\ s' = (w2, (svc, g2)) /\ r = Err e) \/
  (exists w2 g2 kind details o, decided tc eng request gate cid (w1, g) (w2, g2) kind details o /\
     answer (decision_event request ts cid kind details o) o (w2, (svc, g2)) = (s', r)).
Proof.
  intros Hr%authorize_by_rule. destruct (cid_run request w) as [w1 cid].
  destruct (rule tc eng request) as [[code reason| |]|e] eqn:Hrule.
  - right; right. eexists _, _, _, _, _. split; [by eapply decided_deny|exact Hr].
  - right; right. eexists _, _, _, _, _. split; [by eapply decided_allow|exact Hr].
  - unfold resolve_approval in Hr. sm_inv Hr as resolution s2 Hg e ->.
    + right; right. destruct s2 as [w2 [svc2 g2]].
      assert (svc2 = svc /\ gate_run gate request (w1, g) (w2, g2) resolution) as [-> Hrun].
      { destruct gate as [resolve|]; [|by revert Hg; intros [= <- <- <- <-]]. simpl.
        sm_inv Hg as x s3 Hx e ?; [|done]. apply sm_zoom_inv in Hx as ([w3 g3] & Hx & ->).
        revert Hg. intros [= <- <- <- <-]. eauto. }
      destruct (resolution_outcome request cid resolution) as [[kind details] o] eqn:Ho.
      exists w2, g2, kind, details, o. split; [by eapply decided_ask|exact Hr].
    + right; left. destruct gate as [resolve|]; [|done].
      sm_inv Hg as x s3 Hx e' He; [done|]. apply sm_zoom_inv in Hx as ([w3 g3] & Hx & ->).
      simplify_eq. exists resolve, w3, g3, e'. done.
  - left. eauto.
Qed.

(** ** Mediation *)

(** The outcome of a run that answered, and where it came from. *)
Lemma authorize_Ok tc eng request gate ts w svc g w' svc' g' o :
  authorize_request_with_approval tc eng request gate ts (w, (svc, g)) = ((w', (svc', g')), Ok o) ->
  exists w2 kind details, let '(w1, cid) := cid_run request w in
    decided tc eng request gate cid (w1, g) (w2, g') kind details o /\
    exists stored, record (decision_event request ts cid kind details o) (w2, svc) =
      ((w', svc'), Ok stored).
Proof.
  intros Hr%authorize_inv. destruct (cid_run request w) as [w1 cid].
  destruct Hr as [(e & _ & _ & ?)|[(? & ? & ? & ? & _ & _ & _ & _ & ?)|Hr]]; [done..|].
  destruct Hr as (w2 & g2 & kind & details & o' & Hd & Ha).
  apply answer_inv in Ha as (w3 & svc3 & r0 & Hrec & Hs & Ho).
  destruct r0 as [stored|]; [|done]. simplify_eq. eauto 10.
Qed.

Lemma authorized_allowed tc eng request gate ts w svc g w' svc' g' o :
  authorize_request_with_approval tc eng request gate ts (w, (svc, g)) = ((w', (svc', g')), Ok o) ->
  allowed o = true ->
  cleared tc request /\
  (evaluate eng (policy_request request) = Ok Allow /\ approved_execution_id o = None \/
   evaluate eng (policy_request request) = Ok RequireApproval /\
   exists resolve w2 res, gate = Some resolve /\
     resolve request ((cid_run request w).1, g) = ((w2, g'), Ok res) /\
     ((exists pid, res = Granted pid /\ approved_execution_id o = Some pid) \/
      res = Exempt /\ approved_execution_id o = None)).
Proof.
  intros Hr Hall. apply authorize_Ok in Hr as (w2 & kind & details & Hr).
  destruct (cid_run request w) as [w1 cid]. destruct Hr as [Hd _].
  pose proof (rule_spec tc eng request) as Hrule.
  inversion Hd as [code reason Hk|Hk|s2 resolution k d o' Hk Hg Ho]; subst; rewrite Hk in Hrule;
    [done| |]; destruct Hrule as [Hc He]; (split; [done|]); [by left|right].
  split; [done|]. destruct gate as [resolve|]; simpl in Hg.
  2:{ destruct Hg as [_ ->]. simplify_eq/=. }
  destruct Hg as (res & Hres & ->). exists resolve, w2, res. split_and!; [done..|].
  destruct res as [pid|pid|]; simplify_eq/=; [left; eauto|by right].
Qed.

(** C3: complete mediation: a call is allowed only if its tool does not resolve
    approvals, MCP is enabled for the connection, the connection is not
    read-only or the call does not mutate, the client is trusted, and either a
    policy allows the call outright or it needs approval and the gate answered
    that an approval was consumed for it (named in the answer) or that it is a
    queue tool. *)
Theorem allowed_call_is_authorized tc eng request gate ts w svc g w' svc' g' o :
  authorize_request_with_approval tc eng request gate ts (w, (svc, g)) = ((w', (svc', g')), Ok o) ->
  allowed o = true ->
  cleared tc request /\
  (evaluate eng (policy_request request) = Ok Allow /\ approved_execution_id o = None \/
   evaluate eng (policy_request request) = Ok RequireApproval /\
   exists resolve w2 res, gate = Some resolve /\
     resolve request ((cid_run request w).1, g) = ((w2, g'), Ok res) /\
     ((exists pid, res = Granted pid /\ approved_execution_id o = Some pid) \/
      res = Exempt /\ approved_execution_id o = None)).
Proof. apply authorized_allowed. Qed.

(** Every refusal carries the code of its cause and a reason: resolving
    approvals, MCP disabled, a mutation on a read-only connection, an untrusted
    client or a policy denial; only a call that passed all of these and that a
    policy sends to approval is answered with [approval_required]. *)
Theorem denied_call_names_its_cause tc eng request gate ts w svc g w' svc' g' o :
  authorize_request_with_approval tc eng request gate ts (w, (svc, g)) = ((w', (svc', g')), Ok o) ->
  allowed o = false ->
  exists code reason, deny_code o = Some code /\ deny_reason o = Some reason /\
    approved_execution_id o = None /\
    (refusal tc eng request code reason /\ pending_execution_id o = None \/
     code = APPROVAL_REQUIRED_CODE /\ cleared tc request /\
     evaluate eng (policy_request request) = Ok RequireApproval).
Proof.
  intros Hr Hall. apply authorize_Ok in Hr as (w2 & kind & details & Hr).
  destruct (cid_run request w) as [w1 cid]. destruct Hr as [Hd _].
  pose proof (rule_spec tc eng request) as Hrule.
  inversion Hd as [code reason Hk|Hk|s2 resolution k d o' Hk Hg Ho]; subst; rewrite Hk in Hrule.
  - exists code, reason. eauto 10.
  - done.
  - destruct resolution as [[pid|pid|]|]; simplify_eq/=; eauto 10.
Qed.

(** The approval gate is consulted only for a call that passed every check
    and that a policy sends to approval: in every other run, failed ones
    included, the state of the gate is unchanged. *)
Theorem gate_is_consulted_only_for_approval tc eng request gate ts w svc g w' svc' g' r :
  authorize_request_with_approval tc eng request gate ts (w, (svc, g)) = ((w', (svc', g')), r) ->
  g' = g \/ cleared tc request /\ evaluate eng (policy_request request) = Ok RequireApproval.
Proof.
  intros Hr%authorize_inv. destruct (cid_run request w) as [w1 cid].
  pose proof (rule_spec tc eng request) as Hrule.
  destruct Hr as [(e & _ & ? & _)|[(? & ? & ? & ? & Hk & _)|Hr]].
  - left. by simplify_eq.
  - right. by rewrite Hk in Hrule.
  - destruct Hr as (w2 & g2 & kind & details & o & Hd & Ha).
    apply answer_inv in Ha as (w3 & svc3 & r0 & _ & Hs & _). simplify_eq.
    inversion Hd as [code reason Hk|Hk|s2 resolution k d o' Hk Hg Ho]; subst; [by left..|].
    right. by rewrite Hk in Hrule.
Qed.

(** ** Auditing *)

(** What the audit row of an answer says. *)
Definition authorization_row (request : AuthorizationRequest) (ts : Z) (o : AuthorizationOutcome)
    (row : AppendAuditEventExtended) : Prop :=
  aa_action row = Some "mcp_authorize" /\ aa_created_at_epoch_ms row = ts /\
  aa_actor_id row = ri_client_id (ar_identity request) /\
  aa_object_id row = Some (ar_tool_id request) /\
  aa_connection_id row = Some (ar_connection_id request) /\
  aa_correlation_id row = correlation_id o /\ aa_error_code row = deny_code o /\
  aa_outcome row = Some (EventOutcome.as_str
    (if allowed o then EventOutcome.Success
     else if bool_decide (deny_code o = Some APPROVAL_REQUIRED_CODE) then EventOutcome.Pending
     else EventOutcome.Failure)).

Lemma refusal_code_not_approval tc eng request code reason :
  refusal tc eng request code reason -> code <> APPROVAL_REQUIRED_CODE.
Proof. by destruct 1. Qed.

(** A decided outcome, its kind of event and its correlation id go together. *)
Lemma decided_outcome tc eng request gate cid s s' kind details o :
  decided tc eng request gate cid s s' kind details o ->
  correlation_id o = Some cid /\ (deny_reason o = None -> deny_code o = None) /\
  flat_object (classification_entry request :: details) /\
  kind = if allowed o then EventOutcome.Success
         else if bool_decide (deny_code o = Some APPROVAL_REQUIRED_CODE) then EventOutcome.Pending
         else EventOutcome.Failure.
Proof.
  pose proof (rule_spec tc eng request) as Hrule.
  assert (forall l, bool_decide (NoDup l.*1) = true ->
    forallb (fun kv => flat_value kv.2) l = true -> flat_object l) as Hflat.
  { intros l Hl%bool_decide_eq_true Hf. split; [done|]. apply Forall_forall. intros kv Hkv.
    rewrite forallb_forall in Hf. by apply Hf, list_elem_of_In. }
  intros [code reason Hk|Hk|s2 resolution k d o' Hk _ Ho].
  - rewrite Hk in Hrule. split_and!; [done..|by apply Hflat|]. simpl.
    rewrite bool_decide_false; [done|]. intros [= ->].
    by apply refusal_code_not_approval in Hrule.
  - split_and!; [done..|by apply Hflat|done].
  - destruct resolution as [[pid|pid|]|]; simplify_eq/=; split_and!; try done; by apply Hflat.
Qed.

Lemma decision_event_fields request ts cid kind details o :
  (deny_reason o = None -> deny_code o = None) ->
  let e := decision_event request ts cid kind details o in
  bare e = bare (match deny_code o with
                 | Some code => with_error code EmptyString (request_event request ts cid kind)
                 | None => request_event request ts cid kind
                 end) /\
  ev_details_json e = Some (json_to_string (VObject (classification_entry request :: details))).
Proof.
  unfold decision_event. intros Hdeny. generalize (request_event request ts cid kind) as e0.
  generalize (json_to_string (VObject (classification_entry request :: details))) as d.
  intros d e0. cbv zeta.
  destruct (deny_code o) as [code|], (deny_reason o) as [reason|];
    [split; reflexivity|discriminate (Hdeny eq_refl)|split; reflexivity..].
Qed.

Context `{!SerdeJsonLaws}.

Lemma authorization_audited tc eng request gate ts w svc g w' svc' g' r :
  authorize_request_with_approval tc eng request gate ts (w, (svc, g)) = ((w', (svc', g')), r) ->
  match r with
  | Ok o => if enabled svc
            then exists id row, rows svc' = rows svc ++ [(id, row)] /\
                   authorization_row request ts o row
            else svc' = svc
  | Err _ => svc' = svc
  end.
Proof.
  intros Hr%authorize_inv. destruct (cid_run request w) as [w1 cid].
  destruct Hr as [(e & _ & ? & ->)|[(? & ? & ? & ? & _ & _ & _ & ? & ->)|Hr]]; [by simplify_eq..|].
  destruct Hr as (w2 & g2 & kind & details & o & Hd & Ha).
  apply answer_inv in Ha as (w3 & svc3 & r0 & Hrec & Hs & ->). simplify_eq.
  apply record_cases in Hrec. destruct r0 as [stored|]; [|by destruct Hrec].
  destruct (enabled svc); [|by destruct Hrec].
  apply decided_outcome in Hd as (Hcid & Hdeny & _ & ->).
  destruct (decision_event_fields request ts cid (if allowed o then EventOutcome.Success
    else if bool_decide (deny_code o = Some APPROVAL_REQUIRED_CODE) then EventOutcome.Pending
    else EventOutcome.Failure) details o Hdeny) as [Hbare _].
  apply (stored_as_bare _ _ _ _ (ri_client_id (ar_identity request))) in Hrec
    as (id & e2 & Hrows & He2 & _).
  2:{ apply (f_equal ev_actor_id) in Hbare. simpl in Hbare. rewrite Hbare.
      by destruct (deny_code o). }
  exists id, (extended_event e2). split; [done|]. rewrite Hbare in He2.
  unfold authorization_row. rewrite Hcid.
  apply extended_bare in He2. by destruct (deny_code o).
Qed.

(** Every answer is audited exactly once: with auditing enabled, a call that
    is answered appends one [mcp_authorize] row that names the client, the tool,
    the connection, the correlation id and the refusal code, and whose outcome is
    success for an allowed call, pending for one that waits for approval and
    failure otherwise; a call that fails with an error leaves no row. *)
Theorem authorization_is_audited_once tc eng request gate ts w svc g w' svc' g' r :
  authorize_request_with_approval tc eng request gate ts (w, (svc, g)) = ((w', (svc', g')), r) ->
  match r with
  | Ok o => if enabled svc
            then exists id row, rows svc' = rows svc ++ [(id, row)] /\
                   authorization_row request ts o row
            else svc' = svc
  | Err _ => svc' = svc
  end.
Proof. apply authorization_audited. Qed.

(** What an answer repeats of the call, and what stays as it was. *)
Lemma authorize_answer tc eng request gate ts w svc g w' svc' g' o :
  authorize_request_with_approval tc eng request gate ts (w, (svc, g)) = ((w', (svc', g')), Ok o) ->
  correlation_id o = Some (cid_run request w).2 /\
  actor_id o = ri_client_id (ar_identity request) /\ enabled svc' = enabled svc.
Proof.
  intros (w2 & kind & details & Hr)%authorize_Ok. destruct (cid_run request w) as [w1 cid].
  destruct Hr as [Hd (stored & Hrec)]. apply decided_outcome in Hd as Ho.
  split; [apply Ho|]. split.
  - inversion Hd as [| |s2 resolution k d o' _ _ Hout]; subst; [done..|].
    by destruct resolution as [[]|]; simplify_eq/=.
  - apply record_cases in Hrec. destruct (enabled svc) eqn:Hen; [|by destruct Hrec as [_ ->]].
    by destruct Hrec as (e1 & e2 & id & _ & _ & _ & _ & _ & ->).
Qed.

Lemma validate_bare e : validate_event (bare e) = validate_event e.
Proof. reflexivity. Qed.

Lemma validate_with_error code msg e : validate_event (with_error code msg e) = validate_event e.
Proof. reflexivity. Qed.

Lemma request_event_valid request ts cid kind :
  is_blank (ri_client_id (ar_identity request)) = false -> is_blank (ar_tool_id request) = false ->
  validate_event (request_event request ts cid kind) = Ok tt.
Proof.
  intros Hc Ht. unfold validate_event. simpl. rewrite is_blank_stuck; [|done|reflexivity].
  unfold require. simpl. by rewrite Hc, Ht.
Qed.

Lemma decision_event_valid request ts cid kind details o :
  (deny_reason o = None -> deny_code o = None) ->
  is_blank (ri_client_id (ar_identity request)) = false -> is_blank (ar_tool_id request) = false ->
  validate_event (decision_event request ts cid kind details o) = Ok tt.
Proof.
  intros Hdeny Hc Ht. rewrite <- validate_bare.
  rewrite (proj1 (decision_event_fields request ts cid kind details o Hdeny)), validate_bare.
  destruct (deny_code o); [rewrite validate_with_error|]; by apply request_event_valid.
Qed.

Lemma cid_run_fault request w : db_fault (cid_run request w).1 = db_fault w.
Proof. unfold cid_run. by destruct (ar_correlation_id request). Qed.

(** C16: authorization answers: when the database does not fail, the roles the
    assignments name exist, the client and the tool have names and the gate
    answers, the call is answered, never lost in an error. *)
Theorem authorization_answers tc eng request gate ts w svc g :
  (forall k, db_fault w k = None) ->
  is_blank (ri_client_id (ar_identity request)) = false -> is_blank (ar_tool_id request) = false ->
  is_ok (evaluate eng (policy_request request)) = true ->
  (forall resolve, gate = Some resolve -> exists w2 g2 res,
     resolve request ((cid_run request w).1, g) = ((w2, g2), Ok res) /\
     forall k, db_fault w2 k = None) ->
  exists s' o, authorize_request_with_approval tc eng request gate ts (w, (svc, g)) = (s', Ok o).
Proof.
  intros Hw Hc Ht Hev Hgate.
  destruct (authorize_request_with_approval _ _ _ _ _ _) as [s' r] eqn:Hr. exists s'.
  apply authorize_inv in Hr. pose proof (cid_run_fault request w) as Hf.
  destruct (cid_run request w) as [w1 cid]. simpl in *.
  pose proof (rule_spec tc eng request) as Hrule.
  destruct Hr as [(e & He & _)|[(resolve & w2 & g2 & e & _ & -> & Hres & _)|Hr]].
  - rewrite He in Hrule. destruct Hrule as [_ Hrule]. by rewrite Hrule in Hev.
  - destruct (Hgate resolve eq_refl) as (? & ? & ? & Hres' & _). congruence.
  - destruct Hr as (w2 & g2 & kind & details & o & Hd & Ha). exists o.
    apply answer_inv in Ha as (w3 & svc3 & r0 & Hrec & -> & ->).
    assert (forall k, db_fault w2 k = None) as Hw2.
    { inversion Hd as [? ? _|_|s2 res ? ? ? _ Hg _]; subst; [by rewrite Hf..|].
      destruct gate as [resolve|]; simpl in Hg; [|destruct Hg; simplify_eq; by rewrite Hf].
      destruct Hg as (x & Hx & _). destruct (Hgate resolve eq_refl) as (? & ? & ? & Hx' & Hok).
      congruence. }
    apply decided_outcome in Hd as (_ & Hdeny & Hflat & _).
    edestruct (record_succeeds (decision_event request ts cid kind details o)) as (s3 & stored & Hok);
      [by apply decision_event_fields|by apply json_flat_roundtrip|
       by apply decision_event_valid|exact Hw2|].
    rewrite Hok in Hrec. by simplify_eq.
Qed.

End Run.

(** ** On concrete calls *)

Module AuthExample.

Definition clients : TrustedClientRegistry := [mkClient "agent" "Agent" None true].
Definition engine : PolicyEngine :=
  builtin_engine [mkAssignment "agent" "db" ["builtin/write"] []].
Definition write_call : AuthorizationRequest :=
  mkAuthRequest (mkRequestIdentity "agent" None) "db" "update_records" Write true false (Some "c").
Definition drop_call : AuthorizationRequest :=
  mkAuthRequest (mkRequestIdentity "agent" None) "db" "drop_table" AdminDestructive true false
    (Some "c").
Definition granting : ApprovalGate unit := fun _ s => (s, Ok (Granted "7")).

Definition run (request : AuthorizationRequest) :=
  authorize_request_with_approval clients engine request (Some granting) 5
    (plain_world, (empty_audit, tt)).

Lemma run_cases request b :
  match (run request).2 with Ok o => Bool.eqb (allowed o) b | Err _ => false end = true ->
  exists w' svc' g' o, run request = ((w', (svc', g')), Ok o) /\ allowed o = b.
Proof.
  destruct (run request) as [[w' [svc' g']] [o|]] eqn:Hr; simpl; [|done].
  intros Hb%Bool.eqb_prop. eauto 10.
Qed.

End AuthExample.

Lemma allowed_call_is_authorized_witness :
  exists w' g' o,
  cleared AuthExample.clients AuthExample.write_call /\
  (evaluate AuthExample.engine (policy_request AuthExample.write_call) = Ok Allow /\
     approved_execution_id o = None \/
   evaluate AuthExample.engine (policy_request AuthExample.write_call) = Ok RequireApproval /\
   exists resolve w2 res, Some AuthExample.granting = Some resolve /\
     resolve AuthExample.write_call (w', tt) = ((w2, g'), Ok res) /\
     ((exists pid, res = Granted pid /\ approved_execution_id o = Some pid) \/
      res = Exempt /\ approved_execution_id o = None)).
Proof.
  destruct (AuthExample.run_cases AuthExample.write_call true) as (w' & svc' & g' & o & Hr & Ha);
    [vm_compute; reflexivity|].
  unfold AuthExample.run in Hr. exists plain_world, g', o. exact (allowed_call_is_authorized _ _ _ _ _ _ _ _ _ _ _ _ Hr Ha).
Defined.

Lemma denied_call_names_its_cause_witness :
  exists code reason o, deny_code o = Some code /\ deny_reason o = Some reason /\
    approved_execution_id o = None /\
    (refusal AuthExample.clients AuthExample.engine AuthExample.drop_call code reason /\
       pending_execution_id o = None \/
     code = APPROVAL_REQUIRED_CODE /\ cleared AuthExample.clients AuthExample.drop_call /\
     evaluate AuthExample.engine (policy_request AuthExample.drop_call) = Ok RequireApproval).
Proof.
  destruct (AuthExample.run_cases AuthExample.drop_call false) as (w' & svc' & g' & o & Hr & Ha);
    [vm_compute; reflexivity|].
  unfold AuthExample.run in Hr. destruct (denied_call_names_its_cause _ _ _ _ _ _ _ _ _ _ _ _ Hr Ha) as (code & reason & Hd).
  exists code, reason, o. exact Hd.
Defined.

Lemma gate_is_consulted_only_for_approval_witness :
  exists g', g' = tt \/ cleared AuthExample.clients AuthExample.drop_call /\
    evaluate AuthExample.engine (policy_request AuthExample.drop_call) = Ok RequireApproval.
Proof.
  destruct (AuthExample.run_cases AuthExample.drop_call false) as (w' & svc' & g' & o & Hr & Ha);
    [vm_compute; reflexivity|].
  unfold AuthExample.run in Hr. exists g'. exact (gate_is_consulted_only_for_approval _ _ _ _ _ _ _ _ _ _ _ _ Hr).
Defined.

Lemma authorization_is_audited_once_witness :
  exists svc' o id row, rows svc' = rows empty_audit ++ [(id, row)] /\
    authorization_row AuthExample.drop_call 5 o row.
Proof.
  destruct (AuthExample.run_cases AuthExample.drop_call false) as (w' & svc' & g' & o & Hr & Ha);
    [vm_compute; reflexivity|].
  unfold AuthExample.run in Hr. exists svc', o. exact (authorization_is_audited_once _ _ _ _ _ _ _ _ _ _ _ _ Hr).
Defined.

Lemma authorization_answers_witness :
  exists s' o, AuthExample.run AuthExample.write_call = (s', Ok o).
Proof.
  apply (authorization_answers AuthExample.clients AuthExample.engine AuthExample.write_call
           (Some AuthExample.granting) 5 plain_world empty_audit tt);
    [done|vm_compute; reflexivity..|].
  intros resolve [= <-]. exists plain_world, tt, (Granted "7"). done.
Defined.
