(* ===== verification/Runtime.v ===== *)
(** * The MCP runtime (crates/dbflux_mcp: runtime.rs, handlers/approval.rs)

    [McpRuntime] holds the trusted clients, roles, policies and assignments as
    hash maps, the approval service and the audit service, and a list of events
    for the user interface.  It builds the policy engine, resolves pending
    executions for a person, and is the approval gate behind authorization. *)

From stdpp Require Import pretty.
From S2P Require Import Prelude RustStr External Classification Policy Approval ApprovalService Events UriRedact Redaction AuditService Governance Authorization.

(** ** Texts *)

Definition status_debug (s : PendingStatus) : string :=
  match s with
  | Pending => "Pending"
  | Approved => "Approved"
  | Rejected => "Rejected"
  | Consumed => "Consumed"
  end.

Definition store_error_display (e : PendingStoreError) : string :=
  match e with
  | Backend msg => "pending store backend error: " +:+ msg
  | Serialization msg => "failed to (de)serialize pending payload: " +:+ msg
  end.

Definition approval_error_display `{UuidLib} (e : ApprovalError) : string :=
  match e with
  | PendingNotFound id => "pending execution not found: " +:+ uuid_to_string id
  | InvalidTransition id => "pending execution is not in pending state: " +:+ uuid_to_string id
  | StoreError e => store_error_display e
  end.

(** ** The approval handlers (handlers/approval.rs) *)

Inductive ApprovalHandlerError `{UuidLib} : Type :=
| InvalidPendingId (id : string)
| HApproval (e : ApprovalError).

Definition handler_error_display `{UuidLib} (e : ApprovalHandlerError) : string :=
  match e with
  | InvalidPendingId id => "invalid pending execution id: " +:+ id
  | HApproval e => approval_error_display e
  end.

Section Handlers.
Context `{UuidLib, SerdeJson, !PendingExecutionStore St}.

#[local] Abbreviation HandlerM := (SM (World * ApprovalService St) ApprovalHandlerError).

Definition parse_pending_id (pending_id : string) : HandlerM Uuid :=
  sm_lift (map_err (fun _ => InvalidPendingId pending_id) (uuid_parse pending_id)).

Definition handle_request_execution (plan : ExecutionPlan) : HandlerM PendingExecution :=
  sm_map_err HApproval (request_execution plan).

Definition handle_approve_execution (pending_id : string) : HandlerM ApprovedExecution :=
  id ← parse_pending_id pending_id;
  sm_map_err HApproval (approve id).

Definition handle_get_pending_execution (pending_id : string) : HandlerM PendingExecution :=
  id ← parse_pending_id pending_id;
  l ← sm_map_err HApproval svc_list_pending;
  sm_lift (ok_or (List.find (has_id id) l) (HApproval (PendingNotFound id))).

Definition handle_reject_execution (pending_id : string) (reason : option string)
  : HandlerM RejectedExecution :=
  id ← parse_pending_id pending_id;
  sm_map_err HApproval (reject id reason).

End Handlers.

(** ** The runtime *)

Definition APPROVAL_QUEUE_TOOLS : list string :=
  ["request_execution"; "list_pending_executions"; "get_pending_execution"].

Inductive McpRuntimeEvent : Type :=
| TrustedClientsUpdated
| RolesUpdated
| PoliciesUpdated
| ConnectionPolicyUpdated (connection_id : string)
| PendingExecutionsUpdated
| AuditAppended.

Record McpRuntime (St : Type) := mkRuntime {
  rt_trusted_clients : gmap string TrustedClientDto;
  rt_roles : gmap string PolicyRoleDto;
  rt_policies : gmap string ToolPolicyDto;
  rt_assignments : gmap string ConnectionPolicyAssignmentDto;
  rt_approval_service : ApprovalService St;
  rt_audit_service : AuditService;
  rt_pending_events : list McpRuntimeEvent;
  rt_mcp_enabled : bool;
}.
Arguments mkRuntime {St}.
Arguments rt_trusted_clients {St}.
Arguments rt_roles {St}.
Arguments rt_policies {St}.
Arguments rt_assignments {St}.
Arguments rt_approval_service {St}.
Arguments rt_audit_service {St}.
Arguments rt_pending_events {St}.
Arguments rt_mcp_enabled {St}.

(** *** Views and plain updates *)

Section Views.
Context `{HashOrder} {St : Type}.
Implicit Types rt : McpRuntime St.

Definition client_of_dto (c : TrustedClientDto) : TrustedClient :=
  mkClient (cd_id c) (cd_name c) (cd_issuer c) (cd_active c).

Definition trusted_client_registry rt : TrustedClientRegistry :=
  map client_of_dto (hash_values (rt_trusted_clients rt)).

Definition roles_for_engine rt : list PolicyRole := map role_of_dto (hash_values (rt_roles rt)).

(** A stored policy that does not convert is left out. *)
Definition policies_for_engine rt : list ToolPolicy :=
  omap (fun dto => match policy_of_dto dto with Ok p => Some p | Err _ => None end)
    (hash_values (rt_policies rt)).

(** The connection is that of the entry, not the one inside the binding. *)
Definition policy_assignments_for_engine rt : list ConnectionPolicyAssignment :=
  flat_map (fun a => map (fun b => mkAssignment (pa_actor_id b) (ad_connection_id a)
                                    (pa_role_ids b) (pa_policy_ids b)) (ad_assignments a))
    (hash_values (rt_assignments rt)).

Definition list_trusted_clients rt : result (list TrustedClientDto) GovernanceError :=
  Ok (sort_by_key cd_id (hash_values (rt_trusted_clients rt))).
Definition list_roles rt : result (list PolicyRoleDto) GovernanceError :=
  Ok (sort_by_key rd_id (hash_values (rt_roles rt))).
Definition list_policies rt : result (list ToolPolicyDto) GovernanceError :=
  Ok (sort_by_key pd_id (hash_values (rt_policies rt))).
Definition list_connection_policy_assignments rt
  : result (list ConnectionPolicyAssignmentDto) GovernanceError :=
  Ok (sort_by_key ad_connection_id (hash_values (rt_assignments rt))).

Definition push_event (e : McpRuntimeEvent) rt : McpRuntime St :=
  mkRuntime (rt_trusted_clients rt) (rt_roles rt) (rt_policies rt) (rt_assignments rt)
    (rt_approval_service rt) (rt_audit_service rt) (rt_pending_events rt ++ [e])
    (rt_mcp_enabled rt).
Definition set_clients (m : gmap string TrustedClientDto) rt : McpRuntime St :=
  mkRuntime m (rt_roles rt) (rt_policies rt) (rt_assignments rt)
    (rt_approval_service rt) (rt_audit_service rt) (rt_pending_events rt) (rt_mcp_enabled rt).
Definition set_roles (m : gmap string PolicyRoleDto) rt : McpRuntime St :=
  mkRuntime (rt_trusted_clients rt) m (rt_policies rt) (rt_assignments rt)
    (rt_approval_service rt) (rt_audit_service rt) (rt_pending_events rt) (rt_mcp_enabled rt).
Definition set_policies (m : gmap string ToolPolicyDto) rt : McpRuntime St :=
  mkRuntime (rt_trusted_clients rt) (rt_roles rt) m (rt_assignments rt)
    (rt_approval_service rt) (rt_audit_service rt) (rt_pending_events rt) (rt_mcp_enabled rt).
Definition set_assignments (m : gmap string ConnectionPolicyAssignmentDto) rt : McpRuntime St :=
  mkRuntime (rt_trusted_clients rt) (rt_roles rt) (rt_policies rt) m
    (rt_approval_service rt) (rt_audit_service rt) (rt_pending_events rt) (rt_mcp_enabled rt).
Definition set_approval (a : ApprovalService St) rt : McpRuntime St :=
  mkRuntime (rt_trusted_clients rt) (rt_roles rt) (rt_policies rt) (rt_assignments rt)
    a (rt_audit_service rt) (rt_pending_events rt) (rt_mcp_enabled rt).
Definition set_audit (a : AuditService) rt : McpRuntime St :=
  mkRuntime (rt_trusted_clients rt) (rt_roles rt) (rt_policies rt) (rt_assignments rt)
    (rt_approval_service rt) a (rt_pending_events rt) (rt_mcp_enabled rt).
Definition set_mcp_enabled (b : bool) rt : McpRuntime St :=
  mkRuntime (rt_trusted_clients rt) (rt_roles rt) (rt_policies rt) (rt_assignments rt)
    (rt_approval_service rt) (rt_audit_service rt) (rt_pending_events rt) b.

(** [std::mem::take]. *)
Definition drain_events rt : McpRuntime St * list McpRuntimeEvent :=
  (mkRuntime (rt_trusted_clients rt) (rt_roles rt) (rt_policies rt) (rt_assignments rt)
     (rt_approval_service rt) (rt_audit_service rt) [] (rt_mcp_enabled rt),
   rt_pending_events rt).

Definition clear_runtime rt : McpRuntime St :=
  push_event PoliciesUpdated (push_event RolesUpdated (push_event TrustedClientsUpdated
    (mkRuntime ∅ ∅ ∅ ∅ (rt_approval_service rt) (rt_audit_service rt)
       (rt_pending_events rt) (rt_mcp_enabled rt)))).

(** The methods that take [&mut self] and do not touch the services. *)
#[local] Abbreviation CfgM := (SM (McpRuntime St) GovernanceError).

Definition upsert_trusted_client_mut (client : TrustedClientDto) : CfgM TrustedClientDto :=
  if is_blank (cd_id client) then
    sm_err (GValidation "trusted client id must not be empty")
  else
    _ ← sm_modify (fun rt => set_clients (<[cd_id client := client]> (rt_trusted_clients rt)) rt);
    _ ← sm_modify (push_event TrustedClientsUpdated);
    mret client.

Definition delete_trusted_client_mut (client_id : string) : CfgM unit :=
  rt ← sm_get;
  match rt_trusted_clients rt !! client_id with
  | None => sm_err (GNotFound ("trusted client " +:+ client_id))
  | Some _ =>
      _ ← sm_modify (fun rt => set_clients (delete client_id (rt_trusted_clients rt)) rt);
      sm_modify (push_event TrustedClientsUpdated)
  end.

Definition upsert_role_mut (role : PolicyRoleDto) : CfgM PolicyRoleDto :=
  if is_blank (rd_id role) then sm_err (GValidation "role id must not be empty")
  else
    _ ← sm_modify (fun rt => set_roles (<[rd_id role := role]> (rt_roles rt)) rt);
    _ ← sm_modify (push_event RolesUpdated);
    mret role.

Definition delete_role_mut (role_id : string) : CfgM unit :=
  rt ← sm_get;
  match rt_roles rt !! role_id with
  | None => sm_err (GNotFound ("role " +:+ role_id))
  | Some _ =>
      _ ← sm_modify (fun rt => set_roles (delete role_id (rt_roles rt)) rt);
      sm_modify (push_event RolesUpdated)
  end.

Definition upsert_policy_mut (policy : ToolPolicyDto) : CfgM ToolPolicyDto :=
  if is_blank (pd_id policy) then sm_err (GValidation "policy id must not be empty")
  else
    _ ← sm_modify (fun rt => set_policies (<[pd_id policy := policy]> (rt_policies rt)) rt);
    _ ← sm_modify (push_event PoliciesUpdated);
    mret policy.

Definition delete_policy_mut (policy_id : string) : CfgM unit :=
  rt ← sm_get;
  match rt_policies rt !! policy_id with
  | None => sm_err (GNotFound ("policy " +:+ policy_id))
  | Some _ =>
      _ ← sm_modify (fun rt => set_policies (delete policy_id (rt_policies rt)) rt);
      sm_modify (push_event PoliciesUpdated)
  end.

Definition save_connection_policy_assignment_mut (assignment : ConnectionPolicyAssignmentDto)
  : CfgM ConnectionPolicyAssignmentDto :=
  _ ← sm_modify (fun rt =>
        set_assignments (<[ad_connection_id assignment := assignment]> (rt_assignments rt)) rt);
  _ ← sm_modify (push_event (ConnectionPolicyUpdated (ad_connection_id assignment)));
  mret assignment.

End Views.

(** *** Methods that use the services *)

Section Services.
Context `{UuidLib, SerdeJson, RegexLib, TextLib, HashOrder, !PendingExecutionStore St}.

#[local] Abbreviation RtM := (SM (World * McpRuntime St) GovernanceError).

Definition rt_now_epoch_ms : RtM Z := sm_zoom fst (fun w s => (w, s.2)) now_epoch_ms.

(** A call of the approval handlers, with its error as text. *)
Definition on_approval {A} (m : SM (World * ApprovalService St) ApprovalHandlerError A) : RtM A :=
  sm_map_err (fun e => GOperation (handler_error_display e))
    (sm_zoom (fun s => (s.1, rt_approval_service s.2))
             (fun t s => (t.1, set_approval t.2 s.2)) m).

Definition rt_push (e : McpRuntimeEvent) : RtM unit :=
  sm_modify (fun s => (s.1, push_event e s.2)).

(** [McpRuntime::new]: a failed purge is only reported. *)
Definition runtime_new (audit_service : AuditService) (store : St) (w : World)
  : World * McpRuntime St :=
  let '(w, now) := now_epoch_ms (E := ApprovalError) w in
  let now_ms := match now with Ok n => n | Err _ => 0 end in
  let '((w, approval), _) := svc_purge now_ms (w, service_new store) in
  (w, mkRuntime ∅ ∅ ∅ ∅ approval audit_service [] true).

Definition pending_summary (pending : PendingExecution) : PendingExecutionSummary :=
  mkSummary (uuid_to_string (pe_id pending)) (plan_actor_id (pe_plan pending))
    (plan_connection_id (pe_plan pending)) (plan_tool_id (pe_plan pending))
    (plan_classification (pe_plan pending))
    (to_ascii_lowercase (status_debug (pe_status pending))) (pe_created_at pending).

Definition list_pending_executions : RtM (list PendingExecutionSummary) :=
  l ← on_approval (sm_map_err HApproval svc_list_pending);
  mret (map pending_summary l).

Definition get_pending_execution (pending_id : string) : RtM PendingExecutionDetail :=
  id ← sm_lift (map_err (fun _ => GValidation "invalid pending id") (uuid_parse pending_id));
  l ← on_approval (sm_map_err HApproval svc_list_pending);
  pending ← sm_lift (ok_or (List.find (has_id id) l)
              (GNotFound ("pending execution " +:+ uuid_to_string id)));
  mret (mkDetail _ _ (pending_summary pending) (plan_payload (pe_plan pending))).

Definition record_audit_event (event : EventRecord) : RtM EventRecord :=
  recorded ← sm_map_err (fun e => GOperation (audit_error_display e))
    (sm_zoom (fun s => (s.1, rt_audit_service s.2))
             (fun t s => (t.1, set_audit t.2 s.2)) (record event));
  _ ← match ev_id recorded with Some _ => rt_push AuditAppended | None => mret tt end;
  mret recorded.

Definition approval_outcome_from_recorded (recorded : EventRecord) (status : string)
  : ApprovalOutcome :=
  mkApprovalOutcome (match ev_id recorded with Some id => pretty id | None => EmptyString end)
    status (default EmptyString (ev_actor_id recorded)) (ev_ts_ms recorded).

Definition approval_event (plan : ExecutionPlan) (ts_ms : Z)
    (pending_id approver_actor_id : string) (origin : EventOrigin) : EventRecord :=
  with_details_json (json_to_string (VObject [
      ("requested_by", VString (plan_actor_id plan));
      ("approved_by", VString approver_actor_id);
      ("tool_id", VString (plan_tool_id plan))]))
    (with_connection_context (plan_connection_id plan) EmptyString EmptyString
      (with_object_ref "pending_execution" pending_id
        (with_actor_id approver_actor_id
          (with_summary ("MCP execution approved: tool=" +:+ plan_tool_id plan +:+
              " requester=" +:+ plan_actor_id plan +:+ " approver=" +:+ approver_actor_id)
            (with_origin origin
              (with_typed_action MCP_APPROVE_EXECUTION
                (event_new ts_ms EventSeverity.Info EventCategory.Mcp EventOutcome.Success))))))).

(** The approval takes effect before it is audited. *)
Definition approve_pending_execution_with_origin_mut (pending_id approver_actor_id : string)
    (origin : EventOrigin) : RtM ApprovalOutcome :=
  pending ← on_approval (handle_get_pending_execution pending_id);
  ts_ms ← rt_now_epoch_ms;
  let event := approval_event (pe_plan pending) ts_ms pending_id approver_actor_id origin in
  _ ← on_approval (handle_approve_execution pending_id);
  recorded ← record_audit_event event;
  _ ← rt_push PendingExecutionsUpdated;
  mret (approval_outcome_from_recorded recorded "approved").

Definition approve_pending_execution_as_mut (pending_id approver_actor_id : string)
  : RtM ApprovalOutcome :=
  approve_pending_execution_with_origin_mut pending_id approver_actor_id origin_system.

Definition approve_pending_execution_mut (pending_id : string) : RtM ApprovalOutcome :=
  approve_pending_execution_as_mut pending_id "system".

Definition rejection_event (plan : ExecutionPlan) (ts_ms : Z)
    (pending_id rejector_actor_id rejection_reason : string) (origin : EventOrigin) : EventRecord :=
  with_details_json (json_to_string (VObject [
      ("requested_by", VString (plan_actor_id plan));
      ("rejected_by", VString rejector_actor_id);
      ("tool_id", VString (plan_tool_id plan));
      ("reason", VString rejection_reason)]))
    (with_error "rejected" rejection_reason
      (with_connection_context (plan_connection_id plan) EmptyString EmptyString
        (with_object_ref "pending_execution" pending_id
          (with_actor_id rejector_actor_id
            (with_summary ("MCP execution rejected: tool=" +:+ plan_tool_id plan +:+
                " requester=" +:+ plan_actor_id plan +:+ " rejector=" +:+ rejector_actor_id)
              (with_origin origin
                (with_typed_action MCP_REJECT_EXECUTION
                  (event_new ts_ms EventSeverity.Warn EventCategory.Mcp
                     EventOutcome.Failure)))))))).

(** The rejection is audited before it takes effect; its reason is normalized
    here for the audit event and again by the service for the store. *)
Definition reject_pending_execution_with_origin_mut (pending_id rejector_actor_id : string)
    (reason : option string) (origin : EventOrigin) : RtM ApprovalOutcome :=
  pending ← on_approval (handle_get_pending_execution pending_id);
  let given_reason := normalize_rejection_reason reason in
  let rejection_reason := default "rejected by approver" given_reason in
  ts_ms ← rt_now_epoch_ms;
  let event := rejection_event (pe_plan pending) ts_ms pending_id rejector_actor_id
                 rejection_reason origin in
  recorded ← record_audit_event event;
  _ ← on_approval (handle_reject_execution pending_id given_reason);
  _ ← rt_push PendingExecutionsUpdated;
  mret (approval_outcome_from_recorded recorded "rejected").

Definition reject_pending_execution_as_mut (pending_id rejector_actor_id : string)
    (reason : option string) : RtM ApprovalOutcome :=
  reject_pending_execution_with_origin_mut pending_id rejector_actor_id reason origin_system.

Definition reject_pending_execution_mut (pending_id : string) : RtM ApprovalOutcome :=
  reject_pending_execution_as_mut pending_id "system" None.

Definition request_execution_mut (plan : ExecutionPlan) : RtM PendingExecutionSummary :=
  pending ← on_approval (handle_request_execution plan);
  _ ← rt_push PendingExecutionsUpdated;
  mret (pending_summary pending).

Definition consume_approved_execution_mut (plan : ExecutionPlan)
  : RtM (option PendingExecutionSummary) :=
  consumed ← on_approval (sm_map_err HApproval (svc_consume_approved plan));
  match consumed with
  | None => mret None
  | Some consumed =>
      _ ← rt_push PendingExecutionsUpdated;
      mret (Some (pending_summary consumed))
  end.

(** *** The approval gate *)

Definition request_plan (request : AuthorizationRequest) (payload : Value) : ExecutionPlan :=
  mkPlan (ar_connection_id request) (ri_client_id (ar_identity request)) (ar_tool_id request)
    (ar_classification request) payload.

(** [RuntimeApprovalGate::resolve]. *)
Definition runtime_gate (payload : Value) : ApprovalGate (McpRuntime St) := fun request =>
  if bool_decide (ar_tool_id request ∈ APPROVAL_QUEUE_TOOLS) then mret Exempt
  else
    let plan := request_plan request payload in
    consumed ← sm_map_err (fun e => AuthApproval (governance_error_display e))
                 (consume_approved_execution_mut plan);
    match consumed with
    | Some consumed => mret (Granted (ps_id consumed))
    | None =>
        queued ← sm_map_err (fun e => AuthApproval (governance_error_display e))
                   (request_execution_mut plan);
        mret (Queued (ps_id queued))
    end.

(** [authorize_with_approval_mut]: the cloned audit service shares its store and
    settings with the runtime's. *)
Definition authorize_with_approval_mut (trusted_clients : TrustedClientRegistry)
    (policy_engine : PolicyEngine) (request : AuthorizationRequest) (payload : Value)
    (created_at_epoch_ms : Z) : SM (World * McpRuntime St) AuthorizationError AuthorizationOutcome :=
  sm_zoom (fun s => (s.1, (rt_audit_service s.2, s.2)))
          (fun t s => (t.1, set_audit t.2.1 t.2.2))
    (authorize_request_with_approval trusted_clients policy_engine request
       (Some (runtime_gate payload)) created_at_epoch_ms).

End Services.
