(* ===== verification/RuntimeConfig.v ===== *)
(** * The runtime's configuration (crates/dbflux_mcp: runtime.rs)

    The configuration maps are keyed by the ids of their entries; what the
    runtime lists, and what it decides, then does not depend on the unspecified
    iteration order of the hash maps. *)

From stdpp Require Import sorting.
From S2P Require Import Prelude RustStr External Concrete Classification Policy Approval ApprovalService Events UriRedact Redaction AuditService Governance Authorization Runtime.

(** ** Sorting by key *)

Lemma string_leb_trans s1 s2 s3 :
  String.leb s1 s2 = true -> String.leb s2 s3 = true -> String.leb s1 s3 = true.
Proof.
  unfold String.leb. revert s2 s3.
  induction s1 as [|c1 s1 IH]; intros [|c2 s2] [|c3 s3]; simpl; try done.
  specialize (IH s2 s3). unfold Ascii.compare.
  destruct (N.compare_spec (N_of_ascii c1) (N_of_ascii c2)) as [H12|H12|H12],
    (N.compare_spec (N_of_ascii c2) (N_of_ascii c3)) as [H23|H23|H23]; try done;
    destruct (N.compare_spec (N_of_ascii c1) (N_of_ascii c3)); try done; lia.
Qed.

Section Sorting.
Context {A : Type} (key : A -> string).

Definition key_le (x y : A) : Prop := String.leb (key x) (key y) = true.

Lemma insert_by_key_perm x l : insert_by_key key x l ≡ₚ x :: l.
Proof.
  induction l as [|y l IH]; simpl; [done|]. destruct (String.leb _ _); [done|].
  rewrite IH. apply Permutation_swap.
Qed.

Lemma sort_by_key_perm l : sort_by_key key l ≡ₚ l.
Proof. induction l as [|x l IH]; simpl; [done|]. by rewrite insert_by_key_perm, IH. Qed.

Lemma insert_by_key_sorted x l : StronglySorted key_le l -> StronglySorted key_le (insert_by_key key x l).
Proof.
  induction 1 as [|y l Hl IH Hy]; simpl; [by repeat constructor|].
  destruct (String.leb (key x) (key y)) eqn:Hxy.
  - constructor; [by constructor|]. constructor; [done|].
    eapply Forall_impl; [exact Hy|]. intros z Hz. by eapply string_leb_trans.
  - constructor; [done|]. rewrite Forall_forall. intros z.
    rewrite insert_by_key_perm. intros [->|Hz]%elem_of_cons.
    + unfold key_le. destruct (String.leb_total (key x) (key y)); congruence.
    + rewrite Forall_forall in Hy. auto.
Qed.

Lemma sort_by_key_sorted l : StronglySorted key_le (sort_by_key key l).
Proof. induction l as [|x l IH]; simpl; [constructor|]. by apply insert_by_key_sorted. Qed.

(** Two orders of the same entries sort to the same list when keys identify
    entries. *)
Lemma sort_by_key_unique l1 l2 :
  (forall x y, x ∈ l1 -> y ∈ l1 -> key x = key y -> x = y) -> l1 ≡ₚ l2 ->
  sort_by_key key l1 = sort_by_key key l2.
Proof.
  intros Hinj Hp. apply (StronglySorted_unique_strong key_le).
  - intros x y Hx Hy H1 H2. rewrite sort_by_key_perm in Hx.
    rewrite sort_by_key_perm, <- Hp in Hy. apply Hinj; [done..|].
    by apply String.leb_antisym.
  - apply sort_by_key_sorted.
  - apply sort_by_key_sorted.
  - by rewrite !sort_by_key_perm.
Qed.

End Sorting.

(** ** Maps keyed by the ids of their entries *)

Definition keyed {A} (key : A -> string) (m : gmap string A) : Prop :=
  forall k x, m !! k = Some x -> key x = k.

Record runtime_wf {St} (rt : McpRuntime St) : Prop := mkWf {
  wf_clients : keyed cd_id (rt_trusted_clients rt);
  wf_roles : keyed rd_id (rt_roles rt);
  wf_policies : keyed pd_id (rt_policies rt);
  wf_assignments : keyed ad_connection_id (rt_assignments rt);
}.

Lemma keyed_empty {A} (key : A -> string) : keyed key ∅.
Proof. intros k x. by rewrite lookup_empty. Qed.

Lemma keyed_insert {A} (key : A -> string) m x :
  keyed key m -> keyed key (<[key x := x]> m).
Proof.
  intros Hm k y. rewrite lookup_insert. case_decide; [|apply Hm]. intros [= <-]. done.
Qed.

Lemma keyed_delete {A} (key : A -> string) m k : keyed key m -> keyed key (delete k m).
Proof. intros Hm k' x [_ Hx]%lookup_delete_Some. by apply Hm. Qed.

Lemma keyed_inj {A} (key : A -> string) `{HashOrder} (m : gmap string A) x y :
  keyed key m -> x ∈ hash_values m -> y ∈ hash_values m -> key x = key y -> x = y.
Proof.
  intros Hm [k Hk]%hash_values_elem [k' Hk']%hash_values_elem Hxy.
  pose proof (Hm _ _ Hk). pose proof (Hm _ _ Hk'). congruence.
Qed.

Lemma hash_values_perm {A} (O1 O2 : HashOrder) (m : gmap string A) :
  @hash_values O1 A m ≡ₚ @hash_values O2 A m.
Proof.
  unfold hash_values. apply Permutation_map. rewrite (@hash_entries_perm O1).
  by rewrite (@hash_entries_perm O2).
Qed.

(** What the runtime lists - clients, roles, policies and assignments - does
    not depend on the iteration order of its hash maps. *)
Theorem listings_order_independent (O1 O2 : HashOrder) {St} (rt : McpRuntime St) :
  runtime_wf rt ->
  @list_trusted_clients O1 St rt = @list_trusted_clients O2 St rt /\
  @list_roles O1 St rt = @list_roles O2 St rt /\
  @list_policies O1 St rt = @list_policies O2 St rt /\
  @list_connection_policy_assignments O1 St rt = @list_connection_policy_assignments O2 St rt.
Proof.
  intros [Hc Hr Hp Ha].
  unfold list_trusted_clients, list_roles, list_policies, list_connection_policy_assignments.
  split_and!; f_equal; apply sort_by_key_unique; try apply hash_values_perm;
    intros x y Hx Hy; by eapply (@keyed_inj _ _ O1).
Qed.

(** ** Decisions *)

Definition runtime_engine `{HashOrder} {St} (rt : McpRuntime St) : PolicyEngine :=
  engine_new (policy_assignments_for_engine rt) (roles_for_engine rt) (policies_for_engine rt).

Lemma keyed_ids `{HashOrder} {A} (key : A -> string) (m : gmap string A) :
  keyed key m -> map key (hash_values m) = map fst (hash_entries m).
Proof.
  intros Hm. unfold hash_values. rewrite map_map. apply map_ext_in.
  intros [k x] Hx%list_elem_of_In. simpl. apply (Hm k x). apply elem_of_map_to_list.
  by rewrite <- hash_entries_perm.
Qed.

Lemma keyed_NoDup `{HashOrder} {A} (key : A -> string) (m : gmap string A) :
  keyed key m -> NoDup (map key (hash_values m)).
Proof.
  intros Hm. rewrite keyed_ids by done. change (NoDup (hash_entries m).*1).
  rewrite hash_entries_perm. apply NoDup_fst_map_to_list.
Qed.

(** Looking for an entry by a condition that fixes its key. *)
Lemma find_keyed `{HashOrder} {A} (key : A -> string) (p : A -> bool) k (m : gmap string A) :
  keyed key m -> (forall x, p x = true -> key x = k) ->
  List.find p (hash_values m) =
  match m !! k with Some x => if p x then Some x else None | None => None end.
Proof.
  intros Hm Hp. destruct (List.find p (hash_values m)) as [x|] eqn:Hf.
  - apply find_some in Hf as [Hin%list_elem_of_In Hx].
    apply hash_values_elem in Hin as [k' Hk'].
    pose proof (Hm _ _ Hk') as Hkey. rewrite (Hp _ Hx) in Hkey. subst k'. by rewrite Hk', Hx.
  - destruct (m !! k) as [x|] eqn:Hk; [|done].
    destruct (p x) eqn:Hx; [|done].
    assert (x ∈ hash_values m) as Hin by (apply hash_values_elem; eauto).
    apply list_elem_of_In in Hin. by rewrite (find_none _ _ Hf _ Hin) in Hx.
Qed.

(** Only one entry contributes to the concatenation. *)
Lemma flat_map_keyed {A B} (key : A -> string) k (g : A -> list B) (l : list A) :
  NoDup (map key l) -> (forall x, key x <> k -> g x = []) ->
  flat_map g l = match List.find (fun x => bool_decide (key x = k)) l with
                 | Some x => g x | None => [] end.
Proof.
  intros Hnd Hg. induction l as [|x l IH]; simpl; [done|].
  apply NoDup_cons in Hnd as [Hx Hnd]. rewrite IH by done. case_bool_decide as Hk.
  - destruct (List.find _ l) as [y|] eqn:Hf; [|by rewrite app_nil_r].
    apply find_some in Hf as [Hy%list_elem_of_In Hyk%bool_decide_eq_true].
    destruct Hx. apply list_elem_of_fmap. exists y. split; [congruence|done].
  - by rewrite Hg.
Qed.

Lemma hash_collect_perm {A} (l1 l2 : list (string * A)) :
  NoDup l1.*1 -> l1 ≡ₚ l2 -> hash_collect l1 = hash_collect l2.
Proof.
  intros Hnd Hp. apply map_eq. intros k. apply option_eq. intros x.
  rewrite !hash_collect_NoDup; [by rewrite Hp|by rewrite <- Hp|done].
Qed.

Lemma filter_flat_map {A B} (p : B -> bool) (f : A -> list B) l :
  List.filter p (flat_map f l) = flat_map (fun x => List.filter p (f x)) l.
Proof. induction l as [|x l IH]; simpl; [done|]. by rewrite List.filter_app, IH. Qed.

(** The assignments that apply to an actor on a connection come from the one
    entry of that connection. *)
Lemma applicable_assignments `{HashOrder} {St} (rt : McpRuntime St) actor conn :
  runtime_wf rt ->
  List.filter (fun a => applies_to a actor conn) (policy_assignments_for_engine rt) =
  match rt_assignments rt !! conn with
  | Some a => List.filter (fun a => applies_to a actor conn)
      (map (fun b => mkAssignment (pa_actor_id b) (ad_connection_id a) (pa_role_ids b)
                       (pa_policy_ids b)) (ad_assignments a))
  | None => []
  end.
Proof.
  intros Hwf. unfold policy_assignments_for_engine. rewrite filter_flat_map.
  rewrite (flat_map_keyed ad_connection_id conn); [|by apply keyed_NoDup, wf_assignments|].
  - rewrite (find_keyed ad_connection_id _ conn); [|by apply wf_assignments|].
    2:{ by intros x Hx%bool_decide_eq_true. }
    destruct (rt_assignments rt !! conn) as [a|] eqn:Ha; [|done].
    rewrite bool_decide_true; [done|]. by apply (wf_assignments _ Hwf).
  - intros a Ha. induction (ad_assignments a) as [|b l IH]; simpl; [done|].
    unfold applies_to at 1. simpl. rewrite (bool_decide_false (ad_connection_id a = conn)) by done.
    by rewrite andb_false_r.
Qed.

Lemma pairs_fst {A} (key : A -> string) (l : list A) :
  (map (fun x => (key x, x)) l).*1 = map key l.
Proof. induction l as [|x l IH]; [done|]. simpl. f_equal. exact IH. Qed.

Lemma engine_roles_any_order (O1 O2 : HashOrder) {St} (rt : McpRuntime St) :
  runtime_wf rt -> eng_roles (@runtime_engine O1 St rt) = eng_roles (@runtime_engine O2 St rt).
Proof.
  intros Hwf. unfold runtime_engine, engine_new. cbn [eng_roles]. unfold roles_for_engine.
  apply hash_collect_perm.
  - rewrite (pairs_fst role_id), map_map. by apply keyed_NoDup, wf_roles.
  - by do 2 apply Permutation_map; apply hash_values_perm.
Qed.

Lemma policy_ids_sublist (l : list ToolPolicyDto) :
  map policy_id (omap (fun dto => match policy_of_dto dto with Ok p => Some p | Err _ => None end) l)
  `sublist_of` map pd_id l.
Proof.
  induction l as [|d l IH]; simpl; [done|].
  destruct (policy_of_dto d) as [p|] eqn:Hp; simpl; [|by constructor].
  apply policy_of_dto_Ok in Hp. subst d. simpl. by constructor.
Qed.

Lemma engine_policies_any_order (O1 O2 : HashOrder) {St} (rt : McpRuntime St) :
  runtime_wf rt ->
  eng_policies (@runtime_engine O1 St rt) = eng_policies (@runtime_engine O2 St rt).
Proof.
  intros Hwf. unfold runtime_engine, engine_new. cbn [eng_policies]. unfold policies_for_engine.
  apply hash_collect_perm.
  - rewrite (pairs_fst policy_id). eapply sublist_NoDup; [|apply policy_ids_sublist].
    by apply keyed_NoDup, wf_policies.
  - apply Permutation_map. by rewrite (hash_values_perm O1 O2).
Qed.

Lemma evaluate_filtered `{HashOrder} e req :
  evaluate e req = evaluate (mkEngine
    (List.filter (fun a => applies_to a (pr_actor_id req) (pr_connection_id req))
       (eng_assignments e)) (eng_roles e) (eng_policies e)) req.
Proof. unfold evaluate. simpl. by rewrite collect_filter. Qed.

(** What the runtime decides - whether a client is trusted, and what the
    policy engine built from its maps answers, errors included - does not depend
    on the iteration order of its hash maps. *)
Theorem decisions_order_independent (O1 O2 : HashOrder) {St} (rt : McpRuntime St) req i :
  runtime_wf rt ->
  @evaluate O1 (@runtime_engine O1 St rt) req = @evaluate O2 (@runtime_engine O2 St rt) req /\
  registry_evaluate (@trusted_client_registry O1 St rt) i =
  registry_evaluate (@trusted_client_registry O2 St rt) i.
Proof.
  intros Hwf. split.
  - rewrite (evaluate_any_order O1 O2). rewrite (@evaluate_filtered O2 (@runtime_engine O1 St rt)).
    rewrite (@evaluate_filtered O2 (@runtime_engine O2 St rt)). f_equal. f_equal.
    + simpl. rewrite (@applicable_assignments O1 _ _ _ _ Hwf).
      by rewrite (@applicable_assignments O2 _ _ _ _ Hwf).
    + by apply engine_roles_any_order.
    + by apply engine_policies_any_order.
  - unfold registry_evaluate, trusted_client_registry.
    assert (forall O : HashOrder,
      List.find (fun c => client_matches c i) (map client_of_dto (hash_values (rt_trusted_clients rt))) =
      client_of_dto <$> List.find (fun c => client_matches (client_of_dto c) i)
        (hash_values (rt_trusted_clients rt))) as Hfind.
    { intros O. induction (hash_values (rt_trusted_clients rt)) as [|c l IH]; simpl; [done|].
      by destruct (client_matches _ _). }
    rewrite !Hfind, !(find_keyed cd_id _ (ci_client_id i)); [done|apply Hwf| |apply Hwf|];
      intros c; unfold client_matches; simpl; by case_bool_decide.
Qed.

(** ** The methods keep the maps keyed *)

Inductive ConfigOp : Type :=
| CfgUpsertClient (client : TrustedClientDto)
| CfgDeleteClient (client_id : string)
| CfgUpsertRole (role : PolicyRoleDto)
| CfgDeleteRole (role_id : string)
| CfgUpsertPolicy (policy : ToolPolicyDto)
| CfgDeletePolicy (policy_id : string)
| CfgSaveAssignment (assignment : ConnectionPolicyAssignmentDto)
| CfgClear
| CfgDrain
| CfgSetEnabled (b : bool).

Definition config_step {St} (op : ConfigOp) (rt : McpRuntime St) : McpRuntime St :=
  match op with
  | CfgUpsertClient client => (upsert_trusted_client_mut client rt).1
  | CfgDeleteClient client_id => (delete_trusted_client_mut client_id rt).1
  | CfgUpsertRole role => (upsert_role_mut role rt).1
  | CfgDeleteRole role_id => (delete_role_mut role_id rt).1
  | CfgUpsertPolicy policy => (upsert_policy_mut policy rt).1
  | CfgDeletePolicy policy_id => (delete_policy_mut policy_id rt).1
  | CfgSaveAssignment assignment => (save_connection_policy_assignment_mut assignment rt).1
  | CfgClear => clear_runtime rt
  | CfgDrain => (drain_events rt).1
  | CfgSetEnabled b => set_mcp_enabled b rt
  end.

(** The branches of a configuration method. *)
Ltac config_cases op :=
  destruct op; simpl;
  unfold upsert_trusted_client_mut, upsert_role_mut, upsert_policy_mut,
    delete_trusted_client_mut, delete_role_mut, delete_policy_mut;
  sm_unfold; simpl;
  repeat match goal with
         | |- context [if is_blank ?x then _ else _] => destruct (is_blank x)
         | |- context [match ?m !! ?k with _ => _ end] => destruct (m !! k)
         end.

Lemma config_step_wf {St} op (rt : McpRuntime St) : runtime_wf rt -> runtime_wf (config_step op rt).
Proof.
  intros [Hc Hr Hp Ha].
  config_cases op;
    constructor; simpl; auto using keyed_insert, keyed_delete, keyed_empty.
Qed.

(** Every history of configuration changes keeps the maps keyed. *)
Lemma config_run_wf {St} ops (rt : McpRuntime St) :
  runtime_wf rt -> runtime_wf (foldl (fun rt op => config_step op rt) rt ops).
Proof. revert rt. induction ops as [|op ops IH]; intros rt Hwf; [done|]. by apply IH, config_step_wf. Qed.

(** What the configuration methods leave alone. *)
Lemma config_step_services {St} op (rt : McpRuntime St) :
  rt_approval_service (config_step op rt) = rt_approval_service rt /\
  rt_audit_service (config_step op rt) = rt_audit_service rt.
Proof.
  by config_cases op.
Qed.

(** ** On a concrete configuration *)

Module ConfigExample.

Definition ops : list ConfigOp :=
  [CfgUpsertClient (mkClientDto "agent" "Agent" None true);
   CfgUpsertClient (mkClientDto "old" "Old agent" None false);
   CfgUpsertRole (mkRoleDto "reader" ["read"]);
   CfgUpsertPolicy (mkPolicyDto "read" ["select_data"] ["read"] []);
   CfgSaveAssignment (mkAssignmentDto "db" [mkAssignment "agent" "" ["reader"] []])].

Definition runtime : McpRuntime unit :=
  foldl (fun rt op => config_step op rt)
    (mkRuntime ∅ ∅ ∅ ∅ (mkService tt 0)
       (audit_service_new (mkAuditTable [] 0)) [] true) ops.

Lemma runtime_ok : runtime_wf runtime.
Proof. apply config_run_wf. constructor; apply keyed_empty. Qed.

End ConfigExample.

Lemma listings_order_independent_witness :
  @list_trusted_clients sorted_order _ ConfigExample.runtime =
    @list_trusted_clients reversed_order _ ConfigExample.runtime /\
  @list_roles sorted_order _ ConfigExample.runtime =
    @list_roles reversed_order _ ConfigExample.runtime /\
  @list_policies sorted_order _ ConfigExample.runtime =
    @list_policies reversed_order _ ConfigExample.runtime /\
  @list_connection_policy_assignments sorted_order _ ConfigExample.runtime =
    @list_connection_policy_assignments reversed_order _ ConfigExample.runtime.
Proof.
  exact (listings_order_independent sorted_order reversed_order _ ConfigExample.runtime_ok).
Defined.

Lemma decisions_order_independent_witness :
  let req := mkPolicyRequest "agent" "db" "select_data" Read in
  let i := mkIdentity "agent" None in
  @evaluate sorted_order (@runtime_engine sorted_order _ ConfigExample.runtime) req =
    @evaluate reversed_order (@runtime_engine reversed_order _ ConfigExample.runtime) req /\
  registry_evaluate (@trusted_client_registry sorted_order _ ConfigExample.runtime) i =
    registry_evaluate (@trusted_client_registry reversed_order _ ConfigExample.runtime) i.
Proof.
  exact (decisions_order_independent sorted_order reversed_order _ _ _ ConfigExample.runtime_ok).
Defined.
