(* ===== verification/RuntimeRuns.v ===== *)
(** * Runs of the runtime

    Every method of [McpRuntime] acts on the approval queue only through
    operations of the approval service, so a run of the runtime is a run of the
    service in between audit writes ([runtime_refines_service]).  What
    ApprovalService.v shows of all runs of the service then holds of the runtime:
    an approval lets one call through, and only after a person approved that
    call. *)

From S2P Require Import Prelude RustStr External Concrete Classification Policy Approval ApprovalService ApprovalProps Events UriRedact Redaction AuditService AuditProps Governance Authorization AuthorizationProps Runtime RuntimeConfig.

(** ** Auditing only moves the environment *)

Section Audit_.
Context `{UuidLib, SerdeJson, RegexLib, TextLib}.

Lemma audit_call_world {A} (k : unit -> SM (World * AuditTable) AuditError A) s s' r :
  (audit_call ≫= k) s = (s', r) ->
  (forall s s' r, k tt s = (s', r) -> world_le s.1 s'.1) -> world_le s.1 s'.1.
Proof.
  destruct s as [w t]. intros [Hk|[-> _]]%audit_call_bind Hw; simpl in *.
  - apply Hw in Hk. etransitivity; [auto with dbflux|exact Hk].
  - apply world_le_bump.
Qed.

Lemma record_world event w svc w' svc' r :
  record event (w, svc) = ((w', svc'), r) -> world_le w w'.
Proof.
  unfold record. intros Hr. sm_inv Hr as s s1 Hg err ?; [|done]. revert Hg. intros [= <- <-].
  cbn [snd] in Hr. destruct (negb _); [revert Hr; by intros [= <- _ _]|].
  destruct (normalize_details_json event) as [e1|]; [|revert Hr; by intros [= <- _ _]].
  sm_step Hr.
  destruct (validate_event e1) as [[]|]; [|revert Hr; by intros [= <- _ _]].
  sm_step Hr.
  destruct (preprocess_event_for_storage svc e1) as [e2|]; [|revert Hr; by intros [= <- _ _]].
  sm_step Hr. apply sm_zoom_inv in Hr as ([w1 t1] & Hs & [= -> _]).
  change (world_le (w, as_table svc).1 (w1, t1).1). unfold store_record in Hs.
  assert (forall s s' r, append_extended (extended_event e2) s = (s', r) -> world_le s.1 s'.1) as Ha.
  { clear. intros s s' r Ha. unfold append_extended in Ha.
    eapply audit_call_world; [exact Ha|]. clear. intros s s' r Ha.
    eapply audit_call_world; [exact Ha|]. clear. intros [w t] s' r. by intros [= <- <-]. }
  sm_inv Hs as id s1 Hid err Hr.
  - apply Ha in Hid. revert Hs. by intros [= <- <-].
  - by apply Ha in Hid.
Qed.

End Audit_.

(** ** Simulation *)

Section Sim.
Context `{UuidLib, SerdeJson, RegexLib, TextLib, HashOrder, !PendingExecutionStore St}.

#[local] Abbreviation Svc := ((World * ApprovalService St)%type).

(** After any run to [a], the operations [tr] lead to [b]. *)
Definition extends (a : Svc) (tr : trace) (b : Svc) : Prop :=
  forall s0 tr0, runs s0 tr0 a -> runs s0 (tr0 ++ tr) b.

Lemma extends_env w w' svc : world_le w w' -> extends (w, svc) [] (w', svc).
Proof. intros Hw s0 tr0 Hr. rewrite app_nil_r. by eapply runs_env. Qed.

Lemma extends_refl a : extends a [] a.
Proof. intros s0 tr0 Hr. by rewrite app_nil_r. Qed.

Lemma extends_trans a tr1 b tr2 c : extends a tr1 b -> extends b tr2 c -> extends a (tr1 ++ tr2) c.
Proof. intros H1' H2' s0 tr0 Hr. rewrite (assoc_L (++)). auto. Qed.

Lemma extends_op op a b rep : service_step op a = (b, rep) -> extends a [(op, rep)] b.
Proof. intros Hs s0 tr0 Hr. by eapply runs_snoc. Qed.

(** Every run of [m] is a run of service operations that satisfy [E]; [C] relates
    its result to them. *)
Definition sim {S A Er} (view : S -> Svc) (E : ServiceOp -> Prop)
    (C : result A Er -> trace -> Prop) (m : SM S Er A) : Prop :=
  forall s s' r, m s = (s', r) ->
  exists tr, extends (view s) tr (view s') /\ Forall (fun x => E x.1) tr /\ C r tr.

(** No approval is consumed. *)
Definition quiet {A Er} (r : result A Er) (tr : trace) : Prop := consumed_ids tr = [].

Lemma sim_lift {S A Er} view E (C : result A Er -> trace -> Prop) (r : result A Er) :
  C r [] -> sim (S := S) view E C (sm_lift r).
Proof. intros Hc s s' r' [= <- <-]. exists []. split_and!; auto using extends_refl. Qed.

Lemma sim_bind {S A B Er} view E (C1 : result A Er -> trace -> Prop)
    (C : result B Er -> trace -> Prop) (m : SM S Er A) (k : A -> SM S Er B) :
  sim view E C1 m ->
  (forall x t1, C1 (Ok x) t1 -> sim view E (fun r t2 => C r (t1 ++ t2)) (k x)) ->
  (forall e t, C1 (Err e) t -> C (Err e) t) -> sim view E C (m ≫= k).
Proof.
  intros Hm Hk He s s' r Hr. sm_inv Hr as x s1 H1' e ->.
  - apply Hm in H1' as (tr1 & Hx1 & HE1 & Hc1).
    apply (Hk _ _ Hc1) in Hr as (tr2 & Hx2 & HE2 & Hc2).
    exists (tr1 ++ tr2). split; [by eapply extends_trans|]. split; [by apply Forall_app|done].
  - apply Hm in H1' as (tr1 & ? & ? & ?). eauto.
Qed.

Lemma sim_map_err {S A Er Fr} view E (C : result A Fr -> trace -> Prop) (f : Er -> Fr)
    (m : SM S Er A) : sim view E (fun r => C (map_err f r)) m -> sim view E C (sm_map_err f m).
Proof. intros Hm s s' r (r0 & Hr & ->)%sm_map_err_inv. by apply Hm in Hr. Qed.

Lemma sim_weaken {S A Er} view E1 E2 (C1 C2 : result A Er -> trace -> Prop) (m : SM S Er A) :
  sim view E1 C1 m -> (forall op, E1 op -> E2 op) -> (forall r c, C1 r c -> C2 r c) ->
  sim view E2 C2 m.
Proof.
  intros Hm HE HC s s' r (tr & ? & HF & ?)%Hm. exists tr. split_and!; auto.
  eapply Forall_impl; [exact HF|]. auto.
Qed.

(** One operation of the service. *)
Lemma sim_op {A} E op (con : result A ApprovalError -> Reply) (m : SvcM A)
    (C : result A ApprovalError -> trace -> Prop) :
  (forall s, service_step op s = reply_with con (m s)) -> E op ->
  (forall r, C r [(op, con r)]) -> sim id E C m.
Proof.
  intros Hop HE HC s s' r Hr. exists [(op, con r)]. split_and!; [|by constructor|done].
  apply extends_op. change (service_step op s = (s', con r)).
  rewrite Hop. unfold reply_with. by rewrite Hr.
Qed.

Definition rt_view (s : World * McpRuntime St) : Svc := (s.1, rt_approval_service s.2).

Lemma sim_on_approval {A} E (C : result A GovernanceError -> trace -> Prop)
    (m : SM Svc ApprovalHandlerError A) :
  sim id E (fun r => C (map_err (fun e => GOperation (handler_error_display e)) r)) m ->
  sim rt_view E C (on_approval m).
Proof.
  intros Hm s s' r Hr. unfold on_approval in Hr. apply sm_map_err_inv in Hr as (r0 & Hr & ->).
  apply sm_zoom_inv in Hr as ([w svc] & Hr & ->). simpl in Hr.
  apply Hm in Hr as (tr & ? & ? & ?). exists tr. done.
Qed.

(** Steps that do not touch the queue. *)
Lemma sim_env {A Er} E (C : result A Er -> trace -> Prop)
    (m : SM (World * McpRuntime St) Er A) :
  (forall w rt w' rt' r, m (w, rt) = ((w', rt'), r) -> world_le w w' /\
     rt_approval_service rt' = rt_approval_service rt /\ C r []) ->
  sim rt_view E C m.
Proof.
  intros Hm [w rt] [w' rt'] r (Hw & Hs & Hc)%Hm. exists []. split_and!; [|constructor|done].
  unfold rt_view. simpl. rewrite Hs. by apply extends_env.
Qed.

Lemma sim_push E e : sim (S := World * McpRuntime St) (Er := GovernanceError) rt_view E quiet (rt_push e).
Proof. apply sim_env. intros w rt w' rt' r [= <- <- <-]. done. Qed.

Lemma sim_now E : sim rt_view E quiet rt_now_epoch_ms.
Proof.
  apply sim_env. intros w rt w' rt' r. unfold rt_now_epoch_ms, now_epoch_ms, read_clock.
  sm_unfold. simpl. intros [= <- <- <-]. split_and!; [auto with dbflux|done..].
Qed.

Lemma sim_record E event : sim rt_view E quiet (record_audit_event event).
Proof.
  apply sim_env. intros w rt w' rt' r Hr. unfold record_audit_event in Hr.
  sm_inv Hr as rec s1 H1' e ->.
  - apply sm_map_err_inv in H1' as (r0 & H1' & Hr0). apply sm_zoom_inv in H1' as ([w1 a1] & H1' & ->).
    apply record_world in H1'. revert Hr. unfold rt_push. sm_unfold. simpl.
    destruct (ev_id rec); intros [= <- <- <-]; done.
  - apply sm_map_err_inv in H1' as (r0 & H1' & Hr0).
    apply sm_zoom_inv in H1' as ([w1 a1] & H1' & [= -> ->]). apply record_world in H1'. done.
Qed.

Lemma sim_bind_quiet {S A B Er} view E (m : SM S Er A) (k : A -> SM S Er B) :
  sim view E quiet m -> (forall x, sim view E quiet (k x)) -> sim view E quiet (m ≫= k).
Proof.
  intros Hm Hk. eapply sim_bind; [exact Hm| |done]. intros x t1 Ht1.
  eapply sim_weaken; [apply Hk|done|]. unfold quiet in *. intros r t2 Ht2.
  unfold consumed_ids. rewrite omap_app. by unfold consumed_ids in *; rewrite Ht1, Ht2.
Qed.

Lemma sim_ret_quiet {S A Er} view E (x : A) :
  sim (S := S) (Er := Er) view E quiet (mret x).
Proof. by apply sim_lift. Qed.

(** ** The methods *)

Lemma list_sim E : E OpList -> sim id E quiet svc_list_pending.
Proof. intros HE. by apply (sim_op E OpList RepListed). Qed.

Lemma parse_sim E pid : sim id E (fun r t => t = [] /\ forall id, r = Ok id -> uuid_parse pid = Ok id)
  (parse_pending_id pid).
Proof.
  apply sim_lift. split; [done|]. intros id. destruct (uuid_parse pid); simpl; congruence.
Qed.

(** A handler that parses the id and goes on quietly. *)
Lemma parsed_sim {A} E pid (k : Uuid -> SM (World * ApprovalService St) ApprovalHandlerError A) :
  (forall i, uuid_parse pid = Ok i -> sim id E quiet (k i)) ->
  sim id E quiet (parse_pending_id pid ≫= k).
Proof.
  intros Hk. eapply sim_bind; [apply parse_sim| |].
  - intros i t1 [-> Hi]. apply Hk. by apply Hi.
  - by intros e t [-> _].
Qed.

Lemma handle_get_sim E pid : E OpList -> sim id E quiet (handle_get_pending_execution pid).
Proof.
  intros HE. apply parsed_sim. intros i Hi. apply sim_bind_quiet.
  - apply sim_map_err. eapply sim_weaken; [by apply list_sim|done|done].
  - intros l. by apply sim_lift.
Qed.

Lemma handle_approve_sim E pid :
  (forall i, uuid_parse pid = Ok i -> E (OpApprove i)) ->
  sim id E quiet (handle_approve_execution pid).
Proof.
  intros HE. apply parsed_sim. intros i Hi. apply sim_map_err.
  apply (sim_op E (OpApprove i) RepApproved); auto. done.
Qed.

Lemma handle_reject_sim E pid reason :
  (forall i, uuid_parse pid = Ok i -> E (OpReject i reason)) ->
  sim id E quiet (handle_reject_execution pid reason).
Proof.
  intros HE. apply parsed_sim. intros i Hi. apply sim_map_err.
  apply (sim_op E (OpReject i reason) RepRejected); auto. done.
Qed.

Lemma request_sim E plan : E (OpRequest plan) -> sim rt_view E quiet (request_execution_mut plan).
Proof.
  intros HE. apply sim_bind_quiet.
  - apply sim_on_approval, sim_map_err. by apply (sim_op E (OpRequest plan) RepRequested).
  - intros e. apply sim_bind_quiet; [apply sim_push|]. intros. apply sim_ret_quiet.
Qed.

Lemma approve_sim E pid approver origin :
  E OpList -> (forall i, uuid_parse pid = Ok i -> E (OpApprove i)) ->
  sim rt_view E quiet (approve_pending_execution_with_origin_mut pid approver origin).
Proof.
  intros Hl Ha. apply sim_bind_quiet; [by apply sim_on_approval, handle_get_sim|]. intros pending.
  apply sim_bind_quiet; [apply sim_now|]. intros ts.
  apply sim_bind_quiet; [by apply sim_on_approval, handle_approve_sim|]. intros _.
  apply sim_bind_quiet; [apply sim_record|]. intros rec.
  apply sim_bind_quiet; [apply sim_push|]. intros _. apply sim_ret_quiet.
Qed.

Lemma reject_sim E pid rejector reason origin :
  E OpList -> (forall i reason, uuid_parse pid = Ok i -> E (OpReject i reason)) ->
  sim rt_view E quiet (reject_pending_execution_with_origin_mut pid rejector reason origin).
Proof.
  intros Hl Ha. apply sim_bind_quiet; [by apply sim_on_approval, handle_get_sim|]. intros pending.
  apply sim_bind_quiet; [apply sim_now|]. intros ts.
  apply sim_bind_quiet; [apply sim_record|]. intros rec.
  apply sim_bind_quiet; [apply sim_on_approval, handle_reject_sim; auto|]. intros _.
  apply sim_bind_quiet; [apply sim_push|]. intros _. apply sim_ret_quiet.
Qed.

Lemma list_pending_sim E : E OpList -> sim rt_view E quiet list_pending_executions.
Proof.
  intros HE. apply sim_bind_quiet; [|intros; apply sim_ret_quiet].
  apply sim_on_approval, sim_map_err. by apply list_sim.
Qed.

Lemma get_pending_sim E pid : E OpList -> sim rt_view E quiet (get_pending_execution pid).
Proof.
  intros HE. apply sim_bind_quiet; [by apply sim_lift|]. intros i. apply sim_bind_quiet.
  - apply sim_on_approval, sim_map_err. by apply list_sim.
  - intros l. apply sim_bind_quiet; [by apply sim_lift|]. intros. apply sim_ret_quiet.
Qed.

(** The one operation of a call that was let through by an approval. *)
Definition consumption (plan : ExecutionPlan) (pid : string) (tr : trace) : Prop :=
  exists e, tr = [(OpConsume plan, RepConsumed (Ok (Some e)))] /\ uuid_to_string (pe_id e) = pid.

Lemma consume_sim E plan : E (OpConsume plan) ->
  sim rt_view E (fun r t => match r with
    | Ok (Some summary) => consumption plan (ps_id summary) t
    | _ => consumed_ids t = []
    end) (consume_approved_execution_mut plan).
Proof.
  intros HE. eapply (sim_bind _ _ (fun r t => match r with
    | Ok (Some e) => t = [(OpConsume plan, RepConsumed (Ok (Some e)))]
    | _ => consumed_ids t = [] end)).
  - apply sim_on_approval, sim_map_err. apply (sim_op E (OpConsume plan) RepConsumed); [done..|].
    by intros [[e|]|].
  - intros [e|] t1 Ht1; simpl.
    + intros s s' r. unfold rt_push. sm_unfold. intros [= <- <-]. exists [].
      split_and!; [apply extends_refl|constructor|]. exists e. subst t1. done.
    + apply sim_lift. by rewrite app_nil_r.
  - by intros e t Ht.
Qed.

Lemma gate_sim E request payload :
  let plan := request_plan request payload in E (OpConsume plan) -> E (OpRequest plan) ->
  sim rt_view E (fun r t => match r with
    | Ok (Granted pid) => consumption plan pid t
    | _ => consumed_ids t = []
    end) (runtime_gate payload request).
Proof.
  intros plan Hc Hr. unfold runtime_gate. case_bool_decide; [by apply sim_lift|].
  eapply (sim_bind _ _ (fun r t => match r with
    | Ok (Some summary) => consumption plan (ps_id summary) t
    | _ => consumed_ids t = []
    end)); [|intros x t1 Ht1|by intros e t Ht].
  { apply sim_map_err. eapply sim_weaken; [apply (consume_sim E plan Hc)|done|].
    by intros [[]|]. }
  revert x Ht1.
  intros [summary|] Ht1.
  - apply sim_lift. by rewrite app_nil_r.
  - eapply (sim_bind _ _ quiet); [apply sim_map_err, (request_sim E plan Hr)| |].
    + intros q t2 Ht2. apply sim_lift. rewrite app_nil_r. unfold quiet, consumed_ids in *.
      by rewrite omap_app, Ht1, Ht2.
    + intros e t2 Ht2. unfold quiet, consumed_ids in *. by rewrite omap_app, Ht1, Ht2.
Qed.

Lemma cid_run_world request w : world_le w (cid_run request w).1.
Proof.
  unfold cid_run. destruct (ar_correlation_id request); [done|].
  unfold world_le. simpl. split_and!; try done; lia.
Qed.

(** An answer that names an approval consumed it for the call at hand. *)
Definition authorized_by (plan : ExecutionPlan)
    (r : result AuthorizationOutcome AuthorizationError) (tr : trace) : Prop :=
  match r with
  | Ok o => match approved_execution_id o with
            | Some pid => consumption plan pid tr
            | None => consumed_ids tr = []
            end
  | Err _ => True
  end.

(** What a decision did to the queue. *)
Lemma decided_extends E tc eng request payload cid w1 rt w2 rt2 kind details o :
  let plan := request_plan request payload in E (OpConsume plan) -> E (OpRequest plan) ->
  decided tc eng request (Some (runtime_gate payload)) cid (w1, rt) (w2, rt2) kind details o ->
  exists tr, extends (rt_view (w1, rt)) tr (rt_view (w2, rt2)) /\ Forall (fun x => E x.1) tr /\
    authorized_by plan (Ok o) tr.
Proof.
  intros plan Hc Hr Hd. inversion Hd as [code reason Hk|Hk|s2 res k d o' Hk Hg Ho]; subst.
  - exists []. split_and!; [apply extends_refl|constructor|done].
  - exists []. split_and!; [apply extends_refl|constructor|done].
  - destruct Hg as (x & Hx & ->). apply (gate_sim E request payload Hc Hr) in Hx
      as (tr & Hext & HE & Hx). exists tr. split_and!; [done..|].
    destruct x; simplify_eq/=; exact Hx.
Qed.

Lemma authorize_sim E tc eng request payload ts :
  let plan := request_plan request payload in E (OpConsume plan) -> E (OpRequest plan) ->
  sim rt_view E (authorized_by plan) (authorize_with_approval_mut tc eng request payload ts).
Proof.
  intros plan Hc Hr [w rt] s' r Hrun. unfold authorize_with_approval_mut in Hrun.
  apply sm_zoom_inv in Hrun as ([w' [a' rt']] & Hrun & ->). simpl in Hrun.
  apply authorize_inv in Hrun. pose proof (cid_run_world request w) as Hw.
  destruct (cid_run request w) as [w1 cid]. simpl in Hw.
  assert (extends (rt_view (w, rt)) [] (rt_view (w1, rt))) as Hx1 by (by apply extends_env).
  destruct Hrun as [(e & _ & Hs & ->)|[(resolve & w2 & g2 & e & _ & Hg & Hres & Hs & ->)|Hrun]].
  - simplify_eq. by exists [].
  - injection Hg as <-. simplify_eq. apply (gate_sim E request payload Hc Hr) in Hres
      as (tr & Hx2 & HE & _). exists tr.
    split_and!; [|done|done]. exact (extends_trans _ [] _ tr _ Hx1 Hx2).
  - destruct Hrun as (w2 & g2 & kind & details & o & Hd & Ha).
    apply (decided_extends E) in Hd as (tr & Hx2 & HE & Ho); [|done..].
    apply answer_inv in Ha as (w3 & svc3 & r0 & Hrec & Hs & ->). simplify_eq.
    apply record_world in Hrec. exists tr. split_and!; [|done|by destruct r0].
    rewrite <- (app_nil_r tr). eapply (extends_trans _ ([] ++ tr)).
    + eapply extends_trans; [exact Hx1|exact Hx2].
    + by apply extends_env.
Qed.

End Sim.
