(* ===== verification/RuntimeSafety.v ===== *)
(** * What holds in every run of the runtime

    A run is any sequence of the runtime's methods - configuration changes,
    approvals and rejections by a person, requests and authorized calls - with
    audit writes and other uses of the environment in between. *)

From S2P Require Import Prelude RustStr External Concrete Classification Policy Approval ApprovalService ApprovalProps Events UriRedact Redaction AuditService AuditProps Governance Authorization AuthorizationProps Runtime RuntimeConfig RuntimeRuns.

Section Runs.
Context `{UuidLib, SerdeJson, RegexLib, TextLib, HashOrder, !PendingExecutionStore St}.

Inductive RuntimeOp : Type :=
| RtConfig (op : ConfigOp)
| RtListPending
| RtGetPending (pending_id : string)
| RtApprove (pending_id approver_actor_id : string) (origin : EventOrigin)
| RtReject (pending_id rejector_actor_id : string) (reason : option string) (origin : EventOrigin)
| RtRequest (plan : ExecutionPlan)
| RtAuthorize (trusted_clients : TrustedClientRegistry) (policy_engine : PolicyEngine)
    (request : AuthorizationRequest) (payload : Value) (created_at_epoch_ms : Z).

Inductive RuntimeReply : Type :=
| RrConfig
| RrPendingList (r : result (list PendingExecutionSummary) GovernanceError)
| RrPending (r : result PendingExecutionDetail GovernanceError)
| RrResolved (r : result ApprovalOutcome GovernanceError)
| RrQueued (r : result PendingExecutionSummary GovernanceError)
| RrAuthorized (r : result AuthorizationOutcome AuthorizationError).

Definition runtime_step (op : RuntimeOp) (s : World * McpRuntime St)
  : (World * McpRuntime St) * RuntimeReply :=
  match op with
  | RtConfig op => ((s.1, config_step op s.2), RrConfig)
  | RtListPending => let '(s', r) := list_pending_executions s in (s', RrPendingList r)
  | RtGetPending pid => let '(s', r) := get_pending_execution pid s in (s', RrPending r)
  | RtApprove pid approver origin =>
      let '(s', r) := approve_pending_execution_with_origin_mut pid approver origin s in
      (s', RrResolved r)
  | RtReject pid rejector reason origin =>
      let '(s', r) := reject_pending_execution_with_origin_mut pid rejector reason origin s in
      (s', RrResolved r)
  | RtRequest plan => let '(s', r) := request_execution_mut plan s in (s', RrQueued r)
  | RtAuthorize tc eng request payload ts =>
      let '(s', r) := authorize_with_approval_mut tc eng request payload ts s in
      (s', RrAuthorized r)
  end.

Definition runtime_trace : Type := list (RuntimeOp * RuntimeReply).

Inductive runtime_runs (s0 : World * McpRuntime St)
  : runtime_trace -> World * McpRuntime St -> Prop :=
| runtime_runs_nil : runtime_runs s0 [] s0
| runtime_runs_snoc T s op rep s' :
    runtime_runs s0 T s -> runtime_step op s = (s', rep) -> runtime_runs s0 (T ++ [(op, rep)]) s'
(** The rest of the program uses the environment and the shared audit service. *)
| runtime_runs_env T w rt w' a' :
    runtime_runs s0 T (w, rt) -> world_le w w' -> runtime_runs s0 T (w', set_audit a' rt).

(** The service operations a method may perform. *)
Definition emits (op : RuntimeOp) (sop : ServiceOp) : Prop :=
  match op, sop with
  | RtConfig _, _ => False
  | _, OpList => True
  | RtApprove pid _ _, OpApprove i => uuid_parse pid = Ok i
  | RtReject pid _ _ _, OpReject i _ => uuid_parse pid = Ok i
  | RtRequest plan, OpRequest plan' => plan' = plan
  | RtAuthorize _ _ request payload _, OpRequest plan' => plan' = request_plan request payload
  | RtAuthorize _ _ request payload _, OpConsume plan' => plan' = request_plan request payload
  | _, _ => False
  end.

(** The approval named by an answer that let a call through. *)
Definition approval_used (x : RuntimeOp * RuntimeReply) : option string :=
  match x.2 with RrAuthorized (Ok o) => approved_execution_id o | _ => None end.
Definition approvals_used (T : runtime_trace) : list string := omap approval_used T.

(** What a step did: service operations, and a consumption if it used an approval. *)
Definition step_effect (op : RuntimeOp) (rep : RuntimeReply) (tr : trace) : Prop :=
  Forall (fun x => emits op x.1) tr /\
  match approval_used (op, rep) with
  | Some pid => exists tc eng request payload ts,
      op = RtAuthorize tc eng request payload ts /\ consumption (request_plan request payload) pid tr
  | None => True
  end.

Lemma runtime_step_sim op s s' rep :
  runtime_step op s = (s', rep) ->
  exists tr, extends (rt_view s) tr (rt_view s') /\ step_effect op rep tr.
Proof.
  unfold step_effect. destruct op as [op| |pid|pid who origin|pid who reason origin|plan
    |tc eng request payload ts]; simpl.
  - intros [= <- <-]. exists []. split; [|by split].
    unfold rt_view. simpl. rewrite (proj1 (config_step_services op s.2)). apply extends_refl.
  - destruct (list_pending_executions s) as [s1 r] eqn:Hr. intros [= <- <-].
    apply (list_pending_sim (emits RtListPending)) in Hr as (tr & ? & ? & _); [|done]. by exists tr.
  - destruct (get_pending_execution pid s) as [s1 r] eqn:Hr. intros [= <- <-].
    apply (get_pending_sim (emits (RtGetPending pid))) in Hr as (tr & ? & ? & _); [|done]. by exists tr.
  - destruct (approve_pending_execution_with_origin_mut pid who origin s) as [s1 r] eqn:Hr.
    intros [= <- <-]. apply (approve_sim (emits (RtApprove pid who origin)))
      in Hr as (tr & ? & ? & _); [|done..]. by exists tr.
  - destruct (reject_pending_execution_with_origin_mut pid who reason origin s) as [s1 r] eqn:Hr.
    intros [= <- <-]. apply (reject_sim (emits (RtReject pid who reason origin)))
      in Hr as (tr & ? & ? & _); [|done..]. by exists tr.
  - destruct (request_execution_mut plan s) as [s1 r] eqn:Hr. intros [= <- <-].
    apply (request_sim (emits (RtRequest plan))) in Hr as (tr & ? & ? & _); [|done]. by exists tr.
  - destruct (authorize_with_approval_mut tc eng request payload ts s) as [s1 r] eqn:Hr.
    intros [= <- <-]. apply (authorize_sim (emits (RtAuthorize tc eng request payload ts)))
      in Hr as (tr & Hx & HE & Ha); [|done..]. exists tr. split_and!; [done..|].
    unfold approval_used. simpl. destruct r as [o|]; [|done]. simpl in Ha.
    destruct (approved_execution_id o); [|done]. eauto 10.
Qed.

(** The service operations of a run, from those of its steps. *)
Inductive run_effect : runtime_trace -> trace -> Prop :=
| run_effect_nil : run_effect [] []
| run_effect_snoc T tr op rep tr' :
    run_effect T tr -> step_effect op rep tr' -> run_effect (T ++ [(op, rep)]) (tr ++ tr').

Lemma runtime_runs_service s0 T s :
  runtime_runs s0 T s -> exists tr, runs (rt_view s0) tr (rt_view s) /\ run_effect T tr.
Proof.
  induction 1 as [|T s op rep s' _ (tr & Hr & He) Hs|T w rt w' a' _ (tr & Hr & He) Hw].
  - exists []. split; constructor.
  - apply runtime_step_sim in Hs as (tr' & Hx & Hs). exists (tr ++ tr').
    split; [by apply Hx|by constructor].
  - exists tr. split; [|done]. by eapply runs_env.
Qed.

Lemma run_effect_emits T tr sop rep :
  run_effect T tr -> (sop, rep) ∈ tr -> exists op rrep, (op, rrep) ∈ T /\ emits op sop.
Proof.
  induction 1 as [|T tr op rrep tr' _ IH [HE _]]; [by intros []%elem_of_nil|].
  intros [Hin|Hin]%elem_of_app.
  - destruct (IH Hin) as (op' & rrep' & ? & ?). exists op', rrep'. rewrite elem_of_app. auto.
  - rewrite Forall_forall in HE. exists op, rrep. rewrite elem_of_snoc. split; [by right|].
    by apply (HE _ Hin).
Qed.

Lemma run_effect_used T tr :
  run_effect T tr -> approvals_used T `sublist_of` map uuid_to_string (consumed_ids tr).
Proof.
  induction 1 as [|T tr op rep tr' _ IH [_ Hs]]; [done|].
  unfold approvals_used, consumed_ids in *. rewrite !omap_app, map_app. apply sublist_app; [done|].
  simpl. destruct (approval_used (op, rep)) as [pid|]; [|apply sublist_nil_l].
  destruct Hs as (tc & eng & rq & pl & ts & -> & e & -> & <-). done.
Qed.

(** C5: refinement: a run of the runtime acts on the approval queue exactly as
    some run of the approval service; every service operation of it comes from a
    method that was called (approvals only from a person's approval of that id,
    requests and consumptions only for the call that was made), and every
    approval an answer names was consumed by it, in order. *)
Theorem runtime_refines_service s0 T s :
  runtime_runs s0 T s ->
  exists tr, runs (rt_view s0) tr (rt_view s) /\
    (forall sop rep, (sop, rep) ∈ tr -> exists op rrep, (op, rrep) ∈ T /\ emits op sop) /\
    approvals_used T `sublist_of` map uuid_to_string (consumed_ids tr).
Proof.
  intros (tr & Hr & He)%runtime_runs_service. exists tr. split_and!; [done| |].
  - intros sop rep. by apply run_effect_emits.
  - by apply run_effect_used.
Qed.

End Runs.

(** ** Safety *)

Section Safety.
Context `{UuidLaws, SerdeJson, RegexLib, TextLib, HashOrder}.
Context `{!PendingExecutionStore St, !PendingStoreLaws}.

Implicit Types s : World * McpRuntime St.

(** Every call that may be queued is one the store gives back unchanged. *)
Definition storable_calls (T : runtime_trace) : Prop :=
  Forall (fun x => match x.1 with
    | RtRequest plan => plan_storable plan
    | RtAuthorize _ _ request payload _ => plan_storable (request_plan request payload)
    | _ => True
    end) T.

Lemma run_effect_storable T tr : run_effect T tr -> storable_calls T -> storable_trace tr.
Proof.
  intros He Hs. apply Forall_forall. intros [sop rep] Hin.
  destruct (run_effect_emits T tr sop rep He Hin) as (op & rrep & HT & Hem).
  unfold storable_calls in Hs. rewrite Forall_forall in Hs. specialize (Hs _ HT). simpl in *.
  destruct sop; try done. destruct op; simpl in *; by subst.
Qed.

(** C6: in every run of the runtime on a queue that starts empty, no approval
    lets two calls through. *)
Theorem approval_runs_one_call s0 T s :
  fresh_start (rt_view s0) -> runtime_runs s0 T s -> storable_calls T -> NoDup (approvals_used T).
Proof.
  intros Hf (tr & Hr & He)%runtime_runs_service Hs.
  eapply sublist_NoDup; [|by apply run_effect_used]. apply NoDup_fmap; [apply _|].
  eapply inv_once, runs_inv; [exact Hf|exact Hr|]. by eapply run_effect_storable.
Qed.

Lemma runtime_runs_last s0 T x s :
  runtime_runs s0 (T ++ [x]) s ->
  exists s1 s2, runtime_runs s0 T s1 /\ runtime_step x.1 s1 = (s2, x.2).
Proof.
  remember (T ++ [x]) as T' eqn:HT. intros Hr.
  induction Hr as [|T' s1 op rep s' Hr _ Hs|T' w rt w' a' _ IH _]; [by destruct T| |auto].
  apply app_inj_2 in HT as [<- [= <-]]; [|done]. eauto.
Qed.

(** What the entry [e] must be to stand behind a call that an approval let
    through after the run [T]. *)
Record vouched (T : runtime_trace) (plan : ExecutionPlan) (pid : string) (e : PendingExecution)
  : Prop := mkVouched {
  vouched_id : uuid_to_string (pe_id e) = pid;
  vouched_same_call : same_call (pe_plan e) plan;
  vouched_requested : exists op rep, (op, rep) ∈ T /\ emits op (OpRequest (pe_plan e));
  vouched_approved : exists pid' who origin rep, (RtApprove pid' who origin, rep) ∈ T /\
    uuid_parse pid' = Ok (pe_id e);
  vouched_unused : pid ∉ approvals_used T;
}.

(** C2: a call is let through by an approval only if the very same call - same
    actor, connection, tool and arguments - was put into the queue before, a
    person approved that entry through the runtime before, and the approval was
    not used before. *)
Theorem approved_call_had_a_person s0 T tc eng request payload ts o pid s :
  fresh_start (rt_view s0) ->
  runtime_runs s0 (T ++ [(RtAuthorize tc eng request payload ts, RrAuthorized (Ok o))]) s ->
  storable_calls T -> approved_execution_id o = Some pid ->
  exists e, vouched T (request_plan request payload) pid e.
Proof.
  intros Hf (s1 & s2 & Hr & Hs)%runtime_runs_last Hst Hpid.
  apply runtime_runs_service in Hr as (tr & Hr & He).
  apply runtime_step_sim in Hs as (tr' & Hx & _ & Hs). unfold approval_used in Hs. simpl in Hs.
  rewrite Hpid in Hs. destruct Hs as (tc' & eng' & rq & pl & ts' & [= <- <- <- <- <-] & e & -> & Hid).
  apply Hx in Hr as Hr2. pose proof (run_effect_storable _ _ He Hst) as Htr.
  destruct (consume_licensed _ _ _ _ _ Hf Hr2 Htr) as (_ & now & _ & _ & [Hreq Hm Hap _ Hnc _]).
  exists e. constructor; auto.
  - destruct Hreq as [rep Hin]. by apply (run_effect_emits T tr _ rep).
  - destruct Hap as [rep Hin]. destruct (run_effect_emits T tr _ rep He Hin) as (op & rrep & HT & Hem).
    destruct op; try done. simpl in Hem. eauto 10.
  - intros Hu. apply Hnc. pose proof (elem_of_submseteq _ _ _ Hu
      (sublist_submseteq _ _ (run_effect_used _ _ He))) as Hin.
    apply list_elem_of_fmap in Hin as (u & -> & Hin). by apply (inj uuid_to_string) in Hid as <-.
Qed.

End Safety.

(** ** On a concrete run *)

Module RuntimeExample.

Definition Runtime : Type := McpRuntime InMemoryPendingExecutionStore.

Definition start : World * Runtime :=
  (plain_world, mkRuntime ∅ ∅ ∅ ∅ (service_new []) empty_audit [] true).

Fixpoint run_calls (ops : list RuntimeOp) (T : runtime_trace) (s : World * Runtime)
  : runtime_trace * (World * Runtime) :=
  match ops with
  | [] => (T, s)
  | op :: ops' =>
      let '(s', rep) := runtime_step op s in run_calls ops' (T ++ [(op, rep)]) s'
  end.

Lemma run_calls_runs s0 ops T s :
  runtime_runs s0 T s -> runtime_runs s0 (run_calls ops T s).1 (run_calls ops T s).2.
Proof.
  revert T s. induction ops as [|op ops IH]; intros T s Hr; simpl; [done|].
  destruct (runtime_step op s) as [s' rep] eqn:Hs. apply IH. by econstructor.
Qed.

Definition payload : Value := VObject [("table", VString "users")].
Definition call : RuntimeOp :=
  RtAuthorize AuthExample.clients AuthExample.engine AuthExample.write_call payload 5.

(** The call is queued, a person approves it, it runs, and it is queued again. *)
Definition before : list RuntimeOp := [call; RtApprove (nat_text 0) "alice" origin_local].
Definition calls : list RuntimeOp := before ++ [call; call].

Lemma start_fresh : fresh_start (rt_view start).
Proof. split; [done|]. split; [apply plain_world_fresh|done]. Qed.

Lemma memory_calls_storable (T : runtime_trace) :
  storable_calls (St := InMemoryPendingExecutionStore) T.
Proof. apply Forall_forall. by intros [[] ?] _. Qed.

End RuntimeExample.

Lemma runtime_refines_service_witness :
  exists tr, runs (rt_view RuntimeExample.start) tr
      (rt_view (RuntimeExample.run_calls RuntimeExample.calls [] RuntimeExample.start).2) /\
    (forall sop rep, (sop, rep) ∈ tr -> exists op rrep,
      (op, rrep) ∈ (RuntimeExample.run_calls RuntimeExample.calls [] RuntimeExample.start).1 /\
      emits op sop) /\
    approvals_used (RuntimeExample.run_calls RuntimeExample.calls [] RuntimeExample.start).1
      `sublist_of` map uuid_to_string (consumed_ids tr).
Proof.
  apply (runtime_refines_service RuntimeExample.start). apply RuntimeExample.run_calls_runs.
  constructor.
Defined.

Lemma approval_runs_one_call_witness :
  approvals_used (RuntimeExample.run_calls RuntimeExample.calls [] RuntimeExample.start).1 =
    [nat_text 0] /\
  NoDup (approvals_used (RuntimeExample.run_calls RuntimeExample.calls [] RuntimeExample.start).1).
Proof.
  split; [vm_compute; reflexivity|].
  apply (approval_runs_one_call RuntimeExample.start _
           (RuntimeExample.run_calls RuntimeExample.calls [] RuntimeExample.start).2).
  - exact RuntimeExample.start_fresh.
  - apply RuntimeExample.run_calls_runs. constructor.
  - apply RuntimeExample.memory_calls_storable.
Defined.

Lemma approved_call_had_a_person_witness :
  exists e, vouched (RuntimeExample.run_calls RuntimeExample.before [] RuntimeExample.start).1
    (request_plan AuthExample.write_call RuntimeExample.payload) (nat_text 0) e.
Proof.
  destruct (RuntimeExample.run_calls RuntimeExample.before [] RuntimeExample.start) as [T s] eqn:HT.
  assert (runtime_runs RuntimeExample.start T s) as Hr.
  { change T with (T, s).1. change s with (T, s).2 at 2. rewrite <- HT.
    apply RuntimeExample.run_calls_runs. constructor. }
  destruct (runtime_step RuntimeExample.call s) as [s' rep] eqn:Hs.
  assert (approval_used (RuntimeExample.call, (runtime_step RuntimeExample.call
    (RuntimeExample.run_calls RuntimeExample.before [] RuntimeExample.start).2).2) =
    Some (nat_text 0)) as Hu by (vm_compute; reflexivity).
  rewrite HT in Hu. cbn [snd] in Hu. rewrite Hs in Hu. unfold approval_used in Hu. cbn [snd] in Hu.
  destruct rep as [| | | | |[o|]]; first [discriminate Hu|idtac].
  apply (approved_call_had_a_person RuntimeExample.start T AuthExample.clients AuthExample.engine
           AuthExample.write_call RuntimeExample.payload 5 o (nat_text 0) s').
  - exact RuntimeExample.start_fresh.
  - by eapply runtime_runs_snoc.
  - apply RuntimeExample.memory_calls_storable.
  - exact Hu.
Defined.
