(* ===== verification/RuntimeResolve.v ===== *)
(** * Approving and rejecting through the runtime (crates/dbflux_mcp: runtime.rs)

    What [approve_pending_execution_with_origin_mut] and
    [reject_pending_execution_with_origin_mut] do to the queue and to the audit
    table, on success and on failure.  A rejection is audited before it takes
    effect, an approval after. *)

From S2P Require Import Prelude RustStr External Concrete Classification Policy Approval ApprovalService ApprovalProps Events UriRedact Redaction AuditService AuditProps Governance Authorization Runtime RuntimeRuns.

Section Resolve.
Context `{UuidLib, SerdeJsonLaws, RegexLib, TextLib}.
Context `{!PendingExecutionStore St, !PendingStoreLaws}.

Implicit Types (w : World) (rt : McpRuntime St) (svc : ApprovalService St).

Definition rt_queue (s : World * McpRuntime St) : list PendingExecution := queue (rt_view s).
Definition rt_rows rt : list (Z * AppendAuditEventExtended) := rows (rt_audit_service rt).

(** The queue is sound: the store's invariant holds and ids are distinct. *)
Definition queue_ok (s : World * McpRuntime St) : Prop :=
  store_ok (as_store (rt_view s).2) /\ ids_distinct (rt_queue s).

(** ** Inversions *)

Lemma on_approval_inv {A} (m : SM (World * ApprovalService St) ApprovalHandlerError A) w rt s' r :
  on_approval m (w, rt) = (s', r) ->
  exists w' svc' r0, m (w, rt_approval_service rt) = ((w', svc'), r0) /\
    s' = (w', set_approval svc' rt) /\
    r = map_err (fun e => GOperation (handler_error_display e)) r0.
Proof.
  unfold on_approval. intros (r0 & Hr & ->)%sm_map_err_inv.
  apply sm_zoom_inv in Hr as ([w' svc'] & Hr & ->). eauto 10.
Qed.

Lemma handle_get_inv pid w svc w' svc' r :
  handle_get_pending_execution pid (w, svc) = ((w', svc'), r) -> store_ok (as_store svc) ->
  store_ok (as_store svc') /\ entries (as_store svc') = entries (as_store svc) /\ world_le w w' /\
  match r with Ok e => uuid_parse pid = Ok (pe_id e) | Err _ => True end.
Proof.
  intros Hr Hok. unfold handle_get_pending_execution, parse_pending_id in Hr.
  destruct (uuid_parse pid) as [i|]; simpl in Hr.
  2:{ revert Hr. by intros [= <- <- <-]. }
  sm_step Hr. sm_inv Hr as l s1 Hl err ->.
  - apply sm_map_err_inv in Hl as (r0 & Hl & Hr0).
    apply on_store_inv in Hl as (w1 & st1 & r1 & Hl & -> & ->).
    apply law_list_pending in Hl as (? & ? & ? & _); [|done].
    revert Hr. intros [= <- <- <-]. simpl. split_and!; [done..|].
    destruct (List.find (has_id i) l) as [e|] eqn:Hf; simpl; [|done].
    apply find_some in Hf as [_ Hi]. unfold has_id in Hi. apply bool_decide_eq_true in Hi. congruence.
  - apply sm_map_err_inv in Hl as (r0 & Hl & Hr0).
    apply on_store_inv in Hl as (w1 & st1 & r1 & Hl & [= -> ->] & ->).
    by apply law_list_pending in Hl as (? & ? & ? & _).
Qed.

Lemma rt_now_inv w rt s' r :
  rt_now_epoch_ms (w, rt) = (s', r) -> s' = (tick w, rt) /\ exists ts, r = Ok ts.
Proof. intros [= <- <-]. eauto. Qed.

(** What recording an event does to the runtime. *)
Definition audited (event : EventRecord) rt rt' : Prop :=
  enabled (rt_audit_service rt) = true ->
  exists stored, stored_as (rt_audit_service rt) event (rt_audit_service rt') stored.

Lemma record_audit_inv event w rt w' rt' r :
  record_audit_event event (w, rt) = ((w', rt'), r) ->
  world_le w w' /\ rt_approval_service rt' = rt_approval_service rt /\
  match r with
  | Ok rec => audited event rt rt'
  | Err _ => rt_audit_service rt' = rt_audit_service rt
  end.
Proof.
  intros Hr. unfold record_audit_event in Hr. sm_inv Hr as rec s1 Ha err ->.
  - apply sm_map_err_inv in Ha as (r0 & Ha & Hr0). destruct r0 as [rec0|]; [|done].
    injection Hr0 as <-. apply sm_zoom_inv in Ha as ([w1 a1] & Ha & ->). simpl in Ha.
    apply record_world in Ha as Hw. apply record_cases in Ha.
    assert (rt_audit_service rt' = a1 /\ rt_approval_service rt' = rt_approval_service rt /\
      w' = w1 /\ r = Ok rec) as (Hrt & Hap & -> & ->).
    { revert Hr. unfold rt_push. sm_unfold. simpl. destruct (ev_id rec); by intros [= <- <- <-]. }
    split_and!; [done..|]. intros Hen. rewrite Hen in Ha. exists rec. by rewrite Hrt.
  - apply sm_map_err_inv in Ha as (r0 & Ha & Hr0). destruct r0 as [|err0]; [done|].
    apply sm_zoom_inv in Ha as ([w1 a1] & Ha & [= -> ->]). simpl in Ha.
    apply record_world in Ha as Hw. apply record_cases in Ha as [_ ->]. by destruct rt.
Qed.

(** A handler that resolves the entry [i]: nothing happened, or the entry was
    replaced by [f] of it. *)
Lemma handled_inv {A} pid (m : Uuid -> SvcM A) f w svc w' svc' r :
  (forall i w svc w' svc' r, m i (w, svc) = ((w', svc'), r) -> store_ok (as_store svc) ->
     ids_distinct (queue (w, svc)) ->
     (exists k, resolve_post i f k w w' (queue (w, svc)) (queue (w', svc')) r)) ->
  (i ← parse_pending_id pid; sm_map_err HApproval (m i)) (w, svc) = ((w', svc'), r) ->
  store_ok (as_store svc) -> ids_distinct (queue (w, svc)) ->
  match r with
  | Ok _ => exists i e0 e', uuid_parse pid = Ok i /\
      resolved_to i f w w' (queue (w, svc)) (queue (w', svc')) e0 e'
  | Err _ => queue (w', svc') = queue (w, svc) \/ exists i e0 e', uuid_parse pid = Ok i /\
      resolved_to i f w w' (queue (w, svc)) (queue (w', svc')) e0 e'
  end.
Proof.
  intros Hm Hr Hok Hd. unfold parse_pending_id in Hr.
  destruct (uuid_parse pid) as [i|]; simpl in Hr.
  2:{ revert Hr. intros [= <- <- <-]. by left. }
  sm_step Hr. apply sm_map_err_inv in Hr as (r0 & Hr & ->).
  apply Hm in Hr as [k Hp]; [|done..]. destruct r0 as [a|[j|j|e]]; simpl in *.
  - destruct Hp as (e0 & e' & _ & ?). eauto 10.
  - destruct Hp as (_ & ? & _). by left.
  - done.
  - destruct Hp as [?|(e0 & e' & ?)]; [by left|right; eauto 10].
Qed.

Lemma approve_handled pid w svc w' svc' r :
  handle_approve_execution pid (w, svc) = ((w', svc'), r) ->
  store_ok (as_store svc) -> ids_distinct (queue (w, svc)) ->
  match r with
  | Ok _ => exists i e0 e', uuid_parse pid = Ok i /\
      resolved_to i (with_status Approved) w w' (queue (w, svc)) (queue (w', svc')) e0 e'
  | Err _ => queue (w', svc') = queue (w, svc) \/ exists i e0 e', uuid_parse pid = Ok i /\
      resolved_to i (with_status Approved) w w' (queue (w, svc)) (queue (w', svc')) e0 e'
  end.
Proof.
  apply handled_inv. clear. intros i w svc w' svc' r Hr Hok Hd. eexists.
  rewrite approve_resolve in Hr.
  by apply (resolve_spec _ _ (with_status Approved)) in Hr as (_ & _ & _ & ?);
    [|apply update_status_updates|..].
Qed.

Lemma reject_handled pid reason w svc w' svc' r :
  handle_reject_execution pid reason (w, svc) = ((w', svc'), r) ->
  store_ok (as_store svc) -> ids_distinct (queue (w, svc)) ->
  let f := with_rejection (normalize_rejection_reason reason) in
  match r with
  | Ok _ => exists i e0 e', uuid_parse pid = Ok i /\
      resolved_to i f w w' (queue (w, svc)) (queue (w', svc')) e0 e'
  | Err _ => queue (w', svc') = queue (w, svc) \/ exists i e0 e', uuid_parse pid = Ok i /\
      resolved_to i f w w' (queue (w, svc)) (queue (w', svc')) e0 e'
  end.
Proof.
  intros Hr Hok Hd. revert Hr Hok Hd. apply handled_inv. clear.
  intros i w svc w' svc' r Hr Hok Hd. eexists. rewrite reject_resolve in Hr.
  by apply (resolve_spec _ _ (with_rejection (normalize_rejection_reason reason))) in Hr as (_ & _ & _ & ?); [|apply record_rejection_updates|..].
Qed.

(** ** Effects *)

(** The audit row of a decision of [who] on the pending execution [pid]. *)
Definition decision_row (action pid who : string) (msg : option string)
    (row : AppendAuditEventExtended) : Prop :=
  aa_action row = Some action /\ aa_actor_id row = who /\ aa_object_id row = Some pid /\
  aa_error_message row = msg.

Lemma audited_row event rt rt' action pid who msg :
  audited event rt rt' -> ev_action event = action -> ev_actor_id event = Some who ->
  ev_object_id event = Some pid -> ev_error_message event = msg ->
  enabled (rt_audit_service rt) = true ->
  exists n row, rt_rows rt' = rt_rows rt ++ [(n, row)] /\
    decision_row action pid who (audited_text (rt_audit_service rt) <$> msg) row.
Proof.
  intros Ha <- Hwho Hpid <- Hen. destruct (Ha Hen) as [stored Hs].
  apply (stored_as_bare _ _ _ _ who) in Hs as (n & e2 & Hrows & Hbare & Herr); [|done].
  exists n, (extended_event e2). split; [done|].
  apply extended_bare in Hbare as (? & _ & Hactor & Hobj & _).
  unfold decision_row. rewrite Hactor, Hobj, Hwho, Hpid. done.
Qed.

(** The entry [pid] names was live and pending, and is now [f] of what it was. *)
Definition resolved_entry (pid : string) (f : PendingExecution -> PendingExecution)
    (s s' : World * McpRuntime St) : Prop :=
  exists i e0 e' w1, uuid_parse pid = Ok i /\ world_le s.1 w1 /\
    resolved_to i f w1 s'.1 (rt_queue s) (rt_queue s') e0 e'.

(** A rejection never takes effect unaudited, and both places hold the same
    reason: whatever the result, either the queue is unchanged (and the call
    failed), or the live pending entry was rejected with the normalized reason
    and, with auditing enabled, one row records the rejection by that person with
    the same reason (redacted as configured; a default text when none was given). *)
Theorem rejection_is_audited_first pid who reason origin w rt w' rt' r :
  reject_pending_execution_with_origin_mut pid who reason origin (w, rt) = ((w', rt'), r) ->
  queue_ok (w, rt) ->
  rt_queue (w', rt') = rt_queue (w, rt) /\ is_ok r = false \/
  resolved_entry pid (with_rejection (normalize_rejection_reason reason)) (w, rt) (w', rt') /\
  (enabled (rt_audit_service rt) = true ->
   exists n row, rt_rows rt' = rt_rows rt ++ [(n, row)] /\
     decision_row "mcp_reject_execution" pid who (Some (audited_text (rt_audit_service rt)
       (default "rejected by approver" (normalize_rejection_reason reason)))) row).
Proof.
  intros Hr [Hok Hd]. unfold reject_pending_execution_with_origin_mut in Hr.
  unfold rt_queue, queue in *. simpl in *.
  sm_inv Hr as pending s1 Hg err ->.
  2:{ left. apply on_approval_inv in Hg as (w1 & svc1 & r0 & Hg & [= -> ->] & _).
      apply handle_get_inv in Hg as (_ & Hq & _); [|done]. simpl. by rewrite Hq. }
  apply on_approval_inv in Hg as (w1 & svc1 & r0 & Hg & -> & _).
  apply handle_get_inv in Hg as (Hok1 & Hq1 & Hw1 & _); [|done].
  sm_inv Hr as ts s2 Hts err ->; apply rt_now_inv in Hts as [Hs2 Hts]; [subst s2|by destruct Hts].
  sm_inv Hr as rec s3 Hrec err ->.
  2:{ left. apply record_audit_inv in Hrec as (_ & Hap & _). rewrite Hap. simpl. by rewrite Hq1. }
  destruct s3 as [w3 rt3]. apply record_audit_inv in Hrec as (Hw3 & Hap3 & Haud). simpl in Hap3.
  assert (world_le w w3) as Hw by (trans w1; [done|]; trans (tick w1); auto with dbflux).
  pose proof (audited_row _ _ _ MCP_REJECT_EXECUTION pid who
    (Some (default "rejected by approver" (normalize_rejection_reason reason)))
    Haud eq_refl eq_refl eq_refl eq_refl) as Hrow. clear Haud.
  assert (ids_distinct (queue (w3, svc1))) as Hd3 by (unfold queue; simpl; by rewrite Hq1).
  sm_inv Hr as rej s4 Hrej err ->;
    apply on_approval_inv in Hrej as (w4 & svc4 & r1 & Hrej & Hs4 & Hr1);
    rewrite Hap3 in Hrej; (apply reject_handled in Hrej; [|exact Hok1|exact Hd3]).
  - revert Hr. subst s4. intros [= <- <- <-]. destruct r1; [|done]. right.
    rewrite normalize_idemp in Hrej. unfold queue in Hrej. simpl in *. rewrite Hq1 in Hrej.
    destruct Hrej as (i & e0 & e' & ? & ?). split; [|exact Hrow]. by exists i, e0, e', w3.
  - simplify_eq. destruct r1; [done|]. unfold queue in Hrej. simpl in *. rewrite Hq1 in Hrej.
    rewrite normalize_idemp in Hrej.
    destruct Hrej as [->|(i & e0 & e' & ? & ?)]; [by left|right]. split; [|exact Hrow].
    by exists i, e0, e', w3.
Qed.

(** An approval through the runtime, on every branch: on success the live
    pending entry was approved and, with auditing enabled, one row records the
    approval by that person; on failure nothing was audited, and the queue is
    unchanged or that one entry was approved all the same. *)
Theorem approval_effects pid who origin w rt w' rt' r :
  approve_pending_execution_with_origin_mut pid who origin (w, rt) = ((w', rt'), r) ->
  queue_ok (w, rt) ->
  let approved := resolved_entry pid (with_status Approved) (w, rt) (w', rt') in
  match r with
  | Ok _ => approved /\ (enabled (rt_audit_service rt) = true ->
      exists n row, rt_rows rt' = rt_rows rt ++ [(n, row)] /\
        decision_row "mcp_approve_execution" pid who None row)
  | Err _ => rt_audit_service rt' = rt_audit_service rt /\
      (rt_queue (w', rt') = rt_queue (w, rt) \/ approved)
  end.
Proof.
  intros Hr [Hok Hd] approved. unfold approve_pending_execution_with_origin_mut in Hr.
  unfold approved, rt_queue, queue in *. simpl in *.
  sm_inv Hr as pending s1 Hg err ->.
  2:{ apply on_approval_inv in Hg as (w1 & svc1 & r0 & Hg & [= -> ->] & _).
      apply handle_get_inv in Hg as (_ & Hq & _); [|done]. simpl. rewrite Hq. auto. }
  apply on_approval_inv in Hg as (w1 & svc1 & r0 & Hg & -> & _).
  apply handle_get_inv in Hg as (Hok1 & Hq1 & Hw1 & _); [|done].
  sm_inv Hr as ts s2 Hts err ->; apply rt_now_inv in Hts as [Hs2 Hts]; [subst s2|by destruct Hts].
  assert (ids_distinct (queue (tick w1, svc1))) as Hd1 by (unfold queue; simpl; by rewrite Hq1).
  assert (world_le w (tick w1)) as Hw by (trans w1; auto with dbflux).
  sm_inv Hr as app s3 Happ err ->;
    apply on_approval_inv in Happ as (w3 & svc3 & r1 & Happ & Hs3 & Hr1);
    simpl in Happ; (apply approve_handled in Happ; [|exact Hok1|exact Hd1]);
    unfold queue in Happ; simpl in Happ; rewrite Hq1 in Happ.
  2:{ destruct r1; [done|]. simplify_eq. simpl. split; [done|].
      destruct Happ as [?|(i & e0 & e' & ? & ?)]; [by left|right]. by exists i, e0, e', (tick w1). }
  destruct r1; [|done]. subst s3. destruct Happ as (i & e0 & e' & Hpid & Hres).
  assert (forall w4 rt4, world_le w3 w4 -> rt_approval_service rt4 = svc3 ->
    resolved_entry pid (with_status Approved) (w, rt) (w4, rt4)) as Hdone.
  { intros w4 rt4 Hw4 <-. exists i, e0, e', (tick w1). split_and!; [done..|].
    destruct Hres as (? & ? & now & (n & Hn & Hnow) & ?). split_and!; [done..|].
    exists now. split; [|done]. exists n. split; [|done].
    destruct Hw4 as (_ & _ & _ & Hticks & _). simpl in *. lia. }
  sm_inv Hr as rec s4 Hrec err ->.
  - destruct s4 as [w4 rt4]. apply record_audit_inv in Hrec as (Hw4 & Hap4 & Haud).
    pose proof (audited_row _ _ _ MCP_APPROVE_EXECUTION pid who None
      Haud eq_refl eq_refl eq_refl eq_refl) as Hrow.
    revert Hr. intros [= <- <- <-]. split; [|exact Hrow]. by apply Hdone.
  - apply record_audit_inv in Hrec as (Hw4 & Hap4 & Hnone). split; [exact Hnone|].
    right. by apply Hdone.
Qed.

End Resolve.

(** ** On concrete runs *)

Module ResolveExample.

Definition Runtime : Type := McpRuntime InMemoryPendingExecutionStore.

(** One call waits in the queue; the database fails from call [n] on. *)
Definition faulty_world (n : nat) : World :=
  mkWorld text_uuid (fun k => 1000 * Z.of_nat k) 2 nat_text 1
    (fun k => if Nat.leb n k then Some "disk I/O error" else None) 0.

Definition waiting : PendingExecution :=
  mkPending (nat_text 0) Pending drop_users 0 (Some 86400000) None.

Definition rt0 : Runtime :=
  mkRuntime ∅ ∅ ∅ ∅ (service_new [waiting]) empty_audit [] true.

Definition start (n : nat) : World * Runtime := (faulty_world n, rt0).

Definition approve_it (s : World * Runtime) :=
  approve_pending_execution_with_origin_mut (nat_text 0) "alice" origin_local s.

Lemma start_ok n : queue_ok (start n).
Proof. split; [done|]. apply NoDup_singleton. Qed.

End ResolveExample.

Lemma rejection_is_audited_first_witness :
  exists w' rt' (r : result ApprovalOutcome GovernanceError),
    rt_queue (w', rt') = rt_queue (ResolveExample.faulty_world 9, ResolveExample.rt0) /\
    is_ok r = false \/
    resolved_entry (nat_text 0) (with_rejection (normalize_rejection_reason (Some " too risky ")))
      (ResolveExample.faulty_world 9, ResolveExample.rt0) (w', rt') /\
    (enabled (rt_audit_service ResolveExample.rt0) = true ->
     exists n row, rt_rows rt' = rt_rows ResolveExample.rt0 ++ [(n, row)] /\
      decision_row "mcp_reject_execution" (nat_text 0) "alice"
        (Some (audited_text (rt_audit_service ResolveExample.rt0)
          (default "rejected by approver" (normalize_rejection_reason (Some " too risky "))))) row).
Proof.
  destruct (reject_pending_execution_with_origin_mut (nat_text 0) "alice" (Some " too risky ")
    origin_local (ResolveExample.faulty_world 9, ResolveExample.rt0)) as [[w' rt'] r] eqn:Hr.
  exists w', rt', r.
  exact (rejection_is_audited_first (nat_text 0) "alice" (Some " too risky ") origin_local
           (ResolveExample.faulty_world 9) ResolveExample.rt0 w' rt' r Hr
           (ResolveExample.start_ok 9)).
Defined.

Lemma approval_effects_witness :
  exists w' rt', resolved_entry (nat_text 0) (with_status Approved)
      (ResolveExample.faulty_world 9, ResolveExample.rt0) (w', rt') /\
    (enabled (rt_audit_service ResolveExample.rt0) = true ->
     exists n row, rt_rows rt' = rt_rows ResolveExample.rt0 ++ [(n, row)] /\
      decision_row "mcp_approve_execution" (nat_text 0) "alice" None row).
Proof.
  destruct (approve_pending_execution_with_origin_mut (nat_text 0) "alice" origin_local
    (ResolveExample.faulty_world 9, ResolveExample.rt0)) as [[w' rt'] r] eqn:Hr.
  assert (is_ok (approve_pending_execution_with_origin_mut (nat_text 0) "alice" origin_local
    (ResolveExample.faulty_world 9, ResolveExample.rt0)).2 = true) as Hok
    by (vm_compute; reflexivity).
  rewrite Hr in Hok. cbn [snd] in Hok. destruct r as [o|]; [|discriminate Hok].
  exists w', rt'.
  exact (approval_effects _ _ _ _ _ _ _ _ Hr (ResolveExample.start_ok 9)).
Defined.

(** An approval can take effect unaudited: when the audit write fails, the
    caller gets an error and the audit table has no row, but the entry is
    approved and the call it holds will run. *)
Theorem approval_can_take_effect_unaudited :
  let '(s', r) := ResolveExample.approve_it (ResolveExample.start 0) in
  is_ok r = false /\ rt_rows s'.2 = [] /\
  rt_queue s' = [with_status Approved ResolveExample.waiting].
Proof. vm_compute. split_and!; reflexivity. Qed.
