(* ===== verification/Middleware.v ===== *)
(** * The governance middleware of the MCP server (crates/dbflux_mcp_server:
    governance.rs, state.rs)

    Every tool of the server runs through [authorize_and_execute]: the call is
    authorized against the runtime, a refusal is turned into an error for the
    agent, and otherwise the tool's handler runs and its result is audited under
    the correlation id of the authorization. *)

From stdpp Require Import pretty.
From S2P Require Import Prelude RustStr External Classification Policy Approval ApprovalService Events UriRedact Redaction AuditService Governance Authorization Runtime RuntimeConfig.

(** ** The protocol's data (the [rmcp] crate), as far as it is used *)

Inductive ErrorCode : Type :=
| INVALID_REQUEST
| INTERNAL_ERROR
| OtherCode (code : Z).

Record McpError `{JsonNumber} := mkMcpError {
  me_code : ErrorCode;
  me_message : string;
  me_data : option Value;
}.

(** The variants of [ContentBlock] the server looks at; the others are
    [CbOther]. *)
Inductive ContentBlock : Type :=
| CbText (text : string)
| CbImage (data : string)
| CbAudio
| CbResource (uri : option string)
| CbResourceLink (uri : string)
| CbOther.

Record CallToolResult := mkToolResult {
  tr_content : list ContentBlock;
  tr_is_error : option bool;
}.

Record AuditDetails := mkAuditDetails { ad_query : option string }.

(** ** Server state *)

Record ConnectionProfile `{UuidLib} := mkProfile {
  cp_id : Uuid;
  cp_mcp_governance_enabled : option bool;
  cp_read_only_flag : bool;
}.

(** The part of [ServerState] the middleware uses; [ss_stored_flags] is the
    profile table at [profile_store_path], if there is one. *)
Record ServerState `{UuidLib} (St : Type) := mkServerState {
  ss_client_id : string;
  ss_runtime : McpRuntime St;
  ss_profiles : list ConnectionProfile;
  ss_mcp_enabled_by_default : bool;
  ss_stored_flags : option (gmap string bool);
}.
Arguments mkServerState {_ St}.
Arguments ss_client_id {_ St}.
Arguments ss_runtime {_ St}.
Arguments ss_profiles {_ St}.
Arguments ss_mcp_enabled_by_default {_ St}.
Arguments ss_stored_flags {_ St}.

Definition set_runtime `{UuidLib} {St} (rt : McpRuntime St) (ss : ServerState St) : ServerState St :=
  mkServerState (ss_client_id ss) rt (ss_profiles ss) (ss_mcp_enabled_by_default ss)
    (ss_stored_flags ss).

Section State.
Context `{UuidLib} {St : Type}.
Implicit Types ss : ServerState St.

(** [ProfileManager::find_by_id]. *)
Definition find_by_id ss (id : Uuid) : option ConnectionProfile :=
  List.find (fun p => bool_decide (cp_id p = id)) (ss_profiles ss).

Definition is_mcp_enabled_for_connection ss (connection_id : string) : bool :=
  match uuid_parse connection_id with
  | Err _ => false
  | Ok profile_uuid =>
      match find_by_id ss profile_uuid with
      | None => false
      | Some profile =>
          match cp_mcp_governance_enabled profile with
          | Some enabled => enabled
          | None => ss_mcp_enabled_by_default ss
          end
      end
  end.

(** [stored_read_only_flag]: opening the database and reading the row may fail,
    and then the connection counts as read-only. *)
Definition stored_read_only_flag {E} ss (profile_uuid : Uuid) : SM World E (option bool) :=
  match ss_stored_flags ss with
  | None => mret None
  | Some flags => fun w =>
      let '(w, opened) := db_call w in
      match opened with
      | Err _ => (w, Ok (Some true))
      | Ok _ =>
          let '(w, row) := db_call w in
          match row with
          | Err _ => (w, Ok (Some true))
          | Ok _ => (w, Ok (flags !! uuid_to_string profile_uuid))
          end
      end
  end.

Definition is_read_only_connection {E} ss (connection_id : string) : SM World E bool :=
  match uuid_parse connection_id with
  | Err _ => mret false
  | Ok profile_uuid =>
      stored ← stored_read_only_flag ss profile_uuid;
      match stored with
      | Some stored_flag => mret stored_flag
      | None =>
          mret match find_by_id ss profile_uuid with
               | Some profile => cp_read_only_flag profile
               | None => false
               end
      end
  end.

End State.

(** ** Hints *)

Record HintPermissions := mkHints {
  table_names : bool;
  column_names : bool;
  databases : bool;
}.

Definition hint_permissions `{UuidLib, HashOrder} {St} (ss : ServerState St) (connection_id : string)
  : HintPermissions :=
  let policy_engine := runtime_engine (ss_runtime ss) in
  let allowed tool_id :=
    match evaluate policy_engine
            (mkPolicyRequest (ss_client_id ss) connection_id tool_id Metadata) with
    | Ok Allow => true
    | _ => false
    end in
  mkHints (allowed "list_tables") (allowed "describe_object") (allowed "list_databases").

(** ** Execution events *)

Definition is_query_tool (tool_id : string) : bool :=
  bool_decide (tool_id ∈ ["select_data"; "count_records"; "aggregate_data"]).

Definition is_script_tool (tool_id : string) : bool := bool_decide (tool_id = "execute_script").

Definition execution_action (tool_id : string) (outcome : EventOutcome.t) : AuditAction :=
  if is_query_tool tool_id then
    match outcome with
    | EventOutcome.Success => QUERY_EXECUTE
    | EventOutcome.Failure => QUERY_EXECUTE_FAILED
    | _ => QUERY_EXECUTE
    end
  else if is_script_tool tool_id then
    match outcome with
    | EventOutcome.Success => SCRIPT_EXECUTE
    | EventOutcome.Failure => SCRIPT_EXECUTE_FAILED
    | _ => SCRIPT_EXECUTE
    end
  else
    match outcome with
    | EventOutcome.Success => MCP_TOOL_EXECUTE
    | EventOutcome.Failure => MCP_TOOL_EXECUTE_FAILED
    | _ => MCP_TOOL_EXECUTE
    end.

Definition build_execution_event (ts_ms : Z) (level : EventSeverity.t) (outcome : EventOutcome.t)
    (tool_id actor_id : string) : EventRecord :=
  let action := execution_action tool_id outcome in
  let summary :=
    (if is_query_tool tool_id then "Query " else if is_script_tool tool_id then "Script "
     else "MCP tool ") +:+ EventOutcome.as_str outcome +:+ ": tool=" +:+ tool_id in
  with_object_ref "tool" tool_id
    (with_actor_id actor_id
      (with_summary summary
        (with_typed_action action (event_new ts_ms level EventCategory.Mcp outcome)))).

(** [msgs.join(newline)]. *)
Definition newline : string := String "010"%char EmptyString.

Fixpoint join_lines (l : list string) : string :=
  match l with
  | [] => EmptyString
  | [x] => x
  | x :: l' => x +:+ newline +:+ join_lines l'
  end.

Definition block_message (b : ContentBlock) : option string :=
  match b with
  | CbText text => Some text
  | CbImage data => Some ("[image: " +:+ pretty (N.of_nat (str_len data)) +:+ " bytes]")
  | CbAudio => Some "[audio content]"
  | CbResource (Some uri) => Some ("[resource: " +:+ uri +:+ "]")
  | CbResource None => None
  | CbResourceLink uri => Some ("[resource_link: " +:+ uri +:+ "]")
  | CbOther => None
  end.

Definition extract_error_content (result : CallToolResult) : string :=
  join_lines (omap block_message (tr_content result)).

(** ** Errors for the agent *)

Definition approval_required_message (tool_id : string) (classification : ExecutionClassification)
    (pending_id : string) : string :=
  "Approval required: the policy requires a person to approve '" +:+ tool_id +:+
  "' calls of class " +:+ classification_debug classification +:+
  ". This call has NOT run; it was queued as pending execution " +:+ pending_id +:+
  ". Next steps: (1) Tell the user that pending execution " +:+ pending_id +:+
  " is waiting for their approval in DBFlux (Workspace > Pending Approvals). (2) Wait for the user. Do not call approve_execution or reject_execution; they are always denied to MCP clients. (3) To check the status, call get_pending_execution with {" +:+
  dquote +:+ "pending_id" +:+ dquote +:+ ": " +:+ dquote +:+ pending_id +:+ dquote +:+
  "}: while its status is 'pending', it is still waiting for a decision; status 'rejected' means the user rejected it, and its 'reason' field carries what they wrote; once it is no longer found, it was approved or has expired. (4) After the user approves it, repeat this exact call: the same tool '" +:+
  tool_id +:+
  "' with identical arguments. It then runs once. If it was rejected or expired, repeating it queues a new request instead of running.".

Definition authorization_error `{JsonNumber} (outcome : AuthorizationOutcome) (tool_id : string)
    (classification : ExecutionClassification) : McpError :=
  let reason := default "authorization denied" (deny_reason outcome) in
  if bool_decide (deny_code outcome = Some APPROVAL_REQUIRED_CODE) then
    let pending_id := default "unknown" (pending_execution_id outcome) in
    mkMcpError _ INVALID_REQUEST (approval_required_message tool_id classification pending_id)
      (Some (VObject [
         ("code", VString APPROVAL_REQUIRED_CODE);
         ("status", VString "pending");
         ("pending_id", match pending_execution_id outcome with
                        | Some id => VString id | None => VNull end);
         ("tool_id", VString tool_id);
         ("next_action", VString "wait_for_human_approval_then_repeat_identical_call");
         ("status_tool", VString "get_pending_execution")]))
  else
    mkMcpError _ INVALID_REQUEST reason
      ((fun code => VObject [("code", VString code)]) <$> deny_code outcome).

Definition internal_error `{JsonNumber} (msg : string) : McpError :=
  mkMcpError _ INTERNAL_ERROR msg None.

(** How a tool call ends without a result: an error for the agent, or a panic
    ([now_epoch_ms] unwraps a clock before the epoch). *)
Inductive ToolFailure `{JsonNumber} : Type :=
| Failed (e : McpError)
| Panicked.

Section Middleware.
Context `{UuidLib, SerdeJson, RegexLib, TextLib, HashOrder, !PendingExecutionStore St}.
(** Whatever the tools act on: connections, databases, files. *)
Context {X : Type}.

#[local] Abbreviation Sys := ((World * (ServerState St * X))%type).
#[local] Abbreviation MwM := (SM Sys ToolFailure).

Definition Handler : Type := SM Sys McpError (CallToolResult * AuditDetails).

Definition mw_world {A} (m : SM World ToolFailure A) : MwM A :=
  sm_zoom fst (fun w s => (w, s.2)) m.

(** A call on the runtime under its lock. *)
Definition on_runtime {A E} (m : SM (World * McpRuntime St) E A) : SM Sys E A :=
  sm_zoom (fun s => (s.1, ss_runtime s.2.1))
          (fun t s => (t.1, (set_runtime t.2 s.2.1, s.2.2))) m.

Definition now_or_panic : SM World ToolFailure Z :=
  t ← read_clock;
  if bool_decide (t < 0) then sm_err Panicked else mret (i64_wrap t).

(** [audit_service.record(event)] with its error for the agent. *)
Definition record_execution (event : EventRecord) : MwM unit :=
  _ ← sm_map_err (fun e => Failed (internal_error ("Execution audit error: " +:+ audit_error_display e)))
    (on_runtime (sm_zoom (fun s => (s.1, rt_audit_service s.2))
                         (fun t s => (t.1, set_audit t.2 s.2)) (record event)));
  mret tt.

Definition execution_context (correlation_id conn_id : string) : AuditContext :=
  ctx_with_connection_id conn_id
    (ctx_with_correlation_id correlation_id (ctx_with_origin origin_mcp context_new)).

(** The event of [audit_execution_with_details], by the result of the handler. *)
Definition execution_event (ts_ms : Z) (tool_id conn_id : string)
    (result : result CallToolResult McpError) (actor_id correlation_id : string)
    (audit_details : AuditDetails) : EventRecord :=
  let ctx := execution_context correlation_id conn_id in
  match result with
  | Ok call_result =>
      if negb (bool_decide (tr_is_error call_result = Some true)) then
        let map := [("content_count", VNumber (jnum_of_nat (length (tr_content call_result))))] in
        let map := match ad_query audit_details with
                   | Some q => map_insert "query" (VString q) map
                   | None => map
                   end in
        with_details_json (json_to_string (VObject map))
          (apply_to ctx (build_execution_event ts_ms EventSeverity.Info EventOutcome.Success
             tool_id actor_id))
      else
        with_error "handler_error" (extract_error_content call_result)
          (apply_to ctx (build_execution_event ts_ms EventSeverity.Warn EventOutcome.Failure
             tool_id actor_id))
  | Err mcp_error =>
      with_error "handler_error" (me_message mcp_error)
        (apply_to ctx (build_execution_event ts_ms EventSeverity.Error EventOutcome.Failure
           tool_id actor_id))
  end.

Definition audit_execution_with_details (tool_id : string) (connection_id : option string)
    (result : result CallToolResult McpError) (outcome : AuthorizationOutcome)
    (audit_details : AuditDetails) : MwM unit :=
  ts_ms ← mw_world now_or_panic;
  cid ← match correlation_id outcome with
        | Some c => mret c
        | None => mw_world new_correlation_id
        end;
  record_execution (execution_event ts_ms tool_id (default EmptyString connection_id) result
                      (actor_id outcome) cid audit_details).

(** The request the middleware makes of the runtime. *)
Definition call_request (ss : ServerState St) (tool_id : string) (connection_id : option string)
    (classification : ExecutionClassification) (mcp_enabled read_only : bool) (cid : string)
  : AuthorizationRequest :=
  mkAuthRequest (mkRequestIdentity (ss_client_id ss) None) (default EmptyString connection_id)
    tool_id classification mcp_enabled read_only (Some cid).

(** Everything up to the answer of [authorize_with_approval_mut]; [arguments] are
    those of the call being served, if there is one. *)
Definition authorize_call (arguments : option Value) (tool_id : string)
    (connection_id : option string) (classification : ExecutionClassification)
  : MwM AuthorizationOutcome :=
  s ← sm_get;
  let ss := fst (snd s) in
  let mcp_enabled := match connection_id with
                     | Some conn_id => is_mcp_enabled_for_connection ss conn_id
                     | None => true
                     end in
  read_only ← match connection_id with
              | Some conn_id => mw_world (is_read_only_connection ss conn_id)
              | None => mret false
              end;
  trusted_clients_dto ← sm_lift (map_err (fun e =>
      Failed (internal_error ("Failed to list trusted clients: " +:+ governance_error_display e)))
    (list_trusted_clients (ss_runtime ss)));
  let trusted_clients := map client_of_dto trusted_clients_dto in
  let policy_engine := runtime_engine (ss_runtime ss) in
  cid ← mw_world new_correlation_id;
  now ← mw_world now_or_panic;
  sm_map_err (fun e => Failed (internal_error ("Authorization error: " +:+
                                                authorization_error_display e)))
    (on_runtime (authorize_with_approval_mut trusted_clients policy_engine
       (call_request ss tool_id connection_id classification mcp_enabled read_only cid)
       (default (VObject []) arguments) now)).

Definition authorize_and_execute_audited (arguments : option Value) (tool_id : string)
    (connection_id : option string) (classification : ExecutionClassification)
    (handler : Handler) : MwM CallToolResult :=
  outcome ← authorize_call arguments tool_id connection_id classification;
  if negb (allowed outcome) then
    sm_err (Failed (authorization_error outcome tool_id classification))
  else
    handler_result ← (fun s => let '(s', r) := handler s in (s', Ok r));
    let '(result, audit_details) :=
      match handler_result with
      | Ok (result, details) => (Ok result, details)
      | Err e => (Err e, mkAuditDetails None)
      end in
    _ ← audit_execution_with_details tool_id connection_id result outcome audit_details;
    sm_lift (map_err Failed result).

Definition authorize_and_execute (arguments : option Value) (tool_id : string)
    (connection_id : option string) (classification : ExecutionClassification)
    (handler : SM Sys McpError CallToolResult) : MwM CallToolResult :=
  authorize_and_execute_audited arguments tool_id connection_id classification
    (r ← handler; mret (r, mkAuditDetails None)).

End Middleware.
