(* ===== verification/MiddlewareProps.v ===== *)
(** * What the middleware guarantees

    A tool's handler runs only after its call was authorized, a mutating call
    never runs on a read-only connection (nor on one whose profile cannot be
    read), and a call that ran left two audit rows linked by its correlation id. *)

From S2P Require Import Prelude RustStr External Concrete Classification Policy Approval ApprovalService ApprovalProps Events UriRedact Redaction AuditService AuditProps Governance Authorization AuthorizationProps Runtime RuntimeConfig RuntimeRuns RuntimeResolve Middleware.

Section Props.
Context `{UuidLib, SerdeJsonLaws, RegexLib, TextLib, HashOrder, !PendingExecutionStore St}.
Context {X : Type}.
Implicit Types (w : World) (ss : ServerState St) (x : X) (rt : McpRuntime St).

(** The clients the middleware consults. *)
Definition server_clients ss : TrustedClientRegistry :=
  map client_of_dto (sort_by_key cd_id (hash_values (rt_trusted_clients (ss_runtime ss)))).

(** The read-only flag the middleware sees for a call made at [w]. *)
Definition read_only_flag ss (connection_id : option string) w : bool :=
  match connection_id with
  | Some conn_id =>
      match (is_read_only_connection (E := ToolFailure) ss conn_id w).2 with
      | Ok b => b | Err _ => false end
  | None => false
  end.

Definition mcp_enabled_flag ss (connection_id : option string) : bool :=
  match connection_id with
  | Some conn_id => is_mcp_enabled_for_connection ss conn_id
  | None => true
  end.

(** The call as it is put to the runtime. *)
Definition server_request ss (tool_id : string) (connection_id : option string)
    (classification : ExecutionClassification) w (cid : string) : AuthorizationRequest :=
  call_request ss tool_id connection_id classification (mcp_enabled_flag ss connection_id)
    (read_only_flag ss connection_id w) cid.

(** ** Inversions *)

Lemma is_read_only_Ok {E} ss conn w : exists w' b,
  is_read_only_connection (E := E) ss conn w = (w', Ok b).
Proof.
  unfold is_read_only_connection. destruct (uuid_parse conn) as [u|]; [|eauto].
  unfold stored_read_only_flag. sm_unfold.
  destruct (ss_stored_flags ss) as [flags|]; [|eauto]. unfold db_call.
  destruct (db_fault w (db_calls w)); simpl; [eauto|].
  destruct (db_fault w (S (db_calls w))); simpl; [eauto|].
  destruct (flags !! _); eauto.
Qed.

Lemma on_runtime_inv {A E} (m : SM (World * McpRuntime St) E A) w ss x s' r :
  on_runtime m (w, (ss, x)) = (s', r) ->
  exists w' rt', m (w, ss_runtime ss) = ((w', rt'), r) /\ s' = (w', (set_runtime rt' ss, x)).
Proof. intros ([w' rt'] & Hm & ->)%sm_zoom_inv. eauto. Qed.

Lemma mw_world_inv {A} (m : SM World ToolFailure A) w (y : ServerState St * X) s' r :
  mw_world m (w, y) = (s', r) -> exists w', m w = (w', r) /\ s' = (w', y).
Proof. intros (w' & Hm & ->)%sm_zoom_inv. eauto. Qed.

Lemma is_read_only_world {E} ss conn w w' (r : result bool E) :
  is_read_only_connection ss conn w = (w', r) -> world_le w w'.
Proof.
  unfold is_read_only_connection, stored_read_only_flag, db_call. sm_unfold.
  destruct (uuid_parse conn) as [u|]; [|by intros [= <- _]].
  destruct (ss_stored_flags ss) as [flags|]; [|by intros [= <- _]].
  destruct (db_fault w (db_calls w)); simpl; [intros [= <- _]; apply world_le_bump|].
  destruct (db_fault w (S (db_calls w))); simpl;
    [|destruct (flags !! _)]; intros [= <- _]; unfold world_le; simpl; split_and!; done || lia.
Qed.

Lemma new_correlation_id_world {E} w w' (r : result string E) :
  new_correlation_id w = (w', r) -> world_le w w'.
Proof. intros [= <- _]. unfold world_le. simpl. split_and!; done || lia. Qed.

Lemma now_or_panic_world w w' r : now_or_panic w = (w', r) -> world_le w w'.
Proof.
  unfold now_or_panic, read_clock. sm_unfold. case_bool_decide; intros [= <- _]; apply world_le_tick.
Qed.

(** Authorizing a call leaves everything but the runtime alone, and its answer is
    the runtime's. *)
Lemma authorize_call_inv args tool conn cls w ss x w' ss' x' r :
  authorize_call args tool conn cls (w, (ss, x)) = ((w', (ss', x')), r) ->
  x' = x /\
  match r with
  | Ok o => exists w1 cid ts rt',
      ss' = set_runtime rt' ss /\ world_le w w1 /\
      authorize_with_approval_mut (server_clients ss) (runtime_engine (ss_runtime ss))
        (server_request ss tool conn cls w cid) (default (VObject []) args) ts
        (w1, ss_runtime ss) = ((w', rt'), Ok o)
  | Err _ => True
  end.
Proof.
  intros Hr. unfold authorize_call in Hr.
  sm_inv Hr as s s1 Hg err ?; [|done]. revert Hg. intros [= <- <-]. cbn [fst snd] in Hr.
  sm_inv Hr as ro s1 Hro err ->.
  2:{ destruct conn as [c|]; [|done]. apply mw_world_inv in Hro as (w1 & _ & Hs). by simplify_eq. }
  assert (ro = read_only_flag ss conn w /\ exists w1, s1 = (w1, (ss, x)) /\ world_le w w1)
    as [-> (w1 & -> & Hw1)].
  { unfold read_only_flag. destruct conn as [c|]; [|revert Hro; intros [= <- <-]; split; [done|by exists w]].
    apply mw_world_inv in Hro as (w1 & Hro & ->). rewrite Hro.
    split; [done|]. exists w1. split; [done|]. by eapply is_read_only_world. }
  unfold list_trusted_clients in Hr. simpl map_err in Hr. sm_step Hr.
  sm_inv Hr as cid s2 Hc err ->; apply mw_world_inv in Hc as (w2 & Hw2 & Hs2);
    [subst s2|by simplify_eq]. apply new_correlation_id_world in Hw2.
  sm_inv Hr as now s3 Hn err ->; apply mw_world_inv in Hn as (w3 & Hw3 & Hs3);
    [subst s3|by simplify_eq]. apply now_or_panic_world in Hw3.
  apply sm_map_err_inv in Hr as (r0 & Hr & ->).
  apply on_runtime_inv in Hr as (w4 & rt4 & Hr & Hs). simplify_eq. split; [done|].
  destruct r0 as [o|]; [|done]. simpl. exists w3, cid, now, rt4.
  split_and!; [done| |done]. trans w1; [done|]. by trans w2.
Qed.

(** The parts of a call that was allowed: the authorization, the handler and the
    audit of its result. *)
Lemma execute_inv args tool conn cls (h : Handler) w ss x w' ss' x' r :
  authorize_and_execute_audited args tool conn cls h (w, (ss, x)) = ((w', (ss', x')), r) ->
  (x' = x /\ is_ok r = false) \/
  exists o w1 ss1 s2 hr result details,
    authorize_call args tool conn cls (w, (ss, x)) = ((w1, (ss1, x)), Ok o) /\ allowed o = true /\
    h (w1, (ss1, x)) = (s2, hr) /\
    match hr with
    | Ok (res, d) => result = Ok res /\ details = d
    | Err e => result = Err e /\ details = mkAuditDetails None
    end /\
    (_ ← audit_execution_with_details tool conn result o details; sm_lift (map_err Failed result)) s2
      = ((w', (ss', x')), r).
Proof.
  intros Hr. unfold authorize_and_execute_audited in Hr. sm_inv Hr as o s1 Ha err ->.
  2:{ apply authorize_call_inv in Ha as [-> _]. by left. }
  destruct s1 as [w1 [ss1 x1]]. pose proof (authorize_call_inv _ _ _ _ _ _ _ _ _ _ _ Ha) as [-> _].
  destruct (allowed o) eqn:Hal; simpl in Hr.
  2:{ revert Hr. intros [= <- <- <- <-]. by left. }
  right. sm_inv Hr as hr s2 Hh err ?; [|by destruct (h (w1, (ss1, x)))].
  destruct (h (w1, (ss1, x))) as [s3 hr'] eqn:Hh'. injection Hh as -> ->.
  destruct hr as [[res d]|e]; eauto 15.
Qed.

(** ** Mediation *)

Context `{!PendingStoreLaws}.

(** A granted call used an approval that was in the queue: approved, not expired,
    and given for this very call. *)
Lemma runtime_gate_granted payload request w rt s' pid :
  runtime_gate payload request (w, rt) = (s', Ok (Granted pid)) -> queue_ok (w, rt) ->
  exists e now, e ∈ rt_queue (w, rt) /\ uuid_to_string (pe_id e) = pid /\
    read_after w now /\ good_for now (request_plan request payload) e.
Proof.
  unfold runtime_gate. intros Hr [Hok Hd]. case_bool_decide.
  { revert Hr. by intros [= _]. }
  sm_inv Hr as c s1 Hc err Herr; [|done]. apply sm_map_err_inv in Hc as (r0 & Hc & Hr0).
  destruct c as [summary|].
  2:{ sm_inv Hr as q s2 Hq err Herr; [|done]. revert Hr. by intros [= _]. }
  revert Hr. intros [= <- <-]. destruct r0 as [o|]; [|done]. injection Hr0 as <-.
  unfold consume_approved_execution_mut in Hc. sm_inv Hc as c s2 Hs err ?; [|done].
  apply on_approval_inv in Hs as (w2 & svc2 & r1 & Hs & -> & Hr1).
  destruct c as [e'|]; [|by revert Hc; intros [=]].
  revert Hc. intros [= _ <-]. destruct r1; simplify_eq/=.
  apply sm_map_err_inv in Hs as (r2 & Hs & Hr2). destruct r2; simplify_eq/=.
  apply on_store_inv in Hs as (w3 & st3 & r3 & Hs & _ & Hr3). destruct r3; simplify_eq/=.
  apply law_consume in Hs as (_ & _ & now & Hnow & i & e & Hi & [Ha _] & -> & _); [|done..].
  exists e, now. split_and!; [|done|by eapply read_during_after|by apply authorizes_good_for]. apply list_elem_of_lookup. eauto.
Qed.

(** What the answer of the runtime's gate says about the tool. *)
Lemma runtime_gate_exempt payload request (s s' : World * McpRuntime St) :
  runtime_gate payload request s = (s', Ok Exempt) -> ar_tool_id request ∈ APPROVAL_QUEUE_TOOLS.
Proof.
  unfold runtime_gate. case_bool_decide; [done|]. intros Hr.
  sm_inv Hr as c s1 Hc err Herr; [|done]. destruct c as [summary|].
  - revert Hr. by intros [= <-].
  - sm_inv Hr as q s2 Hq err Herr; [|done]. revert Hr. by intros [= <-].
Qed.

Lemma authorized_server_call tc eng request payload ts w rt w' rt' o :
  authorize_with_approval_mut tc eng request payload ts (w, rt) = ((w', rt'), Ok o) ->
  allowed o = true -> queue_ok (w, rt) ->
  cleared tc request /\
  (evaluate eng (policy_request request) = Ok Allow \/
   evaluate eng (policy_request request) = Ok RequireApproval /\
   (ar_tool_id request ∈ APPROVAL_QUEUE_TOOLS \/
    exists e now, e ∈ rt_queue (w, rt) /\ approved_execution_id o = Some (uuid_to_string (pe_id e)) /\
      read_after w now /\ good_for now (request_plan request payload) e)).
Proof.
  intros Hr Hal Hq. apply sm_zoom_inv in Hr as ([w1 [a1 rt1]] & Hr & _). simpl in Hr.
  apply authorized_allowed in Hr as [Hc Hev]; [|done]. split; [done|].
  destruct Hev as [[He _]|(He & resolve & w2 & res & [= <-] & Hg & Hres)]; [by left|right].
  split; [done|]. destruct Hres as [(pid & -> & ->)|[-> _]].
  - right. apply runtime_gate_granted in Hg as (e & now & ? & <- & Hnow & ?); [|done].
    exists e, now. split_and!; [done..| |done]. eapply read_after_le; [|exact Hnow]. apply cid_run_world.
  - left. by eapply runtime_gate_exempt.
Qed.

(** The call was put to the runtime and passed: every fixed check, the trusted
    clients, and a policy that allows it, or one that asks - and then the tool
    only works on the queue, or the queue held an approval of this very call
    that had not expired at a clock reading made for it. *)
Definition passed_governance ss (arguments : option Value) (tool_id : string)
    (connection_id : option string) (classification : ExecutionClassification) w : Prop :=
  exists cid, let request := server_request ss tool_id connection_id classification w cid in
    cleared (server_clients ss) request /\
    (evaluate (runtime_engine (ss_runtime ss)) (policy_request request) = Ok Allow \/
     evaluate (runtime_engine (ss_runtime ss)) (policy_request request) = Ok RequireApproval /\
     (tool_id ∈ APPROVAL_QUEUE_TOOLS \/
      exists e now, e ∈ rt_queue (w, ss_runtime ss) /\ read_after w now /\
        good_for now (request_plan request (default (VObject []) arguments)) e)).

Lemma executed_passed args tool conn cls (h : Handler) w ss x w' ss' x' r :
  authorize_and_execute_audited args tool conn cls h (w, (ss, x)) = ((w', (ss', x')), r) ->
  queue_ok (w, ss_runtime ss) ->
  (x' = x /\ is_ok r = false) \/ passed_governance ss args tool conn cls w.
Proof.
  intros [?|(o & w1 & ss1 & s2 & hr & res & d & Ha & Hal & _)]%execute_inv Hq; [by left|right].
  apply authorize_call_inv in Ha as (_ & w2 & cid & ts & rt' & _ & Hw & Ha).
  apply authorized_server_call in Ha as [Hc He]; [|done..]. exists cid. simpl.
  split; [done|]. destruct He as [?|(? & [?|(e & now & ? & _ & Hn & ?)])]; [by left|right; auto|].
  right. split; [done|]. right. exists e, now. split_and!; [done| |done]. by eapply read_after_le.
Qed.

(** C1: a tool call has an effect, or a result, only if it passed governance:
    otherwise its handler did not run (what the tools act on is unchanged) and
    the caller gets an error. *)
Theorem tool_effects_are_mediated args tool conn cls (h : Handler) w ss x w' ss' x' r :
  authorize_and_execute_audited args tool conn cls h (w, (ss, x)) = ((w', (ss', x')), r) ->
  queue_ok (w, ss_runtime ss) ->
  (x' = x /\ is_ok r = false) \/ passed_governance ss args tool conn cls w.
Proof. apply executed_passed. Qed.

(** The connection is read-only in the stored profiles, or they cannot be read,
    or it is not in them and the profile loaded at startup is read-only. *)
Definition protected_connection ss (conn_id : string) w : Prop :=
  exists u, uuid_parse conn_id = Ok u /\
    ((exists flags, ss_stored_flags ss = Some flags /\
        (flags !! uuid_to_string u = Some true \/ is_Some (db_fault w (db_calls w)) \/
         is_Some (db_fault w (S (db_calls w))))) \/
     (forall flags, ss_stored_flags ss = Some flags -> flags !! uuid_to_string u = None) /\
     exists p, find_by_id ss u = Some p /\ cp_read_only_flag p = true).

Lemma protected_read_only ss conn_id w :
  protected_connection ss conn_id w -> read_only_flag ss (Some conn_id) w = true.
Proof.
  intros (u & Hu & Hc). unfold read_only_flag, is_read_only_connection.
  rewrite Hu. unfold stored_read_only_flag. sm_unfold. unfold db_call.
  destruct Hc as [(flags & -> & Hp)|(Hf & p & Hp & Hro)].
  - destruct (db_fault w (db_calls w)) eqn:H1'; simpl; [done|].
    destruct (db_fault w (S (db_calls w))) eqn:H2'; simpl; [done|].
    destruct Hp as [->|[[? ?]|[? ?]]]; done.
  - destruct (ss_stored_flags ss) as [flags|]; [|by rewrite Hp].
    destruct (db_fault w (db_calls w)); simpl; [done|].
    destruct (db_fault w (S (db_calls w))); simpl; [done|]. by rewrite Hf, Hp.
Qed.

(** C11: a mutating call on a connection that is read-only in the stored profiles,
    or whose stored profile cannot be read, or that only the profiles loaded at
    startup know as read-only, never runs, whatever the policies and approvals
    say. *)
Theorem read_only_connections_are_protected args tool conn_id cls (h : Handler)
    w ss x w' ss' x' r :
  authorize_and_execute_audited args tool (Some conn_id) cls h (w, (ss, x)) =
    ((w', (ss', x')), r) ->
  queue_ok (w, ss_runtime ss) -> protected_connection ss conn_id w -> ~ class_le cls Read ->
  x' = x /\ is_ok r = false.
Proof.
  intros Hr Hq Hp Hm.
  destruct (executed_passed _ _ _ _ _ _ _ _ _ _ _ _ Hr Hq)
    as [?|(cid & (_ & _ & Hro & _) & _)]; [done|].
  apply protected_read_only in Hp. unfold server_request, call_request in Hro. simpl in Hro.
  by destruct Hm; apply Hro.
Qed.

(** ** Auditing *)

Definition server_rows ss : list (Z * AppendAuditEventExtended) :=
  rows (rt_audit_service (ss_runtime ss)).

Lemma authorize_call_audited args tool conn cls w ss x w1 ss1 x1 o :
  authorize_call args tool conn cls (w, (ss, x)) = ((w1, (ss1, x1)), Ok o) ->
  enabled (rt_audit_service (ss_runtime ss)) = true ->
  exists n row cid ts, server_rows ss1 = server_rows ss ++ [(n, row)] /\
    authorization_row (server_request ss tool conn cls w cid) ts o row /\
    correlation_id o = Some cid /\ actor_id o = ss_client_id ss /\
    enabled (rt_audit_service (ss_runtime ss1)) = true.
Proof.
  intros Ha Hen. apply authorize_call_inv in Ha as (_ & w2 & cid & ts & rt' & -> & _ & Ha).
  apply sm_zoom_inv in Ha as ([w3 [a3 rt3]] & Ha & Hs). simpl in Ha. simplify_eq/=.
  apply authorize_answer in Ha as Hans. apply authorization_audited in Ha.
  rewrite Hen in Ha. destruct Ha as (n & row & Hrows & Hrow). destruct Hans as (Hc & Hact & Hen').
  exists n, row, cid, ts. split_and!; [done..|congruence].
Qed.

(** The execution row of a call. *)
Definition execution_row (tool_id conn_id : string) (outcome : EventOutcome.t)
    (actor cid : string) (row : AppendAuditEventExtended) : Prop :=
  aa_action row = Some (execution_action tool_id outcome) /\
  aa_outcome row = Some (EventOutcome.as_str outcome) /\ aa_actor_id row = actor /\
  aa_object_id row = Some tool_id /\ aa_connection_id row = Some conn_id /\
  aa_correlation_id row = Some cid.

Definition result_outcome (r : result CallToolResult McpError) : EventOutcome.t :=
  match r with
  | Ok res => if bool_decide (tr_is_error res = Some true) then EventOutcome.Failure
              else EventOutcome.Success
  | Err _ => EventOutcome.Failure
  end.

Lemma execution_event_fields ts tool conn r actor cid details :
  let e := execution_event ts tool conn r actor cid details in
  ev_action e = execution_action tool (result_outcome r) /\ ev_outcome e = result_outcome r /\
  ev_actor_id e = Some actor /\ ev_object_id e = Some tool /\ ev_connection_id e = Some conn /\
  ev_correlation_id e = Some cid.
Proof.
  unfold execution_event, result_outcome. destruct r as [res|e]; [|done].
  case_bool_decide; done.
Qed.

Lemma audit_execution_audited tool conn r o details cid w ss x w' ss' x' :
  audit_execution_with_details tool conn r o details (w, (ss, x)) = ((w', (ss', x')), Ok tt) ->
  correlation_id o = Some cid -> enabled (rt_audit_service (ss_runtime ss)) = true ->
  exists n row, server_rows ss' = server_rows ss ++ [(n, row)] /\
    execution_row tool (default EmptyString conn) (result_outcome r) (actor_id o) cid row.
Proof.
  intros Hr Hcid Hen. unfold audit_execution_with_details in Hr.
  sm_inv Hr as ts s1 Hts err ?; [|done]. apply mw_world_inv in Hts as (w1 & _ & ->).
  rewrite Hcid in Hr. sm_inv Hr as c s2 Hc err ?; [|done]. revert Hc. intros [= <- <-].
  unfold record_execution in Hr. sm_inv Hr as e s3 He err ?; [|done].
  apply sm_map_err_inv in He as (r0 & He & Hr0). destruct r0 as [stored|]; [|done].
  apply on_runtime_inv in He as (w2 & rt2 & He & ->).
  apply sm_zoom_inv in He as ([w3 a3] & He & Hs). simplify_eq/=. revert Hr. intros [= <- <- <-].
  apply record_cases in He. rewrite Hen in He.
  pose proof (execution_event_fields ts tool (default EmptyString conn) r (actor_id o) cid details)
    as (Ha & Ho & Hact & Hobj & Hcon & Hco).
  apply (stored_as_bare _ _ _ _ (actor_id o)) in He as (n & e2 & Hrows & Hbare & _); [|exact Hact].
  exists n, (extended_event e2). split; [exact Hrows|].
  apply extended_bare in Hbare as (E1 & _ & E3 & E4 & E5 & E6 & _ & E8).
  unfold execution_row. rewrite E1, E3, E4, E5, E6, E8, Ha, Ho, Hact, Hobj, Hcon, Hco. done.
Qed.

(** C15: a call that returned a result left exactly two audit rows (with auditing
    enabled and a handler that does not write to the audit log itself): the
    authorization, successful, and the execution with its outcome; both carry the
    same correlation id, the client, the tool and the connection. *)
Theorem executed_call_leaves_two_linked_rows args tool conn cls (h : Handler)
    w ss x w' ss' x' res :
  authorize_and_execute_audited args tool conn cls h (w, (ss, x)) = ((w', (ss', x')), Ok res) ->
  enabled (rt_audit_service (ss_runtime ss)) = true ->
  (forall s s2 hr, h s = (s2, hr) ->
     rt_audit_service (ss_runtime s2.2.1) = rt_audit_service (ss_runtime s.2.1)) ->
  exists n1 row1 n2 row2 cid ts o,
    server_rows ss' = server_rows ss ++ [(n1, row1); (n2, row2)] /\
    allowed o = true /\ correlation_id o = Some cid /\
    authorization_row (server_request ss tool conn cls w cid) ts o row1 /\
    execution_row tool (default EmptyString conn) (result_outcome (Ok res)) (ss_client_id ss) cid row2.
Proof.
  intros Hr Hen Hh.
  apply execute_inv in Hr as [[_ ?]|(o & w1 & ss1 & s2 & hr & r & d & Ha & Hal & Hrun & Hd & Hr)];
    [done|].
  apply authorize_call_audited in Ha as (n1 & row1 & cid & ts & Hrows & Hrow & Hcid & Hact & Hen1);
    [|done].
  apply Hh in Hrun as Haud. simpl in Haud. destruct s2 as [w2 [ss2 x2]]. simpl in Haud.
  sm_inv Hr as u s3 Hex err ?; [|done]. destruct u. revert Hr. intros [= -> Hres].
  apply (audit_execution_audited _ _ _ _ _ cid) in Hex as (n2 & row2 & Hrows2 & Hrow2);
    [|done|by rewrite Haud].
  exists n1, row1, n2, row2, cid, ts, o. rewrite Hact in Hrow2.
  destruct r as [res'|]; [|done]. injection Hres as <-. split_and!; [|done..].
  rewrite Hrows2. unfold server_rows in *. rewrite Haud, Hrows. by rewrite <- (assoc_L (++)).
Qed.

End Props.

(** ** On concrete calls *)

Module ServerExample.

Definition rt0 : McpRuntime InMemoryPendingExecutionStore :=
  foldl (fun rt op => config_step op rt)
    (mkRuntime ∅ ∅ ∅ ∅ (service_new []) empty_audit [] true) ConfigExample.ops.

(** One connection, which the stored profiles say is read-only. *)
Definition server (read_only : bool) : ServerState InMemoryPendingExecutionStore :=
  mkServerState "agent" rt0 [mkProfile _ "db" (Some true) false] false (Some {["db" := read_only]}).

(** A tool that counts how often it ran. *)
Definition counting : Handler (St := InMemoryPendingExecutionStore) (X := nat) :=
  fun s => ((s.1, (s.2.1, S s.2.2)), Ok (mkToolResult [CbText "done"] None, mkAuditDetails None)).

Lemma rt0_queue_ok : queue_ok (plain_world, rt0).
Proof. split; [done|]. apply NoDup_nil_2. Qed.

End ServerExample.

Lemma tool_effects_are_mediated_witness :
  exists x' (r : result CallToolResult ToolFailure),
    (x' = 0%nat /\ is_ok r = false) \/
    passed_governance (ServerExample.server false) None "select_data" (Some "db") Read plain_world.
Proof.
  destruct (authorize_and_execute_audited None "select_data" (Some "db") Read
    ServerExample.counting (plain_world, (ServerExample.server false, 0%nat)))
    as [[w' [ss' x']] r] eqn:Hr.
  exists x', r.
  exact (tool_effects_are_mediated None "select_data" (Some "db") Read ServerExample.counting
    plain_world (ServerExample.server false) 0%nat w' ss' x' r Hr ServerExample.rt0_queue_ok).
Defined.

Lemma read_only_connections_are_protected_witness :
  exists x' (r : result CallToolResult ToolFailure), x' = 0%nat /\ is_ok r = false.
Proof.
  destruct (authorize_and_execute_audited None "update_records" (Some "db") Write
    ServerExample.counting (plain_world, (ServerExample.server true, 0%nat)))
    as [[w' [ss' x']] r] eqn:Hr.
  exists x', r.
  apply (read_only_connections_are_protected None "update_records" "db" Write
    ServerExample.counting plain_world (ServerExample.server true) 0%nat w' ss' x' r Hr
    ServerExample.rt0_queue_ok).
  - exists "db". split; [reflexivity|]. left. exists {["db" := true]}. split; [reflexivity|].
    left. reflexivity.
  - unfold class_le. simpl. lia.
Defined.

Lemma executed_call_leaves_two_linked_rows_witness :
  exists (ss' : ServerState InMemoryPendingExecutionStore) res n1 row1 n2 row2 cid ts o,
    server_rows ss' = server_rows (ServerExample.server false) ++ [(n1, row1); (n2, row2)] /\
    allowed o = true /\ correlation_id o = Some cid /\
    authorization_row (server_request (ServerExample.server false) "select_data" (Some "db") Read
      plain_world cid) ts o row1 /\
    execution_row "select_data" (default EmptyString (Some "db")) (result_outcome (Ok res))
      (ss_client_id (ServerExample.server false)) cid row2.
Proof.
  destruct (authorize_and_execute_audited None "select_data" (Some "db") Read
    ServerExample.counting (plain_world, (ServerExample.server false, 0%nat)))
    as [[w' [ss' x']] r] eqn:Hr.
  assert (is_ok (authorize_and_execute_audited None "select_data" (Some "db") Read
    ServerExample.counting (plain_world, (ServerExample.server false, 0%nat))).2 = true) as Hok
    by (vm_compute; reflexivity).
  rewrite Hr in Hok. cbn [snd] in Hok. destruct r as [res|]; [|discriminate Hok].
  exists ss', res.
  apply (executed_call_leaves_two_linked_rows None "select_data" (Some "db") Read
    ServerExample.counting plain_world (ServerExample.server false) 0%nat w' ss' x' res Hr).
  - reflexivity.
  - intros s s2 hr Hh. injection Hh as <- _. reflexivity.
Defined.
