(* ===== verification/DependencyOrder.v ===== *)
(** * Load order of tables (crates/dbflux_core: schema/dependency_order.rs)

    Parents of a foreign key are loaded before the tables that reference them:
    Kahn's algorithm over the tables' indices, and, when a cycle is left, Tarjan's
    algorithm over the rest.

    An index out of range or a missing key stops the thread; such a call is
    [None], and so is a loop that outruns its rounds. *)

From S2P Require Import Prelude RustStr.

Module DependencyOrder.

Record TableRef := mkTable { schema : option string; name : string }.

Record SchemaForeignKeyInfo := mkFk {
  fk_name : string;
  table_name : string;
  columns : list string;
  referenced_schema : option string;
  referenced_table : string;
  referenced_columns : list string;
  on_delete : option string;
  on_update : option string;
}.

Inductive OrderResult : Type :=
| Ordered (order : list TableRef)
| Cyclic (ordered_prefix cycle : list TableRef).

(** ** Tarjan's algorithm *)

Section Tarjan.
Context (children : list (list nat)) (allowed : gset nat).

Record State := mkState {
  index_counter : nat;
  stack : list nat;
  on_stack : gset nat;
  indices : gmap nat nat;
  lowlink : gmap nat nat;
  sccs : list (list nat);
}.

(** [lowlink.insert(v, min(lowlink[v], x))]. *)
Definition lower (st : State) (v x : nat) : option State :=
  low_v ← lowlink st !! v;
  Some (mkState (index_counter st) (stack st) (on_stack st) (indices st)
          (<[v := Nat.min low_v x]> (lowlink st)) (sccs st)).

(** Entering a node. *)
Definition enter (st : State) (v : nat) : State :=
  mkState (S (index_counter st)) (v :: stack st) ({[v]} ∪ on_stack st)
    (<[v := index_counter st]> (indices st)) (<[v := index_counter st]> (lowlink st)) (sccs st).

(** Pop the stack down to [v]: the component and the rest. *)
Fixpoint pop_to (v : nat) (l : list nat) : list nat * list nat :=
  match l with
  | [] => ([], [])
  | w :: l' => if Nat.eqb w v then ([w], l') else let '(c, r) := pop_to v l' in (w :: c, r)
  end.

(** Leaving a node: close its component when it is the root of one. *)
Definition leave (st : State) (v : nat) : option State :=
  low_v ← lowlink st !! v;
  idx_v ← indices st !! v;
  if Nat.eqb low_v idx_v then
    let '(component, rest) := pop_to v (stack st) in
    Some (mkState (index_counter st) rest (on_stack st ∖ list_to_set component) (indices st)
            (lowlink st) (sccs st ++ [component]))
  else Some st.

(** One edge of the loop of [strongconnect], given the recursive call. *)
Definition follow (rec : State -> nat -> option State) (v : nat) (st : option State) (w : nat)
  : option State :=
  st ← st;
  if negb (bool_decide (w ∈ allowed)) then Some st
  else match indices st !! w with
       | None => st' ← rec st w; low_w ← lowlink st' !! w; lower st' v low_w
       | Some idx_w => if bool_decide (w ∈ on_stack st) then lower st v idx_w else Some st
       end.

Fixpoint strongconnect (fuel : nat) (st : State) (v : nat) : option State :=
  match fuel with
  | O => None
  | S fuel' =>
      cs ← children !! v;
      st' ← foldl (follow (strongconnect fuel') v) (Some (enter st v)) cs;
      leave st' v
  end.

(** One round of the outer loop. *)
Definition search (fuel : nat) (st : option State) (v : nat) : option State :=
  st ← st;
  match indices st !! v with
  | Some _ => Some st
  | None => strongconnect fuel st v
  end.

End Tarjan.

(** The search is never deeper than the number of nodes. *)
Definition tarjan_scc (nodes : list nat) (children : list (list nat)) : option (list (list nat)) :=
  st ← foldl (search children (list_to_set nodes) (length nodes))
         (Some (mkState 0 [] ∅ ∅ ∅ [])) nodes;
  Some (sccs st).

(** ** Kahn's algorithm *)

Section Kahn.
Context (tables : list TableRef) (fks : list SchemaForeignKeyInfo).

(** [name_to_indices]. *)
Definition indices_of (n : string) : list nat :=
  List.filter (fun i => bool_decide (name <$> tables !! i = Some n)) (seq 0 (length tables)).

(** The pairs of parent and child the loops pass, but for self references. *)
Definition fk_edges (fk : SchemaForeignKeyInfo) : list (nat * nat) :=
  List.filter (fun e => negb (Nat.eqb e.2 e.1))
    (concat (map (fun child => map (fun parent => (parent, child)) (indices_of (referenced_table fk)))
               (indices_of (table_name fk)))).

Record Graph := mkGraph {
  children : list (list nat);
  in_degree : list nat;
  seen_edges : gset (nat * nat);
}.

Definition add_edge (g : Graph) (e : nat * nat) : Graph :=
  if bool_decide (e ∈ seen_edges g) then g
  else mkGraph (alter (fun l => l ++ [e.2]) e.1 (children g)) (alter S e.2 (in_degree g))
         ({[e]} ∪ seen_edges g).

Definition graph : Graph :=
  foldl add_edge (mkGraph (replicate (length tables) []) (replicate (length tables) 0%nat) ∅)
    (concat (map fk_edges fks)).

(** The keys compare as bytes, the schema first. *)
Definition sort_key (i : nat) : string * string :=
  match tables !! i with
  | Some t => (default EmptyString (schema t), name t)
  | None => (EmptyString, EmptyString)
  end.
Definition key_leb (a b : string * string) : bool :=
  if String.eqb a.1 b.1 then String.leb a.2 b.2 else String.leb a.1 b.1.
Definition sort_indices : list nat -> list nat :=
  sort_with (fun i j => key_leb (sort_key i) (sort_key j)).

(** One edge out of a node just ordered: the degrees and the nodes newly ready. *)
Definition release (acc : list nat * list nat) (child : nat) : list nat * list nat :=
  let '(degree, newly_ready) := acc in
  let degree' := alter pred child degree in
  (degree', if bool_decide (degree' !! child = Some 0%nat) then newly_ready ++ [child]
            else newly_ready).

Fixpoint drain (fuel : nat) (degree queue ordered : list nat) : option (list nat) :=
  match queue with
  | [] => Some ordered
  | node :: rest =>
      match fuel with
      | O => None
      | S fuel' =>
          cs ← children graph !! node;
          let '(degree', newly_ready) := foldl release (degree, []) cs in
          drain fuel' degree' (rest ++ sort_indices newly_ready) (ordered ++ [node])
      end
  end.

(** A node enters the queue once, so one round per table is enough. *)
Definition ordered_indices : option (list nat) :=
  let ready := List.filter (fun i => bool_decide (in_degree graph !! i = Some 0%nat))
                 (seq 0 (length tables)) in
  drain (length tables) (in_degree graph) (sort_indices ready) [].

Definition topological_order : option OrderResult :=
  ordered ← ordered_indices;
  ordered_tables ← mapM (tables !!.) ordered;
  if Nat.eqb (length ordered) (length tables) then Some (Ordered ordered_tables)
  else
    let remaining := List.filter (fun i => negb (bool_decide (i ∈ ordered)))
                       (seq 0 (length tables)) in
    components ← tarjan_scc remaining (children graph);
    cycle ← mapM (tables !!.) (sort_indices (concat components));
    Some (Cyclic ordered_tables cycle).

End Kahn.
End DependencyOrder.
