(* ===== verification/DependencyOrderProps.v ===== *)
(** * Properties of the load order

    First Tarjan's algorithm: the search returns, and the components it finds list
    every node exactly once.  Then the order: it lists every table, parents first
    as far as the references allow. *)

From S2P Require Import Prelude RustStr DependencyOrder.

Import DependencyOrder.

Section Tarjan.
Context (children : list (list nat)) (allowed : gset nat).
Hypothesis children_of_allowed : forall x, x ∈ allowed -> is_Some (children !! x).

(** What holds during a search that began at index [k]: the nodes met are on the
    stack or in a component, once, and no lowlink of the search is below [k]. *)
Record tinv (k : nat) (st : State) : Prop := {
  t_nodup : NoDup (stack st ++ concat (sccs st));
  t_met x : is_Some (indices st !! x) <-> x ∈ stack st ++ concat (sccs st);
  t_on x : x ∈ on_stack st <-> x ∈ stack st;
  t_allowed x : is_Some (indices st !! x) -> x ∈ allowed;
  t_low x i : indices st !! x = Some i ->
    (i < index_counter st)%nat /\
    exists l, lowlink st !! x = Some l /\ (l <= i)%nat /\ ((k <= i)%nat -> (k <= l)%nat);
  t_stack x i : x ∈ stack st -> indices st !! x = Some i -> (k <= i)%nat;
  t_start : (k <= index_counter st)%nat;
}.

(** Nodes still to be met. *)
Definition unmet (st : State) : nat := size (allowed ∖ dom (indices st)).

Lemma enter_inv k st v :
  tinv k st -> v ∈ allowed -> indices st !! v = None -> tinv k (enter st v).
Proof.
  intros [Hnd Hm Ho Ha Hl Hs Hk] Hv Hn.
  assert (v ∉ stack st ++ concat (sccs st)) as Hno by (rewrite <- Hm, Hn; by intros []).
  split; simpl.
  - by constructor.
  - intros x. rewrite elem_of_cons, <- Hm, lookup_insert_is_Some. destruct (decide (v = x)); naive_solver.
  - intros x. rewrite elem_of_union, elem_of_singleton, Ho, elem_of_cons. done.
  - intros x. rewrite lookup_insert_is_Some. intros [<-|[_ ?]]; auto.
  - intros x i. rewrite !lookup_insert. case_decide as Hx; [intros [= <-]; eauto with lia|].
    intros Hi. destruct (Hl x i Hi) as [? ?]. split; [lia|done].
  - intros x i Hx. rewrite lookup_insert. case_decide; [intros [= <-]; lia|].
    apply elem_of_cons in Hx as [->|Hx]; [done|]. by apply Hs.
  - lia.
Qed.

Lemma enter_unmet k st v :
  tinv k st -> v ∈ allowed -> indices st !! v = None -> (unmet (enter st v) < unmet st)%nat.
Proof.
  intros _ Hv Hn. unfold unmet. simpl. apply subset_size. rewrite dom_insert_L.
  apply not_elem_of_dom in Hn. set_solver.
Qed.

Lemma lower_inv k st v x :
  tinv k st -> is_Some (indices st !! v) -> (k <= x)%nat ->
  exists st', lower st v x = Some st' /\ tinv k st' /\ stack st' = stack st /\ indices st' = indices st.
Proof.
  intros [Hnd Hm Ho Ha Hl Hs Hk] [i Hi] Hx. unfold lower.
  destruct (Hl v i Hi) as (Hlt & l & Hlow & Hle & Hkl). rewrite Hlow. simpl.
  eexists. split_and!; [done| |done..]. split; simpl; try done.
  intros y j Hj. rewrite lookup_insert. case_decide as Hy; [|by apply Hl].
  subst y. assert (j = i) as -> by congruence. split; [done|].
  exists (Nat.min l x). split_and!; [done|lia|]. intros. specialize (Hkl ltac:(done)). lia.
Qed.

Lemma pop_to_split v ext rest :
  v ∉ ext -> pop_to v (ext ++ v :: rest) = (ext ++ [v], rest).
Proof.
  induction ext as [|w ext IH]; simpl; intros Hno; [by rewrite Nat.eqb_refl|].
  apply not_elem_of_cons in Hno as [Hne Hno].
  destruct (Nat.eqb_spec w v); [done|]. by rewrite IH.
Qed.

Lemma leave_inv k st v ext rest :
  tinv k st -> stack st = ext ++ v :: rest ->
  exists st' idx low, leave st v = Some st' /\ tinv k st' /\ indices st' = indices st /\
    indices st !! v = Some idx /\ lowlink st !! v = Some low /\
    (stack st' = rest \/ stack st' = stack st /\ low <> idx).
Proof.
  intros [Hnd Hm Ho Ha Hl Hs Hk] Hst.
  assert (is_Some (indices st !! v)) as [i Hi].
  { apply Hm, elem_of_app. left. rewrite Hst. apply elem_of_app. right. left. }
  destruct (Hl v i Hi) as (_ & l & Hlow & _). unfold leave. rewrite Hlow, Hi. simpl.
  destruct (Nat.eqb_spec l i) as [Heq|Hne]; [|exists st, i, l; split_and!; try done; auto].
  assert (v ∉ ext) as Hv.
  { rewrite Hst, <- app_assoc in Hnd. apply NoDup_app in Hnd as (_ & Hd & _).
    intros Hin%Hd. apply Hin. left. }
  rewrite Hst, pop_to_split by done. eexists _, i, l. split_and!; [done| |done..|by left].
  assert (stack st ++ concat (sccs st) ≡ₚ rest ++ concat (sccs st ++ [ext ++ [v]])) as Hp.
  { rewrite Hst, concat_app. simpl. rewrite app_nil_r. solve_Permutation. }
  split; simpl; try done.
  - by rewrite <- Hp.
  - intros x. by rewrite Hm, Hp.
  - intros x. rewrite elem_of_difference, elem_of_list_to_set, Ho, Hst.
    assert (NoDup (ext ++ v :: rest)) as Hnd'.
    { rewrite Hst in Hnd. by apply NoDup_app in Hnd as [? _]. }
    replace (ext ++ v :: rest) with ((ext ++ [v]) ++ rest) in * by (by rewrite <- app_assoc).
    apply NoDup_app in Hnd' as (_ & Hd & _). rewrite (elem_of_app _ rest). naive_solver.
  - intros x j Hx. apply Hs. rewrite Hst. apply elem_of_app. right. by right.
Qed.

(** What a call for [v] does to the state: more nodes are met, [v] with the
    current index among them, and either the stack is as before, or [v] and what
    came after it are left on it because [v] reaches a node below. *)
Definition connected (k : nat) (st st' : State) (v : nat) : Prop :=
  tinv k st' /\ indices st ⊆ indices st' /\ indices st' !! v = Some (index_counter st) /\
  (stack st' = stack st \/
   exists ext low, stack st' = ext ++ v :: stack st /\ lowlink st' !! v = Some low /\
     low <> index_counter st).

(** The loop over the children of [v]. *)
Definition exploring (k : nat) (st st' : State) (v : nat) : Prop :=
  tinv k st' /\ indices (enter st v) ⊆ indices st' /\ exists ext, stack st' = ext ++ v :: stack st.

Lemma exploring_lower k st st' v x :
  exploring k st st' v -> (k <= x)%nat ->
  exists st'', lower st' v x = Some st'' /\ exploring k st st'' v.
Proof.
  intros (Hi & Hsub & ext & Hst) Hx.
  assert (is_Some (indices st' !! v)) as Hv.
  { exists (index_counter st). eapply lookup_weaken; [|exact Hsub]. apply lookup_insert_eq. }
  destruct (lower_inv k st' v x Hi Hv Hx) as (st'' & Hl & Hi' & Hs & Hd).
  exists st''. split; [done|]. rewrite <- Hd in Hsub. split_and!; [done..|]. exists ext. by rewrite Hs.
Qed.

Lemma follow_explores k fuel st st' v w :
  (forall st w, tinv k st -> w ∈ allowed -> indices st !! w = None -> (unmet st <= fuel)%nat ->
     exists st', strongconnect children allowed fuel st w = Some st' /\ connected k st st' w) ->
  exploring k st st' v -> (unmet st' <= fuel)%nat ->
  exists st'', follow allowed (strongconnect children allowed fuel) v (Some st') w = Some st'' /\
    exploring k st st'' v /\ (unmet st'' <= unmet st')%nat.
Proof.
  intros IH He Hf. unfold follow. simpl. case_bool_decide as Hw; simpl; [|by exists st'].
  assert (forall a b, indices a ⊆ indices b -> (unmet b <= unmet a)%nat) as Hmono.
  { intros a b Hab. unfold unmet. apply subseteq_size. apply subseteq_dom in Hab. set_solver. }
  pose proof He as (Hi & Hsub & ext & Hst). destruct (indices st' !! w) as [i|] eqn:Hix.
  - case_bool_decide as Hon; [|by exists st'].
    destruct (exploring_lower k st st' v i He) as (st'' & Hl & He').
    { eapply (t_stack k st' Hi w); [|done]. by apply (t_on k st' Hi). }
    exists st''. split_and!; [done..|]. apply Hmono. unfold lower in Hl.
    apply bind_Some in Hl as (? & _ & [= <-]). done.
  - destruct (IH st' w Hi Hw Hix Hf) as (st1 & Hr & Hi1 & Hsub1 & Hw1 & Hstk).
    rewrite Hr. simpl. destruct (t_low k st1 Hi1 w _ Hw1) as (_ & l & Hlow & _ & Hkl).
    rewrite Hlow. simpl.
    assert (exploring k st st1 v) as He1.
    { split_and!; [done|by trans (indices st')|].
      destruct Hstk as [Hstk|(e & ? & Hstk & _)]; rewrite Hstk, Hst; [by exists ext|].
      exists (e ++ w :: ext). by rewrite <- app_assoc. }
    destruct (exploring_lower k st st1 v l He1) as (st'' & Hl & He').
    { apply Hkl, (t_start k st' Hi). }
    exists st''. split_and!; [done..|]. unfold lower in Hl. apply bind_Some in Hl as (? & _ & [= <-]).
    by apply Hmono.
Qed.

Lemma strongconnect_returns k : forall fuel st v,
  tinv k st -> v ∈ allowed -> indices st !! v = None -> (unmet st <= fuel)%nat ->
  exists st', strongconnect children allowed fuel st v = Some st' /\ connected k st st' v.
Proof.
  induction fuel as [|fuel IH]; intros st v Hi Hv Hn Hf.
  { exfalso. pose proof (enter_unmet k st v Hi Hv Hn). lia. }
  simpl. destruct (children_of_allowed v Hv) as [cs ->]. simpl.
  pose proof (enter_unmet k st v Hi Hv Hn) as Hlt.
  assert (forall cs st', exploring k st st' v -> (unmet st' <= fuel)%nat ->
    exists st'', foldl (follow allowed (strongconnect children allowed fuel) v) (Some st') cs = Some st'' /\
      exploring k st st'' v) as Hloop.
  { clear cs. induction cs as [|w cs IHc]; intros st' He Hf'; simpl; [by exists st'|].
    destruct (follow_explores k fuel st st' v w IH He Hf') as (st1 & Hs1 & He1 & Hle).
    unfold follow in Hs1 at 1. simpl in Hs1. rewrite Hs1. apply IHc; [done|lia]. }
  destruct (Hloop cs (enter st v)) as (st' & -> & Hi' & Hsub & ext & Hst); [|lia|].
  { split_and!; [by apply enter_inv|done|by exists []]. }
  simpl. destruct (leave_inv k st' v ext (stack st) Hi' Hst)
    as (st'' & idx & low & Hlv & Hi'' & Hd & Hidx & Hlow & Hor).
  assert (idx = index_counter st) as ->.
  { pose proof (lookup_weaken _ _ v (index_counter st) (lookup_insert_eq _ _ _) Hsub). congruence. }
  exists st''. split; [done|]. unfold connected. rewrite Hd. split_and!; [done| |done|].
  - trans (indices (enter st v)); [|done]. by apply insert_subseteq.
  - destruct Hor as [Hrest|[Hsame Hne]]; [by left|right]. exists ext, low.
    rewrite Hsame. split_and!; [done| |done].
    unfold leave in Hlv. rewrite Hlow, Hidx in Hlv. simpl in Hlv.
    rewrite (proj2 (Nat.eqb_neq _ _) Hne) in Hlv. injection Hlv as <-. done.
Qed.

End Tarjan.

(** ** The outer loop *)

(** Between two searches the stack is empty. *)
Record searched (allowed : gset nat) (st : State) : Prop := {
  s_inv : tinv allowed (index_counter st) st;
  s_stack : stack st = [];
}.

Lemma search_returns children allowed st v :
  (forall x, x ∈ allowed -> is_Some (children !! x)) -> searched allowed st -> v ∈ allowed ->
  exists st', search children allowed (size allowed) (Some st) v = Some st' /\ searched allowed st' /\
    indices st ⊆ indices st' /\ is_Some (indices st' !! v).
Proof.
  intros Hc [Hi Hs] Hv. unfold search. simpl.
  destruct (indices st !! v) as [i|] eqn:Hn; [by exists st; eauto|].
  destruct (strongconnect_returns children allowed Hc (index_counter st) (size allowed) st v Hi Hv Hn)
    as (st' & Hr & Hi' & Hsub & Hix & Hst).
  { unfold unmet. apply subseteq_size. set_solver. }
  exists st'. split_and!; [done| |done|by eexists].
  assert (stack st' = []) as Hemp.
  { destruct Hst as [->|(ext & low & _ & Hlow & Hne)]; [done|].
    destruct (t_low _ _ _ Hi' v _ Hix) as (_ & l & Hl & Hle & Hkl).
    assert (l = low) as -> by congruence. specialize (Hkl (le_n _)). lia. }
  split; [|done]. destruct Hi' as [Hnd Hm Ho Ha Hl _ _]. split; try done.
  - intros x j Hx. destruct (Hl x j Hx) as (Hlt & l & ? & ? & _). split; [done|].
    exists l. split_and!; [done..|]. lia.
  - rewrite Hemp. by intros x j ?%elem_of_nil.
Qed.

Lemma search_all children allowed l : forall st,
  (forall x, x ∈ allowed -> is_Some (children !! x)) -> searched allowed st ->
  (forall x, x ∈ l -> x ∈ allowed) ->
  exists st', foldl (search children allowed (size allowed)) (Some st) l = Some st' /\
    searched allowed st' /\ indices st ⊆ indices st' /\ forall x, x ∈ l -> is_Some (indices st' !! x).
Proof.
  induction l as [|v l IH]; intros st Hc Hs Hl; cbn [foldl].
  { exists st. split_and!; [done..|]. by intros x ?%elem_of_nil. }
  destruct (search_returns children allowed st v Hc Hs) as (st1 & -> & Hs1 & Hsub1 & Hv); [apply Hl; left|].
  destruct (IH st1 Hc Hs1) as (st2 & -> & Hs2 & Hsub2 & Hd); [intros x Hx; apply Hl; by right|].
  exists st2. split_and!; [done..|by trans (indices st1)|].
  intros x [->|Hx]%elem_of_cons; [|by apply Hd]. destruct Hv as [i Hi]. exists i. by eapply lookup_weaken.
Qed.

Lemma searched_start allowed : searched allowed (mkState 0 [] ∅ ∅ ∅ []).
Proof.
  split; [|done]. split; simpl; try done; try lia.
  - constructor.
  - intros x. rewrite lookup_empty. split; [by intros [? [=]]|by intros ?%elem_of_nil].
  - intros x. by rewrite elem_of_empty, elem_of_nil.
  - intros x. rewrite lookup_empty. by intros [? [=]].
Qed.

Lemma tarjan_lists_all nodes children :
  NoDup nodes -> (forall x, x ∈ nodes -> is_Some (children !! x)) ->
  exists components, tarjan_scc nodes children = Some components /\ concat components ≡ₚ nodes.
Proof.
  intros Hnd Hc. unfold tarjan_scc. rewrite <- (size_list_to_set (C := gset nat) nodes Hnd).
  destruct (search_all children (list_to_set nodes) nodes (mkState 0 [] ∅ ∅ ∅ []))
    as (st & -> & [[Hn Hm _ Ha _ _ _] Hst] & _ & Hd).
  - intros x. rewrite elem_of_list_to_set. apply Hc.
  - apply searched_start.
  - intros x. by rewrite elem_of_list_to_set.
  - simpl. exists (sccs st). split; [done|]. rewrite Hst in Hn, Hm. simpl in *.
    apply NoDup_Permutation; [done..|]. intros x. rewrite <- Hm. split; [|apply Hd].
    intros Hx%Ha. by rewrite elem_of_list_to_set in Hx.
Qed.

(** ** The load order is topological

    Ordering the tables returns; parents come before children; every table is
    listed once; and a full order is found exactly when the references have no
    cycle. *)

Import DependencyOrder.

(** ** The graph *)

Definition edges_from (E : list (nat * nat)) (p : nat) : list nat :=
  map snd (List.filter (fun e => Nat.eqb e.1 p) E).
Definition parents_left (E : list (nat * nat)) (done : list nat) (c : nat) : nat :=
  length (List.filter (fun e => Nat.eqb e.2 c && negb (bool_decide (e.1 ∈ done))) E).

Record graph_of (n : nat) (E : list (nat * nat)) (g : Graph) : Prop := {
  g_nodup : NoDup E;
  g_bound e : e ∈ E -> (e.1 < n)%nat /\ (e.2 < n)%nat;
  g_seen e : e ∈ seen_edges g <-> e ∈ E;
  g_children p : (p < n)%nat -> children g !! p = Some (edges_from E p);
  g_degree c : (c < n)%nat -> in_degree g !! c = Some (parents_left E [] c);
}.

Lemma filter_snoc {A} (p : A -> bool) l x :
  List.filter p (l ++ [x]) = List.filter p l ++ (if p x then [x] else []).
Proof. rewrite List.filter_app. simpl. by destruct (p x). Qed.

Lemma graph_of_add n E g e :
  (e.1 < n)%nat -> (e.2 < n)%nat -> graph_of n E g ->
  exists E', graph_of n E' (add_edge g e) /\ forall x, x ∈ E' <-> x ∈ E \/ x = e.
Proof.
  intros H1 H2 [Hnd Hb Hs Hc Hd]. unfold add_edge. case_bool_decide as Hin.
  { exists E. split; [by split|]. apply Hs in Hin. naive_solver. }
  assert (e ∉ E) as Hne by (by rewrite <- Hs).
  exists (E ++ [e]). split; [|intros x; apply elem_of_snoc]. split; simpl.
  - apply NoDup_app. split_and!; [done| |apply NoDup_singleton].
    intros x Hx ->%list_elem_of_singleton. done.
  - intros x [Hx| ->]%elem_of_snoc; [by apply Hb|done].
  - intros x. rewrite elem_of_union, elem_of_singleton, Hs, elem_of_snoc. tauto.
  - intros p Hp. unfold edges_from. rewrite filter_snoc, map_app.
    destruct (Nat.eqb_spec e.1 p) as [<-|Hep].
    + rewrite list_lookup_alter_eq, Hc by done. done.
    + rewrite list_lookup_alter_ne, Hc by done. simpl. by rewrite app_nil_r.
  - intros c Hcn. unfold parents_left. rewrite filter_snoc, length_app.
    rewrite (bool_decide_false (e.1 ∈ [])) by apply not_elem_of_nil.
    fold (parents_left E [] c). destruct (Nat.eqb_spec e.2 c) as [<-|Hec]; cbn [andb negb length].
    + rewrite list_lookup_alter_eq, Hd, Nat.add_1_r by done. done.
    + rewrite list_lookup_alter_ne, Hd, Nat.add_0_r by done. done.
Qed.

Lemma graph_of_fold n l : forall E g,
  (forall e, e ∈ l -> (e.1 < n)%nat /\ (e.2 < n)%nat) -> graph_of n E g ->
  exists E', graph_of n E' (foldl add_edge g l) /\ forall x, x ∈ E' <-> x ∈ E \/ x ∈ l.
Proof.
  induction l as [|e l IH]; intros E g Hl Hg; simpl.
  { exists E. split; [done|]. set_solver. }
  destruct (graph_of_add n E g e) as (E1 & Hg1 & HE1); [apply Hl; left..|done|].
  destruct (IH E1 _ (fun x Hx => Hl x (list_elem_of_further _ _ _ Hx)) Hg1) as (E2 & Hg2 & HE2).
  exists E2. split; [done|]. intros x. rewrite HE2, HE1, elem_of_cons. tauto.
Qed.

(** The elements at all indices of a list, in order. *)
Lemma omap_lookup_seq {A} (l : list A) : omap (l !!.) (seq 0 (length l)) = l.
Proof.
  induction l as [|x l IH]; [done|]. simpl. rewrite <- fmap_S_seq. f_equal.
  etrans; [|exact IH]. generalize (seq 0 (length l)) as k.
  induction k as [|i k IHk]; [done|]. cbn. by destruct (l !! i); [f_equal|].
Qed.

(** ** Counting parents *)

Lemma parents_left_zero E done c :
  parents_left E done c = 0%nat <-> forall p, (p, c) ∈ E -> p ∈ done.
Proof.
  unfold parents_left. rewrite length_zero_iff_nil. split.
  - intros Hnil p Hp. destruct (decide (p ∈ done)) as [|Hno]; [done|]. exfalso.
    assert ((p, c) ∈ @nil (nat * nat)) as ?%elem_of_nil; [|done]. rewrite <- Hnil.
    apply filter_elem. split; [done|]. simpl. by rewrite Nat.eqb_refl, bool_decide_false.
  - intros Hall. destruct (List.filter _ E) as [|[p d] l] eqn:Hf; [done|].
    assert ((p, d) ∈ (p, d) :: l) as Hin by left. rewrite <- Hf in Hin.
    apply filter_elem in Hin as [HE [Hd%Nat.eqb_eq Hno]%andb_true_iff]. simpl in *. subst.
    by rewrite (bool_decide_true _ (Hall p HE)) in Hno.
Qed.

(** Ordering one more node takes one parent from each of its children. *)
Lemma parents_left_step E done node c :
  NoDup E -> node ∉ done ->
  parents_left E done c =
  (parents_left E (done ++ [node]) c + if bool_decide ((node, c) ∈ E) then 1 else 0)%nat.
Proof.
  intros Hnd Hno. unfold parents_left. induction Hnd as [|[p d] E Hin _ IH]; [done|]. simpl.
  assert (bool_decide ((node, c) ∈ (p, d) :: E) =
          bool_decide ((p, d) = (node, c)) || bool_decide ((node, c) ∈ E)) as ->.
  { rewrite <- bool_decide_or. apply bool_decide_ext. rewrite elem_of_cons. naive_solver. }
  assert (bool_decide (p ∈ done ++ [node]) = bool_decide (p ∈ done) || bool_decide (p = node)) as ->.
  { rewrite <- bool_decide_or. apply bool_decide_ext. apply elem_of_snoc. }
  destruct (Nat.eqb_spec d c) as [->|Hd]; simpl.
  - destruct (decide (p = node)) as [->|Hp].
    + rewrite !(bool_decide_true (_ = _)) by done. rewrite (bool_decide_false (node ∈ done)) by done.
      simpl. rewrite IH, (bool_decide_false _ Hin). lia.
    + rewrite !(bool_decide_false (_ = _)) by naive_solver. rewrite orb_false_r.
      destruct (bool_decide (p ∈ done)); simpl; lia.
  - rewrite (bool_decide_false (_ = _)) by naive_solver. exact IH.
Qed.

Lemma edges_from_elem E p c : c ∈ edges_from E p <-> (p, c) ∈ E.
Proof.
  unfold edges_from. rewrite list_elem_of_fmap. split.
  - intros ([q d] & -> & [HE Heq%Nat.eqb_eq]%filter_elem). simpl in *. by subst.
  - intros HE. exists (p, c). split; [done|]. apply filter_elem. simpl. by rewrite Nat.eqb_refl.
Qed.

Lemma edges_from_NoDup E p : NoDup E -> NoDup (edges_from E p).
Proof.
  intros Hnd. unfold edges_from. apply (NoDup_fmap_2_strong snd).
  - intros [a b] [a' b'] [_ Ha%Nat.eqb_eq]%filter_elem [_ Ha'%Nat.eqb_eq]%filter_elem ?. simpl in *.
    congruence.
  - eapply sublist_NoDup; [exact Hnd|apply filter_sublist].
Qed.

(** Releasing the children of a node. *)
Lemma release_all cs : forall degree acc,
  NoDup cs ->
  foldl release (degree, acc) cs =
  (foldl (fun d c => alter pred c d) degree cs,
   acc ++ List.filter (fun c => bool_decide (pred <$> degree !! c = Some 0%nat)) cs).
Proof.
  induction cs as [|c cs IH]; intros degree acc Hnd; simpl; [by rewrite app_nil_r|].
  apply NoDup_cons in Hnd as [Hc Hnd]. rewrite IH by done. f_equal.
  assert (List.filter (fun d => bool_decide (pred <$> alter pred c degree !! d = Some 0%nat)) cs =
          List.filter (fun d => bool_decide (pred <$> degree !! d = Some 0%nat)) cs) as ->.
  { apply filter_ext_in. intros d Hd%list_elem_of_In.
    rewrite list_lookup_alter_ne; [done|]. by intros ->. }
  rewrite list_lookup_alter_eq. by case_bool_decide; rewrite <- ?app_assoc.
Qed.

Lemma decrease_all cs c : forall degree : list nat,
  NoDup cs ->
  foldl (fun d c => alter pred c d) degree cs !! c =
  if bool_decide (c ∈ cs) then pred <$> degree !! c else degree !! c.
Proof.
  induction cs as [|d cs IH]; intros degree Hnd; simpl; [done|].
  apply NoDup_cons in Hnd as [Hd Hnd]. rewrite IH by done.
  destruct (decide (c = d)) as [->|Hne].
  - rewrite (bool_decide_false _ Hd), bool_decide_true by left. by rewrite list_lookup_alter_eq.
  - rewrite list_lookup_alter_ne by done.
    assert (bool_decide (c ∈ d :: cs) = bool_decide (c ∈ cs)) as ->; [|done].
    apply bool_decide_ext. rewrite elem_of_cons. naive_solver.
Qed.

Section Order.
Context (tables : list TableRef) (fks : list SchemaForeignKeyInfo).
#[local] Abbreviation n := (length tables).

(** Table [c] references table [p], another one. *)
Definition references (c p : nat) : Prop :=
  p <> c /\ exists fk tc tp, fk ∈ fks /\ tables !! c = Some tc /\ tables !! p = Some tp /\
    name tc = table_name fk /\ name tp = referenced_table fk.

Lemma indices_of_elem x i :
  i ∈ indices_of tables x <-> exists t, tables !! i = Some t /\ name t = x.
Proof.
  unfold indices_of. rewrite filter_elem, bool_decide_eq_true, fmap_Some, elem_of_seq. split.
  - intros [_ (t & ? & ?)]. eauto.
  - intros (t & Ht & <-). split; [|eauto]. apply lookup_lt_Some in Ht. lia.
Qed.

Lemma fk_edges_elem p c :
  (p, c) ∈ concat (map (fk_edges tables) fks) <-> references c p.
Proof.
  rewrite list_elem_of_In, in_concat. setoid_rewrite in_map_iff. split.
  - intros (l & (fk & <- & Hfk) & Hin). unfold fk_edges in Hin.
    apply List.filter_In in Hin as [Hin Hne%negb_true_iff%Nat.eqb_neq]. simpl in Hne.
    apply in_concat in Hin as (l & (child & <- & Hc)%in_map_iff & (parent & [= -> ->] & Hp)%in_map_iff).
    apply list_elem_of_In, indices_of_elem in Hc as (tc & ? & ?), Hp as (tp & ? & ?).
    split; [done|]. exists fk, tc, tp. by rewrite list_elem_of_In.
  - intros (Hne & fk & tc & tp & Hfk & Hc & Hp & Hnc & Hnp).
    exists (fk_edges tables fk). split; [exists fk; split; [done|by apply list_elem_of_In]|].
    unfold fk_edges. apply List.filter_In. split; [|simpl; by apply negb_true_iff, Nat.eqb_neq].
    apply in_concat. eexists. split.
    + apply in_map_iff. exists c. split; [done|]. apply list_elem_of_In, indices_of_elem. eauto.
    + apply in_map_iff. exists p. split; [done|]. apply list_elem_of_In, indices_of_elem. eauto.
Qed.

Lemma references_bound c p : references c p -> (c < n)%nat /\ (p < n)%nat.
Proof. intros (_ & fk & tc & tp & _ & Hc & Hp & _). split; by eapply lookup_lt_Some. Qed.

Lemma graph_edges :
  exists E, graph_of n E (graph tables fks) /\ forall c p, (p, c) ∈ E <-> references c p.
Proof.
  destruct (graph_of_fold n (concat (map (fk_edges tables) fks)) []
    (mkGraph (replicate n []) (replicate n 0%nat) ∅)) as (E & Hg & HE).
  - intros [p c] He. apply fk_edges_elem, references_bound in He. simpl. lia.
  - split; simpl; [constructor|by intros ? ?%elem_of_nil|set_solver|..].
    + intros p Hp. by rewrite lookup_replicate_2.
    + intros c Hc. by rewrite lookup_replicate_2.
  - exists E. split; [exact Hg|]. intros c p. rewrite HE, <- fk_edges_elem. set_solver.
Qed.

(** ** The loop *)

(** What holds between two rounds: the degrees count the parents that are still
    to come, exactly the nodes without such parents are ordered or queued, and
    the parents of an ordered or queued node stand before it. *)
Record draining (E : list (nat * nat)) (degree queue ordered : list nat) : Prop := {
  d_nodup : NoDup (ordered ++ queue);
  d_bound x : x ∈ ordered ++ queue -> (x < n)%nat;
  d_degree c : (c < n)%nat -> degree !! c = Some (parents_left E ordered c);
  d_ready c : (c < n)%nat -> (c ∈ ordered ++ queue <-> parents_left E ordered c = 0%nat);
  d_order i c p : (ordered ++ queue) !! i = Some c -> (p, c) ∈ E ->
    exists j, (j < i)%nat /\ ordered !! j = Some p;
}.

Lemma draining_start E :
  graph_of n E (graph tables fks) ->
  draining E (in_degree (graph tables fks))
    (sort_indices tables (List.filter
       (fun i => bool_decide (in_degree (graph tables fks) !! i = Some 0%nat)) (seq 0 n))) [].
Proof.
  intros Hg.
  assert (forall c, (c < n)%nat ->
    (c ∈ sort_indices tables (List.filter
       (fun i => bool_decide (in_degree (graph tables fks) !! i = Some 0%nat)) (seq 0 n)) <->
     parents_left E [] c = 0%nat)) as Hr.
  { intros c Hc. unfold sort_indices. rewrite sort_with_perm, filter_elem, bool_decide_eq_true,
      elem_of_seq, (g_degree _ _ _ Hg) by done.
    split; [intros [_ ?]; congruence|intros ->; split; [lia|done]]. }
  assert (forall x, x ∈ sort_indices tables (List.filter
       (fun i => bool_decide (in_degree (graph tables fks) !! i = Some 0%nat)) (seq 0 n)) ->
    (x < n)%nat) as Hb.
  { intros x Hx. unfold sort_indices in Hx. rewrite sort_with_perm in Hx.
    apply filter_elem in Hx as [Hx%elem_of_seq _]. lia. }
  split; simpl.
  - unfold sort_indices. rewrite sort_with_perm. eapply sublist_NoDup; [apply NoDup_seq|apply filter_sublist].
  - done.
  - by apply g_degree.
  - done.
  - intros i c p Hc HE. exfalso. assert (c ∈ _) as Hin by (by eapply list_elem_of_lookup_2).
    rewrite Hr in Hin by (by apply Hb). apply parents_left_zero with (p := p) in Hin; [|done].
    by apply elem_of_nil in Hin.
Qed.

Lemma draining_step E degree node rest ordered :
  NoDup E -> (forall e, e ∈ E -> (e.1 < n)%nat /\ (e.2 < n)%nat) ->
  draining E degree (node :: rest) ordered ->
  let '(degree', newly) := foldl release (degree, []) (edges_from E node) in
  draining E degree' (rest ++ sort_indices tables newly) (ordered ++ [node]).
Proof.
  intros HE Hbound [Hnd Hb Hdeg Hready Hord].
  assert (node ∉ ordered) as Hno.
  { apply NoDup_app in Hnd as (_ & Hd & _). intros Hin. apply Hd in Hin. apply Hin. left. }
  rewrite release_all by (by apply edges_from_NoDup). simpl.
  set (newly := List.filter _ _).
  assert (forall c, (c < n)%nat -> parents_left E ordered c =
            (parents_left E (ordered ++ [node]) c + if bool_decide ((node, c) ∈ E) then 1 else 0)%nat)
    as Hstep by (intros; by apply parents_left_step).
  assert (forall c, c ∈ newly <->
            (c < n)%nat /\ (node, c) ∈ E /\ parents_left E (ordered ++ [node]) c = 0%nat) as Hnew.
  { intros c. unfold newly. rewrite filter_elem, edges_from_elem, bool_decide_eq_true. split.
    - intros [Hc Hz]. destruct (Hbound _ Hc) as [_ Hcn]. simpl in Hcn. rewrite Hdeg in Hz by done.
      specialize (Hstep c Hcn). rewrite bool_decide_true in Hstep by done.
      simpl in Hz. injection Hz as Hz. split_and!; [done..|]. lia.
    - intros (Hcn & Hc & Hz). split; [done|]. rewrite Hdeg, Hstep, bool_decide_true, Hz by done. done. }
  assert (forall x, x ∈ (ordered ++ [node]) ++ rest ++ sort_indices tables newly <->
                    x ∈ ordered ++ node :: rest \/ x ∈ newly) as Hall.
  { intros x. unfold sort_indices. rewrite sort_with_perm, !elem_of_app, !elem_of_cons, elem_of_nil.
    tauto. }
  split.
  - rewrite app_assoc. apply NoDup_app. split_and!.
    + by rewrite <- app_assoc.
    + intros x Hx Hs. unfold sort_indices in Hs. rewrite sort_with_perm in Hs.
      apply Hnew in Hs as (Hxn & Hx' & _). rewrite <- app_assoc in Hx. apply Hready in Hx; [|done].
      rewrite Hstep, bool_decide_true in Hx by done. lia.
    + unfold sort_indices. rewrite sort_with_perm. eapply sublist_NoDup; [|apply filter_sublist].
      by apply edges_from_NoDup.
  - intros x [Hx|Hx]%Hall; [by apply Hb|by apply Hnew in Hx as [? _]].
  - intros c Hc. rewrite decrease_all, Hdeg, Hstep by (done || by apply edges_from_NoDup).
    rewrite (bool_decide_ext (c ∈ edges_from E node) ((node, c) ∈ E)) by apply edges_from_elem.
    case_bool_decide; simpl; f_equal; lia.
  - intros c Hc. rewrite Hall, Hready, Hnew, Hstep by done. rewrite Nat.eq_add_0.
    case_bool_decide; split; try tauto; intros [?|?]; tauto.
  - intros i c p Hi HE'. rewrite app_assoc in Hi.
    apply lookup_app_Some in Hi as [Hi|[Hlen Hi]].
    + rewrite <- app_assoc in Hi. destruct (Hord i c p Hi HE') as (j & Hj & Hp).
      exists j. split; [done|]. by apply lookup_app_l_Some.
    + apply list_elem_of_lookup_2 in Hi. unfold sort_indices in Hi. rewrite sort_with_perm in Hi.
      apply Hnew in Hi as (_ & _ & Hz). apply parents_left_zero with (p := p) in Hz; [|done].
      apply list_elem_of_lookup in Hz as [j Hj]. exists j. split; [|done].
      apply lookup_lt_Some in Hj. rewrite length_app in Hlen. lia.
Qed.

(** The loop ends, and what holds between rounds holds at the end. *)
Lemma drain_ends E : forall fuel degree queue ordered,
  graph_of n E (graph tables fks) -> draining E degree queue ordered ->
  (n <= fuel + length ordered)%nat ->
  exists degree' order, drain tables fks fuel degree queue ordered = Some order /\
    draining E degree' [] order.
Proof.
  induction fuel as [|fuel IH]; intros degree queue ordered Hg Hd Hf.
  - destruct queue as [|node rest]; simpl; [by exists degree, ordered|]. exfalso.
    pose proof (NoDup_submseteq _ (seq 0 n) (d_nodup _ _ _ _ Hd)) as Hs.
    assert (ordered ++ node :: rest ⊆+ seq 0 n) as Hle%submseteq_length.
    { apply Hs. intros x Hx%(d_bound _ _ _ _ Hd). apply elem_of_seq. lia. }
    rewrite length_app, length_seq in Hle. simpl in Hle. lia.
  - destruct queue as [|node rest]; simpl; [by exists degree, ordered|].
    assert (node < n)%nat as Hn.
    { apply (d_bound _ _ _ _ Hd), elem_of_app. right. left. }
    rewrite (g_children _ _ _ Hg node Hn). simpl.
    pose proof (draining_step E degree node rest ordered (g_nodup _ _ _ Hg) (g_bound _ _ _ Hg) Hd) as Hs.
    destruct (foldl release (degree, []) (edges_from E node)) as [degree' newly].
    apply IH; [done..|]. rewrite length_app. simpl. lia.
Qed.

(** The order found: without repetitions, of table indices, closed under parents,
    which come first, and with every table whose parents are all in it. *)
Lemma ordered_indices_spec :
  exists order, ordered_indices tables fks = Some order /\ NoDup order /\
    (forall i, i ∈ order -> (i < n)%nat) /\
    (forall i c p, order !! i = Some c -> references c p -> exists j, (j < i)%nat /\ order !! j = Some p) /\
    (forall c, (c < n)%nat -> (forall p, references c p -> p ∈ order) -> c ∈ order).
Proof.
  destruct graph_edges as (E & Hg & HE).
  destruct (drain_ends E n (in_degree (graph tables fks))
    (sort_indices tables (List.filter
       (fun i => bool_decide (in_degree (graph tables fks) !! i = Some 0%nat)) (seq 0 n))) [] Hg
    (draining_start E Hg)) as (degree' & order & Ho & [Hnd Hb _ Hr Hord]); [simpl; lia|].
  rewrite app_nil_r in *. exists order. split_and!; [done..| |].
  - intros i c p Hi Hp. apply (Hord i c p); [done|]. by apply HE.
  - intros c Hc Hp. apply Hr; [done|]. apply parents_left_zero. intros p ?%HE. by apply Hp.
Qed.

(** ** The result *)

(** The tables at distinct indices that together are all of them. *)
Lemma tables_at (l : list nat) :
  (forall i, i ∈ l -> (i < n)%nat) ->
  exists ts, mapM (tables !!.) l = Some ts /\ ts = omap (tables !!.) l /\ length ts = length l.
Proof.
  induction l as [|i l IH]; intros Hl; simpl; [by exists []|].
  assert (i < n)%nat as [t Ht]%lookup_lt_is_Some by (apply Hl; left). rewrite Ht.
  destruct IH as (ts & Hm & Ho & Hlen); [intros j ?; apply Hl; by right|].
  exists (t :: ts). simpl. rewrite Hm, Hlen. simpl. split_and!; [done| |done]. by rewrite Ho.
Qed.

(** The result is always there: it lists every table once, in an order in which
    tables come after those they reference, and what is not ordered is the
    cycle. *)
Lemma topological_order_spec :
  exists order, NoDup order /\ (forall i, i ∈ order -> (i < n)%nat) /\
    (forall i c p, order !! i = Some c -> references c p -> exists j, (j < i)%nat /\ order !! j = Some p) /\
    (forall c, (c < n)%nat -> (forall p, references c p -> p ∈ order) -> c ∈ order) /\
    exists r, topological_order tables fks = Some r /\
      match r with
      | Ordered l => l = omap (tables !!.) order /\ order ≡ₚ seq 0 n
      | Cyclic prefix cycle =>
          prefix = omap (tables !!.) order /\ prefix ++ cycle ≡ₚ tables /\ length prefix <> n /\
          length order <> n
      end.
Proof.
  destruct ordered_indices_spec as (order & Ho & Hnd & Hb & Hord & Hall).
  exists order. split_and!; [done..|]. unfold topological_order. rewrite Ho. simpl.
  destruct (tables_at order Hb) as (ts & -> & -> & Hts). simpl.
  destruct (Nat.eqb_spec (length order) n) as [Hlen|Hlen].
  { eexists. split; [done|]. split; [done|]. apply submseteq_length_Permutation.
    - apply NoDup_submseteq; [done|]. intros i ?%Hb. apply elem_of_seq. lia.
    - rewrite length_seq. lia. }
  set (remaining := List.filter _ _).
  assert (forall i, i ∈ remaining <-> (i < n)%nat /\ i ∉ order) as Hrem.
  { intros i. unfold remaining. rewrite filter_elem, negb_true_iff, bool_decide_eq_false, elem_of_seq.
    naive_solver lia. }
  destruct graph_edges as (E & Hg & _).
  destruct (tarjan_lists_all remaining (children (graph tables fks))) as (comps & -> & Hcomps).
  { eapply sublist_NoDup; [apply NoDup_seq|apply filter_sublist]. }
  { intros x [Hx _]%Hrem. rewrite (g_children _ _ _ Hg x Hx). eauto. }
  simpl. destruct (tables_at (sort_indices tables (concat comps))) as (cyc & -> & -> & _).
  { intros i. unfold sort_indices. rewrite sort_with_perm, Hcomps. by intros [? _]%Hrem. }
  simpl. eexists. split; [done|]. split_and!; [done| | |].
  - rewrite <- omap_app. rewrite <- (omap_lookup_seq tables) at 2. apply omap_Permutation.
    unfold sort_indices. rewrite sort_with_perm, Hcomps. apply NoDup_Permutation.
    + apply NoDup_app. split_and!; [done| |].
      * intros i Hi [_ Hno]%Hrem. done.
      * eapply sublist_NoDup; [apply NoDup_seq|apply filter_sublist].
    + apply NoDup_seq.
    + intros i. rewrite elem_of_app, Hrem, elem_of_seq. split; [intros [?%Hb|[? _]]; lia|].
      intros Hi. destruct (decide (i ∈ order)); [by left|right; split; [lia|done]].
  - by rewrite Hts.
  - done.
Qed.

(** A load order is always found, and it lists every table exactly once, the
    tables of a cycle included. *)
Theorem load_order_lists_every_table :
  exists r, topological_order tables fks = Some r /\
    match r with
    | Ordered l => l ≡ₚ tables
    | Cyclic prefix cycle => prefix ++ cycle ≡ₚ tables /\ cycle <> []
    end.
Proof.
  destruct topological_order_spec as (order & _ & Hb & _ & _ & r & Hr & Hspec).
  exists r. split; [done|]. destruct r as [l|prefix cycle].
  - destruct Hspec as [-> Hp]. by rewrite Hp, omap_lookup_seq.
  - destruct Hspec as (-> & Hp & Hlen & _). split; [done|]. intros ->.
    rewrite app_nil_r in Hp. by apply Permutation_length in Hp.
Qed.

(** A table is loaded after every table it references: in a full order, and
    in the part of a partial one that comes before the cycle. *)
Theorem parents_are_loaded_first :
  exists order, NoDup order /\
    (exists r, topological_order tables fks = Some r /\
       match r with
       | Ordered l | Cyclic l _ => Forall2 (fun i t => tables !! i = Some t) order l
       end) /\
    forall i c p, order !! i = Some c -> references c p -> exists j, (j < i)%nat /\ order !! j = Some p.
Proof.
  destruct topological_order_spec as (order & Hnd & Hb & Hord & _ & r & Hr & Hspec).
  exists order. split_and!; [done| |done]. exists r. split; [done|].
  assert (Forall2 (fun i t => tables !! i = Some t) order (omap (tables !!.) order)) as Hf.
  { destruct (tables_at order Hb) as (ts & Hm & <- & _). by apply mapM_Some in Hm. }
  destruct r; by destruct Hspec as [-> _].
Qed.

(** References stay among the tables, so without a cycle they are well-founded. *)
Lemma acyclic_sn c : (forall x, ~ tc references x x) -> sn references c.
Proof.
  intros Hc. apply tc_finite_sn; [intros x; apply Hc|].
  exists (seq 0 n). intros x Hx. apply elem_of_seq.
  assert ((x < n)%nat); [|lia]. induction Hx as [c x Hr|]; [|done].
  by apply references_bound in Hr as [_ ?].
Qed.

(** C22: a full load order is found exactly when the references have no cycle. *)
Theorem full_order_iff_acyclic :
  (exists l, topological_order tables fks = Some (Ordered l)) <-> forall c, ~ tc references c c.
Proof.
  destruct topological_order_spec as (order & Hnd & Hb & Hord & Hall & r & Hr & Hspec). split.
  - intros [l Hl]. rewrite Hl in Hr. injection Hr as <-. destruct Hspec as [_ Hp].
    assert (forall c p, tc references c p -> forall i, order !! i = Some c ->
              exists j, (j < i)%nat /\ order !! j = Some p) as Hpos.
    { induction 1 as [c p Hr|c q p Hr _ IH]; intros i Hi; [by eapply Hord|].
      destruct (Hord i c q Hi Hr) as (k & Hk & Hq). destruct (IH k Hq) as (j & Hj & ?).
      exists j. split; [lia|done]. }
    intros c Hc. assert (exists i, order !! i = Some c) as [i Hi].
    { apply list_elem_of_lookup. rewrite Hp, elem_of_seq.
      assert (c < n)%nat; [|lia]. inversion Hc as [? ? Hrr|? ? ? Hrr]; subst; by apply references_bound in Hrr as [? _]. }
    destruct (Hpos c c Hc i Hi) as (j & Hj & Hcj).
    pose proof (NoDup_lookup _ _ _ _ Hnd Hi Hcj). lia.
  - intros Hc. destruct r as [l|prefix cycle]; [by exists l|]. exfalso.
    destruct Hspec as (_ & _ & _ & Hlen). apply Hlen.
    assert (order ≡ₚ seq 0 n) as Hp; [|by rewrite Hp, length_seq].
    apply NoDup_Permutation; [done|apply NoDup_seq|]. intros i. rewrite elem_of_seq.
    split; [intros ?%Hb; lia|]. intros [_ Hi]. simpl in Hi.
    pose proof (acyclic_sn i Hc) as Hsn. induction Hsn as [i _ IH]. apply Hall; [done|].
    intros p Hp. apply (IH p Hp). by apply references_bound in Hp as [_ ?].
Qed.

End Order.
