(* ===== verification/ConnTree.v ===== *)
(** * The connection tree (crates/dbflux_core: connection/tree.rs, connection/tree_manager.rs)

    Folders and references to connection profiles, stored flat with parent
    references, and the manager that keeps the tree and writes it to a store.

    [Uuid::new_v4] is the next identifier of the environment ([World]).  The
    loops that follow parent references or visit children end only on a tree
    without cycles, so they take a number of rounds and return [None] when the
    rounds do not suffice. *)

From S2P Require Import Prelude RustStr External.

Module ConnTree.

Inductive ConnectionTreeNodeKind : Type := Folder | ConnectionRef.

#[export] Instance node_kind_eq_dec : EqDecision ConnectionTreeNodeKind.
Proof. solve_decision. Defined.

Section Tree.
Context `{UuidLib}.

Record ConnectionTreeNode := mkNode {
  n_id : Uuid;
  n_kind : ConnectionTreeNodeKind;
  n_parent_id : option Uuid;
  n_sort_index : Z;
  n_name : string;
  n_profile_id : option Uuid;
  n_collapsed : bool;
}.

#[export] Instance node_eq_dec : EqDecision ConnectionTreeNode.
Proof. solve_decision. Defined.

(** The fields the operations write. *)
Definition set_place (parent : option Uuid) (sort_index : Z) (n : ConnectionTreeNode)
  : ConnectionTreeNode :=
  mkNode (n_id n) (n_kind n) parent sort_index (n_name n) (n_profile_id n) (n_collapsed n).
Definition set_name (name : string) (n : ConnectionTreeNode) : ConnectionTreeNode :=
  mkNode (n_id n) (n_kind n) (n_parent_id n) (n_sort_index n) name (n_profile_id n) (n_collapsed n).
Definition set_collapsed (c : bool) (n : ConnectionTreeNode) : ConnectionTreeNode :=
  mkNode (n_id n) (n_kind n) (n_parent_id n) (n_sort_index n) (n_name n) (n_profile_id n) c.

Definition new_folder (id : Uuid) (name : string) (parent_id : option Uuid) (sort_index : Z)
  : ConnectionTreeNode := mkNode id Folder parent_id sort_index name None false.
Definition new_connection_ref (id profile_id : Uuid) (parent_id : option Uuid) (sort_index : Z)
  : ConnectionTreeNode :=
  mkNode id ConnectionRef parent_id sort_index EmptyString (Some profile_id) false.

Definition is_folder (n : ConnectionTreeNode) : bool := bool_decide (n_kind n = Folder).
Definition is_connection_ref (n : ConnectionTreeNode) : bool :=
  bool_decide (n_kind n = ConnectionRef).

Record ConnectionTree := mkTree {
  nodes : list ConnectionTreeNode;
  version : Z;
}.

Definition with_nodes (t : ConnectionTree) (l : list ConnectionTreeNode) : ConnectionTree :=
  mkTree l (version t).

Definition SORT_INDEX_GAP : Z := 1000.

Definition tree_new : ConnectionTree := mkTree [] 1.

(** ** Reading *)

Definition by_sort_index (a b : ConnectionTreeNode) : bool := n_sort_index a <=? n_sort_index b.

Definition siblings_under (t : ConnectionTree) (parent : option Uuid) : list ConnectionTreeNode :=
  List.filter (fun n => bool_decide (n_parent_id n = parent)) (nodes t).

Definition root_nodes (t : ConnectionTree) : list ConnectionTreeNode :=
  sort_with by_sort_index (siblings_under t None).
Definition children_of (t : ConnectionTree) (parent_id : Uuid) : list ConnectionTreeNode :=
  sort_with by_sort_index (siblings_under t (Some parent_id)).

Definition find_by_profile (t : ConnectionTree) (profile_id : Uuid) : option ConnectionTreeNode :=
  List.find (fun n => bool_decide (n_profile_id n = Some profile_id)) (nodes t).
Definition find_by_id (t : ConnectionTree) (node_id : Uuid) : option ConnectionTreeNode :=
  List.find (fun n => bool_decide (n_id n = node_id)) (nodes t).

(** [find_by_id_mut] and a write through the reference: the first node with the
    identifier changes. *)
Fixpoint update_first (node_id : Uuid) (f : ConnectionTreeNode -> ConnectionTreeNode)
    (l : list ConnectionTreeNode) : list ConnectionTreeNode :=
  match l with
  | [] => []
  | n :: l' => if bool_decide (n_id n = node_id) then f n :: l' else n :: update_first node_id f l'
  end.

Definition folders (t : ConnectionTree) : list ConnectionTreeNode :=
  List.filter is_folder (nodes t).

(** [iter().max()]. *)
Definition max_index (l : list Z) : option Z :=
  foldl (fun m x => Some (match m with Some y => Z.max y x | None => x end)) None l.

Definition next_sort_index (t : ConnectionTree) (parent_id : option Uuid) : Z :=
  i32_wrap (default 0 (max_index (map n_sort_index (siblings_under t parent_id))) +
            SORT_INDEX_GAP).

(** The loop of [would_create_cycle]. *)
Fixpoint climbs_to (fuel : nat) (t : ConnectionTree) (node_id : Uuid) (current : option Uuid)
  : option bool :=
  match current with
  | None => Some false
  | Some id =>
      match fuel with
      | O => None
      | S fuel' =>
          if bool_decide (id = node_id) then Some true
          else climbs_to fuel' t node_id (find_by_id t id ≫= n_parent_id)
      end
  end.

Definition would_create_cycle (fuel : nat) (t : ConnectionTree) (node_id : Uuid)
    (new_parent_id : option Uuid) : option bool :=
  match new_parent_id with
  | None => Some false
  | Some target_parent => climbs_to fuel t node_id (Some target_parent)
  end.

Definition sort_index_between (t : ConnectionTree) (parent_id after_id : option Uuid) : option Z :=
  let siblings := match parent_id with
                  | Some pid => children_of t pid
                  | None => root_nodes t
                  end in
  match after_id with
  | None =>
      let first_index := match head siblings with
                         | Some n => n_sort_index n
                         | None => SORT_INDEX_GAP
                         end in
      Some (i32_wrap (first_index - SORT_INDEX_GAP))
  | Some after =>
      '(after_pos, after_node) ← list_find (fun n => n_id n = after) siblings;
      Some (match siblings !! S after_pos with
            | Some next => Z.quot (i32_wrap (n_sort_index after_node + n_sort_index next)) 2
            | None => i32_wrap (n_sort_index after_node + SORT_INDEX_GAP)
            end)
  end.

(** The loop of [get_descendants]: what it has found and what it still visits. *)
Fixpoint visit (fuel : nat) (t : ConnectionTree) (to_visit : list Uuid) (descendants : list Uuid)
  : option (list Uuid) :=
  match to_visit with
  | [] => Some descendants
  | id :: stack =>
      match fuel with
      | O => None
      | S fuel' =>
          let children := siblings_under t (Some id) in
          visit fuel' t (rev (map n_id (List.filter is_folder children)) ++ stack)
            (descendants ++ map n_id children)
      end
  end.

Definition get_descendants (fuel : nat) (t : ConnectionTree) (folder_id : Uuid)
  : option (list Uuid) := visit fuel t [folder_id] [].

(** ** Writing *)

Definition add_node (t : ConnectionTree) (n : ConnectionTreeNode) : ConnectionTree :=
  with_nodes t (nodes t ++ [n]).

(** The first node with the identifier, and the others. *)
Fixpoint take_node (id : Uuid) (l : list ConnectionTreeNode)
  : option (ConnectionTreeNode * list ConnectionTreeNode) :=
  match l with
  | [] => None
  | n :: l' =>
      if bool_decide (n_id n = id) then Some (n, l')
      else match take_node id l' with Some (m, r) => Some (m, n :: r) | None => None end
  end.

(** Pop identifiers until one has a node; take that node. *)
Fixpoint pop_node (l : list ConnectionTreeNode) (to_remove : list Uuid)
  : option (ConnectionTreeNode * list ConnectionTreeNode * list Uuid) :=
  match to_remove with
  | [] => None
  | id :: stack =>
      match take_node id l with
      | Some (n, l') => Some (n, l', stack)
      | None => pop_node l stack
      end
  end.

(** The loop of [remove_node], one removed node per round; a tree has no more
    rounds than nodes. *)
Fixpoint remove_loop (rounds : nat) (l : list ConnectionTreeNode) (to_remove : list Uuid)
    (removed : list ConnectionTreeNode) : list ConnectionTreeNode * list ConnectionTreeNode :=
  match rounds with
  | O => (l, removed)
  | S rounds' =>
      match pop_node l to_remove with
      | None => (l, removed)
      | Some (n, l', stack) =>
          let children := List.filter (fun c => bool_decide (n_parent_id c = Some (n_id n))) l' in
          remove_loop rounds' l' (rev (map n_id children) ++ stack) (removed ++ [n])
      end
  end.

Definition remove_node (t : ConnectionTree) (node_id : Uuid)
  : ConnectionTree * list ConnectionTreeNode :=
  let '(l, removed) := remove_loop (length (nodes t)) (nodes t) [node_id] [] in
  (with_nodes t l, removed).

(** [Uuid::new_v4]. *)
Definition new_v4 (w : World) : World * Uuid :=
  (mkWorld _ (clock w) (ticks w) (uuids w) (S (issued w)) (db_fault w) (db_calls w),
   uuids w (issued w)).

Definition retained (profile_ids : list Uuid) (n : ConnectionTreeNode) : bool :=
  match n_profile_id n with
  | Some p => bool_decide (p ∈ profile_ids)
  | None => true
  end.

(** One round of the second loop of [sync_with_profiles]. *)
Definition add_missing (wt : World * ConnectionTree) (profile_id : Uuid) : World * ConnectionTree :=
  let '(w, t) := wt in
  match find_by_profile t profile_id with
  | Some _ => (w, t)
  | None =>
      let '(w', id) := new_v4 w in
      (w', add_node t (new_connection_ref id profile_id None (next_sort_index t None)))
  end.

Definition sync_with_profiles (w : World) (t : ConnectionTree) (profile_ids : list Uuid)
  : World * ConnectionTree :=
  foldl add_missing (w, with_nodes t (List.filter (retained profile_ids) (nodes t))) profile_ids.

(** Write the place of a node; whether there was one. *)
Definition place (t : ConnectionTree) (node_id : Uuid) (parent : option Uuid) (sort_index : Z)
  : ConnectionTree * bool :=
  match find_by_id t node_id with
  | Some _ => (with_nodes t (update_first node_id (set_place parent sort_index) (nodes t)), true)
  | None => (t, false)
  end.

Definition move_node (fuel : nat) (t : ConnectionTree) (node_id : Uuid)
    (new_parent_id : option Uuid) : option (ConnectionTree * bool) :=
  match find_by_id t node_id with
  | Some n =>
      if bool_decide (n_parent_id n = new_parent_id) then Some (t, false)
      else
        cycle ← would_create_cycle fuel t node_id new_parent_id;
        if cycle : bool then Some (t, false)
        else Some (place t node_id new_parent_id (next_sort_index t new_parent_id))
  | None =>
      cycle ← would_create_cycle fuel t node_id new_parent_id;
      if cycle : bool then Some (t, false)
      else Some (place t node_id new_parent_id (next_sort_index t new_parent_id))
  end.

Definition move_node_to_position (fuel : nat) (t : ConnectionTree) (node_id : Uuid)
    (new_parent_id after_id : option Uuid) : option (ConnectionTree * bool) :=
  cycle ← would_create_cycle fuel t node_id new_parent_id;
  if cycle : bool then Some (t, false)
  else if bool_decide (after_id = Some node_id) then Some (t, false)
  else match sort_index_between t new_parent_id after_id with
       | None => Some (t, false)
       | Some sort_index => Some (place t node_id new_parent_id sort_index)
       end.

(** A write to a folder, with what the operation returns. *)
Definition edit_folder (t : ConnectionTree) (folder_id : Uuid)
    (f : ConnectionTreeNode -> ConnectionTreeNode) : ConnectionTree * option ConnectionTreeNode :=
  match find_by_id t folder_id with
  | Some n => if is_folder n then (with_nodes t (update_first folder_id f (nodes t)), Some (f n))
              else (t, None)
  | None => (t, None)
  end.

Definition rename_folder (t : ConnectionTree) (folder_id : Uuid) (new_name : string)
  : ConnectionTree * bool :=
  let '(t', r) := edit_folder t folder_id (set_name new_name) in
  (t', match r with Some _ => true | None => false end).

Definition toggle_folder_collapsed (t : ConnectionTree) (folder_id : Uuid)
  : ConnectionTree * option bool :=
  let '(t', r) := edit_folder t folder_id (fun n => set_collapsed (negb (n_collapsed n)) n) in
  (t', n_collapsed <$> r).

Definition set_folder_collapsed (t : ConnectionTree) (folder_id : Uuid) (collapsed : bool)
  : ConnectionTree := (edit_folder t folder_id (set_collapsed collapsed)).1.

(** One node of the loop of [repair_orphans], and whether it is repaired. *)
Definition repair_node (valid : list Uuid) (n : ConnectionTreeNode) : ConnectionTreeNode * bool :=
  match n_parent_id n with
  | Some p => if bool_decide (p ∈ valid) then (n, false)
              else (set_place None (n_sort_index n) n, true)
  | None => (n, false)
  end.

Definition repair_orphans (t : ConnectionTree) : ConnectionTree * nat :=
  let repaired := map (repair_node (map n_id (folders t))) (nodes t) in
  (with_nodes t (map fst repaired), length (List.filter snd repaired)).

(** The loop of [delete_folder_and_reparent_children]: [offset] grows with every
    child moved. *)
Fixpoint reparent (children_ids : list Uuid) (parent : option Uuid) (base offset : Z)
    (l : list ConnectionTreeNode) : list ConnectionTreeNode :=
  match l with
  | [] => []
  | n :: l' =>
      if bool_decide (n_id n ∈ children_ids) then
        let offset' := i32_wrap (offset + SORT_INDEX_GAP) in
        set_place parent (i32_wrap (base + offset')) n :: reparent children_ids parent base offset' l'
      else n :: reparent children_ids parent base offset l'
  end.

Definition delete_folder_and_reparent_children (t : ConnectionTree) (folder_id : Uuid)
  : ConnectionTree * list Uuid :=
  match find_by_id t folder_id with
  | Some folder =>
      if is_folder folder then
        let parent_id := n_parent_id folder in
        let children_ids := map n_id (siblings_under t (Some folder_id)) in
        let base_sort_index :=
          default 0 (max_index (map n_sort_index
            (List.filter (fun n => negb (bool_decide (n_id n = folder_id)))
               (siblings_under t parent_id)))) in
        (with_nodes t
           (List.filter (fun n => negb (bool_decide (n_id n = folder_id)))
              (reparent children_ids parent_id base_sort_index 0 (nodes t))),
         children_ids)
      else (t, [])
  | None => (t, [])
  end.

End Tree.
End ConnTree.
