(* ===== verification/ConnTreeProps.v ===== *)
(** * The connection tree stays a forest

    Identifiers are distinct and no node is its own ancestor, and every
    operation keeps that; so the loops that climb from a node end, and a removal
    takes away exactly the subtree of a node. *)

From Stdlib Require Import Sorted.
From S2P Require Import Prelude RustStr External Concrete ConnTree.

Import ConnTree.

Section Forest.
Context `{UuidLib}.
Implicit Types (l : list ConnectionTreeNode) (t : ConnectionTree).

(** Node [x] stands under parent [p]. *)
Definition par l (x p : Uuid) : Prop :=
  exists n, n ∈ l /\ n_id n = x /\ n_parent_id n = Some p.

(** [x] is [a] or stands somewhere below it. *)
Definition under t (x a : Uuid) : Prop := rtc (par (nodes t)) x a.

Definition forest_nodes l : Prop :=
  NoDup (map n_id l) /\ forall x, ~ tc (par l) x x.
Definition forest t : Prop := forest_nodes (nodes t).

(** ** Looking up *)

Lemma find_by_id_Some t id n : find_by_id t id = Some n -> n ∈ nodes t /\ n_id n = id.
Proof.
  unfold find_by_id. intros [Hin Hid]%find_some. split; [by apply list_elem_of_In|].
  by apply bool_decide_eq_true in Hid.
Qed.

Lemma node_unique l n m :
  NoDup (map n_id l) -> n ∈ l -> m ∈ l -> n_id n = n_id m -> n = m.
Proof.
  intros Hnd Hn Hm Heq. apply list_elem_of_lookup in Hn as [i Hi], Hm as [j Hj].
  assert (i = j) as ->; [|naive_solver].
  eapply (NoDup_lookup (n_id <$> l) i j (n_id n)); [done|..]; rewrite list_lookup_fmap;
    [rewrite Hi|rewrite Hj]; simpl; by rewrite ?Heq.
Qed.

Lemma find_by_id_elem t n :
  NoDup (map n_id (nodes t)) -> n ∈ nodes t -> find_by_id t (n_id n) = Some n.
Proof.
  intros Hnd Hn. destruct (find_by_id t (n_id n)) as [m|] eqn:Hf.
  - apply find_by_id_Some in Hf as [Hm Heq]. f_equal. by eapply node_unique.
  - unfold find_by_id in Hf. eapply find_none in Hf; [|by apply list_elem_of_In].
    by rewrite bool_decide_true in Hf.
Qed.

Lemma par_find t x p :
  NoDup (map n_id (nodes t)) ->
  (find_by_id t x ≫= n_parent_id) = Some p <-> par (nodes t) x p.
Proof.
  intros Hnd. rewrite bind_Some. split.
  - intros (n & [? ?]%find_by_id_Some & ?). by exists n.
  - intros (n & Hn & <- & ?). exists n. by rewrite find_by_id_elem.
Qed.

Lemma par_elem l x p : par l x p -> x ∈ map n_id l.
Proof. intros (n & ? & <- & _). by apply list_elem_of_fmap_2. Qed.

(** ** Cycles *)

(** A relation grown by one pair has a path through the pair or none. *)
Lemma tc_extend (R R' : relation Uuid) n q :
  (forall x p, R' x p -> R x p \/ x = n /\ p = q) ->
  forall x y, tc R' x y -> tc R x y \/ rtc R x n /\ rtc R q y.
Proof.
  intros HR x y. induction 1 as [x y Hxy|x z y Hxz _ IH].
  - destruct (HR _ _ Hxy) as [?|[-> ->]]; [left; by constructor|right; split; constructor].
  - destruct (HR _ _ Hxz) as [Hx|[-> ->]], IH as [IH|[IH1 IH2]].
    + left. by econstructor.
    + right. split; [|done]. by econstructor.
    + right. split; [constructor|by apply tc_rtc].
    + right. split; [constructor|done].
Qed.

(** Adding a pair whose end does not lead back to its start makes no cycle. *)
Lemma acyclic_extend (R R' : relation Uuid) n q :
  (forall x, ~ tc R x x) -> (forall x p, R' x p -> R x p \/ x = n /\ p = q) ->
  ~ rtc R q n -> forall x, ~ tc R' x x.
Proof.
  intros HR Hsub Hq x Hx. destruct (tc_extend R R' n q Hsub x x Hx) as [Hc|[H1 H2]].
  - by eapply HR.
  - apply Hq. by etrans.
Qed.

(** Shortcuts along existing paths make no cycle. *)
Lemma acyclic_shortcut (R R' : relation Uuid) :
  (forall x, ~ tc R x x) -> (forall x p, R' x p -> tc R x p) -> forall x, ~ tc R' x x.
Proof.
  intros HR Hsub x Hx. apply (HR x). revert Hx. generalize x at 2 4. intros y.
  induction 1 as [x y Hxy|x z y Hxz _ IH]; [by apply Hsub|]. etrans; [by apply Hsub|done].
Qed.

(** A measure that grows from parent to child rules cycles out. *)
Lemma acyclic_ranked l (rank : Uuid -> nat) :
  Forall (fun n => match n_parent_id n with
                   | Some p => (rank p < rank (n_id n))%nat | None => True end) l ->
  forall x, ~ tc (par l) x x.
Proof.
  rewrite Forall_forall. intros Hr x Hx.
  assert (forall y, tc (par l) x y -> (rank y < rank x)%nat) as Hlt; [|by apply Hlt in Hx; lia].
  clear Hx. induction 1 as [x y (n & Hn & <- & Hp)|x z y (n & Hn & <- & Hp) _ IH];
    apply Hr in Hn; rewrite Hp in Hn; lia.
Qed.

(** ** Climbing *)

(** The rounds of a climb: every identifier passed is a node and none comes
    back. *)
Lemma climbs_to_ends t node visited : forall fuel cur,
  forest t -> NoDup visited -> (forall x, x ∈ visited -> x ∈ map n_id (nodes t)) ->
  (forall x, x ∈ visited -> tc (par (nodes t)) x cur) ->
  (length (nodes t) < fuel + length visited)%nat ->
  is_Some (climbs_to fuel t node (Some cur)).
Proof.
  intros fuel. revert visited. induction fuel as [|fuel IH]; intros visited cur Hf Hnd Hin Hup Hlen.
  { exfalso. apply NoDup_submseteq, submseteq_length in Hin; [|done].
    rewrite length_map in Hin. simpl in Hlen. lia. }
  simpl. case_bool_decide; [by eexists|].
  destruct (find_by_id t cur ≫= n_parent_id) as [p|] eqn:Hp; [|by destruct fuel; eexists].
  apply par_find in Hp; [|apply Hf]. apply (IH (cur :: visited)); [done|..].
  - constructor; [|done]. intros Hc. apply Hup in Hc. by apply Hf in Hc.
  - intros x [->|Hx]%elem_of_cons; [by eapply par_elem|by apply Hin].
  - intros x [->|Hx]%elem_of_cons; [by constructor|]. eapply tc_r; [by apply Hup|done].
  - simpl. lia.
Qed.

Lemma climbs_to_spec t node : forall fuel cur b,
  NoDup (map n_id (nodes t)) -> climbs_to fuel t node cur = Some b ->
  b = true <-> exists c, cur = Some c /\ under t c node.
Proof.
  induction fuel as [|fuel IH]; intros [c|] b Hnd; simpl; try done.
  1,3: intros [= <-]; naive_solver.
  case_bool_decide as Hc.
  { subst. intros [= <-]. split; [intros _; exists node; by split; [|constructor]|done]. }
  intros Hr. rewrite (IH _ _ Hnd Hr). split.
  - intros (p & Hp & Hu). exists c. split; [done|]. apply par_find in Hp; [|done].
    by econstructor.
  - intros (c' & [= <-] & Hu). inversion Hu as [|? p ? Hp Hu']; subst; [done|].
    exists p. split; [by apply par_find|done].
Qed.

Lemma cycle_test t node new_parent fuel :
  forest t -> (length (nodes t) < fuel)%nat ->
  exists b, would_create_cycle fuel t node new_parent = Some b /\
    (b = true <-> exists p, new_parent = Some p /\ under t p node).
Proof.
  intros Hf Hlen. destruct new_parent as [p|]; simpl; [|exists false; naive_solver].
  destruct (climbs_to_ends t node [] fuel p) as [b Hb]; try done; [by constructor|set_solver|set_solver| |].
  - simpl. lia.
  - exists b. split; [done|]. by apply (climbs_to_spec t node fuel (Some p)); [apply Hf|].
Qed.

(** ** Operations on the nodes *)

Lemma par_sub l l' x p : (forall n, n ∈ l' -> n ∈ l) -> par l' x p -> par l x p.
Proof. intros Hs (n & ? & ? & ?). exists n. auto. Qed.

Lemma forest_sublist l l' : l' `sublist_of` l -> forest_nodes l -> forest_nodes l'.
Proof.
  intros Hs [Hnd Hc]. split.
  - eapply sublist_NoDup; [exact Hnd|]. by apply (fmap_sublist n_id).
  - eapply acyclic_shortcut; [exact Hc|]. intros x p Hp. constructor.
    eapply par_sub; [|done]. intros n Hn. by eapply elem_of_sublist.
Qed.

(** Nodes whose identifiers stay and whose parents change only along existing
    paths. *)
Lemma forest_map l l' :
  map n_id l' = map n_id l -> (forall x p, par l' x p -> tc (par l) x p) ->
  forest_nodes l -> forest_nodes l'.
Proof.
  intros Hid Hp [Hnd Hc]. split; [by rewrite Hid|]. by eapply acyclic_shortcut.
Qed.

(** With distinct identifiers the first node with one is the only one. *)
Lemma update_first_map id f l :
  NoDup (map n_id l) ->
  update_first id f l = map (fun n => if bool_decide (n_id n = id) then f n else n) l.
Proof.
  induction l as [|n l IH]; simpl; [done|]. intros [Hn Hnd]%NoDup_cons.
  case_bool_decide as Hid; f_equal; [|by apply IH].
  symmetry. rewrite <- (map_id l) at 2. apply map_ext_in. intros m Hm%list_elem_of_In.
  rewrite bool_decide_false; [done|]. intros Heq. apply Hn. rewrite Hid, <- Heq.
  by apply list_elem_of_fmap_2.
Qed.

Lemma map_ids f l :
  (forall n, n_id (f n) = n_id n) -> map n_id (map f l) = map n_id l.
Proof. intros Hf. rewrite map_map. by apply map_ext. Qed.

Lemma par_map f l x p :
  (forall n, n_id (f n) = n_id n) -> par (map f l) x p ->
  exists n, n ∈ l /\ n_id n = x /\ n_parent_id (f n) = Some p.
Proof. intros Hf (n & Hn & <- & Hp). apply list_elem_of_fmap in Hn as (m & -> & Hm). eauto. Qed.

(** A write that keeps the place of a node keeps the forest. *)
Lemma forest_edit id f l :
  (forall n, n_id (f n) = n_id n) -> (forall n, n_parent_id (f n) = n_parent_id n) ->
  forest_nodes l -> forest_nodes (update_first id f l).
Proof.
  intros Hid Hpar Hf. rewrite update_first_map by apply Hf. apply (forest_map l); [..|done].
  - apply map_ids. intros n. by case_bool_decide.
  - intros x p Hp. apply par_map in Hp as (n & Hn & <- & Hp); [|intros m; by case_bool_decide].
    constructor. exists n. split_and!; [done..|]. revert Hp. case_bool_decide; by rewrite ?Hpar.
Qed.

Lemma edit_folder_forest t id f :
  (forall n, n_id (f n) = n_id n) -> (forall n, n_parent_id (f n) = n_parent_id n) ->
  forest t -> forest (edit_folder t id f).1.
Proof.
  intros Hid Hpar Hf. unfold edit_folder. repeat case_match; simpl; [|done..].
  by apply forest_edit.
Qed.

(** A node moved to a parent that does not stand below it. *)
Lemma place_forest t id parent sort :
  forest t -> (forall p, parent = Some p -> ~ under t p id) -> forest (place t id parent sort).1.
Proof.
  intros [Hnd Hc] Hp. unfold place. destruct (find_by_id t id) as [m|] eqn:Hm; [|done].
  unfold forest. simpl. rewrite update_first_map by done.
  set (f := fun n => if bool_decide (n_id n = id) then set_place parent sort n else n).
  assert (forall n, n_id (f n) = n_id n) as Hid by (intros n; unfold f; by case_bool_decide).
  split; [by rewrite map_ids|].
  assert (forall x p, par (map f (nodes t)) x p ->
            par (nodes t) x p \/ x = id /\ parent = Some p) as Hpar.
  { intros x p (n & Hn & <- & Hpn)%par_map; [|done]. unfold f in Hpn.
    case_bool_decide; [by right|left; by exists n]. }
  destruct parent as [q|].
  - apply (acyclic_extend (par (nodes t)) _ id q Hc); [|by apply Hp].
    intros x p [?|[-> [= ->]]]%Hpar; auto.
  - apply (acyclic_shortcut (par (nodes t)) _ Hc). intros x p [?|[_ ?]]%Hpar; [by constructor|done].
Qed.

(** An identifier the tree does not know: no node has it and no node stands
    under it. *)
Definition unknown t (id : Uuid) : Prop :=
  forall n, n ∈ nodes t -> n_id n <> id /\ n_parent_id n <> Some id.

Lemma add_node_forest t n :
  forest t -> unknown t (n_id n) -> n_parent_id n <> Some (n_id n) -> forest (add_node t n).
Proof.
  intros [Hnd Hc] Hu Hn. unfold add_node, forest. simpl.
  assert (forall x p, par (nodes t ++ [n]) x p ->
            par (nodes t) x p \/ x = n_id n /\ n_parent_id n = Some p) as Hpar.
  { intros x p (m & [Hm| ->]%elem_of_snoc & <- & Hp); [left; by exists m|by right]. }
  split.
  - rewrite map_app. apply NoDup_app. split_and!; [done| |apply NoDup_singleton].
    intros x (m & -> & Hm)%list_elem_of_fmap. simpl. rewrite list_elem_of_singleton.
    by apply Hu.
  - destruct (n_parent_id n) as [q|].
    + apply (acyclic_extend (par (nodes t)) _ (n_id n) q Hc).
      * intros x p [?|[-> [= ->]]]%Hpar; auto.
      * intros Hr. apply rtc_inv_r in Hr as [->|(z & _ & m & Hm & _ & Hp)]; [done|].
        by apply Hu in Hm as [_ ?].
    + apply (acyclic_shortcut (par (nodes t)) _ Hc). intros x p [?|[_ ?]]%Hpar; [by constructor|done].
Qed.

Lemma repair_orphans_forest t : forest t -> forest (repair_orphans t).1.
Proof.
  unfold forest, repair_orphans. simpl. rewrite map_map. set (f := fun n => (repair_node _ n).1).
  assert (forall n, n_id (f n) = n_id n) as Hid.
  { intros n. unfold f, repair_node. destruct (n_parent_id n); [by case_bool_decide|done]. }
  apply forest_map; [by apply map_ids|]. intros x p (n & Hn & <- & Hp)%par_map; [|done].
  constructor. exists n. split_and!; [done..|]. revert Hp. unfold f, repair_node.
  destruct (n_parent_id n) eqn:Hpar; [case_bool_decide|]; simpl; congruence.
Qed.

Lemma reparent_ids ids parent base offset l :
  map n_id (reparent ids parent base offset l) = map n_id l.
Proof.
  revert offset. induction l as [|n l IH]; intros offset; simpl; [done|].
  case_bool_decide; simpl; by rewrite IH.
Qed.

Lemma reparent_par ids parent base offset l x p :
  par (reparent ids parent base offset l) x p -> par l x p \/ x ∈ ids /\ parent = Some p.
Proof.
  intros (n & Hn & <- & Hp). revert offset Hn.
  induction l as [|m l IH]; intros offset; simpl; [by intros []%elem_of_nil|].
  assert (par l (n_id n) p \/ n_id n ∈ ids /\ parent = Some p ->
          par (m :: l) (n_id n) p \/ n_id n ∈ ids /\ parent = Some p) as Hl.
  { intros [?|?]; [left|by right]. eapply par_sub; [|done]. intros. by right. }
  case_bool_decide as Hm; intros [->|Hn]%elem_of_cons; try by eapply Hl, IH.
  - right. simpl in Hp. by split.
  - left. exists m. split_and!; [left|done..].
Qed.

Lemma delete_folder_forest t id : forest t -> forest (delete_folder_and_reparent_children t id).1.
Proof.
  intros Hf. unfold delete_folder_and_reparent_children.
  destruct (find_by_id t id) as [folder|] eqn:Hfind; [|done].
  destruct (is_folder folder); [|done]. apply find_by_id_Some in Hfind as [Hin <-].
  eapply forest_sublist; [apply filter_sublist|].
  apply (forest_map (nodes t)); [apply reparent_ids| |done].
  intros x p [Hp|[Hx Hp]]%reparent_par; [by constructor|].
  apply list_elem_of_fmap in Hx as (n & -> & Hn). unfold siblings_under in Hn.
  apply filter_elem in Hn as [Hn Hpar%bool_decide_eq_true].
  eapply tc_l; [by exists n|]. constructor. by exists folder.
Qed.

(** ** Removing a subtree *)

Lemma take_node_Some id l n l' :
  take_node id l = Some (n, l') -> n_id n = id /\ l ≡ₚ n :: l' /\ l' `sublist_of` l.
Proof.
  revert l'. induction l as [|m l IH]; intros l'; simpl; [done|]. case_bool_decide as Hid.
  - intros [= -> ->]. split_and!; [done..|]. by constructor.
  - destruct (take_node id l) as [[k r]|]; [|done]. intros [= -> <-].
    destruct (IH r) as (? & Hp & ?); [done|]. split_and!; [done| |by constructor].
    rewrite Hp. constructor.
Qed.

Lemma take_node_None id l : take_node id l = None -> id ∉ map n_id l.
Proof.
  induction l as [|m l IH]; simpl; [by intros _ ?%elem_of_nil|].
  case_bool_decide as Hid; [done|]. destruct (take_node id l) as [[k r]|]; [done|].
  intros _ [Heq|Hin]%elem_of_cons; [by subst|by apply IH].
Qed.

Lemma pop_node_Some l stack n l' stack' :
  pop_node l stack = Some (n, l', stack') ->
  l ≡ₚ n :: l' /\ l' `sublist_of` l /\ n_id n ∈ stack /\
  (forall id, id ∈ stack' -> id ∈ stack) /\
  (forall id, id ∈ stack -> id ∈ stack' \/ id = n_id n \/ id ∉ map n_id l).
Proof.
  induction stack as [|id stack IH]; simpl; [done|].
  destruct (take_node id l) as [[m r]|] eqn:Ht.
  - intros [= -> -> ->]. apply take_node_Some in Ht as (<- & ? & ?).
    split_and!; [done..|left| |]; intros x; [by right|].
    intros [->|?]%elem_of_cons; auto.
  - intros (? & ? & ? & Hs & Hc)%IH. apply take_node_None in Ht.
    split_and!; [done..|by right|intros x ?; right; by apply Hs|].
    intros x [->|?]%elem_of_cons; auto.
Qed.

Lemma pop_node_None l stack : pop_node l stack = None -> forall id, id ∈ stack -> id ∉ map n_id l.
Proof.
  induction stack as [|id stack IH]; simpl; [by intros _ ? ?%elem_of_nil|].
  destruct (take_node id l) as [[m r]|] eqn:Ht; [done|].
  intros Hn x [->|Hx]%elem_of_cons; [by apply take_node_None|by apply IH].
Qed.

(** What the loop has done when it has removed some nodes: the rest keeps its
    order, only nodes under the root are gone or about to go, and a node left
    whose parent is gone is about to go. *)
Record removing t (root : Uuid) l (stack : list Uuid) (removed : list ConnectionTreeNode) : Prop := {
  rm_perm : removed ++ l ≡ₚ nodes t;
  rm_sub : l `sublist_of` nodes t;
  rm_stack id : id ∈ stack -> under t id root;
  rm_removed n : n ∈ removed -> under t (n_id n) root;
  rm_children n p : n ∈ l -> n_parent_id n = Some p -> p ∈ map n_id removed -> n_id n ∈ stack;
  rm_root : root ∈ map n_id l -> root ∈ stack;
}.

Lemma removing_step t root l stack removed n l' stack' :
  forest t -> removing t root l stack removed -> pop_node l stack = Some (n, l', stack') ->
  removing t root l'
    (rev (map n_id (List.filter (fun c => bool_decide (n_parent_id c = Some (n_id n))) l')) ++ stack')
    (removed ++ [n]).
Proof.
  intros [Hnd _] [Hp Hs Hst Hr Hc Hroot] (Hpl & Hsl & Hn & Hs1 & Hs2)%pop_node_Some.
  assert (forall m, m ∈ l' -> m ∈ l) as Hll by (intros m ?; by eapply elem_of_sublist).
  assert (NoDup (map n_id (n :: l'))) as [Hnl _]%NoDup_cons.
  { rewrite <- (fmap_Permutation n_id _ _ Hpl). eapply sublist_NoDup; [exact Hnd|].
    by apply (fmap_sublist n_id). }
  split.
  - by rewrite <- app_assoc, <- Hp, Hpl.
  - by trans l.
  - intros id [Hid|Hid]%elem_of_app; [|by apply Hst, Hs1].
    apply list_elem_of_In, in_rev, list_elem_of_In, list_elem_of_fmap in Hid as (m & -> & Hm).
    apply filter_elem in Hm as [Hm Hpar%bool_decide_eq_true].
    eapply rtc_l; [|by apply Hst]. exists m. split_and!; [|done..].
    eapply elem_of_sublist; [|exact Hs]. by apply Hll.
  - intros m [Hm| ->]%elem_of_snoc; [by apply Hr|by apply Hst].
  - intros m p Hm Hpar Hin. apply elem_of_app.
    rewrite map_app in Hin. apply elem_of_snoc in Hin as [Hin|Hin].
    + right. destruct (Hs2 (n_id m)) as [?|[Heq|Hno]]; [by eapply Hc, Hin; eauto|done|..].
      * exfalso. apply Hnl. rewrite <- Heq. by apply list_elem_of_fmap_2.
      * exfalso. apply Hno. apply list_elem_of_fmap_2. by apply Hll.
    + left. apply list_elem_of_In, in_rev. rewrite rev_involutive. apply list_elem_of_In.
      apply list_elem_of_fmap_2, filter_elem. split; [done|]. apply bool_decide_eq_true. by subst.
  - intros Hin. apply elem_of_app. right.
    destruct (Hs2 root) as [?|[Heq|Hno]]; [|done|..].
    + apply Hroot. apply list_elem_of_fmap in Hin as (m & -> & Hm).
      apply list_elem_of_fmap_2. by apply Hll.
    + subst. by destruct Hnl.
    + exfalso. apply Hno. apply list_elem_of_fmap in Hin as (m & -> & Hm).
      apply list_elem_of_fmap_2. by apply Hll.
Qed.

(** When no identifier to remove has a node, nothing under the root is left. *)
Lemma removing_done t root l stack removed :
  forest t -> removing t root l stack removed -> (forall id, id ∈ stack -> id ∉ map n_id l) ->
  root ∈ map n_id (nodes t) -> forall n, n ∈ l -> ~ under t (n_id n) root.
Proof.
  intros [Hnd _] [Hp Hsub _ _ Hc Hroot] Hdone Hr n Hn Hu.
  assert (forall m, m ∈ l -> n_id m ∉ stack) as Hno.
  { intros m Hm Hs. apply (Hdone _ Hs). by apply list_elem_of_fmap_2. }
  remember (n_id n) as x eqn:Hx. revert n Hn Hx.
  induction Hu as [x|x p root Hxp Hpr IH]; intros n Hn ->.
  - apply (Hno n Hn), Hroot. by apply list_elem_of_fmap_2.
  - destruct Hxp as (n' & Hn' & Hid & Hpar).
    assert (n' = n) as -> by (eapply node_unique; [done..|by eapply elem_of_sublist|done]).
    assert (p ∈ map n_id (nodes t)) as Hin.
    { destruct Hpr as [|? ? ? Hpp]; [done|by eapply par_elem]. }
    rewrite <- Hp, map_app in Hin. apply elem_of_app in Hin as [Hin|Hin].
    + apply (Hno n Hn). by eapply Hc.
    + apply list_elem_of_fmap in Hin as (m & -> & Hm). by eapply IH.
Qed.

Lemma remove_loop_spec t root : forall rounds l stack removed l' removed',
  forest t -> root ∈ map n_id (nodes t) -> removing t root l stack removed ->
  (length l <= rounds)%nat -> remove_loop rounds l stack removed = (l', removed') ->
  l' `sublist_of` nodes t /\ removed' ++ l' ≡ₚ nodes t /\
  (forall n, n ∈ removed' -> under t (n_id n) root) /\
  (forall n, n ∈ l' -> ~ under t (n_id n) root).
Proof.
  induction rounds as [|rounds IH]; intros l stack removed l' removed' Hf Hr Hrm Hlen; simpl.
  - intros [= <- <-]. split_and!; [apply Hrm..|]. destruct l; [|simpl in Hlen; lia].
    by intros n ?%elem_of_nil.
  - destruct (pop_node l stack) as [[[n l1] stack1]|] eqn:Hpop.
    + intros Hl. pose proof (removing_step _ _ _ _ _ _ _ _ Hf Hrm Hpop) as Hrm'.
      eapply (IH _ _ _ _ _ Hf Hr Hrm'); [|exact Hl].
      apply pop_node_Some in Hpop as (Hp & _). apply Permutation_length in Hp. simpl in Hp. lia.
    + intros [= <- <-]. split_and!; [apply Hrm..|].
      eapply removing_done; [done|done|by apply pop_node_None|done].
Qed.

Lemma remove_node_sub t id : nodes (remove_node t id).1 `sublist_of` nodes t.
Proof.
  unfold remove_node. destruct (remove_loop _ _ _ _) as [l' removed'] eqn:Hl. simpl.
  revert Hl. generalize (length (nodes t)) as r, [id] as st, (@nil ConnectionTreeNode) as rem.
  intros r. generalize (nodes t) as l. induction r as [|r IH]; intros l st rem; simpl.
  { by intros [= <- <-]. }
  destruct (pop_node l st) as [[[n l1] st1]|] eqn:Hp; [|by intros [= <- <-]].
  intros Hl%IH. apply pop_node_Some in Hp as (_ & ? & _). by trans l1.
Qed.

(** Removing a node of a forest takes away the node and everything below
    it, and nothing else; what is left keeps its order, and the removed nodes
    are returned. *)
Theorem remove_node_takes_the_subtree t n :
  forest t -> n ∈ nodes t ->
  let '(t', removed) := remove_node t (n_id n) in
  nodes t' `sublist_of` nodes t /\ removed ++ nodes t' ≡ₚ nodes t /\
  forall m, m ∈ nodes t -> (m ∈ removed <-> under t (n_id m) (n_id n)).
Proof.
  intros Hf Hn. unfold remove_node.
  destruct (remove_loop _ _ _ _) as [l' removed] eqn:Hl.
  eapply (remove_loop_spec t (n_id n)) in Hl as (Hs & Hp & Hrem & Hkeep); [|done|..|done].
  - split_and!; [done..|]. intros m Hm. split; [apply Hrem|]. intros Hu.
    rewrite <- Hp in Hm. apply elem_of_app in Hm as [?|Hm]; [done|]. by apply Hkeep in Hm.
  - by apply list_elem_of_fmap_2.
  - split; [done|done|..].
    + intros id ->%list_elem_of_singleton. constructor.
    + by intros m ?%elem_of_nil.
    + by intros m p _ _ ?%elem_of_nil.
    + intros _. by apply list_elem_of_singleton.
Qed.

(** In a forest the test for cycles ends, with as many rounds as there are
    nodes and one more, and it says whether the new parent is the node or stands
    below it. *)
Theorem would_create_cycle_decides t node new_parent fuel :
  forest t -> (length (nodes t) < fuel)%nat ->
  exists b, would_create_cycle fuel t node new_parent = Some b /\
    (b = true <-> exists p, new_parent = Some p /\ under t p node).
Proof. apply cycle_test. Qed.

End Forest.

(** ** A tree *)

Definition demo_work : ConnectionTreeNode := mkNode "W" Folder None 1000 "Work" None false.
Definition demo_conn : ConnectionTreeNode := mkNode "C" ConnectionRef None 2000 "" (Some "pc") false.
Definition demo_tree : ConnectionTree := mkTree
  [demo_work;
   mkNode "A" ConnectionRef (Some "W") 1000 "" (Some "pa") false;
   mkNode "B" ConnectionRef (Some "W") 2000 "" (Some "pb") false;
   demo_conn] 1.

Lemma demo_forest : forest demo_tree.
Proof.
  split.
  - apply (bool_decide_eq_true_1 (NoDup _)). vm_compute. reflexivity.
  - apply (acyclic_ranked (nodes demo_tree) (fun u : string => if bool_decide (u = "W") then 0%nat else 1%nat)).
    repeat (apply Forall_cons_2; [vm_compute; lia|]). apply Forall_nil_2.
Qed.

Lemma remove_node_takes_the_subtree_witness :
  let '(t', removed) := remove_node demo_tree "W" in
  nodes t' `sublist_of` nodes demo_tree /\ removed ++ nodes t' ≡ₚ nodes demo_tree /\
  forall m, m ∈ nodes demo_tree -> (m ∈ removed <-> under demo_tree (n_id m) "W").
Proof.
  apply (remove_node_takes_the_subtree demo_tree demo_work demo_forest).
  left.
Defined.

Lemma would_create_cycle_decides_witness :
  exists b, would_create_cycle 5 demo_tree "W" (Some "A") = Some b /\
    (b = true <-> exists p, Some "A" = Some p /\ under demo_tree p "W").
Proof. apply (would_create_cycle_decides demo_tree "W" (Some "A") 5 demo_forest). vm_compute. lia. Defined.

(** ** The order of siblings in the connection tree

    Siblings are shown by their sort index, ties in the order of the node list.
    A node moved to a parent comes last there; a node moved after a sibling
    comes right after it, as long as the sort indices leave room. *)

Import ConnTree.

(** ** Stable sorting by an integer key *)

Section Sorting.
Context {A : Type} (key : A -> Z).

Definition key_le (x y : A) : bool := key x <=? key y.

Definition sorted (l : list A) : Prop := StronglySorted (fun x y => key x <= key y) l.

Lemma insert_sorted x l : sorted l -> sorted (insert_with key_le x l).
Proof.
  unfold sorted. induction 1 as [|y l Hs IH Hy]; simpl; [repeat constructor|].
  unfold key_le at 1. destruct (Z.leb_spec (key x) (key y)).
  - constructor; [by constructor|]. constructor; [done|].
    eapply Forall_impl; [exact Hy|]. simpl. lia.
  - constructor; [done|]. rewrite (insert_with_perm key_le x l). constructor; [lia|done].
Qed.

Lemma sort_sorted l : sorted (sort_with key_le l).
Proof. induction l; simpl; [constructor|by apply insert_sorted]. Qed.

Lemma insert_here x l : Forall (fun y => key x <= key y) l -> insert_with key_le x l = x :: l.
Proof.
  destruct l as [|y l]; [done|]. intros [Hy _]%Forall_cons. simpl. unfold key_le.
  by rewrite (proj2 (Z.leb_le _ _) Hy).
Qed.

(** Dropping elements and sorting commute. *)
Lemma filter_insert p x l :
  sorted l ->
  List.filter p (insert_with key_le x l) =
  if p x then insert_with key_le x (List.filter p l) else List.filter p l.
Proof.
  induction 1 as [|y l Hs IH Hy]; simpl; [by destruct (p x)|].
  unfold key_le at 1. destruct (Z.leb_spec (key x) (key y)) as [Hle|Hlt].
  - simpl. destruct (p x); [|done]. symmetry. apply insert_here.
    assert (Forall (fun z => key x <= key z) (y :: l)) as Hall.
    { constructor; [done|]. eapply Forall_impl; [exact Hy|]. simpl. lia. }
    destruct (p y); [constructor; [done|]|]; apply Forall_forall; intros z [Hz _]%filter_elem;
      rewrite Forall_forall in Hall; apply Hall; by right.
  - simpl. rewrite IH. destruct (p y), (p x); simpl; try done.
    unfold key_le at 2. by rewrite (proj2 (Z.leb_gt _ _) Hlt).
Qed.

Lemma filter_sort p l : List.filter p (sort_with key_le l) = sort_with key_le (List.filter p l).
Proof.
  induction l as [|x l IH]; simpl; [done|]. rewrite filter_insert by apply sort_sorted.
  rewrite IH. by destruct (p x).
Qed.

(** Inserting below and above the place of [x]. *)
Lemma insert_below y l x r :
  key y <= key x -> insert_with key_le y (l ++ x :: r) = insert_with key_le y l ++ x :: r.
Proof.
  intros Hy. induction l as [|z l IH]; simpl.
  - unfold key_le. by rewrite (proj2 (Z.leb_le _ _) Hy).
  - destruct (key_le y z); [done|]. by rewrite IH.
Qed.

Lemma insert_above y l x r :
  key x < key y -> Forall (fun z => key z < key y) l ->
  insert_with key_le y (l ++ x :: r) = l ++ x :: insert_with key_le y r.
Proof.
  intros Hy. induction 1 as [|z l Hz _ IH]; simpl; unfold key_le at 1.
  - by rewrite (proj2 (Z.leb_gt _ _) Hy).
  - by rewrite (proj2 (Z.leb_gt _ _) Hz), IH.
Qed.

(** A key no other element has splits the sorted list. *)
Definition below (k : Z) : A -> bool := fun y => key y <? k.
Definition above (k : Z) : A -> bool := fun y => k <? key y.

Lemma insert_split x s :
  sorted s -> Forall (fun y => key y <> key x) s ->
  insert_with key_le x s = List.filter (below (key x)) s ++ x :: List.filter (above (key x)) s.
Proof.
  induction 1 as [|y s Hs IH Hy]; intros Hne; simpl; [done|].
  apply Forall_cons in Hne as [Hyx Hne]. unfold key_le at 1, below at 1, above at 1.
  destruct (Z.leb_spec (key x) (key y)), (Z.ltb_spec (key y) (key x)), (Z.ltb_spec (key x) (key y));
    try lia; simpl; [|by rewrite IH].
  assert (List.filter (below (key x)) s = [] /\ List.filter (above (key x)) s = s) as [-> ->]; [|done].
  clear IH Hs Hne. induction Hy as [|z s Hz _ [IH1 IH2]]; simpl; [done|].
  unfold below at 1, above at 1.
  rewrite (proj2 (Z.ltb_ge _ _)), (proj2 (Z.ltb_lt _ _)) by lia. by rewrite IH1, IH2.
Qed.

Lemma sort_split x l1 l2 :
  Forall (fun y => key y <> key x) (l1 ++ l2) ->
  sort_with key_le (l1 ++ x :: l2) =
  sort_with key_le (List.filter (below (key x)) (l1 ++ l2)) ++
  x :: sort_with key_le (List.filter (above (key x)) (l1 ++ l2)).
Proof.
  assert (forall k l, Forall (fun z => key z < k) (sort_with key_le (List.filter (below k) l))) as Hlo.
  { intros k l. rewrite sort_with_perm. apply Forall_forall. intros z [_ Hz]%filter_elem.
    unfold below in Hz. lia. }
  induction l1 as [|y l1 IH]; simpl.
  - intros Hne. rewrite insert_split, !filter_sort; [done|apply sort_sorted|].
    by rewrite sort_with_perm.
  - intros [Hy Hl]%Forall_cons. rewrite (IH Hl). unfold below at 2, above at 2.
    destruct (Z.ltb_spec (key y) (key x)), (Z.ltb_spec (key x) (key y)); try lia; simpl.
    + apply insert_below. lia.
    + apply insert_above; [done|]. eapply Forall_impl; [apply Hlo|]. simpl. lia.
Qed.

(** Around an element of a sorted list. *)
Lemma sorted_around pre m post :
  sorted (pre ++ m :: post) ->
  Forall (fun x => key x <= key m) (pre ++ [m]) /\
  Forall (fun x => match post with [] => True | next :: _ => key next <= key x end) post.
Proof.
  unfold sorted. induction pre as [|y pre IH]; simpl; intros Hs.
  - inversion Hs as [|? ? Hs' Hm]; subst. split; [repeat constructor; lia|].
    inversion Hs'; subst; constructor; [lia|done].
  - inversion Hs as [|? ? Hs' Hy]; subst. destruct (IH Hs') as [? ?]. split; [|done].
    constructor; [|done]. apply Forall_app in Hy as [_ [Hy _]%Forall_cons]. done.
Qed.

End Sorting.

(** ** Siblings *)

Section Order.
Context `{UuidLib}.

(** The siblings under a parent as they are shown, and those but one node. *)
Definition siblings (t : ConnectionTree) (p : option Uuid) : list ConnectionTreeNode :=
  sort_with (key_le n_sort_index) (siblings_under t p).
Definition siblings_but (t : ConnectionTree) (node : Uuid) (p : option Uuid)
  : list ConnectionTreeNode :=
  List.filter (fun m => negb (bool_decide (n_id m = node))) (siblings t p).

Lemma update_first_split node f pre n post :
  n_id n = node -> node ∉ map n_id pre -> update_first node f (pre ++ n :: post) = pre ++ f n :: post.
Proof.
  intros Hn. induction pre as [|m pre IH]; simpl.
  - intros _. by rewrite bool_decide_true.
  - intros [Hm Hp]%not_elem_of_cons. rewrite bool_decide_false by done. by rewrite IH.
Qed.

Lemma filter_id {A} (p : A -> bool) l : Forall (fun x => p x = true) l -> List.filter p l = l.
Proof. induction 1 as [|x l Hx _ IH]; simpl; [done|]. by rewrite Hx, IH. Qed.

Lemma filter_none {A} (p : A -> bool) l : Forall (fun x => p x = false) l -> List.filter p l = [].
Proof. induction 1 as [|x l Hx _ IH]; simpl; [done|]. by rewrite Hx, IH. Qed.

(** A placed node splits the others by their sort indices. *)
Lemma placed_siblings t node p k t' :
  forest t -> place t node p k = (t', true) ->
  Forall (fun m => n_sort_index m <> k) (siblings_but t node p) ->
  exists n, find_by_id t node = Some n /\
    siblings t' p = List.filter (below n_sort_index k) (siblings_but t node p) ++
      set_place p k n :: List.filter (above n_sort_index k) (siblings_but t node p).
Proof.
  intros [Hnd _] Hp Hk. unfold place in Hp.
  destruct (find_by_id t node) as [n|] eqn:Hf; [|done]. injection Hp as <-. exists n. split; [done|].
  apply find_by_id_Some in Hf as [Hin Hid]. apply list_elem_of_split in Hin as (A & B & Hn).
  assert (forall m, m ∈ A ++ B -> n_id m <> node) as Hne.
  { rewrite Hn, map_app, map_cons, <- Permutation_middle, <- map_app in Hnd.
    apply NoDup_cons in Hnd as [Hnd _]. intros m Hm Heq. apply Hnd. rewrite Hid, <- Heq.
    by apply list_elem_of_fmap_2. }
  set (q := fun m => bool_decide (n_parent_id m = p)).
  assert (siblings_but t node p = sort_with (key_le n_sort_index) (List.filter q (A ++ B))) as Hb.
  { unfold siblings_but, siblings, siblings_under. rewrite filter_sort, Hn. fold q. f_equal.
    rewrite !List.filter_app. simpl.
    assert (forall l, (forall m, m ∈ l -> n_id m <> node) ->
      List.filter (fun m => negb (bool_decide (n_id m = node))) (List.filter q l) = List.filter q l) as He.
    { intros l Hl. apply filter_id, Forall_forall. intros m [Hm _]%filter_elem.
      rewrite bool_decide_false; [done|by apply Hl]. }
    rewrite He by (intros; apply Hne, elem_of_app; auto).
    destruct (q n); simpl; [rewrite bool_decide_true by done; simpl|];
      by rewrite He by (intros; apply Hne, elem_of_app; auto). }
  unfold siblings, siblings_under. simpl.
  rewrite Hn, update_first_split; [|done|].
  2:{ intros (m & Heq & Hm)%list_elem_of_fmap. apply (Hne m); [apply elem_of_app; by left|done]. }
  rewrite List.filter_app. simpl. fold q. rewrite bool_decide_true by done.
  rewrite Hb in Hk |- *. rewrite List.filter_app in Hk |- *. rewrite sort_split; simpl.
  - by rewrite !filter_sort.
  - by rewrite sort_with_perm in Hk.
Qed.

Lemma max_index_from l : forall a, exists m,
  foldl (fun m x => Some (match m with Some y => Z.max y x | None => x end)) (Some a) l = Some m /\
  (m = a \/ m ∈ l) /\ a <= m /\ Forall (fun x => x <= m) l.
Proof.
  induction l as [|x l IH]; intros a; simpl.
  { exists a. split_and!; [done|by left|lia|constructor]. }
  destruct (IH (Z.max a x)) as (m & -> & Hm & Hle & Hall). exists m. split_and!; [done| |lia|].
  - destruct Hm as [->|?]; [|right; by right]. destruct (Z.max_dec a x) as [->| ->]; [by left|right; left].
  - constructor; [lia|done].
Qed.

(** The next sort index is greater than those of the siblings. *)
Lemma next_sort_index_above t p :
  Forall (fun m => in_i32 (n_sort_index m + SORT_INDEX_GAP)) (siblings_under t p) ->
  Forall (fun m => n_sort_index m < next_sort_index t p) (siblings_under t p).
Proof.
  unfold next_sort_index. destruct (siblings_under t p) as [|n l]; [constructor|].
  unfold max_index. simpl. destruct (max_index_from (map n_sort_index l) (n_sort_index n))
    as (m & -> & Hm & Hle & Hall). intros Hov. simpl.
  assert (exists k, k ∈ n :: l /\ m = n_sort_index k) as (k & Hk & ->).
  { destruct Hm as [->|(k & -> & Hk)%list_elem_of_fmap]; [exists n; split; [left|done]|].
    exists k. split; [by right|done]. }
  rewrite Forall_forall in Hov. rewrite (i32_wrap_id _ (Hov _ Hk)).
  rewrite Forall_map in Hall. unfold SORT_INDEX_GAP. constructor; [lia|].
  eapply Forall_impl; [exact Hall|]. simpl. lia.
Qed.

Lemma siblings_but_sub t node p : forall m, m ∈ siblings_but t node p -> m ∈ siblings_under t p.
Proof.
  intros m [Hm _]%filter_elem. unfold siblings in Hm. by rewrite sort_with_perm in Hm.
Qed.

(** A node moved to another parent comes last among the nodes there, and
    the others keep their order, as long as their sort indices leave room
    below the largest 32-bit integer. *)
Theorem moved_node_comes_last fuel t node p t' :
  forest t -> move_node fuel t node p = Some (t', true) ->
  Forall (fun m => in_i32 (n_sort_index m + SORT_INDEX_GAP)) (siblings_under t p) ->
  exists n, find_by_id t node = Some n /\
    siblings t' p = siblings_but t node p ++ [set_place p (next_sort_index t p) n].
Proof.
  intros Hf Hm Hov%next_sort_index_above.
  assert (place t node p (next_sort_index t p) = (t', true)) as Hp.
  { unfold move_node in Hm. repeat case_match; [done|..];
      apply bind_Some in Hm as ([] & _ & Hm); congruence. }
  assert (Forall (fun m => n_sort_index m < next_sort_index t p) (siblings_but t node p)) as Hall.
  { apply Forall_forall. intros m ?%siblings_but_sub. rewrite Forall_forall in Hov. by apply Hov. }
  destruct (placed_siblings t node p _ t' Hf Hp) as (n & Hn & ->).
  { eapply Forall_impl; [exact Hall|]. simpl. lia. }
  exists n. split; [done|]. rewrite filter_id, filter_none; [done|..];
    (eapply Forall_impl; [exact Hall|]); unfold above, below; simpl; lia.
Qed.

(** Room for a sort index right after [m], which [post] follows. *)
Definition room_after (m : ConnectionTreeNode) (post : list ConnectionTreeNode) : Prop :=
  match post with
  | [] => in_i32 (n_sort_index m + SORT_INDEX_GAP)
  | next :: _ => n_sort_index m + 2 <= n_sort_index next /\
      in_i32 (n_sort_index m + n_sort_index next)
  end.

(** The sort index computed for the place after [m] separates the siblings. *)
Lemma between_separates t p a k pre m post :
  sort_index_between t p (Some a) = Some k -> siblings t p = pre ++ m :: post -> n_id m = a ->
  NoDup (map n_id (nodes t)) -> room_after m post ->
  Forall (fun x => n_sort_index x < k) (pre ++ [m]) /\ Forall (fun x => k < n_sort_index x) post.
Proof.
  intros Hk Hs Hm Hnd Hroom.
  assert (match p with Some pid => children_of t pid | None => root_nodes t end = siblings t p) as Hsib
    by (by destruct p).
  unfold sort_index_between in Hk. rewrite Hsib, Hs in Hk. apply bind_Some in Hk as ([pos x] & Hx & Hk).
  assert (pos = length pre /\ x = m) as [-> ->].
  { apply list_find_Some in Hx as (Hx & Hid & _). rewrite <- Hs in Hx.
    assert (siblings t p !! length pre = Some m) as Hmid by (rewrite Hs; by apply list_lookup_middle).
    assert (NoDup (n_id <$> siblings t p)) as Hnds.
    { unfold siblings. rewrite sort_with_perm. eapply sublist_NoDup; [exact Hnd|].
      apply (fmap_sublist n_id), filter_sublist. }
    assert (pos = length pre) as ->; [|naive_solver].
    eapply (NoDup_lookup (n_id <$> siblings t p) _ _ a Hnds); rewrite list_lookup_fmap;
      [rewrite Hx|rewrite Hmid]; simpl; congruence. }
  pose proof (sort_sorted n_sort_index (siblings_under t p)) as Hsorted.
  fold (siblings t p) in Hsorted. rewrite Hs in Hsorted.
  apply sorted_around in Hsorted as [Hpre Hpost].
  assert (n_sort_index m < k /\ match post with [] => True | nx :: _ => k < n_sort_index nx end) as [Hmk Hkn].
  { injection Hk as <-. rewrite lookup_app_r by lia.
    replace (S (length pre) - length pre)%nat with 1%nat by lia. simpl.
    destruct post as [|nx post]; simpl in *; [rewrite i32_wrap_id by done; unfold SORT_INDEX_GAP; lia|].
    destruct Hroom as [Hgap Hin]. rewrite i32_wrap_id by done.
    Z.to_euclidean_division_equations. lia. }
  split; [eapply Forall_impl; [exact Hpre|]; simpl; lia|].
  destruct post as [|nx post]; [constructor|]. eapply Forall_impl; [exact Hpost|]. simpl. lia.
Qed.

(** A node moved after a sibling comes right after it, and the others keep
    their order, as long as there is room between the sort indices of the sibling
    and the next one. *)
Theorem moved_node_follows_its_sibling fuel t node p a t' pre m post :
  forest t -> move_node_to_position fuel t node p (Some a) = Some (t', true) ->
  siblings t p = pre ++ m :: post -> n_id m = a -> room_after m post ->
  exists x, n_id x = node /\
    siblings t' p =
      List.filter (fun x => negb (bool_decide (n_id x = node))) pre ++ m :: x ::
      List.filter (fun x => negb (bool_decide (n_id x = node))) post.
Proof.
  intros Hf Hmv Hs Hm Hroom. unfold move_node_to_position in Hmv.
  apply bind_Some in Hmv as ([] & _ & Hmv); [congruence|].
  case_bool_decide as Hself; [congruence|].
  destruct (sort_index_between t p (Some a)) as [k|] eqn:Hk; [|congruence]. injection Hmv as Hmv.
  destruct (between_separates t p a k pre m post Hk Hs Hm (proj1 Hf) Hroom) as [Hlo Hhi].
  set (q := fun x => negb (bool_decide (n_id x = node))) in *.
  assert (siblings_but t node p = List.filter q (pre ++ [m]) ++ List.filter q post) as Hb.
  { unfold siblings_but. rewrite Hs. fold q.
    by rewrite <- List.filter_app, <- app_assoc. }
  assert (Forall (fun x => n_sort_index x < k) (List.filter q (pre ++ [m])) /\
          Forall (fun x => k < n_sort_index x) (List.filter q post)) as [Hlo' Hhi'].
  { rewrite !Forall_forall in *. split; intros x [Hx _]%filter_elem; auto. }
  destruct (placed_siblings t node p k t' Hf Hmv) as (n & Hn & Hsib).
  { rewrite Hb. apply Forall_app. split; (eapply Forall_impl; [eassumption|]); simpl; lia. }
  exists (set_place p k n). split; [by apply find_by_id_Some in Hn as [_ ?]|].
  rewrite Hsib, Hb, !(List.filter_app _ (List.filter q (pre ++ [m]))).
  rewrite (filter_id (below n_sort_index k)), (filter_none (below n_sort_index k) (List.filter q post)),
    (filter_none (above n_sort_index k) (List.filter q (pre ++ [m]))), (filter_id (above n_sort_index k)).
  2-5: eapply Forall_impl; [eassumption|]; unfold below, above; simpl; lia.
  rewrite List.filter_app. simpl. unfold q at 2. rewrite bool_decide_false by congruence. simpl.
  by rewrite app_nil_r, <- app_assoc.
Qed.

End Order.

(** The tree after moving a node to the root, and after moving it behind another. *)
Definition demo_moved : ConnectionTree :=
  with_nodes demo_tree (update_first "A" (set_place None 3000) (nodes demo_tree)).
Definition demo_placed : ConnectionTree :=
  with_nodes demo_tree (update_first "A" (set_place None 1500) (nodes demo_tree)).

Lemma moved_node_comes_last_witness :
  exists n, find_by_id demo_tree "A" = Some n /\
    siblings demo_moved None = siblings_but demo_tree "A" None ++ [set_place None 3000 n].
Proof.
  apply (moved_node_comes_last 5 demo_tree "A" None demo_moved demo_forest); [vm_compute; reflexivity|].
  repeat (apply Forall_cons_2; [vm_compute; split; congruence|]). apply Forall_nil_2.
Defined.

Lemma moved_node_follows_its_sibling_witness :
  exists x, n_id x = "A" /\
    siblings demo_placed None =
    [demo_work; x; demo_conn].
Proof.
  apply (moved_node_follows_its_sibling 5 demo_tree "A" None "W" demo_placed []
           demo_work [demo_conn] demo_forest);
    try (vm_compute; reflexivity).
  vm_compute. repeat split; congruence.
Defined.

(** Without room the place is missed: behind [A], whose sort index is one less
    than the next, [X] gets the sort index of [A] and comes before it when it
    stands before it in the list of nodes. *)
Example crowded_place_is_missed :
  let t := mkTree [mkNode "X" ConnectionRef None 5000 "" (Some "px") false;
                   mkNode "A" ConnectionRef None 1000 "" (Some "pa") false;
                   mkNode "B" ConnectionRef None 1001 "" (Some "pb") false] 1 in
  match move_node_to_position 4 t "X" None (Some "A") with
  | Some (t', true) => map n_id (siblings t' None) = ["X"; "A"; "B"]
  | _ => False
  end.
Proof. vm_compute. reflexivity. Qed.
