(* ===== verification/TreeManager.v ===== *)
(** * The connection tree manager (crates/dbflux_core: connection/tree_manager.rs)

    The manager owns the tree and writes it to a store after every change.  The
    store is a trait of the source; it appears here as a class.  [World] gives
    the identifiers of new nodes.  The second half has the runs of the manager: the
    tree stays a forest, and what was changed is saved. *)

From S2P Require Import Prelude RustStr External Concrete ConnTree ConnTreeProps.

Import ConnTree.

Inductive TreeLoadState : Type := Loaded | Recovered | Failed.

Record TreeLoadResult `{UuidLib} := mkLoaded {
  loaded_tree : ConnectionTree;
  recovered_from_error : bool;
}.

(** The trait [TreeStore]: [save] changes what the store holds, whether or not it
    reports an error. *)
Class TreeStore `{UuidLib} := {
  Store : Type;
  store_load : Store -> result TreeLoadResult string;
  store_save : Store -> ConnectionTree -> Store * result unit string;
}.

Section Manager.
Context `{UuidLib} `{!TreeStore}.

Record ConnectionTreeManager := mkManager {
  tree : ConnectionTree;
  store : option Store;
  load_state : TreeLoadState;
}.

Definition manager_new : ConnectionTreeManager := mkManager tree_new None Loaded.

Definition with_store (s : Store) : ConnectionTreeManager :=
  match store_load s with
  | Ok r => mkManager (loaded_tree r) (Some s)
              (if recovered_from_error r then Recovered else Loaded)
  | Err _ => mkManager tree_new (Some s) Failed
  end.

(** [save]: errors are logged. *)
Definition save (m : ConnectionTreeManager) : ConnectionTreeManager :=
  mkManager (tree m) (fst ∘ (fun s => store_save s (tree m)) <$> store m) (load_state m).

Definition with_tree (m : ConnectionTreeManager) (t : ConnectionTree) : ConnectionTreeManager :=
  mkManager t (store m) (load_state m).

(** A changed tree, saved. *)
Definition keep (m : ConnectionTreeManager) (t : ConnectionTree) : ConnectionTreeManager :=
  save (with_tree m t).

Definition sync_profiles (w : World) (m : ConnectionTreeManager) (profile_ids : list Uuid)
  : World * ConnectionTreeManager :=
  let '(w', t) := sync_with_profiles w (tree m) profile_ids in
  (w', if Nat.eqb (length (nodes (tree m))) (length (nodes t)) then with_tree m t
       else match load_state m with
            | Recovered | Failed => with_tree m t
            | Loaded => keep m t
            end).

Definition add_profile_node (w : World) (m : ConnectionTreeManager) (profile_id : Uuid)
    (folder_id : option Uuid) : World * ConnectionTreeManager :=
  match find_by_profile (tree m) profile_id with
  | Some _ => (w, m)
  | None =>
      let '(w', id) := new_v4 w in
      (w', keep m (add_node (tree m)
             (new_connection_ref id profile_id folder_id (next_sort_index (tree m) folder_id))))
  end.

Definition remove_profile_node (m : ConnectionTreeManager) (profile_id : Uuid)
  : ConnectionTreeManager :=
  match find_by_profile (tree m) profile_id with
  | Some n => keep m (remove_node (tree m) (n_id n)).1
  | None => m
  end.

Definition create_folder (w : World) (m : ConnectionTreeManager) (name : string)
    (parent_id : option Uuid) : World * ConnectionTreeManager * Uuid :=
  let sort_index := next_sort_index (tree m) parent_id in
  let '(w', id) := new_v4 w in
  (w', keep m (add_node (tree m) (new_folder id name parent_id sort_index)), id).

Definition manager_rename_folder (m : ConnectionTreeManager) (folder_id : Uuid) (new_name : string)
  : ConnectionTreeManager * bool :=
  let '(t, done) := rename_folder (tree m) folder_id new_name in
  (if done : bool then keep m t else with_tree m t, done).

Definition delete_folder (m : ConnectionTreeManager) (folder_id : Uuid)
  : ConnectionTreeManager * list Uuid :=
  let '(t, moved) := delete_folder_and_reparent_children (tree m) folder_id in
  (if negb (bool_decide (moved = [])) || bool_decide (find_by_id t folder_id = None)
   then keep m t else with_tree m t, moved).

(** As many rounds as the tree has nodes and one more are enough to test for a
    cycle ([would_create_cycle_decides]). *)
Definition rounds (m : ConnectionTreeManager) : nat := S (length (nodes (tree m))).

Definition manager_move_node (m : ConnectionTreeManager) (node_id : Uuid)
    (new_parent_id : option Uuid) : option (ConnectionTreeManager * bool) :=
  '(t, done) ← move_node (rounds m) (tree m) node_id new_parent_id;
  Some (if done : bool then keep m t else with_tree m t, done).

Definition manager_move_node_to_position (m : ConnectionTreeManager) (node_id : Uuid)
    (new_parent_id after_id : option Uuid) : option (ConnectionTreeManager * bool) :=
  '(t, done) ← move_node_to_position (rounds m) (tree m) node_id new_parent_id after_id;
  Some (if done : bool then keep m t else with_tree m t, done).

Definition manager_toggle_folder_collapsed (m : ConnectionTreeManager) (folder_id : Uuid)
  : ConnectionTreeManager * option bool :=
  let '(t, r) := toggle_folder_collapsed (tree m) folder_id in
  (match r with Some _ => keep m t | None => with_tree m t end, r).

Definition manager_set_folder_collapsed (m : ConnectionTreeManager) (folder_id : Uuid)
    (collapsed : bool) : ConnectionTreeManager :=
  keep m (set_folder_collapsed (tree m) folder_id collapsed).

(** ** Runs *)

Inductive TreeOp : Type :=
| OpSync (profile_ids : list Uuid)
| OpAddProfile (profile_id : Uuid) (folder_id : option Uuid)
| OpRemoveProfile (profile_id : Uuid)
| OpCreateFolder (name : string) (parent_id : option Uuid)
| OpRenameFolder (folder_id : Uuid) (new_name : string)
| OpDeleteFolder (folder_id : Uuid)
| OpMove (node_id : Uuid) (new_parent_id : option Uuid)
| OpMoveTo (node_id : Uuid) (new_parent_id after_id : option Uuid)
| OpToggle (folder_id : Uuid)
| OpSetCollapsed (folder_id : Uuid) (collapsed : bool).

(** One call of the manager; [None] would be a call that does not return. *)
Definition run_op (s : World * ConnectionTreeManager) (op : TreeOp)
  : option (World * ConnectionTreeManager) :=
  let '(w, m) := s in
  match op with
  | OpSync ids => Some (sync_profiles w m ids)
  | OpAddProfile p f => Some (add_profile_node w m p f)
  | OpRemoveProfile p => Some (w, remove_profile_node m p)
  | OpCreateFolder name p => Some (create_folder w m name p).1
  | OpRenameFolder f name => Some (w, (manager_rename_folder m f name).1)
  | OpDeleteFolder f => Some (w, (delete_folder m f).1)
  | OpMove n p => r ← manager_move_node m n p; Some (w, r.1)
  | OpMoveTo n p a => r ← manager_move_node_to_position m n p a; Some (w, r.1)
  | OpToggle f => Some (w, (manager_toggle_folder_collapsed m f).1)
  | OpSetCollapsed f c => Some (w, manager_set_folder_collapsed m f c)
  end.

End Manager.

(** ** Runs of the connection tree manager

    Every call returns and keeps the tree a forest, and every change of the tree
    is written to the store, except what a synchronization changes after a
    degraded load or without changing the number of nodes. *)

Import ConnTree.

Section Runs.
Context `{UuidLib} `{!TreeStore}.

(** Identifiers that occur in a tree, and identifiers that are not still to be
    issued. *)
Definition mentions (t : ConnectionTree) (id : Uuid) : Prop :=
  exists n, n ∈ nodes t /\ (n_id n = id \/ n_parent_id n = Some id).
Definition issued_before (w : World) (id : Uuid) : Prop :=
  forall i, (issued w <= i)%nat -> uuids w i <> id.

(** The tree is a forest, and new identifiers are new to it. *)
Record tree_inv (w : World) (t : ConnectionTree) : Prop := {
  inv_forest : forest t;
  inv_known id : mentions t id -> issued_before w id;
  inv_fresh : uuids_fresh w;
}.

(** The identifiers a caller passes as parents are not still to be issued. *)
Definition op_ok (w : World) (op : TreeOp) : Prop :=
  match op with
  | OpAddProfile _ p | OpCreateFolder _ p | OpMove _ p | OpMoveTo _ p _ =>
      forall id, p = Some id -> issued_before w id
  | _ => True
  end.

Lemma issued_before_next w id :
  issued_before w id -> issued_before (new_v4 w).1 id.
Proof. intros Hi i Hle. apply Hi. simpl in Hle. lia. Qed.

Lemma new_id_issued w : uuids_fresh w -> issued_before (new_v4 w).1 (new_v4 w).2.
Proof. intros Hf i Hle Heq. apply Hf in Heq. simpl in Hle. lia. Qed.

Lemma new_id_not_issued w : ~ issued_before w (new_v4 w).2.
Proof. intros Hb. by apply (Hb (issued w)). Qed.

(** A tree whose identifiers all occur in an old one, or stand for a parent the
    caller passed. *)
Lemma tree_inv_sub w t t' p :
  tree_inv w t -> forest t' -> (forall id, p = Some id -> issued_before w id) ->
  (forall id, mentions t' id -> mentions t id \/ p = Some id) -> tree_inv w t'.
Proof. intros [Hf Hk Hu] Hf' Hp Hm. split; [done| |done]. intros id [?|?]%Hm; auto. Qed.

(** A new node under a parent the tree may not know. *)
Lemma tree_inv_add w t n :
  tree_inv w t -> n_id n = (new_v4 w).2 ->
  (forall id, n_parent_id n = Some id -> issued_before w id) ->
  tree_inv (new_v4 w).1 (add_node t n).
Proof.
  intros [Hf Hk Hu] Hid Hp. split; [| |exact Hu].
  - apply add_node_forest; [done|..].
    + intros m Hm. rewrite Hid. split; intros Heq; apply (new_id_not_issued w), Hk; exists m; auto.
    + rewrite Hid. intros Hpar. by eapply new_id_not_issued, Hp.
  - intros id (m & [Hm| ->]%elem_of_snoc & Hor).
    + apply issued_before_next, Hk. by exists m.
    + destruct Hor as [<-|Hpar]; [rewrite Hid; by apply new_id_issued|by apply issued_before_next, Hp].
Qed.

Lemma mentions_sublist t l id :
  l `sublist_of` nodes t -> mentions (with_nodes t l) id -> mentions t id.
Proof. intros Hs (n & Hn & Hor). exists n. split; [|done]. by eapply elem_of_sublist. Qed.

Lemma tree_inv_sublist w t l :
  tree_inv w t -> l `sublist_of` nodes t -> tree_inv w (with_nodes t l).
Proof.
  intros Hi Hs. apply (tree_inv_sub w t _ None Hi); [|done|].
  - eapply forest_sublist; [exact Hs|apply Hi].
  - intros id Hm. left. by eapply mentions_sublist.
Qed.

Lemma mentions_update t f x id p :
  (forall n, n_id (f n) = n_id n) ->
  (forall n, n_parent_id (f n) = n_parent_id n \/ n_parent_id (f n) = p) ->
  mentions (with_nodes t (update_first x f (nodes t))) id -> mentions t id \/ p = Some id.
Proof.
  intros Hid Hpar (n & Hn & Hor). simpl in Hn.
  assert (exists m, m ∈ nodes t /\ (n = m \/ n = f m)) as (m & Hm & Hnm).
  { revert Hn. generalize (nodes t) as l. induction l as [|y l IH]; simpl; [by intros ?%elem_of_nil|].
    case_bool_decide; intros [->|Hn]%elem_of_cons.
    - exists y. split; [left|by right].
    - exists n. split; [by right|by left].
    - exists y. split; [left|by left].
    - apply IH in Hn as (m & ? & ?). exists m. split; [by right|done]. }
  destruct Hnm as [->| ->].
  - left. exists m. auto.
  - rewrite Hid in Hor. destruct Hor as [<-|Hp]; [left; exists m; auto|].
    destruct (Hpar m) as [Heq|Heq]; rewrite Heq in Hp; [left; exists m; auto|by right].
Qed.

Lemma tree_inv_edit w t id f :
  (forall n, n_id (f n) = n_id n) -> (forall n, n_parent_id (f n) = n_parent_id n) ->
  tree_inv w t -> tree_inv w (edit_folder t id f).1.
Proof.
  intros Hid Hpar Hi. apply (tree_inv_sub w t _ None Hi); [apply edit_folder_forest; [done..|apply Hi]|done|].
  unfold edit_folder. intros x. repeat case_match; simpl; [|by left..].
  apply mentions_update; [done|]. intros n. left. apply Hpar.
Qed.

Lemma tree_inv_place w t id parent sort :
  tree_inv w t -> (forall p, parent = Some p -> issued_before w p /\ ~ under t p id) ->
  tree_inv w (place t id parent sort).1.
Proof.
  intros Hi Hp. apply (tree_inv_sub w t _ parent Hi).
  - apply place_forest; [apply Hi|naive_solver].
  - naive_solver.
  - intros x. unfold place. case_match; simpl; [|by left].
    apply mentions_update; [done|by right].
Qed.

Lemma tree_inv_delete w t id :
  tree_inv w t -> tree_inv w (delete_folder_and_reparent_children t id).1.
Proof.
  intros Hi. apply (tree_inv_sub w t _ None Hi); [apply delete_folder_forest, Hi|done|].
  intros x Hm. left. revert Hm. unfold delete_folder_and_reparent_children.
  destruct (find_by_id t id) as [folder|] eqn:Hfind; [|done]. destruct (is_folder folder); [|done].
  apply find_by_id_Some in Hfind as [Hin _].
  intros (n & [Hn _]%filter_elem & Hor). simpl in Hn.
  destruct Hor as [<-|Hp].
  - apply (list_elem_of_fmap_2 n_id) in Hn. rewrite reparent_ids in Hn.
    apply list_elem_of_fmap in Hn as (m & -> & Hm). exists m. auto.
  - destruct (reparent_par _ _ _ _ _ (n_id n) x (ex_intro _ n (conj Hn (conj eq_refl Hp))))
      as [(m & Hm & _ & Hpm)|[_ Hpf]]; [exists m; auto|exists folder; auto].
Qed.

Lemma tree_inv_missing l : forall w t,
  tree_inv w t -> tree_inv (foldl add_missing (w, t) l).1 (foldl add_missing (w, t) l).2.
Proof.
  induction l as [|p l IH]; intros w t Hi; simpl; [done|].
  destruct (find_by_profile t p); [by apply IH|]. apply IH.
  by apply (tree_inv_add w t (new_connection_ref (new_v4 w).2 p None (next_sort_index t None))).
Qed.

Lemma tree_inv_sync w t ids :
  tree_inv w t -> tree_inv (sync_with_profiles w t ids).1 (sync_with_profiles w t ids).2.
Proof. intros Hi. apply tree_inv_missing, tree_inv_sublist; [done|apply filter_sublist]. Qed.

(** Moving within a forest: the test for a cycle answers, and a node is placed
    only under a parent that does not stand below it. *)
Lemma tree_inv_move w t node p fuel (k : ConnectionTree * bool) :
  tree_inv w t -> (length (nodes t) < fuel)%nat -> (forall id, p = Some id -> issued_before w id) ->
  (k = (t, false) \/ exists sort, k = place t node p sort) ->
  exists r, (c ← would_create_cycle fuel t node p; if c : bool then Some (t, false) else Some k)
      = Some r /\ tree_inv w r.1.
Proof.
  intros Hi Hlen Hp Hk. pose proof (inv_forest _ _ Hi) as Hf.
  destruct (cycle_test t node p fuel Hf Hlen) as (b & -> & Hb). simpl.
  destruct b; [eexists; by split|]. exists k. split; [done|].
  destruct Hk as [->|[sort ->]]; [done|]. apply tree_inv_place; [done|].
  intros q ->. split; [by apply Hp|]. intros Hu.
  assert (false = true) by (apply Hb; by exists q). done.
Qed.

Lemma tree_inv_remove w t id : tree_inv w t -> tree_inv w (remove_node t id).1.
Proof.
  intros Hi. pose proof (remove_node_sub t id) as Hs.
  apply (tree_inv_sub w t _ None Hi); [eapply forest_sublist; [exact Hs|apply Hi]|done|].
  intros x (n & Hn & Hor). left. exists n. split; [by eapply elem_of_sublist|done].
Qed.

Lemma rename_tree t f name : (rename_folder t f name).1 = (edit_folder t f (set_name name)).1.
Proof. unfold rename_folder. by destruct (edit_folder _ _ _). Qed.

Lemma toggle_tree t f :
  (toggle_folder_collapsed t f).1 =
  (edit_folder t f (fun n => set_collapsed (negb (n_collapsed n)) n)).1.
Proof. unfold toggle_folder_collapsed. by destruct (edit_folder _ _ _). Qed.

(** The tree a move leaves, and that it returns. *)
Lemma tree_inv_move_node w t node p fuel :
  tree_inv w t -> (length (nodes t) < fuel)%nat -> (forall id, p = Some id -> issued_before w id) ->
  exists r, move_node fuel t node p = Some r /\ tree_inv w r.1.
Proof.
  intros Hi Hlen Hp. unfold move_node.
  destruct (find_by_id t node) as [n|]; [case_bool_decide; [by eexists|]|];
    (apply tree_inv_move; [done..|right; by eexists]).
Qed.

Lemma tree_inv_move_to w t node p a fuel :
  tree_inv w t -> (length (nodes t) < fuel)%nat -> (forall id, p = Some id -> issued_before w id) ->
  exists r, move_node_to_position fuel t node p a = Some r /\ tree_inv w r.1.
Proof.
  intros Hi Hlen Hp. unfold move_node_to_position.
  case_bool_decide.
  - apply (tree_inv_move w t node p fuel (t, false)); [done..|by left].
  - destruct (sort_index_between t p a) as [sort|].
    + apply tree_inv_move; [done..|right; by eexists].
    + apply (tree_inv_move w t node p fuel (t, false)); [done..|by left].
Qed.

(** C21: every call of the manager returns and keeps the tree a forest: its
    identifiers are distinct and no node is its own ancestor. *)
Theorem manager_keeps_a_forest w m op :
  tree_inv w (tree m) -> op_ok w op ->
  exists w' m', run_op (w, m) op = Some (w', m') /\ tree_inv w' (tree m').
Proof.
  intros Hi Hok. destruct op as [ids|p f|p|name p|f name|f|n p|n p a|f|f c]; simpl.
  - unfold sync_profiles. pose proof (tree_inv_sync w (tree m) ids Hi) as Hs.
    destruct (sync_with_profiles w (tree m) ids) as [w' t]. eexists _, _. split; [done|].
    by repeat case_match.
  - unfold add_profile_node. destruct (find_by_profile (tree m) p); eexists _, _; (split; [done|]); [done|].
    by apply (tree_inv_add w (tree m) (new_connection_ref _ p f (next_sort_index (tree m) f))).
  - eexists _, _. split; [done|]. unfold remove_profile_node. case_match; [|done].
    by apply tree_inv_remove.
  - eexists _, _. split; [done|]. by apply (tree_inv_add w (tree m) (new_folder _ name p _)).
  - eexists _, _. split; [done|]. unfold manager_rename_folder.
    assert (tree_inv w (rename_folder (tree m) f name).1) by (rewrite rename_tree; by apply tree_inv_edit).
    by destruct (rename_folder _ _ _) as [? []].
  - eexists _, _. split; [done|]. unfold delete_folder. pose proof (tree_inv_delete w (tree m) f Hi).
    destruct (delete_folder_and_reparent_children _ _) as [t moved]. simpl. by destruct (_ || _).
  - destruct (tree_inv_move_node w (tree m) n p (rounds m) Hi) as ([t b] & Hr & Ht); [unfold rounds; lia|done|].
    unfold manager_move_node. rewrite Hr. simpl. eexists _, _. split; [done|]. by destruct b.
  - destruct (tree_inv_move_to w (tree m) n p a (rounds m) Hi) as ([t b] & Hr & Ht); [unfold rounds; lia|done|].
    unfold manager_move_node_to_position. rewrite Hr. simpl. eexists _, _. split; [done|]. by destruct b.
  - eexists _, _. split; [done|]. unfold manager_toggle_folder_collapsed.
    assert (tree_inv w (toggle_folder_collapsed (tree m) f).1) by (rewrite toggle_tree; by apply tree_inv_edit).
    by destruct (toggle_folder_collapsed _ _) as [? []].
  - eexists _, _. split; [done|]. by apply tree_inv_edit.
Qed.

(** ** Saving *)

(** Nothing changed, or the store was asked to save the tree as it is now. *)
Definition in_store (m m' : ConnectionTreeManager) (s : Store) : Prop :=
  load_state m' = load_state m /\
  (tree m' = tree m /\ store m' = Some s \/ store m' = Some (store_save s (tree m')).1).

Lemma in_store_keep m s t : store m = Some s -> in_store m (keep m t) s.
Proof. intros Hs. split; [done|]. right. unfold keep, save. simpl. by rewrite Hs. Qed.

Lemma in_store_same m s t : store m = Some s -> t = tree m -> in_store m (with_tree m t) s.
Proof. intros Hs ->. split; [done|]. by left. Qed.

Lemma in_store_edit m s t f g (b : bool) (r : option ConnectionTreeNode) :
  store m = Some s -> edit_folder (tree m) f g = (t, r) -> (b = false -> r = None) ->
  in_store m (if b then keep m t else with_tree m t) s.
Proof.
  intros Hs He Hb. destruct b; [by apply in_store_keep|]. apply in_store_same; [done|].
  rewrite Hb in He by done. unfold edit_folder in He. repeat case_match; by simplify_eq.
Qed.

(** A placed node is reported. *)
Lemma place_false t node p sort t' : place t node p sort = (t', false) -> t' = t.
Proof. unfold place. case_match; congruence. Qed.

Lemma move_node_false fuel t node p t' : move_node fuel t node p = Some (t', false) -> t' = t.
Proof.
  unfold move_node. repeat case_match; [congruence|..];
    intros ([] & _ & Hr)%bind_Some; simplify_eq; eauto using place_false.
Qed.

Lemma move_to_false fuel t node p a t' :
  move_node_to_position fuel t node p a = Some (t', false) -> t' = t.
Proof.
  unfold move_node_to_position. intros ([] & _ & Hr)%bind_Some; [congruence|].
  repeat case_match; simplify_eq; eauto using place_false.
Qed.

Lemma delete_unsaved t f t' :
  delete_folder_and_reparent_children t f = (t', []) -> find_by_id t' f <> None -> t' = t.
Proof.
  unfold delete_folder_and_reparent_children. repeat case_match; [|congruence..].
  intros [= <- Hc]. intros Hn. exfalso. apply Hn. unfold find_by_id. simpl.
  destruct (List.find _ _) as [x|] eqn:Hx; [|done].
  apply find_some in Hx as [[_ Hne%negb_true_iff]%List.filter_In Hid]. congruence.
Qed.

(** A call either leaves the tree as it is or asks the store to save it as it
    is afterwards.  Only a synchronization may leave a changed tree unsaved: when
    the tree was not loaded cleanly, in which case it never saves, and when it
    leaves as many nodes as there were. *)
Theorem manager_saves_changes w m s op w' m' :
  store m = Some s -> run_op (w, m) op = Some (w', m') ->
  match op with
  | OpSync _ => (load_state m <> Loaded \/ length (nodes (tree m')) = length (nodes (tree m))) /\
      load_state m' = load_state m /\ store m' = Some s \/
      load_state m = Loaded /\ in_store m m' s
  | _ => in_store m m' s
  end.
Proof.
  intros Hs. destruct op as [ids|p f|p|name p|f name|f|n p|n p a|f|f c]; simpl.
  - unfold sync_profiles. destruct (sync_with_profiles w (tree m) ids) as [w1 t]. intros [= <- <-].
    destruct (Nat.eqb_spec (length (nodes (tree m))) (length (nodes t))); [left; simpl; auto|].
    destruct (load_state m) eqn:Hl; [right; split; [done|]; by apply in_store_keep|left; simpl; auto..].
  - unfold add_profile_node. case_match; intros [= <- <-]; [split; auto|by apply in_store_keep].
  - unfold remove_profile_node. intros [= <- <-]. case_match; [by apply in_store_keep|split; auto].
  - intros [= <- <-]. by apply in_store_keep.
  - unfold manager_rename_folder, rename_folder.
    destruct (edit_folder _ _ _) as [t r] eqn:He. intros [= <- <-].
    eapply (in_store_edit _ _ _ _ _ _ _ Hs He). by destruct r.
  - unfold delete_folder. destruct (delete_folder_and_reparent_children _ _) as [t moved] eqn:Hd.
    intros [= <- <-]. simpl. destruct (_ || _) eqn:Hb; [by apply in_store_keep|].
    apply orb_false_iff in Hb as [->%negb_false_iff%bool_decide_eq_true Hb%bool_decide_eq_false].
    apply in_store_same; [done|]. by eapply delete_unsaved.
  - intros ([m1 b] & ([t b'] & Hr & [= <- <-])%bind_Some & [= <- <-])%bind_Some. simpl.
    destruct b'; [by apply in_store_keep|]. apply in_store_same; [done|]. by eapply move_node_false.
  - intros ([m1 b] & ([t b'] & Hr & [= <- <-])%bind_Some & [= <- <-])%bind_Some. simpl.
    destruct b'; [by apply in_store_keep|]. apply in_store_same; [done|]. by eapply move_to_false.
  - unfold manager_toggle_folder_collapsed, toggle_folder_collapsed.
    destruct (edit_folder _ _ _) as [t r] eqn:He. intros [= <- <-].
    pose proof (in_store_edit m s t _ _ (match r with Some _ => true | None => false end) r Hs He) as Hk.
    destruct r; simpl in *; by apply Hk.
  - intros [= <- <-]. by apply in_store_keep.
Qed.

End Runs.

(** ** A store that keeps the last tree *)

#[local] Instance last_tree_store : TreeStore := {
  Store := ConnectionTree;
  store_load t := Ok (mkLoaded _ t false);
  store_save _ t := (t, Ok tt);
}.

Definition demo_manager : ConnectionTreeManager := with_store demo_tree.
Definition demo_move : TreeOp := OpMove "W" (Some "A").
Definition demo_delete : TreeOp := OpDeleteFolder "W".
Definition demo_profiles : list Uuid := ["pa"; "pb"; "pd"].

Lemma demo_inv : tree_inv plain_world (tree demo_manager).
Proof.
  split; [exact demo_forest| |exact plain_world_fresh].
  assert (forall id, id ∈ ["W"; "A"; "B"; "C"] -> issued_before plain_world id) as Hi.
  { intros id Hid i _. simpl. unfold nat_text.
    repeat (apply elem_of_cons in Hid as [->|Hid]; [by destruct (Pos.of_succ_nat (S i))|]).
    by apply elem_of_nil in Hid. }
  intros id (n & Hn & Hor). apply Hi. simpl in Hn.
  repeat (apply elem_of_cons in Hn as [->|Hn]; [simpl in Hor; set_solver|]).
  by apply elem_of_nil in Hn.
Qed.

Lemma manager_keeps_a_forest_witness :
  exists w' m', run_op (plain_world, demo_manager) demo_move = Some (w', m') /\
    tree_inv w' (tree m').
Proof.
  apply (manager_keeps_a_forest plain_world demo_manager demo_move demo_inv).
  intros id [= <-] i _. simpl. unfold nat_text. by destruct (Pos.of_succ_nat (S i)).
Defined.

Lemma manager_saves_changes_witness :
  in_store demo_manager (delete_folder demo_manager "W").1 demo_tree.
Proof.
  apply (manager_saves_changes plain_world demo_manager demo_tree demo_delete plain_world);
    reflexivity.
Defined.

(** A synchronization that drops one reference and adds another changes the tree
    and does not save it. *)
Example balanced_sync_is_not_saved :
  let m := (sync_profiles plain_world demo_manager demo_profiles).2 in
  find_by_profile (tree m) "pc" = None /\ is_Some (find_by_profile (tree m) "pd") /\
  store m = Some demo_tree.
Proof. vm_compute. split_and!; [reflexivity|eexists; reflexivity|reflexivity]. Qed.
