(* ===== verification/NodeId.v ===== *)
(** * Identifiers of the schema tree (crates/dbflux_core: schema/node_id)

    Every row of the sidebar has a text id that encodes its kind and its place:
    a tag and the fields of the row, joined with the pipe character.  This file
    holds the ids, their kinds, the printer ([Display], display.rs) and the
    parser ([FromStr], parse.rs), function by function. *)

From S2P Require Import Prelude RustStr External.

(** ** Texts with separators *)

Definition pipe : ascii := "|"%char.

(** [str::split_once] on a character. *)
Fixpoint cut_at (c : ascii) (s : string) : option (string * string) :=
  match s with
  | EmptyString => None
  | String a s' =>
      if Ascii.eqb a c then Some (EmptyString, s')
      else match cut_at c s' with
           | Some (x, y) => Some (String a x, y)
           | None => None
           end
  end.

(** [str::splitn(n, c)]: at most [n] pieces, the last one is the rest. *)
Fixpoint splitn (n : nat) (c : ascii) (s : string) : list string :=
  match n with
  | O => []
  | S O => [s]
  | S n' => match cut_at c s with
            | None => [s]
            | Some (x, y) => x :: splitn n' c y
            end
  end.

(** [write!(f, "{}|{}|...", ...)], and [join("|")] on slices of texts. *)
Definition piped (fields : list string) : string := String.concat "|" fields.

(** ** Kinds *)

Module SchemaNodeKind.

Inductive t : Type :=
| ConnectionFolder | Profile | DatabasesFolder | Database | EmptyDatabasesFolder | Loading
| Schema | TablesFolder | ViewsFolder | TypesFolder | TypesLoadingFolder | SchemaIndexesFolder
| SchemaIndexesLoadingFolder | SchemaForeignKeysFolder | SchemaForeignKeysLoadingFolder
| RoutinesFolder | RoutinesLoadingFolder | CollectionsFolder | MetricsFolder
| MetricNamespaceFolder | MetricLeaf | DashboardsFolder | DashboardItem
| RemoteDashboardsFolder | RemoteDashboardItem | SavedChartsFolder | SavedChartItem | Table
| View | Collection | CollectionChild | CollectionChildrenMore | CustomType | ColumnsFolder
| IndexesFolder | ForeignKeysFolder | ConstraintsFolder | StorageHintsFolder | Column | Index
| ForeignKey | Constraint | StorageHintItem | SchemaIndex | SchemaForeignKey | Routine
| DatabaseIndexesFolder | CollectionFieldsFolder | CollectionField | CollectionIndexesFolder
| CollectionIndex | EnumValue | BaseType | Placeholder | DependentsFolder | DependentItem
| ScriptsFolder | ScriptFile | ScriptsRoot | InstanceMetricsFolder | InstanceMetricLeaf
| InstanceInspectorsFolder | InstanceInspectorLeaf | InstanceOverviewLeaf | InstanceFolder
| Bucket | BucketsFolder | SecretStore | SecretPath.

#[global] Instance eq_dec : EqDecision t.
Proof. solve_decision. Defined.

Definition needs_click_handler (k : t) : bool :=
  match k with
  | Profile | DatabasesFolder | EmptyDatabasesFolder | Database | Table | View | Collection
  | CollectionChild | CollectionChildrenMore | ConnectionFolder | Schema | TablesFolder
  | ViewsFolder | TypesFolder | ColumnsFolder | IndexesFolder | ForeignKeysFolder
  | ConstraintsFolder | StorageHintsFolder | SchemaIndexesFolder | SchemaForeignKeysFolder
  | RoutinesFolder | CollectionsFolder | CollectionFieldsFolder | CustomType | ScriptsFolder
  | ScriptFile | ScriptsRoot | DependentsFolder | Routine | MetricsFolder
  | MetricNamespaceFolder | MetricLeaf | DashboardsFolder | DashboardItem
  | RemoteDashboardsFolder | RemoteDashboardItem | SavedChartsFolder | SavedChartItem
  | InstanceMetricsFolder | InstanceMetricLeaf | InstanceInspectorsFolder | InstanceFolder
  | InstanceInspectorLeaf | InstanceOverviewLeaf | Bucket | BucketsFolder | SecretStore
  | SecretPath => true
  | _ => false
  end.

Definition is_expandable_folder (k : t) : bool :=
  match k with
  | ConnectionFolder | DatabasesFolder | EmptyDatabasesFolder | Schema | TablesFolder
  | ViewsFolder | TypesFolder | ColumnsFolder | IndexesFolder | ForeignKeysFolder
  | ConstraintsFolder | StorageHintsFolder | SchemaIndexesFolder | SchemaForeignKeysFolder
  | RoutinesFolder | CollectionsFolder | CollectionFieldsFolder | Database | CustomType
  | ScriptsFolder | ScriptsRoot | DependentsFolder | MetricsFolder | MetricNamespaceFolder
  | DashboardsFolder | RemoteDashboardsFolder | SavedChartsFolder | InstanceMetricsFolder
  | InstanceInspectorsFolder | InstanceFolder | BucketsFolder | SecretStore | SecretPath => true
  | _ => false
  end.

Definition shows_pointer_cursor (k : t) : bool :=
  match k with
  | Profile | Database | ConnectionFolder | CollectionChild | CollectionChildrenMore
  | ScriptFile | Routine | MetricLeaf | DashboardItem | RemoteDashboardItem | SavedChartItem
  | InstanceMetricLeaf | InstanceInspectorLeaf | InstanceOverviewLeaf | Bucket | BucketsFolder
  | SecretStore | SecretPath => true
  | _ => false
  end.

End SchemaNodeKind.

(** ** Identifiers *)

Module SchemaNodeId.
Section Ids.
Context `{UuidLib}.

Inductive t : Type :=
| ConnectionFolder (node_id : Uuid)
| Profile (profile_id : Uuid)
| DatabasesFolder (profile_id : Uuid)
| Database (profile_id : Uuid) (name : string)
| EmptyDatabasesFolder (profile_id : Uuid)
| Loading (profile_id : Uuid) (database : string)
| Schema (profile_id : Uuid) (database : option string) (name : string)
| TablesFolder (profile_id : Uuid) (database : option string) (schema : string)
| ViewsFolder (profile_id : Uuid) (database : option string) (schema : string)
| TypesFolder (profile_id : Uuid) (database : string) (schema : string)
| TypesLoadingFolder (profile_id : Uuid) (database : string) (schema : string)
| SchemaIndexesFolder (profile_id : Uuid) (database : string) (schema : string)
| SchemaIndexesLoadingFolder (profile_id : Uuid) (database : string) (schema : string)
| SchemaForeignKeysFolder (profile_id : Uuid) (database : string) (schema : string)
| SchemaForeignKeysLoadingFolder (profile_id : Uuid) (database : string) (schema : string)
| RoutinesFolder (profile_id : Uuid) (database : string) (schema : string)
| RoutinesLoadingFolder (profile_id : Uuid) (database : string) (schema : string)
| CollectionsFolder (profile_id : Uuid) (database : string)
| MetricsFolder (profile_id : Uuid) (database : string)
| MetricNamespaceFolder (profile_id : Uuid) (database : string) (namespace : string)
| MetricLeaf (profile_id : Uuid) (database : string) (namespace : string) (metric_name : string)
| DashboardsFolder (profile_id : Uuid)
| DashboardItem (profile_id : Uuid) (dashboard_id : Uuid)
| RemoteDashboardsFolder (profile_id : Uuid)
| RemoteDashboardItem (profile_id : Uuid) (name : string)
| SavedChartsFolder (profile_id : Uuid)
| SavedChartItem (profile_id : Uuid) (chart_id : Uuid)
| Table (profile_id : Uuid) (database : option string) (schema : string) (name : string)
| View (profile_id : Uuid) (database : option string) (schema : string) (name : string)
| Collection (profile_id : Uuid) (database : string) (name : string)
| CollectionChild (profile_id : Uuid) (database : string) (collection : string) (child_id : string) (name : string)
| CollectionChildrenMore (profile_id : Uuid) (database : string) (collection : string)
| CustomType (profile_id : Uuid) (schema : string) (name : string)
| ColumnsFolder (profile_id : Uuid) (schema : string) (table : string)
| IndexesFolder (profile_id : Uuid) (schema : string) (table : string)
| ForeignKeysFolder (profile_id : Uuid) (schema : string) (table : string)
| ConstraintsFolder (profile_id : Uuid) (schema : string) (table : string)
| StorageHintsFolder (profile_id : Uuid) (schema : string) (table : string)
| Column (profile_id : Uuid) (table : string) (name : string)
| Index (profile_id : Uuid) (table : string) (name : string)
| ForeignKey (profile_id : Uuid) (table : string) (name : string)
| Constraint (profile_id : Uuid) (table : string) (name : string)
| StorageHintItem (profile_id : Uuid) (table : string) (name : string)
| SchemaIndex (profile_id : Uuid) (schema : string) (name : string)
| SchemaForeignKey (profile_id : Uuid) (schema : string) (name : string)
| Routine (profile_id : Uuid) (schema : string) (specific_name : string)
| DatabaseIndexesFolder (profile_id : Uuid) (database : string)
| CollectionFieldsFolder (profile_id : Uuid) (database : string) (collection : string)
| CollectionField (profile_id : Uuid) (collection : string) (name : string)
| CollectionIndexesFolder (profile_id : Uuid) (database : string) (collection : string)
| CollectionIndex (profile_id : Uuid) (collection : string) (name : string)
| EnumValue (profile_id : Uuid) (schema : string) (type_name : string) (value : string)
| BaseType (profile_id : Uuid) (schema : string) (type_name : string)
| Placeholder (profile_id : Uuid) (schema : string) (table : string)
| DependentsFolder (profile_id : Uuid) (schema : string) (table : string)
| DependentItem (profile_id : Uuid) (schema : string) (table : string) (name : string)
| ScriptsFolder (path : option string)
| ScriptFile (path : string)
| ScriptsRoot (path : string)
| InstanceMetricsFolder (profile_id : Uuid)
| InstanceMetricLeaf (profile_id : Uuid) (metric_id : string)
| InstanceInspectorsFolder (profile_id : Uuid)
| InstanceInspectorLeaf (profile_id : Uuid) (metric_id : string)
| InstanceFolder (profile_id : Uuid)
| InstanceOverviewLeaf (profile_id : Uuid)
| Bucket (profile_id : Uuid) (name : string)
| BucketsFolder (profile_id : Uuid)
| SecretStore (profile_id : Uuid) (store_id : string)
| SecretPath (profile_id : Uuid) (store_id : string) (path : string).

Definition kind (id : t) : SchemaNodeKind.t :=
  match id with
  | ConnectionFolder _ => SchemaNodeKind.ConnectionFolder
  | Profile _ => SchemaNodeKind.Profile
  | DatabasesFolder _ => SchemaNodeKind.DatabasesFolder
  | Database _ _ => SchemaNodeKind.Database
  | EmptyDatabasesFolder _ => SchemaNodeKind.EmptyDatabasesFolder
  | Loading _ _ => SchemaNodeKind.Loading
  | Schema _ _ _ => SchemaNodeKind.Schema
  | TablesFolder _ _ _ => SchemaNodeKind.TablesFolder
  | ViewsFolder _ _ _ => SchemaNodeKind.ViewsFolder
  | TypesFolder _ _ _ => SchemaNodeKind.TypesFolder
  | TypesLoadingFolder _ _ _ => SchemaNodeKind.TypesLoadingFolder
  | SchemaIndexesFolder _ _ _ => SchemaNodeKind.SchemaIndexesFolder
  | SchemaIndexesLoadingFolder _ _ _ => SchemaNodeKind.SchemaIndexesLoadingFolder
  | SchemaForeignKeysFolder _ _ _ => SchemaNodeKind.SchemaForeignKeysFolder
  | SchemaForeignKeysLoadingFolder _ _ _ => SchemaNodeKind.SchemaForeignKeysLoadingFolder
  | RoutinesFolder _ _ _ => SchemaNodeKind.RoutinesFolder
  | RoutinesLoadingFolder _ _ _ => SchemaNodeKind.RoutinesLoadingFolder
  | CollectionsFolder _ _ => SchemaNodeKind.CollectionsFolder
  | MetricsFolder _ _ => SchemaNodeKind.MetricsFolder
  | MetricNamespaceFolder _ _ _ => SchemaNodeKind.MetricNamespaceFolder
  | MetricLeaf _ _ _ _ => SchemaNodeKind.MetricLeaf
  | DashboardsFolder _ => SchemaNodeKind.DashboardsFolder
  | DashboardItem _ _ => SchemaNodeKind.DashboardItem
  | RemoteDashboardsFolder _ => SchemaNodeKind.RemoteDashboardsFolder
  | RemoteDashboardItem _ _ => SchemaNodeKind.RemoteDashboardItem
  | SavedChartsFolder _ => SchemaNodeKind.SavedChartsFolder
  | SavedChartItem _ _ => SchemaNodeKind.SavedChartItem
  | Table _ _ _ _ => SchemaNodeKind.Table
  | View _ _ _ _ => SchemaNodeKind.View
  | Collection _ _ _ => SchemaNodeKind.Collection
  | CollectionChild _ _ _ _ _ => SchemaNodeKind.CollectionChild
  | CollectionChildrenMore _ _ _ => SchemaNodeKind.CollectionChildrenMore
  | CustomType _ _ _ => SchemaNodeKind.CustomType
  | ColumnsFolder _ _ _ => SchemaNodeKind.ColumnsFolder
  | IndexesFolder _ _ _ => SchemaNodeKind.IndexesFolder
  | ForeignKeysFolder _ _ _ => SchemaNodeKind.ForeignKeysFolder
  | ConstraintsFolder _ _ _ => SchemaNodeKind.ConstraintsFolder
  | StorageHintsFolder _ _ _ => SchemaNodeKind.StorageHintsFolder
  | Column _ _ _ => SchemaNodeKind.Column
  | Index _ _ _ => SchemaNodeKind.Index
  | ForeignKey _ _ _ => SchemaNodeKind.ForeignKey
  | Constraint _ _ _ => SchemaNodeKind.Constraint
  | StorageHintItem _ _ _ => SchemaNodeKind.StorageHintItem
  | SchemaIndex _ _ _ => SchemaNodeKind.SchemaIndex
  | SchemaForeignKey _ _ _ => SchemaNodeKind.SchemaForeignKey
  | Routine _ _ _ => SchemaNodeKind.Routine
  | DatabaseIndexesFolder _ _ => SchemaNodeKind.DatabaseIndexesFolder
  | CollectionFieldsFolder _ _ _ => SchemaNodeKind.CollectionFieldsFolder
  | CollectionField _ _ _ => SchemaNodeKind.CollectionField
  | CollectionIndexesFolder _ _ _ => SchemaNodeKind.CollectionIndexesFolder
  | CollectionIndex _ _ _ => SchemaNodeKind.CollectionIndex
  | EnumValue _ _ _ _ => SchemaNodeKind.EnumValue
  | BaseType _ _ _ => SchemaNodeKind.BaseType
  | Placeholder _ _ _ => SchemaNodeKind.Placeholder
  | DependentsFolder _ _ _ => SchemaNodeKind.DependentsFolder
  | DependentItem _ _ _ _ => SchemaNodeKind.DependentItem
  | ScriptsFolder _ => SchemaNodeKind.ScriptsFolder
  | ScriptFile _ => SchemaNodeKind.ScriptFile
  | ScriptsRoot _ => SchemaNodeKind.ScriptsRoot
  | InstanceMetricsFolder _ => SchemaNodeKind.InstanceMetricsFolder
  | InstanceMetricLeaf _ _ => SchemaNodeKind.InstanceMetricLeaf
  | InstanceInspectorsFolder _ => SchemaNodeKind.InstanceInspectorsFolder
  | InstanceInspectorLeaf _ _ => SchemaNodeKind.InstanceInspectorLeaf
  | InstanceFolder _ => SchemaNodeKind.InstanceFolder
  | InstanceOverviewLeaf _ => SchemaNodeKind.InstanceOverviewLeaf
  | Bucket _ _ => SchemaNodeKind.Bucket
  | BucketsFolder _ => SchemaNodeKind.BucketsFolder
  | SecretStore _ _ => SchemaNodeKind.SecretStore
  | SecretPath _ _ _ => SchemaNodeKind.SecretPath
  end.

Definition profile_id (id : t) : option Uuid :=
  match id with
  | ConnectionFolder _ | ScriptsFolder _ | ScriptFile _ | ScriptsRoot _ => None
  | Profile profile_id | DatabasesFolder profile_id | Database profile_id _
  | EmptyDatabasesFolder profile_id | Loading profile_id _ | Schema profile_id _ _
  | TablesFolder profile_id _ _ | ViewsFolder profile_id _ _ | TypesFolder profile_id _ _
  | TypesLoadingFolder profile_id _ _ | SchemaIndexesFolder profile_id _ _
  | SchemaIndexesLoadingFolder profile_id _ _ | SchemaForeignKeysFolder profile_id _ _
  | SchemaForeignKeysLoadingFolder profile_id _ _ | RoutinesFolder profile_id _ _
  | RoutinesLoadingFolder profile_id _ _ | CollectionsFolder profile_id _
  | MetricsFolder profile_id _ | MetricNamespaceFolder profile_id _ _
  | MetricLeaf profile_id _ _ _ | Table profile_id _ _ _ | View profile_id _ _ _
  | Collection profile_id _ _ | CollectionChild profile_id _ _ _ _
  | CollectionChildrenMore profile_id _ _ | CustomType profile_id _ _
  | ColumnsFolder profile_id _ _ | IndexesFolder profile_id _ _
  | ForeignKeysFolder profile_id _ _ | ConstraintsFolder profile_id _ _
  | StorageHintsFolder profile_id _ _ | Column profile_id _ _ | Index profile_id _ _
  | ForeignKey profile_id _ _ | Constraint profile_id _ _ | StorageHintItem profile_id _ _
  | SchemaIndex profile_id _ _ | SchemaForeignKey profile_id _ _ | Routine profile_id _ _
  | DatabaseIndexesFolder profile_id _ | CollectionFieldsFolder profile_id _ _
  | CollectionField profile_id _ _ | CollectionIndexesFolder profile_id _ _
  | CollectionIndex profile_id _ _ | EnumValue profile_id _ _ _ | BaseType profile_id _ _
  | Placeholder profile_id _ _ | DependentsFolder profile_id _ _
  | DependentItem profile_id _ _ _ | DashboardsFolder profile_id | DashboardItem profile_id _
  | RemoteDashboardsFolder profile_id | RemoteDashboardItem profile_id _
  | SavedChartsFolder profile_id | SavedChartItem profile_id _
  | InstanceMetricsFolder profile_id | InstanceMetricLeaf profile_id _
  | InstanceInspectorsFolder profile_id | InstanceInspectorLeaf profile_id _
  | InstanceOverviewLeaf profile_id | InstanceFolder profile_id | Bucket profile_id _
  | BucketsFolder profile_id | SecretStore profile_id _ | SecretPath profile_id _ _
    => Some profile_id
  end.

End Ids.
End SchemaNodeId.

(** ** Tags *)

Definition P_CONN_FOLDER : string := "CF".
Definition P_PROFILE : string := "P".
Definition P_DATABASES_FOLDER : string := "DBSF".
Definition P_DATABASE : string := "DB".
Definition P_EMPTY_DATABASES_FOLDER : string := "EDBF".
Definition P_LOADING : string := "LD".
Definition P_SCHEMA : string := "S".
Definition P_TABLES_FOLDER : string := "TF".
Definition P_VIEWS_FOLDER : string := "VF".
Definition P_TYPES_FOLDER : string := "YF".
Definition P_TYPES_LOADING : string := "YL".
Definition P_SCHEMA_IDX_FOLDER : string := "XF".
Definition P_SCHEMA_IDX_LOADING : string := "XL".
Definition P_SCHEMA_FK_FOLDER : string := "KF".
Definition P_SCHEMA_FK_LOADING : string := "KL".
Definition P_COLLECTIONS_FOLDER : string := "CF2".
Definition P_TABLE : string := "T".
Definition P_VIEW : string := "V".
Definition P_COLLECTION : string := "C".
Definition P_COLLECTION_CHILD : string := "CCH".
Definition P_COLLECTION_CHILDREN_MORE : string := "CCM".
Definition P_CUSTOM_TYPE : string := "Y".
Definition P_COLUMNS_FOLDER : string := "CLF".
Definition P_INDEXES_FOLDER : string := "IXF".
Definition P_FK_FOLDER : string := "FKF".
Definition P_CONSTRAINTS_FOLDER : string := "CSF".
Definition P_STORAGE_HINTS_FOLDER : string := "SHF".
Definition P_COLUMN : string := "CL".
Definition P_INDEX : string := "IX".
Definition P_FK : string := "FK".
Definition P_CONSTRAINT : string := "CS".
Definition P_STORAGE_HINT_ITEM : string := "SHI".
Definition P_SCHEMA_INDEX : string := "SX".
Definition P_SCHEMA_FK : string := "SK".
Definition P_DB_IDX_FOLDER : string := "DIF".
Definition P_COLL_FIELDS_FOLDER : string := "CFF".
Definition P_COLL_FIELD : string := "CFD".
Definition P_COLL_IDX_FOLDER : string := "CIF".
Definition P_COLL_INDEX : string := "CI".
Definition P_ENUM_VALUE : string := "EV".
Definition P_BASE_TYPE : string := "BT".
Definition P_PLACEHOLDER : string := "PH".
Definition P_SCRIPTS_FOLDER : string := "SCF".
Definition P_SCRIPT_FILE : string := "SCR".
Definition P_SCRIPTS_ROOT : string := "SCX".
Definition P_DEPENDENTS_FOLDER : string := "DEPF".
Definition P_DEPENDENT_ITEM : string := "DEP".
Definition P_ROUTINES_FOLDER : string := "RTF".
Definition P_ROUTINES_LOADING : string := "RTL".
Definition P_ROUTINE : string := "RT".
Definition P_METRICS_FOLDER : string := "MF".
Definition P_METRIC_NS_FOLDER : string := "MNF".
Definition P_METRIC_LEAF : string := "ML".
Definition P_INST_METRICS_FOLDER : string := "IMF".
Definition P_INST_METRIC_LEAF : string := "IML".
Definition P_INST_INSPECTORS_FOLDER : string := "IIF".
Definition P_INST_INSPECTOR_LEAF : string := "IIL".
Definition P_INST_OVERVIEW_LEAF : string := "IOL".
Definition P_INST_FOLDER : string := "INSF".
Definition P_BUCKET : string := "BKT".
Definition P_BUCKETS_FOLDER : string := "BKTF".
Definition P_SECRET_STORE : string := "SST".
Definition P_SECRET_PATH : string := "SSP".
Definition P_DASHBOARDS_FOLDER : string := "DBF".
Definition P_DASHBOARD_ITEM : string := "DBI".
Definition P_REMOTE_DASHBOARDS_FOLDER : string := "RDBF".
Definition P_REMOTE_DASHBOARD_ITEM : string := "RDBI".
Definition P_SAVED_CHARTS_FOLDER : string := "SCRF".
Definition P_SAVED_CHART_ITEM : string := "SCRI".

Record ParseSchemaNodeIdError := mkParseError { perr_input : string }.

(** ** Printing

    One function per group of rows, as in the source; [None] is the
    [unreachable!] of a row of another group. *)

Section Display.
Context `{UuidLib}.
Import SchemaNodeId.

Definition fmt_connection_scope (id : t) : option string :=
  match id with
  | ConnectionFolder node_id =>
      Some (piped [P_CONN_FOLDER; uuid_to_string node_id])
  | Profile profile_id =>
      Some (piped [P_PROFILE; uuid_to_string profile_id])
  | DatabasesFolder profile_id =>
      Some (piped [P_DATABASES_FOLDER; uuid_to_string profile_id])
  | Database profile_id name =>
      Some (piped [P_DATABASE; uuid_to_string profile_id; name])
  | EmptyDatabasesFolder profile_id =>
      Some (piped [P_EMPTY_DATABASES_FOLDER; uuid_to_string profile_id])
  | Loading profile_id database =>
      Some (piped [P_LOADING; uuid_to_string profile_id; database])
  | Schema profile_id database name =>
      match database with
      | Some database => Some (piped [P_SCHEMA; uuid_to_string profile_id; name; database])
      | None => Some (piped [P_SCHEMA; uuid_to_string profile_id; name])
      end
  | _ => None
  end.

Definition fmt_folder_variants (id : t) : option string :=
  match id with
  | TablesFolder profile_id database schema =>
      match database with
      | Some database => Some (piped [P_TABLES_FOLDER; uuid_to_string profile_id; schema; database])
      | None => Some (piped [P_TABLES_FOLDER; uuid_to_string profile_id; schema])
      end
  | ViewsFolder profile_id database schema =>
      match database with
      | Some database => Some (piped [P_VIEWS_FOLDER; uuid_to_string profile_id; schema; database])
      | None => Some (piped [P_VIEWS_FOLDER; uuid_to_string profile_id; schema])
      end
  | TypesFolder profile_id database schema =>
      Some (piped [P_TYPES_FOLDER; uuid_to_string profile_id; database; schema])
  | TypesLoadingFolder profile_id database schema =>
      Some (piped [P_TYPES_LOADING; uuid_to_string profile_id; database; schema])
  | SchemaIndexesFolder profile_id database schema =>
      Some (piped [P_SCHEMA_IDX_FOLDER; uuid_to_string profile_id; database; schema])
  | SchemaIndexesLoadingFolder profile_id database schema =>
      Some (piped [P_SCHEMA_IDX_LOADING; uuid_to_string profile_id; database; schema])
  | SchemaForeignKeysFolder profile_id database schema =>
      Some (piped [P_SCHEMA_FK_FOLDER; uuid_to_string profile_id; database; schema])
  | SchemaForeignKeysLoadingFolder profile_id database schema =>
      Some (piped [P_SCHEMA_FK_LOADING; uuid_to_string profile_id; database; schema])
  | CollectionsFolder profile_id database =>
      Some (piped [P_COLLECTIONS_FOLDER; uuid_to_string profile_id; database])
  | _ => None
  end.

Definition fmt_object_variants (id : t) : option string :=
  match id with
  | Table profile_id database schema name =>
      match database with
      | Some db => Some (piped [P_TABLE; uuid_to_string profile_id; schema; name; db])
      | None => Some (piped [P_TABLE; uuid_to_string profile_id; schema; name])
      end
  | View profile_id database schema name =>
      match database with
      | Some db => Some (piped [P_VIEW; uuid_to_string profile_id; schema; name; db])
      | None => Some (piped [P_VIEW; uuid_to_string profile_id; schema; name])
      end
  | Collection profile_id database name =>
      Some (piped [P_COLLECTION; uuid_to_string profile_id; database; name])
  | CollectionChild profile_id database collection child_id name =>
      Some (piped [P_COLLECTION_CHILD; uuid_to_string profile_id; database; collection; child_id; name])
  | CollectionChildrenMore profile_id database collection =>
      Some (piped [P_COLLECTION_CHILDREN_MORE; uuid_to_string profile_id; database; collection])
  | CustomType profile_id schema name =>
      Some (piped [P_CUSTOM_TYPE; uuid_to_string profile_id; schema; name])
  | _ => None
  end.

Definition fmt_table_detail_folders (id : t) : option string :=
  match id with
  | ColumnsFolder profile_id schema table =>
      Some (piped [P_COLUMNS_FOLDER; uuid_to_string profile_id; schema; table])
  | IndexesFolder profile_id schema table =>
      Some (piped [P_INDEXES_FOLDER; uuid_to_string profile_id; schema; table])
  | ForeignKeysFolder profile_id schema table =>
      Some (piped [P_FK_FOLDER; uuid_to_string profile_id; schema; table])
  | ConstraintsFolder profile_id schema table =>
      Some (piped [P_CONSTRAINTS_FOLDER; uuid_to_string profile_id; schema; table])
  | StorageHintsFolder profile_id schema table =>
      Some (piped [P_STORAGE_HINTS_FOLDER; uuid_to_string profile_id; schema; table])
  | _ => None
  end.

Definition fmt_detail_variants (id : t) : option string :=
  match id with
  | Column profile_id table name =>
      Some (piped [P_COLUMN; uuid_to_string profile_id; table; name])
  | Index profile_id table name =>
      Some (piped [P_INDEX; uuid_to_string profile_id; table; name])
  | ForeignKey profile_id table name =>
      Some (piped [P_FK; uuid_to_string profile_id; table; name])
  | Constraint profile_id table name =>
      Some (piped [P_CONSTRAINT; uuid_to_string profile_id; table; name])
  | StorageHintItem profile_id table name =>
      Some (piped [P_STORAGE_HINT_ITEM; uuid_to_string profile_id; table; name])
  | SchemaIndex profile_id schema name =>
      Some (piped [P_SCHEMA_INDEX; uuid_to_string profile_id; schema; name])
  | SchemaForeignKey profile_id schema name =>
      Some (piped [P_SCHEMA_FK; uuid_to_string profile_id; schema; name])
  | _ => None
  end.

Definition fmt_collection_detail_variants (id : t) : option string :=
  match id with
  | DatabaseIndexesFolder profile_id database =>
      Some (piped [P_DB_IDX_FOLDER; uuid_to_string profile_id; database])
  | CollectionFieldsFolder profile_id database collection =>
      Some (piped [P_COLL_FIELDS_FOLDER; uuid_to_string profile_id; database; collection])
  | CollectionField profile_id collection name =>
      Some (piped [P_COLL_FIELD; uuid_to_string profile_id; collection; name])
  | CollectionIndexesFolder profile_id database collection =>
      Some (piped [P_COLL_IDX_FOLDER; uuid_to_string profile_id; database; collection])
  | CollectionIndex profile_id collection name =>
      Some (piped [P_COLL_INDEX; uuid_to_string profile_id; collection; name])
  | _ => None
  end.

Definition fmt_type_detail_variants (id : t) : option string :=
  match id with
  | EnumValue profile_id schema type_name value =>
      Some (piped [P_ENUM_VALUE; uuid_to_string profile_id; schema; type_name; value])
  | BaseType profile_id schema type_name =>
      Some (piped [P_BASE_TYPE; uuid_to_string profile_id; schema; type_name])
  | _ => None
  end.

Definition fmt_placeholder_and_dependents (id : t) : option string :=
  match id with
  | Placeholder profile_id schema table =>
      Some (piped [P_PLACEHOLDER; uuid_to_string profile_id; schema; table])
  | DependentsFolder profile_id schema table =>
      Some (piped [P_DEPENDENTS_FOLDER; uuid_to_string profile_id; schema; table])
  | DependentItem profile_id schema table name =>
      Some (piped [P_DEPENDENT_ITEM; uuid_to_string profile_id; schema; table; name])
  | _ => None
  end.

Definition fmt_routine_variants (id : t) : option string :=
  match id with
  | RoutinesFolder profile_id database schema =>
      Some (piped [P_ROUTINES_FOLDER; uuid_to_string profile_id; database; schema])
  | RoutinesLoadingFolder profile_id database schema =>
      Some (piped [P_ROUTINES_LOADING; uuid_to_string profile_id; database; schema])
  | Routine profile_id schema specific_name =>
      Some (piped [P_ROUTINE; uuid_to_string profile_id; schema; specific_name])
  | _ => None
  end.

Definition fmt_metric_variants (id : t) : option string :=
  match id with
  | MetricsFolder profile_id database =>
      Some (piped [P_METRICS_FOLDER; uuid_to_string profile_id; database])
  | MetricNamespaceFolder profile_id database namespace =>
      Some (piped [P_METRIC_NS_FOLDER; uuid_to_string profile_id; database; namespace])
  | MetricLeaf profile_id database namespace metric_name =>
      Some (piped [P_METRIC_LEAF; uuid_to_string profile_id; database; namespace; metric_name])
  | _ => None
  end.

Definition fmt_scripts_variants (id : t) : option string :=
  match id with
  | ScriptsFolder path =>
      match path with
      | Some p => Some (piped [P_SCRIPTS_FOLDER; p])
      | None => Some (piped [P_SCRIPTS_FOLDER])
      end
  | ScriptFile path =>
      Some (piped [P_SCRIPT_FILE; path])
  | ScriptsRoot path =>
      Some (piped [P_SCRIPTS_ROOT; path])
  | _ => None
  end.

Definition fmt_dashboard_and_chart_variants (id : t) : option string :=
  match id with
  | DashboardsFolder profile_id =>
      Some (piped [P_DASHBOARDS_FOLDER; uuid_to_string profile_id])
  | DashboardItem profile_id dashboard_id =>
      Some (piped [P_DASHBOARD_ITEM; uuid_to_string profile_id; uuid_to_string dashboard_id])
  | RemoteDashboardsFolder profile_id =>
      Some (piped [P_REMOTE_DASHBOARDS_FOLDER; uuid_to_string profile_id])
  | RemoteDashboardItem profile_id name =>
      Some (piped [P_REMOTE_DASHBOARD_ITEM; uuid_to_string profile_id; name])
  | SavedChartsFolder profile_id =>
      Some (piped [P_SAVED_CHARTS_FOLDER; uuid_to_string profile_id])
  | SavedChartItem profile_id chart_id =>
      Some (piped [P_SAVED_CHART_ITEM; uuid_to_string profile_id; uuid_to_string chart_id])
  | _ => None
  end.

Definition fmt_instance_variants (id : t) : option string :=
  match id with
  | InstanceMetricsFolder profile_id =>
      Some (piped [P_INST_METRICS_FOLDER; uuid_to_string profile_id])
  | InstanceMetricLeaf profile_id metric_id =>
      Some (piped [P_INST_METRIC_LEAF; uuid_to_string profile_id; metric_id])
  | InstanceInspectorsFolder profile_id =>
      Some (piped [P_INST_INSPECTORS_FOLDER; uuid_to_string profile_id])
  | InstanceInspectorLeaf profile_id metric_id =>
      Some (piped [P_INST_INSPECTOR_LEAF; uuid_to_string profile_id; metric_id])
  | InstanceOverviewLeaf profile_id =>
      Some (piped [P_INST_OVERVIEW_LEAF; uuid_to_string profile_id])
  | InstanceFolder profile_id =>
      Some (piped [P_INST_FOLDER; uuid_to_string profile_id])
  | _ => None
  end.

(** [SchemaNodeId::to_string]. *)
Definition node_to_string (id : t) : option string :=
  match id with
  | ConnectionFolder _ | Profile _ | DatabasesFolder _ | Database _ _ | EmptyDatabasesFolder _
  | Loading _ _ | Schema _ _ _
    => fmt_connection_scope id
  | TablesFolder _ _ _ | ViewsFolder _ _ _ | TypesFolder _ _ _ | TypesLoadingFolder _ _ _
  | SchemaIndexesFolder _ _ _ | SchemaIndexesLoadingFolder _ _ _
  | SchemaForeignKeysFolder _ _ _ | SchemaForeignKeysLoadingFolder _ _ _
  | CollectionsFolder _ _
    => fmt_folder_variants id
  | Table _ _ _ _ | View _ _ _ _ | Collection _ _ _ | CollectionChild _ _ _ _ _
  | CollectionChildrenMore _ _ _ | CustomType _ _ _
    => fmt_object_variants id
  | ColumnsFolder _ _ _ | IndexesFolder _ _ _ | ForeignKeysFolder _ _ _
  | ConstraintsFolder _ _ _ | StorageHintsFolder _ _ _
    => fmt_table_detail_folders id
  | Column _ _ _ | Index _ _ _ | ForeignKey _ _ _ | Constraint _ _ _ | StorageHintItem _ _ _
  | SchemaIndex _ _ _ | SchemaForeignKey _ _ _
    => fmt_detail_variants id
  | DatabaseIndexesFolder _ _ | CollectionFieldsFolder _ _ _ | CollectionField _ _ _
  | CollectionIndexesFolder _ _ _ | CollectionIndex _ _ _
    => fmt_collection_detail_variants id
  | EnumValue _ _ _ _ | BaseType _ _ _
    => fmt_type_detail_variants id
  | Placeholder _ _ _ | DependentsFolder _ _ _ | DependentItem _ _ _ _
    => fmt_placeholder_and_dependents id
  | RoutinesFolder _ _ _ | RoutinesLoadingFolder _ _ _ | Routine _ _ _
    => fmt_routine_variants id
  | MetricsFolder _ _ | MetricNamespaceFolder _ _ _ | MetricLeaf _ _ _ _
    => fmt_metric_variants id
  | ScriptsFolder _ | ScriptFile _ | ScriptsRoot _
    => fmt_scripts_variants id
  | DashboardsFolder _ | DashboardItem _ _ | RemoteDashboardsFolder _ | RemoteDashboardItem _ _
  | SavedChartsFolder _ | SavedChartItem _ _
    => fmt_dashboard_and_chart_variants id
  | InstanceMetricsFolder _ | InstanceMetricLeaf _ _ | InstanceInspectorsFolder _
  | InstanceInspectorLeaf _ _ | InstanceOverviewLeaf _ | InstanceFolder _
    => fmt_instance_variants id
  | Bucket profile_id name =>
      Some (piped [P_BUCKET; uuid_to_string profile_id; name])
  | BucketsFolder profile_id =>
      Some (piped [P_BUCKETS_FOLDER; uuid_to_string profile_id])
  | SecretStore profile_id store_id =>
      Some (piped [P_SECRET_STORE; uuid_to_string profile_id; store_id])
  | SecretPath profile_id store_id path =>
      Some (piped [P_SECRET_PATH; uuid_to_string profile_id; store_id; path])
  end.

End Display.

(** ** Parsing *)

Section Parse.
Context `{UuidLib}.
Import SchemaNodeId.

Definition Parsed : Type := result t ParseSchemaNodeIdError.

(** [parts.get(i).ok_or_else(err)?]. *)
Definition part (parts : list string) (i : nat) (err : ParseSchemaNodeIdError)
  : result string ParseSchemaNodeIdError := ok_or (parts !! i) err.

(** [Uuid::parse_str(parts.get(i).ok_or_else(err)?).map_err(|_| err())?]. *)
Definition uuid_part (parts : list string) (i : nat) (err : ParseSchemaNodeIdError)
  : result Uuid ParseSchemaNodeIdError :=
  let? s := part parts i err in map_err (fun _ => err) (uuid_parse s).

Definition is_tag (prefix : string) (tags : list string) : bool :=
  existsb (String.eqb prefix) tags.

Definition parse_connection_scope (prefix : string) (parts : list string)
    (err : ParseSchemaNodeIdError) : Parsed :=
  if String.eqb prefix P_CONN_FOLDER then
    let? node_id := uuid_part parts 1 err in
    Ok (ConnectionFolder node_id)
  else if String.eqb prefix P_PROFILE then
    let? profile_id := uuid_part parts 1 err in
    Ok (Profile profile_id)
  else if String.eqb prefix P_DATABASES_FOLDER then
    let? profile_id := uuid_part parts 1 err in
    Ok (DatabasesFolder profile_id)
  else if String.eqb prefix P_EMPTY_DATABASES_FOLDER then
    let? profile_id := uuid_part parts 1 err in
    Ok (EmptyDatabasesFolder profile_id)
  else if String.eqb prefix P_DATABASE then
    let? profile_id := uuid_part parts 1 err in
    let? name := part parts 2 err in
    Ok (Database profile_id name)
  else if String.eqb prefix P_LOADING then
    let? profile_id := uuid_part parts 1 err in
    let? database := part parts 2 err in
    Ok (Loading profile_id database)
  else if String.eqb prefix P_SCHEMA then
    let? profile_id := uuid_part parts 1 err in
    let? name := part parts 2 err in
    let database := parts !! 3%nat in
    Ok (Schema profile_id database name)
  else Err err.

Definition parse_folder_variants (prefix : string) (parts : list string)
    (err : ParseSchemaNodeIdError) : Parsed :=
  if String.eqb prefix P_TABLES_FOLDER then
    let? profile_id := uuid_part parts 1 err in
    let? schema := part parts 2 err in
    let database := parts !! 3%nat in
    Ok (TablesFolder profile_id database schema)
  else if String.eqb prefix P_VIEWS_FOLDER then
    let? profile_id := uuid_part parts 1 err in
    let? schema := part parts 2 err in
    let database := parts !! 3%nat in
    Ok (ViewsFolder profile_id database schema)
  else if String.eqb prefix P_TYPES_FOLDER then
    let? profile_id := uuid_part parts 1 err in
    let? database := part parts 2 err in
    let? schema := part parts 3 err in
    Ok (TypesFolder profile_id database schema)
  else if String.eqb prefix P_TYPES_LOADING then
    let? profile_id := uuid_part parts 1 err in
    let? database := part parts 2 err in
    let? schema := part parts 3 err in
    Ok (TypesLoadingFolder profile_id database schema)
  else if String.eqb prefix P_SCHEMA_IDX_FOLDER then
    let? profile_id := uuid_part parts 1 err in
    let? database := part parts 2 err in
    let? schema := part parts 3 err in
    Ok (SchemaIndexesFolder profile_id database schema)
  else if String.eqb prefix P_SCHEMA_IDX_LOADING then
    let? profile_id := uuid_part parts 1 err in
    let? database := part parts 2 err in
    let? schema := part parts 3 err in
    Ok (SchemaIndexesLoadingFolder profile_id database schema)
  else if String.eqb prefix P_SCHEMA_FK_FOLDER then
    let? profile_id := uuid_part parts 1 err in
    let? database := part parts 2 err in
    let? schema := part parts 3 err in
    Ok (SchemaForeignKeysFolder profile_id database schema)
  else if String.eqb prefix P_SCHEMA_FK_LOADING then
    let? profile_id := uuid_part parts 1 err in
    let? database := part parts 2 err in
    let? schema := part parts 3 err in
    Ok (SchemaForeignKeysLoadingFolder profile_id database schema)
  else if String.eqb prefix P_COLLECTIONS_FOLDER then
    let? profile_id := uuid_part parts 1 err in
    let? database := part parts 2 err in
    Ok (CollectionsFolder profile_id database)
  else Err err.

Definition parse_object_variants (prefix : string) (parts : list string)
    (err : ParseSchemaNodeIdError) : Parsed :=
  if String.eqb prefix P_TABLE then
    let? profile_id := uuid_part parts 1 err in
    let? schema := part parts 2 err in
    let? name := part parts 3 err in
    let database := parts !! 4%nat in
    Ok (Table profile_id database schema name)
  else if String.eqb prefix P_VIEW then
    let? profile_id := uuid_part parts 1 err in
    let? schema := part parts 2 err in
    let? name := part parts 3 err in
    let database := parts !! 4%nat in
    Ok (View profile_id database schema name)
  else if String.eqb prefix P_COLLECTION then
    let? profile_id := uuid_part parts 1 err in
    let? database := part parts 2 err in
    let? name := part parts 3 err in
    Ok (Collection profile_id database name)
  else if String.eqb prefix P_COLLECTION_CHILD then
    let? profile_id := uuid_part parts 1 err in
    let? database := part parts 2 err in
    let? collection := part parts 3 err in
    let? child_id := part parts 4 err in
    let? name := part parts 5 err in
    Ok (CollectionChild profile_id database collection child_id name)
  else if String.eqb prefix P_COLLECTION_CHILDREN_MORE then
    let? profile_id := uuid_part parts 1 err in
    let? database := part parts 2 err in
    let? collection := part parts 3 err in
    Ok (CollectionChildrenMore profile_id database collection)
  else if String.eqb prefix P_CUSTOM_TYPE then
    let? profile_id := uuid_part parts 1 err in
    let? schema := part parts 2 err in
    let? name := part parts 3 err in
    Ok (CustomType profile_id schema name)
  else Err err.

Definition parse_table_detail_folders (prefix : string) (parts : list string)
    (err : ParseSchemaNodeIdError) : Parsed :=
  if String.eqb prefix P_COLUMNS_FOLDER then
    let? profile_id := uuid_part parts 1 err in
    let? schema := part parts 2 err in
    let? table := part parts 3 err in
    Ok (ColumnsFolder profile_id schema table)
  else if String.eqb prefix P_INDEXES_FOLDER then
    let? profile_id := uuid_part parts 1 err in
    let? schema := part parts 2 err in
    let? table := part parts 3 err in
    Ok (IndexesFolder profile_id schema table)
  else if String.eqb prefix P_FK_FOLDER then
    let? profile_id := uuid_part parts 1 err in
    let? schema := part parts 2 err in
    let? table := part parts 3 err in
    Ok (ForeignKeysFolder profile_id schema table)
  else if String.eqb prefix P_CONSTRAINTS_FOLDER then
    let? profile_id := uuid_part parts 1 err in
    let? schema := part parts 2 err in
    let? table := part parts 3 err in
    Ok (ConstraintsFolder profile_id schema table)
  else if String.eqb prefix P_STORAGE_HINTS_FOLDER then
    let? profile_id := uuid_part parts 1 err in
    let? schema := part parts 2 err in
    let? table := part parts 3 err in
    Ok (StorageHintsFolder profile_id schema table)
  else Err err.

Definition parse_detail_variants (prefix : string) (parts : list string)
    (err : ParseSchemaNodeIdError) : Parsed :=
  if String.eqb prefix P_COLUMN then
    let? profile_id := uuid_part parts 1 err in
    let? table := part parts 2 err in
    let? name := part parts 3 err in
    Ok (Column profile_id table name)
  else if String.eqb prefix P_INDEX then
    let? profile_id := uuid_part parts 1 err in
    let? table := part parts 2 err in
    let? name := part parts 3 err in
    Ok (Index profile_id table name)
  else if String.eqb prefix P_FK then
    let? profile_id := uuid_part parts 1 err in
    let? table := part parts 2 err in
    let? name := part parts 3 err in
    Ok (ForeignKey profile_id table name)
  else if String.eqb prefix P_CONSTRAINT then
    let? profile_id := uuid_part parts 1 err in
    let? table := part parts 2 err in
    let? name := part parts 3 err in
    Ok (Constraint profile_id table name)
  else if String.eqb prefix P_STORAGE_HINT_ITEM then
    let? profile_id := uuid_part parts 1 err in
    let? table := part parts 2 err in
    let? name := part parts 3 err in
    Ok (StorageHintItem profile_id table name)
  else if String.eqb prefix P_SCHEMA_INDEX then
    let? profile_id := uuid_part parts 1 err in
    let? schema := part parts 2 err in
    let? name := part parts 3 err in
    Ok (SchemaIndex profile_id schema name)
  else if String.eqb prefix P_SCHEMA_FK then
    let? profile_id := uuid_part parts 1 err in
    let? schema := part parts 2 err in
    let? name := part parts 3 err in
    Ok (SchemaForeignKey profile_id schema name)
  else Err err.

Definition parse_collection_detail_variants (prefix : string) (parts : list string)
    (err : ParseSchemaNodeIdError) : Parsed :=
  if String.eqb prefix P_DB_IDX_FOLDER then
    let? profile_id := uuid_part parts 1 err in
    let? database := part parts 2 err in
    Ok (DatabaseIndexesFolder profile_id database)
  else if String.eqb prefix P_COLL_FIELDS_FOLDER then
    let? profile_id := uuid_part parts 1 err in
    let? database := part parts 2 err in
    let? collection := part parts 3 err in
    Ok (CollectionFieldsFolder profile_id database collection)
  else if String.eqb prefix P_COLL_FIELD then
    let? profile_id := uuid_part parts 1 err in
    let? collection := part parts 2 err in
    let? name := part parts 3 err in
    Ok (CollectionField profile_id collection name)
  else if String.eqb prefix P_COLL_IDX_FOLDER then
    let? profile_id := uuid_part parts 1 err in
    let? database := part parts 2 err in
    let? collection := part parts 3 err in
    Ok (CollectionIndexesFolder profile_id database collection)
  else if String.eqb prefix P_COLL_INDEX then
    let? profile_id := uuid_part parts 1 err in
    let? collection := part parts 2 err in
    let? name := part parts 3 err in
    Ok (CollectionIndex profile_id collection name)
  else Err err.

Definition parse_type_detail_variants (prefix : string) (parts : list string)
    (err : ParseSchemaNodeIdError) : Parsed :=
  if String.eqb prefix P_ENUM_VALUE then
    let? profile_id := uuid_part parts 1 err in
    let? schema := part parts 2 err in
    let? type_name := part parts 3 err in
    let? value := part parts 4 err in
    Ok (EnumValue profile_id schema type_name value)
  else if String.eqb prefix P_BASE_TYPE then
    let? profile_id := uuid_part parts 1 err in
    let? schema := part parts 2 err in
    let? type_name := part parts 3 err in
    Ok (BaseType profile_id schema type_name)
  else Err err.

Definition parse_placeholder_and_dependents (prefix : string) (parts : list string)
    (err : ParseSchemaNodeIdError) : Parsed :=
  if String.eqb prefix P_PLACEHOLDER then
    let? profile_id := uuid_part parts 1 err in
    let? schema := part parts 2 err in
    let? table := part parts 3 err in
    Ok (Placeholder profile_id schema table)
  else if String.eqb prefix P_DEPENDENTS_FOLDER then
    let? profile_id := uuid_part parts 1 err in
    let? schema := part parts 2 err in
    let? table := part parts 3 err in
    Ok (DependentsFolder profile_id schema table)
  else if String.eqb prefix P_DEPENDENT_ITEM then
    let? profile_id := uuid_part parts 1 err in
    let? schema := part parts 2 err in
    let? table := part parts 3 err in
    let? name := part parts 4 err in
    Ok (DependentItem profile_id schema table name)
  else Err err.

Definition parse_script_file (parts : list string) (err : ParseSchemaNodeIdError) : Parsed :=
  let path := piped (drop 1 parts) in
  if String.eqb path EmptyString then Err err else Ok (ScriptFile path).

Definition parse_scripts_root (parts : list string) (err : ParseSchemaNodeIdError) : Parsed :=
  let path := piped (drop 1 parts) in
  if String.eqb path EmptyString then Err err else Ok (ScriptsRoot path).

Definition parse_routine_variants (prefix : string) (parts : list string)
    (err : ParseSchemaNodeIdError) : Parsed :=
  if String.eqb prefix P_ROUTINES_FOLDER then
    let? profile_id := uuid_part parts 1 err in
    let? database := part parts 2 err in
    let? schema := part parts 3 err in
    Ok (RoutinesFolder profile_id database schema)
  else if String.eqb prefix P_ROUTINES_LOADING then
    let? profile_id := uuid_part parts 1 err in
    let? database := part parts 2 err in
    let? schema := part parts 3 err in
    Ok (RoutinesLoadingFolder profile_id database schema)
  else if String.eqb prefix P_ROUTINE then
    let? profile_id := uuid_part parts 1 err in
    let? schema := part parts 2 err in
    let? specific_name := part parts 3 err in
    Ok (Routine profile_id schema specific_name)
  else Err err.

Definition parse_metric_variants (prefix : string) (parts : list string)
    (err : ParseSchemaNodeIdError) : Parsed :=
  if String.eqb prefix P_METRICS_FOLDER then
    let? profile_id := uuid_part parts 1 err in
    let? database := part parts 2 err in
    Ok (MetricsFolder profile_id database)
  else if String.eqb prefix P_METRIC_NS_FOLDER then
    let? profile_id := uuid_part parts 1 err in
    let? database := part parts 2 err in
    let? namespace := part parts 3 err in
    Ok (MetricNamespaceFolder profile_id database namespace)
  else if String.eqb prefix P_METRIC_LEAF then
    let? profile_id := uuid_part parts 1 err in
    let? database := part parts 2 err in
    let? namespace := part parts 3 err in
    let? metric_name := part parts 4 err in
    Ok (MetricLeaf profile_id database namespace metric_name)
  else Err err.

Definition parse_dashboard_and_chart_variants (prefix : string) (parts : list string)
    (err : ParseSchemaNodeIdError) : Parsed :=
  if String.eqb prefix P_DASHBOARDS_FOLDER then
    let? profile_id := uuid_part parts 1 err in
    Ok (DashboardsFolder profile_id)
  else if String.eqb prefix P_DASHBOARD_ITEM then
    let? profile_id := uuid_part parts 1 err in
    let? dashboard_id := uuid_part parts 2 err in
    Ok (DashboardItem profile_id dashboard_id)
  else if String.eqb prefix P_REMOTE_DASHBOARDS_FOLDER then
    let? profile_id := uuid_part parts 1 err in
    Ok (RemoteDashboardsFolder profile_id)
  else if String.eqb prefix P_REMOTE_DASHBOARD_ITEM then
    let? profile_id := uuid_part parts 1 err in
    let? name := part parts 2 err in
    Ok (RemoteDashboardItem profile_id name)
  else if String.eqb prefix P_SAVED_CHARTS_FOLDER then
    let? profile_id := uuid_part parts 1 err in
    Ok (SavedChartsFolder profile_id)
  else if String.eqb prefix P_SAVED_CHART_ITEM then
    let? profile_id := uuid_part parts 1 err in
    let? chart_id := uuid_part parts 2 err in
    Ok (SavedChartItem profile_id chart_id)
  else Err err.

Definition parse_instance_variants (prefix : string) (parts : list string)
    (err : ParseSchemaNodeIdError) : Parsed :=
  if String.eqb prefix P_INST_METRICS_FOLDER then
    let? profile_id := uuid_part parts 1 err in
    Ok (InstanceMetricsFolder profile_id)
  else if String.eqb prefix P_INST_METRIC_LEAF then
    let? profile_id := uuid_part parts 1 err in
    let? metric_id := part parts 2 err in
    Ok (InstanceMetricLeaf profile_id metric_id)
  else if String.eqb prefix P_INST_INSPECTORS_FOLDER then
    let? profile_id := uuid_part parts 1 err in
    Ok (InstanceInspectorsFolder profile_id)
  else if String.eqb prefix P_INST_INSPECTOR_LEAF then
    let? profile_id := uuid_part parts 1 err in
    let? metric_id := part parts 2 err in
    Ok (InstanceInspectorLeaf profile_id metric_id)
  else if String.eqb prefix P_INST_OVERVIEW_LEAF then
    let? profile_id := uuid_part parts 1 err in
    Ok (InstanceOverviewLeaf profile_id)
  else if String.eqb prefix P_INST_FOLDER then
    let? profile_id := uuid_part parts 1 err in
    Ok (InstanceFolder profile_id)
  else if String.eqb prefix P_BUCKET then
    let? profile_id := uuid_part parts 1 err in
    let? name := part parts 2 err in
    Ok (Bucket profile_id name)
  else if String.eqb prefix P_BUCKETS_FOLDER then
    let? profile_id := uuid_part parts 1 err in
    Ok (BucketsFolder profile_id)
  else Err err.

Definition parse_secret_store_variants (prefix : string) (parts : list string)
    (err : ParseSchemaNodeIdError) : Parsed :=
  let? profile_id := uuid_part parts 1 err in
  let? store_id := part parts 2 err in
  if String.eqb prefix P_SECRET_STORE then Ok (SecretStore profile_id store_id)
  else if String.eqb prefix P_SECRET_PATH then
    match drop 3 parts with
    | [] => Err err
    | rest => Ok (SecretPath profile_id store_id (piped rest))
    end
  else Err err.

(** [SchemaNodeId::from_str]. *)
Definition node_from_str (s : string) : Parsed :=
  let err := mkParseError s in
  let parts := splitn 6 pipe s in
  match parts with
  | [] => Err err
  | prefix :: rest =>
      if String.eqb prefix P_SCRIPTS_FOLDER && Nat.eqb (length parts) 1 then
        Ok (ScriptsFolder None)
      else if String.eqb prefix P_SCRIPTS_FOLDER && Nat.leb 2 (length parts) then
        Ok (ScriptsFolder (Some (piped rest)))
      else if Nat.ltb (length parts) 2 then Err err
      else if is_tag prefix
        [P_CONN_FOLDER; P_PROFILE; P_DATABASES_FOLDER; P_DATABASE; P_EMPTY_DATABASES_FOLDER;
        P_LOADING; P_SCHEMA]
      then parse_connection_scope prefix parts err
      else if is_tag prefix
        [P_TABLES_FOLDER; P_VIEWS_FOLDER; P_TYPES_FOLDER; P_TYPES_LOADING; P_SCHEMA_IDX_FOLDER;
        P_SCHEMA_IDX_LOADING; P_SCHEMA_FK_FOLDER; P_SCHEMA_FK_LOADING; P_COLLECTIONS_FOLDER]
      then parse_folder_variants prefix parts err
      else if is_tag prefix
        [P_TABLE; P_VIEW; P_COLLECTION; P_COLLECTION_CHILD; P_COLLECTION_CHILDREN_MORE;
        P_CUSTOM_TYPE]
      then parse_object_variants prefix parts err
      else if is_tag prefix
        [P_COLUMNS_FOLDER; P_INDEXES_FOLDER; P_FK_FOLDER; P_CONSTRAINTS_FOLDER;
        P_STORAGE_HINTS_FOLDER]
      then parse_table_detail_folders prefix parts err
      else if is_tag prefix
        [P_COLUMN; P_INDEX; P_FK; P_CONSTRAINT; P_STORAGE_HINT_ITEM; P_SCHEMA_INDEX;
        P_SCHEMA_FK]
      then parse_detail_variants prefix parts err
      else if is_tag prefix
        [P_DB_IDX_FOLDER; P_COLL_FIELDS_FOLDER; P_COLL_FIELD; P_COLL_IDX_FOLDER; P_COLL_INDEX]
      then parse_collection_detail_variants prefix parts err
      else if is_tag prefix
        [P_ENUM_VALUE; P_BASE_TYPE]
      then parse_type_detail_variants prefix parts err
      else if is_tag prefix
        [P_PLACEHOLDER; P_DEPENDENTS_FOLDER; P_DEPENDENT_ITEM]
      then parse_placeholder_and_dependents prefix parts err
      else if is_tag prefix [P_SCRIPT_FILE] then parse_script_file parts err
      else if is_tag prefix [P_SCRIPTS_ROOT] then parse_scripts_root parts err
      else if is_tag prefix
        [P_ROUTINES_FOLDER; P_ROUTINES_LOADING; P_ROUTINE]
      then parse_routine_variants prefix parts err
      else if is_tag prefix
        [P_METRICS_FOLDER; P_METRIC_NS_FOLDER; P_METRIC_LEAF]
      then parse_metric_variants prefix parts err
      else if is_tag prefix
        [P_DASHBOARDS_FOLDER; P_DASHBOARD_ITEM; P_REMOTE_DASHBOARDS_FOLDER;
        P_REMOTE_DASHBOARD_ITEM; P_SAVED_CHARTS_FOLDER; P_SAVED_CHART_ITEM]
      then parse_dashboard_and_chart_variants prefix parts err
      else if is_tag prefix
        [P_INST_METRICS_FOLDER; P_INST_METRIC_LEAF; P_INST_INSPECTORS_FOLDER;
        P_INST_INSPECTOR_LEAF; P_INST_OVERVIEW_LEAF; P_INST_FOLDER; P_BUCKET; P_BUCKETS_FOLDER]
      then parse_instance_variants prefix parts err
      else if is_tag prefix
        [P_SECRET_STORE; P_SECRET_PATH]
      then parse_secret_store_variants prefix parts err
      else Err err
  end.

End Parse.
