(* ===== verification/NodeIdProps.v ===== *)
(** * Identifiers of the schema tree round-trip

    Which ids survive being printed and parsed again, that the parser returns
    only such ids, and what happens to a name that holds the separator. *)

From S2P Require Import Prelude RustStr External Concrete NodeId.

Section RoundTrip.
Context `{UuidLib}.
Import SchemaNodeId.

(** ** Texts without the separator *)

Definition no_pipe (s : string) : Prop := pipe ∉ bytes_of s.

(** The hyphenated text of an identifier has no separator: it consists of
    hexadecimal digits and hyphens. *)
Class UuidPlain : Prop := uuid_plain u : no_pipe (uuid_to_string u).

(** The texts of an id that must not hold the separator. *)
Definition plain_texts (id : t) : list string :=
  match id with
  | ScriptsFolder _ | ScriptFile _ | ScriptsRoot _ => []
  | SecretPath _ store_id _ => [store_id]
  | CollectionChild _ database collection child_id _ => [database; collection; child_id]
  | ConnectionFolder _ | Profile _ | DatabasesFolder _ | EmptyDatabasesFolder _
  | DashboardsFolder _ | DashboardItem _ _ | RemoteDashboardsFolder _ | SavedChartsFolder _
  | SavedChartItem _ _ | InstanceMetricsFolder _ | InstanceInspectorsFolder _
  | InstanceFolder _ | InstanceOverviewLeaf _ | BucketsFolder _
    => []
  | Database _ name | RemoteDashboardItem _ name | Bucket _ name
    => [name]
  | Loading _ database | CollectionsFolder _ database | MetricsFolder _ database
  | DatabaseIndexesFolder _ database
    => [database]
  | Schema _ database name => [name] ++ option_list database
  | TablesFolder _ database schema | ViewsFolder _ database schema
    => [schema] ++ option_list database
  | TypesFolder _ database schema | TypesLoadingFolder _ database schema
  | SchemaIndexesFolder _ database schema | SchemaIndexesLoadingFolder _ database schema
  | SchemaForeignKeysFolder _ database schema
  | SchemaForeignKeysLoadingFolder _ database schema | RoutinesFolder _ database schema
  | RoutinesLoadingFolder _ database schema
    => [database; schema]
  | MetricNamespaceFolder _ database namespace => [database; namespace]
  | MetricLeaf _ database namespace metric_name => [database; namespace; metric_name]
  | Table _ database schema name | View _ database schema name
    => [schema; name] ++ option_list database
  | Collection _ database name => [database; name]
  | CollectionChildrenMore _ database collection | CollectionFieldsFolder _ database collection
  | CollectionIndexesFolder _ database collection
    => [database; collection]
  | CustomType _ schema name | SchemaIndex _ schema name | SchemaForeignKey _ schema name
    => [schema; name]
  | ColumnsFolder _ schema table | IndexesFolder _ schema table
  | ForeignKeysFolder _ schema table | ConstraintsFolder _ schema table
  | StorageHintsFolder _ schema table | Placeholder _ schema table
  | DependentsFolder _ schema table
    => [schema; table]
  | Column _ table name | Index _ table name | ForeignKey _ table name
  | Constraint _ table name | StorageHintItem _ table name
    => [table; name]
  | Routine _ schema specific_name => [schema; specific_name]
  | CollectionField _ collection name | CollectionIndex _ collection name
    => [collection; name]
  | EnumValue _ schema type_name value => [schema; type_name; value]
  | BaseType _ schema type_name => [schema; type_name]
  | DependentItem _ schema table name => [schema; table; name]
  | InstanceMetricLeaf _ metric_id | InstanceInspectorLeaf _ metric_id
    => [metric_id]
  | SecretStore _ store_id => [store_id]
  end.

(** An id that survives: the parser also needs a path for a script. *)
Definition node_wf (id : t) : Prop :=
  Forall no_pipe (plain_texts id) /\
  match id with ScriptFile path | ScriptsRoot path => path <> EmptyString | _ => True end.

(** ** Splitting and joining *)

Lemma cut_at_None c s : cut_at c s = None <-> c ∉ bytes_of s.
Proof.
  induction s as [|a s IH]; simpl; [split; [intros _; apply not_elem_of_nil|done]|].
  rewrite not_elem_of_cons, <- IH. destruct (Ascii.eqb_spec a c) as [->|Hne].
  - split; [done|]. intros [? _]. done.
  - destruct (cut_at c s) as [[]|]; naive_solver.
Qed.

Lemma cut_at_Some c s x y :
  cut_at c s = Some (x, y) -> s = x +:+ String c y /\ c ∉ bytes_of x.
Proof.
  revert x. induction s as [|a s IH]; intros x; simpl; [done|].
  destruct (Ascii.eqb_spec a c) as [->|Hne].
  - intros [= <- <-]. split; [done|apply not_elem_of_nil].
  - destruct (cut_at c s) as [[x' y']|]; [|done]. intros [= <- <-].
    destruct (IH x' eq_refl) as [-> Hx]. split; [done|]. simpl.
    rewrite not_elem_of_cons. by split.
Qed.

Lemma cut_at_app x y : no_pipe x -> cut_at pipe (x +:+ String pipe y) = Some (x, y).
Proof.
  unfold no_pipe. induction x as [|a x IH]; simpl; [done|].
  intros [Hne Hx]%not_elem_of_cons. destruct (Ascii.eqb_spec a pipe); [by subst|].
  by rewrite IH.
Qed.

Lemma piped_cons x y l : piped (x :: y :: l) = x +:+ String pipe (piped (y :: l)).
Proof. reflexivity. Qed.

Lemma splitn_SS n s :
  splitn (S (S n)) pipe s =
  match cut_at pipe s with None => [s] | Some (x, y) => x :: splitn (S n) pipe y end.
Proof. reflexivity. Qed.

(** Pieces without the separator come back, and so does a last piece that is
    taken as the rest. *)
Lemma splitn_piped n fs l :
  Forall no_pipe fs -> (length fs < n)%nat -> (no_pipe l \/ S (length fs) = n) ->
  splitn n pipe (piped (fs ++ [l])) = fs ++ [l].
Proof.
  revert n. induction fs as [|x fs IH]; intros n Hfs Hn Hl; simpl in *.
  - change (piped [l]) with l. destruct n as [|[|n]]; [lia|done|]. rewrite splitn_SS.
    destruct Hl as [Hl%cut_at_None|?]; [by rewrite Hl|lia].
  - inversion Hfs; subst. destruct n as [|[|n]]; [lia|lia|].
    rewrite splitn_SS. destruct (fs ++ [l]) as [|y ys] eqn:Heq; [by destruct fs|].
    rewrite piped_cons, cut_at_app by done. f_equal. apply IH; [done|lia|].
    destruct Hl; [by left|right; lia].
Qed.

Lemma splitn_plain n fs :
  fs <> [] -> Forall no_pipe fs -> (length fs <= n)%nat -> splitn n pipe (piped fs) = fs.
Proof.
  intros Hne Hfs Hn. destruct fs as [|l fs _] using rev_ind; [done|].
  rewrite length_app in Hn. simpl in Hn. apply Forall_app in Hfs as [Hfs Hl].
  apply splitn_piped; [done|lia|]. left. by inversion Hl.
Qed.

Lemma piped_splitn n s : piped (splitn (S n) pipe s) = s.
Proof.
  revert s. induction n as [|n IH]; intros s; [done|]. rewrite splitn_SS.
  destruct (cut_at pipe s) as [[x y]|] eqn:Hc; [|done].
  apply cut_at_Some in Hc as [-> _]. specialize (IH y).
  destruct (splitn (S n) pipe y) as [|z zs] eqn:Hs; [|by rewrite piped_cons, IH].
  destruct n; simpl in Hs; [done|]. by destruct (cut_at pipe y) as [[]|].
Qed.

Lemma splitn_cons n tag rest :
  no_pipe tag -> splitn (S (S n)) pipe (tag +:+ String pipe rest) = tag :: splitn (S n) pipe rest.
Proof. intros Ht. by rewrite splitn_SS, cut_at_app. Qed.

Lemma splitn_nonempty n s : exists x l, splitn (S n) pipe s = x :: l.
Proof. destruct n; simpl; [eauto|]. destruct (cut_at pipe s) as [[]|]; eauto. Qed.

(** Every piece but the last of the allowed ones is free of the separator. *)
Lemma splitn_lookup n s i x :
  splitn n pipe s !! i = Some x -> (S i < n)%nat -> no_pipe x.
Proof.
  revert s i. induction n as [|[|n] IH]; intros s i Hx Hi; [lia|lia|].
  rewrite splitn_SS in Hx. destruct (cut_at pipe s) as [[y z]|] eqn:Hc.
  - apply cut_at_Some in Hc as [_ Hy]. destruct i as [|i]; simpl in Hx.
    + by injection Hx as <-.
    + eapply IH; [exact Hx|lia].
  - destruct i as [|i]; simpl in Hx; [|done]. injection Hx as <-. by apply cut_at_None.
Qed.

(** ** Printing then parsing *)

Context `{!UuidLaws, !UuidPlain}.

(** An id whose parts are all free of the separator, by its kind. *)
Ltac roundtrip_plain :=
  eexists; split; [reflexivity|]; unfold node_from_str;
  rewrite splitn_plain by
    (done || (repeat apply Forall_cons_2; try apply Forall_nil_2; try done;
              try apply uuid_plain; by apply cut_at_None) || (simpl; lia));
  cbv - [uuid_parse uuid_to_string Uuid piped];
  rewrite ?uuid_roundtrip; reflexivity.

Lemma scripts_folder_roundtrips path :
  node_from_str (piped [P_SCRIPTS_FOLDER; path]) = Ok (ScriptsFolder (Some path)).
Proof.
  unfold node_from_str. rewrite piped_cons, splitn_cons by (by apply cut_at_None).
  change (piped [path]) with path.
  destruct (splitn_nonempty 4 path) as (x & l & Hs). pose proof (piped_splitn 4 path) as Hj.
  rewrite Hs in Hj |- *. cbn - [piped]. by rewrite Hj.
Qed.

(** A script path is everything after the tag. *)
Lemma script_path_parts tag path :
  no_pipe tag -> exists x l, splitn 6 pipe (piped [tag; path]) = tag :: x :: l /\ piped (x :: l) = path.
Proof.
  intros Ht. rewrite piped_cons, splitn_cons by done. change (piped [path]) with path.
  destruct (splitn_nonempty 4 path) as (x & l & Hs). pose proof (piped_splitn 4 path) as Hj.
  rewrite Hs in Hj |- *. eauto.
Qed.

Lemma script_roundtrips path :
  path <> EmptyString ->
  node_from_str (piped [P_SCRIPT_FILE; path]) = Ok (ScriptFile path) /\
  node_from_str (piped [P_SCRIPTS_ROOT; path]) = Ok (ScriptsRoot path).
Proof.
  intros Hne%String.eqb_neq. unfold node_from_str.
  destruct (script_path_parts P_SCRIPT_FILE path) as (x & l & -> & Hj); [by apply cut_at_None|].
  destruct (script_path_parts P_SCRIPTS_ROOT path) as (y & k & -> & Hk); [by apply cut_at_None|].
  cbn - [piped String.eqb]. unfold parse_script_file, parse_scripts_root. simpl drop.
  by rewrite Hj, Hk, Hne.
Qed.

Lemma secret_path_roundtrips u store path :
  no_pipe store ->
  node_from_str (piped [P_SECRET_PATH; uuid_to_string u; store; path]) = Ok (SecretPath u store path).
Proof.
  intros Hs. unfold node_from_str. rewrite 2!piped_cons, !splitn_cons, piped_cons, splitn_cons
    by (done || apply uuid_plain || by apply cut_at_None).
  destruct (splitn_nonempty 2 path) as (x & l & Hp). pose proof (piped_splitn 2 path) as Hj.
  change (piped [path]) with path. rewrite Hp in Hj |- *. cbn - [piped uuid_parse].
  unfold parse_secret_store_variants, uuid_part, part. cbn - [piped uuid_parse].
  rewrite uuid_roundtrip. cbn - [piped uuid_parse]. by rewrite Hj.
Qed.

Lemma collection_child_roundtrips u database collection child_id name :
  Forall no_pipe [database; collection; child_id] ->
  node_from_str (piped [P_COLLECTION_CHILD; uuid_to_string u; database; collection; child_id; name]) =
  Ok (CollectionChild u database collection child_id name).
Proof.
  intros Hf. unfold node_from_str.
  pose proof (splitn_piped 6 [P_COLLECTION_CHILD; uuid_to_string u; database; collection; child_id]
    name) as Hs. simpl app in Hs. rewrite Hs; [|apply Forall_cons_2;
    [by apply cut_at_None|apply Forall_cons_2; [apply uuid_plain|done]]|simpl; lia|by right].
  cbv - [uuid_parse uuid_to_string Uuid piped]. by rewrite uuid_roundtrip.
Qed.

Lemma wf_roundtrips id :
  node_wf id -> exists s, node_to_string id = Some s /\ node_from_str s = Ok id.
Proof.
  intros [Hp Hx]. destruct id; simpl in Hp;
    try match goal with o : option string |- _ => destruct o; simpl in Hp end.
  all: lazymatch goal with
       | |- context [Ok (ScriptsFolder (Some _))] =>
           eexists; split; [reflexivity|exact (scripts_folder_roundtrips _)]
       | |- context [Ok (ScriptFile _)] =>
           eexists; split; [reflexivity|exact (proj1 (script_roundtrips _ Hx))]
       | |- context [Ok (ScriptsRoot _)] =>
           eexists; split; [reflexivity|exact (proj2 (script_roundtrips _ Hx))]
       | |- context [Ok (CollectionChild _ _ _ _ _)] =>
           eexists; split; [reflexivity|exact (collection_child_roundtrips _ _ _ _ _ Hp)]
       | |- context [Ok (SecretPath _ _ _)] =>
           inversion Hp; eexists; split; [reflexivity|by apply secret_path_roundtrips]
       | |- _ => decompose_Forall_hyps; roundtrip_plain
       end.
Qed.

(** ** Parsing gives such ids *)

(** The parts of a text that are not the sixth. *)
Definition plain_parts (parts : list string) : Prop :=
  forall i x, parts !! i = Some x -> (i < 5)%nat -> no_pipe x.

Lemma part_Ok parts i err s : part parts i err = Ok s -> parts !! i = Some s.
Proof. unfold part. destruct (parts !! i); simpl; naive_solver. Qed.

Section Groups.
Context (prefix : string) (parts : list string) (err : ParseSchemaNodeIdError) (id : t).
Context (Hplain : plain_parts parts).

Lemma optional_part_plain i : (i < 5)%nat -> Forall no_pipe (option_list (parts !! i)).
Proof.
  intros Hi. destruct (parts !! i) as [x|] eqn:Hx; simpl; [|done].
  apply Forall_cons_2; [by eapply Hplain|done].
Qed.

Ltac parsed_wf Hplain :=
  repeat case_match; intros; simplify_eq/=; (split; [simpl|done]);
  repeat match goal with H : part _ _ _ = Ok _ |- _ => apply part_Ok in H end;
  repeat (apply Forall_cons_2; [by eapply Hplain; [eassumption|lia]|]);
  try apply Forall_nil_2; try (apply optional_part_plain; lia).

Lemma connection_scope_wf : parse_connection_scope prefix parts err = Ok id -> node_wf id.
Proof. unfold parse_connection_scope. parsed_wf Hplain. Qed.

Lemma folder_variants_wf : parse_folder_variants prefix parts err = Ok id -> node_wf id.
Proof. unfold parse_folder_variants. parsed_wf Hplain. Qed.

Lemma object_variants_wf : parse_object_variants prefix parts err = Ok id -> node_wf id.
Proof. unfold parse_object_variants. parsed_wf Hplain. Qed.

Lemma table_detail_folders_wf : parse_table_detail_folders prefix parts err = Ok id -> node_wf id.
Proof. unfold parse_table_detail_folders. parsed_wf Hplain. Qed.

Lemma detail_variants_wf : parse_detail_variants prefix parts err = Ok id -> node_wf id.
Proof. unfold parse_detail_variants. parsed_wf Hplain. Qed.

Lemma collection_detail_variants_wf : parse_collection_detail_variants prefix parts err = Ok id -> node_wf id.
Proof. unfold parse_collection_detail_variants. parsed_wf Hplain. Qed.

Lemma type_detail_variants_wf : parse_type_detail_variants prefix parts err = Ok id -> node_wf id.
Proof. unfold parse_type_detail_variants. parsed_wf Hplain. Qed.

Lemma placeholder_and_dependents_wf : parse_placeholder_and_dependents prefix parts err = Ok id -> node_wf id.
Proof. unfold parse_placeholder_and_dependents. parsed_wf Hplain. Qed.

Lemma routine_variants_wf : parse_routine_variants prefix parts err = Ok id -> node_wf id.
Proof. unfold parse_routine_variants. parsed_wf Hplain. Qed.

Lemma metric_variants_wf : parse_metric_variants prefix parts err = Ok id -> node_wf id.
Proof. unfold parse_metric_variants. parsed_wf Hplain. Qed.

Lemma dashboard_and_chart_variants_wf : parse_dashboard_and_chart_variants prefix parts err = Ok id -> node_wf id.
Proof. unfold parse_dashboard_and_chart_variants. parsed_wf Hplain. Qed.

Lemma instance_variants_wf : parse_instance_variants prefix parts err = Ok id -> node_wf id.
Proof. unfold parse_instance_variants. parsed_wf Hplain. Qed.

Lemma secret_store_variants_wf : parse_secret_store_variants prefix parts err = Ok id -> node_wf id.
Proof. unfold parse_secret_store_variants. parsed_wf Hplain. Qed.

Lemma script_file_wf : parse_script_file parts err = Ok id -> node_wf id.
Proof.
  unfold parse_script_file. destruct (String.eqb_spec (piped (drop 1 parts)) EmptyString);
    [done|]. intros [= <-]. by split.
Qed.

Lemma scripts_root_wf : parse_scripts_root parts err = Ok id -> node_wf id.
Proof.
  unfold parse_scripts_root. destruct (String.eqb_spec (piped (drop 1 parts)) EmptyString);
    [done|]. intros [= <-]. by split.
Qed.

End Groups.

Lemma parsed_wf s id : node_from_str s = Ok id -> node_wf id.
Proof.
  unfold node_from_str. pose proof (fun i x => splitn_lookup 6 s i x) as Hs.
  assert (plain_parts (splitn 6 pipe s)) as Hp by (intros i x ? ?; eapply Hs; [done|lia]).
  clear Hs. destruct (splitn 6 pipe s) as [|prefix rest]; [done|].
  repeat case_match; try done; intros; simplify_eq;
    eauto using connection_scope_wf, folder_variants_wf, object_variants_wf,
      table_detail_folders_wf, detail_variants_wf, collection_detail_variants_wf,
      type_detail_variants_wf, placeholder_and_dependents_wf, routine_variants_wf,
      metric_variants_wf, dashboard_and_chart_variants_wf, instance_variants_wf,
      secret_store_variants_wf, script_file_wf, scripts_root_wf; by split.
Qed.

(** An id of the schema tree always prints, and it parses back to itself
    exactly when none of its names holds the separator (a script path, the path
    of a secret and the name of a collection child may hold it, and a script
    path must not be empty). *)
Theorem node_id_roundtrip id :
  exists s, node_to_string id = Some s /\ (node_from_str s = Ok id <-> node_wf id).
Proof.
  assert (exists s, node_to_string id = Some s) as [s Hs].
  { destruct id; try match goal with o : option string |- _ => destruct o end; by eexists. }
  exists s. split; [done|]. split; [apply parsed_wf|].
  intros Hw. destruct (wf_roundtrips id Hw) as (s' & Hs' & Hr). congruence.
Qed.

(** Every text the parser accepts denotes one row: printing the parsed id
    and parsing it again gives the same id, whatever spelling the text used. *)
Theorem parsed_node_id_is_stable s id :
  node_from_str s = Ok id ->
  exists s', node_to_string id = Some s' /\ node_from_str s' = Ok id.
Proof. intros Hw%parsed_wf. by apply wf_roundtrips. Qed.

(** A name that holds the separator takes the id of another row: a table [a|b]
    without a database and the table [a] of the database [b] print alike. *)
Lemma piped_names_collide u schema a b :
  node_to_string (Table u None schema (a +:+ String pipe b)) =
  node_to_string (Table u (Some b) schema a).
Proof. reflexivity. Qed.

(** The rest of a routine's or a metric's name after the separator is lost: only
    the sixth part of a text takes the rest, and these names are the fourth and
    the fifth. *)
Lemma piped_routine_name_is_cut u schema a b :
  no_pipe schema -> no_pipe a -> no_pipe b ->
  node_from_str (piped [P_ROUTINE; uuid_to_string u; schema; a +:+ String pipe b]) =
  Ok (Routine u schema a).
Proof.
  intros Hs Ha Hb. unfold node_from_str.
  change (piped [P_ROUTINE; uuid_to_string u; schema; a +:+ String pipe b])
    with (piped [P_ROUTINE; uuid_to_string u; schema; a; b]).
  rewrite splitn_plain; [|done| |simpl; lia].
  2:{ repeat apply Forall_cons_2; try done;
      apply uuid_plain || by apply cut_at_None. }
  cbv - [uuid_parse uuid_to_string Uuid piped]. by rewrite uuid_roundtrip.
Qed.

End RoundTrip.

(** ** On concrete ids *)

(** Two identifiers, written [0] and [1]. *)
Definition bit_uuid : UuidLib := {|
  Uuid := bool;
  uuid_to_string b := if b then "1" else "0";
  uuid_parse s := if String.eqb s "1" then Ok true
                  else if String.eqb s "0" then Ok false else Err "invalid";
|}.

Lemma bit_uuid_laws : @UuidLaws bit_uuid.
Proof. by intros []. Qed.

Lemma bit_uuid_plain : @UuidPlain bit_uuid.
Proof. by intros []; apply cut_at_None. Qed.

Lemma node_id_roundtrip_witness :
  exists s, @node_to_string bit_uuid (@SchemaNodeId.CollectionChild bit_uuid true "db" "c" "id" "a|b")
              = Some s /\
    @node_from_str bit_uuid s = Ok (@SchemaNodeId.CollectionChild bit_uuid true "db" "c" "id" "a|b").
Proof.
  destruct (@node_id_roundtrip bit_uuid bit_uuid_laws bit_uuid_plain
    (@SchemaNodeId.CollectionChild bit_uuid true "db" "c" "id" "a|b")) as (s & Hs & Hr).
  exists s. split; [exact Hs|]. apply Hr. split; [|exact I].
  repeat apply Forall_cons_2; try apply Forall_nil_2; by apply cut_at_None.
Defined.

Lemma parsed_node_id_is_stable_witness :
  exists s', @node_to_string bit_uuid (@SchemaNodeId.Table bit_uuid false (Some "d") "s" "t")
               = Some s' /\
    @node_from_str bit_uuid s' = Ok (@SchemaNodeId.Table bit_uuid false (Some "d") "s" "t").
Proof.
  apply (@parsed_node_id_is_stable bit_uuid bit_uuid_laws bit_uuid_plain "T|0|s|t|d|ignored").
  vm_compute. reflexivity.
Defined.
