(* ===== verification/Tasks.v ===== *)
(** * Tasks and shutdown (crates/dbflux_core: core/task.rs, core/shutdown.rs)

    The task manager, the single-occupancy slot and the tokens they share.  A
    cancel token is a reference to an atomic flag that clones share, so the flags
    live in a store and a token is a key of it ([Tokens]).

    The map of tasks is the list of its entries in some iteration order; nothing
    stated about it depends on the order.  [Instant::now] is an argument, in
    nanoseconds. *)

From S2P Require Import Prelude RustStr External.

Module Tasks.

Inductive HookPhase : Type := PreConnect | PostConnect | PreDisconnect | PostDisconnect.

Inductive TaskKind : Type :=
| Query | Connect | Disconnect | Hook (phase : HookPhase) | SwitchDatabase | LoadSchema
| SchemaRefresh | SchemaDrop | Export | Import | Migrate | KeyScan | KeyGet | KeyMutation
| DumpAnalysis.

Definition supports_cancellation (k : TaskKind) : bool :=
  match k with KeyGet | KeyMutation => false | _ => true end.

Inductive TaskStatus : Type := Running | Completed | Failed (error : string) | Cancelled.

#[export] Instance task_status_eq_dec : EqDecision TaskStatus.
Proof. solve_decision. Defined.

Definition is_terminal (s : TaskStatus) : bool := negb (bool_decide (s = Running)).

Definition MAX_TASK_DETAILS_BYTES : nat := N.to_nat (4 * 1024 * 1024).
Definition TASK_DETAILS_TRUNCATED_NOTICE : list ascii :=
  "010"%char :: bytes_of "[output truncated]" ++ ["010"%char].

(** ** Limited appending *)

(** [char_indices]: the bytes of each character. *)
Fixpoint take_fitting (max_bytes : nat) (acc l : list ascii) : list ascii :=
  match l with
  | [] => if Nat.leb (length acc) max_bytes then acc else []
  | b :: l' =>
      if is_continuation b then take_fitting max_bytes (acc ++ [b]) l'
      else if Nat.leb (length acc) max_bytes then
        acc ++ take_fitting (max_bytes - length acc) [b] l'
      else []
  end.

(** The longest prefix of whole characters within the limit; [take_fitting]
    collects the bytes of a character in [acc] and keeps it when it fits. *)
Definition safe_prefix_by_bytes (input : list ascii) (max_bytes : nat) : list ascii :=
  if Nat.leb (length input) max_bytes then input else take_fitting max_bytes [] input.

(** [str::contains]. *)
Fixpoint contains_bytes (needle l : list ascii) : bool :=
  bool_decide (take (length needle) l = needle) ||
  match l with [] => false | _ :: l' => contains_bytes needle l' end.

Definition append_with_limit (target chunk : list ascii) (max_bytes : nat)
    (truncated_notice : list ascii) : list ascii :=
  if contains_bytes truncated_notice target then target
  else
    let remaining := (max_bytes - length target)%nat in
    if Nat.eqb remaining 0 then target
    else if Nat.leb (length chunk) remaining then target ++ chunk
    else if Nat.ltb (length truncated_notice) remaining then
      target ++ safe_prefix_by_bytes chunk (remaining - length truncated_notice) ++ truncated_notice
    else target ++ safe_prefix_by_bytes truncated_notice remaining.

(** ** Tokens *)

Record Tokens := mkTokens { next_token : nat; cancelled : gset nat }.

Definition token_new (ts : Tokens) : Tokens * nat :=
  (mkTokens (S (next_token ts)) (cancelled ts), next_token ts).
Definition token_cancel (tok : nat) (ts : Tokens) : Tokens :=
  mkTokens (next_token ts) ({[tok]} ∪ cancelled ts).
Definition is_cancelled (ts : Tokens) (tok : nat) : bool := bool_decide (tok ∈ cancelled ts).

(** [f32] progress, with [clamp(0.0, 1.0)]. *)
Class F32Lib := { f32 : Type; f32_clamp_unit : f32 -> f32 }.

Section Tasks.
Context `{UuidLib} `{F32Lib}.

Record TaskTarget := mkTarget { tt_profile_id : Uuid; tt_database : option string }.

Record Task := mkTask {
  t_id : Uuid;
  t_kind : TaskKind;
  t_description : string;
  t_status : TaskStatus;
  t_started_at : Z;
  t_completed_at : option Z;
  t_progress : option f32;
  t_details : option (list ascii);
  t_profile_id : option Uuid;
  t_target : option TaskTarget;
  t_query_text : option string;
  t_cancel_token : nat;
  t_accepts_cancel : bool;
}.

(** The fields the operations write. *)
Definition set_status (s : TaskStatus) (now : Z) (t : Task) : Task :=
  mkTask (t_id t) (t_kind t) (t_description t) s (t_started_at t) (Some now) (t_progress t)
    (t_details t) (t_profile_id t) (t_target t) (t_query_text t) (t_cancel_token t)
    (t_accepts_cancel t).
Definition set_progress (p : f32) (t : Task) : Task :=
  mkTask (t_id t) (t_kind t) (t_description t) (t_status t) (t_started_at t) (t_completed_at t)
    (Some p) (t_details t) (t_profile_id t) (t_target t) (t_query_text t) (t_cancel_token t)
    (t_accepts_cancel t).
Definition set_details (d : option (list ascii)) (t : Task) : Task :=
  mkTask (t_id t) (t_kind t) (t_description t) (t_status t) (t_started_at t) (t_completed_at t)
    (t_progress t) d (t_profile_id t) (t_target t) (t_query_text t) (t_cancel_token t)
    (t_accepts_cancel t).
Definition set_query (q : string) (t : Task) : Task :=
  mkTask (t_id t) (t_kind t) (t_description t) (t_status t) (t_started_at t) (t_completed_at t)
    (t_progress t) (t_details t) (t_profile_id t) (t_target t) (Some q) (t_cancel_token t)
    (t_accepts_cancel t).
Definition refuse_cancel (t : Task) : Task :=
  mkTask (t_id t) (t_kind t) (t_description t) (t_status t) (t_started_at t) (t_completed_at t)
    (t_progress t) (t_details t) (t_profile_id t) (t_target t) (t_query_text t) (t_cancel_token t)
    false.

Definition is_running (t : Task) : bool := bool_decide (t_status t = Running).

Definition is_cancellable (t : Task) : bool :=
  is_running t && t_accepts_cancel t && supports_cancellation (t_kind t).

(** ** The manager *)

Definition TaskMap : Type := list Task.

Definition get (m : TaskMap) (id : Uuid) : option Task :=
  List.find (fun t => bool_decide (t_id t = id)) m.

(** [get_mut] and a write: the entry with the key changes. *)
Definition update (id : Uuid) (f : Task -> Task) (m : TaskMap) : TaskMap :=
  map (fun t => if bool_decide (t_id t = id) then f t else t) m.

(** [HashMap::insert]. *)
Definition insert_task (t : Task) (m : TaskMap) : TaskMap :=
  List.filter (fun u => negb (bool_decide (t_id u = t_id t))) m ++ [t].

Record TaskWorld := mkTaskWorld {
  tasks : TaskMap;
  tokens : Tokens;
  slot : option (Uuid * nat);
}.

Definition with_tasks (w : TaskWorld) (m : TaskMap) : TaskWorld := mkTaskWorld m (tokens w) (slot w).

Definition start_for_target (id : Uuid) (now : Z) (kind : TaskKind) (description : string)
    (target : option TaskTarget) (w : TaskWorld) : TaskWorld * (Uuid * nat) :=
  let '(ts, tok) := token_new (tokens w) in
  let task := mkTask id kind description Running now None None None (tt_profile_id <$> target)
                target None tok true in
  (mkTaskWorld (insert_task task (tasks w)) ts (slot w), (id, tok)).

Definition mark_uncancellable (id : Uuid) (w : TaskWorld) : TaskWorld :=
  with_tasks w (update id refuse_cancel (tasks w)).
Definition set_query_text (id : Uuid) (q : string) (w : TaskWorld) : TaskWorld :=
  with_tasks w (update id (set_query q) (tasks w)).

(** A write that only a running task takes. *)
Definition update_running (id : Uuid) (f : Task -> Task) (w : TaskWorld) : TaskWorld :=
  with_tasks w (update id (fun t => if is_running t then f t else t) (tasks w)).

(** Details worth keeping. *)
Definition kept_details (d : list ascii) : option (list ascii) :=
  if is_blank (of_bytes d) then None else Some d.

Definition complete (id : Uuid) (now : Z) : TaskWorld -> TaskWorld :=
  update_running id (set_status Completed now).
Definition complete_with_details (id : Uuid) (now : Z) (details : list ascii)
  : TaskWorld -> TaskWorld :=
  update_running id (fun t => set_details (kept_details details) (set_status Completed now t)).
Definition fail (id : Uuid) (now : Z) (error : string) : TaskWorld -> TaskWorld :=
  update_running id (set_status (Failed error) now).
Definition fail_with_details (id : Uuid) (now : Z) (error : string) (details : list ascii)
  : TaskWorld -> TaskWorld :=
  update_running id (fun t => set_details (kept_details details) (set_status (Failed error) now t)).

Definition append_details (id : Uuid) (chunk : list ascii) (w : TaskWorld) : TaskWorld :=
  if bool_decide (chunk = []) then w
  else update_running id (fun t =>
         set_details (Some (append_with_limit (default [] (t_details t)) chunk
                              MAX_TASK_DETAILS_BYTES TASK_DETAILS_TRUNCATED_NOTICE)) t) w.

Definition update_progress (id : Uuid) (p : f32) : TaskWorld -> TaskWorld :=
  update_running id (set_progress (f32_clamp_unit p)).

Definition cancel (id : Uuid) (now : Z) (w : TaskWorld) : TaskWorld * bool :=
  match get (tasks w) id with
  | Some t =>
      if is_running t then
        (mkTaskWorld (update id (set_status Cancelled now) (tasks w))
           (token_cancel (t_cancel_token t) (tokens w)) (slot w), true)
      else (w, false)
  | None => (w, false)
  end.

(** One round of the loop of [cancel_all]. *)
Definition cancel_one (now : Z) (acc : TaskWorld * nat) (id : Uuid) : TaskWorld * nat :=
  let '(w, n) := acc in
  let '(w', b) := cancel id now w in
  (w', if b : bool then S n else n).
Definition cancel_all (now : Z) (w : TaskWorld) : TaskWorld * nat :=
  foldl (cancel_one now) (w, 0%nat) (map t_id (List.filter is_running (tasks w))).

(** [as_secs] of the age, against [max_age_secs]. *)
Definition kept_by_cleanup (now max_age_secs : Z) (t : Task) : bool :=
  match t_status t with
  | Failed _ => true
  | s => if is_terminal s then
           match t_completed_at t with
           | Some c => Z.max 0 (now - c) / 10 ^ 9 <? max_age_secs
           | None => true
           end
         else true
  end.
Definition cleanup_completed (now max_age_secs : Z) (w : TaskWorld) : TaskWorld :=
  with_tasks w (List.filter (kept_by_cleanup now max_age_secs) (tasks w)).

Definition remove (id : Uuid) (w : TaskWorld) : TaskWorld :=
  with_tasks w (List.filter (fun t => negb (bool_decide (t_id t = id))) (tasks w)).

Definition running_tasks (w : TaskWorld) : list Task := List.filter is_running (tasks w).
Definition active_count (w : TaskWorld) : nat := length (List.filter is_running (tasks w)).
Definition has_running_tasks (w : TaskWorld) : bool := existsb is_running (tasks w).

Definition is_background (k : TaskKind) : bool :=
  match k with
  | Connect | Disconnect | Hook _ | SwitchDatabase | LoadSchema | SchemaRefresh | SchemaDrop
  | KeyScan => true
  | _ => false
  end.
Definition background_task_count (w : TaskWorld) : nat :=
  length (List.filter (fun t => is_running t && is_background (t_kind t)) (tasks w)).

(** ** The slot *)

Definition with_slot (w : TaskWorld) (ts : Tokens) (s : option (Uuid * nat)) : TaskWorld :=
  mkTaskWorld (tasks w) ts s.

Definition slot_start (id : Uuid) (tok : nat) (w : TaskWorld) : TaskWorld * option Uuid :=
  match slot w with
  | Some (old_id, old_token) =>
      (with_slot w (token_cancel old_token (tokens w)) (Some (id, tok)), Some old_id)
  | None => (with_slot w (tokens w) (Some (id, tok)), None)
  end.

Definition slot_cancel (w : TaskWorld) : TaskWorld * option Uuid :=
  match slot w with
  | Some (id, tok) => (with_slot w (token_cancel tok (tokens w)) None, Some id)
  | None => (w, None)
  end.

Definition slot_take (w : TaskWorld) : TaskWorld * option (Uuid * nat) :=
  (with_slot w (tokens w) None, slot w).

Definition slot_take_if (expected : Uuid) (w : TaskWorld) : TaskWorld * option (Uuid * nat) :=
  match slot w with
  | Some (id, tok) =>
      if bool_decide (id = expected) then (with_slot w (tokens w) None, Some (id, tok)) else (w, None)
  | None => (w, None)
  end.

Definition slot_is_active (w : TaskWorld) : bool :=
  match slot w with Some (_, tok) => negb (is_cancelled (tokens w) tok) | None => false end.

End Tasks.
End Tasks.
