(* ===== verification/TasksProps.v ===== *)
(** * Tasks end once

    A task that has ended keeps its outcome; its record is consistent at all
    times; cancelling everything leaves nothing running; details stay within
    their limit and are cut between characters; a slot holds only its newest
    task. *)

From S2P Require Import Prelude RustStr External Concrete Tasks.
Import Tasks.

(** ** Limited appending *)

(** A byte that starts a character, or the end of the text. *)
Definition at_boundary (l : list ascii) : Prop :=
  match l with [] => True | b :: _ => is_continuation b = false end.

Lemma take_fitting_spec l : forall max acc,
  at_boundary (acc ++ l) ->
  exists rest, acc ++ l = take_fitting max acc l ++ rest /\
    (length (take_fitting max acc l) <= max)%nat /\ at_boundary rest.
Proof.
  induction l as [|b l IH]; intros max acc Hb; simpl.
  - destruct (Nat.leb_spec (length acc) max); [exists []; by rewrite !app_nil_r|].
    exists acc. rewrite app_nil_r in *. simpl. split_and!; [done|lia|done].
  - destruct (is_continuation b) eqn:Hc.
    + destruct (IH max (acc ++ [b])) as (rest & Hr & ?); [by rewrite <- app_assoc|].
      rewrite <- app_assoc in Hr. by exists rest.
    + destruct (Nat.leb_spec (length acc) max).
      * destruct (IH (max - length acc)%nat [b]) as (rest & Hr & Hlen & Hbr); [done|].
        exists rest. simpl in Hr. rewrite <- app_assoc, <- Hr, length_app. split_and!; [done|lia|done].
      * exists (acc ++ b :: l). simpl. split_and!; [done|lia|done].
Qed.

Lemma safe_prefix_spec input max :
  at_boundary input ->
  exists rest, input = safe_prefix_by_bytes input max ++ rest /\
    (length (safe_prefix_by_bytes input max) <= max)%nat /\ at_boundary rest.
Proof.
  intros Hb. unfold safe_prefix_by_bytes. destruct (Nat.leb_spec (length input) max).
  - exists []. by rewrite app_nil_r.
  - by apply (take_fitting_spec input max []).
Qed.

(** Appending to the details of a task keeps what is there, never exceeds the
    limit, and takes the new text up to a place between two characters, with all
    of it when it fits. *)
Theorem details_stay_within_their_limit target chunk max notice :
  (length target <= max)%nat -> at_boundary chunk -> at_boundary notice ->
  let r := append_with_limit target chunk max notice in
  (length r <= max)%nat /\
  (r = target \/
   r = target ++ chunk /\ (length (target ++ chunk) <= max)%nat \/
   (exists taken rest, chunk = taken ++ rest /\ at_boundary rest /\ r = target ++ taken ++ notice) \/
   exists taken rest, notice = taken ++ rest /\ at_boundary rest /\ r = target ++ taken).
Proof.
  intros Ht Hc Hn. unfold append_with_limit. cbn zeta.
  destruct (contains_bytes notice target); [by auto|].
  destruct (Nat.eqb_spec (max - length target) 0); [by auto|].
  destruct (Nat.leb_spec (length chunk) (max - length target)).
  { assert (length (target ++ chunk) <= max)%nat by (rewrite length_app; lia). auto. }
  destruct (Nat.ltb_spec (length notice) (max - length target)).
  - destruct (safe_prefix_spec chunk (max - length target - length notice) Hc) as (rest & Hr & Hl & Hb).
    split; [rewrite !length_app; lia|]. right. right. left. by eexists _, rest.
  - destruct (safe_prefix_spec notice (max - length target) Hn) as (rest & Hr & Hl & Hb).
    split; [rewrite !length_app; lia|]. right. right. right. by eexists _, rest.
Qed.

Section Runs.
Context `{UuidLib} `{F32Lib}.

(** ** Entries *)

Lemma get_elem (m : TaskMap) id t : get m id = Some t -> t ∈ m /\ t_id t = id.
Proof.
  unfold get. intros [Hin Hid]%find_some. split; [by apply list_elem_of_In|].
  by apply bool_decide_eq_true in Hid.
Qed.

Lemma get_update (m : TaskMap) id f x :
  (forall t, t_id (f t) = t_id t) ->
  get (update id f m) x = (fun t => if bool_decide (t_id t = id) then f t else t) <$> get m x.
Proof.
  intros Hf. unfold get, update. induction m as [|t m IH]; simpl; [done|].
  assert (t_id (if bool_decide (t_id t = id) then f t else t) = t_id t) as -> by (by case_bool_decide).
  by destruct (bool_decide (t_id t = x)).
Qed.

Lemma get_app (l1 l2 : TaskMap) x :
  get (l1 ++ l2) x = match get l1 x with Some t => Some t | None => get l2 x end.
Proof. unfold get. induction l1 as [|t l1 IH]; simpl; [done|]. by destruct (bool_decide _). Qed.

Lemma get_found (m : TaskMap) t : NoDup (map t_id m) -> t ∈ m -> get m (t_id t) = Some t.
Proof.
  unfold get. induction m as [|u m IH]; simpl; [by intros _ ?%elem_of_nil|].
  intros [Hu Hnd]%NoDup_cons [->|Ht]%elem_of_cons; [by rewrite bool_decide_true|].
  rewrite bool_decide_false; [by apply IH|]. intros Heq. apply Hu. rewrite Heq.
  by apply list_elem_of_fmap_2.
Qed.

(** Entries that a filter keeps are found as before, when keys are distinct. *)
Lemma get_filter p (m : TaskMap) x :
  NoDup (map t_id m) ->
  get (List.filter p m) x = t ← get m x; if p t : bool then Some t else None.
Proof.
  unfold get. induction m as [|t m IH]; simpl; [done|]. intros [Hno Hnd]%NoDup_cons.
  destruct (p t) eqn:Hp; simpl; destruct (bool_decide (t_id t = x)) eqn:Hx; simpl;
    rewrite ?Hp; try done; [by apply IH| |by apply IH].
  apply bool_decide_eq_true in Hx. subst x.
  destruct (List.find _ _) as [u|] eqn:Hu; [|done]. exfalso. apply Hno.
  apply find_some in Hu as [[Hu _]%List.filter_In Hid%bool_decide_eq_true].
  rewrite <- Hid. apply list_elem_of_fmap_2. by apply list_elem_of_In.
Qed.

(** ** Records are consistent *)

Record task_wf (ts : Tokens) (t : Task) : Prop := {
  wf_completed : is_terminal (t_status t) = true <-> is_Some (t_completed_at t);
  wf_cancelled : t_status t = Cancelled -> is_cancelled ts (t_cancel_token t) = true;
  wf_details d : t_status t = Running -> t_details t = Some d -> (length d <= MAX_TASK_DETAILS_BYTES)%nat;
  wf_token : (t_cancel_token t < next_token ts)%nat;
}.

Record tasks_wf (w : TaskWorld) : Prop := {
  wf_ids : NoDup (map t_id (tasks w));
  wf_tasks : Forall (task_wf (tokens w)) (tasks w);
}.

Inductive TaskOp : Type :=
| OpStart (id : Uuid) (now : Z) (kind : TaskKind) (description : string) (target : option TaskTarget)
| OpMarkUncancellable (id : Uuid)
| OpSetQueryText (id : Uuid) (q : string)
| OpComplete (id : Uuid) (now : Z)
| OpCompleteWithDetails (id : Uuid) (now : Z) (details : list ascii)
| OpAppendDetails (id : Uuid) (chunk : list ascii)
| OpFail (id : Uuid) (now : Z) (error : string)
| OpFailWithDetails (id : Uuid) (now : Z) (error : string) (details : list ascii)
| OpCancel (id : Uuid) (now : Z)
| OpCancelAll (now : Z)
| OpUpdateProgress (id : Uuid) (p : f32)
| OpCleanup (now max_age_secs : Z)
| OpRemove (id : Uuid)
| OpSlotStart (id : Uuid) (tok : nat)
| OpSlotCancel
| OpSlotTake
| OpSlotTakeIf (id : Uuid).

Definition run_op (w : TaskWorld) (op : TaskOp) : TaskWorld :=
  match op with
  | OpStart id now kind description target => (start_for_target id now kind description target w).1
  | OpMarkUncancellable id => mark_uncancellable id w
  | OpSetQueryText id q => set_query_text id q w
  | OpComplete id now => complete id now w
  | OpCompleteWithDetails id now d => complete_with_details id now d w
  | OpAppendDetails id chunk => append_details id chunk w
  | OpFail id now e => fail id now e w
  | OpFailWithDetails id now e d => fail_with_details id now e d w
  | OpCancel id now => (cancel id now w).1
  | OpCancelAll now => (cancel_all now w).1
  | OpUpdateProgress id p => update_progress id p w
  | OpCleanup now age => cleanup_completed now age w
  | OpRemove id => remove id w
  | OpSlotStart id tok => (slot_start id tok w).1
  | OpSlotCancel => (slot_cancel w).1
  | OpSlotTake => (slot_take w).1
  | OpSlotTakeIf id => (slot_take_if id w).1
  end.

Lemma task_wf_tokens ts ts' t :
  (next_token ts <= next_token ts')%nat -> cancelled ts ⊆ cancelled ts' -> task_wf ts t -> task_wf ts' t.
Proof.
  intros Hn Hc [H1 H2 H3 H4]. split; [done| |done|lia]. intros Hs%H2. unfold is_cancelled in *.
  rewrite bool_decide_eq_true in *. by apply Hc.
Qed.

(** Writes entry by entry. *)
Lemma tasks_wf_update w ts s id f :
  tasks_wf w -> (next_token (tokens w) <= next_token ts)%nat -> cancelled (tokens w) ⊆ cancelled ts ->
  (forall t, t_id (f t) = t_id t) ->
  (forall t, t ∈ tasks w -> t_id t = id -> task_wf (tokens w) t -> task_wf ts (f t)) ->
  tasks_wf (mkTaskWorld (update id f (tasks w)) ts s).
Proof.
  intros [Hnd Hall] Hn Hc Hid Hf. split; simpl.
  - assert (map t_id (update id f (tasks w)) = map t_id (tasks w)) as ->; [|done].
    unfold update. rewrite map_map. apply map_ext. intros t. case_bool_decide; [apply Hid|done].
  - rewrite Forall_forall in *. intros t Ht. unfold update in Ht.
    apply list_elem_of_fmap in Ht as (u & -> & Hu). case_bool_decide; [apply Hf; auto|].
    eapply task_wf_tokens; [done..|auto].
Qed.

Lemma tasks_wf_running w id f :
  tasks_wf w -> (forall t, t_id (f t) = t_id t) ->
  (forall t, t_status t = Running -> task_wf (tokens w) t -> task_wf (tokens w) (f t)) ->
  tasks_wf (update_running id f w).
Proof.
  intros Hw Hid Hf. apply tasks_wf_update; [done..| |].
  - intros t. by destruct (is_running t).
  - intros t _ _ Ht. destruct (is_running t) eqn:Hr; [|done].
    apply Hf; [by apply bool_decide_eq_true in Hr|done].
Qed.

Lemma tasks_wf_filter w p : tasks_wf w -> tasks_wf (with_tasks w (List.filter p (tasks w))).
Proof.
  intros [Hnd Hall]. split; simpl.
  - eapply sublist_NoDup; [exact Hnd|]. apply (fmap_sublist t_id), filter_sublist.
  - rewrite Forall_forall in *. intros t [Ht _]%filter_elem. auto.
Qed.

(** Ending a task. *)
Lemma task_wf_end ts t s now :
  s <> Running -> s <> Cancelled -> task_wf ts t -> task_wf ts (set_status s now t).
Proof.
  intros Hr Hc [_ _ _ Ht]. split; simpl; [|done|done|done].
  unfold is_terminal. rewrite bool_decide_false by done. split; [by eexists|done].
Qed.

Lemma task_wf_details ts t d :
  (t_status t = Running -> forall x, d = Some x -> (length x <= MAX_TASK_DETAILS_BYTES)%nat) ->
  task_wf ts t -> task_wf ts (set_details d t).
Proof. intros Hd [? ? ? ?]. split; simpl; try done. eauto. Qed.

Lemma append_limit target chunk max notice :
  (length target <= max)%nat -> (length (append_with_limit target chunk max notice) <= max)%nat.
Proof.
  assert (forall l m acc, (length (take_fitting m acc l) <= m)%nat) as Htf.
  { induction l as [|b l IH]; intros m acc; simpl.
    - destruct (Nat.leb_spec (length acc) m); simpl; lia.
    - destruct (is_continuation b); [apply IH|]. destruct (Nat.leb_spec (length acc) m); [|simpl; lia].
      rewrite length_app. specialize (IH (m - length acc)%nat [b]). lia. }
  assert (forall l m, (length (safe_prefix_by_bytes l m) <= m)%nat) as Hsp.
  { intros l m. unfold safe_prefix_by_bytes. destruct (Nat.leb_spec (length l) m); [done|apply Htf]. }
  intros Ht. unfold append_with_limit. cbn zeta. destruct (contains_bytes notice target); [done|].
  destruct (Nat.eqb_spec (max - length target) 0); [done|].
  destruct (Nat.leb_spec (length chunk) (max - length target)); [rewrite length_app; lia|].
  destruct (Nat.ltb_spec (length notice) (max - length target)); rewrite !length_app.
  - specialize (Hsp chunk (max - length target - length notice)%nat). lia.
  - specialize (Hsp notice (max - length target)%nat). lia.
Qed.

Lemma cancel_wf w id now : tasks_wf w -> tasks_wf (cancel id now w).1.
Proof.
  intros Hw. unfold cancel. destruct (get (tasks w) id) as [t|] eqn:Hg; [|done].
  destruct (is_running t); [|done]. apply get_elem in Hg as [Hin Hid].
  apply tasks_wf_update; simpl; [done|done|set_solver|done|].
  intros u Hu Hui [_ _ _ Htok].
  assert (u = t) as ->.
  { pose proof (wf_ids w Hw) as Hnd. apply list_elem_of_lookup in Hin as [i Hi], Hu as [j Hj].
    assert (i = j) as ->; [|naive_solver]. eapply (NoDup_lookup (t_id <$> tasks w) i j id); [done|..];
      rewrite list_lookup_fmap; [rewrite Hi|rewrite Hj]; simpl; congruence. }
  split; simpl; [split; [by eexists|done]| |done|done].
  intros _. unfold is_cancelled. apply bool_decide_eq_true. simpl. set_solver.
Qed.

Lemma cancel_all_wf l : forall acc now, tasks_wf acc.1 -> tasks_wf (foldl (cancel_one now) acc l).1.
Proof.
  induction l as [|id l IH]; intros [w n] now Hw; simpl; [done|].
  pose proof (cancel_wf w id now Hw). destruct (cancel id now w). by apply IH.
Qed.

Lemma start_wf w id now kind d target :
  tasks_wf w -> tasks_wf (start_for_target id now kind d target w).1.
Proof.
  intros [Hnd Hall]. unfold start_for_target, insert_task. simpl. split; simpl.
  - rewrite map_app. apply NoDup_app. split_and!; [| |apply NoDup_singleton].
    + eapply sublist_NoDup; [exact Hnd|]. apply (fmap_sublist t_id), filter_sublist.
    + intros x (t & -> & [_ Ht%negb_true_iff%bool_decide_eq_false]%filter_elem)%list_elem_of_fmap.
      simpl in *. by rewrite list_elem_of_singleton.
  - apply Forall_app. split.
    + rewrite Forall_forall in *. intros t [Ht _]%filter_elem.
      eapply task_wf_tokens; [| |by apply Hall]; simpl; [lia|done].
    + apply Forall_singleton. split; simpl; [split; [done|by intros []]|done|done|lia].
Qed.

(** C40: the records of the tasks stay consistent under every operation: keys are
    distinct, a task has an end exactly when it is not running, a cancelled task
    has its token set, and the details of a running task are within their
    limit. *)
Theorem task_records_stay_consistent w op : tasks_wf w -> tasks_wf (run_op w op).
Proof.
  intros Hw. destruct op as [id now kind d target|id|id q|id now|id now d|id chunk|id now e|id now e d
    |id now|now|id p|now age|id|id tok| | |id]; simpl.
  - by apply start_wf.
  - apply tasks_wf_update; [done..|]. intros t _ _ []. by split.
  - apply tasks_wf_update; [done..|]. intros t _ _ []. by split.
  - apply tasks_wf_running; [done..|]. intros. by apply task_wf_end.
  - apply tasks_wf_running; [done..|]. intros. apply task_wf_details; [done|]. by apply task_wf_end.
  - unfold append_details. case_bool_decide; [done|]. apply tasks_wf_running; [done..|].
    intros t Hr Ht. apply task_wf_details; [|done]. intros _ x [= <-]. apply append_limit.
    destruct (t_details t) as [d|] eqn:Hd; simpl; [by eapply wf_details|lia].
  - apply tasks_wf_running; [done..|]. intros. by apply task_wf_end.
  - apply tasks_wf_running; [done..|]. intros. apply task_wf_details; [done|]. by apply task_wf_end.
  - by apply cancel_wf.
  - by apply cancel_all_wf.
  - apply tasks_wf_running; [done..|]. intros t _ []. by split.
  - by apply tasks_wf_filter.
  - by apply tasks_wf_filter.
  - destruct Hw as [Hnd Hall]. unfold slot_start. destruct (slot w) as [[? ?]|]; split; simpl; try done.
    eapply Forall_impl; [exact Hall|]. intros. eapply task_wf_tokens; [| |done]; simpl; [done|set_solver].
  - destruct Hw as [Hnd Hall]. unfold slot_cancel. destruct (slot w) as [[? ?]|]; split; simpl; try done.
    eapply Forall_impl; [exact Hall|]. intros. eapply task_wf_tokens; [| |done]; simpl; [done|set_solver].
  - by destruct Hw.
  - unfold slot_take_if. destruct (slot w) as [[? ?]|]; [case_bool_decide|]; by destruct Hw.
Qed.

(** ** Outcomes are final *)

(** What a later operation may do to a task that has ended. *)
Definition same_outcome (t t' : Task) : Prop :=
  t_status t' = t_status t /\ t_completed_at t' = t_completed_at t /\ t_details t' = t_details t.

Lemma update_running_ended w id f x t :
  (forall u, t_id (f u) = t_id u) -> get (tasks w) x = Some t -> is_terminal (t_status t) = true ->
  get (tasks (update_running id f w)) x = Some t.
Proof.
  intros Hf Hg Ht. unfold update_running. simpl. rewrite get_update, Hg; simpl.
  - unfold is_running, is_terminal in *. apply negb_true_iff in Ht. rewrite Ht. by destruct (bool_decide (t_id t = id)).
  - intros u. by destruct (is_running u).
Qed.

Lemma cancel_ended w id now x t :
  get (tasks w) x = Some t -> is_terminal (t_status t) = true ->
  get (tasks (cancel id now w).1) x = Some t.
Proof.
  intros Hg Ht. unfold cancel. destruct (get (tasks w) id) as [u|] eqn:Hu; [|done].
  destruct (is_running u) eqn:Hr; [|done]. simpl. rewrite get_update, Hg by done. simpl.
  case_bool_decide as Hid; [|done]. exfalso.
  apply get_elem in Hg as Hg'. destruct Hg' as [_ <-]. rewrite Hid in Hg. simplify_eq.
  unfold is_running, is_terminal in *. by rewrite Hr in Ht.
Qed.

Lemma cancel_all_ended l : forall acc now x t,
  get (tasks acc.1) x = Some t -> is_terminal (t_status t) = true ->
  get (tasks (foldl (cancel_one now) acc l).1) x = Some t.
Proof.
  induction l as [|id l IH]; intros [w n] now x t Hg Ht; simpl; [done|].
  pose proof (cancel_ended w id now x t Hg Ht). destruct (cancel id now w). by apply IH.
Qed.

(** A task that has ended keeps its outcome, the time it ended and its
    details, whatever is called later; it disappears only when it is removed,
    when its identifier is used again, or when it did not fail and a cleanup
    finds it old enough. *)
Theorem outcomes_are_final w op id t :
  tasks_wf w -> get (tasks w) id = Some t -> is_terminal (t_status t) = true ->
  match get (tasks (run_op w op)) id with
  | Some t' => same_outcome t t' \/
      exists now kind d target, op = OpStart id now kind d target
  | None => op = OpRemove id \/
      (exists now age, op = OpCleanup now age /\ kept_by_cleanup now age t = false) /\
      forall e, t_status t <> Failed e
  end.
Proof.
  intros Hw Hg Ht. pose proof (get_elem _ _ _ Hg) as [Hin Hid].
  assert (same_outcome t t) as Hsame by done.
  destruct op as [x now kind d target|x|x q|x now|x now d|x chunk|x now e|x now e d
    |x now|now|x p|now age|x|x tok| | |x]; cbn [run_op];
    unfold complete, complete_with_details, fail, fail_with_details, update_progress.
  - unfold start_for_target, insert_task. simpl. rewrite get_app, get_filter by apply Hw.
    rewrite Hg. simpl. rewrite Hid. destruct (decide (id = x)) as [->|Hne].
    + rewrite bool_decide_true by done. simpl. unfold get. simpl.
      right. eauto 10.
    + rewrite bool_decide_false by done. by left.
  - simpl. rewrite get_update, Hg by done. simpl. left. by case_bool_decide.
  - simpl. rewrite get_update, Hg by done. simpl. left. by case_bool_decide.
  - rewrite (update_running_ended _ _ _ _ t); auto.
  - rewrite (update_running_ended _ _ _ _ t); auto.
  - unfold append_details. case_bool_decide; [rewrite Hg; auto|].
    rewrite (update_running_ended _ _ _ _ t); auto.
  - rewrite (update_running_ended _ _ _ _ t); auto.
  - rewrite (update_running_ended _ _ _ _ t); auto.
  - rewrite (cancel_ended _ _ _ _ t); auto.
  - unfold cancel_all. rewrite (cancel_all_ended _ _ _ _ t); auto.
  - rewrite (update_running_ended _ _ _ _ t); auto.
  - simpl. rewrite get_filter, Hg by apply Hw. simpl. destruct (kept_by_cleanup now age t) eqn:Hk; [by left|].
    right. split; [eauto|]. intros e He. unfold kept_by_cleanup in Hk. by rewrite He in Hk.
  - simpl. rewrite get_filter, Hg by apply Hw. simpl. rewrite Hid. case_bool_decide; simpl; [left; congruence|by left].
  - unfold slot_start. destruct (slot w) as [[? ?]|]; simpl; rewrite Hg; auto.
  - unfold slot_cancel. destruct (slot w) as [[? ?]|]; simpl; rewrite Hg; auto.
  - simpl. rewrite Hg. auto.
  - unfold slot_take_if. destruct (slot w) as [[? ?]|]; [case_bool_decide|]; simpl; rewrite Hg; auto.
Qed.

(** ** Cancelling everything *)

(** The rounds of the loop, each for a task that is still running. *)
Lemma cancel_all_rounds now l : forall w n,
  NoDup l -> (forall id, id ∈ l -> exists t, get (tasks w) id = Some t /\ is_running t = true) ->
  let '(w', n') := foldl (cancel_one now) (w, n) l in
  n' = (n + length l)%nat /\ cancelled (tokens w) ⊆ cancelled (tokens w') /\
  forall id t, get (tasks w) id = Some t ->
    if bool_decide (id ∈ l) then
      get (tasks w') id = Some (set_status Cancelled now t) /\
      is_cancelled (tokens w') (t_cancel_token t) = true
    else get (tasks w') id = Some t.
Proof.
  induction l as [|x l IH]; intros w n Hnd Hl; cbn [foldl].
  { split_and!; [simpl; lia|done|]. intros id t Hg. done. }
  apply NoDup_cons in Hnd as [Hx Hnd].
  destruct (Hl x (list_elem_of_here _ _)) as (tx & Htx & Hrx).
  unfold cancel_one at 2. unfold cancel. rewrite Htx, Hrx.
  set (w1 := mkTaskWorld _ _ _).
  assert (forall id, get (tasks w1) id =
    (fun t => if bool_decide (t_id t = x) then set_status Cancelled now t else t) <$> get (tasks w) id)
    as Hg1 by (intros; by apply get_update).
  specialize (IH w1 (S n) Hnd). destruct (foldl (cancel_one now) (w1, S n) l) as [w' n'].
  destruct IH as (-> & Hsub & Hget).
  { intros id Hid. destruct (Hl id (list_elem_of_further _ _ _ Hid)) as (t & Ht & Hr). exists t.
    rewrite Hg1, Ht. simpl. apply get_elem in Ht as [_ <-]. rewrite bool_decide_false by (by intros <-).
    done. }
  split_and!; [simpl; lia|simpl in Hsub; set_solver|].
  intros id t Hg. pose proof (get_elem _ _ _ Hg) as [_ Hid].
  specialize (Hget id). rewrite Hg1, Hg in Hget. simpl in Hget. specialize (Hget _ eq_refl). rewrite Hid in Hget.
  destruct (decide (id = x)) as [->|Hne].
  - rewrite (bool_decide_false _ Hx), (bool_decide_true (x = x)) in Hget by done.
    rewrite bool_decide_true by left. split; [done|]. unfold is_cancelled.
    assert (tx = t) as -> by congruence. apply bool_decide_eq_true, Hsub. simpl. set_solver.
  - rewrite (bool_decide_false (id = x)) in Hget by done.
    assert (bool_decide (id ∈ x :: l) = bool_decide (id ∈ l)) as ->; [|done].
    apply bool_decide_ext. rewrite elem_of_cons. naive_solver.
Qed.

Lemma cancel_ids w id now : map t_id (tasks (cancel id now w).1) = map t_id (tasks w).
Proof.
  unfold cancel. repeat case_match; simpl; [|done..]. unfold update. rewrite map_map.
  apply map_ext. intros t'. by case_bool_decide.
Qed.

Lemma cancel_all_ids l : forall acc now,
  map t_id (tasks (foldl (cancel_one now) acc l).1) = map t_id (tasks acc.1).
Proof.
  induction l as [|id l IH]; intros [w n] now; simpl; [done|].
  rewrite <- (cancel_ids w id now). destruct (cancel id now w). apply IH.
Qed.

(** Cancelling everything cancels exactly the running tasks: each gets its
    token set, the tasks that have ended stay as they are, nothing is left
    running, and the number of running tasks is returned. *)
Theorem cancel_all_leaves_nothing_running now w :
  tasks_wf w ->
  let '(w', n) := cancel_all now w in
  n = active_count w /\ has_running_tasks w' = false /\
  forall id t, get (tasks w) id = Some t ->
    if is_running t then
      get (tasks w') id = Some (set_status Cancelled now t) /\
      is_cancelled (tokens w') (t_cancel_token t) = true
    else get (tasks w') id = Some t.
Proof.
  intros Hw. unfold cancel_all. pose proof (wf_ids w Hw) as Hnd.
  set (l := map t_id (List.filter is_running (tasks w))).
  assert (forall id t, get (tasks w) id = Some t -> (id ∈ l <-> is_running t = true)) as Hl.
  { intros id t Hg. pose proof (get_elem _ _ _ Hg) as [Hin Hid]. unfold l. rewrite list_elem_of_fmap. split.
    - intros (u & -> & [Hu Hr]%filter_elem). rewrite (get_found (tasks w) u) in Hg by done. congruence.
    - intros Hr. exists t. rewrite filter_elem. done. }
  pose proof (cancel_all_rounds now l w 0) as Hc.
  pose proof (cancel_all_wf l (w, 0%nat) now Hw) as Hw'.
  pose proof (cancel_all_ids l (w, 0%nat) now) as Hids.
  destruct (foldl (cancel_one now) (w, 0%nat) l) as [w' n]. simpl in Hw', Hids.
  destruct Hc as (-> & _ & Hget).
  { eapply sublist_NoDup; [exact Hnd|]. apply (fmap_sublist t_id), filter_sublist. }
  { intros id (u & -> & [Hu Hr]%filter_elem)%list_elem_of_fmap. exists u. by rewrite get_found. }
  assert (forall id t, get (tasks w) id = Some t ->
    if is_running t then get (tasks w') id = Some (set_status Cancelled now t) /\
      is_cancelled (tokens w') (t_cancel_token t) = true
    else get (tasks w') id = Some t) as Hall.
  { intros id t Hg. specialize (Hget id t Hg). pose proof (Hl id t Hg) as Hiff.
    destruct (is_running t); [rewrite bool_decide_true in Hget by tauto; done|].
    rewrite bool_decide_false in Hget; [done|]. by rewrite Hiff. }
  split_and!; [unfold l; by rewrite length_map| |done].
  apply not_true_iff_false. unfold has_running_tasks. rewrite existsb_exists.
  intros (u & Hu%list_elem_of_In & Hr).
  assert (exists t, get (tasks w) (t_id u) = Some t) as [t Ht].
  { assert (t_id u ∈ map t_id (tasks w)) as Hin by (rewrite <- Hids; by apply list_elem_of_fmap_2).
    apply list_elem_of_fmap in Hin as (t & -> & Ht). exists t. by apply get_found. }
  specialize (Hall _ _ Ht). rewrite (get_found (tasks w') u) in Hall by (apply Hw' || done).
  destruct (is_running t) eqn:Hrt; [destruct Hall as [[= ->] _]; done|congruence].
Qed.

(** ** The slot *)

Definition slot_starts (w : TaskWorld) (l : list (Uuid * nat)) : TaskWorld :=
  foldl (fun w p => (slot_start p.1 p.2 w).1) w l.

Lemma slot_starts_spec w l :
  slot w = None ->
  slot (slot_starts w l) = last l /\
  forall tok, tok ∈ cancelled (tokens (slot_starts w l)) <->
    tok ∈ cancelled (tokens w) \/ tok ∈ map snd (removelast l).
Proof.
  intros Hs. induction l as [|p l IH] using rev_ind.
  { split; [done|]. simpl. set_solver. }
  unfold slot_starts. rewrite foldl_app. fold (slot_starts w l). destruct IH as [Hsl Hc].
  rewrite last_snoc, removelast_last. cbn [foldl]. unfold slot_start. rewrite Hsl.
  destruct l as [|q l _] using rev_ind; [simpl in *; by destruct p|].
  rewrite last_snoc in *. rewrite removelast_last in Hc. destruct q as [qid qtok]. simpl.
  split; [by destruct p|]. intros tok. rewrite elem_of_union, elem_of_singleton, Hc, map_app. simpl.
  rewrite elem_of_snoc. tauto.
Qed.

(** However many tasks a slot is given one after the other, it holds the
    newest, which is the only one of them not cancelled. *)
Theorem slot_keeps_only_the_newest w l p :
  slot w = None -> NoDup (map snd (l ++ [p])) ->
  (forall q, q ∈ l ++ [p] -> is_cancelled (tokens w) q.2 = false) ->
  let w' := slot_starts w (l ++ [p]) in
  slot w' = Some p /\ slot_is_active w' = true /\
  forall q, q ∈ l -> is_cancelled (tokens w') q.2 = true.
Proof.
  intros Hs Hnd Hno. cbn zeta. destruct (slot_starts_spec w (l ++ [p]) Hs) as [Hsl Hc].
  rewrite last_snoc in Hsl. rewrite removelast_last in Hc.
  assert (is_cancelled (tokens w) p.2 = false) as Hp by (apply Hno, elem_of_snoc; by right).
  unfold is_cancelled in *. rewrite map_app in Hnd. apply NoDup_app in Hnd as (_ & Hd & _).
  split_and!; [done| |].
  - unfold slot_is_active. rewrite Hsl. destruct p as [pid ptok]. unfold is_cancelled.
    apply negb_true_iff, bool_decide_eq_false. rewrite Hc. simpl in *.
    apply bool_decide_eq_false in Hp. intros [?|Hin]; [done|]. apply Hd in Hin. apply Hin. left.
  - intros q Hq. apply bool_decide_eq_true, Hc. right. by apply list_elem_of_fmap_2.
Qed.

End Runs.

(** ** Instances *)

#[local] Instance unit_f32 : F32Lib := { f32 := unit; f32_clamp_unit x := x }.

Definition demo_task (id : string) (s : TaskStatus) (ended : option Z) (tok : nat) : Task :=
  mkTask id Query "q" s 0 ended None None None None None tok true.
Definition demo_tasks : TaskWorld :=
  mkTaskWorld [demo_task "a" Running None 0; demo_task "b" (Failed "e") (Some 5) 1]
    (mkTokens 2 ∅) None.

Lemma demo_tasks_wf : tasks_wf demo_tasks.
Proof.
  split.
  - apply (bool_decide_eq_true_1 (NoDup _)). vm_compute. reflexivity.
  - apply Forall_cons_2; [|apply Forall_cons_2; [|apply Forall_nil_2]]; split; simpl; try done; try lia.
Qed.

Lemma details_stay_within_their_limit_witness :
  (length (append_with_limit (bytes_of "ab") (bytes_of "cdef") 4 (bytes_of "..")) <= 4)%nat.
Proof.
  apply (details_stay_within_their_limit (bytes_of "ab") (bytes_of "cdef") 4 (bytes_of ".."));
    vm_compute; done || lia.
Defined.

Lemma task_records_stay_consistent_witness : tasks_wf (run_op demo_tasks (OpCancelAll 7)).
Proof. exact (task_records_stay_consistent demo_tasks (OpCancelAll 7) demo_tasks_wf). Defined.

Lemma outcomes_are_final_witness :
  same_outcome (demo_task "b" (Failed "e") (Some 5) 1) (demo_task "b" (Failed "e") (Some 5) 1) \/
  exists now kind d target, OpCompleteWithDetails ("b" : Uuid) 9 (bytes_of "x") = OpStart ("b" : Uuid) now kind d target.
Proof.
  exact (outcomes_are_final demo_tasks (OpCompleteWithDetails ("b" : Uuid) 9 (bytes_of "x")) "b"
           (demo_task "b" (Failed "e") (Some 5) 1) demo_tasks_wf eq_refl eq_refl).
Defined.

Lemma cancel_all_leaves_nothing_running_witness :
  has_running_tasks (cancel_all 7 demo_tasks).1 = false.
Proof.
  pose proof (cancel_all_leaves_nothing_running 7 demo_tasks demo_tasks_wf) as Hc.
  destruct (cancel_all 7 demo_tasks) as [w' n]. apply Hc.
Defined.

Lemma slot_keeps_only_the_newest_witness :
  let w' := slot_starts demo_tasks [("a", 0%nat); ("b", 1%nat)] in
  slot w' = Some ("b", 1%nat) /\ slot_is_active w' = true /\
  forall q, q ∈ [("a", 0%nat)] -> is_cancelled (tokens w') q.2 = true.
Proof.
  apply (slot_keeps_only_the_newest demo_tasks [("a", 0%nat)] ("b", 1%nat)); [reflexivity| |].
  - apply (bool_decide_eq_true_1 (NoDup _)). vm_compute. reflexivity.
  - intros q Hq. simpl in Hq. repeat (apply elem_of_cons in Hq as [->|Hq]; [reflexivity|]).
    by apply elem_of_nil in Hq.
Defined.
