(* ===== verification/Shutdown.v ===== *)
(** * Shutdown (crates/dbflux_core: core/shutdown.rs)

    The coordinator is shared by threads; its flag and phase are atomics and its
    start time is behind a lock.  A thread inside [request_shutdown] is at one of
    its atomic steps, and the threads' steps interleave. *)

From S2P Require Import Prelude.

Module Shutdown.

Inductive ShutdownPhase : Type :=
| NotStarted | SignalSent | CancellingTasks | ClosingConnections | FlushingLogs | Complete | Failed.

#[export] Instance phase_eq_dec : EqDecision ShutdownPhase.
Proof. solve_decision. Defined.

(** The discriminants, and [from_u8]. *)
Definition as_u8 (p : ShutdownPhase) : Z :=
  match p with
  | NotStarted => 0 | SignalSent => 1 | CancellingTasks => 2 | ClosingConnections => 3
  | FlushingLogs => 4 | Complete => 5 | Failed => 6
  end.
Definition from_u8 (value : Z) : ShutdownPhase :=
  match value with
  | 0 => NotStarted | 1 => SignalSent | 2 => CancellingTasks | 3 => ClosingConnections
  | 4 => FlushingLogs | 5 => Complete | _ => Failed
  end.

Definition message (p : ShutdownPhase) : string :=
  match p with
  | NotStarted => "" | SignalSent => "Shutting down..." | CancellingTasks => "Cancelling tasks..."
  | ClosingConnections => "Closing connections..." | FlushingLogs => "Flushing logs..."
  | Complete => "Shutdown complete" | Failed => "Shutdown failed"
  end.

Definition is_active (p : ShutdownPhase) : bool :=
  match p with
  | SignalSent | CancellingTasks | ClosingConnections | FlushingLogs => true
  | _ => false
  end.

Record ShutdownCoordinator := mkCoordinator {
  shutdown_requested : bool;
  phase_cell : Z;
  start_time : option Z;
}.

Definition coordinator_new : ShutdownCoordinator := mkCoordinator false (as_u8 NotStarted) None.

Definition phase (c : ShutdownCoordinator) : ShutdownPhase := from_u8 (phase_cell c).
Definition set_phase (p : ShutdownPhase) (c : ShutdownCoordinator) : ShutdownCoordinator :=
  mkCoordinator (shutdown_requested c) (as_u8 p) (start_time c).
Definition set_start (now : Z) (c : ShutdownCoordinator) : ShutdownCoordinator :=
  mkCoordinator (shutdown_requested c) (phase_cell c) (Some now).

(** [compare_exchange]. *)
Definition advance_phase (expected next : ShutdownPhase) (c : ShutdownCoordinator)
  : ShutdownCoordinator * bool :=
  if phase_cell c =? as_u8 expected then (set_phase next c, true) else (c, false).

Definition is_complete (c : ShutdownCoordinator) : bool :=
  match phase c with Complete | Failed => true | _ => false end.
Definition complete : ShutdownCoordinator -> ShutdownCoordinator := set_phase Complete.
Definition fail : ShutdownCoordinator -> ShutdownCoordinator := set_phase Failed.

(** [request_shutdown], uninterrupted. *)
Definition request_shutdown (now : Z) (c : ShutdownCoordinator) : ShutdownCoordinator * bool :=
  if shutdown_requested c then (c, false)
  else (set_start now (set_phase SignalSent (mkCoordinator true (phase_cell c) (start_time c))), true).

(** Where a call of [request_shutdown] stands: before the swap, before the store
    of the phase, before the start time, or returned. *)
Inductive Call : Type := Calling | Won | Stored | Returned (initiated : bool).

#[export] Instance call_eq_dec : EqDecision Call.
Proof. solve_decision. Defined.

(** One atomic step of the threads; [env] is any step outside the calls. *)
Inductive step : ShutdownCoordinator * list Call -> ShutdownCoordinator * list Call -> Prop :=
| step_swap c calls i :
    calls !! i = Some Calling ->
    step (c, calls)
      (mkCoordinator true (phase_cell c) (start_time c),
       <[i := if shutdown_requested c then Returned false else Won]> calls)
| step_store c calls i :
    calls !! i = Some Won -> step (c, calls) (set_phase SignalSent c, <[i := Stored]> calls)
| step_start c calls i now :
    calls !! i = Some Stored -> step (c, calls) (set_start now c, <[i := Returned true]> calls)
| step_set_phase c calls p : step (c, calls) (set_phase p c, calls)
| step_advance c calls expected next :
    step (c, calls) ((advance_phase expected next c).1, calls)
| step_call c calls : step (c, calls) (c, calls ++ [Calling]).

(** ** One call initiates *)

Definition initiating (x : Call) : bool :=
  match x with Won | Stored | Returned true => true | _ => false end.

Definition one_initiator (s : ShutdownCoordinator * list Call) : Prop :=
  length (List.filter initiating s.2) = if shutdown_requested s.1 then 1%nat else 0%nat.

(** Replacing an entry of a list changes a count by the difference. *)
Lemma count_insert (l : list Call) i x y :
  l !! i = Some x ->
  (length (List.filter initiating (<[i := y]> l)) + (if initiating x then 1 else 0) =
   length (List.filter initiating l) + (if initiating y then 1 else 0))%nat.
Proof.
  revert i. induction l as [|z l IH]; intros i; [done|]. destruct i as [|i]; simpl.
  - intros [= ->]. destruct (initiating x), (initiating y); simpl; lia.
  - intros Hi%IH. destruct (initiating z); simpl; lia.
Qed.

Lemma step_one_initiator s s' : step s s' -> one_initiator s -> one_initiator s'.
Proof.
  unfold one_initiator. destruct 1 as [c calls i Hi|c calls i Hi|c calls i now Hi|c calls p
    |c calls expected next|c calls]; simpl.
  - pose proof (count_insert calls i _ (if shutdown_requested c then Returned false else Won) Hi) as Hc.
    destruct (shutdown_requested c); simpl in *; lia.
  - pose proof (count_insert calls i _ Stored Hi) as Hc. simpl in *. lia.
  - pose proof (count_insert calls i _ (Returned true) Hi) as Hc. simpl in *. lia.
  - done.
  - unfold advance_phase. by destruct (_ =? _).
  - by rewrite List.filter_app, app_nil_r.
Qed.

(** A call that is past the swap has set the flag. *)
Definition swapped (s : ShutdownCoordinator * list Call) : Prop :=
  forall i x, s.2 !! i = Some x -> x <> Calling -> shutdown_requested s.1 = true.

Lemma step_swapped s s' : step s s' -> swapped s -> swapped s'.
Proof.
  unfold swapped. destruct 1 as [c calls i Hi|c calls i Hi|c calls i now Hi|c calls p
    |c calls expected next|c calls]; simpl; intros Hs; [done| | |done| |].
  - intros j x _ _. by apply (Hs i Won).
  - intros j x _ _. by apply (Hs i Stored).
  - unfold advance_phase. by destruct (_ =? _).
  - intros j x Hj Hx. apply lookup_app_Some in Hj as [Hj|[_ Hj]]; [by eapply Hs|].
    apply list_lookup_singleton_Some in Hj as [_ <-]. done.
Qed.

Lemma reachable_invariants s :
  rtc step (coordinator_new, []) s -> one_initiator s /\ swapped s.
Proof.
  intros Hr. apply rtc_ind_r with (x := (coordinator_new, [])) (P := fun s => one_initiator s /\ swapped s) in Hr;
    [done|split; [done|by intros ? ? ?]|].
  intros y z _ Hyz [? ?]. eauto using step_one_initiator, step_swapped.
Qed.

(** The place of the only entry of a kind. *)
Lemma count_one (l : list Call) :
  length (List.filter initiating l) = 1%nat ->
  exists i, forall j x, l !! j = Some x -> (initiating x = true <-> j = i).
Proof.
  induction l as [|y l IH]; simpl; [done|]. destruct (initiating y) eqn:Hy; simpl.
  - intros Hn. exists 0%nat. intros [|j] x; simpl; [intros [= <-]; done|]. intros Hj.
    split; [|done]. intros Hx. exfalso.
    assert (x ∈ List.filter initiating l) as Hin by (apply filter_elem; split; [by eapply list_elem_of_lookup_2|done]).
    destruct (List.filter initiating l); [by apply elem_of_nil in Hin|simpl in Hn; lia].
  - intros [i Hi]%IH. exists (S i). intros [|j] x; simpl; [intros [= <-]; by rewrite Hy|].
    intros Hj%Hi. rewrite Hj. split; congruence.
Qed.

(** However the calls interleave, with each other and with changes of the
    phase, at most one of them initiates the shutdown, and when all have returned
    exactly one has, if there was a call at all. *)
Theorem exactly_one_call_initiates c calls :
  rtc step (coordinator_new, []) (c, calls) ->
  (length (List.filter initiating calls) <= 1)%nat /\
  (Forall (fun x => exists b, x = Returned b) calls -> calls <> [] ->
   exists i, forall j x, calls !! j = Some x -> (x = Returned true <-> j = i)).
Proof.
  intros [Hone Hsw]%reachable_invariants. unfold one_initiator, swapped in *. simpl in *.
  split; [destruct (shutdown_requested c); lia|]. intros Hall Hne.
  assert (shutdown_requested c = true) as Hreq.
  { destruct calls as [|x calls]; [done|]. apply (Hsw 0%nat x); [done|].
    apply Forall_cons in Hall as [[b ->] _]. done. }
  rewrite Hreq in Hone. apply count_one in Hone as [i Hi]. exists i. intros j x Hj.
  rewrite <- (Hi j x Hj). rewrite Forall_forall in Hall.
  destruct (Hall x) as [b ->]; [by eapply list_elem_of_lookup_2|]. simpl.
  destruct b; split; congruence.
Qed.

(** The phase reads back as it was set. *)
Lemma phase_roundtrip p : from_u8 (as_u8 p) = p.
Proof. by destruct p. Qed.

(** A call without interruption is a run of the steps. *)
Lemma request_shutdown_steps now c calls i :
  calls !! i = Some Calling ->
  rtc step (c, calls)
    ((request_shutdown now c).1, <[i := Returned (request_shutdown now c).2]> calls).
Proof.
  intros Hi. pose proof (lookup_lt_Some _ _ _ Hi) as Hlt. unfold request_shutdown.
  destruct c as [[] cell start]; simpl.
  { eapply rtc_l; [by apply step_swap|]. constructor. }
  eapply rtc_l; [by apply step_swap|]. simpl.
  eapply rtc_l; [apply (step_store _ _ i); by rewrite list_lookup_insert_eq|].
  eapply rtc_l; [apply (step_start _ _ i now); rewrite list_insert_insert_eq; by rewrite list_lookup_insert_eq|].
  rewrite !list_insert_insert_eq. constructor.
Qed.

End Shutdown.

Import Shutdown.

(** Two calls: the second swaps while the first has not stored the phase yet. *)
Definition demo_end : ShutdownCoordinator * list Call :=
  (mkCoordinator true 1 (Some 7), [Returned true; Returned false]).

Lemma demo_run : rtc step (coordinator_new, []) demo_end.
Proof.
  eapply rtc_l; [apply step_call|]. eapply rtc_l; [apply step_call|].
  eapply rtc_l; [apply (step_swap _ _ 0); reflexivity|].
  eapply rtc_l; [apply (step_swap _ _ 1); reflexivity|].
  eapply rtc_l; [apply (step_store _ _ 0); reflexivity|].
  eapply rtc_l; [apply (step_start _ _ 0 7); reflexivity|]. constructor.
Qed.

Lemma exactly_one_call_initiates_witness :
  (length (List.filter initiating demo_end.2) <= 1)%nat /\
  (Forall (fun x => exists b, x = Returned b) demo_end.2 -> demo_end.2 <> [] ->
   exists i, forall j x, demo_end.2 !! j = Some x -> (x = Returned true <-> j = i)).
Proof. exact (exactly_one_call_initiates demo_end.1 demo_end.2 demo_run). Defined.
