(* ===== verification/TransactionControl.v ===== *)
(** * Transaction control (crates/dbflux_core: sql/transaction_control.rs, query/tx_vocab.rs)

    The lexer and classifier that tell [BEGIN], [COMMIT] and [ROLLBACK] from
    other SQL, and the statements each kind of database uses for transactions.

    The lexer of the source moves a byte position; here it is the rest of the
    text.  [None] is the [Err] of the source: a comment or literal is left open. *)

From S2P Require Import Prelude RustStr RustChar.

Module TxControl.

Inductive TransactionControl : Type := Begin | Commit | Rollback | Unsupported | NotControl.

#[export] Instance transaction_control_eq_dec : EqDecision TransactionControl.
Proof. solve_decision. Defined.

Inductive Token : Type := Word (w : list char) | Semicolon | Other.

#[export] Instance tx_token_eq_dec : EqDecision Token.
Proof. solve_decision. Defined.

(** ** The lexer *)

Definition is_identifier_character (c : char) : bool :=
  is_letter c || is_digit c || (c =? ch "_")%N.

(** The rest after a line comment. *)
Fixpoint skip_line (l : list char) : list char :=
  match l with
  | [] => []
  | c :: r => if ((c =? 10) || (c =? 13))%N then r else skip_line r
  end.

Definition next_is (c : char) (l : list char) : bool :=
  match l with d :: _ => (d =? c)%N | [] => false end.

(** The rest after a block comment; comments nest. *)
Fixpoint skip_block_comment (l : list char) (depth : nat) : option (list char) :=
  match l with
  | [] => None
  | c :: r =>
      if (c =? ch "/")%N && next_is (ch "*") r then
        match r with _ :: r' => skip_block_comment r' (S depth) | [] => None end
      else if (c =? ch "*")%N && next_is (ch "/") r then
        match r with
        | _ :: r' => if Nat.eqb (depth - 1) 0 then Some r' else skip_block_comment r' (depth - 1)
        | [] => None
        end
      else skip_block_comment r depth
  end.

(** The rest after a quoted text, from behind its opening. *)
Fixpoint skip_quoted (closing : char) (l : list char) : option (list char) :=
  match l with
  | [] => None
  | c :: r =>
      if (c =? ch "\")%N then match r with _ :: r' => skip_quoted closing r' | [] => None end
      else if (c =? closing)%N then
        match r with
        | d :: r' => if (d =? closing)%N then skip_quoted closing r' else Some r
        | [] => Some r
        end
      else skip_quoted closing r
  end.

Definition tag_start (c : char) : bool := is_letter c || (c =? ch "_")%N.

(** The delimiter of a dollar quote at the start of the text. *)
Definition dollar_quote_delimiter (l : list char) : option (list char) :=
  match l with
  | c :: r =>
      if (c =? ch "$")%N then
        '(tag, _) ← find_text (text "$") r;
        if match tag with
           | [] => true
           | t :: ts => tag_start t && forallb is_identifier_character ts
           end
        then Some (ch "$" :: tag ++ [ch "$"]) else None
      else None
  | [] => None
  end.

Definition skip_dollar_quote (l delimiter : list char) : option (list char) :=
  '(_, rest) ← find_text delimiter (drop (length delimiter) l); Some rest.

Definition is_quote (c : char) : bool :=
  (c =? ch "'")%N || (c =? 34)%N || (c =? ch "`")%N || (c =? ch "[")%N.

(** One round of the loop of [lex]: the tokens pushed and the rest. *)
Definition lex_step (c : char) (r : list char) : option (list Token * list char) :=
  if is_whitespace c then Some ([], r)
  else if (c =? ch "-")%N && next_is (ch "-") r then Some ([], skip_line (drop 1 r))
  else if (c =? ch "/")%N && next_is (ch "*") r then
    rest ← skip_block_comment (c :: r) 0; Some ([], rest)
  else if is_quote c then
    rest ← skip_quoted (if (c =? ch "[")%N then ch "]" else c) r; Some ([Other], rest)
  else if (c =? ch "$")%N then
    match dollar_quote_delimiter (c :: r) with
    | Some delimiter => rest ← skip_dollar_quote (c :: r) delimiter; Some ([Other], rest)
    | None => Some ([Other], r)
    end
  else if (c =? ch ";")%N then Some ([Semicolon], r)
  else if is_identifier_character c then
    Some ([Word (c :: take_while is_identifier_character r)], drop_while is_identifier_character r)
  else Some ([Other], r).

Fixpoint lex_loop (rounds : nat) (l : list char) : option (list Token) :=
  match l with
  | [] => Some []
  | c :: r =>
      match rounds with
      | O => None
      | S rounds' =>
          '(pushed, rest) ← lex_step c r;
          tokens ← lex_loop rounds' rest;
          Some (pushed ++ tokens)
      end
  end.

(** Every round takes at least one character. *)
Definition lex (sql : list char) : option (list Token) := lex_loop (length sql) sql.

(** ** Classification *)

Definition keyword (word : list char) (expected : string) : bool :=
  bool_decide (map to_ascii_uppercase word = text expected).

Definition CONTROL_LEADS : list string :=
  ["BEGIN"; "COMMIT"; "ROLLBACK"; "SAVEPOINT"; "RELEASE"; "START"; "END"; "SET"].

Definition is_transaction_control_lead (word : list char) : bool :=
  existsb (keyword word) CONTROL_LEADS.

Definition token_word (t : Token) : option (list char) :=
  match t with Word w => Some w | _ => None end.

Definition classify_words (words : list (list char)) : TransactionControl :=
  match words with
  | [w] =>
      if keyword w "BEGIN" then Begin
      else if keyword w "COMMIT" then Commit
      else if keyword w "ROLLBACK" then Rollback
      else if is_transaction_control_lead w then Unsupported
      else NotControl
  | [w; x] =>
      if keyword w "BEGIN" && keyword x "IMMEDIATE" then Begin
      else if keyword w "BEGIN" && keyword x "TRANSACTION" then Begin
      else if is_transaction_control_lead w then Unsupported
      else NotControl
  | w :: _ => if is_transaction_control_lead w then Unsupported else NotControl
  | [] => NotControl
  end.

Definition classify_statement (tokens : list Token) : TransactionControl :=
  if match head tokens with
     | Some (Word first) =>
         is_transaction_control_lead first && existsb (fun t => bool_decide (t = Other)) tokens
     | _ => false
     end
  then Unsupported
  else match mapM token_word tokens with
       | None => NotControl
       | Some words => classify_words words
       end.

(** [slice::split] at the semicolons, without the empty pieces. *)
Fixpoint split_statements (l : list Token) : list (list Token) :=
  match l with
  | [] => [[]]
  | t :: l' =>
      if bool_decide (t = Semicolon) then [] :: split_statements l'
      else match split_statements l' with
           | [] => [[t]]
           | x :: xs => (t :: x) :: xs
           end
  end.
Definition statements (tokens : list Token) : list (list Token) :=
  List.filter (fun s => negb (bool_decide (s = []))) (split_statements tokens).

Definition classify_sql_transaction_control (sql : list char) : TransactionControl :=
  match lex sql with
  | None => Unsupported
  | Some tokens =>
      match statements tokens with
      | [] => Unsupported
      | [statement] => classify_statement statement
      | batch =>
          if forallb (fun s => bool_decide (classify_statement s = NotControl)) batch
          then NotControl else Unsupported
      end
  end.

(** ** Transaction vocabularies *)

Inductive DbKind : Type :=
| Postgres | MySQL | MariaDB | SQLite | Turso | DuckDB | SqlServer | MongoDB | Redis | DynamoDB
| CloudWatchLogs | InfluxDB | Redshift | S3 | AwsSecrets | ClickHouse.

Record TransactionVocab := mkVocab {
  begin : string;
  commit : string;
  rollback : string;
  lock_timeout_template : option string;
  lock_timeout_before_begin : bool;
  lock_timeout_reset_sql : option string;
  autocommit_lock_timeout_template : option string;
  autocommit_lock_timeout_reset_sql : option string;
}.

Definition for_kind (kind : DbKind) : option TransactionVocab :=
  match kind with
  | Postgres => Some (mkVocab "BEGIN" "COMMIT" "ROLLBACK"
      (Some "SET LOCAL lock_timeout = '{ms}ms'") false None
      (Some "SET lock_timeout = '{ms}ms'") (Some "SET lock_timeout = DEFAULT"))
  | MySQL | MariaDB => Some (mkVocab "START TRANSACTION" "COMMIT" "ROLLBACK"
      (Some "SET SESSION innodb_lock_wait_timeout = {seconds}") true
      (Some "SET SESSION innodb_lock_wait_timeout = DEFAULT")
      (Some "SET SESSION innodb_lock_wait_timeout = {seconds}")
      (Some "SET SESSION innodb_lock_wait_timeout = DEFAULT"))
  | SQLite | Turso => Some (mkVocab "BEGIN IMMEDIATE" "COMMIT" "ROLLBACK"
      None false None None None)
  | DuckDB => Some (mkVocab "BEGIN TRANSACTION" "COMMIT" "ROLLBACK" None false None None None)
  | SqlServer => Some (mkVocab "BEGIN TRANSACTION" "COMMIT" "ROLLBACK"
      (Some "SET LOCK_TIMEOUT {ms}") false (Some "SET LOCK_TIMEOUT -1")
      (Some "SET LOCK_TIMEOUT {ms}") (Some "SET LOCK_TIMEOUT -1"))
  | MongoDB | Redis | DynamoDB | CloudWatchLogs | InfluxDB | Redshift | S3 | AwsSecrets
  | ClickHouse => None
  end.

(** [str::replace], with a round per match. *)
Fixpoint replace_rounds (rounds : nat) (needle by_ l : list char) : list char :=
  match rounds with
  | O => l
  | S rounds' =>
      match find_text needle l with
      | Some (before, after) => before ++ by_ ++ replace_rounds rounds' needle by_ after
      | None => l
      end
  end.
Definition replace_text (needle by_ l : list char) : list char :=
  replace_rounds (length l) needle by_ l.

(** Whole seconds, rounded up, and at least one. *)
Definition timeout_seconds (timeout_ms : N) : N := N.max ((timeout_ms + 999) / 1000) 1.

Definition format_timeout (template : string) (timeout_ms : N) : list char :=
  replace_text (text "{seconds}") (decimal (timeout_seconds timeout_ms))
    (replace_text (text "{ms}") (decimal timeout_ms) (text template)).

Definition lock_timeout_sql (v : TransactionVocab) (timeout_ms : N) : option (list char) :=
  t ← lock_timeout_template v; Some (format_timeout t timeout_ms).
Definition autocommit_lock_timeout_sql (v : TransactionVocab) (timeout_ms : N)
  : option (list char) :=
  t ← autocommit_lock_timeout_template v; Some (format_timeout t timeout_ms).

End TxControl.

(** ** Transaction control fails closed

    The lexer ends; SQL passes as ordinary only when none of its statements
    starts with a word of transaction control; and a statement counts as the
    start or end of a transaction only in the exact forms. *)

Import TxControl.

(** ** The lexer ends *)

Lemma drop_while_length {A} (p : A -> bool) l : (length (drop_while p l) <= length l)%nat.
Proof. destruct (drop_while_app p l) as [q Hq]. rewrite Hq at 2. rewrite length_app. lia. Qed.

Lemma skip_line_length l : (length (skip_line l) <= length l)%nat.
Proof. induction l as [|c l IH]; simpl; [done|]. destruct (_ || _); lia. Qed.

Lemma skip_block_length l : forall depth r,
  skip_block_comment l depth = Some r -> (length r < length l)%nat.
Proof.
  induction l as [l IH] using (induction_ltof1 _ (@length char)). unfold ltof in IH.
  intros depth r. destruct l as [|c l]; simpl; [done|].
  destruct (_ && _).
  { destruct l as [|d l]; [done|]. intros Hr%IH; simpl in *; lia. }
  destruct (_ && _).
  { destruct l as [|d l]; [done|]. destruct (_ =? _)%nat; [intros [= <-]; simpl; lia|].
    intros Hr%IH; simpl in *; lia. }
  intros Hr%IH; simpl in *; lia.
Qed.

Lemma skip_quoted_length q l : forall r,
  skip_quoted q l = Some r -> (length r < length l)%nat.
Proof.
  induction l as [l IH] using (induction_ltof1 _ (@length char)). unfold ltof in IH.
  intros r. destruct l as [|c l]; simpl; [done|].
  destruct (_ =? _)%N; [destruct l as [|d l]; [done|]; intros Hr%IH; simpl in *; lia|].
  destruct (c =? q)%N.
  - destruct l as [|d l]; [intros [= <-]; simpl; lia|].
    destruct (_ =? _)%N; [intros Hr%IH; simpl in *; lia|intros [= <-]; simpl; lia].
  - intros Hr%IH; simpl in *; lia.
Qed.

Lemma skip_dollar_length l d r : d <> [] -> skip_dollar_quote l d = Some r -> (length r < length l)%nat.
Proof.
  unfold skip_dollar_quote. intros Hd ([b a] & Hf & [= <-])%bind_Some.
  apply find_text_app in Hf as (m & Hm & Hlen). apply (f_equal length) in Hm.
  rewrite length_drop, !length_app in Hm. destruct d; [done|]. simpl in *. lia.
Qed.

Lemma lex_step_shorter c r pushed rest :
  lex_step c r = Some (pushed, rest) -> (length rest <= length r)%nat.
Proof.
  unfold lex_step. destruct (is_whitespace c); [by intros [= <- <-]|].
  destruct (_ && _).
  { intros [= <- <-]. pose proof (skip_line_length (drop 1 r)). rewrite length_drop in *. lia. }
  destruct (_ && _).
  { intros (x & Hx%skip_block_length & [= <- <-])%bind_Some. simpl in Hx. lia. }
  destruct (is_quote c).
  { intros (x & Hx%skip_quoted_length & [= <- <-])%bind_Some. lia. }
  destruct (c =? ch "$")%N.
  { destruct (dollar_quote_delimiter (c :: r)) as [d|] eqn:Hd; [|by intros [= <- <-]].
    intros (x & Hx & [= <- <-])%bind_Some. apply skip_dollar_length in Hx; [simpl in Hx; lia|].
    unfold dollar_quote_delimiter in Hd. repeat case_match; try done.
    apply bind_Some in Hd as ([? ?] & _ & Hd). repeat case_match; by simplify_eq. }
  destruct (c =? ch ";")%N; [by intros [= <- <-]|].
  destruct (is_identifier_character c); intros [= <- <-]; [apply drop_while_length|done].
Qed.

Lemma lex_rounds rounds sql : (length sql <= rounds)%nat -> lex_loop rounds sql = lex sql.
Proof.
  unfold lex. remember (length sql) as n eqn:Hn. revert rounds sql Hn.
  induction n as [n IH] using lt_wf_ind. intros rounds sql -> Hr.
  destruct sql as [|c r]; [by destruct rounds|]. simpl in Hr.
  destruct rounds as [|rounds]; [lia|]. simpl.
  destruct (lex_step c r) as [[pushed rest]|] eqn:Hs; [|done]. apply lex_step_shorter in Hs. simpl.
  simpl in IH. rewrite (IH (length rest)) by (done || lia).
  symmetry. by rewrite (IH (length rest)) by (done || lia).
Qed.

(** Lexing ends: every round takes at least one character, so more rounds
    than the text has characters change nothing. *)
Theorem lex_ends sql rounds : (length sql <= rounds)%nat -> lex_loop rounds sql = lex sql.
Proof. apply lex_rounds. Qed.

(** ** Failing closed *)

Definition leads_control (s : list Token) : Prop :=
  exists w rest, s = Word w :: rest /\ is_transaction_control_lead w = true.

Lemma control_words_lead w x : x ∈ CONTROL_LEADS -> keyword w x = true -> is_transaction_control_lead w = true.
Proof. intros Hx Hk. unfold is_transaction_control_lead. apply existsb_exists. exists x. by rewrite <- list_elem_of_In. Qed.

Lemma classify_words_control w ws :
  is_transaction_control_lead w = true -> classify_words (w :: ws) <> NotControl.
Proof. intros Hw. destruct ws as [|x [|y ws]]; simpl; rewrite Hw; by repeat case_match. Qed.

Lemma statement_leads s :
  Semicolon ∉ s -> classify_statement s = NotControl -> ~ leads_control s.
Proof.
  intros Hs Hc (w & rest & -> & Hw). unfold classify_statement in Hc. simpl in Hc.
  rewrite Hw in Hc. simpl in Hc. destruct (existsb _ rest) eqn:He; [done|].
  assert (is_Some (mapM token_word rest)) as [ws Hm].
  { apply mapM_is_Some, Forall_forall. intros t Ht. destruct t as [x| |]; [by eexists|..].
    - destruct Hs. by right.
    - apply not_true_iff_false in He. destruct He. apply existsb_exists. exists Other.
      by rewrite <- list_elem_of_In, bool_decide_true. }
  rewrite Hm in Hc. by apply classify_words_control in Hc.
Qed.

Lemma statements_no_semicolon tokens s : s ∈ statements tokens -> Semicolon ∉ s.
Proof.
  unfold statements. rewrite filter_elem. intros [Hs _]. revert s Hs.
  induction tokens as [|t l IH]; simpl; [by intros s ->%list_elem_of_singleton ?%elem_of_nil|].
  case_bool_decide as Ht; [intros s [->|Hs]%elem_of_cons; [by intros ?%elem_of_nil|by apply IH]|].
  destruct (split_statements l) as [|x xs]; intros s.
  - intros ->%list_elem_of_singleton. by intros ?%list_elem_of_singleton.
  - intros [->|Hs]%elem_of_cons; [|apply IH; by right].
    intros [?|Hx]%elem_of_cons; [done|]. by apply (IH x (list_elem_of_here _ _)).
Qed.

(** SQL passes as ordinary only when it can be read and none of its
    statements starts with a word of transaction control, in whatever case. *)
Theorem ordinary_sql_has_no_control sql :
  classify_sql_transaction_control sql = NotControl ->
  exists tokens, lex sql = Some tokens /\ statements tokens <> [] /\
    Forall (fun s => ~ leads_control s) (statements tokens).
Proof.
  unfold classify_sql_transaction_control. destruct (lex sql) as [tokens|]; [|done].
  pose proof (statements_no_semicolon tokens) as Hns. intros Hc. exists tokens. split; [done|].
  destruct (statements tokens) as [|s [|s' l]]; [done|..]; (split; [done|]).
  - rewrite Forall_singleton. apply statement_leads; [apply Hns; left|done].
  - destruct (forallb _ _) eqn:Hf; [|done]. apply Forall_forall. intros x Hx.
    rewrite forallb_forall in Hf. apply statement_leads; [by apply Hns|].
    by apply list_elem_of_In, Hf, bool_decide_eq_true in Hx.
Qed.

(** The forms that begin, commit or roll back a transaction. *)
Inductive control_form : TransactionControl -> list (list char) -> Prop :=
| form_begin w : keyword w "BEGIN" = true -> control_form Begin [w]
| form_begin_with w x :
    keyword w "BEGIN" = true -> keyword x "IMMEDIATE" = true \/ keyword x "TRANSACTION" = true ->
    control_form Begin [w; x]
| form_commit w : keyword w "COMMIT" = true -> control_form Commit [w]
| form_rollback w : keyword w "ROLLBACK" = true -> control_form Rollback [w].

Lemma keyword_unique w a b : keyword w a = true -> keyword w b = true -> text a = text b.
Proof. unfold keyword. rewrite !bool_decide_eq_true. congruence. Qed.

Lemma classify_words_form ws k :
  k ∈ [Begin; Commit; Rollback] -> classify_words ws = k <-> control_form k ws.
Proof.
  intros Hk. split.
  - intros <-. destruct ws as [|w [|x [|y ws]]]; unfold classify_words in *.
    + by vm_compute in Hk; repeat (apply elem_of_cons in Hk as [Hk|Hk]; [done|]); apply elem_of_nil in Hk.
    + repeat case_match; try (by constructor);
        repeat (apply elem_of_cons in Hk as [Hk|Hk]; [done|]); by apply elem_of_nil in Hk.
    + destruct (keyword w "BEGIN" && keyword x "IMMEDIATE") eqn:H1.
      { apply andb_true_iff in H1 as [? ?]. apply form_begin_with; auto. }
      destruct (keyword w "BEGIN" && keyword x "TRANSACTION") eqn:H2.
      { apply andb_true_iff in H2 as [? ?]. apply form_begin_with; auto. }
      case_match; repeat (apply elem_of_cons in Hk as [Hk|Hk]; [done|]); by apply elem_of_nil in Hk.
    + case_match; repeat (apply elem_of_cons in Hk as [Hk|Hk]; [done|]); by apply elem_of_nil in Hk.
  - intros [w Hw|w x Hw Hx|w Hw|w Hw]; unfold classify_words; rewrite ?Hw; simpl; try done.
    + destruct Hx as [->| ->]; [done|]. by destruct (keyword x "IMMEDIATE").
    + destruct (keyword w "BEGIN") eqn:Hb; [by pose proof (keyword_unique _ _ _ Hw Hb)|done].
    + destruct (keyword w "BEGIN") eqn:Hb; [by pose proof (keyword_unique _ _ _ Hw Hb)|].
      destruct (keyword w "COMMIT") eqn:Hc; [by pose proof (keyword_unique _ _ _ Hw Hc)|done].
Qed.


(** ** What a text of control reads as

    A reading of a text apart from the lexer: blanks and comments between words
    and semicolons, and nothing else.  A quoted text, a number sign or any other
    character has no place in it. *)

Definition line_end (c : char) : bool := (c =? 10)%N || (c =? 13)%N.

(** From behind the opening of a block comment to behind its end: an opening
    inside it is closed first. *)
Inductive closes_comment : list char -> list char -> Prop :=
| comment_end r : closes_comment (text "*/" ++ r) r
| comment_nested l r r' :
    closes_comment l r -> closes_comment r r' -> closes_comment (text "/*" ++ l) r'
| comment_char c l r :
    ~ text "*/" `prefix_of` c :: l -> ~ text "/*" `prefix_of` c :: l ->
    closes_comment l r -> closes_comment (c :: l) r.

Inductive plainly_reads : list char -> list Token -> Prop :=
| reads_end : plainly_reads [] []
| reads_blank c l ts : is_whitespace c = true -> plainly_reads l ts -> plainly_reads (c :: l) ts
| reads_line body e l ts :
    Forall (fun c => line_end c = false) body -> line_end e = true ->
    plainly_reads l ts -> plainly_reads (text "--" ++ body ++ e :: l) ts
| reads_last_line body :
    Forall (fun c => line_end c = false) body -> plainly_reads (text "--" ++ body) []
| reads_comment l r ts :
    closes_comment l r -> plainly_reads r ts -> plainly_reads (text "/*" ++ l) ts
| reads_semicolon l ts : plainly_reads l ts -> plainly_reads (ch ";" :: l) (Semicolon :: ts)
| reads_word w l ts :
    w <> [] -> Forall (fun c => is_identifier_character c = true) w ->
    (forall c r, l = c :: r -> is_identifier_character c = false) ->
    plainly_reads l ts -> plainly_reads (w ++ l) (Word w :: ts).

(** [n] openings closed one after the other. *)
Fixpoint closes_comments (n : nat) (l r : list char) : Prop :=
  match n with
  | O => l = r
  | S n' => exists m, closes_comment l m /\ closes_comments n' m r
  end.

Lemma next_is_spec c l : next_is c l = true <-> exists r, l = c :: r.
Proof.
  destruct l as [|d l]; simpl; [split; [done|by intros [? ?]]|]. rewrite N.eqb_eq.
  split; [intros ->; by eexists|by intros [? [= -> _]]].
Qed.

Lemma pair_prefix a b c l :
  [a; b] `prefix_of` c :: l <-> (c =? a)%N && next_is b l = true.
Proof.
  rewrite andb_true_iff, N.eqb_eq, next_is_spec. split.
  - intros [r [= -> ->]]. eauto.
  - intros [-> [r ->]]. by exists r.
Qed.

(** A comment opens nothing where it closes. *)
Lemma block_comment_closes l : forall n r,
  skip_block_comment l (S n) = Some r -> closes_comments (S n) l r.
Proof.
  induction l as [l IH] using (induction_ltof1 _ (@length char)). unfold ltof in IH.
  intros n r. destruct l as [|c l]; simpl; [done|].
  destruct (_ && next_is (ch "*") l) eqn:Ho.
  { apply andb_true_iff in Ho as [->%N.eqb_eq [l' ->]%next_is_spec].
    intros (m & H1 & m' & H2 & H3)%IH; [|simpl; lia].
    exists m'. split; [exact (comment_nested l' m m' H1 H2)|done]. }
  destruct (_ && next_is (ch "/") l) eqn:Hc.
  { apply andb_true_iff in Hc as [->%N.eqb_eq [l' ->]%next_is_spec]. rewrite Nat.sub_0_r.
    destruct n as [|n]; simpl.
    - intros [= <-]. exists l'. split; [exact (comment_end l')|done].
    - intros H%IH; [|simpl; lia]. exists l'. split; [exact (comment_end l')|done]. }
  intros (m & H1 & H2)%IH; [|simpl; lia]. exists m. split; [|done].
  apply comment_char; [..|done]; change (text ?x) with (text x); intros H%pair_prefix; congruence.
Qed.

Lemma comment_is_skipped l r : closes_comment l r -> forall n,
  skip_block_comment l (S n) = if Nat.eqb n 0 then Some r else skip_block_comment r n.
Proof.
  induction 1 as [r|l r r' _ IH1 _ IH2|c l r Hc Ho _ IH]; intros n.
  - simpl. by rewrite Nat.sub_0_r.
  - change (skip_block_comment l (S (S n)) = if Nat.eqb n 0 then Some r' else skip_block_comment r' n).
    rewrite IH1. simpl Nat.eqb. apply IH2.
  - simpl. destruct (_ && next_is (ch "*") l) eqn:H1; [by destruct Ho; apply pair_prefix|].
    destruct (_ && next_is (ch "/") l) eqn:H2; [by destruct Hc; apply pair_prefix|]. apply IH.
Qed.

Lemma skip_line_reads l : exists body,
  Forall (fun c => line_end c = false) body /\
  (l = body /\ skip_line l = [] \/ exists e, line_end e = true /\ l = body ++ e :: skip_line l).
Proof.
  induction l as [|c l IH]; simpl; [exists []; auto|]. fold (line_end c).
  destruct (line_end c) eqn:Hc; [exists []; split; [done|right]; by exists c|].
  destruct IH as (b & Hb & [[-> Hs]|(e & He & Hl)]); exists (c :: b); (split; [by constructor|]).
  - by left.
  - right. exists e. split; [done|]. simpl. by rewrite <- Hl.
Qed.

Lemma skip_line_body body l :
  Forall (fun c => line_end c = false) body -> skip_line (body ++ l) = skip_line l.
Proof. induction 1 as [|c b Hc _ IH]; simpl; [done|]. fold (line_end c). by rewrite Hc. Qed.

Lemma identifier_run c r :
  exists w l, c :: take_while is_identifier_character r = w /\
    drop_while is_identifier_character r = l /\ c :: r = w ++ l /\
    Forall (fun c => is_identifier_character c = true) (take_while is_identifier_character r) /\
    (forall d m, l = d :: m -> is_identifier_character d = false).
Proof.
  do 2 eexists. split_and!; [done..| | |].
  - simpl. f_equal. induction r as [|d r IH]; simpl; [done|]. destruct (is_identifier_character d); [|done].
    simpl. by f_equal.
  - induction r as [|d r IH]; simpl; [done|]. destruct (is_identifier_character d) eqn:Hd; [by constructor|done].
  - induction r as [|d r IH]; simpl; [done|]. destruct (is_identifier_character d) eqn:Hd; [done|].
    intros ? ? [= <- _]. done.
Qed.

Lemma run_taken w l :
  Forall (fun c => is_identifier_character c = true) w ->
  (forall c r, l = c :: r -> is_identifier_character c = false) ->
  take_while is_identifier_character (w ++ l) = w /\
  drop_while is_identifier_character (w ++ l) = l.
Proof.
  intros Hw Hl. induction Hw as [|c w Hc _ [IH1 IH2]]; simpl.
  - destruct l as [|c l]; [done|]. simpl. by rewrite (Hl c l eq_refl).
  - rewrite Hc. by rewrite IH1, IH2.
Qed.

(** What the lexer reads without any other token is read plainly. *)
Lemma lexed_plainly n : forall sql ts,
  lex_loop n sql = Some ts -> Other ∉ ts -> plainly_reads sql ts.
Proof.
  induction n as [|n IH]; intros [|c r] ts; simpl; try (intros [= <-]; intros; apply reads_end); try done.
  intros ([pushed rest] & Hs & (ts' & Hl & [= <-])%bind_Some)%bind_Some.
  rewrite not_elem_of_app. intros [Ho Ho']. specialize (IH rest ts' Hl Ho'). clear Hl Ho'.
  unfold lex_step in Hs. destruct (is_whitespace c) eqn:Hw.
  { injection Hs as <- <-. by constructor. }
  destruct (_ && next_is (ch "-") r) eqn:Hd.
  { apply andb_true_iff in Hd as [->%N.eqb_eq [r' ->]%next_is_spec]. injection Hs as <- <-. change (plainly_reads (skip_line r') ts') in IH. simpl.
    destruct (skip_line_reads r') as (b & Hb & [[-> Hk]|(e & He & Hk)]).
    - rewrite Hk in IH. inversion IH; subst; [exact (reads_last_line b Hb)|by destruct w].
    - rewrite Hk. exact (reads_line b e _ _ Hb He IH). }
  destruct (_ && next_is (ch "*") r) eqn:Hb.
  { apply andb_true_iff in Hb as [->%N.eqb_eq [r' ->]%next_is_spec].
    apply bind_Some in Hs as (r1 & Hk & [= <- <-]). simpl in Hk.
    apply block_comment_closes in Hk as (m & H1 & ->). exact (reads_comment r' _ _ H1 IH). }
  destruct (is_quote c).
  { apply bind_Some in Hs as (? & _ & [= <- _]). destruct Ho. left. }
  destruct (c =? ch "$")%N.
  { destruct (dollar_quote_delimiter _); [apply bind_Some in Hs as (? & _ & [= <- _])|injection Hs as <- _];
      destruct Ho; left. }
  destruct (c =? ch ";")%N eqn:Hc.
  { apply N.eqb_eq in Hc as ->. injection Hs as <- <-. exact (reads_semicolon _ _ IH). }
  destruct (is_identifier_character c) eqn:Hi; [|injection Hs as <- _; destruct Ho; left].
  injection Hs as <- <-. destruct (identifier_run c r) as (w & l & <- & <- & -> & Hf & Hn).
  apply (reads_word (_ :: _)); [done|by constructor|done|done].
Qed.

Lemma not_identifier c d :
  is_identifier_character c = true -> is_identifier_character d = false -> (c =? d)%N = false.
Proof. intros Hc Hd. apply N.eqb_neq. congruence. Qed.

Lemma identifier_character_is c :
  is_identifier_character c = true ->
  is_whitespace c = false /\ (c =? ch "-")%N = false /\ (c =? ch "/")%N = false /\
  is_quote c = false /\ (c =? ch "$")%N = false /\ (c =? ch ";")%N = false.
Proof.
  intros H. split.
  - unfold is_whitespace. apply bool_decide_eq_false. intros Hw.
    repeat (apply elem_of_cons in Hw as [->|Hw]; [done|]). by apply elem_of_nil in Hw.
  - unfold is_quote. by rewrite !(not_identifier c) by done.
Qed.

(** A round on what is read plainly. *)
Lemma lex_round c r pushed rest ts :
  lex_step c r = Some (pushed, rest) -> lex rest = Some ts -> lex (c :: r) = Some (pushed ++ ts).
Proof.
  intros Hs Hl. unfold lex. simpl. rewrite Hs. simpl.
  rewrite lex_rounds by (by eapply lex_step_shorter). by rewrite Hl.
Qed.

Lemma line_step l : lex_step (ch "-") (ch "-" :: l) = Some ([], skip_line l).
Proof. reflexivity. Qed.

Lemma plain_lexes sql ts : plainly_reads sql ts -> lex sql = Some ts.
Proof.
  induction 1 as [|c l ts Hc _ IH|b e l ts Hb He _ IH|b Hb|l r ts Hc _ IH|l ts _ IH|w l ts Hw Hi Hl _ IH].
  - done.
  - apply (lex_round _ _ [] l); [|done]. unfold lex_step. by rewrite Hc.
  - apply (lex_round _ _ [] l); [|done]. rewrite line_step, skip_line_body by done. simpl.
    fold (line_end e). by rewrite He.
  - apply (lex_round _ _ [] []); [|done].
    rewrite <- (app_nil_r b), line_step, skip_line_body by done. done.
  - apply (lex_round _ _ [] r); [|done]. unfold lex_step. simpl.
    by rewrite (comment_is_skipped l r Hc 0).
  - by apply (lex_round _ _ [Semicolon] l).
  - destruct w as [|c w]; [done|]. inversion Hi as [|? ? Hc Hi']; subst.
    apply (lex_round _ _ [Word (c :: w)] l); [|done]. unfold lex_step.
    destruct (identifier_character_is c Hc) as (-> & -> & -> & -> & -> & ->). rewrite Hc.
    fold (w ++ l). cbn [andb]. by destruct (run_taken w l Hi' Hl) as [-> ->].
Qed.

(** ** One statement between semicolons *)

Lemma split_semicolons n l :
  split_statements (repeat Semicolon n ++ l) = repeat [] n ++ split_statements l.
Proof. induction n as [|n IH]; simpl; [done|]. by rewrite IH. Qed.

Lemma split_words ws l :
  exists x xs, split_statements l = x :: xs /\
    split_statements (map Word ws ++ l) = (map Word ws ++ x) :: xs.
Proof.
  induction ws as [|w ws (x & xs & H1 & H2)]; simpl.
  - destruct l as [|t l]; simpl; [by do 2 eexists|]. case_bool_decide; [by do 2 eexists|].
    destruct (split_statements l); by do 2 eexists.
  - exists x, xs. by rewrite H2.
Qed.

Lemma no_empty_pieces n :
  List.filter (fun s : list Token => negb (bool_decide (s = []))) (repeat [] n) = [].
Proof. by induction n. Qed.

Lemma statement_between b ws a :
  ws <> [] -> statements (repeat Semicolon b ++ map Word ws ++ repeat Semicolon a) = [map Word ws].
Proof.
  intros Hw. unfold statements. rewrite split_semicolons, List.filter_app, no_empty_pieces. simpl.
  destruct (split_words ws (repeat Semicolon a)) as (x & xs & H1 & ->).
  rewrite <- (app_nil_r (repeat Semicolon a)), split_semicolons in H1. simpl in H1.
  assert (x = [] /\ exists m, xs = repeat [] m) as [-> [m ->]].
  { destruct a as [|a]; simpl in H1; injection H1 as <- <-; split; [done|by exists 0%nat|done|].
    exists (S a). simpl. by rewrite repeat_cons. }
  rewrite app_nil_r. simpl. rewrite no_empty_pieces. by destruct ws.
Qed.

Lemma no_statement l : statements l = [] -> exists n, l = repeat Semicolon n.
Proof.
  unfold statements. induction l as [|t l IH]; simpl; [by exists 0%nat|]. case_bool_decide as Ht.
  - simpl. intros [n ->]%IH. exists (S n). by rewrite Ht.
  - destruct (split_statements l); done.
Qed.

Lemma first_piece l :
  exists x xs rest, split_statements l = x :: xs /\ l = x ++ rest /\
    (rest = [] /\ xs = [] \/ exists l', rest = Semicolon :: l' /\ xs = split_statements l').
Proof.
  induction l as [|t l (x & xs & rest & Hs & -> & Hr)]; simpl; [by exists [], [], []; auto|].
  case_bool_decide as Ht; subst.
  - exists [], (split_statements (x ++ rest)), (Semicolon :: x ++ rest). split_and!; [done..|right]. by eexists.
  - rewrite Hs. by exists (t :: x), xs, rest.
Qed.

Lemma single_statement l ws :
  statements l = [map Word ws] ->
  exists b a, l = repeat Semicolon b ++ map Word ws ++ repeat Semicolon a.
Proof.
  induction l as [|t l IH]; [done|]. destruct (decide (t = Semicolon)) as [->|Ht].
  { intros H. destruct IH as (b & a & ->); [done|]. by exists (S b), a. }
  clear IH. unfold statements. destruct (first_piece (t :: l)) as (x & xs & rest & Hs & Hl & Hr).
  rewrite Hs, Hl. destruct x as [|u x].
  { destruct Hr as [[-> _]|(l' & -> & _)]; simplify_eq/=. }
  simpl. intros [= Hx Hf]. exists 0%nat. simpl. rewrite <- Hx. simpl.
  destruct Hr as [[-> _]|(l' & -> & ->)]; [by exists 0%nat|].
  apply no_statement in Hf as [n ->]. by exists (S n).
Qed.

Lemma no_other b ws a : Other ∉ repeat Semicolon b ++ map Word ws ++ repeat Semicolon a.
Proof.
  rewrite !elem_of_app, !list_elem_of_In, in_map_iff.
  intros [H%repeat_spec|[(? & ? & _)|H%repeat_spec]]; done.
Qed.

Lemma control_lexes sql k :
  k ∈ [Begin; Commit; Rollback] ->
  classify_sql_transaction_control sql = k <->
  exists tokens ws, lex sql = Some tokens /\ statements tokens = [map Word ws] /\ control_form k ws.
Proof.
  intros Hk. assert (k <> Unsupported /\ k <> NotControl) as [Hu Hn].
  { split; intros ->; repeat (apply elem_of_cons in Hk as [Hk|Hk]; [done|]); by apply elem_of_nil in Hk. }
  unfold classify_sql_transaction_control. split.
  - destruct (lex sql) as [tokens|]; [|intros; congruence].
    destruct (statements tokens) as [|s [|s' l]] eqn:Hs; [intros; congruence| |destruct (forallb _ _); intros; congruence].
    unfold classify_statement.
    match goal with |- (if ?b then _ else _) = _ -> _ => destruct b end; [intros; congruence|].
    destruct (mapM token_word s) as [ws|] eqn:Hm; [|intros; congruence]. intros Hc.
    exists tokens, ws. rewrite Hs. split_and!; [done| |by apply classify_words_form].
    f_equal. apply mapM_Some in Hm. clear -Hm. induction Hm as [|t w s ws Ht _ IH]; [done|].
    destruct t; [|done..]. injection Ht as ->. simpl. by rewrite IH.
  - intros (tokens & ws & -> & Hs & Hf). rewrite Hs. unfold classify_statement.
    assert (existsb (fun t => bool_decide (t = Other)) (map Word ws) = false) as He.
    { clear. by induction ws. }
    assert (mapM token_word (map Word ws) = Some ws) as ->.
    { apply mapM_Some. clear. induction ws; simpl; by constructor. }
    destruct ws as [|w ws]; [inversion Hf|]. simpl in *. rewrite He, andb_false_r.
    by apply (classify_words_form (w :: ws)).
Qed.

(** C39: SQL is taken to begin, commit or roll back a transaction exactly when it
    is written as one of the exact forms and nothing else: apart from blanks,
    line comments, nested block comments and semicolons around the statement,
    the text holds the words of the form, each a whole run of identifier
    characters, and no other character, so no quoted text either. *)
Theorem control_is_one_exact_statement sql k :
  k ∈ [Begin; Commit; Rollback] ->
  classify_sql_transaction_control sql = k <->
  exists before ws after,
    plainly_reads sql (repeat Semicolon before ++ map Word ws ++ repeat Semicolon after) /\
    control_form k ws.
Proof.
  intros Hk. rewrite control_lexes by done. split.
  - intros (tokens & ws & Hl & Hs & Hf). apply single_statement in Hs as (b & a & ->).
    exists b, ws, a. split; [|done]. apply (lexed_plainly _ _ _ Hl), no_other.
  - intros (b & ws & a & Hr & Hf). exists (repeat Semicolon b ++ map Word ws ++ repeat Semicolon a), ws.
    split_and!; [by apply plain_lexes| |done]. apply statement_between. by destruct Hf.
Qed.

(** ** Vocabularies *)

(** The timeout asked for is never cut short by rounding to seconds, and a
    database whose timeout outlives the transaction also says how to reset it:
    wherever a timeout is set before the transaction or outside of one, there is
    a statement that sets it back. *)
Theorem lock_timeouts_are_reset kind v ms :
  for_kind kind = Some v ->
  (ms <= 1000 * timeout_seconds ms)%N /\ (1 <= timeout_seconds ms)%N /\
  (lock_timeout_before_begin v = true ->
     is_Some (lock_timeout_sql v ms) /\ is_Some (lock_timeout_reset_sql v)) /\
  (is_Some (autocommit_lock_timeout_sql v ms) <-> is_Some (autocommit_lock_timeout_reset_sql v)).
Proof.
  intros Hv. assert (ms <= 1000 * timeout_seconds ms)%N.
  { unfold timeout_seconds. pose proof (N.div_mod (ms + 999) 1000 ltac:(done)).
    pose proof (N.mod_lt (ms + 999) 1000 ltac:(done)). lia. }
  split; [done|]. split; [unfold timeout_seconds; lia|].
  destruct kind; simplify_eq/=; split; try done; try (by split; eexists); by split; intros [? ?].
Qed.

(** Where the vocabularies start a transaction in the words the classifier knows,
    it recognizes them; [START TRANSACTION] it refuses. *)
Example vocabularies_and_classifier :
  map (fun k => (fun v => map (fun s => classify_sql_transaction_control (text s))
                         [begin v; commit v; rollback v]) <$> for_kind k)
    [Postgres; MySQL; SQLite; DuckDB; SqlServer] =
  [Some [Begin; Commit; Rollback]; Some [Unsupported; Commit; Rollback];
   Some [Begin; Commit; Rollback]; Some [Begin; Commit; Rollback]; Some [Begin; Commit; Rollback]].
Proof. vm_compute. reflexivity. Qed.

Example timeout_texts :
  (for_kind MySQL ≫= fun v => lock_timeout_sql v 1500) =
    Some (text "SET SESSION innodb_lock_wait_timeout = 2") /\
  (for_kind Postgres ≫= fun v => lock_timeout_sql v 1500) =
    Some (text "SET LOCAL lock_timeout = '1500ms'").
Proof. vm_compute. done. Qed.

Lemma lex_ends_witness : lex_loop 30 (text "begin -- now") = Some [Word (text "begin")].
Proof. rewrite (lex_ends (text "begin -- now") 30); [vm_compute; reflexivity|vm_compute; lia]. Defined.

Lemma ordinary_sql_has_no_control_witness :
  exists tokens, lex (text "select 'begin'; select 1") = Some tokens /\ statements tokens <> [] /\
    Forall (fun s => ~ leads_control s) (statements tokens).
Proof. apply (ordinary_sql_has_no_control (text "select 'begin'; select 1")). vm_compute. reflexivity. Defined.

Lemma control_is_one_exact_statement_witness :
  classify_sql_transaction_control (text "/* x */ Begin Immediate;") = Begin <->
  exists before ws after,
    plainly_reads (text "/* x */ Begin Immediate;")
      (repeat Semicolon before ++ map Word ws ++ repeat Semicolon after) /\
    control_form Begin ws.
Proof. apply (control_is_one_exact_statement (text "/* x */ Begin Immediate;") Begin). left. Defined.

Lemma lock_timeouts_are_reset_witness :
  match for_kind MySQL with
  | Some v => is_Some (lock_timeout_sql v 1) /\ is_Some (lock_timeout_reset_sql v)
  | None => False
  end.
Proof. exact (proj1 (proj2 (proj2 (lock_timeouts_are_reset MySQL _ 1 eq_refl))) eq_refl). Defined.
