(* ===== verification/SqlLexer.v ===== *)
(** * The SQL lexer of the safety classifier (crates/dbflux_core: query/safety.rs)

    [tokenize] splits a text into words and symbols outside comments, string
    literals and quoted identifiers, by the lexical rules of one dialect.  The
    loop of the source reads the characters by index; a round of it is [step],
    and [scan] repeats it. *)

From S2P Require Import Prelude RustStr RustChar.

Record LexRules := mkRules {
  nested_block_comments : bool;
  dash_comment_requires_space : bool;
  hash_line_comments : bool;
  executable_comments : bool;
  backslash_escapes : bool;
  escape_string_prefix : bool;
  dollar_quotes : bool;
  bracket_identifiers : bool;
}.

Definition POSTGRES_RULES : LexRules :=
  mkRules true false false false false true true false.
Definition MYSQL_RULES : LexRules :=
  mkRules false true true true true false false false.
Definition SQLITE_RULES : LexRules :=
  mkRules false false false false false false false true.
Definition TSQL_RULES : LexRules :=
  mkRules true false false false false false false true.

Definition DIALECT_RULES : list LexRules :=
  [POSTGRES_RULES; MYSQL_RULES; SQLITE_RULES; TSQL_RULES].

Inductive ScanState : Type :=
| Normal
| LineComment
| BlockComment (depth : nat)
| InQuotes (close : char) (escapes : bool)
| DollarQuoted (tag_start tag_len : nat).

(** [Token { kind: TokenKind }]. *)
Inductive Token : Type :=
| Word (w : list char)
| Quoted
| Symbol (c : char).

#[export] Instance token_eq_dec : EqDecision Token.
Proof. solve_decision. Defined.

Definition word (t : Token) : option (list char) :=
  match t with Word w => Some w | _ => None end.

Definition is_symbol (t : Token) (c : char) : bool :=
  match t with Symbol s => (s =? c)%N | _ => false end.

Section Lexer.
Context `{CharLib}.

Definition is_identifier_char (c : char) : bool :=
  is_alphanumeric c || (c =? ch "_")%N || (c =? ch "$")%N.

(** The loop of [dollar_tag_len], [k] characters after the first of the tag. *)
Fixpoint dollar_tag_loop (l : list char) (k : nat) : option nat :=
  match l with
  | [] => None
  | c :: l' =>
      if (c =? ch "$")%N then Some (k + 2)%nat
      else if negb (is_alphanumeric c || (c =? ch "_")%N) then None
      else dollar_tag_loop l' (S k)
  end.

Definition dollar_tag_len (chars : list char) (start : nat) : option nat :=
  match chars !! (start + 1)%nat with
  | Some c =>
      if (c =? ch "$")%N then Some 2%nat
      else if is_alphabetic c || (c =? ch "_")%N then dollar_tag_loop (drop (start + 1) chars) 0
      else None
  | None => None
  end.

Section Step.
Context (rules : LexRules) (chars : list char) (index : nat).

(** [char_at]. *)
Definition char_at (i : nat) : option char := chars !! i.

(** [index.checked_sub(k).and_then(char_at)]. *)
Definition char_before (k : nat) : option char :=
  if Nat.ltb index k then None else char_at (index - k).

Definition some_and {A} (p : A -> bool) (o : option A) : bool :=
  match o with Some x => p x | None => false end.

(** [/*! ... */] of MySQL and [/*M! ... */] of MariaDB. *)
Definition executable_prefix_len : option nat :=
  match char_at (index + 2) with
  | Some a =>
      if (a =? ch "!")%N then Some 3%nat
      else if (a =? ch "M")%N || (a =? ch "m")%N then
        if some_and (fun b => b =? ch "!")%N (char_at (index + 3)) then Some 4%nat else None
      else None
  | None => None
  end.

(** The character that closes a literal or quoted name opened by [current]. *)
Definition closing_quote (current : char) : option char :=
  if (current =? ch "'")%N || (current =? 34)%N || (current =? ch "`")%N then Some current
  else if (current =? ch "[")%N && bracket_identifiers rules then Some (ch "]")
  else None.

(** Whether a backslash escapes the next character of the literal. *)
Definition quote_escapes (current : char) : bool :=
  let escape_prefixed :=
    (current =? ch "'")%N && escape_string_prefix rules &&
    some_and (fun p => char_eq_ignore_case p (ch "e")) (char_before 1) &&
    negb (some_and is_identifier_char (char_before 2)) in
  ((current =? ch "'")%N || (current =? 34)%N) && (backslash_escapes rules || escape_prefixed).

(** A round outside comments and literals: the new state, the new index and the
    tokens pushed. *)
Definition step_normal (current : char) (next : option char) : ScanState * nat * list Token :=
  let next_is c := some_and (fun n => n =? c)%N next in
  let starts_dash_comment :=
    (current =? ch "-")%N && next_is (ch "-") &&
    (negb (dash_comment_requires_space rules) ||
     match char_at (index + 2) with
     | Some after => is_whitespace after || is_control after
     | None => true
     end) in
  if is_whitespace current then (Normal, (index + 1)%nat, [])
  else if starts_dash_comment then (LineComment, (index + 2)%nat, [])
  else if (current =? ch "#")%N && hash_line_comments rules then
    (LineComment, (index + 1)%nat, [])
  else if (current =? ch "/")%N && next_is (ch "*") then
    match executable_prefix_len with
    | Some prefix_len =>
        if executable_comments rules then
          (Normal,
           (index + prefix_len + length (take_while is_digit (drop (index + prefix_len) chars)))%nat,
           [])
        else (BlockComment 1, (index + 2)%nat, [])
    | None => (BlockComment 1, (index + 2)%nat, [])
    end
  else
    match closing_quote current with
    | Some close => (InQuotes close (quote_escapes current), (index + 1)%nat, [Quoted])
    | None =>
        let dollar :=
          if (current =? ch "$")%N && dollar_quotes rules &&
             negb (some_and is_identifier_char (char_before 1))
          then dollar_tag_len chars index else None in
        match dollar with
        | Some tag_len => (DollarQuoted index tag_len, (index + tag_len)%nat, [Quoted])
        | None =>
            if is_alphanumeric current || (current =? ch "_")%N ||
               (current =? ch "$")%N && negb (dollar_quotes rules)
            then
              let w := take_while is_identifier_char (drop index chars) in
              (Normal, (index + length w)%nat, [Word (map to_ascii_uppercase w)])
            else (Normal, (index + 1)%nat, [Symbol current])
        end
    end.

Definition step (state : ScanState) (current : char) : ScanState * nat * list Token :=
  let next := char_at (index + 1) in
  let next_is c := some_and (fun n => n =? c)%N next in
  match state with
  | Normal => step_normal current next
  | LineComment =>
      (if (current =? 10)%N then Normal else LineComment, (index + 1)%nat, [])
  | BlockComment depth =>
      if (current =? ch "*")%N && next_is (ch "/") then
        (if Nat.eqb depth 1 then Normal else BlockComment (depth - 1), (index + 2)%nat, [])
      else if nested_block_comments rules && (current =? ch "/")%N && next_is (ch "*") then
        (BlockComment (depth + 1), (index + 2)%nat, [])
      else (BlockComment depth, (index + 1)%nat, [])
  | InQuotes close escapes =>
      if escapes && (current =? ch "\")%N then (state, (index + 2)%nat, [])
      else if (current =? close)%N then
        if next_is close then (state, (index + 2)%nat, [])
        else (Normal, (index + 1)%nat, [])
      else (state, (index + 1)%nat, [])
  | DollarQuoted tag_start tag_len =>
      if forallb (fun k => bool_decide (char_at (index + k) = char_at (tag_start + k)))
           (seq 0 tag_len)
      then (Normal, (index + tag_len)%nat, [])
      else (state, (index + 1)%nat, [])
  end.

End Step.

(** The loop of [tokenize]. *)
Fixpoint scan (fuel : nat) (rules : LexRules) (chars : list char) (index : nat)
    (state : ScanState) : list Token :=
  match fuel with
  | O => []
  | S fuel' =>
      match char_at chars index with
      | None => []
      | Some current =>
          let '(state', index', pushed) := step rules chars index state current in
          pushed ++ scan fuel' rules chars index' state'
      end
  end.

(** Every round moves the index forward, so one round per character is enough. *)
Definition tokenize (sql : list char) (rules : LexRules) : list Token :=
  scan (length sql) rules sql 0 Normal.

End Lexer.
