(* ===== verification/SqlLexerProps.v ===== *)
(** * What the SQL lexer guarantees

    The lexer ends; literals and comments are not code, whatever they hold; and
    plain code is read back as it was written, by the rules of every dialect. *)

From S2P Require Import Prelude RustStr RustChar SqlLexer.

(** ** The lexer ends *)

Section Lexing.
Context `{CharLib}.

(** A dollar quote has a tag. *)
Definition state_ok (st : ScanState) : Prop :=
  match st with DollarQuoted _ tag_len => (0 < tag_len)%nat | _ => True end.

Lemma dollar_tag_loop_pos l k n : dollar_tag_loop l k = Some n -> (0 < n)%nat.
Proof.
  revert k. induction l as [|c l IH]; intros k; simpl; [done|].
  destruct (c =? _)%N; [intros [= <-]; lia|]. destruct (negb _); [done|apply IH].
Qed.

Lemma dollar_tag_len_pos chars i n : dollar_tag_len chars i = Some n -> (0 < n)%nat.
Proof.
  unfold dollar_tag_len. destruct (chars !! _) as [c|]; [|done].
  destruct (c =? _)%N; [intros [= <-]; lia|]. destruct (_ || _); [apply dollar_tag_loop_pos|done].
Qed.

(** A word has at least the character it starts with. *)
Lemma word_at_pos (chars : list char) i c :
  chars !! i = Some c -> is_identifier_char c = true ->
  (0 < length (take_while is_identifier_char (drop i chars)))%nat.
Proof.
  intros Hc Hi. rewrite (drop_S _ _ _ Hc). simpl. rewrite Hi. simpl. lia.
Qed.

Lemma starts_word_identifier rules c :
  is_alphanumeric c || (c =? ch "_")%N || (c =? ch "$")%N && negb (dollar_quotes rules) = true ->
  is_identifier_char c = true.
Proof.
  unfold is_identifier_char. destruct (is_alphanumeric c), (c =? ch "_")%N, (c =? ch "$")%N;
    done.
Qed.

Lemma executable_prefix_pos chars i n : executable_prefix_len chars i = Some n -> (0 < n)%nat.
Proof. unfold executable_prefix_len. intros Hn. repeat case_match; simplify_eq; lia. Qed.

Lemma step_normal_progress rules chars i c next st' i' out :
  chars !! i = Some c -> step_normal rules chars i c next = (st', i', out) ->
  (i < i')%nat /\ state_ok st'.
Proof.
  intros Hc Hs. unfold step_normal in Hs.
  destruct (is_whitespace c); [simplify_eq; split; [lia|done]|].
  destruct (_ && _); [simplify_eq; split; [lia|done]|].
  destruct (_ && _); [simplify_eq; split; [lia|done]|].
  destruct (_ && _).
  { destruct (executable_prefix_len chars i) as [n|] eqn:Hn;
      [apply executable_prefix_pos in Hn; destruct (executable_comments rules)|];
      simplify_eq; split; done || lia. }
  destruct (closing_quote rules c); [simplify_eq; split; [lia|done]|].
  destruct (if (c =? ch "$")%N && dollar_quotes rules &&
               negb (some_and is_identifier_char (char_before chars i 1))
            then dollar_tag_len chars i else None) as [n|] eqn:Hd.
  { simplify_eq. destruct (_ && _ && _); [|done]. apply dollar_tag_len_pos in Hd. split; simpl; lia. }
  destruct (_ || _ || _) eqn:Hw; simplify_eq; [|split; [lia|done]].
  apply starts_word_identifier in Hw. pose proof (word_at_pos _ _ _ Hc Hw). split; [lia|done].
Qed.

Lemma step_progress rules chars i st c st' i' out :
  chars !! i = Some c -> state_ok st -> step rules chars i st c = (st', i', out) ->
  (i < i')%nat /\ state_ok st'.
Proof.
  intros Hc Hok Hs. destruct st; unfold step in Hs;
    [by eapply step_normal_progress| | | |];
    repeat (case_match; simplify_eq/=); split; done || lia.
Qed.

(** The rest of the scan, from an index and a state. *)
Definition scan_from (rules : LexRules) (chars : list char) (i : nat) (st : ScanState)
  : list Token := scan (length chars - i) rules chars i st.

Lemma scan_more rules chars f i st :
  state_ok st -> (length chars - i <= f)%nat ->
  scan f rules chars i st = scan_from rules chars i st.
Proof.
  unfold scan_from. remember (length chars - i)%nat as n eqn:Hn. revert f i st Hn.
  induction n as [n IH] using lt_wf_ind; intros f i st Hn Hok Hf.
  destruct (chars !! i) as [c|] eqn:Hc.
  - assert (i < length chars)%nat by (by eapply lookup_lt_Some).
    destruct f as [|f]; [lia|]. destruct n as [|n]; [lia|]. simpl. unfold char_at. rewrite Hc.
    destruct (step rules chars i st c) as [[st' i'] out] eqn:Hs.
    apply step_progress in Hs as [Hi Hok']; [|done..]. f_equal.
    rewrite (IH (length chars - i')%nat) by (done || lia).
    symmetry. apply IH; done || lia.
  - apply lookup_ge_None in Hc as Hge. destruct f, n; simpl; unfold char_at; by rewrite ?Hc.
Qed.

(** One round of the scan. *)
Lemma scan_step rules chars i st c st' i' out :
  chars !! i = Some c -> state_ok st -> step rules chars i st c = (st', i', out) ->
  scan_from rules chars i st = out ++ scan_from rules chars i' st'.
Proof.
  intros Hc Hok Hs. assert (i < length chars)%nat by (by eapply lookup_lt_Some).
  rewrite <- (scan_more _ _ (S (length chars))) by (done || lia).
  simpl. unfold char_at. rewrite Hc, Hs. f_equal.
  apply step_progress in Hs as [? ?]; [|done..]. by apply scan_more; [|lia].
Qed.

(** Lexing ends: every round of the loop moves forward, so more rounds than
    the text has characters change nothing. *)
Theorem tokenize_ends rules sql rounds :
  (length sql <= rounds)%nat -> scan rounds rules sql 0 Normal = tokenize sql rules.
Proof.
  intros Hr. unfold tokenize. rewrite !scan_more by (done || lia). done.
Qed.

(** ** Literals and comments *)

Lemma lookup_mid {A} (pre post : list A) k : (pre ++ post) !! (length pre + k)%nat = post !! k.
Proof. rewrite lookup_app_r by lia. f_equal. lia. Qed.

Lemma lookup_here {A} (pre : list A) x post : (pre ++ x :: post) !! length pre = Some x.
Proof. rewrite <- (Nat.add_0_r (length pre)), lookup_mid. done. Qed.

Lemma char_next (pre : list char) x post : char_at (pre ++ x :: post) (length pre + 1) = head post.
Proof. unfold char_at. rewrite lookup_mid. by destruct post. Qed.

(** The rest of a scan, in terms of the text before and after its index. *)
Definition scan_at (rules : LexRules) (pre post : list char) (st : ScanState) : list Token :=
  scan_from rules (pre ++ post) (length pre) st.

Lemma scan_from_at rules pre mid post st :
  scan_from rules (pre ++ mid ++ post) (length pre + length mid) st =
  scan_at rules (pre ++ mid) post st.
Proof. unfold scan_at. by rewrite length_app, app_assoc. Qed.

Lemma scan_at_skip rules pre x post st st' :
  state_ok st ->
  step rules (pre ++ x :: post) (length pre) st x = (st', (length pre + 1)%nat, []) ->
  scan_at rules pre (x :: post) st = scan_at rules (pre ++ [x]) post st'.
Proof.
  intros Hok Hs. unfold scan_at. rewrite (scan_step _ _ _ _ _ _ _ _ (lookup_here _ _ _) Hok Hs).
  by rewrite length_app, <- app_assoc.
Qed.

(** The content of a literal is skipped. *)
Lemma scan_quoted rules pre content close esc post :
  Forall (fun c => c <> close /\ (esc = true -> c <> ch "\")) content ->
  head post <> Some close -> close <> ch "\" ->
  scan_at rules pre (content ++ close :: post) (InQuotes close esc) =
  scan_at rules (pre ++ content ++ [close]) post Normal.
Proof.
  intros Hc Hp Hcl%N.eqb_neq. revert pre. induction Hc as [|c content [Hne Hb] _ IH]; intros pre; simpl.
  - rewrite (scan_at_skip _ _ _ _ _ Normal); [done|done|]. unfold step.
    rewrite Hcl, andb_false_r, N.eqb_refl, char_next. destruct post as [|p post]; [done|]. simpl.
    destruct (N.eqb_spec p close); [by subst|done].
  - rewrite (scan_at_skip _ _ _ _ _ (InQuotes close esc)); [|done|].
    + rewrite IH. by rewrite <- app_assoc.
    + unfold step. destruct (N.eqb_spec c close); [done|].
      destruct esc; [|done]. simpl. destruct (N.eqb_spec c (ch "\")); [by destruct Hb|done].
Qed.

Lemma scan_line_comment rules pre content post :
  10%N ∉ content ->
  scan_at rules pre (content ++ 10%N :: post) LineComment =
  scan_at rules (pre ++ content ++ [10%N]) post Normal.
Proof.
  revert pre. induction content as [|c content IH]; intros pre Hn; simpl.
  - by rewrite (scan_at_skip _ _ _ _ _ Normal).
  - apply not_elem_of_cons in Hn as [Hc Hn].
    rewrite (scan_at_skip _ _ _ _ _ LineComment); [|done|].
    + rewrite IH by done. by rewrite <- app_assoc.
    + unfold step. by destruct (N.eqb_spec c 10).
Qed.

(** What stands in a literal or in a comment is not code, in any dialect and
    in any place: a literal counts as one token whatever it holds (short of its
    quote and a backslash), and a [--] comment that starts with a space counts
    as nothing up to the end of its line. *)
Theorem literals_and_comments_are_not_code rules pre content post :
  (forall q, q ∈ [ch "'"; 34%N; ch "`"] -> Forall (fun c => c <> q /\ c <> ch "\") content ->
     head post <> Some q ->
     scan_at rules pre (q :: content ++ q :: post) Normal =
     Quoted :: scan_at rules (pre ++ q :: content ++ [q]) post Normal) /\
  (10%N ∉ content ->
     scan_at rules pre (text "-- " ++ content ++ 10%N :: post) Normal =
     scan_at rules (pre ++ text "-- " ++ content ++ [10%N]) post Normal).
Proof.
  split.
  - intros q Hq Hc Hp.
    assert (exists esc, step rules (pre ++ q :: content ++ q :: post) (length pre) Normal q =
              (InQuotes q esc, (length pre + 1)%nat, [Quoted])) as [esc Hs].
    { rewrite !elem_of_cons in Hq. unfold step, step_normal.
      destruct Hq as [->|[->|[->|Hq%elem_of_nil]]]; [..|done]; simpl; eexists; reflexivity. }
    unfold scan_at at 1. rewrite (scan_step _ _ _ _ _ _ _ _ (lookup_here pre q _) (I : state_ok Normal) Hs). simpl. f_equal.
    etrans; [exact (scan_from_at rules pre [q] _ (InQuotes q esc))|].
    rewrite scan_quoted; [|by eapply Forall_impl; [exact Hc|naive_solver]|done|].
    + by rewrite <- app_assoc.
    + rewrite !elem_of_cons in Hq. destruct Hq as [->|[->|[->|Hq%elem_of_nil]]]; done.
  - intros Hn. change (text "-- ") with [ch "-"; ch "-"; ch " "]. simpl app.
    unfold scan_at at 1. erewrite scan_step; [|apply lookup_here|done|].
    2:{ unfold step, step_normal. rewrite char_next. simpl.
        unfold char_at. rewrite lookup_mid. simpl. rewrite orb_true_r. reflexivity. }
    etrans; [exact (scan_from_at rules pre [ch "-"; ch "-"]
                      ((ch " " :: content) ++ 10%N :: post) LineComment)|].
    rewrite scan_line_comment; [by rewrite <- app_assoc|]. by apply not_elem_of_cons.
Qed.

(** ** Plain code *)

(** A word of upper-case ASCII letters, digits and underscores, and a symbol that
    opens no literal, comment or quoted name. *)
Definition plain_word_char (c : char) : bool := is_upper c || is_digit c || (c =? ch "_")%N.
Definition plain_symbol (c : char) : bool :=
  (c <? 128)%N && negb (is_whitespace c) && negb (is_letter c) && negb (is_digit c) &&
  negb (bool_decide (c ∈ [ch "_"; ch "$"; ch "'"; 34%N; ch "`"; ch "["; ch "-"; ch "/"; ch "#"])).

Definition plain_token (t : Token) : bool :=
  match t with
  | Word w => negb (bool_decide (w = [])) && forallb plain_word_char w
  | Quoted => false
  | Symbol c => plain_symbol c
  end.

(** Print tokens with a space after each. *)
Definition print_token (t : Token) : list char :=
  match t with Word w => w | Quoted => [] | Symbol c => [c] end ++ [ch " "].
Definition print_tokens (l : list Token) : list char := concat (map print_token l).

Context `{!CharLaws}.

Lemma plain_word_char_ascii c : plain_word_char c = true -> (c < 128)%N.
Proof.
  unfold plain_word_char, is_upper, is_digit. change (ch "_") with 95%N.
  rewrite !orb_true_iff, !andb_true_iff, !N.leb_le, N.eqb_eq. lia.
Qed.

Lemma alphanumeric_ascii c : (c < 128)%N -> is_alphanumeric c = is_letter c || is_digit c.
Proof. intros Hc. unfold is_alphanumeric. by rewrite alphabetic_ascii, numeric_ascii. Qed.

(** What the lexer asks of the first character of a word. *)
Definition opens_nothing (c : char) : bool :=
  negb (is_whitespace c) && negb (c =? ch "-")%N && negb (c =? ch "#")%N && negb (c =? ch "/")%N &&
  negb (c =? ch "'")%N && negb (c =? 34)%N && negb (c =? ch "`")%N && negb (c =? ch "[")%N &&
  negb (c =? ch "$")%N.

Lemma plain_word_char_spec c :
  plain_word_char c = true ->
  is_identifier_char c = true /\ is_alphanumeric c || (c =? ch "_")%N = true /\
  to_ascii_uppercase c = c /\ opens_nothing c = true.
Proof.
  intros Hp. pose proof (plain_word_char_ascii c Hp) as Hc.
  unfold is_identifier_char. rewrite alphanumeric_ascii by done. revert Hp.
  pattern c. apply ascii_ind; [|done]. clear c Hc.
  repeat (apply Forall_cons_2; [vm_compute; by intros|]). apply Forall_nil_2.
Qed.

Lemma plain_symbol_spec c :
  plain_symbol c = true ->
  is_alphanumeric c || (c =? ch "_")%N = false /\ opens_nothing c = true.
Proof.
  intros Hp. assert (c < 128)%N as Hc.
  { unfold plain_symbol in Hp. rewrite !andb_true_iff in Hp. apply N.ltb_lt. tauto. }
  rewrite alphanumeric_ascii by done. revert Hp.
  pattern c. apply ascii_ind; [|done]. clear c Hc.
  repeat (apply Forall_cons_2; [vm_compute; by intros|]). apply Forall_nil_2.
Qed.

Lemma step_opens_nothing rules chars i c :
  opens_nothing c = true ->
  step rules chars i Normal c =
  (if is_alphanumeric c || (c =? ch "_")%N then
     let w := take_while is_identifier_char (drop i chars) in
     (Normal, (i + length w)%nat, [Word (map to_ascii_uppercase w)])
   else (Normal, (i + 1)%nat, [Symbol c])).
Proof.
  unfold opens_nothing. rewrite !andb_true_iff, !negb_true_iff.
  intros ((((((((Hws & Hd) & Hh) & Hs) & Hq) & Hdq) & Hb) & Hbr) & Hdo).
  unfold step, step_normal, closing_quote. rewrite Hws, Hd, Hh, Hs, Hq, Hdq, Hb, Hbr, Hdo. simpl.
  by rewrite orb_false_r.
Qed.

Lemma take_while_word w post :
  Forall (fun c => is_identifier_char c = true) w ->
  take_while is_identifier_char (w ++ ch " " :: post) = w.
Proof.
  induction 1 as [|c w Hc _ IH]; simpl; [|by rewrite Hc, IH].
  assert (is_identifier_char (ch " ") = false) as ->; [|done].
  unfold is_identifier_char. by rewrite alphanumeric_ascii.
Qed.

Lemma scan_space rules pre post :
  scan_at rules pre (ch " " :: post) Normal = scan_at rules (pre ++ [ch " "]) post Normal.
Proof. by apply scan_at_skip. Qed.

Lemma scan_token rules pre t post :
  plain_token t = true ->
  scan_at rules pre (print_token t ++ post) Normal =
  t :: scan_at rules (pre ++ print_token t) post Normal.
Proof.
  destruct t as [w| |c]; simpl; [|done|].
  - intros [Hne%negb_true_iff%bool_decide_eq_false Hw]%andb_true_iff.
    apply Is_true_eq_left, forallb_True in Hw.
    eapply (Forall_impl _ (fun c => plain_word_char c = true)) in Hw; [|by intros ? ?%Is_true_true].
    destruct w as [|c w]; [done|]. inversion Hw as [|? ? Hc _]; subst.
    destruct (plain_word_char_spec c Hc) as (_ & Hal & _ & Ho).
    unfold print_token. rewrite <- app_assoc. simpl. unfold scan_at at 1.
    erewrite scan_step; [|apply lookup_here|done|by rewrite step_opens_nothing, Hal].
    rewrite drop_app_length. change (c :: w ++ ch " " :: post) with ((c :: w) ++ ch " " :: post).
    rewrite take_while_word by (eapply Forall_impl; [exact Hw|]; intros; by apply plain_word_char_spec).
    assert (map to_ascii_uppercase (c :: w) = c :: w) as ->.
    { clear -Hw H0. induction Hw as [|x l Hx _ IH]; simpl; [done|].
      destruct (plain_word_char_spec x Hx) as (_ & _ & -> & _). by rewrite IH. }
    simpl app at 1. f_equal. etrans; [exact (scan_from_at rules pre (c :: w) _ Normal)|].
    rewrite scan_space. by rewrite <- app_assoc.
  - intros Hp. destruct (plain_symbol_spec c Hp) as (Hal & Ho). unfold print_token. simpl.
    unfold scan_at at 1.
    erewrite scan_step; [|apply lookup_here|done|by rewrite step_opens_nothing, Hal]. simpl. f_equal.
    etrans; [exact (scan_from_at rules pre [c] _ Normal)|].
    rewrite scan_space. by rewrite <- app_assoc.
Qed.

Lemma scan_print rules l pre :
  forallb plain_token l = true -> scan_at rules pre (print_tokens l) Normal = l.
Proof.
  revert pre. induction l as [|t l IH]; intros pre; simpl.
  - intros _. unfold scan_at, scan_from. rewrite app_nil_r, Nat.sub_diag. done.
  - intros [Ht Hl]%andb_true_iff. unfold print_tokens. simpl.
    change (concat (map print_token l)) with (print_tokens l).
    by rewrite scan_token, IH.
Qed.

(** Plain code is read back as it was written, by the rules of every
    dialect: words and symbols printed with spaces between them lex to
    themselves, so nothing of them is hidden from the classification. *)
Theorem plain_code_is_read_back rules l :
  forallb plain_token l = true -> tokenize (print_tokens l) rules = l.
Proof.
  intros Hl. unfold tokenize. rewrite scan_more by (done || lia).
  exact (scan_print rules l [] Hl).
Qed.

End Lexing.

Lemma tokenize_ends_witness :
  scan 40 MYSQL_RULES (text "SELECT 1 # not run") 0 Normal =
  [Word (text "SELECT"); Word (text "1")].
Proof. exact (tokenize_ends MYSQL_RULES (text "SELECT 1 # not run") 40 ltac:(vm_compute; lia)). Defined.

Lemma plain_code_is_read_back_witness :
  tokenize (text "SELECT COUNT ( * ) ; ") POSTGRES_RULES =
  [Word (text "SELECT"); Word (text "COUNT"); Symbol (ch "("); Symbol (ch "*"); Symbol (ch ")");
   Symbol (ch ";")].
Proof.
  exact (plain_code_is_read_back POSTGRES_RULES
    [Word (text "SELECT"); Word (text "COUNT"); Symbol (ch "("); Symbol (ch "*"); Symbol (ch ")");
     Symbol (ch ";")] eq_refl).
Defined.
