(* ===== verification/SqlDialect.v ===== *)
(** * SQL dialects and generated SQL (crates/dbflux_core: sql/dialect.rs, query/keyset.rs)

    The trait [SqlDialect] as a class, the default (ANSI) dialect, the statements
    the trait builds itself, and the keyset predicate of chunked mutations.

    Floating-point numbers, dates and JSON texts come from outside the
    repository; the class [ValueLib] has what the code asks of them. *)

From S2P Require Import Prelude RustStr RustChar.

Inductive PlaceholderStyle : Type := QuestionMark | DollarNumber | NamedColon | AtSign.

Class ValueLib := {
  f64 : Type;
  f64_is_nan : f64 -> bool;
  f64_is_infinite : f64 -> bool;
  f64_positive : f64 -> bool;
  f64_to_string : f64 -> list char;
  DateTime : Type;
  datetime_text : DateTime -> list char;
  NaiveDate : Type;
  date_text : NaiveDate -> list char;
  NaiveTime : Type;
  time_text : NaiveTime -> list char;
}.

Section Values.
Context `{ValueLib}.

Inductive DbValue : Type :=
| VNull
| VBool (b : bool)
| VInt (i : Z)
| VFloat (f : f64)
| VText (s : list char)
| VBytes (b : list N)
| VJson (s : list char)
| VDecimal (s : list char)
| VDateTime (d : DateTime)
| VDate (d : NaiveDate)
| VTime (t : NaiveTime)
| VArray (l : list DbValue)
| VDocument (m : list (list char * DbValue))
| VObjectId (s : list char)
| VUnsupported (s : list char).

Record ColumnAssignment := mkAssign {
  ca_name : list char;
  ca_value : DbValue;
  ca_type_name : option (list char);
}.

End Values.

(** [serde_json::to_string] of a document; a failure is [None]. *)
Class DocumentJson `{ValueLib} := { document_json : list (list char * DbValue) -> option (list char) }.

Class SqlDialect `{ValueLib} := {
  quote_identifier : list char -> list char;
  qualified_table : option (list char) -> list char -> list char;
  value_to_literal : DbValue -> list char;
  value_to_literal_typed : DbValue -> option (list char) -> list char;
  placeholder_style : PlaceholderStyle;
  supports_returning : bool;
  supports_drop_cascade : bool;
  build_upsert_statement :
    option (list char) -> list char -> list ColumnAssignment -> list (list char) ->
    list ColumnAssignment -> option (list char);
}.

Definition DROP_CASCADE_NOT_SUPPORTED : list char :=
  text "this database does not support DROP ... CASCADE; drop the dependent objects first".

Section Dialect.
Context `{ValueLib} `{!SqlDialect}.

(** A quoted name, behind its quoted schema when there is one. *)
Definition quoted_table (schema : option (list char)) (table : list char) : list char :=
  match schema with
  | Some s => quote_identifier s ++ text "." ++ quote_identifier table
  | None => quote_identifier table
  end.

Definition drop_table_statement (schema : option (list char)) (table : list char)
    (if_exists cascade : bool) : result (list char) (list char) :=
  if cascade && negb supports_drop_cascade then Err DROP_CASCADE_NOT_SUPPORTED
  else Ok (text "DROP TABLE " ++ (if if_exists then text "IF EXISTS " else []) ++
           quoted_table schema table ++ (if cascade then text " CASCADE" else [])).

(** [limit_clause], [limit_offset_clause] and [select_limit_offset_clause]. *)
Definition limit_clause (n : N) : list char := text "LIMIT " ++ decimal n.
Definition limit_offset_clause (n offset : N) : list char :=
  if (offset =? 0)%N then limit_clause n
  else text "LIMIT " ++ decimal n ++ text " OFFSET " ++ decimal offset.
Definition select_limit_offset_clause (limit : option N) (offset : N) : option (list char) :=
  match limit with
  | None => if (offset =? 0)%N then None else Some (text "OFFSET " ++ decimal offset)
  | Some n =>
      if (offset =? 0)%N then Some (text "LIMIT " ++ decimal n)
      else Some (text "LIMIT " ++ decimal n ++ [10%N] ++ text "OFFSET " ++ decimal offset)
  end.

(** ** Keyset pagination *)

Definition qualified_col (table_alias col : list char) : list char :=
  quote_identifier table_alias ++ text "." ++ quote_identifier col.

Definition placeholder (index : nat) : list char :=
  match placeholder_style with
  | DollarNumber => text "$" ++ decimal (N.of_nat index)
  | AtSign => text "@p" ++ decimal (N.of_nat index)
  | _ => text "?"
  end.

(** The parameters bound so far and the number of the next one. *)
Definition Params : Type := list DbValue * nat.

(** One comparison: its text, with its value bound.  [None] is an index out of
    range. *)
Definition compare_col (table_alias : list char) (pk_cols : list (list char))
    (last_values : list DbValue) (op : string) (acc : option (list (list char) * Params)) (i : nat)
  : option (list (list char) * Params) :=
  '(parts, (params, index)) ← acc;
  col ← pk_cols !! i;
  v ← last_values !! i;
  Some (parts ++ [qualified_col table_alias col ++ text " " ++ text op ++ text " " ++ placeholder index],
        (params ++ [v], S index)).

(** One round of the outer loop: equal on the columns before, greater on this. *)
Definition keyset_clause (table_alias : list char) (pk_cols : list (list char))
    (last_values : list DbValue) (acc : option (list (list char) * Params)) (prefix_len : nat)
  : option (list (list char) * Params) :=
  '(clauses, ps) ← acc;
  '(parts, ps') ←
    compare_col table_alias pk_cols last_values ">"
      (foldl (compare_col table_alias pk_cols last_values "=") (Some ([], ps)) (seq 0 prefix_len))
      prefix_len;
  Some (clauses ++ [match parts with
                    | [x] => x
                    | _ => text "(" ++ join_text (text " AND ") parts ++ text ")"
                    end], ps').

Definition lower_keyset_predicate (pk_cols : list (list char)) (last_values : list DbValue)
    (table_alias : list char) (ps : Params) : option (list char * Params) :=
  if bool_decide (pk_cols = []) then Some ([], ps)
  else
    '(clauses, ps') ←
      foldl (keyset_clause table_alias pk_cols last_values) (Some ([], ps))
        (seq 0 (length pk_cols));
    Some (match clauses with
          | [x] => x
          | _ => text "(" ++ join_text (text " OR ") clauses ++ text ")"
          end, ps').

End Dialect.

(** ** The default dialect *)

(** [name.replace(q, qq)]: every [q] is doubled. *)
Fixpoint double_char (q : char) (l : list char) : list char :=
  match l with
  | [] => []
  | c :: l' => if (c =? q)%N then q :: q :: double_char q l' else c :: double_char q l'
  end.

Definition quote_double_quoted_identifier (name : list char) : list char :=
  34%N :: double_char 34%N name ++ [34%N].
Definition escape_string (s : list char) : list char := double_char (ch "'") s.
Definition quoted_literal (s : list char) : list char := ch "'" :: escape_string s ++ [ch "'"].

(** [{:02x}] of a byte, and [to_string] of a signed integer. *)
Definition hex_digit (n : N) : char := if (n <? 10)%N then (48 + n)%N else (87 + n)%N.
Definition hex_byte (b : N) : list char := [hex_digit (b / 16); hex_digit (b mod 16)].
Definition integer_text (i : Z) : list char :=
  if i <? 0 then ch "-" :: decimal (Z.to_N (- i)) else decimal (Z.to_N i).

Section Default.
Context `{ValueLib} `{!DocumentJson}.

Fixpoint default_value_to_literal (v : DbValue) : list char :=
  match v with
  | VNull => text "NULL"
  | VBool b => if b then text "TRUE" else text "FALSE"
  | VInt i => integer_text i
  | VFloat f =>
      if f64_is_nan f then text "'NaN'"
      else if f64_is_infinite f then if f64_positive f then text "'Infinity'" else text "'-Infinity'"
      else f64_to_string f
  | VText s => quoted_literal s
  | VBytes b => text "X'" ++ concat (map hex_byte b) ++ text "'"
  | VJson s => quoted_literal s
  | VDecimal s => s
  | VDateTime d => ch "'" :: datetime_text d ++ [ch "'"]
  | VDate d => ch "'" :: date_text d ++ [ch "'"]
  | VTime t => ch "'" :: time_text t ++ [ch "'"]
  | VArray l => text "ARRAY[" ++ join_text (text ", ") (map default_value_to_literal l) ++ text "]"
  | VDocument m => quoted_literal (default (text "{}") (document_json m))
  | VObjectId s => quoted_literal s
  | VUnsupported _ => text "NULL"
  end.

Definition default_qualified_table (schema : option (list char)) (table : list char) : list char :=
  match schema with
  | Some s => quote_double_quoted_identifier s ++ text "." ++ quote_double_quoted_identifier table
  | None => quote_double_quoted_identifier table
  end.

(** [value_to_literal_typed] of the trait leaves the type out. *)
Definition default_literal_typed (v : DbValue) (col_type : option (list char)) : list char :=
  default_value_to_literal v.

Definition default_upsert_statement (schema : option (list char)) (table : list char)
    (assignments : list ColumnAssignment) (conflict_columns : list (list char))
    (update_assignments : list ColumnAssignment) : option (list char) :=
  let quote := quote_double_quoted_identifier in
  let literal a := default_literal_typed (ca_value a) (ca_type_name a) in
  if bool_decide (length assignments = 0%nat) || bool_decide (conflict_columns = []) then None
  else
    let head :=
      text "INSERT INTO " ++ default_qualified_table schema table ++ text " (" ++
      join_text (text ", ") (map (fun a => quote (ca_name a)) assignments) ++
      text ") VALUES (" ++ join_text (text ", ") (map literal assignments) ++
      text ") ON CONFLICT (" ++ join_text (text ", ") (map quote conflict_columns) ++
      text ") DO " in
    Some (match update_assignments with
          | [] => head ++ text "NOTHING"
          | _ => head ++ text "UPDATE SET " ++
                 join_text (text ", ")
                   (map (fun a => quote (ca_name a) ++ text " = " ++ literal a) update_assignments)
          end).

(** [supports_returning] is the trait's own. *)
#[export] Instance DefaultSqlDialect : SqlDialect := {
  quote_identifier := quote_double_quoted_identifier;
  qualified_table := default_qualified_table;
  value_to_literal := default_value_to_literal;
  value_to_literal_typed := default_literal_typed;
  placeholder_style := QuestionMark;
  supports_returning := false;
  supports_drop_cascade := false;
  build_upsert_statement := default_upsert_statement;
}.

End Default.

(** Values whose outside types are texts. *)
Definition text_values : ValueLib := {|
  f64 := list char;
  f64_is_nan _ := false;
  f64_is_infinite _ := false;
  f64_positive _ := true;
  f64_to_string x := x;
  DateTime := list char;
  datetime_text x := x;
  NaiveDate := list char;
  date_text x := x;
  NaiveTime := list char;
  time_text x := x;
|}.
