(* ===== verification/VisualQuery.v ===== *)
(** * Visual queries (crates/dbflux_core: query/visual_query.rs)

    The query the visual builder edits and the relational filter is lowered to:
    its data, the checks before it runs, the identifiers of its nodes, and the
    test that decides whether the rows of its result can be edited. *)

From S2P Require Import Prelude RustStr RustChar SqlDialect.

(** ** Filters *)

Module Cmp.
Inductive Comparator : Type :=
| Eq | Neq | Gt | Lt | Gte | Lte | Like | ILike | In | IsNull | IsNotNull.
End Cmp.

Inductive BoolOp : Type := And | Or.

Section Literals.
Context `{ValueLib}.

(** [LiteralValue::Timestamp] is only made by the visual builder. *)
Inductive LiteralValue : Type :=
| LText (s : list char)
| LInteger (i : Z)
| LFloat (f : f64)
| LBool (b : bool)
| LTimestamp (s : list char)
| LNull.

Inductive PredicateValue : Type :=
| NoValue
| Single (v : LiteralValue)
| VList (l : list LiteralValue).

Record Predicate := mkPred {
  pr_source_alias : list char;
  pr_column : list char;
  pr_comparator : Cmp.Comparator;
  pr_value : PredicateValue;
  pr_node_id : N;
}.

Inductive FilterNode : Type :=
| FGroup (op : BoolOp) (children : list FilterNode)
| FPredicate (p : Predicate).

(** ** Joins *)

Record JoinPredicate := mkJoinPred {
  jp_node_id : N;
  jp_left : list char;
  jp_op : Cmp.Comparator;
  jp_right : list char;
}.

Inductive JoinFilterNode : Type :=
| JGroup (node_id : N) (op : BoolOp) (children : list JoinFilterNode)
| JPredicate (p : JoinPredicate).

Inductive JoinKind : Type := Inner | Left | Right | Full.

Inductive JoinOn : Type :=
| FkPath (from_column to_column : list char)
| RawExpression (e : list char)
| Conditions (root : JoinFilterNode).

Record JoinStep := mkJoin {
  j_kind : JoinKind;
  j_from_alias : list char;
  j_to_schema : option (list char);
  j_to_table : list char;
  j_to_alias : list char;
  j_on : JoinOn;
}.

(** ** The query *)

Inductive AggFn : Type := Count | CountStar | CountDistinct | Sum | Avg | Min | Max.

Record GroupByEntry := mkGroupBy { gb_source_alias : list char; gb_column : list char }.

Record AggregateSpec := mkAggregate {
  ag_function : AggFn;
  ag_source_alias : option (list char);
  ag_column : option (list char);
  ag_alias : list char;
}.

Record SourceTable := mkSource {
  st_schema : option (list char);
  st_table : list char;
  st_alias : list char;
}.

Record ProjectedColumn := mkProjected {
  pc_source_alias : list char;
  pc_column : list char;
  pc_alias : option (list char);
}.

Inductive Projection : Type := All | Explicit (columns : list ProjectedColumn).

Inductive SortDirection : Type := Asc | Desc.
Record SortEntry := mkSort {
  so_source_alias : list char;
  so_column : list char;
  so_direction : SortDirection;
}.

Record VisualQuerySpec := mkSpec {
  vq_source : SourceTable;
  vq_projection : Projection;
  vq_joins : list JoinStep;
  vq_filter : option FilterNode;
  vq_group_by : list GroupByEntry;
  vq_aggregates : list AggregateSpec;
  vq_having : option FilterNode;
  vq_sort : list SortEntry;
  vq_limit : option N;
  vq_offset : N;
}.

Definition is_grouped (s : VisualQuerySpec) : bool :=
  negb (bool_decide (vq_group_by s = [])) || negb (bool_decide (length (vq_aggregates s) = 0%nat)).

(** ** Before a query runs *)

Inductive AggregateError : Type :=
| EmptyAlias
| DuplicateAlias (alias : list char)
| CountStarTakesNoColumn
| NeedsColumn (f : AggFn).

Inductive SpecError : Type :=
| MissingSourceTable
| InvalidAggregate (e : AggregateError).

Definition is_blank_text (l : list char) : bool := bool_decide (trim_text l = []).

(** What the code checks of a function and its column. *)
Definition aggregate_column_ok (a : AggregateSpec) : bool :=
  match ag_function a with
  | CountStar => match ag_column a, ag_source_alias a with None, None => true | _, _ => false end
  | _ => match ag_column a, ag_source_alias a with Some _, Some _ => true | _, _ => false end
  end.

Fixpoint check_aggregates (seen_aliases : gset (list N)) (l : list AggregateSpec) : result unit SpecError :=
  match l with
  | [] => Ok tt
  | agg :: l' =>
      if is_blank_text (ag_alias agg) then Err (InvalidAggregate EmptyAlias)
      else if bool_decide ((ag_alias agg : list N) ∈ seen_aliases)
      then Err (InvalidAggregate (DuplicateAlias (ag_alias agg)))
      else if aggregate_column_ok agg
      then check_aggregates ({[ag_alias agg : list N]} ∪ seen_aliases) l'
      else Err (InvalidAggregate (match ag_function agg with
                                  | CountStar => CountStarTakesNoColumn
                                  | f => NeedsColumn f
                                  end))
  end.

Definition is_runnable (s : VisualQuerySpec) : result unit SpecError :=
  if is_blank_text (st_table (vq_source s)) then Err MissingSourceTable
  else check_aggregates ∅ (vq_aggregates s).

(** ** Identifiers of nodes *)

(** [for child in children { f(child, next_id) }], keeping the children. *)
Section MapState.
Context {A S : Type} (f : A -> S -> A * S).
Fixpoint map_state (l : list A) (s : S) : list A * S :=
  match l with
  | [] => ([], s)
  | x :: l' =>
      let '(x', s1) := f x s in
      let '(r, s2) := map_state l' s1 in
      (x' :: r, s2)
  end.
End MapState.

(** [*next_id += 1] on [u64]. *)
Definition u64_succ (n : N) : N := ((n + 1) mod 2 ^ 64)%N.

Fixpoint assign_ids_in_node (node : FilterNode) (next_id : N) : FilterNode * N :=
  match node with
  | FPredicate p =>
      let id := u64_succ next_id in
      (FPredicate (mkPred (pr_source_alias p) (pr_column p) (pr_comparator p) (pr_value p) id), id)
  | FGroup op children =>
      let '(children', next_id') := map_state assign_ids_in_node children next_id in
      (FGroup op children', next_id')
  end.

Fixpoint assign_ids_in_join_node (node : JoinFilterNode) (next_id : N) : JoinFilterNode * N :=
  match node with
  | JPredicate p =>
      let id := u64_succ next_id in
      (JPredicate (mkJoinPred id (jp_left p) (jp_op p) (jp_right p)), id)
  | JGroup _ op children =>
      let id := u64_succ next_id in
      let '(children', next_id') := map_state assign_ids_in_join_node children id in
      (JGroup id op children', next_id')
  end.

Definition assign_ids_in_root (root : option FilterNode) (next_id : N) : option FilterNode * N :=
  match root with
  | Some r => let '(r', n) := assign_ids_in_node r next_id in (Some r', n)
  | None => (None, next_id)
  end.

Definition assign_ids_in_join (j : JoinStep) (next_id : N) : JoinStep * N :=
  match j_on j with
  | Conditions root =>
      let '(root', n) := assign_ids_in_join_node root next_id in
      (mkJoin (j_kind j) (j_from_alias j) (j_to_schema j) (j_to_table j) (j_to_alias j)
         (Conditions root'), n)
  | _ => (j, next_id)
  end.

Definition reassign_node_ids (s : VisualQuerySpec) (next_id : N) : VisualQuerySpec * N :=
  let '(filter', n1) := assign_ids_in_root (vq_filter s) next_id in
  let '(having', n2) := assign_ids_in_root (vq_having s) n1 in
  let '(joins', n3) := map_state assign_ids_in_join (vq_joins s) n2 in
  (mkSpec (vq_source s) (vq_projection s) joins' filter' (vq_group_by s) (vq_aggregates s) having'
     (vq_sort s) (vq_limit s) (vq_offset s), n3).

(** The deepest nesting of groups. *)
Definition max_nat (l : list nat) : nat := foldr Nat.max 0%nat l.
Fixpoint filter_depth (node : FilterNode) : nat :=
  match node with
  | FPredicate _ => 0
  | FGroup _ children => S (max_nat (map filter_depth children))
  end.
Fixpoint join_depth (node : JoinFilterNode) : nat :=
  match node with
  | JPredicate _ => 0
  | JGroup _ _ children => S (max_nat (map join_depth children))
  end.

Inductive AliasOrigin : Type := OriginSource | OriginJoin.

Definition referenced_aliases (s : VisualQuerySpec) : gmap (list N) AliasOrigin :=
  foldl (fun m j => <[(j_to_alias j : list N) := OriginJoin]> m)
    {[(st_alias (vq_source s) : list N) := OriginSource]} (vq_joins s).

(** ** Editing the rows of a result *)

Record TableRef := mkTableRef { tr_schema : option (list char); tr_name : list char }.

Inductive ColumnOrigin : Type := FromSource | FromJoin.

Record EditableBinding := mkBinding {
  eb_table : TableRef;
  eb_pk_columns : list (list char);
  eb_column_origin : gmap (list N) ColumnOrigin;
  eb_insertable : bool;
}.

(** The name of a projected column in the result. *)
Definition output_key (pc : ProjectedColumn) : list char := default (pc_column pc) (pc_alias pc).

Definition origin_of (source_alias : list char) (pc : ProjectedColumn) : ColumnOrigin :=
  if bool_decide (pc_source_alias pc = source_alias) then FromSource else FromJoin.

(** The key columns, each projected from the source without an alias. *)
Fixpoint pk_output_keys (source_alias : list char) (cols : list ProjectedColumn)
    (pk_names : list (list char)) : option (list (list char)) :=
  match pk_names with
  | [] => Some []
  | pk_real :: rest =>
      match List.find (fun pc => bool_decide (pc_source_alias pc = source_alias) &&
                                 bool_decide (pc_column pc = pk_real)) cols with
      | Some pc =>
          match pc_alias pc with
          | Some _ => None
          | None => keys ← pk_output_keys source_alias cols rest; Some (pc_column pc :: keys)
          end
      | None => None
      end
  end.

Definition compute_editable_binding (s : VisualQuerySpec)
    (pk_lookup : SourceTable -> option (list (list char))) : option EditableBinding :=
  let table := mkTableRef (st_schema (vq_source s)) (st_table (vq_source s)) in
  if is_grouped s then None
  else
    pk_names ← pk_lookup (vq_source s);
    if bool_decide (pk_names = []) then None
    else match vq_projection s with
         | All =>
             if negb (bool_decide (length (vq_joins s) = 0%nat)) then None
             else Some (mkBinding table pk_names ∅ true)
         | Explicit cols =>
             keys ← pk_output_keys (st_alias (vq_source s)) cols pk_names;
             Some (mkBinding table keys
               (foldl (fun m pc => <[(output_key pc : list N) := origin_of (st_alias (vq_source s)) pc]> m)
                  ∅ cols)
               (bool_decide (length (vq_joins s) = 0%nat)))
         end.

(** The columns by which the grid addresses a row: the first column of the
    result with the name of each key column (crates/dbflux_ui_document:
    data_grid_panel/grid.rs). *)
Definition pk_indices (names pk_columns : list (list char)) : list nat :=
  let indices := omap (fun pk => fst <$> list_find (fun c => c = pk) names) pk_columns in
  if Nat.eqb (length indices) (length pk_columns) then indices else [].

End Literals.
