(* ===== verification/VisualQueryProps.v ===== *)
(** * Identifiers of nodes and edits of rows (crates/dbflux_core: query/visual_query.rs) *)

From S2P Require Import Prelude RustStr RustChar SqlDialect VisualQuery.

Section Props.
Context `{ValueLib}.

(** ** Identifiers *)

Fixpoint filter_ids (node : FilterNode) : list N :=
  match node with
  | FPredicate p => [pr_node_id p]
  | FGroup _ children => concat (map filter_ids children)
  end.

Fixpoint join_node_ids (node : JoinFilterNode) : list N :=
  match node with
  | JPredicate p => [jp_node_id p]
  | JGroup id _ children => id :: concat (map join_node_ids children)
  end.

Definition root_ids (root : option FilterNode) : list N :=
  match root with Some r => filter_ids r | None => [] end.
Definition join_ids (j : JoinStep) : list N :=
  match j_on j with Conditions root => join_node_ids root | _ => [] end.

(** Every identifier of a query, in the order the code visits the nodes. *)
Definition spec_ids (s : VisualQuerySpec) : list N :=
  root_ids (vq_filter s) ++ root_ids (vq_having s) ++ concat (map join_ids (vq_joins s)).

(** The same tree with every identifier zero. *)
Fixpoint clear_filter (node : FilterNode) : FilterNode :=
  match node with
  | FPredicate p =>
      FPredicate (mkPred (pr_source_alias p) (pr_column p) (pr_comparator p) (pr_value p) 0)
  | FGroup op children => FGroup op (map clear_filter children)
  end.

Fixpoint clear_join_node (node : JoinFilterNode) : JoinFilterNode :=
  match node with
  | JPredicate p => JPredicate (mkJoinPred 0 (jp_left p) (jp_op p) (jp_right p))
  | JGroup _ op children => JGroup 0 op (map clear_join_node children)
  end.

Definition clear_join (j : JoinStep) : JoinStep :=
  match j_on j with
  | Conditions root =>
      mkJoin (j_kind j) (j_from_alias j) (j_to_schema j) (j_to_table j) (j_to_alias j)
        (Conditions (clear_join_node root))
  | _ => j
  end.

Definition clear_ids (s : VisualQuerySpec) : VisualQuerySpec :=
  mkSpec (vq_source s) (vq_projection s) (map clear_join (vq_joins s))
    (clear_filter <$> vq_filter s) (vq_group_by s) (vq_aggregates s) (clear_filter <$> vq_having s)
    (vq_sort s) (vq_limit s) (vq_offset s).

(** The [k] identifiers after [n]. *)
Fixpoint ids_after (n : N) (k : nat) : list N :=
  match k with O => [] | S k' => (n + 1)%N :: ids_after (n + 1) k' end.

Lemma ids_after_app n a b : ids_after n (a + b) = ids_after n a ++ ids_after (n + N.of_nat a) b.
Proof.
  revert n. induction a as [|a IH]; intros n; simpl; [by rewrite N.add_0_r|].
  rewrite IH. do 3 f_equal. lia.
Qed.

Lemma ids_after_length n k : length (ids_after n k) = k.
Proof. revert n. induction k; intros n; simpl; [done|]. by f_equal. Qed.

Lemma u64_succ_small n : (n + 1 < 2 ^ 64)%N -> u64_succ n = (n + 1)%N.
Proof. intros. unfold u64_succ. by rewrite N.mod_small. Qed.

(** What a numbering does, given what counts as identifiers and as the rest. *)
Definition numbers {A} (f : A -> N -> A * N) (ids : A -> list N) (clear : A -> A) (x : A) : Prop :=
  forall n, (n + N.of_nat (length (ids x)) < 2 ^ 64)%N ->
  exists x', f x n = (x', n + N.of_nat (length (ids x)))%N /\
    ids x' = ids_after n (length (ids x)) /\ clear x' = clear x.

Lemma numbers_list {A} f (ids : A -> list N) (clear : A -> A) l :
  Forall (numbers f ids clear) l ->
  numbers (map_state f) (fun l => concat (map ids l)) (map clear) l.
Proof.
  induction 1 as [|x l Hx _ IH]; intros n Hn; simpl.
  { exists []. split; [f_equal; lia|done]. }
  simpl in Hn. rewrite length_app in *.
  destruct (Hx n) as (x' & Hf & Hids & Hc); [lia|].
  destruct (IH (n + N.of_nat (length (ids x)))%N) as (l' & Hf' & Hids' & Hc'); [lia|].
  exists (x' :: l'). rewrite Hf, Hf'. split; [f_equal; lia|]. simpl.
  by rewrite Hids, Hids', Hc, Hc', ids_after_app.
Qed.

(** Induction on the trees. *)
Fixpoint filter_node_ind (Q : FilterNode -> Prop) (Hp : forall p, Q (FPredicate p))
    (Hg : forall op cs, Forall Q cs -> Q (FGroup op cs)) (e : FilterNode) : Q e :=
  match e with
  | FPredicate p => Hp p
  | FGroup op cs =>
      Hg op cs ((fix all (l : list FilterNode) : Forall Q l :=
        match l with
        | [] => Forall_nil_2 Q
        | c :: l' => Forall_cons_2 Q c l' (filter_node_ind Q Hp Hg c) (all l')
        end) cs)
  end.

Fixpoint join_node_ind (Q : JoinFilterNode -> Prop) (Hp : forall p, Q (JPredicate p))
    (Hg : forall id op cs, Forall Q cs -> Q (JGroup id op cs)) (e : JoinFilterNode) : Q e :=
  match e with
  | JPredicate p => Hp p
  | JGroup id op cs =>
      Hg id op cs ((fix all (l : list JoinFilterNode) : Forall Q l :=
        match l with
        | [] => Forall_nil_2 Q
        | c :: l' => Forall_cons_2 Q c l' (join_node_ind Q Hp Hg c) (all l')
        end) cs)
  end.

Lemma filter_numbers node : numbers assign_ids_in_node filter_ids clear_filter node.
Proof.
  induction node as [p|op cs IH] using filter_node_ind; intros n Hn.
  - simpl in *. rewrite u64_succ_small by lia. by eexists.
  - apply numbers_list in IH. destruct (IH n Hn) as (cs' & Hf & Hids & Hc).
    exists (FGroup op cs'). simpl. rewrite Hf. simpl in Hids. by rewrite Hids, Hc.
Qed.

Lemma join_node_numbers node : numbers assign_ids_in_join_node join_node_ids clear_join_node node.
Proof.
  induction node as [p|id op cs IH] using join_node_ind; intros n Hn.
  - simpl in *. rewrite u64_succ_small by lia. by eexists.
  - apply numbers_list in IH. simpl in *. rewrite u64_succ_small by lia.
    destruct (IH (n + 1)%N ltac:(lia)) as (cs' & Hf & Hids & Hc).
    exists (JGroup (n + 1) op cs'). rewrite Hf. simpl. split; [f_equal; lia|]. by rewrite Hids, Hc.
Qed.

Lemma root_numbers root : numbers assign_ids_in_root root_ids (fmap clear_filter) root.
Proof.
  destruct root as [r|]; intros n Hn; simpl in *; [|exists None; split; [f_equal; lia|done]].
  destruct (filter_numbers r n Hn) as (r' & Hf & Hids & Hc).
  exists (Some r'). rewrite Hf. simpl. by rewrite Hids, Hc.
Qed.

Lemma join_numbers j : numbers assign_ids_in_join join_ids clear_join j.
Proof.
  intros n Hn. unfold join_ids, assign_ids_in_join, clear_join in *.
  destruct (j_on j) as [a b|e|root] eqn:Hj;
    [exists j; rewrite Hj; split; [f_equal; simpl; lia|done]..|].
  destruct (join_node_numbers root n Hn) as (r' & Hf & Hids & Hc).
  eexists. rewrite Hf. split; [done|]. simpl. by rewrite Hids, Hc.
Qed.

(** Renumbering a loaded query gives its nodes the identifiers that follow
    the counter, one each and in order, moves the counter past them and changes
    nothing else, as long as 64 bits hold them. *)
Theorem reassigned_ids_follow_the_counter s n :
  (n + N.of_nat (length (spec_ids s)) < 2 ^ 64)%N ->
  exists s', reassign_node_ids s n = (s', n + N.of_nat (length (spec_ids s)))%N /\
    spec_ids s' = ids_after n (length (spec_ids s)) /\ clear_ids s' = clear_ids s.
Proof.
  intros Hn. unfold spec_ids in Hn |- *. rewrite !length_app in *.
  destruct (root_numbers (vq_filter s) n) as (f' & Hf & If & Cf); [lia|].
  destruct (root_numbers (vq_having s) (n + N.of_nat (length (root_ids (vq_filter s))))%N)
    as (h' & Hh & Ih & Ch); [lia|].
  destruct (numbers_list assign_ids_in_join join_ids clear_join (vq_joins s)
      ltac:(apply Forall_forall; intros; apply join_numbers)
      (n + N.of_nat (length (root_ids (vq_filter s))) + N.of_nat (length (root_ids (vq_having s))))%N)
    as (j' & Hj & Ij & Cj); [lia|].
  unfold reassign_node_ids. rewrite Hf, Hh, Hj. eexists. split; [f_equal; lia|].
  split; [|unfold clear_ids; simpl; by rewrite Cf, Ch, Cj].
  simpl. by rewrite If, Ih, Ij, !ids_after_app.
Qed.

Lemma ids_after_above n k x : x ∈ ids_after n k -> (n < x)%N.
Proof.
  revert n. induction k as [|k IH]; intros n Hx; [by apply elem_of_nil in Hx|].
  apply elem_of_cons in Hx as [->|Hx]; [lia|]. apply IH in Hx. lia.
Qed.

(** ** Edits *)

Lemma pk_output_keys_Some alias cols pks keys :
  pk_output_keys alias cols pks = Some keys ->
  keys = pks /\ Forall (fun pk => exists pc, pc ∈ cols /\ pc_source_alias pc = alias /\
                              pc_column pc = pk /\ pc_alias pc = None) pks.
Proof.
  revert keys. induction pks as [|pk pks IH]; intros keys; simpl; [intros [= <-]; by split|].
  destruct (List.find _ cols) as [pc|] eqn:Hf; [|done]. destruct (pc_alias pc) eqn:Ha; [done|].
  intros (ks & Hk & [= <-])%bind_Some. destruct (IH ks Hk) as [-> Hall].
  apply List.find_some in Hf as [Hin Hp]. rewrite andb_true_iff, !bool_decide_eq_true in Hp.
  destruct Hp as [Hp1 Hp2]. split; [by rewrite Hp2|]. constructor; [|done].
  exists pc. split; [by apply list_elem_of_In|done].
Qed.

(** The first column with a name, when no name stands twice. *)
Lemma find_name (cols : list ProjectedColumn) pc :
  NoDup (map output_key cols) -> pc ∈ cols ->
  exists i, list_find (fun c => c = output_key pc) (map output_key cols) = Some (i, output_key pc) /\
    cols !! i = Some pc.
Proof.
  intros Hnd [i Hi]%list_elem_of_lookup. exists i. split; [|done].
  apply list_find_Some. split; [by rewrite list_lookup_fmap, Hi|]. split; [done|].
  intros j y Hj Hlt ->. assert (i = j); [|lia].
  eapply NoDup_lookup; [exact Hnd| |exact Hj]. by rewrite list_lookup_fmap, Hi.
Qed.

(** When the columns of a result have distinct names, an editable result has
    a column for every column of its table's key, and the grid addresses a row
    by these columns, which come from the table itself and not from a joined
    one. *)
Theorem editable_rows_are_addressed_by_their_key s pk_lookup b cols :
  compute_editable_binding s pk_lookup = Some b -> vq_projection s = Explicit cols ->
  NoDup (map output_key cols) ->
  exists pks, pk_lookup (vq_source s) = Some pks /\ pks <> [] /\
    Forall2 (fun i pk => exists pc, cols !! i = Some pc /\
               pc_source_alias pc = st_alias (vq_source s) /\ pc_column pc = pk)
      (pk_indices (map output_key cols) (eb_pk_columns b)) pks.
Proof.
  unfold compute_editable_binding. intros Hb Hp Hnd. rewrite Hp in Hb.
  destruct (is_grouped s); [done|]. apply bind_Some in Hb as (pks & Hpk & Hb).
  case_bool_decide as Hne; [done|]. apply bind_Some in Hb as (keys & Hk & [= <-]). simpl.
  apply pk_output_keys_Some in Hk as [-> Hall]. exists pks. split; [done|]. split; [done|].
  unfold pk_indices.
  assert (Hf : exists ix, omap (fun pk => fst <$> list_find (fun c => c = pk) (map output_key cols)) pks = ix /\
    Forall2 (fun i pk => exists pc, cols !! i = Some pc /\
      pc_source_alias pc = st_alias (vq_source s) /\ pc_column pc = pk) ix pks).
  { clear Hne Hpk. induction Hall as [|pk pks (pc & Hin & Hs & Hc & Ha) _ IH]; [by exists []|].
    destruct IH as (ix & Hix & Hall). destruct (find_name cols pc Hnd Hin) as (i & Hi & Hci).
    assert (Hk : output_key pc = pk) by (unfold output_key; by rewrite Ha).
    rewrite Hk in Hi. exists (i :: ix). split; [|constructor; [by exists pc|done]].
    cbn [omap list_omap]. rewrite Hi. simpl. by f_equal. }
  destruct Hf as (ix & -> & Hall2). rewrite (Forall2_length _ _ _ Hall2), Nat.eqb_refl. done.
Qed.

End Props.

(** ** Concrete queries *)

#[local] Existing Instance text_values.

Definition column (alias name : string) : ProjectedColumn := mkProjected (text alias) (text name) None.

Definition orders_and_users (cols : list ProjectedColumn) : VisualQuerySpec :=
  mkSpec (mkSource None (text "orders") (text "o")) (Explicit cols)
    [mkJoin Inner (text "o") None (text "users") (text "u") (FkPath (text "user_id") (text "id"))]
    (Some (FGroup And [FPredicate (mkPred (text "o") (text "a") Cmp.IsNull NoValue 7);
                       FPredicate (mkPred (text "u") (text "b") Cmp.IsNull NoValue 7)]))
    [] [] None [] None 0.

Definition id_key (_ : SourceTable) : option (list (list char)) := Some [text "id"].

Lemma editable_rows_are_addressed_by_their_key_witness :
  is_Some (compute_editable_binding (orders_and_users [column "u" "name"; column "o" "id"]) id_key) /\
  exists pks, id_key (mkSource None (text "orders") (text "o")) = Some pks /\ pks <> [] /\
    Forall2 (fun i pk => exists pc, [column "u" "name"; column "o" "id"] !! i = Some pc /\
               pc_source_alias pc = text "o" /\ pc_column pc = pk) [1%nat] pks.
Proof.
  split; [vm_compute; by eexists|].
  eapply (editable_rows_are_addressed_by_their_key
    (orders_and_users [column "u" "name"; column "o" "id"]) id_key _ _ ltac:(vm_compute; reflexivity) eq_refl).
  apply (bool_decide_unpack _). vm_compute. exact I.
Defined.

(** Two columns named alike: the row is addressed by the joined table's [id],
    which is taken for the key of the table that is edited. *)
Example joined_key_is_edited :
  let s := orders_and_users [column "u" "id"; column "o" "id"] in
  match compute_editable_binding s id_key with
  | Some b => eb_pk_columns b = [text "id"] /\
              pk_indices (map output_key [column "u" "id"; column "o" "id"]) (eb_pk_columns b) = [0%nat]
  | None => False
  end.
Proof. vm_compute. by split. Qed.

Lemma reassigned_ids_follow_the_counter_witness :
  exists s', reassign_node_ids (orders_and_users []) 4 = (s', 6%N) /\ spec_ids s' = [5; 6]%N /\
    clear_ids s' = clear_ids (orders_and_users []).
Proof. apply (reassigned_ids_follow_the_counter (orders_and_users []) 4). vm_compute. reflexivity. Defined.
