(* ===== verification/TableBrowser.v ===== *)
(** * Table browsing (crates/dbflux_core: query/table_browser.rs)

    References to tables and columns, pages, and the query that reads one page
    of a table. *)

From S2P Require Import Prelude RustStr RustChar SqlDialect VisualQuery.

Module TableBrowser.

Inductive SortDirection : Type := Ascending | Descending.

Record ColumnRef := mkColumn {
  cr_table : option (list char);
  cr_name : list char;
  cr_alias : option (list char);
}.

#[export] Instance ColumnRef_eq_dec : EqDecision ColumnRef.
Proof. solve_decision. Defined.

Record OrderByColumn := mkOrderBy { ob_column : ColumnRef; ob_direction : SortDirection }.

(** [str::split_once] at a character. *)
Fixpoint split_once (sep : char) (l : list char) : option (list char * list char) :=
  match l with
  | [] => None
  | c :: l' =>
      if (c =? sep)%N then Some ([], l')
      else '(a, b) ← split_once sep l'; Some (c :: a, b)
  end.

Definition column_from_qualified (qualified_name : list char) : ColumnRef :=
  match split_once (ch ".") qualified_name with
  | Some (table, column) => mkColumn (Some table) column None
  | None => mkColumn None qualified_name None
  end.

Definition column_qualified_name (c : ColumnRef) : list char :=
  match cr_table c with
  | Some t => t ++ text "." ++ cr_name c
  | None => cr_name c
  end.

Definition result_name (c : ColumnRef) : list char := default (cr_name c) (cr_alias c).
Definition is_wildcard (c : ColumnRef) : bool := bool_decide (cr_name c = text "*").

Definition table_from_qualified (qualified_name : list char) : TableRef :=
  match split_once (ch ".") qualified_name with
  | Some (schema, table) => mkTableRef (Some schema) table
  | None => mkTableRef None qualified_name
  end.

Definition table_qualified_name (t : TableRef) : list char :=
  match tr_schema t with
  | Some s => s ++ text "." ++ tr_name t
  | None => tr_name t
  end.

(** ** Pages *)

(** [Pagination::Offset]; the limit is a [u32] and the offset a [u64]. *)
Record Pagination := mkPage { pg_limit : N; pg_offset : N }.

Definition default_pagination : Pagination := mkPage 100 0.

Definition page_in_range (p : Pagination) : bool :=
  ((pg_limit p <? 2 ^ 32) && (pg_offset p <? 2 ^ 64))%N.

(** The sum wraps around as a release build's does. *)
Definition next_page (p : Pagination) : Pagination :=
  mkPage (pg_limit p) ((pg_offset p + pg_limit p) mod 2 ^ 64).

(** [saturating_sub] is the subtraction of [N]. *)
Definition prev_page (p : Pagination) : option Pagination :=
  if (pg_offset p =? 0)%N then None else Some (mkPage (pg_limit p) (pg_offset p - pg_limit p)).

Definition current_page (p : Pagination) : N :=
  if (pg_limit p =? 0)%N then 1 else pg_offset p / pg_limit p + 1.

Definition is_first_page (p : Pagination) : bool := (pg_offset p =? 0)%N.
Definition with_limit (p : Pagination) (new_limit : N) : Pagination := mkPage new_limit (pg_offset p).
Definition reset_offset (p : Pagination) : Pagination := mkPage (pg_limit p) 0.

(** ** Queries *)

Section Dialect.
Context `{ValueLib} `{!SqlDialect}.

Definition table_quoted_with (t : TableRef) : list char := qualified_table (tr_schema t) (tr_name t).

Definition column_quoted_with (c : ColumnRef) : list char :=
  let quoted_col := quote_identifier (cr_name c) in
  let base :=
    match cr_table c with
    | Some t => quote_identifier t ++ text "." ++ quoted_col
    | None => quoted_col
    end in
  match cr_alias c with
  | Some a => base ++ text " AS " ++ quote_identifier a
  | None => base
  end.

Definition quoted_list (names : list (list char)) : list char :=
  join_text (text ", ") (map quote_identifier names).

Definition direction_sql (d : SortDirection) : list char :=
  match d with Ascending => text "ASC" | Descending => text "DESC" end.

Definition order_by_text (order_by : list OrderByColumn) : list char :=
  join_text (text ", ")
    (map (fun c => column_quoted_with (ob_column c) ++ text " " ++ direction_sql (ob_direction c)) order_by).

(** [TableBrowseRequest], with the parts its query is made of. *)
Record TableBrowseRequest := mkBrowse {
  br_table : TableRef;
  br_pagination : Pagination;
  br_order_by : list OrderByColumn;
  br_filter : option (list char);
  br_columns : list (list char);
}.

Definition select_list_with (r : TableBrowseRequest) : list char :=
  match br_columns r with [] => text "*" | columns => quoted_list columns end.

Definition browse_where (filter : option (list char)) : list char :=
  match filter with
  | None => []
  | Some f =>
      match trim_text f with
      | [] => []
      | trimmed => text " WHERE " ++ trimmed
      end
  end.

Definition build_browse_sql (r : TableBrowseRequest) : list char :=
  text "SELECT " ++ select_list_with r ++ text " FROM " ++ table_quoted_with (br_table r) ++
  browse_where (br_filter r) ++
  match br_order_by r with [] => [] | l => text " ORDER BY " ++ order_by_text l end ++
  text " LIMIT " ++ decimal (pg_limit (br_pagination r)) ++
  text " OFFSET " ++ decimal (pg_offset (br_pagination r)).

End Dialect.
End TableBrowser.
