(* ===== verification/SemanticFilter.v ===== *)
(** * Semantic filters (crates/dbflux_core: query/semantic.rs)

    A filter of a semantic request is a tree of typed predicates: it is read from
    JSON, rendered as the condition of a statement, and converted to the filter
    tree of a visual query. *)

From S2P Require Import Prelude RustStr RustChar SqlDialect VisualQuery TableBrowser.

Module Where.
Inductive WhereOperator : Type :=
| Eq | Ne | Gt | Gte | Lt | Lte | Like | ILike | Regex | Null | In | NotIn | Contains | Overlap
| ContainsAll | ContainsAny | Size | And | Or | Not.

Definition sql_symbol (op : WhereOperator) : string :=
  match op with
  | Eq => "=" | Ne => "<>" | Gt => ">" | Gte => ">=" | Lt => "<" | Lte => "<="
  | Like => "LIKE" | ILike => "ILIKE" | Null => "IS NULL" | In => "IN" | NotIn => "NOT IN"
  | Contains => "@>" | Overlap => "&&" | And => "AND" | Or => "OR" | Not => "NOT"
  | ContainsAll => "CONTAINS ALL" | ContainsAny => "CONTAINS ANY" | Size => "@>" | Regex => "~"
  end.
End Where.

Abbreviation WhereOperator := Where.WhereOperator.

Module SemanticFilter.
Import TableBrowser.

Inductive SemanticFieldRef : Type :=
| Column (c : ColumnRef)
| Path (segments : list (list char)).

Section Filters.
Context `{ValueLib}.

Record SemanticPredicate := mkPredicate {
  sp_field : SemanticFieldRef;
  sp_operator : WhereOperator;
  sp_value : option DbValue;
}.

Inductive SemanticFilter : Type :=
| Predicate (p : SemanticPredicate)
| And (filters : list SemanticFilter)
| Or (filters : list SemanticFilter)
| Not (f : SemanticFilter).

Definition compare (field : SemanticFieldRef) (op : WhereOperator) (v : DbValue) : SemanticFilter :=
  Predicate (mkPredicate field op (Some v)).
Definition null (field : SemanticFieldRef) : SemanticFilter :=
  Predicate (mkPredicate field Where.Null None).

Fixpoint field_refs (f : SemanticFilter) : list SemanticFieldRef :=
  match f with
  | Predicate p => [sp_field p]
  | And fs | Or fs => concat (map field_refs fs)
  | Not f => field_refs f
  end.

(** ** Rendering *)

Inductive RenderError : Type :=
| UnsupportedOperator (op : WhereOperator)
| RequiresArray (op : WhereOperator)
| RequiresValue (op : WhereOperator)
| NestedPath.

Section Render.
Context `{!SqlDialect}.

Definition render_sql_field (field : SemanticFieldRef) : result (list char) RenderError :=
  match field with
  | Column c => Ok (column_quoted_with c)
  | Path _ => Err NestedPath
  end.

Definition require_predicate_value (p : SemanticPredicate) : result DbValue RenderError :=
  match sp_value p with Some v => Ok v | None => Err (RequiresValue (sp_operator p)) end.

Definition is_null_value (v : option DbValue) : bool :=
  match v with None | Some VNull => true | _ => false end.

Definition compared (field : list char) (op : string) (v : DbValue) : list char :=
  field ++ text " " ++ text op ++ text " " ++ value_to_literal v.

Definition render_sql_predicate (p : SemanticPredicate) : result (list char) RenderError :=
  let? field := render_sql_field (sp_field p) in
  match sp_operator p with
  | Where.Null => Ok (field ++ text " IS NULL")
  | Where.Eq =>
      match default VNull (sp_value p) with
      | VNull => Ok (field ++ text " IS NULL")
      | v => Ok (compared field "=" v)
      end
  | Where.Ne =>
      match default VNull (sp_value p) with
      | VNull => Ok (field ++ text " IS NOT NULL")
      | v => Ok (compared field "<>" v)
      end
  | Where.Gt | Where.Gte | Where.Lt | Where.Lte | Where.Like | Where.ILike | Where.Regex
  | Where.Contains | Where.Overlap | Where.ContainsAll =>
      let? v := require_predicate_value p in
      Ok (compared field (Where.sql_symbol (sp_operator p)) v)
  | Where.In | Where.NotIn =>
      let? v := require_predicate_value p in
      match v with
      | VArray items =>
          Ok (field ++ text " " ++ text (Where.sql_symbol (sp_operator p)) ++ text " (" ++
              join_text (text ", ") (map value_to_literal items) ++ text ")")
      | _ => Err (RequiresArray (sp_operator p))
      end
  | op => Err (UnsupportedOperator op)
  end.

(** [render_filter_group], on the rendered members. *)
Definition group_text (joiner : string) (rendered : list (list char)) : list char :=
  join_text (text " " ++ text joiner ++ text " ") (map (fun r => text "(" ++ r ++ text ")") rendered).

Fixpoint render_semantic_filter_sql (f : SemanticFilter) : result (list char) RenderError :=
  match f with
  | Predicate p => render_sql_predicate p
  | And fs => map_ok (group_text "AND") (try_map render_semantic_filter_sql fs)
  | Or fs => map_ok (group_text "OR") (try_map render_semantic_filter_sql fs)
  | Not f => map_ok (fun r => text "NOT (" ++ r ++ text ")") (render_semantic_filter_sql f)
  end.

End Render.
End Filters.

(** ** From JSON *)

(** [serde_json::Value], its texts as characters and the entries of an object in
    iteration order, with the numbers and the parser of the crate. *)
Section Json.
Context (jnumber : Type).
Inductive JsonValue : Type :=
| JNull
| JBool (b : bool)
| JNumber (n : jnumber)
| JString (s : list char)
| JArray (l : list JsonValue)
| JObject (m : list (list char * JsonValue)).
End Json.
Arguments JNull {_}.
Arguments JBool {_}.
Arguments JNumber {_}.
Arguments JString {_}.
Arguments JArray {_}.
Arguments JObject {_}.

Class JsonText `{ValueLib} := {
  jnumber : Type;
  as_i64 : jnumber -> option Z;
  as_f64 : jnumber -> option f64;
  jnumber_text : jnumber -> list char;
  json_parse : list char -> option (JsonValue jnumber);
}.

Section Parse.
Context `{ValueLib} `{!JsonText}.
Abbreviation Json := (JsonValue jnumber).

Inductive FilterError : Type :=
| BadJsonText (t : list char)
| NotAnObject (v : Json)
| LogicalNotArray (operator : list char)
| LogicalEmpty (operator : list char)
| EmptyObject
| UnknownOperator (operator : list char)
| OptionsWithoutRegex (key : list char)
| EmptyFieldFilter (key : list char)
| ExistsNotBool (key : list char).

Fixpoint json_to_value (v : Json) : DbValue :=
  match v with
  | JNull => VNull
  | JBool b => VBool b
  | JNumber n =>
      match as_i64 n with
      | Some i => VInt i
      | None => match as_f64 n with Some f => VFloat f | None => VText (jnumber_text n) end
      end
  | JString s => VText s
  | JArray l => VArray (map json_to_value l)
  | JObject m => VDocument (map (fun kv => (kv.1, json_to_value kv.2)) m)
  end.

(** [Map::get]. *)
Fixpoint object_get (k : string) (m : list (list char * Json)) : option Json :=
  match m with
  | [] => None
  | (k', v) :: m' => if bool_decide (k' = text k) then Some v else object_get k m'
  end.

Definition parse_field_ref (key : list char) : SemanticFieldRef :=
  let segments := split_chars (fun c => c =? ch ".")%N key in
  if Nat.ltb 2 (length segments) then Path segments else Column (column_from_qualified key).

Definition parse_exists_filter (field : SemanticFieldRef) (key : list char) (v : Json)
  : result SemanticFilter FilterError :=
  match v with
  | JBool true => Ok (Not (null field))
  | JBool false => Ok (null field)
  | _ => Err (ExistsNotBool key)
  end.

(** The operators that compare whatever their value is. *)
Definition OPERATORS : list (string * WhereOperator) :=
  [("$gt", Where.Gt); ("$gte", Where.Gte); ("$lt", Where.Lt); ("$lte", Where.Lte);
   ("$like", Where.Like); ("$ilike", Where.ILike); ("$regex", Where.Regex); ("$in", Where.In);
   ("$nin", Where.NotIn); ("$contains", Where.Contains); ("$overlap", Where.Overlap);
   ("$all", Where.ContainsAll); ("$size", Where.Size)].

Fixpoint find_operator (operator : list char) (l : list (string * WhereOperator)) : option WhereOperator :=
  match l with
  | [] => None
  | (s, op) :: l' => if bool_decide (operator = text s) then Some op else find_operator operator l'
  end.

(** One entry of an operator map; [$options] is skipped by the caller. *)
Definition parse_operator (field : SemanticFieldRef) (key : list char) (entry : list char * Json)
  : result SemanticFilter FilterError :=
  let '(operator, v) := entry in
  let is_op s := bool_decide (operator = text s) in
  if is_op "$eq" then
    match v with JNull => Ok (null field) | _ => Ok (compare field Where.Eq (json_to_value v)) end
  else if is_op "$ne" then
    match v with JNull => Ok (Not (null field)) | _ => Ok (compare field Where.Ne (json_to_value v)) end
  else if is_op "$exists" then parse_exists_filter field key v
  else
    match find_operator operator OPERATORS with
    | Some op => Ok (compare field op (json_to_value v))
    | None => Err (UnknownOperator operator)
    end.

Definition collapse_filter_list (filters : list SemanticFilter) : option SemanticFilter :=
  match filters with
  | [] => None
  | [f] => Some f
  | _ => Some (And filters)
  end.

Definition parse_operator_map (field : SemanticFieldRef) (key : list char)
    (m : list (list char * Json)) : result SemanticFilter FilterError :=
  let? filters :=
    try_map (parse_operator field key)
      (List.filter (fun e => negb (bool_decide (e.1 = text "$options"))) m) in
  if bool_decide (is_Some (object_get "$options" m)) && negb (bool_decide (is_Some (object_get "$regex" m)))
  then Err (OptionsWithoutRegex key)
  else match collapse_filter_list filters with
       | Some f => Ok f
       | None => Err (EmptyFieldFilter key)
       end.

Definition starts_with_dollar (k : list char) : bool := has_prefix (text "$") k.

Definition parse_field_filter (key : list char) (v : Json) : result SemanticFilter FilterError :=
  let field := parse_field_ref key in
  match v with
  | JObject m =>
      if negb (bool_decide (length m = 0%nat)) && forallb (fun e => starts_with_dollar e.1) m
      then parse_operator_map field key m
      else Ok (compare field Where.Eq (json_to_value v))
  | JNull => Ok (null field)
  | _ => Ok (compare field Where.Eq (json_to_value v))
  end.

(** The parser calls itself on the members of a group and on the text of a
    string; [None] is a parser out of rounds. *)
Definition Out (A : Type) : Type := option (result A FilterError).

Definition out_bind {A B} (m : Out A) (f : A -> Out B) : Out B :=
  match m with
  | None => None
  | Some (Err e) => Some (Err e)
  | Some (Ok x) => f x
  end.

Fixpoint out_all {A B} (f : A -> Out B) (l : list A) : Out (list B) :=
  match l with
  | [] => Some (Ok [])
  | x :: l' => out_bind (f x) (fun y => out_bind (out_all f l') (fun r => Some (Ok (y :: r))))
  end.

Section Entries.
Context (parse_filter : Json -> Out (option SemanticFilter)).

Definition parse_required_filter (v : Json) : Out SemanticFilter :=
  out_bind (parse_filter v) (fun o => Some (match o with Some f => Ok f | None => Err EmptyObject end)).

Definition parse_logical_list (operator : list char) (v : Json)
    (build : list SemanticFilter -> SemanticFilter) : Out SemanticFilter :=
  match v with
  | JArray [] => Some (Err (LogicalEmpty operator))
  | JArray values => out_bind (out_all parse_required_filter values) (fun fs => Some (Ok (build fs)))
  | _ => Some (Err (LogicalNotArray operator))
  end.

Definition parse_filter_entry (entry : list char * Json) : Out SemanticFilter :=
  let '(key, v) := entry in
  if bool_decide (key = text "$and") then parse_logical_list key v And
  else if bool_decide (key = text "$or") then parse_logical_list key v Or
  else if bool_decide (key = text "$not") then
    out_bind (parse_required_filter v) (fun f => Some (Ok (Not f)))
  else Some (parse_field_filter key v).

End Entries.

Fixpoint parse_filter (rounds : nat) (v : Json) : Out (option SemanticFilter) :=
  match rounds with
  | O => None
  | S rounds' =>
      match v with
      | JNull => Some (Ok None)
      | JObject m =>
          out_bind (out_all (parse_filter_entry (parse_filter rounds')) m)
            (fun fs => Some (Ok (collapse_filter_list fs)))
      | JString t =>
          if has_prefix (text "{") (trim_text t) then
            match json_parse t with
            | Some parsed => parse_filter rounds' parsed
            | None => Some (Err (BadJsonText t))
            end
          else Some (Err (NotAnObject v))
      | _ => Some (Err (NotAnObject v))
      end
  end.

(** How much of a document there is: a string counts its characters. *)
Fixpoint json_weight (v : Json) : nat :=
  match v with
  | JString s => S (length s)
  | JArray l => S (list_sum (map json_weight l))
  | JObject m => S (list_sum (map (fun kv => json_weight kv.2) m))
  | _ => 1
  end.

(** The rounds are as many as the document has parts. *)
Definition parse_semantic_filter_json (v : Json) : Out (option SemanticFilter) :=
  parse_filter (json_weight v) v.

End Parse.

(** ** To the filter tree of a visual query *)

(** Whether a float is at or beyond 2^63 in magnitude. *)
Class FloatRange `{ValueLib} := { out_of_integer_range : f64 -> bool }.

Section Convert.
Context `{ValueLib} `{!FloatRange}.
Context (resolve_column : ColumnRef -> result (list char * list char) (list char)).

Inductive ConvertError : Type :=
| EmptyGroup
| NotNeedsNullTest
| PathField (segments : list (list char))
| BadColumn (message : list char)
| OperatorNotSupported (op : WhereOperator)
| InNeedsArray
| InNeedsValue
| NumberOutOfRange (f : f64)
| ValueNotSupported (v : DbValue).

Definition literal_from_value (v : DbValue) : result LiteralValue ConvertError :=
  match v with
  | VNull => Ok LNull
  | VBool b => Ok (LBool b)
  | VInt i => Ok (LInteger i)
  | VFloat f => if out_of_integer_range f then Err (NumberOutOfRange f) else Ok (LFloat f)
  | VText s => Ok (LText s)
  | _ => Err (ValueNotSupported v)
  end.

Definition single_literal (p : SemanticPredicate) : result PredicateValue ConvertError :=
  map_ok Single (literal_from_value (default VNull (sp_value p))).

Definition literal_list (p : SemanticPredicate) : result PredicateValue ConvertError :=
  match sp_value p with
  | Some (VArray []) => Err InNeedsValue
  | Some (VArray items) => map_ok VList (try_map literal_from_value items)
  | _ => Err InNeedsArray
  end.

Definition is_null_test (p : SemanticPredicate) : bool :=
  match sp_operator p with
  | Where.Null => true
  | Where.Eq => is_null_value (sp_value p)
  | _ => false
  end.

(** The comparator and the value of a predicate. *)
Definition converted (p : SemanticPredicate) (negated_null_test : bool)
  : result (Cmp.Comparator * PredicateValue) ConvertError :=
  let with_ c r := map_ok (fun v => (c, v)) r in
  if negated_null_test then Ok (Cmp.IsNotNull, NoValue)
  else
    match sp_operator p with
    | Where.Null => Ok (Cmp.IsNull, NoValue)
    | Where.Eq =>
        if is_null_value (sp_value p) then Ok (Cmp.IsNull, NoValue) else with_ Cmp.Eq (single_literal p)
    | Where.Ne =>
        if is_null_value (sp_value p) then Ok (Cmp.IsNotNull, NoValue) else with_ Cmp.Neq (single_literal p)
    | Where.Gt => with_ Cmp.Gt (single_literal p)
    | Where.Gte => with_ Cmp.Gte (single_literal p)
    | Where.Lt => with_ Cmp.Lt (single_literal p)
    | Where.Lte => with_ Cmp.Lte (single_literal p)
    | Where.Like => with_ Cmp.Like (single_literal p)
    | Where.ILike => with_ Cmp.ILike (single_literal p)
    | Where.In => with_ Cmp.In (literal_list p)
    | unsupported => Err (OperatorNotSupported unsupported)
    end.

Definition predicate_to_filter_node (p : SemanticPredicate) (negated_null_test : bool)
  : result FilterNode ConvertError :=
  match sp_field p with
  | Path segments => Err (PathField segments)
  | Column c =>
      let? resolved := map_err BadColumn (resolve_column c) in
      let? cv := converted p negated_null_test in
      Ok (FPredicate (mkPred resolved.1 resolved.2 cv.1 cv.2 0))
  end.

Fixpoint semantic_filter_to_filter_node (f : SemanticFilter) : result FilterNode ConvertError :=
  match f with
  | Predicate p => predicate_to_filter_node p false
  | And [] | Or [] => Err EmptyGroup
  | And fs => map_ok (FGroup VisualQuery.And) (try_map semantic_filter_to_filter_node fs)
  | Or fs => map_ok (FGroup VisualQuery.Or) (try_map semantic_filter_to_filter_node fs)
  | Not f =>
      match f with
      | Predicate p => if is_null_test p then predicate_to_filter_node p true else Err NotNeedsNullTest
      | _ => Err NotNeedsNullTest
      end
  end.

End Convert.
End SemanticFilter.
