(* ===== verification/CrudRequests.v ===== *)
(** * Row changes (crates/dbflux_core: data/crud.rs)

    What an insert, an update or a delete is made of, and the wire shapes of the
    requests, in which the types of the columns are a list beside them. *)

From S2P Require Import Prelude RustStr RustChar SqlDialect SemanticFilter.

Module CrudRequests.

Section Requests.
Context `{ValueLib}.
Abbreviation SemanticFilter := SemanticFilter.SemanticFilter.

Inductive RecordIdentity : Type :=
| Composite (columns : list (list char)) (values : list DbValue)
| ObjectId (id : list char)
| Key (key : list char).

Definition identity_is_valid (i : RecordIdentity) : bool :=
  match i with
  | Composite columns values =>
      negb (bool_decide (columns = [])) && Nat.eqb (length columns) (length values)
  | ObjectId s | Key s => negb (bool_decide (s = []))
  end.

Definition untyped (a : list char * DbValue) : ColumnAssignment := mkAssign a.1 a.2 None.

Record RowPatch := mkPatch {
  rp_identity : RecordIdentity;
  rp_table : list char;
  rp_schema : option (list char);
  rp_changes : list ColumnAssignment;
}.

Record RowInsert := mkInsert {
  ri_table : list char;
  ri_schema : option (list char);
  ri_assignments : list ColumnAssignment;
}.

Record RowDelete := mkDelete {
  rd_identity : RecordIdentity;
  rd_table : list char;
  rd_schema : option (list char);
}.

Record SqlUpdateRequest := mkUpdate {
  su_table : list char;
  su_schema : option (list char);
  su_filter : SemanticFilter;
  su_changes : list ColumnAssignment;
  su_returning : option (list (list char));
}.

Record SqlDeleteRequest := mkDeleteMany {
  sd_table : list char;
  sd_schema : option (list char);
  sd_filter : SemanticFilter;
  sd_returning : option (list (list char));
}.

Record SqlUpsertRequest := mkUpsert {
  up_table : list char;
  up_schema : option (list char);
  up_assignments : list ColumnAssignment;
  up_conflict_columns : list (list char);
  up_update_assignments : list ColumnAssignment;
}.

Definition upsert_is_valid (u : SqlUpsertRequest) : bool :=
  negb (bool_decide (length (up_assignments u) = 0%nat)) &&
  negb (bool_decide (up_conflict_columns u = [])).

(** ** Wire shapes *)

Record RowPatchWire := mkPatchWire {
  rpw_identity : RecordIdentity;
  rpw_table : list char;
  rpw_schema : option (list char);
  rpw_changes : list (list char * DbValue);
  rpw_change_types : list (option (list char));
}.

Record RowInsertWire := mkInsertWire {
  riw_table : list char;
  riw_schema : option (list char);
  riw_columns : list (list char);
  riw_values : list DbValue;
  riw_column_types : list (option (list char));
}.

Record SqlUpdateRequestWire := mkUpdateWire {
  suw_table : list char;
  suw_schema : option (list char);
  suw_filter : SemanticFilter;
  suw_changes : list (list char * DbValue);
  suw_change_types : list (option (list char));
  suw_returning : option (list (list char));
}.

Record SqlUpsertRequestWire := mkUpsertWire {
  upw_table : list char;
  upw_schema : option (list char);
  upw_columns : list (list char);
  upw_values : list DbValue;
  upw_column_types : list (option (list char));
  upw_conflict_columns : list (list char);
  upw_update_assignments : list (list char * DbValue);
  upw_update_assignment_types : list (option (list char));
}.

(** [types.get(idx).cloned().flatten()] for each pair in turn. *)
Definition with_types (changes : list (list char * DbValue)) (types : list (option (list char)))
  : list ColumnAssignment :=
  imap (fun i a => mkAssign a.1 a.2 (mjoin (types !! i))) changes.

(** The list of types is empty when no column has one. *)
Definition types_of (l : list ColumnAssignment) : list (option (list char)) :=
  if existsb (fun a => bool_decide (is_Some (ca_type_name a))) l then map ca_type_name l else [].
Definition pairs_of (l : list ColumnAssignment) : list (list char * DbValue) :=
  map (fun a => (ca_name a, ca_value a)) l.

(** [split_assignments]. *)
Definition split_assignments (l : list ColumnAssignment)
  : list (list char) * list DbValue * list (option (list char)) :=
  (map ca_name l, map ca_value l, types_of l).

Definition patch_of_wire (w : RowPatchWire) : RowPatch :=
  mkPatch (rpw_identity w) (rpw_table w) (rpw_schema w) (with_types (rpw_changes w) (rpw_change_types w)).
Definition wire_of_patch (p : RowPatch) : RowPatchWire :=
  mkPatchWire (rp_identity p) (rp_table p) (rp_schema p) (pairs_of (rp_changes p)) (types_of (rp_changes p)).

Definition insert_of_wire (w : RowInsertWire) : RowInsert :=
  mkInsert (riw_table w) (riw_schema w) (with_types (zip (riw_columns w) (riw_values w)) (riw_column_types w)).
Definition wire_of_insert (i : RowInsert) : RowInsertWire :=
  let '(columns, values, types) := split_assignments (ri_assignments i) in
  mkInsertWire (ri_table i) (ri_schema i) columns values types.

Definition update_of_wire (w : SqlUpdateRequestWire) : SqlUpdateRequest :=
  mkUpdate (suw_table w) (suw_schema w) (suw_filter w) (with_types (suw_changes w) (suw_change_types w))
    (suw_returning w).
Definition wire_of_update (u : SqlUpdateRequest) : SqlUpdateRequestWire :=
  mkUpdateWire (su_table u) (su_schema u) (su_filter u) (pairs_of (su_changes u)) (types_of (su_changes u))
    (su_returning u).

Definition upsert_of_wire (w : SqlUpsertRequestWire) : SqlUpsertRequest :=
  mkUpsert (upw_table w) (upw_schema w)
    (with_types (zip (upw_columns w) (upw_values w)) (upw_column_types w)) (upw_conflict_columns w)
    (with_types (upw_update_assignments w) (upw_update_assignment_types w)).
Definition wire_of_upsert (u : SqlUpsertRequest) : SqlUpsertRequestWire :=
  let '(columns, values, types) := split_assignments (up_assignments u) in
  let '(names, update_values, update_types) := split_assignments (up_update_assignments u) in
  mkUpsertWire (up_table u) (up_schema u) columns values types (up_conflict_columns u)
    (zip names update_values) update_types.

End Requests.
End CrudRequests.

(** ** Requests survive the wire (crates/dbflux_core: data/crud.rs) *)

Import CrudRequests.

Section Wire.
Context `{ValueLib}.

(** The types are found again at their columns. *)
Lemma typed_pairs l : with_types (pairs_of l) (map ca_type_name l) = l.
Proof.
  apply list_eq. intros i. unfold with_types, pairs_of. rewrite list_lookup_imap.
  assert (Hmap : forall B (f : ColumnAssignment -> B), map f l !! i = f <$> l !! i) by (intros; apply list_lookup_fmap).
  rewrite !Hmap. by destruct (l !! i) as [[n v [t|]]|].
Qed.

Lemma types_roundtrip l : with_types (pairs_of l) (types_of l) = l.
Proof.
  unfold types_of. destruct (existsb _ l) eqn:He; [apply typed_pairs|].
  assert (Hnone : Forall (fun a => ca_type_name a = None) l).
  { apply List.Forall_forall. intros a Ha. destruct (ca_type_name a) as [t|] eqn:Ht; [|done].
    assert (Hex : existsb (fun a => bool_decide (is_Some (ca_type_name a))) l = true).
    { apply existsb_exists. exists a. split; [done|]. rewrite Ht. by apply bool_decide_eq_true. }
    congruence. }
  rewrite <- (typed_pairs l) at 2. apply list_eq. intros i. unfold with_types. rewrite !list_lookup_imap.
  destruct (pairs_of l !! i) as [a|]; [|done]. cbn. do 2 f_equal.
  assert (Hmap : map ca_type_name l !! i = ca_type_name <$> l !! i) by apply list_lookup_fmap.
  rewrite Hmap, lookup_nil. destruct (l !! i) as [x|] eqn:Hx; [|done]. cbn. rewrite Forall_lookup in Hnone.
  by rewrite (Hnone i x Hx).
Qed.

Lemma zipped_pairs l : zip (map ca_name l) (map ca_value l) = pairs_of l.
Proof. induction l as [|a l IH]; [done|]. cbn. by f_equal. Qed.

(** A request that crosses the wire is the request that was sent: the types of
    its columns, which travel in a list of their own that is left out when no
    column has one, come back at their columns. *)
Theorem requests_survive_the_wire p i u s :
  patch_of_wire (wire_of_patch p) = p /\ insert_of_wire (wire_of_insert i) = i /\
  update_of_wire (wire_of_update u) = u /\ upsert_of_wire (wire_of_upsert s) = s.
Proof.
  destruct p, i, u, s.
  unfold patch_of_wire, insert_of_wire, update_of_wire, upsert_of_wire. cbn -[types_of with_types pairs_of zip].
  by rewrite !zipped_pairs, !types_roundtrip.
Qed.

End Wire.
