(* ===== verification/StatementBuilder.v ===== *)
(** * Statements for row changes (crates/dbflux_core: sql/query_builder.rs, and
    crates/dbflux_mcp_server: tools/destructive.rs)

    [SqlQueryBuilder] writes the statements of inserts, updates and deletes, and
    the [CREATE TABLE] of a transfer, whose column types come from outside and
    have to follow a grammar. *)

From S2P Require Import Prelude RustStr RustChar SqlDialect VisualQuery TableBrowser SemanticFilter CrudRequests.

Module StatementBuilder.
Import TableBrowser CrudRequests.

(** ** Column types *)

Definition ident_start (c : char) : bool := is_letter c || (c =? ch "_")%N.
Definition ident_char (c : char) : bool := is_letter c || is_digit c || (c =? ch "_")%N.
Definition is_space (c : char) : bool := (c =? ch " ")%N.

(** The functions of the source move an index over the characters; here they
    return the rest of the text. *)
Definition skip_ascii_spaces (l : list char) : list char := drop_while is_space l.

(** After the opening quote. *)
Fixpoint quoted_segment (nonempty : bool) (l : list char) : option (list char) :=
  match l with
  | [] => None
  | c :: l' =>
      if (c =? 34)%N && nonempty then Some l'
      else if ident_char c || is_space c then quoted_segment true l'
      else None
  end.

Definition parse_ident_segment (l : list char) : option (list char) :=
  match l with
  | [] => None
  | c :: l' =>
      if (c =? 34)%N then quoted_segment false l'
      else if ident_start c then Some (drop_while ident_char l') else None
  end.

(** [chars.get(pos) == Some(&c)]. *)
Definition starts (c : char) (l : list char) : bool :=
  match l with d :: _ => (d =? c)%N | [] => false end.

(** The loop of [parse_type_name]; every round but the last reads a segment. *)
Fixpoint type_name_loop (rounds : nat) (l : list char) : option (list char) :=
  match rounds with
  | O => None
  | S rounds' =>
      if starts (ch ".") l then next ← parse_ident_segment (drop 1 l); type_name_loop rounds' next
      else
        let spaced := skip_ascii_spaces l in
        if Nat.ltb (length spaced) (length l) then
          match parse_ident_segment spaced with
          | Some next => type_name_loop rounds' next
          | None => Some l
          end
        else Some l
  end.

Definition parse_type_name (l : list char) : option (list char) :=
  next ← parse_ident_segment l; type_name_loop (S (length l)) next.

(** After the opening parenthesis, inside or outside a literal. *)
Fixpoint paren_args (in_literal : bool) (l : list char) : option (list char) :=
  match l with
  | [] => None
  | c :: l' =>
      if in_literal then paren_args (negb (c =? ch "'")%N) l'
      else if (c =? ch "'")%N then paren_args true l'
      else if (c =? ch ")")%N then Some l'
      else if is_digit c || (c =? ch ",")%N || is_space c then paren_args false l'
      else None
  end.

Definition parse_paren_args (l : list char) : option (list char) := paren_args false (drop 1 l).

Definition type_spec_shape (trimmed : list char) : bool :=
  match parse_type_name trimmed with
  | None => false
  | Some rest =>
      let rest := skip_ascii_spaces rest in
      match (if starts (ch "(") rest
             then next ← parse_paren_args rest; Some (skip_ascii_spaces next) else Some rest) with
      | None => false
      | Some rest =>
          if starts (ch "[") rest then
            starts (ch "]") (drop 1 rest) && bool_decide (skip_ascii_spaces (drop 2 rest) = [])
          else bool_decide (rest = [])
      end
  end.

Definition is_safe_column_type_spec (type_name : list char) : bool :=
  if bool_decide (type_name = []) || existsb is_control type_name ||
     contains_text (text ";") type_name || contains_text (text "--") type_name ||
     contains_text (text "/*") type_name || contains_text (text "*/") type_name ||
     contains_text (text "\") type_name
  then false
  else
    match trim_text type_name with
    | [] => false
    | trimmed => type_spec_shape trimmed
    end.

(** [TransferColumn] and [CreateTableSpec]. *)
Record TransferColumn := mkTransfer {
  tc_name : list char;
  tc_type_name : option (list char);
  tc_nullable : bool;
  tc_is_primary_key : bool;
}.

Record CreateTableSpec := mkCreate {
  ct_schema : option (list char);
  ct_table : list char;
  ct_columns : list TransferColumn;
  ct_if_not_exists : bool;
}.

(** [GeneratorError::InvalidColumnType]. *)
Record InvalidColumnType := mkInvalid { it_column : list char; it_type_name : list char }.

Section Builder.
Context `{ValueLib} `{!SqlDialect}.

Definition commas (l : list (list char)) : list char := join_text (text ", ") l.
Definition assigned_literal (a : ColumnAssignment) : list char :=
  value_to_literal_typed (ca_value a) (ca_type_name a).

Definition build_set_clause (changes : list ColumnAssignment) : list char :=
  commas (map (fun a => quote_identifier (ca_name a) ++ text " = " ++ assigned_literal a) changes).

Definition build_column_list (columns : list (list char)) : list char :=
  commas (map quote_identifier columns).
Definition build_values_list (values : list DbValue) : list char :=
  commas (map value_to_literal values).

Definition identity_condition (cv : list char * DbValue) : list char :=
  match cv.2 with
  | VNull => quote_identifier cv.1 ++ text " IS NULL"
  | v => quote_identifier cv.1 ++ text " = " ++ value_to_literal v
  end.

Definition build_where_clause (identity : RecordIdentity) : option (list char) :=
  match identity with
  | Composite columns values =>
      if bool_decide (columns = []) || negb (Nat.eqb (length columns) (length values)) then None
      else Some (join_text (text " AND ") (map identity_condition (zip columns values)))
  | ObjectId _ | Key _ => None
  end.

Definition returning_all (with_returning : bool) : list char :=
  if with_returning && supports_returning then text " RETURNING *" else [].

Definition returning_columns (returning : option (list (list char))) : list char :=
  match returning with
  | Some (c :: l) => if supports_returning then text " RETURNING " ++ build_column_list (c :: l) else []
  | _ => []
  end.

Definition build_update (patch : RowPatch) (with_returning : bool) : option (list char) :=
  if bool_decide (length (rp_changes patch) = 0%nat) then None
  else
    where_clause ← build_where_clause (rp_identity patch);
    Some (text "UPDATE " ++ qualified_table (rp_schema patch) (rp_table patch) ++ text " SET " ++
          build_set_clause (rp_changes patch) ++ text " WHERE " ++ where_clause ++
          returning_all with_returning).

Definition render_condition (f : SemanticFilter.SemanticFilter) : option (list char) :=
  match SemanticFilter.render_semantic_filter_sql f with Ok w => Some w | Err _ => None end.

Definition build_update_many (update : SqlUpdateRequest) : option (list char) :=
  if bool_decide (length (su_changes update) = 0%nat) then None
  else
    where_clause ← render_condition (su_filter update);
    Some (text "UPDATE " ++ qualified_table (su_schema update) (su_table update) ++ text " SET " ++
          build_set_clause (su_changes update) ++ text " WHERE " ++ where_clause ++
          returning_columns (su_returning update)).

Definition build_insert (insert : RowInsert) (with_returning : bool) : option (list char) :=
  if bool_decide (length (ri_assignments insert) = 0%nat) then None
  else
    Some (text "INSERT INTO " ++ qualified_table (ri_schema insert) (ri_table insert) ++ text " (" ++
          build_column_list (map ca_name (ri_assignments insert)) ++ text ") VALUES (" ++
          commas (map assigned_literal (ri_assignments insert)) ++ text ")" ++
          returning_all with_returning).

Definition bulk_tuple (column_types : list (option (list char))) (row : list DbValue) : list char :=
  text "(" ++
  commas (imap (fun i v => value_to_literal_typed v (mjoin (column_types !! i))) row) ++ text ")".

Definition build_bulk_insert (schema : option (list char)) (table : list char)
    (columns : list (list char)) (column_types : list (option (list char)))
    (rows : list (list DbValue)) : option (list char) :=
  if bool_decide (length rows = 0%nat) then None
  else
    Some (text "INSERT INTO " ++ qualified_table schema table ++ text " (" ++
          build_column_list columns ++ text ") VALUES " ++ commas (map (bulk_tuple column_types) rows)).

Definition build_upsert (u : SqlUpsertRequest) : option (list char) :=
  if upsert_is_valid u then
    build_upsert_statement (up_schema u) (up_table u) (up_assignments u) (up_conflict_columns u)
      (up_update_assignments u)
  else None.

Definition build_delete (delete : RowDelete) (with_returning : bool) : option (list char) :=
  where_clause ← build_where_clause (rd_identity delete);
  Some (text "DELETE FROM " ++ qualified_table (rd_schema delete) (rd_table delete) ++ text " WHERE " ++
        where_clause ++ returning_all with_returning).

Definition build_delete_many (delete : SqlDeleteRequest) : option (list char) :=
  where_clause ← render_condition (sd_filter delete);
  Some (text "DELETE FROM " ++ qualified_table (sd_schema delete) (sd_table delete) ++ text " WHERE " ++
        where_clause ++ returning_columns (sd_returning delete)).

Definition build_select_by_identity (schema : option (list char)) (table : list char)
    (identity : RecordIdentity) : option (list char) :=
  where_clause ← build_where_clause identity;
  Some (text "SELECT * FROM " ++ qualified_table schema table ++ text " WHERE " ++ where_clause ++
        text " LIMIT 1").

(** ** [CREATE TABLE] *)

Definition column_line (c : TransferColumn) : result (list char) InvalidColumnType :=
  let? line :=
    match tc_type_name c with
    | Some type_name =>
        if is_safe_column_type_spec type_name
        then Ok (text "    " ++ quote_identifier (tc_name c) ++ text " " ++ type_name)
        else Err (mkInvalid (tc_name c) type_name)
    | None => Ok (text "    " ++ quote_identifier (tc_name c))
    end in
  Ok (line ++ (if tc_nullable c then [] else text " NOT NULL")).

Definition primary_key_line (columns : list TransferColumn) : list (list char) :=
  match map tc_name (List.filter tc_is_primary_key columns) with
  | [] => []
  | pk_columns => [text "    PRIMARY KEY (" ++ build_column_list pk_columns ++ text ")"]
  end.

Definition newline : list char := [10%N].

Definition build_create_table (s : CreateTableSpec) : result (list char) InvalidColumnType :=
  let? lines := try_map column_line (ct_columns s) in
  let prefix := if ct_if_not_exists s then text "CREATE TABLE IF NOT EXISTS" else text "CREATE TABLE" in
  Ok (prefix ++ text " " ++ qualified_table (ct_schema s) (ct_table s) ++ text " (" ++ newline ++
      join_text (text "," ++ newline) (lines ++ primary_key_line (ct_columns s)) ++ newline ++ text ");").

End Builder.

(** ** The delete tool of the server *)

Section Delete.
Context `{ValueLib} `{!SemanticFilter.JsonText}.
Import SemanticFilter.

(** [validate_delete_params]: whether the [where] of a delete is empty. *)
Definition empty_where (v : JsonValue jnumber) : bool :=
  match v with
  | JNull => true
  | JObject m => bool_decide (length m = 0%nat)
  | JArray l => bool_decide (length l = 0%nat)
  | JString s => bool_decide (trim_text s = [])
  | _ => false
  end.

(** [DatabaseCategory], without the serialized index of each. *)
Inductive DatabaseCategory : Type :=
| Relational | Document | KeyValue | ReservedGraph | TimeSeries | ReservedWideColumn | LogStream
| ObjectStorage | SecretStore.

#[export] Instance database_category_eq_dec : EqDecision DatabaseCategory.
Proof. solve_decision. Defined.

(** [DocumentDelete], its filter the JSON of the call. *)
Record DocumentDelete := mkDocumentDelete {
  dd_collection : list char;
  dd_database : option (list char);
  dd_filter : JsonValue jnumber;
  dd_many : bool;
}.
Definition document_delete_new (collection : list char) (filter : JsonValue jnumber) : DocumentDelete :=
  mkDocumentDelete collection None filter false.
Definition document_delete_many (d : DocumentDelete) : DocumentDelete :=
  mkDocumentDelete (dd_collection d) (dd_database d) (dd_filter d) true.

Inductive DeleteError : Type :=
| WhereRequired
| BadFilter (e : FilterError)
| NoExecutableQuery.

(** What the tool asks of the connection. *)
Inductive DeleteCall : Type :=
| DeleteDocuments (d : DocumentDelete)
| ExecuteSql (sql : list char).

Definition build_relational_delete_mutation (table : list char) (filter : JsonValue jnumber)
    (returning : option (list (list char))) : option (result SqlDeleteRequest DeleteError) :=
  parsed ← parse_semantic_filter_json filter;
  Some (match parsed with
        | Err e => Err (BadFilter e)
        | Ok None => Err WhereRequired
        | Ok (Some semantic_filter) =>
            let table_ref := table_from_qualified table in
            let returning := match returning with Some [] => None | r => r end in
            Ok (mkDeleteMany (tr_name table_ref) (tr_schema table_ref) semantic_filter returning)
        end).

(** [delete_records_impl]: a document store gets the filter as it came, any other
    connection the statement that the planner of a SQL driver
    ([SqlMutationGenerator::generate_mutation]) makes of the mutation. *)
Definition delete_records_impl `{!SqlDialect} (category : DatabaseCategory) (table : list char)
    (filter : JsonValue jnumber) (returning : option (list (list char)))
  : option (result DeleteCall DeleteError) :=
  if bool_decide (category = Document) then
    Some (Ok (DeleteDocuments (document_delete_many (document_delete_new table filter))))
  else
    r ← build_relational_delete_mutation table filter returning;
    Some (match r with
          | Err e => Err e
          | Ok mutation =>
              match build_delete_many mutation with
              | Some sql => Ok (ExecuteSql sql)
              | None => Err NoExecutableQuery
              end
          end).

(** [delete_records]: the check of the parameters, and the delete. *)
Definition delete_records `{!SqlDialect} (category : DatabaseCategory) (table : list char)
    (filter : JsonValue jnumber) (returning : option (list (list char)))
  : option (result DeleteCall DeleteError) :=
  if empty_where filter then Some (Err WhereRequired)
  else delete_records_impl category table filter returning.

End Delete.
End StatementBuilder.
