(* ===== verification/SqlSafety.v ===== *)
(** * Classification of SQL (crates/dbflux_core: query/safety.rs)

    The class of a script decides what governance asks for before it runs.  The
    script is lexed by the rules of every supported dialect and the strictest
    result counts; a script of several statements is at least a write. *)

From S2P Require Import Prelude RustStr RustChar Classification SqlLexer.

(** A keyword, as the lexer spells it. *)
Definition kw (s : string) : list char := text s.
Definition keywords (l : list string) : list (list char) := map kw l.
Definition is_kw (w : list char) (l : list string) : bool := bool_decide (w ∈ keywords l).

(** [token.word()] is one of the words. *)
Definition word_in (t : Token) (l : list string) : bool :=
  match word t with Some w => is_kw w l | None => false end.

Definition lparen : char := ch "(".
Definition rparen : char := ch ")".

(** ** Statements *)

(** [slice::split] at the tokens with property [p]. *)
Fixpoint split_tokens (p : Token -> bool) (l : list Token) : list (list Token) :=
  match l with
  | [] => [[]]
  | t :: l' =>
      if p t then [] :: split_tokens p l'
      else match split_tokens p l' with
           | [] => [[t]]
           | x :: xs => (t :: x) :: xs
           end
  end.

Definition statements_of (tokens : list Token) : list (list Token) :=
  List.filter (fun s => negb (bool_decide (s = [])))
    (split_tokens (fun t => is_symbol t (ch ";")) tokens).

(** The symbols, such as opening parentheses, before the first word. *)
Fixpoint skip_leading_symbols (tokens : list Token) : list Token :=
  match tokens with
  | Symbol _ :: rest => skip_leading_symbols rest
  | _ => tokens
  end.

Definition classify_leading_keyword (keyword : list char) : ExecutionClassification :=
  if is_kw keyword ["INSERT"; "UPDATE"; "DELETE"; "MERGE"; "REPLACE"] then Write
  else if is_kw keyword ["TRUNCATE"; "DROP"; "ALTER"] then Destructive
  else if is_kw keyword ["GRANT"; "REVOKE"; "CREATE"; "SET"; "SYSTEM"; "KILL"; "ATTACH";
                         "OPTIMIZE"; "BACKUP"; "RESTORE"; "UNDROP"; "MOVE"] then Admin
  else if is_kw keyword ["DETACH"; "RENAME"; "EXCHANGE"] then Destructive
  else Write.

(** ** The body of a [SELECT] or [WITH] *)

Section Body.
Context (tokens : list Token) (index : nat).

Definition token_before (k : nat) : option Token :=
  if Nat.ltb index k then None else tokens !! (index - k)%nat.
Definition token_after : option Token := tokens !! (index + 1)%nat.

Definition sym_at (o : option Token) (c : char) : bool :=
  some_and (fun t => is_symbol t c) o.

(** The word is the last part of a qualified name; [1.] is a number, so a word
    after it is not. *)
Definition is_qualified_name : bool :=
  sym_at (token_before 1) (ch ".") &&
  some_and (fun t => match t with
                     | Word w => negb (some_and is_digit (head w))
                     | Quoted => true
                     | Symbol _ => false
                     end) (token_before 2).

Definition is_lone_bracketed_name : bool :=
  sym_at (token_before 1) (ch "[") && sym_at token_after (ch "]").

Definition is_function_call : bool := sym_at token_after lparen.

(** What a word of the body makes of the statement. *)
Definition word_class (w : list char) : option ExecutionClassification :=
  if is_kw w ["REPLACE"; "INSERT"; "TRUNCATE"] && is_function_call then None
  else if is_kw w ["INSERT"; "UPDATE"; "DELETE"; "MERGE"; "REPLACE"; "UPSERT"; "COPY"; "CALL";
                   "DO"; "LOCK"; "INTO"] then Some Write
  else if is_kw w ["TRUNCATE"; "DROP"; "ALTER"] then Some Destructive
  else if is_kw w ["CREATE"; "GRANT"; "REVOKE"] then Some Admin
  else if is_kw w ["FOR"] &&
          some_and (fun t => word_in t ["UPDATE"; "SHARE"; "NO"; "KEY"]) token_after
       then Some Write
  else None.

(** One round of the loop of [classify_read_body]. *)
Definition body_found (t : Token) : option ExecutionClassification :=
  match word t with
  | None => None
  | Some w => if is_qualified_name || is_lone_bracketed_name then None else word_class w
  end.

End Body.

Definition classify_read_body (tokens : list Token) : ExecutionClassification :=
  foldl (fun classification it =>
           match body_found tokens it.1 it.2 with
           | Some found => classification_max classification found
           | None => classification
           end) Read (imap pair tokens).

(** ** [EXPLAIN] *)

(** The parenthesized options; a quoted name counts as [ANALYZE]. *)
Fixpoint explain_options (tokens : list Token) (depth : nat) (analyze : bool) : bool * list Token :=
  match tokens with
  | [] => (analyze, [])
  | t :: rest =>
      if is_symbol t lparen then explain_options rest (S depth) analyze
      else if is_symbol t rparen then
        if Nat.eqb (depth - 1) 0 then (analyze, rest) else explain_options rest (depth - 1) analyze
      else explain_options rest depth
             (analyze || word_in t ["ANALYZE"; "ANALYSE"] || bool_decide (t = Quoted))
  end.

Definition is_explain_option (t : Token) : bool :=
  word_in t ["ANALYZE"; "ANALYSE"; "VERBOSE"; "QUERY"; "PLAN"; "EXTENDED"; "PARTITIONS";
             "FORMAT"; "TREE"; "JSON"; "TRADITIONAL"] || is_symbol t (ch "=").

(** The option words before the explained statement. *)
Fixpoint explain_words (tokens : list Token) (analyze : bool) : bool * list Token :=
  match tokens with
  | [] => (analyze, [])
  | t :: rest =>
      if is_explain_option t
      then explain_words rest (analyze || word_in t ["ANALYZE"; "ANALYSE"])
      else (analyze, tokens)
  end.

Definition EXPLAIN_WORDS : list string := ["EXPLAIN"; "DESC"; "DESCRIBE"].

(** The options of an [EXPLAIN]: whether it runs the statement, and the statement. *)
Definition explained (tokens : list Token) : bool * list Token :=
  let '(analyze, rest) :=
    if some_and (fun t => is_symbol t lparen) (head tokens)
    then explain_options tokens 0 false else (false, tokens) in
  explain_words rest analyze.

(** No dialect explains an [EXPLAIN]. *)
Definition explains_an_explain (target : list Token) : bool :=
  some_and (fun t => word_in t EXPLAIN_WORDS) (head (skip_leading_symbols target)).

(** [classify_explain], given the function that classifies the explained
    statement. *)
Definition classify_explain_with (statement : list Token -> ExecutionClassification)
    (tokens : list Token) : ExecutionClassification :=
  let '(analyze, target) := explained tokens in
  if negb analyze || bool_decide (target = []) then Metadata
  else if explains_an_explain target then Write
  else statement target.

(** [classify_statement], given the function for what follows [EXPLAIN]. *)
Definition classify_statement_with (explain : list Token -> ExecutionClassification)
    (tokens : list Token) : ExecutionClassification :=
  match skip_leading_symbols tokens with
  | [] => Write
  | first :: rest =>
      match word first with
      | None => Write
      | Some keyword =>
          if is_kw keyword EXPLAIN_WORDS then explain rest
          else if is_kw keyword ["SHOW"] then Metadata
          else if is_kw keyword ["SELECT"; "WITH"] then classify_read_body rest
          else classify_leading_keyword keyword
      end
  end.

(** The two functions of the source call each other; an explained statement is
    never an [EXPLAIN], so the inner call needs no function for it. *)
Definition classify_explain : list Token -> ExecutionClassification :=
  classify_explain_with (classify_statement_with (fun _ => Write)).
Definition classify_statement : list Token -> ExecutionClassification :=
  classify_statement_with classify_explain.

(** ** Scripts *)

Section Scripts.
Context `{CharLib}.

Definition classify_with_rules (sql : list char) (rules : LexRules) : ExecutionClassification :=
  let statements := statements_of (tokenize sql rules) in
  let classification := classification_max_list (map classify_statement statements) in
  if Nat.ltb 1 (length statements) then classification_max classification Write
  else classification.

Definition classify_sql_execution (sql : list char) : ExecutionClassification :=
  classification_max_list (map (classify_with_rules sql) DIALECT_RULES).

Definition is_safe_read_query (sql : list char) : bool :=
  forallb (fun rules => negb (bool_decide (tokenize sql rules = []))) DIALECT_RULES &&
  match classify_sql_execution sql with Read | Metadata => true | _ => false end.

(** ** Compound blocks *)

Definition begin_is_identifier (previous next : option Token) : bool :=
  if sym_at previous (ch ".") then true
  else match next with
       | Some (Symbol c) => negb (c =? ch ";")%N
       | Some t => word_in t ["FROM"; "AS"; "WHERE"; "AND"; "OR"; "IS"; "IN"; "LIKE"; "BETWEEN";
                              "ORDER"; "GROUP"; "HAVING"; "LIMIT"; "ON"; "JOIN"; "INTO"; "UNION";
                              "ASC"; "DESC"; "THEN"; "ELSE"; "END"]
       | None => false
       end.

Definition begin_opens_transaction (next : option Token) : bool :=
  match next with
  | None => true
  | Some t => is_symbol t (ch ";") ||
      word_in t ["TRANSACTION"; "TRAN"; "WORK"; "ISOLATION"; "READ"; "DEFERRED"; "IMMEDIATE";
                 "EXCLUSIVE"; "DISTRIBUTED"]
  end.

Definition contains_compound_block (sql : list char) : bool :=
  forallb (fun rules =>
    let tokens := tokenize sql rules in
    existsb (fun it =>
      let previous := token_before tokens it.1 1 in
      let next := token_after tokens it.1 in
      word_in it.2 ["BEGIN"] && negb (begin_opens_transaction next) &&
      negb (begin_is_identifier previous next)) (imap pair tokens)) DIALECT_RULES.

End Scripts.
