(* ===== verification/SqlDialectProps.v ===== *)
(** * Generated SQL says what it is meant to say

    Quoted names and literals are single tokens whatever they hold, so a [DROP
    TABLE] names its table and does nothing else; and the keyset predicate is the
    lexicographic order on the key. *)

From S2P Require Import Prelude RustStr RustChar Classification SqlLexer SqlLexerProps SqlSafety SqlDialect.

(** ** Quoting *)

(** Undo the doubling up to the closing quote. *)
Fixpoint read_quoted (q : char) (l : list char) : option (list char * list char) :=
  match l with
  | [] => None
  | c :: l' =>
      if (c =? q)%N then
        match l' with
        | d :: l'' => if (d =? q)%N then '(x, r) ← read_quoted q l''; Some (q :: x, r) else Some ([], l')
        | [] => Some ([], [])
        end
      else '(x, r) ← read_quoted q l'; Some (c :: x, r)
  end.

Lemma read_double q l post :
  head post <> Some q -> read_quoted q (double_char q l ++ q :: post) = Some (l, post).
Proof.
  intros Hp. induction l as [|c l IH]; cbn [double_char app].
  - cbn [read_quoted]. rewrite N.eqb_refl. destruct post as [|d post]; [done|].
    destruct (N.eqb_spec d q); [by subst|done].
  - destruct (N.eqb_spec c q) as [->|Hc]; cbn [app read_quoted].
    + rewrite !N.eqb_refl, IH. done.
    + rewrite (proj2 (N.eqb_neq _ _) Hc), IH. done.
Qed.

(** A quoted name or literal reads back as what was quoted, and nothing more,
    whatever characters it has and whatever follows short of another quote. *)
Theorem quoted_text_reads_back name post :
  (head post <> Some 34%N ->
   exists r, quote_double_quoted_identifier name ++ post = 34%N :: r /\ read_quoted 34%N r = Some (name, post)) /\
  (head post <> Some (ch "'") ->
   exists r, quoted_literal name ++ post = ch "'" :: r /\ read_quoted (ch "'") r = Some (name, post)).
Proof.
  unfold quote_double_quoted_identifier, quoted_literal, escape_string. simpl. rewrite <- !app_assoc. simpl.
  split; intros Hp; eexists; (split; [done|]); by apply read_double.
Qed.

Section Lexing.
Context `{CharLib}.

(** What is inside doubled quotes is skipped. *)
Lemma scan_doubled rules q l post : forall pre,
  head post <> Some q ->
  scan_at rules pre (double_char q l ++ q :: post) (InQuotes q false) =
  scan_at rules (pre ++ double_char q l ++ [q]) post Normal.
Proof.
  induction l as [|c l IH]; intros pre Hp; cbn [double_char app].
  - apply scan_at_skip; [done|]. unfold step. rewrite N.eqb_refl, char_next.
    destruct post as [|d post]; [done|]. simpl. destruct (N.eqb_spec d q); [by subst|done].
  - destruct (N.eqb_spec c q) as [->|Hc]; cbn [app].
    + unfold scan_at at 1. erewrite scan_step; [|apply lookup_here|done|].
      2:{ unfold step. rewrite N.eqb_refl, char_next. simpl. rewrite N.eqb_refl. reflexivity. }
      cbn [app]. etrans; [exact (scan_from_at rules pre [q; q] _ (InQuotes q false))|].
      rewrite IH by done. by rewrite <- app_assoc.
    + rewrite (scan_at_skip _ _ _ _ _ (InQuotes q false)); [|done|].
      * rewrite IH by done. by rewrite <- app_assoc.
      * unfold step. by rewrite (proj2 (N.eqb_neq _ _) Hc).
Qed.

(** A quote that opens a literal without escapes. *)
Lemma scan_quoted_text rules pre q l post :
  step rules (pre ++ q :: double_char q l ++ q :: post) (length pre) Normal q =
    (InQuotes q false, (length pre + 1)%nat, [Quoted]) ->
  head post <> Some q ->
  scan_at rules pre ((q :: double_char q l ++ [q]) ++ post) Normal =
  Quoted :: scan_at rules (pre ++ q :: double_char q l ++ [q]) post Normal.
Proof.
  intros Hs Hp. cbn [app]. rewrite <- app_assoc. cbn [app]. unfold scan_at at 1.
  rewrite (scan_step _ _ _ _ _ _ _ _ (lookup_here pre q _) (I : state_ok Normal) Hs). cbn [app]. f_equal.
  etrans; [exact (scan_from_at rules pre [q] _ (InQuotes q false))|].
  rewrite scan_doubled by done. by rewrite <- app_assoc.
Qed.

Lemma scan_identifier rules pre name post :
  backslash_escapes rules = false -> head post <> Some 34%N ->
  scan_at rules pre (quote_double_quoted_identifier name ++ post) Normal =
  Quoted :: scan_at rules (pre ++ quote_double_quoted_identifier name) post Normal.
Proof.
  intros Hb Hp. apply scan_quoted_text; [|done]. unfold step, step_normal, closing_quote, quote_escapes.
  rewrite Hb. reflexivity.
Qed.

Lemma scan_literal rules pre s post :
  backslash_escapes rules = false ->
  escape_string_prefix rules = false \/
    some_and (fun p => char_eq_ignore_case p (ch "e")) (last pre) = false ->
  head post <> Some (ch "'") ->
  scan_at rules pre (quoted_literal s ++ post) Normal =
  Quoted :: scan_at rules (pre ++ quoted_literal s) post Normal.
Proof.
  intros Hb He Hp. apply scan_quoted_text; [|done].
  assert (quote_escapes rules (pre ++ ch "'" :: double_char (ch "'") s ++ ch "'" :: post) (length pre)
            (ch "'") = false) as Hq.
  { unfold quote_escapes. rewrite Hb. simpl. destruct He as [->|He]; [done|].
    assert (char_before (pre ++ ch "'" :: double_char (ch "'") s ++ ch "'" :: post) (length pre) 1 = last pre)
      as ->; [|by rewrite He, andb_false_r].
    unfold char_before, char_at. destruct pre as [|x pre _] using rev_ind; [done|].
    rewrite last_snoc, length_app. simpl.
    replace (_ <? 1)%nat with false by (symmetry; apply Nat.ltb_ge; lia).
    replace (length pre + 1 - 1)%nat with (length pre) by lia.
    rewrite <- app_assoc. simpl. by rewrite list_lookup_middle. }
  unfold step, step_normal, closing_quote. rewrite Hq. reflexivity.
Qed.

(** A text literal is one token wherever it stands, whatever it holds, in
    every dialect without backslash escapes, unless the character before it makes
    it an escape string. *)
Theorem literal_is_one_token rules pre s post :
  backslash_escapes rules = false ->
  escape_string_prefix rules = false \/
    some_and (fun p => char_eq_ignore_case p (ch "e")) (last pre) = false ->
  head post <> Some (ch "'") ->
  scan_at rules pre (quoted_literal s ++ post) Normal =
  Quoted :: scan_at rules (pre ++ quoted_literal s) post Normal.
Proof. apply scan_literal. Qed.

Context `{!CharLaws}.

(** A word at the end of the text. *)
Lemma scan_last_word rules pre w :
  plain_token (Word w) = true -> scan_at rules pre w Normal = [Word w].
Proof.
  cbn [plain_token]. intros [Hne%negb_true_iff%bool_decide_eq_false Hw]%andb_true_iff.
  apply Is_true_eq_left, forallb_True in Hw.
  eapply (Forall_impl _ (fun c => plain_word_char c = true)) in Hw; [|by intros ? ?%Is_true_true].
  destruct w as [|c w]; [done|]. inversion Hw as [|? ? Hc _]; subst.
  destruct (plain_word_char_spec c Hc) as (_ & Hal & _ & Ho). unfold scan_at at 1.
  erewrite scan_step; [|apply lookup_here|done|by rewrite step_opens_nothing, Hal].
  rewrite drop_app_length.
  assert (take_while is_identifier_char (c :: w) = c :: w /\ map to_ascii_uppercase (c :: w) = c :: w)
    as [-> ->].
  { clear -Hw H0. induction Hw as [|x l Hx _ [IH1 IH2]]; simpl; [done|].
    destruct (plain_word_char_spec x Hx) as (-> & _ & -> & _). by rewrite IH1, IH2. }
  simpl. f_equal. unfold scan_from. rewrite length_app. simpl.
  by replace (_ - _)%nat with 0%nat by lia.
Qed.

Lemma scan_dot rules pre post :
  scan_at rules pre (ch "." :: post) Normal = Symbol (ch ".") :: scan_at rules (pre ++ [ch "."]) post Normal.
Proof.
  unfold scan_at at 1. erewrite scan_step; [|apply lookup_here|done|].
  2:{ rewrite step_opens_nothing by done. rewrite alphanumeric_ascii by done. reflexivity. }
  cbn [app]. f_equal. exact (scan_from_at rules pre [ch "."] post Normal).
Qed.

Lemma scan_print_app rules l : forall pre post,
  forallb plain_token l = true ->
  scan_at rules pre (print_tokens l ++ post) Normal =
  l ++ scan_at rules (pre ++ print_tokens l) post Normal.
Proof.
  induction l as [|t l IH]; intros pre post; simpl; [by rewrite app_nil_r|].
  intros [Ht Hl]%andb_true_iff. unfold print_tokens. simpl. rewrite <- app_assoc, scan_token by done.
  change (concat (map print_token l)) with (print_tokens l). rewrite IH by done. by rewrite <- app_assoc.
Qed.

(** A quoted table name, whatever the names are. *)
Lemma scan_quoted_table `{ValueLib} `{!SqlDialect} rules pre schema table post :
  (forall x, quote_identifier x = quote_double_quoted_identifier x) ->
  backslash_escapes rules = false -> head post <> Some 34%N ->
  scan_at rules pre (quoted_table schema table ++ post) Normal =
  (match schema with Some _ => [Quoted; Symbol (ch ".")] | None => [] end) ++ Quoted ::
  scan_at rules (pre ++ quoted_table schema table) post Normal.
Proof.
  intros Hq Hb Hp. unfold quoted_table. destruct schema as [s|]; rewrite !Hq; [|by apply scan_identifier].
  change (text ".") with [ch "."]. rewrite <- app_assoc, scan_identifier by done. cbn [app]. f_equal.
  rewrite scan_dot. f_equal. rewrite scan_identifier by done. f_equal. by rewrite <- !app_assoc.
Qed.

(** The tokens of a [DROP TABLE]. *)
Definition drop_tokens (qualified if_exists cascade : bool) : list Token :=
  [Word (kw "DROP"); Word (kw "TABLE")] ++
  (if if_exists then [Word (kw "IF"); Word (kw "EXISTS")] else []) ++
  (if qualified then [Quoted; Symbol (ch ".")] else []) ++ [Quoted] ++
  (if cascade then [Word (kw "CASCADE")] else []).

(** The [DROP TABLE] statement of a dialect that doubles quotes names its
    table and does nothing else, whatever the names of the schema and the table
    are: it lexes to the keywords and the quoted names, and is classified as
    destructive. *)
Theorem drop_table_drops_one_table `{ValueLib} `{!SqlDialect} rules schema table if_exists cascade stmt :
  (forall x, quote_identifier x = quote_double_quoted_identifier x) ->
  backslash_escapes rules = false ->
  drop_table_statement schema table if_exists cascade = Ok stmt ->
  tokenize stmt rules = drop_tokens (bool_decide (is_Some schema)) if_exists cascade /\
  classify_with_rules stmt rules = Destructive.
Proof.
  intros Hq Hb Hd. unfold drop_table_statement in Hd. destruct (_ && _); [done|].
  match type of Hd with Ok ?x = _ => assert (x = stmt) as Hstmt by congruence end.
  assert (tokenize stmt rules = drop_tokens (bool_decide (is_Some schema)) if_exists cascade) as Ht.
  { unfold tokenize. rewrite scan_more by (done || lia).
    change (scan_from rules stmt 0 Normal) with (scan_at rules [] stmt Normal). rewrite <- Hstmt.
    change (text "DROP TABLE ") with (print_tokens [Word (kw "DROP"); Word (kw "TABLE")]).
    rewrite scan_print_app by done. unfold drop_tokens. f_equal.
    assert ((if if_exists then text "IF EXISTS " else []) =
            print_tokens (if if_exists then [Word (kw "IF"); Word (kw "EXISTS")] else [])) as ->
      by (by destruct if_exists).
    rewrite scan_print_app by (by destruct if_exists). f_equal.
    rewrite scan_quoted_table; [|done..|by destruct cascade].
    destruct schema as [sc|]; [rewrite bool_decide_true by eauto|rewrite bool_decide_false by (by intros [])];
      cbn [app]; repeat f_equal; (destruct cascade;
        [change (text " CASCADE") with (ch " " :: kw "CASCADE"); rewrite scan_space; by apply scan_last_word
        |unfold scan_at, scan_from; rewrite app_nil_r, Nat.sub_diag; done]). }
  split; [done|]. unfold classify_with_rules. rewrite Ht.
  by destruct (bool_decide (is_Some schema)), if_exists, cascade.
Qed.

End Lexing.

(** ** Keyset pagination *)

Section Keyset.
Context `{ValueLib} `{!SqlDialect}.

(** A comparison of a key column with a parameter, a conjunction of them, and the
    disjunction the predicate is. *)
Record Atom := mkAtom { strict : bool; column : nat; param : nat }.

Definition clause_atoms (index k : nat) : list Atom :=
  map (fun j => mkAtom false j (index + j)) (seq 0 k) ++ [mkAtom true k (index + k)].

Fixpoint keyset_dnf (index k n : nat) : list (list Atom) :=
  match n with
  | O => []
  | S n' => clause_atoms index k :: keyset_dnf (index + S k) (S k) n'
  end.

(** The values bound, in the order of their parameters. *)
Fixpoint keyset_binds (vals : list DbValue) (k n : nat) : list DbValue :=
  match n with
  | O => []
  | S n' => take (S k) vals ++ keyset_binds vals (S k) n'
  end.

(** The text of a predicate. *)
Definition render_atom (alias : list char) (cols : list (list char)) (a : Atom) : list char :=
  qualified_col alias (default [] (cols !! column a)) ++ text " " ++
  text (if strict a then ">" else "=") ++ text " " ++ placeholder (param a).
Definition render_list (sep : string) (parts : list (list char)) : list char :=
  match parts with [x] => x | _ => text "(" ++ join_text (text sep) parts ++ text ")" end.
Definition render_clause (alias : list char) (cols : list (list char)) (c : list Atom) : list char :=
  render_list " AND " (map (render_atom alias cols) c).
Definition render_dnf (alias : list char) (cols : list (list char)) (d : list (list Atom)) : list char :=
  render_list " OR " (map (render_clause alias cols) d).

(** What a predicate says of a row, given the values of the parameters. *)
Section Meaning.
Context (cmp : DbValue -> DbValue -> comparison) (row : list DbValue) (bound : nat -> option DbValue).

Definition eval_atom (a : Atom) : bool :=
  match row !! column a, bound (param a) with
  | Some x, Some v => match cmp x v, strict a with Eq, false | Gt, true => true | _, _ => false end
  | _, _ => false
  end.
Definition eval_dnf (d : list (list Atom)) : bool := existsb (forallb eval_atom) d.
End Meaning.

(** The key of the row comes after the last one seen. *)
Fixpoint lex_gt (cmp : DbValue -> DbValue -> comparison) (row vals : list DbValue) : bool :=
  match row, vals with
  | x :: row', v :: vals' =>
      match cmp x v with Gt => true | Eq => lex_gt cmp row' vals' | Lt => false end
  | _, _ => false
  end.

(** Equal on the first [k] columns and greater on the next. *)
Definition greater_at (cmp : DbValue -> DbValue -> comparison) (row vals : list DbValue) (k : nat) : bool :=
  forallb (fun j => match row !! j, vals !! j with
                    | Some x, Some v => match cmp x v with Eq => true | _ => false end
                    | _, _ => false end) (seq 0 k) &&
  match row !! k, vals !! k with
  | Some x, Some v => match cmp x v with Gt => true | _ => false end
  | _, _ => false
  end.

Lemma greater_at_lex cmp row : forall vals,
  length row = length vals ->
  existsb (greater_at cmp row vals) (seq 0 (length vals)) = lex_gt cmp row vals.
Proof.
  induction row as [|x row IH]; intros [|v vals]; simpl; try done. intros [= Hlen].
  assert (forall k, greater_at cmp (x :: row) (v :: vals) (S k) =
            match cmp x v with Eq => greater_at cmp row vals k | _ => false end) as Hs.
  { intros k. unfold greater_at. rewrite <- cons_seq. simpl. rewrite <- seq_shift.
    assert (forall (f g : nat -> bool) l, (forall j, f (S j) = g j) -> forallb f (map S l) = forallb g l) as Hm.
    { clear. intros f g l Hfg. induction l; simpl; [done|]. by rewrite Hfg, IHl. }
    rewrite (Hm _ (fun j => match row !! j, vals !! j with
                    | Some x, Some v => match cmp x v with Eq => true | _ => false end
                    | _, _ => false end)) by done.
    by destruct (cmp x v). }
  rewrite <- IH by done. rewrite <- seq_shift.
  assert (existsb (greater_at cmp (x :: row) (v :: vals)) (map S (seq 0 (length vals))) =
          match cmp x v with Eq => existsb (greater_at cmp row vals) (seq 0 (length vals)) | _ => false end) as ->.
  { generalize (seq 0 (length vals)) as l. induction l as [|k l IHl]; simpl; [by destruct (cmp x v)|].
    rewrite Hs, IHl. by destruct (cmp x v). }
  unfold greater_at. simpl. destruct (cmp x v); done || by destruct (existsb _ _).
Qed.

(** The parameters of a clause hold the values of the columns. *)
Lemma eval_keyset cmp row vals idx n : forall k bound_before,
  (k + n <= length vals)%nat -> length row = length vals ->
  eval_dnf cmp row (fun p => (bound_before ++ keyset_binds vals k n) !! (p - idx)%nat)
    (keyset_dnf (idx + length bound_before) k n) =
  existsb (greater_at cmp row vals) (seq k n).
Proof.
  induction n as [|n IH]; intros k before Hk Hrow; [done|]. simpl.
  assert (forall j, (j <= k)%nat ->
    (before ++ take (S k) vals ++ keyset_binds vals (S k) n) !! (idx + length before + j - idx)%nat = vals !! j)
    as Hb.
  { intros j Hj. replace (idx + length before + j - idx)%nat with (length before + j)%nat by lia.
    rewrite lookup_app_r by lia. replace (length before + j - length before)%nat with j by lia.
    rewrite lookup_app_l by (rewrite length_take; lia). by rewrite lookup_take_lt by lia. }
  f_equal.
  - unfold clause_atoms, greater_at. rewrite forallb_app. f_equal.
    + assert (forall l, Forall (fun j => (j < k)%nat) l ->
        forallb (eval_atom cmp row (fun p => (before ++ take (S k) vals ++ keyset_binds vals (S k) n) !! (p - idx)%nat))
          (map (fun j => mkAtom false j (idx + length before + j)) l) =
        forallb (fun j => match row !! j, vals !! j with
                    | Some x, Some v => match cmp x v with Eq => true | _ => false end
                    | _, _ => false end) l) as Hl.
      { induction 1 as [|j l Hj _ IHl]; simpl; [done|]. rewrite IHl. f_equal. unfold eval_atom. simpl.
        rewrite Hb by lia. done. }
      apply Hl, Forall_forall. intros j ?%elem_of_seq. lia.
    + simpl. unfold eval_atom. simpl. rewrite Hb by lia. rewrite andb_true_r. done.
  - specialize (IH (S k) (before ++ take (S k) vals)).
    rewrite length_app, length_take, Nat.min_l in IH by lia. rewrite <- app_assoc in IH.
    rewrite <- IH by lia. by rewrite Nat.add_assoc.
Qed.

(** Every parameter holds the value of the column it is compared with. *)
Lemma keyset_bound vals idx n : forall k before,
  (k + n <= length vals)%nat ->
  Forall (fun a => (before ++ keyset_binds vals k n) !! (param a - idx)%nat = vals !! column a)
    (concat (keyset_dnf (idx + length before) k n)).
Proof.
  induction n as [|n IH]; intros k before Hk; [constructor|]. cbn [keyset_dnf concat keyset_binds].
  apply Forall_app. split.
  - assert (Hall : Forall (fun a => (column a <= k)%nat /\ param a = (idx + length before + column a)%nat)
      (clause_atoms (idx + length before) k)).
    { unfold clause_atoms. apply Forall_app. split; [|by repeat constructor].
      apply List.Forall_map, Forall_forall. intros j ?%elem_of_seq. simpl. lia. }
    eapply List.Forall_impl; [|exact Hall]. intros a [Ha ->].
    replace (idx + length before + column a - idx)%nat with (length before + column a)%nat by lia.
    rewrite lookup_app_r by lia. replace (length before + column a - length before)%nat with (column a) by lia.
    rewrite lookup_app_l by (rewrite length_take; lia). by rewrite lookup_take_lt by lia.
  - specialize (IH (S k) (before ++ take (S k) vals)).
    rewrite length_app, length_take, Nat.min_l in IH by lia. rewrite <- app_assoc in IH.
    rewrite Nat.add_assoc in IH. apply IH. lia.
Qed.

(** ** The builder *)

Section Builder.
Context (cols : list (list char)) (vals : list DbValue) (alias : list char).
Hypothesis same_length : length cols = length vals.

Lemma compare_col_step op parts params index j :
  (j < length vals)%nat ->
  compare_col alias cols vals op (Some (parts, (params, index))) j =
  Some (parts ++ [qualified_col alias (default [] (cols !! j)) ++ text " " ++ text op ++ text " " ++
                  placeholder index], (params ++ take 1 (drop j vals), S index)).
Proof.
  intros Hj. destruct (lookup_lt_is_Some_2 vals j Hj) as [v Hv].
  destruct (lookup_lt_is_Some_2 cols j) as [c Hc]; [lia|].
  unfold compare_col. simpl. rewrite Hc, Hv. simpl. by rewrite (drop_S _ _ _ Hv).
Qed.

Lemma compare_col_fold n : forall params index,
  (n <= length vals)%nat ->
  foldl (compare_col alias cols vals "=") (Some ([], (params, index))) (seq 0 n) =
  Some (map (render_atom alias cols) (map (fun j => mkAtom false j (index + j)) (seq 0 n)),
        (params ++ take n vals, (index + n)%nat)).
Proof.
  induction n as [|n IH]; intros params index Hn; [simpl; by rewrite app_nil_r, Nat.add_0_r|].
  rewrite seq_S, foldl_app, IH by lia. cbn [foldl]. rewrite compare_col_step by lia.
  rewrite !map_app. do 3 f_equal; [|lia]. rewrite <- app_assoc. f_equal.
  by rewrite take_take_drop, Nat.add_1_r.
Qed.

Lemma keyset_clause_step clauses params index k :
  (k < length vals)%nat ->
  keyset_clause alias cols vals (Some (clauses, (params, index))) k =
  Some (clauses ++ [render_clause alias cols (clause_atoms index k)],
        (params ++ take (S k) vals, (index + S k)%nat)).
Proof.
  intros Hk. unfold keyset_clause. simpl. rewrite compare_col_fold by lia.
  rewrite compare_col_step by done. simpl. unfold render_clause, clause_atoms, render_list.
  rewrite !map_app. do 3 f_equal; [|lia]. rewrite <- app_assoc. f_equal.
  by rewrite take_take_drop, Nat.add_1_r.
Qed.

Lemma keyset_clause_fold n : forall k clauses params index,
  (k + n <= length vals)%nat ->
  foldl (keyset_clause alias cols vals) (Some (clauses, (params, index))) (seq k n) =
  Some (clauses ++ map (render_clause alias cols) (keyset_dnf index k n),
        (params ++ keyset_binds vals k n, (index + length (keyset_binds vals k n))%nat)).
Proof.
  induction n as [|n IH]; intros k clauses params index Hk; [simpl; by rewrite !app_nil_r, Nat.add_0_r|].
  cbn [seq foldl]. rewrite keyset_clause_step, IH by lia. cbn [keyset_dnf keyset_binds map].
  rewrite <- !app_assoc, length_app, length_take, Nat.min_l by lia. cbn [app]. do 3 f_equal. lia.
Qed.

Lemma keyset_text params index :
  cols <> [] ->
  lower_keyset_predicate cols vals alias (params, index) =
  Some (render_dnf alias cols (keyset_dnf index 0 (length vals)),
        (params ++ keyset_binds vals 0 (length vals),
         (index + length (keyset_binds vals 0 (length vals)))%nat)).
Proof.
  intros Hne. unfold lower_keyset_predicate. rewrite bool_decide_false by done.
  rewrite same_length, keyset_clause_fold by lia. done.
Qed.

End Builder.

(** The parameters of the predicate, in the order of its text. *)
Lemma keyset_params vals n : forall index k,
  (k + n <= length vals)%nat ->
  map param (concat (keyset_dnf index k n)) = seq index (length (keyset_binds vals k n)).
Proof.
  induction n as [|n IH]; intros index k Hk; [done|]. cbn [keyset_dnf concat keyset_binds].
  rewrite map_app, IH by lia. rewrite length_app, length_take, Nat.min_l, seq_app by lia. f_equal.
  unfold clause_atoms. rewrite map_app, map_map, seq_S. simpl. f_equal.
  clear. induction k as [|k IH]; [done|]. rewrite seq_S, map_app, IH. simpl. symmetry. apply (seq_S k index).
Qed.

(** C35: the keyset predicate holds of exactly the rows whose key comes after the
    last one seen, in the lexicographic order of its columns, whatever the order
    on values is.  Its text is that of a disjunction whose placeholders, from left
    to right, take one value each, the k-th placeholder the k-th of the values
    bound, so that dialects whose placeholders have no numbers read the values the
    same way; and every value is one of the last row, for the column it is
    compared with. *)
Theorem keyset_predicate_is_lexicographic cols vals alias params index cmp row :
  cols <> [] -> length cols = length vals -> length row = length vals ->
  exists d binds,
    lower_keyset_predicate cols vals alias (params, index) =
      Some (render_dnf alias cols d, (params ++ binds, (index + length binds)%nat)) /\
    map param (concat d) = seq index (length binds) /\
    Forall (fun a => binds !! (param a - index)%nat = vals !! column a) (concat d) /\
    eval_dnf cmp row (fun p => binds !! (p - index)%nat) d = lex_gt cmp row vals.
Proof.
  intros Hne Hlen Hrow.
  exists (keyset_dnf index 0 (length vals)), (keyset_binds vals 0 (length vals)).
  split; [by apply keyset_text|]. split; [by apply keyset_params|]. split.
  - pose proof (keyset_bound vals index (length vals) 0 []) as Hb. simpl in Hb.
    rewrite Nat.add_0_r in Hb. by apply Hb.
  - pose proof (eval_keyset cmp row vals index (length vals) 0 []) as He. simpl in He.
    rewrite Nat.add_0_r in He. rewrite He by (done || lia). by apply greater_at_lex.
Qed.

End Keyset.

(** ** Instances *)

#[local] Instance integer_values : ValueLib := {
  f64 := Empty_set; f64_is_nan _ := false; f64_is_infinite _ := false; f64_positive _ := false;
  f64_to_string _ := []; DateTime := Empty_set; datetime_text _ := []; NaiveDate := Empty_set;
  date_text _ := []; NaiveTime := Empty_set; time_text _ := [];
}.
#[local] Instance no_documents : DocumentJson := { document_json _ := None }.

(** A name cannot end its quotes. *)
Definition demo_drop : list char :=
  match drop_table_statement (Some (text "s")) (text "t; drop table u") true false with
  | Ok x => x
  | Err _ => []
  end.

Lemma drop_table_drops_one_table_witness :
  tokenize demo_drop SQLITE_RULES = drop_tokens true true false /\
  classify_with_rules demo_drop SQLITE_RULES = Destructive.
Proof.
  apply (drop_table_drops_one_table SQLITE_RULES (Some (text "s")) (text "t; drop table u") true false);
    [done|reflexivity|reflexivity].
Defined.

Lemma literal_is_one_token_witness :
  scan_at POSTGRES_RULES (text "= ") (quoted_literal (text "a'; drop table t --") ++ text ";") Normal =
  Quoted :: scan_at POSTGRES_RULES (text "= " ++ quoted_literal (text "a'; drop table t --")) (text ";") Normal.
Proof.
  apply (literal_is_one_token POSTGRES_RULES (text "= ") (text "a'; drop table t --") (text ";"));
    [reflexivity|right; reflexivity|done].
Defined.

Definition int_cmp (a b : DbValue) : comparison :=
  match a, b with VInt x, VInt y => x ?= y | _, _ => Lt end.

Lemma keyset_predicate_is_lexicographic_witness :
  exists d binds,
    lower_keyset_predicate [text "a"; text "b"] [VInt 1; VInt 5] (text "t") ([], 1%nat) =
      Some (render_dnf (text "t") [text "a"; text "b"] d, ([] ++ binds, (1 + length binds)%nat)) /\
    map param (concat d) = seq 1 (length binds) /\
    Forall (fun a => binds !! (param a - 1)%nat = [VInt 1; VInt 5] !! column a) (concat d) /\
    eval_dnf int_cmp [VInt 1; VInt 6] (fun p => binds !! (p - 1)%nat) d =
    lex_gt int_cmp [VInt 1; VInt 6] [VInt 1; VInt 5].
Proof.
  apply (keyset_predicate_is_lexicographic [text "a"; text "b"] [VInt 1; VInt 5] (text "t") [] 1 int_cmp
           [VInt 1; VInt 6]); done.
Defined.

Example keyset_text_example :
  fst <$> lower_keyset_predicate [text "a"; text "b"] [VInt 1; VInt 5] (text "t") ([], 1%nat) =
  Some (flat_map (fun c => if (c =? ch "~")%N then [34%N] else [c])
          (text "(~t~.~a~ > ? OR (~t~.~a~ = ? AND ~t~.~b~ > ?))")).
Proof. vm_compute. reflexivity. Qed.
