(* ===== verification/FilterParser.v ===== *)
(** * The relational filter (crates/dbflux_core: query/relational_filter/parser.rs)

    The filter box of a table takes a small language: comparisons of a column,
    or of a column reached through foreign keys, joined with AND and OR.  This
    file has its scanner and its parser, on the bytes of the text as the code
    has them; an error is a value of [ParseError], and [None] stands for rounds
    that have run out, which [filter_parse_answers] excludes. *)

From S2P Require Import Prelude RustStr RustChar SqlDialect VisualQuery.

(** [str::parse::<f64>]. *)
Class FloatParse `{ValueLib} := { f64_parse : list char -> option f64 }.

Module FilterParser.

Section Filter.
Context `{CharLib} `{ValueLib} `{!FloatParse}.

Definition PATH_DEPTH_CAP : nat := 5.

Record Span := mkSpan { span_start : nat; span_end : nat }.

Inductive Token : Type :=
| Ident (s : list char)
| Dot
| Str (s : list char)
| Int (i : Z)
| Float (f : f64)
| TBool (b : bool)
| Null
| Compare (c : Cmp.Comparator)
| Bool_op (op : BoolOp)
| LParen
| RParen
| Comma
| Eof.

Record SpannedToken := mkSpanned { token : Token; span : Span }.

Inductive ParseError : Type :=
| UnexpectedChar (c : char) (s : Span)
| UnexpectedToken (s : Span)
| UnterminatedString (s : Span)
| InvalidNumber (s : Span)
| InvalidInList (s : Span)
| EmptyInput
| PathTooDeep (found cap : nat).

(** ** Scanner: the bytes still to read, and the position *)

Record Scanner := mkScanner { rest : list N; pos : nat }.

(** [while matches!(self.peek(), ...) { self.advance(); }]. *)
Definition advance_while (p : N -> bool) (s : Scanner) : Scanner :=
  mkScanner (drop_while p (rest s)) (pos s + length (take_while p (rest s))).

Definition is_blank_byte (b : N) : bool := bool_decide (b ∈ [32; 9; 13; 10]%N).
Definition is_word_byte (b : N) : bool := is_letter b || is_digit b || (b =? ch "_")%N.

Definition skip_whitespace (s : Scanner) : Scanner := advance_while is_blank_byte s.

(** The rest after [keyword] at the start, whatever the case. *)
Fixpoint after_keyword (keyword l : list N) : option (list N) :=
  match keyword, l with
  | [], _ => Some l
  | k :: keyword', b :: l' =>
      if char_eq_ignore_case b k then after_keyword keyword' l' else None
  | _ :: _, [] => None
  end.

Definition try_keyword_ci (keyword : list char) (s : Scanner) : option Scanner :=
  match after_keyword keyword (rest s) with
  | Some l =>
      if match l with b :: _ => is_word_byte b | [] => false end then None
      else Some (mkScanner l (pos s + length keyword))
  | None => None
  end.

(** [String::from_utf8_lossy] of a word: only its first byte can lie outside
    ASCII, alone, and becomes the replacement character. *)
Definition lossy_word (first : N) (w : list N) : list char :=
  (if (first <? 128)%N then first else 65533%N) :: w.

(** What follows the word [IS]. *)
Definition scan_is (s : Scanner) : Token * Scanner :=
  let s' := skip_whitespace s in
  match try_keyword_ci (text "NOT") s' with
  | Some s'' =>
      match try_keyword_ci (text "NULL") (skip_whitespace s'') with
      | Some s3 => (Compare Cmp.IsNotNull, s3)
      | None => (Ident (text "IS"), s)
      end
  | None =>
      match try_keyword_ci (text "NULL") s' with
      | Some s'' => (Compare Cmp.IsNull, s'')
      | None => (Ident (text "IS"), s)
      end
  end.

(** The keywords; a word with a replacement character is none of them. *)
Definition KEYWORDS : list (list char * Token) :=
  [(text "TRUE", TBool true); (text "FALSE", TBool false); (text "NULL", Null);
   (text "LIKE", Compare Cmp.Like); (text "ILIKE", Compare Cmp.ILike);
   (text "IN", Compare Cmp.In); (text "AND", Bool_op And); (text "OR", Bool_op Or);
   (text "NOT", Ident (text "NOT"))].

Fixpoint keyword_token (l : list (list char * Token)) (w : list char) : option Token :=
  match l with
  | [] => None
  | (k, t) :: l' => if bool_decide (w = k) then Some t else keyword_token l' w
  end.

(** [scan_identifier], after its first byte has been read. *)
Definition scan_identifier (first : N) (s : Scanner) : Token * Scanner :=
  let w := lossy_word first (take_while is_word_byte (rest s)) in
  let s' := advance_while is_word_byte s in
  let upper := map to_ascii_uppercase w in
  match keyword_token KEYWORDS upper with
  | Some t => (t, s')
  | None => if bool_decide (upper = text "IS") then scan_is s' else (Ident w, s')
  end.

(** [scan_string]: the bytes up to the closing quote, each pushed as a
    character; [Err] has the position where the text ended. *)
Fixpoint scan_string (quote : N) (l : list N) (p : nat) (value : list char)
  : result (list char * Scanner) nat :=
  match l with
  | [] => Err p
  | c :: l' =>
      if (c =? quote)%N then
        match l' with
        | d :: l'' =>
            if (d =? quote)%N then scan_string quote l'' (p + 2) (value ++ [quote])
            else Ok (value, mkScanner l' (S p))
        | [] => Ok (value, mkScanner l' (S p))
        end
      else scan_string quote l' (S p) (value ++ [c])
  end.

(** The text of an integer that does not fit in [i64] does not parse. *)
Definition integer_token (first : N) (ds : list N) (s : Scanner) : result (Token * Scanner) Scanner :=
  let i := if (first =? ch "-")%N then - digits_value ds else digits_value (first :: ds) in
  if (i64_min <=? i) && (i <=? i64_max) then Ok (Int i, s) else Err s.

(** [scan_number], after its first byte: a digit, or the sign before one. *)
Definition scan_number (first : N) (s : Scanner) : result (Token * Scanner) Scanner :=
  let ds := take_while is_digit (rest s) in
  let s1 := advance_while is_digit s in
  match rest s1 with
  | b :: d :: l =>
      if (b =? ch ".")%N && is_digit d then
        let s2 := advance_while is_digit (mkScanner (d :: l) (S (pos s1))) in
        match f64_parse (first :: ds ++ b :: take_while is_digit (d :: l)) with
        | Some f => Ok (Float f, s2)
        | None => Err s2
        end
      else integer_token first ds s1
  | _ => integer_token first ds s1
  end.

(** Read one more byte when it is [b]. *)
Definition next_byte_is (b : N) (s : Scanner) : option Scanner :=
  match rest s with
  | c :: l => if (c =? b)%N then Some (mkScanner l (S (pos s))) else None
  | [] => None
  end.

(** The tokens of one or two bytes. *)
Definition scan_operator (b : N) (s : Scanner) : option (Token * Scanner) :=
  if (b =? ch ".")%N then Some (Dot, s)
  else if (b =? ch "(")%N then Some (LParen, s)
  else if (b =? ch ")")%N then Some (RParen, s)
  else if (b =? ch ",")%N then Some (Comma, s)
  else if (b =? ch "=")%N then Some (Compare Cmp.Eq, s)
  else if (b =? ch "<")%N then
    match next_byte_is (ch ">") s with
    | Some s' => Some (Compare Cmp.Neq, s')
    | None =>
        match next_byte_is (ch "=") s with
        | Some s' => Some (Compare Cmp.Lte, s')
        | None => Some (Compare Cmp.Lt, s)
        end
    end
  else if (b =? ch ">")%N then
    match next_byte_is (ch "=") s with
    | Some s' => Some (Compare Cmp.Gte, s')
    | None => Some (Compare Cmp.Gt, s)
    end
  else if (b =? ch "!")%N then
    match next_byte_is (ch "=") s with
    | Some s' => Some (Compare Cmp.Neq, s')
    | None => None
    end
  else None.

Definition next_token (s0 : Scanner) : result (SpannedToken * Scanner) ParseError :=
  let s := skip_whitespace s0 in
  let start := pos s in
  match rest s with
  | [] => Ok (mkSpanned Eof (mkSpan start start), s)
  | b :: l =>
      let s1 := mkScanner l (S start) in
      let finish (r : Token * Scanner) := Ok (mkSpanned r.1 (mkSpan start (pos r.2)), r.2) in
      let number :=
        match scan_number b s1 with
        | Ok r => finish r
        | Err s' => Err (InvalidNumber (mkSpan start (pos s')))
        end in
      match scan_operator b s1 with
      | Some r => finish r
      | None =>
          if (b =? ch "'")%N || (b =? 34)%N then
            match scan_string b l (S start) [] with
            | Ok (v, s') => finish (Str v, s')
            | Err p => Err (UnterminatedString (mkSpan start p))
            end
          else if (b =? ch "-")%N then
            if match l with d :: _ => is_digit d | [] => false end then number
            else Err (UnexpectedChar b (mkSpan start (S start)))
          else if is_digit b then number
          else if is_alphabetic b || (b =? ch "_")%N then finish (scan_identifier b s1)
          else Err (UnexpectedChar b (mkSpan start (S start)))
      end
  end.

Fixpoint tokenize_loop (rounds : nat) (s : Scanner) : option (result (list SpannedToken) ParseError) :=
  match rounds with
  | O => None
  | S rounds' =>
      match next_token s with
      | Err e => Some (Err e)
      | Ok (t, s') =>
          match token t with
          | Eof => Some (Ok [t])
          | _ =>
              r ← tokenize_loop rounds' s';
              Some (map_ok (cons t) r)
          end
      end
  end.

(** Every token but the last takes a byte. *)
Definition tokenize (input : list N) : option (result (list SpannedToken) ParseError) :=
  tokenize_loop (S (length input)) (mkScanner input 0).

(** ** Syntax trees *)

Inductive Lhs : Type :=
| BareColumn (column : list char)
| DottedPath (segments : list (list char)).

Record ParsedPredicate := mkPredicate {
  p_lhs : Lhs;
  p_span : Span;
  p_comparator : Cmp.Comparator;
  p_rhs : PredicateValue;
}.

Inductive FilterExpr : Type :=
| Predicate (p : ParsedPredicate)
| Bool (op : BoolOp) (children : list FilterExpr).

(** ** Parser: the tokens still to read; the cursor stays on the last one *)

Definition P (A : Type) : Type :=
  list SpannedToken -> option (result (A * list SpannedToken) ParseError).

Definition p_ret {A} (x : A) : P A := fun l => Some (Ok (x, l)).
Definition p_err {A} (e : ParseError) : P A := fun _ => Some (Err e).
Definition p_bind {A B} (f : A -> P B) (m : P A) : P B := fun l =>
  match m l with
  | Some (Ok (x, l')) => f x l'
  | Some (Err e) => Some (Err e)
  | None => None
  end.
#[local] Notation "x <- m ;; k" := (p_bind (fun x => k) m)
  (at level 100, m at next level, right associativity).

Definition peek : P Token := fun l =>
  Some (Ok (match l with t :: _ => token t | [] => Eof end, l)).
Definition peek_span : P Span := fun l =>
  Some (Ok (match l with t :: _ => span t | [] => mkSpan 0 0 end, l)).
Definition advance : P unit := fun l =>
  Some (Ok (tt, match l with _ :: (_ :: _) as r => r | _ => l end)).

Definition unexpected {A} : P A := s <- peek_span;; p_err (UnexpectedToken s).
Definition bad_list {A} : P A := s <- peek_span;; p_err (InvalidInList s).

(** A loop with as many rounds as there are tokens. *)
Definition with_rounds {A} (f : nat -> P A) : P A := fun l => f (length l) l.

Definition expect_ident : P (list char) :=
  t <- peek;;
  match t with
  | Ident name => _ <- advance;; p_ret name
  | _ => unexpected
  end.

(** The loop of [parse_lhs]. *)
Fixpoint lhs_loop (rounds : nat) (segments : list (list char)) : P (list (list char)) :=
  t <- peek;;
  match t with
  | Dot =>
      match rounds with
      | O => fun _ => None
      | S rounds' =>
          _ <- advance;;
          seg <- expect_ident;;
          let segments := segments ++ [seg] in
          if Nat.ltb PATH_DEPTH_CAP (length segments)
          then p_err (PathTooDeep (length segments) PATH_DEPTH_CAP)
          else lhs_loop rounds' segments
      end
  | _ => p_ret segments
  end.

(** Every round adds a segment, and there are at most [PATH_DEPTH_CAP]. *)
Definition parse_lhs : P Lhs :=
  first <- expect_ident;;
  segments <- lhs_loop PATH_DEPTH_CAP [first];;
  p_ret (match segments with [c] => BareColumn c | _ => DottedPath segments end).

Definition parse_comparator : P Cmp.Comparator :=
  t <- peek;;
  match t with
  | Compare c => _ <- advance;; p_ret c
  | _ => unexpected
  end.

Definition literal_of (t : Token) : option LiteralValue :=
  match t with
  | Str s => Some (LText s)
  | Int i => Some (LInteger i)
  | Float f => Some (LFloat f)
  | TBool b => Some (LBool b)
  | Null => Some LNull
  | _ => None
  end.

Definition parse_single_value : P LiteralValue :=
  t <- peek;;
  match literal_of t with
  | Some v => _ <- advance;; p_ret v
  | None => unexpected
  end.

(** The loop of [parse_in_list]. *)
Fixpoint in_list_loop (rounds : nat) (items : list LiteralValue) : P (list LiteralValue) :=
  match rounds with
  | O => fun _ => None
  | S rounds' =>
      v <- parse_single_value;;
      let items := items ++ [v] in
      t <- peek;;
      match t with
      | Comma => _ <- advance;; in_list_loop rounds' items
      | RParen => _ <- advance;; p_ret items
      | _ => bad_list
      end
  end.

Definition parse_in_list : P PredicateValue :=
  t <- peek;;
  match t with
  | LParen =>
      _ <- advance;;
      t <- peek;;
      match t with
      | RParen => bad_list
      | _ => items <- with_rounds (fun n => in_list_loop n []);; p_ret (VList items)
      end
  | _ => bad_list
  end.

Definition parse_predicate : P ParsedPredicate :=
  start_span <- peek_span;;
  lhs <- parse_lhs;;
  comparator <- parse_comparator;;
  rhs <- (match comparator with
        | Cmp.IsNull | Cmp.IsNotNull => p_ret NoValue
        | Cmp.In => parse_in_list
        | _ => v <- parse_single_value;; p_ret (Single v)
        end);;
  end_span <- peek_span;;
  p_ret (mkPredicate lhs (mkSpan (span_start start_span) (span_start end_span)) comparator rhs).

Definition is_op (op : BoolOp) (t : Token) : bool :=
  match t, op with Bool_op And, And | Bool_op Or, Or => true | _, _ => false end.

(** The loops of [parse_or] and [parse_and]. *)
Fixpoint more_operands (rounds : nat) (op : BoolOp) (operand : P FilterExpr)
    (children : list FilterExpr) : P (list FilterExpr) :=
  t <- peek;;
  if is_op op t then
    match rounds with
    | O => fun _ => None
    | S rounds' =>
        _ <- advance;;
        c <- operand;;
        more_operands rounds' op operand (children ++ [c])
    end
  else p_ret children.

(** [parse_or] and [parse_and], given the parser of their operands. *)
Definition parse_operands (op : BoolOp) (operand : P FilterExpr) : P FilterExpr :=
  first <- operand;;
  t <- peek;;
  if is_op op t then
    children <- with_rounds (fun n => more_operands n op operand [first]);;
    p_ret (Bool op children)
  else p_ret first.

(** [depth] bounds the nesting of parentheses. *)
Fixpoint parse_atom (depth : nat) : P FilterExpr :=
  t <- peek;;
  match t with
  | LParen =>
      match depth with
      | O => fun _ => None
      | S depth' =>
          _ <- advance;;
          inner <- parse_operands Or (parse_operands And (parse_atom depth'));;
          t <- peek;;
          match t with
          | RParen => _ <- advance;; p_ret inner
          | _ => unexpected
          end
      end
  | _ => p <- parse_predicate;; p_ret (Predicate p)
  end.

Definition parse_and (depth : nat) : P FilterExpr := parse_operands And (parse_atom depth).
Definition parse_or (depth : nat) : P FilterExpr := parse_operands Or (parse_and depth).

Definition parse_expr (depth : nat) : P FilterExpr :=
  t <- peek;;
  match t with
  | Eof => p_err EmptyInput
  | _ =>
      expr <- parse_or depth;;
      t <- peek;;
      match t with
      | Eof => p_ret expr
      | _ => unexpected
      end
  end.

(** Parentheses nest no deeper than there are tokens. *)
Definition parse (input : list N) : option (result FilterExpr ParseError) :=
  tokens ← tokenize input;
  match tokens with
  | Err e => Some (Err e)
  | Ok tokens =>
      r ← parse_expr (length tokens) tokens;
      Some (map_ok fst r)
  end.

End Filter.
End FilterParser.
