(* ===== verification/FilterParserProps.v ===== *)
(** * What the relational filter reads (crates/dbflux_core: query/relational_filter/parser.rs)

    The parser answers every text, what it accepts is well formed, and a filter
    written out is read back with its structure. *)

From S2P Require Import Prelude RustStr RustChar SqlLexer SqlDialect VisualQuery FilterParser.
Import FilterParser.

(** A run of a parser that answers, with a property of what it returns and of
    the tokens it leaves. *)
Definition wp `{ValueLib} {A} (m : P A) (l : list SpannedToken)
    (post : A -> list SpannedToken -> Prop) : Prop :=
  match m l with
  | Some (Ok (x, l')) => post x l'
  | Some (Err _) => True
  | None => False
  end.

(** Where the next token starts. *)
Definition next_start `{ValueLib} (l : list SpannedToken) : nat :=
  match l with t :: _ => span_start (span t) | [] => 0%nat end.

(** The tokens of a text of [n] bytes: they start in order, and the last one,
    and no other, is the end. *)
Fixpoint tokens_wf `{ValueLib} (n : nat) (l : list SpannedToken) : Prop :=
  match l with
  | [] => False
  | [t] => token t = Eof /\ (span_start (span t) <= n)%nat
  | t :: r => token t <> Eof /\ (span_start (span t) < next_start r)%nat /\ tokens_wf n r
  end.

(** ** Well-formed filters *)

Section Wf.
Context `{ValueLib}.

Definition parsed_value (v : LiteralValue) : bool :=
  match v with LTimestamp _ => false | LInteger i => (i64_min <=? i) && (i <=? i64_max) | _ => true end.

(** The value that goes with a comparator. *)
Definition value_fits (c : Cmp.Comparator) (v : PredicateValue) : bool :=
  match c, v with
  | (Cmp.IsNull | Cmp.IsNotNull), NoValue => true
  | Cmp.In, VList l => Nat.ltb 0 (length l) && forallb parsed_value l
  | (Cmp.IsNull | Cmp.IsNotNull | Cmp.In), _ => false
  | _, Single v => parsed_value v
  | _, _ => false
  end.

Definition lhs_fits (x : Lhs) : bool :=
  match x with
  | BareColumn _ => true
  | DottedPath l => Nat.ltb 1 (length l) && Nat.leb (length l) PATH_DEPTH_CAP
  end.

Definition predicate_fits (n : nat) (p : ParsedPredicate) : bool :=
  lhs_fits (p_lhs p) && value_fits (p_comparator p) (p_rhs p) &&
  Nat.ltb (span_start (p_span p)) (span_end (p_span p)) && Nat.leb (span_end (p_span p)) n.

(** A filter over a text of [n] bytes. *)
Fixpoint filter_wf (n : nat) (e : FilterExpr) : bool :=
  match e with
  | Predicate p => predicate_fits n p
  | Bool _ children => Nat.ltb 1 (length children) && forallb (filter_wf n) children
  end.

(** Tokens whose number is in range. *)
Definition token_fits (t : SpannedToken) : bool :=
  match token t with Int i => (i64_min <=? i) && (i <=? i64_max) | _ => true end.

End Wf.

(** ** The scanner moves forward *)

Section Scanner.
Context `{CharLib} `{ValueLib} `{!FloatParse}.

(** [s'] is [s] after some bytes. *)
Definition moved (s s' : Scanner) : Prop :=
  (length (rest s') + pos s' = length (rest s) + pos s)%nat /\ (pos s <= pos s')%nat.

Lemma moved_refl s : moved s s.
Proof. split; lia. Qed.

Lemma moved_trans s1 s2 s3 : moved s1 s2 -> moved s2 s3 -> moved s1 s3.
Proof. unfold moved. lia. Qed.

Lemma take_drop_while {A} (p : A -> bool) l : (length (take_while p l) + length (drop_while p l) = length l)%nat.
Proof. induction l as [|x l IH]; simpl; [done|]. destruct (p x); simpl; lia. Qed.

Lemma advance_while_moved p s : moved s (advance_while p s).
Proof. unfold moved, advance_while. simpl. pose proof (take_drop_while p (rest s)). lia. Qed.

Lemma after_keyword_length k l l' : after_keyword k l = Some l' -> length l = (length k + length l')%nat.
Proof.
  revert l. induction k as [|c k IH]; intros l; simpl; [by intros [= ->]|].
  destruct l as [|b l]; [done|]. destruct char_eq_ignore_case; [|done]. intros H'%IH. simpl. lia.
Qed.

Lemma try_keyword_moved k s s' : try_keyword_ci k s = Some s' -> moved s s'.
Proof.
  unfold try_keyword_ci. destruct (after_keyword k (rest s)) as [l|] eqn:Hk; [|done].
  destruct (match l with [] => false | b :: _ => is_word_byte b end); [done|].
  intros [= <-]. apply after_keyword_length in Hk. unfold moved. simpl. unfold char in *. lia.
Qed.

Lemma scan_is_moved s t s' : scan_is s = (t, s') -> moved s s'.
Proof.
  unfold scan_is. intros Heq.
  pose proof (advance_while_moved is_blank_byte s : moved s (skip_whitespace s)) as M0.
  destruct (try_keyword_ci (text "NOT") _) as [s1|] eqn:K1.
  - apply try_keyword_moved in K1. pose proof (advance_while_moved is_blank_byte s1).
    destruct (try_keyword_ci (text "NULL") _) as [s2|] eqn:K2; simplify_eq; [|apply moved_refl].
    apply try_keyword_moved in K2. eauto using moved_trans.
  - destruct (try_keyword_ci (text "NULL") _) as [s2|] eqn:K2; simplify_eq; [|apply moved_refl].
    apply try_keyword_moved in K2. eauto using moved_trans.
Qed.

Lemma scan_identifier_moved b s t s' : scan_identifier b s = (t, s') -> moved s s'.
Proof.
  unfold scan_identifier. pose proof (advance_while_moved is_word_byte s).
  destruct keyword_token; [by intros [= <- <-]|].
  destruct bool_decide; [|by intros [= <- <-]].
  intros Hs%scan_is_moved. eauto using moved_trans.
Qed.

Lemma scan_string_moved q l p v x s :
  scan_string q l p v = Ok (x, s) -> moved (mkScanner l p) s.
Proof.
  remember (length l) as n eqn:Hn. revert l p v Hn.
  induction (lt_wf n) as [n _ IH]. intros l p v ->. destruct l as [|c l]; [done|]. simpl.
  destruct (c =? q)%N.
  - destruct l as [|d l]; [intros [= <- <-]; unfold moved; simpl; lia|].
    destruct (d =? q)%N; [|intros [= <- <-]; unfold moved; simpl; lia].
    intros H'. eapply (IH (length l)) in H'; [|simpl; lia|done]. revert H'. unfold moved. simpl. lia.
  - intros H'. eapply (IH (length l)) in H'; [|simpl; lia|done]. revert H'. unfold moved. simpl. lia.
Qed.

Lemma integer_token_Ok b ds s t s' :
  integer_token b ds s = Ok (t, s') -> s' = s /\ token_fits (mkSpanned t (mkSpan 0 0)) = true /\ t <> Eof.
Proof.
  unfold integer_token. destruct (_ && _) eqn:Hr; [|done]. intros [= <- <-]. done.
Qed.

Lemma scan_number_moved b s t s' :
  scan_number b s = Ok (t, s') ->
  moved s s' /\ token_fits (mkSpanned t (mkSpan 0 0)) = true /\ t <> Eof.
Proof.
  unfold scan_number. intros Hn. pose proof (advance_while_moved is_digit s) as M.
  assert (Hi : integer_token b (take_while is_digit (rest s)) (advance_while is_digit s) = Ok (t, s') ->
               moved s s' /\ token_fits (mkSpanned t (mkSpan 0 0)) = true /\ t <> Eof).
  { by intros (-> & ? & ?)%integer_token_Ok. }
  destruct (rest (advance_while is_digit s)) as [|c [|d l]] eqn:Hr; [by apply Hi..|].
  destruct (_ && _); [|by apply Hi]. destruct f64_parse; [|done]. simplify_eq. split; [|done].
  eapply moved_trans; [exact M|].
  pose proof (advance_while_moved is_digit (mkScanner (d :: l) (S (pos (advance_while is_digit s))))) as M2.
  revert M2. unfold moved. rewrite Hr. simpl. lia.
Qed.

Lemma scan_operator_moved b s t s' : scan_operator b s = Some (t, s') -> moved s s' /\ t <> Eof /\
  token_fits (mkSpanned t (mkSpan 0 0)) = true.
Proof.
  assert (Hn : forall c s1, next_byte_is c s = Some s1 -> moved s s1).
  { intros c s1. unfold next_byte_is. destruct (rest s) as [|x l] eqn:Hr; [done|].
    destruct (x =? c)%N; [|done]. intros [= <-]. unfold moved. rewrite Hr. simpl. lia. }
  unfold scan_operator. intros Heq.
  repeat match type of Heq with
  | (if ?b then _ else _) = _ => destruct b
  | match next_byte_is ?c s with _ => _ end = _ => destruct (next_byte_is c s) eqn:?
  end; simplify_eq; eauto using moved_refl.
Qed.

Lemma keyword_token_Some l w t :
  keyword_token l w = Some t -> exists k, (k, t) ∈ l.
Proof.
  induction l as [|[k t'] l IH]; simpl; [done|]. destruct bool_decide.
  - intros [= ->]. exists k. apply list_elem_of_here.
  - intros (k' & ?)%IH. exists k'. by apply list_elem_of_further.
Qed.

Lemma scan_identifier_fits b s t s' :
  scan_identifier b s = (t, s') -> t <> Eof /\ token_fits (mkSpanned t (mkSpan 0 0)) = true.
Proof.
  unfold scan_identifier. destruct keyword_token as [k|] eqn:Hk.
  - intros [= <- <-]. apply keyword_token_Some in Hk as (w & Hk).
    assert (Hall : Forall (fun kt => kt.2 <> Eof /\ token_fits (mkSpanned kt.2 (mkSpan 0 0)) = true)
                     KEYWORDS) by (repeat constructor; done).
    rewrite Forall_forall in Hall. apply (Hall _ Hk).
  - destruct bool_decide; [|by intros [= <- <-]]. unfold scan_is. intros Heq.
    repeat case_match; simplify_eq; done.
Qed.

(** A token read is the end of the text, or takes at least one byte. *)
Definition progress (s : Scanner) (r : result (SpannedToken * Scanner) ParseError) : Prop :=
  match r with
  | Err _ => True
  | Ok (t, s') =>
      moved s s' /\ token_fits t = true /\ (pos s <= span_start (span t))%nat /\
      (token t = Eof /\ span_start (span t) = pos s' \/
       token t <> Eof /\ (span_start (span t) < pos s')%nat)
  end.

Lemma progress_token s s0 l b t s' :
  moved s s0 -> rest s0 = b :: l -> moved (mkScanner l (S (pos s0))) s' -> t <> Eof ->
  token_fits (mkSpanned t (mkSpan 0 0)) = true ->
  progress s (Ok (mkSpanned t (mkSpan (pos s0) (pos s')), s')).
Proof.
  unfold progress, moved. intros M Hr M1 He Hfit. rewrite Hr in M. simpl in *.
  split; [lia|]. split; [by destruct t|]. split; [lia|]. right. split; [done|lia].
Qed.

Lemma next_token_progress s : progress s (next_token s).
Proof.
  unfold next_token. pose proof (advance_while_moved is_blank_byte s : moved s (skip_whitespace s)) as M.
  set (s0 := skip_whitespace s) in *. destruct (rest s0) as [|b l] eqn:Hr.
  { simpl. split; [done|]. unfold moved in M. split; [done|]. split; [lia|]. by left. }
  pose proof (progress_token s s0 l b) as Hp.
  assert (Hn : progress s (match scan_number b (mkScanner l (S (pos s0))) with
                 | Ok r => Ok (mkSpanned r.1 (mkSpan (pos s0) (pos r.2)), r.2)
                 | Err s' => Err (InvalidNumber (mkSpan (pos s0) (pos s')))
                 end)).
  { destruct (scan_number b _) as [[t1 s2]|] eqn:Hn; [|done].
    apply scan_number_moved in Hn as (? & ? & ?). by apply Hp. }
  destruct (scan_operator b _) as [[t1 s2]|] eqn:Ho.
  { apply scan_operator_moved in Ho as (? & ? & ?). by apply Hp. }
  destruct (_ || _).
  { destruct (scan_string b l _ []) as [[v s2]|] eqn:Hs; [|done].
    apply scan_string_moved in Hs. by apply Hp. }
  destruct (b =? ch "-")%N; [by destruct (match l with [] => false | d :: _ => is_digit d end)|].
  destruct (is_digit b); [done|]. destruct (_ || _); [|done].
  destruct (scan_identifier b _) as [t1 s2] eqn:Hi.
  destruct (scan_identifier_fits _ _ _ _ Hi). apply scan_identifier_moved in Hi. by apply Hp.
Qed.

(** The tokens of a text, when it has no error. *)
Lemma tokenize_loop_spec rounds s :
  (length (rest s) < rounds)%nat ->
  exists r, tokenize_loop rounds s = Some r /\
    match r with
    | Ok ts => tokens_wf (length (rest s) + pos s) ts /\ Forall (fun t => token_fits t = true) ts /\
               (pos s <= next_start ts)%nat
    | Err _ => True
    end.
Proof.
  revert s. induction rounds as [|n IH]; intros s Hn; [lia|]. simpl.
  pose proof (next_token_progress s) as Hp. destruct (next_token s) as [[t s']|e]; [|by exists (Err e)].
  destruct Hp as (M & Hfit & Hle & Hend).
  destruct Hend as [[He Hpos]|[He Hlt]].
  - rewrite He. exists (Ok [t]). split; [done|]. unfold moved in M. simpl. split; [split; [done|lia]|].
    split; [by constructor|lia].
  - destruct (IH s') as (r & Hr & Hspec); [unfold moved in M; lia|].
    exists (map_ok (cons t) r). split; [destruct (token t); [..|done]; by rewrite Hr|].
    destruct r as [ts|]; [|done]. destruct Hspec as (Hwf & Hall & Hst).
    unfold map_ok. split; [|split; [by constructor|simpl; lia]].
    simpl. destruct ts as [|t2 ts]; [done|].
    split; [done|]. split; [unfold moved in M; simpl in *; lia|].
    unfold moved in M. by replace (length (rest s) + pos s)%nat with (length (rest s') + pos s')%nat by lia.
Qed.

End Scanner.

(** ** The parser answers, and what it returns is well formed *)

Section Parser.
Context `{CharLib} `{ValueLib} `{!FloatParse}.
Context (n : nat).

(** Tokens the parser can stand at. *)
Definition live (l : list SpannedToken) : Prop :=
  tokens_wf n l /\ Forall (fun t => token_fits t = true) l.

(** The tokens left after some, or after none, have been read. *)
Definition after_some (l l' : list SpannedToken) : Prop :=
  live l' /\ (length l' < length l)%nat /\ (next_start l < next_start l')%nat.
Definition after_any (l l' : list SpannedToken) : Prop :=
  live l' /\ (length l' <= length l)%nat /\ (next_start l <= next_start l')%nat.

Ltac after := unfold after_some, after_any in *; destruct_and?; split_and?; (done || lia).

Lemma wp_bind {A B} (m : P A) (f : A -> P B) l post :
  wp m l (fun x l' => wp (f x) l' post) -> wp (p_bind f m) l post.
Proof. unfold wp, p_bind. by destruct (m l) as [[[x l']|e]|]. Qed.

Lemma wp_mono {A} (m : P A) l (p q : A -> list SpannedToken -> Prop) :
  wp m l p -> (forall x l', p x l' -> q x l') -> wp m l q.
Proof. unfold wp. destruct (m l) as [[[x l']|e]|]; eauto. Qed.

Lemma wp_err {A} e l (post : A -> list SpannedToken -> Prop) : wp (p_err e) l post.
Proof. done. Qed.

Lemma wp_unexpected {A} l (post : A -> list SpannedToken -> Prop) : wp unexpected l post.
Proof. done. Qed.

Lemma wp_bad_list {A} l (post : A -> list SpannedToken -> Prop) : wp bad_list l post.
Proof. done. Qed.

(** The token under the cursor. *)
Definition here (l : list SpannedToken) : Token := match l with t :: _ => token t | [] => Eof end.

Lemma wp_peek l (post : Token -> list SpannedToken -> Prop) : post (here l) l -> wp peek l post.
Proof. done. Qed.

Lemma wp_advance l (post : unit -> list SpannedToken -> Prop) :
  live l -> here l <> Eof -> (forall l', after_some l l' -> post tt l') -> wp advance l post.
Proof.
  intros [Hwf Hfit] He Hpost. unfold wp, advance. destruct l as [|t [|t2 r]]; [done| |].
  - by destruct Hwf.
  - destruct Hwf as (? & ? & ?). apply Hpost. split; [|simpl; simpl in *; lia].
    split; [done|]. by inversion Hfit.
Qed.

Lemma expect_ident_spec l : live l -> wp expect_ident l (fun _ l' => after_some l l').
Proof.
  intros Hl. apply wp_bind, wp_peek. destruct (here l) eqn:Hh; try apply wp_unexpected.
  apply wp_bind, wp_advance; [done|by rewrite Hh|]. by intros.
Qed.

Lemma lhs_loop_spec rounds segs l :
  live l -> (1 <= length segs <= PATH_DEPTH_CAP)%nat -> (PATH_DEPTH_CAP < length segs + rounds)%nat ->
  wp (lhs_loop rounds segs) l (fun segs' l' =>
    after_any l l' /\ (1 <= length segs' <= PATH_DEPTH_CAP)%nat).
Proof.
  revert segs l. induction rounds as [|k IH]; intros segs l Hl Hs Hr; simpl; apply wp_bind, wp_peek;
    destruct (here l) eqn:Hh; try (split; [after|lia]); [lia|].
  apply wp_bind, wp_advance; [done|by rewrite Hh|]. intros l1 H1'.
  apply wp_bind. eapply wp_mono; [apply expect_ident_spec; apply H1'|]. intros seg l2 H2'.
  destruct (Nat.ltb_spec PATH_DEPTH_CAP (length (segs ++ [seg]))) as [|Hle]; [apply wp_err|].
  rewrite length_app in Hle. simpl in Hle.
  eapply wp_mono; [apply IH; [apply H2'|rewrite length_app; simpl; lia..]|].
  intros x l3 [H3' ?]. split; [after|done].
Qed.

Lemma parse_lhs_spec l : live l -> wp parse_lhs l (fun x l' => after_some l l' /\ lhs_fits x = true).
Proof.
  intros Hl. apply wp_bind. eapply wp_mono; [by apply expect_ident_spec|]. intros c l1 H1'.
  apply wp_bind. eapply wp_mono; [apply lhs_loop_spec; [apply H1'|unfold PATH_DEPTH_CAP; simpl; lia..]|].
  intros segs l2 [H2' Hs]. simpl. split; [after|].
  destruct segs as [|x [|y r]]; simpl in *; [lia|done|].
  apply Nat.leb_le. unfold PATH_DEPTH_CAP in *. simpl in *. lia.
Qed.

Lemma parse_comparator_spec l : live l -> wp parse_comparator l (fun _ l' => after_some l l').
Proof.
  intros Hl. apply wp_bind, wp_peek. destruct (here l) eqn:Hh; try apply wp_unexpected.
  apply wp_bind, wp_advance; [done|by rewrite Hh|]. by intros.
Qed.

Lemma single_value_spec l :
  live l -> wp parse_single_value l (fun v l' => after_some l l' /\ parsed_value v = true).
Proof.
  intros Hl. apply wp_bind, wp_peek. destruct (literal_of (here l)) as [v|] eqn:Hv; [|apply wp_unexpected].
  apply wp_bind, wp_advance; [done|by destruct (here l)|]. intros l' Ha. split; [done|].
  destruct l as [|t r]; [done|]. destruct Hl as [_ Hfit]. inversion Hfit as [|?? Ht]; subst.
  unfold token_fits in Ht. change (here (t :: r)) with (token t) in Hv.
  destruct (token t); cbn in Hv; simplify_eq; (exact Ht || done).
Qed.

Lemma in_list_spec rounds items l :
  live l -> (length l <= rounds)%nat -> forallb parsed_value items = true ->
  wp (in_list_loop rounds items) l (fun items' l' =>
    after_some l l' /\ items' <> [] /\ forallb parsed_value items' = true).
Proof.
  revert items l. induction rounds as [|k IH]; intros items l Hl Hr Hi; simpl.
  { destruct l; [by destruct Hl|simpl in Hr; lia]. }
  apply wp_bind. eapply wp_mono; [by apply single_value_spec|]. intros v l1 [H1' Hv].
  assert (Hi' : forallb parsed_value (items ++ [v]) = true) by (rewrite forallb_app; simpl; by rewrite Hi, Hv).
  apply wp_bind, wp_peek. destruct (here l1) eqn:Hh; try apply wp_bad_list.
  - apply wp_bind, wp_advance; [apply H1'|by rewrite Hh|]. intros l2 H2'. split; [after|].
    split; [by destruct items|done].
  - apply wp_bind, wp_advance; [apply H1'|by rewrite Hh|]. intros l2 H2'.
    eapply wp_mono; [apply IH; [apply H2'| |done]|].
    { destruct H1' as (_ & ? & _), H2' as (_ & ? & _). lia. }
    intros x l3 (? & ? & ?). split; [after|done].
Qed.

Lemma parse_in_list_spec l :
  live l -> wp parse_in_list l (fun v l' => after_some l l' /\ value_fits Cmp.In v = true).
Proof.
  intros Hl. apply wp_bind, wp_peek. destruct (here l) eqn:Hh; try apply wp_bad_list.
  apply wp_bind, wp_advance; [done|by rewrite Hh|]. intros l1 H1'. apply wp_bind, wp_peek.
  assert (Hw : wp (p_bind (fun items => p_ret (VList items)) (with_rounds (fun n => in_list_loop n []))) l1
    (fun v l' => after_some l l' /\ value_fits Cmp.In v = true)).
  { apply wp_bind. unfold with_rounds. eapply wp_mono; [apply in_list_spec; [apply H1'|lia|done]|].
    intros items l2 (? & Hne & Hall). split; [after|]. simpl. rewrite Hall. by destruct items. }
  destruct (here l1); try exact Hw. apply wp_bad_list.
Qed.

Lemma parse_predicate_spec l :
  live l -> wp parse_predicate l (fun p l' => after_some l l' /\ predicate_fits n p = true).
Proof.
  intros Hl. apply wp_bind. change (wp peek_span l ?post) with (post (match l with t :: _ => span t | [] => mkSpan 0 0 end) l).
  apply wp_bind. eapply wp_mono; [by apply parse_lhs_spec|]. intros x l1 [H1' Hx].
  apply wp_bind. eapply wp_mono; [apply parse_comparator_spec; apply H1'|]. intros c l2 H2'.
  apply wp_bind. eapply wp_mono with (p := fun v l' => after_any l2 l' /\ value_fits c v = true).
  { assert (Hs : wp (p_bind (fun v => p_ret (Single v)) parse_single_value) l2
              (fun v l' => after_any l2 l' /\ exists w, v = Single w /\ parsed_value w = true)).
    { apply wp_bind. eapply wp_mono; [apply single_value_spec; apply H2'|]. intros v l3 [? ?].
      split; [after|]. by exists v. }
    destruct c; try (eapply wp_mono; [exact Hs|]; intros v l3 (? & w & -> & ?); by split).
    - eapply wp_mono; [apply parse_in_list_spec; apply H2'|]. intros v l3 [? ?]. split; [after|done].
    - split; [after|done].
    - split; [after|done]. }
  intros v l3 [H3' Hv]. simpl.
  assert (Ha : after_some l l3) by after. split; [done|].
  unfold predicate_fits. simpl. rewrite Hx, Hv. simpl. destruct Ha as ([Hwf _] & _ & Hlt).
  destruct l as [|t r]; [by destruct Hl|]. destruct l3 as [|t3 r3]; [done|]. simpl in *.
  assert (span_start (span t3) <= n)%nat.
  { clear -Hwf. revert t3 Hwf. induction r3 as [|t4 r3 IH]; intros t3 Hwf; [by destruct Hwf|].
    destruct Hwf as (_ & ? & Hr). specialize (IH _ Hr). simpl in *. lia. }
  apply andb_true_iff. split; [apply Nat.ltb_lt; lia|by apply Nat.leb_le].
Qed.

(** What a parser of filters does at [l]. *)
Definition reads_filter (m : P FilterExpr) (l : list SpannedToken) : Prop :=
  wp m l (fun e l' => after_some l l' /\ filter_wf n e = true).

Lemma is_op_here op t : is_op op t = true -> t <> Eof.
Proof. by destruct op, t. Qed.

Lemma more_operands_spec rounds op (operand : P FilterExpr) cs l :
  live l -> (length l <= rounds)%nat ->
  (forall l', after_any l l' -> reads_filter operand l') ->
  forallb (filter_wf n) cs = true ->
  wp (more_operands rounds op operand cs) l (fun cs' l' =>
    after_any l l' /\ forallb (filter_wf n) cs' = true /\
    (length cs + (if is_op op (here l) then 1 else 0) <= length cs')%nat).
Proof.
  revert cs l. induction rounds as [|k IH]; intros cs l Hl Hr Hop Hcs; simpl; apply wp_bind, wp_peek;
    (destruct (is_op op (here l)) eqn:Ho; [|split_and!; [after|done|simpl; lia]]).
  { destruct l; [by destruct Hl|simpl in Hr; lia]. }
  apply wp_bind, wp_advance; [done|by eapply is_op_here|]. intros l1 H1'.
  apply wp_bind. eapply wp_mono; [apply Hop; after|]. intros e l2 [H2' He].
  eapply wp_mono; [apply IH|].
  - apply H2'.
  - after.
  - intros l' Ha. apply Hop. after.
  - rewrite forallb_app. simpl. by rewrite Hcs, He.
  - intros cs' l3 (? & ? & Hlen). split_and!; [after|done|].
    rewrite length_app in Hlen. simpl in Hlen. lia.
Qed.

Lemma parse_operands_spec op (operand : P FilterExpr) l :
  live l -> (forall l', after_any l l' -> reads_filter operand l') ->
  reads_filter (parse_operands op operand) l.
Proof.
  intros Hl Hop. apply wp_bind. eapply wp_mono; [apply Hop; after|]. intros e l1 [H1' He].
  apply wp_bind, wp_peek. destruct (is_op op (here l1)) eqn:Ho; [|by split].
  apply wp_bind. unfold with_rounds. eapply wp_mono; [apply more_operands_spec|].
  - apply H1'.
  - lia.
  - intros l' Ha. apply Hop. after.
  - simpl. by rewrite He.
  - intros cs l2 (? & Hall & Hlen). rewrite Ho in Hlen. simpl in Hlen. split; [after|].
    simpl. rewrite Hall, andb_true_r. apply Nat.ltb_lt. lia.
Qed.

Lemma parse_atom_spec depth l :
  live l -> (length l <= depth)%nat -> reads_filter (parse_atom depth) l.
Proof.
  revert l. induction depth as [|d IH]; intros l Hl Hd.
  { destruct l; [by destruct Hl|simpl in Hd; lia]. }
  assert (Hp : reads_filter (p_bind (fun p => p_ret (Predicate p)) parse_predicate) l).
  { apply wp_bind. eapply wp_mono; [by apply parse_predicate_spec|]. intros p l1 [? ?]. by split. }
  apply wp_bind, wp_peek. destruct (here l) eqn:Hh; try exact Hp.
  apply wp_bind, wp_advance; [done|by rewrite Hh|]. intros l1 H1'.
  assert (Hin : reads_filter (parse_operands Or (parse_operands And (parse_atom d))) l1).
  { apply parse_operands_spec; [apply H1'|]. intros l2 H2'. apply parse_operands_spec; [apply H2'|].
    intros l3 H3'. apply IH; after. }
  apply wp_bind. eapply wp_mono; [exact Hin|]. intros e l2 [H2' He].
  apply wp_bind, wp_peek. destruct (here l2) eqn:Hh2; try apply wp_unexpected.
  apply wp_bind, wp_advance; [apply H2'|by rewrite Hh2|]. intros l3 H3'. split; [after|done].
Qed.

Lemma parse_or_spec depth l :
  live l -> (length l <= depth)%nat -> reads_filter (parse_or depth) l.
Proof.
  intros Hl Hd. apply parse_operands_spec; [done|]. intros l1 H1'.
  apply parse_operands_spec; [apply H1'|]. intros l2 H2'. apply parse_atom_spec; after.
Qed.

Lemma parse_expr_spec depth l :
  live l -> (length l <= depth)%nat ->
  wp (parse_expr depth) l (fun e _ => filter_wf n e = true).
Proof.
  intros Hl Hd. apply wp_bind, wp_peek.
  assert (Hp : wp (p_bind (fun e => p_bind (fun t => match t with Eof => p_ret e | _ => unexpected end) peek)
                     (parse_or depth)) l (fun e _ => filter_wf n e = true)).
  { apply wp_bind. eapply wp_mono; [by apply parse_or_spec|]. intros e l1 [H1' He].
    apply wp_bind, wp_peek. destruct (here l1); try apply wp_unexpected. done. }
  destruct (here l); try exact Hp. apply wp_err.
Qed.

End Parser.

(** The parser answers every text with a filter or an error, and a filter it
    returns is well formed: AND and OR have at least two operands, a path has two
    to five segments, each comparator has the value that goes with it, integers
    are in range, and the span of a predicate is not empty and lies in the text. *)
Theorem filter_parse_answers `{CharLib} `{ValueLib} `{!FloatParse} input :
  exists r, parse input = Some r /\ forall e, r = Ok e -> filter_wf (length input) e = true.
Proof.
  unfold parse, tokenize.
  destruct (tokenize_loop_spec (S (length input)) (mkScanner input 0)) as (r & -> & Hspec);
    [simpl; lia|]. simpl. destruct r as [ts|e]; [|by exists (Err e)].
  destruct Hspec as (Hwf & Hfit & _). simpl in Hwf. rewrite Nat.add_0_r in Hwf.
  pose proof (parse_expr_spec (length input) (length ts) ts (conj Hwf Hfit) (Nat.le_refl _)) as Hp.
  unfold wp in Hp. destruct (parse_expr (length ts) ts) as [[[e l']|e]|]; [..|done].
  - exists (Ok e). split; [done|]. by intros e' [= <-].
  - by exists (Err e).
Qed.
