(* ===== verification/FilterRoundtrip.v ===== *)
(** * Filters written out are read back (crates/dbflux_core: query/relational_filter/parser.rs)

    A filter is written with a space before every token, and with parentheses
    only where the precedence of AND over OR asks for them. *)

From S2P Require Import Prelude RustStr RustChar SqlLexer SqlDialect VisualQuery FilterParser FilterParserProps.
Import FilterParser.

(** ** Writing *)

Section Print.
Context `{ValueLib}.

Definition comparator_text (c : Cmp.Comparator) : list char :=
  match c with
  | Cmp.Eq => text "=" | Cmp.Neq => text "<>" | Cmp.Gt => text ">" | Cmp.Lt => text "<"
  | Cmp.Gte => text ">=" | Cmp.Lte => text "<=" | Cmp.Like => text "LIKE" | Cmp.ILike => text "ILIKE"
  | Cmp.In => text "IN" | Cmp.IsNull => text "IS NULL" | Cmp.IsNotNull => text "IS NOT NULL"
  end.

(** A float with a point: what [to_string] writes, and [.0] behind a whole number. *)
Definition float_text (f : f64) : list char :=
  let s := f64_to_string f in
  if existsb (fun c => c =? ch ".")%N s then s else s ++ text ".0".

(** Digits, a point and digits. *)
Definition unsigned_point_text (l : list char) : bool :=
  negb (bool_decide (take_while is_digit l = [])) &&
  match drop_while is_digit l with
  | p :: fs => (p =? ch ".")%N && negb (bool_decide (fs = [])) && forallb is_digit fs
  | [] => false
  end.
Definition point_text (l : list char) : bool :=
  match l with
  | c :: l' => if (c =? ch "-")%N then unsigned_point_text l' else unsigned_point_text l
  | [] => false
  end.

Definition finite (f : f64) : bool := negb (f64_is_nan f) && negb (f64_is_infinite f).

Definition token_text (t : Token) : list char :=
  match t with
  | Ident s => s
  | Dot => text "."
  | Str s => quoted_literal s
  | Int i => integer_text i
  | Float f => float_text f
  | TBool b => if b then text "TRUE" else text "FALSE"
  | Null => text "NULL"
  | Compare c => comparator_text c
  | Bool_op And => text "AND"
  | Bool_op Or => text "OR"
  | LParen => text "("
  | RParen => text ")"
  | Comma => text ","
  | Eof => []
  end.

Definition print_tokens (l : list Token) : list char :=
  concat (map (fun t => ch " " :: token_text t) l).

(** A name that is no keyword. *)
Definition plain_name (s : list char) : bool :=
  match s with
  | [] => false
  | c :: w =>
      let upper := map to_ascii_uppercase s in
      (is_letter c || (c =? ch "_")%N) && forallb is_word_byte w &&
      match keyword_token KEYWORDS upper with None => true | Some _ => false end &&
      negb (bool_decide (upper = text "IS"))
  end.

Definition ascii_text (s : list char) : bool := forallb (fun c => c <? 128)%N s.

Definition plain_token (t : Token) : bool :=
  match t with
  | Ident s => plain_name s
  | Str s => ascii_text s
  | Int i => (i64_min <=? i) && (i <=? i64_max)
  | Float f => finite f
  | Eof => false
  | _ => true
  end.

Definition value_token (v : LiteralValue) : Token :=
  match v with
  | LText s => Str s
  | LInteger i => Int i
  | LBool b => TBool b
  | LNull => Null
  | LFloat f => Float f
  | LTimestamp _ => Eof
  end.

(** The lists with [sep] between them. *)
Fixpoint join_tokens (sep : Token) (l : list (list Token)) : list Token :=
  match l with
  | [] => []
  | [x] => x
  | x :: l' => x ++ sep :: join_tokens sep l'
  end.

Definition lhs_tokens (x : Lhs) : list Token :=
  match x with
  | BareColumn c => [Ident c]
  | DottedPath l => join_tokens Dot (map (fun s => [Ident s]) l)
  end.

Definition rhs_tokens (v : PredicateValue) : list Token :=
  match v with
  | NoValue => []
  | Single v => [value_token v]
  | VList l => LParen :: join_tokens Comma (map (fun v => [value_token v]) l) ++ [RParen]
  end.

Definition predicate_tokens (p : ParsedPredicate) : list Token :=
  lhs_tokens (p_lhs p) ++ Compare (p_comparator p) :: rhs_tokens (p_rhs p).

(** How tightly the operands of an operator bind: [parse_and] reads the operands
    of OR, [parse_atom] those of AND. *)
Definition operand_level (op : BoolOp) : nat := match op with Or => 1 | And => 2 end.

(** A filter where an expression of [level] is expected. *)
Fixpoint tokens_of (level : nat) (e : FilterExpr) : list Token :=
  match e with
  | Predicate p => predicate_tokens p
  | Bool op children =>
      let inner := join_tokens (Bool_op op) (map (tokens_of (operand_level op)) children) in
      if Nat.ltb level (operand_level op) then inner else LParen :: inner ++ [RParen]
  end.

Definition print_filter (e : FilterExpr) : list char := print_tokens (tokens_of 0 e).

(** ** Filters that can be written *)

Definition plain_value (v : LiteralValue) : bool := plain_token (value_token v).

Definition plain_predicate (p : ParsedPredicate) : bool :=
  lhs_fits (p_lhs p) && value_fits (p_comparator p) (p_rhs p) &&
  forallb plain_token (predicate_tokens p).

Fixpoint plain_filter (e : FilterExpr) : bool :=
  match e with
  | Predicate p => plain_predicate p
  | Bool _ children => Nat.ltb 1 (length children) && forallb plain_filter children
  end.

(** A filter without the places of its predicates. *)
Fixpoint erase (e : FilterExpr) : FilterExpr :=
  match e with
  | Predicate p => Predicate (mkPredicate (p_lhs p) (mkSpan 0 0) (p_comparator p) (p_rhs p))
  | Bool op children => Bool op (map erase children)
  end.

End Print.

(** A finite [f64] is displayed without an exponent, in digits that [from_str]
    reads back as the same number. *)
Class FloatText `{ValueLib} `{!FloatParse} := {
  float_point f : finite f = true -> point_text (float_text f) = true;
  float_parses f : finite f = true -> f64_parse (float_text f) = Some f;
}.

(** ** Tokens are read back *)

Section Tokens.
Context `{CharLaws} `{ValueLib} `{!FloatParse} `{!FloatText}.

(** What follows a token: the end, or the space before the next one. *)
Definition spaced (l : list char) : Prop :=
  match l with [] => True | c :: _ => c = ch " " end.

Lemma spaced_take p w more :
  forallb p w = true -> p (ch " ") = false -> spaced more -> take_while p (w ++ more) = w.
Proof.
  intros Hw Hp Hs. induction w as [|c w IH]; simpl in *.
  - destruct more as [|d more]; [done|]. simpl in *. by rewrite Hs, Hp.
  - apply andb_true_iff in Hw as [-> Hw]. by rewrite IH.
Qed.

Lemma spaced_drop p w more :
  forallb p w = true -> p (ch " ") = false -> spaced more -> drop_while p (w ++ more) = more.
Proof.
  intros Hw Hp Hs. induction w as [|c w IH]; simpl in *.
  - destruct more as [|d more]; [done|]. simpl in *. by rewrite Hs, Hp.
  - apply andb_true_iff in Hw as [-> Hw]. by rewrite IH.
Qed.

Lemma advance_while_word p w more k :
  forallb p w = true -> p (ch " ") = false -> spaced more ->
  advance_while p (mkScanner (w ++ more) k) = mkScanner more (k + length w).
Proof. intros. unfold advance_while. simpl. by rewrite spaced_take, spaced_drop. Qed.

(** The token is read from the text after a space. *)
Definition reads_token (t : Token) (l more : list char) : Prop :=
  forall k, exists sp k', next_token (mkScanner (ch " " :: l) k) = Ok (mkSpanned t sp, mkScanner more k').

Lemma after_keyword_app k more : after_keyword k (k ++ more) = Some more.
Proof.
  induction k as [|c k IH]; simpl; [done|]. unfold char_eq_ignore_case. by rewrite N.eqb_refl.
Qed.

(** The scanner at a byte that is no space, after one. *)
Lemma skip_one_space c l k :
  is_blank_byte c = false ->
  skip_whitespace (mkScanner (ch " " :: c :: l) k) = mkScanner (c :: l) (k + 1).
Proof. intros Hc. unfold skip_whitespace, advance_while. simpl. by rewrite Hc. Qed.

Lemma word_start c :
  is_letter c || (c =? ch "_")%N = true ->
  (c <? 128)%N = true /\ is_blank_byte c = false /\ (forall s, scan_operator c s = None) /\
  is_digit c = false /\ (c =? ch "'")%N || (c =? 34)%N = false /\ (c =? ch "-")%N = false /\
  is_alphabetic c || (c =? ch "_")%N = true.
Proof.
  intros Hp. assert (Hc : (c < 128)%N).
  { revert Hp. unfold is_letter, is_upper, is_lower. change (ch "_") with 95%N.
    rewrite !orb_true_iff, !andb_true_iff, !N.leb_le, N.eqb_eq. lia. }
  rewrite alphabetic_ascii by done. revert Hp.
  pattern c. apply ascii_ind; [|done]. clear c Hc.
  repeat (apply Forall_cons_2; [vm_compute; by intros|]). apply Forall_nil_2.
Qed.

Lemma next_word c w more k :
  is_letter c || (c =? ch "_")%N = true -> forallb is_word_byte w = true -> spaced more ->
  next_token (mkScanner (ch " " :: c :: w ++ more) k) =
  let r := scan_identifier c (mkScanner (w ++ more) (S (k + 1))) in
  Ok (mkSpanned r.1 (mkSpan (k + 1) (pos r.2)), r.2).
Proof.
  intros Hc Hw Hs. destruct (word_start c Hc) as (_ & Hb & Ho & Hd & Hq & Hm & Ha).
  unfold next_token. rewrite (skip_one_space _ _ _ Hb). cbn [rest pos]. by rewrite Ho, Hq, Hm, Hd, Ha.
Qed.

Lemma scan_filter_word c w more k :
  is_letter c || (c =? ch "_")%N = true -> forallb is_word_byte w = true -> spaced more ->
  scan_identifier c (mkScanner (w ++ more) k) =
  match keyword_token KEYWORDS (map to_ascii_uppercase (c :: w)) with
  | Some t => (t, mkScanner more (k + length w))
  | None =>
      if bool_decide (map to_ascii_uppercase (c :: w) = text "IS")
      then scan_is (mkScanner more (k + length w))
      else (Ident (c :: w), mkScanner more (k + length w))
  end.
Proof.
  intros Hc Hw Hs. destruct (word_start c Hc) as (Hlt & _). unfold scan_identifier. cbn [rest].
  rewrite spaced_take, advance_while_word by done. unfold lossy_word. by rewrite Hlt.
Qed.

Lemma name_reads s more :
  plain_name s = true -> spaced more -> reads_token (Ident s) (s ++ more) more.
Proof.
  intros Hn Hs k. destruct s as [|c w]; [done|]. unfold plain_name in Hn.
  rewrite !andb_true_iff in Hn. destruct Hn as (((Hc & Hw) & Hk) & Hi).
  simpl app. rewrite next_word, scan_filter_word by done.
  destruct keyword_token; [done|]. apply negb_true_iff in Hi. rewrite Hi. simpl. by eexists _, _.
Qed.

(** A keyword of one word. *)
Lemma keyword_reads c w t more :
  is_letter c || (c =? ch "_")%N = true -> forallb is_word_byte w = true ->
  keyword_token KEYWORDS (map to_ascii_uppercase (c :: w)) = Some t -> spaced more ->
  reads_token t ((c :: w) ++ more) more.
Proof.
  intros Hc Hw Hk Hs k. simpl app. rewrite next_word, scan_filter_word by done. rewrite Hk. simpl. by eexists _, _.
Qed.

Lemma try_keyword_app kw more k :
  spaced more -> try_keyword_ci kw (mkScanner (kw ++ more) k) = Some (mkScanner more (k + length kw)).
Proof.
  intros Hs. unfold try_keyword_ci. cbn [rest pos]. rewrite after_keyword_app.
  destruct more as [|b more]; [done|]. simpl in Hs. by subst.
Qed.

Lemma is_null_reads more : spaced more -> reads_token (Compare Cmp.IsNull) (text "IS NULL" ++ more) more.
Proof.
  intros Hs k. change (text "IS NULL" ++ more) with (ch "I" :: [ch "S"] ++ (ch " " :: text "NULL" ++ more)).
  rewrite next_word, scan_filter_word by done. cbn -[scan_is text].
  unfold scan_is. change (text "NULL" ++ more) with (ch "N" :: text "ULL" ++ more).
  rewrite skip_one_space by done.
  change (try_keyword_ci (text "NOT") (mkScanner (ch "N" :: text "ULL" ++ more) ?p)) with (@None Scanner).
  change (ch "N" :: text "ULL" ++ more) with (text "NULL" ++ more).
  rewrite try_keyword_app by done. simpl. by eexists _, _.
Qed.

Lemma is_not_null_reads more :
  spaced more -> reads_token (Compare Cmp.IsNotNull) (text "IS NOT NULL" ++ more) more.
Proof.
  intros Hs k.
  change (text "IS NOT NULL" ++ more)
    with (ch "I" :: [ch "S"] ++ (ch " " :: text "NOT" ++ (ch " " :: text "NULL" ++ more))).
  rewrite next_word, scan_filter_word by done. cbn -[scan_is text].
  unfold scan_is. change (ch " " :: text "NOT" ++ ?x) with (ch " " :: ch "N" :: text "OT" ++ x).
  rewrite skip_one_space by done. change (ch "N" :: text "OT" ++ ?x) with (text "NOT" ++ x).
  rewrite try_keyword_app by done. change (ch " " :: text "NULL" ++ more) with (ch " " :: ch "N" :: text "ULL" ++ more).
  rewrite skip_one_space by done. change (ch "N" :: text "ULL" ++ more) with (text "NULL" ++ more).
  rewrite try_keyword_app by done. simpl. by eexists _, _.
Qed.

Lemma operator_reads c w t more :
  is_blank_byte c = false ->
  (forall k, exists k', scan_operator c (mkScanner (w ++ more) k) = Some (t, mkScanner more k')) ->
  reads_token t ((c :: w) ++ more) more.
Proof.
  intros Hb Ho k. unfold next_token. simpl app. rewrite (skip_one_space _ _ _ Hb). cbn [rest pos].
  destruct (Ho (S (k + 1))) as [k' Hk]. rewrite Hk. simpl. by eexists _, _.
Qed.

Lemma scan_string_double q s more p v :
  spaced more -> q <> ch " " ->
  exists p', scan_string q (double_char q s ++ q :: more) p v = Ok (v ++ s, mkScanner more p').
Proof.
  intros Hs Hq. revert p v. induction s as [|c s IH]; intros p v; simpl.
  - rewrite N.eqb_refl, app_nil_r. destruct more as [|d more]; [by eexists|].
    simpl in Hs. subst. destruct (N.eqb_spec (ch " ") q); [congruence|]. by eexists.
  - destruct (N.eqb_spec c q) as [->|Hne]; simpl.
    + rewrite N.eqb_refl. simpl. destruct (IH (p + 2)%nat (v ++ [q])) as [p' Hp].
      rewrite <- app_assoc in Hp. exists p'. exact Hp.
    + destruct (N.eqb_spec c q); [done|]. destruct (IH (S p) (v ++ [c])) as [p' Hp].
      rewrite <- app_assoc in Hp. exists p'. exact Hp.
Qed.

Lemma string_reads s more : spaced more -> reads_token (Str s) (quoted_literal s ++ more) more.
Proof.
  intros Hs k. unfold quoted_literal. simpl app. unfold next_token.
  rewrite skip_one_space by done. cbn [rest pos].
  change (scan_operator (ch "'") ?x) with (@None (Token * Scanner)). cbv beta iota zeta.
  change ((ch "'" =? ch "'")%N || (ch "'" =? 34)%N) with true. cbv iota.
  rewrite <- app_assoc. unfold escape_string.
  destruct (scan_string_double (ch "'") s more (S (k + 1)) [] Hs) as [p' Hp]; [done|].
  simpl app in *. rewrite Hp. simpl. by eexists _, _.
Qed.

(** ** Numbers *)

Lemma scan_digits b ds i more k :
  forallb is_digit ds = true -> spaced more ->
  (if (b =? ch "-")%N then - digits_value ds else digits_value (b :: ds)) = i ->
  (i64_min <=? i) && (i <=? i64_max) = true ->
  scan_number b (mkScanner (ds ++ more) k) = Ok (Int i, mkScanner more (k + length ds)).
Proof.
  intros Hds Hs Hv Hi. unfold scan_number. cbn [rest].
  rewrite spaced_take, advance_while_word by done. cbn [rest].
  assert (Hint : integer_token b ds (mkScanner more (k + length ds)) =
                 Ok (Int i, mkScanner more (k + length ds))).
  { unfold integer_token. by rewrite Hv, Hi. }
  destruct more as [|c [|d more]]; [done..|]. simpl in Hs. by subst.
Qed.

Lemma digits_until (ds l : list N) (c : N) :
  forallb is_digit ds = true -> is_digit c = false ->
  take_while is_digit (ds ++ c :: l) = ds /\ drop_while is_digit (ds ++ c :: l) = c :: l.
Proof.
  intros Hds Hc. induction ds as [|d ds IH]; simpl in *; [by rewrite Hc|].
  apply andb_true_iff in Hds as [-> Hds]. by destruct (IH Hds) as [-> ->].
Qed.

Lemma scan_float b ds fs f more k :
  forallb is_digit ds = true -> fs <> [] -> forallb is_digit fs = true -> spaced more ->
  f64_parse (b :: ds ++ ch "." :: fs) = Some f ->
  exists k', scan_number b (mkScanner (ds ++ ch "." :: fs ++ more) k) = Ok (Float f, mkScanner more k').
Proof.
  intros Hds Hne Hfs Hs Hf. unfold scan_number, advance_while. cbn [rest pos].
  destruct (digits_until ds (fs ++ more) (ch ".") Hds eq_refl) as [Ht Hr].
  unfold char in *. rewrite Ht, Hr. clear Ht Hr.
  destruct fs as [|d fs]; [done|]. cbn [app rest].
  assert (is_digit d = true) as -> by (simpl in Hfs; by apply andb_true_iff in Hfs as [? _]).
  change (d :: fs ++ more) with ((d :: fs) ++ more).
  rewrite spaced_take, spaced_drop by done. rewrite N.eqb_refl. cbn [andb].
  change (b :: ds ++ ch "." :: d :: fs) with (b :: ds ++ ch "." :: (d :: fs)) in Hf.
  match goal with |- context [f64_parse ?x] =>
    replace (f64_parse x) with (Some f) by (symmetry; exact Hf) end. by eexists.
Qed.

(** The parts of a number with a point. *)
Lemma unsigned_point_parts l :
  unsigned_point_text l = true ->
  exists d ds fs, l = d :: ds ++ ch "." :: fs /\ is_digit d = true /\ forallb is_digit ds = true /\
    fs <> [] /\ forallb is_digit fs = true.
Proof.
  unfold unsigned_point_text. rewrite andb_true_iff, negb_true_iff, bool_decide_eq_false.
  intros [Hne Hl]. assert (Hsplit : l = take_while is_digit l ++ drop_while is_digit l /\
    forallb is_digit (take_while is_digit l) = true).
  { clear. induction l as [|c l [IH1 IH2]]; simpl; [done|]. destruct (is_digit c) eqn:Hc; [|done].
    simpl. by rewrite Hc, <- IH1. }
  destruct Hsplit as [Hsplit Hd]. destruct (take_while is_digit l) as [|d ds]; [done|].
  destruct (drop_while is_digit l) as [|p fs]; [done|].
  rewrite !andb_true_iff, negb_true_iff, bool_decide_eq_false, N.eqb_eq in Hl. destruct Hl as [[-> Hfs] Hf].
  simpl in Hd. apply andb_true_iff in Hd as [Hd Hds]. by exists d, ds, fs.
Qed.

Lemma digit_start d :
  is_digit d = true ->
  is_blank_byte d = false /\ (forall s, scan_operator d s = None) /\
  (d =? ch "'")%N || (d =? 34)%N = false /\ (d =? ch "-")%N = false.
Proof.
  intros Hd. assert (Hlt : (d < 128)%N).
  { unfold is_digit in Hd. rewrite andb_true_iff, !N.leb_le in Hd. lia. }
  revert Hd. pattern d. apply ascii_ind; [|done].
  repeat (apply Forall_cons_2; [vm_compute; by intros|]). apply Forall_nil_2.
Qed.

Lemma float_reads f more : finite f = true -> spaced more -> reads_token (Float f) (float_text f ++ more) more.
Proof.
  intros Hf Hs k. pose proof (float_point f Hf) as Hp. pose proof (float_parses f Hf) as Hv.
  unfold point_text in Hp. destruct (float_text f) as [|c l]; [done|]. destruct (N.eqb_spec c (ch "-")) as [->|Hc].
  - apply unsigned_point_parts in Hp as (d & ds & fs & -> & Hd & Hds & Hne & Hfs).
    unfold next_token. simpl app. rewrite skip_one_space by done. cbn [rest pos].
    change (scan_operator (ch "-") ?x) with (@None (Token * Scanner)). cbv beta iota zeta.
    change ((ch "-" =? ch "'")%N || (ch "-" =? 34)%N) with false.
    change ((ch "-" =? ch "-")%N) with true. cbv iota. rewrite Hd.
    destruct (scan_float (ch "-") (d :: ds) fs f more (S (k + 1))) as [k' Hk]; [simpl; by rewrite Hd|done..|].
    rewrite <- app_assoc. simpl app in *. rewrite Hk. simpl. by eexists _, _.
  - apply unsigned_point_parts in Hp as (d & ds & fs & [= -> ->] & Hd & Hds & Hne & Hfs).
    destruct (digit_start d Hd) as (Hb & Ho & Hq & Hm).
    unfold next_token. simpl app. rewrite skip_one_space by done. cbn [rest pos].
    rewrite Ho, Hq, Hm, Hd.
    destruct (scan_float d ds fs f more (S (k + 1))) as [k' Hk]; [done..|].
    rewrite <- app_assoc. simpl app in *. rewrite Hk. simpl. by eexists _, _.
Qed.

Lemma integer_reads i more :
  (i64_min <=? i) && (i <=? i64_max) = true -> spaced more ->
  reads_token (Int i) (integer_text i ++ more) more.
Proof.
  intros Hi Hs k. unfold integer_text. destruct (Z.ltb_spec i 0) as [Hneg|Hpos].
  - destruct (decimal_spec (Z.to_N (- i))) as (d & ds & -> & Hd & Hds & Hv).
    unfold next_token. simpl app. rewrite skip_one_space by done. cbn [rest pos].
    change (scan_operator (ch "-") ?x) with (@None (Token * Scanner)). cbv beta iota zeta.
    change ((ch "-" =? ch "'")%N || (ch "-" =? 34)%N) with false.
    change ((ch "-" =? ch "-")%N) with true. cbv iota. rewrite Hd.
    change (d :: ds ++ more) with ((d :: ds) ++ more).
    erewrite (scan_digits (ch "-") (d :: ds) i); [|simpl; by rewrite Hd|done| |done].
    + simpl. by eexists _, _.
    + change ((ch "-" =? ch "-")%N) with true. cbv iota. rewrite Hv. lia.
  - destruct (decimal_spec (Z.to_N i)) as (d & ds & -> & Hd & Hds & Hv).
    destruct (digit_start d Hd) as (Hb & Ho & Hq & Hm).
    unfold next_token. simpl app. rewrite skip_one_space by done. cbn [rest pos].
    rewrite Ho, Hq, Hm, Hd. erewrite (scan_digits d ds i); [|done|done| |done].
    + simpl. by eexists _, _.
    + rewrite Hm. etransitivity; [exact Hv|lia].
Qed.

(** Every token is read back from its text. *)
Lemma token_reads t more : plain_token t = true -> spaced more -> reads_token t (token_text t ++ more) more.
Proof.
  intros Ht Hs. destruct t as [s| |s|i|f|b| |c|op| | | |]; try done.
  - by apply name_reads.
  - apply operator_reads; [done|]. intros k. by eexists.
  - by apply string_reads.
  - by apply integer_reads.
  - by apply float_reads.
  - by destruct b; apply keyword_reads.
  - by apply keyword_reads.
  - destruct c; simpl token_text;
      try (by apply is_null_reads); try (by apply is_not_null_reads); try (by apply keyword_reads);
      (apply operator_reads; [done|]; intros k; destruct more as [|d more];
       [by eexists|simpl in Hs; subst; by eexists]).
  - by destruct op; apply keyword_reads.
  - apply operator_reads; [done|]. intros k. by eexists.
  - apply operator_reads; [done|]. intros k. by eexists.
  - apply operator_reads; [done|]. intros k. by eexists.
Qed.

Lemma print_spaced l : spaced (print_tokens l).
Proof. by destruct l. Qed.

(** A list of tokens is read back. *)
Lemma tokenize_loop_print l rounds k :
  forallb plain_token l = true -> (length l < rounds)%nat ->
  exists ts, tokenize_loop rounds (mkScanner (print_tokens l) k) = Some (Ok ts) /\
    map token ts = l ++ [Eof].
Proof.
  revert rounds k. induction l as [|t l IH]; intros rounds k Hl Hr;
    (destruct rounds as [|rounds]; [simpl in Hr; lia|]).
  - by eexists.
  - simpl in Hl. apply andb_true_iff in Hl as [Ht Hl].
    destruct (token_reads t (print_tokens l) Ht (print_spaced l) k) as (sp & k' & Hn).
    change (print_tokens (t :: l)) with (ch " " :: token_text t ++ print_tokens l).
    simpl tokenize_loop. rewrite Hn. cbn [token].
    destruct (IH rounds k' Hl) as (ts & Hts & Hm); [simpl in Hr; lia|].
    exists (mkSpanned t sp :: ts). rewrite Hts. split; [by destruct t|].
    simpl. by rewrite Hm.
Qed.

Lemma tokenize_print l :
  forallb plain_token l = true ->
  exists ts, tokenize (print_tokens l) = Some (Ok ts) /\ map token ts = l ++ [Eof].
Proof.
  intros Hl. apply tokenize_loop_print; [done|].
  assert (length l <= length (print_tokens l))%nat; [|unfold char in *; lia].
  clear Hl. induction l as [|t l IH]; [done|].
  change (print_tokens (t :: l)) with ((ch " " :: token_text t) ++ print_tokens l).
  rewrite length_app. simpl. unfold char in *. lia.
Qed.

End Tokens.

(** ** Filters are read back *)

Section Filters.
Context `{CharLib} `{ValueLib} `{!FloatParse}.

(** [m] reads the tokens [ts] as [x], up to [same], before any token that
    [stuck] does not hold of. *)
Definition parses {A} (m : P A) (same : A -> A -> Prop) (ts : list Token) (x : A)
    (stuck : Token -> bool) : Prop :=
  forall l r, map token l = ts -> r <> [] -> stuck (here r) = false ->
  exists y, m (l ++ r) = Some (Ok (y, r)) /\ same y x.

Definition free (_ : Token) : bool := false.
Definition same_filter (a b : FilterExpr) : Prop := erase a = erase b.

Lemma bind_Ok {A B} (m : P A) (f : A -> P B) l x l' :
  m l = Some (Ok (x, l')) -> p_bind f m l = f x l'.
Proof. unfold p_bind. by intros ->. Qed.

Lemma peek_at t l : peek (t :: l) = Some (Ok (token t, t :: l)).
Proof. done. Qed.

Lemma peek_here l : peek l = Some (Ok (here l, l)).
Proof. done. Qed.

Lemma advance_at t l : l <> [] -> advance (t :: l) = Some (Ok (tt, l)).
Proof. by destruct l. Qed.

Lemma app_ne {A} (l r : list A) : r <> [] -> l ++ r <> [].
Proof. intros Hr [_ ?]%app_eq_nil. done. Qed.

Hint Resolve app_ne : core.

(** One token, read by looking at it. *)
Lemma ident_parses s : parses expect_ident eq [Ident s] s free.
Proof.
  intros l r Hl Hr _. destruct l as [|t [|]]; simplify_eq/=. destruct t as [k sp]. simpl in *. subst.
  unfold expect_ident. rewrite (bind_Ok _ _ _ _ _ (peek_at _ _)). simpl.
  rewrite (bind_Ok _ _ _ _ _ (advance_at _ _ Hr)). by eexists.
Qed.

Lemma comparator_parses c : parses parse_comparator eq [Compare c] c free.
Proof.
  intros l r Hl Hr _. destruct l as [|t [|]]; simplify_eq/=. destruct t as [k sp]. simpl in *. subst.
  unfold parse_comparator. rewrite (bind_Ok _ _ _ _ _ (peek_at _ _)). simpl.
  rewrite (bind_Ok _ _ _ _ _ (advance_at _ _ Hr)). by eexists.
Qed.

Lemma value_parses v : plain_value v = true -> parses parse_single_value eq [value_token v] v free.
Proof.
  intros Hv l r Hl Hr _. destruct l as [|t [|]]; simplify_eq/=. destruct t as [k sp]. simpl in *. subst.
  unfold parse_single_value. rewrite (bind_Ok _ _ _ _ _ (peek_at _ _)). simpl.
  assert (Hk : literal_of (value_token v) = Some v) by (by destruct v). rewrite Hk.
  rewrite (bind_Ok _ _ _ _ _ (advance_at _ _ Hr)). by eexists.
Qed.

Lemma join_tokens_cons sep x xs : join_tokens sep (x :: xs) = x ++ concat (map (cons sep) xs).
Proof.
  revert x. induction xs as [|y xs IH]; intros x; [simpl; by rewrite app_nil_r|].
  change (join_tokens sep (x :: y :: xs)) with (x ++ sep :: join_tokens sep (y :: xs)). by rewrite IH.
Qed.

Lemma lhs_loop_parses ss acc rounds l r :
  map token l = concat (map (fun s => [Dot; Ident s]) ss) -> r <> [] -> here r <> Dot ->
  (length acc + length ss <= PATH_DEPTH_CAP)%nat -> (length ss <= rounds)%nat ->
  lhs_loop rounds acc (l ++ r) = Some (Ok (acc ++ ss, r)).
Proof.
  revert acc rounds l. induction ss as [|s ss IH]; intros acc rounds l Hl Hr Hd Hcap Hrd.
  - destruct l; [|done]. simpl app. rewrite app_nil_r.
    destruct rounds; simpl; rewrite (bind_Ok _ _ _ _ _ (peek_here _)); by destruct (here r).
  - destruct l as [|[k1 s1] [|[k2 s2] l]]; simplify_eq/=. destruct rounds as [|rounds]; [lia|]. simpl.
    rewrite (bind_Ok _ _ _ _ _ (peek_at _ _)). simpl.
    rewrite (bind_Ok _ _ _ _ _ (advance_at _ (mkSpanned (Ident s) s2 :: l ++ r) ltac:(done))).
    destruct (ident_parses s [mkSpanned (Ident s) s2] (l ++ r)) as (y & Hy & ->); [done|auto|done|].
    simpl app in Hy. rewrite (bind_Ok _ _ _ _ _ Hy).
    destruct (Nat.ltb_spec PATH_DEPTH_CAP (length (acc ++ [s]))) as [Hlt|_].
    { rewrite length_app in Hlt. simpl in Hlt. lia. }
    rewrite (IH (acc ++ [s]) rounds l); [by rewrite <- app_assoc|done..|rewrite length_app; simpl; lia|lia].
Qed.

Definition is_dot (t : Token) : bool := match t with Dot => true | _ => false end.

Lemma is_dot_false t : is_dot t = false -> t <> Dot.
Proof. by destruct t. Qed.

Lemma lhs_parses x : lhs_fits x = true -> parses parse_lhs eq (lhs_tokens x) x is_dot.
Proof.
  intros Hx l r Hl Hr Hd. apply is_dot_false in Hd. exists x. split; [|done].
  assert (Hgen : forall s ss, map token l = Ident s :: concat (map (fun s => [Dot; Ident s]) ss) ->
    (length ss < PATH_DEPTH_CAP)%nat ->
    parse_lhs (l ++ r) = Some (Ok (match s :: ss with [c] => BareColumn c | _ => DottedPath (s :: ss) end, r))).
  { clear Hl. intros s ss Hl Hcap. destruct l as [|t l]; [done|]. simpl in Hl. injection Hl as Ht Hl.
    unfold parse_lhs.
    destruct (ident_parses s [t] (l ++ r)) as (y & Hy & ->); [simpl; by rewrite Ht|auto|done|].
    simpl app in Hy. rewrite (bind_Ok _ _ _ _ _ Hy).
    rewrite (bind_Ok _ _ _ _ _ (lhs_loop_parses ss [s] PATH_DEPTH_CAP l r Hl Hr Hd ltac:(simpl; lia) ltac:(lia))).
    done. }
  destruct x as [c|ss]; simpl in Hx; [rewrite (Hgen c []); [done|done|unfold PATH_DEPTH_CAP; simpl; lia]|].
  destruct ss as [|s [|s2 ss]]; [done..|].
  change (map token l = join_tokens Dot ([Ident s] :: map (fun s => [Ident s]) (s2 :: ss))) in Hl.
  rewrite join_tokens_cons, map_map in Hl. rewrite (Hgen s (s2 :: ss)); [done|exact Hl|].
  apply andb_true_iff in Hx as [_ Hx%Nat.leb_le]. simpl in *. lia.
Qed.

Lemma in_list_parses vs v acc rounds l r :
  forallb plain_value (v :: vs) = true ->
  map token l = value_token v :: concat (map (fun v => [Comma; value_token v]) vs) ++ [RParen] ->
  r <> [] -> (length vs < rounds)%nat ->
  in_list_loop rounds acc (l ++ r) = Some (Ok (acc ++ v :: vs, r)).
Proof.
  revert v acc rounds l. induction vs as [|w vs IH]; intros v acc rounds l Hp Hl Hr Hrd;
    (destruct rounds as [|rounds]; [simpl in Hrd; lia|]); simpl in Hp;
    apply andb_true_iff in Hp as [Hv Hp]; destruct l as [|t1 [|[k2 s2] l]]; simplify_eq/=.
  - destruct l; [|done].
    destruct (value_parses v Hv [t1] (mkSpanned RParen s2 :: r)) as (y & Hy & ->); [simpl; by f_equal|done..|].
    simpl app in Hy. rewrite (bind_Ok _ _ _ _ _ Hy). rewrite (bind_Ok _ _ _ _ _ (peek_at _ _)). simpl.
    by rewrite (bind_Ok _ _ _ _ _ (advance_at _ _ Hr)).
  - destruct (value_parses v Hv [t1] (mkSpanned Comma s2 :: l ++ r)) as (y & Hy & ->);
      [simpl; by f_equal|done..|].
    simpl app in Hy. rewrite (bind_Ok _ _ _ _ _ Hy). rewrite (bind_Ok _ _ _ _ _ (peek_at _ _)). simpl.
    rewrite (bind_Ok _ _ _ _ _ (advance_at _ (l ++ r) ltac:(auto))).
    rewrite (IH w (acc ++ [v]) rounds l); [by rewrite <- app_assoc|done..|lia].
Qed.

Lemma list_parses vs :
  vs <> [] -> forallb plain_value vs = true -> parses parse_in_list eq (rhs_tokens (VList vs)) (VList vs) free.
Proof.
  intros Hne Hp l r Hl Hr _. destruct vs as [|v vs]; [done|]. exists (VList (v :: vs)). split; [|done].
  change (map token l = LParen :: join_tokens Comma ([value_token v] :: map (fun v => [value_token v]) vs) ++ [RParen]) in Hl.
  rewrite join_tokens_cons, map_map in Hl. destruct l as [|[k1 s1] l]; [done|].
  simpl in Hl. injection Hl as -> Hl'.
  unfold parse_in_list. simpl app. rewrite (bind_Ok _ _ _ _ _ (peek_at _ _)). simpl.
  destruct l as [|[k2 s2] l]; [done|]. assert (Hk : k2 = value_token v) by (by simpl in Hl'; simplify_eq).
  rewrite (bind_Ok _ _ _ _ _ (advance_at _ (mkSpanned k2 s2 :: l ++ r) ltac:(done))).
  rewrite (bind_Ok _ _ _ _ _ (peek_at _ _)). simpl token.
  assert (Hi : with_rounds (fun n => in_list_loop n []) (mkSpanned k2 s2 :: l ++ r) = Some (Ok (v :: vs, r))).
  { unfold with_rounds. apply (in_list_parses vs v [] _ (mkSpanned k2 s2 :: l) r); [done..|].
    apply (f_equal length) in Hl'. rewrite length_map in Hl'. simpl in *.
    rewrite length_app in *. simpl in Hl'. clear -Hl'. revert Hl'.
    assert (Hc : (length vs <= length (concat (map (fun v => [Comma; value_token v]) vs)))%nat).
    { induction vs; simpl; lia. }
    lia. }
  subst k2. destruct v; try done; exact (bind_Ok _ (fun items => p_ret (VList items)) _ _ _ Hi).
Qed.

Lemma list_values_plain v vs :
  forallb plain_token (join_tokens Comma (map (fun v => [value_token v]) (v :: vs))) = true ->
  forallb plain_value (v :: vs) = true.
Proof.
  revert v. induction vs as [|w vs IH]; intros v Ht.
  - simpl in Ht. rewrite andb_true_r in Ht. simpl. unfold plain_value. by rewrite Ht.
  - change (plain_token (value_token v) &&
      forallb plain_token (join_tokens Comma (map (fun v => [value_token v]) (w :: vs))) = true) in Ht.
    apply andb_true_iff in Ht as [Hv Ht].
    change (plain_token (value_token v) && forallb plain_value (w :: vs) = true). by rewrite Hv, IH.
Qed.

Lemma predicate_parses p :
  plain_predicate p = true -> forall l r,
  map token l = predicate_tokens p -> r <> [] ->
  exists sp, parse_predicate (l ++ r) = Some (Ok (mkPredicate (p_lhs p) sp (p_comparator p) (p_rhs p), r)).
Proof.
  unfold plain_predicate. rewrite !andb_true_iff. intros [[Hx Hv] Ht] l r Hl Hr.
  unfold predicate_tokens in *. apply map_eq_app in Hl as (l1 & l2 & -> & Hl1 & Hl2).
  destruct l2 as [|[k s] l2]; [done|]. simpl in Hl2. injection Hl2 as -> Hl2.
  unfold parse_predicate. rewrite (bind_Ok _ _ _ _ _ eq_refl).
  rewrite <- app_assoc. simpl app.
  destruct (lhs_parses _ Hx l1 (mkSpanned (Compare (p_comparator p)) s :: l2 ++ r)) as (y & Hy & ->); [done..|].
  rewrite (bind_Ok _ _ _ _ _ Hy).
  destruct (comparator_parses (p_comparator p) [mkSpanned (Compare (p_comparator p)) s] (l2 ++ r))
    as (y2 & Hy2 & ->); [done|auto|done|].
  simpl app in Hy2. rewrite (bind_Ok _ _ _ _ _ Hy2).
  rewrite forallb_app in Ht. apply andb_true_iff in Ht as [_ Ht]. simpl in Ht.
  assert (Hrhs : match p_comparator p with
        | Cmp.IsNull | Cmp.IsNotNull => p_ret NoValue
        | Cmp.In => parse_in_list
        | _ => p_bind (fun v => p_ret (Single v)) parse_single_value
        end (l2 ++ r) = Some (Ok (p_rhs p, r))).
  { assert (Hs : forall v, p_rhs p = Single v ->
      p_bind (fun v => p_ret (Single v)) parse_single_value (l2 ++ r) = Some (Ok (p_rhs p, r))).
    { intros v Hp. rewrite Hp in *. simpl in Ht. rewrite andb_true_r in Ht.
      destruct (value_parses v Ht l2 r) as (z & Hz & ->); [done..|]. by rewrite (bind_Ok _ _ _ _ _ Hz). }
    destruct (p_comparator p), (p_rhs p) as [|v|vs] eqn:Hp; try done; try (by apply (Hs v));
      try (by destruct l2).
    destruct vs as [|v vs]; [done|].
    destruct (list_parses (v :: vs) ltac:(done)) with (l := l2) (r := r) as (z & Hz & ->); [|done..].
    clear -Ht. change (rhs_tokens (VList (v :: vs))) with
      (LParen :: join_tokens Comma (map (fun v => [value_token v]) (v :: vs)) ++ [RParen]) in Ht.
    simpl in Ht. rewrite forallb_app in Ht. apply andb_true_iff in Ht as [Ht _].
    by apply list_values_plain. }
  rewrite (bind_Ok _ _ _ _ _ Hrhs). rewrite (bind_Ok _ _ _ _ _ eq_refl). by eexists.
Qed.

(** What a parser of filters reads, at any level. *)
Definition reads_as (m : P FilterExpr) (ts : list Token) (e : FilterExpr) (stuck : Token -> bool) : Prop :=
  parses m same_filter ts e stuck.

(** An operand alone. *)
Lemma operand_alone op m ts e stuck :
  reads_as m ts e stuck -> reads_as (parse_operands op m) ts e (fun t => stuck t || is_op op t).
Proof.
  intros Hm l r Hl Hr Hs. apply orb_false_iff in Hs as [Hs Ho].
  destruct (Hm l r Hl Hr Hs) as (e' & He & ?). exists e'. split; [|done].
  unfold parse_operands. rewrite (bind_Ok _ _ _ _ _ He), (bind_Ok _ _ _ _ _ (peek_here _)). by rewrite Ho.
Qed.

Lemma is_op_self op : is_op op (Bool_op op) = true.
Proof. by destruct op. Qed.

Lemma more_operands_parses op m stuck cs done_ rounds l r (toks : FilterExpr -> list Token) :
  Forall (fun c => reads_as m (toks c) c stuck) cs -> stuck (Bool_op op) = false ->
  map token l = concat (map (fun c => Bool_op op :: toks c) cs) ->
  r <> [] -> stuck (here r) = false -> is_op op (here r) = false -> (length cs <= rounds)%nat ->
  exists cs', more_operands rounds op m done_ (l ++ r) = Some (Ok (done_ ++ cs', r)) /\
    map erase cs' = map erase cs.
Proof.
  intros Hcs Hst. revert done_ rounds l. induction Hcs as [|c cs Hc _ IH]; intros dn rounds l Hl Hr Hsr Ho Hrd.
  - destruct l; [|done]. exists []. rewrite app_nil_r. split; [|done]. simpl app.
    destruct rounds; simpl; rewrite (bind_Ok _ _ _ _ _ (peek_here _)); by rewrite Ho.
  - destruct l as [|[k s] l]; [done|]. simpl in Hl. injection Hl as -> Hl.
    apply map_eq_app in Hl as (l1 & l2 & -> & Hl1 & Hl2).
    destruct rounds as [|rounds]; [simpl in Hrd; lia|]. simpl.
    rewrite (bind_Ok _ _ _ _ _ (peek_at _ _)). cbn [token]. rewrite is_op_self.
    rewrite (bind_Ok _ _ _ _ _ (advance_at _ ((l1 ++ l2) ++ r) ltac:(auto))). rewrite <- app_assoc.
    assert (Hs2 : stuck (here (l2 ++ r)) = false).
    { destruct cs as [|c2 cs]; [by destruct l2|]. destruct l2 as [|[k2 s2] l2]; [done|].
      simpl in Hl2. by simplify_eq/=. }
    destruct (Hc l1 (l2 ++ r) Hl1 ltac:(auto) Hs2) as (c' & Hc' & Hsame).
    rewrite (bind_Ok _ _ _ _ _ Hc').
    destruct (IH (dn ++ [c']) rounds l2 Hl2 Hr Hsr Ho) as (cs' & Hcs' & Hm); [simpl in Hrd; lia|].
    exists (c' :: cs'). rewrite Hcs', <- app_assoc. split; [done|]. simpl. by rewrite Hm, Hsame.
Qed.

(** Operands joined with their operator. *)
Lemma operands_joined op m stuck c1 c2 cs (toks : FilterExpr -> list Token) :
  Forall (fun c => reads_as m (toks c) c stuck) (c1 :: c2 :: cs) -> stuck (Bool_op op) = false ->
  reads_as (parse_operands op m) (join_tokens (Bool_op op) (map toks (c1 :: c2 :: cs)))
    (Bool op (c1 :: c2 :: cs)) (fun t => stuck t || is_op op t).
Proof.
  intros Hall Hst l r Hl Hr Hs. apply orb_false_iff in Hs as [Hs Ho].
  apply Forall_cons in Hall as [Hc1 Hcs]. simpl map in Hl.
  change (map token l = join_tokens (Bool_op op) (toks c1 :: map toks (c2 :: cs))) in Hl.
  rewrite join_tokens_cons, map_map in Hl. apply map_eq_app in Hl as (l1 & l2 & -> & Hl1 & Hl2).
  rewrite <- app_assoc. assert (Hh : here (l2 ++ r) = Bool_op op).
  { destruct l2 as [|[k s] l2]; [done|]. simpl in Hl2. by simplify_eq/=. }
  destruct (Hc1 l1 (l2 ++ r) Hl1 ltac:(auto)) as (e1 & He1 & Hsame); [by rewrite Hh|].
  unfold parse_operands. rewrite (bind_Ok _ _ _ _ _ He1), (bind_Ok _ _ _ _ _ (peek_here _)), Hh, is_op_self.
  destruct (more_operands_parses op m stuck (c2 :: cs) [e1] (length (l2 ++ r)) l2 r toks)
    as (cs' & Hcs' & Hm); [done..| |].
  { apply (f_equal length) in Hl2. rewrite length_map in Hl2. rewrite length_app, Hl2. clear.
    assert (Hc : forall xs : list FilterExpr,
      (length xs <= length (concat (map (fun c => Bool_op op :: toks c) xs)))%nat).
    { induction xs; simpl; [lia|]. rewrite length_app. lia. }
    specialize (Hc (c2 :: cs)). lia. }
  rewrite (bind_Ok (with_rounds _) _ (l2 ++ r) _ _ Hcs').
  eexists. split; [done|]. unfold same_filter in *. cbn [erase]. simpl app. f_equal. simpl. by rewrite Hsame, Hm.
Qed.

Lemma paren_parses d ts e :
  reads_as (parse_or d) ts e (fun t => is_op And t || is_op Or t) ->
  reads_as (parse_atom (S d)) (LParen :: ts ++ [RParen]) e free.
Proof.
  intros Hin l r Hl Hr _. destruct l as [|[k s] l]; [done|]. simpl in Hl. injection Hl as -> Hl.
  apply map_eq_app in Hl as (l1 & l2 & -> & Hl1 & Hl2).
  destruct l2 as [|[k2 s2] [|]]; simplify_eq/=.
  rewrite (bind_Ok _ _ _ _ _ (peek_at _ _)). cbn [token]. rewrite <- app_assoc. simpl app.
  rewrite (bind_Ok _ _ _ _ _ (advance_at _ (l1 ++ mkSpanned RParen s2 :: r) ltac:(by destruct l1))).
  destruct (Hin l1 (mkSpanned RParen s2 :: r) eq_refl) as (e' & He & ?); [done..|].
  unfold parse_or, parse_and in He. rewrite (bind_Ok _ _ _ _ _ He), (bind_Ok _ _ _ _ _ (peek_at _ _)).
  cbn [token]. rewrite (bind_Ok _ _ _ _ _ (advance_at _ _ Hr)). by exists e'.
Qed.

Lemma predicate_atom p d :
  plain_predicate p = true -> reads_as (parse_atom d) (predicate_tokens p) (Predicate p) free.
Proof.
  intros Hp l r Hl Hr _. destruct (predicate_parses p Hp l r Hl Hr) as [sp Hpp].
  assert (Hh : here (l ++ r) <> LParen).
  { unfold plain_predicate in Hp. rewrite !andb_true_iff in Hp. destruct Hp as [[Hx _] _].
    unfold predicate_tokens in Hl. destruct (p_lhs p) as [c|[|s [|]]]; [| done..|];
      (destruct l as [|[k s0] l]; [done|]); simpl in Hl; by simplify_eq/=. }
  exists (Predicate (mkPredicate (p_lhs p) sp (p_comparator p) (p_rhs p))). split; [|done].
  assert (Hb : p_bind (fun q => p_ret (Predicate q)) parse_predicate (l ++ r) =
    Some (Ok (Predicate (mkPredicate (p_lhs p) sp (p_comparator p) (p_rhs p)), r))).
  { by rewrite (bind_Ok _ _ _ _ _ Hpp). }
  destruct d; simpl; rewrite (bind_Ok _ _ _ _ _ (peek_here _)); destruct (here (l ++ r)); done.
Qed.

Fixpoint filter_nested_ind (Q : FilterExpr -> Prop) (Hp : forall p, Q (Predicate p))
    (Hb : forall op cs, Forall Q cs -> Q (Bool op cs)) (e : FilterExpr) : Q e :=
  match e with
  | Predicate p => Hp p
  | Bool op cs =>
      Hb op cs ((fix all (l : list FilterExpr) : Forall Q l :=
        match l with
        | [] => Forall_nil_2 Q
        | c :: l' => Forall_cons_2 Q c l' (filter_nested_ind Q Hp Hb c) (all l')
        end) cs)
  end.

(** The parser of a level, and the operators that follow none of its filters. *)
Definition parser_at (level depth : nat) : P FilterExpr :=
  match level with O => parse_or depth | 1 => parse_and depth | _ => parse_atom depth end%nat.
Definition stuck_at (level : nat) : Token -> bool :=
  match level with
  | O => fun t => (free t || is_op And t) || is_op Or t
  | 1 => fun t => free t || is_op And t
  | _ => free
  end%nat.

(** A filter is read at every level. *)
Definition read_back (e : FilterExpr) : Prop :=
  forall level d, (level <= 2)%nat -> (length (tokens_of level e) <= d)%nat ->
  reads_as (parser_at level d) (tokens_of level e) e (stuck_at level).

(** What is an atom can be read at every level. *)
Lemma atom_read_back level d ts e :
  (level <= 2)%nat -> reads_as (parse_atom d) ts e free -> reads_as (parser_at level d) ts e (stuck_at level).
Proof.
  intros Hl Ha. pose proof (operand_alone And _ _ _ _ Ha) as H1'.
  destruct level as [|[|[|]]]; [|exact H1'|exact Ha|lia].
  exact (operand_alone Or _ _ _ _ H1').
Qed.

Lemma join_length op (cs : list FilterExpr) c (toks : FilterExpr -> list Token) :
  c ∈ cs -> (length (toks c) <= length (join_tokens (Bool_op op) (map toks cs)))%nat.
Proof.
  intros Hc. destruct cs as [|c1 cs]; [by apply elem_of_nil in Hc|].
  simpl map. rewrite join_tokens_cons, length_app. apply elem_of_cons in Hc as [->|Hc]; [lia|].
  assert (length (toks c) <= length (concat (map (cons (Bool_op op)) (map toks cs))))%nat; [|lia].
  induction cs as [|c2 cs IH]; [by apply elem_of_nil in Hc|].
  simpl. rewrite length_app. apply elem_of_cons in Hc as [->|Hc]; [lia|]. specialize (IH Hc). lia.
Qed.

(** The operands of an operator, without parentheses around. *)
Lemma inner_read_back op cs d :
  (1 < length cs)%nat -> Forall read_back cs ->
  (length (join_tokens (Bool_op op) (map (tokens_of (operand_level op)) cs)) <= d)%nat ->
  reads_as (parser_at (operand_level op - 1) d)
    (join_tokens (Bool_op op) (map (tokens_of (operand_level op)) cs)) (Bool op cs)
    (stuck_at (operand_level op - 1)).
Proof.
  intros Hlen Hcs Hd.
  assert (Hall : Forall (fun c => reads_as (parser_at (operand_level op) d)
    (tokens_of (operand_level op) c) c (stuck_at (operand_level op))) cs).
  { rewrite Forall_forall in *. intros c Hc. apply (Hcs c Hc); [by destruct op; simpl; lia|].
    etransitivity; [by apply join_length|exact Hd]. }
  destruct cs as [|c1 [|c2 cs]]; [simpl in Hlen; lia..|].
  destruct op; [exact (operands_joined And _ _ c1 c2 cs _ Hall eq_refl)|].
  exact (operands_joined Or _ _ c1 c2 cs _ Hall eq_refl).
Qed.

Lemma filter_read_back e : plain_filter e = true -> read_back e.
Proof.
  induction e as [p|op cs IH] using filter_nested_ind; intros Hp level d Hl Hd.
  { apply atom_read_back; [done|]. by apply predicate_atom. }
  simpl in Hp. apply andb_true_iff in Hp as [Hlen%Nat.ltb_lt Hall].
  assert (Hcs : Forall read_back cs).
  { rewrite forallb_forall in Hall. rewrite Forall_forall in *. intros c Hc. apply IH; [done|].
    apply Hall. by apply list_elem_of_In. }
  pose proof (inner_read_back op cs) as Hin. simpl tokens_of in *.
  set (ts := join_tokens _ _) in *. destruct (Nat.ltb_spec level (operand_level op)) as [Hlt|Hge].
  - specialize (Hin d Hlen Hcs Hd). destruct op; simpl in *.
    + destruct level as [|[|]]; [|exact Hin|lia]. exact (operand_alone Or _ _ _ _ Hin).
    + by destruct level; [|lia].
  - simpl in Hd. rewrite length_app in Hd. simpl in Hd. destruct d as [|d]; [lia|].
    apply atom_read_back; [done|]. apply paren_parses.
    specialize (Hin d Hlen Hcs ltac:(lia)). destruct op; simpl in Hin; [|exact Hin].
    exact (operand_alone Or _ _ _ _ Hin).
Qed.

Lemma plain_tokens level e : plain_filter e = true -> forallb plain_token (tokens_of level e) = true.
Proof.
  revert level. induction e as [p|op cs IH] using filter_nested_ind; intros level Hp.
  { simpl in Hp. unfold plain_predicate in Hp. rewrite !andb_true_iff in Hp. apply Hp. }
  simpl in Hp. apply andb_true_iff in Hp as [_ Hall]. simpl.
  assert (Hin : forallb plain_token (join_tokens (Bool_op op) (map (tokens_of (operand_level op)) cs)) = true).
  { destruct cs as [|c cs]; [done|]. simpl map. rewrite join_tokens_cons, forallb_app. simpl in Hall.
    apply andb_true_iff in Hall as [Hc Hall]. apply Forall_cons in IH as [IHc IH]. rewrite IHc by done. simpl.
    induction IH as [|c2 cs Hc2 _ IH2]; [done|]. simpl in *. apply andb_true_iff in Hall as [Hx Hall].
    rewrite forallb_app, Hc2 by done. by apply IH2. }
  destruct (Nat.ltb level (operand_level op)); [done|]. simpl. by rewrite forallb_app, Hin.
Qed.

End Filters.

Lemma tokens_nonempty `{ValueLib} level e : plain_filter e = true -> tokens_of level e <> [].
Proof.
  intros Hp. destruct e as [p|op [|c1 [|c2 cs]]]; [|done..|].
  - simpl. unfold predicate_tokens. by destruct (lhs_tokens (p_lhs p)).
  - simpl. destruct (Nat.ltb level (operand_level op)); [|done].
    by destruct (tokens_of (operand_level op) c1).
Qed.

(** C17: a filter written out is read back as it was, with its AND and OR nested
    the same way, its columns, paths, comparators and values, floats included: for
    every filter that can be written ([plain_filter]), which is one whose names are
    ASCII words and no keywords, whose paths have two to five segments (a longer one
    is refused), whose comparators have the values they take, whose texts are
    ASCII, whose integers fit 64 bits and whose floats are finite, and whose groups
    have two members at least.  A timestamp has no notation in the language, and
    the parser makes none. *)
Theorem filter_roundtrip `{CharLaws} `{ValueLib} `{!FloatParse} `{!FloatText} e :
  plain_filter e = true ->
  exists e', parse (print_filter e) = Some (Ok e') /\ erase e' = erase e.
Proof.
  intros Hp. unfold parse, print_filter.
  destruct (tokenize_print (tokens_of 0 e)) as (ts & Hts & Hm); [by apply plain_tokens|].
  rewrite Hts. simpl. apply map_eq_app in Hm as (l & r & -> & Hl & Hr).
  destruct r as [|[k s] [|]]; simplify_eq/=.
  destruct (filter_read_back e Hp 0%nat (length (l ++ [mkSpanned Eof s])) ltac:(lia))
    with (l := l) (r := [mkSpanned Eof s]) as (e' & He & Hsame); [|done..|].
  { rewrite length_app, <- (length_map token l), Hl. lia. }
  exists e'. split; [|exact Hsame]. unfold parse_expr.
  assert (Hh : here (l ++ [mkSpanned Eof s]) <> Eof).
  { pose proof (plain_tokens 0%nat e Hp) as Hpl. pose proof (tokens_nonempty 0%nat e Hp) as Hne.
    destruct l as [|[k s1] l]; [by rewrite <- Hl in Hne|]. rewrite <- Hl in Hpl. by destruct k. }
  rewrite (bind_Ok _ _ _ _ _ (peek_here _)).
  assert (Hb : p_bind (fun e => p_bind (fun t => match t with Eof => p_ret e | _ => unexpected end) peek)
    (parse_or (length (l ++ [mkSpanned Eof s]))) (l ++ [mkSpanned Eof s]) = Some (Ok (e', [mkSpanned Eof s]))).
  { by rewrite (bind_Ok _ _ _ _ _ He). }
  destruct (here (l ++ [mkSpanned Eof s])); try done; by rewrite Hb.
Qed.

(** A text value that is not ASCII is read byte by byte, so what is compared
    is another text. *)
Example accented_text_is_garbled `{ValueLib} `{!FloatParse} :
  parse (text "a = '" ++ [195; 169]%N ++ text "'") =
  Some (Ok (Predicate (mkPredicate (BareColumn (text "a")) (mkSpan 0 8) Cmp.Eq
    (Single (LText [195; 169]%N))))).
Proof. vm_compute. reflexivity. Qed.

(** ** A concrete filter *)

(** Floats that are whole numbers. *)
#[local] Instance whole_values : ValueLib := {|
  f64 := Z;
  f64_is_nan _ := false;
  f64_is_infinite _ := false;
  f64_positive x := 0 <=? x;
  f64_to_string := integer_text;
  DateTime := list char;
  datetime_text x := x;
  NaiveDate := list char;
  date_text x := x;
  NaiveTime := list char;
  time_text x := x;
|}.
#[local] Instance whole_floats : FloatParse := {
  f64_parse l :=
    match l with
    | c :: l' =>
        if (c =? ch "-")%N then Some (- digits_value (take_while is_digit l'))
        else Some (digits_value (take_while is_digit l))
    | [] => None
    end
}.

Lemma whole_digits n :
  decimal n <> [] /\ existsb (fun c => c =? ch ".")%N (decimal n) = false /\
  take_while is_digit (decimal n ++ text ".0") = decimal n /\
  drop_while is_digit (decimal n ++ text ".0") = text ".0" /\
  digits_value (decimal n) = Z.of_N n /\ head (decimal n) <> Some (ch "-").
Proof.
  destruct (decimal_spec n) as (d & ds & -> & Hd & Hds & Hv).
  assert (Hall : forallb is_digit (d :: ds) = true) by (simpl; by rewrite Hd).
  destruct (digits_until (d :: ds) (text "0") (ch ".") Hall eq_refl) as [Ht Hr].
  split_and!; [done| |exact Ht|exact Hr|exact Hv|intros [= ->]; by vm_compute in Hd].
  apply not_true_iff_false. intros (c & Hc & ->%N.eqb_eq)%existsb_exists.
  rewrite forallb_forall in Hall. by apply Hall in Hc.
Qed.

#[local] Instance whole_text : FloatText.
Proof.
  assert (H : forall z, float_text z = integer_text z ++ text ".0").
  { intros z. unfold float_text. simpl. unfold integer_text.
    destruct (z <? 0); [|by rewrite (proj1 (proj2 (whole_digits _)))].
    simpl. by rewrite (proj1 (proj2 (whole_digits _))). }
  split; intros z _; rewrite H; unfold integer_text; destruct (Z.ltb_spec z 0) as [Hz|Hz].
  - destruct (whole_digits (Z.to_N (- z))) as (Hn & _ & Ht & Hr & _). cbn [app point_text].
    unfold unsigned_point_text. rewrite N.eqb_refl, Ht, Hr. by rewrite bool_decide_false.
  - destruct (whole_digits (Z.to_N z)) as (Hn & _ & Ht & Hr & _ & Hm).
    destruct (decimal (Z.to_N z)) as [|c l] eqn:Hd; [done|]. cbn [app point_text].
    destruct (N.eqb_spec c (ch "-")) as [->|_]; [done|].
    unfold unsigned_point_text. change (c :: l ++ text ".0") with ((c :: l) ++ text ".0"). by rewrite Ht, Hr.
  - destruct (whole_digits (Z.to_N (- z))) as (Hn & _ & Ht & Hr & Hv & _). cbn [app f64_parse whole_floats].
    rewrite N.eqb_refl, Ht, Hv. f_equal. lia.
  - destruct (whole_digits (Z.to_N z)) as (Hn & _ & Ht & Hr & Hv & Hm).
    destruct (decimal (Z.to_N z)) as [|c l] eqn:Hd; [done|]. cbn [app f64_parse whole_floats].
    destruct (N.eqb_spec c (ch "-")) as [->|_]; [done|].
    change (c :: l ++ text ".0") with ((c :: l) ++ text ".0"). rewrite Ht, Hv. f_equal. lia.
Qed.

Definition demo_filter : FilterExpr :=
  let compare lhs c v := Predicate (mkPredicate lhs (mkSpan 0 0) c v) in
  Bool And
    [Bool Or [compare (BareColumn (text "a")) Cmp.Eq (Single (LText (text "it's")));
              compare (BareColumn (text "b")) Cmp.IsNotNull NoValue];
     compare (DottedPath [text "author"; text "age"]) Cmp.In
       (VList [LInteger 1; LInteger (-20)]);
     compare (BareColumn (text "c")) Cmp.Gte (Single (LFloat (-7)))].

Example demo_filter_text :
  print_filter demo_filter =
  text " ( a = 'it''s' OR b IS NOT NULL ) AND author . age IN ( 1 , -20 ) AND c >= -7.0".
Proof. vm_compute. reflexivity. Qed.

Lemma filter_roundtrip_witness :
  plain_filter demo_filter = true /\
  exists e', parse (print_filter demo_filter) = Some (Ok e') /\ erase e' = erase demo_filter.
Proof. split; [vm_compute; reflexivity|]. apply (filter_roundtrip demo_filter). vm_compute. reflexivity. Defined.
