(* ===== verification/FilterResolve.v ===== *)
(** * Lowering of the relational filter (crates/dbflux_core: query/relational_filter/resolver.rs, mod.rs)

    A dotted path of a filter is followed through foreign keys: each segment but
    the last is a hop to another table and becomes a join, and the last is a
    column of the table reached.  The second half proves what the joins and the
    predicates of a lowered filter are. *)

From S2P Require Import Prelude RustStr RustChar SqlDialect VisualQuery FilterParser FilterRoundtrip.

Module FilterResolve.

Section Resolve.
Context `{CharLib} `{ValueLib}.
(** [SqlDialect::normalize_identifier], which dialects may override. *)
Context (normalize_identifier : list char -> list char).

(** The names of [SchemaForeignKeyInfo], as characters. *)
Record SchemaForeignKeyInfo := mkFk {
  fk_name : list char;
  fk_table_name : list char;
  fk_columns : list (list char);
  fk_referenced_table : list char;
  fk_referenced_columns : list (list char);
}.

Record FkSummary := mkSummary {
  fs_name : option (list char);
  fs_local_columns : list (list char);
  fs_referenced_table : list char;
  fs_referenced_columns : list (list char);
}.

Definition from_fk (fk : SchemaForeignKeyInfo) : FkSummary :=
  mkSummary (if bool_decide (fk_name fk = []) then None else Some (fk_name fk)) (fk_columns fk)
    (fk_referenced_table fk) (fk_referenced_columns fk).

Inductive ResolveError : Type :=
| Ambiguous (segment from_table : list char) (candidates : list FkSummary)
    (span : FilterParser.Span) (partial_spec : VisualQuerySpec)
| Unknown (segment from_table : list char) (span : FilterParser.Span) (partial_spec : VisualQuerySpec).

Record LoweringDiagnostics := mkDiagnostics {
  relational_predicate_count : nat;
  join_count : nat;
}.

Record RelationalLowering := mkLowering {
  spec : VisualQuerySpec;
  diagnostics : LoweringDiagnostics;
}.

(** ** Aliases *)

(** [AliasGen]: how often each table, whatever its case, has been used. *)
Definition AliasGen : Type := gmap (list N) N.

Definition alias_gen_new (source_table : list char) : AliasGen :=
  {[(lower_case source_table : list N) := 1%N]}.

(** The alias of the [n]th use of a table. *)
Definition alias_text (target_table : list char) (n : N) : list char :=
  if (n =? 1)%N then target_table else target_table ++ text "_" ++ decimal n.

Definition next_alias (g : AliasGen) (target_table : list char) : AliasGen * list char :=
  let key := lower_case target_table : list N in
  let count := (default 0 (g !! key) + 1)%N in
  (<[key := count]> g, alias_text target_table count).

(** ** Resolution *)

Record ResolveCtx := mkCtx {
  joins : list JoinStep;
  aliases : AliasGen;
  predicate_count : nat;
}.

Section Context_.
Context (source_alias : list char) (source_schema : option (list char)).
Context (fks : list SchemaForeignKeyInfo).

Definition bare_spec (source : SourceTable) (js : list JoinStep) (filter : option FilterNode)
  : VisualQuerySpec := mkSpec source All js filter [] [] None [] None 0.

Definition build_partial_spec_so_far (ctx : ResolveCtx) : VisualQuerySpec :=
  bare_spec (mkSource source_schema source_alias source_alias) (joins ctx) None.

Definition unknown {A} (segment from_table : list char) (span : FilterParser.Span)
  : SM ResolveCtx ResolveError A :=
  fun ctx => (ctx, Err (Unknown segment from_table span (build_partial_spec_so_far ctx))).

(** [Vec::dedup_by_key]: of neighbours with the same name only the first stays. *)
Fixpoint dedup_by_name (last : option (list char)) (l : list SchemaForeignKeyInfo)
  : list SchemaForeignKeyInfo :=
  match l with
  | [] => []
  | fk :: l' =>
      if bool_decide (last = Some (fk_name fk)) then dedup_by_name last l'
      else fk :: dedup_by_name (Some (fk_name fk)) l'
  end.

(** The keys of [current_table] that [segment] may name: by column, else by the
    table they refer to. *)
Definition hop_matches (segment current_table : list char) : list SchemaForeignKeyInfo :=
  let norm_seg := normalize_identifier segment in
  let norm_table := normalize_identifier current_table in
  let candidates_for_table :=
    List.filter (fun fk => bool_decide (normalize_identifier (fk_table_name fk) = norm_table)) fks in
  let by_column :=
    List.filter (fun fk =>
      match fk_columns fk with
      | [] => false
      | first_column :: _ =>
          let norm_col := normalize_identifier first_column in
          bool_decide (norm_col = norm_seg) || bool_decide (norm_col = norm_seg ++ text "_id") ||
          bool_decide (norm_col = norm_seg ++ text "id")
      end) candidates_for_table in
  let matches :=
    match by_column with
    | [] => List.filter (fun fk =>
              let norm_ref_table := normalize_identifier (fk_referenced_table fk) in
              bool_decide (norm_ref_table = norm_seg) || has_prefix norm_seg norm_ref_table)
              candidates_for_table
    | _ => by_column
    end in
  dedup_by_name None matches.

Definition resolve_hop (segment current_table : list char) (span : FilterParser.Span)
  : SM ResolveCtx ResolveError (SchemaForeignKeyInfo * list char) := fun ctx =>
  match hop_matches segment current_table with
  | [] => (ctx, Err (Unknown segment current_table span (build_partial_spec_so_far ctx)))
  | [fk] =>
      let '(g, alias) := next_alias (aliases ctx) (fk_referenced_table fk) in
      (mkCtx (joins ctx) g (predicate_count ctx), Ok (fk, alias))
  | matches =>
      (ctx, Err (Ambiguous segment current_table (map from_fk matches) span
                   (build_partial_spec_so_far ctx)))
  end.

Definition push_join (j : JoinStep) : SM ResolveCtx ResolveError unit :=
  sm_modify (fun ctx => mkCtx (joins ctx ++ [j]) (aliases ctx) (predicate_count ctx)).

(** One round of the loop over the hops: the table and the alias reached. *)
Definition follow_hop (span : FilterParser.Span) (at_ : list char * list char) (segment : list char)
  : SM ResolveCtx ResolveError (list char * list char) :=
  let '(current_table, current_alias) := at_ in
  r ← resolve_hop segment current_table span;
  let '(fk, alias) := r in
  match fk_columns fk, fk_referenced_columns fk with
  | from_column :: _, to_column :: _ =>
      _ ← push_join (mkJoin Inner current_alias source_schema (fk_referenced_table fk) alias
                       (FkPath from_column to_column));
      mret (fk_referenced_table fk, alias)
  | _, _ => unknown segment current_table span
  end.

Fixpoint follow_hops (span : FilterParser.Span) (at_ : list char * list char) (hops : list (list char))
  : SM ResolveCtx ResolveError (list char * list char) :=
  match hops with
  | [] => mret at_
  | segment :: hops' => next ← follow_hop span at_ segment; follow_hops span next hops'
  end.

Definition count_predicate : SM ResolveCtx ResolveError unit :=
  sm_modify (fun ctx => mkCtx (joins ctx) (aliases ctx) (S (predicate_count ctx))).

Definition lower_predicate (pred : FilterParser.ParsedPredicate)
  : SM ResolveCtx ResolveError FilterNode :=
  let predicate alias column :=
    FPredicate (mkPred alias column (FilterParser.p_comparator pred) (FilterParser.p_rhs pred) 0) in
  match FilterParser.p_lhs pred with
  | FilterParser.BareColumn col => mret (predicate source_alias col)
  | FilterParser.DottedPath segments =>
      match last segments with
      | None => unknown [] source_alias (FilterParser.p_span pred)
      | Some terminal_column =>
          reached ← follow_hops (FilterParser.p_span pred) (source_alias, source_alias)
                      (removelast segments);
          _ ← count_predicate;
          mret (predicate reached.2 terminal_column)
      end
  end.

Section MapM.
Context {A B : Type} (f : A -> SM ResolveCtx ResolveError B).
Fixpoint lower_all (l : list A) : SM ResolveCtx ResolveError (list B) :=
  match l with
  | [] => mret []
  | x :: l' => y ← f x; r ← lower_all l'; mret (y :: r)
  end.
End MapM.

Fixpoint lower_expr (expr : FilterParser.FilterExpr) : SM ResolveCtx ResolveError FilterNode :=
  match expr with
  | FilterParser.Predicate pred => lower_predicate pred
  | FilterParser.Bool op children =>
      nodes ← lower_all lower_expr children;
      mret (FGroup op nodes)
  end.

End Context_.

Definition resolve (ast : FilterParser.FilterExpr) (source : SourceTable)
    (fks : list SchemaForeignKeyInfo) : result RelationalLowering ResolveError :=
  let '(ctx, r) :=
    lower_expr (st_alias source) (st_schema source) fks ast
      (mkCtx [] (alias_gen_new (st_table source)) 0) in
  map_ok (fun filter_node =>
    mkLowering (bare_spec source (joins ctx) (Some filter_node))
      (mkDiagnostics (predicate_count ctx) (length (joins ctx)))) r.

Inductive RelationalFilterError : Type :=
| Parse (e : FilterParser.ParseError)
| Resolve (e : ResolveError).

Definition parse_and_resolve `{!FloatParse} (input : list N) (source : SourceTable)
    (fks : list SchemaForeignKeyInfo) : option (result RelationalLowering RelationalFilterError) :=
  ast ← FilterParser.parse input;
  Some (match ast with
        | Err e => Err (Parse e)
        | Ok ast => map_err Resolve (resolve ast source fks)
        end).

End Resolve.
End FilterResolve.

(** ** What a lowered filter joins (crates/dbflux_core: query/relational_filter/resolver.rs) *)

Import FilterResolve.

Section Props.
Context `{CharLib} `{ValueLib} (normalize_identifier : list char -> list char).
Context (source_alias : list char) (source_schema : option (list char)) (fks : list SchemaForeignKeyInfo).

(** The tables in scope after some joins, each with its alias; the source stands
    for itself. *)
Definition scope (js : list JoinStep) : list (list char * list char) :=
  (source_alias, source_alias) :: map (fun j => (j_to_table j, j_to_alias j)) js.

(** A join follows a foreign key of the table it starts from. *)
Definition follows_key (js : list JoinStep) (j : JoinStep) : Prop :=
  j_kind j = Inner /\ j_to_schema j = source_schema /\
  exists table fk, (table, j_from_alias j) ∈ scope js /\ fk ∈ fks /\
    normalize_identifier (fk_table_name fk) = normalize_identifier table /\
    j_to_table j = fk_referenced_table fk /\
    exists a b, head (fk_columns fk) = Some a /\ head (fk_referenced_columns fk) = Some b /\
      j_on j = FkPath a b.

(** Joins that each start from a table before them. *)
Inductive linked : list JoinStep -> Prop :=
| linked_nil : linked []
| linked_snoc js j : linked js -> follows_key js j -> linked (js ++ [j]).

(** How many hops the paths of a filter have, and how many paths there are. *)
Definition hops (x : FilterParser.Lhs) : nat :=
  match x with FilterParser.BareColumn _ => 0 | FilterParser.DottedPath l => length l - 1 end.
Definition dotted (x : FilterParser.Lhs) : nat :=
  match x with FilterParser.BareColumn _ => 0 | FilterParser.DottedPath _ => 1 end.

Fixpoint sum_lhs (f : FilterParser.Lhs -> nat) (e : FilterParser.FilterExpr) : nat :=
  match e with
  | FilterParser.Predicate p => f (FilterParser.p_lhs p)
  | FilterParser.Bool _ cs => list_sum (map (sum_lhs f) cs)
  end.

(** ** Which key a segment names

    A key of the table the path is at, by its first column; and only when no key
    of the table is named so, by the table it refers to. *)

Definition key_of (table : list char) (fk : SchemaForeignKeyInfo) : Prop :=
  fk ∈ fks /\ normalize_identifier (fk_table_name fk) = normalize_identifier table.

Definition by_column (segment : list char) (fk : SchemaForeignKeyInfo) : Prop :=
  let seg := normalize_identifier segment in
  exists column rest, fk_columns fk = column :: rest /\
    (normalize_identifier column = seg \/ normalize_identifier column = seg ++ text "_id" \/
     normalize_identifier column = seg ++ text "id").

Definition by_table (segment : list char) (fk : SchemaForeignKeyInfo) : Prop :=
  normalize_identifier segment `prefix_of` normalize_identifier (fk_referenced_table fk).

Definition names_key (segment table : list char) (fk : SchemaForeignKeyInfo) : Prop :=
  key_of table fk /\
  (by_column segment fk \/
   by_table segment fk /\ forall fk', key_of table fk' -> ~ by_column segment fk').

(** The keys named, up to keys of the same name. *)
Definition named_keys (segment table : list char) (l : list SchemaForeignKeyInfo) : Prop :=
  Forall (names_key segment table) l /\
  forall fk, names_key segment table fk -> exists fk', fk' ∈ l /\ fk_name fk' = fk_name fk.

(** The join of a segment: along the first columns of the one key it names. *)
Definition joins_segment (at_ : list char * list char) (segment : list char) (j : JoinStep) : Prop :=
  exists fk a cas b cbs, named_keys segment at_.1 [fk] /\
    fk_columns fk = a :: cas /\ fk_referenced_columns fk = b :: cbs /\
    j = mkJoin Inner at_.2 source_schema (fk_referenced_table fk) (j_to_alias j) (FkPath a b).

(** The joins of the segments of a path, from a table and its alias to another. *)
Inductive path : list char * list char -> list (list char) -> list JoinStep ->
    list char * list char -> Prop :=
| path_end at_ : path at_ [] [] at_
| path_hop at_ segment j segments js to :
    joins_segment at_ segment j -> path (j_to_table j, j_to_alias j) segments js to ->
    path at_ (segment :: segments) (j :: js) to.

(** The predicate of a lowered filter and the joins made for it: its comparison
    and its value are those of the source, and its column is the last segment, of
    the source or of the table its path leads to. *)
Definition lowers_predicate (p : FilterParser.ParsedPredicate) (js : list JoinStep) (q : Predicate) : Prop :=
  exists alias column, q = mkPred alias column (FilterParser.p_comparator p) (FilterParser.p_rhs p) 0 /\
  match FilterParser.p_lhs p with
  | FilterParser.BareColumn c => js = [] /\ column = c /\ alias = source_alias
  | FilterParser.DottedPath l =>
      exists hops table, l = hops ++ [column] /\ path (source_alias, source_alias) hops js (table, alias)
  end.

(** The joins of a filter are those of its predicates, in their order. *)
Inductive lowers : FilterParser.FilterExpr -> list JoinStep -> FilterNode -> Prop :=
| lowers_leaf p js q : lowers_predicate p js q -> lowers (FilterParser.Predicate p) js (FPredicate q)
| lowers_group op cs jss nodes :
    Forall3 lowers cs jss nodes -> lowers (FilterParser.Bool op cs) (concat jss) (FGroup op nodes).





Lemma scope_app js ks x : x ∈ scope js -> x ∈ scope (js ++ ks).
Proof.
  unfold scope. rewrite map_app, !elem_of_cons, elem_of_app. intros [->|Hin]; [by left|]. right. by left.
Qed.

(** ** Hops *)

Lemma dedup_sub last l fk : fk ∈ dedup_by_name last l -> fk ∈ l.
Proof.
  revert last. induction l as [|x l IH]; intros la; simpl; [done|].
  case_bool_decide; rewrite elem_of_cons.
  - intros Hin. right. by apply (IH la).
  - rewrite elem_of_cons. intros [->|Hin]; [by left|right; by eapply IH].
Qed.

Lemma dedup_covers last l fk :
  fk ∈ l -> last = Some (fk_name fk) \/ exists fk', fk' ∈ dedup_by_name last l /\ fk_name fk' = fk_name fk.
Proof.
  revert last. induction l as [|x l IH]; intros la; simpl; [by intros ?%elem_of_nil|].
  case_bool_decide as Hx; intros [->|Hin]%elem_of_cons; try (by left).
  - by apply IH.
  - right. exists x. split; [left|done].
  - right. destruct (IH (Some (fk_name x)) Hin) as [[= Hn]|(fk' & Hf & Hn)].
    + exists x. split; [left|done].
    + exists fk'. split; [by right|done].
Qed.

Lemma has_prefix_spec p l : has_prefix p l = true <-> p `prefix_of` l.
Proof.
  revert l. induction p as [|c p IH]; intros l; simpl; [split; [intros _; by exists l|done]|].
  destruct l as [|d l]; [split; [done|by intros [? ?]]|].
  rewrite andb_true_iff, N.eqb_eq, IH. split; [intros [-> [r ->]]; by exists r|intros [r [= -> ->]]; split; [done|by exists r]].
Qed.

Lemma hop_matches_named segment table :
  named_keys segment table (hop_matches normalize_identifier fks segment table).
Proof.
  unfold hop_matches. set (seg := normalize_identifier segment).
  set (cands := List.filter _ fks). set (cols := List.filter _ cands).
  set (matches := match cols with [] => _ | _ => cols end).
  assert (Hcand : forall fk, fk ∈ cands <-> key_of table fk).
  { intros fk. unfold cands, key_of. by rewrite filter_elem, bool_decide_eq_true. }
  assert (Hcols : forall fk, fk ∈ cols <-> key_of table fk /\ by_column segment fk).
  { intros fk. unfold cols. rewrite filter_elem, Hcand. unfold by_column. fold seg.
    destruct (fk_columns fk) as [|c rest]; [naive_solver|].
    rewrite !orb_true_iff, !bool_decide_eq_true. naive_solver. }
  assert (Hm : forall fk, fk ∈ matches <-> names_key segment table fk).
  { intros fk. unfold matches, names_key. destruct cols as [|c0 cs] eqn:Hc.
    - rewrite filter_elem, Hcand. unfold by_table. fold seg. rewrite orb_true_iff, bool_decide_eq_true, has_prefix_spec.
      assert (forall fk', key_of table fk' -> ~ by_column segment fk').
      { intros fk' Hk Hb. by apply (elem_of_nil fk'), Hcols. }
      split; [|naive_solver]. intros [Hk [->|Hp]]; (split; [done|right]; split; [|done]); [by exists []; rewrite app_nil_r|done].
    - rewrite Hcols. split; [naive_solver|]. intros [Hk [Hb|[_ Hno]]]; [done|].
      destruct (proj1 (Hcols c0)) as [Hk0 Hb0]; [left|]. by destruct (Hno _ Hk0). }
  split.
  - apply Forall_forall. intros fk Hin%dedup_sub. by apply Hm.
  - intros fk Hin%Hm. by destruct (dedup_covers None matches fk Hin).
Qed.

(** The aliases of tables joined in this order. *)
Fixpoint name_all (g : AliasGen) (tables : list (list char)) : AliasGen * list (list char) :=
  match tables with
  | [] => (g, [])
  | t :: tables' =>
      let '(g', a) := next_alias g t in
      let '(g'', l) := name_all g' tables' in (g'', a :: l)
  end.

Lemma name_all_app g xs ys :
  name_all g (xs ++ ys) =
  (let '(g', l) := name_all g xs in let '(g'', l') := name_all g' ys in (g'', l ++ l')).
Proof.
  revert g. induction xs as [|x xs IH]; intros g; [by cbn; destruct (name_all g ys)|].
  cbn [name_all app]. destruct (next_alias g x) as [g1 a]. rewrite IH.
  destruct (name_all g1 xs) as [g2 l]. by destruct (name_all g2 ys).
Qed.

(** What a step of the resolution does to the state: the joins it makes, named in
    their order, and the predicates it counts. *)
Definition grows (ks : list JoinStep) (p : nat) (ctx ctx' : ResolveCtx) : Prop :=
  linked (joins ctx') /\ predicate_count ctx' = (predicate_count ctx + p)%nat /\
  joins ctx' = joins ctx ++ ks /\
  name_all (aliases ctx) (map j_to_table ks) = (aliases ctx', map j_to_alias ks).

Lemma grows_refl ctx ctx' p :
  linked (joins ctx) -> joins ctx' = joins ctx -> aliases ctx' = aliases ctx ->
  predicate_count ctx' = (predicate_count ctx + p)%nat -> grows [] p ctx ctx'.
Proof.
  intros Hl Hj Ha Hp. split; [by rewrite Hj|]. split; [done|]. by rewrite app_nil_r, Ha.
Qed.

Lemma grows_trans k1 p1 k2 p2 c1 c2 c3 :
  grows k1 p1 c1 c2 -> grows k2 p2 c2 c3 -> grows (k1 ++ k2) (p1 + p2) c1 c3.
Proof.
  intros (? & Hp1 & Hj1 & Hn1) (? & Hp2 & Hj2 & Hn2).
  split; [done|]. split; [lia|]. rewrite Hj2, Hj1, <- app_assoc, !map_app, name_all_app, Hn1, Hn2. done.
Qed.

Lemma follow_hop_Ok span at_ segment ctx ctx' at' :
  linked (joins ctx) -> at_ ∈ scope (joins ctx) ->
  follow_hop normalize_identifier source_alias source_schema fks span at_ segment ctx = (ctx', Ok at') ->
  exists j, grows [j] 0 ctx ctx' /\ joins_segment at_ segment j /\ at' = (j_to_table j, j_to_alias j).
Proof.
  intros Hl Hin. destruct at_ as [table alias]. unfold follow_hop. intros Hf.
  sm_inv Hf as [fk a] c1 Hr e Herr; [|done]. unfold resolve_hop in Hr.
  pose proof (hop_matches_named segment table) as Hm.
  destruct (hop_matches _ _ _ _) as [|fk1 [|fk2 l]]; [done| |done].
  destruct (next_alias _ _) as [g al] eqn:Hal. simplify_eq.
  destruct (fk_columns fk) as [|ca cas] eqn:Ha; [done|].
  destruct (fk_referenced_columns fk) as [|cb cbs] eqn:Hb; [done|].
  sm_unfold_in Hf. simpl in Hf. simplify_eq.
  exists (mkJoin Inner alias source_schema (fk_referenced_table fk) a (FkPath ca cb)).
  split; [|split; [by exists fk, ca, cas, cb, cbs; split_and!|done]].
  split; [|split; [simpl; lia|split; [done|cbn [map j_to_table j_to_alias name_all aliases]; by rewrite Hal]]].
  simpl. constructor; [done|]. split; [done|]. split; [done|].
  destruct Hm as [Hn _]. inversion Hn as [|? ? [[Hfk Ht] _] _]; subst. exists table, fk.
  split; [done|]. split; [done|]. split; [done|]. split; [done|]. exists ca, cb. by rewrite Ha, Hb.
Qed.

Lemma joined_in_scope js j : (j_to_table j, j_to_alias j) ∈ scope (js ++ [j]).
Proof. unfold scope. rewrite map_app, elem_of_cons, elem_of_app. right; right. left. Qed.

Lemma follow_hops_Ok span at_ segs ctx ctx' at' :
  linked (joins ctx) -> at_ ∈ scope (joins ctx) ->
  follow_hops normalize_identifier source_alias source_schema fks span at_ segs ctx = (ctx', Ok at') ->
  exists ks, grows ks 0 ctx ctx' /\ path at_ segs ks at'.
Proof.
  revert at_ ctx. induction segs as [|s segs IH]; intros at_ ctx Hl Hin Hf; simpl in Hf.
  { sm_unfold_in Hf. simplify_eq. exists []. split; [|constructor]. apply grows_refl; [done..|lia]. }
  sm_inv Hf as at1 c1 H1' e Herr; [|done].
  destruct (follow_hop_Ok _ _ _ _ _ _ Hl Hin H1') as (j & G1 & Hj & ->). pose proof G1 as (Hl1 & _ & Hj1 & _).
  destruct (IH _ _ Hl1 ltac:(rewrite Hj1; apply joined_in_scope) Hf) as (ks & G2 & Hp).
  exists (j :: ks). split; [exact (grows_trans [j] 0 _ 0 _ _ _ G1 G2)|by constructor].
Qed.

Lemma path_length at_ segs js to : path at_ segs js to -> length js = length segs.
Proof. induction 1; simpl; congruence. Qed.

(** ** Predicates and groups *)

Lemma lower_predicate_Ok p ctx ctx' node :
  linked (joins ctx) ->
  lower_predicate normalize_identifier source_alias source_schema fks p ctx = (ctx', Ok node) ->
  exists ks q, grows ks (dotted (FilterParser.p_lhs p)) ctx ctx' /\ node = FPredicate q /\
    lowers_predicate p ks q /\ length ks = hops (FilterParser.p_lhs p).
Proof.
  intros Hl Hp. unfold lower_predicate in Hp. unfold lowers_predicate.
  destruct (FilterParser.p_lhs p) as [c|segs] eqn:Hx.
  - sm_unfold_in Hp. simplify_eq. exists []. eexists.
    split; [apply grows_refl; [done..|simpl; lia]|]. split; [done|]. split; [|done]. by do 2 eexists.
  - destruct segs as [|t hops _] using rev_ind; [done|]. rewrite last_snoc, removelast_last in Hp.
    sm_inv Hp as at_ c1 H1' e Herr; [|done]. destruct at_ as [table alias].
    destruct (follow_hops_Ok _ _ _ _ _ _ Hl ltac:(left) H1') as (ks & G1 & Hpath).
    sm_unfold_in Hp. simpl in Hp. simplify_eq. exists ks. eexists. split; [|split; [done|split]].
    + destruct G1 as (? & Hc & ? & ?). split; [done|]. split; [simpl in *; lia|done].
    + do 2 eexists. split; [done|]. by exists hops, table.
    + rewrite (path_length _ _ _ _ Hpath). simpl. rewrite length_app. simpl. lia.
Qed.

(** What lowering an expression gives. *)
Definition lowered (e : FilterParser.FilterExpr) (ctx ctx' : ResolveCtx) (node : FilterNode) : Prop :=
  exists ks, grows ks (sum_lhs dotted e) ctx ctx' /\ lowers e ks node /\ length ks = sum_lhs hops e.

Lemma lower_all_Ok cs nodes ctx ctx' :
  Forall (fun e => forall c c' n, linked (joins c) ->
    lower_expr normalize_identifier source_alias source_schema fks e c = (c', Ok n) ->
    lowered e c c' n) cs ->
  linked (joins ctx) ->
  lower_all (lower_expr normalize_identifier source_alias source_schema fks) cs ctx = (ctx', Ok nodes) ->
  exists jss, grows (concat jss) (list_sum (map (sum_lhs dotted) cs)) ctx ctx' /\
    Forall3 lowers cs jss nodes /\ length (concat jss) = list_sum (map (sum_lhs hops) cs).
Proof.
  intros HF. revert nodes ctx. induction HF as [|e cs He HF IH]; intros nodes ctx Hl Hr; simpl in Hr.
  { sm_unfold_in Hr. simplify_eq. exists []. split; [apply grows_refl; [done..|simpl; lia]|].
    split; [constructor|done]. }
  sm_inv Hr as n c1 H1' err Herr; [|done]. destruct (He _ _ _ Hl H1') as (ks & G1 & L1 & Hn1).
  sm_inv Hr as ns c2 H2' err Herr; [|done].
  sm_unfold_in Hr. simplify_eq. destruct (IH _ _ (proj1 G1) H2') as (jss & G2 & L2 & Hn2).
  exists (ks :: jss). simpl. split; [exact (grows_trans _ _ _ _ _ _ _ G1 G2)|].
  split; [by constructor|]. rewrite length_app. congruence.
Qed.

Lemma lower_expr_Ok e ctx ctx' node :
  linked (joins ctx) ->
  lower_expr normalize_identifier source_alias source_schema fks e ctx = (ctx', Ok node) ->
  lowered e ctx ctx' node.
Proof.
  revert ctx ctx' node. induction e as [p|op cs IH] using filter_nested_ind; intros ctx ctx' node Hl He.
  - destruct (lower_predicate_Ok _ _ _ _ Hl He) as (ks & q & G & -> & Hq & Hn). exists ks.
    split; [done|]. split; [by constructor|done].
  - cbn [lower_expr] in He. sm_inv He as nodes c1 H1' err Herr; [|done].
    destruct (lower_all_Ok _ _ _ _ IH Hl H1') as (jss & G & L & Hn). sm_unfold_in He. simplify_eq.
    exists (concat jss). split; [done|]. split; [by constructor|done].
Qed.

(** ** Errors *)










(** ** Aliases *)

(** No table is named like the numbered alias of another one. *)
Definition no_numbered (tables : list (list char)) : Prop :=
  forall t t' n, t ∈ tables -> t' ∈ tables -> (2 <= n)%N -> t <> t' ++ text "_" ++ decimal n.

Definition use_key (u : list char * N) : list char * N := (lower_case u.1, u.2).
Definition use_alias (u : list char * N) : list char := alias_text u.1 u.2.

(** Each use of a table, whatever its case, has a number of its own. *)
Definition uses_ok (g : AliasGen) (us : list (list char * N)) : Prop :=
  NoDup (map use_key us) /\
  Forall (fun u => 1 <= u.2 /\ u.2 <= default 0 (g !! (lower_case u.1 : list N)))%N us.

Lemma next_alias_uses g us t g' a :
  uses_ok g us -> next_alias g t = (g', a) ->
  exists n, a = use_alias (t, n) /\ uses_ok g' (us ++ [(t, n)]).
Proof.
  unfold next_alias. intros [Hnd Hle] Hn. simplify_eq. unfold AliasGen, char in *.
  set (n := (default 0 (g !! _) + 1)%N). exists n. split; [done|]. unfold uses_ok, AliasGen. split.
  - rewrite map_app. apply NoDup_app. split; [done|]. split; [|apply NoDup_singleton].
    intros k Hk Hin%list_elem_of_singleton. subst k.
    apply list_elem_of_In, in_map_iff in Hk as ([t1 n1] & Hkey & Hin%list_elem_of_In).
    rewrite Forall_forall in Hle. apply Hle in Hin. unfold use_key in Hkey. simpl in *.
    injection Hkey as Ht ->. rewrite Ht in Hin. unfold n in Hin. unfold char in *. lia.
  - apply Forall_app. split; [|constructor; [|constructor]].
    + eapply List.Forall_impl; [|exact Hle]. intros [t1 n1] Hu. cbn in Hu |- *.
      destruct (decide ((lower_case t1 : list N) = lower_case t)) as [He|Hne].
      * rewrite He in Hu |- *. rewrite lookup_insert_eq. unfold n. simpl. lia.
      * by rewrite lookup_insert_ne by done.
    + simpl. rewrite lookup_insert_eq. simpl. unfold n. lia.
Qed.

Lemma name_all_uses g us tables g' l :
  uses_ok g us -> name_all g tables = (g', l) ->
  exists vs, map fst vs = tables /\ l = map use_alias vs /\ uses_ok g' (us ++ vs).
Proof.
  revert g us l. induction tables as [|t tables IH]; intros g us l Hu Hn.
  { simpl in Hn. simplify_eq. exists []. by rewrite app_nil_r. }
  cbn [name_all] in Hn. destruct (next_alias g t) as [g1 a] eqn:Ha.
  destruct (name_all g1 tables) as [g2 l2] eqn:Hl. simplify_eq.
  destruct (next_alias_uses _ _ _ _ _ Hu Ha) as (n & -> & Hu1).
  destruct (IH _ _ _ Hu1 Hl) as (vs & <- & -> & Hu2).
  exists ((t, n) :: vs). split; [done|]. split; [done|]. by rewrite <- app_assoc in Hu2.
Qed.

Lemma same_tail (x : char) l1 l2 d1 d2 :
  x ∉ d1 -> x ∉ d2 -> l1 ++ x :: d1 = l2 ++ x :: d2 -> l1 = l2 /\ d1 = d2.
Proof.
  intros H1 H2 Heq. apply app_eq_app in Heq as (l & [[-> He]|[-> He]]).
  - destruct l as [|y l]; simpl in He; [by simplify_eq; rewrite app_nil_r|].
    injection He as <- ->. destruct H2. apply elem_of_app. right. apply list_elem_of_here.
  - destruct l as [|y l]; simpl in He; [by simplify_eq; rewrite app_nil_r|].
    injection He as <- ->. destruct H1. apply elem_of_app. right. apply list_elem_of_here.
Qed.

Lemma underscore_no_digit n : ch "_"%char ∉ decimal n.
Proof.
  intros Hin%list_elem_of_In. pose proof (decimal_digits n) as Hd. rewrite forallb_forall in Hd.
  by apply Hd in Hin.
Qed.

Lemma use_alias_inj tables u v :
  no_numbered tables -> u.1 ∈ tables -> v.1 ∈ tables -> (1 <= u.2)%N -> (1 <= v.2)%N ->
  use_alias u = use_alias v -> u = v.
Proof.
  destruct u as [t n], v as [t' n']. unfold use_alias, alias_text. simpl.
  intros Hno Ht Ht' Hn Hn'. destruct (N.eqb_spec n 1) as [->|], (N.eqb_spec n' 1) as [->|]; intros Heq.
  - by subst.
  - exfalso. eapply (Hno t t' n'); [done|done|lia|done].
  - exfalso. eapply (Hno t' t n); [done|done|lia|done].
  - apply same_tail in Heq as [-> Hd]; [|apply underscore_no_digit..]. by apply decimal_inj in Hd as ->.
Qed.

Lemma use_aliases_NoDup tables us :
  no_numbered tables -> Forall (fun u => u.1 ∈ tables /\ 1 <= u.2)%N us -> NoDup (map use_key us) ->
  NoDup (map use_alias us).
Proof.
  intros Hno. induction us as [|u us IH]; intros HF Hnd; [constructor|]. simpl in *.
  inversion HF as [|? ? [Ht Hn] HF']; subst. apply NoDup_cons in Hnd as [Hni Hnd].
  apply NoDup_cons. split; [|by apply IH]. intros Hin. apply Hni.
  apply list_elem_of_In, in_map_iff in Hin as (v & Hv & Hin). rewrite Forall_forall in HF'.
  destruct (HF' v) as [Htv Hnv]; [by apply list_elem_of_In|].
  rewrite <- (use_alias_inj tables v u) by done. apply list_elem_of_In, in_map_iff. by exists v.
Qed.

Lemma linked_tables js : linked js -> Forall (fun t => t ∈ map fk_referenced_table fks) (map j_to_table js).
Proof.
  induction 1 as [|js j _ IH Hj]; [constructor|]. rewrite map_app. apply Forall_app. split; [done|].
  constructor; [|constructor]. destruct Hj as (_ & _ & t & fk & _ & Hfk & _ & -> & _).
  apply list_elem_of_In, in_map, list_elem_of_In, Hfk.
Qed.

End Props.

Section Resolved.
Context `{CharLib} `{ValueLib} (normalize_identifier : list char -> list char).


(** The aliases of the joins differ from each other and from the name of the
    source's table, provided no table has a name that another one's numbered
    alias takes. *)
Theorem lowered_aliases_are_distinct ast source fks low
    (Hno : no_numbered (st_table source :: map fk_referenced_table fks))
    (Hr : resolve normalize_identifier ast source fks = Ok low) :
  NoDup (st_table source :: map j_to_alias (vq_joins (spec low))).
Proof.
  unfold resolve in Hr. destruct (lower_expr _ _ _ _ _ _) as [ctx [node|e]] eqn:He; [|done].
  simpl in Hr. simplify_eq. simpl.
  apply lower_expr_Ok in He as (ks & (Hl & _ & Hj & Hn) & _); [|constructor]. simpl in *. subst ks.
  assert (Hu : uses_ok (alias_gen_new (st_table source)) [(st_table source, 1%N)]).
  { split; [apply NoDup_singleton|]. constructor; [|constructor]. unfold alias_gen_new, AliasGen. simpl.
    by rewrite lookup_singleton_eq. }
  destruct (name_all_uses _ _ _ _ _ Hu Hn) as (vs & Hfst & -> & Hnd & Hle).
  change (st_table source) with (use_alias (st_table source, 1%N)) at 1.
  change (NoDup (map use_alias ([(st_table source, 1%N)] ++ vs))).
  apply linked_tables in Hl. rewrite <- Hfst, List.Forall_map in Hl.
  eapply use_aliases_NoDup; [exact Hno| |exact Hnd]. constructor.
  - split; [apply list_elem_of_here|simpl; lia].
  - inversion Hle as [|? ? _ Hvs]; subst. rewrite Forall_forall in *. intros u Hin.
    split; [apply elem_of_cons; right; by apply Hl|by apply Hvs].
Qed.

End Resolved.

(** ** A concrete schema *)

#[local] Existing Instance text_values.

Definition demo_fks : list SchemaForeignKeyInfo :=
  [mkFk (text "fk_author") (text "books") [text "author_id"] (text "users") [text "id"];
   mkFk (text "fk_boss") (text "users") [text "boss_id"] (text "users") [text "id"]].
Definition demo_source : SourceTable := mkSource None (text "books") (text "books").
Definition demo_path (segments : list string) : FilterParser.FilterExpr :=
  FilterParser.Predicate (FilterParser.mkPredicate (FilterParser.DottedPath (map text segments))
    (FilterParser.mkSpan 0 0) Cmp.IsNull NoValue).

Example demo_joins :
  match resolve id (demo_path ["author"; "boss"; "name"]) demo_source demo_fks with
  | Ok low => map j_to_alias (vq_joins (spec low)) = [text "users"; text "users_2"]
  | Err _ => False
  end.
Proof. vm_compute. reflexivity. Qed.

Lemma lowered_aliases_are_distinct_witness :
  no_numbered (st_table demo_source :: map fk_referenced_table demo_fks) /\
  exists low, resolve id (demo_path ["author"; "boss"; "name"]) demo_source demo_fks = Ok low /\
    NoDup (st_table demo_source :: map j_to_alias (vq_joins (spec low))).
Proof.
  assert (Hno : no_numbered (st_table demo_source :: map fk_referenced_table demo_fks)).
  { intros t t' n Ht _ _ Heq.
    assert (Hin : ch "_"%char ∈ t) by (rewrite Heq; apply elem_of_app; right; apply list_elem_of_here).
    clear Heq. simpl in Ht. rewrite !elem_of_cons in Ht.
    destruct Ht as [-> |[-> |[-> |Ht]]]; [by apply list_elem_of_In in Hin; vm_compute in Hin; intuition discriminate..|by apply elem_of_nil in Ht]. }
  split; [exact Hno|]. eexists. split; [vm_compute; reflexivity|].
  eapply (lowered_aliases_are_distinct id (demo_path ["author"; "boss"; "name"]) demo_source demo_fks);
    [exact Hno|vm_compute; reflexivity].
Defined.

(** Without that proviso two joins can share an alias: here the table reached
    last is itself called [users_2]. *)
Example numbered_table_shares_an_alias :
  let fks := demo_fks ++ [mkFk (text "fk_old") (text "users") [text "old_id"] (text "users_2") [text "id"]] in
  match resolve id (demo_path ["author"; "boss"; "old"; "name"]) demo_source fks with
  | Ok low => map j_to_alias (vq_joins (spec low)) = [text "users"; text "users_2"; text "users_2"]
  | Err _ => False
  end.
Proof. vm_compute. reflexivity. Qed.
