(* ===== verification/SqlSafetyProps.v ===== *)
(** * What the classification of SQL guarantees

    [reads] says, on the tokens of a statement, when it only reads.  A script
    counts as a safe read exactly when every dialect sees at most one statement in
    it and that statement reads, and a script that runs unasked under the built-in
    policies is such a script. *)

From S2P Require Import Prelude RustStr External Concrete RustChar Classification Policy Events Governance SqlLexer SqlSafety.

(** ** Statements that act *)

(** Words that change data, schema or rights, and words that name a lock. *)
Definition EFFECT_WORDS : list string :=
  ["INSERT"; "UPDATE"; "DELETE"; "MERGE"; "REPLACE"; "UPSERT"; "COPY"; "CALL"; "DO"; "LOCK";
   "INTO"; "TRUNCATE"; "DROP"; "ALTER"; "CREATE"; "GRANT"; "REVOKE"].
Definition FUNCTION_WORDS : list string := ["REPLACE"; "INSERT"; "TRUNCATE"].
Definition LOCK_WORDS : list string := ["UPDATE"; "SHARE"; "NO"; "KEY"].

(** A word that stands for a name: the last part of a qualified one, or alone
    in brackets. *)
Inductive names (pre post : list Token) : Prop :=
| names_qualified pre' w :
    pre = pre' ++ [Word w; Symbol (ch ".")] -> some_and is_digit (head w) = false -> names pre post
| names_qualified_quoted pre' : pre = pre' ++ [Quoted; Symbol (ch ".")] -> names pre post
| names_bracketed pre' post' :
    pre = pre' ++ [Symbol (ch "[")] -> post = Symbol (ch "]") :: post' -> names pre post.

(** The token between [pre] and [post] is not a name, and it acts. *)
Inductive acts_at : list Token -> Token -> list Token -> Prop :=
| acts_word pre w post :
    w ∈ keywords EFFECT_WORDS -> ~ names pre post ->
    ~ (w ∈ keywords FUNCTION_WORDS /\ exists post', post = Symbol lparen :: post') ->
    acts_at pre (Word w) post
| acts_lock pre k post :
    k ∈ keywords LOCK_WORDS -> ~ names pre (Word k :: post) ->
    acts_at pre (Word (kw "FOR")) (Word k :: post).

Definition acts (tokens : list Token) : Prop :=
  exists pre t post, tokens = pre ++ t :: post /\ acts_at pre t post.

Lemma token_after_mid pre t post : token_after (pre ++ t :: post) (length pre) = head post.
Proof.
  unfold token_after. rewrite lookup_app_r by lia.
  replace (length pre + 1 - length pre)%nat with 1%nat by lia. by destruct post.
Qed.

Lemma token_before_one pre t post : token_before (pre ++ t :: post) (length pre) 1 = last pre.
Proof.
  unfold token_before. destruct pre as [|x pre _] using rev_ind; [done|].
  rewrite last_snoc, length_app. simpl. replace (_ <? 1)%nat with false by (symmetry; apply Nat.ltb_ge; lia).
  replace (length pre + 1 - 1)%nat with (length pre) by lia.
  rewrite <- app_assoc. simpl. by rewrite list_lookup_middle.
Qed.

Lemma token_before_two pre x t post :
  token_before ((pre ++ [x]) ++ t :: post) (length (pre ++ [x])) 2 = last pre.
Proof.
  rewrite <- app_assoc. simpl. rewrite <- (token_before_one pre x (t :: post)).
  unfold token_before. rewrite length_app. simpl.
  replace (length pre + 1 - 2)%nat with (length pre - 1)%nat by lia.
  destruct (Nat.ltb_spec (length pre) 1), (Nat.ltb_spec (length pre + 1) 2); done || lia.
Qed.

Lemma sym_at_true o c : sym_at o c = true <-> o = Some (Symbol c).
Proof.
  destruct o as [[| |s]|]; simpl; try done. rewrite N.eqb_eq. naive_solver.
Qed.

Lemma names_spec pre t post :
  is_qualified_name (pre ++ t :: post) (length pre) ||
  is_lone_bracketed_name (pre ++ t :: post) (length pre) = true <-> names pre post.
Proof.
  unfold is_qualified_name, is_lone_bracketed_name.
  rewrite orb_true_iff, !andb_true_iff, !sym_at_true, token_before_one, token_after_mid.
  rewrite !last_Some. split.
  - intros [[[p1 ->] Hq]|[[p1 ->] Hp]].
    + rewrite token_before_two in Hq. destruct (last p1) as [q|] eqn:Hl; [|done].
      apply last_Some in Hl as [p2 ->]. rewrite <- app_assoc. simpl.
      destruct q as [w| |]; [|by eapply names_qualified_quoted|done].
      eapply names_qualified; [done|]. by apply negb_true_iff.
    + destruct post as [|p post]; [done|]. injection Hp as ->. by eapply names_bracketed.
  - intros [pre' w -> Hw|pre' ->|pre' post' -> ->].
    + left. change [Word w; Symbol (ch ".")] with ([Word w] ++ [Symbol (ch ".")]).
      rewrite app_assoc, token_before_two, last_snoc. simpl. rewrite Hw. eauto.
    + left. change [Quoted; Symbol (ch ".")] with ([Quoted] ++ [Symbol (ch ".")]).
      rewrite app_assoc, token_before_two, last_snoc. eauto.
    + right. eauto.
Qed.

Lemma is_kw_true w l : is_kw w l = true <-> w ∈ keywords l.
Proof. unfold is_kw. by rewrite bool_decide_eq_true. Qed.

Lemma word_in_true t l : word_in t l = true <-> exists w, t = Word w /\ w ∈ keywords l.
Proof.
  unfold word_in. destruct t as [w| |]; simpl; [rewrite is_kw_true|..]; naive_solver.
Qed.

(** The class a word of a body contributes is a write or stricter. *)
Lemma word_class_mutates tokens i w c : word_class tokens i w = Some c -> ~ class_le c Read.
Proof. unfold word_class. intros Hc. repeat case_match; simplify_eq; by vm_compute. Qed.

(** The words of the three branches are the effect words. *)
Lemma effect_words w :
  is_kw w ["INSERT"; "UPDATE"; "DELETE"; "MERGE"; "REPLACE"; "UPSERT"; "COPY"; "CALL"; "DO"; "LOCK";
           "INTO"] || is_kw w ["TRUNCATE"; "DROP"; "ALTER"] || is_kw w ["CREATE"; "GRANT"; "REVOKE"]
  = true <-> w ∈ keywords EFFECT_WORDS.
Proof.
  rewrite !orb_true_iff, !is_kw_true. unfold keywords, EFFECT_WORDS.
  rewrite !map_cons, !elem_of_cons. simpl. rewrite elem_of_nil. tauto.
Qed.

Lemma word_class_spec pre w post :
  ~ names pre post ->
  (word_class (pre ++ Word w :: post) (length pre) w <> None <-> acts_at pre (Word w) post).
Proof.
  intros Hn. unfold word_class, is_function_call. rewrite token_after_mid.
  change ["REPLACE"; "INSERT"; "TRUNCATE"] with FUNCTION_WORDS.
  destruct (is_kw w FUNCTION_WORDS && sym_at (head post) lparen) eqn:Hf.
  { apply andb_true_iff in Hf as [Hw%is_kw_true Hp%sym_at_true].
    destruct post as [|p post]; [done|]. injection Hp as ->. split; [done|].
    intros Ha. inversion Ha; subst. naive_solver. }
  pose proof (effect_words w) as He.
  destruct (is_kw w ["INSERT"; _; _; _; _; _; _; _; _; _; _]) eqn:E1;
    [|destruct (is_kw w ["TRUNCATE"; _; _]) eqn:E2; [|destruct (is_kw w ["CREATE"; _; _]) eqn:E3]].
  1-3: split; [intros _|done]; apply acts_word; [by apply He|done|];
       intros [Hw%is_kw_true [post' ->]]; by rewrite Hw in Hf.
  simpl in He. destruct (is_kw w ["FOR"] && _) eqn:E4.
  - apply andb_true_iff in E4 as [Hw%is_kw_true Hp]. apply elem_of_cons in Hw as [->|[]%elem_of_nil].
    destruct post as [|p post]; [done|]. apply word_in_true in Hp as (k & -> & Hk).
    split; [intros _; by apply acts_lock|done].
  - split; [done|]. intros Ha. inversion Ha as [? ? ? Hw|? k ? Hk]; subst; [by apply He in Hw|].
    rewrite (proj2 (is_kw_true (kw "FOR") ["FOR"])) in E4 by (by apply list_elem_of_here).
    simpl in E4. rewrite (proj2 (word_in_true (Word k) _)) in E4; [done|]. by exists k.
Qed.

Lemma body_found_spec pre t post :
  body_found (pre ++ t :: post) (length pre) t <> None <-> acts_at pre t post.
Proof.
  unfold body_found. destruct t as [w| |c]; simpl; [|split; [done|by inversion 1]..].
  destruct (_ || _) eqn:Hn.
  - apply names_spec in Hn. split; [done|]. by inversion 1; subst.
  - apply word_class_spec. intros Hn'. apply (names_spec _ (Word w)) in Hn'. congruence.
Qed.

Lemma body_found_mutates tokens i t c : body_found tokens i t = Some c -> ~ class_le c Read.
Proof.
  unfold body_found. destruct (word t); [|done]. destruct (_ || _); [done|]. apply word_class_mutates.
Qed.

(** A fold of [max] over the found classes stays a read exactly when nothing is
    found. *)
Lemma fold_found_reads {A} (f : A -> option ExecutionClassification) l a :
  (forall x c, x ∈ l -> f x = Some c -> ~ class_le c Read) -> class_le a Read ->
  class_le (foldl (fun c x => match f x with
                              | Some found => classification_max c found
                              | None => c end) a l) Read <-> Forall (fun x => f x = None) l.
Proof.
  revert a. induction l as [|x l IH]; intros a Hf Ha; simpl; [done|].
  assert (forall y c, y ∈ l -> f y = Some c -> ~ class_le c Read) as Hl.
  { intros y c Hy. apply Hf. by apply elem_of_cons; right. }
  rewrite Forall_cons. destruct (f x) as [c|] eqn:Hx; [|rewrite IH by done; tauto].
  split; [|by intros [? _]]. intros Hle. exfalso.
  apply (Hf x c (list_elem_of_here _ _) Hx). destruct (classification_max_spec a c) as (_ & Hc & _).
  trans (classification_max a c); [done|]. trans (foldl (fun c x => match f x with
    | Some found => classification_max c found | None => c end) (classification_max a c) l); [|done].
  clear. generalize (classification_max a c). induction l as [|y l IH]; intros b; simpl; [done|].
  destruct (f y) as [d|]; [|apply IH]. trans (classification_max b d); [|apply IH].
  apply classification_max_spec.
Qed.

Lemma read_body_spec tokens : class_le (classify_read_body tokens) Read <-> ~ acts tokens.
Proof.
  unfold classify_read_body.
  rewrite (fold_found_reads (fun it => body_found tokens it.1 it.2)); [|by intros [i t] c _ ?%body_found_mutates|done].
  rewrite Forall_forall. split.
  - intros Hn (pre & t & post & -> & Ha). apply body_found_spec in Ha. apply Ha.
    apply (Hn (length pre, t)). apply elem_of_lookup_imap. exists (length pre), t.
    split; [done|]. by apply list_lookup_middle.
  - intros Hn it Hit. apply elem_of_lookup_imap in Hit as (i & t & -> & Hi). simpl.
    destruct (body_found tokens i t) as [c|] eqn:Hf; [|done]. exfalso. apply Hn.
    apply list_elem_of_split_length in Hi as (pre & post & -> & ->).
    exists pre, t, post. split; [done|]. apply body_found_spec. by rewrite Hf.
Qed.

(** ** Statements that read *)

(** A statement that reads without an [EXPLAIN], and a statement that reads: the
    symbols before the first word do not count, and an [EXPLAIN] reads when it
    does not run its statement, or when that statement reads. *)
Inductive reads_plainly : list Token -> Prop :=
| plain_symbol_before c l : reads_plainly l -> reads_plainly (Symbol c :: l)
| plain_show l : reads_plainly (Word (kw "SHOW") :: l)
| plain_query k l :
    k ∈ keywords ["SELECT"; "WITH"] -> ~ acts l -> reads_plainly (Word k :: l).

Inductive reads : list Token -> Prop :=
| reads_plain l : reads_plainly l -> reads l
| reads_symbol c l : reads l -> reads (Symbol c :: l)
| reads_plan k l target :
    k ∈ keywords EXPLAIN_WORDS -> explained l = (false, target) -> reads (Word k :: l)
| reads_nothing k l analyze :
    k ∈ keywords EXPLAIN_WORDS -> explained l = (analyze, []) -> reads (Word k :: l)
| reads_analyzed k l target :
    k ∈ keywords EXPLAIN_WORDS -> explained l = (true, target) -> reads_plainly target ->
    reads (Word k :: l).

Lemma leading_keyword_mutates k : ~ class_le (classify_leading_keyword k) Read.
Proof. unfold classify_leading_keyword. repeat case_match; by vm_compute. Qed.

(** The statements a leading word makes reads. *)
Lemma statement_word explain k l :
  class_le (classify_statement_with explain (Word k :: l)) Read <->
  (k ∈ keywords EXPLAIN_WORDS /\ class_le (explain l) Read) \/ k = kw "SHOW" \/
  (k ∈ keywords ["SELECT"; "WITH"] /\ ~ acts l).
Proof.
  unfold classify_statement_with. cbn [skip_leading_symbols word]. rewrite <- read_body_spec, <- !is_kw_true.
  assert (k = kw "SHOW" <-> is_kw k ["SHOW"] = true) as ->.
  { rewrite is_kw_true. unfold keywords. simpl. rewrite list_elem_of_singleton. done. }
  destruct (is_kw k EXPLAIN_WORDS) eqn:He.
  { assert (is_kw k ["SHOW"] = false /\ is_kw k ["SELECT"; "WITH"] = false) as [-> ->]; [|naive_solver].
    apply is_kw_true in He. unfold keywords, EXPLAIN_WORDS in He. rewrite !map_cons, !elem_of_cons in He.
    by destruct He as [->|[->|[->|[]%elem_of_nil]]]. }
  destruct (is_kw k ["SHOW"]); [split; [auto|by vm_compute]|].
  destruct (is_kw k ["SELECT"; "WITH"]); [naive_solver|].
  pose proof (leading_keyword_mutates k). naive_solver.
Qed.

Lemma reads_plainly_not_explain l : reads_plainly l -> explains_an_explain l = false.
Proof.
  induction 1 as [c l _ IH|l|k l Hk _]; [exact IH|done|].
  unfold keywords in Hk. rewrite !map_cons, !elem_of_cons in Hk.
  by destruct Hk as [->|[->|[]%elem_of_nil]].
Qed.

(** An explained statement that is not an [EXPLAIN] reads when it reads plainly. *)
Lemma plain_statement_spec explain tokens :
  explains_an_explain tokens = false ->
  class_le (classify_statement_with explain tokens) Read <-> reads_plainly tokens.
Proof.
  induction tokens as [|[k| |c] l IH]; intros Hn.
  - split; [by vm_compute|by inversion 1].
  - rewrite statement_word. split.
    + intros [[Hk%is_kw_true _]|[->|[? ?]]]; [|by constructor..].
      unfold explains_an_explain, word_in in Hn. simpl in Hn. congruence.
    + inversion 1; subst; [auto|]. naive_solver.
  - split; [by vm_compute|by inversion 1].
  - change (class_le (classify_statement_with explain l) Read <-> reads_plainly (Symbol c :: l)).
    rewrite IH by done. split; [by constructor|by inversion 1].
Qed.

Lemma explain_spec l :
  class_le (classify_explain l) Read <->
  (explained l).1 = false \/ (explained l).2 = [] \/ reads_plainly (explained l).2.
Proof.
  unfold classify_explain, classify_explain_with. destruct (explained l) as [a target]. simpl.
  destruct a; simpl; [|split; [by left|by vm_compute]].
  case_bool_decide as Ht; [split; [auto|by vm_compute]|].
  destruct (explains_an_explain target) eqn:He.
  - split; [by vm_compute|]. intros [?|[?|Hr%reads_plainly_not_explain]]; congruence.
  - rewrite plain_statement_spec by done. naive_solver.
Qed.

Lemma statement_reads tokens : class_le (classify_statement tokens) Read <-> reads tokens.
Proof.
  unfold classify_statement. induction tokens as [|[k| |c] l IH].
  - split; [by vm_compute|]. inversion 1 as [? Hp| | | |]. inversion Hp.
  - rewrite statement_word, explain_spec. destruct (explained l) as [a target] eqn:He. simpl. split.
    + intros [[Hk [->|[->|Hr]]]|Hp].
      * by eapply reads_plan.
      * by eapply reads_nothing.
      * destruct a; [by eapply reads_analyzed|by eapply reads_plan].
      * apply reads_plain. destruct Hp as [->|[? ?]]; by constructor.
    + inversion 1 as [? Hp| |? ? ? Hk Hx|? ? ? Hk Hx|? ? ? Hk Hx Hr]; subst;
        [inversion Hp; subst; auto|rewrite He in Hx; injection Hx as ? ?; subst; auto..].
  - split; [by vm_compute|]. inversion 1 as [? Hp| | | |]. inversion Hp.
  - change (class_le (classify_statement_with classify_explain l) Read <-> reads (Symbol c :: l)).
    rewrite IH. split; [by apply reads_symbol|]. inversion 1 as [? Hp| | | |]; subst; [|done].
    inversion Hp; subst. by apply reads_plain.
Qed.

(** The mutual recursion of [classify_statement] and [classify_explain] is
    never deeper than one: an explained statement that is an [EXPLAIN] again is a
    write before it is looked at. *)
Theorem explain_is_not_recursive tokens :
  classify_explain tokens = classify_explain_with classify_statement tokens.
Proof.
  unfold classify_explain, classify_explain_with. destruct (explained tokens) as [a target].
  destruct (_ || _); [done|]. destruct (explains_an_explain target) eqn:He; [done|].
  unfold classify_statement, classify_statement_with, explains_an_explain in *.
  destruct (skip_leading_symbols target) as [|t l]; [done|]. simpl in He.
  unfold word_in in He. destruct (word t); [by rewrite He|done].
Qed.

(** ** The options of [EXPLAIN] *)

Lemma explain_options_spec tokens depth a a' target :
  explain_options tokens depth a = (a', target) ->
  exists opts, tokens = opts ++ target /\
    (a' = false -> a = false /\ Forall (fun t => word_in t ["ANALYZE"; "ANALYSE"] = false) opts).
Proof.
  revert depth a. induction tokens as [|t rest IH]; intros depth a; simpl.
  { intros [= <- <-]. exists []. by rewrite Forall_nil. }
  assert (forall c, is_symbol t c = true -> word_in t ["ANALYZE"; "ANALYSE"] = false) as Hs by (by destruct t).
  destruct (is_symbol t lparen) eqn:Hl; [|destruct (is_symbol t rparen) eqn:Hr;
    [destruct (depth - 1 =? 0)%nat; [intros [= <- <-]; exists [t]; rewrite Forall_singleton; by eauto|]|]].
  all: intros (opts & -> & Ho)%IH; exists (t :: opts); split; [done|]; intros Ha; apply Ho in Ha as [Ha Hf].
  1,2: split; [done|]; constructor; by eauto.
  rewrite !orb_false_iff in Ha. destruct Ha as [[-> Hw] _]. by split; [|constructor].
Qed.

Lemma explain_words_spec tokens a a' target :
  explain_words tokens a = (a', target) ->
  exists opts, tokens = opts ++ target /\
    (a' = false -> a = false /\ Forall (fun t => word_in t ["ANALYZE"; "ANALYSE"] = false) opts) /\
    (forall t, head target = Some t -> is_explain_option t = false).
Proof.
  revert a. induction tokens as [|t rest IH]; intros a; simpl.
  { intros [= <- <-]. exists []. by rewrite Forall_nil. }
  destruct (is_explain_option t) eqn:Ht.
  - intros (opts & -> & Ho & Hh)%IH. exists (t :: opts). split_and!; [done| |done].
    intros [[-> Hw]%orb_false_iff Hf]%Ho. by split; [|constructor].
  - intros [= <- <-]. exists []. rewrite Forall_nil. split_and!; [done..|]. by intros ? [= ->].
Qed.

(** No option that runs the explained statement is overlooked: the tokens
    split into options and statement, [ANALYZE] stands among the options of no
    [EXPLAIN] that is taken not to run its statement, and the statement does not
    start with an option. *)
Theorem explain_without_analyze_runs_nothing tokens :
  let '(analyze, target) := explained tokens in
  exists opts, tokens = opts ++ target /\
    (analyze = false -> Forall (fun t => word_in t ["ANALYZE"; "ANALYSE"] = false) opts) /\
    (forall t, head target = Some t -> is_explain_option t = false).
Proof.
  unfold explained. destruct (some_and _ _).
  - destruct (explain_options tokens 0 false) as [a1 rest] eqn:H1.
    destruct (explain_words rest a1) as [a target] eqn:H2.
    apply explain_options_spec in H1 as (o1 & -> & Ho1).
    apply explain_words_spec in H2 as (o2 & -> & Ho2 & Hh).
    exists (o1 ++ o2). rewrite <- app_assoc. split_and!; [done| |done].
    intros [Ha Hf2]%Ho2. apply Ho1 in Ha as [_ Hf1]. by apply Forall_app.
  - destruct (explain_words tokens false) as [a target] eqn:H2.
    apply explain_words_spec in H2 as (o2 & -> & Ho2 & Hh). exists o2. split_and!; [done| |done].
    by intros [_ ?]%Ho2.
Qed.

(** ** Scripts *)

Section Scripts.
Context `{CharLib}.

(** A dialect sees at most one statement in the script, and it reads. *)
Definition reads_in (sql : list char) (rules : LexRules) : Prop :=
  statements_of (tokenize sql rules) = [] \/
  exists s, statements_of (tokenize sql rules) = [s] /\ reads s.

Lemma class_with_rules sql rules :
  class_le (classify_with_rules sql rules) Read <-> reads_in sql rules.
Proof.
  unfold classify_with_rules, reads_in. destruct (statements_of _) as [|s [|s' l]]; simpl.
  - split; [by left|by vm_compute].
  - rewrite classification_max_list_le, Forall_singleton, statement_reads. naive_solver.
  - split; [|naive_solver]. intros Hle. exfalso.
    destruct (classification_max_spec (classification_max_list (map classify_statement (s :: s' :: l)))
      Write) as (_ & Hw & _).
    assert (class_le Write Read) by (by etrans). by vm_compute in H0.
Qed.

Lemma script_reads sql :
  class_le (classify_sql_execution sql) Read <-> Forall (reads_in sql) DIALECT_RULES.
Proof.
  unfold classify_sql_execution. rewrite classification_max_list_le, Forall_map.
  apply Forall_iff. intros rules. apply class_with_rules.
Qed.

(** A script is a safe read exactly when every dialect finds code in it and
    sees at most one statement there, and that statement reads: nothing of it,
    outside literals, comments and names, is a word that changes anything. *)
Theorem safe_read_is_one_reading_statement sql :
  is_safe_read_query sql = true <->
  Forall (fun rules => tokenize sql rules <> [] /\ reads_in sql rules) DIALECT_RULES.
Proof.
  unfold is_safe_read_query. rewrite Forall_and, <- script_reads, andb_true_iff, forallb_forall, Forall_forall.
  setoid_rewrite <- list_elem_of_In. setoid_rewrite negb_true_iff.
  setoid_rewrite bool_decide_eq_false.
  split; (intros [? Hc]; split; [done|]); destruct (classify_sql_execution sql); done || by vm_compute.
Qed.

(** C9: a SQL script the built-in policies let run without asking, whatever the
    assignments, holds at most one statement in every dialect, and it reads. *)
Theorem unasked_sql_reads `{HashOrder} asg actor conn tool sql :
  evaluate (builtin_engine asg) (mkPolicyRequest actor conn tool (classify_sql_execution sql)) =
    Ok Allow ->
  Forall (reads_in sql) DIALECT_RULES.
Proof. intros Hr%builtin_allow_reads. by apply script_reads. Qed.

End Scripts.

Lemma unasked_sql_reads_witness :
  Forall (reads_in (text "SELECT replace(a, 'x', 'drop table t') FROM t")) DIALECT_RULES.
Proof.
  apply (unasked_sql_reads [mkAssignment "agent" "db" ["builtin/read-only"] []]
           "agent" "db" "select_data").
  vm_compute. reflexivity.
Defined.

(** A second statement, a data-modifying [WITH] and an [EXPLAIN ANALYZE] of a
    write are not safe reads; a word in a literal does not count. *)
Example unsafe_reads :
  map (fun s => is_safe_read_query (text s))
    ["SELECT 1; DROP TABLE t"; "WITH d AS (DELETE FROM t RETURNING *) SELECT * FROM d";
     "EXPLAIN (ANALYZE) DELETE FROM t"; "EXPLAIN DELETE FROM t"; "SELECT 'delete' FROM t";
     "SELECT 1 /*! ; DROP TABLE t */"; ""] =
  [false; false; false; true; true; false; false].
Proof. vm_compute. reflexivity. Qed.
