(* ===== verification/SqlCode.v ===== *)
(** * Lexing text that is put together

    A generated statement is constant text around names and literals.  [reads]
    says of a part of it which tokens it lexes to wherever it stands between
    gaps; it holds of constant text by computation and goes through the ways the
    code puts texts together. *)

From S2P Require Import Prelude RustStr RustChar Classification SqlLexer SqlLexerProps SqlSafety SqlSafetyProps SqlDialect SqlDialectProps.

(** A character that ends a word and begins nothing longer than itself. *)
Definition gap_char (c : char) : bool :=
  bool_decide (c ∈ [ch " "; ch ","; ch "("; ch ")"; ch ";"; ch "."; 10%N; ch "["; ch "]"]).

Definition lead_gap (l : list char) : Prop := match head l with Some c => gap_char c = true | None => True end.
Definition trail_gap (l : list char) : Prop := match last l with Some c => gap_char c = true | None => True end.

(** A character of a word. *)
Definition word_char (c : char) : bool := is_letter c || is_digit c || (c =? ch "_")%N.

Lemma gap_cases (P : char -> Prop) c :
  P (ch " ") -> P (ch ",") -> P (ch "(") -> P (ch ")") -> P (ch ";") -> P (ch ".") -> P 10%N -> P (ch "[") ->
  P (ch "]") -> gap_char c = true -> P c.
Proof.
  intros ?????????. unfold gap_char. rewrite bool_decide_eq_true, !elem_of_cons, elem_of_nil.
  intros Hc. repeat (destruct Hc as [-> |Hc]; [done|]). done.
Qed.

(** The tokens of lists joined by a separator. *)
Fixpoint join_list {A} (sep : list A) (l : list (list A)) : list A :=
  match l with
  | [] => []
  | [x] => x
  | x :: l' => x ++ sep ++ join_list sep l'
  end.

Lemma join_list_Forall {A} (P : A -> Prop) sep l :
  Forall P sep -> Forall (Forall P) l -> Forall P (join_list sep l).
Proof.
  intros Hs. induction 1 as [|x l Hx _ IH]; [constructor|]. destruct l as [|y l]; [done|].
  simpl. rewrite !Forall_app. done.
Qed.

Section Code.
Context `{CharLib} `{!CharLaws} (rules : LexRules).

Lemma gap_not_identifier c : gap_char c = true -> is_identifier_char c = false.
Proof.
  intros Hc. pattern c. apply gap_cases; [..|done];
    unfold is_identifier_char; by rewrite alphanumeric_ascii.
Qed.

Lemma word_char_spec c :
  word_char c = true ->
  is_identifier_char c = true /\ is_alphanumeric c || (c =? ch "_")%N = true /\ opens_nothing c = true.
Proof.
  intros Hp. assert (c < 128)%N as Hc.
  { revert Hp. unfold word_char, is_letter, is_upper, is_lower, is_digit. change (ch "_") with 95%N.
    rewrite !orb_true_iff, !andb_true_iff, !N.leb_le, N.eqb_eq. lia. }
  unfold is_identifier_char. rewrite alphanumeric_ascii by done. revert Hp.
  pattern c. apply ascii_ind; [|done]. clear c Hc.
  repeat (apply Forall_cons_2; [vm_compute; by intros|]). apply Forall_nil_2.
Qed.

Definition no_word (post : list char) : Prop :=
  match head post with Some c => is_identifier_char c = false | None => True end.

Lemma lead_gap_no_word post : lead_gap post -> no_word post.
Proof. unfold lead_gap, no_word. destruct (head post); [apply gap_not_identifier|done]. Qed.

(** ** Pieces *)

Lemma take_while_run w post :
  Forall (fun c => word_char c = true) w -> no_word post ->
  take_while is_identifier_char (w ++ post) = w.
Proof.
  intros Hw Hp. induction Hw as [|x l Hx _ IH]; simpl.
  - unfold no_word in Hp. destruct post as [|d post]; [done|]. simpl in *. by rewrite Hp.
  - by rewrite (proj1 (word_char_spec x Hx)), IH.
Qed.

Lemma scan_word pre c w post :
  Forall (fun c => word_char c = true) (c :: w) -> no_word post ->
  scan_at rules pre ((c :: w) ++ post) Normal =
  Word (map to_ascii_uppercase (c :: w)) :: scan_at rules (pre ++ c :: w) post Normal.
Proof.
  intros Hw Hp. inversion Hw as [|? ? Hc _]; subst. destruct (word_char_spec c Hc) as (_ & Hal & Ho).
  unfold scan_at at 1. cbn [app].
  erewrite scan_step; [|apply lookup_here|done|by rewrite step_opens_nothing, Hal].
  rewrite drop_app_length. change (c :: w ++ post) with ((c :: w) ++ post).
  rewrite (take_while_run (c :: w) post) by done.
  cbn [app]. f_equal. exact (scan_from_at rules pre (c :: w) post Normal).
Qed.

Lemma scan_symbol pre c post :
  plain_symbol c = true ->
  scan_at rules pre (c :: post) Normal = Symbol c :: scan_at rules (pre ++ [c]) post Normal.
Proof.
  intros Hc. destruct (plain_symbol_spec c Hc) as (Hal & Ho). unfold scan_at at 1.
  erewrite scan_step; [|apply lookup_here|done|by rewrite step_opens_nothing, Hal].
  cbn [app]. f_equal. exact (scan_from_at rules pre [c] post Normal).
Qed.

Lemma scan_white pre c post :
  is_whitespace c = true -> scan_at rules pre (c :: post) Normal = scan_at rules (pre ++ [c]) post Normal.
Proof. intros Hc. apply scan_at_skip; [done|]. unfold step, step_normal. by rewrite Hc. Qed.

Lemma scan_end pre : scan_at rules pre [] Normal = [].
Proof. unfold scan_at, scan_from. by rewrite app_nil_r, Nat.sub_diag. Qed.

(** ** Constant text *)

(** A word read so far, the newest character first. *)
Definition flush (w : list char) : list Token :=
  match w with [] => [] | _ => [Word (map to_ascii_uppercase (rev w))] end.

(** The tokens of words, plain symbols and white space. *)
Fixpoint lex_const (w l : list char) : option (list Token) :=
  match l with
  | [] => Some (flush w)
  | c :: l' =>
      if word_char c then lex_const (c :: w) l'
      else if (c =? ch " ")%N || (c =? 10)%N then ks ← lex_const [] l'; Some (flush w ++ ks)
      else if plain_symbol c then ks ← lex_const [] l'; Some (flush w ++ Symbol c :: ks)
      else None
  end.

Lemma scan_flush pre w post :
  Forall (fun c => word_char c = true) w -> no_word post ->
  scan_at rules pre (rev w ++ post) Normal = flush w ++ scan_at rules (pre ++ rev w) post Normal.
Proof.
  intros Hw Hp. apply Forall_rev in Hw. unfold flush. destruct (rev w) as [|x v] eqn:Hv.
  { destruct w as [|y w]; [by rewrite app_nil_r|]. by apply app_eq_nil in Hv as [_ ?]. }
  rewrite scan_word by done. by destruct w.
Qed.

Lemma symbol_no_word c l : plain_symbol c = true -> no_word (c :: l).
Proof.
  intros Hc. destruct (plain_symbol_spec c Hc) as (Hal & Ho). unfold no_word. simpl.
  unfold is_identifier_char. rewrite Hal. unfold opens_nothing in Ho.
  rewrite !andb_true_iff, !negb_true_iff in Ho. by destruct Ho as [_ ->].
Qed.

Lemma scan_const l : forall pre w ks post,
  Forall (fun c => word_char c = true) w -> lex_const w l = Some ks ->
  (l <> [] /\ trail_gap l) \/ lead_gap post ->
  scan_at rules pre (rev w ++ l ++ post) Normal = ks ++ scan_at rules (pre ++ rev w ++ l) post Normal.
Proof.
  induction l as [|c l IH]; intros pre w ks post Hw Hk Hp; cbn [lex_const] in Hk.
  { simplify_eq. simpl. rewrite app_nil_r. apply scan_flush; [done|].
    destruct Hp as [[]|]; [done|by apply lead_gap_no_word]. }
  assert (Hp' : (l <> [] /\ trail_gap l) \/ lead_gap post \/ (l = [] /\ gap_char c = true)).
  { destruct Hp as [[_ Hl]|]; [|tauto]. destruct l as [|d l]; [right; by right|left; by split]. }
  destruct (word_char c) eqn:Hc.
  { replace (rev w ++ (c :: l) ++ post) with (rev (c :: w) ++ l ++ post) by (simpl; by rewrite <- app_assoc).
    replace (pre ++ rev w ++ c :: l) with (pre ++ rev (c :: w) ++ l) by (simpl; by rewrite <- app_assoc).
    apply IH; [by constructor|done|]. destruct Hp' as [?|[?|[_ Hg]]]; [by left|by right|].
    apply gap_not_identifier in Hg. by rewrite (proj1 (word_char_spec c Hc)) in Hg. }
  assert (Hnext : forall ks', lex_const [] l = Some ks' ->
    scan_at rules ((pre ++ rev w) ++ [c]) (l ++ post) Normal =
    ks' ++ scan_at rules (pre ++ rev w ++ c :: l) post Normal).
  { intros ks' Hl. replace (pre ++ rev w ++ c :: l) with (((pre ++ rev w) ++ [c]) ++ l) by (by rewrite <- !app_assoc).
    destruct Hp' as [Hx|[Hx|[-> _]]]; [apply (IH _ []); [done|done|by left]|apply (IH _ []); [done|done|by right]|].
    simpl in Hl. simplify_eq. simpl. by rewrite app_nil_r. }
  destruct (_ || _) eqn:Hws.
  - destruct (lex_const [] l) as [ks'|]; [|done]. simpl in Hk. simplify_eq.
    assert (Hcw : is_whitespace c = true /\ is_identifier_char c = false).
    { apply orb_true_iff in Hws as [Hx%N.eqb_eq|Hx%N.eqb_eq]; subst c;
        (split; [done|]); unfold is_identifier_char; by rewrite alphanumeric_ascii. }
    cbn [app]. rewrite scan_flush by (done || apply Hcw). rewrite scan_white by apply Hcw.
    rewrite (Hnext ks') by done. by rewrite app_assoc.
  - destruct (plain_symbol c) eqn:Hs; [|done]. destruct (lex_const [] l) as [ks'|]; [|done]. simpl in Hk.
    simplify_eq. cbn [app]. rewrite scan_flush by (done || by apply symbol_no_word).
    rewrite scan_symbol by done. rewrite (Hnext ks') by done. by rewrite <- app_assoc.
Qed.

Lemma scan_constant pre l ks post :
  lex_const [] l = Some ks -> (l <> [] /\ trail_gap l) \/ lead_gap post ->
  scan_at rules pre (l ++ post) Normal = ks ++ scan_at rules (pre ++ l) post Normal.
Proof. intros Hk Hp. exact (scan_const l pre [] ks post (Forall_nil_2 _) Hk Hp). Qed.

(** ** Texts between gaps *)

Definition reads (t : list char) (ks : list Token) : Prop :=
  forall pre post, trail_gap pre -> lead_gap post ->
    scan_at rules pre (t ++ post) Normal = ks ++ scan_at rules (pre ++ t) post Normal.

Lemma reads_tokenize t ks : reads t ks -> tokenize t rules = ks.
Proof.
  intros Hr. unfold tokenize. rewrite scan_more by (done || lia).
  change (scan_from rules t 0 Normal) with (scan_at rules [] t Normal).
  rewrite <- (app_nil_r t) at 1. rewrite Hr by done. by rewrite scan_end, app_nil_r.
Qed.

Lemma reads_nil : reads [] [].
Proof. intros pre post _ _. simpl. by rewrite app_nil_r. Qed.

Lemma reads_const t ks : lex_const [] t = Some ks -> reads t ks.
Proof. intros Ht pre post _ Hp. apply scan_constant; [done|by right]. Qed.

(** Constant text that ends, or begins and ends, with a gap. *)
Definition ends_gap (t : list char) : bool := match last t with Some c => gap_char c | None => false end.
Definition begins_gap (t : list char) : bool := match t with c :: _ => gap_char c | [] => false end.

Lemma ends_gap_spec pre t : ends_gap t = true -> t <> [] /\ trail_gap t /\ trail_gap (pre ++ t).
Proof.
  unfold ends_gap, trail_gap. intros Ht. destruct t as [|x t _] using rev_ind; [done|].
  rewrite app_assoc, !last_snoc in *. split; [by destruct t|done].
Qed.

Lemma reads_cons c kc t ks :
  lex_const [] c = Some kc -> ends_gap c = true -> reads t ks -> reads (c ++ t) (kc ++ ks).
Proof.
  intros Hc He Ht pre post Hpre Hp. destruct (ends_gap_spec pre c He) as (Hne & Hg & Hg').
  rewrite <- app_assoc, (scan_constant pre c kc); [|done|by left].
  rewrite Ht by done. by rewrite <- !app_assoc.
Qed.

Lemma reads_snoc t ks c kc :
  reads t ks -> lex_const [] c = Some kc -> begins_gap c = true -> reads (t ++ c) (ks ++ kc).
Proof.
  intros Ht Hc Hb pre post Hpre Hp. rewrite <- app_assoc, Ht; [|done|by destruct c].
  rewrite (scan_constant (pre ++ t) c kc); [|done|by right]. by rewrite <- !app_assoc.
Qed.

Lemma reads_around t ks c kc u kus :
  reads t ks -> lex_const [] c = Some kc -> begins_gap c = true -> ends_gap c = true -> reads u kus ->
  reads (t ++ c ++ u) (ks ++ kc ++ kus).
Proof.
  intros Ht Hc Hb He Hu pre post Hpre Hp. rewrite <- app_assoc, Ht; [|done|by destruct c].
  pose proof (reads_cons c kc u kus Hc He Hu) as Hcu. destruct (ends_gap_spec (pre ++ t) c He) as (_ & Hg & Hg').
  rewrite <- app_assoc, (scan_constant (pre ++ t) c kc); [|done|left; split; [by destruct c|apply (ends_gap_spec [] c He)]].
  rewrite Hu by done. by rewrite <- !app_assoc.
Qed.

Lemma reads_join sep ksep (l : list (list char * list Token)) :
  lex_const [] sep = Some ksep -> begins_gap sep = true -> ends_gap sep = true ->
  Forall (fun p => reads p.1 p.2) l ->
  reads (join_text sep (map fst l)) (join_list ksep (map snd l)).
Proof.
  intros Hs Hb He. induction 1 as [|[t ks] l Ht Hl IH]; [exact reads_nil|].
  destruct l as [|p l]; [exact Ht|]. exact (reads_around _ _ _ _ _ _ Ht Hs Hb He IH).
Qed.

Lemma reads_map {A} (f : A -> list char) (g : A -> list Token) sep ksep l :
  lex_const [] sep = Some ksep -> begins_gap sep = true -> ends_gap sep = true ->
  Forall (fun x => reads (f x) (g x)) l ->
  reads (join_text sep (map f l)) (join_list ksep (map g l)).
Proof.
  intros Hs Hb He Hl. pose proof (reads_join sep ksep (map (fun x => (f x, g x)) l) Hs Hb He) as Hj.
  rewrite !map_map in Hj. apply Hj. clear -Hl. induction Hl; constructor; done.
Qed.

(** ** Names and literals *)

Lemma lead_gap_not q post : lead_gap post -> q = 34%N \/ q = ch "'" -> head post <> Some q.
Proof.
  unfold lead_gap. destruct (head post) as [c|]; [|done]. intros Hc Hq [= ->]. by destruct Hq; subst.
Qed.

Lemma reads_identifier name :
  backslash_escapes rules = false -> reads (quote_double_quoted_identifier name) [Quoted].
Proof. intros Hb pre post _ Hp. apply scan_identifier; [done|]. apply lead_gap_not; auto. Qed.

Lemma gap_not_e pre : trail_gap pre -> some_and (fun p => char_eq_ignore_case p (ch "e")) (last pre) = false.
Proof.
  unfold trail_gap. destruct (last pre) as [c|]; [|done]. simpl. intros Hc. pattern c. by apply gap_cases.
Qed.

Lemma reads_literal s : backslash_escapes rules = false -> reads (quoted_literal s) [Quoted].
Proof.
  intros Hb pre post Hpre Hp. apply scan_literal; [done| |apply lead_gap_not; auto].
  right. by apply gap_not_e.
Qed.

End Code.
