(* ===== verification/LexedDialect.v ===== *)
(** * Dialects whose names and literals keep to themselves

    [LexedDialect] is what a dialect promises to the code that puts its names and
    literals into statements: each of them lexes to tokens of its own wherever it
    stands.  The default dialect keeps the promise by the rules of every engine
    without backslash escapes. *)

From S2P Require Import Prelude RustStr RustChar Classification SqlLexer SqlLexerProps SqlSafety SqlSafetyProps SqlDialect SqlDialectProps SqlCode.

(** A token that ends no statement and neither acts nor locks. *)
Definition inert (t : Token) : bool :=
  match t with
  | Word w => negb (is_kw w ("FOR" :: EFFECT_WORDS))
  | Symbol c => negb (c =? ch ";")%N
  | Quoted => true
  end.

Definition table_tokens (qualified : bool) : list Token :=
  if qualified then [Quoted; Symbol (ch "."); Quoted] else [Quoted].

Definition comma : list Token := [Symbol (ch ",")].
Definition parens (ks : list Token) : list Token := Symbol (ch "(") :: ks ++ [Symbol (ch ")")].
Definition list_tokens (l : list (list Token)) : list Token := join_list comma l.
Definition name_list_tokens (names : list (list char)) : list Token :=
  list_tokens (map (fun _ => [Quoted]) names).

(** How a dialect says what an upsert does where a row is already there. *)
Inductive UpsertStyle : Type := OnConflict | OnDuplicateKey.

Section Clauses.
Context `{CharLib} `{ValueLib} `{!SqlDialect} (rules : LexRules).
Abbreviation words l := (map (fun s => Word (kw s)) l).

Definition typed_tokens (a : ColumnAssignment) : list Token :=
  tokenize (value_to_literal_typed (ca_value a) (ca_type_name a)) rules.

Definition set_tokens (changes : list ColumnAssignment) : list Token :=
  list_tokens (map (fun a => [Quoted; Symbol (ch "=")] ++ typed_tokens a) changes).

Definition insert_tokens (table : list Token) (assignments : list ColumnAssignment) : list Token :=
  words ["INSERT"; "INTO"] ++ table ++ parens (name_list_tokens (map ca_name assignments)) ++
  words ["VALUES"] ++ parens (list_tokens (map typed_tokens assignments)).

(** The clause of an upsert behind its values. *)
Definition conflict_tokens (style : UpsertStyle) (conflicts : list (list char))
    (updates : list ColumnAssignment) : list Token :=
  match style, updates with
  | OnConflict, [] =>
      words ["ON"; "CONFLICT"] ++ parens (name_list_tokens conflicts) ++ words ["DO"; "NOTHING"]
  | OnConflict, _ =>
      words ["ON"; "CONFLICT"] ++ parens (name_list_tokens conflicts) ++
      words ["DO"; "UPDATE"; "SET"] ++ set_tokens updates
  | OnDuplicateKey, [] => []
  | OnDuplicateKey, _ => words ["ON"; "DUPLICATE"; "KEY"; "UPDATE"] ++ set_tokens updates
  end.

End Clauses.

Class LexedDialect `{CharLib} `{ValueLib} `{!SqlDialect} (rules : LexRules) := {
  value_ok : DbValue -> bool;
  qualifies : option (list char) -> bool;
  name_reads name : reads rules (quote_identifier name) [Quoted];
  table_reads schema table :
    reads rules (qualified_table schema table) (table_tokens (qualifies schema));
  literal_reads v :
    value_ok v = true ->
    reads rules (value_to_literal v) (tokenize (value_to_literal v) rules) /\
    Forall (fun t => inert t = true) (tokenize (value_to_literal v) rules);
  typed_literal_reads v ty :
    value_ok v = true ->
    reads rules (value_to_literal_typed v ty) (tokenize (value_to_literal_typed v ty) rules) /\
    Forall (fun t => inert t = true) (tokenize (value_to_literal_typed v ty) rules);
  upsert_style : UpsertStyle;
  upsert_reads schema table assignments conflicts updates sql :
    build_upsert_statement schema table assignments conflicts updates = Some sql ->
    Forall (fun a => value_ok (ca_value a) = true) (assignments ++ updates) ->
    reads rules sql
      (insert_tokens rules (table_tokens (qualifies schema)) assignments ++
       conflict_tokens rules upsert_style conflicts updates);
}.

(** ** The default dialect *)

(** The text of a number: a sign, digits and points. *)
Definition number_char (c : char) : bool := is_digit c || (c =? ch ".")%N.
Definition number_text (s : list char) : bool :=
  match s with
  | [] => false
  | c :: s' =>
      if (c =? ch "-")%N then match s' with d :: _ => is_digit d | [] => false end && forallb number_char s'
      else forallb number_char s
  end.

Definition no_quote (s : list char) : bool := forallb (fun c => negb (c =? ch "'")%N) s.

(** The texts of floats, dates and times, as the crates document them. *)
Class ValueTexts `{ValueLib} := {
  f64_number_text f :
    f64_is_nan f = false -> f64_is_infinite f = false -> number_text (f64_to_string f) = true;
  datetime_no_quote d : no_quote (datetime_text d) = true;
  date_no_quote d : no_quote (date_text d) = true;
  time_no_quote t : no_quote (time_text t) = true;
}.

(** Arrays are written with brackets, a decimal is written as it is, and bytes are
    bytes. *)
Fixpoint plain_value `{ValueLib} (rules : LexRules) (v : DbValue) : bool :=
  match v with
  | VDecimal s => number_text s
  | VBytes b => forallb (fun x => x <? 256)%N b
  | VArray l => negb (bracket_identifiers rules) && forallb (plain_value rules) l
  | _ => true
  end.

Fixpoint value_nested_ind `{ValueLib} (Q : DbValue -> Prop)
    (Ha : forall l, Forall Q l -> Q (VArray l))
    (Ho : forall v, (forall l, v <> VArray l) -> Q v) (v : DbValue) : Q v.
Proof.
  destruct v as [| | | | | | | | | | |l| | |]; [try (apply Ho; by intros)..|]; try (apply Ho; by intros).
  apply Ha. induction l as [|x l IH]; constructor; [by apply value_nested_ind|exact IH].
Defined.

Lemma double_char_none q l : forallb (fun c => negb (c =? q)%N) l = true -> double_char q l = l.
Proof.
  induction l as [|c l IH]; simpl; [done|]. intros [Hc%negb_true_iff Hl]%andb_true_iff.
  by rewrite Hc, IH.
Qed.

Lemma quoted_no_quote s : no_quote s = true -> ch "'" :: s ++ [ch "'"] = quoted_literal s.
Proof. intros Hs. unfold quoted_literal, escape_string. by rewrite double_char_none. Qed.

Lemma digit_word_inert c w : is_digit c = true -> inert (Word (c :: w)) = true.
Proof.
  intros Hc. simpl. unfold is_kw. rewrite bool_decide_eq_false_2; [done|].
  unfold keywords, EFFECT_WORDS. rewrite !map_cons, !elem_of_cons. simpl. rewrite elem_of_nil.
  intros Hw. repeat (destruct Hw as [Hw|Hw]; [injection Hw as -> _; by vm_compute in Hc|]). done.
Qed.

Lemma hex_digit_safe n :
  (n < 16)%N -> word_char (hex_digit n) = true /\ (hex_digit n =? ch "'")%N = false.
Proof.
  intros Hn. unfold hex_digit, word_char, is_letter, is_upper, is_lower, is_digit.
  change (ch "'") with 39%N. destruct (N.ltb_spec n 10).
  - rewrite !orb_true_iff, !andb_true_iff, !N.leb_le, N.eqb_neq. lia.
  - rewrite !orb_true_iff, !andb_true_iff, !N.leb_le, N.eqb_neq. lia.
Qed.

Lemma no_quote_app a b : no_quote (a ++ b) = no_quote a && no_quote b.
Proof. apply forallb_app. Qed.

Lemma hex_no_quote b : forallb (fun x => x <? 256)%N b = true -> no_quote (concat (map hex_byte b)) = true.
Proof.
  induction b as [|x b IH]; [done|]. cbn [forallb map concat]. intros [Hx%N.ltb_lt Hb]%andb_true_iff.
  rewrite no_quote_app, IH by done. unfold hex_byte, no_quote. cbn [forallb].
  rewrite (proj2 (hex_digit_safe (x / 16) ltac:(apply N.Div0.div_lt_upper_bound; lia))).
  by rewrite (proj2 (hex_digit_safe (x mod 16) ltac:(apply N.mod_lt; lia))).
Qed.

Section Default.
Context `{CharLib} `{!CharLaws} `{ValueLib} `{!ValueTexts} `{!DocumentJson} (rules : LexRules).
Context (Hb : backslash_escapes rules = false).

Definition code (t : list char) : Prop :=
  exists ks, reads rules t ks /\ Forall (fun k => inert k = true) ks.

Lemma code_tokenize t :
  code t -> reads rules t (tokenize t rules) /\ Forall (fun k => inert k = true) (tokenize t rules).
Proof. intros (ks & Hr & Hk). by rewrite (reads_tokenize rules t ks). Qed.

Lemma literal_code s : code (quoted_literal s).
Proof. exists [Quoted]. split; [by apply reads_literal|by repeat constructor]. Qed.

Lemma const_code t ks : lex_const [] t = Some ks -> forallb inert ks = true -> code t.
Proof.
  intros Ht Hk. exists ks. split; [by apply reads_const|]. apply List.Forall_forall. by apply forallb_forall.
Qed.

(** ** Numbers *)

Lemma lex_number s : forall w,
  forallb number_char s = true -> forallb is_digit w = true ->
  exists ks, lex_const w s = Some ks /\ Forall (fun k => inert k = true) ks.
Proof.
  assert (Hflush : forall w, forallb is_digit w = true -> Forall (fun k => inert k = true) (flush w)).
  { intros w Hw. destruct w as [|c w]; [constructor|]. constructor; [|constructor].
    assert (Hr : forallb is_digit (rev (c :: w)) = true).
    { rewrite forallb_forall in *. intros x Hx. apply Hw. by apply in_rev. }
    destruct (rev (c :: w)) as [|d v] eqn:Hv; [by apply app_eq_nil in Hv as [_ ?]|].
    simpl in Hr. apply andb_true_iff in Hr as [Hd _]. cbn [map].
    assert (to_ascii_uppercase d = d) as ->.
    { unfold to_ascii_uppercase. destruct (is_lower d) eqn:Hl; [|done]. exfalso. revert Hd Hl.
      unfold is_digit, is_lower. rewrite !andb_true_iff, !N.leb_le. lia. }
    by apply digit_word_inert. }
  induction s as [|c s IH]; intros w Hs Hw; cbn [lex_const]; [eexists; split; [done|by apply Hflush]|].
  simpl in Hs. apply andb_true_iff in Hs as [Hc Hs]. unfold number_char in Hc.
  destruct (is_digit c) eqn:Hd.
  - assert (word_char c = true) as -> by (unfold word_char; by rewrite Hd, orb_true_r).
    apply IH; [done|]. simpl. by rewrite Hd.
  - simpl in Hc. apply N.eqb_eq in Hc as ->. cbn -[lex_const flush].
    destruct (IH [] Hs ltac:(done)) as (ks & -> & Hk). simpl. eexists. split; [done|].
    apply Forall_app. split; [by apply Hflush|]. by constructor.
Qed.

Lemma scan_minus pre d post :
  is_digit d = true ->
  scan_at rules pre (ch "-" :: d :: post) Normal =
  Symbol (ch "-") :: scan_at rules (pre ++ [ch "-"]) (d :: post) Normal.
Proof.
  intros Hd. unfold scan_at at 1.
  assert (Hs : step rules (pre ++ ch "-" :: d :: post) (length pre) Normal (ch "-") =
    (Normal, (length pre + 1)%nat, [Symbol (ch "-")])).
  { unfold step, step_normal. rewrite char_next. simpl.
    assert ((d =? ch "-")%N = false) as -> by (apply N.eqb_neq; intros ->; by vm_compute in Hd).
    simpl. rewrite alphanumeric_ascii by done. reflexivity. }
  rewrite (scan_step _ _ _ _ _ _ _ _ (lookup_here pre _ _) (I : state_ok Normal) Hs). cbn [app]. f_equal.
  exact (scan_from_at rules pre [ch "-"] (d :: post) Normal).
Qed.

Lemma number_code s : number_text s = true -> code s.
Proof.
  unfold number_text. destruct s as [|c s]; [done|]. destruct (N.eqb_spec c (ch "-")) as [->|Hc].
  - destruct s as [|d s]; [done|]. intros [Hd Hs]%andb_true_iff.
    destruct (lex_number (d :: s) [] Hs ltac:(done)) as (ks & Hl & Hk).
    exists (Symbol (ch "-") :: ks). split; [|by constructor]. intros pre post _ Hp. cbn [app].
    rewrite scan_minus by done. cbn [app]. f_equal. change (d :: s ++ post) with ((d :: s) ++ post).
    rewrite (scan_constant rules _ (d :: s) ks); [|done|by right]. by rewrite <- app_assoc.
  - intros Hs. destruct (lex_number (c :: s) [] Hs ltac:(done)) as (ks & Hl & Hk).
    exists ks. split; [by apply reads_const|done].
Qed.

Lemma decimal_number n : number_text (decimal n) = true /\ number_text (ch "-" :: decimal n) = true.
Proof.
  destruct (decimal_spec n) as (d & ds & -> & Hd & Hds & _).
  assert (Hn : forallb number_char (d :: ds) = true).
  { simpl. unfold number_char at 1. rewrite Hd. simpl. rewrite forallb_forall in *. intros x Hx.
    unfold number_char. by rewrite (Hds x Hx). }
  split; [|cbn [number_text]; rewrite N.eqb_refl, Hd, Hn; done].
  unfold number_text. destruct (N.eqb_spec d (ch "-")) as [->|]; [by vm_compute in Hd|exact Hn].
Qed.

(** ** Every literal *)

Lemma bytes_code b : forallb (fun x => x <? 256)%N b = true -> code (default_value_to_literal (VBytes b)).
Proof.
  intros Hx. exists [Word (text "X"); Quoted]. split; [|by repeat constructor].
  assert (default_value_to_literal (VBytes b) = ch "X" :: quoted_literal (concat (map hex_byte b))) as ->.
  { rewrite <- quoted_no_quote by (by apply hex_no_quote). reflexivity. }
  intros pre post _ Hp. change (ch "X" :: ?l) with ([ch "X"] ++ l). rewrite <- app_assoc.
  rewrite scan_word; [|by repeat constructor|].
  2:{ unfold no_word. cbn. unfold is_identifier_char. by rewrite alphanumeric_ascii. }
  cbn [map app]. f_equal. rewrite scan_literal; [|done| |apply lead_gap_not; auto].
  - by rewrite <- app_assoc.
  - right. by rewrite last_snoc.
Qed.

Lemma array_code l :
  bracket_identifiers rules = false -> Forall (fun v => code (default_value_to_literal v)) l ->
  code (default_value_to_literal (VArray l)).
Proof.
  intros Hbr Hl. assert (Hj : exists ks, reads rules (join_text (text ", ") (map default_value_to_literal l)) ks /\
    Forall (fun k => inert k = true) ks).
  { exists (join_list [Symbol (ch ",")] (map (fun v => tokenize (default_value_to_literal v) rules) l)). split.
    - apply reads_map; [done..|]. eapply List.Forall_impl; [|exact Hl]. intros v Hv. by apply code_tokenize.
    - apply join_list_Forall; [by repeat constructor|]. apply List.Forall_map.
      eapply List.Forall_impl; [|exact Hl]. intros v Hv. by apply code_tokenize. }
  destruct Hj as (ks & Hr & Hk). exists (Word (text "ARRAY") :: Symbol (ch "[") :: ks ++ [Symbol (ch "]")]).
  split; [|repeat (constructor; [done|]); apply Forall_app; split; [done|by repeat constructor]].
  pose proof (reads_snoc rules _ _ (text "]") _ Hr eq_refl eq_refl) as Hs.
  intros pre post _ Hp. cbn [default_value_to_literal].
  change (text "ARRAY[" ++ ?x) with (text "ARRAY" ++ ch "[" :: x). rewrite <- app_assoc. cbn [app].
  change (text "ARRAY" ++ ?x) with ((ch "A" :: text "RRAY") ++ x).
  rewrite scan_word; [|by repeat constructor|].
  2:{ unfold no_word. cbn. unfold is_identifier_char. by rewrite alphanumeric_ascii. }
  cbn [app]. f_equal. set (pre' := pre ++ _). unfold scan_at at 1.
  erewrite scan_step; [|apply lookup_here|done|].
  2:{ unfold step, step_normal, closing_quote. rewrite Hbr. simpl. rewrite alphanumeric_ascii by done. reflexivity. }
  cbn [app]. f_equal. etrans; [exact (scan_from_at rules pre' [ch "["] _ Normal)|].
  rewrite Hs; [|unfold trail_gap; by rewrite last_snoc|done]. unfold pre'. by rewrite <- !app_assoc.
Qed.

Lemma default_literal_code v : plain_value rules v = true -> code (default_value_to_literal v).
Proof.
  induction v as [l IH|v Hv] using value_nested_ind; intros Hp.
  { simpl in Hp. apply andb_true_iff in Hp as [Hbr%negb_true_iff Hl]. apply array_code; [done|].
    rewrite forallb_forall in Hl. rewrite List.Forall_forall in *. intros x Hx. apply IH; [done|by apply Hl]. }
  destruct v; try (exfalso; by eapply Hv); try apply literal_code; try (by eapply const_code).
  - destruct b; by eapply const_code.
  - simpl. unfold integer_text. case_match; apply number_code, decimal_number.
  - simpl. destruct (f64_is_nan f) eqn:Hn; [exact (literal_code (text "NaN"))|].
    destruct (f64_is_infinite f) eqn:Hi; [|by apply number_code, f64_number_text].
    destruct (f64_positive f); [exact (literal_code (text "Infinity"))|exact (literal_code (text "-Infinity"))].
  - by apply bytes_code.
  - by apply number_code.
  - cbn [default_value_to_literal]. rewrite quoted_no_quote; [apply literal_code|apply datetime_no_quote].
  - cbn [default_value_to_literal]. rewrite quoted_no_quote; [apply literal_code|apply date_no_quote].
  - cbn [default_value_to_literal]. rewrite quoted_no_quote; [apply literal_code|apply time_no_quote].
Qed.

Lemma default_table_reads schema table :
  reads rules (default_qualified_table schema table) (table_tokens (bool_decide (is_Some schema))).
Proof.
  destruct schema as [s|]; [|by apply reads_identifier].
  exact (reads_around rules _ _ (text ".") _ _ _ (reads_identifier rules s Hb) eq_refl eq_refl eq_refl
    (reads_identifier rules table Hb)).
Qed.

(** ** Upserts *)

Lemma default_names_read names :
  reads rules (join_text (text ", ") (map quote_double_quoted_identifier names)) (name_list_tokens names).
Proof.
  unfold name_list_tokens, list_tokens, comma. apply reads_map; try done.
  apply List.Forall_forall. intros; by apply reads_identifier.
Qed.

Lemma default_typed_read a :
  plain_value rules (ca_value a) = true ->
  reads rules (default_literal_typed (ca_value a) (ca_type_name a)) (typed_tokens rules a).
Proof. intros Ha. by apply code_tokenize, default_literal_code. Qed.

Lemma default_set_reads updates :
  Forall (fun a => plain_value rules (ca_value a) = true) updates ->
  reads rules (join_text (text ", ") (map (fun a => quote_double_quoted_identifier (ca_name a) ++
      text " = " ++ default_literal_typed (ca_value a) (ca_type_name a)) updates))
    (set_tokens rules updates).
Proof.
  intros Hu. unfold set_tokens, list_tokens, comma. apply reads_map; try done.
  eapply List.Forall_impl; [|exact Hu]. intros a Ha.
  exact (reads_around rules _ [Quoted] (text " = ") [Symbol (ch "=")] _ _
    (reads_identifier rules (ca_name a) Hb) eq_refl eq_refl eq_refl (default_typed_read a Ha)).
Qed.

(** An insert up to its values, and the clause behind them. *)
Lemma default_insert_reads schema table assignments t kt :
  Forall (fun a => plain_value rules (ca_value a) = true) assignments -> reads rules t kt ->
  reads rules (text "INSERT INTO " ++ default_qualified_table schema table ++ text " (" ++
      join_text (text ", ") (map (fun a => quote_double_quoted_identifier (ca_name a)) assignments) ++
      text ") VALUES (" ++
      join_text (text ", ") (map (fun a => default_literal_typed (ca_value a) (ca_type_name a)) assignments) ++
      text ") ON CONFLICT (" ++ t)
    (insert_tokens rules (table_tokens (bool_decide (is_Some schema))) assignments ++
     [Word (kw "ON"); Word (kw "CONFLICT"); Symbol (ch "(")] ++ kt).
Proof.
  intros Ha Ht.
  assert (Hv : reads rules (join_text (text ", ")
      (map (fun a => default_literal_typed (ca_value a) (ca_type_name a)) assignments))
    (list_tokens (map (typed_tokens rules) assignments))).
  { unfold list_tokens, comma. apply reads_map; try done. eapply List.Forall_impl; [|exact Ha].
    apply default_typed_read. }
  pose proof (default_names_read (map ca_name assignments)) as Hn. rewrite map_map in Hn.
  pose proof (reads_cons rules (text "INSERT INTO ") [Word (kw "INSERT"); Word (kw "INTO")] _ _ eq_refl eq_refl
    (reads_around rules _ _ (text " (") [Symbol (ch "(")] _ _ (default_table_reads schema table) eq_refl eq_refl eq_refl
    (reads_around rules _ _ (text ") VALUES (") [Symbol (ch ")"); Word (kw "VALUES"); Symbol (ch "(")] _ _ Hn
      eq_refl eq_refl eq_refl
    (reads_around rules _ _ (text ") ON CONFLICT (")
      [Symbol (ch ")"); Word (kw "ON"); Word (kw "CONFLICT"); Symbol (ch "(")] _ _ Hv eq_refl eq_refl eq_refl Ht)))) as Hr.
  unfold insert_tokens, parens. cbn [map]. rewrite <- !app_assoc. cbn [app] in *. rewrite <- !app_assoc.
  cbn [app]. exact Hr.
Qed.

Lemma reads_eq t t' ks ks' : reads rules t ks -> t = t' -> ks = ks' -> reads rules t' ks'.
Proof. by intros ? <- <-. Qed.

Lemma default_upsert_reads schema table assignments conflicts updates sql :
  default_upsert_statement schema table assignments conflicts updates = Some sql ->
  Forall (fun a => plain_value rules (ca_value a) = true) (assignments ++ updates) ->
  reads rules sql
    (insert_tokens rules (table_tokens (bool_decide (is_Some schema))) assignments ++
     conflict_tokens rules OnConflict conflicts updates).
Proof.
  unfold default_upsert_statement. destruct (_ || _); [done|]. intros Hsql [Ha Hu]%Forall_app.
  pose proof (default_names_read conflicts) as Hc. destruct updates as [|u us];
    apply (f_equal (default [])) in Hsql; cbn [default from_option id] in Hsql; subst sql.
  - pose proof (default_insert_reads schema table assignments _ _ Ha
      (reads_snoc rules _ _ (text ") DO NOTHING") [Symbol (ch ")"); Word (kw "DO"); Word (kw "NOTHING")] Hc
        eq_refl eq_refl)) as Hr.
    apply (reads_eq _ _ _ _ Hr); [by rewrite <- !app_assoc|].
    unfold conflict_tokens, parens. cbn [map app]. by rewrite <- !app_assoc.
  - pose proof (default_insert_reads schema table assignments _ _ Ha
      (reads_around rules _ _ (text ") DO UPDATE SET ")
        [Symbol (ch ")"); Word (kw "DO"); Word (kw "UPDATE"); Word (kw "SET")] _ _ Hc
        eq_refl eq_refl eq_refl (default_set_reads _ Hu))) as Hr.
    apply (reads_eq _ _ _ _ Hr); [by rewrite <- !app_assoc|].
    unfold conflict_tokens, parens. cbn [map app]. by rewrite <- !app_assoc.
Qed.

Definition default_lexed : LexedDialect rules := {|
  value_ok := plain_value rules;
  qualifies schema := bool_decide (is_Some schema);
  name_reads name := reads_identifier rules name Hb;
  table_reads := default_table_reads;
  literal_reads v Hv := code_tokenize _ (default_literal_code v Hv);
  typed_literal_reads v _ Hv := code_tokenize _ (default_literal_code v Hv);
  upsert_style := OnConflict;
  upsert_reads := default_upsert_reads;
|}.

End Default.

(** ** Values whose outside types are numbers *)

Definition number_values : ValueLib := {|
  f64 := Z;
  f64_is_nan _ := false;
  f64_is_infinite _ := false;
  f64_positive x := 0 <=? x;
  f64_to_string := integer_text;
  DateTime := N;
  datetime_text := decimal;
  NaiveDate := N;
  date_text := decimal;
  NaiveTime := N;
  time_text := decimal;
|}.

Lemma decimal_no_quote n : no_quote (decimal n) = true.
Proof.
  pose proof (decimal_digits n) as Hd. unfold no_quote. rewrite forallb_forall in *. intros c Hc.
  apply Hd in Hc. apply negb_true_iff, N.eqb_neq. intros ->. by vm_compute in Hc.
Qed.

Definition number_value_texts : ValueTexts (H := number_values).
Proof.
  split; try apply decimal_no_quote. intros f _ _. simpl. unfold integer_text.
  case_match; apply decimal_number.
Defined.

Definition number_documents : DocumentJson (H := number_values) := {| document_json _ := None |}.
