(* ===== verification/SemanticFilterProps.v ===== *)
(** * What semantic filters mean (crates/dbflux_core: query/semantic.rs)

    The JSON reader answers and reads back what it stands for; a filter converted
    for a visual query holds of the same rows; a rendered filter lexes to the
    tokens of its own tree. *)

From S2P Require Import Prelude RustStr RustChar Classification SqlLexer SqlLexerProps SqlSafety SqlSafetyProps SqlDialect SqlDialectProps SqlCode LexedDialect VisualQuery TableBrowser SemanticFilter.
Import TableBrowser SemanticFilter.

Section Induction.
Context `{ValueLib}.

Fixpoint semantic_nested_ind (Q : SemanticFilter -> Prop) (Hp : forall p, Q (Predicate p))
    (Ha : forall fs, Forall Q fs -> Q (And fs)) (Ho : forall fs, Forall Q fs -> Q (Or fs))
    (Hn : forall f, Q f -> Q (Not f)) (f : SemanticFilter) : Q f :=
  let all :=
    fix all (l : list SemanticFilter) : Forall Q l :=
      match l with
      | [] => Forall_nil_2 Q
      | x :: l' => Forall_cons_2 Q x l' (semantic_nested_ind Q Hp Ha Ho Hn x) (all l')
      end in
  match f with
  | Predicate p => Hp p
  | And fs => Ha fs (all fs)
  | Or fs => Ho fs (all fs)
  | Not f => Hn f (semantic_nested_ind Q Hp Ha Ho Hn f)
  end.

End Induction.

Lemma forallb_ext_in {A} (f g : A -> bool) l : (forall x, x ∈ l -> f x = g x) -> forallb f l = forallb g l.
Proof.
  induction l as [|x l IH]; intros Hf; simpl; [done|]. rewrite Hf by apply list_elem_of_here.
  f_equal. apply IH. intros y Hy. apply Hf. by apply elem_of_cons; right.
Qed.

(** ** Conversion *)

Section Meaning.
Context `{ValueLib} `{!FloatRange}.
Context (resolve_column : ColumnRef -> result (list char * list char) (list char)).
(** The value a column has in a row, and what the database makes of a comparison
    of two values; [None] is unknown. *)
Context (row : list char * list char -> DbValue).
Context (compares : Cmp.Comparator -> DbValue -> DbValue -> option bool).
(** What the operators without a comparator mean. *)
Context (other : WhereOperator -> DbValue -> option DbValue -> option bool).

(** Three-valued logic. *)
Definition and3 (a b : option bool) : option bool :=
  match a, b with
  | Some false, _ | _, Some false => Some false
  | Some true, Some true => Some true
  | _, _ => None
  end.
Definition or3 (a b : option bool) : option bool :=
  match a, b with
  | Some true, _ | _, Some true => Some true
  | Some false, Some false => Some false
  | _, _ => None
  end.
Definition not3 (a : option bool) : option bool := option_map negb a.

Definition is_null (v : DbValue) : bool := match v with VNull => true | _ => false end.
Definition in3 (x : DbValue) (l : list DbValue) : option bool :=
  foldr or3 (Some false) (map (compares Cmp.Eq x) l).

Definition comparator_of (op : WhereOperator) : option Cmp.Comparator :=
  match op with
  | Where.Eq => Some Cmp.Eq | Where.Ne => Some Cmp.Neq | Where.Gt => Some Cmp.Gt
  | Where.Gte => Some Cmp.Gte | Where.Lt => Some Cmp.Lt | Where.Lte => Some Cmp.Lte
  | Where.Like => Some Cmp.Like | Where.ILike => Some Cmp.ILike
  | _ => None
  end.

(** What a predicate of a semantic filter says of the value of its column: a
    comparison with null is a null test. *)
Definition predicate_holds (op : WhereOperator) (value : option DbValue) (x : DbValue) : option bool :=
  match op, value with
  | Where.Null, _ => Some (is_null x)
  | Where.Eq, (None | Some VNull) => Some (is_null x)
  | Where.Ne, (None | Some VNull) => Some (negb (is_null x))
  | Where.In, Some (VArray l) => in3 x l
  | _, _ =>
      match comparator_of op with
      | Some c => compares c x (default VNull value)
      | None => other op x value
      end
  end.

Definition field_value (field : SemanticFieldRef) : option DbValue :=
  match field with
  | Column c => match resolve_column c with Ok ac => Some (row ac) | Err _ => None end
  | Path _ => None
  end.

Fixpoint filter_holds (f : SemanticFilter) : option bool :=
  match f with
  | Predicate p => x ← field_value (sp_field p); predicate_holds (sp_operator p) (sp_value p) x
  | And fs => foldr and3 (Some true) (map filter_holds fs)
  | Or fs => foldr or3 (Some false) (map filter_holds fs)
  | Not f => not3 (filter_holds f)
  end.

(** The same for the tree of a visual query. *)
Definition literal_value (l : LiteralValue) : DbValue :=
  match l with
  | LText s => VText s | LInteger i => VInt i | LFloat f => VFloat f | LBool b => VBool b
  | LTimestamp s => VText s | LNull => VNull
  end.

Definition node_predicate_holds (c : Cmp.Comparator) (v : PredicateValue) (x : DbValue) : option bool :=
  match c, v with
  | Cmp.IsNull, _ => Some (is_null x)
  | Cmp.IsNotNull, _ => Some (negb (is_null x))
  | Cmp.In, VList l => in3 x (map literal_value l)
  | _, Single l => compares c x (literal_value l)
  | _, _ => None
  end.

Fixpoint node_holds (n : FilterNode) : option bool :=
  match n with
  | FPredicate p =>
      node_predicate_holds (pr_comparator p) (pr_value p) (row (pr_source_alias p, pr_column p))
  | FGroup VisualQuery.And ns => foldr and3 (Some true) (map node_holds ns)
  | FGroup VisualQuery.Or ns => foldr or3 (Some false) (map node_holds ns)
  end.

Lemma literal_from_value_Ok v l : literal_from_value v = Ok l -> literal_value l = v.
Proof. unfold literal_from_value. intros Hl. repeat case_match; simplify_eq; done. Qed.

Lemma literals_from_values vs ls :
  try_map literal_from_value vs = Ok ls -> map literal_value ls = vs.
Proof.
  revert ls. induction vs as [|v vs IH]; intros ls Hl; simpl in Hl; [by simplify_eq|].
  destruct (literal_from_value v) as [l|] eqn:Hv; [|done].
  destruct (try_map literal_from_value vs) as [ls'|]; [|done]. simplify_eq. simpl.
  by rewrite (literal_from_value_Ok _ _ Hv), IH.
Qed.

Lemma converted_holds p negated c v x :
  converted p negated = Ok (c, v) -> (negated = true -> is_null_test p = true) ->
  node_predicate_holds c v x =
  (if negated then not3 else id) (predicate_holds (sp_operator p) (sp_value p) x).
Proof.
  destruct p as [field op value]. unfold converted, is_null_test, single_literal, literal_list. simpl.
  destruct negated.
  { intros Hc Hn. specialize (Hn eq_refl). simplify_eq. simpl.
    destruct op; try done. by destruct value as [[]|]. }
  intros Hc _. destruct op; simpl in Hc; try done;
    try (destruct (is_null_value value) eqn:Hv; [simplify_eq; by destruct value as [[]|]|]);
    try (destruct (literal_from_value (default VNull value)) as [l|] eqn:Hl; [|done]; simpl in Hc; simplify_eq;
         apply literal_from_value_Ok in Hl; simpl; rewrite Hl; by destruct value as [[]|]).
  - by simplify_eq.
  - destruct value as [[| | | | | | | | | | |[|y l]| | |]|]; try done.
    destruct (try_map literal_from_value (y :: l)) as [ls|] eqn:Hl; [|done]. simpl in Hc. simplify_eq.
    cbn [node_predicate_holds predicate_holds id]. by rewrite (literals_from_values _ _ Hl).
Qed.

Lemma predicate_converted p negated node :
  predicate_to_filter_node resolve_column p negated = Ok node -> (negated = true -> is_null_test p = true) ->
  node_holds node = (if negated then not3 else id) (filter_holds (Predicate p)).
Proof.
  unfold predicate_to_filter_node. simpl. destruct (sp_field p) as [c|]; [|done]. simpl.
  destruct (resolve_column c) as [ac|]; [|done]. simpl.
  destruct (converted p negated) as [[cm v]|] eqn:Hc; [|done]. intros Hn Hneg. simplify_eq. simpl.
  rewrite <- surjective_pairing. by apply converted_holds.
Qed.

Lemma group_converted fs ns (step : option bool -> option bool -> option bool) z :
  Forall (fun f => forall node, semantic_filter_to_filter_node resolve_column f = Ok node ->
    node_holds node = filter_holds f) fs ->
  try_map (semantic_filter_to_filter_node resolve_column) fs = Ok ns ->
  foldr step z (map node_holds ns) = foldr step z (map filter_holds fs).
Proof.
  intros HF. revert ns. induction HF as [|f fs Hf _ IH]; intros ns Hn; simpl in Hn; [by simplify_eq|].
  destruct (semantic_filter_to_filter_node resolve_column f) as [n|] eqn:Hfn; [|done].
  destruct (try_map _ fs) as [ns'|]; [|done]. simplify_eq. simpl. by rewrite (Hf n), (IH ns').
Qed.

(** What can be converted: no empty group, no negation but of a null test, and
    predicates on columns that resolve, with an operator and a value the visual
    query has. *)
Definition convertible_value (v : DbValue) : bool :=
  match v with
  | VNull | VBool _ | VInt _ | VText _ => true
  | VFloat f => negb (out_of_integer_range f)
  | _ => false
  end.

Definition convertible_comparison (op : WhereOperator) (value : option DbValue) : bool :=
  match op, value with
  | Where.Null, _ => true
  | Where.In, Some (VArray l) => negb (bool_decide (length l = 0%nat)) && forallb convertible_value l
  | Where.In, _ => false
  | _, _ => bool_decide (is_Some (comparator_of op)) && convertible_value (default VNull value)
  end.

Definition convertible_predicate (p : SemanticPredicate) : bool :=
  match sp_field p with
  | Column c => match resolve_column c with Ok _ => true | Err _ => false end
  | Path _ => false
  end && convertible_comparison (sp_operator p) (sp_value p).

Fixpoint convertible (f : SemanticFilter) : bool :=
  match f with
  | Predicate p => convertible_predicate p
  | And fs | Or fs => negb (bool_decide (length fs = 0%nat)) && forallb convertible fs
  | Not (Predicate p) => is_null_test p && convertible_predicate p
  | Not _ => false
  end.

Definition is_ok {A E} (r : result A E) : bool := match r with Ok _ => true | Err _ => false end.

Lemma try_map_is_ok {A B E} (f : A -> result B E) l : is_ok (try_map f l) = forallb (fun x => is_ok (f x)) l.
Proof.
  induction l as [|x l IH]; simpl; [done|]. destruct (f x); simpl; [|done].
  rewrite <- IH. by destruct (try_map f l).
Qed.

Lemma map_ok_is_ok {A B E} (f : A -> B) (r : result A E) : is_ok (map_ok f r) = is_ok r.
Proof. by destruct r. Qed.

Lemma literal_is_ok v : is_ok (literal_from_value v) = convertible_value v.
Proof. destruct v; simpl; try done. by destruct (out_of_integer_range _). Qed.

Lemma predicate_is_ok p negated :
  (negated = true -> is_null_test p = true) ->
  is_ok (predicate_to_filter_node resolve_column p negated) = convertible_predicate p.
Proof.
  destruct p as [field op value]. unfold predicate_to_filter_node, convertible_predicate, is_null_test. simpl.
  intros Hn. destruct field as [c|]; [|done]. destruct (resolve_column c) as [ac|]; [|done]. simpl.
  assert (Hc : is_ok (converted (mkPredicate (Column c) op value) negated) = convertible_comparison op value).
  { unfold converted, single_literal, literal_list. simpl. destruct negated.
    { specialize (Hn eq_refl). destruct op; try done. by destruct value as [[]|]. }
    clear Hn. destruct op; simpl; rewrite ?map_ok_is_ok, ?literal_is_ok; try done;
      try (destruct (is_null_value value) eqn:Hv;
           [by destruct value as [[]|]|by rewrite !map_ok_is_ok, literal_is_ok]).
    destruct value as [[| | | | | | | | | | |[|y l]| | |]|]; try done.
    rewrite !map_ok_is_ok, try_map_is_ok. simpl. rewrite literal_is_ok. f_equal.
    apply forallb_ext_in. intros. apply literal_is_ok. }
  rewrite <- Hc. by destruct (converted _ _).
Qed.

End Meaning.

(** C19: converting a filter for a visual query is exact.  It succeeds for the
    filters the visual query can express and no others, and what it makes holds
    of the same rows as the filter, with the same unknowns, whatever the
    comparisons of the database are. *)
Theorem converted_filter_holds_of_the_same_rows `{ValueLib} `{!FloatRange} resolve_column f :
  is_ok (semantic_filter_to_filter_node resolve_column f) = convertible resolve_column f /\
  forall node row compares other,
    semantic_filter_to_filter_node resolve_column f = Ok node ->
    node_holds row compares node = filter_holds resolve_column row compares other f.
Proof.
  split.
  - induction f as [p|fs IH|fs IH|f IH] using semantic_nested_ind; cbn [convertible].
    + by apply predicate_is_ok.
    + destruct fs as [|f fs]; [done|]. cbn -[try_map forallb]. rewrite map_ok_is_ok, try_map_is_ok.
      apply forallb_ext_in. intros x Hx. rewrite Forall_forall in IH. by apply IH.
    + destruct fs as [|f fs]; [done|]. cbn -[try_map forallb]. rewrite map_ok_is_ok, try_map_is_ok.
      apply forallb_ext_in. intros x Hx. rewrite Forall_forall in IH. by apply IH.
    + destruct f as [p| | |]; try done. simpl. destruct (is_null_test p) eqn:Hn; [|done].
      by apply predicate_is_ok.
  - intros node row compares other. revert node.
    induction f as [p|fs IH|fs IH|f IH] using semantic_nested_ind; intros node Hf.
    + by apply (predicate_converted resolve_column row compares other p false).
    + destruct fs as [|f fs]; [done|]. cbn -[try_map] in Hf.
      destruct (try_map _ (f :: fs)) as [ns|] eqn:Hns; [|done]. simpl in Hf. simplify_eq.
      exact (group_converted resolve_column row compares other _ _ and3 (Some true) IH Hns).
    + destruct fs as [|f fs]; [done|]. cbn -[try_map] in Hf.
      destruct (try_map _ (f :: fs)) as [ns|] eqn:Hns; [|done]. simpl in Hf. simplify_eq.
      exact (group_converted resolve_column row compares other _ _ or3 (Some false) IH Hns).
    + destruct f as [p| | |]; try done. simpl in Hf. destruct (is_null_test p) eqn:Hn; [|done].
      by apply (predicate_converted resolve_column row compares other p true).
Qed.

(** ** Reading JSON *)

Section Reading.
Context `{ValueLib} `{!JsonText}.
Abbreviation Json := (JsonValue jnumber).

Definition answers {A B} (f : A -> Out B) (x : A) : Prop := is_Some (f x).
(** A parser with more rounds answers at least as often, and the same. *)
Definition extends {A B} (f g : A -> Out B) : Prop := forall x r, f x = Some r -> g x = Some r.

Lemma out_all_answers {A B} (f : A -> Out B) l : Forall (answers f) l -> is_Some (out_all f l).
Proof.
  induction 1 as [|x l [r Hx] _ [r' IH]]; simpl; [by eexists|]. rewrite Hx. destruct r; simpl; [|by eexists].
  rewrite IH. destruct r'; by eexists.
Qed.

Lemma out_all_extends {A B} (f g : A -> Out B) : extends f g -> extends (out_all f) (out_all g).
Proof.
  intros Hfg l. induction l as [|x l IH]; intros r Hr; simpl in *; [done|].
  destruct (f x) as [[y|e]|] eqn:Hx; simpl in Hr; [| |done]; rewrite (Hfg _ _ Hx); simpl; [|done].
  destruct (out_all f l) as [[ys|e]|] eqn:Hl; simpl in Hr; [| |done]; by rewrite (IH _ eq_refl).
Qed.

Lemma out_all_Ok {A B} (f : A -> Out B) l ys :
  out_all f l = Some (Ok ys) -> Forall2 (fun x y => f x = Some (Ok y)) l ys.
Proof.
  revert ys. induction l as [|x l IH]; intros ys Hl; simpl in Hl; [by simplify_eq|].
  destruct (f x) as [[y|e]|] eqn:Hx; simpl in Hl; [|done..].
  destruct (out_all f l) as [[ys'|e]|]; simpl in Hl; [|done..]. simplify_eq. constructor; [done|by apply IH].
Qed.

Lemma out_all_of_Ok {A B} (f : A -> Out B) l ys :
  Forall2 (fun x y => f x = Some (Ok y)) l ys -> out_all f l = Some (Ok ys).
Proof. induction 1 as [|x y l ys Hx _ IH]; simpl; [done|]. by rewrite Hx, IH. Qed.

Lemma required_extends f g : extends f g -> extends (parse_required_filter f) (parse_required_filter g).
Proof.
  intros Hfg x r. unfold parse_required_filter. destruct (f x) as [o|] eqn:Hx; [|done].
  by rewrite (Hfg _ _ Hx).
Qed.

Lemma entry_extends f g : extends f g -> extends (parse_filter_entry f) (parse_filter_entry g).
Proof.
  intros Hfg%required_extends [key v] r. unfold parse_filter_entry, parse_logical_list.
  pose proof (out_all_extends _ _ Hfg) as Ha. repeat case_bool_decide.
  1,2: destruct v as [| | | |[|y l]|]; try done;
       destruct (out_all (parse_required_filter f) (y :: l)) as [o|] eqn:Ho; [|done]; by rewrite (Ha _ _ Ho).
  - destruct (parse_required_filter f v) as [o|] eqn:Ho; [|done]. by rewrite (Hfg _ _ Ho).
  - done.
Qed.

Lemma filter_extends n : extends (parse_filter n) (parse_filter (S n)).
Proof.
  induction n as [|n IH]; intros v r Hr; [done|].
  destruct v as [| | |s| |m]; try exact Hr.
  - cbn [parse_filter] in *. destruct (has_prefix _ _); [|done]. destruct (json_parse s); [|done]. by apply IH.
  - remember (S n) as k eqn:Hk. cbn [parse_filter] in *. subst k. cbn [parse_filter] in Hr.
    pose proof (out_all_extends _ _ (entry_extends _ _ IH)) as Ha.
    destruct (out_all (parse_filter_entry (parse_filter n)) m) as [o|] eqn:Ho; [|done]. by rewrite (Ha _ _ Ho).
Qed.

Lemma filter_rounds n m v r : (n <= m)%nat -> parse_filter n v = Some r -> parse_filter m v = Some r.
Proof. induction 1 as [|m _ IH]; intros Hr; [done|]. by apply filter_extends, IH. Qed.

Lemma weight_in_list (f : Json -> nat) (x : Json) l : x ∈ l -> (f x <= list_sum (map f l))%nat.
Proof.
  induction l as [|y l IH]; [by intros ?%elem_of_nil|]. rewrite elem_of_cons. simpl.
  intros [->|Hx%IH]; lia.
Qed.

(** The text a document is parsed from has more characters than the document has
    parts. *)
Class JsonTextLaws := { parse_weight t v : json_parse t = Some v -> (json_weight v <= length t)%nat }.
Context `{!JsonTextLaws}.

Lemma entry_answers n (rec : Json -> Out (option SemanticFilter)) key v :
  (forall v, (json_weight v <= n)%nat -> answers rec v) -> (json_weight v <= n)%nat ->
  answers (parse_filter_entry rec) (key, v).
Proof.
  intros Hrec Hv. assert (Hreq : forall x, (json_weight x <= n)%nat -> answers (parse_required_filter rec) x).
  { intros x [o Ho]%Hrec. unfold answers, parse_required_filter. rewrite Ho. by destruct o; eexists. }
  assert (Hlist : forall build, is_Some (parse_logical_list rec key v build)).
  { intros build. unfold parse_logical_list. destruct v as [| | | |[|y l]|]; try by eexists.
    destruct (out_all_answers (parse_required_filter rec) (y :: l)) as [o ->]; [|by destruct o; eexists].
    apply Forall_forall. intros x Hx. apply Hreq. cbn [json_weight] in Hv.
    pose proof (weight_in_list json_weight x (y :: l) Hx). lia. }
  unfold answers, parse_filter_entry. repeat case_bool_decide; [apply Hlist..| |by eexists].
  destruct (Hreq v Hv) as [o ->]. by destruct o; eexists.
Qed.

Lemma filter_answers n : forall v, (json_weight v <= n)%nat -> answers (parse_filter n) v.
Proof.
  induction n as [|n IH]; intros v Hv; [by destruct v; simpl in Hv; lia|].
  destruct v as [| | |s| |m]; unfold answers; cbn [parse_filter]; try by eexists.
  - destruct (has_prefix _ _); [|by eexists]. destruct (json_parse s) as [p|] eqn:Hp; [|by eexists].
    apply IH. apply parse_weight in Hp. cbn [json_weight] in Hv. unfold char in *. lia.
  - destruct (out_all_answers (parse_filter_entry (parse_filter n)) m) as [o ->]; [|by destruct o; eexists].
    apply Forall_forall. intros [key v] Hx. apply (entry_answers n); [done|]. cbn [json_weight] in Hv.
    apply le_S_n in Hv. etrans; [|exact Hv]. clear -Hx.
    induction m as [|e m IH]; [by apply elem_of_nil in Hx|]. apply elem_of_cons in Hx as [<-|Hx]; simpl; [lia|].
    specialize (IH Hx). lia.
Qed.

(** Every group has a member. *)
Fixpoint no_empty_group (f : SemanticFilter) : bool :=
  match f with
  | Predicate _ => true
  | And fs | Or fs => negb (bool_decide (length fs = 0%nat)) && forallb no_empty_group fs
  | Not f => no_empty_group f
  end.

Lemma group_of_some fs :
  fs <> [] -> Forall (fun f => no_empty_group f = true) fs ->
  no_empty_group (And fs) = true /\ no_empty_group (Or fs) = true.
Proof.
  intros Hne Hfs. simpl. rewrite bool_decide_eq_false_2 by (by destruct fs). simpl.
  assert (forallb no_empty_group fs = true) as -> by (apply forallb_forall; by apply List.Forall_forall). done.
Qed.

Lemma collapsed_group fs f :
  collapse_filter_list fs = Some f -> Forall (fun f => no_empty_group f = true) fs -> no_empty_group f = true.
Proof.
  intros Hc Hfs. destruct fs as [|x [|y l]]; simpl in Hc; simplify_eq; [by inversion Hfs|].
  by apply group_of_some.
Qed.

Lemma field_filter_group key v f : parse_field_filter key v = Ok f -> no_empty_group f = true.
Proof.
  assert (Hop : forall field e g, parse_operator field key e = Ok g -> no_empty_group g = true).
  { intros field [o w] g Hg. unfold parse_operator, parse_exists_filter in Hg.
    repeat case_match; simplify_eq; done. }
  unfold parse_field_filter. destruct v as [| | | | |m]; try (by intros; simplify_eq).
  destruct (_ && _); [|by intros; simplify_eq]. unfold parse_operator_map.
  destruct (try_map _ _) as [fs|] eqn:Hfs; [|done]. destruct (_ && _); [done|].
  destruct (collapse_filter_list fs) as [g|] eqn:Hc; [|done]. intros [= ->].
  apply (collapsed_group fs); [done|]. revert fs Hfs Hc. generalize (List.filter (fun e : list char * Json =>
    negb (bool_decide (e.1 = text "$options"))) m). intros l fs Hfs _. revert fs Hfs.
  induction l as [|e l IH]; intros fs Hfs; simpl in Hfs; [simplify_eq; constructor|].
  destruct (parse_operator _ _ e) as [g|] eqn:Hg; [|done]. destruct (try_map _ l) as [gs|]; [|done].
  simplify_eq. constructor; [by eapply Hop|by apply IH].
Qed.

Lemma filter_groups n : forall v f, parse_filter n v = Some (Ok (Some f)) -> no_empty_group f = true.
Proof.
  induction n as [|n IH]; intros v f Hf; [done|]. cbn [parse_filter] in Hf.
  destruct v as [| | |s| |m]; try done.
  { destruct (has_prefix _ _); [|done]. destruct (json_parse s); [|done]. by eapply IH. }
  destruct (out_all _ m) as [[fs|]|] eqn:Hfs; simpl in Hf; [|done..].
  assert (Hc : collapse_filter_list fs = Some f) by congruence. apply (collapsed_group fs); [done|].
  assert (Hreq : forall v g, parse_required_filter (parse_filter n) v = Some (Ok g) -> no_empty_group g = true).
  { intros v g Hg. unfold parse_required_filter in Hg.
    destruct (parse_filter n v) as [[[h|]|]|] eqn:Hv; simpl in Hg; simplify_eq. by eapply IH. }
  apply out_all_Ok in Hfs. clear Hf Hc. induction Hfs as [|[key v] g m fs Hg _ IHl]; constructor; [|done].
  assert (Hlist : forall build, parse_logical_list (parse_filter n) key v build = Some (Ok g) ->
    exists gs, g = build gs /\ gs <> [] /\ Forall (fun f => no_empty_group f = true) gs).
  { intros build Hb. unfold parse_logical_list in Hb. destruct v as [| | | |[|y l]|]; try done.
    destruct (out_all _ (y :: l)) as [[gs|]|] eqn:Hgs; simpl in Hb; simplify_eq. exists gs. split; [done|].
    apply out_all_Ok in Hgs. split; [by inversion Hgs|]. clear -Hgs Hreq.
    induction Hgs; constructor; [by eapply Hreq|done]. }
  unfold parse_filter_entry in Hg. repeat case_bool_decide.
  - destruct (Hlist _ Hg) as (gs & -> & Hne & Hgs). by apply group_of_some.
  - destruct (Hlist _ Hg) as (gs & -> & Hne & Hgs). by apply group_of_some.
  - destruct (parse_required_filter _ v) as [[h|]|] eqn:Hv; simpl in Hg; simplify_eq. exact (Hreq _ _ Hv).
  - simplify_eq. by eapply field_filter_group.
Qed.

(** Reading a filter from JSON ends, however strings nest in strings, and more
    rounds read the same; a filter that is read has no empty group, so it is never
    rendered as an empty condition. *)
Theorem filter_json_is_read v :
  exists r, (forall rounds, (json_weight v <= rounds)%nat -> parse_filter rounds v = Some r) /\
    parse_semantic_filter_json v = Some r /\
    forall f, r = Ok (Some f) -> no_empty_group f = true.
Proof.
  destruct (filter_answers (json_weight v) v (le_n _)) as [r Hr]. exists r.
  split; [intros rounds Hle; by apply (filter_rounds (json_weight v))|]. split; [exact Hr|].
  intros f ->. by eapply filter_groups.
Qed.

(** ** Writing JSON *)

(** A number for each integer and one for each finite float, which is no integer
    to the crate, whatever its value. *)
Definition finite_float (f : f64) : bool := negb (f64_is_nan f) && negb (f64_is_infinite f).

Context (of_int : Z -> jnumber) (of_float : f64 -> jnumber).
Context (of_int_i64 : forall i, as_i64 (of_int i) = Some i).
Context (of_float_f64 : forall f, finite_float f = true ->
  as_i64 (of_float f) = None /\ as_f64 (of_float f) = Some f).

Fixpoint value_json (v : DbValue) : Json :=
  match v with
  | VBool b => JBool b
  | VInt i => JNumber (of_int i)
  | VFloat f => if finite_float f then JNumber (of_float f) else JNull
  | VText s => JString s
  | VArray l => JArray (map value_json l)
  | VDocument m => JObject (map (fun kv => (kv.1, value_json kv.2)) m)
  | _ => JNull
  end.

Fixpoint json_plain (v : DbValue) : bool :=
  match v with
  | VNull | VBool _ | VInt _ | VText _ => true
  | VFloat f => finite_float f
  | VArray l => forallb json_plain l
  | VDocument m => forallb (fun kv => json_plain kv.2) m
  | _ => false
  end.

Fixpoint value_json_back (v : DbValue) : json_plain v = true -> json_to_value (value_json v) = v.
Proof.
  destruct v as [| | | | | | | | | | |l|m| |]; intros Hp; try done; simpl in *.
  - by rewrite of_int_i64.
  - rewrite Hp. simpl. destruct (of_float_f64 _ Hp) as [-> ->]. done.
  - f_equal. induction l as [|x l IH]; [done|]. simpl in *. apply andb_true_iff in Hp as [Hx Hl].
    f_equal; [by apply value_json_back|by apply IH].
  - f_equal. induction m as [|[k x] m IH]; [done|]. simpl in *. apply andb_true_iff in Hp as [Hx Hm].
    f_equal; [by rewrite value_json_back|by apply IH].
Qed.

Definition field_key (field : SemanticFieldRef) : list char :=
  match field with Column c => column_qualified_name c | Path segments => join_text (text ".") segments end.

#[local] Instance field_eq_dec : EqDecision SemanticFieldRef.
Proof. solve_decision. Defined.

(** The field is read from its name, which is not that of a group. *)
Definition plain_field (field : SemanticFieldRef) : bool :=
  bool_decide (parse_field_ref (field_key field) = field) &&
  negb (bool_decide (field_key field ∈ [text "$and"; text "$or"; text "$not"])).

Definition operator_key (op : WhereOperator) : option string :=
  match op with
  | Where.Eq => Some "$eq" | Where.Ne => Some "$ne" | Where.Gt => Some "$gt" | Where.Gte => Some "$gte"
  | Where.Lt => Some "$lt" | Where.Lte => Some "$lte" | Where.Like => Some "$like"
  | Where.ILike => Some "$ilike" | Where.Regex => Some "$regex" | Where.In => Some "$in"
  | Where.NotIn => Some "$nin" | Where.Contains => Some "$contains" | Where.Overlap => Some "$overlap"
  | Where.ContainsAll => Some "$all" | Where.Size => Some "$size"
  | _ => None
  end%string.

Definition predicate_json (p : SemanticPredicate) : Json :=
  JObject [(field_key (sp_field p),
    match operator_key (sp_operator p) with
    | Some k => JObject [(text k, value_json (default VNull (sp_value p)))]
    | None => JNull
    end)].

Fixpoint filter_json (f : SemanticFilter) : Json :=
  match f with
  | Predicate p => predicate_json p
  | And fs => JObject [(text "$and", JArray (map filter_json fs))]
  | Or fs => JObject [(text "$or", JArray (map filter_json fs))]
  | Not f => JObject [(text "$not", filter_json f)]
  end.

(** A comparison with null is the test for null, which it is rendered as too. *)
Definition read_predicate (p : SemanticPredicate) : SemanticFilter :=
  match sp_operator p, sp_value p with
  | Where.Eq, (None | Some VNull) => null (sp_field p)
  | Where.Ne, (None | Some VNull) => Not (null (sp_field p))
  | _, _ => Predicate p
  end.
Fixpoint read_form (f : SemanticFilter) : SemanticFilter :=
  match f with
  | Predicate p => read_predicate p
  | And fs => And (map read_form fs)
  | Or fs => Or (map read_form fs)
  | Not f => Not (read_form f)
  end.

Definition plain_predicate (p : SemanticPredicate) : bool :=
  plain_field (sp_field p) &&
  match sp_operator p, sp_value p with
  | (Where.Null | Where.Eq | Where.Ne), None => true
  | op, Some v => bool_decide (is_Some (operator_key op)) && json_plain v
  | _, None => false
  end.

Fixpoint plain_semantic (f : SemanticFilter) : bool :=
  match f with
  | Predicate p => plain_predicate p
  | And fs | Or fs => negb (bool_decide (length fs = 0%nat)) && forallb plain_semantic fs
  | Not f => plain_semantic f
  end.

Lemma value_json_null v : json_plain v = true -> value_json v = JNull -> v = VNull.
Proof. destruct v as [| | |f| | | | | | | | | | |]; try done. simpl. by intros ->. Qed.

Lemma operator_read field key op k v :
  operator_key op = Some k -> json_plain v = true ->
  parse_operator field key (text k, value_json v) = Ok (read_predicate (mkPredicate field op (Some v))).
Proof.
  intros Hk Hv. assert (Hnull : value_json v = JNull -> v = VNull) by (by apply value_json_null).
  pose proof (value_json_back v Hv) as Hb. assert (v = VNull \/ v <> VNull) as [->|Hne] by (destruct v; [by left|by right..]).
  { by destruct op; simplify_eq Hk; intros <-. }
  assert (Hread : read_predicate (mkPredicate field op (Some v)) = compare field op v).
  { unfold read_predicate. cbn [sp_operator sp_value]. by destruct op; try done; destruct v. }
  rewrite Hread. destruct op; simplify_eq Hk; intros <-;
    cbn -[json_to_value]; try (by rewrite Hb);
    destruct (value_json v); try (by rewrite Hb); by destruct Hne; auto.
Qed.

Lemma single_operator_read field key k w f :
  text k <> text "$options" -> parse_operator field key (text k, w) = Ok f ->
  parse_operator_map field key [(text k, w)] = Ok f.
Proof.
  intros Hk Hf. unfold parse_operator_map. cbn [List.filter fst object_get].
  rewrite bool_decide_eq_false_2 by done. cbn [negb try_map]. by rewrite Hf.
Qed.

Lemma predicate_read rounds p :
  plain_predicate p = true -> (2 <= rounds)%nat ->
  parse_filter rounds (predicate_json p) = Some (Ok (Some (read_predicate p))).
Proof.
  unfold plain_predicate, plain_field. intros [[Hf%bool_decide_eq_true Hk]%andb_true_iff Hp]%andb_true_iff Hr.
  destruct rounds as [|rounds]; [lia|]. unfold predicate_json. cbn [parse_filter out_all].
  apply negb_true_iff, bool_decide_eq_false in Hk. rewrite !elem_of_cons, elem_of_nil in Hk.
  unfold parse_filter_entry. rewrite !bool_decide_eq_false_2 by tauto. cbn [out_bind].
  destruct p as [field op value]. cbn [sp_field sp_operator sp_value] in *. unfold parse_field_filter.
  rewrite Hf. destruct (operator_key op) as [k|] eqn:Hok.
  - assert (Hv : json_plain (default VNull value) = true /\
      read_predicate (mkPredicate field op value) =
      read_predicate (mkPredicate field op (Some (default VNull value)))).
    { destruct value as [v|]; [|by destruct op]. split; [|done]. simpl. destruct op; try done; by destruct v. }
    destruct Hv as [Hv Hread].
    assert (Hdollar : starts_with_dollar (text k) = true /\ text k <> text "$options").
    { by destruct op; simpl in Hok; simplify_eq. }
    destruct Hdollar as [Hd Ho]. cbn [length forallb fst]. rewrite Hd.
    rewrite (single_operator_read _ _ _ _ (read_predicate (mkPredicate field op value))); [done|done|].
    rewrite Hread. by apply operator_read.
  - destruct op; try done; by destruct value.
Qed.

Lemma group_read rounds key build fs :
  key = text "$and" /\ build = And \/ key = text "$or" /\ build = Or ->
  fs <> [] -> Forall (fun f => parse_filter rounds (filter_json f) = Some (Ok (Some (read_form f)))) fs ->
  parse_filter (S rounds) (JObject [(key, JArray (map filter_json fs))]) =
  Some (Ok (Some (build (map read_form fs)))).
Proof.
  intros Hkey Hne Hfs.
  assert (Hall : out_all (parse_required_filter (parse_filter rounds)) (map filter_json fs) = Some (Ok (map read_form fs))).
  { apply out_all_of_Ok. clear Hne. induction Hfs as [|f fs Hf _ IH]; constructor; [|done].
    unfold parse_required_filter. by rewrite Hf. }
  cbn [parse_filter out_all]. unfold parse_filter_entry, parse_logical_list.
  destruct Hkey as [[-> ->]|[-> ->]]; cbn [bool_decide decide_rel]; case_bool_decide; try done;
    destruct fs as [|f fs]; try done; cbn [map] in *; try case_bool_decide; try done; by rewrite Hall.
Qed.

(** C20: a filter written in JSON is read back as it was, groups and negations
    included, for every operator JSON has a name for and the test for null; a
    comparison with null comes back as the test for null it is rendered as.  Its
    fields are to be read from their names ([plain_field]), its groups to have
    members, and its values to be ones JSON has ([json_plain]: null, booleans,
    64-bit integers, finite floats, texts, arrays and documents of them; not
    bytes, decimals, dates or identifiers).  [ContainsAny] alone of the comparing
    operators has no name in JSON. *)
Theorem filter_json_roundtrip f :
  plain_semantic f = true -> parse_semantic_filter_json (filter_json f) = Some (Ok (Some (read_form f))).
Proof.
  unfold parse_semantic_filter_json.
  assert (Hall : forall rounds, (json_weight (filter_json f) <= rounds)%nat -> plain_semantic f = true ->
    parse_filter rounds (filter_json f) = Some (Ok (Some (read_form f)))); [|by intros; apply Hall].
  assert (Hgroup : forall key build fs,
    key = text "$and" /\ build = And \/ key = text "$or" /\ build = Or ->
    Forall (fun f => forall rounds, (json_weight (filter_json f) <= rounds)%nat -> plain_semantic f = true ->
      parse_filter rounds (filter_json f) = Some (Ok (Some (read_form f)))) fs ->
    forall rounds, (S (S (list_sum (map json_weight (map filter_json fs)) + 0)) <= rounds)%nat ->
      negb (bool_decide (length fs = 0%nat)) && forallb plain_semantic fs = true ->
      parse_filter rounds (JObject [(key, JArray (map filter_json fs))]) = Some (Ok (Some (build (map read_form fs))))).
  { intros key build fs Hkey IH rounds Hr [Hne%negb_true_iff%bool_decide_eq_false Hp]%andb_true_iff.
    destruct rounds as [|rounds]; [lia|]. apply group_read; [done|by destruct fs|].
    rewrite Forall_forall in *. intros x Hx. apply IH; [done| |by rewrite forallb_forall in Hp; apply Hp, list_elem_of_In].
    pose proof (weight_in_list json_weight (filter_json x) (map filter_json fs)
      ltac:(by apply list_elem_of_In, in_map, list_elem_of_In)). lia. }
  induction f as [p|fs IH|fs IH|f IH] using semantic_nested_ind; intros rounds Hr Hp.
  - apply predicate_read; [done|]. cbn in Hr. unfold predicate_json in Hr. etrans; [|exact Hr].
    destruct (operator_key _), (sp_value p); simpl; lia.
  - by apply (Hgroup (text "$and") And); [by left|..].
  - by apply (Hgroup (text "$or") Or); [by right|..].
  - destruct rounds as [|rounds]; [simpl in Hr; lia|]. cbn [filter_json parse_filter out_all].
    unfold parse_filter_entry. cbn [bool_decide decide_rel]. repeat (case_bool_decide; try done).
    unfold parse_required_filter. rewrite IH; [done| |done]. cbn in Hr. lia.
Qed.

End Reading.

(** ** Rendering *)

Section Rendering.
Context `{CharLib} `{!CharLaws} `{ValueLib} `{!SqlDialect} (rules : LexRules) `{!LexedDialect rules}.

Definition literal_tokens (v : DbValue) : list Token := tokenize (value_to_literal v) rules.

Definition column_tokens (c : ColumnRef) : list Token :=
  match cr_table c with Some _ => [Quoted; Symbol (ch ".")] | None => [] end ++ [Quoted] ++
  match cr_alias c with Some _ => [Word (kw "AS"); Quoted] | None => [] end.

Definition operator_tokens (op : WhereOperator) : list Token :=
  default [] (lex_const [] (text (Where.sql_symbol op))).

Definition field_tokens (field : SemanticFieldRef) : list Token :=
  match field with Column c => column_tokens c | Path _ => [] end.

Definition predicate_tokens (p : SemanticPredicate) : list Token :=
  field_tokens (sp_field p) ++
  match sp_operator p, sp_value p with
  | Where.Null, _ | Where.Eq, (None | Some VNull) => [Word (kw "IS"); Word (kw "NULL")]
  | Where.Ne, (None | Some VNull) => [Word (kw "IS"); Word (kw "NOT"); Word (kw "NULL")]
  | (Where.In | Where.NotIn) as op, Some (VArray items) =>
      operator_tokens op ++ parens (join_list comma (map literal_tokens items))
  | op, Some v => operator_tokens op ++ literal_tokens v
  | _, None => []
  end.

(** The tokens of a rendered filter: every member of a group in parentheses of its
    own, the keyword of the group between them. *)
Fixpoint filter_tokens (f : SemanticFilter) : list Token :=
  match f with
  | Predicate p => predicate_tokens p
  | And fs => join_list [Word (kw "AND")] (map (fun f => parens (filter_tokens f)) fs)
  | Or fs => join_list [Word (kw "OR")] (map (fun f => parens (filter_tokens f)) fs)
  | Not f => Word (kw "NOT") :: parens (filter_tokens f)
  end.

(** The values written are those the dialect writes as literals of their own. *)
Definition predicate_values_ok (p : SemanticPredicate) : bool :=
  match sp_operator p, sp_value p with
  | (Where.In | Where.NotIn), Some (VArray items) => forallb value_ok items
  | _, Some v => value_ok v
  | _, None => true
  end.
Fixpoint filter_values_ok (f : SemanticFilter) : bool :=
  match f with
  | Predicate p => predicate_values_ok p
  | And fs | Or fs => forallb filter_values_ok fs
  | Not f => filter_values_ok f
  end.

Lemma quoted_pair_reads a sep ks b :
  lex_const [] sep = Some ks -> begins_gap sep = true -> ends_gap sep = true ->
  reads rules (quote_identifier a ++ sep ++ quote_identifier b) ([Quoted] ++ ks ++ [Quoted]).
Proof. intros Hs Hb He. apply reads_around; try done; apply name_reads. Qed.

Lemma column_reads c : reads rules (column_quoted_with c) (column_tokens c).
Proof.
  destruct c as [table name alias]. unfold column_quoted_with, column_tokens. simpl.
  assert (Hb : reads rules
    (match table with Some t => quote_identifier t ++ text "." ++ quote_identifier name | None => quote_identifier name end)
    (match table with Some _ => [Quoted; Symbol (ch ".")] | None => [] end ++ [Quoted])).
  { destruct table as [t|]; [by apply (quoted_pair_reads t (text "."))|apply name_reads]. }
  destruct alias as [a|]; [|exact Hb].
  pose proof (reads_around rules _ _ (text " AS ") [Word (kw "AS")] _ _ Hb eq_refl eq_refl eq_refl (name_reads a)) as Ha.
  by destruct table.
Qed.

Lemma list_reads items :
  forallb value_ok items = true ->
  reads rules (join_text (text ", ") (map value_to_literal items)) (join_list comma (map literal_tokens items)).
Proof.
  intros Hok. apply reads_map; try done. rewrite forallb_forall in Hok. apply List.Forall_forall.
  intros v Hv. by apply literal_reads, Hok.
Qed.

Lemma parens_reads pre t ks :
  lex_const [] pre = Some [Symbol (ch "(")] -> ends_gap pre = true -> reads rules t ks ->
  reads rules (pre ++ t ++ text ")") (parens ks).
Proof. intros Hp He Ht. apply (reads_cons rules pre [Symbol (ch "(")]); try done. by apply reads_snoc. Qed.

Lemma operator_const op :
  lex_const [] (text " " ++ text (Where.sql_symbol op) ++ text " ") = Some (operator_tokens op) /\
  lex_const [] (text " " ++ text (Where.sql_symbol op) ++ text " (") = Some (operator_tokens op ++ [Symbol (ch "(")]) /\
  begins_gap (text " " ++ text (Where.sql_symbol op) ++ text " ") = true /\
  ends_gap (text " " ++ text (Where.sql_symbol op) ++ text " ") = true /\
  ends_gap (text " " ++ text (Where.sql_symbol op) ++ text " (") = true.
Proof. by destruct op. Qed.

Lemma compared_reads field ks op v :
  reads rules field ks -> value_ok v = true ->
  reads rules (compared field (Where.sql_symbol op) v) (ks ++ operator_tokens op ++ literal_tokens v).
Proof.
  intros Hf Hv. destruct (operator_const op) as (Ho & _ & Hb & He & _). unfold compared.
  replace (field ++ text " " ++ text (Where.sql_symbol op) ++ text " " ++ value_to_literal v)
    with (field ++ (text " " ++ text (Where.sql_symbol op) ++ text " ") ++ value_to_literal v)
    by (by rewrite <- !app_assoc).
  apply reads_around; try done. by apply literal_reads.
Qed.

Lemma inclusion_reads field ks op items :
  reads rules field ks -> forallb value_ok items = true ->
  reads rules (field ++ text " " ++ text (Where.sql_symbol op) ++ text " (" ++
      join_text (text ", ") (map value_to_literal items) ++ text ")")
    (ks ++ operator_tokens op ++ parens (join_list comma (map literal_tokens items))).
Proof.
  intros Hf Hv. destruct (operator_const op) as (_ & Ho & Hb & _ & He).
  match goal with |- reads _ (field ++ text " " ++ ?o ++ ?p ++ ?j ++ ?q) _ =>
    replace (field ++ text " " ++ o ++ p ++ j ++ q) with (field ++ (text " " ++ o ++ p) ++ (j ++ q))
      by (by rewrite <- !app_assoc) end.
  replace (ks ++ operator_tokens op ++ parens (join_list comma (map literal_tokens items)))
    with (ks ++ (operator_tokens op ++ [Symbol (ch "(")]) ++
          (join_list comma (map literal_tokens items) ++ [Symbol (ch ")")])) by (by rewrite <- !app_assoc).
  apply reads_around; [done|exact Ho|done|done|]. apply reads_snoc; try done. by apply list_reads.
Qed.

Definition compares_as_written (op : WhereOperator) : bool :=
  match op with
  | Where.Gt | Where.Gte | Where.Lt | Where.Lte | Where.Like | Where.ILike | Where.Regex | Where.Contains
  | Where.Overlap | Where.ContainsAll => true
  | _ => false
  end.

Lemma written_predicate c op value :
  compares_as_written op = true ->
  render_sql_predicate (mkPredicate (Column c) op value) =
    match value with
    | Some v => Ok (compared (column_quoted_with c) (Where.sql_symbol op) v)
    | None => Err (RequiresValue op)
    end /\
  predicate_tokens (mkPredicate (Column c) op value) =
    column_tokens c ++ match value with Some v => operator_tokens op ++ literal_tokens v | None => [] end /\
  predicate_values_ok (mkPredicate (Column c) op value) =
    match value with Some v => value_ok v | None => true end.
Proof. destruct op; intros Hop; try discriminate Hop; by destruct value. Qed.

(** The other predicates, by the value they are compared with. *)
Definition null_tests (c : ColumnRef) (words : string) (ks : list Token) : Prop :=
  reads rules (column_quoted_with c ++ text words) (column_tokens c ++ ks).

Lemma equality_predicate c op value sql :
  op = Where.Eq \/ op = Where.Ne ->
  render_sql_predicate (mkPredicate (Column c) op value) = Ok sql ->
  (sql = column_quoted_with c ++ text " IS NULL" /\
   predicate_tokens (mkPredicate (Column c) op value) = column_tokens c ++ [Word (kw "IS"); Word (kw "NULL")]) \/
  (sql = column_quoted_with c ++ text " IS NOT NULL" /\
   predicate_tokens (mkPredicate (Column c) op value) =
     column_tokens c ++ [Word (kw "IS"); Word (kw "NOT"); Word (kw "NULL")]) \/
  exists v, value = Some v /\ sql = compared (column_quoted_with c) (Where.sql_symbol op) v /\
    predicate_tokens (mkPredicate (Column c) op value) = column_tokens c ++ operator_tokens op ++ literal_tokens v /\
    predicate_values_ok (mkPredicate (Column c) op value) = value_ok v.
Proof.
  intros [-> | ->] Hr.
  - destruct value as [v|]; [|left; by injection Hr]. destruct v; injection Hr as <-;
      first [by left|right; right; eexists; split; [reflexivity|]; done].
  - destruct value as [v|]; [|right; left; by injection Hr]. destruct v; injection Hr as <-;
      first [by right; left|right; right; eexists; split; [reflexivity|]; done].
Qed.

Lemma predicate_reads p sql :
  render_sql_predicate p = Ok sql -> predicate_values_ok p = true -> reads rules sql (predicate_tokens p).
Proof.
  destruct p as [[c|segments] op value]; [|done]. intros Hr Hv. pose proof (column_reads c) as Hc.
  assert (Hnull : null_tests c " IS NULL" [Word (kw "IS"); Word (kw "NULL")]) by (by apply reads_snoc).
  assert (Hnot : null_tests c " IS NOT NULL" [Word (kw "IS"); Word (kw "NOT"); Word (kw "NULL")])
    by (by apply reads_snoc).
  destruct (compares_as_written op) eqn:Hop.
  { destruct (written_predicate c op value Hop) as (Hsql & -> & Hok). rewrite Hsql in Hr. rewrite Hok in Hv.
    destruct value as [v|]; [|done]. injection Hr as <-. by apply compared_reads. }
  assert (Heq : op = Where.Eq \/ op = Where.Ne -> reads rules sql (predicate_tokens (mkPredicate (Column c) op value))).
  { intros Ho. destruct (equality_predicate c op value sql Ho Hr) as [[-> ->]|[[-> ->]|(v & -> & -> & -> & Hok)]];
      [done|done|]. rewrite Hok in Hv. by apply compared_reads. }
  destruct op; try discriminate Hop; try discriminate Hr; try (apply Heq; by auto).
  - by injection Hr as <-.
  - destruct value as [[]|]; try discriminate Hr. injection Hr as <-. by apply (inclusion_reads _ _ Where.In).
  - destruct value as [[]|]; try discriminate Hr. injection Hr as <-. by apply (inclusion_reads _ _ Where.NotIn).
Qed.

Lemma group_reads joiner fs rendered :
  lex_const [] (text " " ++ text joiner ++ text " ") = Some [Word (kw joiner)] ->
  begins_gap (text " " ++ text joiner ++ text " ") = true -> ends_gap (text " " ++ text joiner ++ text " ") = true ->
  Forall2 (fun f sql => reads rules sql (filter_tokens f)) fs rendered ->
  reads rules (group_text joiner rendered)
    (join_list [Word (kw joiner)] (map (fun f => parens (filter_tokens f)) fs)).
Proof.
  intros Hj Hb He Hr. unfold group_text.
  pose proof (reads_join rules _ _ (zip (map (fun r => text "(" ++ r ++ text ")") rendered)
    (map (fun f => parens (filter_tokens f)) fs)) Hj Hb He) as Hjoin.
  rewrite !fst_zip, !snd_zip in Hjoin by (rewrite !length_map, (Forall2_length _ _ _ Hr); lia).
  apply Hjoin. clear Hjoin. induction Hr as [|f sql fs rendered Hf _ IH]; constructor; [|done].
  by apply parens_reads.
Qed.

Lemma rendered_reads f sql :
  render_semantic_filter_sql f = Ok sql -> filter_values_ok f = true -> reads rules sql (filter_tokens f).
Proof.
  revert sql. assert (Hmembers : forall fs rendered,
    Forall (fun f => forall sql, render_semantic_filter_sql f = Ok sql -> filter_values_ok f = true ->
      reads rules sql (filter_tokens f)) fs ->
    try_map render_semantic_filter_sql fs = Ok rendered -> forallb filter_values_ok fs = true ->
    Forall2 (fun f sql => reads rules sql (filter_tokens f)) fs rendered).
  { clear f. intros fs rendered IH Hr%try_map_Ok Hv. induction Hr as [|f sql fs rendered Hf _ IHr]; [constructor|].
    apply Forall_cons in IH as [IHf IH]. simpl in Hv. apply andb_true_iff in Hv as [Hvf Hv].
    constructor; [by apply IHf|by apply IHr]. }
  induction f as [p|fs IH|fs IH|f IH] using semantic_nested_ind; intros sql Hr Hv.
  - by apply predicate_reads.
  - cbn [render_semantic_filter_sql] in Hr. destruct (try_map _ fs) as [rendered|] eqn:Hm; [|done].
    simpl in Hr. simplify_eq. apply (group_reads "AND"); try done. by apply Hmembers.
  - cbn [render_semantic_filter_sql] in Hr. destruct (try_map _ fs) as [rendered|] eqn:Hm; [|done].
    simpl in Hr. simplify_eq. apply (group_reads "OR"); try done. by apply Hmembers.
  - cbn [render_semantic_filter_sql] in Hr. destruct (render_semantic_filter_sql f) as [r|]; [|done].
    simpl in Hr. simplify_eq. cbn [filter_tokens].
    apply (reads_cons rules (text "NOT (") [Word (kw "NOT"); Symbol (ch "(")]); try done.
    apply reads_snoc; try done. by apply IH.
Qed.

End Rendering.

(** ** Concrete filters *)

#[local] Existing Instance number_values.

(** Integers and floats for numbers, and a parser that knows one document. *)
Definition tiny_json : JsonText := {|
  jnumber := Z + Z;
  as_i64 n := match n with inl i => Some i | inr _ => None end;
  as_f64 n := match n with inl i | inr i => Some i end;
  jnumber_text n := match n with inl i | inr i => integer_text i end;
  json_parse t := if bool_decide (t = text "{}") then Some (JObject []) else None;
|}.
#[local] Existing Instance tiny_json.
Definition tiny_json_laws : JsonTextLaws.
Proof.
  constructor. intros t v. cbn. case_bool_decide as Ht; [|done]. intros [= <-]. subst. cbn. lia.
Defined.
#[local] Existing Instance tiny_json_laws.

Definition demo_semantic : SemanticFilter :=
  let field name := Column (mkColumn None (text name) None) in
  Or [And [compare (Column (mkColumn (Some (text "o")) (text "total") None)) Where.Gte (VInt 10)];
      Not (null (field "state"));
      compare (field "d") Where.Ne VNull;
      compare (Path [text "a"; text "b"; text "c"]) Where.In (VArray [VText (text "x"); VBool true; VFloat 2])].

Lemma filter_json_roundtrip_witness :
  plain_semantic demo_semantic = true /\
  parse_semantic_filter_json (filter_json inl inr demo_semantic) = Some (Ok (Some (read_form demo_semantic))).
Proof.
  split; [vm_compute; reflexivity|].
  apply (filter_json_roundtrip (H0 := tiny_json) inl inr (fun i => eq_refl) (fun f _ => conj eq_refl eq_refl)
    demo_semantic). vm_compute. reflexivity.
Defined.

Lemma filter_json_is_read_witness :
  exists r, parse_semantic_filter_json (JObject [(text "$not", JString (text " {}"))]) = Some r /\
    parse_filter 40 (JObject [(text "$not", JString (text " {}"))]) = Some r.
Proof.
  destruct (filter_json_is_read (H0 := tiny_json) (JObject [(text "$not", JString (text " {}"))])) as (r & Hr & Hp & _).
  exists r. split; [exact Hp|]. apply Hr. vm_compute. lia.
Defined.

#[local] Instance demo_range : FloatRange := { out_of_integer_range x := (2 ^ 63 <=? x) || (x <? - 2 ^ 63) }.

(** Integers are compared by their values. *)
Definition same_integer (c : Cmp.Comparator) (a b : DbValue) : option bool :=
  match a, b with VInt x, VInt y => Some (x =? y) | _, _ => None end.

Lemma converted_filter_holds_of_the_same_rows_witness :
  let total := Column (mkColumn None (text "total") None) in
  let f := And [compare total Where.Ne VNull; compare total Where.In (VArray [VInt 1; VInt 2])] in
  let resolve c := Ok (text "t", cr_name c) in
  exists node, semantic_filter_to_filter_node resolve f = Ok node /\
    node_holds (fun _ => VInt 2) same_integer node = Some true /\
    filter_holds resolve (fun _ => VInt 2) same_integer (fun _ _ _ => None) f = Some true.
Proof.
  intros total f resolve. eexists. split; [reflexivity|].
  destruct (converted_filter_holds_of_the_same_rows resolve f) as [_ Hh]. split; [reflexivity|].
  rewrite <- (Hh _ (fun _ => VInt 2) same_integer (fun _ _ _ => None) eq_refl). reflexivity.
Defined.
