(* ===== verification/StatementBuilderProps.v ===== *)
(** * Generated statements do one thing (crates/dbflux_core: sql/query_builder.rs)

    On a dialect whose names and literals keep to themselves, a statement built
    for a row or a filter lexes to the tokens of its own clauses, and so is one
    statement of its kind whatever the names and values are. *)

From S2P Require Import Prelude RustStr RustChar Classification SqlLexer SqlLexerProps SqlSafety SqlSafetyProps SqlDialect SqlDialectProps SqlCode LexedDialect VisualQuery TableBrowser SemanticFilter SemanticFilterProps CrudRequests StatementBuilder.
Import TableBrowser CrudRequests StatementBuilder.

(** ** One statement *)

Definition inert_tokens (l : list Token) : Prop := Forall (fun t => inert t = true) l.

Lemma split_tokens_none p l : Forall (fun t => p t = false) l -> split_tokens p l = [l].
Proof. induction 1 as [|t l Ht _ IH]; simpl; [done|]. by rewrite Ht, IH. Qed.

Lemma inert_not_semicolon t : inert t = true -> is_symbol t (ch ";") = false.
Proof. destruct t; simpl; [done|done|]. by intros ?%negb_true_iff. Qed.

Lemma one_statement l :
  l <> [] -> Forall (fun t => is_symbol t (ch ";") = false) l -> statements_of l = [l].
Proof.
  intros Hne Hl. unfold statements_of. rewrite split_tokens_none by done. simpl.
  by rewrite bool_decide_eq_false_2.
Qed.

Lemma inert_ends_nothing l : inert_tokens l -> Forall (fun t => is_symbol t (ch ";") = false) l.
Proof. intros Hl. eapply List.Forall_impl; [|exact Hl]. apply inert_not_semicolon. Qed.

Lemma inert_app a b : inert_tokens a -> inert_tokens b -> inert_tokens (a ++ b).
Proof. intros Ha Hb. by apply Forall_app. Qed.

Lemma inert_cons t l : inert t = true -> inert_tokens l -> inert_tokens (t :: l).
Proof. by constructor. Qed.

Lemma inert_nil : inert_tokens [].
Proof. constructor. Qed.

Lemma inert_word_acts_not w : inert (Word w) = true -> w <> kw "FOR" /\ w ∉ keywords EFFECT_WORDS.
Proof.
  simpl. intros Hw%negb_true_iff. unfold is_kw in Hw. apply bool_decide_eq_false in Hw.
  cbn [keywords map] in Hw. rewrite elem_of_cons in Hw. tauto.
Qed.

Lemma inert_acts_not l : inert_tokens l -> ~ acts l.
Proof.
  intros Hl (pre & t & post & -> & Ha). apply Forall_app in Hl as [_ Hl]. inversion Hl as [|? ? Ht _]; subst.
  inversion Ha; subst; apply inert_word_acts_not in Ht; tauto.
Qed.

Lemma dropped_spaces l : exists w, l = w ++ trim_left l /\ Forall (fun c => is_whitespace c = true) w.
Proof.
  unfold trim_left. induction l as [|c l (w & Hl & Hw)]; [by exists []|]. simpl.
  destruct (is_whitespace c) eqn:Hc; [|by exists []]. exists (c :: w). split; [by rewrite Hl at 1|by constructor].
Qed.

Lemma trimmed_spaces l : exists a b, l = a ++ trim_text l ++ b /\
  Forall (fun c => is_whitespace c = true) a /\ Forall (fun c => is_whitespace c = true) b.
Proof.
  destruct (dropped_spaces l) as (a & Ha & Hwa). destruct (dropped_spaces (rev (trim_left l))) as (b & Hb & Hwb).
  exists a, (rev b). split; [|split; [done|by apply Forall_rev]]. unfold trim_text, trim_right.
  rewrite <- rev_app_distr. rewrite Ha at 1. f_equal. rewrite <- (rev_involutive (trim_left l)) at 1.
  f_equal. exact Hb.
Qed.

Lemma trim_blank s : trim_text s = [] <-> Forall (fun c => is_whitespace c = true) s.
Proof.
  split.
  - destruct (trimmed_spaces s) as (a & b & Hs & Ha & Hb). intros Ht. rewrite Hs, Ht. by apply Forall_app.
  - intros Hs. unfold trim_text. assert (trim_left s = []) as ->; [|done]. unfold trim_left.
    induction Hs as [|c s Hc _ IH]; simpl; [done|]. by rewrite Hc.
Qed.

Section Statements.
Context `{CharLib} `{!CharLaws} `{ValueLib} `{!SqlDialect} (rules : LexRules) `{!LexedDialect rules}.
Abbreviation words l := (map (fun s => Word (kw s)) l).

(** A statement of a word that writes, and a [SELECT]. *)
Lemma written_class k l sql :
  tokenize sql rules = Word (kw k) :: l -> Forall (fun t => is_symbol t (ch ";") = false) l ->
  k ∈ ["INSERT"; "UPDATE"; "DELETE"] -> classify_with_rules sql rules = Write.
Proof.
  intros Ht Hl Hk. unfold classify_with_rules. rewrite Ht, one_statement; [|done|].
  - rewrite !elem_of_cons, elem_of_nil in Hk. by destruct Hk as [-> |[-> |[-> |]]].
  - by constructor.
Qed.

Lemma select_class l sql :
  tokenize sql rules = Word (kw "SELECT") :: l -> inert_tokens l -> class_le (classify_with_rules sql rules) Read.
Proof.
  intros Ht Hl. unfold classify_with_rules. rewrite Ht, one_statement; [|done|].
  - cbn [map length Nat.ltb Nat.leb]. unfold classification_max_list. cbn [foldl].
    assert (Hs : class_le (classify_statement (Word (kw "SELECT") :: l)) Read).
    { apply statement_reads, SqlSafetyProps.reads_plain, plain_query; [|by apply inert_acts_not].
      apply list_elem_of_here. }
    by destruct (classify_statement _).
  - constructor; [done|by apply inert_ends_nothing].
Qed.

(** ** The clauses *)

Definition condition_tokens (cv : list char * DbValue) : list Token :=
  match cv.2 with
  | VNull => [Quoted; Word (kw "IS"); Word (kw "NULL")]
  | v => [Quoted; Symbol (ch "=")] ++ literal_tokens rules v
  end.

Definition where_tokens (identity : RecordIdentity) : list Token :=
  match identity with
  | Composite columns values => join_list [Word (kw "AND")] (map condition_tokens (zip columns values))
  | _ => []
  end.

Definition returning_all_tokens (with_returning : bool) : list Token :=
  if with_returning && supports_returning then [Word (kw "RETURNING"); Symbol (ch "*")] else [].

Definition returning_column_tokens (returning : option (list (list char))) : list Token :=
  match returning with
  | Some (c :: l) => if supports_returning then Word (kw "RETURNING") :: name_list_tokens (c :: l) else []
  | _ => []
  end.

Definition bulk_tokens (types : list (option (list char))) (row : list DbValue) : list Token :=
  parens (list_tokens (imap (fun i v => tokenize (value_to_literal_typed v (mjoin (types !! i))) rules) row)).

Definition target (schema : option (list char)) : list Token := table_tokens (qualifies schema).

(** ** Statements *)

Inductive Statement : Type :=
| SUpdate (patch : RowPatch) (with_returning : bool)
| SUpdateMany (update : SqlUpdateRequest)
| SInsert (insert : RowInsert) (with_returning : bool)
| SBulkInsert (schema : option (list char)) (table : list char) (columns : list (list char))
    (types : list (option (list char))) (rows : list (list DbValue))
| SDelete (delete : RowDelete) (with_returning : bool)
| SDeleteMany (delete : SqlDeleteRequest)
| SUpsert (upsert : SqlUpsertRequest)
| SSelect (schema : option (list char)) (table : list char) (identity : RecordIdentity).

Definition build (s : Statement) : option (list char) :=
  match s with
  | SUpdate patch r => build_update patch r
  | SUpdateMany u => build_update_many u
  | SInsert i r => build_insert i r
  | SBulkInsert schema table columns types rows => build_bulk_insert schema table columns types rows
  | SDelete d r => build_delete d r
  | SDeleteMany d => build_delete_many d
  | SUpsert u => build_upsert u
  | SSelect schema table i => build_select_by_identity schema table i
  end.

Definition statement_tokens (s : Statement) : list Token :=
  match s with
  | SUpdate p r =>
      words ["UPDATE"] ++ target (rp_schema p) ++ words ["SET"] ++ set_tokens rules (rp_changes p) ++
      words ["WHERE"] ++ where_tokens (rp_identity p) ++ returning_all_tokens r
  | SUpdateMany u =>
      words ["UPDATE"] ++ target (su_schema u) ++ words ["SET"] ++ set_tokens rules (su_changes u) ++
      words ["WHERE"] ++ filter_tokens rules (su_filter u) ++ returning_column_tokens (su_returning u)
  | SInsert i r =>
      insert_tokens rules (target (ri_schema i)) (ri_assignments i) ++ returning_all_tokens r
  | SBulkInsert schema _ columns types rows =>
      words ["INSERT"; "INTO"] ++ target schema ++ parens (name_list_tokens columns) ++ words ["VALUES"] ++
      list_tokens (map (bulk_tokens types) rows)
  | SDelete d r =>
      words ["DELETE"; "FROM"] ++ target (rd_schema d) ++ words ["WHERE"] ++
      where_tokens (rd_identity d) ++ returning_all_tokens r
  | SDeleteMany d =>
      words ["DELETE"; "FROM"] ++ target (sd_schema d) ++ words ["WHERE"] ++
      filter_tokens rules (sd_filter d) ++ returning_column_tokens (sd_returning d)
  | SUpsert u =>
      insert_tokens rules (target (up_schema u)) (up_assignments u) ++
      conflict_tokens rules upsert_style (up_conflict_columns u) (up_update_assignments u)
  | SSelect schema _ i =>
      [Word (kw "SELECT"); Symbol (ch "*"); Word (kw "FROM")] ++ target schema ++ words ["WHERE"] ++
      where_tokens i ++ words ["LIMIT"; "1"]
  end.

(** The values a statement writes. *)
Definition identity_values (i : RecordIdentity) : list DbValue :=
  match i with Composite _ values => values | _ => [] end.
Definition values_ok (s : Statement) : bool :=
  match s with
  | SUpdate p _ => forallb value_ok (map ca_value (rp_changes p)) && forallb value_ok (identity_values (rp_identity p))
  | SUpdateMany u => forallb value_ok (map ca_value (su_changes u)) && filter_values_ok rules (su_filter u)
  | SInsert i _ => forallb value_ok (map ca_value (ri_assignments i))
  | SBulkInsert _ _ _ _ rows => forallb (forallb value_ok) rows
  | SDelete d _ => forallb value_ok (identity_values (rd_identity d))
  | SDeleteMany d => filter_values_ok rules (sd_filter d)
  | SUpsert u =>
      forallb value_ok (map ca_value (up_assignments u)) && forallb value_ok (map ca_value (up_update_assignments u))
  | SSelect _ _ i => forallb value_ok (identity_values i)
  end.

(** What a statement is built from: changes to write, a row to write them to, a
    column a conflict is on. *)
Definition complete (s : Statement) : Prop :=
  match s with
  | SUpdate p _ => rp_changes p <> [] /\ where_tokens (rp_identity p) <> []
  | SUpdateMany u => su_changes u <> []
  | SInsert i _ => ri_assignments i <> []
  | SBulkInsert _ _ _ _ rows => rows <> []
  | SDelete d _ => where_tokens (rd_identity d) <> []
  | SDeleteMany _ => True
  | SUpsert u => up_assignments u <> [] /\ up_conflict_columns u <> []
  | SSelect _ _ i => where_tokens i <> []
  end.

Lemma names_read names : reads rules (build_column_list names) (name_list_tokens names).
Proof.
  unfold build_column_list, commas, name_list_tokens, list_tokens, comma.
  apply reads_map; try done. apply List.Forall_forall. intros; apply name_reads.
Qed.

Lemma typed_list_reads l :
  forallb value_ok (map ca_value l) = true ->
  reads rules (commas (map assigned_literal l)) (list_tokens (map (typed_tokens rules) l)).
Proof.
  intros Hl. unfold commas, list_tokens, comma. apply reads_map; try done.
  rewrite forallb_forall in Hl. apply List.Forall_forall. intros a Ha.
  apply typed_literal_reads, Hl. by apply in_map.
Qed.

Lemma named_value_reads name t ks :
  reads rules t ks -> reads rules (quote_identifier name ++ text " = " ++ t) ([Quoted; Symbol (ch "=")] ++ ks).
Proof. intros Ht. exact (reads_around rules _ [Quoted] (text " = ") [Symbol (ch "=")] _ _ (name_reads name) eq_refl eq_refl eq_refl Ht). Qed.

Lemma set_reads changes :
  forallb value_ok (map ca_value changes) = true -> reads rules (build_set_clause changes) (set_tokens rules changes).
Proof.
  intros Hl. unfold build_set_clause, commas, set_tokens, list_tokens, comma. apply reads_map; try done.
  rewrite forallb_forall in Hl. apply List.Forall_forall. intros a Ha. apply named_value_reads.
  apply typed_literal_reads, Hl. by apply in_map.
Qed.

Lemma condition_reads cv :
  value_ok cv.2 = true -> reads rules (identity_condition cv) (condition_tokens cv).
Proof.
  destruct cv as [c v]. unfold identity_condition, condition_tokens. simpl. intros Hv.
  destruct v; try (by apply named_value_reads, literal_reads).
  by apply (reads_snoc rules _ [Quoted] (text " IS NULL") _ (name_reads c)).
Qed.

Lemma where_reads i w :
  build_where_clause i = Some w -> forallb value_ok (identity_values i) = true -> reads rules w (where_tokens i).
Proof.
  destruct i as [columns values| |]; [|done..]. simpl. destruct (_ || _); [done|]. intros [= <-] Hv.
  apply reads_map; try done. rewrite forallb_forall in Hv. apply List.Forall_forall.
  intros [c v] Hcv. apply condition_reads, Hv. by eapply in_combine_r.
Qed.

(** What follows the last clause. *)
Definition clause_end (t : list char) (ks : list Token) : Prop :=
  forall u kus, reads rules u kus -> reads rules (u ++ t) (kus ++ ks).

Lemma returning_all_end r : clause_end (returning_all r) (returning_all_tokens r).
Proof.
  intros u ks Hu. unfold returning_all, returning_all_tokens.
  destruct (_ && _); [by apply reads_snoc|by rewrite !app_nil_r].
Qed.

Lemma returning_columns_end r : clause_end (returning_columns r) (returning_column_tokens r).
Proof.
  intros u ks Hu. unfold returning_columns, returning_column_tokens.
  destruct r as [[|c l]|]; try by rewrite !app_nil_r. destruct supports_returning; [|by rewrite !app_nil_r].
  exact (reads_around rules u ks (text " RETURNING ") [Word (kw "RETURNING")] _ _ Hu eq_refl eq_refl eq_refl (names_read (c :: l))).
Qed.

(** The head of a statement on a table, a clause and what follows it. *)
Lemma table_clause verb kv schema table sep ks t kt :
  lex_const [] verb = Some kv -> ends_gap verb = true -> lex_const [] sep = Some ks ->
  begins_gap sep = true -> ends_gap sep = true -> reads rules t kt ->
  reads rules (verb ++ qualified_table schema table ++ sep ++ t) (kv ++ target schema ++ ks ++ kt).
Proof.
  intros Hv He Hs Hb Hse Ht. apply reads_cons; [done|done|]. apply reads_around; try done. apply table_reads.
Qed.

(** The head of an insert, up to the opening of its values. *)
Lemma insert_head schema table columns sep ks u ku :
  lex_const [] (text ") VALUES " ++ sep) = Some (Symbol (ch ")") :: Word (kw "VALUES") :: ks) ->
  ends_gap (text ") VALUES " ++ sep) = true -> reads rules u ku ->
  reads rules (text "INSERT INTO " ++ qualified_table schema table ++ text " (" ++ build_column_list columns ++
      (text ") VALUES " ++ sep) ++ u)
    (words ["INSERT"; "INTO"] ++ target schema ++ parens (name_list_tokens columns) ++ words ["VALUES"] ++ ks ++ ku).
Proof.
  intros Hs He Hu.
  pose proof (table_clause (text "INSERT INTO ") (words ["INSERT"; "INTO"]) schema table (text " (")
    [Symbol (ch "(")] _ _ eq_refl eq_refl eq_refl eq_refl eq_refl
    (reads_around rules _ _ _ _ u ku (names_read columns) Hs eq_refl He Hu)) as Hr.
  unfold parens. rewrite <- app_comm_cons, <- !app_assoc. exact Hr.
Qed.

Lemma bulk_tuple_reads types row :
  forallb value_ok row = true -> reads rules (bulk_tuple types row) (bulk_tokens types row).
Proof.
  intros Hv. apply (parens_reads rules (text "(")); try done. unfold commas, list_tokens, comma.
  pose proof (reads_join rules (text ", ") [Symbol (ch ",")] (imap (fun i v =>
    (value_to_literal_typed v (mjoin (types !! i)),
     tokenize (value_to_literal_typed v (mjoin (types !! i))) rules)) row) eq_refl eq_refl eq_refl) as Hj.
  change (map fst (imap ?f ?l)) with (fst <$> imap f l) in Hj. change (map snd (imap ?f ?l)) with (snd <$> imap f l) in Hj.
  rewrite !fmap_imap in Hj. apply Hj.
  apply Forall_lookup. intros i [t ks] Hi. rewrite list_lookup_imap in Hi.
  destruct (row !! i) as [v|] eqn:Hr; [|done]. simpl in Hi. simplify_eq. simpl. apply typed_literal_reads.
  rewrite forallb_forall in Hv. apply Hv. by eapply list_elem_of_In, list_elem_of_lookup_2.
Qed.

Lemma built_reads s sql :
  build s = Some sql -> values_ok s = true -> reads rules sql (statement_tokens s).
Proof.
  intros Hb Hv. destruct s as [p r|u|i r|schema table columns types rows|d r|d|u|schema table i];
    cbn [build values_ok] in Hb, Hv.
  - apply andb_true_iff in Hv as [Hc Hi]. unfold build_update in Hb. case_bool_decide; [done|].
    destruct (build_where_clause _) as [w|] eqn:Hw; [|done]. cbn [mbind option_bind] in Hb. injection Hb as <-.
    exact (table_clause (text "UPDATE ") (words ["UPDATE"]) _ _ (text " SET ") (words ["SET"]) _ _
      eq_refl eq_refl eq_refl eq_refl eq_refl
      (reads_around rules _ _ (text " WHERE ") (words ["WHERE"]) _ _ (set_reads _ Hc) eq_refl eq_refl eq_refl
        (returning_all_end r _ _ (where_reads _ _ Hw Hi)))).
  - apply andb_true_iff in Hv as [Hc Hf]. unfold build_update_many, render_condition in Hb.
    case_bool_decide; [done|].
    destruct (SemanticFilter.render_semantic_filter_sql _) as [w|] eqn:Hw; cbn [mbind option_bind] in Hb; [|done].
    injection Hb as <-.
    exact (table_clause (text "UPDATE ") (words ["UPDATE"]) _ _ (text " SET ") (words ["SET"]) _ _
      eq_refl eq_refl eq_refl eq_refl eq_refl
      (reads_around rules _ _ (text " WHERE ") (words ["WHERE"]) _ _ (set_reads _ Hc) eq_refl eq_refl eq_refl
        (returning_columns_end _ _ _ (rendered_reads rules _ _ Hw Hf)))).
  - unfold build_insert in Hb. case_bool_decide; [done|]. injection Hb as <-.
    pose proof (returning_all_end r _ _ (reads_snoc rules _ _ (text ")") [Symbol (ch ")")]
      (typed_list_reads _ Hv) eq_refl eq_refl)) as He.
    pose proof (insert_head (ri_schema i) (ri_table i) (map ca_name (ri_assignments i)) (text "(") [Symbol (ch "(")]
      _ _ eq_refl eq_refl He) as Hr.
    rewrite <- !app_assoc in Hr. cbn [statement_tokens]. unfold insert_tokens. rewrite <- !app_assoc.
    unfold parens at 2. rewrite <- app_comm_cons, <- app_assoc. exact Hr.
  - unfold build_bulk_insert in Hb. case_bool_decide; [done|]. injection Hb as <-.
    assert (Ht : reads rules (commas (map (bulk_tuple types) rows)) (list_tokens (map (bulk_tokens types) rows))).
    { unfold commas, list_tokens, comma. apply reads_map; try done. rewrite forallb_forall in Hv.
      apply List.Forall_forall. intros row Hr. by apply bulk_tuple_reads, Hv. }
    exact (insert_head schema table columns [] [] _ _ eq_refl eq_refl Ht).
  - unfold build_delete in Hb. destruct (build_where_clause _) as [w|] eqn:Hw; [|done].
    cbn [mbind option_bind] in Hb. injection Hb as <-.
    exact (table_clause (text "DELETE FROM ") (words ["DELETE"; "FROM"]) _ _ (text " WHERE ") (words ["WHERE"]) _ _
      eq_refl eq_refl eq_refl eq_refl eq_refl (returning_all_end r _ _ (where_reads _ _ Hw Hv))).
  - unfold build_delete_many, render_condition in Hb.
    destruct (SemanticFilter.render_semantic_filter_sql _) as [w|] eqn:Hw; cbn [mbind option_bind] in Hb; [|done].
    injection Hb as <-.
    exact (table_clause (text "DELETE FROM ") (words ["DELETE"; "FROM"]) _ _ (text " WHERE ") (words ["WHERE"]) _ _
      eq_refl eq_refl eq_refl eq_refl eq_refl (returning_columns_end _ _ _ (rendered_reads rules _ _ Hw Hv))).
  - unfold build_upsert in Hb. destruct (upsert_is_valid u); [|done].
    apply andb_true_iff in Hv as [Ha Hu]. apply (upsert_reads _ _ _ _ _ _ Hb).
    rewrite forallb_forall in Ha, Hu. apply Forall_app. split; apply List.Forall_forall; intros a Hin;
      [apply Ha|apply Hu]; by apply in_map.
  - unfold build_select_by_identity in Hb.
    destruct (build_where_clause _) as [w|] eqn:Hw; [|done]. cbn [mbind option_bind] in Hb. injection Hb as <-.
    exact (table_clause (text "SELECT * FROM ") [Word (kw "SELECT"); Symbol (ch "*"); Word (kw "FROM")] _ _
      (text " WHERE ") (words ["WHERE"]) _ _ eq_refl eq_refl eq_refl eq_refl eq_refl
      (reads_snoc rules _ _ (text " LIMIT 1") (words ["LIMIT"; "1"]) (where_reads _ _ Hw Hv) eq_refl eq_refl)).
Qed.

Lemma where_complete i w : build_where_clause i = Some w -> where_tokens i <> [].
Proof.
  destruct i as [columns values| |]; [|done..]. simpl. case_bool_decide as Hc; [done|].
  destruct (Nat.eqb_spec (length columns) (length values)) as [Hl|]; [|done]. intros _.
  destruct columns as [|c columns], values as [|v values]; try done. unfold where_tokens. cbn [zip zip_with map].
  assert (condition_tokens (c, v) <> []) by (unfold condition_tokens; simpl; by destruct v).
  destruct (map condition_tokens _); [done|]. simpl. by destruct (condition_tokens (c, v)).
Qed.

Lemma built_complete s sql : build s = Some sql -> complete s.
Proof.
  assert (Hne : forall A (l : list A), ~ length l = 0%nat -> l <> []) by (by intros A [|]).
  destruct s as [p r|u|i r|schema table columns types rows|d r|d|u|schema table i]; cbn [build complete]; intros Hb.
  - unfold build_update in Hb. case_bool_decide; [done|]. apply bind_Some in Hb as (w & Hw & _).
    split; [by apply Hne|by eapply where_complete].
  - unfold build_update_many in Hb. case_bool_decide; [done|]. by apply Hne.
  - unfold build_insert in Hb. case_bool_decide; [done|]. by apply Hne.
  - unfold build_bulk_insert in Hb. case_bool_decide; [done|]. by apply Hne.
  - apply bind_Some in Hb as (w & Hw & _). by eapply where_complete.
  - done.
  - unfold build_upsert, upsert_is_valid in Hb. do 2 (case_bool_decide; [done|]). split; [by apply Hne|done].
  - apply bind_Some in Hb as (w & Hw & _). by eapply where_complete.
Qed.

(** ** No clause ends a statement *)

Lemma inert_join sep l : inert_tokens sep -> Forall inert_tokens l -> inert_tokens (join_list sep l).
Proof. apply join_list_Forall. Qed.

Lemma inert_map {A} (f : A -> list Token) l : (forall x, In x l -> inert_tokens (f x)) -> Forall inert_tokens (map f l).
Proof. intros Hf. apply List.Forall_map, List.Forall_forall. exact Hf. Qed.

Lemma inert_parens l : inert_tokens l -> inert_tokens (parens l).
Proof. intros Hl. constructor; [done|]. apply Forall_app. split; [done|by repeat constructor]. Qed.

Lemma inert_const l : forallb inert l = true -> inert_tokens l.
Proof. intros Hl. apply List.Forall_forall. by apply forallb_forall. Qed.

Lemma inert_names names : inert_tokens (name_list_tokens names).
Proof. apply inert_join; [by apply inert_const|]. apply inert_map. intros; by apply inert_const. Qed.

Lemma inert_target schema : inert_tokens (target schema).
Proof. unfold target. apply inert_const. by destruct (qualifies schema). Qed.

Lemma inert_literal v : value_ok v = true -> inert_tokens (literal_tokens rules v).
Proof. intros Hv. by apply literal_reads. Qed.

Lemma inert_assigned l :
  forallb value_ok (map ca_value l) = true -> forall a, In a l -> inert_tokens (typed_tokens rules a).
Proof. intros Hl a Ha. apply typed_literal_reads. rewrite forallb_forall in Hl. by apply Hl, in_map. Qed.

Lemma inert_condition cv : value_ok cv.2 = true -> inert_tokens (condition_tokens cv).
Proof.
  destruct cv as [c v]. unfold condition_tokens. simpl. intros Hv.
  destruct v; first [by apply inert_const|by do 2 (constructor; [done|]); apply inert_literal].
Qed.

Lemma inert_where i : forallb value_ok (identity_values i) = true -> inert_tokens (where_tokens i).
Proof.
  destruct i as [columns values| |]; [|intros; by apply inert_const..]. simpl. intros Hv.
  apply inert_join; [by apply inert_const|]. apply inert_map. intros [c v] Hin. apply inert_condition.
  rewrite forallb_forall in Hv. apply Hv. by eapply in_combine_r.
Qed.

Lemma inert_set l : forallb value_ok (map ca_value l) = true -> inert_tokens (set_tokens rules l).
Proof.
  intros Hl. apply inert_join; [by apply inert_const|]. apply inert_map. intros a Ha.
  apply Forall_app. split; [by apply inert_const|by eapply inert_assigned].
Qed.

Lemma inert_operator op : inert_tokens (operator_tokens op).
Proof. apply inert_const. by destruct op. Qed.

Lemma inert_literal_list l :
  forallb value_ok l = true -> inert_tokens (join_list comma (map (literal_tokens rules) l)).
Proof.
  intros Hl. apply inert_join; [by apply inert_const|]. apply inert_map. intros v Hv.
  rewrite forallb_forall in Hl. by apply inert_literal, Hl.
Qed.

Lemma inert_predicate p : predicate_values_ok rules p = true -> inert_tokens (predicate_tokens rules p).
Proof.
  destruct p as [field op value]. unfold predicate_values_ok, predicate_tokens.
  cbn [SemanticFilter.sp_field SemanticFilter.sp_operator SemanticFilter.sp_value]. intros Hv.
  apply Forall_app. split.
  - destruct field as [c|]; apply inert_const; [|done]. unfold field_tokens, column_tokens.
    by destruct (cr_table c), (cr_alias c).
  - assert (Hw : forall o v, value_ok v = true -> inert_tokens (operator_tokens o ++ literal_tokens rules v)).
    { intros o v Ho. apply Forall_app. split; [apply inert_operator|by apply inert_literal]. }
    assert (Hl : forall o l, forallb value_ok l = true ->
      inert_tokens (operator_tokens o ++ parens (join_list comma (map (literal_tokens rules) l)))).
    { intros o l Ho. apply Forall_app. split; [apply inert_operator|by apply inert_parens, inert_literal_list]. }
    destruct op; destruct value as [v|]; try (by apply inert_const); try (by apply Hw);
      destruct v; first [by apply inert_const|by apply Hw|by apply Hl].
Qed.

Lemma inert_filter f : filter_values_ok rules f = true -> inert_tokens (filter_tokens rules f).
Proof.
  assert (Hgroup : forall k fs, inert (Word (kw k)) = true ->
    Forall (fun f => filter_values_ok rules f = true -> inert_tokens (filter_tokens rules f)) fs ->
    forallb (filter_values_ok rules) fs = true ->
    inert_tokens (join_list [Word (kw k)] (map (fun f => parens (filter_tokens rules f)) fs))).
  { intros k fs Hk IH Hv. apply inert_join; [by repeat constructor|]. apply inert_map. intros x Hx.
    apply inert_parens. rewrite List.Forall_forall in IH. rewrite forallb_forall in Hv. by apply IH, Hv. }
  induction f as [p|fs IH|fs IH|f IH] using semantic_nested_ind; intros Hv.
  - by apply inert_predicate.
  - by apply (Hgroup "AND").
  - by apply (Hgroup "OR").
  - cbn [filter_tokens]. constructor; [done|]. by apply inert_parens, IH.
Qed.

Lemma inert_returning r : inert_tokens (returning_all_tokens r).
Proof. apply inert_const. unfold returning_all_tokens. by destruct (_ && _). Qed.

Lemma inert_returning_columns r : inert_tokens (returning_column_tokens r).
Proof.
  destruct r as [[|c l]|]; try by apply inert_const. unfold returning_column_tokens.
  destruct supports_returning; [|by apply inert_const]. constructor; [done|apply inert_names].
Qed.

Lemma inert_typed_list l :
  forallb value_ok (map ca_value l) = true -> inert_tokens (list_tokens (map (typed_tokens rules) l)).
Proof.
  intros Hl. apply inert_join; [by apply inert_const|]. apply inert_map. intros a Ha. by eapply inert_assigned.
Qed.

Lemma inert_insert schema l :
  forallb value_ok (map ca_value l) = true -> inert_tokens (drop 2 (insert_tokens rules (target schema) l)).
Proof.
  intros Hl. unfold insert_tokens. cbn [map app]. rewrite !skipn_cons, drop_0. repeat (first [apply inert_parens|apply inert_target
    |apply inert_names|by apply inert_typed_list|apply inert_app|apply inert_cons; [reflexivity|]]).
Qed.

Lemma conflict_ends_nothing style conflicts updates :
  forallb value_ok (map ca_value updates) = true ->
  Forall (fun t => is_symbol t (ch ";") = false) (conflict_tokens rules style conflicts updates).
Proof.
  intros Hu. pose proof (inert_ends_nothing _ (inert_set _ Hu)) as Hs.
  pose proof (inert_ends_nothing _ (inert_parens _ (inert_names conflicts))) as Hc.
  unfold conflict_tokens. destruct style, updates; cbn [map app];
    repeat (first [assumption|apply Forall_app; split|constructor; [reflexivity|]|constructor]).
Qed.

Lemma inert_bulk types rows :
  forallb (forallb value_ok) rows = true -> inert_tokens (list_tokens (map (bulk_tokens types) rows)).
Proof.
  intros Hl. apply inert_join; [by apply inert_const|]. apply inert_map. intros row Hr. apply inert_parens.
  apply inert_join; [by apply inert_const|]. apply Forall_lookup. intros i ks Hi.
  rewrite list_lookup_imap in Hi. destruct (row !! i) as [v|] eqn:Hv; [|done]. simpl in Hi. simplify_eq.
  apply typed_literal_reads. rewrite forallb_forall in Hl. specialize (Hl row Hr).
  rewrite forallb_forall in Hl. apply Hl. by eapply list_elem_of_In, list_elem_of_lookup_2.
Qed.

End Statements.

(** Go through the ways clauses are put together. *)
Ltac inert :=
  repeat match goal with
    | |- inert_tokens [] => apply inert_nil
    | |- inert_tokens (_ ++ _) => apply inert_app
    | |- inert_tokens (_ :: _) => apply inert_cons; [reflexivity|]
    | |- inert_tokens (parens _) => apply inert_parens
    | |- inert_tokens (target _ _) => apply inert_target
    | |- inert_tokens (name_list_tokens _) => apply inert_names
    | |- inert_tokens (where_tokens _ _) => eapply inert_where; eassumption
    | |- inert_tokens (set_tokens _ _) => eapply inert_set; eassumption
    | |- inert_tokens (filter_tokens _ _) => eapply inert_filter; eassumption
    | |- inert_tokens (returning_all_tokens _) => apply inert_returning
    | |- inert_tokens (returning_column_tokens _) => apply inert_returning_columns
    | |- inert_tokens (list_tokens (map (typed_tokens _) _)) => eapply inert_typed_list; eassumption
    | |- inert_tokens (list_tokens (map (bulk_tokens _ _) _)) => eapply inert_bulk; eassumption
    end.

Section Theorems.
Context `{CharLib} `{!CharLaws} `{ValueLib} `{!SqlDialect} (rules : LexRules) `{!LexedDialect rules}.

Definition is_select (s : Statement) : bool := match s with SSelect _ _ _ => true | _ => false end.

(** A statement is a keyword and clauses that end nothing; a [SELECT] has no word
    that acts either. *)
Lemma statement_shape s :
  values_ok rules s = true ->
  exists k l, statement_tokens rules s = Word (kw k) :: l /\
    Forall (fun t => is_symbol t (ch ";") = false) l /\
    if is_select s then k = "SELECT" /\ inert_tokens l else k ∈ ["INSERT"; "UPDATE"; "DELETE"].
Proof.
  intros Hv. assert ((exists u, s = SUpsert u) \/ forall u, s <> SUpsert u) as [[u ->]|Hup]
    by (destruct s; first [by right|left; by eexists]).
  { apply andb_true_iff in Hv as [Ha Hu]. exists "INSERT", (tail (insert_tokens rules (target rules (up_schema u)) (up_assignments u)) ++
      conflict_tokens rules upsert_style (up_conflict_columns u) (up_update_assignments u)).
    split; [reflexivity|]. split; [|left]. apply Forall_app. split; [|by apply (conflict_ends_nothing rules)]. constructor; [done|].
    exact (inert_ends_nothing _ (inert_insert rules (up_schema u) _ Ha)). }
  destruct s as [p r|u|i r|schema table columns types rows|d r|d|u|schema table i];
    try (by destruct (Hup _ eq_refl)); cbn [values_ok] in Hv; try apply andb_true_iff in Hv as [Hv Hv'];
    unfold statement_tokens, insert_tokens; cbn [map app]; do 2 eexists; (split; [reflexivity|]);
    cbn [is_select app map].
  3,4: (split; [constructor; [reflexivity|]|apply list_elem_of_In; simpl; tauto]); apply inert_ends_nothing;
    inert.
  1,2,3,4: (split; [|apply list_elem_of_In; simpl; tauto]); apply inert_ends_nothing; inert.
  split; [apply inert_ends_nothing|split; [done|]]; inert.
Qed.

(** C12: a statement built for a row, rows, a filter or an upsert is built from a
    complete request (changes to write, a non-empty condition on the row, columns
    for the conflict) and is one statement of its kind, in every dialect whose
    names and literals lex to tokens of their own ([LexedDialect], for the values
    the dialect writes that way): it lexes to the keywords, the quoted names and
    the literals of its clauses in their order, an upsert to its insert and the
    conflict clause of its dialect, so no name and no value ends it, adds a clause
    to it or changes its class. *)
Theorem built_statement_is_one_statement s sql :
  build s = Some sql -> values_ok rules s = true ->
  complete rules s /\
  tokenize sql rules = statement_tokens rules s /\
  statements_of (tokenize sql rules) = [statement_tokens rules s] /\
  if is_select s then class_le (classify_with_rules sql rules) Read
  else classify_with_rules sql rules = Write.
Proof.
  intros Hb Hv. split; [by eapply built_complete|].
  pose proof (reads_tokenize rules _ _ (built_reads rules s sql Hb Hv)) as Ht.
  destruct (statement_shape s Hv) as (k & l & Hs & Hl & Hk). rewrite Ht. split; [done|]. split.
  - rewrite Hs. apply one_statement; [done|]. by constructor.
  - rewrite Hs in Ht. destruct (is_select s); [|by eapply written_class].
    destruct Hk as [-> Hi]. by eapply select_class.
Qed.

(** ** Deletes of the server *)

Lemma parens_group_nonempty sep (f : SemanticFilter.SemanticFilter -> list Token) fs :
  fs <> [] -> join_list sep (map (fun x => parens (f x)) fs) <> [].
Proof. destruct fs as [|x [|y l]]; done. Qed.

Lemma rendered_nonempty f sql :
  SemanticFilter.render_semantic_filter_sql f = Ok sql -> no_empty_group f = true -> filter_tokens rules f <> [].
Proof.
  destruct f as [p|fs|fs|f]; intros Hr Hg.
  - destruct p as [[c|] op v]; [|done]. cbn [filter_tokens]. unfold predicate_tokens, field_tokens, column_tokens.
    cbn [SemanticFilter.sp_field]. by destruct (cr_table c).
  - simpl in Hg. apply andb_true_iff in Hg as [Hne%negb_true_iff%bool_decide_eq_false _].
    apply parens_group_nonempty. by destruct fs.
  - simpl in Hg. apply andb_true_iff in Hg as [Hne%negb_true_iff%bool_decide_eq_false _].
    apply parens_group_nonempty. by destruct fs.
  - done.
Qed.

Context `{!SemanticFilter.JsonText} `{!JsonTextLaws}.

(** A [where] that restricts nothing, whatever the kind of connection. *)
Definition restricts_nothing (filter : SemanticFilter.JsonValue SemanticFilter.jnumber) : Prop :=
  filter = SemanticFilter.JNull \/ filter = SemanticFilter.JObject [] \/
  filter = SemanticFilter.JArray [] \/
  exists s, filter = SemanticFilter.JString s /\ Forall (fun c => is_whitespace c = true) s.

Lemma empty_where_restricts filter : empty_where filter = true <-> restricts_nothing filter.
Proof.
  unfold restricts_nothing. destruct filter as [|b|n|s|l|m]; simpl; rewrite ?bool_decide_eq_true.
  - tauto.
  - split; [done|]. by intros [?|[?|[?|(? & ? & ?)]]].
  - split; [done|]. by intros [?|[?|[?|(? & ? & ?)]]].
  - rewrite trim_blank. split; [eauto 6|]. by intros [?|[?|[?|(? & [= ->] & ?)]]].
  - split; [destruct l; naive_solver|]. by intros [?|[?|[[= ->]|(? & ? & ?)]]].
  - split; [destruct m; naive_solver|]. by intros [?|[[= ->]|[?|(? & ? & ?)]]].
Qed.

(** C13: the delete tool answers on every kind of connection, and never deletes
    without a condition.  A [where] that is null, empty or blank it refuses.  On a
    document store it asks the driver to delete, in the named collection, the
    documents of the very filter it was given.  On any other connection a filter
    that reads as none is refused too, and the statement executed is made from the
    filter as it was read, which has tokens of a condition; and where the names
    and literals of the dialect lex to tokens of their own ([LexedDialect]) and
    the values of the filter are ones it writes that way ([filter_values_ok]), it
    is one [DELETE] of the named table whose condition is that filter, every
    member of a group in parentheses of its own. *)
Theorem delete_tool_restricts_its_rows category table filter returning :
  exists r, delete_records category table filter returning = Some r /\
  (restricts_nothing filter -> r = Err WhereRequired) /\
  (category <> Document -> SemanticFilter.parse_semantic_filter_json filter = Some (Ok None) ->
   r = Err WhereRequired) /\
  (forall d, r = Ok (DeleteDocuments d) ->
    category = Document /\ ~ restricts_nothing filter /\ d = mkDocumentDelete table None filter true) /\
  forall sql, r = Ok (ExecuteSql sql) ->
    category <> Document /\
    exists f, SemanticFilter.parse_semantic_filter_json filter = Some (Ok (Some f)) /\
      filter_tokens rules f <> [] /\
      (filter_values_ok rules f = true ->
       tokenize sql rules =
         [Word (kw "DELETE"); Word (kw "FROM")] ++ target rules (tr_schema (table_from_qualified table)) ++
         [Word (kw "WHERE")] ++ filter_tokens rules f ++ returning_column_tokens returning /\
       classify_with_rules sql rules = Write).
Proof.
  pose proof (empty_where_restricts filter) as Hempty. unfold delete_records, delete_records_impl.
  destruct (empty_where filter); [by eexists|].
  assert (Hne : ~ restricts_nothing filter) by (by intros ?%Hempty).
  case_bool_decide as Hcat.
  { eexists. split_and!; [done..| |done]. by intros d [= <-]. }
  pose proof (filter_answers (SemanticFilter.json_weight filter) filter (le_n _)) as [p Hp].
  assert (Hparse : SemanticFilter.parse_semantic_filter_json filter = Some p) by exact Hp.
  unfold build_relational_delete_mutation. rewrite Hparse. cbn [mbind option_bind].
  eexists. split; [reflexivity|]. destruct p as [[f|]|e]; [|by split_and!..].
  split_and!; [done..| |]; [by intros d Hd; case_match|].
  intros sql Hsql. split; [done|]. exists f. split; [done|].
  match type of Hsql with context [build_delete_many ?d] => set (del := d) in * end.
  destruct (build_delete_many del) as [sql'|] eqn:Hd; [|done]. injection Hsql as ->.
  change (build (SDeleteMany del) = Some sql) in Hd.
  assert (Hrender : exists w, SemanticFilter.render_semantic_filter_sql f = Ok w).
  { unfold build, build_delete_many, render_condition in Hd. cbn [sd_filter del] in Hd.
    destruct (SemanticFilter.render_semantic_filter_sql f) as [w|]; [by exists w|done]. }
  destruct Hrender as [w Hw]. split; [apply (rendered_nonempty f w Hw); by eapply filter_groups|]. intros Hv.
  pose proof (reads_tokenize rules _ _ (built_reads rules (SDeleteMany del) sql Hd Hv)) as Ht.
  destruct (statement_shape (SDeleteMany del) Hv) as (k & l & Hs & Hl & Hk). split.
  - rewrite Ht. cbn [statement_tokens del sd_schema sd_filter sd_returning]. by destruct returning as [[|c cs]|].
  - rewrite Hs in Ht. eapply written_class; [exact Ht|exact Hl|exact Hk].
Qed.

End Theorems.

(** ** Concrete statements *)

#[local] Existing Instance number_values.
#[local] Existing Instance number_value_texts.
#[local] Existing Instance number_documents.
#[local] Instance demo_lexed : LexedDialect POSTGRES_RULES := default_lexed POSTGRES_RULES eq_refl.

(** A name and a value that would each end the statement if they were not quoted. *)
Definition demo_update : Statement :=
  SUpdate (mkPatch (Composite [text "id"; text "org"] [VInt (-7); VNull]) (text "t; DROP TABLE x") None
    [mkAssign (text "na" ++ 34%N :: text "me") (VText (text "'; DELETE FROM t; --")) None]) true.

Lemma built_statement_is_one_statement_witness :
  build demo_update <> None /\ values_ok POSTGRES_RULES demo_update = true /\
  exists sql, build demo_update = Some sql /\
    tokenize sql POSTGRES_RULES =
      [Word (kw "UPDATE"); Quoted; Word (kw "SET"); Quoted; Symbol (ch "="); Quoted; Word (kw "WHERE");
       Quoted; Symbol (ch "="); Symbol (ch "-"); Word (kw "7"); Word (kw "AND"); Quoted; Word (kw "IS");
       Word (kw "NULL")] /\
    classify_with_rules sql POSTGRES_RULES = Write.
Proof.
  split; [done|]. split; [reflexivity|]. eexists. split; [reflexivity|].
  edestruct (built_statement_is_one_statement POSTGRES_RULES demo_update) as (_ & Ht & _ & Hc);
    [reflexivity|reflexivity|].
  split; [|exact Hc]. rewrite Ht. vm_compute. reflexivity.
Defined.

#[local] Instance demo_json : SemanticFilter.JsonText := {
  SemanticFilter.jnumber := Z;
  SemanticFilter.as_i64 := Some;
  SemanticFilter.as_f64 := Some;
  SemanticFilter.jnumber_text := integer_text;
  SemanticFilter.json_parse _ := None;
}.
#[local] Instance demo_json_laws : JsonTextLaws.
Proof. by split. Defined.

Definition demo_delete_filter : SemanticFilter.JsonValue Z :=
  SemanticFilter.JObject [(text "a.b", SemanticFilter.JObject [(text "$gte", SemanticFilter.JNumber 3)]);
           (text "$or", SemanticFilter.JArray [SemanticFilter.JObject [(text "c", SemanticFilter.JNull)];
              SemanticFilter.JObject [(text "d", SemanticFilter.JString (text "x' OR 1=1 --"))]])].

Example demo_delete_text :
  delete_records Relational (text "s.t") demo_delete_filter (Some [text "id"]) =
  Some (Ok (ExecuteSql (text "DELETE FROM " ++ quote_double_quoted_identifier (text "s") ++ text "." ++
    quote_double_quoted_identifier (text "t") ++ text " WHERE (" ++
    quote_double_quoted_identifier (text "a") ++ text "." ++ quote_double_quoted_identifier (text "b") ++
    text " >= 3) AND ((" ++ quote_double_quoted_identifier (text "c") ++ text " IS NULL) OR (" ++
    quote_double_quoted_identifier (text "d") ++ text " = 'x'' OR 1=1 --'))"))).
Proof. vm_compute. reflexivity. Qed.

Lemma delete_tool_restricts_its_rows_witness :
  (exists r, delete_records Relational (text "s.t") demo_delete_filter None = Some r /\
    exists sql, r = Ok (ExecuteSql sql) /\ classify_with_rules sql POSTGRES_RULES = Write) /\
  delete_records Document (text "c") (SemanticFilter.JString [9%N; 32%N]) None = Some (Err WhereRequired).
Proof.
  split.
  - destruct (delete_tool_restricts_its_rows (H3 := demo_json) POSTGRES_RULES Relational (text "s.t")
      demo_delete_filter None) as (r & Hr & _ & _ & _ & Hd).
    exists r. split; [exact Hr|]. assert (Hsql : exists sql, r = Ok (ExecuteSql sql)).
    { vm_compute in Hr. injection Hr as <-. eexists. reflexivity. }
    destruct Hsql as [sql ->]. exists sql. split; [done|].
    destruct (Hd sql eq_refl) as (_ & f & Hf & _ & Hc). apply Hc. vm_compute in Hf. injection Hf as <-. reflexivity.
  - destruct (delete_tool_restricts_its_rows (H3 := demo_json) POSTGRES_RULES Document (text "c")
      (SemanticFilter.JString [9%N; 32%N]) None) as (r & Hr & He & _).
    rewrite Hr, He; [done|]. do 3 right. eexists. split; [done|]. by repeat constructor.
Defined.
