(* ===== verification/CreateTableProps.v ===== *)
(** * Column types end no statement (crates/dbflux_core: sql/query_builder.rs)

    A column type that follows the grammar of [is_safe_column_type_spec] is read
    by the lexer of every engine without ending the statement it stands in, so the
    [CREATE TABLE] of a transfer is one statement whatever types came from
    outside. *)

From S2P Require Import Prelude RustStr RustChar Classification SqlLexer SqlLexerProps SqlSafety SqlSafetyProps SqlDialect SqlDialectProps SqlCode LexedDialect VisualQuery TableBrowser SemanticFilter SemanticFilterProps CrudRequests StatementBuilder StatementBuilderProps.
Import StatementBuilder.

Definition quiet (l : list Token) : Prop := Forall (fun t => is_symbol t (ch ";") = false) l.

Lemma quiet_app a b : quiet a -> quiet b -> quiet (a ++ b).
Proof. intros Ha Hb. by apply Forall_app. Qed.

(** Characters that may stand in a type without a backslash before them. *)
Definition no_backslash (l : list char) : Prop := Forall (fun c => c <> ch "\") l.

Section Types.
Context `{CharLib} `{!CharLaws} (rules : LexRules).

(** Inside a literal, whether or not a backslash escapes there. *)
Definition inside (close : char) (st : ScanState) : Prop := exists esc, st = InQuotes close esc.

(** From a state of [S], the text [t] lexes to tokens that end nothing, before a
    text with property [P]. *)
Definition passes_in (S : ScanState -> Prop) (P : list char -> Prop) (t : list char) : Prop :=
  exists ks, quiet ks /\ forall pre post st, S st -> P post ->
    scan_at rules pre (t ++ post) st = ks ++ scan_at rules (pre ++ t) post Normal.
Definition passes : (list char -> Prop) -> list char -> Prop := passes_in (eq Normal).

Lemma passes_app S (P Q : list char -> Prop) a b :
  passes_in S Q a -> passes P b -> (forall post, P post -> Q (b ++ post)) -> passes_in S P (a ++ b).
Proof.
  intros (ka & Hka & Ha) (kb & Hkb & Hb) HPQ. exists (ka ++ kb). split; [by apply quiet_app|].
  intros pre post st Hst Hp. rewrite <- app_assoc, Ha by auto. rewrite Hb by done. by rewrite <- !app_assoc.
Qed.

Lemma passes_nil P : passes P [].
Proof. exists []. split; [constructor|]. intros pre post st <- _. by rewrite app_nil_r. Qed.

Lemma passes_weaken S (P Q : list char -> Prop) t :
  (forall post, P post -> Q post) -> passes_in S Q t -> passes_in S P t.
Proof. intros HPQ (ks & Hk & Ht). exists ks. split; [done|]. auto. Qed.

Lemma passes_spaces P l : Forall (fun c => is_whitespace c = true) l -> passes P l.
Proof.
  intros Hl. exists []. split; [constructor|]. intros pre post st <- _. revert pre.
  induction Hl as [|c l Hc _ IH]; intros pre; cbn [app]; [by rewrite app_nil_r|].
  rewrite scan_white by done. rewrite IH. simpl. by rewrite <- app_assoc.
Qed.

Lemma passes_symbol P c : plain_symbol c = true -> c <> ch ";" -> passes P [c].
Proof.
  intros Hc Hne. exists [Symbol c]. split; [constructor; [by apply N.eqb_neq|constructor]|].
  intros pre post st <- _. by apply scan_symbol.
Qed.

Lemma passes_word c w : Forall (fun c => word_char c = true) (c :: w) -> passes no_word (c :: w).
Proof.
  intros Hw. exists [Word (map to_ascii_uppercase (c :: w))]. split; [constructor; [done|constructor]|]. intros pre post st <- Hp. by apply scan_word.
Qed.

(** A quote opens a literal. *)
Lemma step_quote chars i c :
  c = ch "'" \/ c = 34%N -> exists esc, step rules chars i Normal c = (InQuotes c esc, (i + 1)%nat, [Quoted]).
Proof. intros [-> | ->]; eexists; reflexivity. Qed.

Lemma passes_quote (P : list char -> Prop) c t :
  c = ch "'" \/ c = 34%N -> passes_in (inside c) P t -> passes P (c :: t).
Proof.
  intros Hc (ks & Hk & Ht). exists (Quoted :: ks). split; [by constructor|]. intros pre post st <- Hp. cbn [app].
  destruct (step_quote (pre ++ c :: t ++ post) (length pre) c Hc) as [esc Hs].
  unfold scan_at at 1. rewrite (scan_step _ _ _ _ _ _ _ _ (lookup_here pre _ _) (I : state_ok Normal) Hs).
  cbn [app]. f_equal. etrans; [exact (scan_from_at rules pre [c] (t ++ post) (InQuotes c esc))|].
  rewrite Ht by (done || by exists esc). by rewrite <- app_assoc.
Qed.

(** A character of a literal, and its closing quote. *)
Lemma passes_skip P close c t :
  c <> close -> c <> ch "\" -> passes_in (inside close) P t -> passes_in (inside close) P (c :: t).
Proof.
  intros Hc Hb (ks & Hk & Ht). exists ks. split; [done|]. intros pre post st [esc ->] Hp. cbn [app].
  rewrite (scan_at_skip rules pre c (t ++ post) (InQuotes close esc) (InQuotes close esc)); [|done|].
  - rewrite Ht by (done || by exists esc). by rewrite <- app_assoc.
  - unfold step. by rewrite (proj2 (N.eqb_neq _ _) Hc), (proj2 (N.eqb_neq _ _) Hb), andb_false_r.
Qed.

Lemma passes_close (P : list char -> Prop) close t :
  close <> ch "\" -> passes P t -> (forall post, P post -> head (t ++ post) <> Some close) ->
  passes_in (inside close) P (close :: t).
Proof.
  intros Hb (ks & Hk & Ht) Hh. exists ks. split; [done|]. intros pre post st [esc ->] Hp. cbn [app].
  rewrite (scan_at_skip rules pre close (t ++ post) (InQuotes close esc) Normal); [|done|].
  - rewrite Ht by done. by rewrite <- app_assoc.
  - unfold step. rewrite N.eqb_refl, (proj2 (N.eqb_neq _ _) Hb), andb_false_r, char_next.
    specialize (Hh post Hp). destruct (t ++ post) as [|d l]; [done|]. simpl in *.
    destruct (N.eqb_spec d close); [by subst|done].
Qed.

(** Two quotes in a literal stand for one. *)
Lemma passes_doubled P close t :
  close <> ch "\" -> passes_in (inside close) P t -> passes_in (inside close) P (close :: close :: t).
Proof.
  intros Hb (ks & Hk & Ht). exists ks. split; [done|]. intros pre post st [esc ->] Hp. cbn [app].
  assert (Hs : step rules (pre ++ close :: close :: t ++ post) (length pre) (InQuotes close esc) close =
    (InQuotes close esc, (length pre + 2)%nat, [])).
  { unfold step. rewrite N.eqb_refl, (proj2 (N.eqb_neq _ _) Hb), andb_false_r, char_next. simpl.
    by rewrite N.eqb_refl. }
  unfold scan_at at 1. rewrite (scan_step _ _ _ _ _ _ _ _ (lookup_here pre _ _) (I : state_ok (InQuotes close esc)) Hs).
  cbn [app]. etrans; [exact (scan_from_at rules pre [close; close] (t ++ post) (InQuotes close esc))|].
  rewrite Ht by (done || by exists esc). by rewrite <- app_assoc.
Qed.

(** ** The arguments of a type *)

Lemma digits_split l : exists w r, l = w ++ r /\ forallb is_digit w = true /\
  match r with d :: _ => is_digit d = false | [] => True end.
Proof.
  induction l as [|c l (w & r & -> & Hw & Hr)]; [by exists [], []|]. destruct (is_digit c) eqn:Hc.
  - exists (c :: w), r. split; [done|]. simpl. by rewrite Hc, Hw.
  - exists [], (c :: w ++ r). split; [done|]. by split.
Qed.

Lemma digit_not_quote c : is_digit c = true -> (c =? ch "'")%N = false /\ (c =? ch ")")%N = false.
Proof. intros Hc. split; apply N.eqb_neq; intros ->; by vm_compute in Hc. Qed.

Lemma args_digits w r : forallb is_digit w = true -> paren_args false (w ++ r) = paren_args false r.
Proof.
  induction w as [|c w IH]; [done|]. simpl. intros [Hc Hw]%andb_true_iff.
  destruct (digit_not_quote c Hc) as [-> ->]. rewrite Hc. by apply IH.
Qed.

Lemma digits_words w : forallb is_digit w = true -> Forall (fun c => word_char c = true) w.
Proof.
  intros Hw. apply List.Forall_forall. rewrite forallb_forall in Hw. intros c Hc.
  unfold word_char. by rewrite (Hw c Hc), orb_true_r.
Qed.

(** What arguments begin with when it is no digit. *)
Lemma args_head d r rest :
  paren_args false (d :: r) = Some rest -> is_digit d = false -> is_identifier_char d = false.
Proof.
  cbn [paren_args]. intros Hr Hd. rewrite Hd in Hr. cbn [orb] in Hr.
  assert (Hc : d = ch "'" \/ d = ch ")" \/ d = ch "," \/ d = ch " ").
  { destruct (N.eqb_spec d (ch "'")); [by left|]. destruct (N.eqb_spec d (ch ")")); [by right; left|].
    destruct (N.eqb_spec d (ch ",")); [by right; right; left|]. unfold is_space in Hr.
    destruct (N.eqb_spec d (ch " ")); [by right; right; right|done]. }
  unfold is_identifier_char. destruct Hc as [-> |[-> |[-> | ->]]]; by rewrite alphanumeric_ascii.
Qed.

Lemma head_app {A} (a b : list A) : a <> [] -> head (a ++ b) = head a.
Proof. by destruct a. Qed.

Lemma passes_args n : forall l in_literal rest,
  (length l <= n)%nat -> paren_args in_literal l = Some rest -> no_backslash l ->
  exists args, l = args ++ rest /\ args <> [] /\
    passes_in (if in_literal then inside (ch "'") else eq Normal) (fun _ => True) args.
Proof.
  induction n as [|n IH]; intros l in_literal rest Hn Hl Hb; [by destruct l; simpl in *; [|lia]|].
  destruct l as [|c l]; [done|]. inversion Hb as [|? ? Hcb Hb']; subst. simpl in Hn.
  destruct in_literal.
  { cbn [paren_args] in Hl. destruct (N.eqb_spec c (ch "'")) as [->|Hc]; cbn [negb] in Hl.
    - destruct l as [|d l]; [done|]. destruct (N.eqb_spec d (ch "'")) as [->|Hd].
      + cbn [paren_args] in Hl. rewrite N.eqb_refl in Hl. inversion Hb' as [|? ? _ Hb'']; subst.
        destruct (IH l true rest ltac:(simpl in Hn; lia) Hl Hb'') as (args & -> & _ & Ha).
        exists (ch "'" :: ch "'" :: args). split; [done|]. split; [done|]. by apply passes_doubled.
      + destruct (IH (d :: l) false rest ltac:(lia) Hl Hb') as (args & Heq & Hne & Ha).
        exists (ch "'" :: args). split; [by rewrite Heq|]. split; [done|]. apply passes_close; [done|done|].
        intros post _. rewrite head_app by done. destruct args; [done|]. injection Heq as -> _. by intros [= ?].
    - destruct (IH l true rest ltac:(lia) Hl Hb') as (args & -> & _ & Ha).
      exists (c :: args). split; [done|]. split; [done|]. by apply passes_skip. }
  destruct (is_digit c) eqn:Hd.
  { destruct (digits_split l) as (w & r & -> & Hw & Hr).
    assert (Hcw : forallb is_digit (c :: w) = true) by (simpl; by rewrite Hd, Hw).
    change (c :: w ++ r) with ((c :: w) ++ r) in Hl. rewrite args_digits in Hl by done.
    apply Forall_app in Hb' as [_ Hb']. rewrite length_app in Hn.
    destruct (IH r false rest ltac:(lia) Hl Hb') as (args & -> & Hne & Ha).
    exists ((c :: w) ++ args). split; [by rewrite <- app_assoc|]. split; [done|].
    apply (passes_app _ _ no_word); [by apply passes_word, digits_words|done|].
    intros post _. unfold no_word. rewrite head_app by done. destruct args as [|e args]; [done|]. simpl.
    by eapply args_head. }
  cbn [paren_args] in Hl. rewrite Hd in Hl. destruct (N.eqb_spec c (ch "'")) as [->|Hq].
  { destruct (IH l true rest ltac:(lia) Hl Hb') as (args & -> & _ & Ha).
    exists (ch "'" :: args). split; [done|]. split; [done|]. apply passes_quote; [by left|done]. }
  destruct (N.eqb_spec c (ch ")")) as [->|Hp].
  { injection Hl as <-. exists [ch ")"]. split; [done|]. split; [done|]. by apply passes_symbol. }
  cbn [orb] in Hl. destruct ((c =? ch ",")%N || is_space c) eqn:Hs; [|done].
  destruct (IH l false rest ltac:(lia) Hl Hb') as (args & -> & _ & Ha).
  exists ([c] ++ args). split; [done|]. split; [done|].
  apply (passes_app _ _ (fun _ => True)); [|done|done].
  apply orb_true_iff in Hs as [Hx%N.eqb_eq|Hx%N.eqb_eq]; subst c; [by apply passes_symbol|].
  apply passes_spaces. by repeat constructor.
Qed.

(** ** The name of a type *)

(** What follows a name: no character of a word, and no second quote. *)
Definition ends_word (post : list char) : Prop := no_word post /\ head post <> Some 34%N.

Lemma gap_ends_word c l : gap_char c = true -> ends_word (c :: l).
Proof.
  intros Hc. split; [by apply lead_gap_no_word|]. apply lead_gap_not; [done|by left].
Qed.

Lemma quoted_segment_split l : forall nonempty rest,
  quoted_segment nonempty l = Some rest ->
  exists seg, l = seg ++ 34%N :: rest /\ Forall (fun c => c <> 34%N /\ c <> ch "\") seg.
Proof.
  induction l as [|c l IH]; intros nonempty rest Hl; [done|]. cbn [quoted_segment] in Hl.
  destruct (N.eqb_spec c 34) as [->|Hc].
  - destruct nonempty; [injection Hl as ->; by exists []|done].
  - cbn [andb] in Hl. destruct (ident_char c || is_space c) eqn:Hi; [|done].
    destruct (IH _ _ Hl) as (seg & -> & Hs). exists (c :: seg). split; [done|]. constructor; [|done].
    split; [done|]. intros ->. by vm_compute in Hi.
Qed.

Lemma passes_inside close seg :
  close <> ch "\" -> Forall (fun c => c <> close /\ c <> ch "\") seg ->
  passes_in (inside close) (fun post => head post <> Some close) (seg ++ [close]).
Proof.
  intros Hb. induction 1 as [|c seg [Hc Hcb] _ IH]; cbn [app].
  - apply passes_close; [done|apply passes_nil|done].
  - by apply passes_skip.
Qed.

Lemma ident_run l : exists w, l = w ++ drop_while ident_char l /\ Forall (fun c => word_char c = true) w.
Proof.
  induction l as [|c l (w & Hl & Hw)]; [by exists []|]. simpl. destruct (ident_char c) eqn:Hc; [|by exists []].
  exists (c :: w). split; [by rewrite Hl at 1|]. by constructor.
Qed.

Lemma segment_passes l rest :
  parse_ident_segment l = Some rest -> exists seg, l = seg ++ rest /\ seg <> [] /\ passes ends_word seg.
Proof.
  destruct l as [|c l]; [done|]. cbn [parse_ident_segment]. destruct (N.eqb_spec c 34) as [->|Hc].
  - intros (seg & -> & Hs)%quoted_segment_split. exists (34%N :: seg ++ [34%N]).
    split; [simpl; by rewrite <- app_assoc|]. split; [done|]. apply passes_quote; [by right|].
    eapply passes_weaken; [|by apply passes_inside]. intros post Hp. apply Hp.
  - destruct (ident_start c) eqn:Hs; [|done]. intros [= <-]. destruct (ident_run l) as (w & Hl & Hw).
    exists (c :: w). split; [simpl; by rewrite <- Hl|]. split; [done|].
    eapply passes_weaken; [|apply passes_word; constructor; [|done]].
    + intros post Hp. apply Hp.
    + unfold ident_start in Hs. unfold word_char. apply orb_true_iff in Hs as [-> | ->]; by rewrite ?orb_true_r.
Qed.

Lemma skip_split l : exists sp, l = sp ++ skip_ascii_spaces l /\ Forall (fun c => c = ch " ") sp.
Proof.
  unfold skip_ascii_spaces. induction l as [|c l (sp & Hl & Hs)]; [by exists []|]. simpl.
  destruct (is_space c) eqn:Hc; [|by exists []]. exists (c :: sp). split; [by rewrite Hl at 1|].
  constructor; [by apply N.eqb_eq|done].
Qed.

Lemma spaces_pass P sp : Forall (fun c => c = ch " ") sp -> passes P sp.
Proof. intros Hs. apply passes_spaces. eapply List.Forall_impl; [|exact Hs]. by intros c ->. Qed.

Lemma loop_passes n : forall l rest,
  type_name_loop n l = Some rest ->
  exists name, l = name ++ rest /\ passes ends_word name /\ forall post, ends_word post -> ends_word (name ++ post).
Proof.
  induction n as [|n IH]; intros l rest Hl; [done|]. cbn [type_name_loop] in Hl.
  destruct (starts (ch ".") l) eqn:Hdot.
  - destruct l as [|c l]; [done|]. apply N.eqb_eq in Hdot as ->. cbn [drop] in Hl. rewrite drop_0 in Hl.
    destruct (parse_ident_segment l) as [next|] eqn:Hs; cbn [mbind option_bind] in Hl; [|done].
    apply segment_passes in Hs as (seg & -> & _ & Hseg). destruct (IH _ _ Hl) as (name & -> & Hname & Hg).
    exists ([ch "."] ++ seg ++ name). split; [by rewrite <- !app_assoc|].
    split; [|intros post _; by apply gap_ends_word].
    apply (passes_app _ _ (fun _ => True)); [by apply passes_symbol| |done].
    by apply (passes_app _ _ ends_word).
  - destruct (Nat.ltb_spec (length (skip_ascii_spaces l)) (length l)) as [Hlt|_]; [|injection Hl as <-].
    + destruct (skip_split l) as (sp & Hsp & Hall). revert Hsp Hlt Hl. generalize (skip_ascii_spaces l).
      intros spaced Hsp Hlt Hl.
      destruct (parse_ident_segment spaced) as [next|] eqn:Hs.
      * apply segment_passes in Hs as (seg & Hseg & _ & Hp). destruct (IH _ _ Hl) as (name & -> & Hname & Hg).
        exists (sp ++ seg ++ name). split; [rewrite Hsp, Hseg; by rewrite <- !app_assoc|]. split.
        -- apply (passes_app _ _ (fun _ => True)); [by apply spaces_pass| |done]. by apply (passes_app _ _ ends_word).
        -- intros post _. destruct sp as [|c sp]; [|inversion Hall; subst; by apply gap_ends_word].
           simpl in Hsp. rewrite Hsp in Hlt. unfold char in *. lia.
      * injection Hl as <-. exists []. split; [done|]. split; [apply passes_nil|done].
    + exists []. split; [done|]. split; [apply passes_nil|done].
Qed.

(** ** The whole type *)

Definition type_end (post : list char) : Prop :=
  match head post with Some c => is_whitespace c = true \/ c = ch "," | None => True end.

Lemma type_end_word post : type_end post -> ends_word post /\ head post <> Some (ch "]").
Proof.
  unfold type_end, ends_word, no_word. destruct (head post) as [c|]; [|done]. intros [Hw | ->].
  - split; [split|]; [|by intros [= ->]..]. unfold is_identifier_char, is_alphanumeric.
    rewrite whitespace_alphanumeric by done.
    assert ((c =? ch "_")%N = false) as -> by (apply N.eqb_neq; by intros ->).
    by assert ((c =? ch "$")%N = false) as -> by (apply N.eqb_neq; by intros ->).
  - split; [split|]; [|done..]. unfold is_identifier_char. by rewrite alphanumeric_ascii.
Qed.

Lemma passes_brackets sp : Forall (fun c => c = ch " ") sp -> passes type_end (ch "[" :: ch "]" :: sp).
Proof.
  intros Hsp. pose proof (spaces_pass type_end sp Hsp) as Hp.
  assert (Hh : forall post, type_end post -> head (sp ++ post) <> Some (ch "]")).
  { intros post He. destruct Hsp as [|c sp -> _]; [by apply type_end_word|done]. }
  destruct (bracket_identifiers rules) eqn:Hb.
  - destruct (passes_close type_end (ch "]") sp) as (ks & Hk & Hc); [done|done|done|].
    exists (Quoted :: ks). split; [by constructor|]. intros pre post st <- He. cbn [app].
    assert (Hs : step rules (pre ++ ch "[" :: ch "]" :: sp ++ post) (length pre) Normal (ch "[") =
      (InQuotes (ch "]") false, (length pre + 1)%nat, [Quoted])).
    { unfold step, step_normal, closing_quote. by rewrite Hb. }
    unfold scan_at at 1. rewrite (scan_step _ _ _ _ _ _ _ _ (lookup_here pre _ _) (I : state_ok Normal) Hs).
    cbn [app]. f_equal. etrans; [exact (scan_from_at rules pre [ch "["] _ (InQuotes (ch "]") false))|].
    change (ch "]" :: sp ++ post) with ((ch "]" :: sp) ++ post).
    rewrite (Hc _ _ (InQuotes (ch "]") false)) by (done || by exists false). by rewrite <- app_assoc.
  - apply (passes_app _ _ (fun _ => True) [ch "["]); [|by apply (passes_app _ _ (fun _ => True) [ch "]"]);
      [apply passes_symbol|..]|done].
    exists [Symbol (ch "[")]. split; [by repeat constructor|]. intros pre post st <- _. cbn [app].
    assert (Hs : step rules (pre ++ ch "[" :: post) (length pre) Normal (ch "[") =
      (Normal, (length pre + 1)%nat, [Symbol (ch "[")])).
    { unfold step, step_normal, closing_quote. rewrite Hb. simpl. by rewrite alphanumeric_ascii. }
    unfold scan_at at 1. rewrite (scan_step _ _ _ _ _ _ _ _ (lookup_here pre _ _) (I : state_ok Normal) Hs).
    cbn [app]. f_equal. exact (scan_from_at rules pre [ch "["] post Normal).
Qed.

(** The brackets, or nothing. *)
Lemma suffix_passes rest :
  (if starts (ch "[") rest then starts (ch "]") (drop 1 rest) && bool_decide (skip_ascii_spaces (drop 2 rest) = [])
   else bool_decide (rest = [])) = true ->
  passes type_end rest /\ forall post, type_end post -> ends_word (rest ++ post).
Proof.
  destruct (starts (ch "[") rest) eqn:Hb.
  - destruct rest as [|c rest]; [done|]. apply N.eqb_eq in Hb as ->. cbn [drop].
    intros [Hb Hsp%bool_decide_eq_true]%andb_true_iff. destruct rest as [|d rest]; [done|].
    apply N.eqb_eq in Hb as ->. cbn [drop] in Hsp. rewrite drop_0 in Hsp. destruct (skip_split rest) as (sp & Hr & Hall).
    rewrite Hsp, app_nil_r in Hr. subst rest. split; [by apply passes_brackets|].
    intros post _. by apply gap_ends_word.
  - intros ->%bool_decide_eq_true. split; [apply passes_nil|]. intros post He. by apply type_end_word.
Qed.

Lemma spaces_end_word sp l post :
  Forall (fun c => c = ch " ") sp -> ends_word (l ++ post) -> ends_word ((sp ++ l) ++ post).
Proof. intros Hsp Hl. destruct Hsp as [|c sp -> _]; [done|by apply gap_ends_word]. Qed.

Lemma shape_passes t : type_spec_shape t = true -> no_backslash t -> passes type_end t.
Proof.
  unfold type_spec_shape, parse_type_name. intros Ht Hb.
  destruct (parse_ident_segment t) as [next|] eqn:Hs; cbn [mbind option_bind] in Ht; [|done].
  destruct (type_name_loop _ next) as [rest|] eqn:Hl; [|done].
  apply segment_passes in Hs as (seg & -> & _ & Hseg). apply loop_passes in Hl as (name & -> & Hname & Hng).
  destruct (skip_split rest) as (sp & Hr & Hsp). revert Hr Ht. generalize (skip_ascii_spaces rest).
  intros rest1 Hr Ht.
  assert (Htail : passes type_end rest1 /\ forall post, type_end post -> ends_word (rest1 ++ post)).
  { destruct (starts (ch "(") rest1) eqn:Hp.
    - destruct (parse_paren_args rest1) as [r2|] eqn:Ha; cbn [mbind option_bind] in Ht; [|done].
      apply suffix_passes in Ht as [Hsuf Hsg]. destruct rest1 as [|c rest1']; [done|].
      apply N.eqb_eq in Hp as ->. split; [|intros post _; by apply gap_ends_word]. unfold parse_paren_args in Ha.
      cbn [drop] in Ha. rewrite drop_0 in Ha.
      assert (Hb1 : no_backslash rest1').
      { rewrite Hr in Hb. unfold no_backslash in *. rewrite !Forall_app in Hb. destruct Hb as (_ & _ & _ & Hb).
        by inversion Hb. }
      destruct (passes_args _ _ false r2 (le_n _) Ha Hb1) as (args & -> & _ & Hargs).
      destruct (skip_split r2) as (sp2 & Hr2 & Hsp2). rewrite Hr2.
      apply (passes_app _ _ (fun _ => True) [ch "("]); [by apply passes_symbol| |done].
      apply (passes_app _ _ (fun _ => True)); [done| |done].
      apply (passes_app _ _ (fun _ => True)); [by apply spaces_pass|done|done].
    - by apply suffix_passes. }
  destruct Htail as [Hpass Hgap]. rewrite Hr.
  apply (passes_app _ _ ends_word); [done| |].
  - apply (passes_app _ _ ends_word); [done| |].
    + apply (passes_app _ _ (fun _ => True)); [by apply spaces_pass|done|done].
    + intros post He. apply spaces_end_word; [done|by apply Hgap].
  - intros post He. rewrite <- !app_assoc. apply Hng. rewrite app_assoc. apply spaces_end_word; [done|by apply Hgap].
Qed.

Lemma not_contained c l : contains_text [c] l = false -> Forall (fun x => x <> c) l.
Proof.
  unfold contains_text. rewrite bool_decide_eq_false. induction l as [|x l IH]; [constructor|].
  cbn [find_text has_prefix]. rewrite andb_true_r. destruct (N.eqb_spec c x) as [->|Hne].
  { intros Hn. destruct Hn. by eexists. }
  intros Hn. constructor; [done|]. apply IH. intros [[a b] Hl]. apply Hn. rewrite Hl. by eexists.
Qed.

Lemma column_type_passes t : is_safe_column_type_spec t = true -> passes type_end t.
Proof.
  unfold is_safe_column_type_spec. destruct (_ || _) eqn:Hbad; [done|]. intros Ht.
  rewrite !orb_false_iff in Hbad. destruct Hbad as [_ Hbs%not_contained].
  destruct (trimmed_spaces t) as (a & b & Heq & Ha & Hb). destruct (trim_text t) as [|c l] eqn:Htr; [done|].
  rewrite Heq. apply (passes_app _ _ (fun _ => True)); [by apply passes_spaces| |done].
  apply (passes_app _ _ type_end); [|by apply passes_spaces|].
  - apply shape_passes; [done|]. rewrite Heq in Hbs. rewrite !Forall_app in Hbs. apply Hbs.
  - intros post He. destruct Hb as [|x b Hx _]; [done|by left].
Qed.

End Types.

(** ** The statement *)

Section Create.
Context `{CharLib} `{!CharLaws} `{ValueLib} `{!SqlDialect} (rules : LexRules) `{!LexedDialect rules}.

(** A line of the statement ends nothing: it stands between the gaps and line ends
    the code puts around it. *)
Definition line_end (post : list char) : Prop :=
  match head post with Some c => c = ch "," \/ c = 10%N | None => True end.

Definition line_passes (t : list char) : Prop :=
  exists ks, quiet ks /\ forall pre post, trail_gap pre -> line_end post ->
    scan_at rules pre (t ++ post) Normal = ks ++ scan_at rules (pre ++ t) post Normal.

Lemma line_end_gap post : line_end post -> lead_gap post.
Proof. unfold line_end, lead_gap. destruct (head post) as [c|]; [|done]. by intros [-> | ->]. Qed.

Lemma reads_line t ks : reads rules t ks -> quiet ks -> line_passes t.
Proof. intros Hr Hk. exists ks. split; [done|]. intros pre post Hp He. by apply Hr, line_end_gap. Qed.

(** [NOT NULL] after a column, or nothing. *)
Definition null_text (nullable : bool) : list char := if nullable then [] else text " NOT NULL".

Lemma null_tokens nullable :
  exists ks, quiet ks /\ forall pre post, line_end post ->
    type_end (null_text nullable ++ post) /\ lead_gap (null_text nullable ++ post) /\
    scan_at rules pre (null_text nullable ++ post) Normal =
    ks ++ scan_at rules (pre ++ null_text nullable) post Normal.
Proof.
  destruct nullable; cbn [null_text].
  - exists (@nil Token). split; [constructor|]. intros pre post He. cbn [app]. rewrite app_nil_r.
    split; [|split; [by apply line_end_gap|done]].
    unfold type_end. unfold line_end in He. destruct (head post) as [c|]; [|done].
    destruct He as [-> | ->]; [by right|by left].
  - exists [Word (kw "NOT"); Word (kw "NULL")]. split; [by repeat constructor|]. intros pre post He.
    split; [by left|]. split; [done|]. apply scan_constant; [done|]. right. by apply line_end_gap.
Qed.

Lemma column_head_reads name : reads rules (text "    " ++ quote_identifier name) [Quoted].
Proof. apply (reads_cons rules (text "    ") []); [done|done|]. apply name_reads. Qed.

Lemma column_line_passes c line : column_line c = Ok line -> line_passes line.
Proof.
  unfold column_line. destruct c as [name ty nullable pk]. cbn [tc_type_name tc_name tc_nullable].
  change (if nullable then [] else text " NOT NULL") with (null_text nullable).
  destruct (null_tokens nullable) as (kn & Hkn & Hn). pose proof (column_head_reads name) as Hh.
  destruct ty as [t|].
  - destruct (is_safe_column_type_spec t) eqn:Ht; [|done]. intros Hline.
    assert (line = (text "    " ++ quote_identifier name ++ text " " ++ t) ++ null_text nullable) as ->
      by (by injection Hline).
    destruct (column_type_passes rules t Ht) as (kt & Hkt & Htp).
    exists (Quoted :: kt ++ kn). split; [constructor; [done|by apply quiet_app]|]. intros pre post Hp He.
    replace (((text "    " ++ quote_identifier name ++ text " " ++ t) ++ null_text nullable) ++ post)
      with ((text "    " ++ quote_identifier name) ++ ch " " :: t ++ null_text nullable ++ post)
      by (rewrite <- !app_assoc; reflexivity).
    rewrite (Hh pre (ch " " :: t ++ null_text nullable ++ post) Hp eq_refl). cbn [app]. f_equal. rewrite scan_space.
    destruct (Hn (((pre ++ text "    " ++ quote_identifier name) ++ [ch " "]) ++ t) post He) as (Hte & _ & Hns).
    rewrite (Htp _ _ Normal eq_refl Hte), Hns. rewrite <- !app_assoc. reflexivity.
  - intros Hline. assert (line = (text "    " ++ quote_identifier name) ++ null_text nullable) as ->
      by (by injection Hline).
    exists (Quoted :: kn). split; [by constructor|]. intros pre post Hp He.
    destruct (Hn (pre ++ text "    " ++ quote_identifier name) post He) as (_ & Hg & Hns).
    rewrite <- (app_assoc _ (null_text nullable)), Hh by done. cbn [app]. f_equal. rewrite Hns. by rewrite <- !app_assoc.
Qed.

Lemma key_line_passes columns : Forall line_passes (primary_key_line columns).
Proof.
  unfold primary_key_line. destruct (map tc_name _) as [|n names]; [constructor|]. constructor; [|constructor].
  eapply reads_line.
  - apply (reads_cons rules (text "    PRIMARY KEY (") [Word (kw "PRIMARY"); Word (kw "KEY"); Symbol (ch "(")]);
      [done|done|]. apply (reads_snoc rules _ _ (text ")") [Symbol (ch ")")] (names_read rules _)); done.
  - do 3 (constructor; [done|]). apply quiet_app; [|by repeat constructor]. apply inert_ends_nothing, inert_names.
Qed.

Lemma lines_pass lines :
  Forall line_passes lines ->
  exists ks, quiet ks /\ forall pre post, trail_gap pre ->
    scan_at rules pre (join_text (text "," ++ newline) lines ++ 10%N :: post) Normal =
    ks ++ scan_at rules (pre ++ join_text (text "," ++ newline) lines) (10%N :: post) Normal.
Proof.
  induction 1 as [|line lines (kl & Hkl & Hl) Hls (ks & Hks & IH)].
  { exists (@nil Token). split; [constructor|]. intros pre post _. by rewrite app_nil_r. }
  destruct lines as [|l2 lines].
  { exists kl. split; [done|]. intros pre post Hp. cbn [join_text]. apply Hl; [done|by right]. }
  exists (kl ++ Symbol (ch ",") :: ks). split; [apply quiet_app; [done|by constructor]|]. intros pre post Hp.
  change (join_text (text "," ++ newline) (line :: l2 :: lines))
    with (line ++ (text "," ++ newline) ++ join_text (text "," ++ newline) (l2 :: lines)).
  rewrite <- !app_assoc, Hl; [|done|by left].
  rewrite app_assoc. rewrite (scan_constant rules _ (text "," ++ newline) [Symbol (ch ",")]); [|done|by left].
  rewrite IH; [by rewrite <- !app_assoc|]. unfold trail_gap, newline. by rewrite !app_assoc, last_snoc.
Qed.

Definition create_words (if_not_exists : bool) : list Token :=
  map (fun s => Word (kw s)) (if if_not_exists then ["CREATE"; "TABLE"; "IF"; "NOT"; "EXISTS"] else ["CREATE"; "TABLE"]).

Lemma create_table_tokens spec sql :
  build_create_table spec = Ok sql ->
  exists body, quiet body /\ tokenize sql rules =
    create_words (ct_if_not_exists spec) ++ target rules (ct_schema spec) ++
    Symbol (ch "(") :: body ++ [Symbol (ch ")"); Symbol (ch ";")].
Proof.
  unfold build_create_table. destruct (try_map column_line (ct_columns spec)) as [lines|] eqn:Hl; [|done].
  set (prefix := if ct_if_not_exists spec then text "CREATE TABLE IF NOT EXISTS" else text "CREATE TABLE").
  intros Hsql. set (all := lines ++ primary_key_line (ct_columns spec)).
  assert (sql = (prefix ++ text " ") ++ qualified_table (ct_schema spec) (ct_table spec) ++ text " (" ++ newline ++
      join_text (text "," ++ newline) all ++ newline ++ text ");") as -> by (injection Hsql as <-; by rewrite <- app_assoc).
  assert (Hall : Forall line_passes all).
  { apply Forall_app. split; [|apply key_line_passes]. apply try_map_Ok in Hl. clear -Hl H0 LexedDialect0.
    induction Hl; constructor; [by eapply column_line_passes|done]. }
  destruct (lines_pass all Hall) as (body & Hb & Hbody). exists body. split; [done|].
  assert (Hhead : reads rules ((prefix ++ text " ") ++ qualified_table (ct_schema spec) (ct_table spec))
    (create_words (ct_if_not_exists spec) ++ target rules (ct_schema spec))).
  { unfold prefix. apply reads_cons; [by destruct (ct_if_not_exists spec)..|]. apply table_reads. }
  unfold tokenize. rewrite scan_more by (done || lia).
  change (scan_from rules ?x 0 Normal) with (scan_at rules [] x Normal).
  rewrite app_assoc, Hhead by done. rewrite <- app_assoc. f_equal. f_equal. cbn [app].
  rewrite (app_assoc (text " (")), (scan_constant rules _ (text " (" ++ newline) [Symbol (ch "(")]); [|done|by left].
  cbn [app]. f_equal. change (newline ++ text ");") with (10%N :: text ");").
  rewrite Hbody; [|unfold trail_gap, newline; by rewrite !app_assoc, last_snoc]. f_equal.
  change (10%N :: text ");") with ((newline ++ text ");") ++ []).
  rewrite (scan_constant rules _ (newline ++ text ");") [Symbol (ch ")"); Symbol (ch ";")]); [|done|by right].
  by rewrite scan_end.
Qed.

Lemma ended_statement l :
  l <> [] -> quiet l -> statements_of (l ++ [Symbol (ch ";")]) = [l].
Proof.
  intros Hne Hl. unfold statements_of.
  assert (Hs : split_tokens (fun t => is_symbol t (ch ";")) (l ++ [Symbol (ch ";")]) = [l; []]).
  { clear Hne. induction Hl as [|t l Ht _ IH]; [done|]. cbn [app split_tokens]. by rewrite Ht, IH. }
  rewrite Hs. simpl. by rewrite bool_decide_eq_false_2.
Qed.

(** C14: a [CREATE TABLE] is made exactly when every column type follows the
    grammar; and in every dialect whose quoted names lex to tokens of their own
    ([LexedDialect], which the default dialect satisfies, and not one that leaves
    names unquoted or escapes quotes by backslashes) it is then one administrative
    statement: whatever the names and the types are, no token of its columns ends
    it, and its only semicolon is its last token. *)
Theorem create_table_is_one_statement spec :
  is_ok (build_create_table spec) =
    forallb (fun c => match tc_type_name c with
                      | Some t => is_safe_column_type_spec t
                      | None => true end) (ct_columns spec) /\
  forall sql, build_create_table spec = Ok sql ->
    exists body, quiet body /\
      tokenize sql rules =
        create_words (ct_if_not_exists spec) ++ target rules (ct_schema spec) ++
        Symbol (ch "(") :: body ++ [Symbol (ch ")"); Symbol (ch ";")] /\
      length (statements_of (tokenize sql rules)) = 1%nat /\
      classify_with_rules sql rules = Admin.
Proof.
  split.
  { unfold build_create_table. transitivity (is_ok (try_map column_line (ct_columns spec))).
    - by destruct (try_map column_line (ct_columns spec)).
    - rewrite try_map_is_ok. apply forallb_ext_in. intros c _. unfold column_line.
      destruct (tc_type_name c) as [t|]; [|done]. by destruct (is_safe_column_type_spec t). }
  intros sql Hsql. destruct (create_table_tokens spec sql Hsql) as (body & Hb & Ht).
  exists body. split; [done|]. split; [exact Ht|].
  assert (Hst : statements_of (tokenize sql rules) =
    [create_words (ct_if_not_exists spec) ++ target rules (ct_schema spec) ++ Symbol (ch "(") :: body ++ [Symbol (ch ")")]]).
  { rewrite Ht.
    replace (create_words (ct_if_not_exists spec) ++ target rules (ct_schema spec) ++
        Symbol (ch "(") :: body ++ [Symbol (ch ")"); Symbol (ch ";")])
      with ((create_words (ct_if_not_exists spec) ++ target rules (ct_schema spec) ++
        Symbol (ch "(") :: body ++ [Symbol (ch ")")]) ++ [Symbol (ch ";")])
      by (rewrite <- !app_assoc; cbn [app]; by rewrite <- !app_assoc).
    apply ended_statement; [by destruct (ct_if_not_exists spec)|].
    apply quiet_app; [destruct (ct_if_not_exists spec); by repeat constructor|].
    apply quiet_app; [apply inert_ends_nothing, inert_target|].
    constructor; [done|]. apply quiet_app; [done|by repeat constructor]. }
  rewrite Hst. split; [done|]. unfold classify_with_rules. rewrite Hst.
  by destruct (ct_if_not_exists spec).
Qed.

End Create.

(** ** A concrete table *)

#[local] Existing Instance number_values.
#[local] Existing Instance number_value_texts.
#[local] Existing Instance number_documents.
#[local] Instance demo_lexed_tsql : LexedDialect TSQL_RULES := default_lexed TSQL_RULES eq_refl.

Definition demo_table : CreateTableSpec :=
  mkCreate (Some (text "app")) (text "orders")
    [mkTransfer (text "id") (Some (text "bigint")) false true;
     mkTransfer (text "state") (Some (text "enum('new','it''s, done')")) true false;
     mkTransfer (text "tags") (Some (text "my schema.text []")) true false;
     mkTransfer (text "note") None true false] true.

Lemma create_table_is_one_statement_witness :
  exists sql, build_create_table demo_table = Ok sql /\
    length (statements_of (tokenize sql TSQL_RULES)) = 1%nat /\ classify_with_rules sql TSQL_RULES = Admin.
Proof.
  destruct (create_table_is_one_statement TSQL_RULES demo_table) as [_ Hs].
  eexists. split; [reflexivity|]. destruct (Hs _ eq_refl) as (body & _ & _ & Hc). exact Hc.
Defined.

(** A type that would end the statement is refused. *)
Example hostile_type_is_refused :
  is_safe_column_type_spec (text "TEXT); DROP TABLE users; --") = false /\
  build_create_table (mkCreate None (text "t") [mkTransfer (text "c") (Some (text "int) , (x")) true false] false) =
    Err (mkInvalid (text "c") (text "int) , (x")).
Proof. vm_compute. split; reflexivity. Qed.
