(* ===== verification/LanguageService.v ===== *)
(** * Query classification and warnings (crates/dbflux_core: query/language_service.rs)

    The class of a query in each query language, the warnings the editor asks to
    confirm, and the query tool of the MCP server
    (crates/dbflux_mcp: handlers/query.rs).

    Texts are lists of characters.  Slicing a text at a byte that does not start
    a character, or at an end before the start, stops the thread: such a call is
    [None] here. *)

From S2P Require Import Prelude RustStr External Concrete RustChar Classification Policy Events Governance SqlLexer SqlSafety SqlSafetyProps.

Inductive QueryLanguage : Type :=
| Sql
| CloudWatchLogsInsightsQl
| OpenSearchPpl
| OpenSearchSql
| MongoQuery
| RedisCommands
| Cypher
| InfluxQuery
| Flux
| Cql
| Lua
| Python
| Bash
| Custom (name : string).

Inductive DangerousQueryKind : Type :=
| DeleteNoWhere
| UpdateNoWhere
| Truncate
| Drop
| Alter
| Script
| MongoDeleteMany
| MongoUpdateMany
| MongoDropCollection
| MongoDropDatabase
| MongoAggregateWrite
| RedisFlushAll
| RedisFlushDb
| RedisMultiDelete
| RedisKeysPattern
| RawExpressionInSet.

#[export] Instance dangerous_kind_eq_dec : EqDecision DangerousQueryKind.
Proof. solve_decision. Defined.

Definition ascii_lowercase (l : list char) : list char := map to_ascii_lowercase l.

(** ** MongoDB *)

(** Whether the argument list that starts here has an empty filter.  The text
    between the first byte and the first closing brace is sliced out. *)
Definition is_empty_filter (args_start : list char) : option bool :=
  let trimmed := trim_text args_start in
  if has_prefix (text ")") trimmed then Some true
  else if has_prefix (text "{}") trimmed then Some true
  else match find_text (text "}") trimmed with
       | None => Some false
       | Some ([], _) => None
       | Some (first :: inside, _) =>
           if (first <? 128)%N then Some (bool_decide (trim_text inside = [])) else None
       end.

(** [contains_stage_key], from each match of the operator on; [before] is the
    character before the text. *)
Fixpoint stage_key_from (before : option char) (operator l : list char) : bool :=
  let here :=
    has_prefix operator l &&
    some_and (fun c => bool_decide (c ∈ [ch "{"; ch ","; 34%N; ch "'"; ch "`"]) || is_whitespace c) before &&
    (let rest := drop (length operator) l in
     let rest := match rest with
                 | c :: r => if bool_decide (c ∈ [34%N; ch "'"; ch "`"]) then r else rest
                 | [] => rest
                 end in
     has_prefix (text ":") (trim_left rest)) in
  here || match l with [] => false | c :: l' => stage_key_from (Some c) operator l' end.

Definition contains_stage_key (l operator : list char) : bool := stage_key_from None operator l.

Definition aggregate_writes_output (query : list char) : bool :=
  let normalized := ascii_lowercase query in
  contains_text (text ".aggregate(") normalized &&
  existsb (contains_stage_key normalized) [text "$out"; text "$merge"].

(** A call whose filter may be empty: [Some true] when it is. *)
Definition empty_filter_call (call : string) (normalized : list char) : option bool :=
  match find_text (text call) normalized with
  | None => Some false
  | Some (_, after_paren) => is_empty_filter after_paren
  end.

Definition contains_any (l : list string) (normalized : list char) : bool :=
  existsb (fun s => contains_text (text s) normalized) l.

(** What is decided once no call has an empty filter. *)
Definition classify_mongo_rest (normalized : list char) : ExecutionClassification :=
  if aggregate_writes_output normalized then Write
  else if contains_any [".find("; ".aggregate("] normalized then Read
  else if contains_any [".countdocuments("; ".estimateddocumentcount("] normalized then Metadata
  else if contains_any [".insert"; ".update"; ".delete"; ".replace"] normalized then Write
  else if contains_any ["createuser"; "grantroles"; "revoke"; "shutdownserver"] normalized then Admin
  else Write.

Definition classify_mongo_query (query : list char) : option ExecutionClassification :=
  let normalized := ascii_lowercase (trim_text query) in
  if bool_decide (normalized = []) then Some Metadata
  else if contains_any [".dropdatabase("] normalized then Some Destructive
  else if contains_any [".drop("] normalized && negb (contains_any [".dropdatabase("] normalized)
    then Some Destructive
  else
    empty ← empty_filter_call ".deletemany(" normalized;
    if empty : bool then Some Write
    else
      empty ← empty_filter_call ".updatemany(" normalized;
      if empty : bool then Some Write else Some (classify_mongo_rest normalized).

(** ** Redis *)

Definition classify_redis_query (query : list char) : ExecutionClassification :=
  let normalized := ascii_lowercase (trim_text query) in
  if bool_decide (normalized = []) then Metadata
  else match split_whitespace normalized with
       | [] => Metadata
       | command :: args =>
           if is_kw command ["flushall"; "flushdb"] then Destructive
           else if is_kw command ["del"] && Nat.ltb 1 (length args) then Write
           else if is_kw command ["keys"] then Read
           else if is_kw command ["info"; "dbsize"; "type"; "ttl"; "pttl"; "exists"; "llen"; "hget";
                                  "hmget"; "hkeys"; "hvals"; "lrange"; "zrange"; "smembers"; "get";
                                  "mget"; "scan"] then Read
           else if is_kw command ["command"; "help"] then Metadata
           else if is_kw command ["config"; "acl"; "script"; "module"] then Admin
           else Write
       end.

(** ** Every language *)

(** What governance asks of a driver's [LanguageService]. *)
Class LanguageService := {
  classify_execution : list char -> option ExecutionClassification;
}.

Section Classify.
Context `{CharLib}.

Definition service_class (service : option LanguageService) (query : list char)
  : option ExecutionClassification :=
  s ← service; @classify_execution s query.

Definition classify_query_for_language_with_service (query_language : QueryLanguage)
    (query : list char) (service : option LanguageService) : option ExecutionClassification :=
  match query_language with
  | Sql => Some (classify_sql_execution query)
  | CloudWatchLogsInsightsQl | OpenSearchPpl | OpenSearchSql =>
      Some (default Read (service_class service query))
  | MongoQuery =>
      match service_class service query with
      | Some c => Some c
      | None => classify_mongo_query query
      end
  | RedisCommands => Some (classify_redis_query query)
  | InfluxQuery | Flux | Custom _ => Some (default Write (service_class service query))
  | _ => Some Write
  end.

Definition classify_query_for_language (query_language : QueryLanguage) (query : list char)
  : option ExecutionClassification :=
  classify_query_for_language_with_service query_language query None.

Definition classify_query_for_governance : QueryLanguage -> list char -> option LanguageService ->
  option ExecutionClassification := classify_query_for_language_with_service.

(** The class of a stored script: programs are administration. *)
Definition detect_execution_classification (content : list char) (language : QueryLanguage)
    (service : option LanguageService) : option ExecutionClassification :=
  match language with
  | Lua | Python | Bash => Some Admin
  | _ => classify_query_for_governance language content service
  end.

(** ** Warnings for SQL *)

(** [strip_leading_comments]: a round per comment. *)
Fixpoint strip_comments (rounds : nat) (s : list char) : list char :=
  match rounds with
  | O => s
  | S rounds' =>
      if has_prefix (text "--") s then
        match find_text [10%N] s with
        | Some (_, after) => strip_comments rounds' (trim_left after)
        | None => []
        end
      else if has_prefix (text "/*") s then
        match find_text (text "*/") s with
        | Some (_, after) => strip_comments rounds' (trim_left after)
        | None => []
        end
      else s
  end.

(** Every comment takes at least one character. *)
Definition strip_leading_comments (sql : list char) : list char :=
  strip_comments (length sql) (trim_left sql).

Definition CTE_KEYWORDS : list (list char) :=
  [text "delete"; text "update"; text "insert"; text "select"; text "truncate"].

(** The text after the last closing parenthesis that a keyword follows. *)
Fixpoint after_last_paren (l : list char) : option (list char) :=
  match l with
  | [] => None
  | c :: l' =>
      match after_last_paren l' with
      | Some r => Some r
      | None =>
          let after := trim_left l' in
          if (c =? ch ")")%N && existsb (fun k => has_prefix k after) CTE_KEYWORDS
          then Some after else None
      end
  end.

Definition skip_cte_prefix (sql : list char) : list char :=
  if negb (has_prefix (text "with ") sql) then sql else default sql (after_last_paren sql).

(** [strip_single_quoted_literals]: the contents of literals become spaces. *)
Fixpoint blank_literals (in_literal : bool) (l : list char) : list char :=
  match l with
  | [] => []
  | c :: l' =>
      if (c =? ch "'")%N then
        if in_literal then
          match l' with
          | d :: l'' => if (d =? ch "'")%N then ch " " :: ch " " :: blank_literals true l''
                        else ch "'" :: blank_literals false l'
          | [] => [ch "'"]
          end
        else ch "'" :: blank_literals true l'
      else (if in_literal then ch " " else c) :: blank_literals in_literal l'
  end.
Definition strip_single_quoted_literals (sql : list char) : list char := blank_literals false sql.

Definition contains_where_clause (normalized_sql : list char) : bool :=
  existsb (fun t => bool_decide (t = text "where"))
    (split_chars (fun c => is_whitespace c || (c =? ch "(")%N || (c =? ch ")")%N)
       (strip_single_quoted_literals normalized_sql)).

Definition detect_dangerous_single (sql : list char) : option DangerousQueryKind :=
  let normalized := lower_case (trim_text sql) in
  let main_stmt := skip_cte_prefix normalized in
  if has_prefix (text "delete") main_stmt && negb (contains_where_clause normalized)
    then Some DeleteNoWhere
  else if has_prefix (text "update") main_stmt && negb (contains_where_clause normalized)
    then Some UpdateNoWhere
  else if has_prefix (text "truncate") main_stmt then Some Truncate
  else if has_prefix (text "drop") main_stmt then Some Drop
  else if has_prefix (text "alter") main_stmt then Some Alter
  else None.

Definition dangerous_statements (sql : list char) : list (list char) :=
  List.filter (fun s => negb (bool_decide (s = [])))
    (map strip_leading_comments (split_chars (fun c => c =? ch ";")%N sql)).

Definition detect_dangerous_sql (query : list char) : option DangerousQueryKind :=
  let clean := strip_leading_comments query in
  if bool_decide (clean = []) then None
  else match dangerous_statements clean with
       | [] => None
       | [statement] => detect_dangerous_single statement
       | statements =>
           if existsb (fun s => bool_decide (is_Some (detect_dangerous_single s))) statements
           then Some Script else None
       end.

Definition detect_dangerous_query : list char -> option DangerousQueryKind := detect_dangerous_sql.

(** ** The query tool *)

Record QueryExecutionRequest := mkQueryRequest {
  qr_actor_id : string;
  qr_connection_id : string;
  qr_tool_id : string;
  qr_language : QueryLanguage;
  qr_query : list char;
}.

Record QueryExecutionResponse := mkQueryResponse {
  qs_classification : ExecutionClassification;
  qs_execute : bool;
  qs_preview_only : bool;
}.

Inductive QueryHandlerError : Type :=
| PolicyDenied
| ApprovalRequired
| Policy (e : PolicyEngineError).

Definition handle_query_tool `{HashOrder} (request : QueryExecutionRequest)
    (language_service : option LanguageService) (policy_engine : PolicyEngine)
  : option (result QueryExecutionResponse QueryHandlerError) :=
  classification ←
    classify_query_for_governance (qr_language request) (qr_query request) language_service;
  Some (match evaluate policy_engine
                (mkPolicyRequest (qr_actor_id request) (qr_connection_id request)
                   (qr_tool_id request) classification) with
        | Err e => Err (Policy e)
        | Ok RequireApproval => Err ApprovalRequired
        | Ok (Deny _) => Err PolicyDenied
        | Ok Allow =>
            let preview_only := String.eqb (qr_tool_id request) "preview_mutation" in
            Ok (mkQueryResponse classification (negb preview_only) preview_only)
        end).

End Classify.

(** ** What classification and warnings guarantee

    When the classification of a query does not return; what the query tool lets
    run; and that comments in front of a statement hide nothing from the
    warnings. *)

(** ** Slices out of range *)

Lemma find_brace l :
  match find_text (text "}") l with
  | None => ch "}" ∉ l
  | Some (before, after) => l = before ++ ch "}" :: after /\ ch "}" ∉ before
  end.
Proof.
  induction l as [|c l IH]; [apply not_elem_of_nil|].
  change (text "}") with [ch "}"] in *. cbn [find_text has_prefix]. rewrite andb_true_r.
  destruct (N.eqb_spec (ch "}") c) as [<-|Hne]; simpl; [split; [done|by intros ?%elem_of_nil]|].
  destruct (find_text [ch "}"] l) as [[before after]|]; unfold mbind, option_bind; simpl in *.
  - destruct IH as [-> Hb]. split; [done|]. by apply not_elem_of_cons.
  - by apply not_elem_of_cons.
Qed.

(** A list of arguments that cannot be sliced: it has a closing brace, and starts
    with it or with a character of several bytes. *)
Definition unsliceable (args : list char) : Prop :=
  exists first rest, trim_text args = first :: rest /\ ch "}" ∈ first :: rest /\
    (first = ch "}" \/ (128 <= first)%N).

Lemma is_empty_filter_stops args : is_empty_filter args = None <-> unsliceable args.
Proof.
  unfold is_empty_filter, unsliceable. destruct (trim_text args) as [|first rest] eqn:Ht.
  { split; [done|naive_solver]. }
  change (text ")") with [ch ")"]. change (text "{}") with [ch "{"; ch "}"].
  cbn [has_prefix]. rewrite andb_true_r.
  destruct (N.eqb_spec (ch ")") first) as [<-|H1].
  { split; [done|]. intros (? & ? & [= <- <-] & _ & [Hc|Hc]); vm_compute in Hc; [done|by destruct Hc]. }
  destruct ((ch "{" =? first)%N && _) eqn:H2.
  { apply andb_true_iff in H2 as [<-%N.eqb_eq _]. split; [done|].
    intros (? & ? & [= <- <-] & _ & [Hc|Hc]); vm_compute in Hc; [done|by destruct Hc]. }
  pose proof (find_brace (first :: rest)) as Hb.
  destruct (find_text (text "}") (first :: rest)) as [[[|c inside] after]|].
  - destruct Hb as [[= -> ->] _]. split; [|done]. intros _. exists (ch "}"), after.
    split_and!; [done|left|by left].
  - destruct Hb as [[= -> ->] Hno]. destruct (N.ltb_spec c 128) as [Hlt|Hge].
    + split; [done|]. intros (? & ? & [= <- <-] & _ & [->|Hc]); [by destruct Hno; left|lia].
    + split; [|done]. intros _. exists c, (inside ++ ch "}" :: after).
      split_and!; [done|right; apply elem_of_app; right; left|by right].
  - split; [done|]. intros (? & ? & [= <- <-] & Hin & _). by destruct Hb.
Qed.

Section Props.
Context `{CharLib}.

(** Classifying a query returns a class, but for a MongoDB script that no
    driver classifies: there the argument list of the first [deleteMany] or
    [updateMany] is sliced, and the call stops when the list has a closing brace
    and starts with it or with a character of several bytes. *)
Theorem classification_returns lang query service :
  (forall call before args, call ∈ [".deletemany("; ".updatemany("] ->
     find_text (text call) (ascii_lowercase (trim_text query)) = Some (before, args) ->
     lang = MongoQuery -> service_class service query = None -> ~ unsliceable args) ->
  is_Some (classify_query_for_governance lang query service).
Proof.
  intros Hq. destruct lang; simpl; try (by eexists). destruct (service_class service query); [by eexists|].
  unfold classify_mongo_query. repeat (case_match; [by eexists|]).
  assert (forall call, call ∈ [".deletemany("; ".updatemany("] ->
    is_Some (empty_filter_call call (ascii_lowercase (trim_text query)))) as Hc.
  { intros call Hin. unfold empty_filter_call.
    destruct (find_text _ _) as [[b a]|] eqn:Hf; [|by eexists].
    destruct (is_empty_filter a) eqn:He; [by eexists|].
    apply is_empty_filter_stops in He. exfalso. by eapply Hq. }
  destruct (Hc ".deletemany(") as [[] ->]; [left|by eexists|]. simpl.
  destruct (Hc ".updatemany(") as [[] ->]; [right; left|by eexists..].
Qed.

(** What the query tool answers, on every branch of the policy; only an
    allowed call is to be executed, and not when it is a preview. *)
Theorem query_tool_follows_policy `{HashOrder} req service engine c :
  classify_query_for_governance (qr_language req) (qr_query req) service = Some c ->
  handle_query_tool req service engine = Some
    match evaluate engine
            (mkPolicyRequest (qr_actor_id req) (qr_connection_id req) (qr_tool_id req) c) with
    | Err e => Err (Policy e)
    | Ok Allow => Ok (mkQueryResponse c (negb (bool_decide (qr_tool_id req = "preview_mutation")))
                        (bool_decide (qr_tool_id req = "preview_mutation")))
    | Ok RequireApproval => Err ApprovalRequired
    | Ok (Deny _) => Err PolicyDenied
    end.
Proof.
  unfold handle_query_tool. intros ->. simpl. do 2 f_equal.
  destruct (evaluate _ _) as [[]|]; try done.
  destruct (String.eqb_spec (qr_tool_id req) "preview_mutation");
    [by rewrite bool_decide_true|by rewrite bool_decide_false].
Qed.

(** C10: under the built-in policies the query tool runs a SQL script without
    asking only when every dialect sees at most one statement in it, and it
    reads. *)
Theorem query_tool_runs_only_reads `{HashOrder} asg req service r :
  qr_language req = Sql ->
  handle_query_tool req service (builtin_engine asg) = Some (Ok r) ->
  class_le (qs_classification r) Read /\ Forall (reads_in (qr_query req)) DIALECT_RULES.
Proof.
  unfold handle_query_tool. intros -> Hr. simpl in Hr. injection Hr as Hr.
  destruct (evaluate _ _) as [d|] eqn:He; [|done]. destruct d; try done. injection Hr as <-.
  apply builtin_allow_reads in He. split; [done|]. by apply script_reads.
Qed.

(** ** Comments before a statement *)

Lemma trim_left_idemp l : trim_left (trim_left l) = trim_left l.
Proof.
  unfold trim_left. induction l as [|c l IH]; simpl; [done|].
  destruct (is_whitespace c) eqn:Hc; [done|]. simpl. by rewrite Hc.
Qed.

Lemma trim_left_length l : (length (trim_left l) <= length l)%nat.
Proof.
  destruct (drop_while_app is_whitespace l) as [q Hq]. unfold trim_left. rewrite Hq at 2.
  rewrite length_app. lia.
Qed.

(** A comment is shorter than the text it is taken from. *)
Lemma find_text_shorter needle l before after :
  needle <> [] -> find_text needle l = Some (before, after) -> (length (trim_left after) < length l)%nat.
Proof.
  intros Hn Hf. apply find_text_app in Hf as (m & -> & Hm). pose proof (trim_left_length after).
  rewrite !length_app. destruct needle; [done|]. simpl in Hm. lia.
Qed.

Lemma strip_comments_rounds n s :
  (length s <= n)%nat -> strip_comments n s = strip_comments (length s) s.
Proof.
  remember (length s) as k eqn:Hk. revert n s Hk. induction k as [k IH] using lt_wf_ind.
  intros n s -> Hn.
  assert (forall m, (length s <= m)%nat -> has_prefix (text "--") s = true \/ has_prefix (text "/*") s = true ->
            exists m', m = S m') as Hpos.
  { intros m Hm Hp. destruct s; [by destruct Hp|]. destruct m; [simpl in Hm; lia|eauto]. }
  assert (has_prefix (text "--") s = false -> has_prefix (text "/*") s = false ->
          forall m, strip_comments m s = s) as Hnone.
  { intros H1 H2 [|m]; cbn [strip_comments]; [done|]. by rewrite H1, H2. }
  destruct (has_prefix (text "--") s) eqn:H1; [|destruct (has_prefix (text "/*") s) eqn:H2; [|by rewrite !Hnone]].
  all: destruct (Hpos n Hn) as [n' ->]; [auto|];
       destruct (Hpos (length s) (le_n _)) as [k' Hk']; [auto|]; rewrite Hk'; cbn [strip_comments];
       rewrite ?H1, ?H2;
       match goal with |- context [find_text ?x ?y] =>
         destruct (find_text x y) as [[b a]|] eqn:Hf; [|done] end;
       apply find_text_shorter in Hf as Hlt; [|done];
       rewrite (IH (length (trim_left a)) ltac:(lia) n') by (done || lia);
       symmetry; apply IH; done || lia.
Qed.

Inductive leading_comment : list char -> Prop :=
| line_comment content : 10%N ∉ content -> leading_comment (text "--" ++ content ++ [10%N])
| block_comment content : ch "/" ∉ content -> leading_comment (text "/*" ++ content ++ text "*/").

Lemma find_newline pre q : 10%N ∉ pre -> find_text [10%N] (pre ++ 10%N :: q) = Some (pre, q).
Proof.
  induction pre as [|c pre IH]; cbn [find_text has_prefix app].
  - intros _. by rewrite N.eqb_refl.
  - intros [Hc Hp]%not_elem_of_cons. rewrite (proj2 (N.eqb_neq _ _) Hc). simpl. by rewrite IH.
Qed.

Lemma find_block_end pre q :
  ch "/" ∉ pre -> find_text (text "*/") (pre ++ text "*/" ++ q) = Some (pre, q).
Proof.
  change (text "*/") with [ch "*"; ch "/"].
  induction pre as [|c pre IH]; [done|]. intros [Hc Hp]%not_elem_of_cons.
  rewrite <- app_comm_cons. cbn [find_text]. rewrite IH by done.
  assert (has_prefix [ch "*"; ch "/"] (c :: pre ++ [ch "*"; ch "/"] ++ q) = false) as ->; [|done].
  cbn [has_prefix]. destruct (ch "*" =? c)%N; [|done].
  destruct pre as [|d pre]; [done|]. apply not_elem_of_cons in Hp as [Hd _].
  cbn [app has_prefix]. by rewrite (proj2 (N.eqb_neq _ _) Hd).
Qed.

(** One round takes the comment. *)
Lemma strip_one c q n :
  leading_comment c -> strip_comments (S n) (c ++ q) = strip_comments n (trim_left q).
Proof.
  intros [content Hc|content Hc].
  - change (text "--") with [ch "-"; ch "-"]. cbn [strip_comments].
    assert (find_text [10%N] (([ch "-"; ch "-"] ++ content ++ [10%N]) ++ q) =
            Some (ch "-" :: ch "-" :: content, q)) as ->; [|done].
    replace (([ch "-"; ch "-"] ++ content ++ [10%N]) ++ q)
      with ((ch "-" :: ch "-" :: content) ++ 10%N :: q) by (simpl; by rewrite <- app_assoc).
    apply find_newline. rewrite !not_elem_of_cons. done.
  - change (text "/*") with [ch "/"; ch "*"]. cbn [strip_comments].
    assert (find_text (text "*/") (([ch "/"; ch "*"] ++ content ++ text "*/") ++ q) =
            Some (ch "/" :: ch "*" :: content, q)) as ->; [|done].
    replace (([ch "/"; ch "*"] ++ content ++ text "*/") ++ q)
      with (ch "/" :: (ch "*" :: content) ++ text "*/" ++ q) by (simpl; by rewrite <- app_assoc).
    cbn [find_text]. rewrite find_block_end; [done|]. by rewrite not_elem_of_cons.
Qed.

Lemma strip_leading_comment c q :
  leading_comment c -> strip_leading_comments (c ++ q) = strip_leading_comments q.
Proof.
  intros Hc. unfold strip_leading_comments.
  assert (exists k, length (c ++ q) = S k /\ (length q <= k)%nat) as (k & -> & Hk).
  { exists (pred (length (c ++ q))). rewrite length_app. destruct Hc; simpl; lia. }
  assert (trim_left (c ++ q) = c ++ q) as -> by (by destruct Hc).
  rewrite strip_one by done. pose proof (trim_left_length q).
  rewrite (strip_comments_rounds k) by lia. symmetry. by apply strip_comments_rounds.
Qed.

(** Comments in front of a statement, however many and whatever they hold,
    change nothing of the warning about it. *)
Theorem comments_hide_nothing cs query :
  Forall leading_comment cs -> detect_dangerous_sql (concat cs ++ query) = detect_dangerous_sql query.
Proof.
  induction 1 as [|c cs Hc _ IH]; simpl; [done|]. rewrite <- IH, <- app_assoc.
  unfold detect_dangerous_sql. by rewrite strip_leading_comment.
Qed.

End Props.

Lemma classification_returns_witness :
  is_Some (classify_query_for_governance MongoQuery (text "db.c.deleteMany({ a: 1 })") None).
Proof.
  apply (classification_returns MongoQuery (text "db.c.deleteMany({ a: 1 })") None).
  intros call before args Hc Hf _ _ (first & rest & Ht & _ & Hor).
  repeat (apply elem_of_cons in Hc as [->|Hc];
    [vm_compute in Hf; simplify_eq; vm_compute in Ht; simplify_eq; by destruct Hor as [Hor|Hor]; vm_compute in Hor|]).
  by apply elem_of_nil in Hc.
Defined.

Lemma query_tool_follows_policy_witness :
  handle_query_tool (mkQueryRequest "agent" "db" "select_data" RedisCommands (text "GET k")) None
    (builtin_engine [mkAssignment "agent" "db" ["builtin/read-only"] []]) =
  Some (Ok (mkQueryResponse Read true false)).
Proof.
  rewrite (query_tool_follows_policy
    (mkQueryRequest "agent" "db" "select_data" RedisCommands (text "GET k")) None
    (builtin_engine [mkAssignment "agent" "db" ["builtin/read-only"] []]) Read)
    by (vm_compute; reflexivity).
  vm_compute. reflexivity.
Defined.

Lemma query_tool_runs_only_reads_witness :
  class_le Read Read /\ Forall (reads_in (text "select 1")) DIALECT_RULES.
Proof.
  apply (query_tool_runs_only_reads [mkAssignment "agent" "db" ["builtin/read-only"] []]
    (mkQueryRequest "agent" "db" "select_data" Sql (text "select 1")) None
    (mkQueryResponse Read true false)); vm_compute; reflexivity.
Defined.

Lemma comments_hide_nothing_witness :
  detect_dangerous_sql (text "/* ; */ drop table t") = detect_dangerous_sql (text " drop table t").
Proof.
  apply (comments_hide_nothing [text "/* ; */"] (text " drop table t")).
  apply Forall_cons_2; [|apply Forall_nil_2]. apply (block_comment (text " ; ")).
  vm_compute. intros Hin. repeat (apply elem_of_cons in Hin as [Hin|Hin]; [done|]).
  by apply elem_of_nil in Hin.
Defined.

(** The classification stops on a closing brace right after the parenthesis. *)
Example mongo_classification_stops :
  classify_mongo_query (text "db.c.deleteMany(})") = None.
Proof. vm_compute. reflexivity. Qed.

(** A script that reads and deletes counts as a read when no driver classifies
    it. *)
Example mongo_find_hides_delete :
  classify_mongo_query (text "db.a.find({}); db.b.deleteMany({ x: 1 })") = Some Read.
Proof. vm_compute. reflexivity. Qed.
