(* ===== verification/DelimitedScan.v ===== *)
(** * Scanning delimited text (crates/dbflux_delimited: reader.rs, lib.rs)

    One state machine decides what every code unit of a delimited file means:
    where its records end and how a record splits into fields.  This file has
    the dialect, the scanner, and the records of a text.  Encodings come from a
    library and are a parameter; the bytes of UTF-8 and UTF-16 are written out,
    as the writer encodes them itself. *)

From S2P Require Import Prelude RustStr RustChar.

(** What the code takes from encoding_rs: [encode] runs an encoder over a whole
    text, up to the first character it cannot represent and its position. *)
Class EncodingLib := {
  Encoding : Type;
  encoding_eq_dec :: EqDecision Encoding;
  UTF_8 : Encoding;
  UTF_16LE : Encoding;
  UTF_16BE : Encoding;
  EUC_JP : Encoding;
  ISO_2022_JP : Encoding;
  encoding_name : Encoding -> list char;
  is_single_byte : Encoding -> bool;
  decode_without_bom_handling : Encoding -> list N -> list char * bool;
  encode : Encoding -> list char -> result (list N) (nat * char);
}.

(** The three Unicode encodings are different ones, and no bytes are no text. *)
Class EncodingLaws `{EncodingLib} : Prop := {
  utf8_not_utf16le : UTF_8 <> UTF_16LE;
  utf8_not_utf16be : UTF_8 <> UTF_16BE;
  utf16le_not_be : UTF_16LE <> UTF_16BE;
  decode_nothing e : decode_without_bom_handling e [] = ([], false);
}.

Module Delimited.

Definition LINE_FEED : N := 10.
Definition CARRIAGE_RETURN : N := 13.

Section Dialect.
Context `{EncodingLib}.

Record Dialect := mkDialect {
  d_delimiter : N;
  d_quote : option N;
  d_has_header : bool;
  d_encoding : Encoding;
}.

Inductive UnitWidth : Type :=
| Byte
| Utf16LittleEndian
| Utf16BigEndian.

Record Layout := mkLayout {
  width : UnitWidth;
  delimiter : N;
  quote : option N;
}.

(** [ReadError] without the failures of the source. *)
Inductive DialectError : Type :=
| UnsupportedDialect (encoding : list char) (byte : N)
| LineBreakInDialect (byte : N)
| QuoteEqualsDelimiter (byte : N).

Definition never_collides_with_a_trail_byte (byte : N) : bool :=
  ((byte <? 48) || (58 <=? byte) && (byte <=? 63))%N.

Definition is_scannable_by_byte (encoding : Encoding) (byte : N) : bool :=
  if is_single_byte encoding then true
  else if bool_decide (encoding = UTF_8) || bool_decide (encoding = EUC_JP) then (byte <? 128)%N
  else if bool_decide (encoding = ISO_2022_JP) then false
  else never_collides_with_a_trail_byte byte.

(** [layout.width] for an encoding. *)
Definition width_of (encoding : Encoding) : UnitWidth :=
  if bool_decide (encoding = UTF_16LE) then Utf16LittleEndian
  else if bool_decide (encoding = UTF_16BE) then Utf16BigEndian
  else Byte.

Definition special_bytes (d : Dialect) : list N :=
  d_delimiter d :: match d_quote d with Some q => [q] | None => [] end.

Definition for_dialect (d : Dialect) : result Layout DialectError :=
  match List.find (fun b => (b =? LINE_FEED)%N || (b =? CARRIAGE_RETURN)%N) (special_bytes d) with
  | Some byte => Err (LineBreakInDialect byte)
  | None =>
      if bool_decide (d_quote d = Some (d_delimiter d))
      then Err (QuoteEqualsDelimiter (d_delimiter d))
      else
        let width := width_of (d_encoding d) in
        let collision :=
          match width with
          | Byte => List.find (fun b => negb (is_scannable_by_byte (d_encoding d) b)) (special_bytes d)
          | _ => None
          end in
        match collision with
        | Some byte => Err (UnsupportedDialect (encoding_name (d_encoding d)) byte)
        | None => Ok (mkLayout width (d_delimiter d) (d_quote d))
        end
  end.

(** ** Code units *)

Definition unit_size (l : Layout) : nat := match width l with Byte => 1 | _ => 2 end.

(** A code unit from its first and its second byte. *)
Definition join_unit (w : UnitWidth) (a b : N) : N :=
  match w with Utf16BigEndian => a * 256 + b | _ => b * 256 + a end%N.

Definition unit_at (l : Layout) (bytes : list N) (position : nat) : option N :=
  match width l, drop position bytes with
  | Byte, a :: _ => Some a
  | Byte, [] => None
  | w, a :: b :: _ => Some (join_unit w a b)
  | _, _ => None
  end.

Definition push_unit (l : Layout) (bytes : list N) (unit : N) : list N :=
  bytes ++ match width l with
           | Byte => if (unit <? 256)%N then [unit] else []
           | Utf16LittleEndian => [unit mod 256; unit / 256]%N
           | Utf16BigEndian => [unit / 256; unit mod 256]%N
           end.

(** The code units that a loop over [unit_at] visits from the start of the
    bytes, each with its bytes, and the half unit that may follow them. *)
Fixpoint chunks (w : UnitWidth) (bytes : list N) : list (N * list N) :=
  match bytes with
  | [] => []
  | a :: bytes' =>
      match w with
      | Byte => (a, [a]) :: chunks w bytes'
      | _ =>
          match bytes' with
          | [] => []
          | b :: bytes'' => (join_unit w a b, [a; b]) :: chunks w bytes''
          end
      end
  end.

Fixpoint stray (w : UnitWidth) (bytes : list N) : list N :=
  match bytes with
  | [] => []
  | a :: bytes' =>
      match w with
      | Byte => stray w bytes'
      | _ => match bytes' with [] => [a] | b :: bytes'' => stray w bytes'' end
      end
  end.

(** ** The scanner *)

Inductive State : Type :=
| FieldStart
| Unquoted
| Quoted
| QuoteInQuoted
| AfterCarriageReturn.

Inductive Step : Type :=
| Literal
| Structural
| FieldEnd
| RecordEnd
| NextRecord.

#[global] Instance State_eq_dec : EqDecision State.
Proof. solve_decision. Defined.

(** What a unit is, and the state after it. *)
Definition step (l : Layout) (s : State) (unit : N) : Step * State :=
  let is_quote := bool_decide (quote l = Some unit) in
  match s with
  | AfterCarriageReturn => (if (unit =? LINE_FEED)%N then RecordEnd else NextRecord, s)
  | Quoted => if is_quote then (Structural, QuoteInQuoted) else (Literal, s)
  | FieldStart | Unquoted | QuoteInQuoted =>
      if (unit =? LINE_FEED)%N then (RecordEnd, s)
      else if (unit =? CARRIAGE_RETURN)%N then (Structural, AfterCarriageReturn)
      else if (unit =? delimiter l)%N then (FieldEnd, FieldStart)
      else if is_quote && bool_decide (s = FieldStart) then (Structural, Quoted)
      else if is_quote && bool_decide (s = QuoteInQuoted) then (Literal, Quoted)
      else (Literal, Unquoted)
  end.

(** The loop of [record_length]: where the record ends, if the units say. *)
Fixpoint record_end (l : Layout) (s : State) (position : nat) (cs : list (N * list N)) : option nat :=
  match cs with
  | [] => None
  | (unit, _) :: cs' =>
      match step l s unit with
      | (RecordEnd, _) => Some (position + unit_size l)%nat
      | (NextRecord, _) => Some position
      | (_, s') => record_end l s' (position + unit_size l) cs'
      end
  end.

Definition record_length (l : Layout) (bytes : list N) (at_end_of_source : bool) : option nat :=
  match record_end l FieldStart 0 (chunks (width l) bytes) with
  | Some n => Some n
  | None => if at_end_of_source && negb (bool_decide (bytes = [])) then Some (length bytes) else None
  end.

(** The loop of [split_fields]; [tail] is the half unit at the end. *)
Fixpoint split_units (l : Layout) (s : State) (current : list N) (cs : list (N * list N)) (tail : list N)
  : list (list N) :=
  match cs with
  | [] => [current ++ tail]
  | (unit, bytes) :: cs' =>
      match step l s unit with
      | (Literal, s') => split_units l s' (current ++ bytes) cs' tail
      | (Structural, s') => split_units l s' current cs' tail
      | (FieldEnd, s') => current :: split_units l s' [] cs' tail
      | (RecordEnd, _) | (NextRecord, _) => [current]
      end
  end.

Definition split_fields (l : Layout) (record : list N) : list (list N) :=
  split_units l FieldStart [] (chunks (width l) record) (stray (width l) record).

Definition decode_fields (record : list N) (l : Layout) (encoding : Encoding) : list (list char) * bool :=
  let decoded := map (decode_without_bom_handling encoding) (split_fields l record) in
  (map fst decoded, existsb snd decoded).

(** [ends_inside_quotes] steps over every unit, whatever the step is. *)
Definition ends_inside_quotes (l : Layout) (record : list N) : bool :=
  bool_decide (foldl (fun s c => (step l s c.1).2) FieldStart (chunks (width l) record) = Quoted).

Definition byte_order_mark (encoding : Encoding) : list N :=
  if bool_decide (encoding = UTF_8) then [239; 187; 191]%N
  else if bool_decide (encoding = UTF_16LE) then [255; 254]%N
  else if bool_decide (encoding = UTF_16BE) then [254; 255]%N
  else [].

(** ** Encoding a text *)

(** [str::as_bytes] and [str::encode_utf16], a character at a time. *)
Definition utf8_bytes (c : char) : list N :=
  (if c <? 128 then [c]
  else if c <? 2048 then [192 + c / 64; 128 + c mod 64]
  else if c <? 65536 then [224 + c / 4096; 128 + c / 64 mod 64; 128 + c mod 64]
  else [240 + c / 262144; 128 + c / 4096 mod 64; 128 + c / 64 mod 64; 128 + c mod 64])%N.

Definition utf16_units (c : char) : list N :=
  (if c <? 65536 then [c] else [55296 + (c - 65536) / 1024; 56320 + (c - 65536) mod 1024])%N.

Definition encode_text (t : list char) (encoding : Encoding) : result (list N) (nat * char) :=
  let utf16 w := foldl (push_unit (mkLayout w 0 None)) [] (t ≫= utf16_units) in
  if bool_decide (encoding = UTF_8) then Ok (t ≫= utf8_bytes)
  else if bool_decide (encoding = UTF_16LE) then Ok (utf16 Utf16LittleEndian)
  else if bool_decide (encoding = UTF_16BE) then Ok (utf16 Utf16BigEndian)
  else encode encoding t.

(** ** The records of a source *)

(** The records that reading [bytes] from its start to its end gives. *)
Fixpoint records_loop (rounds : nat) (l : Layout) (bytes : list N) : list (list N) :=
  match rounds with
  | O => []
  | S rounds' =>
      match record_length l bytes true with
      | Some n => take n bytes :: records_loop rounds' l (drop n bytes)
      | None => []
      end
  end.

Definition records (l : Layout) (bytes : list N) : list (list N) := records_loop (length bytes) l bytes.

End Dialect.
End Delimited.

(** An instance: UTF-8 on ASCII text, and one encoding with a byte for each of
    the first 256 characters. *)
#[export] Instance byte_encodings : EncodingLib := {
  Encoding := N;
  UTF_8 := 0;
  UTF_16LE := 1;
  UTF_16BE := 2;
  EUC_JP := 3;
  ISO_2022_JP := 4;
  encoding_name e := text "encoding " ++ decimal e;
  is_single_byte e := (e =? 5)%N;
  decode_without_bom_handling e bytes := (bytes, (e <? 5)%N && existsb (fun b => 127 <? b)%N bytes);
  encode e t :=
    match list_find (fun c => 256 <= c)%N t with Some (i, c) => Err (i, c) | None => Ok t end;
}.

#[export] Instance byte_encodings_laws : EncodingLaws.
Proof. split; try done. intros e. simpl. by rewrite andb_false_r. Qed.
