(* ===== verification/DelimitedScanProps.v ===== *)
(** * Properties of the scanner of delimited text

    How code units and the scanner behave on texts put together from parts, and
    the records of a text as its only division into records. *)

From S2P Require Import Prelude RustStr RustChar DelimitedScan.
Import Delimited.

(** ** Code units *)

(** Induction two bytes at a time. *)
Lemma pairs_ind {A} (P : list A -> Prop) :
  P [] -> (forall a, P [a]) -> (forall a b l, P l -> P (a :: b :: l)) -> forall l, P l.
Proof.
  intros Hnil Hone Htwo l. enough (P l /\ forall a, P (a :: l)) by tauto.
  induction l as [|b l [IH IH']]; split; auto.
Qed.

Section Units.
Context (w : UnitWidth).

Lemma chunks_app a b : chunks w (a ++ b) = chunks w a ++ chunks w (stray w a ++ b).
Proof.
  destruct w; [by induction a as [|x a IH]; simpl; [|rewrite IH]|..];
    (induction a as [| |x y a IH] using pairs_ind; simpl; [done|done|by rewrite IH]).
Qed.

Lemma stray_app a b : stray w (a ++ b) = stray w (stray w a ++ b).
Proof.
  destruct w; [by induction a as [|x a IH]|..];
    (induction a as [| |x y a IH] using pairs_ind; simpl; [done|done|by rewrite IH]).
Qed.

Lemma chunks_concat a : concat (map snd (chunks w a)) ++ stray w a = a.
Proof.
  destruct w; [by induction a as [|x a IH]; simpl; [|rewrite IH]|..];
    (induction a as [| |x y a IH] using pairs_ind; simpl; [done|done|by rewrite IH]).
Qed.

Lemma chunks_whole a b : stray w a = [] -> chunks w (a ++ b) = chunks w a ++ chunks w b.
Proof. intros Hs. by rewrite chunks_app, Hs. Qed.

Lemma stray_whole a b : stray w a = [] -> stray w (a ++ b) = stray w b.
Proof. intros Hs. by rewrite stray_app, Hs. Qed.

End Units.

Section Scan.
Context (l : Layout).

#[local] Abbreviation size := (unit_size l).
#[local] Abbreviation units := (chunks (width l)).
#[local] Abbreviation half := (stray (width l)).

Lemma size_pos : (0 < size)%nat.
Proof. unfold unit_size. destruct (width l); lia. Qed.

Lemma units_length a : length a = (size * length (units a) + length (half a))%nat.
Proof.
  unfold unit_size. destruct (width l); [by induction a as [|x a IH]; simpl in *; lia|..];
    (induction a as [| |x y a IH] using pairs_ind; simpl in *; lia).
Qed.

Lemma half_length a : (length (half a) < size)%nat.
Proof.
  unfold unit_size. destruct (width l); [by induction a as [|x a IH]; simpl in *; lia|..];
    (induction a as [| |x y a IH] using pairs_ind; simpl in *; lia).
Qed.

(** The bytes up to a unit hold whole units only. *)
Lemma units_take a n : (n <= length (units a))%nat ->
  units (take (size * n) a) = take n (units a) /\ half (take (size * n) a) = [].
Proof.
  unfold unit_size. revert n. destruct (width l).
  - intros n. rewrite Nat.mul_1_l. revert n. induction a as [|x a IH]; intros [|n] Hn; try done.
    simpl in *. destruct (IH n) as [-> ->]; [lia|done].
  - induction a as [| |x y a IH] using pairs_ind; intros [|n] Hn; try (simpl in *; lia); try done.
    replace (2 * S n)%nat with (S (S (2 * n)))%nat by lia. cbn [take chunks stray] in *.
    cbn [length] in Hn. destruct (IH n) as [-> ->]; [lia|done].
  - induction a as [| |x y a IH] using pairs_ind; intros [|n] Hn; try (simpl in *; lia); try done.
    replace (2 * S n)%nat with (S (S (2 * n)))%nat by lia. cbn [take chunks stray] in *.
    cbn [length] in Hn. destruct (IH n) as [-> ->]; [lia|done].
Qed.

Lemma units_drop a n : (n <= length (units a))%nat ->
  units (drop (size * n) a) = drop n (units a) /\ half (drop (size * n) a) = half a.
Proof.
  intros Hn. destruct (units_take a n Hn) as [Ht Hs].
  rewrite <- (take_drop (size * n) a) at 2 4.
  rewrite chunks_whole, stray_whole, Ht by done. split; [|done].
  rewrite drop_app_length'; [done|]. rewrite length_take. lia.
Qed.

(** The first unit of some bytes. *)
Lemma unit_at_first a : unit_at l a 0 = fst <$> head (units a).
Proof. unfold unit_at. rewrite drop_0. destruct (width l), a as [|x [|y a]]; done. Qed.

(** ** Runs of the scanner *)

(** The state after units that end no record. *)
Fixpoint pass (s : State) (cs : list (N * list N)) : option State :=
  match cs with
  | [] => Some s
  | (u, _) :: cs' =>
      match step l s u with
      | (RecordEnd, _) | (NextRecord, _) => None
      | (_, s') => pass s' cs'
      end
  end.

Lemma pass_app s cs ds : pass s (cs ++ ds) = s' ← pass s cs; pass s' ds.
Proof.
  revert s. induction cs as [|[u b] cs IH]; intros s; [done|]. simpl.
  destruct (step l s u) as [[] s']; done.
Qed.

Lemma record_end_pass s s' p cs ds : pass s cs = Some s' ->
  record_end l s p (cs ++ ds) = record_end l s' (p + size * length cs) ds.
Proof.
  revert s p. induction cs as [|[u b] cs IH]; intros s p Hp; simpl in *.
  - simplify_eq. by rewrite Nat.mul_0_r, Nat.add_0_r.
  - destruct (step l s u) as [[] s1]; try done; (rewrite IH; [f_equal; lia|done]).
Qed.

Lemma record_end_None s p cs : record_end l s p cs = None <-> is_Some (pass s cs).
Proof.
  revert s p. induction cs as [|[u b] cs IH]; intros s p; simpl; [by split; eauto|].
  destruct (step l s u) as [[] s']; try apply IH;
    (split; [done|intros [? ?]; done]).
Qed.

(** Where a record ends among units: at a line feed, or before the unit after a
    carriage return. *)
Lemma record_end_Some s p cs n : record_end l s p cs = Some n ->
  exists cs1 u b cs2 s', cs = cs1 ++ (u, b) :: cs2 /\ pass s cs1 = Some s' /\
    ((step l s' u).1 = RecordEnd /\ n = p + size * S (length cs1) \/
     s' = AfterCarriageReturn /\ u <> LINE_FEED /\ n = p + size * length cs1)%nat.
Proof.
  revert s p. induction cs as [|[u b] cs IH]; intros s p Hn; [done|].
  simpl in Hn. destruct (step l s u) as [k s1] eqn:Hst. destruct k.
  1,2,3: (apply IH in Hn as (cs1 & u' & b' & cs2 & s' & -> & Hp & Hcase);
    exists ((u, b) :: cs1), u', b', cs2, s'; split; [done|]; split; [simpl; by rewrite Hst|];
    simpl length; destruct Hcase as [[? ->]|(? & ? & ->)]; [left|right]; repeat split; (done || lia)).
  - simplify_eq. exists [], u, b, cs, s. split; [done|]. split; [done|]. left. rewrite Hst. split; [done|].
    simpl. lia.
  - simplify_eq. exists [], u, b, cs, s. split; [done|]. split; [done|]. right.
    destruct s; simpl in Hst;
      try (repeat (case_match; simplify_eq); done).
    case_match; simplify_eq. split; [done|]. split; [by apply N.eqb_neq|simpl; lia].
Qed.

(** ** Records *)

(** [r] is the first record of [r ++ rest]. *)
Inductive ends_record (r rest : list N) : Prop :=
| by_line_feed cs u b s :
    units r = cs ++ [(u, b)] -> half r = [] -> pass FieldStart cs = Some s ->
    (step l s u).1 = RecordEnd -> ends_record r rest
| by_carriage_return u :
    half r = [] -> pass FieldStart (units r) = Some AfterCarriageReturn ->
    fst <$> head (units rest) = Some u -> u <> LINE_FEED -> ends_record r rest
| by_source_end s :
    rest = [] -> r <> [] -> pass FieldStart (units r) = Some s -> ends_record r rest.

Lemma record_length_inv a n : record_length l a true = Some n ->
  (n <= length a)%nat /\ ends_record (take n a) (drop n a).
Proof.
  unfold record_length. destruct (record_end l FieldStart 0 (units a)) as [m|] eqn:He.
  - intros [= ->]. pose proof (units_length a) as Hlen.
    apply record_end_Some in He as (cs & u & b & cs2 & s & Hu & Hp & Hcase).
    rewrite Hu, length_app in Hlen. cbn [length] in Hlen.
    destruct Hcase as [[Hst ->]|(-> & Hne & ->)]; simpl.
    + destruct (units_take a (S (length cs))) as [Ht Hh]; [rewrite Hu, length_app; cbn [length]; lia|].
      split; [lia|]. eapply by_line_feed; [|exact Hh|exact Hp|exact Hst].
      rewrite Ht, Hu, cons_middle, app_assoc, take_app_length'; [done|rewrite length_app; simpl; lia].
    + destruct (units_take a (length cs)) as [Ht Hh]; [rewrite Hu, length_app; cbn [length]; lia|].
      destruct (units_drop a (length cs)) as [Hd _]; [rewrite Hu, length_app; cbn [length]; lia|].
      split; [lia|]. eapply by_carriage_return; [exact Hh| | |exact Hne].
      * rewrite Ht, Hu, take_app_length'; done.
      * rewrite Hd, Hu, drop_app_length'; done.
  - apply record_end_None in He as [s Hs]. simpl. case_bool_decide as Ha; simpl; [done|]. intros [= <-].
    split; [done|]. rewrite firstn_all, drop_all. by eapply by_source_end.
Qed.

Lemma record_length_ends r rest : ends_record r rest -> record_length l (r ++ rest) true = Some (length r).
Proof.
  unfold record_length. pose proof (units_length r) as Hlen.
  intros [cs u b s Hu Hh Hp Hst|u Hh Hp Hn Hne|s -> Hr Hp].
  - rewrite chunks_whole, Hu, <- app_assoc by done. erewrite record_end_pass by done. simpl.
    destruct (step l s u) as [k s'] eqn:Hk. simpl in Hst. subst k. f_equal.
    rewrite Hh, Hu, length_app in Hlen. simpl in Hlen. lia.
  - rewrite chunks_whole by done. erewrite record_end_pass by done.
    destruct (units rest) as [|[v b] ds]; [done|]. simpl in Hn. injection Hn as ->. simpl.
    destruct (N.eqb_spec u LINE_FEED); [done|]. f_equal. rewrite Hh in Hlen. simpl in Hlen. lia.
  - rewrite app_nil_r, (proj2 (record_end_None _ _ _)) by eauto. by rewrite bool_decide_false.
Qed.

Lemma ends_record_nonempty r rest : ends_record r rest -> r <> [].
Proof.
  intros [cs u b s Hu _ _ _|u _ Hp _ _|s _ Hr _] ->; [|done..].
  destruct (app_cons_not_nil cs [] (u, b)). by rewrite <- Hu.
Qed.

Lemma record_length_total a : a <> [] -> is_Some (record_length l a true).
Proof. intros Ha. unfold record_length. case_match; [eauto|]. by rewrite bool_decide_false. Qed.

(** What the first bytes settle does not change with what follows them. *)
Lemma record_length_settled a b at_end n :
  record_length l a false = Some n -> (n <= length a)%nat /\ record_length l (a ++ b) at_end = Some n.
Proof.
  unfold record_length. destruct (record_end l FieldStart 0 (units a)) as [m|] eqn:He; [|done].
  intros [= ->]. rewrite chunks_app.
  pose proof (record_end_Some _ _ _ _ He) as (cs & u & c & cs2 & s & Hu & Hp & Hcase).
  pose proof (units_length a) as Hlen. rewrite Hu, length_app in Hlen. cbn [length] in Hlen.
  split; [destruct Hcase as [[_ ->]|(_ & _ & ->)]; lia|].
  enough (Hmore : forall s0 p ds es k, record_end l s0 p ds = Some k -> record_end l s0 p (ds ++ es) = Some k).
  { by rewrite (Hmore _ _ _ _ _ He). }
  clear. intros s0 p ds es. revert s0 p. induction ds as [|[u b] ds IH]; intros s0 p k Hk; [done|].
  simpl in *. destruct (step l s0 u) as [[] s1]; auto.
Qed.

Lemma record_length_at_end a : record_length l a false = None -> a <> [] ->
  record_length l a true = Some (length a).
Proof. unfold record_length. intros Hn Ha. destruct (record_end _ _ _ _); [done|]. by rewrite bool_decide_false. Qed.

(** A division of a text into records. *)
Inductive tiled : list (list N) -> Prop :=
| tiled_nil : tiled []
| tiled_cons r rs : ends_record r (concat rs) -> tiled rs -> tiled (r :: rs).

Lemma records_loop_tiled n a : (length a <= n)%nat ->
  tiled (records_loop n l a) /\ concat (records_loop n l a) = a.
Proof.
  revert a. induction n as [|n IH]; intros a Hn; [destruct a; simpl in *; [by split; [constructor|]|lia]|].
  simpl. destruct (record_length l a true) as [m|] eqn:Hm.
  - apply record_length_inv in Hm as [Hle He]. pose proof (ends_record_nonempty _ _ He) as Hne.
    destruct (IH (drop m a)) as [Ht Hc].
    { rewrite length_drop. destruct m; [by rewrite take_0 in Hne|]. lia. }
    simpl. rewrite Hc, take_drop. split; [|done]. constructor; [by rewrite Hc|done].
  - destruct a as [|x a]; [by split; [constructor|]|]. destruct (record_length_total (x :: a)) as [? Hk]; [done|].
    congruence.
Qed.

Lemma tiled_records_loop rs n : tiled rs -> (length (concat rs) <= n)%nat -> records_loop n l (concat rs) = rs.
Proof.
  intros Ht. revert n. induction Ht as [|r rs He Ht IH]; intros n Hn.
  - by destruct n.
  - pose proof (ends_record_nonempty _ _ He) as Hr. cbn [concat] in Hn |- *. rewrite length_app in Hn.
    destruct n as [|n]; [destruct r; simpl in *; [done|lia]|].
    cbn [records_loop]. rewrite (record_length_ends _ _ He), take_app_length, drop_app_length.
    f_equal. apply IH. destruct r; simpl in *; [done|lia].
Qed.

Lemma records_tiled a : tiled (records l a) /\ concat (records l a) = a.
Proof. by apply records_loop_tiled. Qed.

Lemma tiled_records rs : tiled rs -> records l (concat rs) = rs.
Proof. intros Ht. by apply tiled_records_loop. Qed.

Lemma records_nil : records l [] = [].
Proof. done. Qed.

Lemma records_step a n : record_length l a true = Some n ->
  records l a = take n a :: records l (drop n a).
Proof.
  intros Hn. apply record_length_inv in Hn as [Hle He].
  destruct (records_tiled (drop n a)) as [Ht Hc]. rewrite <- (take_drop n a) at 1.
  rewrite <- Hc at 1. apply (tiled_records (_ :: _)). constructor; [by rewrite Hc|done].
Qed.

(** ** Records that stay when what follows them changes *)

Lemma tiled_app rs rs' : tiled (rs ++ rs') -> tiled rs'.
Proof. induction rs as [|r rs IH]; [done|]. intros Ht. inversion Ht; auto. Qed.

Lemma ends_record_half r rest : ends_record r rest -> units r = [] -> rest = [].
Proof.
  intros [cs u b s Hu _ _ _|u _ Hp _ _|s -> _ _] Hnil; [|by rewrite Hnil in Hp|done].
  rewrite Hu in Hnil. by destruct cs.
Qed.

Lemma head_units_app a b : units a <> [] -> head (units (a ++ b)) = head (units a).
Proof. intros Ha. rewrite chunks_app. by destruct (units a). Qed.

(** How a record ends depends on the first unit after it only. *)
Lemma ends_record_more r rest more : ends_record r rest -> rest <> [] ->
  fst <$> head (units more) = fst <$> head (units rest) -> ends_record r more.
Proof.
  intros [cs u b s Hu Hh Hp Hst|u Hh Hp Hn Hne|s -> _ _] Hrest Hmore; [| |done].
  - by eapply by_line_feed.
  - eapply by_carriage_return; [done|done|by rewrite Hmore|done].
Qed.

Lemma tiled_replace rs rest rest' : tiled (rs ++ rest) -> tiled rest' ->
  (forall r, last rs = Some r -> ends_record r (concat rest')) -> tiled (rs ++ rest').
Proof.
  intros Ht Ht' Hlast. induction rs as [|r rs IH]; [done|]. inversion Ht as [|? ? He Htl]; subst.
  assert (Hrest : tiled (rs ++ rest')).
  { apply IH; [done|]. intros r' Hr'. apply Hlast. by rewrite last_cons, Hr'. }
  simpl. constructor; [|done]. destruct rs as [|r2 rs]; [by apply Hlast|].
  inversion Htl as [|? ? He2 _]; subst. inversion Hrest as [|? ? He3 _]; subst.
  pose proof (ends_record_nonempty _ _ He2) as Hr2. simpl in *.
  destruct (decide (units r2 = [])) as [Hnil|Hne].
  - rewrite (ends_record_half _ _ He3), <- (ends_record_half _ _ He2) by done. done.
  - eapply ends_record_more; [exact He| |]; [by destruct r2|]. by rewrite !head_units_app.
Qed.

(** The last of some records, if there is one, ends before [more]. *)
Definition ends_at_last (rs : list (list N)) (more : list N) : Prop :=
  forall r, last rs = Some r -> ends_record r more.

(** The records before the place where two texts part. *)
Lemma records_replace a k more : ends_at_last (take k (records l a)) more ->
  records l (concat (take k (records l a)) ++ more) = take k (records l a) ++ records l more.
Proof.
  intros Hlast. destruct (records_tiled a) as [Ht _]. destruct (records_tiled more) as [Ht' Hc'].
  rewrite <- Hc' at 1. rewrite <- concat_app. apply tiled_records.
  apply (tiled_replace _ (drop k (records l a))); [by rewrite take_drop|done|].
  intros r Hr. rewrite Hc'. by apply Hlast.
Qed.

End Scan.
