(* ===== verification/PagedReader.v ===== *)
(** * The paged reader of delimited files (crates/dbflux_delimited: reader.rs)

    The reader hands out one page of records at a time and keeps the offset of
    every page it has scanned.  It reads the source in windows, through a cursor
    that keeps what it has fetched.  A source is a function of the number of
    calls made before, so any of its calls can fail.  Offsets and lengths are
    natural numbers: the lengths of sources are below 2^64, and so are the
    offsets, since every request is cut at the length.  Only the number of the
    first record of a page saturates, and is an [N]. *)

From S2P Require Import Prelude RustStr RustChar DelimitedScan.

Module PagedReader.
Import Delimited.

Section Reader.
Context `{EncodingLib} {SourceError : Type}.

(** The trait [ByteSource] (crates/dbflux_byte_source). *)
Record ByteSource := mkSource {
  byte_length : nat -> result nat SourceError;
  read_range : nat -> nat -> nat -> result (list N) SourceError;
}.

Record ReaderOptions := mkOptions { page_size : nat; window_size : nat }.

Inductive ReadError : Type :=
| Source (e : SourceError)
| UnexpectedReadLength (start end_ received : nat)
| BadDialect (e : DialectError).

(** A call that stops: with an error of the code, or with its rounds used up,
    which the theorems exclude. *)
Inductive Halt : Type :=
| Failed (e : ReadError)
| Unfinished.

Record DelimitedRecord := mkRecord {
  byte_range : nat * nat;
  fields : list (list char);
  had_replacements : bool;
}.

Record Page := mkPage { first_record : N; page_records : list DelimitedRecord }.

Inductive RecordCount : Type :=
| Total (n : N)
| IndexedSoFar (n : N).

(** ** The cursor *)

Record Cursor := mkCursor { buffer_start : nat; buffer : list N; consumed : nat }.

Definition default_cursor : Cursor := mkCursor 0 [] 0.
Definition cursor_at (offset : nat) : Cursor := mkCursor offset [] 0.
Definition cursor_offset (c : Cursor) : nat := buffer_start c + consumed c.
Definition buffer_end (c : Cursor) : nat := buffer_start c + length (buffer c).
Definition remaining (c : Cursor) : list N := drop (consumed c) (buffer c).
Definition consume (n : nat) (c : Cursor) : Cursor :=
  mkCursor (buffer_start c) (buffer c) (Nat.min (consumed c + n) (length (buffer c))).
Definition append (bytes : list N) (c : Cursor) : Cursor :=
  mkCursor (cursor_offset c) (drop (consumed c) (buffer c) ++ bytes) 0.

(** ** Bytes kept of a page *)

Record KeptBytes := mkKept { budget : nat; kept_bytes : list N; full : bool }.

Definition offer (record : list N) (k : KeptBytes) : KeptBytes :=
  if full k || Nat.ltb (budget k) (length (kept_bytes k) + length record)
  then mkKept (budget k) (kept_bytes k) true
  else mkKept (budget k) (kept_bytes k ++ record) (full k).

(** ** The reader *)

Record PagedReader := mkReader {
  source : ByteSource;
  calls : nat;
  dialect : Dialect;
  layout : Layout;
  options : ReaderOptions;
  source_length : nat;
  byte_order_mark_length : nat;
  header : option DelimitedRecord;
  header_bytes : option (list N);
  page_starts : list nat;
  indexed_records : N;
  total_records : option N;
  cursor : Cursor;
}.

Definition set_calls (n : nat) (r : PagedReader) : PagedReader :=
  mkReader (source r) n (dialect r) (layout r) (options r) (source_length r)
    (byte_order_mark_length r) (header r) (header_bytes r) (page_starts r) (indexed_records r)
    (total_records r) (cursor r).
Definition set_length (n : nat) (r : PagedReader) : PagedReader :=
  mkReader (source r) (calls r) (dialect r) (layout r) (options r) n
    (byte_order_mark_length r) (header r) (header_bytes r) (page_starts r) (indexed_records r)
    (total_records r) (cursor r).
Definition set_header (mark : nat) (h : option DelimitedRecord) (b : option (list N)) (r : PagedReader)
  : PagedReader :=
  mkReader (source r) (calls r) (dialect r) (layout r) (options r) (source_length r)
    mark h b (page_starts r) (indexed_records r) (total_records r) (cursor r).
Definition set_index (starts : list nat) (indexed : N) (total : option N) (r : PagedReader) : PagedReader :=
  mkReader (source r) (calls r) (dialect r) (layout r) (options r) (source_length r)
    (byte_order_mark_length r) (header r) (header_bytes r) starts indexed total (cursor r).
Definition set_cursor (c : Cursor) (r : PagedReader) : PagedReader :=
  mkReader (source r) (calls r) (dialect r) (layout r) (options r) (source_length r)
    (byte_order_mark_length r) (header r) (header_bytes r) (page_starts r) (indexed_records r)
    (total_records r) c.

(** [source_mut]: the source, or its content, becomes another one. *)
Definition set_source (s : ByteSource) (r : PagedReader) : PagedReader :=
  mkReader s (calls r) (dialect r) (layout r) (options r) (source_length r)
    (byte_order_mark_length r) (header r) (header_bytes r) (page_starts r) (indexed_records r)
    (total_records r) (cursor r).

Definition record_count (r : PagedReader) : RecordCount :=
  match total_records r with Some n => Total n | None => IndexedSoFar (indexed_records r) end.

Definition u64_max : N := 2 ^ 64 - 1.
Definition saturating_add (a b : N) : N := N.min (a + b) u64_max.
Definition saturating_mul (a b : N) : N := N.min (a * b) u64_max.

Definition first_record_of (o : ReaderOptions) (page : nat) : N :=
  saturating_mul (N.of_nat page) (N.of_nat (page_size o)).

(** The state of a scan: the reader, and the cursor the code keeps beside it. *)
Definition Scan (A : Type) : Type := SM (PagedReader * Cursor) Halt A.

Definition call_source {A} (f : ByteSource -> nat -> result A SourceError) : SM PagedReader Halt A := fun r =>
  (set_calls (S (calls r)) r, map_err (fun e => Failed (Source e)) (f (source r) (calls r))).

Definition on_reader {A} (m : SM PagedReader Halt A) : Scan A := sm_zoom fst (fun r s => (r, s.2)) m.
Definition on_cursor (f : Cursor -> Cursor) : Scan unit := sm_modify (fun s => (s.1, f s.2)).

(** A scan with a cursor of its own. *)
Definition run_scan {A} (c : Cursor) (m : Scan A) : SM PagedReader Halt A := fun r =>
  let '((r', _), res) := m (r, c) in (r', res).

Definition extend (request : nat) : Scan unit :=
  s ← sm_get;
  let start := buffer_end s.2 in
  let end_ := Nat.min (start + request) (source_length s.1) in
  bytes ← on_reader (call_source (fun src n => read_range src n start end_));
  if Nat.eqb (length bytes) (end_ - start) then on_cursor (append bytes)
  else sm_err (Failed (UnexpectedReadLength start end_ (length bytes))).

(** The loop of [next_record]; every round fetches at least one byte. *)
Fixpoint next_loop (rounds request : nat) : Scan (option nat) :=
  s ← sm_get;
  let at_end_of_source := Nat.leb (source_length s.1) (buffer_end s.2) in
  let length := record_length (layout s.1) (remaining s.2) at_end_of_source in
  if bool_decide (is_Some length) || at_end_of_source then mret length
  else
    match rounds with
    | O => sm_err Unfinished
    | S rounds' => _ ← extend request; next_loop rounds' (request * 2)
    end.

Definition next_record : Scan (option nat) :=
  s ← sm_get;
  next_loop (source_length s.1 - buffer_end s.2) (window_size (options s.1)).

Definition build_record (r : PagedReader) (c : Cursor) (length : nat) : DelimitedRecord :=
  let start := cursor_offset c in
  let decoded := decode_fields (take length (remaining c)) (layout r) (d_encoding (dialect r)) in
  mkRecord (start, start + length)%nat decoded.1 decoded.2.

(** The loop of [scan_page] over the records of a page. *)
Fixpoint scan_loop (rounds : nat) (kept : option KeptBytes) (records : list DelimitedRecord) (scanned : N)
  : Scan (list DelimitedRecord * N * option KeptBytes) :=
  match rounds with
  | O => mret (records, scanned, kept)
  | S rounds' =>
      length ← next_record;
      match length with
      | None => mret (records, scanned, kept)
      | Some length =>
          s ← sm_get;
          let '(records, kept) :=
            match kept with
            | Some k => (records ++ [build_record s.1 s.2 length], Some (offer (take length (remaining s.2)) k))
            | None => (records, None)
            end in
          _ ← on_cursor (consume length);
          scan_loop rounds' kept records (scanned + 1)%N
      end
  end.

Definition scan_page (page : nat) (kept : option KeptBytes) : Scan (list DelimitedRecord * option KeptBytes) :=
  s ← sm_get;
  r ← scan_loop (page_size (options s.1)) kept [] 0%N;
  let '(records, scanned, kept) := r in
  s ← sm_get;
  let records_through_page := saturating_add (first_record_of (options s.1) page) scanned in
  let indexed := N.max (indexed_records s.1) records_through_page in
  let starts := page_starts s.1 in
  _ ← on_reader (sm_modify (
        if Nat.leb (source_length s.1) (cursor_offset s.2)
        then set_index starts indexed (Some records_through_page)
        else if Nat.eqb (length starts) (page + 1)
        then set_index (starts ++ [cursor_offset s.2]) indexed (total_records s.1)
        else set_index starts indexed (total_records s.1)));
  mret (records, kept).

(** The pages between the nearest indexed one and the one asked for. *)
Fixpoint skip_pages (pages : list nat) : Scan unit :=
  match pages with
  | [] => mret tt
  | skipped :: pages' =>
      s ← sm_get;
      if Nat.leb (length (page_starts s.1)) skipped then mret tt
      else _ ← scan_page skipped None; skip_pages pages'
  end.

(** From the start of page [nearest] to the records of [page], when there are
    any, and the bytes kept of them. *)
Definition read_scan (nearest page bytes_budget : nat) : Scan (list DelimitedRecord * list N) :=
  _ ← skip_pages (seq nearest (page - nearest));
  s ← sm_get;
  if Nat.ltb page (length (page_starts s.1))
  then
    read ← scan_page page (Some (mkKept bytes_budget [] (Nat.eqb bytes_budget 0)));
    mret (read.1, match read.2 with Some k => kept_bytes k | None => [] end)
  else mret ([], []).

Definition read_page_keeping (page bytes_budget : nat) : SM PagedReader Halt (Page * list N) := fun r =>
  let first := first_record_of (options r) page in
  if Nat.leb (length (page_starts r)) page && bool_decide (is_Some (total_records r))
  then (r, Ok (mkPage first [], []))
  else
    let nearest := Nat.min (length (page_starts r) - 1) page in
    let start := default 0%nat (page_starts r !! nearest) in
    let taken := if Nat.eqb (cursor_offset (cursor r)) start then cursor r else cursor_at start in
    match read_scan nearest page bytes_budget (set_cursor default_cursor r, taken) with
    | ((r', c), Ok (records, bytes)) => (set_cursor c r', Ok (mkPage first records, bytes))
    | ((r', _), Err e) => (r', Err e)
    end.

Definition read_page (page : nat) : SM PagedReader Halt Page :=
  read ← read_page_keeping page 0; mret read.1.
Definition read_page_with_bytes (page budget : nat) : SM PagedReader Halt (Page * list N) :=
  read_page_keeping page budget.

(** The loop of [prepare] that fetches enough bytes for the mark. *)
Fixpoint fetch_mark (rounds : nat) (mark : list N) : Scan unit :=
  s ← sm_get;
  if Nat.ltb (length (remaining s.2)) (length mark) && Nat.ltb (buffer_end s.2) (source_length s.1)
  then
    match rounds with
    | O => sm_err Unfinished
    | S rounds' => _ ← extend (window_size (options s.1)); fetch_mark rounds' mark
    end
  else mret tt.

(** [prepare] once the length is known. *)
Definition prepare_scan : Scan unit :=
  s ← sm_get;
  let mark := byte_order_mark (d_encoding (dialect s.1)) in
  _ ← fetch_mark (length mark) mark;
  _ ← on_cursor (fun c =>
        if negb (bool_decide (mark = [])) && bool_decide (mark `prefix_of` remaining c)
        then consume (length mark) c else c);
  s ← sm_get;
  _ ← on_reader (sm_modify (set_header (cursor_offset s.2) None None));
  _ ← (if d_has_header (dialect s.1) then
         n ← next_record;
         match n with
         | Some n =>
             s ← sm_get;
             _ ← on_reader (sm_modify (set_header (byte_order_mark_length s.1)
                   (Some (build_record s.1 s.2 n)) (Some (take n (remaining s.2)))));
             on_cursor (consume n)
         | None => mret tt
         end
       else mret tt);
  s ← sm_get;
  let data_start := cursor_offset s.2 in
  on_reader (sm_modify (fun r => set_cursor s.2 (set_index [data_start] 0
    (if Nat.leb (source_length r) data_start then Some 0%N else None) r))).

Definition prepare : SM PagedReader Halt unit :=
  n ← call_source byte_length;
  _ ← sm_modify (set_length n);
  run_scan default_cursor prepare_scan.

Definition open (src : ByteSource) (d : Dialect) (o : ReaderOptions) : result PagedReader Halt :=
  match for_dialect d with
  | Err e => Err (Failed (BadDialect e))
  | Ok l =>
      let reader := mkReader src 0 d l o 0 0 None None [0%nat] 0 None default_cursor in
      match prepare reader with
      | (reader', Ok _) => Ok reader'
      | (_, Err e) => Err e
      end
  end.

Definition invalidate_from_offset (offset : nat) : SM PagedReader Halt unit :=
  r ← sm_get;
  let data_start := default 0%nat (head (page_starts r)) in
  if Nat.eqb offset 0 || Nat.ltb offset data_start then prepare
  else
    length ← call_source byte_length;
    _ ← sm_modify (set_length length);
    if Nat.leb length data_start then prepare
    else
      let kept_pages := List.length (take_while (fun start => Nat.leb start offset) (page_starts r)) in
      sm_modify (fun r => set_cursor default_cursor (set_index (take kept_pages (page_starts r))
        (first_record_of (options r) (kept_pages - 1)) None r)).

Definition invalidate_from_page (page : nat) : SM PagedReader Halt unit :=
  if Nat.eqb page 0 then prepare
  else
    r ← sm_get;
    invalidate_from_offset
      (default 0%nat (match page_starts r !! page with Some s => Some s | None => last (page_starts r) end)).

End Reader.
End PagedReader.
