(* ===== verification/PagedReaderProps.v ===== *)
(** * Properties of the paged reader

    Whatever window it reads in and whichever calls of the source fail, a page
    that the reader returns is the page of the source, and an error it returns
    is one of the source. *)

From S2P Require Import Prelude RustStr RustChar DelimitedScan DelimitedScanProps PagedReader.
Import Delimited PagedReader.

Lemma take_while_spec {A} (p : A -> bool) l :
  take (length (take_while p l)) l = take_while p l /\ Forall (fun x => p x = true) (take_while p l).
Proof.
  induction l as [|x l [IH1 IH2]]; [by split|]. simpl. destruct (p x) eqn:Hx; [|by split].
  simpl. split; [by rewrite IH1|by constructor].
Qed.

Section Reading.
Context `{EncodingLib} {SourceError : Type} (l : Layout) (content : list N).

#[local] Abbreviation Reader := (@PagedReader _ SourceError).

(** Every call answers with the content or fails. *)
Definition serves (src : ByteSource (SourceError:=SourceError)) : Prop := forall n,
  match byte_length src n with Ok k => k = length content | Err _ => True end /\
  forall start end_, (start <= end_ <= length content)%nat ->
    match read_range src n start end_ with
    | Ok bytes => bytes = take (end_ - start) (drop start content)
    | Err _ => True
    end.

Context (src : ByteSource (SourceError:=SourceError)) (serving : serves src).

(** An error that the source gave at some call. *)
Definition source_failed (h : Halt (SourceError:=SourceError)) : Prop := exists e n, h = Failed (Source e) /\
  (byte_length src n = Err e \/ exists start end_, read_range src n start end_ = Err e).

(** The cursor holds a part of the content. *)
Definition cursor_ok (c : Cursor) : Prop :=
  (consumed c <= length (buffer c))%nat /\ (buffer_end c <= length content)%nat /\
  buffer c = take (length (buffer c)) (drop (buffer_start c) content).

Lemma cursor_at_ok offset : (offset <= length content)%nat -> cursor_ok (cursor_at offset).
Proof. unfold cursor_ok, cursor_at, buffer_end. simpl. intros. repeat split; lia. Qed.

Lemma remaining_ok c : cursor_ok c ->
  remaining c = take (buffer_end c - cursor_offset c) (drop (cursor_offset c) content) /\
  length (remaining c) = (buffer_end c - cursor_offset c)%nat.
Proof.
  intros (Hc & He & Hb). unfold remaining, buffer_end, cursor_offset in *. split.
  - rewrite Hb at 1. rewrite skipn_firstn_comm, drop_drop. f_equal. lia.
  - rewrite length_drop. lia.
Qed.

Lemma consume_ok c n : cursor_ok c -> (n <= length (remaining c))%nat ->
  cursor_ok (consume n c) /\ cursor_offset (consume n c) = (cursor_offset c + n)%nat.
Proof.
  intros Hc Hn. pose proof (remaining_ok c Hc) as [_ Hl]. destruct Hc as (Hc & He & Hb).
  unfold cursor_ok, consume, cursor_offset, buffer_end in *. simpl.
  repeat split; [lia|done|done|lia].
Qed.

Lemma append_ok c n : cursor_ok c ->
  let start := buffer_end c in let end_ := Nat.min (start + n) (length content) in
  let c' := append (take (end_ - start) (drop start content)) c in
  cursor_ok c' /\ cursor_offset c' = cursor_offset c /\ buffer_end c' = end_.
Proof.
  intros Hok start end_ c'. pose proof (remaining_ok c Hok) as [Hr Hl]. destruct Hok as (Hc & He & Hb).
  assert (Hlen : length (take (end_ - start) (drop start content)) = (end_ - start)%nat).
  { rewrite length_take, length_drop. subst start end_. lia. }
  unfold c', append, cursor_ok, cursor_offset, buffer_end in *. cbn [buffer_start buffer consumed].
  rewrite length_app, Hlen, length_drop in *. repeat split; try (subst start end_; lia).
  fold (remaining c). rewrite Hr. subst start end_. unfold buffer_end, cursor_offset.
  set (a := (buffer_start c + consumed c)%nat) in *. set (b := (buffer_start c + length (buffer c))%nat) in *.
  rewrite <- (take_drop (b - a) (drop a content)) at 2.
  rewrite take_app_ge; rewrite length_take, length_drop; [|lia].
  rewrite drop_drop. f_equal. f_equal; [lia|f_equal; lia].
Qed.

(** ** Runs *)

(** [I] is what holds of the reader when a scan stops with an error. *)
Context (I : Reader -> Prop) (I_calls : forall r n, I r -> I (set_calls n r)).

Definition scans {A} (m : Scan A) (s : Reader * Cursor) (Q : A -> Reader * Cursor -> Prop) : Prop :=
  match m s with
  | (s', Ok x) => Q x s'
  | (s', Err h) => I s'.1 /\ source_failed h
  end.

Lemma scans_bind {A B} (m : Scan A) (k : A -> Scan B) s Q :
  scans m s (fun x s' => scans (k x) s' Q) -> scans (m ≫= k) s Q.
Proof.
  unfold scans, mbind, sm_mbind, sm_bind. destruct (m s) as [s' [x|e]]; done.
Qed.

Lemma scans_ret {A} (x : A) s (Q : A -> _ -> Prop) : Q x s -> scans (mret x) s Q.
Proof. done. Qed.

Lemma scans_get {A} (k : Reader * Cursor -> Scan A) s Q : scans (k s) s Q -> scans (sm_get ≫= k) s Q.
Proof. done. Qed.

Lemma scans_cursor f s (Q : unit -> _ -> Prop) : Q tt (s.1, f s.2) -> scans (on_cursor f) s Q.
Proof. done. Qed.

Lemma scans_modify f s (Q : unit -> _ -> Prop) : Q tt (f s.1, s.2) -> scans (on_reader (sm_modify f)) s Q.
Proof. done. Qed.

Lemma scans_mono {A} (m : Scan A) s (Q Q' : A -> _ -> Prop) :
  scans m s Q -> (forall x s', Q x s' -> Q' x s') -> scans m s Q'.
Proof. unfold scans. destruct (m s) as [s' [x|e]]; auto. Qed.

(** What reading needs of a reader: it knows the length and the layout. *)
Definition sound (r : Reader) : Prop :=
  source r = src /\ source_length r = length content /\ layout r = l /\
  (0 < window_size (options r))%nat.

(** The same reader after more calls of the source. *)
Definition called (r r' : Reader) : Prop := exists n, r' = set_calls n r.

Lemma called_refl r : called r r.
Proof. exists (calls r). by destruct r. Qed.

Lemma called_trans r1 r2 r3 : called r1 r2 -> called r2 r3 -> called r1 r3.
Proof. intros [n ->] [k ->]. by exists k. Qed.

Lemma sound_called r r' : called r r' -> sound r -> sound r'.
Proof. by intros [n ->]. Qed.

Lemma I_called r r' : called r r' -> I r -> I r'.
Proof. intros [n ->]. apply I_calls. Qed.

(** More of the content is fetched, and the cursor stays where it is. *)
Lemma extend_scans request r c : I r -> sound r -> cursor_ok c ->
  scans (extend request) (r, c) (fun _ s' => called r s'.1 /\ cursor_ok s'.2 /\
    cursor_offset s'.2 = cursor_offset c /\
    buffer_end s'.2 = Nat.min (buffer_end c + request) (length content)).
Proof.
  intros HI (Hsrc & Hlen & Hl & Hw) Hc. unfold extend. apply scans_get. cbn [fst snd]. rewrite Hlen.
  pose proof (append_ok c request Hc) as (Ha & Ho & He). destruct Hc as (_ & Hend & _).
  set (e := Nat.min _ _) in *.
  destruct (serving (calls r)) as [_ Hread]. specialize (Hread (buffer_end c) e ltac:(unfold e; lia)).
  unfold scans, mbind, sm_mbind, sm_bind, on_reader, sm_zoom, call_source. cbn [fst snd]. rewrite Hsrc.
  destruct (read_range _ _ _ _) as [bytes|err] eqn:Hcall; simpl.
  - subst bytes. rewrite length_take, length_drop.
    replace (Nat.eqb _ _) with true by (symmetry; apply Nat.eqb_eq; unfold e; lia).
    unfold on_cursor, sm_modify. cbn [fst snd]. repeat split; try apply Ha; try done. by eexists.
  - split; [by apply I_calls|]. exists err, (calls r). split; [done|]. right. by eexists _, _.
Qed.

Lemma next_loop_scans rounds request r c : I r -> sound r -> cursor_ok c -> (0 < request)%nat ->
  (length content - buffer_end c <= rounds)%nat ->
  scans (next_loop rounds request) (r, c) (fun n s' => called r s'.1 /\ cursor_ok s'.2 /\
    cursor_offset s'.2 = cursor_offset c /\ n = record_length l (drop (cursor_offset c) content) true /\
    forall k, n = Some k -> k <= length (remaining s'.2))%nat.
Proof.
  revert request r c. induction rounds as [|rounds IH]; intros request r c HI Hs Hc Hreq Hrounds;
    cbn [next_loop]; apply scans_get; cbn [fst snd]; pose proof Hs as (_ & Hlen & Hl & _); rewrite Hlen, Hl;
    pose proof (remaining_ok c Hc) as [Hr Hlr]; pose proof Hc as (Hcons & Hend & _);
    destruct (Nat.leb_spec (length content) (buffer_end c)) as [Hle|Hlt]; rewrite ?orb_true_r; try lia.
  1,2: assert (Hall : remaining c = drop (cursor_offset c) content)
      by (rewrite Hr; apply firstn_all2; rewrite length_drop; unfold cursor_offset, buffer_end in *; lia);
    apply scans_ret; cbn [fst snd]; rewrite Hall;
    repeat (split; [first [apply called_refl | done]|]); rewrite <- Hall;
    intros k Hk%record_length_inv; tauto.
  rewrite orb_false_r. case_bool_decide as Hsome.
  - destruct Hsome as [k Hk]. rewrite Hk. apply scans_ret. cbn [fst snd].
    destruct (record_length_settled l _ (drop (buffer_end c) content) true _ Hk) as [Hkl Hset].
    repeat (split; [first [apply called_refl | done]|]). split; [|by intros ? [= <-]].
    rewrite <- Hset, Hr. f_equal. symmetry. rewrite <- (take_drop (buffer_end c - cursor_offset c)) at 1.
    f_equal. rewrite drop_drop. f_equal. unfold cursor_offset, buffer_end in *. lia.
  - apply scans_bind. eapply scans_mono; [by apply extend_scans|]. intros [] [r' c']. cbn [fst snd].
    intros (Hr' & Hc' & Ho' & He'). eapply scans_mono.
    + apply IH; [by eapply I_called|by eapply sound_called|done|lia|rewrite He'; lia].
    + intros n [r2 c2]. cbn [fst snd]. intros (Hr2 & Hc2 & Ho2 & Hn & Hk).
      split; [by eapply called_trans|]. split; [done|]. split; [congruence|]. split; [congruence|done].
Qed.

(** [next_record] finds the record that the whole content has at the cursor. *)
Lemma next_record_scans r c : I r -> sound r -> cursor_ok c ->
  scans next_record (r, c) (fun n s' => called r s'.1 /\ cursor_ok s'.2 /\
    cursor_offset s'.2 = cursor_offset c /\ n = record_length l (drop (cursor_offset c) content) true /\
    forall k, n = Some k -> k <= length (remaining s'.2))%nat.
Proof.
  intros HI Hs Hc. unfold next_record. apply scans_get. cbn [fst snd].
  pose proof Hs as (_ & Hlen & _ & Hw). apply next_loop_scans; try done. rewrite Hlen. lia.
Qed.

(** ** Pages *)

(** The records [rs] as the reader returns them, the first at [start]. *)
Fixpoint located (e : Encoding) (start : nat) (rs : list (list N)) : list DelimitedRecord :=
  match rs with
  | [] => []
  | r :: rs' =>
      let decoded := decode_fields r l e in
      mkRecord (start, start + length r)%nat decoded.1 decoded.2 :: located e (start + length r) rs'
  end.

Definition keep_all (kept : option KeptBytes) (rs : list (list N)) : option KeptBytes :=
  (fun k => foldl (fun k r => offer r k) k rs) <$> kept.

Lemma scan_loop_scans rounds kept out scanned r c : I r -> sound r -> cursor_ok c ->
  let rs := take rounds (records l (drop (cursor_offset c) content)) in
  scans (scan_loop rounds kept out scanned) (r, c) (fun x s' => called r s'.1 /\ cursor_ok s'.2 /\
    cursor_offset s'.2 = (cursor_offset c + length (concat rs))%nat /\
    x = (match kept with
         | Some _ => out ++ located (d_encoding (dialect r)) (cursor_offset c) rs | None => out end,
         scanned + N.of_nat (length rs), keep_all kept rs)%N).
Proof.
  revert kept out scanned r c. induction rounds as [|rounds IH]; intros kept out scanned r c HI Hs Hc rs;
    cbn [scan_loop].
  - apply scans_ret. unfold rs. simpl. split; [apply called_refl|]. split; [done|]. split; [lia|].
    rewrite N.add_0_r. destruct kept; simpl; [by rewrite app_nil_r|done].
  - apply scans_bind. eapply scans_mono; [by apply next_record_scans|]. intros n [r' c']. cbn [fst snd].
    intros (Hr' & Hc' & Ho' & Hn & Hk). destruct n as [n|].
    + symmetry in Hn. pose proof (record_length_inv l _ _ Hn) as [Hle _].
      specialize (Hk n eq_refl). pose proof (remaining_ok c' Hc') as [Hrem Hlr].
      assert (Ht : take n (remaining c') = take n (drop (cursor_offset c) content)).
      { rewrite Hrem, Ho', take_take. f_equal. lia. }
      destruct (consume_ok c' n Hc' Hk) as [Hc2 Ho2].
      unfold rs. rewrite (records_step l _ _ Hn), drop_drop.
      cbn [take]. apply scans_get. cbn [fst snd].
      assert (Hl' : layout r' = l) by (destruct Hr' as [? ->]; apply Hs).
      assert (Hd' : dialect r' = dialect r) by (by destruct Hr' as [? ->]).
      assert (Hb : build_record r' c' n = mkRecord (cursor_offset c, cursor_offset c + n)%nat
        (decode_fields (take n (drop (cursor_offset c) content)) l (d_encoding (dialect r))).1
        (decode_fields (take n (drop (cursor_offset c) content)) l (d_encoding (dialect r))).2).
      { unfold build_record. by rewrite Ht, Ho', Hl', Hd'. }
      rewrite Ht, Hb. assert (Hlen : length (take n (drop (cursor_offset c) content)) = n)
        by (rewrite length_take; lia).
      destruct kept as [k|]; apply scans_bind, scans_cursor; cbn [fst snd];
        (eapply scans_mono; [apply IH; [by eapply I_called|by eapply sound_called|done]|]);
        intros x [r2 c2]; cbn [fst snd]; rewrite Ho2, Ho', ?Hd'; intros (Hr2 & Hc2' & Ho3 & ->);
        (split; [by eapply called_trans|]); (split; [done|]);
        cbn [concat length located keep_all fmap option_fmap option_map foldl]; rewrite length_app, Hlen;
        (split; [lia|]); rewrite Nat2N.inj_succ, <- N.add_1_l, N.add_assoc; [|done].
      by rewrite <- app_assoc.
    + symmetry in Hn. assert (Hnil : drop (cursor_offset c) content = []).
      { destruct (drop (cursor_offset c) content) eqn:Hd; [done|].
        destruct (record_length_total l (n :: l0)) as [? ?]; [done|]. congruence. }
      apply scans_ret. unfold rs. rewrite Hnil. cbn [fst snd]. rewrite records_nil, firstn_nil. simpl.
      rewrite N.add_0_r. split; [done|]. split; [done|]. split; [lia|].
      destruct kept; simpl; [by rewrite app_nil_r|done].
Qed.

End Reading.

Lemma default_cursor_ok content : cursor_ok content default_cursor.
Proof. unfold cursor_ok, default_cursor, buffer_end. simpl. repeat split; lia. Qed.

(** ** The index *)

Lemma ends_record_length l rs : tiled l rs -> (length rs <= length (concat rs))%nat.
Proof.
  induction 1 as [|r rs He _ IH]; [done|]. pose proof (ends_record_nonempty l _ _ He) as Hr.
  cbn [concat length]. rewrite length_app. destruct r; simpl; [done|lia].
Qed.

Section Index.
Context `{EncodingLib} {SourceError : Type} (l : Layout) (content : list N)
  (src : ByteSource (SourceError:=SourceError)) (serving : serves content src)
  (d : Dialect) (o : ReaderOptions) (data_start : nat).
Context (page_pos : (0 < page_size o)%nat) (window_pos : (0 < window_size o)%nat)
  (start_in : (data_start <= length content)%nat)
  (length_u64 : (N.of_nat (length content) <= u64_max)%N).

#[local] Abbreviation Reader := (@PagedReader _ SourceError).
#[local] Abbreviation size := (page_size o).

(** The records after the header, and where they start. *)
Definition data : list (list N) := records l (drop data_start content).
Definition record_offset (k : nat) : nat := data_start + length (concat (take k data)).
Definition pages_from (m : nat) : list nat := map (fun p => record_offset (p * size)) (seq 0 m).

Lemma data_tiled k : tiled l (drop k data) /\ concat (drop k data) = drop (record_offset k) content.
Proof.
  unfold record_offset. destruct (records_tiled l (drop data_start content)) as [Ht Hc]. fold data in Ht, Hc.
  split.
  - clear Hc. revert k. induction Ht as [|r rs He Ht IH]; intros [|k]; simpl; try by constructor. apply IH.
  - rewrite <- drop_drop, <- Hc. rewrite <- (take_drop k data) at 3. by rewrite concat_app, drop_app_length.
Qed.

Lemma data_from k : records l (drop (record_offset k) content) = drop k data.
Proof. destruct (data_tiled k) as [Ht <-]. by apply tiled_records. Qed.

Lemma record_offset_add k j :
  record_offset (k + j) = (record_offset k + length (concat (take j (drop k data))))%nat.
Proof.
  unfold record_offset. rewrite <- (take_take_drop data k j), concat_app, length_app. lia.
Qed.

Lemma record_offset_le k : (record_offset k <= length content)%nat.
Proof.
  destruct (data_tiled 0) as [_ Hc]. unfold record_offset in *. simpl in Hc. rewrite Nat.add_0_r in Hc.
  apply (f_equal length) in Hc. rewrite length_drop in Hc.
  pose proof (f_equal (fun x => length (concat x)) (take_drop k data)) as Hk. cbn beta in Hk.
  rewrite concat_app, length_app in Hk. rewrite drop_0 in Hc. lia.
Qed.

(** A record starts before the end of the content exactly when there is one. *)
Lemma record_offset_lt k : (record_offset k < length content)%nat <-> (k < length data)%nat.
Proof.
  destruct (data_tiled k) as [Ht Hc]. apply (f_equal length) in Hc. rewrite length_drop in Hc.
  pose proof (ends_record_length l _ Ht) as Hl. rewrite length_drop in Hl. split; intros Hk; [|lia].
  destruct (decide (k < length data)%nat); [done|]. rewrite drop_ge in Hc by lia. simpl in Hc. lia.
Qed.

Lemma record_offset_strict i j : (i < j <= length data)%nat -> (record_offset i < record_offset j)%nat.
Proof.
  intros Hij. destruct (data_tiled i) as [Ht _].
  replace j with (i + (j - i))%nat by lia. rewrite record_offset_add.
  assert (Hne : length (drop i data) <> 0%nat) by (rewrite length_drop; lia).
  destruct (drop i data) as [|r rs]; [done|]. inversion Ht as [|? ? He _]; subst.
  pose proof (ends_record_nonempty l _ _ He) as Hr. destruct (j - i)%nat eqn:Hk; [lia|]. simpl.
  rewrite length_app. destruct r; simpl; [done|lia].
Qed.

Lemma data_count : (N.of_nat (length data) <= u64_max)%N.
Proof.
  destruct (data_tiled 0) as [Ht Hc]. rewrite drop_0 in Ht, Hc. pose proof (ends_record_length l _ Ht) as Hl.
  rewrite Hc, length_drop in Hl. lia.
Qed.

Lemma pages_lookup m p : (p < m)%nat -> pages_from m !! p = Some (record_offset (p * size)).
Proof. intros Hp. unfold pages_from. by rewrite list_lookup_fmap, lookup_seq_lt. Qed.

Lemma pages_length m : length (pages_from m) = m.
Proof. unfold pages_from. by rewrite length_map, length_seq. Qed.

(** What the reader keeps of its scans is true of the content. *)
Definition index_ok (r : Reader) : Prop := exists m,
  page_starts r = pages_from m /\ (1 <= m)%nat /\ ((m - 1) * size <= length data)%nat /\
  (indexed_records r <= N.of_nat (length data))%N /\
  forall t, total_records r = Some t -> t = N.of_nat (length data) /\ (length data <= m * size)%nat.

Definition ready (r : Reader) : Prop :=
  sound l content src r /\ options r = o /\ dialect r = d /\ cursor_ok content (cursor r) /\ index_ok r.

Lemma ready_calls r n : ready r -> ready (set_calls n r).
Proof. done. Qed.

Lemma ready_called r r' : called r r' -> ready r -> ready r'.
Proof. by intros [n ->]. Qed.

Lemma index_set r starts indexed total c : ready r -> cursor_ok content c ->
  index_ok (set_index starts indexed total r) -> ready (set_cursor c (set_index starts indexed total r)).
Proof. by intros (Hs & Ho & Hd & _ & _) Hc Hi. Qed.

Lemma first_record_small p k : (p * size + k <= length data)%nat ->
  saturating_add (first_record_of o p) (N.of_nat k) = N.of_nat (p * size + k).
Proof.
  intros Hp. pose proof data_count as Hd. unfold saturating_add, first_record_of, saturating_mul.
  rewrite <- Nat2N.inj_mul, (N.min_l (N.of_nat (p * size))) by lia.
  rewrite <- Nat2N.inj_add. apply N.min_l. lia.
Qed.

Lemma pages_take m k : (k <= m)%nat -> take k (pages_from m) = pages_from k.
Proof. intros Hk. unfold pages_from. by rewrite firstn_map, take_seq, Nat.min_l. Qed.

(** The page starts up to an offset. *)
Lemma pages_kept m offset : (1 <= m)%nat -> (data_start <= offset)%nat ->
  let kept := length (take_while (fun start => Nat.leb start offset) (pages_from m)) in
  take kept (pages_from m) = pages_from kept /\ (1 <= kept <= m)%nat /\
  (record_offset ((kept - 1) * size) <= offset)%nat.
Proof.
  intros Hm Hstart kept. destruct (take_while_spec (fun s => Nat.leb s offset) (pages_from m)) as [Hp Hall].
  fold kept in Hp. assert (Hlen : (kept <= m)%nat).
  { rewrite <- (pages_length m). unfold kept. rewrite <- Hp at 1. rewrite length_take. lia. }
  assert (Hkept : (1 <= kept)%nat).
  { unfold kept. destruct m as [|m]; [lia|]. unfold pages_from. simpl.
    unfold record_offset. simpl. rewrite Nat.add_0_r. destruct (Nat.leb_spec data_start offset); simpl; lia. }
  split; [by apply pages_take|]. split; [lia|].
  rewrite <- Hp, pages_take in Hall by done. apply Nat.leb_le.
  apply (Forall_lookup_1 _ _ (kept - 1) _ Hall), pages_lookup. lia.
Qed.


(** An index over the first [m] pages. *)
Definition index_at (m : nat) (indexed : N) (total : option N) : Prop :=
  (1 <= m)%nat /\ ((m - 1) * size <= length data)%nat /\ (indexed <= N.of_nat (length data))%N /\
  forall t, total = Some t -> t = N.of_nat (length data) /\ (length data <= m * size)%nat.

Lemma ready_index r m indexed total : ready r -> index_at m indexed total ->
  ready (set_index (pages_from m) indexed total r).
Proof. intros (Hs & Ho & Hd & Hc & _) Hi. repeat (split; [done|]). by exists m. Qed.

Lemma pages_snoc m : pages_from (m + 1) = pages_from m ++ [record_offset (m * size)].
Proof. unfold pages_from. by rewrite seq_app, map_app. Qed.

Lemma page_starts_in p m : (p < m)%nat -> ((m - 1) * size <= length data)%nat ->
  (p * size <= length data)%nat.
Proof. nia. Qed.

(** ** Scanning and reading pages *)

#[local] Abbreviation scans := (scans src ready).
#[local] Abbreviation page_data p := (take size (drop (p * size) data)).

Lemma page_end p : record_offset (p * size + size) =
  (record_offset (p * size) + length (concat (page_data p)))%nat.
Proof. apply record_offset_add. Qed.

Lemma page_data_length p : length (page_data p) = Nat.min size (length data - p * size).
Proof. by rewrite length_take, length_drop. Qed.

Lemma scan_page_scans p kept r c : ready r -> cursor_ok content c -> (p < length (page_starts r))%nat ->
  cursor_offset c = record_offset (p * size) ->
  scans (scan_page p kept) (r, c) (fun x s' => ready s'.1 /\ cursor_ok content s'.2 /\
    cursor_offset s'.2 = record_offset (p * size + size) /\
    (p + 1 < length (page_starts s'.1) \/ is_Some (total_records s'.1))%nat /\
    x = (match kept with
         | Some _ => located l (d_encoding d) (record_offset (p * size)) (page_data p) | None => [] end,
         keep_all kept (page_data p))).
Proof.
  intros Hr Hc Hp Hoff. pose proof Hr as (Hs & Ho & Hd & Hcur & m & Hm & Hm1 & Hlt & Hix & Htot).
  rewrite Hm, pages_length in Hp. unfold scan_page. apply scans_get. cbn [fst snd]. rewrite Ho.
  apply scans_bind. eapply scans_mono; [by apply (scan_loop_scans l content src serving ready ready_calls)|].
  intros [[recs k] kept'] [r' c']. cbn [fst snd]. rewrite Hoff, data_from, <- page_end, Hd.
  intros (Hr' & Hc' & Hoff' & Hx). injection Hx as -> -> ->. apply scans_get. cbn [fst snd].
  pose proof Hr' as [n Hn]. pose proof (ready_called _ _ Hr' Hr) as Hready'.
  assert (Hf : options r' = o /\ source_length r' = length content /\ page_starts r' = page_starts r /\
    indexed_records r' = indexed_records r /\ total_records r' = total_records r)
    by (subst r'; repeat split; [done|apply Hs]).
  destruct Hf as (-> & -> & Hst' & Hix' & Htot'). rewrite Hst', Hix', Htot', Hm, pages_length.
  pose proof (page_starts_in p m Hp Hlt) as Hpin. pose proof (page_data_length p) as Hpl.
  rewrite N.add_0_l, first_record_small by (rewrite Hpl; lia).
  pose proof (record_offset_lt (p * size + size)) as Hend. rewrite Hoff'.
  apply scans_bind, scans_modify. apply scans_ret. cbn [fst snd].
  destruct (Nat.leb_spec (length content) (record_offset (p * size + size))) as [Hle|Hgt].
  - assert (Hall : (length data <= p * size + size)%nat) by (apply Nat.nlt_ge; rewrite <- Hend; lia).
    split; [apply ready_index; [done|]|].
    + split; [done|]. split; [done|]. split; [lia|]. intros t [= <-]. split; [lia|nia].
    + simpl. split; [done|]. split; [done|]. split; [right; by eexists|done].
  - apply Hend in Hgt. destruct (Nat.eqb_spec m (p + 1)) as [->|Hne].
    + rewrite Nat.mul_add_distr_r, Nat.mul_1_l in Htot. replace (p * size + size)%nat with ((p + 1) * size)%nat in * by lia.
      rewrite <- pages_snoc. split; [apply ready_index; [done|]|].
      * split; [lia|]. split; [nia|]. split; [lia|].
        intros t Ht. destruct (Htot t Ht). split; [done|nia].
      * simpl. rewrite pages_length. split; [done|]. split; [done|]. split; [left; lia|done].
    + split; [apply ready_index; [done|]|].
      * split; [done|]. split; [done|]. split; [lia|done].
      * simpl. rewrite pages_length. split; [done|]. split; [done|]. split; [left; lia|done].
Qed.

(** The reader is at the start of page [p], or past a known end. *)
Definition at_page (p : nat) (s : Reader * Cursor) : Prop :=
  ready s.1 /\ cursor_ok content s.2 /\
  ((p < length (page_starts s.1))%nat /\ cursor_offset s.2 = record_offset (p * size) \/
   (length (page_starts s.1) <= p)%nat /\ is_Some (total_records s.1)).

Lemma skip_pages_scans n p s : at_page p s ->
  scans (skip_pages (seq p n)) s (fun _ s' => at_page (p + n) s').
Proof.
  revert p s. induction n as [|n IH]; intros p [r c] Hat; cbn [seq skip_pages].
  - rewrite Nat.add_0_r. by apply scans_ret.
  - destruct Hat as (Hr & Hc & Hcase). cbn [fst snd] in *. apply scans_get. cbn [fst snd].
    destruct (Nat.leb_spec (length (page_starts r)) p) as [Hle|Hlt].
    + apply scans_ret. split; [done|]. split; [done|]. right. cbn [fst snd].
      destruct Hcase as [[? _]|[_ ?]]; [lia|]. split; [lia|done].
    + destruct Hcase as [[_ Hoff]|[? _]]; [|lia].
      apply scans_bind. eapply scans_mono; [by apply scan_page_scans|].
      intros x [r' c']. cbn [fst snd]. intros (Hr' & Hc' & Hoff' & Hnext & _).
      replace (p + S n)%nat with (S p + n)%nat by lia. apply IH. split; [done|]. split; [done|]. cbn [fst snd].
      destruct (decide (S p < length (page_starts r'))%nat) as [Hin|Hout].
      * left. split; [done|]. rewrite Hoff'. f_equal. lia.
      * right. destruct Hnext as [?|?]; [lia|]. split; [lia|done].
Qed.

(** The leading records that fit in a budget. *)
Fixpoint leading (bytes_budget : nat) (rs : list (list N)) : list N :=
  match rs with
  | [] => []
  | r :: rs' => if Nat.leb (length r) bytes_budget then r ++ leading (bytes_budget - length r) rs' else []
  end.

Lemma offer_full k rs : full k = true -> kept_bytes (foldl (fun k r => offer r k) k rs) = kept_bytes k.
Proof.
  revert k. induction rs as [|r rs IH]; intros k Hk; [done|]. cbn [foldl]. unfold offer at 2. rewrite Hk. simpl.
  by rewrite IH.
Qed.

Lemma offer_leading b bytes rs : (length bytes <= b)%nat ->
  kept_bytes (foldl (fun k r => offer r k) (mkKept b bytes false) rs) = bytes ++ leading (b - length bytes) rs.
Proof.
  revert bytes. induction rs as [|r rs IH]; intros bytes Hb; cbn [foldl leading]; [by rewrite app_nil_r|].
  unfold offer at 2. cbn [full budget kept_bytes orb].
  destruct (Nat.ltb_spec b (length bytes + length r)) as [Hlt|Hge].
  - rewrite offer_full by done. simpl. destruct (Nat.leb_spec (length r) (b - length bytes)); [lia|].
    by rewrite app_nil_r.
  - rewrite IH by (rewrite length_app; lia). destruct (Nat.leb_spec (length r) (b - length bytes)); [|lia].
    rewrite <- app_assoc, length_app. by rewrite Nat.sub_add_distr.
Qed.

Lemma kept_leading b rs : Forall (fun r => r <> []) rs ->
  kept_bytes (foldl (fun k r => offer r k) (mkKept b [] (Nat.eqb b 0)) rs) = leading b rs.
Proof.
  intros Hrs. destruct b as [|b]; simpl Nat.eqb.
  - rewrite offer_full by done. destruct Hrs as [|r rs Hr _]; [done|]. by destruct r.
  - rewrite offer_leading by (simpl; lia). simpl. done.
Qed.

Definition page_at (p : nat) : Page :=
  mkPage (first_record_of o p) (located l (d_encoding d) (record_offset (p * size)) (page_data p)).

Lemma data_nonempty : Forall (fun r => r <> []) data.
Proof.
  destruct (data_tiled 0) as [Ht _]. rewrite drop_0 in Ht.
  induction Ht as [|r rs He _ IH]; constructor; [by eapply ends_record_nonempty|done].
Qed.

Lemma ready_set_cursor r c : ready r -> cursor_ok content c -> ready (set_cursor c r).
Proof. by intros (Hs & Ho & Hd & _ & Hi) Hc. Qed.

Lemma ready_page_known p r m : ready r -> page_starts r = pages_from m -> (m <= p)%nat ->
  is_Some (total_records r) -> page_data p = [].
Proof.
  intros (_ & _ & _ & _ & m' & Hm & _ & _ & _ & Htot) Hm' Hle [t Ht]. apply Htot in Ht as [_ Hall].
  assert (m = m') as -> by (by rewrite <- (pages_length m), <- Hm', Hm, pages_length).
  rewrite drop_ge by nia. by rewrite firstn_nil.
Qed.

Lemma ready_pages r : ready r -> exists m, page_starts r = pages_from m /\ (1 <= m)%nat.
Proof. intros (_ & _ & _ & _ & m & Hm & Hm1 & _). by exists m. Qed.

Lemma read_scan_scans nearest p b s : (nearest <= p)%nat -> at_page nearest s ->
  scans (read_scan nearest p b) s (fun x s' => ready s'.1 /\ cursor_ok content s'.2 /\
    x = (page_records (page_at p), leading b (page_data p))).
Proof.
  intros Hn Hat. unfold read_scan. apply scans_bind. eapply scans_mono; [by apply skip_pages_scans|].
  intros _ [r c]. replace (nearest + (p - nearest))%nat with p by lia. intros (Hr & Hc & Hcase).
  cbn [fst snd] in *. apply scans_get. cbn [fst snd].
  destruct (Nat.ltb_spec p (length (page_starts r))) as [Hlt|Hge].
  - destruct Hcase as [[_ Hoff]|[? _]]; [|lia]. apply scans_bind.
    eapply scans_mono; [by apply scan_page_scans|]. intros x [r' c']. cbn [fst snd].
    intros (Hr' & Hc' & _ & _ & ->). apply scans_ret. split; [done|]. split; [done|]. cbn [fst snd keep_all].
    simpl. f_equal. apply kept_leading, Forall_take, Forall_drop, data_nonempty.
  - destruct Hcase as [[? _]|[_ Ht]]; [lia|]. apply scans_ret. split; [done|]. split; [done|].
    destruct (ready_pages r Hr) as (m & Hm & _). unfold page_at. cbn [page_records].
    rewrite Hm, pages_length in Hge. by erewrite ready_page_known.
Qed.

Lemma read_page_keeping_ready p b r : ready r ->
  match read_page_keeping p b r with
  | (r', Ok (page, bytes)) => ready r' /\ page = page_at p /\ bytes = leading b (page_data p)
  | (r', Err h) => ready r' /\ source_failed src h
  end.
Proof.
  intros Hr. pose proof Hr as (Hs & Ho & Hd & Hc & _). destruct (ready_pages r Hr) as (m & Hm & Hm1).
  unfold read_page_keeping. rewrite Ho, Hm, pages_length. destruct (_ && _) eqn:Hknown.
  - apply andb_true_iff in Hknown as [Hle%Nat.leb_le Hk%bool_decide_eq_true].
    unfold page_at. by erewrite ready_page_known.
  - clear Hknown. set (nearest := Nat.min (m - 1) p).
    rewrite pages_lookup by (unfold nearest; lia). change (default 0%nat (Some ?x)) with x.
    set (c := if Nat.eqb _ _ then _ else _).
    assert (Hat : at_page nearest (set_cursor default_cursor r, c)).
    { split; [apply ready_set_cursor; [done|apply default_cursor_ok]|].
      pose proof (record_offset_le (nearest * size)) as Hle. cbn [fst snd]. unfold c. split.
      - case_match; [done|by apply cursor_at_ok].
      - left. simpl page_starts. rewrite Hm, pages_length. split; [unfold nearest; lia|].
        destruct (Nat.eqb_spec (cursor_offset (cursor r)) (record_offset (nearest * size))); [done|].
        unfold cursor_at, cursor_offset. simpl. lia. }
    pose proof (read_scan_scans nearest p b _ ltac:(unfold nearest; lia) Hat) as Hscan. unfold scans in Hscan.
    destruct (read_scan nearest p b _) as [[r' c'] [[recs bytes]|h]]; cbn [fst snd] in Hscan; [|done].
    destruct Hscan as (Hr' & Hc' & Hx). injection Hx as -> ->. split; [by apply ready_set_cursor|].
    by split.
Qed.

End Index.

(** ** Opening a source *)

Section Source.
Context `{EncodingLib} {SourceError : Type} (l : Layout) (d : Dialect) (o : ReaderOptions) (content : list N)
  (src : ByteSource (SourceError:=SourceError)) (serving : serves content src).
Context (page_pos : (0 < page_size o)%nat) (window_pos : (0 < window_size o)%nat)
  (length_u64 : (N.of_nat (length content) <= u64_max)%N).

#[local] Abbreviation Reader := (@PagedReader _ SourceError).
#[local] Abbreviation mark := (byte_order_mark (d_encoding d)).

(** The mark at the start of the content, the header after it, and where the
    records after the header start. *)
Definition mark_length : nat := if bool_decide (mark `prefix_of` content) then length mark else 0.
Definition header_record : option (list N) :=
  if d_has_header d then head (records l (drop mark_length content)) else None.
Definition data_start : nat := (mark_length + length (default [] header_record))%nat.

#[local] Abbreviation ready := (ready l content src d o data_start).

Definition header_right (r : Reader) : Prop :=
  byte_order_mark_length r = mark_length /\
  header r = head (located l (d_encoding d) mark_length (option_list header_record)) /\
  header_bytes r = header_record.

(** [I] as it must be for the steps of [prepare]. *)
Context (I : Reader -> Prop) (I_calls : forall r n, I r -> I (set_calls n r))
  (I_header : forall r n h b, I r -> I (set_header n h b r)).

#[local] Abbreviation scans := (scans src I).
#[local] Abbreviation sound := (sound l content src).

Lemma fetch_mark_scans rounds m r c : I r -> sound r -> cursor_ok content c ->
  (length m <= length (remaining c) + rounds)%nat ->
  scans (fetch_mark rounds m) (r, c) (fun _ s' => called r s'.1 /\ cursor_ok content s'.2 /\
    cursor_offset s'.2 = cursor_offset c /\
    (length m <= length (remaining s'.2) \/ buffer_end s'.2 = length content)%nat).
Proof.
  revert r c. induction rounds as [|rounds IH]; intros r c HI Hs Hc Hm; cbn [fetch_mark]; apply scans_get;
    cbn [fst snd]; pose proof Hs as (_ & Hlen & _ & Hw); rewrite Hlen;
    pose proof Hc as (Hcons & Hend & _); pose proof (remaining_ok content c Hc) as [_ Hl];
    destruct (Nat.ltb_spec (length (remaining c)) (length m)) as [Hlt|Hge]; try lia; simpl andb;
    try (destruct (Nat.ltb_spec (buffer_end c) (length content)) as [Hin|Hout]);
    try (apply scans_ret; split; [apply called_refl|]; split; [done|]; split; [done|]; cbn [snd]; lia).
  apply scans_bind. eapply scans_mono; [by apply (extend_scans l content src serving I I_calls)|]. intros _ [r' c'].
  cbn [fst snd]. intros (Hr' & Hc' & Ho' & He'). pose proof (remaining_ok content c' Hc') as [_ Hl'].
  eapply scans_mono.
  - apply IH; [by eapply I_called|by eapply sound_called|done|].
    assert (cursor_offset c <= buffer_end c)%nat by (unfold cursor_offset, buffer_end; lia).
    rewrite Hl', Ho', He'. rewrite Hl in Hm, Hlt. lia.
  - intros _ [r2 c2]. cbn [fst snd]. intros (Hr2 & Hc2 & Ho2 & Hcase).
    split; [by eapply called_trans|]. split; [done|]. split; [congruence|done].
Qed.

Lemma skip_mark c : cursor_ok content c -> cursor_offset c = 0%nat ->
  (length mark <= length (remaining c) \/ buffer_end c = length content)%nat ->
  let c' := if negb (bool_decide (mark = [])) && bool_decide (mark `prefix_of` remaining c)
            then consume (length mark) c else c in
  cursor_ok content c' /\ cursor_offset c' = mark_length.
Proof.
  intros Hc Ho Hcase c'. pose proof (remaining_ok content c Hc) as [Hr Hl].
  rewrite Ho, drop_0 in Hr. assert (Hiff : mark `prefix_of` remaining c <-> mark `prefix_of` content).
  { split; intros Hp.
    - rewrite Hr in Hp. etrans; [exact Hp|]. by exists (drop (buffer_end c - 0) content); rewrite take_drop.
    - destruct Hcase as [Hle|Hall].
      + destruct Hp as [k Hk]. rewrite Hr, Hk. rewrite Hl, Ho in Hle. rewrite take_app_ge by lia.
        by eexists.
      + by rewrite Hr, Hall, firstn_all2 by lia. }
  unfold c', mark_length. rewrite (bool_decide_ext _ _ Hiff). case_bool_decide as Hm; simpl.
  - rewrite Hm. simpl. rewrite Ho. split; [done|by repeat case_match].
  - case_bool_decide as Hp; [|done]. apply prefix_length in Hp as Hpl.
    destruct (consume_ok content c (length mark) Hc) as [Hc' Ho'].
    { apply Hiff in Hp. by apply prefix_length in Hp. }
    rewrite Ho', Ho. done.
Qed.

Lemma mark_length_le : (mark_length <= length content)%nat.
Proof.
  clear page_pos window_pos length_u64. unfold mark_length. case_bool_decide as Hp; [by apply prefix_length in Hp|lia]. Qed.

Lemma data_start_le : (data_start <= length content)%nat.
Proof.
  clear page_pos window_pos length_u64.
  unfold data_start, header_record. pose proof mark_length_le as Hm. destruct (d_has_header d); simpl; [|lia].
  destruct (records_tiled l (drop mark_length content)) as [_ Hc]. apply (f_equal length) in Hc.
  rewrite length_drop in Hc. destruct (records _ _) as [|r rs]; simpl in *; [lia|].
  rewrite length_app in Hc. lia.
Qed.

(** The bytes of the record that [next_record] has found. *)
Lemma found_record c offset n : cursor_ok content c -> cursor_offset c = offset ->
  record_length l (drop offset content) true = Some n -> (n <= length (remaining c))%nat ->
  take n (remaining c) = take n (drop offset content) /\ length (take n (drop offset content)) = n /\
  cursor_ok content (consume n c) /\ cursor_offset (consume n c) = (offset + n)%nat.
Proof.
  intros Hc <- Hn Hle. pose proof (record_length_inv l _ _ Hn) as [Hlen _].
  destruct (remaining_ok content c Hc) as [Hr Hl]. destruct (consume_ok content c n Hc Hle) as [Hc' Ho'].
  split; [|split; [rewrite length_take; lia|done]]. rewrite Hr, take_take. f_equal. lia.
Qed.

Lemma read_header r c : I r -> sound r -> dialect r = d -> cursor_ok content c -> cursor_offset c = mark_length ->
  byte_order_mark_length r = mark_length -> header r = None -> header_bytes r = None ->
  scans (if d_has_header (dialect r) then
           n ← next_record;
           match n with
           | Some n =>
               s ← sm_get;
               _ ← on_reader (sm_modify (set_header (byte_order_mark_length s.1)
                     (Some (build_record s.1 s.2 n)) (Some (take n (remaining s.2)))));
               on_cursor (consume n)
           | None => mret tt
           end
         else mret tt) (r, c)
    (fun _ s' => I s'.1 /\ sound s'.1 /\ options s'.1 = options r /\ dialect s'.1 = d /\
       cursor_ok content s'.2 /\ cursor_offset s'.2 = data_start /\ header_right s'.1).
Proof.
  intros HI Hs Hd Hc Ho Hb Hh Hhb. unfold data_start, header_right, header_record. rewrite Hd.
  destruct (d_has_header d).
  - apply scans_bind. eapply scans_mono; [by apply (next_record_scans l content src serving I I_calls)|].
    intros n [r' c']. cbn [fst snd]. rewrite Ho. intros (Hr' & Hc' & Ho' & Hn & Hk).
    pose proof (I_called I I_calls _ _ Hr' HI) as HI'. pose proof (sound_called l content src _ _ Hr' Hs) as Hs'.
    assert (Hsame : layout r' = l /\ dialect r' = d /\ options r' = options r /\
      byte_order_mark_length r' = mark_length /\ header r' = None /\ header_bytes r' = None)
      by (destruct Hr' as [? ->]; repeat split; (done || apply Hs)).
    destruct Hsame as (Hl' & Hd' & Hopt & Hb' & Hh' & Hhb'). destruct n as [n|]; symmetry in Hn.
    + destruct (found_record c' mark_length n Hc' Ho' Hn (Hk n eq_refl)) as (Ht & Hlen & Hc2 & Ho2).
      apply scans_get, scans_bind, scans_modify, scans_cursor. cbn [fst snd].
      rewrite (records_step l _ _ Hn). unfold build_record. rewrite Ht, Hl', Hd', Hb', Ho'. cbn.
      rewrite Hlen. split; [by apply I_header|]. split; [done|]. repeat (split; [done|]). done.
    + apply scans_ret. cbn [fst snd]. assert (Hnil : drop mark_length content = []).
      { destruct (drop mark_length content) eqn:Hdrop; [done|].
        destruct (record_length_total l (n :: l0)) as [? ?]; [done|]. congruence. }
      rewrite Hnil. cbn. rewrite Nat.add_0_r. repeat (split; [done|]). done.
  - apply scans_ret. cbn. rewrite Nat.add_0_r. repeat (split; [done|]). done.
Qed.

Lemma prepare_scans r : I r -> sound r -> options r = o -> dialect r = d ->
  scans prepare_scan (r, default_cursor) (fun _ s' => ready s'.1 /\ header_right s'.1).
Proof.
  intros HI Hs Ho Hd. unfold prepare_scan. apply scans_get. cbn [fst snd]. rewrite Hd.
  apply scans_bind. eapply scans_mono.
  { apply (fetch_mark_scans _ _ r default_cursor); [done|done|apply default_cursor_ok|].
    unfold remaining. simpl. lia. }
  intros _ [r1 c1]. cbn [fst snd]. intros (Hr1 & Hc1 & Ho1 & Hcase).
  apply scans_bind, scans_cursor. cbn [fst snd].
  destruct (skip_mark c1 Hc1 Ho1 Hcase) as [Hc2 Ho2]. set (c2 := if _ && _ then _ else _) in *.
  apply scans_get, scans_bind, scans_modify. cbn [fst snd]. rewrite Ho2.
  apply scans_bind. eapply scans_mono.
  { apply (read_header (set_header mark_length None None r1)); try done.
    - by apply I_header, (I_called I I_calls r).
    - by apply (sound_called l content src r) in Hr1.
    - destruct Hr1 as [? ->]. exact Hd. }
  intros _ [r3 c3]. cbn [fst snd]. intros (HI3 & Hs3 & Hopt3 & Hd3 & Hc3 & Ho3 & Hh3).
  apply scans_get, scans_modify. cbn [fst snd]. rewrite Ho3. split; [|done].
  split; [done|]. split; [destruct Hr1 as [? ->]; simpl in *; congruence|]. split; [done|]. split; [done|].
  exists 1%nat. pose proof Hs3 as (_ & Hlen & _). rewrite Hlen.
  unfold pages_from, record_offset. simpl. rewrite Nat.add_0_r.
  split; [done|]. split; [lia|]. split; [lia|]. split; [lia|]. intros t.
  destruct (Nat.leb_spec (length content) data_start) as [Hle|Hlt]; [|done]. intros [= <-].
  unfold data. rewrite drop_ge by done. rewrite records_nil. simpl. lia.
Qed.

End Source.

(** ** Every history of a reader *)

Section History.
Context `{EncodingLib} {SourceError : Type} (l : Layout) (d : Dialect) (o : ReaderOptions) (content : list N)
  (src : ByteSource (SourceError:=SourceError)) (serving : serves content src).
Context (page_pos : (0 < page_size o)%nat) (window_pos : (0 < window_size o)%nat)
  (length_u64 : (N.of_nat (length content) <= u64_max)%N).

#[local] Abbreviation Reader := (@PagedReader _ SourceError).
#[local] Abbreviation start := (data_start l d content).
#[local] Abbreviation ready := (ready l content src d o start).
#[local] Abbreviation sound := (sound l content src).

Lemma ready_header r n h b : ready r -> ready (set_header n h b r).
Proof. done. Qed.

(** What is left of a reader whose call of [prepare] fails. *)
Lemma prepare_with (I : Reader -> Prop) r : (forall r n, I r -> I (set_calls n r)) ->
  (forall r n h b, I r -> I (set_header n h b r)) ->
  (forall r n, I (set_calls n r) -> I (set_length (length content) (set_calls n r))) ->
  I r -> source r = src -> layout r = l -> options r = o -> dialect r = d ->
  match prepare r with
  | (r', Ok _) => ready r' /\ header_right l d content r'
  | (r', Err h) => I r' /\ source_failed src h
  end.
Proof.
  intros Hcalls Hheader Hlength HI Hsrc Hl Ho Hd.
  unfold prepare, call_source, mbind, sm_mbind, sm_bind, sm_modify. rewrite Hsrc.
  destruct (serving (calls r)) as [Hlen _].
  destruct (byte_length src (calls r)) as [k|e] eqn:Hcall; cbn [map_err].
  - subst k. unfold run_scan.
    pose proof (prepare_scans l d o content src serving page_pos window_pos length_u64 I Hcalls Hheader
      (set_length (length content) (set_calls (S (calls r)) r))) as Hscan.
    unfold scans in Hscan. destruct (prepare_scan _) as [[r' c'] [u|h]]; cbn [fst] in Hscan.
    + apply Hscan; try done; [by apply Hlength, Hcalls|].
      repeat (split; [done|]). simpl. by rewrite Ho.
    + apply Hscan; try done; [by apply Hlength, Hcalls|].
      repeat (split; [done|]). simpl. by rewrite Ho.
  - split; [by apply Hcalls|]. exists e, (calls r). split; [done|]. by left.
Qed.

Lemma ready_length r : ready r -> set_length (length content) r = r.
Proof. intros ((_ & <- & _) & _). by destruct r. Qed.

Lemma prepare_ready r : ready r ->
  match prepare r with
  | (r', Ok _) => ready r'
  | (r', Err h) => ready r' /\ source_failed src h
  end.
Proof.
  intros Hr. pose proof Hr as ((Hs & Hlen & Hl & _) & Ho & Hd & _).
  pose proof (prepare_with ready r) as Hp. destruct (prepare r) as [r' [u|h]].
  - apply Hp; try done. intros r1 n Hr1. by rewrite ready_length.
  - apply Hp; try done. intros r1 n Hr1. by rewrite ready_length.
Qed.

(** An index whose page starts up to an offset are those of the content. *)
Lemma truncated_index r starts k : sound r -> options r = o -> dialect r = d ->
  starts = pages_from l content o start k -> (1 <= k)%nat ->
  ((k - 1) * page_size o <= length (data l content start))%nat ->
  ready (set_cursor default_cursor (set_index starts (first_record_of o (k - 1)) None r)).
Proof.
  intros Hs Ho Hd -> Hk Hle. split; [done|]. split; [done|]. split; [done|]. split; [apply default_cursor_ok|].
  exists k. split; [done|]. split; [done|]. split; [done|]. split; [|done]. simpl.
  unfold first_record_of, saturating_mul. lia.
Qed.

Lemma invalidate_from_offset_ready offset r : ready r ->
  match invalidate_from_offset offset r with
  | (r', Ok _) => ready r'
  | (r', Err h) => ready r' /\ source_failed src h
  end.
Proof.
  intros Hr. pose proof Hr as (Hs & Ho & Hd & _ & m & Hm & Hm1 & Hle & _).
  unfold invalidate_from_offset, call_source, mbind, sm_mbind, sm_bind, sm_modify. cbn [sm_get].
  rewrite Hm. replace (default 0%nat (head (pages_from l content o start m))) with start.
  2: { destruct m; [lia|]. unfold pages_from, record_offset. simpl. lia. }
  destruct (_ || _) eqn:Hbefore; [by apply prepare_ready|].
  apply orb_false_iff in Hbefore as [_ Hge%Nat.ltb_ge].
  destruct Hs as (Hsrc & Hlen & Hl & Hw). rewrite Hsrc. destruct (serving (calls r)) as [Hbl _].
  destruct (byte_length src (calls r)) as [n|e] eqn:Hcall; cbn [map_err].
  2: { split; [done|]. exists e, (calls r). split; [done|]. by left. }
  subst n. assert (Hr' : ready (set_length (length content) (set_calls (S (calls r)) r))).
  { by rewrite ready_length. }
  destruct (Nat.leb (length content) start); [by apply prepare_ready|].
  destruct (pages_kept l content o start page_pos window_pos (data_start_le l d content) length_u64 m offset Hm1 Hge) as (Htake & Hkept & Hoff).
  simpl. rewrite Hm, Htake, Ho. apply truncated_index; [apply Hr'|done|done|done|lia|].
  etrans; [|exact Hle]. apply Nat.mul_le_mono_r. lia.
Qed.

Lemma invalidate_from_page_ready p r : ready r ->
  match invalidate_from_page p r with
  | (r', Ok _) => ready r'
  | (r', Err h) => ready r' /\ source_failed src h
  end.
Proof.
  intros Hr. unfold invalidate_from_page. destruct (Nat.eqb p 0); [by apply prepare_ready|].
  by apply invalidate_from_offset_ready.
Qed.

End History.

(** ** A source whose content has changed *)

Section Change.
Context `{EncodingLib} {SourceError : Type} (l : Layout) (d : Dialect) (o : ReaderOptions).
Context (page_pos : (0 < page_size o)%nat) (window_pos : (0 < window_size o)%nat).
Context (content content' : list N) (src src' : ByteSource (SourceError:=SourceError))
  (serving' : serves content' src')
  (length_u64 : (N.of_nat (length content) <= u64_max)%N)
  (length_u64' : (N.of_nat (length content') <= u64_max)%N).

#[local] Abbreviation mark := (mark_length d content).
#[local] Abbreviation all := (records l (drop mark content)).
#[local] Abbreviation start := (data_start l d content).
#[local] Abbreviation ready := (ready l content src d o start).
#[local] Abbreviation ready' := (PagedReaderProps.ready l content' src' d o (data_start l d content')).

(** The content changed from [offset] on, which is where its record [k] starts,
    the header counted: the mark is as before, the record before [offset] still
    ends there, and a header is there if it was. *)
Record changed_at (offset k : nat) : Prop := {
  changed_prefix : take offset content' = take offset content;
  changed_offset : offset = (mark + length (concat (take k all)))%nat;
  changed_count : (k <= length all)%nat;
  changed_mark : mark_length d content' = mark;
  changed_header : d_has_header d = true -> (1 <= k)%nat;
  changed_end : ends_at_last l (take k all) (drop offset content');
}.

Section Changed.
Context (offset k : nat) (changed : changed_at offset k).

#[local] Abbreviation skipped := (if d_has_header d then 1 else 0)%nat.

Lemma all_changed : records l (drop mark content') = take k all ++ records l (drop offset content').
Proof.
  destruct changed as [Hp Ho _ _ _ He]. rewrite <- (records_replace l _ _ _ He). f_equal.
  rewrite <- (take_drop offset content') at 1. rewrite Hp, Ho.
  rewrite drop_app_le by (rewrite length_take; pose proof (mark_length_le d content); lia).
  f_equal. rewrite skipn_firstn_comm.
  replace (_ + _ - _)%nat with (length (concat (take k all))) by lia.
  destruct (records_tiled l (drop mark content)) as [_ Hc]. rewrite <- Hc at 2.
  rewrite <- (take_drop k all) at 2. by rewrite concat_app, take_app_length.
Qed.

Lemma data_all c : data l c (data_start l d c) = drop skipped (records l (drop (mark_length d c) c)).
Proof.
  unfold data, data_start, header_record. destruct (d_has_header d); simpl.
  - destruct (records_tiled l (drop (mark_length d c) c)) as [Ht Hc].
    destruct (records l (drop (mark_length d c) c)) as [|r rs] eqn:Hr; simpl in *.
    + by rewrite Nat.add_0_r, <- Hc.
    + rewrite <- drop_drop, <- Hc, drop_app_length. inversion Ht; subst. by apply tiled_records.
  - by rewrite Nat.add_0_r, drop_0.
Qed.

Lemma start_changed : data_start l d content' = start.
Proof.
  unfold data_start, header_record. pose proof all_changed as Hall.
  destruct changed as [_ _ Hc Hm Hh _]. rewrite Hm. destruct (d_has_header d); [|done].
  specialize (Hh eq_refl). rewrite Hall. destruct all as [|r rs]; [simpl in Hc; lia|].
  destruct k as [|k']; [lia|done].
Qed.

Lemma skipped_le : (skipped <= k)%nat.
Proof. destruct changed as [_ _ _ _ Hh _]. destruct (d_has_header d); [by apply Hh|lia]. Qed.

Lemma data_changed :
  take (k - skipped) (data l content' (data_start l d content')) = take (k - skipped) (data l content start) /\
  (k - skipped <= length (data l content' (data_start l d content')))%nat /\
  (k - skipped <= length (data l content start))%nat.
Proof.
  rewrite !data_all. pose proof skipped_le as Hs. destruct changed as [_ _ Hc -> _ _]. rewrite all_changed.
  rewrite drop_app_le by (rewrite length_take; lia). rewrite skipn_firstn_comm.
  assert (Hlen : length (take (k - skipped) (drop skipped all)) = (k - skipped)%nat)
    by (rewrite length_take, length_drop; lia).
  split; [by rewrite take_app_length'|]. rewrite length_app, Hlen, length_drop. lia.
Qed.

Lemma offset_changed i : (i <= k - skipped)%nat ->
  record_offset l content' (data_start l d content') i = record_offset l content start i.
Proof.
  intros Hi. unfold record_offset. destruct data_changed as [Ht _].
  rewrite start_changed in *. do 3 f_equal.
  apply (f_equal (take i)) in Ht. rewrite !take_take in Ht. by replace (Nat.min i (k - skipped)) with i in Ht by lia.
Qed.

Lemma changed_at_record : offset = record_offset l content start (k - skipped).
Proof.
  unfold record_offset. rewrite data_all. destruct changed as [_ -> Hc _ Hh _].
  unfold data_start, header_record. destruct (d_has_header d); simpl.
  - specialize (Hh eq_refl). destruct all as [|r rs]; simpl in *; [lia|].
    destruct k as [|k']; [lia|]. simpl. rewrite length_app, Nat.sub_0_r, drop_0. lia.
  - by rewrite Nat.add_0_r, Nat.sub_0_r, drop_0.
Qed.

Lemma invalidate_changed r : ready r ->
  match invalidate_from_offset offset (set_source src' r) with
  | (r', Ok _) => ready' r'
  | (r', Err h) => source_failed src' h
  end.
Proof.
  intros Hr. pose proof Hr as ((_ & _ & Hl & Hw) & Ho & Hd & _ & m & Hm & Hm1 & Hle & _).
  pose (I := fun r : @PagedReader _ SourceError => source r = src' /\ layout r = l /\ options r = o /\ dialect r = d).
  assert (Hprep : forall r, I r -> match prepare r with
    | (r', Ok _) => ready' r' | (_, Err h) => source_failed src' h end).
  { intros r1 (H1 & H2 & H3 & H4).
    pose proof (prepare_with l d o content' src' serving' page_pos window_pos length_u64' I r1) as Hp.
    destruct (prepare r1) as [r2 [u|h]]; by apply Hp. }
  unfold invalidate_from_offset, call_source, mbind, sm_mbind, sm_bind, sm_modify. cbn [sm_get].
  change (page_starts (set_source src' r)) with (page_starts r). rewrite Hm. replace (default 0%nat (head (pages_from l content o start m))) with start.
  2: { destruct m; [lia|]. unfold pages_from, record_offset. simpl. lia. }
  destruct (_ || _) eqn:Hbefore; [by apply Hprep|]. apply orb_false_iff in Hbefore as [_ Hge%Nat.ltb_ge].
  simpl. destruct (serving' (calls r)) as [Hbl _].
  destruct (byte_length src' (calls r)) as [n|e] eqn:Hcall; cbn [map_err].
  2: { exists e, (calls r). split; [done|]. by left. }
  subst n. destruct (Nat.leb (length content') start); [by apply Hprep|].
  destruct (pages_kept l content o start page_pos window_pos (data_start_le l d content) length_u64 m offset Hm1 Hge) as (Htake & Hkept & Hoff).
  simpl. rewrite Hm, Htake, Ho. set (kept := length (take_while _ _)) in *.
  destruct data_changed as (_ & Hin' & Hin).
  assert (Hk : ((kept - 1) * page_size o <= k - skipped)%nat).
  { apply Nat.nlt_ge. intros Hlt. rewrite changed_at_record in Hoff.
    pose proof (record_offset_strict l content o start page_pos window_pos (data_start_le l d content) length_u64
      (k - skipped) ((kept - 1) * page_size o)) as Hstrict.
    assert ((kept - 1) * page_size o <= (m - 1) * page_size o)%nat by (apply Nat.mul_le_mono_r; lia).
    specialize (Hstrict ltac:(lia)). lia. }
  apply truncated_index; try done; [| |lia].
  - unfold pages_from. apply map_ext_in. intros p Hp%in_seq. symmetry. apply offset_changed. nia.
  - lia.
Qed.

End Changed.
End Change.

(** ** The theorems *)

Inductive ReaderOp : Type :=
| ReadPage (page bytes_budget : nat)
| InvalidateFromOffset (offset : nat)
| InvalidateFromPage (page : nat).

Section Theorems.
Context `{EncodingLib} {SourceError : Type} (d : Dialect) (o : ReaderOptions).

#[local] Abbreviation Reader := (@PagedReader _ SourceError).

(** The reader after a call, whether the call succeeds or not. *)
Definition after_op (op : ReaderOp) (r : Reader) : Reader :=
  match op with
  | ReadPage p b => (read_page_with_bytes p b r).1
  | InvalidateFromOffset offset => (invalidate_from_offset offset r).1
  | InvalidateFromPage p => (invalidate_from_page p r).1
  end.

(** The readers that opening a source and calls of it give. *)
Inductive reached (src : ByteSource) : Reader -> Prop :=
| reached_open r : open src d o = Ok r -> reached src r
| reached_op r op : reached src r -> reached src (after_op op r).

(** What a reader answers about a content. *)
Definition answers_for (l : Layout) (content : list N) (src : ByteSource) (r : Reader) : Prop :=
  (forall p b, match (read_page_with_bytes p b r).2 with
     | Ok (page, bytes) =>
         page = page_at l content d o (data_start l d content) p /\
         bytes = leading b (take (page_size o) (drop (p * page_size o) (data l content (data_start l d content))))
     | Err h => source_failed src h
     end) /\
  match record_count r with
  | Total n => n = N.of_nat (length (data l content (data_start l d content)))
  | IndexedSoFar n => (n <= N.of_nat (length (data l content (data_start l d content))))%N
  end.

Context (l : Layout) (layout_ok : for_dialect d = Ok l).
Context (page_pos : (0 < page_size o)%nat) (window_pos : (0 < window_size o)%nat).

#[local] Abbreviation in_u64 content := (N.of_nat (length content) <= u64_max)%N.
#[local] Abbreviation ready content src := (ready l content src d o (data_start l d content)).

Lemma ready_answers content src r : serves content src -> in_u64 content ->
  ready content src r -> answers_for l content src r.
Proof.
  intros Hserves Hlen Hr. split.
  - intros p b. unfold read_page_with_bytes.
    pose proof (read_page_keeping_ready l content src Hserves d o _ page_pos window_pos
      (data_start_le l d content) Hlen p b r Hr) as Hread.
    destruct (read_page_keeping p b r) as [r' [[page bytes]|h]]; simpl; tauto.
  - destruct Hr as (_ & _ & _ & _ & m & _ & _ & _ & Hix & Htot). unfold record_count.
    destruct (total_records r); [by apply Htot|done].
Qed.

Lemma open_ready content src r : serves content src -> in_u64 content -> open src d o = Ok r ->
  ready content src r /\ header_right (SourceError:=SourceError) l d content r.
Proof.
  intros Hserves Hlen. unfold open. rewrite layout_ok.
  set (r0 := mkReader _ _ _ _ _ _ _ _ _ _ _ _ _).
  pose proof (prepare_with l d o content src Hserves page_pos window_pos Hlen (fun _ => True) r0) as Hp.
  destruct (prepare r0) as [r' [u|h]]; [|done]. intros [= <-]. by apply Hp.
Qed.

Lemma reached_ready content src r : serves content src -> in_u64 content -> reached src r ->
  ready content src r.
Proof.
  intros Hserves Hlen. induction 1 as [r Ho|r op _ IH]; [by apply (open_ready content src r)|].
  destruct op as [p b|offset|p]; simpl.
  - unfold read_page_with_bytes.
    pose proof (read_page_keeping_ready l content src Hserves d o _ page_pos window_pos
      (data_start_le l d content) Hlen p b r IH) as Hread.
    destruct (read_page_keeping p b r) as [r' [[page bytes]|h]]; simpl; tauto.
  - pose proof (invalidate_from_offset_ready l d o content src Hserves page_pos window_pos Hlen offset r IH) as Hi.
    destruct (invalidate_from_offset offset r) as [r' [u|h]]; simpl; tauto.
  - pose proof (invalidate_from_page_ready l d o content src Hserves page_pos window_pos Hlen p r IH) as Hi.
    destruct (invalidate_from_page p r) as [r' [u|h]]; simpl; tauto.
Qed.

(** C34: whatever pages were read or forgotten before, in whatever window, and
    whichever calls of the source failed, a page that is read holds the records
    of the content with its number, with their places and the leading bytes that
    fit the budget; the number of records is exact once the end was seen; and a
    call fails only with an error the source gave. A reader that was opened has the
    content's header. The mark, the header and the records divide the content. *)
Theorem pages_are_those_of_the_content content src r :
  serves content src -> in_u64 content -> reached src r ->
  answers_for l content src r /\
  (open src d o = Ok r -> header_right (SourceError:=SourceError) l d content r) /\
  take (mark_length d content) content ++
    concat (option_list (header_record l d content) ++ data l content (data_start l d content)) = content /\
  tiled l (option_list (header_record l d content) ++ data l content (data_start l d content)).
Proof.
  intros Hserves Hlen Hr. split; [by apply ready_answers, reached_ready|].
  split; [intros Ho; by apply (open_ready content src r)|]. rewrite data_all. unfold header_record.
  destruct (records_tiled l (drop (mark_length d content) content)) as [Ht Hc].
  assert (Hall : option_list (if d_has_header d then head (records l (drop (mark_length d content) content)) else None) ++
    drop (if d_has_header d then 1 else 0) (records l (drop (mark_length d content) content)) =
    records l (drop (mark_length d content) content)).
  { destruct (d_has_header d); [|by rewrite drop_0]. by destruct (records _ _). }
  rewrite Hall, Hc, take_drop. done.
Qed.

(** When the content changed from the start of a record on, and the record
    before it still ends there, invalidating from that offset leaves the reader
    with the pages of the new content. *)
Theorem invalidated_reader_reads_the_new_content content content' src src' r offset k :
  serves content src -> in_u64 content -> reached src r ->
  serves content' src' -> in_u64 content' -> changed_at l d content content' offset k ->
  match invalidate_from_offset offset (set_source src' r) with
  | (r', Ok _) => answers_for l content' src' r'
  | (_, Err h) => source_failed src' h
  end.
Proof.
  intros Hserves Hlen Hr Hserves' Hlen' Hch.
  pose proof (invalidate_changed l d o page_pos window_pos content content' src src' Hserves' Hlen Hlen'
    offset k Hch r (reached_ready content src r Hserves Hlen Hr)) as Hi.
  destruct (invalidate_from_offset offset (set_source src' r)) as [r' [u|h]]; [|done].
  by apply ready_answers.
Qed.

End Theorems.

(** ** Concrete readers *)

(** A source in memory whose call number [broken] fails. *)
Definition memory_source (broken : nat) (content : list N) : ByteSource (SourceError:=unit) :=
  mkSource (fun n => if Nat.eqb n broken then Err tt else Ok (length content))
    (fun n start end_ => if Nat.eqb n broken then Err tt else Ok (take (end_ - start) (drop start content))).

Lemma memory_serves broken content : serves content (memory_source broken content).
Proof. intros n. split; [|intros start end_ _]; simpl; by destruct (Nat.eqb n broken). Qed.

Definition demo_dialect (header : bool) : Dialect := mkDialect (ch ";") (Some 34%N) header 0%N.
Definition demo_options : ReaderOptions := mkOptions 1 2.
Definition demo_file : list N := text "id;name" ++ [10]%N ++ text "1;a" ++ [13; 10]%N ++ text "2;b".

Definition demo_layout : Layout := mkLayout Byte (ch ";") (Some 34%N).

Definition opened (header : bool) (src : ByteSource) : PagedReader (SourceError:=unit) :=
  match open src (demo_dialect header) demo_options with
  | Ok r => r
  | Err _ => mkReader src 0 (demo_dialect header) demo_layout demo_options 0 0 None None [] 0 None default_cursor
  end.

Lemma pages_are_those_of_the_content_witness :
  exists r : PagedReader (SourceError:=unit),
    reached (demo_dialect true) demo_options (memory_source 9 demo_file) r /\
    answers_for (demo_dialect true) demo_options demo_layout demo_file
      (memory_source 9 demo_file) r /\
    page_records (page_at demo_layout demo_file (demo_dialect true) demo_options 8 1)
      = [mkRecord (13, 16)%nat [text "2"; text "b"] false].
Proof.
  assert (Hr : reached (demo_dialect true) demo_options (memory_source 9 demo_file)
    (after_op (ReadPage 1 10) (after_op (ReadPage 1 10) (opened true (memory_source 9 demo_file))))).
  { apply reached_op, reached_op, reached_open. vm_compute. reflexivity. }
  exists (after_op (ReadPage 1 10) (after_op (ReadPage 1 10) (opened true (memory_source 9 demo_file)))).
  split; [exact Hr|]. split; [|vm_compute; reflexivity].
  refine (proj1 (pages_are_those_of_the_content (demo_dialect true) demo_options _ eq_refl
    ltac:(simpl; lia) ltac:(simpl; lia) demo_file (memory_source 9 demo_file) _
    (memory_serves _ _) ltac:(vm_compute; discriminate) Hr)).
Defined.

(** The page [p] of a reader whose content became [content] from [offset] on. *)
Definition page_after (p offset : nat) (content : list N) (r : PagedReader (SourceError:=unit)) : list DelimitedRecord :=
  match invalidate_from_offset offset (set_source (memory_source 1000 content) r) with
  | (r', Ok _) => match (read_page p r').2 with Ok page => page_records page | Err _ => [] end
  | (_, Err _) => []
  end.

Definition demo_changed : list N := take 13 demo_file ++ text "3;c;d".

Lemma invalidated_reader_reads_the_new_content_witness :
  exists r : PagedReader (SourceError:=unit),
    reached (demo_dialect true) demo_options (memory_source 1000 demo_file) r /\
    match invalidate_from_offset 13 (set_source (memory_source 1000 demo_changed) r) with
    | (r', Ok _) => answers_for (demo_dialect true) demo_options demo_layout
        demo_changed (memory_source 1000 demo_changed) r'
    | (_, Err h) => source_failed (memory_source 1000 demo_changed) h
    end.
Proof.
  assert (Hr : reached (demo_dialect true) demo_options (memory_source 1000 demo_file)
    (after_op (ReadPage 2 0) (opened true (memory_source 1000 demo_file)))).
  { apply reached_op, reached_open. vm_compute. reflexivity. }
  exists (after_op (ReadPage 2 0) (opened true (memory_source 1000 demo_file))).
  split; [exact Hr|].
  refine (invalidated_reader_reads_the_new_content (demo_dialect true) demo_options _ eq_refl
    ltac:(simpl; lia) ltac:(simpl; lia) demo_file demo_changed (memory_source 1000 demo_file)
    (memory_source 1000 demo_changed) _ 13 2
    (memory_serves _ _) ltac:(vm_compute; discriminate) Hr (memory_serves _ _) ltac:(vm_compute; discriminate) _).
  split; [reflexivity..|vm_compute; lia|reflexivity|vm_compute; lia|].
  intros r Hl. vm_compute in Hl. injection Hl as <-.
  apply (by_line_feed _ _ _ (chunks Byte (text "1;a" ++ [13%N])) 10%N [10%N] AfterCarriageReturn);
    vm_compute; reflexivity.
Defined.

(** A carriage return before the place where the content changed takes a line
    feed that the change puts there: the page start kept splits the pair. *)
Example kept_page_start_splits_a_pair :
  let before := text "a" ++ [13]%N ++ text "b" in
  let after := text "a" ++ [13; 10]%N ++ text "b" in
  let r := (read_page 1 (opened false (memory_source 1000 before))).1 in
  take 2 after = take 2 before /\
  map fields (page_after 1 2 after r) = [[[]]] /\
  map fields (page_records (page_at demo_layout after (demo_dialect false) demo_options 0 1)) = [[text "b"]].
Proof. vm_compute. done. Qed.

(** A file of a mark alone that gains records: its header is read as data. *)
Example late_header_is_read_as_data :
  let before := [239; 187; 191]%N in
  let after := before ++ text "name" ++ [10]%N ++ text "x" in
  let r := opened true (memory_source 1000 before) in
  map fields (page_after 0 3 after r) = [[text "name"]] /\
  map fields (page_records (page_at demo_layout after (demo_dialect true) demo_options 8 0)) = [[text "x"]].
Proof. vm_compute. done. Qed.
