(* ===== verification/DelimitedWriter.v ===== *)
(** * The writer of delimited files (crates/dbflux_delimited: writer.rs)

    The writer copies a source to a sink with a set of edits applied: records
    that were not edited are copied byte for byte, the others are rendered.  The
    plan of the edits is made and checked before anything is written.  A sink is
    a function of the number of writes made before, so any write can fail; what
    it received is a list of bytes. *)

From S2P Require Import Prelude RustStr RustChar DelimitedScan PagedReader.

Module DelimitedWriter.
Import Delimited PagedReader.

Section Writer.
Context `{EncodingLib} {SourceError SinkError : Type}.

#[local] Abbreviation ReadError := (@ReadError SourceError).

Definition Range : Type := nat * nat.

Inductive InsertPosition : Type :=
| Before (r : Range)
| End_.

Record Replacement := mkReplacement { rp_range : Range; rp_fields : list (list char) }.
Record Insertion := mkInsertion { in_position : InsertPosition; in_fields : list (list char) }.
Record AppendedColumn := mkColumn {
  ac_header : list char;
  ac_default_value : list char;
  ac_values : list (Range * list char);
}.

Record EditSet := mkEdits {
  es_source_length : nat;
  replacements : list Replacement;
  deletions : list Range;
  insertions : list Insertion;
  appended_columns : list AppendedColumn;
}.

Inductive EditLocation : Type :=
| Existing (r : Range)
| Inserted (index : nat)
| AtAppendedColumn (index : nat).

Inductive WriteError : Type :=
| SourceFailed (e : SourceError)
| Sink (e : SinkError)
| Read (e : ReadError)
| SourceChanged (expected actual : nat)
| RangeOutsideSource (r : Range) (source_length : nat)
| NotARecord (r : Range)
| OverlappingEdits (first second : Range)
| DuplicateEdit (r : Range)
| ReplacedAndDeleted (r : Range)
| UnencodableCharacter (record : EditLocation) (c : char) (encoding : list char)
| UnquotableField (record : EditLocation) (field : nat)
| LeadingByteOrderMark (offset : nat)
| FusedLineBreak (offset : nat)
| TruncatedCodeUnit (source_length : nat)
| UnclosedQuote (r : Range).

(** [From<ReadError>]. *)
Definition write_error (e : ReadError) : WriteError :=
  match e with Source e => SourceFailed e | e => Read e end.

(** ** Rendering *)

Record Renderer := mkRenderer { r_layout : Layout; r_encoding : Encoding }.

Definition starts_with (p : char -> bool) (t : list char) : bool :=
  match t with c :: _ => p c | [] => false end.
Definition ends_with (p : char -> bool) (t : list char) : bool :=
  match last t with Some c => p c | None => false end.

(** The bytes of a quoted field: its units, with every quote doubled. *)
Definition quoted_units (l : Layout) (q : N) (encoded : list N) : list N :=
  push_unit l (foldl (fun bytes unit =>
    push_unit l (if (unit =? q)%N then push_unit l bytes q else bytes) unit)
    (push_unit l [] q) (map fst (chunks (width l) encoded))) q.

Definition field (r : Renderer) (rendered : list N) (t : list char) (is_only_field : bool)
    (location : EditLocation) (index : nat) : result (list N) WriteError :=
  match encode_text t (r_encoding r) with
  | Err (_, c) => Err (UnencodableCharacter location c (encoding_name (r_encoding r)))
  | Ok encoded =>
      let l := r_layout r in
      let has_structural_unit := existsb (fun u => (u =? delimiter l)%N || bool_decide (Some u = quote l) ||
        (u =? LINE_FEED)%N || (u =? CARRIAGE_RETURN)%N) (map fst (chunks (width l) encoded)) in
      let is_padded := starts_with is_whitespace t || ends_with is_whitespace t in
      let is_only_and_empty := is_only_field && bool_decide (t = []) in
      let starts_like_a_mark := starts_with (fun c => c =? 65279)%N t in
      match quote l with
      | None =>
          if has_structural_unit || is_only_and_empty || starts_like_a_mark
          then Err (UnquotableField location index) else Ok (rendered ++ encoded)
      | Some q =>
          if negb (has_structural_unit || is_padded || is_only_and_empty || starts_like_a_mark)
          then Ok (rendered ++ encoded)
          else Ok (rendered ++ quoted_units l q encoded)
      end
  end.

(** The loop of [record] over the fields, from the field number [index]. *)
Fixpoint render_fields (r : Renderer) (only : bool) (location : EditLocation) (index : nat)
    (rendered : list N) (fs : list (list char)) : result (list N) WriteError :=
  match fs with
  | [] => Ok rendered
  | f :: fs' =>
      let rendered := if Nat.ltb 0 index then push_unit (r_layout r) rendered (delimiter (r_layout r)) else rendered in
      let? rendered := field r rendered f only location index in
      render_fields r only location (S index) rendered fs'
  end.

Definition render (r : Renderer) (fs : list (list char)) (location : EditLocation) : result (list N) WriteError :=
  match fs with
  | [] => field r [] [] true location 0
  | _ => render_fields r (Nat.eqb (length fs) 1) location 0 [] fs
  end.

Definition appended_field (r : Renderer) (rendered : list N) (t : list char) (location : EditLocation)
  : result (list N) WriteError :=
  field r (push_unit (r_layout r) rendered (delimiter (r_layout r))) t false location 0.

Definition renderer_for_dialect (d : Dialect) : result Renderer WriteError :=
  match for_dialect d with
  | Ok l => Ok (mkRenderer l (d_encoding d))
  | Err e => Err (Read (BadDialect e))
  end.

Definition render_record (fs : list (list char)) (d : Dialect) (location : EditLocation) : result (list N) WriteError :=
  let? r := renderer_for_dialect d in render r fs location.

Fixpoint append_all (r : Renderer) (location : EditLocation) (rendered : list N) (values : list (list char))
  : result (list N) WriteError :=
  match values with
  | [] => Ok rendered
  | v :: values' => let? rendered := appended_field r rendered v location in append_all r location rendered values'
  end.

Definition render_appended_fields (values : list (list char)) (d : Dialect) (location : EditLocation)
  : result (list N) WriteError :=
  let? r := renderer_for_dialect d in append_all r location [] values.

(** ** The plan *)

Inductive Action : Type :=
| Keep
| Replace (rendered : list N)
| Delete.

Record RecordPlan := mkPlanned {
  p_end : nat;
  inserted_before : list (list N);
  action : Action;
  appended : option (list N);
  p_terminator : list N;
}.

Record AppendedFields := mkAppended { a_header : list N; a_default : list N }.

(** [BTreeMap<u64, _>]: the entries in the order of their keys. *)
Definition Ordered (A : Type) : Type := list (nat * A).

Fixpoint ordered_get {A} (k : nat) (m : Ordered A) : option A :=
  match m with
  | [] => None
  | (k', x) :: m' => if Nat.eqb k k' then Some x else ordered_get k m'
  end.

Fixpoint ordered_put {A} (k : nat) (x : A) (m : Ordered A) : Ordered A :=
  match m with
  | [] => [(k, x)]
  | (k', x') :: m' =>
      if Nat.eqb k k' then (k, x) :: m'
      else if Nat.ltb k k' then (k, x) :: m
      else (k', x') :: ordered_put k x m'
  end.

Record Plan := mkPlan {
  pl_records : Ordered RecordPlan;
  inserted_at_end : list (list N);
  pl_appended : option AppendedFields;
}.

Definition set_action (a : Action) (p : RecordPlan) : RecordPlan :=
  mkPlanned (p_end p) (inserted_before p) a (appended p) (p_terminator p).
Definition insert_before (x : list N) (p : RecordPlan) : RecordPlan :=
  mkPlanned (p_end p) (inserted_before p ++ [x]) (action p) (appended p) (p_terminator p).
Definition set_appended (x : list N) (p : RecordPlan) : RecordPlan :=
  mkPlanned (p_end p) (inserted_before p) (action p) (Some x) (p_terminator p).
Definition set_terminator (t : list N) (p : RecordPlan) : RecordPlan :=
  mkPlanned (p_end p) (inserted_before p) (action p) (appended p) t.

(** [planned_record]: the records with an entry for the range, and the entry. *)
Definition planned_record (records : Ordered RecordPlan) (bounds range : Range)
  : result (Ordered RecordPlan * RecordPlan) WriteError :=
  if Nat.leb range.2 range.1 || Nat.ltb bounds.2 range.2 then Err (RangeOutsideSource range bounds.2)
  else if Nat.ltb range.1 bounds.1 then Err (NotARecord range)
  else
    let record := default (mkPlanned range.2 [] Keep None []) (ordered_get range.1 records) in
    if Nat.eqb (p_end record) range.2
    then Ok (ordered_put range.1 record records, record)
    else Err (OverlappingEdits (range.1, p_end record) range).

Section Build.
Context (r : Renderer) (bounds : Range).

Fixpoint plan_replacements (records : Ordered RecordPlan) (l : list Replacement)
  : result (Ordered RecordPlan) WriteError :=
  match l with
  | [] => Ok records
  | rp :: l' =>
      let? p := planned_record records bounds (rp_range rp) in
      match action p.2 with
      | Keep =>
          let? rendered := render r (rp_fields rp) (Existing (rp_range rp)) in
          plan_replacements (ordered_put (rp_range rp).1 (set_action (Replace rendered) p.2) p.1) l'
      | _ => Err (DuplicateEdit (rp_range rp))
      end
  end.

Fixpoint plan_deletions (records : Ordered RecordPlan) (l : list Range)
  : result (Ordered RecordPlan) WriteError :=
  match l with
  | [] => Ok records
  | range :: l' =>
      let? p := planned_record records bounds range in
      match action p.2 with
      | Keep => plan_deletions (ordered_put range.1 (set_action Delete p.2) p.1) l'
      | Replace _ => Err (ReplacedAndDeleted range)
      | Delete => Err (DuplicateEdit range)
      end
  end.

(** The records, and the records to write after the last one. *)
Fixpoint plan_insertions (index : nat) (records : Ordered RecordPlan) (at_end : list (list N)) (l : list Insertion)
  : result (Ordered RecordPlan * list (list N)) WriteError :=
  match l with
  | [] => Ok (records, at_end)
  | ins :: l' =>
      let? rendered := render r (in_fields ins) (Inserted index) in
      match in_position ins with
      | Before range =>
          let? p := planned_record records bounds range in
          plan_insertions (S index) (ordered_put range.1 (insert_before rendered p.2) p.1) at_end l'
      | End_ => plan_insertions (S index) records (at_end ++ [rendered]) l'
      end
  end.

(** The values of one column: an entry for each range, and the slot filled. *)
Definition OwnValues : Type := Ordered (Range * list (option (list char))).

Fixpoint plan_values (columns index : nat) (records : Ordered RecordPlan) (own : OwnValues)
    (l : list (Range * list char)) : result (Ordered RecordPlan * OwnValues) WriteError :=
  match l with
  | [] => Ok (records, own)
  | (range, value) :: l' =>
      let? p := planned_record records bounds range in
      let entry := default (range, repeat None columns) (ordered_get range.1 own) in
      match entry.2 !! index with
      | Some None =>
          plan_values columns index p.1 (ordered_put range.1 (entry.1, <[index := Some value]> entry.2) own) l'
      | _ => Err (DuplicateEdit range)
      end
  end.

(** The loop over the columns. *)
Fixpoint plan_columns (columns : nat) (has_header : bool) (index : nat) (fields : AppendedFields)
    (records : Ordered RecordPlan) (own : OwnValues) (l : list AppendedColumn)
  : result (AppendedFields * Ordered RecordPlan * OwnValues) WriteError :=
  match l with
  | [] => Ok (fields, records, own)
  | c :: l' =>
      let? header :=
        if has_header then appended_field r (a_header fields) (ac_header c) (AtAppendedColumn index)
        else Ok (a_header fields) in
      let? default_ := appended_field r (a_default fields) (ac_default_value c) (AtAppendedColumn index) in
      let? p := plan_values columns index records own (ac_values c) in
      plan_columns columns has_header (S index) (mkAppended header default_) p.1 p.2 l'
  end.

(** The fields of one record, its own values where it has them. *)
Fixpoint own_fields (range : Range) (is_header : bool) (index : nat) (rendered : list N)
    (columns : list AppendedColumn) (values : list (option (list char))) : result (list N) WriteError :=
  match columns, values with
  | c :: columns', v :: values' =>
      let? rendered :=
        match v with
        | Some value => appended_field r rendered value (Existing range)
        | None => appended_field r rendered (if is_header then ac_header c else ac_default_value c)
                    (AtAppendedColumn index)
        end in
      own_fields range is_header (S index) rendered columns' values'
  | _, _ => Ok rendered
  end.

Fixpoint plan_own (columns : list AppendedColumn) (header_start : option nat) (records : Ordered RecordPlan)
    (own : OwnValues) : result (Ordered RecordPlan) WriteError :=
  match own with
  | [] => Ok records
  | (_, (range, values)) :: own' =>
      let? p := planned_record records bounds range in
      match action p.2 with
      | Keep =>
          let? rendered := own_fields range (bool_decide (header_start = Some range.1)) 0 [] columns values in
          plan_own columns header_start (ordered_put range.1 (set_appended rendered p.2) p.1) own'
      | _ => plan_own columns header_start p.1 own'
      end
  end.

Definition plan_appended_columns (columns : list AppendedColumn) (header_start : option nat)
    (records : Ordered RecordPlan) : result (Ordered RecordPlan * option AppendedFields) WriteError :=
  match columns with
  | [] => Ok (records, None)
  | _ =>
      let? p := plan_columns (length columns) (bool_decide (is_Some header_start)) 0 (mkAppended [] [])
        records [] columns in
      let '(fields, records, own) := p in
      let? records := plan_own columns header_start records own in
      Ok (records, Some fields)
  end.

Fixpoint check_overlaps (previous : option Range) (l : Ordered RecordPlan) : result unit WriteError :=
  match l with
  | [] => Ok tt
  | (start, p) :: l' =>
      match previous with
      | Some previous' =>
          if Nat.ltb start previous'.2 then Err (OverlappingEdits previous' (start, p_end p))
          else check_overlaps (Some (start, p_end p)) l'
      | None => check_overlaps (Some (start, p_end p)) l'
      end
  end.

Definition build (edits : EditSet) (header_start : option nat) : result Plan WriteError :=
  let? records := plan_replacements [] (replacements edits) in
  let? records := plan_deletions records (deletions edits) in
  let? p := plan_insertions 0 records [] (insertions edits) in
  let? a := plan_appended_columns (appended_columns edits) header_start p.1 in
  let? checked := check_overlaps None a.1 in
  Ok (mkPlan a.1 p.2 a.2).

End Build.

Definition final_record_is (bounds : Range) (matches : Action -> bool) (records : Ordered RecordPlan) : bool :=
  existsb (fun p => Nat.eqb (p_end p.2) bounds.2 && matches (action p.2)) records.

Definition is_delete (a : Action) : bool := match a with Delete => true | _ => false end.
Definition is_keep (a : Action) : bool := match a with Keep => true | _ => false end.

(** ** Terminators *)

Definition unit_from_end (l : Layout) (bytes : list N) (count : nat) : option N :=
  if Nat.ltb (length bytes) (count * unit_size l) then None
  else unit_at l bytes (length bytes - count * unit_size l).

Definition terminator_length (l : Layout) (bytes : list N) : nat :=
  if negb (Nat.eqb (Nat.modulo (length bytes) (unit_size l)) 0) then 0
  else
    match unit_from_end l bytes 1 with
    | Some u =>
        if (u =? LINE_FEED)%N && bool_decide (unit_from_end l bytes 2 = Some CARRIAGE_RETURN)
        then 2 * unit_size l
        else if (u =? LINE_FEED)%N || (u =? CARRIAGE_RETURN)%N then unit_size l else 0
    | None => 0
    end.

Definition terminator_bytes (l : Layout) (bytes : list N) : list N :=
  drop (length bytes - terminator_length l bytes) bytes.

(** ** Writing *)

(** A call that stops, as for the reader. *)
Inductive WriteHalt : Type :=
| WriteFailed (e : WriteError)
| WriteUnfinished.

Definition write_halt (h : Halt) : WriteHalt :=
  match h with Failed e => WriteFailed (write_error e) | Unfinished => WriteUnfinished end.

(** The sink so far, with the numbers of calls of the source and of writes. *)
Record Output := mkOutput {
  o_calls : nat;
  o_writes : nat;
  o_sink : list N;
  last_bytes : list N;
  written : nat;
}.

Section Output.
Context (source : ByteSource (SourceError:=SourceError)) (sink_fails : nat -> option SinkError)
  (l : Layout) (window_size : nat).

Definition Wr (A : Type) : Type := SM Output WriteHalt A.

Definition stop {A} (e : WriteError) : Wr A := sm_err (WriteFailed e).

Definition write (bytes : list N) : Wr unit := fun o =>
  match sink_fails (o_writes o) with
  | Some e => (mkOutput (o_calls o) (S (o_writes o)) (o_sink o) (last_bytes o) (written o), Err (WriteFailed (Sink e)))
  | None =>
      let extended := last_bytes o ++ bytes in
      (mkOutput (o_calls o) (S (o_writes o)) (o_sink o ++ bytes)
         (drop (length extended - unit_size l) extended) (written o + length bytes), Ok tt)
  end.

Definition flush : Wr unit := fun o =>
  match sink_fails (o_writes o) with
  | Some e => (o, Err (WriteFailed (Sink e)))
  | None => (o, Ok tt)
  end.

Definition read (start end_ : nat) : Wr (list N) := fun o =>
  let o' := mkOutput (S (o_calls o)) (o_writes o) (o_sink o) (last_bytes o) (written o) in
  match read_range source (o_calls o) start end_ with
  | Err e => (o', Err (WriteFailed (SourceFailed e)))
  | Ok bytes =>
      if Nat.eqb (length bytes) (end_ - start) then (o', Ok bytes)
      else (o', Err (WriteFailed (Read (UnexpectedReadLength start end_ (length bytes)))))
  end.

Definition ends_with_carriage_return (o : Output) : bool :=
  Nat.eqb (Nat.modulo (written o) (unit_size l)) 0 &&
  bool_decide (unit_at l (last_bytes o) 0 = Some CARRIAGE_RETURN).

(** The copying loop of [copy]; every round copies at least one byte. *)
Fixpoint copy_windows (rounds position end_ : nat) : Wr unit :=
  if Nat.ltb position end_ then
    match rounds with
    | O => sm_err WriteUnfinished
    | S rounds' =>
        let next := Nat.min (position + window_size) end_ in
        bytes ← read position next;
        _ ← write bytes;
        copy_windows rounds' next end_
    end
  else mret tt.

(** The pair of quotes before a line feed that would join a carriage return. *)
Definition keep_empty_record (start end_ : nat) : Wr unit :=
  o ← sm_get;
  if Nat.ltb start end_ && ends_with_carriage_return o then
    first_bytes ← read start (Nat.min (start + unit_size l) end_);
    if bool_decide (unit_at l first_bytes 0 = Some LINE_FEED) then
      match quote l with
      | None => stop (FusedLineBreak start)
      | Some q => write (push_unit l (push_unit l [] q) q)
      end
    else mret tt
  else mret tt.

Definition copy (start end_ : nat) : Wr unit :=
  _ ← keep_empty_record start end_;
  copy_windows (end_ - start) start end_.

Fixpoint write_each (terminator : list N) (inserted : list (list N)) : Wr unit :=
  match inserted with
  | [] => mret tt
  | record :: inserted' =>
      _ ← write record;
      _ ← write terminator;
      write_each terminator inserted'
  end.

Definition write_inserted (inserted : list (list N)) (terminator fallback : list N) : Wr unit :=
  write_each (match terminator with [] => fallback | _ => terminator end) inserted.

(** The loop of [write_by_range] from [position] on. *)
Fixpoint write_by_range (position : nat) (records : Ordered RecordPlan) (source_length : nat) (fallback : list N)
  : Wr unit :=
  match records with
  | [] => copy position source_length
  | (start, record) :: records' =>
      _ ← copy position start;
      _ ← write_inserted (inserted_before record) (p_terminator record) fallback;
      match action record with
      | Keep => write_by_range start records' source_length fallback
      | Replace rendered =>
          _ ← write rendered;
          _ ← write (p_terminator record);
          write_by_range (p_end record) records' source_length fallback
      | Delete => write_by_range (p_end record) records' source_length fallback
      end
  end.

Definition write_extended (range : Range) (bytes content fields terminator : list N) : Wr unit :=
  if ends_inside_quotes l bytes then stop (UnclosedQuote range)
  else
    _ ← write content;
    _ ← write fields;
    write terminator.

(** What [write_by_record] does with one record of the source. *)
Definition visit_record (appended_fields : AppendedFields) (header_start : option nat) (fallback : list N)
    (start : nat) (bytes : list N) (records : Ordered RecordPlan) : Wr (Ordered RecordPlan) :=
  let range := (start, start + length bytes)%nat in
  let content_length := (length bytes - terminator_length l bytes)%nat in
  let content := take content_length bytes in
  let terminator := drop content_length bytes in
  let inherited := if bool_decide (header_start = Some start) then a_header appended_fields
                   else a_default appended_fields in
  match ordered_get start records with
  | None => _ ← write_extended range bytes content inherited terminator; mret records
  | Some record =>
      let records' := List.filter (fun p => negb (Nat.eqb p.1 start)) records in
      if negb (Nat.eqb (p_end record) range.2) then stop (NotARecord (start, p_end record))
      else
        _ ← write_inserted (inserted_before record) terminator fallback;
        _ ← match action record with
            | Keep => write_extended range bytes content (default inherited (appended record)) terminator
            | Replace rendered => _ ← write rendered; write terminator
            | Delete => mret tt
            end;
        mret records'
  end.

(** [visit_raw_records] with that visitor; every record takes a byte. *)
Fixpoint write_by_record (rounds : nat) (appended_fields : AppendedFields) (header_start : option nat)
    (fallback : list N) (s : PagedReader * Cursor) (records : Ordered RecordPlan) : Wr unit :=
  match rounds with
  | O => sm_err WriteUnfinished
  | S rounds' => fun o =>
      let '((r, c), found) := next_record (set_calls (o_calls o) s.1, s.2) in
      let o := mkOutput (calls r) (o_writes o) (o_sink o) (last_bytes o) (written o) in
      match found with
      | Err h => (o, Err (write_halt h))
      | Ok None =>
          match records with
          | (start, record) :: _ => (o, Err (WriteFailed (NotARecord (start, p_end record))))
          | [] => (o, Ok tt)
          end
      | Ok (Some n) =>
          (records' ← visit_record appended_fields header_start fallback (cursor_offset c) (take n (remaining c)) records;
           write_by_record rounds' appended_fields header_start fallback (r, consume n c) records') o
      end
  end.

(** ** Checks before writing *)

Definition terminator_of (range : Range) : Wr (list N) :=
  if Nat.leb range.2 range.1 || negb (Nat.eqb (Nat.modulo (range.2 - range.1) (unit_size l)) 0) then mret []
  else
    tail ← read (Nat.max (range.2 - 2 * unit_size l) range.1) range.2;
    mret (terminator_bytes l tail).

Definition check_record_boundaries (range bounds : Range) : Wr (list N) :=
  if negb (Nat.eqb (Nat.modulo (range.1 - bounds.1) (unit_size l)) 0) then stop (NotARecord range)
  else
    let lead := if Nat.eqb range.1 bounds.1 then 0%nat else unit_size l in
    let read_end := Nat.min (range.2 + unit_size l) bounds.2 in
    bytes ← read (range.1 - lead) read_end;
    if Nat.ltb (length bytes) lead then stop (NotARecord range)
    else
      let before := take lead bytes in
      let record := drop lead bytes in
      let previous := unit_at l before 0 in
      let first := unit_at l record 0 in
      let follows_a_line_break :=
        bool_decide (previous = Some LINE_FEED) || bool_decide (previous = Some CARRIAGE_RETURN) in
      let splits_a_pair :=
        bool_decide (previous = Some CARRIAGE_RETURN) && bool_decide (first = Some LINE_FEED) in
      if Nat.ltb 0 lead && (negb follows_a_line_break || splits_a_pair) then stop (NotARecord range)
      else
        match record_length l record (Nat.leb bounds.2 read_end) with
        | Some length =>
            if Nat.eqb length (range.2 - range.1) then mret (terminator_bytes l (take length record))
            else stop (NotARecord range)
        | None => stop (NotARecord range)
        end.

Fixpoint check_records (bounds : Range) (records : Ordered RecordPlan) : Wr (Ordered RecordPlan) :=
  match records with
  | [] => mret []
  | (start, record) :: records' =>
      terminator ← check_record_boundaries (start, p_end record) bounds;
      rest ← check_records bounds records';
      mret ((start, set_terminator terminator record) :: rest)
  end.

(** The first record that is copied, when no rendered one comes before it; a
    round for every planned record that is deleted. *)
Fixpoint first_copied (rounds : nat) (records : Ordered RecordPlan) (position : nat) : option nat :=
  match ordered_get position records with
  | None => Some position
  | Some record =>
      if negb (bool_decide (inserted_before record = [])) then None
      else
        match action record with
        | Delete => match rounds with O => None | S rounds' => first_copied rounds' records (p_end record) end
        | Keep => Some position
        | Replace _ => None
        end
  end.

Definition check_first_record (records : Ordered RecordPlan) (bounds : Range) (mark : list N) : Wr unit :=
  if negb (Nat.eqb bounds.1 0) || bool_decide (mark = []) then mret tt
  else
    match first_copied (length records) records 0 with
    | None => mret tt
    | Some position =>
        if Nat.eqb position 0 || Nat.leb bounds.2 position then mret tt
        else
          first ← read position (Nat.min (position + length mark) bounds.2);
          if bool_decide (first = mark) then stop (LeadingByteOrderMark position) else mret tt
    end.

Definition check_before_writing (plan : Plan) (bounds : Range) (mark : list N) : Wr Plan :=
  let ends_inside_a_unit := negb (Nat.eqb (Nat.modulo (bounds.2 - bounds.1) (unit_size l)) 0) in
  let has_edits := negb (bool_decide (length (pl_records plan) = 0%nat)) ||
    negb (bool_decide (inserted_at_end plan = [])) || bool_decide (is_Some (pl_appended plan)) in
  let final_record_is_rewritten := final_record_is bounds (fun a => negb (is_keep a)) (pl_records plan) in
  if ends_inside_a_unit && has_edits && negb final_record_is_rewritten then stop (TruncatedCodeUnit bounds.2)
  else
    records ← check_records bounds (pl_records plan);
    _ ← check_first_record records bounds mark;
    mret (mkPlan records (inserted_at_end plan) (pl_appended plan)).

(** The terminator of the first record, or a line feed. *)
Definition first_terminator (r : PagedReader) : Wr (list N) := fun o =>
  let '(r', first) :=
    match header r with
    | Some h => (r, Ok (Some (byte_range h)))
    | None =>
        match read_page 0 (set_calls (o_calls o) r) with
        | (r', Ok page) => (r', Ok (byte_range <$> head (page_records page)))
        | (r', Err h) => (r', Err (write_halt h))
        end
    end in
  let o := mkOutput (Nat.max (o_calls o) (calls r')) (o_writes o) (o_sink o) (last_bytes o) (written o) in
  match first with
  | Err h => (o, Err h)
  | Ok first =>
      (terminator ← match first with Some range => terminator_of range | None => mret [] end;
       mret (match terminator with [] => push_unit l [] LINE_FEED | _ => terminator end)) o
  end.

(** The records inserted at the end, after the terminator the final record may lack. *)
Definition write_at_end (bounds : Range) (final_record_deleted : bool) (fallback : list N)
    (inserted : list (list N)) : Wr unit :=
  match inserted with
  | [] => mret tt
  | _ =>
      terminator ← terminator_of bounds;
      match terminator with
      | [] =>
          _ ← (if Nat.ltb bounds.1 bounds.2 && negb final_record_deleted then write fallback else mret tt);
          write_inserted inserted fallback fallback
      | _ => write_inserted inserted terminator terminator
      end
  end.

(** [write_edited] on an opened reader. *)
Definition write_plan (d : Dialect) (edits : EditSet) (reader : PagedReader) : Wr unit :=
  let bounds := (byte_order_mark_length reader, PagedReader.source_length reader) in
  let header_start := (fun h => (byte_range h).1) <$> header reader in
  if negb (Nat.eqb (es_source_length edits) bounds.2) then stop (SourceChanged (es_source_length edits) bounds.2)
  else
    match build (mkRenderer l (d_encoding d)) bounds edits header_start with
    | Err e => stop e
    | Ok plan =>
        let final_record_deleted := final_record_is bounds is_delete (pl_records plan) in
        plan ← check_before_writing plan bounds (byte_order_mark (d_encoding d));
        fallback ← (match insertions edits with [] => mret [] | _ => first_terminator reader end);
        _ ← (match pl_appended plan with
             | Some appended_fields =>
                 _ ← copy 0 bounds.1;
                 write_by_record (S bounds.2) appended_fields header_start fallback
                   (reader, cursor_at bounds.1) (pl_records plan)
             | None => write_by_range 0 (pl_records plan) bounds.2 fallback
             end);
        _ ← write_at_end bounds final_record_deleted fallback (inserted_at_end plan);
        flush
    end.

End Output.

(** [write_edited]: what the sink received, and the result. *)
Definition write_edited (source : ByteSource (SourceError:=SourceError)) (sink_fails : nat -> option SinkError)
    (d : Dialect) (edits : EditSet) (window : nat) : Output * result unit WriteHalt :=
  match open source d (mkOptions 1 window) with
  | Err h => (mkOutput 0 0 [] [] 0, Err (write_halt h))
  | Ok reader =>
      write_plan source sink_fails (layout reader) window d edits reader
        (mkOutput (calls reader) 0 [] [] 0)
  end.

End Writer.
End DelimitedWriter.
