(* ===== verification/DelimitedRender.v ===== *)
(** * Properties of rendered records

    A rendered field is scanned as one field whose value is the encoded text, and
    a rendered record followed by a terminator is one record with the fields it
    was rendered from. *)

From S2P Require Import Prelude RustStr RustChar DelimitedScan DelimitedScanProps PagedReader DelimitedWriter.

Import Delimited DelimitedWriter.

Section Units.
Context (l : Layout).

#[local] Abbreviation units := (chunks (width l)).
#[local] Abbreviation half := (stray (width l)).

(** The bytes of a unit, for a unit that has them. *)
Definition unit_bytes (u : N) : list N := push_unit l [] u.
Definition unit_ok (u : N) : Prop := match width l with Byte => (u < 256)%N | _ => True end.

Lemma push_unit_app bytes u : push_unit l bytes u = bytes ++ unit_bytes u.
Proof. done. Qed.

Lemma units_of_unit u : unit_ok u -> units (unit_bytes u) = [(u, unit_bytes u)] /\ half (unit_bytes u) = [].
Proof.
  unfold unit_ok, unit_bytes, push_unit. destruct (width l) eqn:Hw; simpl; intros Hu.
  - by destruct (N.ltb_spec u 256); [|lia].
  - split; [|done]. do 3 f_equal. rewrite N.mul_comm, N.add_comm. by rewrite N.add_comm, <- N.div_mod.
  - split; [|done]. do 3 f_equal. rewrite N.mul_comm. by rewrite <- N.div_mod.
Qed.

Lemma unit_then u more : unit_ok u ->
  units (unit_bytes u ++ more) = (u, unit_bytes u) :: units more /\ half (unit_bytes u ++ more) = half more.
Proof.
  intros Hu. destruct (units_of_unit u Hu) as [Hc Hs]. by rewrite chunks_whole, stray_whole, Hc.
Qed.

(** In bytes, every unit has its own bytes. *)
Definition chunk_ok (c : N * list N) : Prop := unit_ok c.1 /\ c.2 = unit_bytes c.1.

Lemma units_ok bytes : Forall (fun b => b < 256)%N bytes -> Forall chunk_ok (units bytes).
Proof.
  unfold chunk_ok, unit_ok, unit_bytes, push_unit. destruct (width l); intros Hb.
  - induction Hb as [|b bytes Hb _ IH]; simpl; constructor; [|done]. simpl. split; [done|].
    by destruct (N.ltb_spec b 256); [|lia].
  - induction bytes as [| |a b bytes IH] using pairs_ind; simpl; [done|done|].
    inversion Hb as [|? ? Ha Hb']; inversion Hb' as [|? ? Hb1 Hb2]; subst.
    constructor; [|by apply IH]. simpl. split; [done|]. rewrite N.add_comm, N.mul_comm.
    f_equal; [|f_equal].
    + symmetry. rewrite N.add_comm, N.mul_comm, N.add_comm. rewrite N.Div0.mod_add. by apply N.mod_small.
    + rewrite (N.mul_comm 256), N.div_add by done. by rewrite N.div_small.
  - induction bytes as [| |a b bytes IH] using pairs_ind; simpl; [done|done|].
    inversion Hb as [|? ? Ha Hb']; inversion Hb' as [|? ? Hb1 Hb2]; subst.
    constructor; [|by apply IH]. simpl. split; [done|]. rewrite N.add_comm.
    f_equal; [|f_equal].
    + rewrite N.div_add by done. by rewrite N.div_small.
    + rewrite N.Div0.mod_add. by rewrite N.mod_small.
Qed.

(** ** A field *)

(** [fb] is scanned from the start of a field as one field with value [v]. *)
Definition one_field (fb v : list N) : Prop := half fb = [] /\
  exists s, s ∈ [FieldStart; Unquoted; QuoteInQuoted] /\ pass l FieldStart (units fb) = Some s /\
    forall current more tail,
      split_units l FieldStart current (units fb ++ more) tail = split_units l s (current ++ v) more tail.

Definition structural (u : N) : bool :=
  (u =? delimiter l)%N || bool_decide (Some u = quote l) || (u =? LINE_FEED)%N || (u =? CARRIAGE_RETURN)%N.

Lemma plain_step s u : s ∈ [FieldStart; Unquoted] -> structural u = false ->
  step l s u = (Literal, Unquoted).
Proof.
  unfold structural. intros Hs Hu. repeat apply orb_false_iff in Hu as [Hu ?].
  assert (Hq : bool_decide (quote l = Some u) = false).
  { apply bool_decide_eq_false. intros Heq. rewrite Heq in *. by rewrite bool_decide_eq_false in *. }
  repeat (apply elem_of_cons in Hs as [->|Hs]; [simpl; rewrite Hq; by repeat case_match|]).
  by apply elem_of_nil in Hs.
Qed.

Lemma plain_units_scan s cs current more tail : s ∈ [FieldStart; Unquoted] ->
  Forall (fun c => structural c.1 = false) cs ->
  let s' := match cs with [] => s | _ => Unquoted end in
  pass l s cs = Some s' /\
  split_units l s current (cs ++ more) tail = split_units l s' (current ++ concat (map snd cs)) more tail.
Proof.
  intros Hs Hcs. revert s current Hs. induction Hcs as [|[u b] cs Hu _ IH]; intros s current Hs.
  - simpl. by rewrite app_nil_r.
  - simpl in *. rewrite plain_step by done. destruct (IH Unquoted (current ++ b)) as [Hp Hsp].
    { apply list_elem_of_In. simpl. tauto. }
    rewrite Hp, Hsp, <- app_assoc. by destruct cs.
Qed.

Lemma plain_field v : half v = [] -> Forall (fun c => structural c.1 = false) (units v) -> one_field v v.
Proof.
  intros Hh Hv. split; [done|].
  exists (match units v with [] => FieldStart | _ => Unquoted end).
  assert (Hs : FieldStart ∈ [FieldStart; Unquoted]) by (apply list_elem_of_In; simpl; tauto).
  pose proof (chunks_concat (width l) v) as Hc. rewrite Hh, app_nil_r in Hc.
  split; [destruct (units v); apply list_elem_of_In; simpl; tauto|].
  split; [apply (plain_units_scan FieldStart (units v) [] [] []); done|].
  intros current more tail. destruct (plain_units_scan FieldStart (units v) current more tail Hs Hv) as [_ ->].
  by rewrite Hc.
Qed.

(** The quote is a unit of its own. *)
Definition quote_ok (q : N) : Prop :=
  quote l = Some q /\ unit_ok q /\ q <> LINE_FEED /\ q <> CARRIAGE_RETURN /\ q <> delimiter l.

Lemma quote_steps q : quote_ok q ->
  step l FieldStart q = (Structural, Quoted) /\ step l Quoted q = (Structural, QuoteInQuoted) /\
  step l QuoteInQuoted q = (Literal, Quoted) /\
  forall u, u <> q -> step l Quoted u = (Literal, Quoted).
Proof.
  intros (Hq & _ & H1 & H2 & H3). apply N.eqb_neq in H1, H2, H3. simpl. rewrite Hq, H1, H2, H3.
  rewrite !(bool_decide_true (Some q = Some q)) by done. simpl. repeat split.
  intros u Hu. by rewrite bool_decide_false by congruence.
Qed.

(** The units of a quoted text between its quotes. *)
Definition doubled (q : N) (cs : list (N * list N)) : list (N * list N) :=
  cs ≫= (fun c => if (c.1 =? q)%N then [(q, unit_bytes q); (q, unit_bytes q)] else [c]).

Lemma doubled_scan q cs current more tail : quote_ok q -> Forall chunk_ok cs ->
  pass l Quoted (doubled q cs) = Some Quoted /\
  split_units l Quoted current (doubled q cs ++ more) tail =
    split_units l Quoted (current ++ concat (map snd cs)) more tail.
Proof.
  intros Hq Hcs. destruct (quote_steps q Hq) as (_ & Hqq & Hqi & Hqu).
  revert current. induction Hcs as [|[u b] cs [Hu Hb] _ IH]; intros current.
  - simpl. by rewrite app_nil_r.
  - unfold doubled in *. cbn [mbind list_bind fst map snd concat] in *.
    destruct (N.eqb_spec u q) as [->|Hne]; cbn [app pass split_units].
    + rewrite Hqq, Hqi. simpl in Hb. subst b. destruct (IH (current ++ unit_bytes q)) as [-> ->].
      by rewrite <- app_assoc.
    + rewrite (Hqu u Hne). destruct (IH (current ++ b)) as [-> ->]. by rewrite <- app_assoc.
Qed.

Lemma quoted_bytes_units q v : quote_ok q -> Forall (fun b => b < 256)%N v ->
  units (quoted_units l q v) = (q, unit_bytes q) :: doubled q (units v) ++ [(q, unit_bytes q)] /\
  half (quoted_units l q v) = [].
Proof.
  intros Hq Hv. pose proof (units_ok v Hv) as Hok. pose proof Hq as (_ & Hqu & _).
  unfold quoted_units. set (f := fun bytes unit => _).
  assert (Hf : forall cs bytes, Forall chunk_ok cs -> half bytes = [] ->
    units (foldl f bytes (map fst cs)) = units bytes ++ doubled q cs /\ half (foldl f bytes (map fst cs)) = []).
  { clear v Hv Hok. induction cs as [|[u b] cs IH]; intros bytes Hcs Hh; [by simpl; rewrite app_nil_r|].
    inversion Hcs as [|? ? [Hu Hb] Hcs']; subst. simpl in Hu, Hb. subst b. cbn [map fst foldl].
    destruct (units_of_unit u Hu) as [Huc Hus]. destruct (units_of_unit q Hqu) as [Hqc Hqs].
    unfold doubled in *. cbn [mbind list_bind fst].
    assert (Hstep : units (f bytes u) = units bytes ++ (if (u =? q)%N then [(q, unit_bytes q); (q, unit_bytes q)] else [(u, unit_bytes u)])
      /\ half (f bytes u) = []).
    { unfold f. destruct (N.eqb_spec u q) as [->|Hne]; rewrite !push_unit_app.
      - rewrite <- app_assoc, chunks_whole, stray_whole by done.
        destruct (unit_then q (unit_bytes q) Hqu) as [-> ->]. by rewrite Hqc, Hqs.
      - by rewrite chunks_whole, stray_whole, Huc, Hus. }
    destruct Hstep as [Hs1 Hs2]. destruct (IH (f bytes u) Hcs' Hs2) as [-> ->]. by rewrite Hs1, <- app_assoc. }
  destruct (units_of_unit q Hqu) as [Hqc Hqs].
  destruct (Hf (units v) (unit_bytes q) Hok Hqs) as [Hu Hh]. rewrite push_unit_app. fold (unit_bytes q).
  rewrite chunks_whole, stray_whole, Hu, Hqc, Hqs by done. done.
Qed.

Lemma quoted_field q v : quote_ok q -> half v = [] -> Forall (fun b => b < 256)%N v ->
  one_field (quoted_units l q v) v.
Proof.
  intros Hq Hh Hv. destruct (quoted_bytes_units q v Hq Hv) as [Hu Hs]. split; [done|].
  exists QuoteInQuoted. split; [apply list_elem_of_In; simpl; tauto|]. rewrite Hu.
  destruct (quote_steps q Hq) as (Hf & Hqq & _ & _). pose proof (units_ok v Hv) as Hok.
  pose proof (chunks_concat (width l) v) as Hc. rewrite Hh, app_nil_r in Hc. split.
  - cbn [pass]. rewrite Hf, pass_app. destruct (doubled_scan q (units v) [] [] [] Hq Hok) as [-> _].
    change (pass l Quoted [(q, unit_bytes q)] = Some QuoteInQuoted). cbn [pass]. by rewrite Hqq.
  - intros current more tail. cbn [app split_units]. rewrite Hf, <- app_assoc.
    destruct (doubled_scan q (units v) current ([(q, unit_bytes q)] ++ more) tail Hq Hok) as [_ ->].
    cbn [app split_units]. by rewrite Hqq, Hc.
Qed.

End Units.

(** ** A record *)

Section Records.
Context `{EncodingLib} `{!EncodingLaws} {SourceError SinkError : Type} (l : Layout) (e : Encoding).

#[local] Abbreviation units := (chunks (width l)).
#[local] Abbreviation half := (stray (width l)).

(** A layout as [for_dialect] gives it, with byte values as its delimiter and quote. *)
Record layout_for : Prop := {
  layout_width : width l = width_of e;
  layout_delimiter : unit_ok l (delimiter l) /\ delimiter l <> LINE_FEED /\ delimiter l <> CARRIAGE_RETURN;
  layout_quote : forall q, quote l = Some q -> quote_ok l q;
}.

Context (layout_right : layout_for).

(** Encoding the text gives bytes that decode to it. *)
Definition decodes_back (t : list char) : Prop := forall b, encode_text t e = Ok b ->
  Forall (fun x => x < 256)%N b /\ decode_without_bom_handling e b = (t, false).

Lemma encode_whole t b : encode_text t e = Ok b -> half b = [].
Proof.
  rewrite (layout_width layout_right). unfold encode_text, width_of.
  assert (Hbyte : forall x, stray Byte x = []) by (induction x; done).
  assert (Hunits : forall w us x, w <> Byte -> stray w x = [] -> stray w (foldl (push_unit (mkLayout w 0 None)) x us) = []).
  { intros w us. induction us as [|u us IH]; intros x Hw Hx; [done|]. cbn [foldl]. apply IH; [done|].
    unfold push_unit. rewrite stray_whole by done. by destruct w. }
  pose proof utf8_not_utf16le. pose proof utf8_not_utf16be.
  repeat case_bool_decide; intros Heq; simplify_eq; try congruence; try apply Hbyte; by apply Hunits.
Qed.

(** What rendering one field gives. *)
Definition rendered_field (t : list char) (fb : list N) : Prop := exists v,
  encode_text t e = Ok v /\ one_field l fb v /\
  (fst <$> head (units fb) <> Some LINE_FEED).

Lemma field_renders rendered t only loc index x : decodes_back t ->
  field (SourceError:=SourceError) (SinkError:=SinkError) (mkRenderer l e) rendered t only loc index = Ok x ->
  exists fb, x = rendered ++ fb /\ rendered_field t fb /\ (only = true -> fb <> []).
Proof.
  intros Ht. unfold field. cbn [r_layout r_encoding].
  destruct (encode_text t e) as [v|[i c]] eqn:Henc; [|done]. pose proof (encode_whole t v Henc) as Hhalf.
  destruct (Ht v Henc) as [Hbytes _].
  set (st := existsb _ _). assert (Hst : st = existsb (structural l) (map fst (units v))) by reflexivity.
  assert (Hplain : st = false -> rendered_field t v).
  { intros Hs. rewrite Hst in Hs. assert (Hall : Forall (fun c => structural l c.1 = false) (units v)).
    { apply Forall_forall. intros c Hc. destruct (structural l c.1) eqn:Hc1; [|done].
      rewrite <- Hs. symmetry. apply existsb_exists. exists c.1. split; [|done].
      apply in_map, list_elem_of_In, Hc. }
    exists v. split; [done|]. split; [by apply plain_field|].
    destruct (units v) as [|c cs]; [done|]. simpl. intros [= Hlf]. inversion Hall as [|? ? Hc _]; subst.
    unfold structural in Hc. rewrite Hlf in Hc. by rewrite N.eqb_refl, !orb_true_r in Hc. }
  assert (Hne : st || only && bool_decide (t = []) = false -> only = true -> v <> []).
  { intros [_ Ho]%orb_false_iff -> ->. destruct t as [|c t]; [by rewrite bool_decide_true in Ho|].
    destruct (Ht [] Henc) as [_ Hd]. by rewrite decode_nothing in Hd. }
  pose proof (layout_quote layout_right) as Hq. destruct (quote l) as [q|].
  - destruct (negb _) eqn:Hn; intros [= <-].
    + apply negb_true_iff in Hn. repeat apply orb_false_iff in Hn as [Hn ?].
      exists v. split; [done|]. split; [by apply Hplain|]. apply Hne. rewrite Hn. simpl. done.
    + specialize (Hq q eq_refl). exists (quoted_units l q v). split; [done|].
      destruct (quoted_bytes_units l q v Hq Hbytes) as [Hu _]. split.
      * exists v. split; [done|]. split; [by apply quoted_field|]. rewrite Hu. simpl.
        intros [= Heq]. by destruct Hq as (_ & _ & ? & _).
      * intros _ Hnil. by rewrite Hnil in Hu; destruct (width l).
  - destruct (st || _ || _) eqn:Hn; [done|]. intros [= <-]. apply orb_false_iff in Hn as [Hn _].
    exists v. split; [done|]. apply orb_false_iff in Hn as Hn2. split; [apply Hplain; tauto|by apply Hne].
Qed.

(** The delimiter ends a field. *)
Lemma delimiter_step s : s ∈ [FieldStart; Unquoted; QuoteInQuoted] ->
  step l s (delimiter l) = (FieldEnd, FieldStart).
Proof.
  destruct (layout_delimiter layout_right) as (_ & H1%N.eqb_neq & H2%N.eqb_neq). intros Hs.
  repeat (apply elem_of_cons in Hs as [->|Hs]; [simpl; by rewrite H1, H2, N.eqb_refl|]). by apply elem_of_nil in Hs.
Qed.

(** Bytes whose scan from the start of a record ends no record: fields with
    the values [vs], the last of them in the state [s]. *)
Definition scanned (x : list N) (vs : list (list N)) : Prop := half x = [] /\
  exists firsts v s, vs = firsts ++ [v] /\ s ∈ [FieldStart; Unquoted; QuoteInQuoted] /\
    pass l FieldStart (units x) = Some s /\
    forall more tail, split_units l FieldStart [] (units x ++ more) tail = firsts ++ split_units l s v more tail.

Lemma scanned_field fb v : one_field l fb v -> scanned fb [v].
Proof.
  intros (Hh & s & Hs & Hp & Hsp). split; [done|]. exists [], v, s. split; [done|]. split; [done|].
  split; [done|]. intros more tail. by rewrite Hsp.
Qed.

Lemma scanned_snoc x vs fb v : scanned x vs -> one_field l fb v ->
  scanned (push_unit l x (delimiter l) ++ fb) (vs ++ [v]).
Proof.
  intros (Hx & firsts & v0 & s & -> & Hs & Hp & Hsp) (Hh & s' & Hs' & Hp' & Hsp').
  destruct (layout_delimiter layout_right) as (Hd & _).
  rewrite push_unit_app, <- app_assoc. split.
  - rewrite stray_whole by done. destruct (unit_then l (delimiter l) fb Hd) as [_ ->]. done.
  - exists (firsts ++ [v0]), v, s'. split; [done|]. split; [done|].
    rewrite chunks_whole by done. destruct (unit_then l (delimiter l) fb Hd) as [-> _].
    split.
    + rewrite pass_app, Hp. change (pass l s ((delimiter l, unit_bytes l (delimiter l)) :: units fb) = Some s').
      cbn [pass]. by rewrite delimiter_step.
    + intros more tail. rewrite <- app_assoc, Hsp. cbn [app split_units]. rewrite delimiter_step by done.
      by rewrite Hsp', <- app_assoc.
Qed.

#[local] Abbreviation renderer := (mkRenderer l e).
#[local] Abbreviation field := (field (SourceError:=SourceError) (SinkError:=SinkError)).
#[local] Abbreviation render := (render (SourceError:=SourceError) (SinkError:=SinkError)).

(** A rendered record: what it was rendered from. *)
Record rendered_record (fs : list (list char)) (x : list N) : Prop := {
  rendered_nonempty : x <> [];
  rendered_first : fst <$> head (units x) <> Some LINE_FEED;
  rendered_scan : exists vs, scanned x vs /\ Forall2 (fun t v => encode_text t e = Ok v) fs vs;
}.

Lemma render_fields_renders fs only loc i x0 fs0 vs0 x : Forall decodes_back fs -> (0 < i)%nat ->
  (x0 = [] -> fs <> []) -> fst <$> head (units x0) <> Some LINE_FEED -> scanned x0 vs0 ->
  Forall2 (fun t v => encode_text t e = Ok v) fs0 vs0 ->
  render_fields (SourceError:=SourceError) (SinkError:=SinkError) renderer only loc i x0 fs = Ok x ->
  rendered_record (fs0 ++ fs) x.
Proof.
  intros Hfs. revert i x0 fs0 vs0. induction Hfs as [|f fs Hf _ IH]; intros i x0 fs0 vs0 Hi Hx0 Hfirst Hscan Henc;
    cbn [render_fields].
  - intros [= <-]. rewrite app_nil_r. split; [by intros ?; apply Hx0|done|]. by exists vs0.
  - cbn [r_layout]. destruct (Nat.ltb_spec 0 i) as [_|]; [|lia].
    destruct (field _ _ _ _ _ _) as [x1|er] eqn:Hfield; [|done].
    destruct (field_renders _ _ _ _ _ _ Hf Hfield) as (fb & -> & (v & Hv & Hone & _) & _).
    intros Hrest. replace (fs0 ++ f :: fs) with ((fs0 ++ [f]) ++ fs) by by rewrite <- app_assoc.
    pose proof Hscan as [Hhalf _].
    destruct (layout_delimiter layout_right) as (Hd & Hlf & _).
    apply (IH (S i) (push_unit l x0 (delimiter l) ++ fb) (fs0 ++ [f]) (vs0 ++ [v])); [lia| | | | |exact Hrest].
    + rewrite push_unit_app. unfold unit_bytes. intros Hnil. apply app_nil in Hnil as [[_ Hnil]%app_nil _].
      destruct (units_of_unit l (delimiter l) Hd) as [Hu _]. unfold unit_bytes in Hu. rewrite Hnil in Hu.
      by destruct (width l).
    + rewrite push_unit_app, <- app_assoc, chunks_whole by done.
      destruct (unit_then l (delimiter l) fb Hd) as [-> _]. destruct (units x0); simpl; [congruence|done].
    + by apply scanned_snoc.
    + apply Forall2_app; [done|by constructor].
Qed.

Definition written_fields (fs : list (list char)) : list (list char) :=
  match fs with [] => [[]] | _ => fs end.

Lemma render_renders fs loc x : Forall decodes_back (written_fields fs) ->
  render renderer fs loc = Ok x -> rendered_record (written_fields fs) x.
Proof.
  intros Hfs. destruct fs as [|f fs]; cbn [render written_fields] in *.
  - inversion Hfs as [|? ? Hf _]; subst. intros Hfield.
    destruct (field_renders _ _ _ _ _ _ Hf Hfield) as (fb & -> & (v & Hv & Hone & Hfirst) & Hne).
    simpl. split; [by apply Hne|done|]. exists [v]. split; [by apply scanned_field|by repeat constructor].
  - inversion Hfs as [|? ? Hf Hfs']; subst. cbn [render_fields]. cbn [r_layout Nat.ltb Nat.leb].
    destruct (field _ _ _ _ _ _) as [x1|er] eqn:Hfield; [|done].
    destruct (field_renders _ _ _ _ _ _ Hf Hfield) as (fb & -> & (v & Hv & Hone & Hfirst) & Hne). simpl app.
    apply (render_fields_renders fs _ loc 1 fb [f] [v]); [done|lia| |done|by apply scanned_field|by repeat constructor].
    intros Hnil ->. by apply Hne.
Qed.

(** ** Terminators *)

Definition LF : list N := unit_bytes l LINE_FEED.
Definition CR : list N := unit_bytes l CARRIAGE_RETURN.
Definition is_terminator (t : list N) : Prop := t = LF \/ t = CR \/ t = CR ++ LF.

(** [r] is a whole record whatever follows it, but for a line feed after a
    carriage return. *)
Inductive closed (r : list N) : Prop :=
| closed_line_feed cs u b s : units r = cs ++ [(u, b)] -> half r = [] -> pass l FieldStart cs = Some s ->
    (step l s u).1 = RecordEnd -> closed r
| closed_carriage_return : half r = [] -> pass l FieldStart (units r) = Some AfterCarriageReturn -> closed r.

Definition no_line_feed (r rest : list N) : Prop :=
  pass l FieldStart (units r) = Some AfterCarriageReturn ->
  rest = [] \/ exists u, fst <$> head (units rest) = Some u /\ u <> LINE_FEED.

Lemma closed_nonempty r : closed r -> r <> [].
Proof.
  intros [cs u b s Hu _ _ _|_ Hp] ->; [|done]. destruct (app_cons_not_nil cs [] (u, b)). by rewrite <- Hu.
Qed.

Lemma closed_ends r rest : closed r -> no_line_feed r rest -> ends_record l r rest.
Proof.
  intros Hc Hrest. pose proof (closed_nonempty r Hc) as Hne. destruct Hc as [cs u b s Hu Hh Hp Hst|Hh Hp].
  - by eapply by_line_feed.
  - destruct (Hrest Hp) as [->|(u & Hu & Hlf)]; [by eapply by_source_end|by eapply by_carriage_return].
Qed.

Lemma break_units : unit_ok l LINE_FEED /\ unit_ok l CARRIAGE_RETURN.
Proof. unfold unit_ok, LINE_FEED, CARRIAGE_RETURN. destruct (width l); split; done || lia. Qed.

Lemma terminator_units t : is_terminator t -> half t = [] /\
  units t = map (fun u => (u, unit_bytes l u)) (map fst (units t)) /\
  (map fst (units t) = [LINE_FEED] \/ map fst (units t) = [CARRIAGE_RETURN] \/
   map fst (units t) = [CARRIAGE_RETURN; LINE_FEED]).
Proof.
  destruct break_units as [Hl Hc]. destruct (units_of_unit l _ Hl) as [Hlu Hlh].
  destruct (units_of_unit l _ Hc) as [Hcu Hch]. destruct (unit_then l CARRIAGE_RETURN LF Hc) as [H1 H2].
  unfold LF, CR in *. intros [-> | [-> | ->]]; unfold CR, LF; rewrite ?H1, ?H2, ?Hlu, ?Hlh, ?Hcu, ?Hch; simpl; tauto.
Qed.

Lemma break_steps s : s ∈ [FieldStart; Unquoted; QuoteInQuoted] ->
  (step l s LINE_FEED).1 = RecordEnd /\ step l s CARRIAGE_RETURN = (Structural, AfterCarriageReturn).
Proof.
  intros Hs. repeat (apply elem_of_cons in Hs as [->|Hs]; [by split|]). by apply elem_of_nil in Hs.
Qed.

Lemma terminated_closed x s t : half x = [] -> pass l FieldStart (units x) = Some s ->
  s ∈ [FieldStart; Unquoted; QuoteInQuoted] -> is_terminator t -> closed (x ++ t).
Proof.
  intros Hx Hp Hs Ht. destruct (terminator_units t Ht) as (Hh & Hmap & Hcase).
  destruct (break_steps s Hs) as [Hlf Hcr].
  assert (Hhalf : half (x ++ t) = []) by by rewrite stray_whole.
  assert (Hunits : units (x ++ t) = units x ++ units t) by by rewrite chunks_whole.
  rewrite Hmap in Hunits. destruct Hcase as [Hc| [Hc|Hc]]; rewrite Hc in Hunits; cbn [map] in Hunits.
  - by eapply closed_line_feed.
  - apply closed_carriage_return; [done|]. rewrite Hunits, pass_app, Hp.
    change (pass l s [(CARRIAGE_RETURN, unit_bytes l CARRIAGE_RETURN)] = Some AfterCarriageReturn).
    cbn [pass]. by rewrite Hcr.
  - eapply (closed_line_feed _ (units x ++ [(CARRIAGE_RETURN, unit_bytes l CARRIAGE_RETURN)])
      LINE_FEED _ AfterCarriageReturn); [by rewrite Hunits, <- app_assoc|done| |done].
    rewrite pass_app, Hp.
    change (pass l s [(CARRIAGE_RETURN, unit_bytes l CARRIAGE_RETURN)] = Some AfterCarriageReturn).
    cbn [pass]. by rewrite Hcr.
Qed.

(** The fields of a scanned record, with or without a terminator. *)
Lemma terminated_fields x vs t : scanned x vs -> t = [] \/ is_terminator t -> split_fields l (x ++ t) = vs.
Proof.
  intros (Hx & firsts & v & s & -> & Hs & Hp & Hsp) Ht. unfold split_fields.
  rewrite chunks_whole, stray_whole by done. rewrite Hsp. f_equal.
  destruct Ht as [->|Ht]; [by rewrite <- (app_nil_r v) at 2; destruct (width l)|].
  destruct (terminator_units t Ht) as (Hh & Hmap & Hcase). destruct (break_steps s Hs) as [Hlf Hcr].
  rewrite Hh, Hmap. destruct Hcase as [Hc| [Hc|Hc]]; rewrite Hc; cbn [map split_units].
  - by destruct (step l s LINE_FEED) as [[] ?].
  - rewrite Hcr. by rewrite app_nil_r.
  - by rewrite Hcr.
Qed.

Lemma decoded_fields x t fs : rendered_record fs x -> Forall decodes_back fs -> t = [] \/ is_terminator t ->
  decode_fields (x ++ t) l e = (fs, false).
Proof.
  intros [_ _ (vs & Hscan & Henc)] Hfs Ht. unfold decode_fields. rewrite (terminated_fields x vs t Hscan Ht).
  clear Hscan. induction Henc as [|f v fs vs Hv _ IH]; [done|]. inversion Hfs as [|? ? Hf Hfs']; subst.
  destruct (Hf v Hv) as [_ Hd]. specialize (IH Hfs'). injection IH as IH1 IH2. simpl.
  by rewrite Hd, IH1, IH2.
Qed.

Lemma rendered_closed x t fs : rendered_record fs x -> is_terminator t -> closed (x ++ t).
Proof.
  intros [_ _ (vs & (Hx & firsts & v & s & _ & Hs & Hp & _) & _)] Ht. by eapply terminated_closed.
Qed.

Lemma rendered_units x fs : rendered_record fs x -> units x <> [].
Proof.
  intros [Hne _ (vs & (Hx & _) & _)] Hu. apply Hne. rewrite <- (chunks_concat (width l) x), Hu, Hx. done.
Qed.

(** A rendered record does not continue the record before it. *)
Lemma rendered_follows r x fs more : rendered_record fs x -> no_line_feed r (x ++ more).
Proof.
  intros Hx _. right. pose proof (rendered_units x fs Hx) as Hu. destruct Hx as [_ Hfirst _].
  rewrite head_units_app by done. destruct (units x) as [|[u b] us]; [done|]. exists u. split; [done|].
  intros ->. by apply Hfirst.
Qed.

Lemma closed_tiled r rs : closed r -> no_line_feed r (concat rs) -> tiled l rs -> tiled l (r :: rs).
Proof. intros Hc Hn Ht. constructor; [by apply closed_ends|done]. Qed.

Lemma rendered_tiled rows xs t rest : Forall2 rendered_record rows xs -> is_terminator t ->
  tiled l rest -> (forall r, no_line_feed r (concat rest)) -> tiled l (map (fun x => x ++ t) xs ++ rest).
Proof.
  intros Hxs Ht Hrest Hn. induction Hxs as [|fs x rows xs Hx Hxs IH]; [done|]. simpl.
  apply closed_tiled; [by eapply rendered_closed| |done].
  destruct Hxs as [|fs' x' rows xs Hx' _]; [by apply Hn|]. simpl. rewrite <- app_assoc.
  by eapply rendered_follows.
Qed.

(** ** What cannot be rendered *)

Definition succeeds {A E} (r : result A E) : Prop := exists x, r = Ok x.

Lemma field_ok q rendered t only loc index : quote l = Some q ->
  succeeds (field renderer rendered t only loc index) <-> succeeds (encode_text t e).
Proof.
  intros Hq. unfold DelimitedWriter.field. cbn [r_layout r_encoding]. rewrite Hq. unfold succeeds.
  destruct (encode_text t e) as [v|[i c]]; [|split; intros [? ?]; done].
  split; [eauto|]. intros _. destruct (negb _); eauto.
Qed.

Lemma render_ok fs q loc : quote l = Some q ->
  succeeds (render renderer fs loc) <-> Forall (fun t => succeeds (encode_text t e)) (written_fields fs).
Proof.
  intros Hq. assert (Hloop : forall fs only i x, succeeds (render_fields (SourceError:=SourceError)
    (SinkError:=SinkError) renderer only loc i x fs) <-> Forall (fun t => succeeds (encode_text t e)) fs).
  { clear fs. induction fs as [|f fs IH]; intros only i x; cbn [render_fields]; [by split; [done|eexists]|].
    rewrite Forall_cons. set (x0 := if Nat.ltb 0 i then _ else _).
    pose proof (field_ok q x0 f only loc i Hq) as Hf.
    destruct (field _ x0 _ _ _ _) as [x1|er]; [rewrite (IH only (S i) x1)|].
    - rewrite <- Hf. split; [|tauto]. split; [by eexists|done].
    - rewrite <- Hf. split; [intros [? ?]; done|intros [[? ?] _]; done]. }
  destruct fs as [|f fs]; [|apply Hloop]. cbn [written_fields DelimitedWriter.render].
  rewrite (field_ok q _ _ _ _ _ Hq), Forall_singleton. done.
Qed.

End Records.

Section Roundtrip.
Context `{EncodingLib} `{!EncodingLaws} {SourceError SinkError : Type}.

#[local] Abbreviation render_record := (render_record (SourceError:=SourceError) (SinkError:=SinkError)).

(** The delimiter and the quote of a dialect are bytes. *)
Definition byte_dialect (d : Dialect) : Prop := Forall (fun b => b < 256)%N (special_bytes d).

Lemma for_dialect_layout d l : byte_dialect d -> for_dialect d = Ok l -> layout_for l (d_encoding d).
Proof.
  unfold byte_dialect, for_dialect. intros Hb.
  destruct (List.find _ (special_bytes d)) as [b|] eqn:Hbreak; [done|].
  pose proof (find_none _ _ Hbreak) as Hno. cbn beta in Hno. case_bool_decide as Hqd; [done|].
  destruct (match width_of (d_encoding d) with Byte => _ | _ => _ end); [done|]. intros [= <-].
  assert (Hspecial : forall b, In b (special_bytes d) -> (b < 256)%N /\ b <> LINE_FEED /\ b <> CARRIAGE_RETURN).
  { intros b Hin. rewrite Forall_forall in Hb. split; [by apply Hb, list_elem_of_In|].
    apply Hno, orb_false_iff in Hin as [?%N.eqb_neq ?%N.eqb_neq]. done. }
  assert (Hok : forall b, (b < 256)%N -> unit_ok (mkLayout (width_of (d_encoding d)) (d_delimiter d) (d_quote d)) b)
    by (intros b Hlt; unfold unit_ok; simpl; by destruct (width_of _)).
  split; [done| |].
  - simpl. destruct (Hspecial (d_delimiter d)) as (? & ? & ?); [by left|]. split; [by apply Hok|done].
  - simpl. intros q Hq. destruct (Hspecial q) as (? & ? & ?); [unfold special_bytes; rewrite Hq; simpl; tauto|].
    split; [done|]. split; [by apply Hok|]. repeat split; try done. simpl. intros ->. done.
Qed.

Lemma render_record_renders fs d l loc : for_dialect d = Ok l ->
  render_record fs d loc = render (mkRenderer l (d_encoding d)) fs loc.
Proof. intros Hd. unfold DelimitedWriter.render_record, renderer_for_dialect. by rewrite Hd. Qed.

(** C33: rendered records, each followed by the same line break, are the records
    of the file they make, and each decodes to the fields it was rendered from (a
    record of no fields to one empty field), wherever every field is one that
    decodes to itself once the encoding represents it ([decodes_back], which fails
    for a few characters of some legacy encodings), and the delimiter and the quote
    are bytes.  With a quote character, rendering fails only
    on a field that the encoding cannot represent. *)
Theorem rendered_records_read_back d l rows xs t loc : byte_dialect d -> for_dialect d = Ok l ->
  is_terminator l t -> Forall (fun fs => Forall (decodes_back (d_encoding d)) (written_fields fs)) rows ->
  Forall2 (fun fs x => render_record fs d loc = Ok x) rows xs ->
  records l (concat (map (fun x => x ++ t) xs)) = map (fun x => x ++ t) xs /\
  map (fun r => decode_fields r l (d_encoding d)) (records l (concat (map (fun x => x ++ t) xs))) =
    map (fun fs => (written_fields fs, false)) rows /\
  forall fs, is_Some (quote l) ->
    succeeds (render_record fs d loc) <-> Forall (fun f => succeeds (encode_text f (d_encoding d))) (written_fields fs).
Proof.
  intros Hb Hd Ht Hback Hxs. pose proof (for_dialect_layout d l Hb Hd) as Hl.
  assert (Hrec : Forall2 (rendered_record l (d_encoding d)) (map written_fields rows) xs).
  { induction Hxs as [|fs x rows xs Hx _ IH]; [done|]. inversion Hback; subst. simpl. constructor; [|auto].
    rewrite (render_record_renders _ _ _ _ Hd) in Hx. by eapply render_renders. }
  assert (Htiled : tiled l (map (fun x => x ++ t) xs)).
  { rewrite <- (app_nil_r (map _ xs)). apply (rendered_tiled l (d_encoding d) _ _ _ _ Hrec Ht); [constructor|].
    intros r _. by left. }
  rewrite (tiled_records l _ Htiled). split; [done|]. split.
  - clear Htiled. induction Hxs as [|fs x rows xs _ _ IH]; [done|]. inversion Hback; inversion Hrec; subst.
    simpl. f_equal; [|auto]. eapply decoded_fields; eauto.
  - intros fs [q Hq]. rewrite (render_record_renders _ _ _ _ Hd). by apply render_ok with q.
Qed.

End Roundtrip.

(** A field with a quote and a line break, a padded one, and no fields at all. *)
Definition demo_rows : list (list (list char)) :=
  [[[34; 10; 59]%N; text "b"]; [text " a"]; []].

Lemma byte_text_decodes_back t : Forall (fun c => c < 128)%N t -> decodes_back (0%N : Encoding) t.
Proof.
  intros Ht b Hb. assert (t ≫= utf8_bytes = t) as Hu.
  { clear Hb. induction Ht as [|c t Hc _ IH]; [done|]. cbn [mbind list_bind]. rewrite IH. unfold utf8_bytes.
    by destruct (N.ltb_spec c 128); [|lia]. }
  assert (b = t) as -> by (change (Ok (t ≫= utf8_bytes) = Ok b :> result (list N) (nat * char)) in Hb; congruence).
  split; [eapply Forall_impl; [exact Ht|]; simpl; intros; lia|]. simpl.
  replace (existsb _ t) with false; [done|]. symmetry. clear Hu Hb. induction Ht as [|c t Hc _ IH]; [done|].
  simpl. destruct (N.ltb_spec 127 c); [lia|]. apply IH.
Qed.


(** The bytes of the demonstration rows, in the dialect with the delimiter
    [;] and the double quote. *)
Definition demo_rendered : list (list N) := map (fun fs =>
  match render_record (SourceError:=unit) (SinkError:=unit) fs (mkDialect 59 (Some 34) false 0)%N (Inserted 0) with
  | Ok x => x
  | Err _ => []
  end) demo_rows.

Lemma rendered_records_read_back_witness :
  demo_rendered = [[34; 34; 34; 10; 59; 34; 59; 98]; [34; 32; 97; 34]; [34; 34]]%N /\
  map (fun r => decode_fields r (mkLayout Byte 59 (Some 34)) 0)%N
    (records (mkLayout Byte 59 (Some 34))%N (concat (map (fun x => x ++ [13; 10]%N) demo_rendered))) =
    [([[34; 10; 59]%N; text "b"], false); ([text " a"], false); ([[]], false)].
Proof.
  split; [vm_compute; reflexivity|].
  refine (proj1 (proj2 (rendered_records_read_back (SourceError:=unit) (SinkError:=unit)
    (mkDialect 59 (Some 34) false 0)%N (mkLayout Byte 59 (Some 34))%N demo_rows demo_rendered [13; 10]%N
    (Inserted 0) _ _ _ _ _))).
  - repeat constructor.
  - vm_compute. reflexivity.
  - right. right. vm_compute. reflexivity.
  - unfold demo_rows. repeat (apply Forall_cons_2 || apply Forall_nil_2);
      apply byte_text_decodes_back; repeat constructor.
  - repeat constructor.
Defined.

(** ** Records put one after another

    When a text that is put together from records has exactly these records:
    each but the last is closed by a line break, and none takes a line feed from
    the one after it.  How the writer's terminators relate to the scanner. *)

Import Delimited DelimitedWriter.

Section Chains.
Context `{EncodingLib} (l : Layout).

#[local] Abbreviation size := (unit_size l).
#[local] Abbreviation units := (chunks (width l)).
#[local] Abbreviation half := (stray (width l)).

(** ** Units *)

Lemma chunk_alone a : Forall (fun c => units c.2 = [c] /\ half c.2 = []) (units a).
Proof.
  destruct (width l); [by induction a; simpl; constructor|..];
    (induction a as [| |x y a IH] using pairs_ind; simpl; [done|done|by constructor]).
Qed.

(** The last unit, and the bytes before it. *)
Lemma last_chunk a cs u b : units a = cs ++ [(u, b)] -> half a = [] ->
  exists a', a = a' ++ b /\ half a' = [] /\ units b = [(u, b)] /\ half b = [] /\ length b = size.
Proof.
  intros Hu Hh. pose proof (chunk_alone a) as Ha. rewrite Hu, Forall_app, Forall_singleton in Ha.
  destruct Ha as [_ [Hb Hbh]]. cbn [snd] in Hb, Hbh.
  pose proof (units_length l a) as Hlen. rewrite Hu, Hh, length_app in Hlen. cbn [length] in Hlen.
  destruct (units_take l a (length cs)) as [_ Ht]; [rewrite Hu, length_app; lia|].
  exists (take (size * length cs) a).
  assert (Hlb : length b = size) by (rewrite (units_length l b), Hb, Hbh; simpl; lia).
  split; [|by repeat split]. rewrite <- (take_drop (size * length cs) a) at 1. f_equal.
  destruct (units_drop l a (length cs)) as [Hd Hdh]; [rewrite Hu, length_app; lia|].
  rewrite Hu, drop_app_length in Hd. rewrite Hh in Hdh.
  rewrite <- (chunks_concat (width l) (drop (size * length cs) a)), Hd, Hdh. simpl. by rewrite !app_nil_r.
Qed.

Lemma unit_at_drop a p : unit_at l a p = unit_at l (drop p a) 0.
Proof. unfold unit_at. by rewrite drop_0. Qed.

Lemma unit_at_nth a i : (i < length (units a))%nat -> unit_at l a (size * i) = fst <$> units a !! i.
Proof.
  intros Hi. rewrite unit_at_drop, unit_at_first. destruct (units_drop l a i) as [-> _]; [lia|].
  f_equal. rewrite <- (Nat.add_0_r i) at 2. rewrite <- lookup_drop. by destruct (drop i (units a)).
Qed.

Lemma length_whole a : half a = [] -> Nat.modulo (length a) size = 0%nat.
Proof.
  intros Hh. rewrite (units_length l a), Hh. simpl. rewrite Nat.add_0_r, Nat.mul_comm. apply Nat.Div0.mod_mul.
Qed.

Lemma length_not_whole a : half a <> [] -> Nat.modulo (length a) size <> 0%nat.
Proof.
  intros Hh. pose proof (half_length l a) as Hlt. pose proof (units_length l a) as Hlen.
  rewrite Hlen, Nat.add_comm, Nat.mul_comm, Nat.Div0.mod_add, Nat.mod_small by done.
  by destruct (half a).
Qed.

Lemma concat_whole rs : Forall (fun r => half r = []) rs -> half (concat rs) = [].
Proof. induction 1 as [|r rs Hr _ IH]; [by destruct (width l)|]. simpl. by rewrite stray_whole. Qed.

(** ** Terminators *)

Definition ends_in_break (a : list N) : Prop :=
  exists cs u b, units a = cs ++ [(u, b)] /\ (u = LINE_FEED \/ u = CARRIAGE_RETURN).

Lemma unit_from_end_last a n : half a = [] -> (0 < n <= length (units a))%nat ->
  unit_from_end l a n = fst <$> units a !! (length (units a) - n)%nat.
Proof.
  intros Hh Hn. pose proof (units_length l a) as Hlen. rewrite Hh in Hlen. simpl in Hlen.
  pose proof (size_pos l). unfold unit_from_end. destruct (Nat.ltb_spec (length a) (n * size)); [nia|].
  rewrite <- unit_at_nth by lia. f_equal. nia.
Qed.

Lemma unit_from_end_none a n : half a = [] -> (length (units a) < n)%nat -> unit_from_end l a n = None.
Proof.
  intros Hh Hn. pose proof (units_length l a) as Hlen. rewrite Hh in Hlen. simpl in Hlen.
  pose proof (size_pos l). unfold unit_from_end. destruct (Nat.ltb_spec (length a) (n * size)); [done|nia].
Qed.

(** Only one sequence of bytes is a line feed, and one a carriage return. *)
Lemma break_bytes a u b : (u, b) ∈ units a -> u = LINE_FEED \/ u = CARRIAGE_RETURN -> b = unit_bytes l u.
Proof.
  unfold unit_bytes, push_unit, LINE_FEED, CARRIAGE_RETURN. intros Hin Hu.
  assert (Hsmall : (u < 256)%N) by (destruct Hu; subst; done).
  destruct (width l).
  - induction a as [|x a IH]; [by apply elem_of_nil in Hin|]. apply elem_of_cons in Hin as [[= -> ->]|Hin]; [|auto].
    simpl. by destruct (N.ltb_spec x 256); [|lia].
  - induction a as [| |x y a IH] using pairs_ind; try by apply elem_of_nil in Hin.
    apply elem_of_cons in Hin as [[= Hx ->]|Hin]; [|auto]. clear IH. unfold join_unit in Hx. simpl.
    assert (y = 0 /\ x = u)%N as [-> ->] by lia. f_equal; [by rewrite N.mod_small|]. by rewrite N.div_small.
  - induction a as [| |x y a IH] using pairs_ind; try by apply elem_of_nil in Hin.
    apply elem_of_cons in Hin as [[= Hx ->]|Hin]; [|auto]. clear IH. unfold join_unit in Hx. simpl.
    assert (x = 0 /\ y = u)%N as [-> ->] by lia. f_equal; [by rewrite N.div_small|]. by rewrite N.mod_small.
Qed.

Lemma last_units a : units a = [] \/ exists cs u b, units a = cs ++ [(u, b)].
Proof. destruct (units a) as [|c cs] using rev_ind; [by left|]. right. destruct c. eauto. Qed.

Lemma terminator_none a : half a <> [] \/ ~ ends_in_break a -> terminator_bytes l a = [].
Proof.
  intros Ha. unfold terminator_bytes. replace (terminator_length l a) with 0%nat; [by rewrite Nat.sub_0_r, drop_all|].
  unfold terminator_length. destruct (decide (half a = [])) as [Hh|Hh].
  - rewrite length_whole by done. simpl. destruct Ha as [?|Ha]; [done|].
    destruct (last_units a) as [Hu|(cs & u & b & Hu)].
    + by rewrite (unit_from_end_none a 1) by (rewrite ?Hu; simpl; done || lia).
    + rewrite (unit_from_end_last a 1) by (rewrite ?Hu, ?length_app; simpl; done || lia).
      rewrite Hu, length_app. simpl. rewrite Nat.add_sub, list_lookup_middle by done. simpl.
      destruct (N.eqb_spec u LINE_FEED); [exfalso; apply Ha; by eexists _, _, _; eauto|].
      destruct (N.eqb_spec u CARRIAGE_RETURN); [exfalso; apply Ha; by eexists _, _, _; eauto|done].
  - apply length_not_whole, Nat.eqb_neq in Hh. by rewrite Hh.
Qed.

Lemma terminator_some a : half a = [] -> ends_in_break a -> is_terminator l (terminator_bytes l a).
Proof.
  intros Hh (cs & u & b & Hu & Hbreak). unfold terminator_bytes, terminator_length.
  rewrite length_whole by done. simpl.
  rewrite (unit_from_end_last a 1) by (rewrite ?Hu, ?length_app; simpl; done || lia).
  rewrite Hu, length_app. simpl. rewrite Nat.add_sub, list_lookup_middle by done. simpl.
  assert (Hb : b = unit_bytes l u).
  { apply (break_bytes a); [|done]. rewrite Hu. apply elem_of_app. right. by apply list_elem_of_singleton. }
  destruct (last_chunk a cs u b Hu Hh) as (a' & -> & Ha' & Hub & Hbh & Hlb).
  assert (Hone : is_terminator l (drop (length (a' ++ b) - size) (a' ++ b))).
  { rewrite length_app, Hlb, Nat.add_sub, drop_app_length, Hb. unfold is_terminator, LF, CR.
    destruct Hbreak as [-> | ->]; tauto. }
  destruct (N.eqb_spec u LINE_FEED) as [->|Hne]; simpl.
  2: { destruct (N.eqb_spec u CARRIAGE_RETURN); [done|]. by destruct Hbreak. }
  case_bool_decide as Hcr; [|done]. clear Hone.
  destruct (decide (2 <= length (units (a' ++ b)))%nat) as [Hle|Hlt].
  2: { by rewrite unit_from_end_none in Hcr by (done || lia). }
  rewrite (unit_from_end_last (a' ++ b) 2) in Hcr by (done || lia).
  rewrite chunks_whole, Hub, length_app in Hcr, Hle by done. cbn [length] in Hcr, Hle.
  destruct (last_units a') as [Hnil|(cs' & v & b2 & Hu')]; [rewrite Hnil in Hle; simpl in Hle; lia|].
  rewrite Hu', length_app in Hcr. cbn [length] in Hcr.
  replace (length cs' + 1 + 1 - 2)%nat with (length cs') in Hcr by lia.
  rewrite <- app_assoc in Hcr. cbn [app] in Hcr. rewrite list_lookup_middle in Hcr by done. simpl in Hcr. injection Hcr as ->.
  assert (Hb2 : b2 = unit_bytes l CARRIAGE_RETURN).
  { apply (break_bytes a'); [|by right]. rewrite Hu'. apply elem_of_app. right. by apply list_elem_of_singleton. }
  destruct (last_chunk a' cs' CARRIAGE_RETURN b2 Hu' Ha') as (a2 & -> & _ & _ & _ & Hl2).
  rewrite <- app_assoc, !length_app, Hlb, Hl2.
  replace (_ - _)%nat with (length a2) by lia. rewrite drop_app_length. right. right.
  unfold LF, CR. by rewrite Hb, Hb2.
Qed.

Lemma terminator_cases a : terminator_bytes l a = [] \/ is_terminator l (terminator_bytes l a).
Proof.
  destruct (decide (half a = [])) as [Hh|Hh]; [|left; by apply terminator_none; left].
  destruct (last_units a) as [Hu|(cs & u & b & Hu)].
  - left. apply terminator_none. right. intros (cs & u & b & Hc & _). rewrite Hu in Hc. by destruct cs.
  - destruct (decide (u = LINE_FEED \/ u = CARRIAGE_RETURN)) as [Hb|Hb].
    + right. apply terminator_some; [done|]. by exists cs, u, b.
    + left. apply terminator_none. right. intros (cs' & u' & b' & Hc & Hb'). rewrite Hu in Hc.
      apply app_inj_tail in Hc as [_ [= -> ->]]. done.
Qed.

Lemma terminator_nonempty t : is_terminator l t -> t <> [].
Proof.
  intros Ht ->. destruct (terminator_units l [] Ht) as (_ & _ & [Hn|[Hn|Hn]]); by destruct (width l).
Qed.

Lemma ends_in_break_whole a : terminator_bytes l a <> [] -> half a = [] /\ ends_in_break a.
Proof.
  intros Ht. destruct (decide (half a = [])) as [Hh|Hh]; [|destruct Ht; by apply terminator_none; left].
  split; [done|]. destruct (last_units a) as [Hu|(cs & u & b & Hu)].
  - destruct Ht. apply terminator_none. right. intros (cs & u & b & Hc & _). rewrite Hu in Hc. by destruct cs.
  - destruct (decide (u = LINE_FEED \/ u = CARRIAGE_RETURN)) as [Hb|Hb]; [by exists cs, u, b|].
    destruct Ht. apply terminator_none. right. intros (cs' & u' & b' & Hc & Hb'). rewrite Hu in Hc.
    apply app_inj_tail in Hc as [_ [= -> ->]]. done.
Qed.

(** Whether there is a terminator depends on the last unit only. *)
Lemma terminator_suffix a b : half a = [] -> units b <> [] ->
  terminator_bytes l (a ++ b) = [] <-> terminator_bytes l b = [].
Proof.
  intros Ha Hb. assert (Heq : half (a ++ b) = half b /\ (ends_in_break (a ++ b) <-> ends_in_break b)).
  { rewrite stray_whole by done. split; [done|]. unfold ends_in_break. rewrite chunks_whole by done. split.
    - intros (cs & u & c & Hu & Hbreak). destruct (last_units b) as [?|(cs' & u' & c' & Hu')]; [done|].
      rewrite Hu', app_assoc in Hu. apply app_inj_tail in Hu as [_ [= <- <-]]. by exists cs', u', c'.
    - intros (cs & u & c & Hu & Hbreak). exists (units a ++ cs), u, c. by rewrite Hu, app_assoc. }
  destruct Heq as [Hh Hbreak]. split; intros Ht.
  - destruct (terminator_cases b) as [?|Hbt]; [done|]. exfalso.
    apply terminator_nonempty, ends_in_break_whole in Hbt as [? ?].
    apply (terminator_nonempty _ (terminator_some (a ++ b) ltac:(congruence) (proj2 Hbreak ltac:(done)))), Ht.
  - destruct (terminator_cases (a ++ b)) as [?|Hbt]; [done|]. exfalso.
    apply terminator_nonempty, ends_in_break_whole in Hbt as [? ?].
    apply (terminator_nonempty _ (terminator_some b ltac:(congruence) (proj1 Hbreak ltac:(done)))), Ht.
Qed.

(** ** The end of a record *)

Context (breaks_plain : forall q, quote l = Some q -> q <> LINE_FEED /\ q <> CARRIAGE_RETURN).

Lemma pass_foldl s cs s' : pass l s cs = Some s' -> foldl (fun s c => (step l s c.1).2) s cs = s'.
Proof.
  revert s. induction cs as [|[u b] cs IH]; intros s; simpl; [congruence|].
  destruct (step l s u) as [[] s1]; simpl; auto; done.
Qed.

Lemma pass_splits s cs s' current : pass l s cs = Some s' -> exists firsts v, forall more tail,
  split_units l s current (cs ++ more) tail = firsts ++ split_units l s' v more tail.
Proof.
  revert s current. induction cs as [|[u b] cs IH]; intros s current; simpl.
  - intros [= ->]. by exists [], current.
  - destruct (step l s u) as [[] s1]; intros Hp; try done; [by apply IH..|].
    destruct (IH s1 [] Hp) as (firsts & v & Hf). exists (current :: firsts), v. intros more tail. by rewrite Hf.
Qed.

Lemma pass_scanned x s : half x = [] -> pass l FieldStart (units x) = Some s ->
  s ∈ [FieldStart; Unquoted; QuoteInQuoted] -> exists vs, scanned l x vs.
Proof.
  intros Hh Hp Hs. destruct (pass_splits FieldStart (units x) s [] Hp) as (firsts & v & Hf).
  exists (firsts ++ [v]). split; [done|]. by exists firsts, v, s.
Qed.

(** A line break that ends no record: inside quotes, or a carriage return. *)
Lemma break_passes s u b s' : pass l s [(u, b)] = Some s' -> u = LINE_FEED \/ u = CARRIAGE_RETURN ->
  s' = Quoted \/ u = CARRIAGE_RETURN /\ s' = AfterCarriageReturn.
Proof.
  intros Hp Hu. cbn [pass] in Hp.
  assert (Hq : bool_decide (quote l = Some u) = false).
  { apply bool_decide_eq_false. intros Hq. destruct (breaks_plain u Hq). by destruct Hu. }
  destruct s; simpl in Hp; try rewrite Hq in Hp; destruct Hu as [-> | ->]; simpl in Hp; simplify_eq; auto.
Qed.

Lemma after_return cs : pass l FieldStart cs = Some AfterCarriageReturn ->
  exists cs' b, cs = cs' ++ [(CARRIAGE_RETURN, b)].
Proof.
  destruct cs as [|[u b] cs _] using rev_ind; [done|]. rewrite pass_app.
  destruct (pass l FieldStart cs) as [s|]; [|done]. simpl. intros Hp. exists cs, b.
  enough (u = CARRIAGE_RETURN) as -> by done.
  destruct s; simpl in Hp; repeat (case_match; simplify_eq); by apply N.eqb_eq.
Qed.

Lemma record_in_quotes r s : pass l FieldStart (units r) = Some s -> ends_inside_quotes l r = false -> s <> Quoted.
Proof.
  intros Hp. unfold ends_inside_quotes. rewrite (pass_foldl _ _ _ Hp). by rewrite bool_decide_eq_false.
Qed.

Lemma closed_terminated r : closed l r -> terminator_bytes l r <> [].
Proof.
  intros Hc. apply terminator_nonempty, terminator_some; destruct Hc as [cs u b s Hu Hh Hp Hst|Hh Hp]; try done.
  - exists cs, u, b. split; [done|]. left.
    destruct s; simpl in Hst; repeat (case_match; simplify_eq); simpl in *; try done; by apply N.eqb_eq.
  - destruct (after_return _ Hp) as (cs & b & Hu). exists cs, CARRIAGE_RETURN, b. tauto.
Qed.

Lemma ended_closed r rest : ends_record l r rest -> rest <> [] -> closed l r /\ half r = [].
Proof.
  intros [cs u b s Hu Hh Hp Hst|u Hh Hp _ _|s -> _ _] Hrest; [| |done];
    (split; [|done]); [by eapply closed_line_feed|by apply closed_carriage_return].
Qed.

(** The last record of a text, when it does not end inside quotes. *)
Lemma final_record r : ends_record l r [] -> half r = [] -> ends_inside_quotes l r = false ->
  terminator_bytes l r = [] /\ (exists vs, scanned l r vs) \/ closed l r.
Proof.
  intros He Hh Hq. destruct He as [cs u b s Hu _ Hp Hst|u _ Hp Hn _|s _ Hne Hp].
  - right. by eapply closed_line_feed.
  - by destruct (width l).
  - pose proof (record_in_quotes r s Hp Hq) as Hnq.
    destruct (decide (s = AfterCarriageReturn)) as [->|Ha]; [right; by apply closed_carriage_return|].
    left. split.
    + apply terminator_none. right. intros (cs & u & b & Hu & Hbreak). rewrite Hu, pass_app in Hp.
      destruct (pass l FieldStart cs) as [s1|]; [|done]. simpl in Hp.
      destruct (break_passes s1 u b s Hp Hbreak) as [?|[_ ?]]; done.
    + apply pass_scanned with s; [done|done|]. apply list_elem_of_In. destruct s; simpl; tauto || done.
Qed.

(** ** Chains *)

Inductive chain : list (list N) -> Prop :=
| chain_nil : chain []
| chain_cons r rs : closed l r -> half r = [] -> no_line_feed l r (concat rs) -> chain rs -> chain (r :: rs).

(** The last of some records takes no line feed from [more]. *)
Definition no_line_feed_after (rs : list (list N)) (more : list N) : Prop :=
  forall r, last rs = Some r -> no_line_feed l r more.

Lemma closed_units r : closed l r -> half r = [] -> units r <> [].
Proof.
  intros Hc Hh Hu. apply (closed_nonempty l r Hc). by rewrite <- (chunks_concat (width l) r), Hu, Hh.
Qed.

Lemma no_line_feed_more r a b : units a <> [] -> no_line_feed l r a -> no_line_feed l r (a ++ b).
Proof.
  intros Ha Hn Hp. right. destruct (Hn Hp) as [->|(u & Hu & Hne)]; [by destruct (width l)|].
  exists u. by rewrite head_units_app.
Qed.

Lemma chain_app rs rs' : chain rs -> chain rs' -> no_line_feed_after rs (concat rs') -> chain (rs ++ rs').
Proof.
  intros Hc Hc'. induction Hc as [|r rs Hr Hh Hn Hrs IH]; intros Hlast; [done|]. simpl.
  constructor; [done|done| |].
  - destruct rs as [|r2 rs]; [by apply Hlast|]. rewrite concat_app. apply no_line_feed_more; [|done].
    inversion Hrs as [|? ? Hr2 Hh2 _ _]; subst. simpl. rewrite chunks_whole by done.
    intros Hu. apply app_nil in Hu as [Hu _]. by apply (closed_units r2).
  - apply IH. intros r' Hr'. apply Hlast. by rewrite last_cons, Hr'.
Qed.

Lemma chain_whole rs : chain rs -> half (concat rs) = [].
Proof. intros Hc. apply concat_whole. induction Hc; by constructor. Qed.

Lemma chain_closed rs r : chain rs -> last rs = Some r -> closed l r /\ half r = [].
Proof.
  induction 1 as [|r' rs Hr Hh _ _ IH]; [done|]. rewrite last_cons. destruct (last rs); [auto|].
  by intros [= <-].
Qed.

(** A chain and what follows it are records. *)
Lemma chain_tiled rs rest : chain rs -> tiled l rest -> no_line_feed_after rs (concat rest) -> tiled l (rs ++ rest).
Proof.
  intros Hc Ht. induction Hc as [|r rs Hr Hh Hn Hrs IH]; intros Hlast; [done|]. simpl. constructor.
  - apply closed_ends; [done|]. destruct rs as [|r2 rs]; [by apply Hlast|].
    rewrite concat_app. apply no_line_feed_more; [|done].
    inversion Hrs as [|? ? Hr2 Hh2 _ _]; subst. simpl. rewrite chunks_whole by done.
    intros Hu. apply app_nil in Hu as [Hu _]. by apply (closed_units r2).
  - apply IH. intros r' Hr'. apply Hlast. by rewrite last_cons, Hr'.
Qed.

(** Records with another one after them are a chain. *)
Lemma tiled_chain rs r rest : tiled l (rs ++ r :: rest) -> chain rs.
Proof.
  induction rs as [|r1 rs IH]; [constructor|]. simpl. intros Ht. inversion Ht as [|? ? He Htl]; subst.
  assert (Hrest : concat (rs ++ r :: rest) <> []).
  { destruct (rs ++ r :: rest) as [|r2 rs2] eqn:Heq; [by destruct rs|].
    inversion Htl as [|? ? He2 _]; subst. apply ends_record_nonempty in He2. by destruct r2. }
  destruct (ended_closed _ _ He Hrest) as [Hc Hh]. constructor; [done|done| |by apply IH].
  intros Hp. destruct rs as [|r2 rs]; [by left|]. right.
  inversion Htl as [|? ? He2 Htl2]; subst.
  destruct He as [cs u b s Hu _ Hp' Hst|u _ _ Hn Hne|s Heq _ _]; [exfalso| |done].
  - rewrite Hu, pass_app, Hp' in Hp. simpl in Hp. destruct (step l s u) as [[] ?]; done.
  - exists u. split; [|done]. rewrite <- Hn. simpl.
    destruct (decide (units r2 = [])) as [Hnil|Hu2]; [|by rewrite !head_units_app].
    pose proof (ends_record_half l _ _ He2 Hnil) as Hempty. simpl in Htl2.
    destruct (rs ++ r :: rest) as [|r3 rs3] eqn:Heq; [by destruct rs|].
    inversion Htl2 as [|? ? He3 _]; subst. apply ends_record_nonempty in He3. by destruct r3.
Qed.

Lemma ends_no_line_feed r rest : ends_record l r rest -> no_line_feed l r rest.
Proof.
  intros [cs u b s Hu _ Hp Hst|u _ _ Hn Hne|s -> _ _] Hpass; [exfalso|right; by exists u|by left].
  rewrite Hu, pass_app, Hp in Hpass. simpl in Hpass. destruct (step l s u) as [[] ?]; done.
Qed.

(** Records before the last one, and the last one. *)
Lemma tiled_open rs f : tiled l (rs ++ [f]) -> chain rs /\ no_line_feed_after rs f /\ ends_record l f [].
Proof.
  intros Ht. split; [by eapply tiled_chain|]. split.
  - intros r Hr. apply last_Some in Hr as [rs' ->]. rewrite <- app_assoc in Ht. apply tiled_app in Ht.
    inversion Ht as [|? ? He _]; subst. simpl in He. rewrite app_nil_r in He. by apply ends_no_line_feed.
  - apply tiled_app in Ht. by inversion Ht.
Qed.

End Chains.
