(* ===== verification/DelimitedWriterProps.v ===== *)
(** * Runs of the delimited writer

    What a run of the writer puts into the sink: the records that are copied,
    with the pair of quotes where an empty record would lose its line feed, and
    the rendered ones, as the records of the written text. *)

From S2P Require Import Prelude RustStr RustChar DelimitedScan DelimitedScanProps PagedReader PagedReaderProps DelimitedWriter DelimitedRender.

Import Delimited PagedReader DelimitedWriter.

(** ** Runs *)

Section Runs.
Context `{EncodingLib} {SourceError SinkError : Type}.

#[local] Abbreviation WriteError := (@WriteError _ SourceError SinkError).
#[local] Abbreviation WriteHalt := (@WriteHalt SourceError SinkError).

(** The errors that can follow partial output. *)
Definition late (columns : bool) (e : DelimitedWriter.WriteError (SourceError:=SourceError) (SinkError:=SinkError)) : Prop :=
  match e with
  | SourceFailed _ | Sink _ | Read (UnexpectedReadLength _ _ _) | FusedLineBreak _ => True
  | UnclosedQuote _ | NotARecord _ => columns = true
  | _ => False
  end.

Context (columns : bool).

(** A call that stopped did so with an error, before writing unless the error is
    one of these. *)
Definition refused (h : DelimitedWriter.WriteHalt (SourceError:=SourceError) (SinkError:=SinkError)) (o : Output) : Prop :=
  exists e, h = WriteFailed e /\ (late columns e \/ o_sink o = []).

Definition runs {A} (m : Wr (SourceError:=SourceError) (SinkError:=SinkError) A) (o : Output)
    (Q : A -> Output -> Prop) : Prop :=
  match m o with (o', Ok x) => Q x o' | (o', Err h) => refused h o' end.

Lemma runs_bind {A B} (m : Wr A) (k : A -> Wr B) o Q :
  runs m o (fun x o' => runs (k x) o' Q) -> runs (m ≫= k) o Q.
Proof. unfold runs, mbind, sm_mbind, sm_bind. destruct (m o) as [o' [x|h]]; done. Qed.

Lemma runs_mono {A} (m : Wr A) o (Q Q' : A -> Output -> Prop) :
  runs m o Q -> (forall x o', Q x o' -> Q' x o') -> runs m o Q'.
Proof. unfold runs. destruct (m o) as [o' [x|h]]; auto. Qed.

Lemma runs_ret {A} (x : A) o (Q : A -> Output -> Prop) : Q x o -> runs (mret x) o Q.
Proof. done. Qed.

Lemma runs_get {A} (k : Output -> Wr A) o Q : runs (k o) o Q -> runs (sm_get ≫= k) o Q.
Proof. done. Qed.

Lemma runs_stop {A} e o (Q : A -> Output -> Prop) : late columns e \/ o_sink o = [] -> runs (stop e) o Q.
Proof. intros He. by exists e. Qed.

(** Only calls of the source were made. *)
Definition reads_only (o o' : Output) : Prop :=
  exists n, o' = mkOutput n (o_writes o) (o_sink o) (last_bytes o) (written o).

Lemma reads_only_refl o : reads_only o o.
Proof. exists (o_calls o). by destruct o. Qed.

Lemma reads_only_trans o1 o2 o3 : reads_only o1 o2 -> reads_only o2 o3 -> reads_only o1 o3.
Proof. intros [n ->] [k ->]. by exists k. Qed.

Lemma reads_only_sink o o' : reads_only o o' -> o_sink o' = o_sink o.
Proof. by intros [n ->]. Qed.

Context (source : ByteSource (SourceError:=SourceError)) (sink_fails : nat -> option SinkError) (l : Layout).

(** A source that changes between its calls is read all the same. *)
Lemma read_any start end_ o : runs (read source start end_) o (fun _ o' => reads_only o o').
Proof.
  unfold runs, read. destruct (read_range _ _ _ _) as [bytes|e].
  - destruct (Nat.eqb _ _); [by eexists|]. eexists. split; [done|]. by left.
  - eexists. split; [done|]. by left.
Qed.

Lemma read_runs content start end_ o : serves content source -> (start <= end_ <= length content)%nat ->
  runs (read source start end_) o (fun bytes o' => bytes = take (end_ - start) (drop start content) /\ reads_only o o').
Proof.
  intros Hserves Hrange. destruct (Hserves (o_calls o)) as [_ Hread]. specialize (Hread start end_ Hrange).
  pose proof (read_any start end_ o) as Hany. unfold runs, read in *.
  destruct (read_range _ _ _ _) as [bytes|e]; [|done]. destruct (Nat.eqb _ _); [done|exact Hany].
Qed.

(** What the output remembers of the sink. *)
Definition out_ok (o : Output) : Prop :=
  written o = length (o_sink o) /\ last_bytes o = drop (length (o_sink o) - unit_size l) (o_sink o).

Lemma reads_only_ok o o' : reads_only o o' -> out_ok o -> out_ok o'.
Proof. by intros [n ->]. Qed.

Lemma write_runs bytes o : out_ok o ->
  runs (write sink_fails l bytes) o (fun _ o' => o_sink o' = o_sink o ++ bytes /\ out_ok o').
Proof.
  intros [Hw Hl]. unfold runs, write. destruct (sink_fails _); [eexists; split; [done|by left]|].
  split; [done|]. unfold out_ok. cbn [written o_sink last_bytes]. rewrite length_app. split; [by rewrite Hw|].
  rewrite Hl. rewrite <- (drop_app_le (o_sink o) bytes) by lia. rewrite drop_drop. f_equal.
  rewrite !length_drop, !length_app. lia.
Qed.

Lemma write_any bytes o : runs (write sink_fails l bytes) o (fun _ _ => True).
Proof. unfold runs, write. destruct (sink_fails _); [eexists; split; [done|by left]|done]. Qed.

(** ** Copying *)

Context (window : nat) (window_pos : (0 < window)%nat).

Lemma copy_windows_any rounds position end_ o : (end_ - position <= rounds)%nat ->
  runs (copy_windows source sink_fails l window rounds position end_) o (fun _ _ => True).
Proof.
  revert position o. induction rounds as [|rounds IH]; intros position o Hr; cbn [copy_windows];
    destruct (Nat.ltb_spec position end_); try done; [lia|].
  apply runs_bind. eapply runs_mono; [apply read_any|]. intros bytes o' _.
  apply runs_bind. eapply runs_mono; [apply write_any|]. intros [] o2 _. apply IH. lia.
Qed.

Lemma copy_windows_runs content rounds position end_ o : serves content source -> out_ok o ->
  (position <= end_ <= length content)%nat -> (end_ - position <= rounds)%nat ->
  runs (copy_windows source sink_fails l window rounds position end_) o (fun _ o' =>
    o_sink o' = o_sink o ++ take (end_ - position) (drop position content) /\ out_ok o').
Proof.
  intros Hserves. revert position o. induction rounds as [|rounds IH]; intros position o Hok Hp Hr;
    cbn [copy_windows]; destruct (Nat.ltb_spec position end_); try lia;
    try (apply runs_ret; replace (end_ - position)%nat with 0%nat by lia; by rewrite take_0, app_nil_r).
  set (next := Nat.min (position + window) end_). assert (Hnext : (position < next <= end_)%nat) by lia.
  apply runs_bind. eapply runs_mono; [apply (read_runs content); [done|lia]|].
  cbn beta. intros bytes o1 [-> Ho1]. apply runs_bind.
  eapply runs_mono; [apply write_runs; by eapply reads_only_ok|]. cbn beta. intros [] o2 [Hs2 Hok2].
  eapply runs_mono; [apply IH; [done|lia|lia]|]. cbn beta. intros [] o3 [Hs3 Hok3]. split; [|done].
  rewrite Hs3, Hs2, (reads_only_sink _ _ Ho1), <- app_assoc. f_equal.
  rewrite <- (take_drop (next - position) (take (end_ - position) (drop position content))).
  rewrite take_take. f_equal; [f_equal; lia|]. rewrite skipn_firstn_comm, drop_drop. f_equal; [lia|f_equal; lia].
Qed.

Lemma copy_any start end_ o : runs (copy source sink_fails l window start end_) o (fun _ _ => True).
Proof.
  unfold copy. apply runs_bind. apply (runs_mono _ _ (fun _ _ => True)); [|intros [] o' _; by apply copy_windows_any].
  unfold keep_empty_record. apply runs_get. destruct (_ && _); [|done].
  apply runs_bind. eapply runs_mono; [apply read_any|]. cbn beta. intros bytes o1 _.
  case_bool_decide; [|done]. destruct (quote l) as [q|]; [apply write_any|by apply runs_stop; left].
Qed.

(** The pair of quotes that keeps an empty record, or nothing. *)
Inductive glued (o : Output) (bytes g : list N) : Prop :=
| not_glued : g = [] -> bytes = [] \/ ends_with_carriage_return l o = false \/
    fst <$> head (chunks (width l) bytes) <> Some LINE_FEED -> glued o bytes g
| glued_quotes q : ends_with_carriage_return l o = true -> quote l = Some q -> g = unit_bytes l q ++ unit_bytes l q ->
    fst <$> head (chunks (width l) bytes) = Some LINE_FEED -> glued o bytes g.

Lemma unit_at_take a n : (unit_size l <= n \/ length a <= n)%nat -> unit_at l (take n a) 0 = unit_at l a 0.
Proof.
  unfold unit_at, unit_size. rewrite !drop_0. destruct (width l), a as [|x [|y a]], n as [|[|n]]; simpl; lia || done.
Qed.

Lemma copy_runs content start end_ o : serves content source -> out_ok o -> (start <= end_ <= length content)%nat ->
  runs (copy source sink_fails l window start end_) o (fun _ o' => exists g,
    glued o (take (end_ - start) (drop start content)) g /\
    o_sink o' = o_sink o ++ g ++ take (end_ - start) (drop start content) /\ out_ok o').
Proof.
  intros Hserves Hok Hrange. set (bytes := take _ _). unfold copy. apply runs_bind.
  eapply (runs_mono _ _ (fun _ o' => exists g, glued o bytes g /\ o_sink o' = o_sink o ++ g /\ out_ok o')).
  - unfold keep_empty_record. apply runs_get.
    destruct (Nat.ltb_spec start end_) as [Hlt|Hge]; cbn [andb].
    2: { apply runs_ret. exists []. rewrite app_nil_r. split; [|done]. apply not_glued; [done|]. left.
      unfold bytes. by replace (end_ - start)%nat with 0%nat by lia. }
    destruct (ends_with_carriage_return l o) eqn:Hcr.
    2: { apply runs_ret. exists []. rewrite app_nil_r. split; [|done]. apply not_glued; tauto. }
    apply runs_bind. eapply runs_mono; [apply (read_runs content); [done|lia]|]. cbn beta.
    intros first o1 [-> Ho1]. set (stop := Nat.min (start + unit_size l) end_).
    assert (Hfirst : unit_at l (take (stop - start) (drop start content)) 0 = fst <$> head (chunks (width l) bytes)).
    { rewrite <- unit_at_first. unfold bytes. rewrite <- (unit_at_take (take (end_ - start) _) (stop - start)).
      - rewrite take_take. do 2 f_equal. lia.
      - rewrite length_take. lia. }
    rewrite Hfirst. case_bool_decide as Hlf.
    + destruct (quote l) as [q|] eqn:Hq; [|by apply runs_stop; left].
      eapply runs_mono; [apply write_runs; by eapply reads_only_ok|]. cbn beta. intros [] o2 [Hs2 Hok2].
      exists (unit_bytes l q ++ unit_bytes l q). split; [by eapply glued_quotes|]. split; [|done].
      by rewrite Hs2, (reads_only_sink _ _ Ho1).
    + apply runs_ret. exists []. rewrite app_nil_r, (reads_only_sink _ _ Ho1). split; [apply not_glued; tauto|].
      split; [done|]. by eapply reads_only_ok.
  - cbn beta. intros [] o1 (g & Hg & Hs1 & Hok1).
    eapply runs_mono; [by apply (copy_windows_runs content)|]. cbn beta. intros [] o2 [Hs2 Hok2].
    exists g. split; [done|]. split; [|done]. by rewrite Hs2, Hs1, <- app_assoc.
Qed.

End Runs.

(** ** The text that the delimited writer writes

    The writer walks over the records of the source and the plan: it copies the
    records between two edited ones by range.  The text it has written is at any
    time a chain of records, one for each record kept or rendered so far. *)

Import Delimited PagedReader DelimitedWriter.

Section Written.
Context `{EncodingLib} (l : Layout) (e : Encoding) (content : list N) (m : nat).

#[local] Abbreviation size := (unit_size l).
#[local] Abbreviation units := (chunks (width l)).
#[local] Abbreviation half := (stray (width l)).

(** The records after the mark, and where they start. *)
Definition source_records : list (list N) := data l content m.
Definition start_of (k : nat) : nat := record_offset l content m k.
Definition slice (j k : nat) : list (list N) := take (k - j) (drop j source_records).

#[local] Abbreviation all := source_records.
#[local] Abbreviation off := start_of.
#[local] Abbreviation mark := (take m content).

Context (mark_in : (m <= length content)%nat).

Lemma off_add j k : (j <= k)%nat -> off k = (off j + length (concat (slice j k)))%nat.
Proof.
  intros Hjk. unfold off, record_offset, slice. fold all.
  replace (take k all) with (take j all ++ take (k - j) (drop j all)).
  - rewrite concat_app, length_app. lia.
  - rewrite take_take_drop. f_equal. lia.
Qed.

Lemma off_tiled k : tiled l (drop k all) /\ concat (drop k all) = drop (off k) content.
Proof. apply data_tiled. Qed.

Lemma slice_bytes j k : (j <= k)%nat -> take (off k - off j) (drop (off j) content) = concat (slice j k).
Proof.
  intros Hjk. rewrite (off_add j k Hjk), Nat.add_comm, Nat.add_sub. destruct (off_tiled j) as [_ <-].
  unfold slice. rewrite <- (take_drop (k - j) (drop j all)) at 2. by rewrite concat_app, take_app_length.
Qed.

Lemma off_le k : (off k <= length content)%nat.
Proof.
  destruct (off_tiled k) as [_ Hk]. destruct (off_tiled 0) as [_ H0].
  assert (H0' : off 0 = m) by (unfold off, record_offset; simpl; lia). rewrite H0' in H0.
  apply (f_equal length) in H0. rewrite drop_0, length_drop in H0.
  unfold off, record_offset. fold all. rewrite <- (take_drop k all), concat_app, length_app in H0. lia.
Qed.

Lemma off_0 : off 0 = m.
Proof. unfold off, record_offset. simpl. lia. Qed.

Lemma off_end : off (length all) = length content.
Proof.
  destruct (off_tiled (length all)) as [_ Hn]. rewrite drop_all in Hn. apply (f_equal length) in Hn.
  rewrite length_drop in Hn. pose proof (off_le (length all)). simpl in Hn. lia.
Qed.

Lemma slice_split j k : (j <= k)%nat -> drop j all = slice j k ++ drop k all.
Proof.
  intros Hjk. unfold slice. rewrite <- (take_drop (k - j) (drop j all)) at 1. rewrite drop_drop. f_equal. f_equal. lia.
Qed.

Lemma slice_all j : slice j (length all) = drop j all.
Proof. unfold slice. apply firstn_all2. by rewrite length_drop. Qed.

Lemma slice_chain j k : (j <= k < length all)%nat -> chain l (slice j k).
Proof.
  intros Hk. destruct (off_tiled j) as [Ht _]. rewrite (slice_split j k) in Ht by lia.
  destruct (drop k all) as [|r rest] eqn:Hd; [|by eapply tiled_chain].
  apply (f_equal length) in Hd. rewrite length_drop in Hd. simpl in Hd. lia.
Qed.

Lemma off_lt j k : (j < k <= length all)%nat -> (off j < off k)%nat.
Proof.
  intros Hjk. rewrite (off_add j k) by lia. destruct (off_tiled j) as [Ht _].
  assert (Hlen : (0 < length (drop j all))%nat) by (rewrite length_drop; lia).
  unfold slice. destruct (drop j all) as [|r rs]; [simpl in Hlen; lia|].
  inversion Ht as [|? ? He _]; subst. apply ends_record_nonempty in He.
  destruct (k - j)%nat eqn:Hk; [lia|]. simpl. rewrite length_app. destruct r; simpl; [done|lia].
Qed.

(** The record number [k]. *)
Lemma record_at k : (k < length all)%nat -> exists r, all !! k = Some r /\ slice k (S k) = [r] /\
  ends_record l r (concat (drop (S k) all)) /\ take (off (S k) - off k) (drop (off k) content) = r /\
  off (S k) = (off k + length r)%nat.
Proof.
  intros Hk. destruct (lookup_lt_is_Some_2 all k Hk) as [r Hr]. exists r. split; [done|].
  assert (Hs : slice k (S k) = [r]).
  { unfold slice. rewrite (drop_S _ _ _ Hr). replace (S k - k)%nat with 1%nat by lia. done. }
  split; [done|]. destruct (off_tiled k) as [Ht _]. rewrite (drop_S _ _ _ Hr) in Ht.
  inversion Ht; subst. split; [done|]. rewrite slice_bytes, Hs by lia. simpl. split; [by rewrite app_nil_r|].
  rewrite (off_add k (S k)), Hs by lia. simpl. by rewrite app_nil_r.
Qed.

(** ** An empty record after a carriage return *)

Lemma empty_record r rest : ends_record l r rest -> fst <$> head (units r) = Some LINE_FEED ->
  units r = [(LINE_FEED, r)] /\ half r = [].
Proof.
  intros He Hhd. destruct (units r) as [|[u b] cs] eqn:Hu; [done|]. simpl in Hhd. injection Hhd as ->.
  assert (Hnone : pass l FieldStart ((LINE_FEED, b) :: cs) = None) by done.
  destruct He as [cs' u b' s Hu' Hh Hp Hst|u Hh Hp _ _|s _ _ Hp]; rewrite Hu in *; try congruence.
  destruct cs' as [|[v c] cs']; [|simpl in Hu'; by injection Hu' as <- <- ->].
  injection Hu' as <- <- ->. split; [|done].
  rewrite <- (chunks_concat (width l) r), Hu, Hh. simpl. by rewrite !app_nil_r.
Qed.

Definition quoted_record (q : N) (r : list N) : list N := unit_bytes l q ++ unit_bytes l q ++ r.

Lemma quoted_record_spec q r : quote_ok l q -> units r = [(LINE_FEED, r)] -> half r = [] ->
  closed l (quoted_record q r) /\ half (quoted_record q r) = [] /\
  (forall rest, no_line_feed l (quoted_record q r) rest) /\
  fst <$> head (units (quoted_record q r)) = Some q /\
  split_fields l (quoted_record q r) = split_fields l r.
Proof.
  intros Hq Hu Hh. pose proof Hq as (_ & Hqu & _). destruct (quote_steps l q Hq) as (Hf & Hqq & _ & _).
  unfold quoted_record. destruct (unit_then l q (unit_bytes l q ++ r) Hqu) as [H1 H2].
  destruct (unit_then l q r Hqu) as [H3 H4]. rewrite H3, Hu in H1. rewrite H4, Hh in H2.
  assert (Hpass : pass l FieldStart [(q, unit_bytes l q); (q, unit_bytes l q)] = Some QuoteInQuoted)
    by (cbn [pass]; by rewrite Hf, Hqq).
  repeat split.
  - eapply (closed_line_feed _ _ [(q, unit_bytes l q); (q, unit_bytes l q)]); [exact H1|exact H2|exact Hpass|done].
  - exact H2.
  - intros rest Hp. rewrite H1 in Hp. cbn [pass] in Hp. by rewrite Hf, Hqq in Hp.
  - by rewrite H1.
  - unfold split_fields. rewrite H1, H2, Hu, Hh. cbn [split_units]. by rewrite Hf, Hqq.
Qed.

(** ** What the sink ends with *)

Context (mark_whole : half mark = []).

Lemma ends_with_return o done r : chain l done -> last done = Some r ->
  pass l FieldStart (units r) = Some AfterCarriageReturn -> o_sink o = mark ++ concat done -> out_ok l o ->
  ends_with_carriage_return l o = true.
Proof.
  intros Hc Hr Hp Hs [Hw Hl]. apply last_Some in Hr as [done' ->].
  destruct (chain_closed l _ _ Hc (last_snoc _ _)) as [_ Hh]. pose proof (chain_whole l _ Hc) as Hwhole.
  destruct (after_return l _ Hp) as (cs & b & Hu).
  destruct (last_chunk l r cs CARRIAGE_RETURN b Hu Hh) as (r' & -> & _ & Hub & _ & Hlb).
  unfold ends_with_carriage_return. apply andb_true_iff. split.
  - apply Nat.eqb_eq. rewrite Hw, Hs. apply length_whole. by rewrite stray_whole.
  - apply bool_decide_eq_true. rewrite Hl, Hs, concat_app. cbn [concat]. rewrite app_nil_r, !app_assoc.
    rewrite length_app, Hlb, Nat.add_sub, drop_app_length, unit_at_first, Hub. done.
Qed.

Lemma nothing_ends_with_return o : out_ok l o -> o_sink o = [] -> ends_with_carriage_return l o = false.
Proof.
  intros [_ Hl] Hs. unfold ends_with_carriage_return. apply andb_false_iff. right.
  apply bool_decide_eq_false. rewrite Hl, Hs, drop_nil. unfold unit_at. by destruct (width l).
Qed.

(** ** Pieces *)

(** What the written text holds for a record of the source, or for the fields of
    a new or replaced record. *)
Inductive Piece : Type :=
| Kept (r : list N)
| Written (fs : list (list char)).

Inductive stored : Piece -> list N -> Prop :=
| stored_kept r : stored (Kept r) r
| stored_quoted q r : quote l = Some q -> units r = [(LINE_FEED, r)] -> half r = [] ->
    stored (Kept r) (quoted_record q r)
| stored_terminated r vs t : terminator_bytes l r = [] -> scanned l r vs -> is_terminator l t ->
    stored (Kept r) (r ++ t)
| stored_written fs x t : rendered_record l e (written_fields fs) x -> t = [] \/ is_terminator l t ->
    stored (Written fs) (x ++ t).

Definition piece_fields (p : Piece) : list (list char) * bool :=
  match p with Kept r => decode_fields r l e | Written fs => (written_fields fs, false) end.

Context (layout_right : layout_for l e).

Lemma stored_decodes p r : (forall fs, p = Written fs -> Forall (decodes_back e) (written_fields fs)) ->
  stored p r -> decode_fields r l e = piece_fields p.
Proof.
  intros Hback Hst. destruct Hst as [r'|q r' Hq Hu Hh|r' vs t Ht Hs Hterm|fs x t Hx Ht]; simpl; [done| | |].
  - unfold decode_fields. pose proof (layout_quote _ _ layout_right q Hq) as Hok.
    destruct (quoted_record_spec q r' Hok Hu Hh) as (_ & _ & _ & _ & ->). done.
  - unfold decode_fields. rewrite (terminated_fields l r' vs t Hs (or_intror Hterm)).
    pose proof (terminated_fields l r' vs [] Hs (or_introl eq_refl)) as Hn. rewrite app_nil_r in Hn. by rewrite Hn.
  - apply decoded_fields; [done|by apply (Hback fs)|done].
Qed.

Lemma no_line_feed_breaks q : quote l = Some q -> q <> LINE_FEED /\ q <> CARRIAGE_RETURN.
Proof. intros Hq. destruct (layout_quote _ _ layout_right q Hq) as (_ & _ & ? & ? & _). done. Qed.

(** The records from [j] to [k] behind a chain, as the writer copies them. *)
Lemma copied_records o done j k g : chain l done -> out_ok l o ->
  o_sink o = mark ++ concat done \/ o_sink o = [] /\ done = [] ->
  Forall (fun r => half r = []) (slice j k) -> tiled l (slice j k) ->
  glued l o (concat (slice j k)) g -> exists out,
    g ++ concat (slice j k) = concat out /\ Forall2 stored (map Kept (slice j k)) out /\
    no_line_feed_after l done (concat out) /\ (chain l (slice j k) -> chain l out) /\ tiled l out /\
    (out = slice j k \/ exists r q rest, slice j k = r :: rest /\ out = quoted_record q r :: rest /\
       closed l (quoted_record q r) /\ terminator_bytes l r <> []).
Proof.
  intros Hc Hok Hs Hwhole Ht Hg.
  assert (Hself : Forall2 stored (map Kept (slice j k)) (slice j k)).
  { clear. induction (slice j k); simpl; by repeat constructor. }
  assert (Hfirst : slice j k = [] \/ exists u, fst <$> head (units (concat (slice j k))) = Some u).
  { destruct (slice j k) as [|r rest]; [by left|]. right. inversion Hwhole as [|? ? Hr _]; subst.
    inversion Ht as [|? ? He _]; subst. apply ends_record_nonempty in He. simpl.
    rewrite chunks_whole by done. destruct (units r) as [|[u b] us] eqn:Hu; [|by exists u].
    destruct He. by rewrite <- (chunks_concat (width l) r), Hu, Hr. }
  destruct Hg as [-> Hno|q Hcr Hq -> Hlf].
  - exists (slice j k). repeat split; try done; [|by left]. intros r Hr Hp.
    destruct Hfirst as [Hnil|[u Hu]]; [left; by rewrite Hnil|].
    destruct Hno as [Hnil|[Hno|Hno]]; [by left| |right; exists u; split; [done|congruence]].
    destruct Hs as [Hs|[_ Hs]]; [|by rewrite Hs in Hr].
    by rewrite (ends_with_return o done r) in Hno.
  - destruct Hs as [Hs|[Hs _]]; [|by rewrite nothing_ends_with_return in Hcr].
    destruct (slice j k) as [|r rest] eqn:Hsl; [by destruct (width l)|].
    inversion Hwhole as [|? ? Hr Hrest]; subst. inversion Ht as [|? ? He Htl]; subst. simpl in Hlf.
    destruct (decide (units r = [])) as [Hnil|Hu].
    { apply ends_record_nonempty in He. destruct He. by rewrite <- (chunks_concat (width l) r), Hnil, Hr. }
    rewrite head_units_app in Hlf by done. destruct (empty_record r _ He Hlf) as [Hur _].
    destruct (quoted_record_spec q r (layout_quote _ _ layout_right q Hq) Hur Hr) as (Hqc & Hqh & Hqn & Hqf & _).
    exists (quoted_record q r :: rest). repeat split.
    + unfold quoted_record. simpl. by rewrite <- !app_assoc.
    + simpl. inversion Hself; subst. constructor; [by apply stored_quoted|done].
    + intros r' _ _. right. exists q. simpl. split; [|by apply no_line_feed_breaks].
      rewrite head_units_app; [done|]. by destruct (units (quoted_record q r)).
    + intros Hch. inversion Hch; subst. by constructor.
    + constructor; [|done]. by apply closed_ends.
    + right. exists r, q, rest. repeat split; try done.
      apply (terminator_nonempty l), terminator_some; [done|]. exists [], LINE_FEED, r. tauto.
Qed.

End Written.

(** ** Walking over the plan *)

Section Walk.
Context `{EncodingLib} {SourceError SinkError : Type} (columns : bool).
Context (source : ByteSource (SourceError:=SourceError)) (sink_fails : nat -> option SinkError).
Context (l : Layout) (e : Encoding) (layout_right : layout_for l e) (window : nat) (window_pos : (0 < window)%nat).
Context (content : list N) (serving : serves content source) (m : nat) (mark_in : (m <= length content)%nat)
  (mark_whole : stray (width l) (take m content) = []).
Context (fallback : list N).

#[local] Abbreviation units := (chunks (width l)).
#[local] Abbreviation half := (stray (width l)).
#[local] Abbreviation all := (source_records l content m).
#[local] Abbreviation off := (start_of l content m).
#[local] Abbreviation slice := (slice l content m).
#[local] Abbreviation mark := (take m content).
#[local] Abbreviation runs := (runs (SourceError:=SourceError) (SinkError:=SinkError) columns).
#[local] Abbreviation stored := (stored l e).
#[local] Abbreviation rendered fs x := (rendered_record l e (written_fields fs) x).

Definition final : list N := default [] (last all).

(** The plan's entry for record [k], with the fields to insert before it. *)
Record entry (k : nat) (p : RecordPlan) (before : list (list (list char))) : Prop := {
  entry_record : (k < length all)%nat;
  entry_end : p_end p = off (S k);
  entry_terminator : p_terminator p = terminator_bytes l (default [] (all !! k));
  entry_before : Forall2 (fun fs x => rendered fs x) before (inserted_before p);
  entry_fallback : before <> [] -> is_terminator l fallback;
}.

(** The pieces that the plan asks for from record [j] on. *)
Inductive covers : nat -> Ordered RecordPlan -> list Piece -> Prop :=
| covers_rest j : (j <= length all)%nat -> (j < length all -> half final = [])%nat ->
    covers j [] (map Kept (drop j all))
| covers_keep j k p P before ps : (j <= k)%nat -> entry k p before -> action p = Keep -> covers k P ps ->
    covers j ((off k, p) :: P) (map Kept (slice j k) ++ map Written before ++ ps)
| covers_replace j k p P before fs x ps : (j <= k)%nat -> entry k p before -> action p = Replace x -> rendered fs x ->
    covers (S k) P ps -> covers j ((off k, p) :: P) (map Kept (slice j k) ++ map Written before ++ Written fs :: ps)
| covers_delete j k p P before ps : (j <= k)%nat -> entry k p before -> action p = Delete -> covers (S k) P ps ->
    covers j ((off k, p) :: P) (map Kept (slice j k) ++ map Written before ++ ps).

(** The text written so far, up to record [j] of the source. *)
Definition behind (ps : list Piece) (o : Output) : Prop := exists done,
  chain l done /\ Forall2 stored ps done /\ out_ok l o /\ o_sink o = mark ++ concat done.

Definition at_record (pos j : nat) (ps : list Piece) (o : Output) : Prop :=
  pos = off j /\ behind ps o \/ pos = 0%nat /\ j = 0%nat /\ ps = [] /\ out_ok l o /\ o_sink o = [].

(** The text after the last record: all records are closed, or the last one is
    the final record of the source or a new one in its place. *)
Definition finished (ps : list Piece) (deleted : bool) (o : Output) : Prop :=
  behind ps o /\ (all = [] \/ deleted = true \/ terminator_bytes l final <> []) \/
  deleted = false /\ exists ps' p done f, ps = ps' ++ [p] /\ chain l done /\ Forall2 stored ps' done /\ out_ok l o /\
    o_sink o = mark ++ concat (done ++ [f]) /\ no_line_feed_after l done f /\ ends_record l f [] /\
    (p = Kept f /\ last all = Some f /\ half f = [] \/
     all <> [] /\ terminator_bytes l final = [] /\ exists fs, p = Written fs /\ rendered fs f).

Lemma behind_app ps o ps' out o' : behind ps o -> chain l out -> Forall2 stored ps' out -> out_ok l o' ->
  (forall r, no_line_feed l r (concat out)) -> o_sink o' = o_sink o ++ concat out -> behind (ps ++ ps') o'.
Proof.
  intros (done & Hc & Hst & _ & Hs) Hout Hst' Hok Hn Hs'. exists (done ++ out). split; [|split; [|split]].
  - apply chain_app; [done|done|]. intros r _. apply Hn.
  - by apply Forall2_app.
  - done.
  - by rewrite Hs', Hs, <- app_assoc, concat_app.
Qed.

Lemma is_terminator_whole x t fs : rendered fs x -> is_terminator l t -> half (x ++ t) = [].
Proof.
  intros [_ _ (vs & [Hx _] & _)] Ht. rewrite stray_whole by done. by destruct (terminator_units l t Ht).
Qed.

Lemma written_behind ps o fs x t o' : behind ps o -> rendered fs x -> is_terminator l t -> out_ok l o' ->
  o_sink o' = o_sink o ++ x ++ t -> behind (ps ++ [Written fs]) o'.
Proof.
  intros Hb Hx Ht Hok Hs. eapply (behind_app _ o _ [x ++ t]); [done| | |done| |].
  - constructor; [by eapply rendered_closed|by eapply is_terminator_whole|by intros _; left|constructor].
  - constructor; [|constructor]. by apply stored_written; [|right].
  - intros r. simpl. rewrite app_nil_r. by eapply rendered_follows.
  - by simpl; rewrite app_nil_r.
Qed.

Lemma write_each_runs ps fss xs t o : behind ps o -> Forall2 (fun fs x => rendered fs x) fss xs ->
  (fss <> [] -> is_terminator l t) ->
  runs (write_each sink_fails l t xs) o (fun _ o' => behind (ps ++ map Written fss) o').
Proof.
  intros Hb Hxs Ht. revert ps o Hb. induction Hxs as [|fs x fss xs Hx _ IH]; intros ps o Hb; cbn [write_each].
  - apply runs_ret. by rewrite app_nil_r.
  - specialize (Ht ltac:(done)). pose proof Hb as (done & _ & _ & Hok & _).
    apply runs_bind. eapply runs_mono; [by apply write_runs|]. cbn beta. intros [] o1 [Hs1 Hok1].
    apply runs_bind. eapply runs_mono; [by apply write_runs|]. cbn beta. intros [] o2 [Hs2 Hok2].
    cbn [map]. rewrite cons_middle, app_assoc. apply IH; [done|].
    eapply written_behind; eauto. by rewrite Hs2, Hs1, app_assoc.
Qed.

Lemma entry_fields k p before : entry k p before -> exists r, all !! k = Some r /\ p_terminator p = terminator_bytes l r /\
  ends_record l r (concat (drop (S k) all)).
Proof.
  intros [Hk _ Ht _ _]. destruct (record_at l content m mark_in k Hk) as (r & Hr & _ & He & _).
  exists r. by rewrite Hr in Ht.
Qed.

Lemma write_inserted_runs k p before ps o : behind ps o -> entry k p before ->
  runs (write_inserted sink_fails l (inserted_before p) (p_terminator p) fallback) o
    (fun _ o' => behind (ps ++ map Written before) o').
Proof.
  intros Hb He. destruct (entry_fields k p before He) as (r & _ & Ht & _). destruct He as [_ _ _ Hbef Hfb].
  unfold write_inserted. apply write_each_runs; [done|done|]. intros Hne. specialize (Hfb Hne). rewrite Ht.
  destruct (terminator_cases l r) as [->|Hterm]; [done|]. pose proof (terminator_nonempty l _ Hterm).
  by destruct (terminator_bytes l r).
Qed.

(** Copying the records from [j] to [k]. *)
Lemma copy_slice pos j k ps o : at_record pos j ps o -> (j <= k)%nat ->
  Forall (fun r => half r = []) (slice j k) -> tiled l (slice j k) ->
  runs (copy source sink_fails l window pos (off k)) o (fun _ o' => exists done out,
    chain l done /\ Forall2 stored ps done /\ out_ok l o' /\ o_sink o' = mark ++ concat (done ++ out) /\
    Forall2 stored (map Kept (slice j k)) out /\
    no_line_feed_after l done (concat out) /\ (chain l (slice j k) -> chain l out) /\ tiled l out /\
    (out = slice j k \/ exists r q rest, slice j k = r :: rest /\ out = quoted_record l q r :: rest /\
       closed l (quoted_record l q r) /\ terminator_bytes l r <> [])).
Proof.
  intros Hat Hjk Hwhole Ht. pose proof (off_le l content m mark_in k) as Hk.
  pose proof (slice_bytes l content m mark_in j k Hjk) as Hbytes.
  pose proof (off_add l content m mark_in j k Hjk) as Hadd.
  destruct Hat as [[-> (done & Hc & Hst & Hok & Hs)]|(-> & -> & -> & Hok & Hs)].
  - eapply runs_mono; [apply (copy_runs _ _ _ _ _ window_pos content); [done|done|lia]|]. cbn beta.
    intros [] o' (g & Hg & Hs' & Hok'). rewrite Hbytes in *.
    destruct (copied_records l e content m mark_whole layout_right o done j k g Hc Hok (or_introl Hs) Hwhole Ht Hg)
      as (out & Hout & Hrest).
    exists done, out. split; [done|]. split; [done|]. split; [done|]. split; [|done].
    by rewrite Hs', Hs, Hout, <- app_assoc, concat_app.
  - eapply runs_mono; [apply (copy_runs _ _ _ _ _ window_pos content); [done|done|lia]|]. cbn beta.
    intros [] o' (g & Hg & Hs' & Hok'). pose proof (nothing_ends_with_return l content m mark_whole o Hok Hs) as Hno.
    assert (g = []) as -> by (destruct Hg; [done|congruence]).
    assert (Hg0 : glued l o (concat (slice 0 k)) []) by (apply not_glued; tauto).
    destruct (copied_records l e content m mark_whole layout_right o [] 0 k [] ltac:(constructor) Hok
      (or_intror (conj Hs eq_refl)) Hwhole Ht Hg0) as (out & Hout & Hrest).
    exists [], out. split; [constructor|]. split; [constructor|]. split; [done|]. split; [|done].
    rewrite Hs', Hs. cbn [app]. rewrite <- Hout, <- Hbytes, drop_0, Nat.sub_0_r. cbn [app].
    rewrite (off_0 l content m mark_in) in *. rewrite <- (take_drop m (take (off k) content)), take_take, skipn_firstn_comm.
    f_equal. f_equal. lia.
Qed.

Lemma slice_whole j k : (j <= k <= length all)%nat -> (k = length all -> j < k -> half final = [])%nat ->
  Forall (fun r => half r = []) (slice j k) /\ tiled l (slice j k).
Proof.
  intros Hjk Hfin. destruct (decide (k = length all)) as [->|Hne].
  - destruct (off_tiled l content m j) as [Ht _]. rewrite slice_all. split; [|done].
    destruct (decide (j < length all)%nat) as [Hlt|]; [|rewrite drop_ge by lia; constructor].
    specialize (Hfin eq_refl Hlt). unfold final in Hfin.
    destruct (drop j all) as [|f rs _] eqn:Hd using rev_ind; [constructor|].
    assert (Hlast : last all = Some f) by by rewrite <- (take_drop j all), Hd, app_assoc, last_snoc.
    rewrite Hlast in Hfin. apply tiled_chain in Ht. apply Forall_app. split; [|by constructor].
    clear -Ht. by induction Ht; constructor.
  - assert (Hc : chain l (slice j k)) by (apply slice_chain; lia).
    split; [clear -Hc; by induction Hc; constructor|].
    rewrite <- (app_nil_r (slice j k)). apply chain_tiled; [done|constructor|]. intros r _ _. by left.
Qed.

Lemma copy_between pos j k ps o : at_record pos j ps o -> (j <= k < length all)%nat ->
  runs (copy source sink_fails l window pos (off k)) o (fun _ o' => behind (ps ++ map Kept (slice j k)) o').
Proof.
  intros Hat Hk. destruct (slice_whole j k) as [Hw Ht]; [lia|lia|].
  assert (Hc : chain l (slice j k)) by (apply slice_chain; lia).
  eapply runs_mono; [apply (copy_slice pos j k ps); done || lia|]. cbn beta.
  intros [] o' (done & out & Hd & Hst & Hok & Hs & Hst' & Hn & Hch & _). exists (done ++ out).
  split; [apply chain_app; auto|]. split; [by apply Forall2_app|]. done.
Qed.

Lemma copy_rest pos j ps deleted o : at_record pos j ps o -> (j <= length all)%nat ->
  (j < length all -> half final = [] /\ deleted = false)%nat ->
  (j = length all -> all = [] \/ deleted = true \/ terminator_bytes l final <> []) ->
  runs (copy source sink_fails l window pos (length content)) o
    (fun _ o' => finished (ps ++ map Kept (drop j all)) deleted o').
Proof.
  intros Hat Hj Hrest Hend. destruct (slice_whole j (length all)) as [Hw Ht]; [lia|intros; apply Hrest; lia|].
  rewrite <- (off_end l content m mark_in), <- slice_all.
  eapply runs_mono; [apply (copy_slice pos j (length all) ps); done || lia|]. cbn beta.
  intros [] o' (done & out & Hd & Hst & Hok & Hs & Hst' & Hn & Hch & Htl & Hcase).
  rewrite slice_all in *. destruct (decide (j = length all)) as [->|Hne].
  { left. split; [|by apply Hend]. rewrite drop_all in *. inversion Hst'; subst. exists (done ++ []).
    rewrite !app_nil_r in *. done. }
  destruct (Hrest ltac:(lia)) as [Hfin ->]. clear Hrest Hend.
  destruct (drop j all) as [|f rs _] eqn:Hdrop using rev_ind.
  { apply (f_equal length) in Hdrop. rewrite length_drop in Hdrop. simpl in Hdrop. lia. }
  assert (Hlast : last all = Some f) by by rewrite <- (take_drop j all), Hdrop, app_assoc, last_snoc.
  assert (Hshape : (exists out', out = out' ++ [f]) \/ closed l (concat out) /\ length out = 1%nat /\
    terminator_bytes l f <> []).
  { destruct Hcase as [->|(r & q & rest & Hsl & -> & Hqc & Hqt)]; [left; by exists rs|].
    destruct rest as [|f' rest _] using rev_ind; [right|left].
    - apply (app_inj_tail rs []) in Hsl as [-> ->]. simpl. by rewrite app_nil_r.
    - rewrite app_comm_cons in Hsl. apply app_inj_tail in Hsl as [_ ->]. by exists (quoted_record l q r :: rest). }
  pose proof (chain_tiled l done out Hd Htl Hn) as Hall. destruct Hshape as [[out' ->]|(Hc & Hone & Hterm)].
  - right. split; [done|]. exists (ps ++ map Kept rs), (Kept f), (done ++ out'), f.
    rewrite map_app, <- app_assoc. rewrite app_assoc in Hall. destruct (tiled_open l _ _ Hall) as (? & ? & ?).
    rewrite map_app in Hst'. apply Forall2_app_inv_l in Hst' as (o1 & o2 & Hst1 & Hst2 & Heq).
    apply Forall2_cons_inv_l in Hst2 as (g & o2' & Hg & Hnil & ->). apply Forall2_nil_inv_l in Hnil as ->.
    apply app_inj_tail in Heq as [-> ->]. rewrite <- app_assoc. split; [done|]. split; [done|].
    split; [by apply Forall2_app|]. do 4 (split; [done|]). left.
    unfold final in Hfin. by rewrite Hlast in Hfin.
  - left. destruct out as [|g [|? ?]]; try done. split; [|right; right; unfold final; by rewrite Hlast].
    exists (done ++ [g]). split; [|by split; [apply Forall2_app|]].
    apply chain_app; [done| |done]. simpl in Hc. rewrite app_nil_r in Hc. constructor; [done| |by intros _; left|constructor].
    by destruct Hc.
Qed.

Lemma last_record k r : S k = length all -> all !! k = Some r -> last all = Some r /\ final = r.
Proof.
  intros Hk Hr. unfold final. assert (Hl : last all = Some r) by (by rewrite last_lookup, <- Hk).
  by rewrite Hl.
Qed.

(** A record with no terminator is the last one. *)
Lemma entry_unterminated k p before : entry k p before -> p_terminator p = [] -> S k = length all.
Proof.
  intros He Ht. destruct (entry_fields k p before He) as (r & Hr & Hp & Hends). destruct He as [Hk _ _ _ _].
  destruct (decide (S k = length all)) as [?|Hne]; [done|]. exfalso.
  assert (Hrest : concat (drop (S k) all) <> []).
  { destruct (off_tiled l content m (S k)) as [Htl _].
    assert (Hlen : (0 < length (drop (S k) all))%nat) by (rewrite length_drop; lia).
    destruct (drop (S k) all) as [|r2 rs]; [simpl in Hlen; lia|].
    inversion Htl as [|? ? He2 _]; subst. apply ends_record_nonempty in He2. by destruct r2. }
  destruct (ended_closed l _ _ Hends Hrest) as [Hc _]. apply (closed_terminated l r Hc). congruence.
Qed.

Lemma entry_terminated k p before : entry k p before -> p_terminator p <> [] -> is_terminator l (p_terminator p).
Proof.
  intros He Ht. destruct (entry_fields k p before He) as (r & _ & Hp & _). rewrite Hp in *.
  by destruct (terminator_cases l r).
Qed.

Lemma final_unterminated k p before : entry k p before -> p_terminator p = [] -> terminator_bytes l final = [].
Proof.
  intros He Ht. destruct (entry_fields k p before He) as (r & Hr & Hp & _).
  destruct (last_record k r (entry_unterminated k p before He Ht) Hr) as [_ ->]. congruence.
Qed.

(** A new record in place of the last one, without a terminator. *)
Lemma replaced_last ps fs x o : behind ps o -> rendered fs x -> all <> [] -> terminator_bytes l final = [] ->
  runs (_ ← write sink_fails l x; _ ← write sink_fails l []; copy source sink_fails l window (length content) (length content))
    o (fun _ o' => finished (ps ++ [Written fs]) false o').
Proof.
  intros (done & Hc & Hst & Hok & Hs) Hx Hall Hterm.
  apply runs_bind. eapply runs_mono; [by apply write_runs|]. cbn beta. intros [] o1 [Hs1 Hok1].
  apply runs_bind. eapply runs_mono; [by apply write_runs|]. cbn beta. intros [] o2 [Hs2 Hok2].
  eapply runs_mono; [apply (copy_runs _ _ _ _ _ window_pos content); [done|done|lia]|]. cbn beta.
  rewrite Nat.sub_diag, take_0. intros [] o3 (g & Hg & Hs3 & Hok3).
  assert (g = []) as -> by (destruct Hg as [->|q _ _ _ Hlf]; [done|by destruct (width l)]).
  right. split; [done|]. exists ps, (Written fs), done, x. do 4 (split; [done|]).
  split; [by rewrite Hs3, Hs2, Hs1, Hs, !app_nil_r, concat_app, <- app_assoc; simpl; rewrite app_nil_r|].
  split; [|split].
  - intros r _. rewrite <- (app_nil_r x). by eapply rendered_follows.
  - destruct Hx as [Hne _ (vs & (_ & _ & _ & s & _ & _ & Hp & _) & _)]. by eapply by_source_end.
  - right. split; [done|]. split; [done|]. by exists fs.
Qed.

Lemma covers_end P ps : covers (length all) P ps -> P = [] /\ ps = [].
Proof.
  inversion 1 as [j Hj Hf|j k p P' before ps' Hjk [Hk _ _ _ _] Ha Hc|j k p P' before fs x ps' Hjk [Hk _ _ _ _] Ha Hx Hc
    |j k p P' before ps' Hjk [Hk _ _ _ _] Ha Hc]; subst; [by rewrite drop_all|lia..].
Qed.

Lemma write_by_range_runs j P qs : covers j P qs -> forall pos ps deleted o, at_record pos j ps o ->
  (deleted = true -> j = length all) ->
  (j = length all -> all = [] \/ deleted = true \/ terminator_bytes l final <> []) ->
  runs (write_by_range source sink_fails l window pos P (length content) fallback) o (fun _ o' =>
    finished (ps ++ qs) (deleted || final_record_is (m, length content) is_delete P) o').
Proof.
  induction 1 as [j Hj Hf|j k p P before qs Hjk He Ha _ IH|j k p P before fs x qs Hjk He Ha Hx Hcov IH
    |j k p P before qs Hjk He Ha _ IH]; intros pos ps deleted o Hat Hdel Hend; cbn [write_by_range];
    [|pose proof He as [Hk Hpe _ _ _]; apply runs_bind; (eapply runs_mono; [by apply (copy_between pos j k ps)|]);
      cbn beta; intros [] o1 Hb1; apply runs_bind;
      (eapply runs_mono; [by eapply write_inserted_runs|]); cbn beta; intros [] o2 Hb2; rewrite <- app_assoc in Hb2;
      assert (deleted = false) as -> by (destruct deleted; [specialize (Hdel eq_refl); lia|done]);
      rewrite Ha; unfold final_record_is; cbn [existsb fst snd orb]; rewrite Ha..].
  - rewrite orb_false_r. apply copy_rest; try done. intros Hlt. split; [by apply Hf|].
    destruct deleted; [specialize (Hdel eq_refl); lia|done].
  - cbn [is_delete]. rewrite andb_false_r. cbn [orb].
    replace (ps ++ _ ++ _ ++ qs) with ((ps ++ map Kept (slice j k) ++ map Written before) ++ qs) by by rewrite <- !app_assoc.
    apply (IH (off k) _ false); [by left|done|lia].
  - cbn [is_delete]. rewrite andb_false_r. cbn [orb].
    replace (ps ++ _ ++ _ ++ _ :: qs) with (((ps ++ map Kept (slice j k) ++ map Written before) ++ [Written fs]) ++ qs)
      by by rewrite <- !app_assoc.
    set (ps2 := ps ++ _) in *. clearbody ps2. rewrite Hpe. destruct (decide (p_terminator p = [])) as [Ht|Ht].
    + pose proof (entry_unterminated k p before He Ht) as Hlast. rewrite Hlast in *.
      destruct (covers_end P qs Hcov) as [-> ->]. rewrite Ht, app_nil_r, (off_end l content m mark_in).
      apply replaced_last; [done|done| |by eapply final_unterminated].
      intros Hnil. rewrite Hnil in Hlast. done.
    + pose proof (entry_terminated k p before He Ht) as Hterm. pose proof Hb2 as (? & _ & _ & Hok2 & _).
      apply runs_bind. eapply runs_mono; [by apply write_runs|]. cbn beta. intros [] o3 [Hs3 Hok3].
      apply runs_bind. eapply runs_mono; [by apply write_runs|]. cbn beta. intros [] o4 [Hs4 Hok4].
      apply (IH (off (S k)) _ false); [left|done|].
      * split; [done|]. eapply written_behind; eauto. by rewrite Hs4, Hs3, app_assoc.
      * intros Hlast. right. right. destruct (entry_fields k p before He) as (r & Hr & Hp & _).
        destruct (last_record k r Hlast Hr) as [_ ->]. congruence.
  - cbn [is_delete]. rewrite andb_true_r.
    replace (ps ++ _ ++ _ ++ qs) with ((ps ++ map Kept (slice j k) ++ map Written before) ++ qs) by by rewrite <- !app_assoc.
    rewrite Hpe. apply (IH (off (S k)) _ (Nat.eqb (off (S k)) (length content))); [by left| |].
    + intros Heq%Nat.eqb_eq. destruct (decide (S k = length all)); [done|].
      pose proof (off_lt l content m mark_in (S k) (length all) ltac:(lia)) as Hlt.
      rewrite (off_end l content m mark_in) in Hlt. lia.
    + intros ->. right. left. by rewrite (off_end l content m mark_in), Nat.eqb_refl.
Qed.


(** ** After the last record *)

Lemma all_bytes : concat all = drop m content.
Proof. destruct (off_tiled l content m 0) as [_ Hc]. by rewrite drop_0, (off_0 l content m mark_in) in Hc. Qed.

Lemma all_shape : all = [] /\ length content = m \/ exists rs f, all = rs ++ [f] /\ final = f /\ chain l rs /\ f <> [].
Proof.
  destruct all as [|f rs _] eqn:Ha using rev_ind.
  - left. split; [done|]. pose proof (off_end l content m mark_in) as He. rewrite Ha in He. simpl in He.
    by rewrite (off_0 l content m mark_in) in He.
  - right. exists rs, f. destruct (off_tiled l content m 0) as [Ht _]. rewrite drop_0, Ha in Ht.
    destruct (tiled_open l _ _ Ht) as (? & _ & He%ends_record_nonempty). unfold final. by rewrite Ha, last_snoc.
Qed.

(** The last two units tell whether the final record has a terminator. *)
Lemma tail_terminator : half final = [] -> all <> [] ->
  let tail := drop (Nat.max (length content - 2 * unit_size l) m) content in
  terminator_bytes l tail = [] <-> terminator_bytes l final = [].
Proof.
  intros Hh Hall. destruct all_shape as [[? _]|(rs & f & Ha & Hf & Hc & Hne)]; [done|]. rewrite Hf in *.
  intros tail. pose proof all_bytes as Hb. rewrite Ha, concat_app in Hb. cbn [concat] in Hb. rewrite app_nil_r in Hb.
  assert (Hu : units f <> []).
  { intros Hu. apply Hne. by rewrite <- (chunks_concat (width l) f), Hu, Hh. }
  assert (Hw : half (drop m content) = []) by (rewrite <- Hb, stray_whole; [done|by apply chain_whole]).
  assert (Hcount : (0 < length (units (drop m content)))%nat).
  { rewrite <- Hb, chunks_whole, length_app by by apply chain_whole. destruct (units f); simpl; [done|lia]. }
  set (n := (length (units (drop m content)) - 2)%nat).
  pose proof (units_length l (drop m content)) as Hlen. rewrite Hw, length_drop in Hlen. simpl in Hlen.
  assert (Htail : tail = drop (unit_size l * n) (drop m content)).
  { unfold tail. rewrite drop_drop. f_equal. pose proof (size_pos l). nia. }
  destruct (units_take l (drop m content) n) as [_ Htw]; [lia|].
  destruct (units_drop l (drop m content) n) as [Hdu _]; [lia|].
  rewrite Htail, <- (terminator_suffix l (take (unit_size l * n) (drop m content))); [|done|].
  - rewrite take_drop, <- Hb. apply terminator_suffix; [by apply chain_whole|done].
  - rewrite Hdu. intros Hnil. apply (f_equal length) in Hnil. rewrite length_drop in Hnil. simpl in Hnil. lia.
Qed.

Lemma terminator_of_runs o : runs (terminator_of source l (m, length content)) o (fun t o' =>
  reads_only o o' /\ (t = [] \/ is_terminator l t) /\ (t = [] <-> all = [] \/ terminator_bytes l final = [])).
Proof.
  unfold terminator_of. cbn [fst snd].
  destruct (decide (all = [])) as [Hnil|Hall].
  { destruct all_shape as [[_ Hlen]|(rs & f & Ha & _)]; [|rewrite Hnil in Ha; by destruct rs].
    destruct (Nat.leb_spec (length content) m); [|lia]. apply runs_ret.
    split; [apply reads_only_refl|]. split; [by left|]. split; [by left|done]. }
  destruct all_shape as [[? _]|(rs & f & Ha & Hf & Hc & Hne)]; [done|].
  pose proof all_bytes as Hb. rewrite Ha, concat_app in Hb. cbn [concat] in Hb. rewrite app_nil_r in Hb.
  assert (Hlt : (m < length content)%nat).
  { apply (f_equal length) in Hb. rewrite length_app, length_drop in Hb. destruct f; [done|]. simpl in Hb. lia. }
  assert (Hhalf : half (drop m content) = half final) by (rewrite <- Hb, Hf; apply stray_whole; by apply chain_whole).
  destruct (Nat.leb_spec (length content) m); [lia|]. cbn [orb]. rewrite <- length_drop.
  destruct (decide (half final = [])) as [Hw|Hw].
  - rewrite length_whole by congruence. cbn [Nat.eqb negb]. apply runs_bind.
    eapply runs_mono; [apply (read_runs _ _ content); [done|lia]|]. cbn beta. intros t o' [-> Ho]. apply runs_ret.
    split; [done|]. rewrite firstn_all2 by (rewrite length_drop; lia). split; [apply terminator_cases|].
    rewrite (tail_terminator Hw Hall). split; [by right|by intros [?|?]].
  - pose proof (length_not_whole l (drop m content) ltac:(congruence)) as Hmod. apply Nat.eqb_neq in Hmod.
    rewrite Hmod. apply runs_ret. split; [apply reads_only_refl|]. split; [by left|].
    split; [|done]. right. apply terminator_none. by left.
Qed.


(** The written text, and its records. *)
Definition settled (ps : list Piece) (o : Output) : Prop := exists done,
  Forall2 stored ps done /\ tiled l done /\ o_sink o = mark ++ concat done.

Lemma behind_settled ps o : behind ps o -> settled ps o.
Proof.
  intros (done & Hc & Hst & _ & Hs). exists done. split; [done|]. split; [|done].
  rewrite <- (app_nil_r done). apply chain_tiled; [done|constructor|]. intros r _ _. by left.
Qed.

Lemma finished_settled ps deleted o : finished ps deleted o -> settled ps o.
Proof.
  intros [[Hb _]|(_ & ps' & p & done & f & -> & Hc & Hst & Hok & Hs & Hn & He & Hp)]; [by apply behind_settled|].
  exists (done ++ [f]). split; [|split; [|done]].
  - apply Forall2_app; [done|]. constructor; [|constructor].
    destruct Hp as [(-> & _)|(_ & _ & fs & -> & Hx)]; [constructor|]. rewrite <- (app_nil_r f).
    by apply stored_written; [|left].
  - apply chain_tiled; [done|by constructor; [|constructor]|]. simpl. by rewrite app_nil_r.
Qed.

Lemma scanned_closed x vs t : scanned l x vs -> is_terminator l t -> closed l (x ++ t).
Proof. intros (Hx & firsts & v & s & _ & Hs & Hp & _) Ht. by eapply terminated_closed. Qed.

(** The final record closed by a terminator. *)
Lemma terminated_behind ps p done f t o : chain l done -> Forall2 stored ps done -> out_ok l o ->
  o_sink o = mark ++ concat (done ++ [f]) ++ t -> no_line_feed_after l done f -> closed l (f ++ t) ->
  stored p (f ++ t) -> units f <> [] -> behind (ps ++ [p]) o.
Proof.
  intros Hc Hst Hok Hs Hn Hcl Hp Hu. exists (done ++ [f ++ t]). split; [|split; [by apply Forall2_app; [|constructor]|]].
  - apply chain_app; [done| |].
    + constructor; [done|by destruct Hcl|by intros _; left|constructor].
    + intros r Hr. simpl. rewrite app_nil_r. by apply no_line_feed_more, Hn.
  - split; [done|]. rewrite Hs, !concat_app. simpl. by rewrite !app_nil_r, <- app_assoc.
Qed.

Lemma open_units f : ends_record l f [] -> half f = [] -> units f <> [].
Proof.
  intros He%ends_record_nonempty Hh Hu. apply He. by rewrite <- (chunks_concat (width l) f), Hu, Hh.
Qed.

(** The piece at the end, when its record may still be open. *)
Lemma final_piece p f t : ends_record l f [] ->
  p = Kept f /\ last all = Some f /\ half f = [] /\ ends_inside_quotes l f = false \/
  all <> [] /\ terminator_bytes l final = [] /\ (exists fs, p = Written fs /\ rendered fs f) ->
  units f <> [] /\ all <> [] /\
  (terminator_bytes l final = [] -> is_terminator l t -> closed l (f ++ t) /\ stored p (f ++ t)) /\
  (terminator_bytes l final <> [] -> closed l f /\ stored p f).
Proof.
  intros He [(-> & Hlast & Hh & Hq)|(Hall & Hterm & fs & -> & Hx)].
  - split; [by apply open_units|]. split; [by intros Hnil; rewrite Hnil in Hlast|]. unfold final. rewrite Hlast. simpl.
    destruct (final_record l (no_line_feed_breaks l e layout_right) f He Hh Hq) as [[Hnone [vs Hvs]]|Hcl].
    + split; [|done]. intros _ Ht. split; [by eapply scanned_closed|by eapply stored_terminated].
    + pose proof (closed_terminated l f Hcl). split; [done|]. intros _. split; [done|constructor].
  - split; [by eapply rendered_units|]. split; [done|]. split; [|done]. intros _ Ht.
    split; [by eapply rendered_closed|]. by apply stored_written; [|right].
Qed.

Lemma write_at_end_runs ps deleted fss xs o : finished ps deleted o -> Forall2 (fun fs x => rendered fs x) fss xs ->
  (fss <> [] -> is_terminator l fallback) ->
  (fss <> [] -> deleted = false -> forall f, last ps = Some (Kept f) -> last all = Some f -> ends_inside_quotes l f = false) ->
  runs (write_at_end source sink_fails l (m, length content) deleted fallback xs) o
    (fun _ o' => settled (ps ++ map Written fss) o').
Proof.
  intros Hf Hxs Hfb Hq. unfold write_at_end. destruct (decide (fss = [])) as [->|Hne].
  { inversion Hxs; subst. apply runs_ret. rewrite app_nil_r. by eapply finished_settled. }
  specialize (Hfb Hne). specialize (Hq Hne).
  destruct xs as [|x xs]; [inversion Hxs; subst; done|]. set (xs0 := x :: xs) in *. clearbody xs0.
  apply runs_bind. eapply runs_mono; [apply terminator_of_runs|]. cbn beta. intros t o1 (Ho & Ht & Hiff).
  assert (Hsink : o_sink o1 = o_sink o) by by eapply reads_only_sink.
  assert (Hterms : forall t', is_terminator l t' -> forall o', behind ps o' ->
    runs (write_inserted sink_fails l xs0 t' t') o' (fun _ o'' => settled (ps ++ map Written fss) o'')).
  { intros t' Ht' o' Hb. unfold write_inserted.
    replace (match t' with [] => t' | _ :: _ => t' end) with t' by by destruct t'.
    eapply runs_mono; [by apply write_each_runs|]. intros [] o''. apply behind_settled. }
  assert (Hreads : behind ps o -> behind ps o1).
  { intros (done & ? & ? & ? & ?). exists done. rewrite Hsink. repeat split; try done; by eapply reads_only_ok. }
  assert (Hlen : all <> [] -> Nat.ltb m (length content) = true).
  { intros Hall. apply Nat.ltb_lt. destruct all_shape as [[? _]|(rs & g & Ha & _)]; [done|].
    pose proof (off_lt l content m mark_in 0 (length all)) as Hlt.
    rewrite (off_0 l content m mark_in), (off_end l content m mark_in), Ha, length_app in Hlt. simpl in Hlt. lia. }
  destruct Hf as [[Hb Hcase]|(-> & ps' & p & done & f & -> & Hc & Hst & Hok & Hs & Hn & He & Hp)].
  - destruct t as [|b t]; [|destruct Ht as [?|Ht]; [done|by apply Hterms; [|apply Hreads]]].
    cbn [fst snd]. replace (Nat.ltb m (length content) && negb deleted) with false.
    { apply runs_bind, runs_ret. by apply Hterms; [|apply Hreads]. }
    symmetry. apply andb_false_iff. pose proof (proj1 Hiff eq_refl) as Hnone.
    destruct all_shape as [[_ Hm]|(rs & g & Ha & _)]; [left; apply Nat.ltb_ge; lia|right].
    destruct Hcase as [Hnil|[->|Hterm]]; [rewrite Hnil in Ha; by destruct rs|done|].
    destruct Hnone as [Hnil|?]; [rewrite Hnil in Ha; by destruct rs|done].
  - destruct (final_piece p f fallback He) as (Hu & Hall & Hopen & Hclosed).
    { destruct Hp as [(-> & Hlast & Hh)|?]; [left|by right]. split; [done|]. split; [done|]. split; [done|].
      apply Hq; [done|by rewrite last_snoc|done]. }
    rewrite Hs in Hsink. destruct t as [|b t].
    + destruct (proj1 Hiff eq_refl) as [?|Hnone]; [done|]. destruct (Hopen Hnone Hfb) as [Hcl Hst'].
      cbn [fst snd negb]. rewrite (Hlen Hall). cbn [andb]. apply runs_bind.
      eapply runs_mono; [apply write_runs; by eapply reads_only_ok|]. cbn beta. intros [] o2 [Hs2 Hok2].
      apply Hterms; [done|]. eapply terminated_behind; eauto. by rewrite Hs2, Hsink, <- app_assoc.
    + destruct Ht as [?|Ht]; [done|]. destruct Hclosed as [Hcl Hst']; [intros Hnone; by assert (b :: t = []) by tauto|].
      apply Hterms; [done|]. eapply (terminated_behind _ _ _ _ []); rewrite ?app_nil_r; eauto. by eapply reads_only_ok.
Qed.

End Walk.
