(* ===== verification/DelimitedPlan.v ===== *)
(** * The plan of a set of edits

    The plan has one entry for every range that an edit names, with what the
    edits of that range ask for, in the order of the edits; and the pieces that
    the walk over the plan writes are those of the edited records. *)

From Stdlib Require Import Sorted.
From S2P Require Import Prelude RustStr RustChar DelimitedScan DelimitedScanProps PagedReader PagedReaderProps DelimitedWriter DelimitedRender DelimitedWriterProps.
Import Delimited PagedReader DelimitedWriter.

(** ** Maps in the order of their keys *)

Section Ordered.
Context {A : Type}.

Definition ordered (m : Ordered A) : Prop := StronglySorted lt (map fst m).

Lemma ordered_get_put k k' (x : A) m : ordered m ->
  ordered_get k' (ordered_put k x m) = if Nat.eqb k' k then Some x else ordered_get k' m.
Proof.
  induction m as [|[k1 y] m IH]; intros Hm; simpl.
  - by destruct (Nat.eqb_spec k' k).
  - inversion Hm as [|? ? Hs Hlt]; subst. destruct (Nat.eqb_spec k k1) as [->|Hne]; simpl.
    + by destruct (Nat.eqb_spec k' k1).
    + destruct (Nat.ltb_spec k k1) as [Hl|Hl]; simpl; [done|]. rewrite IH by done.
      destruct (Nat.eqb_spec k' k1) as [->|]; [|done]. by destruct (Nat.eqb_spec k1 k); [lia|].
Qed.

Lemma ordered_put_ordered k (x : A) m : ordered m -> ordered (ordered_put k x m).
Proof.
  assert (Hkeys : forall k' m, Forall (lt k') (map fst m) -> (k' < k)%nat -> Forall (lt k') (map fst (ordered_put k x m))).
  { intros k' m'. induction m' as [|[k1 y] m' IH]; intros Hm Hk; simpl; [by constructor|].
    inversion Hm as [|? ? H1 H2]; subst. simpl in *.
    destruct (Nat.eqb_spec k k1) as [->|]; [by constructor|].
    destruct (Nat.ltb_spec k k1); simpl; constructor; auto. }
  induction m as [|[k1 y] m IH]; intros Hm; simpl; [by constructor; constructor|].
  inversion Hm as [|? ? Hs Hlt]; subst. simpl in *. destruct (Nat.eqb_spec k k1) as [->|Hne]; [by constructor|].
  destruct (Nat.ltb_spec k k1) as [Hl|Hl]; simpl.
  - constructor; [done|]. simpl. constructor; [done|]. eapply Forall_impl; [exact Hlt|]. simpl. intros. lia.
  - constructor; [by apply IH|]. apply Hkeys; [done|]. simpl. lia.
Qed.

Lemma ordered_get_fresh k (m : Ordered A) : Forall (lt k) (map fst m) -> ordered_get k m = None.
Proof.
  induction m as [|[k1 y] m IH]; intros Hm; [done|]. inversion Hm; subst. simpl in *.
  destruct (Nat.eqb_spec k k1); [lia|auto].
Qed.

Lemma ordered_get_In k (x : A) m : ordered m -> In (k, x) m -> ordered_get k m = Some x.
Proof.
  induction m as [|[k1 y] m IH]; intros Hm; [done|]. inversion Hm as [|? ? Hs Hlt]; subst. simpl in *.
  intros [[= -> ->]|Hin]; [by rewrite Nat.eqb_refl|]. destruct (Nat.eqb_spec k k1) as [->|]; [|by apply IH].
  rewrite Forall_forall in Hlt. exfalso. apply (Nat.lt_irrefl k1), Hlt, list_elem_of_In.
  by apply (in_map fst) in Hin.
Qed.

Lemma ordered_get_Some k (x : A) m : ordered_get k m = Some x -> In (k, x) m.
Proof.
  induction m as [|[k1 y] m IH]; [done|]. simpl. destruct (Nat.eqb_spec k k1) as [->|]; [|auto].
  intros [= ->]. by left.
Qed.

End Ordered.

(** ** The edits of a range *)

Inductive Edit : Type :=
| Replaced (r : Replacement)
| Deleted (r : Range)
| InsertedAt (i : Insertion).

Definition edit_range (x : Edit) : option Range :=
  match x with
  | Replaced r => Some (rp_range r)
  | Deleted r => Some r
  | InsertedAt i => match in_position i with Before r => Some r | End_ => None end
  end.

Definition edit_history (edits : EditSet) : list Edit :=
  map Replaced (replacements edits) ++ map Deleted (deletions edits) ++ map InsertedAt (insertions edits).

(** The edits that name a range, in their order. *)
Definition edits_of (h : list Edit) (rg : Range) : list Edit :=
  List.filter (fun x => bool_decide (edit_range x = Some rg)) h.

(** The fields of the records to insert, and what becomes of the record: its new
    fields, nothing ([Some None]), or itself. *)
Definition inserts (h : list Edit) : list (list (list char)) :=
  omap (fun x => match x with InsertedAt i => Some (in_fields i) | _ => None end) h.
Definition outcomes (h : list Edit) : list (option (list (list char))) :=
  omap (fun x => match x with Replaced r => Some (Some (rp_fields r)) | Deleted _ => Some None | _ => None end) h.

Definition edited_record (h : list Edit) (rg : Range) (r : list N) : list Piece :=
  let own := edits_of h rg in
  map Written (inserts own) ++
  match head (outcomes own) with
  | None => [Kept r]
  | Some None => []
  | Some (Some fs) => [Written fs]
  end.

Fixpoint edited_records (h : list Edit) (start : nat) (rs : list (list N)) : list Piece :=
  match rs with
  | [] => []
  | r :: rs' => edited_record h (start, start + length r)%nat r ++ edited_records h (start + length r) rs'
  end.

Definition fields_at_end (edits : EditSet) : list (list (list char)) :=
  omap (fun i => match in_position i with End_ => Some (in_fields i) | Before _ => None end) (insertions edits).

(** ** Building the plan *)

Section Plan.
Context `{EncodingLib} `{!EncodingLaws} {SourceError SinkError : Type}.
Context (l : Layout) (e : Encoding) (layout_right : layout_for l e) (bounds : Range).

#[local] Abbreviation rendered fs x := (rendered_record l e (written_fields fs) x).
#[local] Abbreviation renderer := (mkRenderer l e).
#[local] Abbreviation planned_record := (planned_record (SourceError:=SourceError) (SinkError:=SinkError)).

(** An entry does what the edits of its range say. *)
Definition does (own : list Edit) (p : RecordPlan) : Prop :=
  Forall2 (fun fs x => rendered fs x) (inserts own) (inserted_before p) /\
  match action p with
  | Keep => outcomes own = []
  | Replace x => exists fs, outcomes own = [Some fs] /\ rendered fs x
  | Delete => outcomes own = [None]
  end.

Definition wants (h : list Edit) (s : nat) (entry : option RecordPlan) : Prop :=
  match entry with
  | None => forall rg, rg.1 = s -> edits_of h rg = []
  | Some p => edits_of h (s, p_end p) <> [] /\ does (edits_of h (s, p_end p)) p /\
      forall rg, rg.1 = s -> rg <> (s, p_end p) -> edits_of h rg = []
  end.

Definition plans (h : list Edit) (M : Ordered RecordPlan) : Prop :=
  ordered M /\ forall s, wants h s (ordered_get s M).

Lemma edits_of_snoc h x rg : edits_of (h ++ [x]) rg =
  edits_of h rg ++ if bool_decide (edit_range x = Some rg) then [x] else [].
Proof. unfold edits_of. rewrite List.filter_app. simpl. by destruct (bool_decide _). Qed.

Lemma edits_of_other h x rg : edit_range x <> Some rg -> edits_of (h ++ [x]) rg = edits_of h rg.
Proof. intros Hne. rewrite edits_of_snoc, bool_decide_false by done. apply app_nil_r. Qed.

Lemma edits_of_own h x rg : edit_range x = Some rg -> edits_of (h ++ [x]) rg = edits_of h rg ++ [x].
Proof. intros Heq. by rewrite edits_of_snoc, bool_decide_true. Qed.

(** The entry for a range: one that is there, or a new one. *)
Lemma planned_record_spec M rg M' p h : plans h M -> planned_record M bounds rg = Ok (M', p) ->
  p_end p = rg.2 /\ does (edits_of h rg) p /\ M' = ordered_put rg.1 p M.
Proof.
  intros [Hm Hw]. unfold DelimitedWriter.planned_record.
  destruct (_ || _); [done|]. destruct (Nat.ltb _ _); [done|].
  specialize (Hw rg.1). destruct (ordered_get rg.1 M) as [p0|] eqn:Hget; cbn zeta; simpl from_option.
  - destruct (Nat.eqb_spec (p_end p0) rg.2) as [He|]; [|done]. intros [= <- <-]. split; [done|].
    destruct Hw as (_ & Hd & _). rewrite He in Hd. split; [by destruct rg|done].
  - simpl. rewrite Nat.eqb_refl. intros [= <- <-]. split; [done|]. split; [|done].
    rewrite (Hw rg eq_refl). by split; [constructor|].
Qed.

(** One more edit of a range. *)
Lemma plans_step h x rg M p : plans h M -> edit_range x = Some rg -> p_end p = rg.2 ->
  (forall rg', rg'.1 = rg.1 -> rg' <> rg -> edits_of h rg' = []) ->
  does (edits_of h rg ++ [x]) p -> plans (h ++ [x]) (ordered_put rg.1 p M).
Proof.
  intros [Hm Hw] Hx Hp Hother Hdoes. split; [by apply ordered_put_ordered|]. intros s.
  rewrite ordered_get_put by done. destruct (Nat.eqb_spec s rg.1) as [->|Hne].
  - assert (Hrg : (rg.1, p_end p) = rg) by (rewrite Hp; by destruct rg). unfold wants. rewrite Hrg.
    rewrite edits_of_own by done. split; [by destruct (edits_of h rg)|]. split; [done|].
    intros rg' Hs1 Hs2. rewrite edits_of_other by congruence. by apply Hother.
  - specialize (Hw s). assert (Hsame : forall rg', rg'.1 = s -> edits_of (h ++ [x]) rg' = edits_of h rg').
    { intros rg' <-. apply edits_of_other. rewrite Hx. intros [= ->]. done. }
    destruct (ordered_get s M) as [q|]; simpl in *.
    + rewrite Hsame by done. destruct Hw as (? & ? & Ho). split; [done|]. split; [done|].
      intros rg' Hs1 Hs2. rewrite Hsame by done. auto.
    + intros rg' Hs1. rewrite Hsame by done. auto.
Qed.

(** The other ranges with the same start are not edited. *)
Lemma planned_alone M rg M' p h : plans h M -> planned_record M bounds rg = Ok (M', p) ->
  forall rg', rg'.1 = rg.1 -> rg' <> rg -> edits_of h rg' = [].
Proof.
  intros [Hm Hw] Hp rg' Hs1 Hs2. destruct (planned_record_spec M rg M' p h (conj Hm Hw) Hp) as (He & _ & _).
  unfold DelimitedWriter.planned_record in Hp.
  destruct (_ || _); [done|]. destruct (Nat.ltb _ _); [done|].
  specialize (Hw rg.1). destruct (ordered_get rg.1 M) as [p0|] eqn:Hget; cbn zeta in Hp; simpl from_option in Hp.
  - destruct (Nat.eqb_spec (p_end p0) rg.2) as [He0|]; [|done].
    destruct Hw as (_ & _ & Ho). apply Ho; [done|]. rewrite He0. by destruct rg.
  - by apply Hw.
Qed.

Lemma ordered_put_put k (x y : RecordPlan) M : ordered_put k y (ordered_put k x M) = ordered_put k y M.
Proof.
  induction M as [|[k1 z] M IH]; simpl; [by rewrite Nat.eqb_refl|].
  destruct (Nat.eqb_spec k k1) as [->|]; simpl; [by rewrite Nat.eqb_refl|].
  destruct (Nat.ltb_spec k k1) as [|]; simpl; [by rewrite Nat.eqb_refl|].
  destruct (Nat.eqb_spec k k1); [done|]. destruct (Nat.ltb_spec k k1); [lia|]. by rewrite IH.
Qed.

#[local] Abbreviation readable fs := (Forall (decodes_back e) (written_fields fs)).

Lemma plan_replacements_plans rs h M M' : plans h M -> Forall (fun r => readable (rp_fields r)) rs ->
  plan_replacements (SourceError:=SourceError) (SinkError:=SinkError) renderer bounds M rs = Ok M' ->
  plans (h ++ map Replaced rs) M'.
Proof.
  revert h M. induction rs as [|r rs IH]; intros h M Hp Hback; cbn [plan_replacements].
  - intros [= <-]. by rewrite app_nil_r.
  - inversion Hback as [|? ? Hr Hrs]; subst. destruct (planned_record M bounds (rp_range r)) as [[M1 p]|] eqn:Hpl; [|done].
    simpl. destruct (planned_record_spec _ _ _ _ _ Hp Hpl) as (He & [Hins Hact] & ->).
    destruct (action p); try done. destruct (render _ _ _) as [x|] eqn:Hx; [|done]. simpl.
    rewrite ordered_put_put. cbn [map]. rewrite cons_middle, app_assoc. apply IH; [|done].
    apply plans_step; [done|done|done|by eapply planned_alone|]. split; simpl.
    + unfold inserts in *. by rewrite omap_app, app_nil_r.
    + exists (rp_fields r). unfold outcomes in *. rewrite omap_app, Hact. split; [done|]. by eapply render_renders.
Qed.

Lemma plan_deletions_plans ds h M M' : plans h M ->
  plan_deletions (SourceError:=SourceError) (SinkError:=SinkError) bounds M ds = Ok M' ->
  plans (h ++ map Deleted ds) M'.
Proof.
  revert h M. induction ds as [|d ds IH]; intros h M Hp; cbn [plan_deletions].
  - intros [= <-]. by rewrite app_nil_r.
  - destruct (planned_record M bounds d) as [[M1 p]|] eqn:Hpl; [|done].
    simpl. destruct (planned_record_spec _ _ _ _ _ Hp Hpl) as (He & [Hins Hact] & ->).
    destruct (action p); try done. rewrite ordered_put_put. cbn [map]. rewrite cons_middle, app_assoc. apply IH.
    apply plans_step; [done|done|done|by eapply planned_alone|]. split; simpl.
    + unfold inserts in *. by rewrite omap_app, app_nil_r.
    + unfold outcomes in *. by rewrite omap_app, Hact.
Qed.

(** A record inserted at the end names no range. *)
Lemma plans_at_end h x M : plans h M -> edit_range x = None -> plans (h ++ [x]) M.
Proof.
  intros [Hm Hw] Hx. split; [done|]. intros s. specialize (Hw s).
  assert (Hsame : forall rg, edits_of (h ++ [x]) rg = edits_of h rg) by (intros rg; apply edits_of_other; congruence).
  destruct (ordered_get s M); simpl in *; setoid_rewrite Hsame; done.
Qed.

Lemma plan_insertions_plans ins index h M at_end M' at_end' : plans h M ->
  Forall (fun i => readable (in_fields i)) ins ->
  plan_insertions (SourceError:=SourceError) (SinkError:=SinkError) renderer bounds index M at_end ins = Ok (M', at_end') ->
  plans (h ++ map InsertedAt ins) M' /\ exists more, at_end' = at_end ++ more /\ Forall2 (fun fs x => rendered fs x)
    (omap (fun i => match in_position i with End_ => Some (in_fields i) | Before _ => None end) ins) more.
Proof.
  revert index h M at_end. induction ins as [|i ins IH]; intros index h M at_end Hp Hback; cbn [plan_insertions].
  - intros [= <- <-]. rewrite app_nil_r. split; [done|]. exists []. by rewrite app_nil_r.
  - inversion Hback as [|? ? Hi Hins]; subst. destruct (render _ _ _) as [x|] eqn:Hx; [|done]. simpl.
    assert (Hren : rendered (in_fields i) x) by by eapply render_renders.
    destruct (in_position i) as [rg|] eqn:Hpos.
    + destruct (planned_record M bounds rg) as [[M1 p]|] eqn:Hpl; [|done]. simpl.
      destruct (planned_record_spec _ _ _ _ _ Hp Hpl) as (He & [Hb Hact] & ->). rewrite ordered_put_put.
      rewrite cons_middle, app_assoc. apply IH; [|done].
      apply plans_step; [done|simpl; by rewrite Hpos|done|by eapply planned_alone|]. split; simpl.
      * unfold inserts in *. rewrite omap_app. simpl. by apply Forall2_app; [|constructor].
      * unfold outcomes in *. rewrite omap_app. simpl. by rewrite app_nil_r.
    + intros Hrest. rewrite cons_middle, app_assoc.
      apply (IH _ (h ++ [InsertedAt i])) in Hrest as (Hplans & more & -> & Hmore); [|by apply plans_at_end; [|simpl; rewrite Hpos]|done].
      split; [done|]. exists (x :: more). rewrite <- app_assoc. by split; [|constructor].
Qed.

(** The edits whose fields decode to themselves once encoded. *)
Definition readable_edits (edits : EditSet) : Prop :=
  Forall (fun r => readable (rp_fields r)) (replacements edits) /\
  Forall (fun i => readable (in_fields i)) (insertions edits).

Lemma build_plans edits header_start plan : readable_edits edits -> appended_columns edits = [] ->
  build (SourceError:=SourceError) (SinkError:=SinkError) renderer bounds edits header_start = Ok plan ->
  plans (edit_history edits) (pl_records plan) /\ pl_appended plan = None /\
  Forall2 (fun fs x => rendered fs x) (fields_at_end edits) (inserted_at_end plan).
Proof.
  intros [Hr Hi] Hcols. unfold build. rewrite Hcols. cbn [plan_appended_columns].
  destruct (plan_replacements _ _ _ _) as [M1|] eqn:Hm1; [|done]. simpl.
  destruct (plan_deletions _ _ _) as [M2|] eqn:Hm2; [|done]. simpl.
  destruct (plan_insertions _ _ _ _ _ _) as [[M3 at_end]|] eqn:Hm3; [|done]. simpl.
  destruct (check_overlaps _ _) as [u|]; [|done]. intros [= <-]. simpl.
  assert (Hnone : plans [] []) by (split; [constructor|]; intros s; by simpl).
  eapply plan_replacements_plans in Hm1; [|done|done]. eapply plan_deletions_plans in Hm2; [|done].
  eapply plan_insertions_plans in Hm3 as (Hp & more & -> & Hmore); [|done|done].
  unfold edit_history. by rewrite app_assoc.
Qed.

End Plan.
