(* ===== verification/DelimitedEdits.v ===== *)
(** * What the delimited writer writes

    The file that a save writes: the mark, and a record for each record that the
    edits leave, with the fields it had or was given, in order; an empty edit set
    copies the source; and what is refused before writing leaves the sink empty. *)

From Stdlib Require Import Sorted.
From S2P Require Import Prelude RustStr RustChar DelimitedScan DelimitedScanProps PagedReader PagedReaderProps DelimitedWriter DelimitedRender DelimitedWriterProps DelimitedPlan.

Import Delimited PagedReader DelimitedWriter.

(** ** From the plan to the pieces *)

Section Covers.
Context `{EncodingLib} (l : Layout) (e : Encoding) (content : list N) (m : nat)
  (mark_in : (m <= length content)%nat) (fallback : list N).

#[local] Abbreviation half := (stray (width l)).
#[local] Abbreviation all := (source_records l content m).
#[local] Abbreviation off := (start_of l content m).
#[local] Abbreviation slice := (slice l content m).
#[local] Abbreviation rendered fs x := (rendered_record l e (written_fields fs) x).
#[local] Abbreviation entry := (entry l e content m fallback).
#[local] Abbreviation covers := (covers l e content m fallback).
#[local] Abbreviation final := (final l content m).

Definition record_of (k : nat) : list N := default [] (all !! k).

(** The pieces [ps] of record [k] are what its entry asks for. *)
Definition asked (k : nat) (p : RecordPlan) (before : list (list (list char))) (ps : list Piece) : Prop :=
  match action p with
  | Keep => ps = map Written before ++ [Kept (record_of k)]
  | Replace x => exists fs, ps = map Written before ++ [Written fs] /\ rendered fs x
  | Delete => ps = map Written before
  end.

Lemma off_inj i k : (i <= length all)%nat -> (k <= length all)%nat -> off i = off k -> i = k.
Proof.
  intros Hi Hk Heq. destruct (Nat.lt_trichotomy i k) as [Hlt|[?|Hlt]]; [|done|].
  - pose proof (off_lt l content m mark_in i k). lia.
  - pose proof (off_lt l content m mark_in k i). lia.
Qed.

Lemma off_mono i k : (i <= length all)%nat -> (k <= length all)%nat -> (off i < off k)%nat -> (i < k)%nat.
Proof.
  intros Hi Hk Hlt. destruct (Nat.lt_trichotomy i k) as [?|[->|Hgt]]; [done|lia|].
  pose proof (off_lt l content m mark_in k i). lia.
Qed.

Lemma kept_run (g : nat -> list Piece) j k : (j <= k <= length all)%nat ->
  (forall i, (j <= i < k)%nat -> g i = [Kept (record_of i)]) ->
  concat (map g (seq j (k - j))) = map Kept (slice j k).
Proof.
  intros Hjk Hg. unfold slice. remember (k - j)%nat as n eqn:Hn. revert j Hjk Hg Hn.
  induction n as [|n IH]; intros j Hjk Hg Hn; [done|]. cbn [seq map concat].
  rewrite Hg by lia. unfold record_of. destruct (lookup_lt_is_Some_2 all j) as [r Hr]; [lia|].
  rewrite (drop_S _ _ _ Hr), Hr. cbn [take map app default from_option]. f_equal.
  apply IH; [lia|intros; apply Hg; lia|lia].
Qed.

(** The entries of [P] ask for the pieces [g] from record [j] on, and the records
    without an entry are kept. *)
Definition described (j : nat) (P : Ordered RecordPlan) (g : nat -> list Piece) : Prop := forall s p, In (s, p) P ->
  exists k before, (j <= k)%nat /\ s = off k /\ entry k p before /\ asked k p before (g k).

Definition plain (j : nat) (P : Ordered RecordPlan) (g : nat -> list Piece) : Prop := forall k,
  (j <= k < length all)%nat -> ordered_get (off k) P = None -> g k = [Kept (record_of k)].

Lemma described_tail j k p P g : ordered ((off k, p) :: P) -> (k < length all)%nat ->
  described j ((off k, p) :: P) g -> described (S k) P g.
Proof.
  intros Ho Hk Hd s p' Hin. inversion Ho as [|? ? Hord Hlt]; subst. simpl in Hlt.
  destruct (Hd s p' ltac:(by right)) as (k' & before & _ & -> & He & Hask). exists k', before. split; [|done].
  pose proof (entry_record _ _ _ _ _ _ _ _ He). apply Nat.le_succ_l, off_mono; [lia|lia|].
  rewrite Forall_forall in Hlt. apply Hlt, list_elem_of_In. by apply (in_map fst) in Hin.
Qed.

Lemma plain_tail j k p P g : (j <= k < length all)%nat -> plain j ((off k, p) :: P) g -> plain (S k) P g.
Proof.
  intros Hjk Hp i Hi Hget. apply Hp; [lia|]. simpl. destruct (Nat.eqb_spec (off i) (off k)) as [Heq|]; [|done].
  apply off_inj in Heq; lia.
Qed.

Lemma pieces_split j k p P g : ordered ((off k, p) :: P) -> (j <= k < length all)%nat -> plain j ((off k, p) :: P) g ->
  concat (map g (seq j (length all - j))) =
  map Kept (slice j k) ++ g k ++ concat (map g (seq (S k) (length all - S k))).
Proof.
  intros Ho Hjk Hp. replace (length all - j)%nat with ((k - j) + S (length all - S k))%nat by lia.
  rewrite seq_app, map_app, concat_app. replace (j + (k - j))%nat with k by lia. cbn [seq map concat]. f_equal.
  apply kept_run; [lia|]. intros i Hi. apply Hp; [lia|]. inversion Ho as [|? ? Hord Hlt]; subst. simpl in Hlt.
  pose proof (off_lt l content m mark_in i k ltac:(lia)) as Hoff.
  simpl. destruct (Nat.eqb_spec (off i) (off k)); [lia|]. apply ordered_get_fresh.
  eapply Forall_impl; [exact Hlt|]. simpl. intros. lia.
Qed.

#[local] Abbreviation final_rewritten P := (final_record_is (m, length content) (fun a => negb (is_keep a)) P).

Lemma final_rewritten_tail k p P : (S k < length all)%nat -> p_end p = off (S k) -> final_rewritten P = false ->
  final_rewritten ((off k, p) :: P) = false.
Proof.
  intros Hk Hpe Hf. unfold final_record_is in *. simpl in Hf |- *. rewrite Hf, Hpe, orb_false_r.
  destruct (Nat.eqb_spec (off (S k)) (length content)) as [Heq|]; [|done].
  pose proof (off_lt l content m mark_in (S k) (length all) ltac:(lia)). rewrite (off_end l content m mark_in) in *. lia.
Qed.

(** Record [k] after what was inserted before it. *)
Definition without_insertions (k : nat) (g : nat -> list Piece) (i : nat) : list Piece :=
  if Nat.eqb i k then [Kept (record_of k)] else g i.

Lemma kept_rest k P g : (k < length all)%nat -> described (S k) P g -> plain (S k) P g ->
  described k P (without_insertions k g) /\ plain k P (without_insertions k g) /\
  concat (map (without_insertions k g) (seq k (length all - k))) =
    [Kept (record_of k)] ++ concat (map g (seq (S k) (length all - S k))).
Proof.
  intros Hk Hd Hp. assert (Hg : forall i, i <> k -> without_insertions k g i = g i).
  { intros i Hi. unfold without_insertions. by destruct (Nat.eqb_spec i k). }
  assert (Hgk : without_insertions k g k = [Kept (record_of k)]) by (unfold without_insertions; by rewrite Nat.eqb_refl).
  split; [|split].
  - intros s p Hin. destruct (Hd s p Hin) as (k' & before & Hlt & ?). exists k', before.
    rewrite Hg by lia. split; [lia|done].
  - intros i Hi Hget. destruct (decide (i = k)) as [->|Hne]; [done|]. rewrite Hg by done. apply Hp; [lia|done].
  - replace (length all - k)%nat with (S (length all - S k)) by lia. cbn [seq map concat]. rewrite Hgk. f_equal. f_equal.
    apply map_ext_in. intros i Hi. apply in_seq in Hi. apply Hg. lia.
Qed.

Lemma covers_build P : forall j (g : nat -> list Piece), (j <= length all)%nat -> ordered P ->
  described j P g -> plain j P g -> (j < length all -> final_rewritten P = false -> half final = [])%nat ->
  covers j P (concat (map g (seq j (length all - j)))).
Proof.
  induction P as [|[s p] P IH]; intros j g Hj Ho Hd Hp Hfin.
  - rewrite kept_run; [|lia|intros; by apply Hp]. rewrite slice_all. constructor; [done|].
    intros Hlt. by apply Hfin.
  - destruct (Hd s p ltac:(by left)) as (k & before & Hjk & -> & He & Hask).
    pose proof He as [Hk Hpe _ _ _]. pose proof Ho as Ho'. inversion Ho' as [|? ? Hord _]; subst.
    rewrite (pieces_split j k p P g) by (done || lia).
    pose proof (described_tail j k p P g Ho Hk Hd) as Hd'. pose proof (plain_tail j k p P g ltac:(lia) Hp) as Hp'.
    assert (Hrest : (S k < length all)%nat -> final_rewritten P = false -> half final = []).
    { intros HSk Hf. apply Hfin; [lia|]. by apply final_rewritten_tail. }
    unfold asked in Hask. destruct (action p) eqn:Ha.
    + destruct (kept_rest k P g Hk Hd' Hp') as (Hd2 & Hp2 & Hpieces). rewrite Hask, <- app_assoc, <- Hpieces.
      apply covers_keep; [done|done|done|]. apply IH; [lia|done|done|done|].
      intros _ Hf. apply Hfin; [lia|]. unfold final_record_is in *. simpl in Hf |- *. by rewrite Ha, andb_false_r.
    + destruct Hask as (fs & -> & Hx). rewrite <- app_assoc. eapply covers_replace; [done..|]. apply IH; done || lia.
    + rewrite Hask. apply covers_delete; [done..|]. apply IH; done || lia.
Qed.

End Covers.

(** ** The checks before writing *)

Section Checks.
Context {SourceError SinkError : Type} (columns : bool) (source : ByteSource (SourceError:=SourceError)) (l : Layout).
Context (content : list N) (serving : serves content source) (m : nat) (mark_in : (m <= length content)%nat).

#[local] Abbreviation runs := (runs (SourceError:=SourceError) (SinkError:=SinkError) columns).
#[local] Abbreviation bounds := (m, length content).

(** The check of a range leaves its terminator, and only reads. *)
Lemma check_boundaries_runs range o : o_sink o = [] -> (m <= range.1 < range.2)%nat -> (range.2 <= length content)%nat ->
  runs (check_record_boundaries source l range bounds) o (fun t o' => reads_only o o' /\
    t = terminator_bytes l (take (range.2 - range.1) (drop range.1 content))).
Proof.
  intros Hs Hr Hend. unfold check_record_boundaries. cbn [fst snd].
  destruct (Nat.eqb_spec (Nat.modulo (range.1 - m) (unit_size l)) 0) as [Hmod|]; cbn [negb]; [|by apply runs_stop; right].
  set (lead := if Nat.eqb range.1 m then 0%nat else unit_size l).
  assert (Hlead : (lead <= range.1)%nat).
  { unfold lead. destruct (Nat.eqb_spec range.1 m); [lia|]. pose proof (size_pos l).
    apply Nat.Div0.div_exact in Hmod. destruct (Nat.div (range.1 - m) (unit_size l)); nia. }
  set (read_end := Nat.min (range.2 + unit_size l) (length content)).
  apply runs_bind. eapply runs_mono; [apply (read_runs _ _ content); [done|lia]|]. cbn beta.
  intros bytes o1 [-> Ho]. assert (Hs1 : o_sink o1 = []) by (by rewrite (reads_only_sink _ _ Ho)).
  destruct (Nat.ltb _ lead); [by apply runs_stop; right|].
  destruct (Nat.ltb 0 lead && _); [by apply runs_stop; right|].
  destruct (record_length _ _ _) as [n|]; [|by apply runs_stop; right].
  destruct (Nat.eqb_spec n (range.2 - range.1)) as [->|]; [|by apply runs_stop; right].
  apply runs_ret. split; [done|]. f_equal. rewrite skipn_firstn_comm, drop_drop, take_take.
  f_equal; [lia|]. f_equal. lia.
Qed.

(** An entry with the terminator of its range. *)
Definition with_terminator (a : nat * RecordPlan) : nat * RecordPlan :=
  (a.1, set_terminator (terminator_bytes l (take (p_end a.2 - a.1) (drop a.1 content))) a.2).

Lemma check_records_runs P o : o_sink o = [] ->
  Forall (fun a => m <= a.1 < p_end a.2 /\ p_end a.2 <= length content)%nat P ->
  runs (check_records source l bounds P) o (fun P' o' => reads_only o o' /\ P' = map with_terminator P).
Proof.
  revert o. induction P as [|[s p] P IH]; intros o Hs HP; cbn [check_records].
  - apply runs_ret. split; [apply reads_only_refl|done].
  - inversion HP as [|? ? [Hr Hend] HP']; subst. simpl in Hr, Hend. apply runs_bind.
    eapply runs_mono; [by apply check_boundaries_runs|]. cbn beta. intros t o1 [Ho1 ->].
    apply runs_bind. eapply runs_mono; [apply IH; [by rewrite (reads_only_sink _ _ Ho1)|done]|]. cbn beta.
    intros P' o2 [Ho2 ->]. apply runs_ret. split; [by eapply reads_only_trans|done].
Qed.

Lemma check_first_runs P mark o : o_sink o = [] ->
  runs (check_first_record source P bounds mark) o (fun _ o' => reads_only o o').
Proof.
  intros Hs. unfold check_first_record. destruct (_ || _); [apply runs_ret, reads_only_refl|].
  destruct (first_copied _ _ _) as [position|]; [|apply runs_ret, reads_only_refl].
  destruct (_ || _); [apply runs_ret, reads_only_refl|].
  apply runs_bind. eapply runs_mono; [apply read_any|]. cbn beta. intros first o1 Ho.
  case_bool_decide; [|by apply runs_ret]. apply runs_stop. right. by rewrite (reads_only_sink _ _ Ho).
Qed.

Lemma check_before_runs plan mark o : o_sink o = [] ->
  Forall (fun a => m <= a.1 < p_end a.2 /\ p_end a.2 <= length content)%nat (pl_records plan) ->
  runs (check_before_writing source l plan bounds mark) o (fun plan' o' => reads_only o o' /\
    plan' = mkPlan (map with_terminator (pl_records plan)) (inserted_at_end plan) (pl_appended plan) /\
    (Nat.modulo (length content - m) (unit_size l) = 0%nat \/
     pl_records plan = [] /\ inserted_at_end plan = [] /\ pl_appended plan = None \/
     final_record_is bounds (fun a => negb (is_keep a)) (pl_records plan) = true)).
Proof.
  intros Hs HP. unfold check_before_writing. cbn [fst snd].
  destruct (_ && _ && _) eqn:Hcut; [by apply runs_stop; right|].
  assert (Hwhole : Nat.modulo (length content - m) (unit_size l) = 0%nat \/
    pl_records plan = [] /\ inserted_at_end plan = [] /\ pl_appended plan = None \/
    final_record_is bounds (fun a => negb (is_keep a)) (pl_records plan) = true).
  { apply andb_false_iff in Hcut as [Hcut|Hcut]; [apply andb_false_iff in Hcut as [Hcut|Hcut]|].
    - left. by apply negb_false_iff, Nat.eqb_eq in Hcut.
    - right. left. repeat apply orb_false_iff in Hcut as [Hcut ?]. repeat split.
      + apply negb_false_iff, bool_decide_eq_true in Hcut. by destruct (pl_records plan).
      + by apply negb_false_iff, bool_decide_eq_true in H0.
      + apply bool_decide_eq_false in H. by destruct (pl_appended plan); [destruct H; eauto|].
    - right. right. by apply negb_false_iff in Hcut. }
  clear Hcut. apply runs_bind. eapply runs_mono; [by apply check_records_runs|]. cbn beta. intros P' o1 [Ho1 ->].
  apply runs_bind. eapply runs_mono; [apply check_first_runs; by rewrite (reads_only_sink _ _ Ho1)|]. cbn beta.
  intros [] o2 Ho2. apply runs_ret. split; [by eapply reads_only_trans|done].
Qed.

Lemma terminator_of_any range o : o_sink o = [] ->
  runs (terminator_of source l range) o (fun t o' => reads_only o o' /\ (t = [] \/ is_terminator l t)).
Proof.
  intros Hs. unfold terminator_of. destruct (_ || _); [apply runs_ret; split; [apply reads_only_refl|by left]|].
  apply runs_bind. eapply runs_mono; [apply read_any|]. cbn beta. intros tail o1 Ho. apply runs_ret.
  split; [done|]. apply terminator_cases.
Qed.

End Checks.

(** ** Saving *)

Section Save.
Context `{EncodingLib} `{!EncodingLaws} {SourceError SinkError : Type}.
Context (source : ByteSource (SourceError:=SourceError)) (sink_fails : nat -> option SinkError).
Context (d : Dialect) (l : Layout) (dialect_ok : for_dialect d = Ok l) (dialect_bytes : byte_dialect d).
Context (window : nat) (window_pos : (0 < window)%nat).
Context (content : list N) (serving : serves content source) (length_u64 : (N.of_nat (length content) <= u64_max)%N).
Context (edits : EditSet) (columns : bool).

#[local] Abbreviation e := (d_encoding d).
#[local] Abbreviation half := (stray (width l)).
#[local] Abbreviation opts := (mkOptions 1 window).
#[local] Abbreviation m := (mark_length d content).
#[local] Abbreviation all := (source_records l content m).
#[local] Abbreviation off := (start_of l content m).
#[local] Abbreviation final := (final l content m).
#[local] Abbreviation history := (edit_history edits).
#[local] Abbreviation runs := (runs (SourceError:=SourceError) (SinkError:=SinkError) columns).
#[local] Abbreviation mark_in := (mark_length_le d content).
#[local] Abbreviation layout_right := (for_dialect_layout d l dialect_bytes dialect_ok).

Lemma mark_is_whole : half (take m content) = [].
Proof.
  rewrite (layout_width _ _ layout_right). unfold mark_length. case_bool_decide as Hp; [|by destruct (width_of e)].
  destruct Hp as [rest ->]. rewrite take_app_length. unfold byte_order_mark, width_of.
  pose proof utf8_not_utf16le. pose proof utf8_not_utf16be. repeat case_bool_decide; done || congruence.
Qed.

(** Opening fails only with an error of the source. *)
Lemma open_fails o h : (0 < page_size o)%nat -> (0 < window_size o)%nat -> open source d o = Err h ->
  exists err, h = Failed (Source err).
Proof.
  intros Hp Hw. unfold open. rewrite dialect_ok. set (r0 := mkReader _ _ _ _ _ _ _ _ _ _ _ _ _).
  pose proof (prepare_with l d o content source serving Hp Hw length_u64 (fun _ => True) r0) as Hprep.
  destruct (prepare r0) as [r' [u|h']]; [done|]. intros [= <-].
  destruct Hprep as [_ (err & _ & -> & _)]; try done. by exists err.
Qed.

#[local] Abbreviation ready := (ready l content source d opts (data_start l d content)).

Lemma first_terminator_runs r o : ready r -> o_sink o = [] ->
  runs (first_terminator source l r) o (fun t o' => reads_only o o' /\ is_terminator l t).
Proof.
  intros Hr Hs. unfold first_terminator.
  assert (Hfirst : forall range n o', o' = mkOutput n (o_writes o) (o_sink o) (last_bytes o) (written o) ->
    runs (terminator ← match range with Some rg => terminator_of source l rg | None => mret [] end;
          mret (match terminator with [] => push_unit l [] LINE_FEED | _ => terminator end)) o'
      (fun t o2 => reads_only o o2 /\ is_terminator l t)).
  { intros range n o' ->. apply runs_bind.
    apply (runs_mono _ _ _ (fun t o2 => reads_only o o2 /\ (t = [] \/ is_terminator l t))).
    - destruct range as [rg|]; [|apply runs_ret; split; [by eexists|by left]].
      eapply runs_mono; [by apply terminator_of_any|]. cbn beta. intros t o2 [[k ->] Ht]. split; [by eexists|done].
    - intros t o2 [Ho Ht]. apply runs_ret. split; [done|]. destruct t; [by left|]. by destruct Ht. }
  destruct (header r) as [h|] eqn:Hh; [exact (Hfirst (Some (byte_range h)) _ _ eq_refl)|].
  unfold DelimitedWriterProps.runs, read_page, mbind, sm_mbind, sm_bind. cbv beta.
  pose proof (read_page_keeping_ready l content source serving d opts (data_start l d content) ltac:(simpl; lia)
    ltac:(simpl; lia) (data_start_le l d content) length_u64 0 0 (set_calls (o_calls o) r) Hr) as Hread.
  destruct (read_page_keeping 0 0 _) as [r' [[page bytes]|h]];
    [exact (Hfirst (fmap (M:=option) byte_range (head (page_records page))) (Nat.max (o_calls o) (calls r')) _ eq_refl)|].
  destruct Hread as [_ (err & _ & -> & _)]. eexists. split; [done|]. by left.
Qed.

(** Every range that an edit names is that of a record. *)
Definition names_records : Prop := forall rg, edits_of history rg <> [] ->
  exists k r, all !! k = Some r /\ rg = (off k, off k + length r)%nat.

(** The final record is kept and a record is inserted after it: then it must not
    end inside quotes. *)
Definition closes_quotes : Prop := fields_at_end edits <> [] -> forall f, last all = Some f ->
  outcomes (edits_of history (length content - length f, length content)%nat) = [] -> ends_inside_quotes l f = false.

Definition edited : list Piece := edited_records history m all ++ map Written (fields_at_end edits).

Definition piece_at (k : nat) : list Piece :=
  edited_record history (off k, off (S k)) (record_of l content m k).

Lemma edited_from j : (j <= length all)%nat ->
  edited_records history (off j) (drop j all) = concat (map piece_at (seq j (length all - j))).
Proof.
  remember (length all - j)%nat as n eqn:Hn. revert j Hn. induction n as [|n IH]; intros j Hn Hj.
  - rewrite drop_ge by lia. done.
  - destruct (record_at l content m mark_in j ltac:(lia)) as (r & Hr & _ & _ & _ & Hoff).
    rewrite (drop_S _ _ _ Hr). cbn [edited_records seq map concat]. rewrite <- Hoff, IH by lia.
    unfold piece_at, record_of. by rewrite Hr.
Qed.

Lemma edited_all : edited_records history m all = concat (map piece_at (seq 0 (length all))).
Proof.
  pose proof (edited_from 0 ltac:(lia)) as He. rewrite (off_0 l content m mark_in), drop_0, Nat.sub_0_r in He. done.
Qed.

(** ** The plan of the edits *)

Section Planned.
Context (P : Ordered RecordPlan) (planned : plans l e history P) (named : names_records).

Lemma planned_entry s p : In (s, p) P -> exists k r, all !! k = Some r /\ s = off k /\ p_end p = off (S k) /\
  does l e (edits_of history (off k, off (S k))) p /\ off (S k) = (off k + length r)%nat /\
  take (p_end p - s) (drop s content) = r.
Proof.
  intros Hin. destruct planned as [Ho Hw]. specialize (Hw s). rewrite (ordered_get_In _ _ _ Ho Hin) in Hw.
  destruct Hw as (Hne & Hdoes & _). destruct (named _ Hne) as (k & r & Hr & [= -> Hend]).
  destruct (record_at l content m mark_in k (lookup_lt_Some _ _ _ Hr)) as (r' & Hr' & _ & _ & Htake & Hoff).
  assert (r' = r) as -> by congruence. exists k, r. rewrite Hend in *. rewrite <- Hoff in *. done.
Qed.

Lemma ordered_get_map k : ordered_get k (map (with_terminator l content) P) =
  (fun p => (with_terminator l content (k, p)).2) <$> ordered_get k P.
Proof.
  clear planned named. induction P as [|[s p] P' IH]; [done|]. simpl. destruct (Nat.eqb_spec k s) as [->|]; done.
Qed.

Lemma planned_bounds : Forall (fun a => m <= a.1 < p_end a.2 /\ p_end a.2 <= length content)%nat P.
Proof.
  apply Forall_forall. intros [s p] Hin%list_elem_of_In. simpl.
  destruct (planned_entry s p Hin) as (k & r & Hr & -> & -> & _). apply lookup_lt_Some in Hr.
  pose proof (off_lt l content m mark_in k (S k) ltac:(lia)). pose proof (off_le l content m mark_in (S k)).
  assert (m <= off k)%nat by (unfold start_of, record_offset; lia). lia.
Qed.

Lemma inserted_fields rg : inserts (edits_of history rg) <> [] -> insertions edits <> [].
Proof.
  clear P planned named. intros Hne Hnil. apply Hne. unfold edit_history. rewrite Hnil, app_nil_r. unfold edits_of, inserts.
  rewrite List.filter_app, omap_app.
  assert (Hmap : forall {A} (f : A -> Edit) xs p, (forall a, match f a with InsertedAt _ => False | _ => True end) ->
    omap (fun x => match x with InsertedAt i => Some (in_fields i) | _ => None end) (List.filter p (map f xs)) = []).
  { intros A f xs p Hf. induction xs as [|a xs IH]; [done|]. simpl. specialize (Hf a).
    destruct (p (f a)); [|done]. simpl. by destruct (f a). }
  by rewrite !Hmap.
Qed.

Context (fallback : list N) (fallback_ok : insertions edits <> [] -> is_terminator l fallback).

Lemma plan_covers :
  (0 < length all -> final_record_is (m, length content) (fun a => negb (is_keep a)) P = false -> half final = [])%nat ->
  covers l e content m fallback 0 (map (with_terminator l content) P) (edited_records history m all).
Proof.
  intros Hfin. rewrite edited_all. pose proof planned as [Ho Hw]. rewrite <- (Nat.sub_0_r (length all)).
  apply covers_build; [apply mark_in|lia| | | |].
  - unfold ordered in *. rewrite map_map. simpl. done.
  - intros s p' Hin. apply in_map_iff in Hin as ([s0 p] & [= -> <-] & Hin).
    destruct (planned_entry s p Hin) as (k & r & Hr & -> & Hend & [Hins Hact] & Hoff & Htake).
    exists k, (inserts (edits_of history (off k, off (S k)))). split; [lia|]. split; [done|]. simpl. split.
    + split; simpl; [by eapply lookup_lt_Some|done|by rewrite Htake, Hr|done|].
      intros Hne. by eapply fallback_ok, inserted_fields.
    + unfold asked, piece_at, edited_record. simpl. destruct (action p) as [|x|].
      * by rewrite Hact.
      * destruct Hact as (fs & -> & Hx). by exists fs.
      * by rewrite Hact, app_nil_r.
  - intros k Hk Hget. rewrite ordered_get_map in Hget. specialize (Hw (off k)).
    destruct (ordered_get (off k) P); [done|]. unfold piece_at, edited_record. by rewrite Hw.
  - intros Hlt Hf. apply Hfin; [lia|]. rewrite <- Hf. unfold final_record_is. clear.
    induction P as [|a P' IH]; [done|]. simpl in IH |- *. by rewrite IH.
Qed.

(** The last piece is the final record only when no edit replaces or deletes it. *)
Lemma final_kept f : final_record_is (m, length content) is_delete P = false ->
  last (edited_records history m all) = Some (Kept f) -> last all = Some f ->
  outcomes (edits_of history (length content - length f, length content)%nat) = [].
Proof.
  intros Hdel Hlast Hf. apply last_Some in Hf as [rs Hall].
  assert (Hlen : length all = S (length rs)) by (rewrite Hall, length_app; simpl; lia).
  destruct (record_at l content m mark_in (length rs) ltac:(lia)) as (r & Hr & _ & _ & _ & Hoff).
  rewrite Hall, list_lookup_middle in Hr by done. injection Hr as <-.
  pose proof (off_end l content m mark_in) as Hend. rewrite Hlen in Hend.
  replace (length content - length f)%nat with (off (length rs)) by lia. rewrite <- Hend.
  rewrite edited_all, Hlen, seq_S, map_app, concat_app in Hlast. simpl in Hlast. rewrite app_nil_r in Hlast.
  unfold piece_at, edited_record in Hlast. set (own := edits_of history _) in *.
  destruct (outcomes own) as [|[fs|] rest] eqn:Hout; [done| |]; simpl in Hlast.
  { by rewrite app_assoc, last_snoc in Hlast. }
  exfalso. destruct planned as [Ho Hw]. specialize (Hw (off (length rs))).
  destruct (ordered_get (off (length rs)) P) as [p|] eqn:Hget; simpl in Hw.
  2: { unfold own in Hout. by rewrite Hw in Hout. }
  destruct Hw as (_ & [_ Hact] & Hother).
  destruct (decide ((off (length rs), off (S (length rs))) = (off (length rs), p_end p))) as [[= Heq]|Hne].
  2: { unfold own in Hout. by rewrite (Hother (off (length rs), off (S (length rs))) eq_refl Hne) in Hout. }
  rewrite <- Heq in Hact. fold own in Hact. rewrite Hout in Hact.
  destruct (action p) eqn:Ha; [done|by destruct Hact as (? & ? & _)|].
  apply not_true_iff_false in Hdel. apply Hdel. unfold final_record_is. apply existsb_exists.
  exists (off (length rs), p). split; [by apply ordered_get_Some|]. simpl. by rewrite Ha, <- Heq, Hend, Nat.eqb_refl.
Qed.

End Planned.

(** What a save leaves in the sink. *)
Definition saved (o : Output) : Prop :=
  settled l e content m edited o /\ (history = [] -> o_sink o = content).

Lemma plain_copy P o : plans l e history P -> P = [] -> fields_at_end edits = [] -> out_ok l o -> o_sink o = [] ->
  runs (copy source sink_fails l window 0 (length content)) o (fun _ o' => saved o').
Proof.
  intros [_ Hw] -> Hend Hok Hs. eapply runs_mono; [apply (copy_runs _ _ _ _ _ window_pos content); [done|done|lia]|].
  cbn beta. rewrite drop_0, Nat.sub_0_r, firstn_all. intros [] o' (g & Hg & Hs' & _).
  assert (g = []) as ->.
  { pose proof (nothing_ends_with_return l content m mark_is_whole o Hok Hs). destruct Hg; [done|congruence]. }
  rewrite Hs in Hs'. simpl in Hs'. split; [|done]. exists all. unfold edited. rewrite Hend, app_nil_r.
  destruct (off_tiled l content m 0) as [Ht Hc]. rewrite drop_0 in Ht, Hc. rewrite (off_0 l content m mark_in) in Hc.
  split; [|split; [done|by rewrite Hs', Hc, take_drop]].
  assert (Hnone : forall rg, edits_of history rg = []) by (intros rg; apply (Hw rg.1); done).
  clear -Hnone. generalize m at 1. induction all as [|r rs IH]; intros s; [constructor|]. simpl.
  unfold edited_record. rewrite Hnone. simpl. constructor; [constructor|apply IH].
Qed.

Context (readable : readable_edits e edits) (no_columns : appended_columns edits = [])
  (named : names_records) (closing : closes_quotes).

Lemma whole_final : Nat.modulo (length content - m) (unit_size l) = 0%nat -> half final = [].
Proof.
  intros Hmod. destruct (all_shape l content m mark_in) as [[Hall _]|(rs & f & Ha & -> & Hc & _)].
  { unfold DelimitedWriterProps.final. rewrite Hall. by destruct (width l). }
  pose proof (all_bytes l content m mark_in) as Hb. rewrite Ha, concat_app in Hb. simpl in Hb. rewrite app_nil_r in Hb.
  destruct (decide (half f = [])) as [?|Hne]; [done|]. exfalso. rewrite <- length_drop in Hmod.
  apply (length_not_whole l (drop m content)); [|done]. by rewrite <- Hb, stray_whole by by apply chain_whole.
Qed.

Lemma at_end_inserted : fields_at_end edits <> [] -> insertions edits <> [].
Proof. unfold fields_at_end. by destruct (insertions edits). Qed.

Lemma write_records_runs plan fallback o : plans l e history (pl_records plan) ->
  Forall2 (fun fs x => rendered_record l e (written_fields fs) x) (fields_at_end edits) (inserted_at_end plan) ->
  (insertions edits <> [] -> is_terminator l fallback) -> out_ok l o -> o_sink o = [] ->
  (Nat.modulo (length content - m) (unit_size l) = 0%nat \/
   final_record_is (m, length content) (fun a => negb (is_keep a)) (pl_records plan) = true) ->
  (history = [] -> False) ->
  runs (_ ← write_by_range source sink_fails l window 0 (map (with_terminator l content) (pl_records plan)) (length content) fallback;
        write_at_end source sink_fails l (m, length content)
          (final_record_is (m, length content) is_delete (pl_records plan)) fallback (inserted_at_end plan))
    o (fun _ o' => saved o').
Proof.
  intros Hp Hend Hfb Hok Hs Hwhole Hsome.
  assert (Hdel : final_record_is (m, length content) is_delete (map (with_terminator l content) (pl_records plan)) =
    final_record_is (m, length content) is_delete (pl_records plan)).
  { unfold final_record_is. clear. induction (pl_records plan) as [|a P' IH]; [done|]. simpl in IH |- *. by rewrite IH. }
  assert (Hfin : (0 < length all)%nat ->
    final_record_is (m, length content) (fun a => negb (is_keep a)) (pl_records plan) = false -> half final = []).
  { intros _ Hf. destruct Hwhole as [Hmod|?]; [by apply whole_final|congruence]. }
  apply runs_bind. eapply runs_mono.
  { apply (write_by_range_runs columns source sink_fails l e layout_right window window_pos content serving m mark_in
      mark_is_whole fallback 0 _ _ (plan_covers (pl_records plan) Hp named fallback Hfb Hfin) 0 [] false).
    - right. by do 3 (split; [done|]).
    - done.
    - intros Heq. left. by apply nil_length_inv. }
  cbn beta. intros [] o1 Hf. cbn [app orb] in Hf. rewrite Hdel in Hf.
  eapply runs_mono; [eapply (write_at_end_runs columns source sink_fails l e layout_right window window_pos content serving m mark_in
      fallback); [exact Hf|exact Hend| |]|].
  - intros Hne. by apply Hfb, at_end_inserted.
  - intros Hne Hkept f Hl Hlast. by apply closing; [| |eapply final_kept].
  - intros [] o2 Hset. by split.
Qed.

Lemma no_history P : plans l e history P -> history = [] -> P = [] /\ fields_at_end edits = [].
Proof.
  intros [Ho Hw] Hnil. split.
  - destruct P as [|[s p] P]; [done|]. specialize (Hw s). simpl in Hw. rewrite Nat.eqb_refl, Hnil in Hw.
    by destruct Hw.
  - unfold edit_history in Hnil. apply app_nil in Hnil as [_ [_ Hins%map_eq_nil]%app_nil].
    unfold fields_at_end. by rewrite Hins.
Qed.

Lemma write_plan_runs reader o : ready reader -> header_right l d content reader -> o_sink o = [] -> out_ok l o ->
  runs (write_plan source sink_fails l window d edits reader) o (fun _ o' => saved o').
Proof.
  intros Hr [Hmark _] Hs Hok. unfold write_plan. rewrite Hmark. pose proof Hr as ((_ & -> & _) & _).
  cbn [fst snd]. destruct (Nat.eqb _ _); cbn [negb]; [|by apply runs_stop; right].
  destruct (build _ _ _ _) as [plan|] eqn:Hb; [|by apply runs_stop; right].
  destruct (build_plans l e layout_right _ _ _ _ readable no_columns Hb) as (Hp & Happ & Hend). clear Hb.
  apply runs_bind. eapply runs_mono.
  { apply (check_before_runs columns source l content serving m mark_in); [done|].
    by apply (planned_bounds (pl_records plan)). }
  cbn beta. intros plan' o1 (Ho1 & -> & Hwhole). cbn [pl_records inserted_at_end pl_appended]. rewrite Happ in *.
  apply runs_bind, (runs_mono _ _ _ (fun fallback o' => reads_only o o' /\ (insertions edits <> [] -> is_terminator l fallback))).
  { destruct (insertions edits); [by apply runs_ret; split|].
    eapply runs_mono; [apply first_terminator_runs; [done|by rewrite (reads_only_sink _ _ Ho1)]|]. cbn beta.
    intros t o2 [Ho2 Ht]. split; [by eapply reads_only_trans|done]. }
  cbn beta. intros fallback o2 [Ho2 Hfb]. pose proof (reads_only_ok l _ _ Ho2 Hok) as Hok2.
  assert (Hs2 : o_sink o2 = []) by (by rewrite (reads_only_sink _ _ Ho2)).
  assert (Hflush : forall o, saved o -> runs (flush sink_fails) o (fun _ o' => saved o')).
  { intros o3 Ho3. unfold DelimitedWriterProps.runs, flush. destruct (sink_fails _); [|done].
    eexists. split; [done|]. by left. }
  destruct (decide (pl_records plan = [] /\ inserted_at_end plan = [])) as [[HP Hnone]|Hedits].
  - rewrite HP, Hnone in *. inversion Hend as [Hends|]; subst. cbn [map write_by_range write_at_end].
    apply runs_bind. eapply runs_mono; [by eapply plain_copy|]. cbn beta. intros [] o3 Ho3.
    apply runs_bind, runs_ret. by apply Hflush.
  - assert (Hassoc : forall (a b : Wr (SourceError:=SourceError) (SinkError:=SinkError) unit) Q,
      runs (_ ← a; b) o2 (fun _ o' => runs (flush sink_fails) o' Q) -> runs (_ ← a; _ ← b; flush sink_fails) o2 Q).
    { clear. intros a b Q. unfold DelimitedWriterProps.runs, mbind, sm_mbind, sm_bind.
      destruct (a o2) as [o3 [[]|h]]; [|done]. by destruct (b o3) as [o4 [[]|h]]. }
    apply Hassoc. eapply runs_mono; [eapply write_records_runs; try done|].
    + destruct Hwhole as [?|[(HP & Hnone & _)|?]]; [by left|by destruct Hedits|by right].
    + intros Hnil. destruct (no_history _ Hp Hnil) as [HP Hfields]. rewrite Hfields in Hend.
      inversion Hend; subst. by destruct Hedits.
    + cbn beta. intros [] o3. apply Hflush.
Qed.

(** The fields of the edits are those that were given. *)
Lemma edited_readable fs : In (Written fs) edited -> Forall (decodes_back e) (written_fields fs).
Proof.
  destruct readable as [Hrep Hins]. rewrite Forall_forall in Hrep. rewrite Forall_forall in Hins.
  assert (Hof : forall x rg, In x (edits_of history rg) ->
    match x with Replaced r => In r (replacements edits) | InsertedAt i => In i (insertions edits) | Deleted _ => True end).
  { intros x rg Hin. apply filter_In in Hin as [Hin _]. unfold edit_history in Hin.
    rewrite !in_app_iff, !in_map_iff in Hin. by destruct Hin as [(? & <- & ?)|[(? & <- & ?)|(? & <- & ?)]]. }
  assert (Hrec : forall rg r, In (Written fs) (edited_record history rg r) -> Forall (decodes_back e) (written_fields fs)).
  { intros rg r Hin. unfold edited_record in Hin. apply in_app_iff in Hin as [Hin|Hin].
    - apply in_map_iff in Hin as (fs' & [= ->] & Hin). apply list_elem_of_In, list_elem_of_omap in Hin as (x & Hx & Heq).
      apply list_elem_of_In, Hof in Hx. destruct x; simplify_eq. by apply Hins, list_elem_of_In.
    - destruct (outcomes (edits_of history rg)) as [|[fs'|] rest] eqn:Hout; simpl in Hin; try by destruct Hin.
      destruct Hin as [[= ->]|[]]. assert (Hin : Some fs ∈ outcomes (edits_of history rg)) by (rewrite Hout; by left).
      apply list_elem_of_omap in Hin as (x & Hx & Heq). apply list_elem_of_In, Hof in Hx. destruct x; simplify_eq.
      by apply Hrep, list_elem_of_In. }
  unfold edited. rewrite in_app_iff. intros [Hin|Hin].
  - revert Hin. generalize m at 1. induction all as [|r rs IH]; intros s; simpl; [done|].
    rewrite in_app_iff. intros [Hin|Hin]; [by eapply Hrec|by eapply IH].
  - apply in_map_iff in Hin as (fs' & [= ->] & Hin). apply list_elem_of_In, list_elem_of_omap in Hin as (i & Hi & Heq).
    destruct (in_position i); simplify_eq. by apply Hins.
Qed.

Lemma stored_all rs : Forall2 (stored l e) edited rs ->
  map (fun r => decode_fields r l e) rs = map (piece_fields l e) edited.
Proof.
  pose proof edited_readable as Hread. intros Hst. induction Hst as [|p r ps rs Hp _ IH]; [done|]. simpl.
  rewrite (stored_decodes l e layout_right p r); [|intros fs ->; apply Hread; by left|done].
  f_equal. apply IH. intros fs Hin. apply Hread. by right.
Qed.

End Save.

(** C31: a save of edits that name records and append no column writes the mark and
    then, as the records of the file, one record for each that the edits leave: every
    kept record with its bytes (or, after a carriage return, an empty one as a pair of
    quotes, or the final one with a terminator), and every new or replaced one with the
    fields it was given, at its place.  Without edits the file is the source.  This
    holds where the delimiter and the quote are bytes, the source answers with its
    content or fails, every new field is one that decodes to itself once the encoding
    represents it ([readable_edits]: legacy encodings break it for a few characters),
    and no record is inserted after a kept final record that ends inside quotes
    ([closes_quotes]: there the inserted record would join it, see
    [insertion_joins_an_unclosed_record]).  A save that fails leaves the sink empty,
    unless it was the source or the sink that failed or an empty line would join the
    line before it. *)
Theorem saved_file_holds_the_edits `{EncodingLib} `{!EncodingLaws} {SourceError SinkError : Type}
    (source : ByteSource (SourceError:=SourceError)) (sink_fails : nat -> option SinkError)
    (d : Dialect) (l : Layout) (edits : EditSet) (window : nat) (content : list N) :
  for_dialect d = Ok l -> byte_dialect d -> (0 < window)%nat ->
  serves content source -> (N.of_nat (length content) <= u64_max)%N ->
  readable_edits (d_encoding d) edits -> appended_columns edits = [] ->
  names_records d l content edits -> closes_quotes d l content edits ->
  match write_edited source sink_fails d edits window with
  | (o, Ok _) => exists rs,
      o_sink o = take (mark_length d content) content ++ concat rs /\ records l (concat rs) = rs /\
      Forall2 (stored l (d_encoding d)) (edited d l content edits) rs /\
      map (fun r => decode_fields r l (d_encoding d)) rs =
        map (piece_fields l (d_encoding d)) (edited d l content edits) /\
      (edit_history edits = [] -> o_sink o = content)
  | (o, Err h) => refused false h o
  end.
Proof.
  intros Hd Hb Hw Hserves Hlen Hread Hcols Hnamed Hclosing. unfold write_edited.
  destruct (open source d (mkOptions 1 window)) as [reader|h] eqn:Hopen.
  2: { apply (open_fails source d l Hd content Hserves Hlen) in Hopen as [err ->]; [|simpl; lia|done].
    eexists. split; [done|]. by left. }
  apply (open_ready d (mkOptions 1 window) l Hd ltac:(simpl; lia) Hw content source reader Hserves Hlen) in Hopen as [Hr Hh].
  pose proof Hr as ((_ & _ & -> & _) & _).
  pose proof (write_plan_runs source sink_fails d l Hd Hb window Hw content Hserves Hlen edits false Hread Hcols Hnamed
    Hclosing reader (mkOutput (calls reader) 0 [] [] 0) Hr Hh eq_refl) as Hrun.
  unfold DelimitedWriterProps.runs in Hrun. destruct (write_plan _ _ _ _ _ _ _ _) as [o [[]|h]]; [|by apply Hrun].
  destruct Hrun as [(rs & Hst & Ht & Hs) Hnone]; [by split|].
  exists rs. split; [done|]. split; [by apply tiled_records|]. split; [done|].
  split; [by eapply (stored_all d l Hd Hb)|done].
Qed.

(** ** Concrete saves *)

(** A file with a carriage return before a record, and an empty record after it. *)
Definition demo_source : list N :=
  text "a;b" ++ [10]%N ++ text "1;x" ++ [13]%N ++ text "2;y" ++ [10; 10]%N ++ text "3;z".

Definition demo_edits : EditSet :=
  mkEdits 16 [mkReplacement (0, 4)%nat [text "k;"; text "v"]] [(8, 12)%nat]
    [mkInsertion (Before (4, 8)%nat) [text "0"; text "w"]; mkInsertion End_ [text "new"; []]] [].

Definition demo_saved : list N :=
  [34]%N ++ text "k;" ++ [34]%N ++ text ";v" ++ [10]%N ++ text "0;w" ++ [13]%N ++ text "1;x" ++
  [13; 34; 34; 10]%N ++ text "3;z" ++ [10]%N ++ text "new;" ++ [10]%N.

Lemma saved_file_holds_the_edits_witness :
  let saved := write_edited (memory_source 1000 demo_source) (fun _ => None : option unit) (demo_dialect true) demo_edits 3 in
  saved.2 = Ok tt /\ o_sink saved.1 = demo_saved /\
  match saved with
  | (o, Ok _) => exists rs,
      o_sink o = take 0 demo_source ++ concat rs /\ records demo_layout (concat rs) = rs /\
      Forall2 (stored demo_layout (0%N : Encoding)) (edited (demo_dialect true) demo_layout demo_source demo_edits) rs /\
      map (fun r => decode_fields r demo_layout (0%N : Encoding)) rs =
        map (piece_fields demo_layout (0%N : Encoding)) (edited (demo_dialect true) demo_layout demo_source demo_edits) /\
      (edit_history demo_edits = [] -> o_sink o = demo_source)
  | (o, Err h) => refused false h o
  end /\
  map (piece_fields demo_layout (0%N : Encoding)) (edited (demo_dialect true) demo_layout demo_source demo_edits) =
    map (fun fs => (fs, false)) [[text "k;"; text "v"]; [text "0"; text "w"]; [text "1"; text "x"]; [[]];
      [text "3"; text "z"]; [text "new"; []]].
Proof.
  split; [vm_compute; reflexivity|]. split; [vm_compute; reflexivity|]. split; [|vm_compute; reflexivity].
  refine (saved_file_holds_the_edits (SinkError:=unit) (memory_source 1000 demo_source) (fun _ => None)
    (demo_dialect true) demo_layout demo_edits 3 demo_source eq_refl _ ltac:(lia) (memory_serves _ _)
    ltac:(vm_compute; discriminate) _ eq_refl _ _).
  - repeat constructor.
  - split; repeat (apply Forall_cons_2 || apply Forall_nil_2); apply byte_text_decodes_back; repeat constructor.
  - intros rg Hne. assert (Hrg : rg = (0, 4)%nat \/ rg = (8, 12)%nat \/ rg = (4, 8)%nat).
    { destruct (decide (rg = (0, 4)%nat \/ rg = (8, 12)%nat \/ rg = (4, 8)%nat)) as [?|Hno]; [done|]. destruct Hne.
      unfold edits_of, edit_history. simpl. repeat (rewrite bool_decide_false by (intros [= <-]; tauto)). done. }
    destruct Hrg as [->|[->| ->]];
      [exists 0%nat, (text "a;b" ++ [10]%N)|exists 2%nat, (text "2;y" ++ [10]%N)|exists 1%nat, (text "1;x" ++ [13]%N)];
      vm_compute; split; reflexivity.
  - intros _ f Hf _. vm_compute in Hf. injection Hf as <-. vm_compute. reflexivity.
Defined.

(** A record inserted after a final record that ends inside quotes becomes a part of it. *)
Example insertion_joins_an_unclosed_record :
  let content := text "a" ++ [10; 34]%N ++ text "b" in
  let edits := mkEdits 4 [] [] [mkInsertion End_ [text "c"]] [] in
  let saved := write_edited (memory_source 1000 content) (fun _ => None : option unit) (demo_dialect false) edits 3 in
  saved.2 = Ok tt /\
  map (fun r => (decode_fields r demo_layout (0%N : Encoding)).1) (records demo_layout (o_sink saved.1)) =
    [[text "a"]; [text "b" ++ [10]%N ++ text "c" ++ [10]%N]].
Proof. vm_compute. done. Qed.

(** ** When the delimited writer fails

    Whatever the edits ask for, appended columns included, a save ends, and one
    that is refused before writing leaves the sink empty. *)

Import Delimited PagedReader DelimitedWriter.

Section Any.
Context {SourceError SinkError : Type} (columns : bool) (source : ByteSource (SourceError:=SourceError))
  (sink_fails : nat -> option SinkError) (l : Layout) (window : nat) (window_pos : (0 < window)%nat).

#[local] Abbreviation runs := (runs (SourceError:=SourceError) (SinkError:=SinkError) columns).
#[local] Abbreviation anything := (fun _ _ => True).

(** ** Checks *)

Lemma check_boundaries_any range bounds o : o_sink o = [] ->
  runs (check_record_boundaries source l range bounds) o (fun _ o' => reads_only o o').
Proof.
  intros Hs. unfold check_record_boundaries. destruct (negb _); [by apply runs_stop; right|].
  apply runs_bind. eapply runs_mono; [apply read_any|]. cbn beta. intros bytes o1 Ho.
  assert (Hs1 : o_sink o1 = []) by (by rewrite (reads_only_sink _ _ Ho)).
  destruct (Nat.ltb _ _); [by apply runs_stop; right|]. destruct (_ && _); [by apply runs_stop; right|].
  destruct (record_length _ _ _) as [n|]; [|by apply runs_stop; right].
  destruct (Nat.eqb _ _); [by apply runs_ret|by apply runs_stop; right].
Qed.

Lemma check_records_any bounds P o : o_sink o = [] ->
  runs (check_records source l bounds P) o (fun _ o' => reads_only o o').
Proof.
  revert o. induction P as [|[s p] P IH]; intros o Hs; cbn [check_records]; [apply runs_ret, reads_only_refl|].
  apply runs_bind. eapply runs_mono; [by apply check_boundaries_any|]. cbn beta. intros t o1 Ho1.
  apply runs_bind. eapply runs_mono; [apply IH; by rewrite (reads_only_sink _ _ Ho1)|]. cbn beta.
  intros P' o2 Ho2. apply runs_ret. by eapply reads_only_trans.
Qed.

Lemma check_before_any plan m n mark o : o_sink o = [] ->
  runs (check_before_writing source l plan (m, n) mark) o (fun plan' o' => reads_only o o' /\
    pl_appended plan' = pl_appended plan).
Proof.
  intros Hs. unfold check_before_writing. destruct (_ && _ && _); [by apply runs_stop; right|].
  apply runs_bind. eapply runs_mono; [by apply check_records_any|]. cbn beta. intros P' o1 Ho1.
  assert (Hs1 : o_sink o1 = []) by (by rewrite (reads_only_sink _ _ Ho1)).
  apply runs_bind. eapply (runs_mono _ _ _ (fun _ o' => reads_only o1 o')).
  - unfold check_first_record. destruct (_ || _); [apply runs_ret, reads_only_refl|].
    destruct (first_copied _ _ _) as [position|]; [|apply runs_ret, reads_only_refl].
    destruct (_ || _); [apply runs_ret, reads_only_refl|].
    apply runs_bind. eapply runs_mono; [apply read_any|]. cbn beta. intros first o2 Ho2.
    case_bool_decide; [|by apply runs_ret]. apply runs_stop. right. by rewrite (reads_only_sink _ _ Ho2).
  - cbn beta. intros [] o2 Ho2. apply runs_ret. split; [by eapply reads_only_trans|done].
Qed.

(** ** Writing *)

Lemma write_each_any t xs o : runs (write_each sink_fails l t xs) o anything.
Proof.
  revert o. induction xs as [|x xs IH]; intros o; [done|]. cbn [write_each].
  apply runs_bind. eapply runs_mono; [apply write_any|]. intros [] o1 _.
  apply runs_bind. eapply runs_mono; [apply write_any|]. intros [] o2 _. apply IH.
Qed.

Lemma write_by_range_any P position n fallback o :
  runs (write_by_range source sink_fails l window position P n fallback) o anything.
Proof.
  revert position o. induction P as [|[s p] P IH]; intros position o; cbn [write_by_range]; [by apply copy_any|].
  apply runs_bind. eapply runs_mono; [by apply copy_any|]. intros [] o1 _.
  apply runs_bind. eapply runs_mono; [apply write_each_any|]. intros [] o2 _.
  destruct (action p); try apply IH.
  apply runs_bind. eapply runs_mono; [apply write_any|]. intros [] o3 _.
  apply runs_bind. eapply runs_mono; [apply write_any|]. intros [] o4 _. apply IH.
Qed.

Lemma write_at_end_any bounds deleted fallback xs o :
  runs (write_at_end source sink_fails l bounds deleted fallback xs) o anything.
Proof.
  unfold write_at_end. destruct xs as [|x xs]; [done|]. apply runs_bind.
  eapply (runs_mono _ _ _ anything).
  - unfold terminator_of. destruct (_ || _); [done|]. apply runs_bind. eapply runs_mono; [apply read_any|]. done.
  - intros [|b t] o1 _; [|apply write_each_any].
    apply runs_bind, (runs_mono _ _ _ anything); [destruct (_ && _); [apply write_any|done]|].
    intros [] o2 _. apply write_each_any.
Qed.

Context (with_columns : columns = true).

Lemma write_extended_any range bytes content fields terminator o :
  runs (write_extended sink_fails l range bytes content fields terminator) o anything.
Proof.
  unfold write_extended. destruct (ends_inside_quotes l bytes); [by apply runs_stop; left|].
  apply runs_bind. eapply runs_mono; [apply write_any|]. intros [] o1 _.
  apply runs_bind. eapply runs_mono; [apply write_any|]. intros [] o2 _. apply write_any.
Qed.

Lemma visit_record_any fields header_start fallback start bytes P o :
  runs (visit_record sink_fails l fields header_start fallback start bytes P) o anything.
Proof.
  unfold visit_record. destruct (ordered_get start P) as [p|].
  - destruct (negb _); [by apply runs_stop; left|].
    apply runs_bind. eapply runs_mono; [apply write_each_any|]. intros [] o1 _.
    apply runs_bind, (runs_mono _ _ _ anything); [|done].
    destruct (action p); [apply write_extended_any| |done].
    apply runs_bind. eapply runs_mono; [apply write_any|]. intros [] o2 _. apply write_any.
  - apply runs_bind. eapply runs_mono; [apply write_extended_any|]. done.
Qed.

End Any.

Section ByRecord.
Context `{EncodingLib} {SourceError SinkError : Type} (source : ByteSource (SourceError:=SourceError))
  (sink_fails : nat -> option SinkError) (l : Layout) (content : list N) (serving : serves content source).

(** The walk over all records ends: every round takes a record. *)
Lemma write_by_record_any fields header_start fallback rounds : forall r c P o,
  sound l content source r -> cursor_ok content c -> (length content - cursor_offset c < rounds)%nat ->
  runs true (write_by_record (SourceError:=SourceError) (SinkError:=SinkError) sink_fails l rounds fields header_start fallback (r, c) P) o (fun _ _ => True).
Proof.
  induction rounds as [|rounds IH]; intros r c P o Hs Hc Hr; [lia|]. unfold runs. cbn [write_by_record fst snd].
  pose proof (next_record_scans l content source serving (fun _ => True) ltac:(done) (set_calls (o_calls o) r) c I Hs Hc) as Hnext.
  unfold scans in Hnext. destruct (next_record _) as [[r' c'] [[n|]|h]]; cbn [fst snd] in Hnext |- *.
  - destruct Hnext as (Hr' & Hc' & Hoff & Hn & Hrem). specialize (Hrem n eq_refl). symmetry in Hn.
    apply record_length_inv in Hn as [Hle He%ends_record_nonempty]. rewrite length_drop in Hle.
    destruct (consume_ok content c' n Hc' Hrem) as [Hc2 Ho2].
    assert (0 < n)%nat by (destruct n; [by rewrite take_0 in He|lia]).
    eapply runs_bind. eapply runs_mono; [by apply visit_record_any|]. cbn beta. intros P' o2 _.
    apply IH; [by eapply sound_called|done|lia].
  - destruct P as [|[s p] P]; [done|]. eexists. split; [done|]. by left.
  - destruct Hnext as [_ (err & _ & -> & _)]. eexists. split; [done|]. by left.
Qed.

End ByRecord.

Section Refusals.
Context `{EncodingLib} {SourceError SinkError : Type} (source : ByteSource (SourceError:=SourceError))
  (sink_fails : nat -> option SinkError) (d : Dialect) (l : Layout) (dialect_ok : for_dialect d = Ok l)
  (edits : EditSet) (window : nat) (window_pos : (0 < window)%nat)
  (content : list N) (serving : serves content source) (length_u64 : (N.of_nat (length content) <= u64_max)%N).

(** Whether the edits append a column. *)
Definition appends : bool := negb (bool_decide (appended_columns edits = [])).

#[local] Abbreviation runs := (runs (SourceError:=SourceError) (SinkError:=SinkError) appends).

Lemma build_appended r bounds header_start plan :
  build (SourceError:=SourceError) (SinkError:=SinkError) r bounds edits header_start = Ok plan ->
  is_Some (pl_appended plan) -> appends = true.
Proof.
  unfold build, appends. destruct (plan_replacements _ _ _ _) as [M1|]; [|done]. simpl.
  destruct (plan_deletions _ _ _) as [M2|]; [|done]. simpl.
  destruct (plan_insertions _ _ _ _ _ _) as [[M3 at_end]|]; [|done]. simpl.
  destruct (plan_appended_columns _ _ _ _ _) as [[M4 fields]|] eqn:Hc; [|done]. simpl.
  destruct (check_overlaps _ _) as [u|]; [|done]. intros [= <-] [fields' Hf]. simpl in Hf.
  destruct (appended_columns edits); [|done]. simpl in Hc. congruence.
Qed.

Lemma write_plan_any reader o :
  ready l content source d (mkOptions 1 window) (data_start l d content) reader -> header_right l d content reader ->
  o_sink o = [] -> runs (write_plan source sink_fails l window d edits reader) o (fun _ _ => True).
Proof.
  intros Hr [Hmark _] Hs. unfold write_plan. destruct (negb _); [by apply runs_stop; right|].
  destruct (build _ _ _ _) as [plan|] eqn:Hb; [|by apply runs_stop; right].
  pose proof (build_appended _ _ _ _ Hb) as Happ. clear Hb. apply runs_bind.
  eapply runs_mono; [by apply check_before_any|]. cbn beta. intros plan' o1 (Ho1 & Happ').
  apply runs_bind, (runs_mono _ _ _ (fun _ _ => True)).
  { destruct (insertions edits); [done|].
    eapply runs_mono; [apply (first_terminator_runs source d l window window_pos content serving length_u64 appends);
      [exact Hr|by rewrite (reads_only_sink _ _ Ho1)]|]. done. }
  intros fallback o2 _. apply runs_bind, (runs_mono _ _ _ (fun _ _ => True)).
  { destruct (pl_appended plan') as [fields|] eqn:Hfields; [|by apply write_by_range_any].
    rewrite Happ by (rewrite <- Happ'; eauto). apply runs_bind. eapply runs_mono; [by apply copy_any|]. intros [] o3 _.
    destruct Hr as (Hsound & _). pose proof Hsound as (_ & Hlen & _). cbn [fst snd]. rewrite Hlen, Hmark.
    pose proof (mark_length_le d content). apply (write_by_record_any source _ _ content serving);
      [done|by apply cursor_at_ok|unfold cursor_offset, cursor_at; simpl; lia]. }
  intros [] o3 _. apply runs_bind. eapply runs_mono; [apply write_at_end_any|]. intros [] o4 _.
  unfold DelimitedWriterProps.runs, flush. destruct (sink_fails _); [eexists; split; [done|by left]|done].
Qed.

End Refusals.

(** C32: a save always ends, and when it ends with an error, whatever the edits ask for
    and whichever calls of the source and the sink fail, nothing was written, unless
    the source or the sink failed, an empty line would join the one before it, or a
    column was being appended to a record that cannot take it. *)
Theorem refusals_leave_the_sink_empty `{EncodingLib} {SourceError SinkError : Type}
    (source : ByteSource (SourceError:=SourceError)) (sink_fails : nat -> option SinkError)
    (d : Dialect) (edits : EditSet) (window : nat) (content : list N) :
  (0 < window)%nat -> serves content source -> (N.of_nat (length content) <= u64_max)%N ->
  match write_edited source sink_fails d edits window with
  | (o, Ok _) => True
  | (o, Err h) => exists err, h = WriteFailed err /\ (late (appends edits) err \/ o_sink o = [])
  end.
Proof.
  intros Hw Hserves Hlen. unfold write_edited. destruct (for_dialect d) as [l|err] eqn:Hd.
  2: { unfold open. rewrite Hd. eexists. split; [done|]. by right. }
  destruct (open source d (mkOptions 1 window)) as [reader|h] eqn:Hopen.
  2: { apply (open_fails source d l Hd content Hserves Hlen) in Hopen as [err ->]; [|simpl; lia|done].
    eexists. split; [done|]. by left. }
  apply (open_ready d (mkOptions 1 window) l Hd ltac:(simpl; lia) Hw content source reader Hserves Hlen) in Hopen as [Hr Hh].
  pose proof Hr as ((_ & _ & -> & _) & _).
  pose proof (write_plan_any source sink_fails d l edits window Hw content Hserves Hlen reader
    (mkOutput (calls reader) 0 [] [] 0) Hr Hh eq_refl) as Hrun.
  unfold DelimitedWriterProps.runs in Hrun. by destruct (write_plan _ _ _ _ _ _ _ _) as [o [[]|h]].
Qed.

(** A range that is no record, beside a column to append. *)
Lemma refusals_leave_the_sink_empty_witness :
  let refused := write_edited (memory_source 1000 demo_source) (fun _ => None : option unit) (demo_dialect true)
    (mkEdits 16 [] [(8, 11)%nat] [] [mkColumn (text "c") [] []]) 3 in
  refused.2 = Err (WriteFailed (NotARecord (8, 11)%nat)) /\
  match refused with
  | (o, Ok _) => True
  | (o, Err h) => exists err, h = WriteFailed err /\ (late true err \/ o_sink o = [])
  end.
Proof.
  split; [vm_compute; reflexivity|].
  refine (refusals_leave_the_sink_empty (SinkError:=unit) (memory_source 1000 demo_source) (fun _ => None)
    (demo_dialect true) (mkEdits 16 [] [(8, 11)%nat] [] [mkColumn (text "c") [] []]) 3 demo_source
    ltac:(lia) (memory_serves _ _) ltac:(vm_compute; discriminate)).
Defined.
