(* ===== verification/RustOrd.v ===== *)
(** * The order of Rust's standard types

    [Ord] as derived for the types the code sorts: characters by their scalar
    value, vectors and strings lexicographically, [None] before [Some], tuples
    by their components from the left.  (Strings compare by their UTF-8 bytes,
    which is the order of their scalar values.)  [OrdLaws] is the contract of
    the trait; [slice::sort] is [sort_ord], and two lists sort to the same list
    exactly when one is a permutation of the other. *)

From stdpp Require Import sorting.
From S2P Require Import Prelude.

Class Ord (A : Type) := cmp : A -> A -> comparison.

Class OrdLaws (A : Type) `{Ord A} := {
  cmp_eq (x y : A) : cmp x y = Eq <-> x = y;
  cmp_opp (x y : A) : cmp y x = CompOpp (cmp x y);
  cmp_lt_trans (x y z : A) : cmp x y = Lt -> cmp y z = Lt -> cmp x z = Lt;
}.

#[export] Instance ord_N : Ord N := N.compare.

Fixpoint list_cmp {A} `{Ord A} (l k : list A) : comparison :=
  match l, k with
  | [], [] => Eq
  | [], _ :: _ => Lt
  | _ :: _, [] => Gt
  | x :: l', y :: k' =>
      match cmp x y with
      | Eq => list_cmp l' k'
      | c => c
      end
  end.
#[export] Instance ord_list {A} `{Ord A} : Ord (list A) := list_cmp.

#[export] Instance ord_option {A} `{Ord A} : Ord (option A) := fun x y =>
  match x, y with
  | None, None => Eq
  | None, Some _ => Lt
  | Some _, None => Gt
  | Some a, Some b => cmp a b
  end.

#[export] Instance ord_prod {A B} `{Ord A, Ord B} : Ord (A * B) := fun p q =>
  match cmp p.1 q.1 with
  | Eq => cmp p.2 q.2
  | c => c
  end.

Definition ord_le {A} `{Ord A} (x y : A) : bool :=
  match cmp x y with Gt => false | _ => true end.

(** [slice::sort]: a stable sort by the order of the elements. *)
Definition sort_ord {A} `{Ord A} (l : list A) : list A := sort_with ord_le l.

(** [Iterator::min_by]: the first of the least elements. *)
Definition min_by {A} (c : A -> A -> comparison) (l : list A) : option A :=
  match l with
  | [] => None
  | x :: l' => Some (foldl (fun best y => match c best y with Gt => y | _ => best end) x l')
  end.

(** ** The laws *)

#[export] Instance ord_N_laws : OrdLaws N.
Proof.
  split; unfold cmp, ord_N.
  - intros x y. apply N.compare_eq_iff.
  - intros x y. apply N.compare_antisym.
  - intros x y z. rewrite !N.compare_lt_iff. lia.
Qed.

Lemma cmp_refl {A} `{OrdLaws A} (x : A) : cmp x x = Eq.
Proof. by apply cmp_eq. Qed.

#[export] Instance ord_list_laws {A} `{OrdLaws A} : OrdLaws (list A).
Proof.
  split; unfold cmp at 1, ord_list.
  - intros l. induction l as [|x l IH]; intros [|y k]; simpl; try done.
    destruct (cmp x y) eqn:Hxy; [apply cmp_eq in Hxy as ->; rewrite IH; naive_solver| |];
      split; try done; intros [= -> ->]; by rewrite cmp_refl in Hxy.
  - unfold cmp, ord_list. intros l. induction l as [|x l IH]; intros [|y k]; simpl; try done.
    rewrite (cmp_opp x y). destruct (cmp x y); simpl; auto.
  - unfold cmp, ord_list.
    intros l. induction l as [|x l IH]; intros [|y k] [|z m]; simpl; try done.
    destruct (cmp x y) eqn:Hxy; [apply cmp_eq in Hxy as ->| |done];
      (destruct (cmp y z) eqn:Hyz; [apply cmp_eq in Hyz as ->| |try done]).
    + apply IH.
    + done.
    + by rewrite Hxy.
    + by rewrite (cmp_lt_trans x y z).
Qed.

#[export] Instance ord_option_laws {A} `{OrdLaws A} : OrdLaws (option A).
Proof.
  split.
  - intros [x|] [y|]; try done. change (cmp x y = Eq <-> Some x = Some y).
    rewrite (cmp_eq x y). naive_solver.
  - intros [x|] [y|]; try done. apply (cmp_opp x y).
  - intros [x|] [y|] [z|]; try done. apply (cmp_lt_trans x y z).
Qed.

#[export] Instance ord_prod_laws {A B} `{OrdLaws A, OrdLaws B} : OrdLaws (A * B).
Proof.
  assert (Hcmp : forall (a a' : A) (b b' : B), cmp (a, b) (a', b') =
    match cmp a a' with Eq => cmp b b' | c => c end) by done.
  split.
  - intros [a b] [a' b']. rewrite Hcmp. destruct (cmp a a') eqn:Ha;
      [apply cmp_eq in Ha as ->; rewrite (cmp_eq b b'); naive_solver| |];
      split; try done; intros [= -> ->]; by rewrite cmp_refl in Ha.
  - intros [a b] [a' b']. rewrite !Hcmp, (cmp_opp a a'), (cmp_opp b b').
    by destruct (cmp a a').
  - intros [a b] [a' b'] [a2 b2]. rewrite !Hcmp.
    destruct (cmp a a') eqn:Ha; [apply cmp_eq in Ha as ->| |done];
      (destruct (cmp a' a2) eqn:Ha2; [apply cmp_eq in Ha2 as ->| |try done]).
    + apply (cmp_lt_trans b b' b2).
    + done.
    + by rewrite Ha.
    + by rewrite (cmp_lt_trans a a' a2).
Qed.

Section sorting.
Context {A : Type} `{OrdLaws A}.
Implicit Types (x y z : A) (l k : list A).

#[local] Instance ord_le_dec : RelDecision (fun x y => ord_le x y = true).
Proof. intros x y. solve_decision. Defined.

#[global] Instance ord_le_trans : Transitive (fun x y => ord_le x y = true).
Proof.
  intros x y z. unfold ord_le.
  destruct (cmp x y) eqn:Hxy; [apply cmp_eq in Hxy as ->; done| |done].
  destruct (cmp y z) eqn:Hyz; [apply cmp_eq in Hyz as ->; by rewrite Hxy| |done].
  by rewrite (cmp_lt_trans x y z).
Qed.

#[global] Instance ord_le_anti : AntiSymm (=) (fun x y => ord_le x y = true).
Proof.
  intros x y. unfold ord_le. rewrite (cmp_opp x y).
  destruct (cmp x y) eqn:Hxy; simpl; try done. intros _ _. by apply cmp_eq.
Qed.

Lemma ord_le_total x y : ord_le x y = false -> ord_le y x = true.
Proof. unfold ord_le. rewrite (cmp_opp x y). by destruct (cmp x y). Qed.

Lemma insert_with_hd x y l :
  HdRel (fun x y => ord_le x y = true) y l -> ord_le y x = true ->
  HdRel (fun x y => ord_le x y = true) y (insert_with ord_le x l).
Proof.
  intros Hl Hx. destruct l as [|z l]; simpl; [by constructor|].
  destruct (ord_le x z); constructor; [done|]. by inversion Hl.
Qed.

Lemma sort_ord_sorted l : Sorted (fun x y => ord_le x y = true) (sort_ord l).
Proof.
  unfold sort_ord, sort_with. induction l as [|x l IH]; simpl; [constructor|].
  induction IH as [|y k Hk IHk Hy]; simpl; [by repeat constructor|].
  destruct (ord_le x y) eqn:Hxy; [by repeat constructor|].
  constructor; [done|]. apply insert_with_hd; [done|]. by apply ord_le_total.
Qed.

(** Sorting forgets the order and nothing else. *)
Lemma sort_ord_eq l k : sort_ord l = sort_ord k <-> l ≡ₚ k.
Proof.
  split; intros Heq.
  - unfold sort_ord in Heq. rewrite <- (sort_with_perm ord_le l), Heq. apply sort_with_perm.
  - eapply (Sorted_unique (fun x y => ord_le x y = true)); [apply sort_ord_sorted..|].
    unfold sort_ord. rewrite !sort_with_perm. done.
Qed.
End sorting.

(** What [min_by] finds is an element, and none is below it. *)
Lemma min_by_elem {A} (c : A -> A -> comparison) l x : min_by c l = Some x -> x ∈ l.
Proof.
  destruct l as [|y l]; [done|]. simpl. intros [= <-].
  revert y. induction l as [|z l IH]; intros y; simpl; [by constructor|].
  destruct (c y z); specialize (IH y) as Hy; specialize (IH z) as Hz; set_solver.
Qed.

Lemma ord_le_cmp {A} `{Ord A} (x y : A) : ord_le x y = true <-> cmp x y <> Gt.
Proof. unfold ord_le. by destruct (cmp x y). Qed.

Lemma min_by_least {A B} `{OrdLaws B} (f : A -> B) l x y :
  min_by (fun a b => cmp (f a) (f b)) l = Some x -> y ∈ l -> ord_le (f x) (f y) = true.
Proof.
  destruct l as [|z l]; [done|]. simpl. intros [= <-].
  revert z y. induction l as [|w l IH]; intros z y Hy; simpl.
  - apply list_elem_of_singleton in Hy as ->. unfold ord_le. by rewrite cmp_refl.
  - assert (Hbest : forall b, ord_le (f b) (f z) = true -> ord_le (f b) (f w) = true ->
      forall k, k = b -> (y = z \/ y = w \/ y ∈ l) ->
      ord_le (f (foldl (fun best y => match cmp (f best) (f y) with Gt => y | _ => best end) k l)) (f y) = true).
    { intros b Hz Hw k -> Hin. destruct Hin as [->|[->|Hin]]; [| |apply IH; by right];
        (eapply ord_le_trans; [apply (IH b b); by left|done]). }
    apply elem_of_cons in Hy. rewrite elem_of_cons in Hy.
    destruct (cmp (f z) (f w)) eqn:Hc; eapply Hbest; try done; unfold ord_le;
      rewrite ?cmp_refl, ?Hc; try done; by rewrite (cmp_opp (f z) (f w)), Hc.
Qed.

Lemma min_by_none {A} (c : A -> A -> comparison) l : min_by c l = None <-> l = [].
Proof. by destruct l. Qed.
