(* ===== verification/SchemaDrift.v ===== *)
(** * Comparing schema snapshots (crates/dbflux_core: schema/schema_drift.rs)

    Two descriptions of a table are compared column by column, the differences of
    two whole schemas are listed with their risk, and the differences a user
    selects for one table become one request to alter it.  [TableInfo] holds the
    fields the comparison reads; the fields it only carries along (constraints,
    sampled fields, presentation, storage hints) are left out. *)

From S2P Require Import Prelude RustStr RustChar Classification VisualQuery RustOrd.

Module SchemaDrift.

(** ** Tables (schema/types.rs) *)

Record ColumnInfo := mkColumnInfo {
  ci_name : list char;
  ci_type_name : list char;
  ci_nullable : bool;
  ci_is_primary_key : bool;
  ci_default_value : option (list char);
  ci_enum_values : option (list (list char));
}.

Record IndexInfo := mkIndexInfo {
  ii_name : list char;
  ii_columns : list (list char);
  ii_is_unique : bool;
  ii_is_primary : bool;
}.

Inductive IndexDirection : Type :=
| Ascending | Descending | Text | Hashed | Geo2d | Geo2dSphere.

Record CollectionIndexInfo := mkCollectionIndex {
  cx_name : list char;
  cx_keys : list (list char * IndexDirection);
  cx_is_unique : bool;
  cx_is_sparse : bool;
  cx_expire_after_seconds : option Z;
}.

Inductive IndexData : Type :=
| Relational (indexes : list IndexInfo)
| Document (indexes : list CollectionIndexInfo).

Record ForeignKeyInfo := mkForeignKey {
  fk_name : list char;
  fk_columns : list (list char);
  fk_referenced_table : list char;
  fk_referenced_schema : option (list char);
  fk_referenced_columns : list (list char);
  fk_on_delete : option (list char);
  fk_on_update : option (list char);
}.

Record TableInfo := mkTableInfo {
  ti_name : list char;
  ti_schema : option (list char);
  ti_columns : option (list ColumnInfo);
  ti_indexes : option IndexData;
  ti_foreign_keys : option (list ForeignKeyInfo);
}.

(** ** Changes *)

Record ColumnSnapshot := mkColumn {
  cs_name : list char;
  cs_type_name : list char;
  cs_nullable : bool;
  cs_is_primary_key : bool;
  cs_default_value : option (list char);
}.

Record IndexSnapshot := mkIndex {
  is_name : list char;
  is_columns : list (list char);
  is_is_unique : bool;
}.

Definition index_snapshot (info : IndexInfo) : IndexSnapshot :=
  mkIndex (ii_name info) (ii_columns info) (ii_is_unique info).

Inductive SchemaChange : Type :=
| ColumnAdded (c : ColumnSnapshot)
| ColumnRemoved (c : ColumnSnapshot)
| ColumnTypeChanged (before after : ColumnSnapshot)
| NullabilityChanged (column : list char) (before after : bool)
| DefaultChanged (column : list char) (before after : option (list char))
| PrimaryKeyChanged (before after : list (list char))
| ForeignKeyChanged
| IndexAdded (i : IndexSnapshot)
| IndexRemoved (i : IndexSnapshot).

Record RiskedChange := mkRisked { rc_change : SchemaChange; rc_risk : ExecutionClassification }.

Inductive TableChange : Type :=
| TableAdded (t : TableInfo)
| TableRemoved (t : TableRef)
| TableModified (table : TableRef) (changes : list RiskedChange).

#[export] Instance ColumnSnapshot_eq_dec : EqDecision ColumnSnapshot.
Proof. solve_decision. Defined.
#[export] Instance IndexSnapshot_eq_dec : EqDecision IndexSnapshot.
Proof. solve_decision. Defined.
#[export] Instance SchemaChange_eq_dec : EqDecision SchemaChange.
Proof. solve_decision. Defined.

(** ** Comparing two tables *)

Definition column_snapshot (c : ColumnInfo) : ColumnSnapshot :=
  mkColumn (ci_name c) (ci_type_name c) (ci_nullable c) (ci_is_primary_key c) (ci_default_value c).

(** [columns.as_deref().unwrap_or(&[])] as snapshots. *)
Definition table_columns (t : TableInfo) : list ColumnSnapshot :=
  map column_snapshot (default [] (ti_columns t)).

Definition find_column (name : list char) (cols : list ColumnSnapshot) : option ColumnSnapshot :=
  List.find (fun c => bool_decide (cs_name c = name)) cols.

(** The first loop of [diff_table_info], on one column of [before]. *)
Definition diff_column (after_cols : list ColumnSnapshot) (bc : ColumnSnapshot)
  : list SchemaChange :=
  match find_column (cs_name bc) after_cols with
  | None => [ColumnRemoved bc]
  | Some ac =>
      (if bool_decide (cs_type_name ac = cs_type_name bc) then []
       else [ColumnTypeChanged bc ac])
      ++ (if bool_decide (cs_nullable ac = cs_nullable bc) then []
          else [NullabilityChanged (cs_name bc) (cs_nullable bc) (cs_nullable ac)])
      ++ (if bool_decide (cs_default_value ac = cs_default_value bc) then []
          else [DefaultChanged (cs_name bc) (cs_default_value bc) (cs_default_value ac)])
  end.

Definition primary_keys (cols : list ColumnSnapshot) : list (list char) :=
  map cs_name (List.filter cs_is_primary_key cols).

Definition FkSignature : Type :=
  list (list char) * list char * option (list char) * list (list char).

Definition foreign_key_signature (fk : ForeignKeyInfo) : FkSignature :=
  (fk_columns fk, fk_referenced_table fk, fk_referenced_schema fk, fk_referenced_columns fk).

Definition fk_signatures (t : TableInfo) : list FkSignature :=
  map foreign_key_signature (default [] (ti_foreign_keys t)).

Definition relational_indexes (t : TableInfo) : list IndexInfo :=
  match ti_indexes t with
  | Some (Relational indexes) => List.filter (fun i => negb (ii_is_primary i)) indexes
  | _ => []
  end.

Definition has_index (name : list char) (indexes : list IndexInfo) : bool :=
  existsb (fun i => bool_decide (ii_name i = name)) indexes.

(** The columns of [after] that [before] has not. *)
Definition added_columns (before_cols after_cols : list ColumnSnapshot) : list SchemaChange :=
  map ColumnAdded (List.filter
    (fun ac => negb (existsb (fun bc => bool_decide (cs_name bc = cs_name ac)) before_cols))
    after_cols).

Definition diff_indexes (before_indexes after_indexes : list IndexInfo) : list SchemaChange :=
  map (fun i => IndexRemoved (index_snapshot i))
    (List.filter (fun bi => negb (has_index (ii_name bi) after_indexes)) before_indexes)
  ++ map (fun i => IndexAdded (index_snapshot i))
    (List.filter (fun ai => negb (has_index (ii_name ai) before_indexes)) after_indexes).

Definition diff_primary_keys (before_pks after_pks : list (list char)) : list SchemaChange :=
  if bool_decide (before_pks = after_pks) then [] else [PrimaryKeyChanged before_pks after_pks].

Definition diff_foreign_keys (before after : list FkSignature) : list SchemaChange :=
  if bool_decide (sort_ord before = sort_ord after) then [] else [ForeignKeyChanged].

Definition diff_table_info (before after : TableInfo) : list SchemaChange :=
  let before_cols := table_columns before in
  let after_cols := table_columns after in
  flat_map (diff_column after_cols) before_cols
  ++ added_columns before_cols after_cols
  ++ diff_primary_keys (primary_keys before_cols) (primary_keys after_cols)
  ++ diff_foreign_keys (fk_signatures before) (fk_signatures after)
  ++ diff_indexes (relational_indexes before) (relational_indexes after).

(** ** Comparing two schemas *)

Definition classify_schema_change (change : SchemaChange) : ExecutionClassification :=
  classify_schema_alter
    match change with
    | ColumnAdded column =>
        AddColumn (cs_nullable column || bool_decide (is_Some (cs_default_value column)))
    | ColumnRemoved _ => DropColumn
    | ColumnTypeChanged _ _ => AlterColumn
    | NullabilityChanged _ _ _ => AlterColumn
    | DefaultChanged _ _ _ => AlterColumn
    | PrimaryKeyChanged _ _ => AddConstraint
    | ForeignKeyChanged => AddConstraint
    | IndexAdded _ => AddIndex
    | IndexRemoved _ => DropIndex
    end.

Definition classify_table_added : ExecutionClassification := classify_schema_alter AddTable.
Definition classify_table_removed : ExecutionClassification := classify_schema_alter DropTable.

Definition TableId : Type := option (list char) * list char.
Definition table_identity (t : TableInfo) : TableId := (ti_schema t, ti_name t).

Definition table_ref (t : TableInfo) : TableRef := mkTableRef (ti_schema t) (ti_name t).

Definition find_table (key : TableId) (tables : list TableInfo) : option TableInfo :=
  List.find (fun t => bool_decide (table_identity t = key)) tables.

Definition risked (change : SchemaChange) : RiskedChange :=
  mkRisked change (classify_schema_change change).

(** The first loop of [diff_schema], on one table of [before]. *)
Definition diff_table (after : list TableInfo) (before_table : TableInfo) : list TableChange :=
  match find_table (table_identity before_table) after with
  | None => [TableRemoved (table_ref before_table)]
  | Some after_table =>
      match diff_table_info before_table after_table with
      | [] => []
      | raw_changes => [TableModified (table_ref before_table) (map risked raw_changes)]
      end
  end.

Definition diff_schema (before after : list TableInfo) : list TableChange :=
  flat_map (diff_table after) before
  ++ map TableAdded (List.filter
       (fun a => negb (existsb (fun b => bool_decide (table_identity b = table_identity a)) before))
       after).

(** ** Requests to alter a table (sql/code_generation.rs) *)

Module Alter.
Inductive OwnedDefaultSpec : Type :=
| Drop
| Set_ (value : list char).

Inductive TableAlterOperation : Type :=
| AlterColumn (name : list char) (new_type : option (list char)) (nullable : option bool)
    (default : option OwnedDefaultSpec)
| DropColumn (name : list char)
| Unsupported (description : list char).

Record TableAlterExpectedColumn := mkExpected {
  ex_name : list char;
  ex_type_name : option (list char);
  ex_nullable : option bool;
  ex_default : option (option (list char));
}.

Record TableAlterRequest := mkAlter {
  ta_table : TableRef;
  ta_operations : list TableAlterOperation;
  ta_expected_before : list TableAlterExpectedColumn;
}.
End Alter.
Import Alter(OwnedDefaultSpec, TableAlterOperation, TableAlterExpectedColumn, mkExpected,
  ex_name, ex_type_name, ex_nullable, ex_default, TableAlterRequest, mkAlter, ta_table,
  ta_operations, ta_expected_before).

Record TableAlterNormalizationError := mkNormalizationError { reason : list char }.

Record SelectedColumnAlter := mkSelected {
  sc_name : list char;
  sc_dropped : bool;
  sc_new_type : option (list char);
  sc_nullable : option bool;
  sc_default : option OwnedDefaultSpec;
  sc_default_selected : bool;
  sc_expected_type : option (list char);
  sc_expected_nullable : option bool;
  sc_expected_default : option (option (list char));
}.

Definition selected_new (name : list char) : SelectedColumnAlter :=
  mkSelected name false None None None false None None None.

(** Results of the normalization. *)
Abbreviation norm A := (result A TableAlterNormalizationError).
Definition norm_err {A} (r : list char) : norm A := Err (mkNormalizationError r).

Definition reject_if_dropped (c : SelectedColumnAlter) : norm unit :=
  if sc_dropped c then
    norm_err (text "column " ++ sc_name c ++ text " is selected for removal and alteration")
  else Ok tt.

Definition validate_identifier (value kind : list char) : norm unit :=
  if bool_decide (trim_text value = []) then
    norm_err (text "selected " ++ kind ++ text " identifier must not be empty")
  else Ok tt.

Definition validate_matching_column_names (before after : ColumnSnapshot) : norm unit :=
  let? _ := validate_identifier (cs_name before) (text "column") in
  let? _ := validate_identifier (cs_name after) (text "column") in
  if bool_decide (cs_name before = cs_name after) then Ok tt
  else norm_err (text "selected type change has mismatched columns " ++ cs_name before
                 ++ text " and " ++ cs_name after).

(** The columns with the entry of [name], where that entry is, and the entry. *)
Definition selected_column (columns : list SelectedColumnAlter) (name : list char)
  : norm (list SelectedColumnAlter * nat * SelectedColumnAlter) :=
  match list_find (fun c => sc_name c = name) columns with
  | Some (index, _) =>
      match columns !! index with
      | Some c => Ok (columns, index, c)
      | None => norm_err (text "selected column was unavailable by index")
      end
  | None => Ok (columns ++ [selected_new name], length columns, selected_new name)
  end.

(** One round of the loop over the selected changes. *)
Definition select_change (columns : list SelectedColumnAlter) (change : SchemaChange)
  : norm (list SelectedColumnAlter) :=
  match change with
  | ColumnAdded column =>
      norm_err (text "adding column " ++ cs_name column
                ++ text " cannot be mixed into a table alteration request")
  | PrimaryKeyChanged _ _ | ForeignKeyChanged | IndexAdded _ | IndexRemoved _ =>
      norm_err (text "selected index or constraint changes cannot be mixed into a table alteration request")
  | ColumnRemoved before =>
      let? _ := validate_identifier (cs_name before) (text "column") in
      let? found := selected_column columns (cs_name before) in
      let '(columns, i, c) := found in
      if sc_dropped c || bool_decide (is_Some (sc_new_type c))
         || bool_decide (is_Some (sc_nullable c)) || sc_default_selected c then
        norm_err (text "column " ++ cs_name before
                  ++ text " has duplicate or conflicting selected changes")
      else
        Ok (<[i := mkSelected (sc_name c) true (sc_new_type c) (sc_nullable c) (sc_default c)
                     (sc_default_selected c) (Some (cs_type_name before))
                     (Some (cs_nullable before)) (Some (cs_default_value before))]> columns)
  | ColumnTypeChanged before after =>
      let? _ := validate_matching_column_names before after in
      let? found := selected_column columns (cs_name before) in
      let '(columns, i, c) := found in
      let? _ := reject_if_dropped c in
      if bool_decide (is_Some (sc_new_type c)) then
        norm_err (text "column " ++ cs_name before ++ text " has duplicate selected type changes")
      else
        Ok (<[i := mkSelected (sc_name c) (sc_dropped c) (Some (cs_type_name after)) (sc_nullable c)
                     (sc_default c) (sc_default_selected c) (Some (cs_type_name before))
                     (sc_expected_nullable c) (sc_expected_default c)]> columns)
  | NullabilityChanged name before after =>
      let? _ := validate_identifier name (text "column") in
      let? found := selected_column columns name in
      let '(columns, i, c) := found in
      let? _ := reject_if_dropped c in
      if bool_decide (is_Some (sc_nullable c)) then
        norm_err (text "column " ++ name ++ text " has duplicate selected nullability changes")
      else
        Ok (<[i := mkSelected (sc_name c) (sc_dropped c) (sc_new_type c) (Some after)
                     (sc_default c) (sc_default_selected c) (sc_expected_type c)
                     (Some before) (sc_expected_default c)]> columns)
  | DefaultChanged name before after =>
      let? _ := validate_identifier name (text "column") in
      let? found := selected_column columns name in
      let '(columns, i, c) := found in
      let? _ := reject_if_dropped c in
      if sc_default_selected c then
        norm_err (text "column " ++ name ++ text " has duplicate selected default changes")
      else
        Ok (<[i := mkSelected (sc_name c) (sc_dropped c) (sc_new_type c) (sc_nullable c)
                     (Some match after with
                           | Some value => Alter.Set_ value
                           | None => Alter.Drop
                           end) true (sc_expected_type c)
                     (sc_expected_nullable c) (Some before)]> columns)
  end.

Fixpoint select_changes (columns : list SelectedColumnAlter) (selected : list SchemaChange)
  : norm (list SelectedColumnAlter) :=
  match selected with
  | [] => Ok columns
  | change :: rest =>
      let? columns := select_change columns change in
      select_changes columns rest
  end.

Definition operation_of (c : SelectedColumnAlter) : TableAlterOperation :=
  if sc_dropped c then Alter.DropColumn (sc_name c)
  else Alter.AlterColumn (sc_name c) (sc_new_type c) (sc_nullable c) (sc_default c).

Definition expected_of (c : SelectedColumnAlter) : TableAlterExpectedColumn :=
  mkExpected (sc_name c) (sc_expected_type c) (sc_expected_nullable c) (sc_expected_default c).

Definition normalize_selected_table_alter (table : TableRef) (selected : list SchemaChange)
  : norm TableAlterRequest :=
  let? _ := validate_identifier (tr_name table) (text "table") in
  match selected with
  | [] => norm_err (text "at least one selected table alteration is required")
  | _ =>
      let? columns := select_changes [] selected in
      Ok (mkAlter table (map operation_of columns) (map expected_of columns))
  end.

End SchemaDrift.
