(* ===== verification/SchemaDriftProps.v ===== *)
(** * The differences of two schemas are what leads from one to the other

    The columns of a table are a map by name, and every reported change acts on
    it.  Applied to the columns before, the changes of [diff_table_info] give the
    columns after. *)

From S2P Require Import Prelude RustStr RustChar Classification VisualQuery RustOrd SchemaDrift.

Module SchemaDriftProps.
Import SchemaDrift.

(** ** What a change does to the columns *)

Abbreviation Columns := (gmap (list N) ColumnSnapshot).

Definition columns_map (cols : list ColumnSnapshot) : Columns :=
  list_to_map (map (fun c => (cs_name c : list N, c)) cols).

Definition set_type (t : list char) (c : ColumnSnapshot) : ColumnSnapshot :=
  mkColumn (cs_name c) t (cs_nullable c) (cs_is_primary_key c) (cs_default_value c).
Definition set_nullable (b : bool) (c : ColumnSnapshot) : ColumnSnapshot :=
  mkColumn (cs_name c) (cs_type_name c) b (cs_is_primary_key c) (cs_default_value c).
Definition set_default (d : option (list char)) (c : ColumnSnapshot) : ColumnSnapshot :=
  mkColumn (cs_name c) (cs_type_name c) (cs_nullable c) (cs_is_primary_key c) d.
Definition set_primary (pks : list (list char)) (c : ColumnSnapshot) : ColumnSnapshot :=
  mkColumn (cs_name c) (cs_type_name c) (cs_nullable c) (bool_decide (cs_name c ∈ pks))
    (cs_default_value c).

Definition apply_change (m : Columns) (change : SchemaChange) : Columns :=
  match change with
  | ColumnAdded c => <[(cs_name c : list N) := c]> m
  | ColumnRemoved c => delete (cs_name c : list N) m
  | ColumnTypeChanged before after => alter (set_type (cs_type_name after)) (cs_name before : list N) m
  | NullabilityChanged n _ after => alter (set_nullable after) (n : list N) m
  | DefaultChanged n _ after => alter (set_default after) (n : list N) m
  | PrimaryKeyChanged _ after => set_primary after <$> m
  | ForeignKeyChanged | IndexAdded _ | IndexRemoved _ => m
  end.

Definition apply_changes (m : Columns) (changes : list SchemaChange) : Columns :=
  foldl apply_change m changes.

(** The same on the column called [n]. *)
Definition cell_change (n : list N) (o : option ColumnSnapshot) (change : SchemaChange)
  : option ColumnSnapshot :=
  match change with
  | ColumnAdded c => if bool_decide (cs_name c = n) then Some c else o
  | ColumnRemoved c => if bool_decide (cs_name c = n) then None else o
  | ColumnTypeChanged before after =>
      if bool_decide (cs_name before = n) then set_type (cs_type_name after) <$> o else o
  | NullabilityChanged n' _ after => if bool_decide (n' = n) then set_nullable after <$> o else o
  | DefaultChanged n' _ after => if bool_decide (n' = n) then set_default after <$> o else o
  | PrimaryKeyChanged _ after => set_primary after <$> o
  | ForeignKeyChanged | IndexAdded _ | IndexRemoved _ => o
  end.

Lemma lookup_apply_change m change n :
  apply_change m change !! n = cell_change n (m !! n) change.
Proof.
  destruct change; simpl; try done; try case_bool_decide; subst;
    first [by rewrite lookup_insert_eq | by rewrite lookup_insert_ne
          | by rewrite lookup_delete_eq | by rewrite lookup_delete_ne
          | by rewrite lookup_alter_eq | by rewrite lookup_alter_ne | by rewrite lookup_fmap].
Qed.

Lemma lookup_apply_changes m changes n :
  apply_changes m changes !! n = foldl (cell_change n) (m !! n) changes.
Proof.
  unfold apply_changes. revert m. induction changes as [|c cs IH]; intros m; simpl; [done|].
  by rewrite IH, lookup_apply_change.
Qed.

Lemma foldl_cell_inert n o changes :
  (forall ch, ch ∈ changes -> cell_change n o ch = o) -> foldl (cell_change n) o changes = o.
Proof.
  revert o. induction changes as [|c cs IH]; intros o Hin; simpl; [done|].
  rewrite (Hin c) by left. apply IH. intros ch Hch. apply Hin. by right.
Qed.

(** ** Finding a column *)

Lemma find_column_map n cols : find_column n cols = columns_map cols !! (n : list N).
Proof.
  unfold columns_map. induction cols as [|c cols IH]; simpl; [done|].
  case_bool_decide as Hc; [subst; by rewrite lookup_insert_eq|].
  by rewrite lookup_insert_ne.
Qed.

Lemma find_column_elem n cols c : find_column n cols = Some c -> c ∈ cols /\ cs_name c = n.
Proof.
  intros [Hin Hn]%List.find_some. apply bool_decide_eq_true in Hn.
  by rewrite list_elem_of_In.
Qed.

Lemma find_column_none n cols : find_column n cols = None <-> n ∉ map cs_name cols.
Proof.
  unfold find_column. induction cols as [|c cols IH]; simpl; [set_solver|].
  case_bool_decide as Hc; [subst; set_solver|]. rewrite IH. set_solver.
Qed.

Lemma find_column_nodup cols c :
  NoDup (map cs_name cols) -> c ∈ cols -> find_column (cs_name c) cols = Some c.
Proof.
  induction cols as [|d cols IH]; simpl; [set_solver|].
  intros [Hd Hnd]%NoDup_cons Hc. case_bool_decide as Heq.
  - apply elem_of_cons in Hc as [->|Hc]; [done|].
    destruct Hd. rewrite Heq. by apply list_elem_of_fmap_2.
  - apply IH; [done|]. set_solver.
Qed.

Lemma nodup_map_inj {A B} (f : A -> B) l x y :
  NoDup (map f l) -> x ∈ l -> y ∈ l -> f x = f y -> x = y.
Proof.
  induction l as [|z l IH]; simpl; [set_solver|]. intros [Hz Hnd]%NoDup_cons Hx Hy Heq.
  apply elem_of_cons in Hx as [->|Hx], Hy as [->|Hy]; auto; destruct Hz;
    [rewrite Heq|rewrite <- Heq]; by apply list_elem_of_fmap_2.
Qed.

Lemma primary_keys_spec cols c :
  NoDup (map cs_name cols) -> c ∈ cols ->
  bool_decide (cs_name c ∈ primary_keys cols) = cs_is_primary_key c.
Proof.
  intros Hnd Hc. unfold primary_keys.
  destruct (cs_is_primary_key c) eqn:Hpk.
  - apply bool_decide_eq_true, list_elem_of_fmap_2. by apply filter_elem.
  - apply bool_decide_eq_false. intros (d & Heq & [Hd Hdp]%filter_elem)%list_elem_of_fmap.
    rewrite (nodup_map_inj cs_name cols c d) in Hpk by done. congruence.
Qed.

(** ** The parts of a difference *)

Lemma diff_column_name acols bc ch n :
  ch ∈ diff_column acols bc -> cs_name bc <> n -> forall o, cell_change n o ch = o.
Proof.
  unfold diff_column. intros Hch Hn o.
  destruct (find_column (cs_name bc) acols) as [ac|] eqn:Hfind.
  - repeat case_bool_decide; simpl in Hch; repeat (apply elem_of_cons in Hch as [->|Hch]);
      simpl; try (by rewrite bool_decide_false); by apply elem_of_nil in Hch.
  - apply list_elem_of_singleton in Hch as ->. simpl. by rewrite bool_decide_false.
Qed.

(** A column of both tables, as the first loop leaves it. *)
Definition merged (bc ac : ColumnSnapshot) : ColumnSnapshot :=
  mkColumn (cs_name bc) (cs_type_name ac) (cs_nullable ac) (cs_is_primary_key bc)
    (cs_default_value ac).

Lemma diff_column_cell acols bc :
  foldl (cell_change (cs_name bc)) (Some bc) (diff_column acols bc) =
  merged bc <$> find_column (cs_name bc) acols.
Proof.
  unfold diff_column. destruct (find_column (cs_name bc) acols) as [ac|]; simpl;
    [|by rewrite bool_decide_true].
  destruct bc as [n t u p d], ac as [n' t' u' p' d']; unfold merged; simpl.
  repeat case_bool_decide; simpl; simplify_eq; rewrite ?bool_decide_true by done; done.
Qed.

Lemma first_loop_cell acols bcols n :
  NoDup (map cs_name bcols) ->
  foldl (cell_change n) (find_column n bcols) (flat_map (diff_column acols) bcols) =
  bc ← find_column n bcols; merged bc <$> find_column n acols.
Proof.
  assert (Hout : forall l o, n ∉ map cs_name l ->
    foldl (cell_change n) o (flat_map (diff_column acols) l) = o).
  { intros l o Hn. apply foldl_cell_inert. intros ch Hch.
    apply list_elem_of_In, in_flat_map in Hch as (bc & Hbc & Hch).
    apply list_elem_of_In in Hbc, Hch. apply (diff_column_name acols bc); [done|].
    intros <-. by apply Hn, list_elem_of_fmap_2. }
  induction bcols as [|bc bcols IH]; simpl; [done|]. intros [Hbc Hnd]%NoDup_cons.
  rewrite foldl_app. case_bool_decide as Hn.
  - subst n. rewrite diff_column_cell. simpl. by apply Hout.
  - rewrite (foldl_cell_inert n _ (diff_column acols bc)); [by apply IH|].
    intros ch Hch. by apply (diff_column_name acols bc).
Qed.

Lemma existsb_column n (bcols : list ColumnSnapshot) :
  existsb (fun bc => bool_decide (cs_name bc = n)) bcols =
  bool_decide (is_Some (find_column n bcols)).
Proof.
  unfold find_column. induction bcols as [|c cols IH]; simpl; [done|].
  by destruct (bool_decide (cs_name c = n)).
Qed.

Lemma added_columns_cell bcols acols n o :
  NoDup (map cs_name acols) ->
  foldl (cell_change n) o (added_columns bcols acols) =
  match find_column n bcols with
  | Some _ => o
  | None => match find_column n acols with Some ac => Some ac | None => o end
  end.
Proof.
  unfold added_columns. revert o. induction acols as [|ac acols IH]; intros o; simpl.
  - by destruct (find_column n bcols).
  - intros [Hac Hnd]%NoDup_cons. rewrite existsb_column.
    destruct (find_column (cs_name ac) bcols) as [b|] eqn:Hb;
      [rewrite bool_decide_true by (by eexists)|rewrite bool_decide_false by (by intros [])];
      simpl; rewrite IH by done; case_bool_decide as Hn; subst; try done; rewrite Hb; [done|].
    apply find_column_none in Hac. by rewrite Hac.
Qed.

(** ** Applying a difference *)

Lemma diff_primary_keys_cell bcols acols n o :
  foldl (cell_change n) o (diff_primary_keys (primary_keys bcols) (primary_keys acols)) =
  if bool_decide (primary_keys bcols = primary_keys acols) then o
  else set_primary (primary_keys acols) <$> o.
Proof. unfold diff_primary_keys. by case_bool_decide. Qed.

Lemma diff_rest_cell n o fb fa ib ia :
  foldl (cell_change n) o (diff_foreign_keys fb fa ++ diff_indexes ib ia) = o.
Proof.
  apply foldl_cell_inert. unfold diff_foreign_keys, diff_indexes. intros ch.
  rewrite !elem_of_app, !list_elem_of_fmap. case_bool_decide; rewrite ?list_elem_of_singleton;
    [rewrite elem_of_nil|]; naive_solver.
Qed.

Lemma merged_same bcols acols bc ac :
  NoDup (map cs_name bcols) -> NoDup (map cs_name acols) ->
  bc ∈ bcols -> ac ∈ acols -> cs_name ac = cs_name bc ->
  primary_keys bcols = primary_keys acols -> merged bc ac = ac.
Proof.
  intros Hb Ha Hbc Hac Hn Hpk. unfold merged.
  rewrite <- (primary_keys_spec bcols bc), Hpk, <- Hn, (primary_keys_spec acols ac) by done.
  by destruct ac.
Qed.

Lemma set_primary_merged acols bc ac :
  NoDup (map cs_name acols) -> ac ∈ acols -> cs_name ac = cs_name bc ->
  set_primary (primary_keys acols) (merged bc ac) = ac.
Proof.
  intros Ha Hac Hn. unfold merged, set_primary; simpl.
  rewrite <- Hn, (primary_keys_spec acols ac) by done. by destruct ac.
Qed.

Lemma set_primary_own acols ac :
  NoDup (map cs_name acols) -> ac ∈ acols -> set_primary (primary_keys acols) ac = ac.
Proof.
  intros Ha Hac. unfold set_primary. rewrite (primary_keys_spec acols ac) by done.
  by destruct ac.
Qed.

Lemma diff_applied before after :
  NoDup (map cs_name (table_columns before)) -> NoDup (map cs_name (table_columns after)) ->
  apply_changes (columns_map (table_columns before)) (diff_table_info before after) =
  columns_map (table_columns after).
Proof.
  set (bcols := table_columns before). set (acols := table_columns after). intros Hb Ha.
  apply map_eq. intros n. rewrite lookup_apply_changes. unfold diff_table_info. fold bcols acols.
  rewrite !foldl_app, <- (foldl_app _ (diff_foreign_keys _ _)), diff_rest_cell,
    diff_primary_keys_cell, <- !find_column_map, first_loop_cell, added_columns_cell by done.
  destruct (find_column n bcols) as [bc|] eqn:Hbc, (find_column n acols) as [ac|] eqn:Hac; simpl;
    try (by case_bool_decide).
  - apply find_column_elem in Hbc as [Hbc Hbn], Hac as [Hac Han].
    case_bool_decide as Hpk; simpl; f_equal.
    + apply (merged_same bcols acols); congruence.
    + apply set_primary_merged; congruence.
  - apply find_column_elem in Hac as [Hac Han]. case_bool_decide; simpl; [done|].
    by rewrite set_primary_own.
Qed.

(** ** When nothing is reported *)

(** What the comparison looks at: the columns by name, the key columns in order,
    the foreign keys up to their order, and the names of the indexes that are
    not the primary key's. *)
Definition same_structure (before after : TableInfo) : Prop :=
  columns_map (table_columns before) = columns_map (table_columns after) /\
  primary_keys (table_columns before) = primary_keys (table_columns after) /\
  fk_signatures before ≡ₚ fk_signatures after /\
  forall n, n ∈ map ii_name (relational_indexes before) <-> n ∈ map ii_name (relational_indexes after).

Lemma map_nil_iff {A B} (f : A -> B) l : map f l = [] <-> l = [].
Proof. by destruct l. Qed.

Lemma filter_nil_iff {A} (p : A -> bool) l :
  List.filter p l = [] <-> forall x, x ∈ l -> p x = false.
Proof.
  induction l as [|y l IH]; simpl; [set_solver|]. destruct (p y) eqn:Hy.
  - split; [done|]. intros H. specialize (H y). rewrite H in Hy; [done|by left].
  - rewrite IH. set_solver.
Qed.

Lemma has_index_spec n l : has_index n l = bool_decide (n ∈ map ii_name l).
Proof.
  unfold has_index. induction l as [|i l IH]; simpl; [done|]. rewrite IH.
  repeat case_bool_decide; set_solver.
Qed.

Lemma missing_index_nil (mk : IndexInfo -> SchemaChange) l k :
  map mk (List.filter (fun i => negb (has_index (ii_name i) k)) l) = [] <->
  forall n, n ∈ map ii_name l -> n ∈ map ii_name k.
Proof.
  rewrite map_nil_iff, filter_nil_iff. split.
  - intros H n (i & -> & Hi)%list_elem_of_fmap. apply H in Hi.
    rewrite has_index_spec in Hi. by apply negb_false_iff, bool_decide_eq_true in Hi.
  - intros H i Hi. apply negb_false_iff. rewrite has_index_spec.
    apply bool_decide_eq_true, H. by apply list_elem_of_fmap_2.
Qed.

Lemma diff_indexes_nil l k :
  diff_indexes l k = [] <-> forall n, n ∈ map ii_name l <-> n ∈ map ii_name k.
Proof.
  unfold diff_indexes. rewrite app_nil, !missing_index_nil. naive_solver.
Qed.

Lemma diff_foreign_keys_nil l k : diff_foreign_keys l k = [] <-> l ≡ₚ k.
Proof. unfold diff_foreign_keys. rewrite <- sort_ord_eq. by case_bool_decide. Qed.

Lemma diff_primary_keys_nil l k : diff_primary_keys l k = [] <-> l = k.
Proof. unfold diff_primary_keys. by case_bool_decide. Qed.

Lemma diff_column_same cols bc : find_column (cs_name bc) cols = Some bc -> diff_column cols bc = [].
Proof. unfold diff_column. intros ->. by rewrite !bool_decide_true. Qed.

Lemma same_columns_nil bcols acols :
  NoDup (map cs_name bcols) -> columns_map bcols = columns_map acols ->
  flat_map (diff_column acols) bcols = [] /\ added_columns bcols acols = [].
Proof.
  intros Hb Heq. split.
  - rewrite flat_map_concat_map. apply concat_nil_Forall, Forall_map, Forall_forall. intros bc Hbc.
    apply diff_column_same. by rewrite find_column_map, <- Heq, <- find_column_map, find_column_nodup.
  - apply map_nil_iff, filter_nil_iff. intros ac Hac. apply negb_false_iff.
    rewrite existsb_column, find_column_map, Heq, <- find_column_map.
    apply bool_decide_eq_true, not_eq_None_Some. rewrite find_column_none.
    intros Hnin. by apply Hnin, list_elem_of_fmap_2.
Qed.

(** Two descriptions of a table, each with distinct column names, have no
    reported difference exactly when they have the same columns, the same key
    columns in the same order, the same foreign keys up to their order, and
    indexes of the same names. *)
Theorem diff_empty_iff_same_structure before after :
  NoDup (map cs_name (table_columns before)) -> NoDup (map cs_name (table_columns after)) ->
  diff_table_info before after = [] <-> same_structure before after.
Proof.
  intros Hb Ha. unfold same_structure. split.
  - intros Hnil. pose proof (diff_applied before after Hb Ha) as Happ. rewrite Hnil in Happ.
    unfold diff_table_info in Hnil. rewrite !app_nil in Hnil.
    rewrite diff_primary_keys_nil, diff_foreign_keys_nil, diff_indexes_nil in Hnil.
    naive_solver.
  - intros (Hcols & Hpk & Hfk & Hix). unfold diff_table_info.
    destruct (same_columns_nil (table_columns before) (table_columns after)) as [-> ->]; [done..|].
    apply diff_primary_keys_nil in Hpk as ->. apply diff_foreign_keys_nil in Hfk as ->.
    by apply diff_indexes_nil in Hix as ->.
Qed.

(** ** Whole schemas *)

Abbreviation TableKeyN := (option (list N) * list N)%type.
Abbreviation Schema := (gmap TableKeyN Columns).

Definition table_cell (t : TableInfo) : Columns := columns_map (table_columns t).

Definition schema_map (tables : list TableInfo) : Schema :=
  list_to_map (map (fun t => (table_identity t : TableKeyN, table_cell t)) tables).

Definition ref_key (r : TableRef) : TableKeyN := (tr_schema r, tr_name r).

Definition apply_table_change (s : Schema) (change : TableChange) : Schema :=
  match change with
  | TableAdded t => <[(table_identity t : TableKeyN) := table_cell t]> s
  | TableRemoved r => delete (ref_key r) s
  | TableModified r changes =>
      alter (fun m => apply_changes m (map rc_change changes)) (ref_key r) s
  end.

Definition table_change_key (change : TableChange) : TableKeyN :=
  match change with
  | TableAdded t => table_identity t
  | TableRemoved r | TableModified r _ => ref_key r
  end.

Lemma apply_table_change_ne s change k :
  table_change_key change <> k -> apply_table_change s change !! k = s !! k.
Proof.
  destruct change; simpl; intros Hk;
    [by rewrite lookup_insert_ne|by rewrite lookup_delete_ne|by rewrite lookup_alter_ne].
Qed.

Lemma apply_table_changes_ne changes s k :
  (forall ch, ch ∈ changes -> table_change_key ch <> k) ->
  foldl apply_table_change s changes !! k = s !! k.
Proof.
  revert s. induction changes as [|c cs IH]; intros s Hin; simpl; [done|].
  rewrite IH by (intros; apply Hin; by right). apply apply_table_change_ne, Hin. by left.
Qed.

Lemma find_table_map k tables : table_cell <$> find_table k tables = schema_map tables !! (k : TableKeyN).
Proof.
  unfold schema_map. induction tables as [|t tables IH]; simpl; [done|].
  case_bool_decide as Ht; [subst; by rewrite lookup_insert_eq|]. by rewrite lookup_insert_ne.
Qed.

Lemma find_table_elem k tables t : find_table k tables = Some t -> t ∈ tables /\ table_identity t = k.
Proof.
  intros [Hin Hn]%List.find_some. apply bool_decide_eq_true in Hn. by rewrite list_elem_of_In.
Qed.

Lemma find_table_none k tables : find_table k tables = None <-> k ∉ map table_identity tables.
Proof.
  unfold find_table. induction tables as [|t tables IH]; simpl; [set_solver|].
  case_bool_decide as Ht; [subst; set_solver|]. rewrite IH. set_solver.
Qed.

Lemma diff_table_key after bt ch :
  ch ∈ diff_table after bt -> table_change_key ch = table_identity bt.
Proof.
  unfold diff_table. destruct (find_table _ _) as [a|];
    [destruct (diff_table_info bt a); [by intros ?%elem_of_nil|]|];
    by intros ->%list_elem_of_singleton.
Qed.

Lemma map_rc_change changes : map rc_change (map risked changes) = changes.
Proof. induction changes as [|c cs IH]; simpl; [done|]. by rewrite IH. Qed.

(** Every table has columns of distinct names. *)
Definition wf_columns (t : TableInfo) : Prop := NoDup (map cs_name (table_columns t)).

Lemma diff_table_cell after bt s :
  wf_columns bt -> Forall wf_columns after -> s !! (table_identity bt : TableKeyN) = Some (table_cell bt) ->
  foldl apply_table_change s (diff_table after bt) !! (table_identity bt : TableKeyN) =
  table_cell <$> find_table (table_identity bt) after.
Proof.
  intros Hb Ha Hs. unfold diff_table.
  destruct (find_table (table_identity bt) after) as [a|] eqn:Hf; simpl;
    [|by rewrite lookup_delete_eq].
  apply find_table_elem in Hf as [Hin _]. rewrite Forall_forall in Ha.
  pose proof (diff_applied bt a Hb (Ha a Hin)) as Happ. fold (table_cell bt) (table_cell a) in Happ.
  destruct (diff_table_info bt a) as [|c cs] eqn:Hd; [by rewrite <- Happ|].
  change (apply_table_change s (TableModified (table_ref bt) (map risked (c :: cs)))
            !! (table_identity bt : TableKeyN) = Some (table_cell a)).
  unfold apply_table_change. rewrite map_rc_change.
  change (ref_key (table_ref bt)) with (table_identity bt : TableKeyN).
  by rewrite lookup_alter_eq, Hs, <- Happ.
Qed.

Lemma tables_loop_cell after before s k :
  NoDup (map table_identity before) -> Forall wf_columns before -> Forall wf_columns after ->
  (forall bt, bt ∈ before -> s !! (table_identity bt : TableKeyN) = Some (table_cell bt)) ->
  foldl apply_table_change s (flat_map (diff_table after) before) !! k =
  match find_table k before with
  | Some _ => table_cell <$> find_table k after
  | None => s !! k
  end.
Proof.
  revert s. induction before as [|bt before IH]; intros s Hnd Hwf Ha Hs; simpl; [done|].
  apply NoDup_cons in Hnd as [Hbt Hnd]. apply Forall_cons in Hwf as [Hw Hwf].
  rewrite foldl_app, IH; [|done..|].
  - case_bool_decide as Hk.
    + subst k. apply find_table_none in Hbt. rewrite Hbt. apply diff_table_cell; [done..|].
      apply Hs. by left.
    + destruct (find_table k before); [done|]. apply apply_table_changes_ne.
      intros ch Hch. by rewrite (diff_table_key after bt ch Hch).
  - intros b Hin. rewrite <- (Hs b) by (by right). apply apply_table_changes_ne.
    intros ch Hch. rewrite (diff_table_key after bt ch Hch). intros Heq. apply Hbt.
    rewrite Heq. by apply list_elem_of_fmap_2.
Qed.

Lemma existsb_table k (tables : list TableInfo) :
  existsb (fun b => bool_decide (table_identity b = k)) tables =
  bool_decide (is_Some (find_table k tables)).
Proof.
  unfold find_table. induction tables as [|t tables IH]; simpl; [done|].
  by destruct (bool_decide (table_identity t = k)).
Qed.

Lemma added_tables_cell before after s k :
  NoDup (map table_identity after) ->
  foldl apply_table_change s (map TableAdded (List.filter
    (fun a => negb (existsb (fun b => bool_decide (table_identity b = table_identity a)) before))
    after)) !! k =
  match find_table k before with
  | Some _ => s !! k
  | None => match find_table k after with Some a => Some (table_cell a) | None => s !! k end
  end.
Proof.
  revert s. induction after as [|a after IH]; intros s; simpl;
    [by destruct (find_table k before)|].
  intros [Ha Hnd]%NoDup_cons. rewrite existsb_table.
  destruct (find_table (table_identity a) before) as [b|] eqn:Hb;
    [rewrite bool_decide_true by (by eexists)|rewrite bool_decide_false by (by intros [])];
    simpl; rewrite IH by done; case_bool_decide as Hn.
  - subst k. by rewrite Hb.
  - done.
  - subst k. rewrite Hb. apply find_table_none in Ha. by rewrite Ha, lookup_insert_eq.
  - by rewrite lookup_insert_ne.
Qed.

(** C23: the reported differences are complete and exact: for two schemas whose
    tables have distinct identities and each table distinct column names, taking
    the tables before, and adding, removing and altering what [diff_schema]
    lists, gives the tables and columns after. *)
Theorem schema_diff_leads_to_after before after :
  NoDup (map table_identity before) -> NoDup (map table_identity after) ->
  Forall wf_columns before -> Forall wf_columns after ->
  foldl apply_table_change (schema_map before) (diff_schema before after) = schema_map after.
Proof.
  intros Hnb Hna Hb Ha. apply map_eq. intros k. unfold diff_schema.
  rewrite foldl_app, added_tables_cell by done.
  rewrite tables_loop_cell, <- !find_table_map; [|done..|].
  - destruct (find_table k before); [done|]. by destruct (find_table k after).
  - intros bt Hin. rewrite <- find_table_map.
    destruct (find_table (table_identity bt) before) as [t|] eqn:Ht; simpl.
    + apply find_table_elem in Ht as [Hin' Heq]. f_equal. f_equal.
      by apply (nodup_map_inj table_identity before).
    + apply find_table_none in Ht. destruct Ht. by apply list_elem_of_fmap_2.
Qed.

End SchemaDriftProps.

(** ** Examples *)

Import SchemaDrift SchemaDriftProps.

Definition demo_column (name type_name : string) : ColumnInfo :=
  mkColumnInfo (text name) (text type_name) true false None None.
Definition plain_table (name : string) (columns : list ColumnInfo) : TableInfo :=
  mkTableInfo (text name) None (Some columns) None None.

(** [a] is kept with one column changed and one added, [b] is dropped, [c] is new. *)
Definition demo_before : list TableInfo :=
  [plain_table "a" [demo_column "x" "int"]; plain_table "b" [demo_column "y" "int"]].
Definition demo_after : list TableInfo :=
  [plain_table "a" [demo_column "x" "text"; demo_column "z" "int"]; plain_table "c" []].

Lemma schema_diff_leads_to_after_witness :
  length (diff_schema demo_before demo_after) = 3%nat /\
  foldl apply_table_change (schema_map demo_before) (diff_schema demo_before demo_after) =
  schema_map demo_after.
Proof.
  split; [vm_compute; reflexivity|].
  apply (schema_diff_leads_to_after demo_before demo_after).
  - apply (bool_decide_unpack _). vm_compute. exact I.
  - apply (bool_decide_unpack _). vm_compute. exact I.
  - unfold wf_columns. apply (bool_decide_unpack _). vm_compute. exact I.
  - unfold wf_columns. apply (bool_decide_unpack _). vm_compute. exact I.
Defined.

Lemma diff_empty_iff_same_structure_witness :
  diff_table_info (plain_table "a" [demo_column "x" "int"]) (plain_table "a" [demo_column "x" "int"]) = [].
Proof.
  apply (diff_empty_iff_same_structure (plain_table "a" [demo_column "x" "int"])
           (plain_table "a" [demo_column "x" "int"])).
  - apply (bool_decide_unpack _). vm_compute. exact I.
  - apply (bool_decide_unpack _). vm_compute. exact I.
  - unfold same_structure. split_and!; [reflexivity|reflexivity|reflexivity|]. intros n. reflexivity.
Defined.

(** ** Selected differences become one request to alter a table

    What the request's operations do to the columns is what the selected changes
    do; the values it expects are those of the columns before; and a selection of
    reported column changes is never refused. *)

Module TableAlterProps.
Import SchemaDrift SchemaDriftProps.
Import Alter(OwnedDefaultSpec, TableAlterOperation, TableAlterExpectedColumn, mkExpected,
  ex_name, ex_type_name, ex_nullable, ex_default, TableAlterRequest, mkAlter, ta_table,
  ta_operations, ta_expected_before).

(** ** What an operation does (the contract of [TableAlterOperation]) *)

Definition alter_fields (new_type : option (list char)) (nullable : option bool)
  (dflt : option OwnedDefaultSpec) (c : ColumnSnapshot) : ColumnSnapshot :=
  mkColumn (cs_name c) (default (cs_type_name c) new_type) (default (cs_nullable c) nullable)
    (cs_is_primary_key c)
    match dflt with
    | None => cs_default_value c
    | Some Alter.Drop => None
    | Some (Alter.Set_ v) => Some v
    end.

Definition run_operation (m : Columns) (op : TableAlterOperation) : Columns :=
  match op with
  | Alter.AlterColumn n t u d => alter (alter_fields t u d) (n : list N) m
  | Alter.DropColumn n => delete (n : list N) m
  | Alter.Unsupported _ => m
  end.

Definition operation_column (op : TableAlterOperation) : list char :=
  match op with
  | Alter.AlterColumn n _ _ _ | Alter.DropColumn n => n
  | Alter.Unsupported d => d
  end.

(** ** A round of the loop *)

(** The column a change alters or removes. *)
Definition change_column (change : SchemaChange) : option (list char) :=
  match change with
  | ColumnRemoved before | ColumnTypeChanged before _ => Some (cs_name before)
  | NullabilityChanged n _ _ | DefaultChanged n _ _ => Some n
  | _ => None
  end.

Definition blank (n : list char) : bool := bool_decide (trim_text n = []).

Definition names_fit (change : SchemaChange) : bool :=
  match change with
  | ColumnTypeChanged before after => bool_decide (cs_name before = cs_name after)
  | _ => true
  end.

(** Whether the entry [c] of a column takes the change, and the entry with it. *)
Definition fits (change : SchemaChange) (c : SelectedColumnAlter) : bool :=
  match change with
  | ColumnRemoved _ =>
      negb (sc_dropped c) && bool_decide (sc_new_type c = None)
      && bool_decide (sc_nullable c = None) && negb (sc_default_selected c)
  | ColumnTypeChanged _ _ => negb (sc_dropped c) && bool_decide (sc_new_type c = None)
  | NullabilityChanged _ _ _ => negb (sc_dropped c) && bool_decide (sc_nullable c = None)
  | DefaultChanged _ _ _ => negb (sc_dropped c) && negb (sc_default_selected c)
  | _ => false
  end.

Definition record (change : SchemaChange) (c : SelectedColumnAlter) : SelectedColumnAlter :=
  let '(mkSelected n dr t u d ds et eu ed) := c in
  match change with
  | ColumnRemoved before =>
      mkSelected n true t u d ds (Some (cs_type_name before)) (Some (cs_nullable before))
        (Some (cs_default_value before))
  | ColumnTypeChanged before after =>
      mkSelected n dr (Some (cs_type_name after)) u d ds (Some (cs_type_name before)) eu ed
  | NullabilityChanged _ before after => mkSelected n dr t (Some after) d ds et (Some before) ed
  | DefaultChanged _ before after =>
      mkSelected n dr t u
        (Some match after with Some v => Alter.Set_ v | None => Alter.Drop end) true et eu
        (Some before)
  | _ => c
  end.

(** The entry of a column, and the entries with that of a column replaced. *)
Definition entry (n : list char) (columns : list SelectedColumnAlter) : option SelectedColumnAlter :=
  snd <$> list_find (fun c => sc_name c = n) columns.

Definition upsert (n : list char) (f : SelectedColumnAlter -> SelectedColumnAlter)
  (columns : list SelectedColumnAlter) : list SelectedColumnAlter :=
  match list_find (fun c => sc_name c = n) columns with
  | Some (i, c) => <[i := f c]> columns
  | None => columns ++ [f (selected_new n)]
  end.

Definition entry_or_new (n : list char) (columns : list SelectedColumnAlter) : SelectedColumnAlter :=
  default (selected_new n) (entry n columns).

Lemma selected_column_spec columns n :
  exists columns' i, selected_column columns n = Ok (columns', i, entry_or_new n columns) /\
    forall f, <[i := f (entry_or_new n columns)]> columns' = upsert n f columns.
Proof.
  unfold selected_column, entry_or_new, entry, upsert.
  destruct (list_find _ columns) as [[i c]|] eqn:Hf; simpl.
  - apply list_find_Some in Hf as (Hi & Hn & _). rewrite Hi. eauto.
  - eexists _, _. split; [done|]. intros f. by rewrite insert_app_r_alt, Nat.sub_diag by lia.
Qed.

Lemma validate_identifier_spec n k : is_ok (validate_identifier n k) = negb (blank n).
Proof. unfold validate_identifier, blank. by case_bool_decide. Qed.

Lemma validate_matching_spec b a :
  is_ok (validate_matching_column_names b a) =
  negb (blank (cs_name b)) && bool_decide (cs_name b = cs_name a).
Proof.
  unfold validate_matching_column_names, validate_identifier, blank.
  repeat case_bool_decide; simpl; try done; congruence.
Qed.

Lemma some_test {A} `{EqDecision A} (o : option A) :
  bool_decide (is_Some o) = negb (bool_decide (o = None)).
Proof. by destruct o. Qed.

(** What one round does: it adds the change to the entry of its column, and it
    refuses exactly when the change is of another kind, the column's name is
    blank, or the entry does not take the change. *)
Lemma select_change_spec columns change :
  match change_column change with
  | Some n =>
      if negb (blank n) && names_fit change && fits change (entry_or_new n columns) then
        select_change columns change = Ok (upsert n (record change) columns)
      else is_ok (select_change columns change) = false
  | None => is_ok (select_change columns change) = false
  end.
Proof.
  destruct change as [c|c|b a|n b a|n b a|b a| |i|i]; simpl; try done.
  all: lazymatch goal with
       | |- context [selected_column ?cs ?n] =>
           destruct (selected_column_spec cs n) as (columns' & i & -> & Hup)
       end.
  - pose proof (validate_identifier_spec (cs_name c) (text "column")) as Hv.
    destruct (validate_identifier _ _); rewrite <- (negb_involutive (blank _)), <- Hv; [|done].
    unfold is_ok at 1. rewrite <- (Hup (record (ColumnRemoved c))), !some_test.
    destruct (entry_or_new (cs_name c) columns) as [m dr t u d ds et eu ed]; simpl.
    by destruct dr, t, u, ds.
  - pose proof (validate_matching_spec b a) as Hv.
    destruct (validate_matching_column_names _ _); simpl in Hv; rewrite <- Hv; [|done].
    rewrite <- (Hup (record (ColumnTypeChanged b a))), !some_test. unfold reject_if_dropped.
    destruct (entry_or_new (cs_name b) columns) as [m dr t u d ds et eu ed]; simpl.
    by destruct dr, t.
  - pose proof (validate_identifier_spec n (text "column")) as Hv.
    destruct (validate_identifier _ _); rewrite <- (negb_involutive (blank _)), <- Hv; [|done].
    rewrite <- (Hup (record (NullabilityChanged n b a))), !some_test. unfold reject_if_dropped.
    destruct (entry_or_new n columns) as [m dr t u d ds et eu ed]; simpl. by destruct dr, u.
  - pose proof (validate_identifier_spec n (text "column")) as Hv.
    destruct (validate_identifier _ _); rewrite <- (negb_involutive (blank _)), <- Hv; [|done].
    rewrite <- (Hup (record (DefaultChanged n b a))). unfold reject_if_dropped.
    destruct (entry_or_new n columns) as [m dr t u d ds et eu ed]; simpl. by destruct dr, ds.
Qed.

Lemma record_name change c : sc_name (record change c) = sc_name c.
Proof. by destruct c, change. Qed.

Lemma entry_some n columns c : entry n columns = Some c -> c ∈ columns /\ sc_name c = n.
Proof.
  unfold entry. destruct (list_find _ columns) as [[i d]|] eqn:Hf; simpl; [|done].
  intros [= ->]. apply list_find_Some in Hf as (Hi & Hn & _). split; [|done].
  by eapply list_elem_of_lookup_2.
Qed.

Lemma entry_or_new_name n columns : sc_name (entry_or_new n columns) = n.
Proof.
  unfold entry_or_new. destruct (entry n columns) as [c|] eqn:Hc; [|done].
  by apply entry_some in Hc as [_ Hc].
Qed.

Lemma entry_none n columns : entry n columns = None <-> n ∉ map sc_name columns.
Proof.
  unfold entry. rewrite fmap_None, list_find_None, Forall_forall, list_elem_of_fmap. naive_solver.
Qed.

Lemma entry_cons n c columns :
  entry n (c :: columns) = if bool_decide (sc_name c = n) then Some c else entry n columns.
Proof.
  unfold entry. simpl. case_decide as Hd; [by rewrite bool_decide_true|].
  rewrite bool_decide_false by done. by destruct (list_find _ columns) as [[i d]|].
Qed.

Lemma upsert_cons n f c columns :
  upsert n f (c :: columns) =
  if bool_decide (sc_name c = n) then f c :: columns else c :: upsert n f columns.
Proof.
  unfold upsert. simpl. case_decide as Hd; [by rewrite bool_decide_true|].
  rewrite bool_decide_false by done. by destruct (list_find _ columns) as [[i d]|].
Qed.

Section upserting.
Context (f : SelectedColumnAlter -> SelectedColumnAlter) (Hf : forall c, sc_name (f c) = sc_name c).

Lemma upsert_names n columns :
  map sc_name (upsert n f columns) =
  map sc_name columns ++ (if bool_decide (n ∈ map sc_name columns) then [] else [n]).
Proof.
  induction columns as [|c columns IH].
  - change (upsert n f []) with [f (selected_new n)]. simpl. by rewrite Hf.
  - rewrite upsert_cons. destruct (decide (sc_name c = n)) as [Hn|Hn].
    + rewrite (bool_decide_true (sc_name c = n)) by done. simpl.
      rewrite Hf, bool_decide_true, app_nil_r by (rewrite Hn; by left). done.
    + rewrite (bool_decide_false (sc_name c = n)) by done. simpl. rewrite IH. f_equal. f_equal.
      repeat case_bool_decide; set_solver.
Qed.

Lemma upsert_nodup n columns : NoDup (map sc_name columns) -> NoDup (map sc_name (upsert n f columns)).
Proof.
  intros Hnd. rewrite upsert_names. case_bool_decide as Hn; [by rewrite app_nil_r|].
  apply NoDup_app. split_and!; [done|set_solver|apply NoDup_singleton].
Qed.

Lemma entry_upsert n n' columns :
  entry n' (upsert n f columns) =
  if bool_decide (n = n') then Some (f (entry_or_new n columns)) else entry n' columns.
Proof.
  induction columns as [|c columns IH].
  - change (upsert n f []) with [f (selected_new n)]. by rewrite entry_cons, Hf.
  - rewrite upsert_cons. destruct (bool_decide (sc_name c = n)) eqn:Hn.
    + apply bool_decide_eq_true in Hn as <-.
      rewrite !entry_cons, Hf. unfold entry_or_new.
      rewrite (entry_cons (sc_name c)), (bool_decide_true (sc_name c = sc_name c)) by done.
      by repeat case_bool_decide.
    + apply bool_decide_eq_false in Hn. rewrite !entry_cons, IH. unfold entry_or_new.
      rewrite (entry_cons n), (bool_decide_false (sc_name c = n)) by done.
      repeat case_bool_decide; congruence.
Qed.
End upserting.

(** What the entry of a column does to it. *)
Definition entry_effect (c : SelectedColumnAlter) (o : option ColumnSnapshot) : option ColumnSnapshot :=
  if sc_dropped c then None
  else alter_fields (sc_new_type c) (sc_nullable c) (sc_default c) <$> o.

Lemma run_operations_lookup columns m (n : list N) :
  NoDup (map sc_name columns) ->
  foldl run_operation m (map operation_of columns) !! n =
  match entry n columns with
  | Some c => entry_effect c (m !! n)
  | None => m !! n
  end.
Proof.
  revert m. induction columns as [|c columns IH]; intros m; simpl; [done|].
  intros [Hc Hnd]%NoDup_cons. rewrite IH, entry_cons by done.
  apply entry_none in Hc. unfold operation_of, entry_effect.
  case_bool_decide as Hn; [subst n; rewrite Hc|]; destruct (sc_dropped c); simpl.
  - apply lookup_delete_eq.
  - apply lookup_alter_eq.
  - by rewrite lookup_delete_ne.
  - by rewrite lookup_alter_ne.
Qed.

Lemma record_effect change c n o :
  change_column change = Some n -> fits change c = true ->
  entry_effect (record change c) o = cell_change n (entry_effect c o) change.
Proof.
  unfold entry_effect. destruct c as [m dr t u d ds et eu ed].
  destruct change as [c|c|b a|n' b a|n' b a|b a| |i|i]; simpl; intros [= ->] Hfit;
    rewrite bool_decide_true by done; destruct dr; try done;
    destruct o as [col|]; simpl; try done; unfold alter_fields, set_type, set_nullable, set_default;
    simpl; f_equal; f_equal.
  by destruct a.
Qed.

Lemma cell_change_other change n n' o :
  change_column change = Some n -> n <> n' -> cell_change n' o change = o.
Proof. destruct change; simpl; intros [= ->] Hn; by rewrite bool_decide_false. Qed.

(** ** The loop *)

Record loop_state (processed : list SchemaChange) (columns : list SelectedColumnAlter) : Prop := {
  ls_nodup : NoDup (map sc_name columns);
  ls_effect m : foldl run_operation m (map operation_of columns) = apply_changes m processed;
}.

Lemma upsert_forall (P : SelectedColumnAlter -> Prop) n f columns :
  Forall P columns -> P (f (entry_or_new n columns)) -> Forall P (upsert n f columns).
Proof.
  unfold upsert, entry_or_new, entry. destruct (list_find _ columns) as [[i c]|]; simpl; intros Hall Hf.
  - by apply Forall_insert.
  - apply Forall_app. by repeat constructor.
Qed.

Lemma loop_state_step processed columns change n :
  loop_state processed columns -> change_column change = Some n ->
  fits change (entry_or_new n columns) = true ->
  loop_state (processed ++ [change]) (upsert n (record change) columns).
Proof.
  intros [Hnd Heff] Hn Hfit. pose proof (record_name change) as Hname. split.
  - by apply upsert_nodup.
  - intros m. unfold apply_changes. rewrite foldl_app. fold (apply_changes m processed).
    rewrite <- Heff. simpl. apply map_eq. intros k.
    rewrite lookup_apply_change, !run_operations_lookup, entry_upsert by auto using upsert_nodup.
    case_bool_decide as Hk; [subst k|by rewrite (cell_change_other change n k)].
    rewrite (record_effect change _ n) by done.
    unfold entry_or_new. destruct (entry n columns); simpl; [done|].
    unfold entry_effect. simpl. destruct (m !! (n : list N)) as [[]|]; done.
Qed.

Lemma select_change_inv columns change columns' :
  select_change columns change = Ok columns' ->
  exists n, change_column change = Some n /\ fits change (entry_or_new n columns) = true /\
    columns' = upsert n (record change) columns.
Proof.
  intros Hok. pose proof (select_change_spec columns change) as Hs. rewrite Hok in Hs.
  destruct (change_column change) as [n|]; [|done]. exists n.
  destruct (_ && _) eqn:Hfit; [|done]. apply andb_true_iff in Hfit as [_ Hfit]. by simplify_eq.
Qed.

Lemma select_changes_state processed columns selected columns' :
  loop_state processed columns -> select_changes columns selected = Ok columns' ->
  loop_state (processed ++ selected) columns'.
Proof.
  revert processed columns. induction selected as [|change rest IH]; intros processed columns Hst; simpl.
  - intros [= <-]. by rewrite app_nil_r.
  - destruct (select_change columns change) as [next|] eqn:Hsel; [|done]. intros Hrest.
    apply select_change_inv in Hsel as (n & Hn & Hfit & ->).
    replace (processed ++ change :: rest) with ((processed ++ [change]) ++ rest) by (by rewrite <- app_assoc).
    eapply IH; [|done]. by apply loop_state_step.
Qed.

Lemma normalize_inv table selected req :
  normalize_selected_table_alter table selected = Ok req ->
  exists columns, select_changes [] selected = Ok columns /\ selected <> [] /\ blank (tr_name table) = false /\
    req = mkAlter table (map operation_of columns) (map expected_of columns).
Proof.
  unfold normalize_selected_table_alter. pose proof (validate_identifier_spec (tr_name table) (text "table")) as Hv.
  destruct (validate_identifier _ _); [|done]. symmetry in Hv. apply negb_true_iff in Hv.
  destruct selected as [|c cs]; [done|].
  destruct (select_changes [] (c :: cs)) as [columns|]; [|done]. intros [= <-]. eauto.
Qed.

Lemma empty_state : loop_state [] [].
Proof. split; [constructor|done]. Qed.

Lemma normalized_effect table selected req m :
  normalize_selected_table_alter table selected = Ok req ->
  foldl run_operation m (ta_operations req) = apply_changes m selected.
Proof.
  intros (columns & Hsel & _ & _ & ->)%normalize_inv; simpl.
  apply (select_changes_state [] []) in Hsel as [_ Heff]; [apply Heff|apply empty_state].
Qed.

(** The request made of the selected changes of a table does what the changes
    do: on any columns, running its operations in order gives what applying the
    selected changes in order gives.  It has one operation for a column, and
    none that a planner would have to refuse. *)
Theorem request_does_what_was_selected table selected req m :
  normalize_selected_table_alter table selected = Ok req ->
  ta_table req = table /\
  foldl run_operation m (ta_operations req) = apply_changes m selected /\
  NoDup (map operation_column (ta_operations req)) /\
  (forall d, Alter.Unsupported d ∉ ta_operations req).
Proof.
  intros Hok. pose proof (normalized_effect table selected req m Hok) as Heff.
  apply normalize_inv in Hok as (columns & Hsel & _ & _ & ->); simpl in *.
  apply (select_changes_state [] []) in Hsel as [Hnd _]; [|apply empty_state].
  split_and!; [done|done| |].
  - rewrite map_map. erewrite map_ext; [done|]. intros c. unfold operation_of. by destruct (sc_dropped c).
  - intros d (c & Heq & _)%list_elem_of_fmap. unfold operation_of in Heq. by destruct (sc_dropped c).
Qed.

(** ** The values the request expects *)

Definition fields_agree (e : TableAlterExpectedColumn) (col : ColumnSnapshot) : Prop :=
  (forall t, ex_type_name e = Some t -> cs_type_name col = t) /\
  (forall u, ex_nullable e = Some u -> cs_nullable col = u) /\
  (forall d, ex_default e = Some d -> cs_default_value col = d).

(** The column is there and has the expected values. *)
Definition expected_holds (m : Columns) (e : TableAlterExpectedColumn) : Prop :=
  exists col, m !! (ex_name e : list N) = Some col /\ fields_agree e col.

(** Each field the operation of an entry sets has an expected value, and a
    removed column one for every field. *)
Definition guarded (op : TableAlterOperation) (e : TableAlterExpectedColumn) : Prop :=
  match op with
  | Alter.AlterColumn n t u d =>
      ex_name e = n /\ (is_Some t -> is_Some (ex_type_name e)) /\
      (is_Some u -> is_Some (ex_nullable e)) /\ (is_Some d -> is_Some (ex_default e))
  | Alter.DropColumn n =>
      ex_name e = n /\ is_Some (ex_type_name e) /\ is_Some (ex_nullable e) /\ is_Some (ex_default e)
  | Alter.Unsupported _ => False
  end.

(** The values a change says the column has before it. *)
Definition starts_from (change : SchemaChange) (col : ColumnSnapshot) : Prop :=
  match change with
  | ColumnRemoved before => col = before
  | ColumnTypeChanged before _ => col = before
  | NullabilityChanged _ before _ => cs_nullable col = before
  | DefaultChanged _ before _ => cs_default_value col = before
  | _ => False
  end.

Lemma record_expected change c col :
  starts_from change col -> fields_agree (expected_of c) col ->
  fields_agree (expected_of (record change c)) col.
Proof.
  unfold fields_agree. destruct c; destruct change; simpl; naive_solver.
Qed.

Lemma record_guarded change n c :
  change_column change = Some n -> fits change c = true -> sc_dropped c = false ->
  guarded (operation_of c) (expected_of c) ->
  guarded (operation_of (record change c)) (expected_of (record change c)).
Proof.
  unfold operation_of. destruct c as [m dr t u d ds et eu ed]; simpl.
  destruct change; simpl; intros Hn Hfit ->; try done; simpl; intuition eauto.
Qed.

Definition entry_expected (m : Columns) (c : SelectedColumnAlter) : Prop :=
  expected_holds m (expected_of c) /\ guarded (operation_of c) (expected_of c).

Lemma upsert_expected m columns change n col :
  m !! (n : list N) = Some col -> starts_from change col ->
  change_column change = Some n -> fits change (entry_or_new n columns) = true ->
  Forall (entry_expected m) columns -> Forall (entry_expected m) (upsert n (record change) columns).
Proof.
  intros Hcol Hst Hn Hfit Hall. apply upsert_forall; [done|].
  pose proof (entry_or_new_name n columns) as Hname.
  assert (Hd : sc_dropped (entry_or_new n columns) = false).
  { destruct change; simpl in Hfit; try done; by destruct (sc_dropped _). }
  assert (He : fields_agree (expected_of (entry_or_new n columns)) col /\
               guarded (operation_of (entry_or_new n columns)) (expected_of (entry_or_new n columns))).
  { unfold entry_or_new in *. destruct (entry n columns) as [c|] eqn:Hc; simpl in *.
    - apply entry_some in Hc as [Hin Hcn]. rewrite Forall_forall in Hall.
      destruct (Hall c Hin) as [(col' & Hcol' & Hag) Hg]. simpl in Hcol'. split; [|done].
      rewrite Hcn in Hcol'. by simplify_eq.
    - split; [by unfold fields_agree|]. simpl. split_and!; try done; by intros []. }
  destruct He as [Hag Hg]. split; [|by eapply record_guarded].
  exists col. split; [|by apply record_expected].
  simpl. by rewrite record_name, Hname.
Qed.

Lemma select_changes_expected m columns selected columns' :
  (forall ch n, ch ∈ selected -> change_column ch = Some n ->
     exists col, m !! (n : list N) = Some col /\ starts_from ch col) ->
  select_changes columns selected = Ok columns' ->
  Forall (entry_expected m) columns -> Forall (entry_expected m) columns'.
Proof.
  revert columns. induction selected as [|change rest IH]; intros columns Hsel; simpl; [by intros [= <-]|].
  destruct (select_change columns change) as [next|] eqn:Hch; [|done]. intros Hrest Hall.
  apply select_change_inv in Hch as (n & Hn & Hfit & ->).
  destruct (Hsel change n) as (col & Hcol & Hst); [by left|done|].
  apply (IH (upsert n (record change) columns)); [|done|by eapply upsert_expected].
  intros ch n' Hin. apply Hsel. by right.
Qed.

(** ** The changes of one column in a difference *)

Lemma diff_change_column before after ch n :
  ch ∈ diff_table_info before after -> change_column ch = Some n ->
  exists bc, bc ∈ table_columns before /\ cs_name bc = n /\
    ch ∈ diff_column (table_columns after) bc.
Proof.
  unfold diff_table_info, added_columns, diff_primary_keys, diff_foreign_keys, diff_indexes.
  rewrite !elem_of_app, !list_elem_of_fmap.
  intros [Hch|Hch] Hn.
  - apply list_elem_of_In, in_flat_map in Hch as (bc & Hbc & Hch).
    apply list_elem_of_In in Hbc, Hch. exists bc. split_and!; [done| |done].
    destruct (decide (cs_name bc = n)) as [|Hne]; [done|exfalso]. revert Hch Hn.
    unfold diff_column. destruct (find_column (cs_name bc) _) as [ac|].
    + repeat case_bool_decide; simpl; rewrite ?elem_of_cons, ?elem_of_nil; naive_solver.
    + intros ->%list_elem_of_singleton. simpl. congruence.
  - exfalso. revert Hch. repeat case_bool_decide; rewrite ?elem_of_nil, ?list_elem_of_singleton; naive_solver.
Qed.

Lemma diff_starts_from before after ch n :
  NoDup (map cs_name (table_columns before)) ->
  ch ∈ diff_table_info before after -> change_column ch = Some n ->
  exists col, columns_map (table_columns before) !! (n : list N) = Some col /\ starts_from ch col.
Proof.
  intros Hnd Hch Hn. destruct (diff_change_column before after ch n Hch Hn) as (bc & Hbc & <- & Hin).
  exists bc. rewrite <- find_column_map, find_column_nodup by done. split; [done|].
  revert Hin Hn. unfold diff_column. destruct (find_column (cs_name bc) _) as [ac|].
  - repeat case_bool_decide; simpl; rewrite ?elem_of_cons, ?elem_of_nil; naive_solver.
  - by intros ->%list_elem_of_singleton.
Qed.

(** Every value the request expects is the one the table had when it was compared,
    and every field an operation sets or drops has an expected value. *)
Lemma request_expects_the_compared_table before after table selected req :
  NoDup (map cs_name (table_columns before)) ->
  (forall ch, ch ∈ selected -> ch ∈ diff_table_info before after) ->
  normalize_selected_table_alter table selected = Ok req ->
  Forall (expected_holds (columns_map (table_columns before))) (ta_expected_before req) /\
  Forall2 guarded (ta_operations req) (ta_expected_before req).
Proof.
  intros Hnd Hsub (columns & Hsel & _ & _ & ->)%normalize_inv; simpl.
  eapply (select_changes_expected (columns_map (table_columns before))) in Hsel; [| |constructor].
  - split.
    + apply Forall_map. eapply Forall_impl; [done|]. by intros c [].
    + apply Forall2_fmap_2, Forall_Forall2_diag. eapply Forall_impl; [done|]. by intros c [].
  - intros ch n Hin. apply (diff_starts_from before after); auto.
Qed.

(** ** No reported column change is refused *)

(** Two changes of one column that one request cannot hold. *)
Definition conflicts (c1 c2 : SchemaChange) : bool :=
  match c1, c2 with
  | ColumnRemoved _, _ | _, ColumnRemoved _ => true
  | ColumnTypeChanged _ _, ColumnTypeChanged _ _ => true
  | NullabilityChanged _ _ _, NullabilityChanged _ _ _ => true
  | DefaultChanged _ _ _, DefaultChanged _ _ _ => true
  | _, _ => false
  end.

Lemma diff_conflict before after c1 c2 n :
  NoDup (map cs_name (table_columns before)) ->
  c1 ∈ diff_table_info before after -> c2 ∈ diff_table_info before after ->
  change_column c1 = Some n -> change_column c2 = Some n -> conflicts c1 c2 = true -> c1 = c2.
Proof.
  intros Hnd H1 H2 Hn1 Hn2.
  destruct (diff_change_column _ _ _ _ H1 Hn1) as (b1 & Hb1 & Heq1 & Hin1).
  destruct (diff_change_column _ _ _ _ H2 Hn2) as (b2 & Hb2 & Heq2 & Hin2).
  assert (b1 = b2) as -> by (apply (nodup_map_inj cs_name (table_columns before)); congruence).
  revert Hin1 Hin2. unfold diff_column. destruct (find_column (cs_name b2) _) as [ac|].
  - repeat case_bool_decide; simpl; rewrite ?elem_of_cons, ?elem_of_nil; naive_solver.
  - by intros ->%list_elem_of_singleton ->%list_elem_of_singleton.
Qed.

(** What an entry holds comes from a change of its column. *)
Definition entry_from (processed : list SchemaChange) (c : SelectedColumnAlter) : Prop :=
  forall change, change_column change = Some (sc_name c) -> fits change c = false ->
  exists ch, ch ∈ processed /\ change_column ch = Some (sc_name c) /\ conflicts ch change = true.

Lemma record_from processed change c :
  change_column change = Some (sc_name c) -> entry_from processed c ->
  entry_from (processed ++ [change]) (record change c).
Proof.
  intros Hn Hfrom next. rewrite record_name. intros Hnext Hfit.
  destruct (conflicts change next) eqn:Hc; [exists change; set_solver|].
  destruct (Hfrom next Hnext) as (ch & Hin & Hch & Hcf); [|exists ch; set_solver].
  destruct c as [m dr t u d ds et eu ed]. by destruct change, next.
Qed.

Lemma entry_from_mono processed change c :
  entry_from processed c -> entry_from (processed ++ [change]) c.
Proof.
  intros Hfrom next Hnext Hfit. destruct (Hfrom next Hnext Hfit) as (ch & Hin & Hch & Hcf).
  exists ch. set_solver.
Qed.

Lemma entry_or_new_from processed n columns :
  Forall (entry_from processed) columns -> entry_from processed (entry_or_new n columns).
Proof.
  intros Hall. unfold entry_or_new. destruct (entry n columns) as [c|] eqn:Hc; simpl.
  - apply entry_some in Hc as [Hin _]. rewrite Forall_forall in Hall. by apply Hall.
  - intros change Hn. by destruct change.
Qed.

Definition wf_change (change : SchemaChange) : Prop :=
  exists n, change_column change = Some n /\ blank n = false /\ names_fit change = true.

Lemma select_changes_total processed columns selected :
  NoDup (processed ++ selected) -> Forall wf_change selected ->
  (forall c1 c2 n, c1 ∈ processed ++ selected -> c2 ∈ processed ++ selected ->
     change_column c1 = Some n -> change_column c2 = Some n -> conflicts c1 c2 = true -> c1 = c2) ->
  Forall (entry_from processed) columns -> exists columns', select_changes columns selected = Ok columns'.
Proof.
  revert processed columns. induction selected as [|change rest IH];
    intros processed columns Hnd Hwf Hfun Hfrom; simpl; [eauto|].
  apply Forall_cons in Hwf as [(n & Hn & Hb & Hfit) Hwf].
  pose proof (select_change_spec columns change) as Hs. rewrite Hn, Hb, Hfit in Hs. simpl in Hs.
  pose proof (entry_or_new_from processed n columns Hfrom) as Hent.
  pose proof (entry_or_new_name n columns) as Hname.
  destruct (fits change (entry_or_new n columns)) eqn:Hf.
  - rewrite Hs. apply (IH (processed ++ [change])); [by rewrite <- app_assoc|done|by rewrite <- app_assoc|].
    apply upsert_forall.
    + eapply Forall_impl; [done|]. intros c. apply entry_from_mono.
    + apply record_from; [by rewrite Hname|done].
  - destruct (Hent change) as (ch & Hin & Hch & Hcf); [by rewrite Hname|done|].
    rewrite Hname in Hch. exfalso.
    assert (ch = change) as -> by (apply (Hfun ch change n); set_solver).
    apply NoDup_app in Hnd as (_ & Hdisj & _). apply (Hdisj change Hin). by left.
Qed.

Lemma diff_wf_change before after ch n :
  Forall (fun c => blank (cs_name c) = false) (table_columns before) ->
  ch ∈ diff_table_info before after -> change_column ch = Some n -> wf_change ch.
Proof.
  intros Hblank Hch Hn. exists n.
  destruct (diff_change_column before after ch n Hch Hn) as (bc & Hbc & <- & Hin).
  rewrite Forall_forall in Hblank. split_and!; [done|by apply Hblank|].
  revert Hin. unfold diff_column. destruct (find_column (cs_name bc) _) as [ac|] eqn:Hf.
  - apply find_column_elem in Hf as [_ Hac].
    repeat case_bool_decide; simpl; rewrite ?elem_of_cons, ?elem_of_nil; intros Hin;
      destruct_or?; subst; simpl; try done; by apply bool_decide_eq_true.
  - by intros ->%list_elem_of_singleton.
Qed.

Lemma reported_accepted before after table selected :
  blank (tr_name table) = false -> selected <> [] -> NoDup selected ->
  NoDup (map cs_name (table_columns before)) ->
  Forall (fun c => blank (cs_name c) = false) (table_columns before) ->
  (forall ch, ch ∈ selected -> ch ∈ diff_table_info before after /\ is_Some (change_column ch)) ->
  exists req, normalize_selected_table_alter table selected = Ok req.
Proof.
  intros Ht Hne Hnd Hcols Hblank Hsub.
  destruct (select_changes_total [] [] selected) as [columns Hsel]; [done| | |constructor|].
  - apply Forall_forall. intros ch Hin. destruct (Hsub ch Hin) as [Hd [n Hn]].
    by apply (diff_wf_change before after ch n).
  - intros c1 c2 n H1 H2. apply (diff_conflict before after); [done|apply Hsub..]; done.
  - unfold normalize_selected_table_alter.
    pose proof (validate_identifier_spec (tr_name table) (text "table")) as Hv. rewrite Ht in Hv.
    destruct (validate_identifier _ _); [|done]. destruct selected; [done|]. rewrite Hsel. eauto.
Qed.

(** C24: a selection of reported changes is carried out as selected: any non-empty
    choice, in any order, of the removals and alterations of columns that the
    comparison of a table lists, each at most once, becomes a request.  On any
    columns its operations do what the selected changes do; and it guards against
    a table that has changed since: each of its operations comes with the values
    the compared table had in the fields it sets or drops. *)
Theorem selection_is_carried_out before after table selected :
  blank (tr_name table) = false -> selected <> [] -> NoDup selected ->
  NoDup (map cs_name (table_columns before)) ->
  Forall (fun c => blank (cs_name c) = false) (table_columns before) ->
  (forall ch, ch ∈ selected -> ch ∈ diff_table_info before after /\ is_Some (change_column ch)) ->
  exists req, normalize_selected_table_alter table selected = Ok req /\
    (forall m, foldl run_operation m (ta_operations req) = apply_changes m selected) /\
    Forall (expected_holds (columns_map (table_columns before))) (ta_expected_before req) /\
    Forall2 guarded (ta_operations req) (ta_expected_before req).
Proof.
  intros Ht Hne Hnd Hcols Hblank Hsub.
  destruct (reported_accepted before after table selected) as [req Hreq]; [done..|].
  exists req. split_and!; [done|intros m; by apply (normalized_effect table)| |];
    apply (request_expects_the_compared_table before after table selected req); naive_solver.
Qed.

(** ** From one table to another by one request *)

Lemma diff_column_nodup acols bc : NoDup (diff_column acols bc).
Proof.
  unfold diff_column. destruct (find_column (cs_name bc) acols) as [ac|]; [|apply NoDup_singleton].
  repeat case_bool_decide; simpl; repeat constructor; rewrite ?elem_of_cons, ?elem_of_nil; naive_solver.
Qed.

Lemma diff_columns_nodup acols bcols :
  NoDup (map cs_name bcols) -> NoDup (flat_map (diff_column acols) bcols).
Proof.
  induction bcols as [|bc bcols IH]; simpl; [constructor|]. intros [Hbc Hnd]%NoDup_cons.
  apply NoDup_app. split_and!; [apply diff_column_nodup| |by apply IH].
  intros ch Hch Hrest. apply list_elem_of_In, in_flat_map in Hrest as (b2 & Hb2 & Hch2).
  apply list_elem_of_In in Hb2, Hch2. apply Hbc.
  assert (Hname : forall b, ch ∈ diff_column acols b -> change_column ch = Some (cs_name b)).
  { intros b. unfold diff_column. destruct (find_column (cs_name b) acols) as [ac|].
    - repeat case_bool_decide; simpl; rewrite ?elem_of_cons, ?elem_of_nil; naive_solver.
    - by intros ->%list_elem_of_singleton. }
  apply Hname in Hch, Hch2. rewrite Hch in Hch2. injection Hch2 as ->. by apply list_elem_of_fmap_2.
Qed.

Lemma altered_diff_nodup before after :
  NoDup (map cs_name (table_columns before)) ->
  (forall ch, ch ∈ diff_table_info before after -> is_Some (change_column ch)) ->
  NoDup (diff_table_info before after).
Proof.
  intros Hnd Hall. unfold diff_table_info in *.
  set (rest := added_columns _ _ ++ _) in *.
  assert (rest = []) as ->; [|rewrite app_nil_r; by apply diff_columns_nodup].
  destruct rest as [|ch rest'] eqn:Hr; [done|exfalso].
  assert (Hin : ch ∈ rest) by (rewrite Hr; by left).
  destruct (Hall ch) as [n Hn]; [set_solver|]. revert Hin. unfold rest.
  unfold added_columns, diff_primary_keys, diff_foreign_keys, diff_indexes.
  rewrite !elem_of_app, !list_elem_of_fmap.
  repeat case_bool_decide; rewrite ?elem_of_nil, ?list_elem_of_singleton; naive_solver.
Qed.

(** From the table to the reference: when the differences of two tables are
    removals and alterations of columns, selecting all of them gives a request,
    and its operations turn the columns of the one into those of the other. *)
Theorem whole_difference_leads_to_after before after table :
  blank (tr_name table) = false ->
  NoDup (map cs_name (table_columns before)) -> NoDup (map cs_name (table_columns after)) ->
  Forall (fun c => blank (cs_name c) = false) (table_columns before) ->
  diff_table_info before after <> [] ->
  (forall ch, ch ∈ diff_table_info before after -> is_Some (change_column ch)) ->
  exists req, normalize_selected_table_alter table (diff_table_info before after) = Ok req /\
    foldl run_operation (columns_map (table_columns before)) (ta_operations req) =
    columns_map (table_columns after).
Proof.
  intros Ht Hb Ha Hblank Hne Hall.
  destruct (reported_accepted before after table (diff_table_info before after)) as [req Hreq];
    [done|done|by apply altered_diff_nodup|done|done|naive_solver|].
  exists req. split; [done|]. rewrite (normalized_effect _ _ _ _ Hreq). by apply diff_applied.
Qed.

End TableAlterProps.

(** ** Examples *)

Import SchemaDrift SchemaDriftProps TableAlterProps.

Definition users_before : TableInfo :=
  mkTableInfo (text "users") (Some (text "public"))
    (Some [mkColumnInfo (text "id") (text "int") false true None None;
           mkColumnInfo (text "name") (text "text") true false None None;
           mkColumnInfo (text "old") (text "int") true false None None]) None None.

(** [old] is removed, [name] gets a type, a NOT NULL and a default. *)
Definition users_after : TableInfo :=
  mkTableInfo (text "users") (Some (text "public"))
    (Some [mkColumnInfo (text "id") (text "int") false true None None;
           mkColumnInfo (text "name") (text "varchar") false false (Some (text "'x'")) None]) None None.

Definition users_ref : TableRef := mkTableRef (Some (text "public")) (text "users").

Lemma request_does_what_was_selected_witness :
  exists req,
    normalize_selected_table_alter users_ref (diff_table_info users_before users_after) = Ok req /\
    length (Alter.ta_operations req) = 2%nat /\
    foldl run_operation ∅ (Alter.ta_operations req) =
    apply_changes ∅ (diff_table_info users_before users_after).
Proof.
  destruct (normalize_selected_table_alter users_ref (diff_table_info users_before users_after))
    as [req|] eqn:Hreq; [|vm_compute in Hreq; discriminate Hreq].
  exists req. split; [reflexivity|].
  destruct (request_does_what_was_selected users_ref _ req ∅ Hreq) as (_ & Heff & _).
  split; [|exact Heff]. vm_compute in Hreq. injection Hreq as <-. reflexivity.
Defined.

Lemma selection_is_carried_out_witness :
  exists req, normalize_selected_table_alter users_ref
    [ColumnRemoved (mkColumn (text "old") (text "int") true false None)] = Ok req /\
    Forall (expected_holds (columns_map (table_columns users_before))) (Alter.ta_expected_before req).
Proof.
  destruct (selection_is_carried_out users_before users_after users_ref
    [ColumnRemoved (mkColumn (text "old") (text "int") true false None)]) as (req & Hreq & _ & Hex & _).
  - reflexivity.
  - discriminate.
  - apply NoDup_singleton.
  - apply (bool_decide_unpack _). vm_compute. exact I.
  - repeat constructor.
  - intros ch ->%list_elem_of_singleton. split; [|eexists; reflexivity].
    apply (bool_decide_unpack _). vm_compute. exact I.
  - exists req. split; [exact Hreq|exact Hex].
Defined.

Lemma whole_difference_leads_to_after_witness :
  exists req,
    normalize_selected_table_alter users_ref (diff_table_info users_before users_after) = Ok req /\
    foldl run_operation (columns_map (table_columns users_before)) (Alter.ta_operations req) =
    columns_map (table_columns users_after).
Proof.
  apply (whole_difference_leads_to_after users_before users_after users_ref).
  - reflexivity.
  - apply (bool_decide_unpack _). vm_compute. exact I.
  - apply (bool_decide_unpack _). vm_compute. exact I.
  - repeat constructor.
  - intros Hnil. vm_compute in Hnil. discriminate Hnil.
  - apply Forall_forall. apply (bool_decide_unpack _). vm_compute. exact I.
Defined.
