(* ===== verification/DriftCheck.v ===== *)
(** * Schema drift before a query (crates/dbflux_core: schema/fingerprint.rs,
      schema/drift_check.rs; dbflux_ui_document: code/execution.rs)

    Before a query runs, the tables it names are fetched again and compared with
    the cached descriptions: first by fingerprint, then column by column.  The
    outcome says what to write back to the cache and which differences to show.
    The driver's answers are a parameter, and so is the hash function: a hasher is
    a function of what is written to it. *)

From S2P Require Import Prelude RustStr External RustChar Classification VisualQuery RustOrd SchemaDrift.

Module DriftCheck.
Import SchemaDrift.

(** ** Fingerprints *)

(** What [Hash] writes: a string, a flag, the length of a vector, the variant of
    an option. *)
Inductive HashWrite : Type :=
| HashStr (s : list char)
| HashBool (b : bool)
| HashLen (n : nat)
| HashVariant (n : nat).

(** [DefaultHasher]: [finish] after the given writes to a new hasher. *)
Class SessionHasher := finish : list HashWrite -> Z.

Definition hash_strings (l : list (list char)) : list HashWrite :=
  HashLen (length l) :: map HashStr l.

Definition hash_option (o : option (list char)) : list HashWrite :=
  match o with
  | None => [HashVariant 0]
  | Some s => [HashVariant 1; HashStr s]
  end.

Definition hash_column (c : ColumnInfo) : list HashWrite :=
  [HashStr (ci_name c); HashStr (ci_type_name c); HashBool (ci_nullable c);
   HashBool (ci_is_primary_key c)].

Definition FkTuple : Type :=
  list (list char) * option (list char) * list char * list (list char).

Definition fk_tuple (fk : ForeignKeyInfo) : FkTuple :=
  (fk_columns fk, fk_referenced_schema fk, fk_referenced_table fk, fk_referenced_columns fk).

Definition hash_fk_tuple (t : FkTuple) : list HashWrite :=
  let '(columns, referenced_schema, referenced_table, referenced_columns) := t in
  hash_strings columns ++ hash_option referenced_schema ++ [HashStr referenced_table]
  ++ hash_strings referenced_columns.

Definition fingerprint_writes (info : TableInfo) : list HashWrite :=
  match ti_columns info with
  | Some columns => flat_map hash_column columns
  | None => []
  end ++
  match ti_foreign_keys info with
  | Some fks => flat_map hash_fk_tuple (sort_ord (map fk_tuple fks))
  | None => []
  end.

Definition from_table_info `{SessionHasher} (info : TableInfo) : Z := finish (fingerprint_writes info).

(** ** Stable digests *)

Section Stable.
Context `{TextLib}.

Definition str_bytes (s : list char) : list ascii := flat_map utf8_encode s.
Definition byte (n : N) : list ascii := [ascii_of_N n].
Definition flag (b : bool) : list ascii := byte (if b then 1 else 0)%N.

(** [slice::join] with a comma. *)
Fixpoint join_commas (l : list (list char)) : list char :=
  match l with
  | [] => []
  | [s] => s
  | s :: l' => s ++ text "," ++ join_commas l'
  end.

Definition StableTuple : Type := list char * list char * list char * list char.

Definition stable_tuple (fk : ForeignKeyInfo) : StableTuple :=
  (join_commas (fk_columns fk), default [] (fk_referenced_schema fk), fk_referenced_table fk,
   join_commas (fk_referenced_columns fk)).

Definition stable_bytes (info : TableInfo) : list ascii :=
  str_bytes (default [] (ti_schema info)) ++ byte 0
  ++ str_bytes (ti_name info) ++ byte 0
  ++ flat_map (fun col =>
       str_bytes (ci_name col) ++ byte 0 ++ str_bytes (ci_type_name col) ++ byte 0
       ++ flag (ci_nullable col) ++ flag (ci_is_primary_key col)
       ++ str_bytes (default [] (ci_default_value col)) ++ byte 0) (default [] (ti_columns info))
  ++ byte 255
  ++ flat_map (fun t : StableTuple =>
       let '(columns, referenced_schema, referenced_table, referenced_columns) := t in
       str_bytes columns ++ byte 0 ++ str_bytes referenced_schema ++ byte 0
       ++ str_bytes referenced_table ++ byte 0 ++ str_bytes referenced_columns ++ byte 0)
     (sort_ord (map stable_tuple (default [] (ti_foreign_keys info)))).

Definition stable_hex (info : TableInfo) : string := sha256_hex (of_bytes (stable_bytes info)).

Definition stable_hex_many (tables : list TableInfo) : string :=
  sha256_hex (of_bytes (flat_map (fun hex => bytes_of hex ++ byte 0)
    (sort_by_key id (map stable_hex tables)))).
End Stable.

(** ** The check *)

Record QueryTableRef := mkQueryTable {
  qt_database : option (list char);
  qt_schema : option (list char);
  qt_table : list char;
}.

Record SchemaDiff := mkSchemaDiff {
  sd_table : QueryTableRef;
  sd_changes : list SchemaChange;
  sd_fresh : TableInfo;
}.

(** [(database, schema, table)]. *)
Abbreviation TableKey := (list N * option (list N) * list N)%type.
Abbreviation Cache := (gmap TableKey TableInfo).

Inductive DriftOutcome : Type :=
| Skip
| Refresh (refreshes : list (TableKey * TableInfo))
| Drift (diffs : list SchemaDiff) (refreshes : list (TableKey * TableInfo)).

(** What the check uses of a connection. *)
Class DriftConnection := {
  DriftError : Type;
  referenced_tables : list char -> option (list QueryTableRef);
  table_details : list char -> option (list char) -> list char -> result TableInfo DriftError;
}.

Definition check_drift_sync `{SessionHasher} (cached fresh : TableInfo) : option (list SchemaChange) :=
  if bool_decide (from_table_info cached = from_table_info fresh) then None
  else match diff_table_info cached fresh with
       | [] => None
       | changes => Some changes
       end.

(** [HashMap::get_key_value]. *)
Definition get_key_value (m : Cache) (key : TableKey) : option (TableKey * TableInfo) :=
  (fun info => (key, info)) <$> m !! key.

Definition key_schema (key : TableKey) : option (list N) := key.1.2.

(** The entries of one table, whatever its schema. *)
Definition table_entries (m : Cache) (database table : list char) : list (TableKey * TableInfo) :=
  List.filter (fun e => bool_decide (e.1.1.1 = database) && bool_decide (e.1.2 = table)) (map_to_list m).

(** [a.or(b)], and a first match that returns early. *)
Definition or_else {A} (a b : option A) : option A := match a with Some _ => a | None => b end.

Definition find_cached_entry (m : Cache) (database : list char) (explicit_schema : option (list char))
  (table : list char) (default_schema : option (list char)) : option (TableKey * TableInfo) :=
  match explicit_schema with
  | Some schema => get_key_value m (database, Some schema, table)
  | None =>
      or_else (schema ← default_schema; get_key_value m (database, Some schema, table))
        (or_else (get_key_value m (database, None, table))
          (min_by (fun a b => cmp (key_schema a.1) (key_schema b.1)) (table_entries m database table)))
  end.

Section Check.
Context `{SessionHasher, DriftConnection}.

(** The schema a reference is fetched from. *)
Definition resolve_schema (ref : QueryTableRef) (cached : option TableInfo)
  (default_schema : option (list char)) : list char :=
  default (text "public") (or_else (or_else (qt_schema ref) (cached ≫= ti_schema)) default_schema).

Definition has_columns (fresh : TableInfo) : bool :=
  match ti_columns fresh with Some (_ :: _) => true | _ => false end.

(** One round of the loop: nothing, a difference, or an entry to write back. *)
Definition check_table (m : Cache) (database : list char) (default_schema : option (list char))
  (ref : QueryTableRef) : option (SchemaDiff + TableKey * TableInfo) :=
  let effective_db := default database (qt_database ref) in
  let cached_entry :=
    find_cached_entry m effective_db (qt_schema ref) (qt_table ref) default_schema in
  let cached := snd <$> cached_entry in
  let schema := resolve_schema ref cached default_schema in
  match table_details effective_db (Some schema) (qt_table ref) with
  | Err _ => None
  | Ok fresh =>
      if has_columns fresh then
        let refresh_key : TableKey :=
          match cached_entry with
          | Some (key, _) => key
          | None => (effective_db, or_else (ti_schema fresh) (Some schema), qt_table ref)
          end in
        match cached with
        | None => Some (inr (refresh_key, fresh))
        | Some cached =>
            match check_drift_sync cached fresh with
            | None => Some (inr (refresh_key, fresh))
            | Some changes =>
                Some (inl (mkSchemaDiff
                  (mkQueryTable (qt_database ref) (qt_schema ref) (qt_table ref)) changes fresh))
            end
        end
      else None
  end.

Fixpoint check_tables (m : Cache) (database : list char) (default_schema : option (list char))
  (refs : list QueryTableRef) (diffs : list SchemaDiff) (refreshes : list (TableKey * TableInfo))
  : list SchemaDiff * list (TableKey * TableInfo) :=
  match refs with
  | [] => (diffs, refreshes)
  | ref :: refs' =>
      match check_table m database default_schema ref with
      | None => check_tables m database default_schema refs' diffs refreshes
      | Some (inl d) => check_tables m database default_schema refs' (diffs ++ [d]) refreshes
      | Some (inr r) => check_tables m database default_schema refs' diffs (refreshes ++ [r])
      end
  end.

Definition check_schema_drift (m : Cache) (query database : list char)
  (default_schema : option (list char)) : DriftOutcome :=
  match referenced_tables query with
  | None => Skip
  | Some refs =>
      match check_tables m database default_schema refs [] [] with
      | ([], refreshes) => Refresh refreshes
      | (diffs, refreshes) => Drift diffs refreshes
      end
  end.
End Check.

(** ** What the editor writes back *)

(** The cache updates of a pending query: those of [Refresh] before it runs,
    those of [Drift] after the user chose to refresh. *)
Definition diff_update (d : SchemaDiff) : TableKey * TableInfo :=
  ((default (text "default") (qt_database (sd_table d)),
    or_else (qt_schema (sd_table d)) (ti_schema (sd_fresh d)),
    qt_table (sd_table d)), sd_fresh d).

Definition cache_updates (outcome : DriftOutcome) : list (TableKey * TableInfo) :=
  match outcome with
  | Skip => []
  | Refresh entries => entries
  | Drift diffs refreshes => refreshes ++ map diff_update diffs
  end.

Definition apply_updates (m : Cache) (updates : list (TableKey * TableInfo)) : Cache :=
  foldl (fun m u => <[u.1 := u.2]> m) m updates.

End DriftCheck.
