(* ===== verification/QueryTables.v ===== *)
(** * The tables a query names (crates/dbflux_core: schema/query_parser.rs)

    Drivers find the tables of a query by a small scanner: comments are cut out
    byte by byte, the rest is split into identifiers and punctuation, and the
    names after FROM, JOIN, UPDATE, DELETE FROM and INSERT INTO are read outside
    parentheses.  What is read of a printed list of clauses is the tables they
    name. *)

From S2P Require Import Prelude RustStr RustChar SchemaDrift DriftCheck.

Module QueryTables.
Import DriftCheck(QueryTableRef, mkQueryTable, qt_database, qt_schema, qt_table).

(** ** Comments *)

Inductive StripMode : Type := InCode | InLine | InBlock.

(** The loop of [strip_comments] over the bytes of the query; each byte it keeps
    is pushed as a character of its own. *)
Fixpoint strip_bytes (mode : StripMode) (l : list N) : list char :=
  match l with
  | [] => []
  | a :: l' =>
      match mode with
      | InCode =>
          match l' with
          | b :: l'' =>
              if ((a =? 45) && (b =? 45))%N then strip_bytes InLine l''
              else if ((a =? 47) && (b =? 42))%N then strip_bytes InBlock l''
              else a :: strip_bytes InCode l'
          | [] => [a]
          end
      | InLine => if (a =? 10)%N then a :: strip_bytes InCode l' else strip_bytes InLine l'
      | InBlock =>
          match l' with
          | b :: l'' => if ((a =? 42) && (b =? 47))%N then strip_bytes InCode l'' else strip_bytes InBlock l'
          | [] => []
          end
      end
  end.

Definition strip_comments (input : list char) : list char :=
  strip_bytes InCode (map N_of_ascii (flat_map utf8_encode input)).

(** ** Tokens *)

Inductive Token : Type :=
| Ident (word : list char)
| Dot
| LParen
| RParen
| Other.

#[export] Instance Token_eq_dec : EqDecision Token.
Proof. solve_decision. Defined.

Section Tokens.
Context `{CharLib}.

Definition is_word_char (c : char) : bool :=
  is_alphanumeric c || (c =? ch "_")%N || (c =? ch "$")%N.

(** The longest prefix with property [p], and the rest. *)
Fixpoint span (p : char -> bool) (l : list char) : list char * list char :=
  match l with
  | [] => ([], [])
  | c :: l' => if p c then let '(w, rest) := span p l' in (c :: w, rest) else ([], l)
  end.

(** A quoted identifier up to its closing character, and what follows it. *)
Definition scan_quoted (close : char) (l : list char) : list char * list char :=
  let '(ident, rest) := span (fun c => negb (c =? close)%N) l in (ident, tail rest).

(** What follows a string literal; two quotes in a row stand for one. *)
Fixpoint skip_string (l : list char) : list char :=
  match l with
  | [] => []
  | c :: l' =>
      if (c =? 39)%N then
        match l' with
        | d :: l'' => if (d =? 39)%N then skip_string l'' else l'
        | [] => []
        end
      else skip_string l'
  end.

Fixpoint tokenize_loop (rounds : nat) (l : list char) : list Token :=
  match rounds, l with
  | O, _ | _, [] => []
  | S rounds', c :: l' =>
      if (c =? ch ".")%N then Dot :: tokenize_loop rounds' l'
      else if (c =? ch "(")%N then LParen :: tokenize_loop rounds' l'
      else if (c =? ch ")")%N then RParen :: tokenize_loop rounds' l'
      else if (c =? 34)%N then
        let '(ident, rest) := scan_quoted 34%N l' in Ident ident :: tokenize_loop rounds' rest
      else if (c =? ch "`")%N then
        let '(ident, rest) := scan_quoted (ch "`") l' in Ident ident :: tokenize_loop rounds' rest
      else if (c =? ch "[")%N then
        let '(ident, rest) := scan_quoted (ch "]") l' in Ident ident :: tokenize_loop rounds' rest
      else if (c =? 39)%N then Other :: tokenize_loop rounds' (skip_string l')
      else if is_word_char c then
        let '(word, rest) := span is_word_char l in Ident word :: tokenize_loop rounds' rest
      else Other :: tokenize_loop rounds' l'
  end.

Definition tokenize (sql : list char) : list Token := tokenize_loop (length sql) sql.
End Tokens.

(** ** References *)

(** [str::to_uppercase] on the characters that are bytes. *)
Definition upper_byte (c : char) : list char :=
  (if is_lower c then [c - 32]
   else if c =? 181 then [924]
   else if c =? 223 then [83; 83]
   else if (224 <=? c) && (c <=? 254) && negb (c =? 247) then [c - 32]
   else if c =? 255 then [376]
   else [c])%N.

Definition to_uppercase (word : list char) : list char := flat_map upper_byte word.
Definition is_word (word : list char) (keyword : string) : bool :=
  bool_decide (to_uppercase word = text keyword).

Definition reserved_keywords : list string :=
  ["WHERE"; "SET"; "ON"; "AND"; "OR"; "NOT"; "AS"; "ORDER"; "GROUP"; "HAVING"; "LIMIT"; "OFFSET";
   "UNION"; "EXCEPT"; "INTERSECT"; "LEFT"; "RIGHT"; "INNER"; "OUTER"; "CROSS"; "FULL"; "JOIN";
   "FROM"; "INTO"; "SELECT"; "INSERT"; "UPDATE"; "DELETE"; "WITH"; "RETURNING"; "VALUES"].

Definition is_reserved_keyword (upper : list char) : bool :=
  existsb (fun k => bool_decide (upper = text k)) reserved_keywords.

Definition skip_other (tokens : list Token) : list Token :=
  drop_while (fun t => bool_decide (t = Other)) tokens.

(** The tokens after an alias, if there is one. *)
Definition skip_alias (tokens : list Token) : list Token :=
  match skip_other tokens with
  | Ident word :: rest => if is_reserved_keyword (to_uppercase word) then tokens else rest
  | _ => tokens
  end.

Definition read_qualified_name (tokens : list Token) : option QueryTableRef * list Token :=
  match skip_other tokens with
  | Ident first :: rest =>
      match rest with
      | Dot :: rest1 =>
          match rest1 with
          | Ident second :: rest2 =>
              match rest2 with
              | Dot :: rest3 =>
                  match rest3 with
                  | Ident third :: rest4 =>
                      (Some (mkQueryTable (Some first) (Some second) third), skip_alias rest4)
                  | _ => (Some (mkQueryTable None (Some first) second), rest3)
                  end
              | _ => (Some (mkQueryTable None (Some first) second), skip_alias rest2)
              end
          | _ => (Some (mkQueryTable None None first), rest1)
          end
      | _ => (Some (mkQueryTable None None first), skip_alias rest)
      end
  | rest => (None, rest)
  end.

(** The tokens after the keyword that must follow [DELETE] or [INSERT]. *)
Definition after_keyword (keyword : string) (tokens : list Token) : option (list Token) :=
  match skip_other tokens with
  | Ident next :: rest => if is_word next keyword then Some rest else None
  | _ => None
  end.

(** Where the name of a table starts after the word [word], if it does. *)
Definition introduces (word : list char) (rest : list Token) : option (list Token) :=
  if is_word word "FROM" || is_word word "JOIN" || is_word word "UPDATE" then Some rest
  else if is_word word "DELETE" then after_keyword "FROM" rest
  else if is_word word "INSERT" then after_keyword "INTO" rest
  else None.

Fixpoint parse_loop (rounds : nat) (depth : N) (tokens : list Token) : list QueryTableRef :=
  match rounds, tokens with
  | O, _ | _, [] => []
  | S rounds', token :: rest =>
      match token with
      | LParen => parse_loop rounds' (depth + 1) rest
      | RParen => parse_loop rounds' (N.pred depth) rest
      | Other | Dot => parse_loop rounds' depth rest
      | Ident word =>
          match introduces word rest with
          | Some name =>
              if (depth =? 0)%N then
                match read_qualified_name name with
                | (Some table_ref, rest') => table_ref :: parse_loop rounds' depth rest'
                | (None, rest') => parse_loop rounds' depth rest'
                end
              else parse_loop rounds' depth name
          | None => parse_loop rounds' depth rest
          end
      end
  end.

Definition parse_table_refs (tokens : list Token) : list QueryTableRef :=
  parse_loop (length tokens) 0 tokens.

Definition extract_referenced_tables `{CharLib} (query : list char) : list QueryTableRef :=
  parse_table_refs (tokenize (strip_comments query)).

(** ** Examples *)

Definition named (db schema : option string) (t : string) : QueryTableRef :=
  mkQueryTable (text <$> db) (text <$> schema) (text t).

Example joins_are_found :
  extract_referenced_tables
    (text "SELECT * FROM app.public.users u JOIN [orders] o ON u.id = o.user_id -- FROM x") =
  [named (Some "app") (Some "public") "users"; named None None "orders"].
Proof. vm_compute. reflexivity. Qed.

Example subqueries_are_skipped :
  extract_referenced_tables (text "delete from a where id in (select id from b)") =
  [named None None "a"].
Proof. vm_compute. reflexivity. Qed.

(** A name with a character of two bytes is read as other characters. *)
Example accented_name_is_garbled :
  extract_referenced_tables (text "SELECT * FROM [" ++ [233%N] ++ text "]") =
  [mkQueryTable None None [195%N; 169%N]].
Proof. vm_compute. reflexivity. Qed.

End QueryTables.

(** ** The tables read of printed clauses are those they name *)

Module QueryTablesProps.
Import DriftCheck(QueryTableRef, mkQueryTable, qt_database, qt_schema, qt_table) QueryTables.

(** ** Printing *)

(** A plain word: letters, digits and underscores. *)
Definition plain_char (c : char) : bool := is_letter c || is_digit c || (c =? ch "_")%N.
Definition plain_word (w : list char) : Prop := w <> [] /\ Forall (fun c => plain_char c = true) w.

Definition token_text (t : Token) : list char :=
  match t with
  | Ident w => w
  | Dot => text "."
  | LParen => text "("
  | RParen => text ")"
  | Other => text " "
  end.

Definition printed (tokens : list Token) : list char := flat_map token_text tokens.

Definition is_ident (t : Token) : bool := match t with Ident _ => true | _ => false end.

(** Words are plain and no two of them touch. *)
Fixpoint separated (tokens : list Token) : Prop :=
  match tokens with
  | [] => True
  | Ident w :: rest =>
      plain_word w /\ separated rest /\ match rest with t :: _ => is_ident t = false | [] => True end
  | _ :: rest => separated rest
  end.

(** ** Comments and tokens *)

Lemma plain_char_range c : plain_char c = true ->
  (48 <= c <= 57 \/ 65 <= c <= 90 \/ c = 95 \/ 97 <= c <= 122)%N.
Proof.
  unfold plain_char, is_letter, is_digit, is_upper, is_lower. change (ch "_") with 95%N.
  rewrite !orb_true_iff, !andb_true_iff, !N.leb_le, N.eqb_eq. lia.
Qed.

Definition no_comment_char (c : char) : Prop := (c < 128 /\ c <> 45 /\ c <> 47)%N.

Lemma printed_chars tokens : separated tokens -> Forall no_comment_char (printed tokens).
Proof.
  unfold no_comment_char. induction tokens as [|t rest IH]; intros Hsep; simpl; [constructor|].
  apply Forall_app. destruct t as [w| | | |]; simpl in Hsep |- *; split; auto;
    try (apply IH; tauto); try (by repeat constructor).
  destruct Hsep as [[_ Hw] _]. eapply Forall_impl; [exact Hw|]. intros c Hc%plain_char_range. lia.
Qed.

Lemma strip_code a b l :
  strip_bytes InCode (a :: b :: l) =
  if ((a =? 45) && (b =? 45))%N then strip_bytes InLine l
  else if ((a =? 47) && (b =? 42))%N then strip_bytes InBlock l
  else a :: strip_bytes InCode (b :: l).
Proof. reflexivity. Qed.

Lemma strip_bytes_id l : Forall no_comment_char l -> strip_bytes InCode l = l.
Proof.
  induction 1 as [|a l [Ha [Hd Hs]] Hl IH]; [done|]. destruct l as [|b l]; [done|].
  rewrite strip_code. rewrite (proj2 (N.eqb_neq a 45) Hd), (proj2 (N.eqb_neq a 47) Hs), !andb_false_l. cbv iota. f_equal. exact IH.
Qed.

Lemma utf8_ascii l : Forall no_comment_char l -> map N_of_ascii (flat_map utf8_encode l) = l.
Proof.
  induction 1 as [|a l [Ha _] Hl IH]; [done|]. simpl. unfold utf8_encode at 1.
  rewrite (proj2 (N.ltb_lt a 128) Ha). simpl. rewrite IH, N_ascii_embedding; [done|lia].
Qed.

Lemma strip_printed tokens : separated tokens -> strip_comments (printed tokens) = printed tokens.
Proof.
  intros Hsep%printed_chars. unfold strip_comments. by rewrite utf8_ascii, strip_bytes_id.
Qed.

Section Lexing.
Context `{CharLaws}.

Lemma plain_word_char c : plain_char c = true -> is_word_char c = true.
Proof.
  intros Hc. pose proof (plain_char_range c Hc) as Hr. unfold is_word_char, is_alphanumeric.
  rewrite alphabetic_ascii, numeric_ascii by lia. unfold plain_char in Hc. by rewrite Hc.
Qed.

Lemma span_word w rest :
  Forall (fun c => plain_char c = true) w ->
  match rest with c :: _ => is_word_char c = false | [] => True end ->
  span is_word_char (w ++ rest) = (w, rest).
Proof.
  intros Hw Hrest. induction Hw as [|c w Hc Hw IH]; simpl.
  - destruct rest as [|c rest]; simpl; [done|]. by rewrite Hrest.
  - by rewrite plain_word_char, IH.
Qed.

Lemma separator_not_word t rest :
  is_ident t = false ->
  match token_text t ++ rest with c :: _ => is_word_char c = false | [] => True end.
Proof.
  assert (Hsep : forall c, (c < 48)%N -> c <> 36%N -> is_word_char c = false).
  { intros c Hc H36. unfold is_word_char, is_alphanumeric. rewrite alphabetic_ascii, numeric_ascii by lia.
    unfold is_letter, is_upper, is_lower, is_digit. change (ch "_") with 95%N. change (ch "$") with 36%N.
    apply orb_false_iff. rewrite !orb_false_iff, !andb_false_iff, !N.leb_gt, !N.eqb_neq. lia. }
  destruct t; [done|..]; intros _; apply Hsep; done.
Qed.

Lemma lex_word n w rest :
  plain_word w -> match rest with c :: _ => is_word_char c = false | [] => True end ->
  tokenize_loop (S n) (w ++ rest) = Ident w :: tokenize_loop n rest.
Proof.
  intros [Hne Hw] Hrest. pose proof (span_word w rest Hw Hrest) as Hspan.
  destruct w as [|c w]; [done|]. apply Forall_cons in Hw as [Hc Hw].
  pose proof (plain_char_range c Hc) as Hr. simpl in Hspan |- *.
  change (ch ".") with 46%N. change (ch "(") with 40%N. change (ch ")") with 41%N.
  change (ch "`") with 96%N. change (ch "[") with 91%N.
  repeat (match goal with |- context [(c =? ?k)%N] =>
            rewrite (proj2 (N.eqb_neq c k)) by lia end).
  rewrite plain_word_char in Hspan |- * by done. by rewrite Hspan.
Qed.

(** A printed stream of tokens is read as that stream. *)
Lemma lex_printed tokens n :
  separated tokens -> (length (printed tokens) <= n)%nat -> tokenize_loop n (printed tokens) = tokens.
Proof.
  revert n. induction tokens as [|t rest IH]; intros n Hsep Hn; [by destruct n|].
  destruct t as [w| | | |].
  - destruct Hsep as (Hw & Hsep & Hnext). simpl in *. rewrite length_app in Hn.
    assert (0 < length w)%nat by (destruct Hw, w; simpl; [done|lia]).
    destruct n as [|n]; [lia|]. rewrite lex_word; [|done|].
    + f_equal. apply IH; [done|lia].
    + destruct rest as [|t rest]; [done|]. by apply separator_not_word.
  - destruct n as [|n]; [simpl in Hn; lia|]. simpl in Hn |- *. f_equal. apply IH; [done|lia].
  - destruct n as [|n]; [simpl in Hn; lia|]. simpl in Hn |- *. f_equal. apply IH; [done|lia].
  - destruct n as [|n]; [simpl in Hn; lia|]. simpl in Hn |- *. f_equal. apply IH; [done|lia].
  - destruct n as [|n]; [simpl in Hn; lia|]. simpl in Hn, Hsep.
    pose proof (separator_not_word Other (printed rest) eq_refl) as Hsp.
    change (printed (Other :: rest)) with (32%N :: printed rest).
    change (is_word_char 32%N = false) in Hsp. cbn [tokenize_loop]. rewrite Hsp. cbn. f_equal.
    apply IH; [done|lia].
Qed.

Lemma tokenize_printed tokens : separated tokens -> tokenize (printed tokens) = tokens.
Proof. intros Hsep. by apply lex_printed. Qed.
End Lexing.

(** ** Rounds

    A round of either loop takes a character or a token at least, so more rounds
    than the text or the stream is long change nothing. *)

Lemma span_shorter p l : (length (span p l).2 <= length l)%nat.
Proof.
  induction l as [|c l IH]; simpl; [done|]. destruct (p c); [|done].
  destruct (span p l); simpl in *. lia.
Qed.

Lemma scan_quoted_shorter close l : (length (scan_quoted close l).2 <= length l)%nat.
Proof.
  unfold scan_quoted. pose proof (span_shorter (fun c => negb (c =? close)%N) l) as Hs.
  destruct (span _ l) as [w rest]; simpl in *. destruct rest; simpl in *; lia.
Qed.

Lemma skip_string_shorter l : (length (skip_string l) <= length l)%nat.
Proof.
  enough (forall n k, (length k <= n)%nat -> (length (skip_string k) <= length k)%nat) by eauto.
  intros n. induction n as [|n IH]; intros [|c k] Hk; simpl in *; try lia.
  destruct (c =? 39)%N; [|specialize (IH k); lia]. destruct k as [|d k]; simpl in *; [lia|].
  destruct (d =? 39)%N; [specialize (IH k)|]; simpl in *; lia.
Qed.

Lemma tokenize_rounds `{CharLib} n m l :
  (length l <= n)%nat -> (length l <= m)%nat -> tokenize_loop n l = tokenize_loop m l.
Proof.
  revert m l. induction n as [|n IH]; intros m [|c l] Hn Hm; simpl in *; try lia; [by destruct m..|].
  destruct m as [|m]; [lia|]. simpl.
  pose proof (fun q => scan_quoted_shorter q l) as Hq. pose proof (skip_string_shorter l) as Hs.
  pose proof (span_shorter is_word_char l) as Hw.
  repeat match goal with
  | |- context [scan_quoted ?q l] => pose proof (Hq q); destruct (scan_quoted q l) as [? ?]
  | |- (if ?b then _ else _) = _ => destruct b
  end; simpl in *; try (f_equal; apply IH; lia).
  destruct (span is_word_char l) as [w rest]; simpl in *. f_equal. apply IH; lia.
Qed.

Lemma skip_other_shorter tokens : (length (skip_other tokens) <= length tokens)%nat.
Proof.
  unfold skip_other. induction tokens as [|t tokens IH]; simpl; [done|]. case_bool_decide; simpl; lia.
Qed.

Lemma skip_alias_shorter tokens : (length (skip_alias tokens) <= length tokens)%nat.
Proof.
  unfold skip_alias. pose proof (skip_other_shorter tokens).
  destruct (skip_other tokens) as [|[w| | | |] rest]; simpl in *; try lia.
  destruct (is_reserved_keyword _); lia.
Qed.

Lemma read_name_shorter tokens : (length (read_qualified_name tokens).2 <= length tokens)%nat.
Proof.
  unfold read_qualified_name. pose proof (skip_other_shorter tokens).
  destruct (skip_other tokens) as [|[w| | | |] rest]; simpl in *; try lia.
  pose proof skip_alias_shorter as Ha.
  repeat match goal with
  | |- context [skip_alias ?l] => lazymatch goal with
      | _ : (length (skip_alias l) <= length l)%nat |- _ => fail
      | _ => pose proof (Ha l) end
  | |- context [match ?l with [] => _ | _ :: _ => _ end] => destruct l as [|[?| | | |] ?]; simpl in *
  end; lia.
Qed.

Lemma introduces_shorter word rest name : introduces word rest = Some name -> (length name <= length rest)%nat.
Proof.
  assert (Hk : forall k, after_keyword k rest = Some name -> (length name <= length rest)%nat).
  { intros k. unfold after_keyword. pose proof (skip_other_shorter rest).
    destruct (skip_other rest) as [|[w| | | |] more]; simpl in *; try done.
    destruct (is_word w k); [|done]. intros [= <-]. lia. }
  unfold introduces. destruct (_ || _); [by intros [= <-]|].
  destruct (is_word word "DELETE"); [apply Hk|]. destruct (is_word word "INSERT"); [apply Hk|done].
Qed.

Lemma parse_rounds n m depth tokens :
  (length tokens <= n)%nat -> (length tokens <= m)%nat ->
  parse_loop n depth tokens = parse_loop m depth tokens.
Proof.
  revert m depth tokens. induction n as [|n IH]; intros m depth [|t rest] Hn Hm; simpl in *; try lia;
    [by destruct m..|].
  destruct m as [|m]; [lia|]. simpl. destruct t as [w| | | |]; try (apply IH; lia).
  destruct (introduces w rest) as [name|] eqn:Hi; [|apply IH; lia]. apply introduces_shorter in Hi.
  destruct (depth =? 0)%N; [|apply IH; lia]. pose proof (read_name_shorter name) as Hr.
  destruct (read_qualified_name name) as [[r|] rest']; simpl in *; [f_equal|]; apply IH; lia.
Qed.

(** ** Clauses *)

Inductive Intro : Type := From | Join | Update | DeleteFrom | InsertInto.

(** A keyword, the table after it, and an alias. *)
Record Clause := mkClause {
  cl_intro : Intro;
  cl_table : QueryTableRef;
  cl_alias : option (list char);
}.

Definition intro_tokens (i : Intro) : list Token :=
  match i with
  | From => [Ident (text "FROM")]
  | Join => [Ident (text "JOIN")]
  | Update => [Ident (text "UPDATE")]
  | DeleteFrom => [Ident (text "DELETE"); Other; Ident (text "FROM")]
  | InsertInto => [Ident (text "INSERT"); Other; Ident (text "INTO")]
  end.

Definition table_tokens (r : QueryTableRef) : list Token :=
  match qt_database r, qt_schema r with
  | Some d, Some s => [Ident d; Dot; Ident s; Dot; Ident (qt_table r)]
  | _, Some s => [Ident s; Dot; Ident (qt_table r)]
  | _, None => [Ident (qt_table r)]
  end.

Definition alias_tokens (a : option (list char)) : list Token :=
  match a with Some w => [Other; Ident w] | None => [] end.

Definition clause_tokens (c : Clause) : list Token :=
  intro_tokens (cl_intro c) ++ Other :: table_tokens (cl_table c) ++ alias_tokens (cl_alias c).

Definition clauses_tokens (cs : list Clause) : list Token :=
  flat_map (fun c => clause_tokens c ++ [Other]) cs.

(** A database comes with a schema; the names are plain, and an alias is no
    keyword. *)
Definition clause_wf (c : Clause) : Prop :=
  (is_Some (qt_database (cl_table c)) -> is_Some (qt_schema (cl_table c))) /\
  (forall d, qt_database (cl_table c) = Some d -> plain_word d) /\
  (forall s, qt_schema (cl_table c) = Some s -> plain_word s) /\
  plain_word (qt_table (cl_table c)) /\
  (forall a, cl_alias c = Some a -> plain_word a /\ is_reserved_keyword (to_uppercase a) = false).

Lemma plain_keyword (s : string) :
  forallb plain_char (text s) && negb (bool_decide (text s = [])) = true -> plain_word (text s).
Proof.
  rewrite andb_true_iff, negb_true_iff, bool_decide_eq_false. intros [Hall Hne]. split; [done|].
  apply Forall_forall. intros c Hc. rewrite forallb_forall in Hall. by apply Hall, list_elem_of_In.
Qed.

Lemma separated_app_other l k : separated l -> separated k -> separated (l ++ Other :: k).
Proof.
  intros Hl Hk. induction l as [|t l IH]; simpl; [done|].
  destruct t as [w| | | |]; simpl in *; auto. destruct Hl as (Hw & Hl & Hn). split_and!; [done|by apply IH|].
  by destruct l.
Qed.

Lemma table_tokens_separated c : clause_wf c -> separated (table_tokens (cl_table c)).
Proof.
  intros (_ & Hd & Hs & Ht & _). unfold table_tokens.
  destruct (qt_database (cl_table c)), (qt_schema (cl_table c)); simpl; split_and!; auto.
Qed.

Lemma clause_tokens_separated c : clause_wf c -> separated (clause_tokens c).
Proof.
  intros Hwf. unfold clause_tokens. apply separated_app_other.
  - destruct (cl_intro c); simpl; split_and!; try done; by apply plain_keyword.
  - pose proof (table_tokens_separated c Hwf) as Ht. destruct Hwf as (_ & _ & _ & _ & Ha).
    destruct (cl_alias c) as [a|]; simpl; [|by rewrite app_nil_r].
    apply separated_app_other; [done|]. simpl. split_and!; try done. by apply Ha.
Qed.

Lemma clauses_separated cs : Forall clause_wf cs -> separated (clauses_tokens cs).
Proof.
  induction 1 as [|c cs Hc Hcs IH]; simpl; [done|]. rewrite <- app_assoc.
  apply separated_app_other; [by apply clause_tokens_separated|done].
Qed.

(** ** Reading clauses *)

Lemma intro_reserved i : exists w rest, intro_tokens i = Ident w :: rest /\
  is_reserved_keyword (to_uppercase w) = true.
Proof. destruct i; eexists _, _; (split; [reflexivity|vm_compute; reflexivity]). Qed.

Lemma skip_alias_stops cs : skip_alias (Other :: clauses_tokens cs) = Other :: clauses_tokens cs.
Proof.
  unfold skip_alias. destruct cs as [|c cs]; [done|]. unfold clauses_tokens. cbn [flat_map].
  unfold clause_tokens. destruct (intro_reserved (cl_intro c)) as (w & rest & -> & Hres). simpl.
  by rewrite Hres.
Qed.

Lemma skip_alias_clause c cs :
  clause_wf c ->
  skip_alias (alias_tokens (cl_alias c) ++ Other :: clauses_tokens cs) = Other :: clauses_tokens cs.
Proof.
  intros (_ & _ & _ & _ & Ha). destruct (cl_alias c) as [a|]; [|apply skip_alias_stops].
  unfold skip_alias. simpl. destruct (Ha a eq_refl) as [_ ->]. done.
Qed.

Lemma read_name r tl :
  (is_Some (qt_database r) -> is_Some (qt_schema r)) -> (forall t, head tl = Some t -> t = Other) ->
  read_qualified_name (Other :: table_tokens r ++ tl) = (Some r, skip_alias tl).
Proof.
  intros Hdb Htl. unfold read_qualified_name, table_tokens.
  destruct r as [[d|] [s|] t]; simpl in *; [|destruct Hdb; [by eexists|done]| |];
    (destruct tl as [|tok tl]; [done|]; by rewrite (Htl tok eq_refl)).
Qed.

Lemma parse_clause n c cs :
  clause_wf c ->
  parse_loop (S n) 0 (clause_tokens c ++ Other :: clauses_tokens cs) =
  cl_table c :: parse_loop n 0 (Other :: clauses_tokens cs).
Proof.
  intros Hwf. unfold clause_tokens. rewrite <- app_assoc, <- app_comm_cons, <- app_assoc.
  set (after := Other :: table_tokens (cl_table c) ++ alias_tokens (cl_alias c) ++ Other :: clauses_tokens cs).
  assert (Hintro : exists w rest, intro_tokens (cl_intro c) = Ident w :: rest /\
    introduces w (rest ++ after) = Some after).
  { destruct (cl_intro c); eexists _, _; (split; [reflexivity|reflexivity]). }
  destruct Hintro as (w & rest & -> & Hint). simpl. rewrite Hint. unfold after. rewrite read_name.
  - by rewrite skip_alias_clause.
  - apply Hwf.
  - destruct (cl_alias c); simpl; naive_solver.
Qed.

Lemma parse_clauses cs n :
  Forall clause_wf cs -> (length (clauses_tokens cs) <= n)%nat ->
  parse_loop n 0 (clauses_tokens cs) = map cl_table cs.
Proof.
  intros Hcs. revert n. induction Hcs as [|c cs Hc Hcs IH]; intros n Hn; [by destruct n|].
  change (clauses_tokens (c :: cs)) with ((clause_tokens c ++ [Other]) ++ clauses_tokens cs) in *.
  rewrite !length_app in Hn. cbn [length] in Hn. rewrite <- app_assoc. cbn [app].
  assert (0 < length (clause_tokens c))%nat by (unfold clause_tokens; destruct (cl_intro c); simpl; lia).
  destruct n as [|[|n]]; [lia|lia|]. rewrite parse_clause by done. simpl. f_equal. apply IH. lia.
Qed.

(** C30: the tables a query names are found: of clauses printed with a space
    between words, each a keyword that takes a table, a name of plain words with
    its schema and database if it has them, and perhaps an alias that is not a
    keyword, the scanner returns the names, in order and complete. *)
Theorem printed_tables_are_found `{CharLaws} cs :
  Forall clause_wf cs ->
  extract_referenced_tables (printed (clauses_tokens cs)) = map cl_table cs.
Proof.
  intros Hcs. unfold extract_referenced_tables, parse_table_refs.
  rewrite strip_printed, tokenize_printed by (by apply clauses_separated). by apply parse_clauses.
Qed.

End QueryTablesProps.

(** ** Example *)

Import DriftCheck(mkQueryTable) QueryTables QueryTablesProps.

Definition demo_clauses : list Clause :=
  [mkClause From (named (Some "app") (Some "public") "users") (Some (text "u"));
   mkClause Join (named None None "orders") None].

Lemma printed_tables_are_found_witness :
  printed (clauses_tokens demo_clauses) = text "FROM app.public.users u JOIN orders " /\
  extract_referenced_tables (printed (clauses_tokens demo_clauses)) =
  [named (Some "app") (Some "public") "users"; named None None "orders"].
Proof.
  split; [vm_compute; reflexivity|].
  apply (printed_tables_are_found demo_clauses).
  constructor; [|constructor; [|constructor]]; unfold clause_wf, named; cbn [cl_table cl_alias
    DriftCheck.qt_database DriftCheck.qt_schema DriftCheck.qt_table fmap option_fmap option_map];
    split_and!.
  - intros _. eexists. reflexivity.
  - intros w Hw. injection Hw as <-. apply plain_keyword. vm_compute. reflexivity.
  - intros w Hw. injection Hw as <-. apply plain_keyword. vm_compute. reflexivity.
  - apply plain_keyword. vm_compute. reflexivity.
  - intros w Hw. injection Hw as <-. split; [apply plain_keyword|]; vm_compute; reflexivity.
  - intros [w Hw]. discriminate Hw.
  - intros w Hw. discriminate Hw.
  - intros w Hw. discriminate Hw.
  - apply plain_keyword. vm_compute. reflexivity.
  - intros w Hw. discriminate Hw.
Defined.
