(* ===== verification/DriftCheckProps.v ===== *)
(** * What the drift check sees, and that writing its outcome back settles it *)

From S2P Require Import Prelude RustStr External RustChar Classification VisualQuery RustOrd SchemaDrift SchemaDriftProps DriftCheck.

Module DriftCheckProps.
Import SchemaDrift SchemaDriftProps DriftCheck.

(** ** What a fingerprint holds *)

Definition hashed_fields (c : ColumnInfo) : list char * list char * bool * bool :=
  (ci_name c, ci_type_name c, ci_nullable c, ci_is_primary_key c).

Lemma map_hash_str_inj l l' : map HashStr l = map HashStr l' -> l = l'.
Proof. revert l'. induction l as [|s l IH]; intros [|s' l']; simpl; naive_solver. Qed.

Lemma hash_strings_inj l l' r r' :
  hash_strings l ++ r = hash_strings l' ++ r' -> l = l' /\ r = r'.
Proof.
  unfold hash_strings. simpl. intros [= Hlen Heq].
  apply app_inj_1 in Heq as [Hl ->]; [|by rewrite !length_map]. by apply map_hash_str_inj in Hl.
Qed.

Lemma hash_fk_tuple_inj t t' r r' :
  hash_fk_tuple t ++ r = hash_fk_tuple t' ++ r' -> t = t' /\ r = r'.
Proof.
  destruct t as [[[c s] n] rc], t' as [[[c' s'] n'] rc']. unfold hash_fk_tuple.
  rewrite <- !app_assoc. intros [-> Heq]%hash_strings_inj.
  destruct s as [s|], s' as [s'|]; cbn [hash_option app] in Heq; try discriminate Heq.
  - assert (E : hash_strings rc ++ r = hash_strings rc' ++ r') by congruence.
    apply hash_strings_inj in E as [-> ->]. by simplify_eq.
  - assert (E : hash_strings rc ++ r = hash_strings rc' ++ r') by congruence.
    apply hash_strings_inj in E as [-> ->]. by simplify_eq.
Qed.

Lemma hash_fks_inj l l' : flat_map hash_fk_tuple l = flat_map hash_fk_tuple l' -> l = l'.
Proof.
  assert (Hne : forall t r, hash_fk_tuple t ++ r <> []) by (by intros [[[c s] n] rc] r).
  revert l'. induction l as [|t l IH]; intros [|t' l']; simpl; intros Heq; [done| | |].
  - by destruct (Hne t' (flat_map hash_fk_tuple l')).
  - by destruct (Hne t (flat_map hash_fk_tuple l)).
  - apply hash_fk_tuple_inj in Heq as [-> Heq]. by rewrite (IH l').
Qed.

Definition starts_with_len (r : list HashWrite) : Prop :=
  match r with [] | HashLen _ :: _ => True | _ => False end.

Lemma hash_columns_inj l l' r r' :
  starts_with_len r -> starts_with_len r' ->
  flat_map hash_column l ++ r = flat_map hash_column l' ++ r' ->
  map hashed_fields l = map hashed_fields l' /\ r = r'.
Proof.
  intros Hr Hr'. revert l'. induction l as [|c l IH]; intros [|c' l']; simpl; intros Heq.
  - done.
  - by subst r.
  - by subst r'.
  - injection Heq as Hn Ht Hu Hp Heq. apply IH in Heq as [-> ->]. unfold hashed_fields. by rewrite Hn, Ht, Hu, Hp.
Qed.

Lemma hash_columns_eq l l' :
  map hashed_fields l = map hashed_fields l' -> flat_map hash_column l = flat_map hash_column l'.
Proof.
  revert l'. induction l as [|c l IH]; intros [|c' l']; simpl; try done.
  intros [= Hn Ht Hu Hp Heq]. by rewrite Hn, Ht, Hu, Hp, (IH l').
Qed.

Lemma fks_start_with_len l : starts_with_len (flat_map hash_fk_tuple l).
Proof. by destruct l as [|[[[c s] n] rc] l]. Qed.

Lemma fingerprint_writes_eq info :
  fingerprint_writes info =
  flat_map hash_column (default [] (ti_columns info))
  ++ flat_map hash_fk_tuple (sort_ord (map fk_tuple (default [] (ti_foreign_keys info)))).
Proof. unfold fingerprint_writes. by destruct (ti_columns info), (ti_foreign_keys info). Qed.

(** Two tables write the same to the hasher exactly when they have the same
    columns up to defaults, in the same order, and the same foreign keys. *)
Lemma same_writes_iff a b :
  fingerprint_writes a = fingerprint_writes b <->
  map hashed_fields (default [] (ti_columns a)) = map hashed_fields (default [] (ti_columns b)) /\
  map fk_tuple (default [] (ti_foreign_keys a)) ≡ₚ map fk_tuple (default [] (ti_foreign_keys b)).
Proof.
  rewrite !fingerprint_writes_eq, <- sort_ord_eq. split.
  - intros [Hc Hf]%hash_columns_inj; auto using fks_start_with_len, hash_fks_inj.
  - intros [Hc ->]. by rewrite (hash_columns_eq _ _ Hc).
Qed.

(** ** What the check reports *)

(** The changes a fingerprint can show: not defaults, not indexes. *)
Definition structural (change : SchemaChange) : bool :=
  match change with
  | DefaultChanged _ _ _ | IndexAdded _ | IndexRemoved _ => false
  | _ => true
  end.

Definition strip (c : ColumnSnapshot) : ColumnSnapshot := set_default None c.

Lemma find_column_strip n cols : find_column n (map strip cols) = strip <$> find_column n cols.
Proof.
  unfold find_column. induction cols as [|c cols IH]; simpl; [done|]. by case_bool_decide.
Qed.

Lemma primary_keys_strip cols : primary_keys (map strip cols) = primary_keys cols.
Proof.
  unfold primary_keys. induction cols as [|c cols IH]; simpl; [done|].
  destruct (cs_is_primary_key c); simpl; by rewrite IH.
Qed.

Lemma hashed_fields_strip l l' :
  map hashed_fields l = map hashed_fields l' ->
  map strip (map column_snapshot l) = map strip (map column_snapshot l').
Proof.
  revert l'. induction l as [|c l IH]; intros [|c' l']; simpl; try done.
  intros [= Hn Ht Hu Hp Heq]. rewrite (IH l') by done. unfold column_snapshot, strip, set_default; simpl.
  by rewrite Hn, Ht, Hu, Hp.
Qed.

Lemma fk_signatures_perm a b :
  map fk_tuple (default [] (ti_foreign_keys a)) ≡ₚ map fk_tuple (default [] (ti_foreign_keys b)) ->
  fk_signatures a ≡ₚ fk_signatures b.
Proof.
  intros Hp. apply (Permutation_map (fun t : FkTuple =>
    let '(c, s, n, rc) := t in (c, n, s, rc) : FkSignature)) in Hp.
  by rewrite !map_map in Hp.
Qed.

Lemma diff_column_stripped bcols acols bc ch :
  NoDup (map cs_name bcols) -> map strip bcols = map strip acols -> bc ∈ bcols ->
  ch ∈ diff_column acols bc -> structural ch = false.
Proof.
  intros Hnd Heq Hbc. unfold diff_column.
  assert (Hf : strip <$> find_column (cs_name bc) acols = Some (strip bc)).
  { by rewrite <- find_column_strip, <- Heq, find_column_strip, find_column_nodup. }
  destruct (find_column (cs_name bc) acols) as [ac|]; [|done].
  injection Hf as Hn Ht Hu Hp.
  rewrite (bool_decide_true (cs_type_name ac = _)), (bool_decide_true (cs_nullable ac = _)) by done. simpl.
  case_bool_decide; simpl; [by intros ?%elem_of_nil|by intros ->%list_elem_of_singleton].
Qed.

Lemma added_columns_stripped bcols acols :
  map strip bcols = map strip acols -> added_columns bcols acols = [].
Proof.
  intros Heq. apply map_nil_iff, filter_nil_iff. intros ac Hac. apply negb_false_iff.
  rewrite existsb_column. apply bool_decide_eq_true, not_eq_None_Some. intros Hnone.
  assert (Hf : strip <$> find_column (cs_name ac) acols = None).
  { by rewrite <- find_column_strip, <- Heq, find_column_strip, Hnone. }
  apply fmap_None, find_column_none in Hf. by apply Hf, list_elem_of_fmap_2.
Qed.

Lemma same_writes_not_structural a b ch :
  NoDup (map cs_name (table_columns a)) -> fingerprint_writes a = fingerprint_writes b ->
  ch ∈ diff_table_info a b -> structural ch = false.
Proof.
  intros Hnd [Hc Hf]%same_writes_iff. apply hashed_fields_strip in Hc.
  fold (table_columns a) (table_columns b) in Hc. apply fk_signatures_perm in Hf.
  unfold diff_table_info. rewrite (added_columns_stripped _ _ Hc).
  rewrite <- (primary_keys_strip (table_columns a)), Hc, primary_keys_strip.
  unfold diff_primary_keys. rewrite bool_decide_true by done. apply diff_foreign_keys_nil in Hf as ->.
  unfold diff_indexes. rewrite !elem_of_app, !list_elem_of_fmap, !elem_of_nil.
  intros [Hin|Hrest]; [|naive_solver].
  apply list_elem_of_In, in_flat_map in Hin as (bc & Hbc & Hin). apply list_elem_of_In in Hbc, Hin.
  by apply (diff_column_stripped (table_columns a) (table_columns b) bc).
Qed.

(** A drift the fingerprint covers is reported in full: when the hash tells
    the two tables apart if what they write to it differs, a column added or
    removed, a changed type, nullability or key, or changed foreign keys makes the
    check return the whole list of differences; and a list it returns is that
    list and not empty. *)
Theorem structural_drift_is_reported `{SessionHasher} cached fresh :
  NoDup (map cs_name (table_columns cached)) ->
  (from_table_info cached = from_table_info fresh ->
   fingerprint_writes cached = fingerprint_writes fresh) ->
  ((exists ch, ch ∈ diff_table_info cached fresh /\ structural ch = true) ->
   check_drift_sync cached fresh = Some (diff_table_info cached fresh)) /\
  (forall changes, check_drift_sync cached fresh = Some changes ->
   changes = diff_table_info cached fresh /\ changes <> []).
Proof.
  intros Hnd Hhash. unfold check_drift_sync. split.
  - intros (ch & Hin & Hs). case_bool_decide as Hfp.
    + apply Hhash in Hfp. apply (same_writes_not_structural cached fresh ch Hnd Hfp) in Hin. congruence.
    + destruct (diff_table_info cached fresh); [by apply elem_of_nil in Hin|done].
  - intros changes. case_bool_decide; [done|].
    destruct (diff_table_info cached fresh); [done|]. by intros [= <-].
Qed.

End DriftCheckProps.

(** ** Examples *)

Import SchemaDrift SchemaDriftProps DriftCheck DriftCheckProps.

(** A hash for the examples: the writes as the digits of a number. *)
Definition demo_hasher : SessionHasher :=
  fun ws => foldl (fun h w => h * 1000003 + match w with
    | HashStr s => Z.of_N (foldl (fun h c => h * 257 + c)%N 1%N s)
    | HashBool b => if b then 2 else 3
    | HashLen n => 5 + Z.of_nat n
    | HashVariant n => 11 + Z.of_nat n
    end) 17 ws.

Definition column_with_default (d : option (list char)) : ColumnInfo :=
  mkColumnInfo (text "x") (text "int") true false d None.

(** A change of a default alone is in the difference, and the session check does
    not see it. *)
Example default_change_is_not_seen :
  let before := plain_table "a" [column_with_default None] in
  let after := plain_table "a" [column_with_default (Some (text "0"))] in
  diff_table_info before after = [DefaultChanged (text "x") None (Some (text "0"))] /\
  check_drift_sync (H := demo_hasher) before after = None.
Proof. split; vm_compute; reflexivity. Qed.

Lemma structural_drift_is_reported_witness :
  check_drift_sync (H := demo_hasher) (plain_table "a" [demo_column "x" "int"])
    (plain_table "a" [demo_column "x" "text"]) =
  Some (diff_table_info (plain_table "a" [demo_column "x" "int"])
          (plain_table "a" [demo_column "x" "text"])).
Proof.
  destruct (structural_drift_is_reported (H := demo_hasher) (plain_table "a" [demo_column "x" "int"])
    (plain_table "a" [demo_column "x" "text"])) as [Hrep _].
  - apply (bool_decide_unpack _). vm_compute. exact I.
  - intros Heq. vm_compute in Heq. discriminate Heq.
  - apply Hrep. eexists (ColumnTypeChanged _ _). split; [|reflexivity]. vm_compute. left.
Defined.

(** ** Writing the outcome of a drift check back settles the drift

    A driver that names the schema it read describes each table under one key.
    Once the updates of a check are in the cache, the same check finds nothing to
    report. *)

Module DriftSettles.
Import SchemaDrift DriftCheck.

(** ** Finding an entry *)

Lemma get_key_value_some m key e :
  get_key_value m key = Some e <-> e.1 = key /\ m !! key = Some e.2.
Proof.
  unfold get_key_value. destruct (m !! key) as [i|]; simpl; split; [by intros [= <-]| |done|naive_solver].
  destruct e as [k j]; simpl. naive_solver.
Qed.

Lemma table_entries_elem m database table e :
  e ∈ table_entries m database table <->
  m !! e.1 = Some e.2 /\ e.1.1.1 = database /\ e.1.2 = table.
Proof.
  unfold table_entries. rewrite filter_elem, andb_true_iff, !bool_decide_eq_true.
  destruct e as [k i]. by rewrite elem_of_map_to_list.
Qed.

Lemma or_else_some {A} (a b : option A) x :
  or_else a b = Some x <-> a = Some x \/ a = None /\ b = Some x.
Proof. destruct a; simpl; naive_solver. Qed.

Lemma find_cached_entry_some m database explicit table dflt key info :
  find_cached_entry m database explicit table dflt = Some (key, info) ->
  m !! key = Some info /\ key.1.1 = database /\ key.2 = table /\
  (forall s, explicit = Some s -> key_schema key = Some s).
Proof.
  unfold find_cached_entry. destruct explicit as [s|].
  - intros [Hk Hl]%get_key_value_some. simpl in *. subst key. naive_solver.
  - assert (Hkey : forall k, k.1.1 = database -> k.2 = table ->
      get_key_value m k = Some (key, info) ->
      m !! key = Some info /\ key.1.1 = database /\ key.2 = table).
    { intros k Hd Ht [Hk Hl]%get_key_value_some. simpl in *. by subst key. }
    intros Hor. enough (m !! key = Some info /\ key.1.1 = database /\ key.2 = table) by naive_solver.
    apply or_else_some in Hor as [Hd|[_ [Hn|[_ Hmin]]%or_else_some]].
    + destruct dflt as [s|]; [|done]. by eapply Hkey in Hd.
    + by eapply Hkey in Hn.
    + apply min_by_elem, table_entries_elem in Hmin. naive_solver.
Qed.

(** In a larger cache an unqualified name can be found elsewhere; an entry that
    was there before is found only if it was found before. *)
Lemma min_entry_stable m m' database table key info :
  (forall k, is_Some (m !! k) -> is_Some (m' !! k)) ->
  min_by (fun a b => cmp (key_schema a.1) (key_schema b.1)) (table_entries m' database table)
    = Some (key, info) ->
  m !! key = Some info ->
  min_by (fun a b => cmp (key_schema a.1) (key_schema b.1)) (table_entries m database table)
    = Some (key, info).
Proof.
  intros Hsub Hmin Hkey.
  pose proof (min_by_elem _ _ _ Hmin) as Hel.
  apply table_entries_elem in Hel as (_ & Hd & Ht); simpl in *.
  assert (Hin : (key, info) ∈ table_entries m database table) by (by apply table_entries_elem).
  destruct (min_by _ (table_entries m database table)) as [[key2 info2]|] eqn:Hmin2;
    [|apply min_by_none in Hmin2; rewrite Hmin2 in Hin; by apply elem_of_nil in Hin].
  pose proof (min_by_elem _ _ _ Hmin2) as Hel2.
  apply table_entries_elem in Hel2 as (Hl2 & Hd2 & Ht2); simpl in *.
  destruct (Hsub key2) as [info3 Hl3]; [by eexists|].
  assert (Heq : key_schema key = key_schema key2).
  { apply (anti_symm (fun x y => ord_le x y = true)).
    - apply (min_by_least (fun e : TableKey * TableInfo => key_schema e.1)
        (table_entries m' database table) (key, info) (key2, info3));
        [done|by apply table_entries_elem].
    - by apply (min_by_least (fun e : TableKey * TableInfo => key_schema e.1)
        (table_entries m database table) (key2, info2) (key, info)). }
  unfold key_schema in Heq. destruct key as [[d s] t], key2 as [[d2 s2] t2]; simpl in *. subst.
  pose proof (eq_trans (eq_sym Hl2) Hkey) as Hinfo. by injection Hinfo as ->.
Qed.

Lemma get_key_value_sub m m' key :
  (forall k, is_Some (m !! k) -> is_Some (m' !! k)) ->
  get_key_value m' key = None -> get_key_value m key = None.
Proof.
  unfold get_key_value. intros Hsub Hnone. apply fmap_None in Hnone.
  destruct (m !! key) as [i|] eqn:Hl; [|done]. destruct (Hsub key) as [j Hj]; [by eexists|]. congruence.
Qed.

Lemma find_entry_stable m m' database explicit table dflt key info :
  (forall k, is_Some (m !! k) -> is_Some (m' !! k)) ->
  find_cached_entry m' database explicit table dflt = Some (key, info) ->
  m !! key = Some info ->
  find_cached_entry m database explicit table dflt = Some (key, info).
Proof.
  intros Hsub Hfind Hkey.
  assert (Hget : forall k e, get_key_value m' k = Some e -> e = (key, info) ->
    get_key_value m k = Some (key, info)).
  { intros k e [Hk _]%get_key_value_some ->. apply get_key_value_some. simpl in *. by subst k. }
  revert Hfind. unfold find_cached_entry. destruct explicit as [s|]; [by intros; eapply Hget|].
  rewrite !or_else_some. intros [Hd|(Hd & [Hn|[Hn Hmin]])].
  - left. destruct dflt as [s|]; [|done]. by eapply Hget.
  - right. split; [|left; by eapply Hget].
    destruct dflt as [s|]; [|done]. by eapply (get_key_value_sub m m').
  - right. split; [destruct dflt as [s|]; [|done]; by eapply (get_key_value_sub m m')|right].
    split; [by apply (get_key_value_sub m m')|by apply (min_entry_stable m m')].
Qed.

(** ** The updates of a check *)

(** Every entry is under the schema it names. *)
Definition wf_cache (m : Cache) : Prop :=
  forall key info, m !! key = Some info -> ti_schema info = key_schema key /\ is_Some (key_schema key).

Lemma apply_updates_lookup (updates : list (TableKey * TableInfo)) (m : Cache) (key : TableKey) :
  (exists u, u ∈ updates /\ u.1 = key /\ apply_updates m updates !! key = Some u.2) \/
  ((forall u, u ∈ updates -> u.1 <> key) /\ apply_updates m updates !! key = m !! key).
Proof.
  unfold apply_updates. revert m. induction updates as [|u us IH]; intros m; simpl.
  - right. split; [|done]. by intros u ?%elem_of_nil.
  - destruct (IH (<[u.1 := u.2]> m)) as [(w & Hw & Hk & Hl)|[Hnone Hl]].
    + left. exists w. split; [by right|done].
    + destruct (decide (u.1 = key)) as [<-|Hne].
      * left. exists u. rewrite Hl, lookup_insert_eq. split; [by left|done].
      * right. rewrite Hl, lookup_insert_ne by done. split; [|done].
        intros w [->|Hw]%elem_of_cons; auto.
Qed.

Lemma apply_updates_sub (updates : list (TableKey * TableInfo)) (m : Cache) (k : TableKey) :
  is_Some (m !! k) -> is_Some (apply_updates m updates !! k).
Proof.
  intros Hk. destruct (apply_updates_lookup updates m k) as [(u & _ & _ & ->)|[_ ->]]; [by eexists|done].
Qed.

Section Settle.
Context `{SessionHasher, DriftConnection}.

(** A driver names the schema it was asked for. *)
Hypothesis details_name_schema : forall db s t info,
  table_details db (Some s) t = Ok info -> ti_schema info = Some s.

Definition update_of (out : SchemaDiff + TableKey * TableInfo) : TableKey * TableInfo :=
  match out with inl d => diff_update d | inr u => u end.

(** An update holds what the driver says of the table under its key. *)
Definition fetched (u : TableKey * TableInfo) : Prop :=
  exists db s t, u.1 = (db, Some s, t) /\ table_details db (Some s) t = Ok u.2 /\ has_columns u.2 = true.

Section Query.
Context (database : list char) (dflt : option (list char)).

Definition named_database (ref : QueryTableRef) : Prop :=
  is_Some (qt_database ref) \/ database = text "default".

Abbreviation effective_db ref := (default database (qt_database ref)).
Abbreviation found m ref :=
  (find_cached_entry m (effective_db ref) (qt_schema ref) (qt_table ref) dflt).

(** The key a table found in the cache is fetched by. *)
Lemma resolve_found m ref key info :
  wf_cache m -> found m ref = Some (key, info) ->
  key = (effective_db ref, Some (resolve_schema ref (Some info) dflt), qt_table ref).
Proof.
  intros Hwf (Hl & Hd & Ht & Hs)%find_cached_entry_some.
  destruct (Hwf key info Hl) as [Hsch [s Hks]]. destruct key as [[d k] t]; simpl in *.
  unfold resolve_schema. change (Some info ≫= ti_schema) with (ti_schema info). rewrite Hsch.
  unfold key_schema in *. simpl in Hks, Hs. subst d t k.
  destruct (qt_schema ref) as [s'|]; [specialize (Hs s' eq_refl); by injection Hs as ->|done].
Qed.

Lemma check_table_update m ref out :
  wf_cache m -> named_database ref -> check_table m database dflt ref = Some out ->
  fetched (update_of out) /\
  (update_of out).1 = (effective_db ref,
    Some (resolve_schema ref (snd <$> found m ref) dflt), qt_table ref).
Proof.
  intros Hwf Hdb. unfold check_table.
  pose proof (resolve_found m ref) as Hres.
  set (s := resolve_schema ref (snd <$> found m ref) dflt).
  destruct (table_details (effective_db ref) (Some s) (qt_table ref)) as [fresh|] eqn:Hfetch; [|done].
  destruct (has_columns fresh) eqn:Hcols; [|done].
  pose proof (details_name_schema _ _ _ _ Hfetch) as Hname.
  assert (Hgoal : forall out', (update_of out').2 = fresh ->
    (update_of out').1 = (effective_db ref, Some s, qt_table ref) ->
    fetched (update_of out') /\ (update_of out').1 = (effective_db ref, Some s, qt_table ref)).
  { intros out' Hfr Hk. split; [|done]. exists (effective_db ref), s, (qt_table ref). by rewrite Hfr. }
  destruct (found m ref) as [[key cached]|] eqn:Hf; simpl in *.
  - specialize (Hres key cached Hwf eq_refl).
    destruct (check_drift_sync cached fresh) as [changes|]; intros [= <-]; apply Hgoal; try done.
    unfold update_of, diff_update; simpl. rewrite Hname. f_equal. f_equal.
    + destruct Hdb as [[d ->]| ->]; [done|]. by destruct (qt_database ref).
    + subst s. unfold resolve_schema. by destruct (qt_schema ref).
  - intros [= <-]. apply Hgoal; [done|]. simpl. by rewrite Hname.
Qed.

(** Nothing is reported on a table whose cached entry is what the driver says. *)
Lemma check_table_fetched m ref key info :
  wf_cache m -> found m ref = Some (key, info) -> fetched (key, info) ->
  forall d, check_table m database dflt ref <> Some (inl d).
Proof.
  intros Hwf Hf (db & s & t & Hk & Hfetch & Hcols) d. simpl in *.
  pose proof (resolve_found m ref key info Hwf Hf) as Hkey. rewrite Hk in Hkey. injection Hkey as -> -> ->.
  unfold check_table. rewrite Hf. cbn [fmap option_fmap option_map snd].
  destruct (table_details _ _ _) as [fresh|] eqn:Hfetch'; [|done].
  injection Hfetch as ->. rewrite Hcols.
  unfold check_drift_sync. by rewrite bool_decide_true.
Qed.

Lemma wf_cache_updates m updates :
  wf_cache m -> Forall fetched updates -> wf_cache (apply_updates m updates).
Proof.
  intros Hwf Hall key info Hl. destruct (apply_updates_lookup updates m key) as [(u & Hu & Hk & Hl')|[_ Hl']].
  - rewrite Forall_forall in Hall. destruct (Hall u Hu) as (db & s & t & Hku & Hfetch & _).
    rewrite Hl' in Hl. injection Hl as <-. apply details_name_schema in Hfetch.
    rewrite <- Hk, Hku. simpl. eauto.
  - rewrite Hl' in Hl. by apply Hwf.
Qed.

(** After the updates, a table the check went over has no difference. *)
Lemma no_drift_after m updates ref :
  wf_cache m -> named_database ref -> Forall fetched updates ->
  (forall out, check_table m database dflt ref = Some out -> update_of out ∈ updates) ->
  forall d, check_table (apply_updates m updates) database dflt ref <> Some (inl d).
Proof.
  intros Hwf Hdb Hall Hin d. set (m' := apply_updates m updates).
  assert (Hwf' : wf_cache m') by (by apply wf_cache_updates).
  destruct (found m' ref) as [[key info]|] eqn:Hf;
    [|unfold check_table; rewrite Hf; simpl;
      by destruct (table_details _ _ _) as [fresh|]; [destruct (has_columns fresh)|]].
  destruct (apply_updates_lookup updates m key) as [(u & Hu & Hk & Hl)|[Hnone Hl]].
  - apply (check_table_fetched m' ref key info); [done..|].
    pose proof (find_cached_entry_some _ _ _ _ _ _ _ Hf) as (Hl' & _). unfold m' in Hl'.
    rewrite Hl in Hl'. injection Hl' as <-. rewrite Forall_forall in Hall. rewrite <- Hk.
    destruct u. by apply (Hall (_, _)).
  - pose proof (find_cached_entry_some _ _ _ _ _ _ _ Hf) as (Hl' & _). unfold m' in Hl'. rewrite Hl in Hl'.
    assert (Hf0 : found m ref = Some (key, info)).
    { apply (find_entry_stable m m'); [intros k; apply apply_updates_sub|done..]. }
    intros Hd.
    pose proof (resolve_found m ref key info Hwf Hf0) as Hkey.
    destruct (check_table m database dflt ref) as [out|] eqn:Hout.
    + pose proof (check_table_update m ref out Hwf Hdb Hout) as [_ Hkout]. rewrite Hf0 in Hkout.
      apply (Hnone (update_of out)); [by apply Hin|]. by rewrite Hkout, Hkey.
    + revert Hd Hout. unfold check_table. rewrite Hf, Hf0. cbn [fmap option_fmap option_map snd].
      destruct (table_details _ _ _) as [fresh|]; [|done]. destruct (has_columns fresh); [|done].
      by destruct (check_drift_sync info fresh).
Qed.

(** The two lists of a check, in the order of the references. *)
Definition diffs_of (outs : list (option (SchemaDiff + TableKey * TableInfo))) : list SchemaDiff :=
  omap (fun o => match o with Some (inl d) => Some d | _ => None end) outs.
Definition refreshes_of (outs : list (option (SchemaDiff + TableKey * TableInfo)))
  : list (TableKey * TableInfo) :=
  omap (fun o => match o with Some (inr u) => Some u | _ => None end) outs.

Lemma check_tables_lists m refs diffs refreshes :
  check_tables m database dflt refs diffs refreshes =
  (diffs ++ diffs_of (map (check_table m database dflt) refs),
   refreshes ++ refreshes_of (map (check_table m database dflt) refs)).
Proof.
  unfold diffs_of, refreshes_of. revert diffs refreshes.
  induction refs as [|ref refs IH]; intros diffs refreshes; simpl; [by rewrite !app_nil_r|].
  destruct (check_table m database dflt ref) as [[d|u]|]; rewrite IH; rewrite <- ?app_assoc; done.
Qed.

Lemma diffs_of_nil m refs :
  (forall ref d, ref ∈ refs -> check_table m database dflt ref <> Some (inl d)) ->
  diffs_of (map (check_table m database dflt) refs) = [].
Proof.
  unfold diffs_of. induction refs as [|ref refs IH]; intros Hall; simpl; [done|].
  destruct (check_table m database dflt ref) as [[d|u]|] eqn:Hc;
    [by destruct (Hall ref d (list_elem_of_here _ _))| |];
    (apply IH; intros r d Hin; apply Hall; by right).
Qed.

(** What a check leads the editor to write. *)
Lemma cache_updates_elem m query refs u :
  referenced_tables query = Some refs ->
  u ∈ cache_updates (check_schema_drift m query database dflt) <->
  exists ref out, ref ∈ refs /\ check_table m database dflt ref = Some out /\ u = update_of out.
Proof.
  intros Hrefs. unfold check_schema_drift. rewrite Hrefs, check_tables_lists. simpl.
  set (outs := map (check_table m database dflt) refs).
  assert (Hmem : u ∈ refreshes_of outs ++ map diff_update (diffs_of outs) <->
    exists out, Some out ∈ outs /\ u = update_of out).
  { unfold refreshes_of, diffs_of. rewrite elem_of_app, list_elem_of_fmap. setoid_rewrite list_elem_of_omap.
    split.
    - intros [([[d|v]|] & Hin & Hu)|(d & -> & [[d'|v]|] & Hin & Hd)]; simplify_eq; eauto.
    - intros ([d|v] & Hin & ->); [right|left]; eauto 6. }
  assert (Hres : u ∈ cache_updates match diffs_of outs with
      | [] => Refresh (refreshes_of outs) | _ :: _ => Drift (diffs_of outs) (refreshes_of outs) end <->
    u ∈ refreshes_of outs ++ map diff_update (diffs_of outs)).
  { destruct (diffs_of outs); simpl; [by rewrite app_nil_r|done]. }
  rewrite Hres, Hmem. unfold outs. setoid_rewrite list_elem_of_fmap.
  naive_solver.
Qed.

(** C29: the outcome of a drift check settles it.  For a driver that names the
    schema it was asked for, and a cache whose entries lie under the schema they
    name, every entry written back has columns and is what the driver says of
    the table of its key; and once the updates are in the cache, the same check
    reports no difference.  The differences need the database in the name of the
    table, or a connection whose database is called "default". *)
Theorem writing_back_settles_the_drift m query refs :
  wf_cache m -> referenced_tables query = Some refs -> Forall named_database refs ->
  let updates := cache_updates (check_schema_drift m query database dflt) in
  Forall fetched updates /\ wf_cache (apply_updates m updates) /\
  exists refreshes, check_schema_drift (apply_updates m updates) query database dflt = Refresh refreshes.
Proof.
  intros Hwf Hrefs Hdb updates. rewrite Forall_forall in Hdb.
  assert (Hup : Forall fetched updates).
  { apply Forall_forall. intros u (ref & out & Hin & Hout & ->)%(cache_updates_elem m query refs); [|done].
    apply (check_table_update m ref out Hwf (Hdb ref Hin) Hout). }
  split_and!; [done|by apply wf_cache_updates|].
  unfold check_schema_drift at 1. rewrite Hrefs, check_tables_lists, diffs_of_nil; [by eexists|].
  intros ref d Hin. apply no_drift_after; [done|by apply Hdb|done|].
  intros out Hout. apply (cache_updates_elem m query refs); [done|]. eauto.
Qed.
End Query.
End Settle.

(** ** Examples *)

Definition demo_table (columns : list ColumnInfo) : TableInfo :=
  mkTableInfo (text "users") (Some (text "public")) (Some columns) None None.

Definition id_column : ColumnInfo :=
  mkColumnInfo (text "id") (text "int") false true None None.
Definition name_column (type_name : string) : ColumnInfo :=
  mkColumnInfo (text "name") (text type_name) true false None None.

Definition demo_ref (database : option (list char)) : QueryTableRef :=
  mkQueryTable database None (text "users").

(** A database in which every table is [users] as it is now. *)
Definition demo_connection (database : option (list char)) : DriftConnection := {|
  DriftError := unit;
  referenced_tables _ := Some [demo_ref database];
  table_details _ s _ :=
    Ok (mkTableInfo (text "users") s (Some [id_column; name_column "varchar"]) None None);
|}.

Definition demo_cache : Cache :=
  {[ (text "app", Some (text "public"), text "users") := demo_table [id_column; name_column "text"] ]}.

Definition demo_check (database : option (list char)) (m : Cache) : DriftOutcome :=
  check_schema_drift (H := demo_hasher) (H0 := demo_connection database) m (text "q") (text "app") None.

Definition is_drift (o : DriftOutcome) : bool := match o with Drift _ _ => true | _ => false end.

(** A table named without its database drifts, is refreshed, and drifts again:
    the editor writes the fresh description under the database "default". *)
Example refresh_of_an_unqualified_table_is_lost :
  let first := demo_check None demo_cache in
  is_drift first = true /\
  demo_check None (apply_updates demo_cache (cache_updates first)) = first.
Proof. split; vm_compute; reflexivity. Qed.

End DriftSettles.

Import SchemaDrift DriftCheck DriftSettles.

Lemma writing_back_settles_the_drift_witness :
  is_drift (demo_check (Some (text "app")) demo_cache) = true /\
  exists refreshes,
    demo_check (Some (text "app"))
      (apply_updates demo_cache (cache_updates (demo_check (Some (text "app")) demo_cache)))
    = Refresh refreshes.
Proof.
  split; [vm_compute; reflexivity|].
  pose proof (writing_back_settles_the_drift (H := demo_hasher)
    (H0 := demo_connection (Some (text "app")))) as Hsettle.
  destruct (Hsettle ltac:(intros db s t info Hok; injection Hok as <-; reflexivity)
    (text "app") None demo_cache (text "q") [demo_ref (Some (text "app"))]) as (_ & _ & Hend).
  - intros key info. unfold demo_cache. rewrite lookup_singleton_Some. intros [<- <-].
    split; [reflexivity|]. eexists. reflexivity.
  - reflexivity.
  - constructor; [left; eexists; reflexivity|constructor].
  - exact Hend.
Defined.
