(* ===== verification/Transfer.v ===== *)
(** * Transfers of tables (crates/dbflux_transfer: column_map.rs, pipeline.rs,
      table_source.rs, table_sink.rs, migration.rs)

    Rows are pulled from a source in chunks, projected to the columns of the
    target and written to a sink.  A migration runs one such pipeline per table,
    in the load order of the tables, from a table read in pages to a table written
    inside a transaction.

    The two connections act on one state of the databases ([Db]).  The token of a
    transfer is set by another thread at any time: the state counts how often it
    was read, and [cancel] is the reading from which on it reads as cancelled. *)

From S2P Require Import Prelude RustStr RustChar SqlDialect VisualQuery CrudRequests StatementBuilder DependencyOrder TransactionControl RustOrd SchemaDrift.

Module Transfer.
Import CrudRequests StatementBuilder.
Import TxControl(DbKind, TransactionVocab, for_kind).

(** ** Column mapping (column_map.rs) *)

(** [iter().position(|c| c.name == name)]. *)
Definition position (name : list char) (columns : list TransferColumn) : option nat :=
  fst <$> list_find (fun c => tc_name c = name) columns.

Record ColumnMappingOverride := mkOverride {
  target_column : list char;
  source_column : option (list char);
}.

Record AutoColumnMap := mkMap {
  target_from_source : list (option nat);
  am_target_columns : list TransferColumn;
  am_warnings : list (list char);
}.

Definition auto_map (source_columns target_columns : list TransferColumn) : list (option nat) :=
  map (fun target => position (tc_name target) source_columns) target_columns.

Definition skipped_column (src : TransferColumn) : list char :=
  text "source column '" ++ tc_name src ++ text "' has no matching target column and was skipped".

Definition unmatched_source_warnings (source_columns : list TransferColumn)
    (from_source : list (option nat)) : list (list char) :=
  map (fun p => skipped_column p.2)
    (List.filter (fun p => negb (bool_decide (Some p.1 ∈ from_source))) (imap pair source_columns)).

Definition map_new (source_columns target_columns : list TransferColumn) : AutoColumnMap :=
  let from_source := auto_map source_columns target_columns in
  mkMap from_source target_columns (unmatched_source_warnings source_columns from_source).

(** The index of the assignment is one of [target_columns], and the map has an
    entry for each of them. *)
Definition apply_override (source_columns target_columns : list TransferColumn)
    (from_source : list (option nat)) (o : ColumnMappingOverride) : list (option nat) :=
  match position (target_column o) target_columns with
  | None => from_source
  | Some target_index =>
      <[target_index := source_column o ≫= fun name => position name source_columns]> from_source
  end.

Definition with_overrides (source_columns target_columns : list TransferColumn)
    (overrides : list ColumnMappingOverride) : AutoColumnMap :=
  let from_source :=
    foldl (apply_override source_columns target_columns)
      (auto_map source_columns target_columns) overrides in
  mkMap from_source target_columns (unmatched_source_warnings source_columns from_source).

(** ** The pipeline (pipeline.rs) *)

Inductive TransferError : Type :=
| Source (msg : list char)
| Sink (msg : list char).

Definition error_text (e : TransferError) : list char :=
  match e with
  | Source msg => text "source error: " ++ msg
  | Sink msg => text "sink error: " ++ msg
  end.

Module TransferOutcome.
Inductive t : Type := Completed | Cancelled.
End TransferOutcome.

Record TransferReport := mkReport {
  rows_transferred : N;
  outcome : TransferOutcome.t;
  warnings : list (list char);
}.

Module TableTransferStatus.
Inductive t : Type :=
| Completed (rows : N)
| Skipped
| Failed (error : list char)
| Cancelled (rows : N)
| NotStarted.
End TableTransferStatus.

Inductive TableMappingMode : Type := Create | Existing | Recreate | Skip | Truncate.

(** ** Connections *)

Inductive Capability : Type := TRANSACTIONS | BULK_INSERT | TRUNCATE_TABLE | DISABLE_FK_CHECKS.

Section Values.
Context `{ValueLib}.

Definition Row : Type := list DbValue.
Definition RowChunk : Type := list Row.

(** Of [QueryGenerator], what a transfer asks for; an error is its text. *)
Record QueryGenerator := mkGenerator {
  generate_bulk_insert :
    option (list char) -> list char -> list (list char) -> list (option (list char)) ->
    list Row -> result (option (list char)) (list char);
  generate_create_table : CreateTableSpec -> result (option (list char)) (list char);
}.

(** [count >= 0.0] and [count as u64] on floating-point numbers. *)
Class FloatCount := {
  f64_nonneg : f64 -> bool;
  f64_to_u64 : f64 -> N;
}.

(** Connections ([Conn]) to databases in some state ([Db]).  Errors are their
    displayed text; the two clauses that limit a query can be overridden by a
    dialect. *)
Class TransferDriver := {
  Conn : Type;
  Db : Type;
  dialect : Conn -> SqlDialect;
  limit_clause : Conn -> N -> list char;
  limit_offset_clause : Conn -> N -> N -> list char;
  kind : Conn -> DbKind;
  supports : Conn -> Capability -> bool;
  (** [metadata().limits], when there are any. *)
  limits_max_bulk_insert_rows : Conn -> option N;
  query_generator : Conn -> option QueryGenerator;
  table_details : Conn -> list char -> option (list char) -> list char -> Db ->
    result SchemaDrift.TableInfo (list char);
  schema_foreign_keys : Conn -> list char -> option (list char) -> Db ->
    result (list DependencyOrder.SchemaForeignKeyInfo) (list char);
  execute : Conn -> list char -> Db -> Db * result (list Row) (list char);
  insert_row : Conn -> RowInsert -> Db -> Db * result unit (list char);
  set_referential_integrity : Conn -> bool -> Db -> Db * result unit (list char);
}.

(** The trait [ColumnMap], and its implementation. *)
Class ColumnMap (M : Type) := {
  project : M -> Row -> Row;
  target_columns : M -> list TransferColumn;
  map_warnings : M -> list (list char);
}.

Definition auto_project (m : AutoColumnMap) (src : Row) : Row :=
  map (fun source_index => match source_index with
                           | Some index => default VNull (src !! index)
                           | None => VNull
                           end) (target_from_source m).

#[export] Instance auto_column_map : ColumnMap AutoColumnMap := {
  project := auto_project;
  target_columns := am_target_columns;
  map_warnings := am_warnings;
}.

End Values.

(** A computation that may also not return ([None]): a loop that uses up its
    rounds, or a call that stops the thread. *)
Definition TM (S A : Type) : Type := S -> option (S * result A TransferError).
Definition tm_bind {S A B} (f : A -> TM S B) (m : TM S A) : TM S B :=
  fun s => match m s with
           | None => None
           | Some (s', Ok x) => f x s'
           | Some (s', Err e) => Some (s', Err e)
           end.
#[export] Instance tm_mret {S} : MRet (TM S) := fun A x s => Some (s, Ok x).
#[export] Instance tm_mbind {S} : MBind (TM S) := fun A B f m => tm_bind f m.
Definition run {S A} (m : SM S TransferError A) : TM S A := fun s => Some (m s).

Section Pipeline.
Context `{ValueLib} `{!TransferDriver}.

(** The databases, the readings of the token so far, and the calls of
    [on_progress] so far: the position of the table, its rows and their estimate. *)
Record TransferState := mkState {
  ts_db : Db;
  ts_reads : nat;
  ts_progress : list (nat * N * option N);
}.

Definition on_db {E A} (f : Db -> Db * result A E) : SM TransferState E A :=
  sm_zoom ts_db (fun db s => mkState db (ts_reads s) (ts_progress s)) f.

(** The trait [RowSource]: its operations change the source and the state. *)
Class RowSource (S : Type) := {
  source_columns : S -> list TransferColumn;
  next_chunk : option nat -> SM (TransferState * S) TransferError (option RowChunk);
  estimated_total : S -> option N;
}.

Class RowSink (K : Type) := {
  sink_begin : list TransferColumn -> TableMappingMode -> SM (TransferState * K) TransferError unit;
  sink_write_chunk : RowChunk -> SM (TransferState * K) TransferError N;
  sink_finish : SM (TransferState * K) TransferError TransferReport;
}.

(** What the operations of an object do to the state alone. *)
Definition outside {S E A} (m : SM TransferState E A) : SM (TransferState * S) E A :=
  sm_zoom fst (fun st p => (st, p.2)) m.

Section Token.
Context (cancel : option nat).

(** [CancelToken::is_cancelled]: a token that was set stays set. *)
Definition cancelled_at (reading : nat) : bool :=
  match cancel with Some k => Nat.leb k reading | None => false end.
Definition token_cancelled {E} : SM TransferState E bool :=
  fun s => (mkState (ts_db s) (S (ts_reads s)) (ts_progress s), Ok (cancelled_at (ts_reads s))).

Section Run.
Context {Src K M : Type} `{!RowSource Src, !RowSink K, !ColumnMap M}.
(** The position of the table, for [on_progress]. *)
Context (index : nat) (column_map : M).

Definition Objects : Type := TransferState * (Src * K).

Definition on_state {A} (m : SM TransferState TransferError A) : TM Objects A := run (outside m).
Definition on_source {A} (m : SM (TransferState * Src) TransferError A) : TM Objects A :=
  run (sm_zoom (fun o => (o.1, o.2.1)) (fun p o => (p.1, (p.2, o.2.2))) m).
Definition on_sink {A} (m : SM (TransferState * K) TransferError A) : TM Objects A :=
  run (sm_zoom (fun o => (o.1, o.2.2)) (fun p o => (p.1, (o.2.1, p.2))) m).

Definition on_progress (rows : N) (total : option N) : SM TransferState TransferError unit :=
  sm_modify (fun s => mkState (ts_db s) (ts_reads s) (ts_progress s ++ [(index, rows, total)])).

(** The loop, with how it ended. *)
Fixpoint transfer_loop (rounds : nat) (total : option N) (rows_done : N)
  : TM Objects TransferOutcome.t :=
  match rounds with
  | O => fun _ => None
  | S rounds' =>
      stop ← on_state token_cancelled;
      if (stop : bool) then mret TransferOutcome.Cancelled
      else
        chunk ← on_source (next_chunk cancel);
        match chunk with
        | None => mret TransferOutcome.Completed
        | Some rows =>
            written ← on_sink (sink_write_chunk (map (project column_map) rows));
            _ ← on_state (on_progress (rows_done + written) total);
            transfer_loop rounds' total (rows_done + written)%N
        end
  end.

Definition run_transfer (rounds : nat) (mapping_mode : TableMappingMode) : TM Objects TransferReport :=
  _ ← on_sink (sink_begin (target_columns column_map) mapping_mode);
  total ← on_source (s ← sm_get; mret (estimated_total s.2));
  ending ← transfer_loop rounds total 0;
  report ← on_sink sink_finish;
  mret (mkReport (rows_transferred report)
          match ending with
          | TransferOutcome.Cancelled => TransferOutcome.Cancelled
          | TransferOutcome.Completed => outcome report
          end (warnings report ++ map_warnings column_map)).

End Run.

(** ** Reading a table (table_source.rs) *)

Record TableSource := mkSource {
  so_connection : Conn;
  so_schema : option (list char);
  so_table : list char;
  so_columns : list TransferColumn;
  so_segment_size : N;
  so_estimated_total : option N;
  so_keyset_pk : option (list char);
  so_last_key_value : option DbValue;
  so_offset : N;
  so_exhausted : bool;
}.

Definition exec (c : Conn) (sql : list char) : SM TransferState (list char) (list Row) :=
  on_db (execute c sql).

(** [str::parse::<u64>]. *)
Definition parse_u64 (l : list char) : option N :=
  let digits := if starts (ch "+") l then drop 1 l else l in
  if bool_decide (digits = []) || negb (forallb is_digit digits) then None
  else
    let n := foldl (fun n c => 10 * n + (c - 48))%N 0%N digits in
    if (n <? 2 ^ 64)%N then Some n else None.

Definition count_value `{!FloatCount} (v : DbValue) : option N :=
  match v with
  | VInt count => if 0 <=? count then Some (Z.to_N count) else None
  | VDecimal text => parse_u64 text
  | VFloat count => if f64_nonneg count then Some (f64_to_u64 count) else None
  | _ => None
  end.

(** The head of the query that counts the rows. *)
Definition count_head : list char := text "SELECT COUNT(" ++ [ch "*"] ++ text ") FROM ".

Definition count_rows `{!FloatCount} (c : Conn) (schema : option (list char)) (table : list char)
  : SM TransferState TransferError (option N) :=
  fun s =>
    let sql := count_head ++ @qualified_table _ (dialect c) schema table in
    match exec c sql s with
    | (s', Ok rows) => (s', Ok (row ← head rows; v ← head row; count_value v))
    | (s', Err _) => (s', Ok None)
    end.

Definition single_primary_key_column (columns : list TransferColumn) : option (list char) :=
  match List.filter tc_is_primary_key columns with
  | [first] => Some (tc_name first)
  | _ => None
  end.

Definition source_new `{!FloatCount} (c : Conn) (schema : option (list char)) (table : list char)
    (columns : list TransferColumn) (segment_size : N) (estimated : option N)
  : SM TransferState TransferError TableSource :=
  total ← match estimated with
          | Some n => mret (Some n)
          | None => count_rows c schema table
          end;
  mret (mkSource c schema table columns (N.max segment_size 1) total
          (single_primary_key_column columns) None 0 false).

Definition build_sql (s : TableSource) : list char :=
  let d := dialect (so_connection s) in
  let table_ref := @qualified_table _ d (so_schema s) (so_table s) in
  let column_list := commas (map (fun c => @quote_identifier _ d (tc_name c)) (so_columns s)) in
  match so_keyset_pk s with
  | Some pk_col =>
      let quoted_pk := @quote_identifier _ d pk_col in
      let where_clause :=
        match so_last_key_value s with
        | Some value =>
            let type_name :=
              list_find (fun c => tc_name c = pk_col) (so_columns s) ≫= fun p => tc_type_name p.2 in
            text "WHERE " ++ quoted_pk ++ text " > " ++ @value_to_literal_typed _ d value type_name
            ++ text " "
        | None => []
        end in
      text "SELECT " ++ column_list ++ text " FROM " ++ table_ref ++ text " " ++ where_clause
      ++ text "ORDER BY " ++ quoted_pk ++ text " " ++ limit_clause (so_connection s) (so_segment_size s)
  | None =>
      let order_by := commas (map (fun c => @quote_identifier _ d (tc_name c)) (so_columns s)) in
      text "SELECT " ++ column_list ++ text " FROM " ++ table_ref ++ text " ORDER BY " ++ order_by
      ++ text " " ++ limit_offset_clause (so_connection s) (so_segment_size s) (so_offset s)
  end.

(** [as u32], and the sum of a release build. *)
Definition u32_wrap (n : N) : N := (n mod 2 ^ 32)%N.

(** The source after a page that was not empty. *)
Definition after_page (rows : list Row) (s : TableSource) : TableSource :=
  let row_count := u32_wrap (N.of_nat (length rows)) in
  let last_key :=
    match so_keyset_pk s with
    | Some pk_col =>
        match position pk_col (so_columns s), last rows with
        | Some pk_index, Some last_row => last_row !! pk_index
        | _, _ => so_last_key_value s
        end
    | None => so_last_key_value s
    end in
  let offset :=
    match so_keyset_pk s with
    | Some _ => so_offset s
    | None => u32_wrap (so_offset s + row_count)
    end in
  mkSource (so_connection s) (so_schema s) (so_table s) (so_columns s) (so_segment_size s)
    (so_estimated_total s) (so_keyset_pk s) last_key offset
    (so_exhausted s || (row_count <? so_segment_size s)%N).

Definition set_exhausted (s : TableSource) : TableSource :=
  mkSource (so_connection s) (so_schema s) (so_table s) (so_columns s) (so_segment_size s)
    (so_estimated_total s) (so_keyset_pk s) (so_last_key_value s) (so_offset s) true.

Definition table_next_chunk : SM (TransferState * TableSource) TransferError (option RowChunk) :=
  p ← sm_get;
  let self := p.2 in
  stop ← (if so_exhausted self then mret true else outside token_cancelled);
  if (stop : bool) then mret None
  else
    rows ← sm_map_err Source (outside (exec (so_connection self) (build_sql self)));
    match rows with
    | [] => _ ← sm_modify (fun p => (p.1, set_exhausted p.2)); mret None
    | _ => _ ← sm_modify (fun p => (p.1, after_page rows p.2)); mret (Some rows)
    end.

End Token.

#[export] Instance table_row_source : RowSource TableSource := {
  source_columns := so_columns;
  next_chunk := table_next_chunk;
  estimated_total := so_estimated_total;
}.

(** ** Writing a table (table_sink.rs) *)

Record TableSink := mkSink {
  sk_connection : Conn;
  sk_schema : option (list char);
  sk_table : list char;
  sk_column_names : list (list char);
  sk_column_types : list (option (list char));
  sk_skipped : bool;
  sk_rows_written : N;
  sk_warnings : list (list char);
  sk_transaction_vocab : option TransactionVocab;
}.

Definition sink_new (c : Conn) (schema : option (list char)) (table : list char) : TableSink :=
  mkSink c schema table [] [] false 0 [] None.

(** The fields the operations assign. *)
Definition set_columns (columns : list TransferColumn) (k : TableSink) : TableSink :=
  mkSink (sk_connection k) (sk_schema k) (sk_table k) (map tc_name columns) (map tc_type_name columns)
    (sk_skipped k) (sk_rows_written k) (sk_warnings k) (sk_transaction_vocab k).
Definition set_skipped (warning : list char) (k : TableSink) : TableSink :=
  mkSink (sk_connection k) (sk_schema k) (sk_table k) (sk_column_names k) (sk_column_types k)
    true (sk_rows_written k) (sk_warnings k ++ [warning]) (sk_transaction_vocab k).
Definition add_written (n : N) (k : TableSink) : TableSink :=
  mkSink (sk_connection k) (sk_schema k) (sk_table k) (sk_column_names k) (sk_column_types k)
    (sk_skipped k) (sk_rows_written k + n) (sk_warnings k) (sk_transaction_vocab k).
Definition set_vocab (v : option TransactionVocab) (k : TableSink) : TableSink :=
  mkSink (sk_connection k) (sk_schema k) (sk_table k) (sk_column_names k) (sk_column_types k)
    (sk_skipped k) (sk_rows_written k) (sk_warnings k) v.
Definition take_warnings (k : TableSink) : TableSink :=
  mkSink (sk_connection k) (sk_schema k) (sk_table k) (sk_column_names k) (sk_column_types k)
    (sk_skipped k) (sk_rows_written k) [] (sk_transaction_vocab k).

Definition dotted_name (schema : option (list char)) (table : list char) : list char :=
  match schema with
  | Some s => s ++ text "." ++ table
  | None => table
  end.
Definition sink_qualified_name (k : TableSink) : list char := dotted_name (sk_schema k) (sk_table k).

(** [connection.execute(..).map(|_| ()).map_err(|e| TransferError::Sink(e.to_string()))]. *)
Definition exec_sink (c : Conn) (sql : list char) : SM TransferState TransferError unit :=
  _ ← sm_map_err Sink (exec c sql); mret tt.

Definition no_create (k : TableSink) : TransferError :=
  Sink (text "driver does not support CREATE TABLE for '" ++ sink_qualified_name k ++ text "'").

Definition create_spec (k : TableSink) (columns : list TransferColumn) : CreateTableSpec :=
  mkCreate (sk_schema k) (sk_table k) columns false.

Definition create_table (k : TableSink) (columns : list TransferColumn)
  : SM TransferState TransferError unit :=
  match query_generator (sk_connection k) with
  | None => sm_err (no_create k)
  | Some generator =>
      match generate_create_table generator (create_spec k columns) with
      | Ok (Some query) => exec_sink (sk_connection k) query
      | Ok None => sm_err (no_create k)
      | Err e => sm_err (Sink e)
      end
  end.

Definition drop_sql (k : TableSink) : list char :=
  text "DROP TABLE IF EXISTS " ++
  @qualified_table _ (dialect (sk_connection k)) (sk_schema k) (sk_table k).
Definition drop_table_if_exists (k : TableSink) : SM TransferState TransferError unit :=
  exec_sink (sk_connection k) (drop_sql k).

Definition truncate_sql (k : TableSink) : list char :=
  text "TRUNCATE TABLE " ++
  @qualified_table _ (dialect (sk_connection k)) (sk_schema k) (sk_table k).
Definition truncate_table (k : TableSink) : SM TransferState TransferError unit :=
  if negb (supports (sk_connection k) TRUNCATE_TABLE) then
    sm_err (Sink (text "driver does not support TRUNCATE TABLE for '" ++ sink_qualified_name k ++ text "'"))
  else exec_sink (sk_connection k) (truncate_sql k).

Definition max_bulk_insert_rows (c : Conn) : option nat :=
  let cap := default 0%N (limits_max_bulk_insert_rows c) in
  if (cap =? 0)%N then None else Some (N.to_nat cap).

(** The assignments of a row, as far as both names and values go. *)
Definition row_assignments (column_names : list (list char)) (column_types : list (option (list char)))
    (row : Row) : list ColumnAssignment :=
  imap (fun index p => mkAssign p.1 p.2 (mjoin (column_types !! index))) (zip column_names row).

Definition insert_of (k : TableSink) (row : Row) : RowInsert :=
  mkInsert (sk_table k) (sk_schema k) (row_assignments (sk_column_names k) (sk_column_types k) row).

(** The rows from here on, of which [written] rows were written before. *)
Fixpoint write_rows_per_row (k : TableSink) (written : N) (rows : list Row)
  : SM TransferState TransferError N :=
  match rows with
  | [] => mret written
  | row :: rest =>
      _ ← sm_map_err Sink (on_db (insert_row (sk_connection k) (insert_of k row)));
      write_rows_per_row k (written + 1) rest
  end.

(** [slice::chunks]; a chunk takes a row at least, so a round per row is enough. *)
Fixpoint chunks {A} (rounds batch_size : nat) (l : list A) : list (list A) :=
  match rounds, l with
  | S rounds', _ :: _ => take batch_size l :: chunks rounds' batch_size (drop batch_size l)
  | _, _ => []
  end.

Fixpoint write_batches (k : TableSink) (generator : QueryGenerator) (written : N)
    (batches : list (list Row)) : SM TransferState TransferError N :=
  match batches with
  | [] => mret written
  | batch :: rest =>
      match generate_bulk_insert generator (sk_schema k) (sk_table k) (sk_column_names k)
              (sk_column_types k) batch with
      | Ok (Some query) =>
          _ ← exec_sink (sk_connection k) query;
          write_batches k generator (written + N.of_nat (length batch)) rest
      | Ok None =>
          n ← write_rows_per_row k 0 batch;
          write_batches k generator (written + n) rest
      | Err e => sm_err (Sink e)
      end
  end.

Definition batch_size (c : Conn) (chunk : RowChunk) : nat :=
  Nat.max (default (Nat.max (length chunk) 1) (max_bulk_insert_rows c)) 1.

Definition write_rows_bulk (k : TableSink) (generator : QueryGenerator) (chunk : RowChunk)
  : SM TransferState TransferError N :=
  write_batches k generator 0 (chunks (length chunk) (batch_size (sk_connection k) chunk) chunk).

Definition begin_transaction_if_supported : SM (TransferState * TableSink) TransferError unit :=
  p ← sm_get;
  let c := sk_connection p.2 in
  if negb (supports c TRANSACTIONS) then mret tt
  else
    match for_kind (kind c) with
    | None => mret tt
    | Some vocab =>
        _ ← sm_map_err (fun e => Sink (text "BEGIN failed for '" ++ sink_qualified_name p.2
                                       ++ text "': " ++ e))
              (outside (exec c (text (TxControl.begin vocab))));
        sm_modify (fun p => (p.1, set_vocab (Some vocab) p.2))
    end.

(** [rollback_on_error] and [Drop]: close the transaction that is open, if any;
    an error of the statement is logged and dropped. *)
Definition rollback_open {E} : SM (TransferState * TableSink) E unit :=
  fun p =>
    match sk_transaction_vocab p.2 with
    | None => (p, Ok tt)
    | Some vocab =>
        let '(st, _) := exec (sk_connection p.2) (text (TxControl.rollback vocab)) p.1 in
        ((st, set_vocab None p.2), Ok tt)
    end.

Definition table_begin (columns : list TransferColumn) (mode : TableMappingMode)
  : SM (TransferState * TableSink) TransferError unit :=
  _ ← sm_modify (fun p => (p.1, set_columns columns p.2));
  p ← sm_get;
  let self := p.2 in
  match mode with
  | Skip =>
      sm_modify (fun p => (p.1, set_skipped (text "table '" ++ sink_qualified_name self
                                             ++ text "' skipped (mapping mode Skip)") p.2))
  | Existing => begin_transaction_if_supported
  | Create => _ ← outside (create_table self columns); begin_transaction_if_supported
  | Recreate =>
      _ ← outside (drop_table_if_exists self);
      _ ← outside (create_table self columns);
      begin_transaction_if_supported
  | Truncate => _ ← outside (truncate_table self); begin_transaction_if_supported
  end.

Definition write_rows (k : TableSink) (chunk : RowChunk) : SM TransferState TransferError N :=
  let c := sk_connection k in
  match (if supports c BULK_INSERT then query_generator c else None) with
  | Some generator => write_rows_bulk k generator chunk
  | None => write_rows_per_row k 0 chunk
  end.

Definition table_write_chunk (chunk : RowChunk) : SM (TransferState * TableSink) TransferError N :=
  fun p =>
    if sk_skipped p.2 then (p, Ok 0%N)
    else
      match write_rows p.2 chunk p.1 with
      | (st, Ok written) => ((st, add_written written p.2), Ok written)
      | (st, Err e) => ((rollback_open (E := TransferError) (st, p.2)).1, Err e)
      end.

Definition table_finish : SM (TransferState * TableSink) TransferError TransferReport :=
  p ← sm_get;
  let self := p.2 in
  _ ← match sk_transaction_vocab self with
      | None => mret tt
      | Some vocab =>
          _ ← sm_modify (fun p => (p.1, set_vocab None p.2));
          _ ← sm_map_err (fun e => Sink (text "COMMIT failed for '" ++ sink_qualified_name self
                                         ++ text "': " ++ e))
                (outside (exec (sk_connection self) (text (TxControl.commit vocab))));
          mret tt
      end;
  _ ← sm_modify (fun p => (p.1, take_warnings p.2));
  mret (mkReport (sk_rows_written self) TransferOutcome.Completed (sk_warnings self)).

#[export] Instance table_row_sink : RowSink TableSink := {
  sink_begin := table_begin;
  sink_write_chunk := table_write_chunk;
  sink_finish := table_finish;
}.
End Pipeline.

(** ** Migration (migration.rs) *)

#[export] Instance table_ref_eq_dec : EqDecision TableRef.
Proof. solve_decision. Defined.

(** [TableRef] as the load order takes it. *)
Definition dep_ref (t : TableRef) : DependencyOrder.TableRef :=
  DependencyOrder.mkTable (str_of <$> tr_schema t) (str_of (tr_name t)).
Definition ref_named (refs : list TableRef) (r : DependencyOrder.TableRef) : option TableRef :=
  snd <$> list_find (fun t => bool_decide (DependencyOrder.schema (dep_ref t) = DependencyOrder.schema r) &&
                              bool_decide (DependencyOrder.name (dep_ref t) = DependencyOrder.name r)) refs.

(** [Vec::dedup]. *)
Fixpoint dedup {A} `{EqDecision A} (l : list A) : list A :=
  match l with
  | x :: ((y :: _) as l') => if bool_decide (x = y) then dedup l' else x :: dedup l'
  | _ => l
  end.

Record MigrationTablePlan := mkPlan {
  mp_source_table : TableRef;
  mp_source_columns : list TransferColumn;
  mp_target_schema : option (list char);
  mp_target_table : list char;
  mp_mapping_mode : TableMappingMode;
  mp_column_overrides : option (list ColumnMappingOverride);
  mp_estimated_total : option N;
}.

Record MigrationOptions := mkOptions {
  mo_segment_size : N;
  mo_source_database : list char;
  mo_target_database : list char;
  mo_destructive_confirmed : bool;
  mo_disable_referential_integrity : bool;
  mo_manual_order : option (list TableRef);
}.

Record MigratedTable := mkMigrated {
  mt_source_table : list char;
  mt_target_table : list char;
  mt_status : TableTransferStatus.t;
}.

Record MigrationRunOutcome := mkRunOutcome {
  ro_tables : list MigratedTable;
  ro_warnings : list (list char);
  ro_cancelled : bool;
}.

Module MigrationOutcome.
Inductive t : Type :=
| Completed (run : MigrationRunOutcome)
| CyclicOrderRequired (ordered_prefix cycle : list TableRef).
End MigrationOutcome.

Inductive ResolvedOrder : Type :=
| Ordered (plans : list MigrationTablePlan)
| Cyclic (ordered_prefix cycle : list TableRef).

Definition destructive (mode : TableMappingMode) : bool :=
  match mode with Recreate | Truncate => true | _ => false end.

Definition entry (plan : MigrationTablePlan) (status : TableTransferStatus.t) : MigratedTable :=
  mkMigrated (tr_name (mp_source_table plan)) (mp_target_table plan) status.

Section Migration.
Context `{ValueLib} `{!TransferDriver} `{!FloatCount}.
Context (source_connection target_connection : Conn).
Context (options : MigrationOptions) (cancel : option nat) (rounds : nat).

Definition fetch_all_foreign_keys (plans : list MigrationTablePlan) (db : Db)
  : result (list DependencyOrder.SchemaForeignKeyInfo) TransferError :=
  let schemas := dedup (sort_ord (map (fun plan => tr_schema (mp_source_table plan)) plans)) in
  map_ok (@concat _)
    (try_map (fun schema => map_err Source
                (schema_foreign_keys source_connection (mo_source_database options) schema db)) schemas).

(** [plans.iter().find(|plan| &plan.source_table == table_ref)]. *)
Definition plan_of (plans : list MigrationTablePlan) (t : TableRef) : option MigrationTablePlan :=
  snd <$> list_find (fun plan => mp_source_table plan = t) plans.

(** The plans in the order [order]. *)
Definition order_plans (plans : list MigrationTablePlan) (order : list TableRef)
  : result ResolvedOrder TransferError :=
  if negb (Nat.eqb (length order) (length plans)) then
    Err (Source (text "resolved table order does not match every planned table"))
  else
    map_ok Ordered (try_map (fun t =>
      ok_or (plan_of plans t)
        (Source (text "manual order references unplanned table '" ++
                 dotted_name (tr_schema t) (tr_name t) ++ text "'"))) order).

Definition resolve_plan_order (plans : list MigrationTablePlan) (db : Db)
  : option (result ResolvedOrder TransferError) :=
  match mo_manual_order options with
  | Some manual => Some (order_plans plans manual)
  | None =>
      let table_refs := map mp_source_table plans in
      match fetch_all_foreign_keys plans db with
      | Err e => Some (Err e)
      | Ok fks =>
          order ← DependencyOrder.topological_order (map dep_ref table_refs) fks;
          match order with
          | DependencyOrder.Ordered l =>
              ts ← mapM (ref_named table_refs) l; Some (order_plans plans ts)
          | DependencyOrder.Cyclic prefix cycle =>
              p ← mapM (ref_named table_refs) prefix; c ← mapM (ref_named table_refs) cycle;
              Some (Ok (Cyclic p c))
          end
      end
  end.

Definition transfer_column (c : SchemaDrift.ColumnInfo) : TransferColumn :=
  mkTransfer (SchemaDrift.ci_name c) (Some (SchemaDrift.ci_type_name c)) (SchemaDrift.ci_nullable c)
    (SchemaDrift.ci_is_primary_key c).

Definition query_target_columns (plan : MigrationTablePlan) (db : Db)
  : result (list TransferColumn) TransferError :=
  map_ok (fun info => map transfer_column (default [] (SchemaDrift.ti_columns info)))
    (map_err Sink (table_details target_connection (mo_target_database options)
                     (mp_target_schema plan) (mp_target_table plan) db)).

Definition resolve_target_columns (plan : MigrationTablePlan) (db : Db)
  : result (list TransferColumn) TransferError :=
  match mp_mapping_mode plan with
  | Create | Recreate => Ok (mp_source_columns plan)
  | Existing | Truncate => query_target_columns plan db
  | Skip => Ok match query_target_columns plan db with
               | Ok columns => columns
               | Err _ => mp_source_columns plan
               end
  end.

Definition plan_map (plan : MigrationTablePlan) (columns : list TransferColumn) : AutoColumnMap :=
  match mp_column_overrides plan with
  | Some overrides => with_overrides (mp_source_columns plan) columns overrides
  | None => map_new (mp_source_columns plan) columns
  end.

Definition plan_source (plan : MigrationTablePlan) : SM TransferState TransferError TableSource :=
  source_new source_connection (tr_schema (mp_source_table plan)) (tr_name (mp_source_table plan))
    (mp_source_columns plan) (mo_segment_size options) (mp_estimated_total plan).

Definition plan_sink (plan : MigrationTablePlan) : TableSink :=
  sink_new target_connection (mp_target_schema plan) (mp_target_table plan).

(** The pipeline of a table; the sink is dropped when it returns. *)
Definition pipe (index : nat) (plan : MigrationTablePlan) (source : TableSource)
    (column_map : AutoColumnMap) : TM TransferState TransferReport :=
  fun s =>
    match run_transfer cancel index column_map rounds (mp_mapping_mode plan)
            (s, (source, plan_sink plan)) with
    | None => None
    | Some ((s', (_, sink)), r) =>
        Some ((rollback_open (E := TransferError) (s', sink)).1.1, r)
    end.

Definition migrate_one_table (index : nat) (plan : MigrationTablePlan) : TM TransferState TransferReport :=
  source ← run (plan_source plan);
  columns ← run (s ← sm_get; sm_lift (resolve_target_columns plan (ts_db s)));
  pipe index plan source (plan_map plan columns).

(** [ReferentialIntegrityGuard::enable]: whether the guard is active. *)
Definition ri_enable : SM TransferState TransferError bool :=
  if negb (mo_disable_referential_integrity options) ||
     negb (supports target_connection DISABLE_FK_CHECKS) then mret false
  else _ ← sm_map_err Sink (on_db (set_referential_integrity target_connection false)); mret true.

(** Its [Drop]: the error of the restore, if it failed. *)
Definition ri_drop (active : bool) : SM TransferState TransferError (option (list char)) :=
  if active then
    fun s => match on_db (set_referential_integrity target_connection true) s with
             | (s', Ok _) => (s', Ok None)
             | (s', Err e) => (s', Ok (Some e))
             end
  else mret None.

Definition status_of (plan : MigrationTablePlan) (report : TransferReport) : TableTransferStatus.t :=
  match mp_mapping_mode plan, outcome report with
  | Skip, _ => TableTransferStatus.Skipped
  | _, TransferOutcome.Cancelled => TableTransferStatus.Cancelled (rows_transferred report)
  | _, TransferOutcome.Completed => TableTransferStatus.Completed (rows_transferred report)
  end.

Definition not_started (plans : list MigrationTablePlan) : list MigratedTable :=
  map (fun plan => entry plan TableTransferStatus.NotStarted) plans.

(** The loop from the table at position [index] on: the entries of the tables from
    there on, and the warnings collected.  No error leaves the loop. *)
Fixpoint migrate_tables (index : nat) (plans : list MigrationTablePlan)
  : TM TransferState (list MigratedTable * list (list char)) :=
  match plans with
  | [] => mret ([], [])
  | plan :: rest =>
      stop ← run (token_cancelled cancel);
      if (stop : bool) then mret (not_started plans, [])
      else
        fun s =>
          match migrate_one_table index plan s with
          | None => None
          | Some (s', Err e) =>
              Some (s', Ok (entry plan (TableTransferStatus.Failed (error_text e)) :: not_started rest, []))
          | Some (s', Ok report) =>
              let migrated := entry plan (status_of plan report) in
              match outcome report with
              | TransferOutcome.Cancelled =>
                  Some (s', Ok (migrated :: not_started rest, warnings report))
              | TransferOutcome.Completed =>
                  (more ← migrate_tables (S index) rest;
                   mret (migrated :: more.1, warnings report ++ more.2)) s'
              end
          end
  end.

Definition restore_warning (failure : list char) : list char :=
  text "referential integrity could not be restored on the target after migration: " ++ failure.

(** The run over the plans in their order. *)
Definition migrate_ordered (plans : list MigrationTablePlan) : TM TransferState MigrationRunOutcome :=
  active ← run ri_enable;
  result ← migrate_tables 0 plans;
  failure ← run (ri_drop active);
  stopped ← run (token_cancelled cancel);
  mret (mkRunOutcome result.1
          (result.2 ++ match failure with Some e => [restore_warning e] | None => [] end) stopped).

Definition run_migration (plans : list MigrationTablePlan) : TM TransferState MigrationOutcome.t :=
  if existsb (fun plan => destructive (mp_mapping_mode plan)) plans &&
     negb (mo_destructive_confirmed options) then
    run (sm_err (Sink (text "migration includes a Recreate or Truncate table and was not confirmed")))
  else
    order ← (fun s => option_map (pair s) (resolve_plan_order plans (ts_db s)));
    match order with
    | Cyclic ordered_prefix cycle => mret (MigrationOutcome.CyclicOrderRequired ordered_prefix cycle)
    | Ordered ordered =>
        outcome ← migrate_ordered ordered; mret (MigrationOutcome.Completed outcome)
    end.

End Migration.
End Transfer.
