(* ===== verification/TransferProps.v ===== *)
(** * Properties of transfers

    What a column map does to a row; that a table read in pages gives every row
    once; that a table is loaded whole or, where the target has transactions, not at
    all; what the databases hold after a migration, table by table; and that it
    returns.

    [TransferDatabase] is what can be seen of the databases: the content that is
    committed, and the content inside an open transaction.  [SourceLaws] and
    [TargetLaws] are what SQL servers document of the statements a transfer sends. *)

From stdpp Require Import sorting.
From S2P Require Import Prelude RustStr RustChar SqlDialect VisualQuery CrudRequests StatementBuilder DependencyOrder DependencyOrderProps TransactionControl SchemaDrift Transfer.

Import Transfer.
Import StatementBuilder CrudRequests.
Import TxControl(TransactionVocab, for_kind).

#[export] Instance mode_eq_dec : EqDecision TableMappingMode.
Proof. solve_decision. Defined.

(** ** Column mapping *)

Lemma position_Some name columns i :
  position name columns = Some i ->
  exists c, columns !! i = Some c /\ tc_name c = name.
Proof.
  unfold position. intros ([j c] & [Hc [Hn _]]%list_find_Some & ->)%fmap_Some. by exists c.
Qed.

Lemma position_lookup columns i c :
  NoDup (map tc_name columns) -> columns !! i = Some c -> position (tc_name c) columns = Some i.
Proof.
  intros Hnd Hi. unfold position.
  assert (list_find (fun d => tc_name d = tc_name c) columns = Some (i, c)) as ->; [|done].
  apply list_find_Some. split_and!; [done|done|]. intros j d Hj Hlt Heq.
  assert (j = i) as ->; [|lia]. eapply NoDup_lookup; [exact Hnd| |].
  - rewrite list_lookup_fmap, Hj. simpl. by rewrite Heq.
  - by rewrite list_lookup_fmap, Hi.
Qed.

(** The source column that a target column reads: its own name, unless an
    override says otherwise; the last override counts. *)
Definition bound (overrides : list ColumnMappingOverride) (name : list char) : option (list char) :=
  foldl (fun b o => if bool_decide (target_column o = name) then source_column o else b)
    (Some name) overrides.

Section Projection.
Context `{ValueLib}.

(** The value of a row in the first column of a name. *)
Definition value_named (columns : list TransferColumn) (row : Row) (name : list char) : DbValue :=
  default VNull (i ← position name columns; row !! i).

Lemma overrides_bound source target overrides :
  NoDup (map tc_name target) ->
  target_from_source (with_overrides source target overrides) =
  map (fun t => n ← bound overrides (tc_name t); position n source) target.
Proof.
  intros Hnd. simpl. induction overrides as [|o overrides IH] using rev_ind; [done|].
  rewrite foldl_snoc, IH. unfold apply_override, bound.
  destruct (position (target_column o) target) as [j|] eqn:Hj.
  - apply list_eq. intros i. apply position_Some in Hj as (c & Hc & Hn).
    assert (j < length target)%nat by (by eapply lookup_lt_Some).
    destruct (decide (i = j)) as [->|Hne].
    + rewrite list_lookup_insert_eq by (by rewrite length_map).
      rewrite list_lookup_fmap, Hc. simpl. by rewrite foldl_snoc, bool_decide_true.
    + rewrite list_lookup_insert_ne by done. rewrite !list_lookup_fmap.
      destruct (target !! i) as [d|] eqn:Hd; [|done]. simpl. rewrite foldl_snoc, bool_decide_false; [done|].
      intros Heq. apply Hne. apply (position_lookup target i d Hnd) in Hd.
      apply (position_lookup target j c Hnd) in Hc. congruence.
  - apply list_eq. intros i. rewrite !list_lookup_fmap.
    destruct (target !! i) as [d|] eqn:Hd; [|done]. simpl. rewrite foldl_snoc, bool_decide_false; [done|].
    intros Heq. apply (position_lookup target i d Hnd) in Hd. congruence.
Qed.

Lemma warned_columns source from_source w :
  w ∈ unmatched_source_warnings source from_source <->
  exists i c, source !! i = Some c /\ (Some i ∉ from_source) /\ w = skipped_column c.
Proof.
  unfold unmatched_source_warnings. rewrite list_elem_of_In, in_map_iff. split.
  - intros ([i c] & <- & Hin%list_elem_of_In). apply filter_elem in Hin as [Hin Hf].
    apply list_elem_of_lookup in Hin as [j Hj]. rewrite list_lookup_imap in Hj.
    destruct (source !! j) as [d|] eqn:Hd; [|done]. simpl in Hj. injection Hj as -> ->.
    exists i, c. split_and!; [done| |done]. by apply negb_true_iff, bool_decide_eq_false in Hf.
  - intros (i & c & Hi & Hn & ->). exists (i, c). split; [done|]. apply list_elem_of_In, filter_elem.
    split; [|simpl; by apply negb_true_iff, bool_decide_eq_false].
    apply list_elem_of_lookup. exists i. by rewrite list_lookup_imap, Hi.
Qed.

(** C28: each value of a projected row is the one of the source column bound to
    its target column, by its name or by the last override, and NULL when there is
    none; a warning is given for exactly the source columns that no target column
    reads. *)
Theorem columns_are_mapped_by_name source target overrides :
  NoDup (map tc_name target) ->
  let m := with_overrides source target overrides in
  (forall row, project m row =
    map (fun t => default VNull (n ← bound overrides (tc_name t); Some (value_named source row n))) target) /\
  (forall w, w ∈ map_warnings m <->
    exists i c, source !! i = Some c /\ w = skipped_column c /\
      forall t n, t ∈ target -> bound overrides (tc_name t) = Some n -> position n source <> Some i).
Proof.
  intros Hnd m. pose proof (overrides_bound source target overrides Hnd) as Hm. fold m in Hm. split.
  - intros row. simpl. unfold auto_project. rewrite Hm, map_map. apply map_ext. intros t.
    destruct (bound overrides (tc_name t)) as [n|]; simpl; [|done]. unfold value_named.
    by destruct (position n source).
  - intros w. change (map_warnings m) with (unmatched_source_warnings source (target_from_source m)).
    rewrite warned_columns, Hm. apply exist_proper. intros i. apply exist_proper. intros c.
    assert (Some i ∉ map (fun t => n ← bound overrides (tc_name t); position n source) target <->
      forall t n, t ∈ target -> bound overrides (tc_name t) = Some n -> position n source <> Some i)
      as Hiff; [|naive_solver].
    rewrite list_elem_of_In, in_map_iff. setoid_rewrite <- list_elem_of_In. split.
    + intros Hno t n Ht Hb Hp. apply Hno. exists t. by rewrite Hb.
    + intros Hall (t & Hp & Ht). destruct (bound overrides (tc_name t)) as [n|] eqn:Hb; [|done].
      by eapply Hall.
Qed.

End Projection.

(** ** What can be seen of the databases *)

Class TransferDatabase `{ValueLib} `{!TransferDriver} := {
  Content : Type;
  committed : Db -> Content;
  working : Db -> option Content;
  (** A row written to a table: its columns and its values. *)
  put : option (list char) -> list char -> list (list char) -> Row -> Content -> Content;
  ddl : list char -> Content -> Content;
  (** The comparison [>] of the server. *)
  greater : DbValue -> DbValue -> bool;
}.

Section Laws.
Context `{ValueLib} `{!TransferDriver} `{!TransferDatabase}.

(** The statement changes neither of the two contents. *)
Definition unchanged (db db' : Db) : Prop := committed db' = committed db /\ working db' = working db.

(** A source that reads a table of a connection. *)
Definition reads_table (c : Conn) (table : TableRef) (columns : list TransferColumn) (seg : N)
    (s : TableSource) : Prop :=
  so_connection s = c /\ so_schema s = tr_schema table /\ so_table s = tr_name table /\
  so_columns s = columns /\ so_segment_size s = seg /\
  so_keyset_pk s = single_primary_key_column columns.

(** The value of a row that a page is continued from. *)
Definition key (columns : list TransferColumn) (row : Row) : option DbValue :=
  pk ← single_primary_key_column columns; i ← position pk columns; row !! i.

(** The rows of a page: those above the last key or behind the offset, as many as
    the limit allows. *)
Definition page_of (rows : list Row) (s : TableSource) : list Row :=
  take (N.to_nat (so_segment_size s))
    match so_keyset_pk s, so_last_key_value s with
    | Some _, None => rows
    | Some _, Some last =>
        List.filter (fun r => match key (so_columns s) r with
                              | Some k => greater k last
                              | None => false
                              end) rows
    | None, _ => drop (N.to_nat (so_offset s)) rows
    end.

(** [r] comes before [r'] in the order of the key, where there is one. *)
Definition key_before (columns : list TransferColumn) (r r' : Row) : Prop :=
  exists k k', key columns r = Some k /\ key columns r' = Some k' /\
    greater k' k = true /\ greater k k' = false.

(** The rows of the table, in the order of the query; the table is not changed
    while it is read. *)
Class SourceLaws (c : Conn) (table : TableRef) (columns : list TransferColumn) (seg : N)
    (rows : list Row) : Prop := {
  count_law db : forall sql, sql = count_head ++
      @qualified_table _ (dialect c) (tr_schema table) (tr_name table) ->
    unchanged db (execute c sql db).1;
  query_law s db : reads_table c table columns seg s ->
    (forall v, so_last_key_value s = Some v -> exists r, r ∈ rows /\ key columns r = Some v) ->
    unchanged db (execute c (build_sql s) db).1 /\
    forall page, (execute c (build_sql s) db).2 = Ok page -> page = page_of rows s;
  rows_sorted : is_Some (single_primary_key_column columns) ->
    StronglySorted (key_before columns) rows /\
    (forall r, r ∈ rows -> exists k, key columns r = Some k /\ greater k k = false);
  rows_below : (N.of_nat (length rows) < 2 ^ 32)%N;
  segment_range : (0 < seg < 2 ^ 32)%N;
}.

(** The columns of a target and the row written fit. *)
Definition fits (names : list (list char)) (row : Row) : Prop := length row = length names.

(** The transactions a transfer to a connection uses: none without the capability,
    as the SQLite driver, or without words for them. *)
Definition target_vocab (c : Conn) : option TransactionVocab :=
  if supports c TRANSACTIONS then for_kind (kind c) else None.

(** The rows written so far make [w] of the content: inside the transaction that
    began at [x], or committed one by one where there is no transaction. *)
Definition holding (c : Conn) (x w : Content) (db : Db) : Prop :=
  match target_vocab c with
  | Some _ => committed db = x /\ working db = Some w
  | None => committed db = w /\ working db = None
  end.
(** The same after a statement that failed: a transaction may have been given up. *)
Definition left_with (c : Conn) (x w : Content) (db : Db) : Prop :=
  match target_vocab c with
  | Some _ => committed db = x
  | None => committed db = w /\ working db = None
  end.

(** What a target promises: its transactions, its inserts, which take effect as a
    whole or not at all, and its definition of tables outside a transaction. *)
Class TargetLaws (c : Conn) (schema : option (list char)) (table : list char) : Prop := {
  begin_law v db : target_vocab c = Some v -> working db = None ->
    match execute c (text (TxControl.begin v)) db with
    | (db', Ok _) => committed db' = committed db /\ working db' = Some (committed db)
    | (db', Err _) => committed db' = committed db /\ working db' = None
    end;
  commit_law v db w : target_vocab c = Some v -> working db = Some w ->
    match execute c (text (TxControl.commit v)) db with
    | (db', Ok _) => committed db' = w /\ working db' = None
    | (db', Err _) => committed db' = committed db
    end;
  rollback_law v db : target_vocab c = Some v ->
    committed (execute c (text (TxControl.rollback v)) db).1 = committed db;
  insert_law k row db x w : sk_connection k = c -> sk_schema k = schema -> sk_table k = table ->
    fits (sk_column_names k) row -> holding c x w db ->
    match insert_row c (insert_of k row) db with
    | (db', Ok _) => holding c x (put schema table (sk_column_names k) row w) db'
    | (db', Err _) => left_with c x w db'
    end;
  bulk_law generator names types rows sql db x w : query_generator c = Some generator ->
    generate_bulk_insert generator schema table names types rows = Ok (Some sql) ->
    Forall (fits names) rows -> holding c x w db ->
    match execute c sql db with
    | (db', Ok _) => holding c x (foldl (fun x row => put schema table names row x) w rows) db'
    | (db', Err _) => left_with c x w db'
    end;
  ddl_law k sql db : sk_connection k = c -> sk_schema k = schema -> sk_table k = table ->
    (sql = drop_sql k \/ sql = truncate_sql k \/
     exists generator columns, query_generator c = Some generator /\
       generate_create_table generator (create_spec k columns) = Ok (Some sql)) ->
    working db = None ->
    match execute c sql db with
    | (db', Ok _) => committed db' = ddl sql (committed db) /\ working db' = None
    | (db', Err _) => committed db' = committed db /\ working db' = None
    end;
}.

(** COMMIT and ROLLBACK end the transaction, also when they fail. *)
Definition ends_transactions (c : Conn) : Prop :=
  forall v db, target_vocab c = Some v ->
    working (execute c (text (TxControl.commit v)) db).1 = None /\
    working (execute c (text (TxControl.rollback v)) db).1 = None.

(** ** Reading in pages *)

Section Reading.
Context (c : Conn) (table : TableRef) (columns : list TransferColumn) (seg : N) (rows : list Row).
Context `{!SourceLaws c table columns seg rows}.

(** The source has given the first [p] rows. *)
Record gave (p : nat) (s : TableSource) : Prop := {
  g_reads : reads_table c table columns seg s;
  g_bound : (p <= length rows)%nat;
  g_key : is_Some (single_primary_key_column columns) ->
    so_last_key_value s = match p with O => None | S i => r ← rows !! i; key columns r end;
  g_nokey : single_primary_key_column columns = None ->
    so_last_key_value s = None /\ so_offset s = N.of_nat p;
  g_end : so_exhausted s = true -> p = length rows;
}.

(** The rows above the key of a row are the ones behind it. *)
Lemma filter_above l p r k :
  StronglySorted (key_before columns) l -> (forall r, r ∈ l -> exists k, key columns r = Some k /\ greater k k = false) ->
  l !! p = Some r -> key columns r = Some k ->
  List.filter (fun r => match key columns r with Some k' => greater k' k | None => false end) l = drop (S p) l.
Proof.
  intros Hs. revert p. induction Hs as [|x l Hs IH Hx]; intros p Hk Hp Hr; [done|].
  assert (Hk' : forall r, r ∈ l -> exists k, key columns r = Some k /\ greater k k = false)
    by (intros; apply Hk; by right).
  destruct p as [|p]; simpl.
  - injection Hp as ->. destruct (Hk r) as (k0 & Hk0 & Hirr); [by left|]. rewrite Hr in Hk0 |- *.
    injection Hk0 as <-. rewrite Hirr. rewrite drop_0.
    clear IH Hs Hk Hk'. induction Hx as [|y l (k1 & k2 & Hk1 & Hk2 & Hgt & _) _ IH]; simpl; [done|].
    rewrite Hr in Hk1. injection Hk1 as <-. by rewrite Hk2, Hgt, IH.
  - simpl in Hp. rewrite (IH p Hk' Hp Hr). apply list_elem_of_lookup_2 in Hp.
    rewrite Forall_forall in Hx. destruct (Hx r Hp) as (k1 & k2 & Hk1 & Hk2 & _ & Hle).
    rewrite Hr in Hk2. injection Hk2 as <-. by rewrite Hk1, Hle.
Qed.

Lemma page_at p s : gave p s -> page_of rows s = take (N.to_nat seg) (drop p rows).
Proof.
  intros [Hr Hb Hk Ho _]. destruct Hr as (_ & _ & _ & Hcol & Hseg & Hpk). unfold page_of.
  rewrite Hseg, Hpk, Hcol. f_equal. destruct (single_primary_key_column columns) as [pk|] eqn:Hp.
  - rewrite Hk by done. destruct p as [|i]; [done|].
    destruct (lookup_lt_is_Some_2 rows i) as [r Hi]; [lia|]. rewrite Hi. simpl.
    destruct rows_sorted as [Hs Hkeys]; [by rewrite Hp|].
    destruct (Hkeys r) as (k & Hkr & _); [by eapply list_elem_of_lookup_2|]. rewrite Hkr.
    by eapply filter_above.
  - destruct (Ho eq_refl) as [_ ->]. by rewrite Nat2N.id.
Qed.

Lemma gave_known p s : gave p s ->
  forall v, so_last_key_value s = Some v -> exists r, r ∈ rows /\ key columns r = Some v.
Proof.
  intros [_ Hb Hk Ho _] v Hv. destruct (single_primary_key_column columns) as [pk|] eqn:Hp.
  - rewrite Hk in Hv by done. destruct p as [|i]; [done|].
    destruct (rows !! i) as [r|] eqn:Hi; [|done]. exists r. split; [by eapply list_elem_of_lookup_2|done].
  - destruct (Ho eq_refl) as [Hn _]. congruence.
Qed.

Lemma u32_small n : (n < 2 ^ 32)%N -> u32_wrap n = n.
Proof. apply N.mod_small. Qed.

Lemma gave_more p s page :
  gave p s -> so_exhausted s = false -> page = take (N.to_nat seg) (drop p rows) -> page <> [] ->
  gave (p + length page) (after_page page s).
Proof.
  intros [Hr Hb Hk Ho _] Hex Hpage Hne. pose proof rows_below as Hbelow. pose proof segment_range as Hseg.
  assert (length page = Nat.min (N.to_nat seg) (length rows - p)) as Hlen.
  { by rewrite Hpage, length_take, length_drop. }
  assert (length page <> 0%nat) by (by destruct page).
  assert (u32_wrap (N.of_nat (length page)) = N.of_nat (length page)) as Hwrap by (apply u32_small; lia).
  pose proof Hr as (_ & _ & _ & Hcol & Hs & Hpk). split; [done|lia| | |].
  - intros Hkey. simpl. rewrite Hpk, Hcol. pose proof Hkey as [pk Heq]. rewrite Heq.
    assert (last page = rows !! (p + length page - 1)%nat) as ->.
    { rewrite last_lookup. transitivity (take (N.to_nat seg) (drop p rows) !! pred (length page)).
      - by rewrite <- Hpage.
      - rewrite lookup_take_lt, lookup_drop by lia. f_equal. lia. }
    destruct (lookup_lt_is_Some_2 rows (p + length page - 1)) as [r Hi]; [lia|].
    destruct (p + length page)%nat as [|i] eqn:Hpl; [lia|]. simpl in Hi |- *.
    rewrite Nat.sub_0_r in Hi |- *. rewrite Hi. simpl.
    destruct rows_sorted as [_ Hkeys]; [done|].
    destruct (Hkeys r) as (k & Hkr & _); [by eapply list_elem_of_lookup_2|].
    unfold key in *. rewrite Heq in *. simpl in *. by destruct (position pk columns).
  - intros Hnone. destruct (Ho Hnone) as [Hl Hoff]. simpl. rewrite Hpk, Hnone, Hwrap, Hoff.
    split; [done|]. rewrite u32_small; lia.
  - simpl. rewrite Hex, Hs, Hwrap. simpl. intros Hlt%N.ltb_lt. lia.
Qed.

Lemma next_chunk_spec cancel p s st : gave p s ->
  exists st' s' r, table_next_chunk cancel (st, s) = ((st', s'), r) /\
    unchanged (ts_db st) (ts_db st') /\
    match r with
    | Ok None => cancel = None -> p = length rows
    | Ok (Some page) => page <> [] /\ page = take (N.to_nat seg) (drop p rows) /\ gave (p + length page) s'
    | Err _ => True
    end.
Proof.
  intros Hg. unfold table_next_chunk. sm_unfold. simpl. unfold outside. sm_unfold.
  destruct (so_exhausted s) eqn:Hex; simpl.
  - do 3 eexists. split_and!; [reflexivity|done|]. simpl. intros _. by apply (g_end p s Hg).
  - destruct (cancelled_at cancel (ts_reads st)) eqn:Hc.
    { do 3 eexists. split_and!; [reflexivity|done|]. simpl. intros ->. done. }
    unfold exec, on_db. sm_unfold. simpl.
    destruct (query_law s (ts_db st) (g_reads p s Hg) (gave_known p s Hg)) as [Hun Hpage].
    destruct (g_reads p s Hg) as (Hconn & _). rewrite Hconn.
    destruct (execute c (build_sql s) (ts_db st)) as [db' [page|e]]; simpl in *.
    + specialize (Hpage page eq_refl). rewrite (page_at p s Hg) in Hpage.
      destruct page as [|row page]; do 3 eexists; (split_and!; [reflexivity|exact Hun|]).
      * intros _. apply (f_equal length) in Hpage. rewrite length_take, length_drop in Hpage. simpl in Hpage.
        pose proof segment_range. pose proof (g_bound p s Hg). lia.
      * split_and!; [done|done|]. by apply gave_more.
    + do 3 eexists. by split_and!.
Qed.

End Reading.

(** ** Writing rows *)

Lemma batches_concat {A} (n : nat) (l : list A) : forall rounds,
  (0 < n)%nat -> (length l <= rounds)%nat -> concat (chunks rounds n l) = l.
Proof.
  intros rounds Hn. revert l. induction rounds as [|rounds IH]; intros [|x l] Hl; simpl in Hl |- *; try done; [lia|].
  rewrite IH by (rewrite length_drop; simpl; lia). apply (take_drop n (x :: l)).
Qed.

Section Writing.
Context (c : Conn) (schema : option (list char)) (table : list char).
Context `{!TargetLaws c schema table}.

Definition puts (names : list (list char)) (rows : list Row) (x : Content) : Content :=
  foldl (fun x row => put schema table names row x) x rows.

Definition sink_of (k : TableSink) : Prop :=
  sk_connection k = c /\ sk_schema k = schema /\ sk_table k = table.

Lemma holding_unchanged x w db db' : unchanged db db' -> holding c x w db -> holding c x w db'.
Proof. intros [Hc Hw]. unfold holding. rewrite Hc, Hw. done. Qed.

Lemma holding_left x w db : holding c x w db -> left_with c x w db.
Proof. unfold holding, left_with. destruct (target_vocab c); [by intros []|done]. Qed.

(** The computation writes [rows] behind those written, or fails behind the first
    of them. *)
Definition writes (names : list (list char)) (rows : list Row) (written : N)
    (m : SM TransferState TransferError N) : Prop :=
  forall st x w, holding c x w (ts_db st) -> exists st' r, m st = (st', r) /\
    match r with
    | Ok n => n = (written + N.of_nat (length rows))%N /\ holding c x (puts names rows w) (ts_db st')
    | Err _ => exists i, (i <= length rows)%nat /\ left_with c x (puts names (take i rows) w) (ts_db st')
    end.

(** One piece written, then the rest. *)
Lemma writes_rest names rows rest written m st1 x w :
  writes names rest (written + N.of_nat (length rows)) m -> holding c x (puts names rows w) (ts_db st1) ->
  exists st' r, m st1 = (st', r) /\
    match r with
    | Ok n => n = (written + N.of_nat (length (rows ++ rest)))%N /\
              holding c x (puts names (rows ++ rest) w) (ts_db st')
    | Err _ => exists i, (i <= length (rows ++ rest))%nat /\
              left_with c x (puts names (take i (rows ++ rest)) w) (ts_db st')
    end.
Proof.
  intros Hm Hw. destruct (Hm st1 x _ Hw) as (st' & r & Hrun & Hr). exists st', r. split; [done|].
  rewrite length_app. destruct r as [n|e].
  - destruct Hr as [-> Hw']. split; [lia|]. unfold puts in *. by rewrite foldl_app.
  - destruct Hr as (i & Hi & Hl). exists (length rows + i)%nat. split; [lia|].
    rewrite take_app_add. unfold puts in *. by rewrite foldl_app.
Qed.

(** A piece that failed before its first row. *)
Lemma writes_failed names rows x w db : left_with c x w db ->
  exists i, (i <= length rows)%nat /\ left_with c x (puts names (take i rows) w) db.
Proof. intros Hl. exists 0%nat. split; [lia|done]. Qed.

Lemma per_row_writes k rows : sink_of k -> Forall (fits (sk_column_names k)) rows ->
  forall written, writes (sk_column_names k) rows written (write_rows_per_row k written rows).
Proof.
  intros (Hc & Hs & Ht). induction 1 as [|row rows Hrow _ IH]; intros written st x w Hw; simpl.
  - exists st, (Ok written). split_and!; [done|f_equal; lia|done].
  - unfold on_db. sm_unfold. rewrite Hc. pose proof (insert_law k row (ts_db st) x w Hc Hs Ht Hrow Hw) as Hlaw.
    destruct (insert_row c (insert_of k row) (ts_db st)) as [db' [[]|e]]; simpl.
    + apply (writes_rest _ [row] rows written); [apply IH|exact Hlaw].
    + do 2 eexists. split; [reflexivity|]. by apply (writes_failed _ (row :: rows)).
Qed.

Lemma batches_write k generator batches : sink_of k -> query_generator c = Some generator ->
  Forall (fits (sk_column_names k)) (concat batches) ->
  forall written, writes (sk_column_names k) (concat batches) written (write_batches k generator written batches).
Proof.
  intros Hk Hgen. pose proof Hk as (Hc & Hs & Ht).
  induction batches as [|batch batches IH]; intros Hfit written st x w Hw; simpl in Hfit |- *.
  { exists st, (Ok written). split_and!; [done|f_equal; lia|done]. }
  apply Forall_app in Hfit as [Hb Hfit]. rewrite Hs, Ht.
  destruct (generate_bulk_insert generator schema table (sk_column_names k) (sk_column_types k) batch)
    as [[sql|]|e] eqn:Hsql.
  - unfold exec_sink, exec, on_db. sm_unfold. rewrite Hc.
    pose proof (bulk_law generator _ _ _ _ (ts_db st) x w Hgen Hsql Hb Hw) as Hlaw.
    destruct (execute c sql (ts_db st)) as [db' [page|e]]; simpl.
    + apply writes_rest; [by apply IH|exact Hlaw].
    + do 2 eexists. split; [reflexivity|]. by apply writes_failed.
  - unfold mbind, sm_mbind, sm_bind.
    destruct (per_row_writes k batch Hk Hb 0 st x w Hw) as (st1 & r & -> & Hr). destruct r as [n|e].
    + destruct Hr as [-> Hw1]. apply writes_rest; [by apply IH|exact Hw1].
    + destruct Hr as (i & Hi & Hl). do 2 eexists. split; [reflexivity|]. exists i.
      rewrite length_app, take_app_le by lia. split; [lia|done].
  - do 2 eexists. split; [reflexivity|]. by apply writes_failed, holding_left.
Qed.

Lemma write_rows_writes k chunk : sink_of k -> Forall (fits (sk_column_names k)) chunk ->
  writes (sk_column_names k) chunk 0 (write_rows k chunk).
Proof.
  intros Hk Hfit. unfold write_rows. destruct Hk as (Hc & Hs & Ht). rewrite Hc.
  destruct (supports c BULK_INSERT); [|by apply per_row_writes].
  destruct (query_generator c) as [generator|] eqn:Hgen; [|by apply per_row_writes].
  unfold write_rows_bulk. rewrite Hc.
  assert (Hcat : concat (chunks (length chunk) (batch_size c chunk) chunk) = chunk).
  { apply batches_concat; [unfold batch_size; lia|done]. }
  rewrite <- Hcat at 1. by apply batches_write; rewrite ?Hcat.
Qed.

(** A sink after [n] rows, with its transaction open where there is one. *)
Record loading (names : list (list char)) (n : nat) (k : TableSink) : Prop := {
  l_of : sink_of k;
  l_names : sk_column_names k = names;
  l_skipped : sk_skipped k = false;
  l_written : sk_rows_written k = N.of_nat n;
  l_vocab : sk_transaction_vocab k = target_vocab c;
}.

(** A sink that knows of the transaction it has to close, if there is one. *)
Definition closing (k : TableSink) (db : Db) : Prop :=
  sink_of k /\
  match sk_transaction_vocab k with
  | Some v => target_vocab c = Some v
  | None => ends_transactions c -> working db = None
  end.

Lemma loading_closing names n k x w db : loading names n k -> left_with c x w db -> closing k db.
Proof.
  intros [Hk _ _ _ Hv] Hl. split; [done|]. rewrite Hv. unfold left_with in Hl.
  destruct (target_vocab c); [done|by intros _; destruct Hl].
Qed.

Lemma rollback_open_spec {E} k st : closing k (ts_db st) ->
  exists st', rollback_open (E := E) (st, k) = ((st', set_vocab None k), Ok tt) /\
    committed (ts_db st') = committed (ts_db st) /\
    (ends_transactions c -> working (ts_db st') = None) /\
    (sk_transaction_vocab k = None -> st' = st) /\
    (forall x w, left_with c x w (ts_db st) -> left_with c x w (ts_db st')).
Proof.
  intros [(Hc & _) Hv]. unfold rollback_open. simpl. destruct (sk_transaction_vocab k) as [v|] eqn:Hk.
  - unfold exec, on_db. sm_unfold. rewrite Hc.
    pose proof (rollback_law v (ts_db st) Hv) as Hlaw.
    assert (Hend : ends_transactions c -> working (execute c (text (TxControl.rollback v)) (ts_db st)).1 = None)
      by (intros He; by apply He).
    destruct (execute c (text (TxControl.rollback v)) (ts_db st)) as [db' r]. simpl in *.
    eexists. split_and!; [reflexivity|done|done|done|]. intros x w. unfold left_with. rewrite Hv. simpl. congruence.
  - exists st. split_and!; try done. destruct k; simpl in *. by subst.
Qed.

Lemma write_chunk_spec names n k st x w chunk :
  loading names n k -> holding c x w (ts_db st) -> Forall (fits names) chunk ->
  exists st' k' r, table_write_chunk chunk (st, k) = ((st', k'), r) /\
    match r with
    | Ok m => m = N.of_nat (length chunk) /\ loading names (n + length chunk) k' /\
              holding c x (puts names chunk w) (ts_db st')
    | Err _ => closing k' (ts_db st') /\
               exists i, (i <= length chunk)%nat /\ left_with c x (puts names (take i chunk) w) (ts_db st')
    end.
Proof.
  intros Hl Hw Hfit. pose proof Hl as [Hk Hn Hs Hwr Hv]. unfold table_write_chunk. simpl. rewrite Hs.
  rewrite <- Hn in Hfit |- *.
  destruct (write_rows_writes k chunk Hk Hfit st x w Hw) as (st1 & r & Hrun & Hr). rewrite Hrun.
  destruct r as [m|e].
  - destruct Hr as [-> Hw']. do 3 eexists. split; [reflexivity|]. split_and!; [done| |done].
    split; simpl; [exact Hk|done|done|lia|done].
  - destruct Hr as (i & Hi & Hleft).
    destruct (rollback_open_spec (E := TransferError) k st1) as (st2 & Hroll & Hcom' & Hend & _ & Hkeep).
    { by eapply loading_closing. }
    rewrite Hroll. simpl. do 3 eexists. split; [reflexivity|]. split; [split; [exact Hk|done]|eauto].
Qed.

Lemma finish_spec names n k st x w :
  loading names n k -> holding c x w (ts_db st) ->
  exists st' k' r, table_finish (st, k) = ((st', k'), r) /\
    sk_transaction_vocab k' = None /\ closing k' (ts_db st') /\
    match r with
    | Ok report => committed (ts_db st') = w /\ working (ts_db st') = None /\
                   rows_transferred report = N.of_nat n /\ outcome report = TransferOutcome.Completed
    | Err _ => left_with c x w (ts_db st')
    end.
Proof.
  intros [Hk Hn Hs Hwr Hv] Hw. unfold table_finish, closing, left_with. sm_unfold. simpl. rewrite Hv.
  unfold holding in Hw. destruct (target_vocab c) as [v|] eqn:Hvoc; simpl.
  2: { destruct Hw. do 3 eexists. split; [reflexivity|]. simpl. rewrite Hv. by split_and!. }
  destruct Hw as [Hx Hw]. unfold outside, exec, on_db. sm_unfold. simpl. pose proof Hk as (Hc & _). rewrite Hc.
  pose proof (commit_law v (ts_db st) w Hvoc Hw) as Hlaw.
  assert (Hend : ends_transactions c -> working (execute c (text (TxControl.commit v)) (ts_db st)).1 = None)
    by (intros He; by apply He).
  destruct (execute c (text (TxControl.commit v)) (ts_db st)) as [db' [page|e]]; simpl in *.
  - do 3 eexists. split; [reflexivity|]. destruct Hlaw. by split_and!.
  - do 3 eexists. split; [reflexivity|]. split_and!; [done|done|done|simpl; congruence].
Qed.

(** ** Defining the table *)

Definition ddls (sqls : list (list char)) (x : Content) : Content := foldl (fun x sql => ddl sql x) x sqls.

(** The statements that prepare the target of a sink. *)
Definition create_ddl (k : TableSink) (columns : list TransferColumn) : list (list char) :=
  match query_generator (sk_connection k) with
  | Some generator =>
      match generate_create_table generator (create_spec k columns) with
      | Ok (Some sql) => [sql]
      | _ => []
      end
  | None => []
  end.
Definition ddl_list (k : TableSink) (columns : list TransferColumn) (mode : TableMappingMode)
  : list (list char) :=
  match mode with
  | Existing | Skip => []
  | Create => create_ddl k columns
  | Recreate => drop_sql k :: create_ddl k columns
  | Truncate => [truncate_sql k]
  end.

(** The computation runs the statements, or the first of them up to a failure. *)
Definition defines (sqls : list (list char)) (m : SM TransferState TransferError unit) : Prop :=
  forall st, working (ts_db st) = None -> exists st' r, m st = (st', r) /\ working (ts_db st') = None /\
    match r with
    | Ok _ => committed (ts_db st') = ddls sqls (committed (ts_db st))
    | Err _ => exists i, committed (ts_db st') = ddls (take i sqls) (committed (ts_db st))
    end.

Lemma defines_nothing : defines [] (mret tt).
Proof. intros st Hw. by exists st, (Ok tt). Qed.

Lemma defines_error sqls e : defines sqls (sm_err e).
Proof. intros st Hw. exists st, (Err e). split_and!; [done|done|]. by exists 0%nat. Qed.

Lemma defines_seq l l' m m' : defines l m -> defines l' m' -> defines (l ++ l') (m ≫= fun _ => m').
Proof.
  intros Hm Hm' st Hw. destruct (Hm st Hw) as (st1 & r & Hrun & Hw1 & Hr).
  unfold mbind, sm_mbind, sm_bind. rewrite Hrun. destruct r as [u|e].
  - destruct (Hm' st1 Hw1) as (st2 & r & Hrun' & Hw2 & Hr'). exists st2, r. split_and!; [done|done|].
    unfold ddls in *. destruct r as [u'|e].
    + by rewrite foldl_app, <- Hr.
    + destruct Hr' as [i Hi]. exists (length l + i)%nat. by rewrite take_app_add, foldl_app, <- Hr.
  - destruct Hr as [i Hi]. exists st1, (Err e). split_and!; [done|done|]. exists (Nat.min i (length l)).
    by rewrite take_app_le, <- take_take, (take_ge l) by lia.
Qed.

Lemma exec_defines k sql : sink_of k ->
  (sql = drop_sql k \/ sql = truncate_sql k \/
   exists generator columns, query_generator c = Some generator /\
     generate_create_table generator (create_spec k columns) = Ok (Some sql)) ->
  defines [sql] (exec_sink c sql).
Proof.
  intros (Hc & Hs & Ht) Hsql st Hw. unfold exec_sink, exec, on_db. sm_unfold.
  pose proof (ddl_law k sql (ts_db st) Hc Hs Ht Hsql Hw) as Hlaw.
  destruct (execute c sql (ts_db st)) as [db' [page|e]]; destruct Hlaw as [Hcom Hwork];
    do 2 eexists; (split; [reflexivity|]); split; [done|done|done|]. by exists 0%nat.
Qed.

Lemma create_defines k columns : sink_of k -> defines (create_ddl k columns) (create_table k columns).
Proof.
  intros Hk. pose proof Hk as (Hc & _). unfold create_ddl, create_table. rewrite Hc.
  destruct (query_generator c) as [generator|] eqn:Hgen; [|apply defines_error].
  destruct (generate_create_table generator (create_spec k columns)) as [[sql|]|e] eqn:Hsql;
    try apply defines_error.
  apply (exec_defines k); [done|]. right. right. by exists generator, columns.
Qed.

Lemma drop_defines k : sink_of k -> defines [drop_sql k] (drop_table_if_exists k).
Proof. intros Hk. unfold drop_table_if_exists. rewrite (proj1 Hk). apply (exec_defines k); auto. Qed.

Lemma truncate_defines k : sink_of k -> defines [truncate_sql k] (truncate_table k).
Proof.
  intros Hk. unfold truncate_table. rewrite (proj1 Hk).
  destruct (supports c TRUNCATE_TABLE); [|apply defines_error]. apply (exec_defines k); auto.
Qed.

Lemma begin_transaction_spec k st :
  sink_of k -> sk_skipped k = false -> sk_rows_written k = 0%N -> sk_transaction_vocab k = None ->
  working (ts_db st) = None ->
  exists st' k' r, begin_transaction_if_supported (st, k) = ((st', k'), r) /\
    match r with
    | Ok _ => loading (sk_column_names k) 0 k' /\ holding c (committed (ts_db st)) (committed (ts_db st)) (ts_db st')
    | Err _ => closing k' (ts_db st') /\ committed (ts_db st') = committed (ts_db st)
    end.
Proof.
  intros Hk Hs Hr Hn Hw. pose proof Hk as (Hc & _). unfold begin_transaction_if_supported, holding. sm_unfold.
  simpl. rewrite Hc. destruct (target_vocab c) as [v|] eqn:Hv.
  - pose proof Hv as Hv'. unfold target_vocab in Hv'. destruct (supports c TRANSACTIONS); [|done]. simpl. rewrite Hv'.
    unfold outside, exec, on_db. sm_unfold. simpl. pose proof (begin_law v (ts_db st) Hv Hw) as Hbegin.
    destruct (execute c (text (TxControl.begin v)) (ts_db st)) as [db' [page|e]]; simpl in *;
      do 3 eexists; (split; [reflexivity|]); destruct Hbegin as [Hcom Hwork]; (split; [|done]).
    + by split; simpl.
    + split; [exact Hk|]. simpl. by rewrite Hn.
  - exists st, k, (Ok tt). split; [|split; [split; (congruence || done)|done]].
    unfold target_vocab in Hv. destruct (supports c TRANSACTIONS); [|done]. simpl. by rewrite Hv.
Qed.

(** A sink before its table is prepared. *)
Definition fresh (k : TableSink) : Prop :=
  sink_of k /\ sk_skipped k = false /\ sk_rows_written k = 0%N /\ sk_transaction_vocab k = None.

Lemma prepared_begin k st columns sqls m :
  fresh k -> sk_column_names k = map tc_name columns -> working (ts_db st) = None -> defines sqls m ->
  exists st' k' r, (outside m ≫= fun _ => begin_transaction_if_supported) (st, k) = ((st', k'), r) /\
    match r with
    | Ok _ => loading (map tc_name columns) 0 k' /\
              holding c (ddls sqls (committed (ts_db st))) (ddls sqls (committed (ts_db st))) (ts_db st')
    | Err _ => closing k' (ts_db st') /\ exists i, committed (ts_db st') = ddls (take i sqls) (committed (ts_db st))
    end.
Proof.
  intros (Hk & Hs & Hr0 & Hn) Hnames Hw Hm. destruct (Hm st Hw) as (st1 & r & Hrun & Hw1 & Hr).
  unfold mbind, sm_mbind, sm_bind, outside, sm_zoom. simpl. rewrite Hrun. simpl. destruct r as [u|e].
  - destruct (begin_transaction_spec k st1 Hk Hs Hr0 Hn Hw1) as (st2 & k2 & r & Hb & Hb').
    rewrite Hb. exists st2, k2, r. split; [done|]. rewrite Hr in Hb'. destruct r as [u'|e].
    + by rewrite Hnames in Hb'.
    + destruct Hb' as [Hcl Hcom]. split; [done|]. exists (length sqls). by rewrite take_ge.
  - exists st1, k, (Err e). split; [done|]. split; [|done]. split; [done|by rewrite Hn].
Qed.

Lemma table_begin_spec k st columns mode :
  fresh k -> working (ts_db st) = None -> mode <> Skip ->
  exists st' k' r, table_begin columns mode (st, k) = ((st', k'), r) /\
    match r with
    | Ok _ => loading (map tc_name columns) 0 k' /\
        holding c (ddls (ddl_list k columns mode) (committed (ts_db st)))
          (ddls (ddl_list k columns mode) (committed (ts_db st))) (ts_db st')
    | Err _ => closing k' (ts_db st') /\ exists i, committed (ts_db st') = ddls (take i (ddl_list k columns mode)) (committed (ts_db st))
    end.
Proof.
  intros Hf Hw Hmode. set (k1 := set_columns columns k).
  assert (Hf1 : fresh k1) by exact Hf. pose proof (proj1 Hf1) as Hk1.
  assert (Hgo : forall sqls m, defines sqls m -> sqls = ddl_list k columns mode ->
    table_begin columns mode (st, k) = (outside m ≫= fun _ => begin_transaction_if_supported) (st, k1) ->
    exists st' k' r, table_begin columns mode (st, k) = ((st', k'), r) /\
      match r with
      | Ok _ => loading (map tc_name columns) 0 k' /\
          holding c (ddls (ddl_list k columns mode) (committed (ts_db st)))
            (ddls (ddl_list k columns mode) (committed (ts_db st))) (ts_db st')
      | Err _ => closing k' (ts_db st') /\ exists i, committed (ts_db st') = ddls (take i (ddl_list k columns mode)) (committed (ts_db st))
      end).
  { intros sqls m Hm <- ->. by apply prepared_begin. }
  destruct mode; try done.
  - apply (Hgo _ _ (create_defines k1 columns Hk1)); done.
  - apply (Hgo _ _ defines_nothing); [done|]. by destruct (begin_transaction_if_supported (st, k1)).
  - apply (Hgo _ _ (defines_seq _ _ _ _ (drop_defines k1 Hk1) (create_defines k1 columns Hk1))); [done|].
    unfold table_begin, outside. sm_unfold. simpl. fold k1.
    destruct (drop_table_if_exists k1 st) as [st1 [[]|e]]; simpl; [|done].
    by destruct (create_table k1 columns st1) as [st2 [[]|e]].
  - apply (Hgo _ _ (truncate_defines k1 Hk1)); done.
Qed.

End Writing.

(** ** The pipeline of a table *)

(** One step of the pipeline. *)
Section Steps.
Context {Src K : Type} {A B : Type} (f : A -> TM (Objects (Src := Src) (K := K)) B).

Lemma on_state_step (m : SM TransferState TransferError A) st o st' r :
  m st = (st', r) ->
  (on_state m ≫= f) (st, o) = match r with Ok x => f x (st', o) | Err e => Some ((st', o), Err e) end.
Proof. intros Hm. unfold mbind, tm_mbind, tm_bind, on_state, run, outside, sm_zoom. simpl. by rewrite Hm. Qed.

Lemma on_source_step (m : SM (TransferState * Src) TransferError A) st s k st' s' r :
  m (st, s) = ((st', s'), r) ->
  (on_source m ≫= f) (st, (s, k)) =
  match r with Ok x => f x (st', (s', k)) | Err e => Some ((st', (s', k)), Err e) end.
Proof. intros Hm. unfold mbind, tm_mbind, tm_bind, on_source, run, sm_zoom. simpl. by rewrite Hm. Qed.

Lemma on_sink_step (m : SM (TransferState * K) TransferError A) st s k st' k' r :
  m (st, k) = ((st', k'), r) ->
  (on_sink m ≫= f) (st, (s, k)) =
  match r with Ok x => f x (st', (s, k')) | Err e => Some ((st', (s, k')), Err e) end.
Proof. intros Hm. unfold mbind, tm_mbind, tm_bind, on_sink, run, sm_zoom. simpl. by rewrite Hm. Qed.

End Steps.

Section Table.
Context (sc tc : Conn) (table : TableRef) (columns : list TransferColumn) (seg : N).
Context (rows : list Row) `{!SourceLaws sc table columns seg rows}.
Context (schema : option (list char)) (target : list char) `{!TargetLaws tc schema target}.
Context (cancel : option nat) (index : nat) (m : AutoColumnMap).
Hypothesis map_fits : length (target_from_source m) = length (am_target_columns m).

#[local] Abbreviation names := (map tc_name (am_target_columns m)).
#[local] Abbreviation gave := (gave sc table columns seg rows).
#[local] Abbreviation loading := (loading tc schema target names).
#[local] Abbreviation closing := (closing tc schema target).

(** The content with the first [n] rows of the source in the target. *)
Definition with_rows (n : nat) (x : Content) : Content :=
  puts schema target names (map (project m) (take n rows)) x.

Lemma projected_fit l : Forall (fits names) (map (project m) l).
Proof.
  apply Forall_forall. intros row (r & -> & _)%list_elem_of_fmap. unfold fits. simpl.
  unfold auto_project. by rewrite !length_map.
Qed.

Lemma with_rows_more p page i x :
  page = take (N.to_nat seg) (drop p rows) -> (i <= length page)%nat ->
  puts schema target names (take i (map (project m) page)) (with_rows p x) = with_rows (p + i) x.
Proof.
  intros -> Hi. unfold with_rows, puts. rewrite <- foldl_app, firstn_map, <- map_app.
  rewrite length_take, length_drop in Hi. rewrite take_take, Nat.min_l by lia. f_equal. f_equal.
  apply take_take_drop.
Qed.

Lemma loop_spec : forall rounds p st s k total done x0 x,
  (length rows - p < rounds)%nat -> gave p s -> loading p k -> holding tc x0 (with_rows p x) (ts_db st) ->
  exists st' s' k' r,
    transfer_loop cancel index m rounds total done (st, (s, k)) = Some ((st', (s', k')), r) /\
    exists n, (n <= length rows)%nat /\
    match r with
    | Ok ending => loading n k' /\ holding tc x0 (with_rows n x) (ts_db st') /\
        (cancel = None -> n = length rows /\ ending = TransferOutcome.Completed)
    | Err _ => closing k' (ts_db st') /\ left_with tc x0 (with_rows n x) (ts_db st')
    end.
Proof.
  induction rounds as [|rounds IH]; intros p st s k total done x0 x Hr Hg Hl Hw; [lia|].
  cbn [transfer_loop]. pose proof (g_bound _ _ _ _ _ _ _ Hg) as Hbound.
  erewrite on_state_step by reflexivity. cbv beta iota.
  destruct (cancelled_at cancel (ts_reads st)) eqn:Hc.
  { do 4 eexists. split; [reflexivity|]. exists p. split_and!; [done|done|done|]. intros ->. done. }
  destruct (next_chunk_spec sc table columns seg rows cancel p s
    (mkState (ts_db st) (S (ts_reads st)) (ts_progress st)) Hg) as (st1 & s1 & r1 & Hn & Hun & Hr1).
  apply (holding_unchanged tc _ _ _ _ Hun) in Hw.
  erewrite on_source_step by exact Hn. destruct r1 as [[page|]|e].
  - destruct Hr1 as (Hne & Hpage & Hg1). pose proof (g_bound _ _ _ _ _ _ _ Hg1) as Hbound1.
    destruct (write_chunk_spec tc schema target names p k st1 x0 (with_rows p x) (map (project m) page))
      as (st2 & k2 & r2 & Hwr & Hr2); [done|exact Hw|apply projected_fit|].
    rewrite length_map in Hr2. erewrite on_sink_step by exact Hwr. destruct r2 as [written|e].
    + destruct Hr2 as (-> & Hl2 & Hw2). erewrite on_state_step by reflexivity. cbv beta iota.
      rewrite <- (firstn_all (map (project m) page)), length_map, (with_rows_more p page) in Hw2 by done.
      match goal with |- context [transfer_loop _ _ _ _ total ?d (?st, _)] =>
        apply (IH (p + length page)%nat st s1 k2 total d x0 x); [|exact Hg1|exact Hl2|exact Hw2] end.
      assert (length page <> 0%nat) by (by destruct page). lia.
    + destruct Hr2 as (Hcl & i & Hi & Hleft). rewrite (with_rows_more p page) in Hleft by done.
      do 4 eexists. split; [reflexivity|]. exists (p + i)%nat. split; [lia|done].
  - do 4 eexists. split; [reflexivity|]. exists p. split_and!; [done|done|done|]. intros Hnone. split; [auto|done].
  - do 4 eexists. split; [reflexivity|]. exists p. apply holding_left in Hw. split_and!; [done| |done].
    by eapply loading_closing.
Qed.

(** A sink that writes nothing. *)
Definition skipping (k : TableSink) : Prop := sk_skipped k = true /\ sk_transaction_vocab k = None.

Lemma skip_loop : forall rounds p st s k total done,
  (length rows - p < rounds)%nat -> gave p s -> skipping k ->
  exists st' s' r,
    transfer_loop cancel index m rounds total done (st, (s, k)) = Some ((st', (s', k)), r) /\
    unchanged (ts_db st) (ts_db st') /\
    match r with
    | Ok ending => cancel = None -> ending = TransferOutcome.Completed
    | Err _ => True
    end.
Proof.
  induction rounds as [|rounds IH]; intros p st s k total done Hr Hg Hk; [lia|]. cbn [transfer_loop].
  erewrite on_state_step by reflexivity. cbv beta iota.
  destruct (cancelled_at cancel (ts_reads st)) eqn:Hc.
  { do 3 eexists. split; [reflexivity|]. split; [done|]. by intros ->. }
  destruct (next_chunk_spec sc table columns seg rows cancel p s
    (mkState (ts_db st) (S (ts_reads st)) (ts_progress st)) Hg) as (st1 & s1 & r1 & Hn & Hun & Hr1).
  erewrite on_source_step by exact Hn. destruct r1 as [[page|]|e]; [|by do 3 eexists|by do 3 eexists].
  destruct Hr1 as (Hne & Hpage & Hg1).
  assert (Hwr : table_write_chunk (map (project m) page) (st1, k) = ((st1, k), Ok 0%N)).
  { unfold table_write_chunk. simpl. by rewrite (proj1 Hk). }
  erewrite on_sink_step by exact Hwr. cbv beta iota. erewrite on_state_step by reflexivity. cbv beta iota.
  match goal with |- context [transfer_loop _ _ _ _ total ?d (?st, _)] =>
    destruct (IH (p + length page)%nat st s1 k total d) as (st' & s' & r & Hrun & Hun' & Hr') end;
    [|exact Hg1|exact Hk|].
  - assert (length page <> 0%nat) by (by destruct page). pose proof (g_bound _ _ _ _ _ _ _ Hg1). lia.
  - do 3 eexists. split; [exact Hrun|]. split; [|done]. destruct Hun, Hun'. split; simpl in *; congruence.
Qed.

End Table.

(** ** A table of a migration *)

Lemma override_length source target overrides : forall from_source,
  length (foldl (apply_override source target) from_source overrides) = length from_source.
Proof.
  induction overrides as [|o overrides IH]; intros from_source; [done|]. simpl. rewrite IH.
  unfold apply_override. destruct (position (target_column o) target); [|done]. apply length_insert.
Qed.

Lemma plan_map_fits plan columns :
  am_target_columns (plan_map plan columns) = columns /\
  length (target_from_source (plan_map plan columns)) = length columns.
Proof.
  unfold plan_map. destruct (mp_column_overrides plan) as [overrides|]; simpl; split; try done.
  - rewrite override_length. unfold auto_map. by rewrite length_map.
  - unfold auto_map. by rewrite length_map.
Qed.

Section Migration.
Context `{!FloatCount}.
Context (sc tc : Conn) (options : MigrationOptions) (cancel : option nat) (rounds : nat).
Context (rows_of : MigrationTablePlan -> list Row).

(** What the two servers promise of the tables of a plan. *)
Definition source_laws (plan : MigrationTablePlan) : Prop :=
  SourceLaws sc (mp_source_table plan) (mp_source_columns plan) (N.max (mo_segment_size options) 1)
    (rows_of plan).
Definition plan_laws (plan : MigrationTablePlan) : Prop :=
  source_laws plan /\ TargetLaws tc (mp_target_schema plan) (mp_target_table plan).

#[local] Abbreviation gave_plan plan :=
  (gave sc (mp_source_table plan) (mp_source_columns plan) (N.max (mo_segment_size options) 1) (rows_of plan)).

(** The statements that prepare the target of a plan. *)
Definition plan_ddl (plan : MigrationTablePlan) (columns : list TransferColumn) : list (list char) :=
  ddl_list (plan_sink tc plan) columns (mp_mapping_mode plan).

(** The target prepared, and the first [n] rows of the source in it, projected. *)
Definition loaded (plan : MigrationTablePlan) (columns : list TransferColumn) (n : nat) (x : Content)
  : Content :=
  with_rows (rows_of plan) (mp_target_schema plan) (mp_target_table plan) (plan_map plan columns) n
    (ddls (plan_ddl plan columns) x).

(** What a table that failed leaves: the first of the statements that prepare the
    target, or, where there are no transactions, all of them and the first rows. *)
Definition failed (plan : MigrationTablePlan) (columns : list TransferColumn) (x y : Content) : Prop :=
  (exists i, y = ddls (take i (plan_ddl plan columns)) x) \/
  target_vocab tc = None /\ exists n, (n <= length (rows_of plan))%nat /\ y = loaded plan columns n x.

Lemma left_failed plan columns x n db :
  (n <= length (rows_of plan))%nat ->
  left_with tc (ddls (plan_ddl plan columns) x) (loaded plan columns n x) db ->
  failed plan columns x (committed db).
Proof.
  intros Hn. unfold left_with, failed. destruct (target_vocab tc).
  - intros ->. left. exists (length (plan_ddl plan columns)). by rewrite take_ge.
  - intros [-> _]. right. eauto.
Qed.

Lemma plan_source_spec plan st : source_laws plan ->
  exists st' s, plan_source sc options plan st = (st', Ok s) /\
    unchanged (ts_db st) (ts_db st') /\ gave_plan plan 0 s.
Proof.
  intros Hsrc. red in Hsrc. unfold plan_source, source_new.
  assert (Htotal : exists st' total,
    match mp_estimated_total plan with
    | Some n => mret (Some n)
    | None => count_rows sc (tr_schema (mp_source_table plan)) (tr_name (mp_source_table plan))
    end st = (st', Ok total) /\ unchanged (ts_db st) (ts_db st')).
  { destruct (mp_estimated_total plan) as [n|]; [by exists st, (Some n)|].
    unfold count_rows, exec, on_db. sm_unfold.
    pose proof (count_law (ts_db st) _ eq_refl) as Hun.
    destruct (execute sc _ (ts_db st)) as [db' [page|e]]; do 2 eexists; (split; [reflexivity|]); exact Hun. }
  destruct Htotal as (st' & total & Ht & Hun). unfold mbind, sm_mbind, sm_bind. rewrite Ht.
  do 2 eexists. split; [reflexivity|]. split; [done|].
  split; simpl; [by split_and!|lia|done|done|done].
Qed.

Lemma pipe_spec index plan columns s st :
  plan_laws plan -> (length (rows_of plan) < rounds)%nat -> gave_plan plan 0 s ->
  working (ts_db st) = None -> mp_mapping_mode plan <> Skip ->
  exists st' r, pipe tc cancel rounds index plan s (plan_map plan columns) st = Some (st', r) /\
    match r with
    | Ok report => exists n, (n <= length (rows_of plan))%nat /\ rows_transferred report = N.of_nat n /\
        committed (ts_db st') = loaded plan columns n (committed (ts_db st)) /\ working (ts_db st') = None /\
        (cancel = None -> n = length (rows_of plan) /\ outcome report = TransferOutcome.Completed)
    | Err _ => (ends_transactions tc -> working (ts_db st') = None) /\
        failed plan columns (committed (ts_db st)) (committed (ts_db st'))
    end.
Proof.
  intros [Hsrc Htgt] Hrounds Hg Hw Hmode. red in Hsrc. unfold pipe, run_transfer.
  destruct (plan_map_fits plan columns) as [Hcols Hfit].
  destruct (table_begin_spec tc (mp_target_schema plan) (mp_target_table plan) (plan_sink tc plan) st
    columns (mp_mapping_mode plan)) as (st1 & k1 & r1 & Hb & Hr1); [by split_and!|done|done|].
  erewrite on_sink_step by (simpl; rewrite Hcols; exact Hb). destruct r1 as [u|e]; cbv beta iota.
  2: { destruct Hr1 as [Hcl [i Hi]].
       destruct (rollback_open_spec (E := TransferError) _ _ _ _ st1 Hcl) as (st2 & -> & Hc2 & Hend & _).
       do 2 eexists. split; [reflexivity|]. split; [done|]. left. exists i. simpl. by rewrite Hc2. }
  destruct Hr1 as [Hl1 Hh1]. erewrite on_source_step by reflexivity. cbv beta iota.
  destruct (loop_spec sc tc _ _ _ _ _ _ cancel index (plan_map plan columns) ltac:(by rewrite Hcols)
    rounds 0 st1 s k1 (so_estimated_total s) 0 (ddls (plan_ddl plan columns) (committed (ts_db st)))
    (ddls (plan_ddl plan columns) (committed (ts_db st))))
    as (st2 & s2 & k2 & r2 & Hloop & n & Hn & Hr2); [lia|done|by rewrite Hcols|exact Hh1|].
  unfold mbind at 1, tm_mbind at 1, tm_bind at 1. simpl estimated_total. rewrite Hloop.
  destruct r2 as [ending|e].
  2: { destruct Hr2 as [Hcl Hleft].
       destruct (rollback_open_spec (E := TransferError) _ _ _ _ st2 Hcl) as (st3 & -> & _ & Hend & _ & Hkeep).
       do 2 eexists. split; [reflexivity|]. split; [done|]. eapply left_failed; [exact Hn|]. by apply Hkeep. }
  destruct Hr2 as (Hl2 & Hh2 & Hdone).
  destruct (finish_spec _ _ _ _ _ k2 st2 _ _ Hl2 Hh2) as (st3 & k3 & r3 & Hfin & Hv3 & Hcl3 & Hr3).
  erewrite on_sink_step by exact Hfin.
  destruct (rollback_open_spec (E := TransferError) _ _ _ k3 st3 Hcl3) as (st4 & Hroll & _ & Hend & Heq & _).
  specialize (Heq Hv3) as ->. destruct r3 as [report|e]; cbv beta iota; unfold mret, tm_mret; rewrite Hroll;
    do 2 eexists; (split; [reflexivity|]); simpl.
  - destruct Hr3 as (Hc3 & Hw3 & Hrows & Hout). exists n. split_and!; [done|done|done|done|].
    intros Hnone. destruct (Hdone Hnone) as [-> ->]. by rewrite Hout.
  - split; [done|]. by eapply left_failed.
Qed.

Lemma finish_closed k st : sk_transaction_vocab k = None ->
  table_finish (st, k) =
  ((st, take_warnings k), Ok (mkReport (sk_rows_written k) TransferOutcome.Completed (sk_warnings k))).
Proof. intros Hv. unfold table_finish. sm_unfold. simpl. by rewrite Hv. Qed.

Lemma skip_spec index plan columns s st :
  source_laws plan -> (length (rows_of plan) < rounds)%nat -> gave_plan plan 0 s ->
  mp_mapping_mode plan = Skip ->
  exists st' r, pipe tc cancel rounds index plan s (plan_map plan columns) st = Some (st', r) /\
    unchanged (ts_db st) (ts_db st') /\
    match r with
    | Ok report => cancel = None -> outcome report = TransferOutcome.Completed
    | Err _ => True
    end.
Proof.
  intros Hsrc Hrounds Hg Hmode. red in Hsrc. unfold pipe, run_transfer. rewrite Hmode.
  destruct (plan_map_fits plan columns) as [Hcols Hfit].
  assert (Hb : exists w, table_begin (target_columns (plan_map plan columns)) Skip (st, plan_sink tc plan) =
    ((st, set_skipped w (set_columns (target_columns (plan_map plan columns)) (plan_sink tc plan))), Ok tt))
    by (by exists (text "table '" ++ sink_qualified_name (plan_sink tc plan) ++ text "' skipped (mapping mode Skip)")).
  destruct Hb as [w Hb]. erewrite on_sink_step by exact Hb. cbv beta iota.
  erewrite on_source_step by reflexivity. cbv beta iota.
  unfold mbind at 1, tm_mbind at 1, tm_bind at 1.
  match goal with |- context [transfer_loop _ _ _ _ ?t ?d (?st, (_, ?k))] =>
    destruct (skip_loop sc (mp_source_table plan) (mp_source_columns plan) (N.max (mo_segment_size options) 1)
      (rows_of plan) cancel index (plan_map plan columns) ltac:(by rewrite Hcols) rounds 0 st s k t d)
      as (st2 & s2 & r2 & Hloop & Hun & Hr2) end; [lia|done|done|].
  rewrite Hloop. destruct r2 as [ending|e].
  - erewrite on_sink_step by (by apply finish_closed). cbv beta iota.
    do 2 eexists. split; [reflexivity|]. split; [exact Hun|]. intros Hnone. simpl. by rewrite (Hr2 Hnone).
  - do 2 eexists. split; [reflexivity|]. by split.
Qed.

(** The columns that a table is written with, as the databases are before it. *)
Definition resolves (plan : MigrationTablePlan) (columns : list TransferColumn) (x : Content) : Prop :=
  exists db, committed db = x /\ resolve_target_columns tc options plan db = Ok columns.

(** What a status says of the committed content before and after its table.  Rows
    are those of the source in their order, projected; without a cancellation a
    completed table has all of them. *)
Definition accounts (plan : MigrationTablePlan) (status : TableTransferStatus.t) (x y : Content) : Prop :=
  match status with
  | TableTransferStatus.Completed rows | TableTransferStatus.Cancelled rows =>
      exists columns n, resolves plan columns x /\
        (n <= length (rows_of plan))%nat /\ rows = N.of_nat n /\ y = loaded plan columns n x /\
        (cancel = None -> n = length (rows_of plan))
  | TableTransferStatus.Failed _ => y = x \/ exists columns, resolves plan columns x /\ failed plan columns x y
  | TableTransferStatus.Skipped | TableTransferStatus.NotStarted => y = x
  end.

Lemma one_table_spec index plan st :
  plan_laws plan -> (length (rows_of plan) < rounds)%nat -> working (ts_db st) = None ->
  exists st' r, migrate_one_table sc tc options cancel rounds index plan st = Some (st', r) /\
    match r with
    | Ok report => working (ts_db st') = None /\
        accounts plan (status_of plan report) (committed (ts_db st)) (committed (ts_db st')) /\
        (cancel = None -> outcome report = TransferOutcome.Completed)
    | Err e => accounts plan (TableTransferStatus.Failed (error_text e)) (committed (ts_db st)) (committed (ts_db st')) /\
        (ends_transactions tc -> working (ts_db st') = None)
    end.
Proof.
  intros Hlaws Hrounds Hw. unfold migrate_one_table, mbind, tm_mbind, tm_bind, run.
  destruct (plan_source_spec plan st (proj1 Hlaws)) as (st1 & s & Hsrc & [Hcom1 Hw1] & Hg). rewrite Hsrc.
  rewrite Hw in Hw1. sm_unfold. destruct (resolve_target_columns tc options plan (ts_db st1)) as [columns|e] eqn:Hres.
  2: { do 2 eexists. split; [reflexivity|]. split; [by left|done]. }
  assert (Hcols : resolves plan columns (committed (ts_db st))) by (exists (ts_db st1); done).
  destruct (decide (mp_mapping_mode plan = Skip)) as [Hmode|Hmode].
  - destruct (skip_spec index plan columns s st1 (proj1 Hlaws) Hrounds Hg Hmode) as (st' & r & Hrun & [Hcom Hw'] & Hr).
    exists st', r. split; [done|]. destruct r as [report|e].
    + unfold status_of. rewrite Hmode. split_and!; [congruence|simpl; congruence|done].
    + split; [|congruence]. left. congruence.
  - destruct (pipe_spec index plan columns s st1 Hlaws Hrounds Hg Hw1 Hmode) as (st' & r & Hrun & Hr).
    exists st', r. split; [done|]. rewrite Hcom1 in Hr. destruct r as [report|e].
    + destruct Hr as (n & Hn & Hrows & Hload & Hw' & Hdone). split; [done|]. split; [|naive_solver].
      assert (Hacc : exists columns n, resolves plan columns (committed (ts_db st)) /\
        (n <= length (rows_of plan))%nat /\ rows_transferred report = N.of_nat n /\
        committed (ts_db st') = loaded plan columns n (committed (ts_db st)) /\
        (cancel = None -> n = length (rows_of plan))) by (exists columns, n; naive_solver).
      unfold status_of. by destruct (mp_mapping_mode plan), (outcome report).
    + destruct Hr as [Hend Hf]. split; [right; by exists columns|done].
Qed.

(** A pipeline that reads such a source returns, whatever its target does: each
    page takes a row at least. *)
Lemma loop_returns index (m : AutoColumnMap) plan : source_laws plan ->
  forall rounds' p st s k total done, (length (rows_of plan) - p < rounds')%nat -> gave_plan plan p s ->
  exists o r, transfer_loop (K := TableSink) cancel index m rounds' total done (st, (s, k)) = Some (o, r).
Proof.
  intros Hsrc. red in Hsrc. induction rounds' as [|rounds' IH]; intros p st s k total done Hr Hg; [lia|].
  cbn [transfer_loop]. erewrite on_state_step by reflexivity. cbv beta iota.
  destruct (cancelled_at cancel (ts_reads st)); [by do 2 eexists|].
  destruct (next_chunk_spec _ _ _ _ _ cancel p s (mkState (ts_db st) (S (ts_reads st)) (ts_progress st)) Hg)
    as (st1 & s1 & r1 & Hn & _ & Hr1).
  erewrite on_source_step by exact Hn. destruct r1 as [[page|]|e]; [|by do 2 eexists|by do 2 eexists].
  destruct Hr1 as (Hne & Hpage & Hg1).
  destruct (table_write_chunk (map (project m) page) (st1, k)) as [[st2 k2] r2] eqn:Hw.
  erewrite on_sink_step by exact Hw. destruct r2 as [written|e]; [|by do 2 eexists].
  erewrite on_state_step by reflexivity. cbv beta iota. eapply IH; [|exact Hg1].
  assert (length page <> 0%nat) by (by destruct page). pose proof (g_bound _ _ _ _ _ _ _ Hg1). lia.
Qed.

Lemma one_table_returns index plan st : source_laws plan -> (length (rows_of plan) < rounds)%nat ->
  exists st' r, migrate_one_table sc tc options cancel rounds index plan st = Some (st', r).
Proof.
  intros Hsrc Hrounds. unfold migrate_one_table, mbind, tm_mbind, tm_bind, run.
  destruct (plan_source_spec plan st Hsrc) as (st1 & s & -> & _ & Hg). sm_unfold.
  destruct (resolve_target_columns tc options plan (ts_db st1)) as [columns|e]; [|by do 2 eexists].
  unfold pipe, run_transfer.
  destruct (table_begin (target_columns (plan_map plan columns)) (mp_mapping_mode plan) (st1, plan_sink tc plan))
    as [[st2 k2] r2] eqn:Hb.
  erewrite on_sink_step by exact Hb. destruct r2 as [u|e]; [|by do 2 eexists].
  erewrite on_source_step by reflexivity. cbv beta iota. unfold mbind at 1, tm_mbind at 1, tm_bind at 1.
  match goal with |- context [transfer_loop _ _ _ _ ?t ?d (?st, (?s, ?k))] =>
    destruct (loop_returns index (plan_map plan columns) plan Hsrc rounds 0 st s k t d)
      as ([st3 [s3 k3]] & r3 & ->) end; [lia|done|].
  destruct r3 as [ending|e]; [|by do 2 eexists].
  destruct (table_finish (st3, k3)) as [[st4 k4] r4] eqn:Hf. erewrite on_sink_step by exact Hf.
  destruct r4; by do 2 eexists.
Qed.

Lemma tables_return plans :
  Forall source_laws plans -> Forall (fun plan => length (rows_of plan) < rounds)%nat plans ->
  forall index st, exists st' r, migrate_tables sc tc options cancel rounds index plans st = Some (st', r).
Proof.
  induction 1 as [|plan plans Hsrc _ IH]; intros Hrounds index st; [by do 2 eexists|].
  inversion_clear Hrounds as [|? ? Hr Hrs].
  cbn [migrate_tables]. unfold mbind at 1, tm_mbind at 1, tm_bind at 1, run, token_cancelled.
  destruct (cancelled_at cancel (ts_reads st)); [by do 2 eexists|].
  destruct (one_table_returns index plan (mkState (ts_db st) (S (ts_reads st)) (ts_progress st)) Hsrc Hr)
    as (st1 & r & ->).
  destruct r as [report|e]; [|by do 2 eexists]. destruct (outcome report); [|by do 2 eexists].
  unfold mbind, tm_mbind, tm_bind. destruct (IH Hrs (S index) st1) as (st2 & r & ->).
  destruct r; by do 2 eexists.
Qed.

(** ** A whole migration *)

Definition goes_on (status : TableTransferStatus.t) : Prop :=
  match status with
  | TableTransferStatus.Completed _ | TableTransferStatus.Skipped => True
  | _ => False
  end.

(** The entries of a run account for what it did to the committed content, table
    by table.  The run goes on after a table that was completed or skipped; when
    it stops, the tables behind are not started, and without a cancellation it
    stops only at a table that failed. *)
Inductive account : list MigrationTablePlan -> list MigratedTable -> Content -> Content -> Prop :=
| account_end x : account [] [] x x
| account_next plan status plans tables x y z :
    accounts plan status x y -> goes_on status -> account plans tables y z ->
    account (plan :: plans) (entry plan status :: tables) x z
| account_stop plan status plans x y :
    accounts plan status x y -> (cancel = None -> exists e, status = TableTransferStatus.Failed e) ->
    account (plan :: plans) (entry plan status :: not_started plans) x y.

Lemma migrate_tables_spec plans :
  Forall plan_laws plans -> Forall (fun plan => length (rows_of plan) < rounds)%nat plans ->
  forall index st, working (ts_db st) = None ->
  exists st' tables warned,
    migrate_tables sc tc options cancel rounds index plans st = Some (st', Ok (tables, warned)) /\
    account plans tables (committed (ts_db st)) (committed (ts_db st')) /\
    (ends_transactions tc -> working (ts_db st') = None).
Proof.
  induction 1 as [|plan plans Hlaws _ IH]; intros Hrounds index st Hw.
  { exists st, [], []. split_and!; [done|constructor|done]. }
  inversion_clear Hrounds as [|? ? Hr Hrs].
  cbn [migrate_tables]. unfold mbind at 1, tm_mbind at 1, tm_bind at 1, run, token_cancelled.
  destruct (cancelled_at cancel (ts_reads st)) eqn:Hc.
  { do 3 eexists. split; [reflexivity|]. split; [|done].
    apply (account_stop plan TableTransferStatus.NotStarted); [done|]. intros ->. done. }
  destruct (one_table_spec index plan (mkState (ts_db st) (S (ts_reads st)) (ts_progress st)) Hlaws Hr Hw)
    as (st1 & r & -> & Hr1). destruct r as [report|e]; simpl in Hr1.
  2: { destruct Hr1 as [Hacc Hend]. do 3 eexists. split; [reflexivity|]. split; [|done].
       apply account_stop; [done|eauto]. }
  destruct Hr1 as (Hw1 & Hacc & Hnone). destruct (outcome report) eqn:Hout.
  - destruct (IH Hrs (S index) st1 Hw1) as (st2 & tables & warned & Hrun & Hrest & Hend).
    unfold mbind, tm_mbind, tm_bind. rewrite Hrun. do 3 eexists. split; [reflexivity|]. split; [|done].
    eapply account_next; [exact Hacc| |done]. unfold status_of. rewrite Hout. by destruct (mp_mapping_mode plan).
  - do 3 eexists. split; [reflexivity|]. split; [|done]. apply account_stop; [done|].
    intros Hcn. by specialize (Hnone Hcn).
Qed.

(** ** The order of the tables *)

Definition plan_ref (plan : MigrationTablePlan) : DependencyOrder.TableRef := dep_ref (mp_source_table plan).

Lemma ref_named_spec refs r :
  r ∈ map dep_ref refs -> exists t, ref_named refs r = Some t /\ t ∈ refs /\ dep_ref t = r.
Proof.
  intros (t & -> & Ht)%list_elem_of_fmap. unfold ref_named.
  destruct (list_find _ refs) as [[i u]|] eqn:Hf.
  - apply list_find_Some in Hf as (Hi & Hu & _). exists u. split_and!; [done|by eapply list_elem_of_lookup_2|].
    apply Is_true_true, andb_true_iff in Hu as [Hs%bool_decide_eq_true Hn%bool_decide_eq_true].
    destruct (dep_ref u), (dep_ref t). simpl in *. congruence.
  - apply list_find_None in Hf. rewrite Forall_forall in Hf. destruct (Hf t Ht).
    apply Is_true_true, andb_true_iff. by rewrite !bool_decide_eq_true.
Qed.

Lemma refs_named refs l : (forall r, r ∈ l -> r ∈ map dep_ref refs) ->
  exists ts, mapM (ref_named refs) l = Some ts /\ Forall2 (fun t r => t ∈ refs /\ dep_ref t = r) ts l.
Proof.
  intros Hin. assert (Forall (fun r => is_Some (ref_named refs r)) l) as [ts Hts]%mapM_is_Some_2.
  { apply Forall_forall. intros r Hr. destruct (ref_named_spec refs r (Hin r Hr)) as (t & -> & _). eauto. }
  exists ts. split; [done|]. apply mapM_Some in Hts. induction Hts as [|r t l ts Ht _ IH]; constructor.
  - destruct (ref_named_spec refs r) as (t' & Ht' & ? & ?); [apply Hin; by left|]. by simplify_eq.
  - apply IH. intros; apply Hin. by right.
Qed.

(** An order is always resolved, or a reason given why not. *)
Lemma resolve_answers plans db : exists r, resolve_plan_order sc options plans db = Some r.
Proof.
  unfold resolve_plan_order. destruct (mo_manual_order options) as [manual|]; [eauto|].
  destruct (fetch_all_foreign_keys sc options plans db) as [fks|e]; [|eauto].
  destruct (load_order_lists_every_table (map dep_ref (map mp_source_table plans)) fks) as (r & -> & Hr).
  simpl. destruct r as [l|prefix cycle].
  - destruct (refs_named (map mp_source_table plans) l) as (ts & -> & _); [|simpl; eauto].
    intros r Hin. by rewrite Hr in Hin.
  - destruct Hr as [Hp _]. assert (Hsub : forall r, r ∈ prefix ++ cycle -> r ∈ map dep_ref (map mp_source_table plans))
      by (intros r Hin; by rewrite Hp in Hin).
    destruct (refs_named (map mp_source_table plans) prefix) as (ps & -> & _); [set_solver|].
    destruct (refs_named (map mp_source_table plans) cycle) as (cs & -> & _); [set_solver|]. simpl. eauto.
Qed.

(** The plans in the order of their tables. *)
Lemma order_plans_spec plans ts ordered :
  order_plans plans ts = Ok (Ordered ordered) ->
  length ts = length plans /\ Forall2 (fun t plan => plan ∈ plans /\ mp_source_table plan = t) ts ordered.
Proof.
  unfold order_plans. destruct (Nat.eqb_spec (length ts) (length plans)) as [Hlen|]; [|done]. simpl.
  destruct (try_map _ ts) as [l|] eqn:Hl; [|done]. simpl. intros [= <-]. split; [done|].
  apply try_map_Ok in Hl. eapply Forall2_impl; [exact Hl|]. simpl. intros t plan Hp.
  destruct (plan_of plans t) as [q|] eqn:Hq; [|done]. simpl in Hp. injection Hp as ->.
  unfold plan_of in Hq. apply fmap_Some in Hq as ([i q] & (Hi & Hq & _)%list_find_Some & ->).
  split; [by eapply list_elem_of_lookup_2|done].
Qed.

Lemma resolved_in_plans plans db ordered :
  resolve_plan_order sc options plans db = Some (Ok (Ordered ordered)) ->
  Forall (fun plan => plan ∈ plans) ordered.
Proof.
  assert (Hin : forall ts, order_plans plans ts = Ok (Ordered ordered) -> Forall (fun plan => plan ∈ plans) ordered).
  { intros ts [_ Hf]%order_plans_spec. eapply Forall2_Forall_r; [exact Hf|]. apply Forall_true. by intros t plan []. }
  unfold resolve_plan_order. destruct (mo_manual_order options) as [manual|]; [intros [= Ho]; by eapply Hin|].
  destruct (fetch_all_foreign_keys sc options plans db) as [fks|e]; [|done].
  intros ([l|prefix cycle] & _ & Hr)%bind_Some.
  - apply bind_Some in Hr as (ts & _ & [= Ho]). by eapply Hin.
  - apply bind_Some in Hr as (ps & _ & (cs & _ & [= Ho])%bind_Some).
Qed.

(** With an order found, its indices are those of the plans, one by one. *)
Lemma ordered_indices_of plans db fks ordered :
  mo_manual_order options = None -> fetch_all_foreign_keys sc options plans db = Ok fks ->
  NoDup (map plan_ref plans) ->
  resolve_plan_order sc options plans db = Some (Ok (Ordered ordered)) ->
  exists order, NoDup order /\ length order = length plans /\
    Forall2 (fun i plan => plans !! i = Some plan) order ordered /\
    forall i c p, order !! i = Some c -> references (map dep_ref (map mp_source_table plans)) fks c p ->
      exists j, (j < i)%nat /\ order !! j = Some p.
Proof.
  intros Hauto Hfks Hnd. unfold resolve_plan_order. rewrite Hauto, Hfks.
  destruct (parents_are_loaded_first (map dep_ref (map mp_source_table plans)) fks)
    as (order & Hndo & (r & -> & Hr) & Hpar). simpl.
  destruct r as [l|l cycle].
  2: { intros (ps & _ & (cs & _ & [=])%bind_Some)%bind_Some. }
  intros (ts & Hts & [= Ho])%bind_Some. apply order_plans_spec in Ho as [Hlen Hf].
  apply mapM_Some in Hts. exists order. split_and!; [done| | |done].
  { rewrite <- Hlen, <- (Forall2_length _ _ _ Hts). by eapply Forall2_length. }
  clear Hndo Hpar Hlen. revert ts ordered Hts Hf. induction Hr as [|i t order l Hi Hr IH]; intros ts ordered Hts Hf.
  - inversion Hts; subst. by inversion Hf.
  - inversion Hts as [|? u ? ts' Hu Hts']; subst. inversion Hf as [|? plan ? ordered' [Hin Heq] Hf']; subst.
    constructor; [|by eapply IH]. rewrite map_map in Hi.
    apply list_elem_of_lookup in Hin as [j Hj].
    assert (Href : plan_ref plan = t).
    { destruct (ref_named_spec (map mp_source_table plans) t) as (u' & Hu' & _ & Hd); [|unfold plan_ref; congruence].
      rewrite map_map. by eapply list_elem_of_lookup_2. }
    assert (i = j) as ->; [|done]. eapply NoDup_lookup; [exact Hnd|exact Hi|].
    change (map plan_ref plans !! j = Some t). rewrite list_lookup_fmap, Hj. simpl. by rewrite Href.
Qed.

(** The order that is found has every plan once, and a table comes after the
    tables it references. *)
Theorem migration_loads_parents_first plans db fks ordered :
  mo_manual_order options = None -> fetch_all_foreign_keys sc options plans db = Ok fks ->
  NoDup (map plan_ref plans) ->
  resolve_plan_order sc options plans db = Some (Ok (Ordered ordered)) ->
  ordered ≡ₚ plans /\
  forall i child parent fk, ordered !! i = Some child -> parent ∈ plans -> parent <> child -> fk ∈ fks ->
    DependencyOrder.name (plan_ref child) = DependencyOrder.table_name fk ->
    DependencyOrder.name (plan_ref parent) = DependencyOrder.referenced_table fk ->
    exists j, (j < i)%nat /\ ordered !! j = Some parent.
Proof.
  intros Hauto Hfks Hnd Hres.
  destruct (ordered_indices_of _ _ _ _ Hauto Hfks Hnd Hres) as (order & Hndo & Hlen & Hf & Hpar).
  assert (Hat : forall i j, order !! i = Some j -> ordered !! i = plans !! j).
  { intros i j Hi. destruct (Forall2_lookup_l _ _ _ _ _ Hf Hi) as (plan & -> & ?). done. }
  split.
  - assert (order ≡ₚ seq 0 (length plans)) as Hp.
    { apply submseteq_length_Permutation; [|by rewrite Hlen, length_seq]. apply NoDup_submseteq; [done|].
      intros j [i Hi]%list_elem_of_lookup. destruct (Forall2_lookup_l _ _ _ _ _ Hf Hi) as (plan & _ & Hj).
      apply elem_of_seq. apply lookup_lt_Some in Hj. lia. }
    assert (ordered = omap (plans !!.) order) as ->.
    { clear -Hf. induction Hf as [|i plan order ordered Hi _ IH]; [done|]. simpl. rewrite Hi. by f_equal. }
    rewrite Hp. by rewrite omap_lookup_seq.
  - intros i child parent fk Hc [p Hp]%list_elem_of_lookup Hne Hfk Hcn Hpn.
    destruct (Forall2_lookup_r _ _ _ _ _ Hf Hc) as (c & Hci & Hcp).
    destruct (Hpar i c p Hci) as (j & Hj & Hjp); [|exists j; split; [done|]; by rewrite (Hat _ _ Hjp)].
    split; [intros ->; congruence|]. exists fk, (plan_ref child), (plan_ref parent). rewrite map_map.
    split_and!; [done| | |done|done]; rewrite list_lookup_fmap; [by rewrite Hcp|by rewrite Hp].
Qed.

(** C26: a migration returns, and what it reports is what the target holds.  Table
    by table, in the order that was resolved, the status accounts for the content:
    a completed or cancelled table has the number of rows it reports, the first of
    the source, projected, and all of them unless the token was set; a failed one
    is as it was or prepared by the first of its statements, with none of the rows
    where the target has transactions, while a target without them (the SQLite
    driver) may keep the first rows; a skipped or not started one is as it was.  A
    refused migration, or one that needs an order, changes nothing.  No transaction
    is left open, where COMMIT and ROLLBACK end one even when they fail.

    This is so for sources that do not change while they are read, with fewer than
    2^32 rows in a table, a segment size below 2^32 and rows in the order of their
    key, where a table has a key of one column; for targets whose statements take
    effect as a whole or not at all, and whose setting of the reference checks
    touches no content; from a state without an open transaction; and with more
    rounds of the loop than a table has rows. *)
Theorem migration_accounts_for_its_tables plans st :
  Forall plan_laws plans -> Forall (fun plan => length (rows_of plan) < rounds)%nat plans ->
  (forall b db, unchanged db (set_referential_integrity tc b db).1) ->
  working (ts_db st) = None ->
  exists st' r, run_migration sc tc options cancel rounds plans st = Some (st', r) /\
    match r with
    | Ok (MigrationOutcome.Completed out) =>
        exists ordered, resolve_plan_order sc options plans (ts_db st) = Some (Ok (Ordered ordered)) /\
          account ordered (ro_tables out) (committed (ts_db st)) (committed (ts_db st'))
    | Ok (MigrationOutcome.CyclicOrderRequired _ _) | Err _ => committed (ts_db st') = committed (ts_db st)
    end /\
    (ends_transactions tc -> working (ts_db st') = None).
Proof.
  intros Hlaws Hrounds Hri Hw. unfold run_migration.
  destruct (existsb _ plans && negb (mo_destructive_confirmed options)); [by do 2 eexists|].
  unfold mbind at 1, tm_mbind at 1, tm_bind at 1.
  destruct (resolve_answers plans (ts_db st)) as [order Horder]. rewrite Horder. simpl.
  destruct order as [[ordered|prefix cycle]|e]; [|by do 2 eexists|by do 2 eexists].
  pose proof (resolved_in_plans _ _ _ Horder) as Hsub. rewrite Forall_forall in Hlaws, Hrounds, Hsub.
  unfold migrate_ordered, mbind, tm_mbind, tm_bind, run.
  assert (Hen : exists st1 r, ri_enable tc options st = (st1, r) /\ unchanged (ts_db st) (ts_db st1)).
  { unfold ri_enable, on_db. destruct (_ || _); [by do 2 eexists|]. sm_unfold.
    specialize (Hri false (ts_db st)). by destruct (set_referential_integrity tc false (ts_db st)) as [db' [u|e]]; do 2 eexists. }
  destruct Hen as (st1 & r & -> & [Hcom1 Hw1]). destruct r as [active|e].
  2: { do 2 eexists. split; [reflexivity|]. split; [done|congruence]. }
 
  destruct (migrate_tables_spec ordered) with (index := 0%nat) (st := st1)
    as (st2 & tables & warned & -> & Hacc & Hend); [apply Forall_forall; auto|apply Forall_forall; auto|congruence|].
  assert (Hdr : exists st3 failure, ri_drop tc active st2 = (st3, Ok failure) /\ unchanged (ts_db st2) (ts_db st3)).
  { unfold ri_drop, on_db. destruct active; [|by do 2 eexists]. sm_unfold.
    specialize (Hri true (ts_db st2)). by destruct (set_referential_integrity tc true (ts_db st2)) as [db' [u|e]]; do 2 eexists. }
  destruct Hdr as (st3 & failure & -> & [Hcom3 Hw3]). do 2 eexists. split; [reflexivity|].
  split; [|simpl; by rewrite Hw3]. exists ordered. split; [done|]. simpl. by rewrite Hcom3, <- Hcom1.
Qed.

End Migration.
End Laws.

(** ** What every statement of a transfer keeps *)

Section Keeps.
Context `{ValueLib} `{!TransferDriver} `{!FloatCount} (P : Db -> Prop).
Hypothesis execute_keeps : forall c sql db, P db -> P (execute c sql db).1.
Hypothesis insert_keeps : forall c insert db, P db -> P (insert_row c insert db).1.

(** The computation keeps [P] of the databases in its state. *)
Definition keeps {S E A} (get : S -> Db) (m : SM S E A) : Prop := forall s, P (get s) -> P (get (m s).1).
(** The database of a state that has an object next to it. *)
Definition db_of {O} (p : TransferState * O) : Db := ts_db p.1.

Lemma keeps_ret {S E A} (get : S -> Db) (x : A) : keeps (E := E) get (mret x).
Proof. by intros s. Qed.
Lemma keeps_err {S E A} (get : S -> Db) (e : E) : keeps (A := A) get (sm_err e).
Proof. by intros s. Qed.
Lemma keeps_get {S E} (get : S -> Db) : keeps (E := E) get sm_get.
Proof. by intros s. Qed.
Lemma keeps_bind {S E A B} (get : S -> Db) (m : SM S E A) (f : A -> SM S E B) :
  keeps get m -> (forall x, keeps get (f x)) -> keeps get (m ≫= f).
Proof.
  intros Hm Hf s Hs. specialize (Hm s Hs). unfold mbind, sm_mbind, sm_bind.
  destruct (m s) as [s' [x|e]]; [by apply Hf|done].
Qed.
Lemma keeps_map_err {S E F A} (get : S -> Db) (g : E -> F) (m : SM S E A) :
  keeps get m -> keeps get (sm_map_err g m).
Proof. intros Hm s Hs. specialize (Hm s Hs). unfold sm_map_err. by destruct (m s). Qed.
Lemma keeps_modify {S E} (get : S -> Db) (f : S -> S) :
  (forall s, get (f s) = get s) -> keeps (E := E) get (sm_modify f).
Proof. intros Hf s Hs. simpl. by rewrite Hf. Qed.
Lemma keeps_outside {O E A} (m : SM TransferState E A) : keeps ts_db m -> keeps (db_of (O := O)) (outside m).
Proof. intros Hm [st o] Hs. specialize (Hm st Hs). unfold outside, sm_zoom. simpl. by destruct (m st). Qed.
Lemma keeps_exec c sql : keeps ts_db (exec c sql).
Proof.
  intros s Hs. specialize (execute_keeps c sql _ Hs). unfold exec, on_db, sm_zoom.
  by destruct (execute c sql (ts_db s)).
Qed.
Lemma keeps_insert c insert : keeps ts_db (on_db (insert_row c insert)).
Proof.
  intros s Hs. specialize (insert_keeps c insert _ Hs). unfold on_db, sm_zoom.
  by destruct (insert_row c insert (ts_db s)).
Qed.
Lemma keeps_is_cancelled {E} cancel : keeps (E := E) ts_db (token_cancelled cancel).
Proof. by intros s. Qed.

#[local] Hint Resolve keeps_ret keeps_err keeps_get keeps_bind keeps_map_err keeps_outside keeps_exec
  keeps_insert keeps_is_cancelled : dbflux.
#[local] Hint Extern 1 (keeps _ (sm_modify _)) => by apply keeps_modify : dbflux.

(** Close [keeps] of a computation by its parts, with the branches it takes. *)
Ltac keeps_parts :=
  repeat (eauto with dbflux;
    match goal with
    | |- keeps _ (_ ≫= _) => apply keeps_bind; [|intros ?]
    | |- keeps _ (match ?x with _ => _ end) => destruct x
    | |- keeps _ (outside _) => apply keeps_outside
    end).

Lemma keeps_next_chunk cancel : keeps db_of (table_next_chunk cancel).
Proof. unfold table_next_chunk. keeps_parts. Qed.

Lemma keeps_count c schema table : keeps ts_db (count_rows c schema table).
Proof.
  intros s Hs. unfold count_rows. pose proof (keeps_exec c _ s Hs : P (ts_db (exec c
    (count_head ++ @qualified_table _ (dialect c) schema table) s).1)) as Hk.
  by destruct (exec c _ s) as [s' [rows|e]].
Qed.

Lemma keeps_create k columns : keeps ts_db (create_table k columns).
Proof. unfold create_table, exec_sink. keeps_parts. Qed.

Lemma keeps_begin columns mode : keeps db_of (table_begin columns mode).
Proof.
  unfold table_begin, drop_table_if_exists, truncate_table, exec_sink, begin_transaction_if_supported.
  pose proof keeps_create. keeps_parts.
Qed.

Lemma keeps_per_row k rows : forall written, keeps ts_db (write_rows_per_row k written rows).
Proof. induction rows as [|row rows IH]; intros written; simpl; keeps_parts. Qed.

Lemma keeps_batches k generator batches : forall written,
  keeps ts_db (write_batches k generator written batches).
Proof.
  pose proof keeps_per_row. unfold exec_sink.
  induction batches as [|batch batches IH]; intros written; simpl; unfold exec_sink; keeps_parts.
Qed.

Lemma keeps_rollback {E} : keeps db_of (rollback_open (E := E)).
Proof.
  intros [st k] Hs. unfold rollback_open. simpl. destruct (sk_transaction_vocab k) as [v|]; [|done].
  pose proof (keeps_exec (sk_connection k) (text (TxControl.rollback v)) st Hs) as Hk.
  by destruct (exec (sk_connection k) (text (TxControl.rollback v)) st).
Qed.

Lemma keeps_write chunk : keeps db_of (table_write_chunk chunk).
Proof.
  intros [st k] Hs. unfold table_write_chunk. simpl. destruct (sk_skipped k); [done|].
  assert (Hw : keeps ts_db (write_rows k chunk)).
  { unfold write_rows, write_rows_bulk. pose proof keeps_per_row. pose proof keeps_batches.
    destruct (if supports _ _ then _ else _); auto. }
  specialize (Hw st Hs). destruct (write_rows k chunk st) as [st' [written|e]]; [done|].
  by apply (keeps_rollback (E := TransferError) (st', k)).
Qed.

Lemma keeps_finish : keeps db_of table_finish.
Proof. unfold table_finish. keeps_parts. Qed.

(** The same for computations that may not return. *)
Definition tkeeps {S A} (get : S -> Db) (m : TM S A) : Prop :=
  forall s s' r, P (get s) -> m s = Some (s', r) -> P (get s').

Lemma tkeeps_run {S A} (get : S -> Db) (m : SM S TransferError A) : keeps get m -> tkeeps get (run m).
Proof. intros Hm s s' r Hs [= Hrun]. specialize (Hm s Hs). by rewrite Hrun in Hm. Qed.
Lemma tkeeps_ret {S A} (get : S -> Db) (x : A) : tkeeps get (mret x).
Proof. by intros s s' r Hs [= <- _]. Qed.
Lemma tkeeps_bind {S A B} (get : S -> Db) (m : TM S A) (f : A -> TM S B) :
  tkeeps get m -> (forall x, tkeeps get (f x)) -> tkeeps get (m ≫= f).
Proof.
  intros Hm Hf s s' r Hs. unfold mbind, tm_mbind, tm_bind.
  destruct (m s) as [[s1 [x|e]]|] eqn:Hrun; [|intros [= <- _]; eauto|done]. intros Hrest.
  eapply Hf; [|exact Hrest]. eauto.
Qed.
Lemma tkeeps_state {Src K A} (m : SM TransferState TransferError A) :
  keeps ts_db m -> tkeeps (db_of (O := Src * K)) (on_state m).
Proof. intros Hm. by apply tkeeps_run, keeps_outside. Qed.
Lemma tkeeps_source {Src K A} (m : SM (TransferState * Src) TransferError A) :
  keeps db_of m -> tkeeps (db_of (O := Src * K)) (on_source m).
Proof.
  intros Hm. apply tkeeps_run. intros [st [s k]] Hs. specialize (Hm (st, s) Hs). unfold sm_zoom. simpl.
  by destruct (m (st, s)) as [[st' s'] r].
Qed.
Lemma tkeeps_sink {Src K A} (m : SM (TransferState * K) TransferError A) :
  keeps db_of m -> tkeeps (db_of (O := Src * K)) (on_sink m).
Proof.
  intros Hm. apply tkeeps_run. intros [st [s k]] Hs. specialize (Hm (st, k) Hs). unfold sm_zoom. simpl.
  by destruct (m (st, k)) as [[st' k'] r].
Qed.

Section Tables.
Context (sc tc : Conn) (options : MigrationOptions) (cancel : option nat) (rounds : nat).

Lemma tkeeps_loop index (m : AutoColumnMap) rounds' : forall total done,
  tkeeps (db_of (O := TableSource * TableSink)) (transfer_loop cancel index m rounds' total done).
Proof.
  induction rounds' as [|rounds' IH]; intros total done; [by intros s s' r _|]. cbn [transfer_loop].
  apply tkeeps_bind; [apply tkeeps_state, keeps_is_cancelled|]. intros []; [apply tkeeps_ret|].
  apply tkeeps_bind; [apply tkeeps_source, keeps_next_chunk|]. intros [page|]; [|apply tkeeps_ret].
  apply tkeeps_bind; [apply tkeeps_sink, keeps_write|]. intros written.
  apply tkeeps_bind; [by apply tkeeps_state, keeps_modify|auto].
Qed.

Lemma tkeeps_transfer index (m : AutoColumnMap) mode :
  tkeeps (db_of (O := TableSource * TableSink)) (run_transfer cancel index m rounds mode).
Proof.
  unfold run_transfer. apply tkeeps_bind; [apply tkeeps_sink, keeps_begin|]. intros _.
  apply tkeeps_bind; [apply tkeeps_source, keeps_bind; auto with dbflux|]. intros total.
  apply tkeeps_bind; [apply tkeeps_loop|]. intros ending.
  apply tkeeps_bind; [apply tkeeps_sink, keeps_finish|]. intros report. apply tkeeps_ret.
Qed.

Lemma tkeeps_pipe index plan source m : tkeeps ts_db (pipe tc cancel rounds index plan source m).
Proof.
  intros st st' r Hs. unfold pipe. destruct (run_transfer _ _ _ _ _ _) as [[[st1 [s1 k1]] r1]|] eqn:Hrun; [|done].
  intros [= <- _]. apply (keeps_rollback (E := TransferError) (st1, k1)).
  by apply (tkeeps_transfer index m _ (st, (source, plan_sink tc plan)) _ _ Hs Hrun).
Qed.

Lemma tkeeps_one_table index plan : tkeeps ts_db (migrate_one_table sc tc options cancel rounds index plan).
Proof.
  unfold migrate_one_table. apply tkeeps_bind.
  - apply tkeeps_run. unfold plan_source, source_new. pose proof keeps_count. keeps_parts.
  - intros source. apply tkeeps_bind; [|intros columns; apply tkeeps_pipe].
    apply tkeeps_run. intros st Hs. by unfold mbind, sm_mbind, sm_bind.
Qed.

Lemma tkeeps_tables plans : forall index, tkeeps ts_db (migrate_tables sc tc options cancel rounds index plans).
Proof.
  induction plans as [|plan plans IH]; intros index; [apply tkeeps_ret|]. cbn [migrate_tables].
  apply tkeeps_bind; [apply tkeeps_run, keeps_is_cancelled|]. intros []; [apply tkeeps_ret|].
  intros st st' r Hs. destruct (migrate_one_table _ _ _ _ _ _ _ st) as [[st1 [report|e]]|] eqn:Hone; [| |done].
  - pose proof (tkeeps_one_table index plan st st1 _ Hs Hone) as Hs1.
    destruct (outcome report); [|by intros [= <- _]]. revert Hs1. apply tkeeps_bind; [apply IH|].
    intros more. apply tkeeps_ret.
  - intros [= <- _]. by eapply tkeeps_one_table.
Qed.

End Tables.
End Keeps.

(** No error leaves the loop over the tables. *)
Lemma tables_no_error `{ValueLib} `{!TransferDriver} `{!FloatCount} sc tc options cancel rounds plans :
  forall index st st' r,
  migrate_tables sc tc options cancel rounds index plans st = Some (st', r) -> exists x, r = Ok x.
Proof.
  induction plans as [|plan plans IH]; intros index st st' r; [intros [= _ <-]; eauto|].
  cbn [migrate_tables]. unfold mbind at 1, tm_mbind at 1, tm_bind at 1, run, token_cancelled.
  destruct (cancelled_at cancel (ts_reads st)); [intros [= _ <-]; eauto|].
  destruct (migrate_one_table _ _ _ _ _ _ _ _) as [[st1 [report|e]]|]; [|intros [= _ <-]; eauto|done].
  destruct (outcome report); [|intros [= _ <-]; eauto]. unfold mbind, tm_mbind, tm_bind.
  destruct (migrate_tables _ _ _ _ _ _ plans st1) as [[st2 [more|e]]|] eqn:Hrest; [|by apply IH in Hrest as []|done].
  intros [= _ <-]. eauto.
Qed.

(** ** Referential integrity *)

Section Integrity.
Context `{ValueLib} `{!TransferDriver} `{!TransferDatabase} `{!FloatCount}.
Context (sc tc : Conn) (options : MigrationOptions) (cancel : option nat) (rounds : nat).
Context (rows_of : MigrationTablePlan -> list Row).
(** Whether the target checks references. *)
Context (checks : Db -> bool).

(** Only the call that sets it changes it, and a call that fails does not. *)
Record IntegrityLaws : Prop := {
  set_law b db : checks (set_referential_integrity tc b db).1 =
    match (set_referential_integrity tc b db).2 with Ok _ => b | Err _ => checks db end;
  execute_law c sql db : checks (execute c sql db).1 = checks db;
  insert_row_law c insert db : checks (insert_row c insert db).1 = checks db;
}.

(** The call that takes the checks away fails and leaves them, or the guard is as
    active as they are away. *)
Lemma ri_enable_checks st : IntegrityLaws -> checks (ts_db st) = true ->
  (exists st1 active, ri_enable tc options st = (st1, Ok active) /\ checks (ts_db st1) = negb active) \/
  exists st1 e, ri_enable tc options st = (st1, Err e) /\ checks (ts_db st1) = true.
Proof.
  intros [Hset _ _] Hon. unfold ri_enable, on_db. destruct (_ || _); [left; by exists st, false|]. sm_unfold.
  specialize (Hset false (ts_db st)). destruct (set_referential_integrity tc false (ts_db st)) as [db' [u|e]];
    simpl in Hset; [left; eexists; exists true|right; do 2 eexists]; (split; [reflexivity|]); simpl; congruence.
Qed.

(** The guard that is dropped brings the checks back, or says why not. *)
Lemma ri_drop_checks active st : IntegrityLaws -> checks (ts_db st) = negb active ->
  exists st1 failure, ri_drop tc active st = (st1, Ok failure) /\
    (checks (ts_db st1) = true \/ exists e, failure = Some e).
Proof.
  intros [Hset _ _] Hst. unfold ri_drop. destruct active; [|exists st, None; auto]. unfold on_db. sm_unfold.
  specialize (Hset true (ts_db st)). destruct (set_referential_integrity tc true (ts_db st)) as [db' [u|e]];
    simpl in Hset; do 2 eexists; (split; [reflexivity|]); eauto.
Qed.

(** C27: a migration returns and leaves the target checking references, however it
    ends and whatever the target answers, or it reports that the checks could not
    be restored.  It returns for sources as in C26, with more rounds of the loop
    than a table has rows; nothing but the setting changes what the target checks,
    and a setting that fails does not. *)
Theorem referential_integrity_is_restored plans st :
  Forall (source_laws sc options rows_of) plans ->
  Forall (fun plan => length (rows_of plan) < rounds)%nat plans ->
  IntegrityLaws -> checks (ts_db st) = true ->
  exists st' r, run_migration sc tc options cancel rounds plans st = Some (st', r) /\
    (checks (ts_db st') = true \/
     exists out e, r = Ok (MigrationOutcome.Completed out) /\ restore_warning e ∈ ro_warnings out).
Proof.
  intros Hsrc Hrounds Hlaws Hon. unfold run_migration.
  destruct (existsb _ plans && negb (mo_destructive_confirmed options)); [by do 2 eexists; split; [|left]|].
  unfold mbind at 1, tm_mbind at 1, tm_bind at 1.
  destruct (resolve_answers sc options plans (ts_db st)) as [order Horder]. rewrite Horder. simpl.
  destruct order as [[ordered|prefix cycle]|e]; [|by do 2 eexists; split; [|left]..].
  pose proof (resolved_in_plans _ _ _ _ _ Horder) as Hsub. rewrite Forall_forall in Hsrc, Hrounds, Hsub.
  unfold migrate_ordered, mbind, tm_mbind, tm_bind, run.
  destruct (ri_enable_checks st Hlaws Hon) as [(st1 & active & -> & Hst1)|(st1 & e & -> & Hst1)];
    [|by do 2 eexists; split; [|left]].
  destruct (tables_return sc tc options cancel rounds rows_of ordered) with (index := 0%nat) (st := st1)
    as (st2 & r & Htables); [apply Forall_forall; auto|apply Forall_forall; auto|]. rewrite Htables.
  destruct (tables_no_error _ _ _ _ _ _ _ _ _ _ Htables) as [[tables warned] ->].
  assert (Hst2 : checks (ts_db st2) = negb active).
  { pose proof Hlaws as [_ Hex Hins].
    eapply (tkeeps_tables (fun db => checks db = negb active)); [| |exact Hst1|exact Htables];
      intros; congruence. }
  destruct (ri_drop_checks active st2 Hlaws Hst2) as (st3 & failure & -> & Hdr).
  do 2 eexists. split; [reflexivity|]. destruct Hdr as [Hst3|[e ->]]; [by left|]. right.
  do 2 eexists. split; [reflexivity|]. simpl. apply elem_of_app. right. by left.
Qed.

End Integrity.

(** ** Two small servers *)

Lemma assignment_values `{ValueLib} names types row :
  fits names row -> map ca_value (row_assignments names types row) = row.
Proof.
  unfold fits, row_assignments. intros Hfit.
  assert (Hgo : forall f l, (forall i p, ca_value (f i p) = p.2) ->
    map ca_value (imap f l) = map (snd : list char * DbValue -> DbValue) l).
  { intros f l. revert f. induction l as [|p l IH]; intros f Hf; [done|]. simpl. rewrite Hf. f_equal.
    apply (IH (f ∘ S)). intros; apply Hf. }
  rewrite Hgo by done. rewrite <- (snd_zip names row) at 2; [done|lia].
Qed.

Module Demo.
#[local] Existing Instance text_values.
#[local] Instance no_documents : DocumentJson := {| document_json _ := None |}.

Definition quoted (s : string) : list char := quote_double_quoted_identifier (text s).

(** The page of the source after a key, and its rows. *)
Definition select (after : option Z) : list char :=
  text "SELECT " ++ quoted "id" ++ text ", " ++ quoted "name" ++ text " FROM " ++ quoted "t" ++ text " " ++
  match after with
  | Some i => text "WHERE " ++ quoted "id" ++ text " > " ++ integer_text i ++ text " "
  | None => []
  end ++ text "ORDER BY " ++ quoted "id" ++ text " LIMIT 1".

Definition first : Row := [VInt 1; VText (text "a")].
Definition second : Row := [VInt 2; VText (text "b")].

(** The table of a target, its content inside a transaction, its checks and how
    many rows it has room for. *)
Record Server := mkServer {
  content : list Row; inside : option (list Row); checking : bool; room : nat
}.

Definition is_first (rows : list Row) : bool :=
  match rows with
  | [[VInt 1; VText s]] => bool_decide (s = text "a")
  | _ => false
  end.

(** A write inside the transaction, or committed at once. *)
Definition append (row : Row) (db : Server) : Server * result unit (list char) :=
  let current := default (content db) (inside db) in
  if Nat.ltb (length current) (room db) then
    match inside db with
    | Some w => (mkServer (content db) (Some (w ++ [row])) (checking db) (room db), Ok tt)
    | None => (mkServer (content db ++ [row]) None (checking db) (room db), Ok tt)
    end
  else (db, Err (text "no room")).

Definition target_run (sql : list char) (db : Server) : Server * result (list Row) (list char) :=
  if bool_decide (sql = text "BEGIN") then
    (mkServer (content db) (Some (content db)) (checking db) (room db), Ok [])
  else if bool_decide (sql = text "COMMIT") then
    (mkServer (default (content db) (inside db)) None (checking db) (room db), Ok [])
  else if bool_decide (sql = text "ROLLBACK") then
    (mkServer (content db) None (checking db) (room db), Ok [])
  else if bool_decide (sql = text "INSERT FIRST") then
    let '(db', r) := append first db in (db', map_ok (fun _ => []) r)
  else (mkServer [] (inside db) (checking db) (room db), Ok []).

Definition source_run (sql : list char) : list Row :=
  if bool_decide (sql = select None) then [first]
  else if bool_decide (sql = select (Some 1)) then [second]
  else [].

Definition generator : QueryGenerator := {|
  generate_bulk_insert _ _ _ _ rows := Ok (if is_first rows then Some (text "INSERT FIRST") else None);
  generate_create_table _ := Ok (Some (text "CREATE"));
|}.

(** A source, a target with transactions and one without, with the capabilities
    the two drivers have. *)
Inductive Endpoint : Type := From | Postgres | Sqlite.

#[local] Instance driver : TransferDriver := {|
  Conn := Endpoint;
  Db := Server;
  dialect _ := DefaultSqlDialect;
  limit_clause _ n := text "LIMIT " ++ decimal n;
  limit_offset_clause _ n offset := text "LIMIT " ++ decimal n ++ text " OFFSET " ++ decimal offset;
  kind c := match c with Sqlite => TxControl.SQLite | _ => TxControl.Postgres end;
  supports c capability :=
    match c, capability with Sqlite, (TRANSACTIONS | TRUNCATE_TABLE) => false | _, _ => true end;
  limits_max_bulk_insert_rows _ := None;
  query_generator _ := Some generator;
  table_details _ _ _ _ _ := Err (text "no table");
  schema_foreign_keys _ _ _ _ := Ok [];
  execute c sql db := match c with From => (db, Ok (source_run sql)) | _ => target_run sql db end;
  insert_row c insert db :=
    match c with From => (db, Ok tt) | _ => append (map ca_value (ri_assignments insert)) db end;
  set_referential_integrity c b db := (mkServer (content db) (inside db) b (room db), Ok tt);
|}.

#[local] Instance counts : FloatCount := {| f64_nonneg _ := false; f64_to_u64 _ := 0%N |}.

#[local] Instance database : TransferDatabase := {|
  Content := list Row;
  committed := content;
  working := inside;
  put _ _ _ row x := x ++ [row];
  ddl _ _ := [];
  greater x y := match x, y with VInt i, VInt j => j <? i | _, _ => false end;
|}.

Definition columns : list TransferColumn :=
  [mkTransfer (text "id") (Some (text "integer")) false true;
   mkTransfer (text "name") (Some (text "text")) true false].
Definition plan : MigrationTablePlan :=
  mkPlan (mkTableRef None (text "t")) columns None (text "u") Recreate None None.
Definition options : MigrationOptions := mkOptions 1 (text "a") (text "b") true true None.
Definition start (room : nat) : TransferState := mkState (mkServer [[VInt 7; VNull]] None true room) 0 [].
Definition rows_of (_ : MigrationTablePlan) : list Row := [first; second].

(** The rows of the target after a run, and the outcome. *)
Definition ran (target : Endpoint) (cancel : option nat) (room : nat)
  : option (list Row * result MigrationOutcome.t TransferError) :=
  option_map (fun p => (content (ts_db p.1), p.2))
    (run_migration From target options cancel 4 [plan] (start room)).
Definition ran_with (status : TableTransferStatus.t) (cancelled : bool)
  : result MigrationOutcome.t TransferError :=
  Ok (MigrationOutcome.Completed (mkRunOutcome [entry plan status] [] cancelled)).

(** Without a cancellation: both rows, the target table replaced, on both targets. *)
Example uncancelled_run :
  ran Postgres None 9 = Some ([first; second], ran_with (TableTransferStatus.Completed 2) false) /\
  ran Sqlite None 9 = Some ([first; second], ran_with (TableTransferStatus.Completed 2) false).
Proof. vm_compute. split; reflexivity. Qed.

(** With room for one row the second fails: the target with transactions has none,
    the other keeps the first. *)
Example failed_run :
  ran Postgres None 1 =
    Some ([], ran_with (TableTransferStatus.Failed (text "sink error: no room")) false) /\
  ran Sqlite None 1 =
    Some ([first], ran_with (TableTransferStatus.Failed (text "sink error: no room")) false).
Proof. vm_compute. split; reflexivity. Qed.

(** A token that is set between the two readings of a round ends the table early,
    and the table is reported as completed: the source answers that it has no more
    rows, which the pipeline takes for the end of the table. *)
Theorem interrupted_table_is_reported_completed :
  ran Postgres (Some 4%nat) 9 = Some ([first], ran_with (TableTransferStatus.Completed 1) true).
Proof. vm_compute. reflexivity. Qed.

(** Set one reading earlier, the same table is reported as cancelled. *)
Example cancelled_run :
  ran Postgres (Some 3%nat) 9 = Some ([first], ran_with (TableTransferStatus.Cancelled 1) true).
Proof. vm_compute. reflexivity. Qed.

Lemma demo_source :
  SourceLaws From (mp_source_table plan) (mp_source_columns plan) (N.max (mo_segment_size options) 1) (rows_of plan).
Proof.
  split.
  - done.
  - intros [c schema table cols seg total pk last offset ended] db (Hc & Hs & Ht & Hcols & Hseg & Hpk) Hlast.
    simpl in *. subst. split; [done|]. intros page [= <-].
    destruct last as [v|]; [|vm_compute; reflexivity].
    destruct (Hlast v eq_refl) as (r & Hr & Hv).
    apply elem_of_cons in Hr as [->|[->|[]%elem_of_nil]%elem_of_cons]; vm_compute in Hv; injection Hv as <-;
      vm_compute; reflexivity.
  - intros _. split.
    + repeat constructor. exists (VInt 1), (VInt 2). by vm_compute.
    + intros r [->|[->|[]%elem_of_nil]%elem_of_cons]%elem_of_cons; vm_compute; eauto.
  - done.
  - done.
Qed.

Lemma is_first_inv rows : is_first rows = true -> rows = [first].
Proof.
  destruct rows as [|[|[| |[|[]|]| | | | | | | | | | | |] [|[] []]] []]; try done.
  simpl. by intros ->%bool_decide_eq_true.
Qed.

(** A row appended to what a target holds. *)
Lemma append_holding c x w row db : c <> From -> holding c x w db ->
  match append row db with
  | (db', Ok _) => holding c x (w ++ [row]) db'
  | (db', Err _) => left_with c x w db'
  end.
Proof.
  intros Hc. destruct db as [y i checks n]. destruct c; [done| |]; unfold holding, left_with, append; simpl;
    intros [-> ->]; simpl; by destruct (Nat.ltb _ _).
Qed.

Lemma demo_target c : c <> From -> TargetLaws c (mp_target_schema plan) (mp_target_table plan).
Proof.
  intros Hc. split.
  - intros v [x w checks n]. destruct c; [done| |done]. by intros [= <-] Hw.
  - intros v [x w checks n] w'. destruct c; [done| |done]. intros [= <-] Hw. simpl in Hw. by subst.
  - intros v [x w checks n]. destruct c; [done| |done]. by intros [= <-].
  - intros k row db x w _ _ _ Hfit Hw.
    pose proof (append_holding c x w row db Hc Hw). destruct c; [done| |]; simpl;
      by rewrite (assignment_values _ _ _ Hfit).
  - intros g names types rows sql db x w Hg Hsql _ Hw.
    assert (g = generator) as -> by (destruct c; by injection Hg).
    simpl in Hsql. destruct (is_first rows) eqn:Hf; [|done]. apply is_first_inv in Hf as ->.
    injection Hsql as <-. pose proof (append_holding c x w first db Hc Hw) as Ha.
    destruct c; [done| |]; simpl; unfold target_run; simpl; by destruct (append first db) as [db' [[]|e]].
  - intros [c' schema table names types skipped written warned v] sql [x w checks n] Hc' Hs Ht Hsql Hw.
    simpl in *. subst. destruct Hsql as [->|[->|(g & cols & Hg & Hs)]].
    + destruct c; [done| |]; by vm_compute.
    + destruct c; [done| |]; by vm_compute.
    + assert (g = generator) as -> by (destruct c; by injection Hg). injection Hs as <-.
      destruct c; [done| |]; by vm_compute.
Qed.

Lemma demo_ends : ends_transactions Postgres.
Proof. intros v [x w checks n] [= <-]. split; reflexivity. Qed.

Lemma migration_accounts_for_its_tables_witness :
  exists st' r, run_migration From Postgres options None 4 [plan] (start 9) = Some (st', r) /\
    match r with
    | Ok (MigrationOutcome.Completed out) =>
        exists ordered, resolve_plan_order From options [plan] (ts_db (start 9)) = Some (Ok (Ordered ordered)) /\
          account Postgres options None rows_of ordered (ro_tables out) (committed (ts_db (start 9))) (committed (ts_db st'))
    | Ok (MigrationOutcome.CyclicOrderRequired _ _) | Err _ => committed (ts_db st') = committed (ts_db (start 9))
    end /\
    working (ts_db st') = None.
Proof.
  destruct (@migration_accounts_for_its_tables text_values driver database counts From Postgres options None 4
    rows_of [plan] (start 9)) as (st' & r & Hrun & Hr & Hend).
  - constructor; [split; [apply demo_source|by apply demo_target]|constructor].
  - repeat constructor.
  - by intros b db.
  - reflexivity.
  - exists st', r. split; [exact Hrun|]. split; [exact Hr|]. exact (Hend demo_ends).
Defined.

Lemma demo_integrity : IntegrityLaws Postgres checking.
Proof.
  split; [done| |].
  - intros [] sql db; [done| |]; simpl; unfold target_run, append; repeat case_match; simplify_eq; done.
  - intros [] insert db; [done| |]; simpl; unfold append; by repeat case_match.
Qed.

Lemma referential_integrity_is_restored_witness :
  exists st' r, run_migration From Postgres options None 4 [plan] (start 1) = Some (st', r) /\
    (checking (ts_db st') = true \/
     exists out e, r = Ok (MigrationOutcome.Completed out) /\ restore_warning e ∈ ro_warnings out).
Proof.
  apply (@referential_integrity_is_restored text_values driver database counts From Postgres options None 4
    rows_of checking [plan] (start 1)).
  - constructor; [apply demo_source|constructor].
  - repeat constructor.
  - exact demo_integrity.
  - reflexivity.
Defined.

Lemma columns_are_mapped_by_name_witness :
  let m := with_overrides columns columns [mkOverride (text "name") (Some (text "id"))] in
  project m first = [VInt 1; VInt 1] /\ map_warnings m = [skipped_column (mkTransfer (text "name") (Some (text "text")) true false)] /\
  (forall row, project m row =
    map (fun t => default VNull (n ← bound [mkOverride (text "name") (Some (text "id"))] (tc_name t);
                                 Some (value_named columns row n))) columns).
Proof.
  split; [reflexivity|]. split; [reflexivity|].
  apply (@columns_are_mapped_by_name text_values columns columns [mkOverride (text "name") (Some (text "id"))]).
  apply (bool_decide_unpack _). vm_compute. exact I.
Defined.

Lemma migration_loads_parents_first_witness :
  [plan] ≡ₚ [plan] /\
  forall i child parent fk, [plan] !! i = Some child -> parent ∈ [plan] -> parent <> child -> fk ∈ [] ->
    DependencyOrder.name (plan_ref child) = DependencyOrder.table_name fk ->
    DependencyOrder.name (plan_ref parent) = DependencyOrder.referenced_table fk ->
    exists j, (j < i)%nat /\ [plan] !! j = Some parent.
Proof.
  apply (@migration_loads_parents_first text_values driver From options [plan] (ts_db (start 9)) [] [plan]).
  - reflexivity.
  - reflexivity.
  - apply NoDup_singleton.
  - vm_compute. reflexivity.
Defined.

End Demo.
