(* ===== verification/DdlApply.v ===== *)
(** * Applying selected schema differences (crates/dbflux_ui_document:
      schema_diff/diff_source.rs, schema_diff/apply.rs)

    The selected changes of a table become statements of the driver's generator,
    or one request to the driver's own planner; every table is prepared before
    any is changed; then each is run, in a transaction where the driver has
    transactional DDL and statement by statement where it has not, with audit
    events around it.  The driver is a parameter: its generators, its planner and
    what running a statement does. *)

From S2P Require Import Prelude RustStr External RustChar Classification VisualQuery TransactionControl Events SchemaDrift.

Module DdlApply.
Import SchemaDrift.
Import TxControl(DbKind, TransactionVocab, begin, commit, rollback, for_kind).
Import Alter(OwnedDefaultSpec, TableAlterOperation, TableAlterExpectedColumn, TableAlterRequest).

(** ** What a driver offers (sql/code_generation.rs) *)

Record DdlRejection := mkRejection { dr_reason : list char; dr_followup : option (list char) }.

Record AddColumnRequest := mkAddColumn {
  ac_table_name : list char;
  ac_schema_name : option (list char);
  ac_column_name : list char;
  ac_type_name : list char;
  ac_nullable : bool;
  ac_default : option (list char);
}.

Record DropColumnRequest := mkDropColumn {
  dc_table_name : list char;
  dc_schema_name : option (list char);
  dc_column_name : list char;
}.

Record AlterColumnRequest := mkAlterColumn {
  al_table_name : list char;
  al_schema_name : option (list char);
  al_column_name : list char;
  al_new_type : option (list char);
  al_nullable : option bool;
  al_default : option OwnedDefaultSpec;
}.

Record CreateIndexRequest := mkCreateIndex {
  cr_index_name : list char;
  cr_table_name : list char;
  cr_schema_name : option (list char);
  cr_columns : list (list char);
  cr_unique : bool;
}.

Record DropIndexRequest := mkDropIndex {
  di_index_name : list char;
  di_table_name : option (list char);
  di_schema_name : option (list char);
}.

Inductive TableAlterRoute : Type := Native | Rebuild.

Record TableAlterPreview := mkPreview {
  pv_route : TableAlterRoute;
  pv_statements : list (list char);
  pv_warnings : list (list char);
  pv_table_atomic : bool;
  pv_driver_managed : bool;
}.

Record TableAlterOutcome := mkOutcome { to_statement_count : Z; to_table_atomic : bool }.

(** A connection ([Conn]) to a database in some state ([Db]): the generators, the
    planner, and the run of a statement.  Errors are their displayed text. *)
Class DdlDriver := {
  Conn : Type;
  Db : Type;
  Plan : Type;
  CreationMetadata : Type;
  kind : Conn -> DbKind;
  supports_transactional_ddl : Conn -> bool;
  generate_add_column : Conn -> AddColumnRequest -> result (list (list char)) DdlRejection;
  generate_drop_column : Conn -> DropColumnRequest -> result (list (list char)) DdlRejection;
  generate_alter_column : Conn -> AlterColumnRequest -> result (list (list char)) DdlRejection;
  generate_create_index : Conn -> CreateIndexRequest -> option (list char);
  generate_drop_index : Conn -> DropIndexRequest -> option (list char);
  generate_code : Conn -> list char -> TableInfo -> result (list char) (list char);
  generate_code_with_creation_metadata :
    Conn -> list char -> TableInfo -> option CreationMetadata -> result (list char) (list char);
  table_alter_planner : Conn -> option (TableAlterRequest -> result Plan (list char));
  plan_preview : Plan -> TableAlterPreview;
  plan_execute : Plan -> Db -> Db * result TableAlterOutcome (list char);
  run_sql : Conn -> list char -> Db -> Db * result unit (list char);
}.

(** [dbflux_i18n::t!]: the text of a key in the user's language. *)
Class Translations := translate : string -> list char.

Inductive MutationPolicy : Type := Allowed | ReadOnly | ApprovalRequired.
Inductive ReadOnlyReason : Type := ProfileSetting | ServerEnforced.

Definition read_only_message `{Translations} (reason : option ReadOnlyReason) : list char :=
  match reason with
  | Some ProfileSetting => translate "document.schema_diff.apply.read_only_profile"
  | Some ServerEnforced => translate "document.schema_diff.apply.read_only_server"
  | None => translate "document.schema_diff.apply.read_only"
  end.

(** ** Outcomes *)

Inductive DdlApplyOutcome : Type :=
| Success (statements_executed : nat) (atomic : bool)
| PartialFailure (statements_executed failed_at : nat) (error : list char)
| Deferred
| Blocked (reason : list char).

Inductive ExecutorError : Type :=
| Generation (msg : list char)
| Policy (msg : list char)
| Execution (msg : list char)
| Transaction (msg : list char)
| RollbackFailed (context error rollback_error : list char).

Section Apply.
Context `{UuidLib, Translations, DdlDriver}.

(** ** Statements of a change *)

Definition build_statements_for_change (c : Conn) (table : TableRef) (change : SchemaChange)
  : result (list (list char)) DdlRejection :=
  match change with
  | ColumnAdded column =>
      generate_add_column c (mkAddColumn (tr_name table) (tr_schema table) (cs_name column)
        (cs_type_name column) (cs_nullable column) (cs_default_value column))
  | ColumnRemoved column =>
      generate_drop_column c (mkDropColumn (tr_name table) (tr_schema table) (cs_name column))
  | ColumnTypeChanged before after =>
      generate_alter_column c (mkAlterColumn (tr_name table) (tr_schema table) (cs_name before)
        (Some (cs_type_name after)) None None)
  | NullabilityChanged column _ after =>
      generate_alter_column c (mkAlterColumn (tr_name table) (tr_schema table) column
        None (Some after) None)
  | DefaultChanged column _ after =>
      generate_alter_column c (mkAlterColumn (tr_name table) (tr_schema table) column None None
        (Some match after with Some v => Alter.Set_ v | None => Alter.Drop end))
  | IndexAdded index =>
      match generate_create_index c (mkCreateIndex (is_name index) (tr_name table)
              (tr_schema table) (is_columns index) (is_is_unique index)) with
      | Some stmt => Ok [stmt]
      | None => Err (mkRejection (text "driver cannot generate CREATE INDEX for " ++ is_name index) None)
      end
  | IndexRemoved index =>
      match generate_drop_index c (mkDropIndex (is_name index) (Some (tr_name table))
              (tr_schema table)) with
      | Some stmt => Ok [stmt]
      | None => Err (mkRejection (text "driver cannot generate DROP INDEX for " ++ is_name index) None)
      end
  | PrimaryKeyChanged _ _ | ForeignKeyChanged =>
      Err (mkRejection (text "constraint changes are not yet supported by automatic DDL apply") None)
  end.

Inductive TableLevelAction : Type :=
| Create (table : TableInfo) (metadata : option CreationMetadata)
| DropT (table : TableRef).

Definition table_info_from_ref (table : TableRef) : TableInfo :=
  mkTableInfo (tr_name table) (tr_schema table) None None None.

Definition build_statements_for_table_action (c : Conn) (action : TableLevelAction)
  : result (list (list char)) DdlRejection :=
  map_err (fun e => mkRejection e None) (map_ok (fun sql => [sql])
    match action with
    | Create table metadata =>
        generate_code_with_creation_metadata c (text "create_table") table metadata
    | DropT table => generate_code c (text "drop_table") (table_info_from_ref table)
    end).

(** The statements of the changes from position [index] on. *)
Fixpoint build_changes (c : Conn) (table : TableRef) (index : nat) (changes : list RiskedChange)
  : result (list (list char)) ExecutorError :=
  match changes with
  | [] => Ok []
  | risked :: rest =>
      let? stmts :=
        map_err (fun rejection => Generation (text "change " ++ decimal (N.of_nat index)
                   ++ text " rejected: " ++ dr_reason rejection))
          (build_statements_for_change c table (rc_change risked)) in
      let? more := build_changes c table (S index) rest in
      Ok (stmts ++ more)
  end.

Definition build_all_statements (c : Conn) (table : TableRef) (changes : list RiskedChange)
  (table_action : option TableLevelAction) : result (list (list char)) ExecutorError :=
  let? first :=
    match table_action with
    | Some action =>
        map_err (fun rejection => Generation (text "table action rejected: " ++ dr_reason rejection))
          (build_statements_for_table_action c action)
    | None => Ok []
    end in
  let? rest := build_changes c table 0 changes in
  Ok (first ++ rest).

(** ** The route of a table (diff_source.rs) *)

Definition is_managed_table_alter_candidate (change : SchemaChange) : bool :=
  match change with
  | ColumnRemoved _ | ColumnTypeChanged _ _ | NullabilityChanged _ _ _ | DefaultChanged _ _ _ => true
  | _ => false
  end.

Inductive SelectedTableAlterRoute : Type :=
| LegacyRoute
| ManagedRoute (request : TableAlterRequest).

Definition select_table_alter_route (table : TableRef) (selected : list RiskedChange)
  (has_table_alter_planner : bool) : result SelectedTableAlterRoute (list char) :=
  let has_managed_candidate :=
    existsb (fun risked => is_managed_table_alter_candidate (rc_change risked)) selected in
  if negb has_table_alter_planner || negb has_managed_candidate then Ok LegacyRoute
  else map_err reason (map_ok ManagedRoute
         (normalize_selected_table_alter table (map rc_change selected))).

Record UnsupportedChange := mkUnsupported {
  uc_change : SchemaChange;
  uc_risk : ExecutionClassification;
  uc_reason : list char;
  uc_followup : option (list char);
}.

(** [(applicable, unsupported)]. *)
Definition PartitionedChanges : Type := list RiskedChange * list UnsupportedChange.

Fixpoint partition_table_changes_for_route (c : Conn) (table : TableRef)
  (has_table_alter_planner : bool) (changes : list RiskedChange) : PartitionedChanges :=
  match changes with
  | [] => ([], [])
  | risked :: rest =>
      let '(applicable, unsupported) :=
        partition_table_changes_for_route c table has_table_alter_planner rest in
      if has_table_alter_planner && is_managed_table_alter_candidate (rc_change risked) then
        (risked :: applicable, unsupported)
      else match build_statements_for_change c table (rc_change risked) with
           | Ok _ => (risked :: applicable, unsupported)
           | Err rejection =>
               (applicable, mkUnsupported (rc_change risked) (rc_risk risked) (dr_reason rejection)
                              (dr_followup rejection) :: unsupported)
           end
  end.

Definition partition_table_changes (c : Conn) (table : TableRef) (changes : list RiskedChange)
  : PartitionedChanges := partition_table_changes_for_route c table false changes.

Inductive RiskBadge : Type := Safe | Warning | Destructive.

Definition from_classification (classification : ExecutionClassification) : RiskBadge :=
  match classification with
  | Classification.Metadata | Classification.Read | Classification.AdminSafe => Safe
  | Classification.Write | Classification.Admin => Warning
  | Classification.Destructive | Classification.AdminDestructive => Destructive
  end.

Inductive TableActionOutcome : Type :=
| Applicable (action : TableLevelAction) (risk : ExecutionClassification)
| UnsupportedAction (is_create : bool) (risk : ExecutionClassification) (reason : list char)
    (followup : option (list char)).

Definition classify_table_action (action : TableLevelAction)
  (probe : result (list (list char)) DdlRejection) : TableActionOutcome :=
  let is_create := match action with Create _ _ => true | DropT _ => false end in
  let risk := if is_create then classify_table_added else classify_table_removed in
  match probe with
  | Ok _ => Applicable action risk
  | Err rejection => UnsupportedAction is_create risk (dr_reason rejection) (dr_followup rejection)
  end.

(** ** The executor *)

Record DdlApplyDeps := mkDeps {
  dd_connection : Conn;
  dd_event_sink : bool;
  dd_connection_id : string;
  dd_driver_id : string;
  dd_policy : MutationPolicy;
  dd_read_only_reason : option ReadOnlyReason;
}.

Inductive FrozenTableExecution : Type :=
| Managed (plan : Plan)
| Legacy (statements : list (list char)).

Record FrozenDdlApply := mkFrozen {
  fz_table : TableRef;
  fz_deps : DdlApplyDeps;
  fz_execution : FrozenTableExecution;
}.

Record DdlApplyExecutor := mkExecutor {
  ex_table : TableRef;
  ex_changes : list RiskedChange;
  ex_table_action : option TableLevelAction;
  ex_deps : DdlApplyDeps;
}.

Definition executor_new (table : TableRef) (changes : list RiskedChange) (deps : DdlApplyDeps)
  : DdlApplyExecutor := mkExecutor table changes None deps.
Definition with_table_action (action : TableLevelAction) (x : DdlApplyExecutor) : DdlApplyExecutor :=
  mkExecutor (ex_table x) (ex_changes x) (Some action) (ex_deps x).

Definition frozen_preview_statements (f : FrozenDdlApply) : list (list char) :=
  match fz_execution f with
  | Managed plan => pv_statements (plan_preview plan)
  | Legacy statements => statements
  end.

Definition frozen_preview_warnings (f : FrozenDdlApply) : list (list char) :=
  match fz_execution f with
  | Managed plan => pv_warnings (plan_preview plan)
  | Legacy _ => []
  end.

Definition ensure_preparation_allowed (x : DdlApplyExecutor) : result unit ExecutorError :=
  match dd_policy (ex_deps x) with
  | Allowed => Ok tt
  | ReadOnly => Err (Policy (read_only_message (dd_read_only_reason (ex_deps x))))
  | ApprovalRequired => Err (Policy (text "schema changes require approval before preparation"))
  end.

Definition prepare_execution (x : DdlApplyExecutor) : result FrozenTableExecution ExecutorError :=
  let c := dd_connection (ex_deps x) in
  let? route := map_err Generation
    (select_table_alter_route (ex_table x) (ex_changes x) (bool_decide (is_Some (table_alter_planner c)))) in
  match route with
  | ManagedRoute request =>
      match ex_table_action x with
      | Some _ => Err (Generation (text "table-level actions cannot be mixed with a managed table alteration"))
      | None =>
          match table_alter_planner c with
          | None => Err (Generation (text "managed table alteration planner disappeared during preparation"))
          | Some planner_prepare =>
              map_ok Managed (map_err
                (fun e => Generation (text "managed table alteration rejected: " ++ e))
                (planner_prepare request))
          end
      end
  | LegacyRoute => map_ok Legacy (build_all_statements c (ex_table x) (ex_changes x) (ex_table_action x))
  end.

Definition prepare (x : DdlApplyExecutor) : result FrozenDdlApply ExecutorError :=
  let? _ := ensure_preparation_allowed x in
  map_ok (mkFrozen (ex_table x) (ex_deps x)) (prepare_execution x).

Definition prepare_all (executors : list DdlApplyExecutor) : result (list FrozenDdlApply) ExecutorError :=
  let? _ := try_map ensure_preparation_allowed executors in
  try_map prepare executors.

Definition preview_statements (x : DdlApplyExecutor) : result (list (list char)) ExecutorError :=
  map_ok frozen_preview_statements (prepare x).

(** ** Running *)

(** The database, the environment, and the events handed to the sink. *)
Record ApplyState := mkState {
  st_db : Db;
  st_world : World;
  st_events : list EventRecord;
}.

Abbreviation RunM := (SM ApplyState ExecutorError).

Definition count (n : nat) : list char := decimal (N.of_nat n).

Definition on_world {A} (f : SM World ExecutorError A) : RunM A :=
  sm_zoom st_world (fun w s => mkState (st_db s) w (st_events s)) f.

Definition now_ms : RunM Z :=
  on_world (t ← read_clock; mret (i64_wrap (Z.max 0 t))).

Definition new_run_id : RunM string := on_world (id ← uuid_new_v4; mret (uuid_to_string id)).

(** [Connection::execute]: the result of the call, as a value. *)
Definition run_statement (c : Conn) (sql : list char) : RunM (result unit (list char)) :=
  fun s => let '(db, r) := run_sql c sql (st_db s) in (mkState db (st_world s) (st_events s), Ok r).

Definition set_connection (d : DdlApplyDeps) (e : EventRecord) : EventRecord :=
  mkEvent (ev_id e) (ev_ts_ms e) (ev_level e) (ev_category e) (ev_action e) (ev_outcome e)
    (ev_actor_type e) (ev_actor_id e) (ev_source_id e) (Some (dd_connection_id d))
    (ev_database_name e) (Some (dd_driver_id d)) (ev_object_type e) (ev_object_id e)
    (ev_summary e) (ev_details_json e) (ev_error_code e) (ev_error_message e)
    (ev_duration_ms e) (ev_session_id e) (ev_correlation_id e).

(** An error of the sink is logged and dropped. *)
Definition emit_event (d : DdlApplyDeps) (e : EventRecord) : RunM unit :=
  sm_modify (fun s => if dd_event_sink d then
                        mkState (st_db s) (st_world s) (st_events s ++ [set_connection d e])
                      else s).

(** The event all of them start from. *)
Definition apply_event (level : EventSeverity.t) (outcome : EventOutcome.t) (run_id : string)
  (summary : list char) : RunM EventRecord :=
  now ← now_ms;
  mret (with_correlation_id run_id (with_summary (str_of summary)
          (with_action "schema_diff.apply" (event_new now level EventCategory.Query outcome)))).

Definition emit_pending_event (d : DdlApplyDeps) (run_id : string) (summary : list char) : RunM unit :=
  e ← apply_event EventSeverity.Info EventOutcome.Pending run_id summary;
  emit_event d e.

Definition emit_success_event (d : DdlApplyDeps) (table : TableRef) (run_id : string)
  (statements_executed : list char) (atomic : bool) : RunM unit :=
  e ← apply_event EventSeverity.Info EventOutcome.Success run_id
        (text "applied " ++ statements_executed ++ text " DDL statement(s) to " ++ tr_name table
         ++ text " (" ++ text (if atomic then "atomic" else "non-atomic") ++ text ")");
  emit_event d e.

Definition emit_partial_failure_event (d : DdlApplyDeps) (table : TableRef) (run_id : string)
  (statements_executed : nat) (error : list char) : RunM unit :=
  e ← apply_event EventSeverity.Error EventOutcome.Failure run_id
        (text "DDL apply to " ++ tr_name table ++ text " stopped after " ++ count statements_executed
         ++ text " statement(s) (non-atomic, not rolled back): " ++ error);
  emit_event d (with_error "ddl_apply_partial_failure" (str_of error) e).

Definition emit_failure_event (d : DdlApplyDeps) (table : TableRef) (run_id : string)
  (error : list char) : RunM unit :=
  e ← apply_event EventSeverity.Error EventOutcome.Failure run_id
        (text "DDL apply to " ++ tr_name table ++ text " failed: " ++ error);
  emit_event d (with_error "ddl_apply_failed" (str_of error) e).

Definition emit_rollback_failed_event (d : DdlApplyDeps) (table : TableRef) (run_id : string)
  (error rollback_error : list char) : RunM unit :=
  e ← apply_event EventSeverity.Error EventOutcome.Failure run_id
        (text "DDL apply to " ++ tr_name table ++ text " failed (" ++ error
         ++ text ") and ROLLBACK also failed (" ++ rollback_error
         ++ text "); transaction not rolled back, schema state uncertain");
  emit_event d (with_error "ddl_apply_rollback_failed"
    (str_of (error ++ text "; rollback failed: " ++ rollback_error)) e).

Definition attempt_rollback (c : Conn) (vocab : TransactionVocab) : RunM (result unit (list char)) :=
  run_statement c (text (rollback vocab)).

(** The error of a failed transaction, after the attempt to roll it back. *)
Definition rollback_and_classify (d : DdlApplyDeps) (table : TableRef) (vocab : TransactionVocab)
  (run_id : string) (context original_error : list char) : RunM ExecutorError :=
  rolled ← attempt_rollback (dd_connection d) vocab;
  match rolled with
  | Ok _ =>
      _ ← emit_failure_event d table run_id original_error;
      mret (Transaction (text "DDL apply aborted and rolled back " ++ context ++ text ": " ++ original_error))
  | Err rollback_error =>
      _ ← emit_rollback_failed_event d table run_id original_error rollback_error;
      mret (RollbackFailed context original_error rollback_error)
  end.

(** The loop of a transaction: the statements from position [index] on. *)
Fixpoint run_in_transaction (d : DdlApplyDeps) (table : TableRef) (vocab : TransactionVocab)
  (run_id : string) (index : nat) (statements : list (list char)) : RunM unit :=
  match statements with
  | [] => mret tt
  | statement :: rest =>
      r ← run_statement (dd_connection d) statement;
      match r with
      | Ok _ => run_in_transaction d table vocab run_id (S index) rest
      | Err e =>
          error ← rollback_and_classify d table vocab run_id (text "at statement " ++ count index) e;
          sm_err error
      end
  end.

Definition apply_transactional (d : DdlApplyDeps) (table : TableRef) (statements : list (list char))
  (run_id : string) : RunM DdlApplyOutcome :=
  vocab ← sm_lift (ok_or (for_kind (kind (dd_connection d)))
                     (Transaction (text "driver does not support SQL transactions")));
  begun ← run_statement (dd_connection d) (text (begin vocab));
  match begun with
  | Err e =>
      _ ← emit_failure_event d table run_id e;
      sm_err (Transaction e)
  | Ok _ =>
      _ ← run_in_transaction d table vocab run_id 0 statements;
      committed ← run_statement (dd_connection d) (text (commit vocab));
      match committed with
      | Err e =>
          error ← rollback_and_classify d table vocab run_id (text "during COMMIT") e;
          sm_err error
      | Ok _ =>
          _ ← emit_success_event d table run_id (count (length statements)) true;
          mret (Success (length statements) true)
      end
  end.

Fixpoint run_non_atomic (d : DdlApplyDeps) (table : TableRef) (run_id : string) (executed : nat)
  (statements : list (list char)) : RunM DdlApplyOutcome :=
  match statements with
  | [] =>
      _ ← emit_success_event d table run_id (count executed) false;
      mret (Success executed false)
  | statement :: rest =>
      r ← run_statement (dd_connection d) statement;
      match r with
      | Ok _ => run_non_atomic d table run_id (S executed) rest
      | Err e =>
          _ ← emit_partial_failure_event d table run_id executed e;
          mret (PartialFailure executed executed e)
      end
  end.

Definition apply_non_atomic (d : DdlApplyDeps) (table : TableRef) (statements : list (list char))
  (run_id : string) : RunM DdlApplyOutcome := run_non_atomic d table run_id 0 statements.

Definition apply_frozen_legacy (d : DdlApplyDeps) (table : TableRef) (statements : list (list char))
  : RunM DdlApplyOutcome :=
  match statements with
  | [] => mret (Success 0 true)
  | _ =>
      run_id ← new_run_id;
      _ ← emit_pending_event d run_id
            (text "apply " ++ count (length statements) ++ text " DDL statement(s) to " ++ tr_name table);
      if supports_transactional_ddl (dd_connection d) then apply_transactional d table statements run_id
      else apply_non_atomic d table statements run_id
  end.

Definition apply_managed (d : DdlApplyDeps) (table : TableRef) (plan : Plan) : RunM DdlApplyOutcome :=
  run_id ← new_run_id;
  _ ← emit_pending_event d run_id (text "apply driver-managed table alteration to " ++ tr_name table);
  r ← (fun s => let '(db, r) := plan_execute plan (st_db s) in
                (mkState db (st_world s) (st_events s), Ok r) : ApplyState * result _ ExecutorError);
  match r with
  | Ok outcome =>
      _ ← emit_success_event d table run_id (decimal (Z.to_N (to_statement_count outcome)))
            (to_table_atomic outcome);
      mret (Success (Z.to_nat (to_statement_count outcome)) (to_table_atomic outcome))
  | Err error =>
      _ ← emit_failure_event d table run_id error;
      sm_err (Execution error)
  end.

(** [FrozenDdlApply::execute]. *)
Definition execute (f : FrozenDdlApply) : RunM DdlApplyOutcome :=
  match dd_policy (fz_deps f) with
  | ApprovalRequired => mret Deferred
  | ReadOnly => mret (Blocked (read_only_message (dd_read_only_reason (fz_deps f))))
  | Allowed =>
      match fz_execution f with
      | Managed plan => apply_managed (fz_deps f) (fz_table f) plan
      | Legacy statements => apply_frozen_legacy (fz_deps f) (fz_table f) statements
      end
  end.

(** [DdlApplyExecutor::apply]. *)
Definition apply (x : DdlApplyExecutor) : RunM DdlApplyOutcome :=
  match dd_policy (ex_deps x) with
  | ApprovalRequired => mret Deferred
  | ReadOnly => mret (Blocked (read_only_message (dd_read_only_reason (ex_deps x))))
  | Allowed => f ← sm_lift (prepare x); execute f
  end.

Record FrozenApplyRunOutcome := mkRunOutcome { ro_statements_applied : nat; ro_tables_applied : nat }.

Record FrozenApplyFailure := mkRunFailure {
  rf_failed_table : TableRef;
  rf_tables_applied : nat;
  rf_statements_applied : nat;
  rf_error : ExecutorError;
}.

(** The loop of [execute_all] with its two counts. *)
Fixpoint execute_tables (statements_applied tables_applied : nat) (tables : list FrozenDdlApply)
  (s : ApplyState) : ApplyState * result FrozenApplyRunOutcome FrozenApplyFailure :=
  match tables with
  | [] => (s, Ok (mkRunOutcome statements_applied tables_applied))
  | table :: rest =>
      match execute table s with
      | (s', Ok (Success n _)) => execute_tables (statements_applied + n) (S tables_applied) rest s'
      | (s', Ok (PartialFailure n _ e)) =>
          (s', Err (mkRunFailure (fz_table table) tables_applied (statements_applied + n) (Execution e)))
      | (s', Ok (Deferred | Blocked _)) =>
          (s', Err (mkRunFailure (fz_table table) tables_applied statements_applied
                      (Execution (text "frozen table execution was not authorized"))))
      | (s', Err e) => (s', Err (mkRunFailure (fz_table table) tables_applied statements_applied e))
      end
  end.

Definition execute_all (tables : list FrozenDdlApply) (s : ApplyState)
  : ApplyState * result FrozenApplyRunOutcome FrozenApplyFailure := execute_tables 0 0 tables s.

End Apply.
End DdlApply.
