(* ===== verification/DdlApplyProps.v ===== *)
(** * An applied schema difference is what the outcome says it is

    Against the contract of a connection (transactions isolate, a failed statement
    changes nothing, a statement outside a transaction is committed at once), the
    counts a run reports are the statements the database holds, and every run is
    closed by one audit event. *)

From S2P Require Import Prelude RustStr External Concrete RustChar Classification VisualQuery TransactionControl Events SchemaDrift SchemaDriftProps DdlApply.

Module DdlApplyProps.
Import SchemaDrift DdlApply.
Import TableAlterProps(change_column, select_change_spec).
Import TxControl(DbKind, TransactionVocab, begin, commit, rollback, for_kind).

(** ** The contract of a connection *)

(** What a database holds for everyone ([committed]), what the transaction of
    this connection sees if one is open ([working]), and what a statement does. *)
Class DdlDatabase `{DdlDriver} := {
  Content : Type;
  committed : Db -> Content;
  working : Db -> option Content;
  effect : Conn -> list char -> Content -> Content;
  is_ddl : Conn -> list char -> Prop;
  plan_steps : Plan -> list (Content -> Content);
}.

(** What a content becomes by some changes, one after the other. *)
Definition run_steps {A} (steps : list (A -> A)) (x : A) : A := foldl (fun x f => f x) x steps.

Class TransactionLaws `{DdlDatabase} (c : Conn) (v : TransactionVocab) : Prop := {
  begin_law db : working db = None ->
    match run_sql c (text (begin v)) db with
    | (db', Ok _) => committed db' = committed db /\ working db' = Some (committed db)
    | (db', Err _) => committed db' = committed db /\ working db' = None
    end;
  inside_law sql db w : is_ddl c sql -> working db = Some w ->
    match run_sql c sql db with
    | (db', Ok _) => committed db' = committed db /\ working db' = Some (effect c sql w)
    | (db', Err _) => committed db' = committed db
    end;
  commit_law db w : working db = Some w ->
    match run_sql c (text (commit v)) db with
    | (db', Ok _) => committed db' = w /\ working db' = None
    | (db', Err _) => committed db' = committed db
    end;
  rollback_law db :
    match run_sql c (text (rollback v)) db with
    | (db', Ok _) => committed db' = committed db /\ working db' = None
    | (db', Err _) => committed db' = committed db
    end;
}.

Class AutocommitLaws `{DdlDatabase} (c : Conn) : Prop :=
  autocommit_law sql db : is_ddl c sql -> working db = None ->
    match run_sql c sql db with
    | (db', Ok _) => committed db' = effect c sql (committed db) /\ working db' = None
    | (db', Err _) => committed db' = committed db /\ working db' = None
    end.

(** A plan of the driver makes its changes, one for each statement it counts, or
    fails and changes nothing. *)
Class PlanLaws `{DdlDatabase} (p : Plan) : Prop :=
  plan_law db : working db = None ->
    match plan_execute p db with
    | (db', Ok o) => committed db' = run_steps (plan_steps p) (committed db) /\ working db' = None /\
        to_statement_count o = Z.of_nat (length (plan_steps p))
    | (db', Err _) => committed db' = committed db
    end.

Section Runs.
Context `{UuidLib, Translations, DdlDatabase}.
Implicit Types (s : ApplyState) (d : DdlApplyDeps).

Definition effects (c : Conn) (sqls : list (list char)) (x : Content) : Content :=
  foldl (fun x sql => effect c sql x) x sqls.

Lemma effects_app c l k x : effects c (l ++ k) x = effects c k (effects c l x).
Proof. unfold effects. apply foldl_app. Qed.

(** The statements an outcome says were applied. *)
Definition applied (r : result DdlApplyOutcome ExecutorError) : nat :=
  match r with
  | Ok (Success n _) => n
  | Ok (PartialFailure n _ _) => n
  | _ => 0
  end.

Definition rollback_failed (r : result DdlApplyOutcome ExecutorError) : bool :=
  match r with Err (RollbackFailed _ _ _) => true | _ => false end.

(** ** Events *)

(** What one operation of the run [run_id] tells the sink, if there is one. *)
Definition emits (outcome : EventOutcome.t) (run_id : string) (d : DdlApplyDeps)
  (events events' : list EventRecord) : Prop :=
  if dd_event_sink d then
    exists e, events' = events ++ [e] /\ ev_outcome e = outcome /\
      ev_correlation_id e = Some run_id /\ ev_connection_id e = Some (dd_connection_id d)
  else events' = events.

(** The operations that emit an event go through and leave the database alone. *)
Definition emit_ok (outcome : EventOutcome.t) (run_id : string) (d : DdlApplyDeps)
  (m : SM ApplyState ExecutorError unit) : Prop :=
  forall s, exists s', m s = (s', Ok tt) /\ st_db s' = st_db s /\
    emits outcome run_id d (st_events s) (st_events s').

Ltac solve_emit d :=
  intros s; eexists; split; [reflexivity|]; unfold emits; destruct (dd_event_sink d); simpl; split; eauto.

Lemma emit_pending_spec d run_id summary :
  emit_ok EventOutcome.Pending run_id d (emit_pending_event d run_id summary).
Proof. solve_emit d. Qed.

Lemma emit_success_spec d table run_id n atomic :
  emit_ok EventOutcome.Success run_id d (emit_success_event d table run_id n atomic).
Proof. solve_emit d. Qed.

Lemma emit_failure_spec d table run_id e :
  emit_ok EventOutcome.Failure run_id d (emit_failure_event d table run_id e).
Proof. solve_emit d. Qed.

Lemma emit_partial_failure_spec d table run_id n e :
  emit_ok EventOutcome.Failure run_id d (emit_partial_failure_event d table run_id n e).
Proof. solve_emit d. Qed.

Lemma emit_rollback_failed_spec d table run_id e re :
  emit_ok EventOutcome.Failure run_id d (emit_rollback_failed_event d table run_id e re).
Proof. solve_emit d. Qed.

Lemma run_statement_eq c sql s :
  run_statement c sql s =
  (mkState (run_sql c sql (st_db s)).1 (st_world s) (st_events s), Ok (run_sql c sql (st_db s)).2).
Proof. unfold run_statement. by destruct (run_sql c sql (st_db s)). Qed.

(** Run the event operation at the head of the goal, of which [H] is the fact. *)
Ltac run_event H s' Hdb Hev :=
  match goal with
  | |- context [(?m ≫= ?f) ?s] =>
      let Hs := fresh "Hs" in
      destruct (H s) as (s' & Hs & Hdb & Hev); rewrite (sm_bind_ok m f s s' tt Hs)
  end.

(** ** Transactions *)

Section Transaction.
Context (d : DdlApplyDeps) (table : TableRef) (v : TransactionVocab) (run_id : string).
Context `{!TransactionLaws (dd_connection d) v}.
Abbreviation c := (dd_connection d).

(** A run that ended in the error [e] has changed nothing. *)
Definition undone s s' (e : ExecutorError) : Prop :=
  committed (st_db s') = committed (st_db s) /\
  (rollback_failed (Err e) = false -> working (st_db s') = None) /\
  emits EventOutcome.Failure run_id d (st_events s) (st_events s').

Lemma rollback_and_classify_spec context original s :
  exists s' e, rollback_and_classify d table v run_id context original s = (s', Ok e) /\ undone s s' e.
Proof.
  unfold rollback_and_classify, attempt_rollback.
  rewrite (sm_bind_ok _ _ s _ _ (run_statement_eq c (text (rollback v)) s)).
  pose proof (rollback_law (st_db s)) as Hlaw.
  destruct (run_sql c (text (rollback v)) (st_db s)) as [db' [[]|re]]; simpl.
  - destruct Hlaw as [Hc Hw].
    run_event (emit_failure_spec d table run_id original) s' Hdb Hev.
    eexists s', _. split; [done|]. unfold undone. by rewrite Hdb.
  - run_event (emit_rollback_failed_spec d table run_id original re) s' Hdb Hev.
    eexists s', _. split; [done|]. unfold undone. by rewrite Hdb.
Qed.

Lemma fail_with context original s :
  exists s' e, (error ← rollback_and_classify d table v run_id context original; sm_err error) s
    = (s', Err e : result unit ExecutorError) /\ undone s s' e.
Proof.
  destruct (rollback_and_classify_spec context original s) as (s' & e & Hr & Hu).
  exists s', e. by rewrite (sm_bind_ok _ _ s s' e Hr).
Qed.

Lemma undone_trans s1 s2 s3 e :
  committed (st_db s2) = committed (st_db s1) -> st_events s2 = st_events s1 ->
  undone s2 s3 e -> undone s1 s3 e.
Proof. unfold undone. by intros -> ->. Qed.

Lemma run_in_transaction_spec statements index w s :
  Forall (is_ddl c) statements -> working (st_db s) = Some w ->
  (exists s', run_in_transaction d table v run_id index statements s = (s', Ok tt) /\
     committed (st_db s') = committed (st_db s) /\
     working (st_db s') = Some (effects c statements w) /\ st_events s' = st_events s) \/
  (exists s' e, run_in_transaction d table v run_id index statements s = (s', Err e) /\ undone s s' e).
Proof.
  revert index w s. induction statements as [|sql rest IH]; intros index w s Hddl Hw; [left; by eexists|].
  apply Forall_cons in Hddl as [Hsql Hrest]. cbn [run_in_transaction].
  rewrite (sm_bind_ok _ _ s _ _ (run_statement_eq c sql s)).
  pose proof (inside_law sql (st_db s) w Hsql Hw) as Hlaw.
  destruct (run_sql c sql (st_db s)) as [db' [[]|e]]; cbn [fst snd].
  - destruct Hlaw as [Hc Hw'].
    destruct (IH (S index) (effect c sql w) (mkState db' (st_world s) (st_events s)) Hrest Hw')
      as [(s' & Hrun & Hc' & Hw2 & Hev)|(s' & e & Hrun & Hu)].
    + left. exists s'. rewrite Hrun, Hc', Hw2, Hev. by split_and!.
    + right. exists s', e. split; [done|]. by apply (undone_trans s (mkState db' (st_world s) (st_events s))).
  - right. destruct (fail_with (text "at statement " ++ count index) e
      (mkState db' (st_world s) (st_events s))) as (s' & e' & Hrun & Hu).
    exists s', e'. rewrite Hrun. split; [done|].
    by apply (undone_trans s (mkState db' (st_world s) (st_events s))).
Qed.
End Transaction.

(** ** Whole runs *)

(** A run reports the statements the database now holds, leaves no transaction
    open unless it says that it could not be rolled back, and ends with one event
    that says whether it succeeded. *)
Record honest_run (d : DdlApplyDeps) (run_id : string) (statements : list (list char)) s s'
  (r : result DdlApplyOutcome ExecutorError) : Prop := {
  hr_applied : (applied r <= length statements)%nat;
  hr_committed : committed (st_db s') =
    effects (dd_connection d) (take (applied r) statements) (committed (st_db s));
  hr_closed : rollback_failed r = false -> working (st_db s') = None;
  hr_success n atomic : r = Ok (Success n atomic) -> n = length statements;
  hr_event : emits (match r with Ok (Success _ _) => EventOutcome.Success | _ => EventOutcome.Failure end)
    run_id d (st_events s) (st_events s');
}.

Lemma undone_honest d run_id statements s s' e :
  undone d run_id s s' e -> honest_run d run_id statements s s' (Err e).
Proof. intros (Hc & Hw & Hev). split; simpl; [lia|done|done|done|done]. Qed.

Lemma apply_transactional_spec d table v statements run_id s :
  for_kind (kind (dd_connection d)) = Some v -> TransactionLaws (dd_connection d) v ->
  Forall (is_ddl (dd_connection d)) statements -> working (st_db s) = None ->
  exists s' r, apply_transactional d table statements run_id s = (s', r) /\
    honest_run d run_id statements s s' r.
Proof.
  intros Hv Hlaws Hddl Hw. unfold apply_transactional. rewrite Hv. simpl.
  rewrite (sm_bind_ok _ _ s s v eq_refl).
  rewrite (sm_bind_ok _ _ s _ _ (run_statement_eq (dd_connection d) (text (begin v)) s)).
  pose proof (begin_law (st_db s) Hw) as Hbegin.
  destruct (run_sql _ (text (begin v)) (st_db s)) as [db1 [[]|e]]; cbn [fst snd]; destruct Hbegin as [Hc1 Hw1].
  2: { run_event (emit_failure_spec d table run_id e) s' Hdb Hev.
       eexists s', _. split; [done|]. apply undone_honest. unfold undone. by rewrite Hdb. }
  destruct (run_in_transaction_spec d table v run_id statements 0 (committed (st_db s))
    (mkState db1 (st_world s) (st_events s)) Hddl Hw1)
    as [(s2 & Hrun & Hc2 & Hw2 & Hev2)|(s2 & e & Hrun & Hu)].
  2: { rewrite (sm_bind_err _ _ _ _ _ Hrun). eexists s2, _. split; [done|].
       apply undone_honest. by apply (undone_trans d run_id s (mkState db1 (st_world s) (st_events s))). }
  rewrite (sm_bind_ok _ _ _ _ _ Hrun), (sm_bind_ok _ _ s2 _ _ (run_statement_eq (dd_connection d) (text (commit v)) s2)).
  pose proof (commit_law (st_db s2) _ Hw2) as Hcommit. simpl in Hc2, Hev2.
  destruct (run_sql _ (text (commit v)) (st_db s2)) as [db3 [[]|e]]; cbn [fst snd].
  - destruct Hcommit as [Hc3 Hw3].
    run_event (emit_success_spec d table run_id (count (length statements)) true) s' Hdb Hev.
    eexists s', _. split; [done|]. simpl in Hev. rewrite Hev2 in Hev.
    split; simpl; rewrite ?Hdb; try done; [by rewrite firstn_all|by intros n a [= <- _]].
  - destruct (rollback_and_classify_spec d table v run_id (text "during COMMIT") e
      (mkState db3 (st_world s2) (st_events s2))) as (s' & e' & Hr & Hu).
    rewrite (sm_bind_ok _ _ _ _ _ Hr). eexists s', _. split; [done|]. apply undone_honest.
    apply (undone_trans d run_id s (mkState db3 (st_world s2) (st_events s2))); simpl; congruence.
Qed.

Lemma run_non_atomic_spec d table statements before run_id s x :
  AutocommitLaws (dd_connection d) -> Forall (is_ddl (dd_connection d)) statements ->
  working (st_db s) = None -> committed (st_db s) = effects (dd_connection d) before x ->
  exists s' r, run_non_atomic d table run_id (length before) statements s = (s', r) /\
    (applied r <= length (before ++ statements))%nat /\
    committed (st_db s') = effects (dd_connection d) (take (applied r) (before ++ statements)) x /\
    working (st_db s') = None /\ rollback_failed r = false /\
    (forall n atomic, r = Ok (Success n atomic) -> n = length (before ++ statements)) /\
    emits (match r with Ok (Success _ _) => EventOutcome.Success | _ => EventOutcome.Failure end)
      run_id d (st_events s) (st_events s').
Proof.
  intros Hlaw. revert before s. induction statements as [|sql rest IH]; intros before s Hddl Hw Hc; simpl.
  - run_event (emit_success_spec d table run_id (count (length before)) false) s' Hdb Hev.
    eexists s', _. split; [done|]. simpl. rewrite app_nil_r, Hdb, firstn_all. split_and!; try done.
    by intros n a [= <- _].
  - apply Forall_cons in Hddl as [Hsql Hrest].
    rewrite (sm_bind_ok _ _ s _ _ (run_statement_eq (dd_connection d) sql s)).
    pose proof (autocommit_law sql (st_db s) Hsql Hw) as Hrun.
    destruct (run_sql _ sql (st_db s)) as [db' [[]|e]]; cbn [fst snd]; destruct Hrun as [Hc' Hw'].
    + destruct (IH (before ++ [sql]) (mkState db' (st_world s) (st_events s)) Hrest Hw') as (s' & r & Hr & Hspec).
      { simpl. by rewrite Hc', Hc, effects_app. }
      exists s', r. rewrite length_app, Nat.add_comm in Hr. split; [done|]. by rewrite <- app_assoc in Hspec.
    + run_event (emit_partial_failure_spec d table run_id (length before) e) s' Hdb Hev.
      eexists s', _. split; [done|]. simpl. rewrite Hdb, take_app_length. rewrite length_app.
      split_and!; simpl; try done; [lia|congruence].
Qed.

(** The laws a driver keeps on the path it takes. *)
Definition driver_ok (c : Conn) : Prop :=
  if supports_transactional_ddl c then
    exists v, for_kind (kind c) = Some v /\ TransactionLaws c v
  else AutocommitLaws c.

(** A run is announced and closed under one correlation id. *)
Definition bracketed (d : DdlApplyDeps) (r : result DdlApplyOutcome ExecutorError) s s' : Prop :=
  exists run_id mid, emits EventOutcome.Pending run_id d (st_events s) mid /\
    emits (match r with Ok (Success _ _) => EventOutcome.Success | _ => EventOutcome.Failure end)
      run_id d mid (st_events s').

Lemma run_legacy_spec d table statements run_id s :
  driver_ok (dd_connection d) -> Forall (is_ddl (dd_connection d)) statements ->
  working (st_db s) = None ->
  exists s' r,
    (if supports_transactional_ddl (dd_connection d) then apply_transactional d table statements run_id
     else apply_non_atomic d table statements run_id) s = (s', r) /\
    honest_run d run_id statements s s' r.
Proof.
  unfold driver_ok. intros Hok Hddl Hw. destruct (supports_transactional_ddl (dd_connection d)).
  - destruct Hok as (v & Hv & Hlaws). by apply (apply_transactional_spec d table v).
  - destruct (run_non_atomic_spec d table statements [] run_id s (committed (st_db s)))
      as (s' & r & Hr & Hn & Hc & Hw' & Hrf & Hs & Hev); [done..|].
    exists s', r. split; [done|]. by split.
Qed.

Lemma apply_frozen_legacy_spec d table statements s :
  driver_ok (dd_connection d) -> Forall (is_ddl (dd_connection d)) statements ->
  working (st_db s) = None ->
  exists s' r, apply_frozen_legacy d table statements s = (s', r) /\
    (applied r <= length statements)%nat /\
    committed (st_db s') = effects (dd_connection d) (take (applied r) statements) (committed (st_db s)) /\
    (rollback_failed r = false -> working (st_db s') = None) /\
    (forall n atomic, r = Ok (Success n atomic) -> n = length statements) /\
    (statements = [] \/ bracketed d r s s').
Proof.
  intros Hok Hddl Hw. destruct statements as [|sql rest].
  { exists s, (Ok (Success 0 true)). split_and!; try done; [by intros n a [= <-]|by left]. }
  set (statements := sql :: rest) in *. unfold apply_frozen_legacy.
  change (match statements with [] => mret (Success 0 true) | _ :: _ => ?k end) with k.
  set (id := uuid_to_string (uuids (st_world s) (issued (st_world s)))).
  rewrite (sm_bind_ok _ _ s _ id eq_refl).
  match goal with |- context [emit_pending_event d id ?summary] =>
    run_event (emit_pending_spec d id summary) s1 Hdb Hev end.
  destruct (run_legacy_spec d table statements id s1) as (s' & r & Hr & Hrun);
    [done..|by rewrite Hdb|]. simpl in Hdb, Hev.
  exists s', r. rewrite Hr. destruct Hrun as [Hn Hc Hcl Hsucc Hfin]. rewrite Hdb in Hc.
  split_and!; try done. right. by exists id, (st_events s1).
Qed.

(** ** Refusals *)

(** What is not allowed is not prepared and not run: on a connection that is
    read-only or needs approval, preparing fails, and applying or executing ends
    as blocked or deferred with the database, the environment and the audit log
    as they were. *)
Theorem refused_policies_change_nothing x f s :
  dd_policy (ex_deps x) <> Allowed -> dd_policy (fz_deps f) <> Allowed ->
  is_ok (prepare x) = false /\ is_ok (prepare_all [x]) = false /\
  (exists r, apply x s = (s, Ok r) /\ applied (Ok r) = 0%nat) /\
  (exists r, execute f s = (s, Ok r) /\ applied (Ok r) = 0%nat).
Proof.
  unfold prepare, prepare_all, apply, execute. intros Hx Hf. simpl. unfold ensure_preparation_allowed.
  destruct (dd_policy (ex_deps x)); [done| |]; (split_and!; [done|done|by eexists|]);
    destruct (dd_policy (fz_deps f)); [done|by eexists|by eexists|done|by eexists|by eexists].
Qed.

(** ** Runs over several tables *)

(** The changes a prepared table is to make, one for each statement. *)
Definition steps (f : FrozenDdlApply) : list (Content -> Content) :=
  match fz_execution f with
  | Legacy statements => map (effect (dd_connection (fz_deps f))) statements
  | Managed plan => plan_steps plan
  end.

(** A table prepared for the connection [c], as DDL statements or as a plan. *)
Definition prepared_table (c : Conn) (f : FrozenDdlApply) : Prop :=
  dd_connection (fz_deps f) = c /\
  match fz_execution f with
  | Legacy statements => Forall (is_ddl c) statements
  | Managed plan => PlanLaws plan
  end.

Lemma effects_steps c sqls x : effects c sqls x = run_steps (map (effect c) sqls) x.
Proof. revert x. induction sqls as [|q sqls IH]; intros x; [done|]. apply (IH (effect c q x)). Qed.

Lemma run_steps_app {A} (l k : list (A -> A)) x : run_steps (l ++ k) x = run_steps k (run_steps l x).
Proof. unfold run_steps. apply foldl_app. Qed.

Lemma apply_managed_spec d table plan s :
  PlanLaws plan -> working (st_db s) = None ->
  exists s' r, apply_managed d table plan s = (s', r) /\
    (applied r <= length (plan_steps plan))%nat /\
    committed (st_db s') = run_steps (take (applied r) (plan_steps plan)) (committed (st_db s)) /\
    (forall n atomic, r = Ok (Success n atomic) ->
      n = length (plan_steps plan) /\ working (st_db s') = None).
Proof.
  intros Hlaw Hw. unfold apply_managed.
  set (id := uuid_to_string (uuids (st_world s) (issued (st_world s)))).
  rewrite (sm_bind_ok _ _ s _ id eq_refl).
  match goal with |- context [emit_pending_event d id ?summary] =>
    run_event (emit_pending_spec d id summary) s1 Hdb Hev end.
  simpl in Hdb. pose proof (plan_law (st_db s1) ltac:(by rewrite Hdb)) as Hp.
  unfold mbind at 1, sm_mbind at 1, sm_bind at 1. destruct (plan_execute plan (st_db s1)) as [db' [o|e]].
  - destruct Hp as (Hc & Hw' & Hn). match goal with |- context [emit_success_event d table id ?k ?a] =>
      run_event (emit_success_spec d table id k a) s2 Hdb2 Hev2 end.
    eexists s2, _. split; [reflexivity|]. simpl. rewrite Hn, Nat2Z.id, Hdb2, firstn_all. simpl. rewrite Hc, Hdb.
    split_and!; [done|done|]. by intros n a [= <- _].
  - run_event (emit_failure_spec d table id e) s2 Hdb2 Hev2.
    eexists s2, _. split; [reflexivity|]. simpl. rewrite Hdb2. simpl. rewrite Hp, Hdb.
    split_and!; [lia|done|done].
Qed.

Lemma execute_spec c f s :
  driver_ok c -> prepared_table c f -> working (st_db s) = None ->
  exists s' r, execute f s = (s', r) /\
    (applied r <= length (steps f))%nat /\
    committed (st_db s') = run_steps (take (applied r) (steps f)) (committed (st_db s)) /\
    (forall n atomic, r = Ok (Success n atomic) -> n = length (steps f) /\ working (st_db s') = None).
Proof.
  intros Hok [<- Hex] Hw. unfold execute. destruct (dd_policy (fz_deps f)).
  2,3: eexists s, _; (split; [done|]); simpl; split_and!; [lia|done|done].
  unfold steps. destruct (fz_execution f) as [plan|statements]; [by apply apply_managed_spec|].
  destruct (apply_frozen_legacy_spec (fz_deps f) (fz_table f) statements s)
    as (s' & r & Hr & Hle & Hc & Hcl & Hs & _); [done..|].
  exists s', r. rewrite length_map, firstn_map, <- effects_steps. split_and!; [done..|].
  intros n a ->. split; [by eapply Hs|by apply Hcl].
Qed.

Definition statements_applied (r : result FrozenApplyRunOutcome FrozenApplyFailure) : nat :=
  match r with Ok o => ro_statements_applied o | Err f => rf_statements_applied f end.

Definition all_steps (tables : list FrozenDdlApply) : list (Content -> Content) :=
  concat (map steps tables).

(** What a run over [tables] that started with counts [n] and [k] ends with. *)
Definition run_ends (tables : list FrozenDdlApply) (n k : nat) s s'
  (r : result FrozenApplyRunOutcome FrozenApplyFailure) : Prop :=
  exists m, statements_applied r = (n + m)%nat /\
    committed (st_db s') = run_steps (take m (all_steps tables)) (committed (st_db s)) /\
    match r with
    | Ok o => m = length (all_steps tables) /\ ro_tables_applied o = (k + length tables)%nat
    | Err e => exists i, rf_tables_applied e = (k + i)%nat /\
        fz_table <$> tables !! i = Some (rf_failed_table e) /\
        (length (all_steps (take i tables)) <= m)%nat
    end.

Lemma run_stops f rest n k s s' m e :
  (m <= length (steps f))%nat ->
  committed (st_db s') = run_steps (take m (steps f)) (committed (st_db s)) ->
  run_ends (f :: rest) n k s s' (Err (mkRunFailure (fz_table f) k (n + m) e)).
Proof.
  intros Hm Hc. exists m. split_and!; [done| |].
  - unfold all_steps. simpl. by rewrite take_app_le.
  - exists 0%nat. simpl. split_and!; [lia|done|lia].
Qed.

Lemma run_goes_on f rest n k s s1 s' r :
  committed (st_db s1) = run_steps (steps f) (committed (st_db s)) ->
  run_ends rest (n + length (steps f)) (S k) s1 s' r ->
  run_ends (f :: rest) n k s s' r.
Proof.
  intros Hc (m & Hn & Hm & Hr). exists (length (steps f) + m)%nat.
  unfold all_steps in *. simpl. split_and!; [lia| |].
  - by rewrite take_app_add, run_steps_app, <- Hc.
  - rewrite length_app. destruct r as [o|e].
    + destruct Hr as [-> ->]. split; lia.
    + destruct Hr as (i & Hi & Hf & Hle). exists (S i). simpl. split_and!; [lia|done|].
      rewrite length_app. lia.
Qed.

Lemma execute_tables_spec c tables n k s :
  driver_ok c -> Forall (prepared_table c) tables -> working (st_db s) = None ->
  exists s' r, execute_tables n k tables s = (s', r) /\ run_ends tables n k s s' r.
Proof.
  intros Hok. revert n k s. induction tables as [|f rest IH]; intros n k s Hall Hw; simpl.
  { eexists s, _. split; [done|]. exists 0%nat. simpl. split_and!; [lia|done|done|lia]. }
  apply Forall_cons in Hall as [Hf Hrest].
  destruct (execute_spec c f s Hok Hf Hw) as (s1 & r & -> & Hle & Hc & Hsucc).
  destruct r as [[m a|m at_ e| |b]|e]; simpl in Hle, Hc.
  - destruct (Hsucc m a eq_refl) as [-> Hw1]. rewrite firstn_all in Hc.
    destruct (IH (n + length (steps f))%nat (S k) s1 Hrest Hw1) as (s' & r & Hr & Hends). exists s', r. split; [done|]. by eapply run_goes_on.
  - eexists s1, _. split; [done|]. by apply run_stops.
  - eexists s1, _. split; [done|]. rewrite <- (Nat.add_0_r n) at 2. by apply run_stops.
  - eexists s1, _. split; [done|]. rewrite <- (Nat.add_0_r n) at 2. by apply run_stops.
  - eexists s1, _. split; [done|]. rewrite <- (Nat.add_0_r n) at 2. by apply run_stops.
Qed.

(** C25: the counts of a run are what the database holds.  Tables prepared as
    statements run on a connection that keeps the contract of its kind, with no
    transaction open, and those prepared as plans of the driver keep the contract of
    a plan (all of its changes, one for each statement it counts, or none): the
    run ends; the database has exactly the changes it counts as applied, in
    order; a run that succeeds has applied all of them; and a run that fails names
    the table it failed at, after all changes of the tables before it. *)
Theorem run_counts_what_is_committed c tables s :
  driver_ok c -> Forall (prepared_table c) tables -> working (st_db s) = None ->
  exists s' r, execute_all tables s = (s', r) /\
    committed (st_db s') =
      run_steps (take (statements_applied r) (all_steps tables)) (committed (st_db s)) /\
    match r with
    | Ok o => ro_statements_applied o = length (all_steps tables) /\
              ro_tables_applied o = length tables
    | Err e => fz_table <$> tables !! rf_tables_applied e = Some (rf_failed_table e) /\
               (length (all_steps (take (rf_tables_applied e) tables)) <= rf_statements_applied e)%nat
    end.
Proof.
  intros Hok Hall Hw. destruct (execute_tables_spec c tables 0 0 s Hok Hall Hw) as (s' & r & Hr & m & Hn & Hc & Hend).
  exists s', r. split; [done|]. simpl in Hn. rewrite Hn. split; [done|].
  destruct r as [o|e]; simpl in *; [destruct Hend as [-> ->]; done|].
  destruct Hend as (i & Hi & Hf & Hle). simpl in Hi. by rewrite Hn, Hi.
Qed.

(** One table, run in full or not: the outcome of applying prepared statements
    counts those the database holds, no transaction stays open unless the outcome
    says it could not be rolled back, success means all of them, and a run that
    had statements is announced and closed by one event each, under one
    correlation id, the last one saying whether it succeeded. *)
Theorem table_run_is_honest d table statements s :
  driver_ok (dd_connection d) -> Forall (is_ddl (dd_connection d)) statements ->
  working (st_db s) = None -> statements <> [] ->
  exists s' r, apply_frozen_legacy d table statements s = (s', r) /\
    committed (st_db s') = effects (dd_connection d) (take (applied r) statements) (committed (st_db s)) /\
    (rollback_failed r = false -> working (st_db s') = None) /\
    (forall n atomic, r = Ok (Success n atomic) -> n = length statements) /\
    bracketed d r s s'.
Proof.
  intros Hok Hddl Hw Hne. destruct (apply_frozen_legacy_spec d table statements s Hok Hddl Hw)
    as (s' & r & Hr & _ & Hc & Hcl & Hs & [->|Hb]); [done|]. eauto 10.
Qed.

(** ** Mixed selections *)

Lemma select_changes_refuses columns selected ch :
  ch ∈ selected -> change_column ch = None -> is_ok (select_changes columns selected) = false.
Proof.
  revert columns. induction selected as [|x rest IH]; intros columns Hin Hn; [by apply elem_of_nil in Hin|].
  simpl. destruct (select_change columns x) as [next|] eqn:Hx; [|done].
  apply elem_of_cons in Hin as [<-|Hin]; [|by apply IH].
  pose proof (select_change_spec columns ch) as Hs. by rewrite Hn, Hx in Hs.
Qed.

(** A selection is never applied in part.  When the driver plans alterations
    itself and the selection of a table mixes an alteration or removal of a column
    with any other change, preparing the table fails, and so does preparing any
    run with it. *)
Theorem mixed_selection_is_refused x xs :
  is_Some (table_alter_planner (dd_connection (ex_deps x))) ->
  (exists a, a ∈ ex_changes x /\ is_managed_table_alter_candidate (rc_change a) = true) ->
  (exists b, b ∈ ex_changes x /\ is_managed_table_alter_candidate (rc_change b) = false) ->
  x ∈ xs -> is_ok (prepare x) = false /\ is_ok (prepare_all xs) = false.
Proof.
  intros Hp (a & Ha & Hma) (b & Hb & Hmb) Hx.
  assert (Hprep : is_ok (prepare x) = false).
  { unfold prepare. destruct (ensure_preparation_allowed x); [|done]. unfold prepare_execution, select_table_alter_route.
    rewrite bool_decide_true by done. simpl.
    assert (Hex : existsb (fun r => is_managed_table_alter_candidate (rc_change r)) (ex_changes x) = true).
    { apply existsb_exists. exists a. by rewrite <- list_elem_of_In. }
    rewrite Hex. simpl. unfold normalize_selected_table_alter.
    destruct (validate_identifier _ _); [|done].
    destruct (map rc_change (ex_changes x)) as [|c cs] eqn:Hm; [done|].
    pose proof (select_changes_refuses [] (c :: cs) (rc_change b)) as Href.
    destruct (select_changes [] (c :: cs)); [|done]. discriminate Href.
    - rewrite <- Hm. by apply list_elem_of_fmap_2.
    - by destruct (rc_change b). }
  split; [done|]. unfold prepare_all. destruct (try_map ensure_preparation_allowed xs); [|done].
  destruct (try_map prepare xs) as [fs|] eqn:Htry; [|done].
  apply try_map_Ok in Htry. apply list_elem_of_lookup in Hx as [i Hi].
  destruct (Forall2_lookup_l _ _ _ _ _ Htry Hi) as (f & _ & Hf). by rewrite Hf in Hprep.
Qed.

End Runs.
End DdlApplyProps.

(** ** A driver in memory *)

Import SchemaDrift DdlApply DdlApplyProps.
Import TxControl(DbKind, TransactionVocab, begin, commit, rollback, for_kind).

Definition is_text (s : string) (sql : list char) : bool := bool_decide (sql = text s).

(** A database that keeps the statements it ran, committed and in an open
    transaction, and refuses the statement [bad]. *)
Definition log_run (transactional : bool) (sql : list char)
  (db : list (list char) * option (list (list char)))
  : (list (list char) * option (list (list char))) * result unit (list char) :=
  let '(done_, tx) := db in
  if is_text "BEGIN" sql then ((done_, Some done_), Ok tt)
  else if is_text "COMMIT" sql then ((default done_ tx, None), Ok tt)
  else if is_text "ROLLBACK" sql then ((done_, None), Ok tt)
  else if is_text "bad" sql then (db, Err (text "syntax error"))
  else match tx with
       | Some w => ((done_, Some (w ++ [sql])), Ok tt)
       | None => ((done_ ++ [sql], None), Ok tt)
       end.

(** A connection is whether it has transactional DDL. *)
Definition log_driver : DdlDriver := {|
  Conn := bool;
  Db := list (list char) * option (list (list char));
  Plan := unit;
  CreationMetadata := unit;
  kind _ := TxControl.Postgres;
  supports_transactional_ddl c := c;
  generate_add_column _ r := Ok [text "add " ++ ac_column_name r];
  generate_drop_column _ r := Ok [text "drop " ++ dc_column_name r];
  generate_alter_column _ r := Ok [text "alter " ++ al_column_name r];
  generate_create_index _ _ := None;
  generate_drop_index _ _ := None;
  generate_code _ _ _ := Ok (text "drop table");
  generate_code_with_creation_metadata _ _ _ _ := Ok (text "create table");
  table_alter_planner c := if c then Some (fun _ => Ok tt) else None;
  plan_preview _ := mkPreview Rebuild [] [] true true;
  plan_execute _ db :=
    match db.2 with
    | None => ((db.1 ++ [text "managed"], None), Ok (mkOutcome 1 true))
    | Some _ => (db, Err (text "a transaction is open"))
    end;
  run_sql := log_run;
|}.

Definition log_conn (transactional : bool) : @Conn log_driver := transactional.

Definition log_database : DdlDatabase (H := log_driver) := {|
  Content := list (list char);
  committed := fst : @Db log_driver -> _;
  working := snd : @Db log_driver -> _;
  effect _ sql x := x ++ [sql];
  plan_steps _ := [fun x => x ++ [text "managed"]];
  is_ddl _ sql := negb (is_text "BEGIN" sql || is_text "COMMIT" sql || is_text "ROLLBACK" sql) = true;
|}.

#[local] Existing Instances log_driver log_database text_uuid.
#[local] Instance key_texts : Translations := text.

Lemma log_driver_ok (c : bool) : driver_ok (log_conn c).
Proof.
  assert (Hplain : forall sql, is_ddl (log_conn c) sql ->
    is_text "BEGIN" sql = false /\ is_text "COMMIT" sql = false /\ is_text "ROLLBACK" sql = false).
  { intros sql Hsql. apply negb_true_iff in Hsql. rewrite !orb_false_iff in Hsql. tauto. }
  unfold driver_ok. destruct c; simpl.
  - eexists. split; [reflexivity|]. split.
    + intros [done_ tx] Hw. by vm_compute.
    + intros sql [done_ tx] w Hsql Hw. simpl in *. subst tx. destruct (Hplain sql Hsql) as (-> & -> & ->).
      by destruct (is_text "bad" sql).
    + intros [done_ tx] w Hw. simpl in *. by subst tx.
    + by intros [done_ tx].
  - intros sql [done_ tx] Hsql Hw. simpl in *. subst tx. destruct (Hplain sql Hsql) as (-> & -> & ->).
    by destruct (is_text "bad" sql).
Qed.

Definition demo_deps (transactional : bool) (policy : MutationPolicy) : DdlApplyDeps :=
  mkDeps (log_conn transactional) true "conn" "driver" policy None.

Definition demo_frozen (transactional : bool) (name : string) (sqls : list string) : FrozenDdlApply :=
  mkFrozen (mkTableRef None (text name)) (demo_deps transactional Allowed) (Legacy (map text sqls)).

Definition demo_state : ApplyState := mkState ([], None) plain_world [].

(** A table the driver manages, and two of statements: the last fails at its second
    statement, and the tables before it and one statement of the last are there. *)
Definition demo_tables (transactional : bool) : list FrozenDdlApply :=
  [mkFrozen (mkTableRef None (text "m")) (demo_deps transactional Allowed) (Managed tt);
   demo_frozen transactional "a" ["a1"; "a2"]; demo_frozen transactional "b" ["b1"; "bad"; "b2"]].

Lemma demo_plan_ok (p : @Plan log_driver) : PlanLaws p.
Proof. intros [done_ tx] Hw. simpl in *. by subst tx. Qed.

Lemma demo_tables_prepared (c : bool) : Forall (prepared_table (log_conn c)) (demo_tables c).
Proof. constructor; [split; [done|apply demo_plan_ok]|]. repeat constructor. Qed.

Lemma run_counts_what_is_committed_witness :
  exists s' e, execute_all (demo_tables false) demo_state = (s', Err e) /\
    rf_statements_applied e = 4%nat /\ rf_tables_applied e = 2%nat /\
    committed (st_db s') = map text ["managed"; "a1"; "a2"; "b1"].
Proof.
  destruct (run_counts_what_is_committed (log_conn false) (demo_tables false) demo_state
    (log_driver_ok false) (demo_tables_prepared false) eq_refl) as (s' & r & Hrun & Hc & _).
  vm_compute in Hrun. injection Hrun as <- <-.
  eexists _, _. split; [vm_compute; reflexivity|]. split; [reflexivity|]. split; [reflexivity|].
  etransitivity; [exact Hc|]. vm_compute. reflexivity.
Defined.

Lemma table_run_is_honest_witness :
  exists s' r, apply_frozen_legacy (demo_deps true Allowed) (mkTableRef None (text "b"))
      (map text ["b1"; "bad"]) demo_state = (s', r) /\
    r = Err (Transaction (text "DDL apply aborted and rolled back at statement 1: syntax error")) /\
    committed (st_db s') = [] /\ bracketed (demo_deps true Allowed) r demo_state s'.
Proof.
  destruct (table_run_is_honest (demo_deps true Allowed) (mkTableRef None (text "b"))
    (map text ["b1"; "bad"]) demo_state) as (s' & r & Hrun & Hc & _ & _ & Hb).
  - apply (log_driver_ok true).
  - repeat constructor.
  - reflexivity.
  - discriminate.
  - exists s', r. split; [exact Hrun|].
    assert (Hr : r = Err (Transaction (text "DDL apply aborted and rolled back at statement 1: syntax error")))
      by (vm_compute in Hrun; injection Hrun as _ <-; vm_compute; reflexivity).
    split; [exact Hr|]. split; [|exact Hb]. rewrite Hr in Hc. exact Hc.
Defined.

Definition demo_change (change : SchemaChange) : RiskedChange := risked change.
Definition demo_snapshot : ColumnSnapshot := mkColumn (text "x") (text "int") true false None.

(** A removed column and an added one. *)
Definition mixed_executor (policy : MutationPolicy) : DdlApplyExecutor :=
  executor_new (mkTableRef None (text "t"))
    [demo_change (ColumnRemoved demo_snapshot); demo_change (ColumnAdded demo_snapshot)]
    (demo_deps true policy).

Lemma mixed_selection_is_refused_witness :
  is_ok (prepare (mixed_executor Allowed)) = false /\
  is_ok (prepare_all [mixed_executor Allowed]) = false.
Proof.
  apply (mixed_selection_is_refused (mixed_executor Allowed) [mixed_executor Allowed]).
  - eexists. reflexivity.
  - exists (demo_change (ColumnRemoved demo_snapshot)). split; [left|reflexivity].
  - exists (demo_change (ColumnAdded demo_snapshot)). split; [right; left|reflexivity].
  - left.
Defined.

Lemma refused_policies_change_nothing_witness :
  is_ok (prepare (mixed_executor ReadOnly)) = false /\
  exists r, apply (mixed_executor ReadOnly) demo_state = (demo_state, Ok r).
Proof.
  destruct (refused_policies_change_nothing (mixed_executor ReadOnly)
    (mkFrozen (mkTableRef None (text "t")) (demo_deps true ApprovalRequired) (Legacy [])) demo_state)
    as (Hp & _ & (r & Hr & _) & _); [discriminate|discriminate|].
  split; [exact Hp|]. exists r. exact Hr.
Defined.
